(* ===== verification/_CoqProject ===== *)
-Q . S2P
Prelude.v
GoLoops.v
SafeCasts.v
Crc32.v
WalCodec.v
WalLog.v
WalProofs.v
WalRecovery.v
WalTheorems.v
WalBatch.v
WalAsync.v
Float32.v
Binary.v
Heap.v
Hnsw.v
Distance.v
HnswNode.v
HnswSearch.v
HnswGraph.v
HnswInsert.v
HnswSpec.v
HnswTheorems.v
HnswQuery.v
HnswQueryTheorems.v
HnswFilter.v
Visited.v
Cache.v
PayloadFilter.v
PayloadIndex.v
Auth.v
Point.v
PointV2.v
Sparse.v
Config.v
SearchCache.v
HnswContents.v
Collection.v
CollectionSpec.v
CollectionLog.v
Manager.v
Recovery.v
RecoveryTheorems.v
Shard.v
Aliases.v
Ring.v
Cluster.v
Gossip.v
ShardRecovery.v
Fsm.v
Text.v
Regexp.v
Sql.v
SqlScan.v
SqlShow.v
SqlTheorems.v
SqlTotal.v
SqlSelect.v
SqlExec.v
Quantization.v
QuantBits.v
QuantScalar.v
QuantProduct.v
Kmeans.v
Ivf.v
IvfClusters.v
IvfTheorems.v
PointBatch.v
MultiVector.v
AnyMap.v
Discovery.v
DiscoveryGroups.v
Facets.v
PayloadConfig.v
Explain.v
FloatDiv.v
Geo.v
Vamana.v
VamanaGraphs.v
VamanaSearch.v
VamanaDisk.v
