(* ===== verification/Prelude.v ===== *)
(** * LimyeDB: a verified model of the storage, index and cluster core

    LimyeDB is a vector database written in Go. A write goes to the write-ahead
    log, then into a collection, which keeps an HNSW graph index over the vectors,
    a sparse index and a payload index over the attached data; a query descends
    the graph, filters what it finds by payload and may be answered from a cache.
    A manager keeps the collections of a server and restores them from the log;
    shards, a hash ring and gossip spread them over nodes. This library models
    that core as executable definitions and proves what makes each part correct. Paths below are relative to the root of the repository.

    ** Conventions

    A Go function that returns [(T, error)] is a function into [result], whose
    third constructor is a run-time panic; a method that changes its receiver is
    a computation [M S E A] that returns the changed state also when it fails.
    Integers are [Z] with the wrap-around of their width written out ([u32],
    [i64], ...); [float32] and [float64] are the Standard Library's [spec_float]
    with the rounding of their format; a map is a [gmap] or, where identity or
    order matters, a list; a range over a map runs in the order of a [MapOrder],
    which may be any. Locks are not modelled: each operation runs as one step, and
    the background writer of the log is a schedule of steps. The exception is
    gossip, whose mutex is part of the state. Shared objects are locations of a
    store ([Ring], [Cluster]). A loop
    that is not structural takes fuel, and every theorem about it shows that the
    fuel given is enough.

    ** Files

    - [Prelude]: results, the state monad, machine integers, bytes, slices.
      [GoLoops]: loops over slices with an index, and their invariants.
    - [SafeCasts] (internal/safecasts/safecasts.go): the checked and the
      saturating integer conversions.
    - The write-ahead log (pkg/storage/wal/wal.go). [Crc32]: the checksum.
      [WalCodec]: [encodeRecord] and [decodeRecord]. [WalLog]: the state [WAL]
      over a [world] of files, a clock and injected I/O failures, with the
      buffering of [bufio], [Write], [WriteBatch], [rotate], [Sync], [Close],
      [Replay], [Truncate], [Open] and the asynchronous writer. [WalProofs]: the
      invariant [log_inv] that relates files, buffer and acknowledged records,
      and total-correctness triples [runs] for fault-free worlds. [WalRecovery]:
      reopening after a crash. [WalTheorems], [WalBatch], [WalAsync]: the
      properties.
    - [Float32]: order and exactness of IEEE values. [Heap]: container/heap, its
      permutations, heap order and sorted drain.
    - The HNSW index (pkg/index/hnsw). [Hnsw]: nodes, index state and the
      operations of hnsw.go in memory mode; the distance calculator, the
      quantizer and [sort.Slice] are interfaces ([Calculator], [Quantizer],
      [Sorter]) and the random level of an insertion is an argument. [HnswSearch]:
      termination, soundness, order and exhaustiveness of one layer's search.
      [HnswGraph]: the invariant [wf] and the neighbour heuristic. [HnswInsert]:
      insertion keeps [wf]. [HnswSpec]: the abstract store and the simulation.
      [HnswTheorems]: the properties. [HnswQuery], [HnswQueryTheorems],
      [HnswFilter]: the queries of search.go and their properties.
    - [Distance] (pkg/distance): the metrics as amd64 computes them (the
      assembly is disabled there), batches and [FindNearest].
    - Quantizers (pkg/quantization). [Quantization]: the four quantizers of
      quantization.go and pq.go and their construction. [QuantBits]: their loops,
      codes as bits, and what holds of binary codes, sorting and uncompressed
      codes. [QuantScalar]: training, configurations, and the quantizers behind
      the interface of the index. [QuantProduct]: product codes.
    - The inverted file index (pkg/index/ivf). [Kmeans]
      (cluster.go): seeding, Lloyd's iterations and the nearest centroids, over any
      generator [Rng]. [Ivf] (ivf.go, search.go): the index, with the quantizers of
      [Quantization]. [IvfClusters]: the invariant [ivf_inv]. [IvfTheorems]: the
      properties.
    - [Visited] (internal/pool/pool.go, pkg/index/hnsw/node.go): the visited
      list of the pool behind the interface [Tracker], [VisitedSet], [BitSet].
    - [Cache] (pkg/cache/cache.go): the LRU cache with its elements' identities.
    - [PayloadFilter] (pkg/index/payload/filter.go): values, filters, evaluation,
      Qdrant conversion, validation. [PayloadIndex] (pkg/index/payload/index.go): the
      compilation of filters to SQL and the index over a database interface.
    - [HnswNode] (pkg/index/hnsw/node.go): the remaining list operations of a
      node. [Auth] (pkg/auth/rbac.go): the permission checks on token claims.
    - Points (pkg/point). [Binary]: values on a byte stream and decoders that read
      exactly one encoding. [Point] (point.go) and [PointV2] (named_vectors.go):
      validation, normalisation, encoding. [PointBatch] (batch.go): batches, their
      parallel processing and the ring buffer. [MultiVector] (multivector.go):
      several vectors per point, late interaction, truncation.
    - [Sparse] (pkg/index/sparse/sparse.go): sparse vectors, the
      inverted index, BM25 and the fusion of dense and sparse results.
    - Collections (pkg/collection, pkg/config). [Config]: settings. [SearchCache]
      (pkg/cache/cache.go): the cache of searches. [HnswContents]: what an index
      holds, for its client. [Collection] (collection.go): the operations, over the
      interfaces [Log] and [Database]. [CollectionSpec]: the abstract table of a
      collection and the operations that act on it. [CollectionLog]: what a durable
      log promises ([DurableLog]), discharged by the write-ahead log. [Manager]
      (manager.go, recovery.go), [Recovery], [RecoveryTheorems]: the server, its
      crashes and the replay of its log. [Shard] (shard.go):
      shards behind one manager. [Aliases] (aliases.go): names for collections.
      [AnyMap]: maps keyed by interface values. [Discovery], [DiscoveryGroups]
      (discovery.go): queries by examples, grouped searches. [Facets] (facets.go):
      counts of values and of ranges. [PayloadConfig] (payload_config.go): the
      payload indexes and their schema. [Explain] (explain.go): query plans.
    - The geo index (pkg/index/geo). [FloatDiv]: dividing doubles by one divisor
      keeps their order. [Geo] (geo.go): shapes, the grid index, geohashes.
    - The DiskANN index (pkg/index/diskann). [Vamana]: the graph of vamana.go with
      its nodes, prunings, searches and construction. [VamanaGraphs]: its invariant
      and its contract. [VamanaSearch]: what the searches return. [VamanaDisk]
      (storage.go): the records of nodes in a file.
    - The cluster (pkg/cluster). [Ring]: nodes and the hash ring of
      cluster.go. [Cluster]: its shard table and coordinator.
      [Gossip] (gossip.go): membership. [ShardRecovery]
      (recovery.go): shards streamed from other nodes. [Fsm] (fsm.go): the commands
      of the Raft log on the manager.
    - The query language (pkg/query). [Text]: Go's strings as bytes, with the
      functions of strings, strconv and utf8. [Regexp]: the expressions of regexp
      with their priorities. [Sql] (sql_parser.go): the parser. [SqlScan]: splitting
      at keywords. [SqlShow]: a printer for conditions. [SqlTheorems], [SqlTotal],
      [SqlSelect]: conditions, totality, statements. [SqlExec] (executor.go): the
      statements on the server.

    ** What the theorems show

    - Log: an acknowledged record survives a crash and is replayed once and in
      order ([replay_after_crash], [replay_running]); a batch is replayed whole or
      not at all, wherever in it the machine stops ([batch_all_or_nothing],
      [batch_cut_at_record]), unless it stops inside a record, which makes the replay
      fail ([torn_segment]); encoding round-trips and a changed byte is
      noticed ([encode_decode_roundtrip], [corrupt_payload_detected]); [Close]
      makes every accepted asynchronous record durable, whatever the schedule and
      whether the queue was full or not ([async_close_durable]); truncation keeps what it must after a reopen
      ([truncate_keeps_recent]). Where the code falls short the theorem says how:
      [torn_segment], [truncate_after_rotate_drops], [failed_batch_hides_write],
      [decode_wrapped_length_panics].
    - Index: every history answers like an abstract store and never panics
      ([index_refines_store]); the graph keeps its degree bounds and layers
      ([graph_invariant]); searches terminate, are sound, and are exact when the
      width covers the nodes of a connected layer ([search_sound],
      [search_exact], [range_search_exact], [filtered_search_sound],
      [discover_sound]); the descent ends at a local optimum
      ([greedy_local_optimum]); the heuristic fills its quota with a diverse
      prefix ([heuristic_selects]); every value of the search width is known
      ([adaptive_ef_bounds]). Deleted points: [deleted_id_rejected],
      [deleted_entry_returned], [range_search_deleted_entry].
    - Metrics: symmetry, the equality of the parallel and the sequential batch
      and the selection of the nearest ([metric_symmetric],
      [parallel_batch_equals_sequential], [FindNearest_exact]), and the two
      cases that fail ([parallel_batch_empty_panics], [FindNearest_dot_farthest]).
    - Quantizers: the distance of binary codes counts the dimensions that differ
      ([binary_distance_counts], [binary_batch_is_map], [binary_recode]); product
      codes name nearest centroids ([pq_encodes_nearest], [pq_batch_sums],
      [pq_trained_vector_at_zero]); calls answer like the interface that [Hnsw]
      assumes ([settled_refines_interface]), but for a scalar quantizer that trains
      itself on its first vector ([scalar_single_training_collapses]); and the
      configurations that panic ([type_only_config_panics]).
    - Inverted file: the clusters partition the points by nearest centroid
      ([clusters_partition]); a search returns the nearest points of the clusters it
      probes, all points when it probes all ([ivf_search_probed],
      [ivf_search_exact], [nearest_centroids_exact]); what a range search misses
      ([range_search_characterised]), and what deletion leaves
      ([ivf_delete_only_counts], [search_for_none_panics]).
    - Visited list and cache refine a set and an LRU list
      ([visited_list_refines_set], [lru_refines]); a cache without capacity hangs
      ([zero_capacity_hangs]).
    - Filters: totality, De Morgan with short circuits, the meaning of converted
      Qdrant filters, and a parameterised query text ([evaluate_safe],
      [evaluate_de_morgan], [qdrant_filter_semantics], [query_parameterised]),
      with [bounds_on_missing_field] and [qdrant_range_one_bound] for what
      surprises.
    - Permissions: the order of the access levels, and the role spelling that
      breaks it ([access_levels]).

    - Points and sparse vectors: encoding round-trips and truncations are rejected
      ([point_roundtrip], [pointv2_roundtrip], [sparse_roundtrip]), what is decoded
      is well typed ([decode_typed]); the rankings are exact
      ([sparse_search_exact], [bm25_search_exact], [rrf_fusion]).
    - Server: over the log synced on write, a server that crashes between calls
      answers like a map of tables ([recovery_transparent]); paging visits each
      point once ([scroll_complete]); and the calls that break this:
      [recreated_collection_restored], [upsert_loses_point], [named_insert_panics].
    - Shards and aliases refine one store and one map ([shards_refine_store],
      [shard_search_nearest], [aliases_refine_map]).
    - Batches: the parts of a batch are balanced ([partition_balanced]), every point
      is accounted for whatever the schedule ([process_accounts]), the buffer is a
      bounded queue ([ring_refines_queue]). Multi vectors: [multivector_config_valid],
      [maxsim_greatest], [truncation_prefix].
    - Discovery: ranked live points that pass the filter ([discover_ranked]); grouped
      searches agree with a reference grouping ([group_search_groups]). Facets count
      every occurrence and list the counts in order ([facet_counts],
      [range_facet_counts]), print integers
      ([int_text]), but panic on maps and never find automatic ranges
      ([facet_map_panics], [auto_ranges_empty]). The schema of the payload indexes is
      a set of names ([schema_refines_names], [index_config_valid]); plans count what
      they read ([filter_plan_uses_indexes], [suggested_fields]), which leaves out the
      filters the package builds ([package_filters_unplanned]).
    - Geo: the cells hold the points ([cells_hold_log]); box searches are exact
      ([box_search_exact]) away from the antimeridian ([crossing_box_empty]); what is
      found matches ([search_filter_matches]); a document added twice stays
      ([readded_document_stays]); coarse geohashes are prefixes of finer ones
      ([geohash_prefixes]).
    - DiskANN: a Vamana graph stays well formed and answers as a map of points
      ([vamana_refines_store]); its beam search is the search of one HNSW layer
      ([beam_search_same]) and exact on a graph it can reach
      ([vamana_search_exact], [vamana_range_exact], [vamana_filtered_sound]);
      pruned neighbours are diverse ([robust_prune_diverse]); the construction waits
      for a lock it holds ([build_never_returns]); a node on disk keeps its edges and
      the integer part of its vector ([node_read_back], [other_nodes_kept]).
    - Cluster: a membership change moves only the keys it has to
      ([ring_moves_only_its_keys], [replica_sets]); shards are spread over the
      members after every history ([shards_spread]); a silent member drops out of
      the replica sets ([silent_member_excluded]). Gossip converges
      ([gossip_converges], [join_agrees]) as long as nobody fails
      ([failed_probe_freezes]). A recovery waits for as long as its source is silent;
      one that ends is complete exactly when all its data was imported and, with
      checksums, verified ([recovery_verified]); it happens once
      ([recovery_never_repeated]).
      Nodes that apply the same log answer and read the same ([replicas_agree]).
    - Queries: the parser returns on every ASCII text ([parse_total]) and reads what
      is written ([where_roundtrip], [select_roundtrip]); a SELECT so written answers
      what it says of the tables of the server, cell by cell ([select_answers]); a search with a
      condition fails ([search_where_lost]).

    ** Bounds and fuel

    The search loops get one round per node and one more: a node enters a queue
    or heap at most once ([rounds]). [greedySearchLayer] strictly decreases the
    distance, so the number of nodes bounds it. Decoding a segment consumes at
    least one byte per record. The eviction loop of the cache removes one entry
    per round, so the capacity is enough. Sizes are bounded where a machine
    product could wrap: [M] up to [2^62 - 1], filtered widths up to [2^47].

    ** Not modelled

    What fsync adds to write: a crash keeps every byte handed to the system.
    The memory-mapped mode of the index and of the vector stores, whose state is
    pages of the operating system; snapshots and backups, which move files; the Raft
    library, its transport, sockets and webhooks; token signing, certificates and
    rate limits, which are calls of libraries and clocks; JSON codecs; metrics,
    tuning, embedding, ingestion and visualisation, which are periphery or calls of
    remote services; and the HTTP and gRPC handlers, which translate requests into
    the operations modelled here. The ScaNN index is used by no other package. *)
From stdpp Require Import base gmap strings list fin_maps numbers sorting.
From Stdlib Require Import Strings.Byte ZArith Lia.

(** ** Results of Go calls

    A Go function that returns [(T, error)] and may panic is a function into
    [result E T]: [Ok] for a nil error, [Err] for a non-nil one and [Panic] for
    a run-time panic (index or slice out of range, nil dereference). *)
Inductive result (E A : Type) : Type :=
| Ok (a : A)
| Err (e : E)
| Panic.
Arguments Ok {E A} a.
Arguments Err {E A} e.
Arguments Panic {E A}.

#[export] Instance result_eq_dec {E A} `{EqDecision E, EqDecision A} :
  EqDecision (result E A).
Proof. solve_decision. Defined.

#[export] Instance result_ret {E} : MRet (result E) := λ A a, Ok a.
#[export] Instance result_bind {E} : MBind (result E) := λ A B f m,
  match m with Ok a => f a | Err e => Err e | Panic => Panic end.

Lemma Ok_bind {E A B} (a : A) (f : A → result E B) : (Ok a ≫= f) = f a.
Proof. reflexivity. Qed.

(** ** State-passing computations

    A method with a pointer receiver is a computation on the state it mutates:
    the state is returned whether or not the call succeeds. *)
Definition M (S E A : Type) : Type := S → result E A * S.

#[export] Instance M_ret {S E} : MRet (M S E) := λ A a s, (Ok a, s).
#[export] Instance M_bind {S E} : MBind (M S E) := λ A B f m s,
  match m s with
  | (Ok a, s') => f a s'
  | (Err e, s') => (Err e, s')
  | (Panic, s') => (Panic, s')
  end.

Definition get {S E} : M S E S := λ s, (Ok s, s).
Definition put {S E} (s : S) : M S E unit := λ _, (Ok tt, s).
Definition gets {S E A} (f : S → A) : M S E A := λ s, (Ok (f s), s).
Definition modify {S E} (f : S → S) : M S E unit := λ s, (Ok tt, f s).
Definition throw {S E A} (e : E) : M S E A := λ s, (Err e, s).
Definition panic {S E A} : M S E A := λ s, (Panic, s).
Definition lift {S E A} (r : result E A) : M S E A := λ s, (r, s).
Definition when {S E} (b : bool) (m : M S E unit) : M S E unit :=
  if b then m else mret tt.

Create HintDb go.

(** Unfolds the state monad down to its primitive steps. *)
Ltac unfold_M :=
  unfold mret, mbind, M_ret, M_bind, get, put, gets, modify, throw, panic, lift,
    when in *.

(** Inverts a successful run of a bind, step by step. *)
Lemma M_bind_Ok {S E A B} (m : M S E A) (f : A → M S E B) s s' b :
  (m ≫= f) s = (Ok b, s') → ∃ a s1, m s = (Ok a, s1) ∧ f a s1 = (Ok b, s').
Proof.
  unfold mbind, M_bind. destruct (m s) as [[a|e|] s1]; intros H; simplify_eq.
  eauto.
Qed.

Lemma M_bind_Err {S E A B} (m : M S E A) (f : A → M S E B) s s' e :
  m s = (Err e, s') → (m ≫= f) s = (Err e, s').
Proof. intros H. unfold mbind, M_bind. by rewrite H. Qed.

Lemma M_bind_run {S E A B} (m : M S E A) (f : A → M S E B) s s1 a :
  m s = (Ok a, s1) → (m ≫= f) s = f a s1.
Proof. unfold mbind, M_bind. by intros ->. Qed.

Lemma get_bind {S E A} (f : S → M S E A) s : (x ← get; f x) s = f s s.
Proof. done. Qed.

(** [minv H as x s E] splits [H : (m ≫= f) s0 = (Ok _, _)] into
    [E : m s0 = (Ok x, s)] and [H : f x s = (Ok _, _)]. *)
Tactic Notation "minv" hyp(H) "as" simple_intropattern(x) ident(s) ident(E) :=
  apply M_bind_Ok in H as (x & s & E & H).

(** ** Fixed-width integers

    A Go integer of width [w] is the [Z] it denotes; arithmetic that can leave
    the range wraps as the language does. [int] is the 64-bit [int] of the
    supported platforms. *)
#[local] Open Scope Z_scope.

Definition MaxUint16 : Z := 65535.
Definition MaxUint32 : Z := 4294967295.
Definition MaxUint64 : Z := 18446744073709551615.
Definition MaxInt32 : Z := 2147483647.
Definition MinInt32 : Z := -2147483648.
Definition MaxInt64 : Z := 9223372036854775807.
Definition MinInt64 : Z := -9223372036854775808.
Definition MaxInt : Z := MaxInt64.
Definition MinInt : Z := MinInt64.

Definition u8 (z : Z) : Z := z `mod` 2 ^ 8.
Definition u16 (z : Z) : Z := z `mod` 2 ^ 16.
Definition u32 (z : Z) : Z := z `mod` 2 ^ 32.
Definition u64 (z : Z) : Z := z `mod` 2 ^ 64.

(** Two's complement reinterpretation to a signed integer of width [w]. *)
Definition swrap (w z : Z) : Z :=
  let m := z `mod` 2 ^ w in if m <? 2 ^ (w - 1) then m else m - 2 ^ w.
Definition i32 : Z → Z := swrap 32.
Definition i64 : Z → Z := swrap 64.

(** [len] of a slice or string, an [int]. *)
Definition len {A} (l : list A) : Z := Z.of_nat (length l).

Lemma len_nonneg {A} (l : list A) : (0 ≤ len l)%Z.
Proof. unfold len; lia. Qed.

Lemma len_app {A} (l k : list A) : len (l ++ k) = (len l + len k)%Z.
Proof. unfold len; rewrite length_app; lia. Qed.

Lemma len_cons {A} (x : A) l : len (x :: l) = (len l + 1)%Z.
Proof. unfold len; simpl; lia. Qed.

Lemma len_nil {A} : len (@nil A) = 0%Z.
Proof. reflexivity. Qed.

(** Lengths of concatenations: rewrite them to sums and decide. *)
#[export] Hint Rewrite @len_app @len_cons @len_nil : go.
Ltac len_lia := autorewrite with go in *; lia.


Lemma swrap_id w z :
  (0 < w)%Z → (- 2 ^ (w - 1) ≤ z < 2 ^ (w - 1))%Z → swrap w z = z.
Proof.
  intros Hw Hz. unfold swrap.
  assert (E : (2 ^ w = 2 * 2 ^ (w - 1))%Z).
  { rewrite <- Z.pow_succ_r by lia. f_equal; lia. }
  destruct (decide (0 ≤ z)%Z) as [Hp|Hn].
  - rewrite Z.mod_small by lia. destruct (Z.ltb_spec z (2 ^ (w - 1))); lia.
  - replace (z `mod` 2 ^ w)%Z with (z + 2 ^ w)%Z.
    + destruct (Z.ltb_spec (z + 2 ^ w) (2 ^ (w - 1))); lia.
    + symmetry. rewrite <- (Z.mod_add z 1) by lia.
      rewrite Z.mod_small by lia. lia.
Qed.

Lemma swrap_range w z :
  (0 < w)%Z → (- 2 ^ (w - 1) ≤ swrap w z < 2 ^ (w - 1))%Z.
Proof.
  intros Hw. unfold swrap.
  assert (E : (2 ^ w = 2 * 2 ^ (w - 1))%Z).
  { rewrite <- Z.pow_succ_r by lia. f_equal; lia. }
  assert (0 < 2 ^ (w - 1))%Z by (apply Z.pow_pos_nonneg; lia).
  pose proof (Z.mod_pos_bound z (2 ^ w) ltac:(lia)).
  destruct (Z.ltb_spec (z `mod` 2 ^ w) (2 ^ (w - 1))); lia.
Qed.

(** ** Bytes *)
Definition byte_val (b : byte) : Z := Z.of_N (Byte.to_N b).

Definition byte_of (z : Z) : byte :=
  match Byte.of_N (Z.to_N (z `mod` 256)) with Some b => b | None => x00 end.

#[export] Instance byte_eq_dec : EqDecision byte := Byte.byte_eq_dec.

Lemma byte_val_range b : (0 ≤ byte_val b < 256)%Z.
Proof. unfold byte_val. pose proof (Byte.to_N_bounded b). lia. Qed.

Lemma byte_val_of z : byte_val (byte_of z) = (z `mod` 256)%Z.
Proof.
  unfold byte_of, byte_val.
  pose proof (Z.mod_pos_bound z 256 ltac:(lia)) as Hb.
  destruct (Byte.of_N _) as [b|] eqn:E.
  - apply Byte.to_of_N in E. rewrite E. lia.
  - exfalso. apply Byte.of_N_None_iff in E. lia.
Qed.

Lemma byte_of_val b : byte_of (byte_val b) = b.
Proof.
  unfold byte_of. pose proof (byte_val_range b).
  rewrite Z.mod_small by lia. unfold byte_val.
  rewrite N2Z.id, Byte.of_to_N. reflexivity.
Qed.

Lemma byte_val_inj b c : byte_val b = byte_val c → b = c.
Proof. intros H. by rewrite <- (byte_of_val b), H, byte_of_val. Qed.

(** [[]byte(s)] and [string(bs)]: Go strings are byte sequences. *)
Definition bytes_of_string (s : string) : list byte := String.list_byte_of_string s.
Definition string_of_bytes (l : list byte) : string := String.string_of_list_byte l.

Lemma string_bytes_round s : string_of_bytes (bytes_of_string s) = s.
Proof. apply String.string_of_list_byte_of_string. Qed.

(** ** Little-endian integers (encoding/binary) *)
Fixpoint le_put (n : nat) (z : Z) : list byte :=
  match n with
  | O => []
  | S n => byte_of z :: le_put n (z `div` 256)
  end.

Fixpoint le_get (l : list byte) : Z :=
  match l with
  | [] => 0
  | b :: l => byte_val b + 256 * le_get l
  end%Z.

Definition PutUint16 : Z → list byte := le_put 2.
Definition PutUint32 : Z → list byte := le_put 4.
Definition PutUint64 : Z → list byte := le_put 8.

Lemma length_le_put n z : length (le_put n z) = n.
Proof. revert z; induction n as [|n IH]; intros z; simpl; by rewrite ?IH. Qed.

Lemma le_get_put n z : le_get (le_put n z) = (z `mod` 256 ^ Z.of_nat n)%Z.
Proof.
  revert z; induction n as [|n IH]; intros z; simpl le_put; simpl le_get.
  - by rewrite Z.mod_1_r.
  - rewrite IH, byte_val_of, Nat2Z.inj_succ, Z.pow_succ_r by lia.
    rewrite Z.rem_mul_r; lia.
Qed.

Lemma le_get_range l : (0 ≤ le_get l < 256 ^ len l)%Z.
Proof.
  unfold len. induction l as [|b l IH]; [simpl; lia|].
  cbn [le_get length]. rewrite Nat2Z.inj_succ, Z.pow_succ_r by lia.
  pose proof (byte_val_range b). nia.
Qed.

Lemma le_put_get l : le_put (length l) (le_get l) = l.
Proof.
  induction l as [|b l IH]; [done|]. cbn [length le_put le_get].
  pose proof (byte_val_range b).
  rewrite Z.mul_comm, Z.div_add, Z.div_small by lia.
  rewrite Z.add_0_l, IH. f_equal.
  apply byte_val_inj. rewrite byte_val_of, Z.mod_add by lia.
  by apply Z.mod_small.
Qed.

(** ** Slicing

    [buf[lo:hi]] panics unless [0 <= lo <= hi <= cap(buf)]; every slice the
    sources re-slice here was made with capacity equal to its length. *)
Definition slice {E A} (buf : list A) (lo hi : Z) : result E (list A) :=
  if (0 <=? lo)%Z && (lo <=? hi)%Z && (hi <=? len buf)%Z
  then Ok (take (Z.to_nat (hi - lo)) (drop (Z.to_nat lo) buf))
  else Panic.

Lemma slice_backwards {E A} (buf : list A) lo hi :
  (hi < lo)%Z → slice (E:=E) buf lo hi = Panic.
Proof.
  intros H. unfold slice. rewrite (proj2 (Z.leb_gt lo hi)) by done. by rewrite andb_false_r.
Qed.

(** [buf[i]] *)
Definition index {E A} (buf : list A) (i : Z) : result E A :=
  if (0 <=? i)%Z then
    match buf !! Z.to_nat i with Some x => Ok x | None => Panic end
  else Panic.

(** Slices and indexes of a buffer at the boundary of its known parts. *)
Lemma slice_app {E A} (a b c : list A) lo hi :
  lo = len a → hi = (len a + len b)%Z →
  slice (E:=E) (a ++ b ++ c) lo hi = Ok b.
Proof.
  intros -> ->. unfold slice. rewrite !len_app.
  pose proof (len_nonneg a). pose proof (len_nonneg b). pose proof (len_nonneg c).
  rewrite !(proj2 (Z.leb_le _ _)) by lia. simpl.
  replace (Z.to_nat (len a + len b - len a)) with (length b) by (unfold len; lia).
  replace (Z.to_nat (len a)) with (length a) by (unfold len; lia).
  by rewrite drop_app_length, take_app_length.
Qed.

Lemma slice_app_l {E A} (a c : list A) hi :
  hi = len a → slice (E:=E) (a ++ c) 0 hi = Ok a.
Proof. intros ->. by apply (slice_app [] a c). Qed.

Lemma slice_app_r {E A} (a b : list A) lo hi :
  lo = len a → hi = (len a + len b)%Z → slice (E:=E) (a ++ b) lo hi = Ok b.
Proof. intros. rewrite <- (app_nil_r b) at 1. by apply slice_app. Qed.

Lemma slice_all {E A} (a : list A) hi :
  hi = len a → slice (E:=E) a 0 hi = Ok a.
Proof. intros. rewrite <- (app_nil_r a) at 1. by apply slice_app_l. Qed.

Lemma index_app {E A} (a : list A) x c i :
  i = len a → index (E:=E) (a ++ x :: c) i = Ok x.
Proof.
  intros ->. unfold index.
  rewrite (proj2 (Z.leb_le _ _)) by apply len_nonneg.
  replace (Z.to_nat (len a)) with (length a) by (unfold len; lia).
  by rewrite list_lookup_middle.
Qed.

(** ** Lists *)
Lemma StronglySorted_lookup {A} (R : A → A → Prop) (l : list A) :
  (∀ i j x y, (i < j)%nat → l !! i = Some x → l !! j = Some y → R x y) → StronglySorted R l.
Proof.
  induction l as [|x l IH]; intros H; constructor.
  - apply IH. intros i j y z Hij Hy Hz. apply (H (S i) (S j)); [lia|done..].
  - apply Forall_forall. intros y Hy. apply list_elem_of_lookup in Hy as [j Hj].
    apply (H 0%nat (S j)); [lia|done..].
Qed.

Lemma StronglySorted_weaken {A} (R R' : A → A → Prop) (l : list A) :
  (∀ x y, R x y → R' x y) → StronglySorted R l → StronglySorted R' l.
Proof.
  intros HR. induction 1 as [|x l Hl IH Hx]; constructor; [done|].
  apply Forall_forall. intros y Hy. rewrite Forall_forall in Hx. by apply HR, Hx.
Qed.

Lemma StronglySorted_sublist_filter {A} (R : A → A → Prop) (P : A → Prop) `{∀ x, Decision (P x)} l :
  StronglySorted R l → StronglySorted R (filter P l).
Proof.
  induction 1 as [|x l Hl IH Hx]; [constructor|]. rewrite filter_cons. case_decide; [|done].
  constructor; [done|]. rewrite Forall_forall in *. intros y [_ Hy]%list_elem_of_filter. by apply Hx.
Qed.

(** Filters that keep everything, or nothing *)
Lemma filter_keep {A} (P : A → Prop) `{∀ x, Decision (P x)} (l : list A) :
  (∀ x, x ∈ l → P x) → filter P l = l.
Proof.
  induction l as [|x l IH]; intros HP; [done|]. rewrite filter_cons_True by (apply HP; left).
  f_equal. apply IH. intros y Hy. apply HP. by right.
Qed.

Lemma filter_nothing {A} (P : A → Prop) `{∀ x, Decision (P x)} (l : list A) :
  (∀ x, x ∈ l → ¬ P x) → filter P l = [].
Proof. intros HP. apply elem_of_nil_inv. intros x [Hx Hin]%list_elem_of_filter. by apply (HP x). Qed.

Lemma filter_agree {A} (P Q : A → Prop) `{∀ x, Decision (P x)} `{∀ x, Decision (Q x)} (l : list A) :
  (∀ x, x ∈ l → P x ↔ Q x) → filter P l = filter Q l.
Proof.
  induction l as [|x l IH]; intros HPQ; [done|]. rewrite !filter_cons.
  rewrite IH by (intros y Hy; apply HPQ; by right).
  pose proof (HPQ x ltac:(by left)). repeat case_decide; tauto || done.
Qed.

(** ** Maps

    [for k, v := range m] over a Go map meets the entries in any order; a
    definition that ranges over a map runs in the order of a [MapOrder]. *)
Class MapOrder (K : Type) `{Countable K} := {
  map_range : ∀ {A}, gmap K A → list (K * A);
  map_range_perm : ∀ {A} (m : gmap K A), map_range m ≡ₚ map_to_list m
}.

(** One such order, for concrete evaluations. *)
Definition listed_order (K : Type) `{Countable K} : MapOrder K :=
  {| map_range := λ A m, map_to_list m; map_range_perm := λ A m, reflexivity _ |}.

(** ** Sorting and hashing *)

(** [sort.Slice]: a permutation, in order whenever [less] is a strict weak order
    on the elements; the order of equal elements is the library's. *)
Class Sorter := {
  sort_Slice : ∀ {A}, (A → A → bool) → list A → list A;
  sort_Slice_perm : ∀ {A} less (l : list A), sort_Slice less l ≡ₚ l;
  sort_Slice_sorted : ∀ {A} (less : A → A → bool) (P : A → Prop) (l : list A),
    (∀ a b, less a b = true → less b a = false) →
    (∀ a b c, P b → less b a = false → less c b = false → less c a = false) →
    Forall P l → StronglySorted (λ a b, less b a = false) (sort_Slice less l)
}.

(** Insertion sort, which Go's [sort.Slice] is on slices of up to 12 elements. *)
Fixpoint isort_insert {A} (less : A → A → bool) (x : A) (l : list A) : list A :=
  match l with
  | [] => [x]
  | y :: l' => if less y x then y :: isort_insert less x l' else x :: l
  end.
Definition isort {A} (less : A → A → bool) (l : list A) : list A := foldr (isort_insert less) [] l.

Lemma isort_insert_perm {A} (less : A → A → bool) x l : isort_insert less x l ≡ₚ x :: l.
Proof.
  induction l as [|y l IH]; [done|]. simpl. destruct (less y x); [|done]. rewrite IH.
  apply Permutation_swap.
Qed.
Lemma isort_perm {A} (less : A → A → bool) l : isort less l ≡ₚ l.
Proof. induction l as [|x l IH]; [done|]. simpl. by rewrite isort_insert_perm, IH. Qed.

Lemma isort_sorted {A} (less : A → A → bool) (P : A → Prop) l :
  (∀ a b, less a b = true → less b a = false) →
  (∀ a b c, P b → less b a = false → less c b = false → less c a = false) →
  Forall P l → StronglySorted (λ a b, less b a = false) (isort less l).
Proof.
  intros Hasym Htr HP. induction HP as [|x l Hx HP IH]; [constructor|]. simpl.
  assert (HPs : Forall P (isort less l)) by (by rewrite isort_perm).
  revert IH HPs. generalize (isort less l) as s. clear l HP.
  induction 1 as [|y s Hs IH Hy]; intros HPs; simpl; [by repeat constructor|].
  inversion HPs as [|? ? Hpy HPs']; subst. destruct (less y x) eqn:E.
  - constructor; [by apply IH|]. rewrite isort_insert_perm. constructor; [by apply Hasym|done].
  - constructor; [by constructor|]. constructor; [done|].
    eapply Forall_impl; [exact Hy|]. intros z Hz. by eapply Htr.
Qed.

Definition insertion_sorter : Sorter := {|
  sort_Slice := @isort; sort_Slice_perm := @isort_perm; sort_Slice_sorted := @isort_sorted
|}.

(** [crypto/sha256] *)
Class Sha256 := { Sum256 : list byte → list byte; Sum256_length bs : length (Sum256 bs) = 32%nat }.

(** [binary.BigEndian.Uint32] *)
Definition be_get (l : list byte) : Z := le_get (reverse l).

Lemma be_get_range (l : list byte) : length l = 4%nat → (0 ≤ be_get l < 2 ^ 32)%Z.
Proof.
  intros Hl. unfold be_get. pose proof (le_get_range (reverse l)) as H.
  unfold len in H. by rewrite length_reverse, Hl in H.
Qed.
