(* ===== verification/GoLoops.v ===== *)
(** * Loops over slices

    Indexed loops, and the writes to slices that panic out of range, in [result]
    and in [M]; and how such loops run: with an invariant, or as a map. *)
From stdpp Require Import base list numbers.
From Stdlib Require Import ZArith Lia.
From S2P Require Import Prelude.

#[local] Open Scope Z_scope.

(** A loop over a slice, with the index of each element; it runs in [result] and
    in [M]. *)
Fixpoint loop `{!MRet m, !MBind m} {A X} (body : nat → A → X → m X) (i : nat) (l : list A) (x : X) : m X :=
  match l with
  | [] => mret x
  | a :: l => x ← body i a x; loop body (S i) l x
  end.

(** [l[i] = x] and [make([]A, n)] *)
Definition assign {E A} (l : list A) (i : Z) (x : A) : result E (list A) :=
  if (0 <=? i) && (i <? len l) then Ok (<[Z.to_nat i := x]> l) else Panic.
Definition make {E A} (n : Z) (zero : A) : result E (list A) :=
  if n <? 0 then Panic else Ok (replicate (Z.to_nat n) zero).
(** [copy(dst, src)] *)
Definition go_copy {A} (dst src : list A) : list A := take (length dst) src ++ drop (length src) dst.
(** [for i := 0; i < n; i++] *)
Definition below (n : Z) : list Z := Z.of_nat <$> seq 0 (Z.to_nat n).

(** ** How a loop runs *)
Lemma loop_Ok {E A X} (I : nat → X → Prop) (body : nat → A → X → result E X) l i x :
  I i x →
  (∀ k a x, l !! k = Some a → I (i + k)%nat x →
     ∃ x', body (i + k)%nat a x = Ok x' ∧ I (S (i + k)) x') →
  ∃ x', loop body i l x = Ok x' ∧ I (i + length l)%nat x'.
Proof.
  revert i x. induction l as [|a l IH]; intros i x Hi Hstep.
  - exists x. by rewrite Nat.add_0_r.
  - destruct (Hstep 0%nat a x) as (x' & Hb & Hx'); [done|by rewrite Nat.add_0_r|].
    rewrite Nat.add_0_r in *. cbn [loop]. rewrite Hb, Ok_bind.
    cbn [length]. rewrite <- Nat.add_succ_comm. apply IH; [done|].
    intros k b y Hk Hy. specialize (Hstep (S k) b y Hk).
    rewrite <- Nat.add_succ_comm in Hstep. by apply Hstep.
Qed.

(** [run_loop I as x H HI] runs the first loop of the goal with the invariant [I]. *)
Tactic Notation "run_loop" uconstr(I) "as" ident(x) ident(H) ident(HI) :=
  match goal with
  | |- context [loop (m:=result _) ?body ?i ?l ?x0] =>
      destruct (loop_Ok I body l i x0) as (x & H & HI)
  end.

(** The same for methods; the invariant speaks of the receiver too. *)
Lemma loop_run {S E A X} (I : nat → X → S → Prop) (body : nat → A → X → M S E X) l i x s :
  I i x s →
  (∀ k a x s, l !! k = Some a → I (i + k)%nat x s →
     ∃ x' s', body (i + k)%nat a x s = (Ok x', s') ∧ I (1 + (i + k))%nat x' s') →
  ∃ x' s', loop body i l x s = (Ok x', s') ∧ I (i + length l)%nat x' s'.
Proof.
  revert i x s. induction l as [|a l IH]; intros i x s Hi Hstep.
  - exists x, s. by rewrite Nat.add_0_r.
  - destruct (Hstep 0%nat a x s) as (x' & s' & Hb & Hx'); [done|by rewrite Nat.add_0_r|].
    rewrite Nat.add_0_r in *. cbn [loop]. rewrite (M_bind_run _ _ _ _ _ Hb).
    cbn [length]. rewrite <- Nat.add_succ_comm. apply IH; [done|].
    intros k b y t Hk Hy. specialize (Hstep (1 + k)%nat b y t Hk).
    rewrite <- Nat.add_succ_comm in Hstep. by apply Hstep.
Qed.

(** [run_method I from s as H HI] does so for a loop of a method run from [s]. *)
Tactic Notation "run_method" uconstr(I) "from" constr(s) "as" ident(x) ident(s') ident(H) ident(HI) :=
  match goal with
  | |- context [loop ?body ?i ?l ?x0] => destruct (loop_run I body l i x0 s) as (x & s' & H & HI)
  end.

Lemma lift_bind {S E A B} (r : result E A) a (f : A → M S E B) s :
  r = Ok a → (lift r ≫= f) s = f a s.
Proof. by intros ->. Qed.

(** Appending the answer of each element is [mapM]. *)
Lemma loop_append {E A B} (f : A → result E B) l i acc :
  loop (λ _ a bs, b ← f a; Ok (bs ++ [b])) i l acc = (bs ← mapM f l; Ok (acc ++ bs)).
Proof.
  revert i acc. induction l as [|a l IH]; intros i acc; cbn [loop].
  - cbn. by rewrite app_nil_r.
  - cbn. destruct (f a) as [b| |]; [|done..]. cbn. rewrite IH.
    destruct (mapM f l); [|done..]. cbn. by rewrite <- app_assoc.
Qed.

Lemma loop_append_lift {S E A B C} (f : A → result E B) (g : B → C) l i acc (s : S) :
  loop (λ _ a cs, b ← lift (f a); mret (cs ++ [g b])) i l acc s
  = (cs ← mapM (λ a, b ← f a; Ok (g b)) l; Ok (acc ++ cs), s).
Proof.
  revert i acc. induction l as [|a l IH]; intros i acc; cbn [loop].
  - cbn. unfold_M. by rewrite app_nil_r.
  - cbn. unfold_M. destruct (f a) as [b| |]; [|done..].
    rewrite IH. cbn. destruct (mapM _ l) as [cs| |]; [|done..].
    cbn. by rewrite <- app_assoc.
Qed.

Lemma assign_Ok {E A} (l : list A) i x :
  0 ≤ i < len l → assign (E:=E) l i x = Ok (<[Z.to_nat i := x]> l).
Proof.
  intros Hi. unfold assign. rewrite (proj2 (Z.leb_le _ _)), (proj2 (Z.ltb_lt _ _)) by lia. done.
Qed.
Lemma make_Ok {E A} n (zero : A) : 0 ≤ n → make (E:=E) n zero = Ok (replicate (Z.to_nat n) zero).
Proof. intros Hn. unfold make. by rewrite (proj2 (Z.ltb_ge _ _)) by lia. Qed.
Lemma index_Ok {E A} (l : list A) i x :
  0 ≤ i → l !! Z.to_nat i = Some x → index (E:=E) l i = Ok x.
Proof. intros Hi Hx. unfold index. by rewrite (proj2 (Z.leb_le _ _)), Hx by lia. Qed.
Lemma index_of_nat {E A} (l : list A) i x : l !! i = Some x → index (E:=E) l (Z.of_nat i) = Ok x.
Proof. intros Hx. apply index_Ok; [lia|]. by rewrite Nat2Z.id. Qed.

Lemma length_below n : length (below n) = Z.to_nat n.
Proof. unfold below. by rewrite length_fmap, length_seq. Qed.
Lemma below_lookup n k a : below n !! k = Some a → a = Z.of_nat k ∧ 0 ≤ a < n.
Proof.
  unfold below. rewrite list_lookup_fmap. intros (i & Hi & ->)%fmap_Some.
  apply lookup_seq in Hi as [-> Hi]. lia.
Qed.

Lemma insert_middle {A} (a c : list A) (b x : A) : <[length a := x]> (a ++ b :: c) = a ++ x :: c.
Proof. rewrite insert_app_r_alt by done. by rewrite Nat.sub_diag. Qed.

(** A slice made of [z] and filled up to [i] with the elements of [l] *)
Definition filled {A} (l : list A) (z : A) (i : nat) : list A := take i l ++ replicate (length l - i) z.

Lemma filled_0 {A} (l : list A) z : filled l z 0 = replicate (length l) z.
Proof. unfold filled. by rewrite Nat.sub_0_r. Qed.
Lemma filled_all {A} (l : list A) z : filled l z (length l) = l.
Proof. unfold filled. by rewrite take_ge, Nat.sub_diag, app_nil_r by lia. Qed.
Lemma length_filled {A} (l : list A) z i : length (filled l z i) = length l.
Proof. unfold filled. rewrite length_app, length_take, length_replicate. lia. Qed.
Lemma filled_next {A} (l : list A) z i : (i < length l)%nat → filled l z i !! i = Some z.
Proof.
  intros Hi. unfold filled. rewrite lookup_app_r; rewrite length_take; [|lia].
  apply lookup_replicate_2. lia.
Qed.
Lemma insert_filled {A} (l : list A) z i x :
  l !! i = Some x → <[i := x]> (filled l z i) = filled l z (S i).
Proof.
  intros Hx. pose proof (lookup_lt_Some _ _ _ Hx). unfold filled.
  assert (length (take i l) = i) as Hlen by (rewrite length_take; lia).
  replace (length l - i)%nat with (S (length l - S i)) by lia. cbn [replicate].
  rewrite <- Hlen at 1. by rewrite insert_middle, (take_S_r _ _ _ Hx), <- app_assoc.
Qed.
Lemma assign_filled {E A} (l : list A) z i x :
  l !! i = Some x → assign (E:=E) (filled l z i) (Z.of_nat i) x = Ok (filled l z (S i)).
Proof.
  intros Hx. pose proof (lookup_lt_Some _ _ _ Hx).
  rewrite assign_Ok by (unfold len; rewrite length_filled; lia).
  by rewrite Nat2Z.id, (insert_filled _ _ _ _ Hx).
Qed.
