(* ===== verification/SafeCasts.v ===== *)
(** * internal/safecasts: integer conversions with overflow checks

    Every conversion of [internal/safecasts/safecasts.go], with the conversion
    expression of the source ([uint32(v)], [int32(v)], ...) kept as the
    wrap-around it performs. The checked family returns [ErrOverflow] outside
    the target range; the [Safe] family clamps or returns 0. *)
From stdpp Require Import base numbers.
From Stdlib Require Import ZArith Lia.
From S2P Require Import Prelude.

#[local] Open Scope Z_scope.

Inductive castError := ErrOverflow.

Definition IntToUint32 (v : Z) : result castError Z :=
  if (v <? 0) || (v >? MaxUint32) then Err ErrOverflow else Ok (u32 v).

Definition IntToUint32Safe (v : Z) : Z :=
  if (v <? 0) || (v >? MaxUint32) then 0 else u32 v.

Definition IntToUint16 (v : Z) : result castError Z :=
  if (v <? 0) || (v >? MaxUint16) then Err ErrOverflow else Ok (u16 v).

Definition IntToUint16Safe (v : Z) : Z :=
  if (v <? 0) || (v >? MaxUint16) then 0 else u16 v.

Definition IntToInt32 (v : Z) : result castError Z :=
  if (v <? MinInt32) || (v >? MaxInt32) then Err ErrOverflow else Ok (i32 v).

Definition IntToInt32Safe (v : Z) : Z :=
  if v <? MinInt32 then MinInt32 else if v >? MaxInt32 then MaxInt32 else i32 v.

Definition IntToUint64 (v : Z) : result castError Z :=
  if v <? 0 then Err ErrOverflow else Ok (u64 v).

Definition IntToUint64Safe (v : Z) : Z := if v <? 0 then 0 else u64 v.

Definition Int64ToUint64 (v : Z) : result castError Z :=
  if v <? 0 then Err ErrOverflow else Ok (u64 v).

Definition Int64ToUint64Safe (v : Z) : Z := if v <? 0 then 0 else u64 v.

Definition Uint64ToInt64 (v : Z) : result castError Z :=
  if v >? MaxInt64 then Err ErrOverflow else Ok (i64 v).

Definition Uint64ToInt64Safe (v : Z) : Z :=
  if v >? MaxInt64 then MaxInt64 else i64 v.

Definition Uint64ToInt (v : Z) : result castError Z :=
  if v >? MaxInt then Err ErrOverflow else Ok (i64 v).

Definition Uint64ToIntSafe (v : Z) : Z := if v >? MaxInt then MaxInt else i64 v.

Definition Int64ToInt (v : Z) : result castError Z :=
  if (v <? MinInt) || (v >? MaxInt) then Err ErrOverflow else Ok (i64 v).

Definition Int64ToIntSafe (v : Z) : Z :=
  if v <? MinInt then MinInt else if v >? MaxInt then MaxInt else i64 v.

(** A checked conversion between a source range and a target range: the value
    is kept when it fits the target, and refused otherwise. *)
Definition checked_conversion (slo shi tlo thi : Z) (f : Z → result castError Z) :=
  ∀ v, slo ≤ v ≤ shi →
    (tlo ≤ v ≤ thi → f v = Ok v) ∧ (¬ (tlo ≤ v ≤ thi) → f v = Err ErrOverflow).

(** A total conversion: in range always, exact on what fits, and [d v] on what
    does not. *)
Definition total_conversion (slo shi tlo thi : Z) (d : Z → Z) (f : Z → Z) :=
  ∀ v, slo ≤ v ≤ shi →
    tlo ≤ f v ≤ thi ∧ (tlo ≤ v ≤ thi → f v = v) ∧ (¬ (tlo ≤ v ≤ thi) → f v = d v).

Definition clamp (lo hi v : Z) : Z := Z.max lo (Z.min hi v).

(** Decides a conversion by splitting on its guards; what remains is that a
    wrap-around of a representable value is the identity. *)
Ltac decide_guards :=
  rewrite ?Z.gtb_ltb;
  repeat match goal with
    | |- context [Z.ltb ?a ?b] => destruct (Z.ltb_spec a b)
    end; cbn [orb].

Ltac solve_cast f :=
  unfold checked_conversion, total_conversion, clamp, f, u16, u32, u64, i32, i64,
    MaxUint16, MaxUint32, MaxUint64, MaxInt, MinInt, MaxInt64, MinInt64,
    MaxInt32, MinInt32;
  intros v Hv; decide_guards;
  rewrite ?Z.mod_small by lia; rewrite ?swrap_id by lia;
  repeat split; intros; first [reflexivity | lia | f_equal; lia].

(** Every checked conversion of the package returns the value unchanged
    exactly when it is representable in the target type and [ErrOverflow]
    otherwise, over the whole range of its source type. *)
Theorem checked_casts_exact :
  checked_conversion MinInt MaxInt 0 MaxUint32 IntToUint32 ∧
  checked_conversion MinInt MaxInt 0 MaxUint16 IntToUint16 ∧
  checked_conversion MinInt MaxInt MinInt32 MaxInt32 IntToInt32 ∧
  checked_conversion MinInt MaxInt 0 MaxUint64 IntToUint64 ∧
  checked_conversion MinInt64 MaxInt64 0 MaxUint64 Int64ToUint64 ∧
  checked_conversion 0 MaxUint64 MinInt64 MaxInt64 Uint64ToInt64 ∧
  checked_conversion 0 MaxUint64 MinInt MaxInt Uint64ToInt ∧
  checked_conversion MinInt64 MaxInt64 MinInt MaxInt Int64ToInt.
Proof.
  repeat match goal with |- _ ∧ _ => split end.
  - solve_cast IntToUint32.
  - solve_cast IntToUint16.
  - solve_cast IntToInt32.
  - solve_cast IntToUint64.
  - solve_cast Int64ToUint64.
  - solve_cast Uint64ToInt64.
  - solve_cast Uint64ToInt.
  - solve_cast Int64ToInt.
Qed.

(** Every [Safe] conversion is total: its result always lies in the target
    range, equals the argument when that is representable, and otherwise is 0
    (unsigned targets of an [int]) or the nearest bound (signed targets). *)
Theorem safe_casts_total :
  total_conversion MinInt MaxInt 0 MaxUint32 (λ _, 0) IntToUint32Safe ∧
  total_conversion MinInt MaxInt 0 MaxUint16 (λ _, 0) IntToUint16Safe ∧
  total_conversion MinInt MaxInt MinInt32 MaxInt32 (clamp MinInt32 MaxInt32) IntToInt32Safe ∧
  total_conversion MinInt MaxInt 0 MaxUint64 (λ _, 0) IntToUint64Safe ∧
  total_conversion MinInt64 MaxInt64 0 MaxUint64 (λ _, 0) Int64ToUint64Safe ∧
  total_conversion 0 MaxUint64 MinInt64 MaxInt64 (clamp MinInt64 MaxInt64) Uint64ToInt64Safe ∧
  total_conversion 0 MaxUint64 MinInt MaxInt (clamp MinInt MaxInt) Uint64ToIntSafe ∧
  total_conversion MinInt64 MaxInt64 MinInt MaxInt (clamp MinInt MaxInt) Int64ToIntSafe.
Proof.
  repeat match goal with |- _ ∧ _ => split end.
  - solve_cast IntToUint32Safe.
  - solve_cast IntToUint16Safe.
  - solve_cast IntToInt32Safe.
  - solve_cast IntToUint64Safe.
  - solve_cast Int64ToUint64Safe.
  - solve_cast Uint64ToInt64Safe.
  - solve_cast Uint64ToIntSafe.
  - solve_cast Int64ToIntSafe.
Qed.
