(* ===== verification/Crc32.v ===== *)
(** * CRC-32 (IEEE), the checksum of WAL records

    [hash/crc32.ChecksumIEEE] as the byte-table algorithm of the Go standard
    library: the reflected polynomial 0xEDB88320, a table entry per byte, an
    initial and final complement. The lemmas lead to [ChecksumIEEE_one_byte]:
    two messages that differ in exactly one byte have different checksums. *)
From stdpp Require Import base list numbers strings.
From Stdlib Require Import Strings.Byte ZArith Lia.
From S2P Require Import Prelude.

#[local] Open Scope Z_scope.

(** 0xEDB88320 *)
Definition crc_poly : Z := 3988292384.

Definition crc_bit (c : Z) : Z :=
  if Z.odd c then Z.lxor (Z.shiftr c 1) crc_poly else Z.shiftr c 1.

(** [ieeeTable[i]] *)
Definition crc_tab (i : Z) : Z := Nat.iter 8 crc_bit i.

(** [tab[byte(crc) ^ v] ^ (crc >> 8)] *)
Definition crc_step (c : Z) (b : byte) : Z :=
  Z.lxor (crc_tab (Z.lxor (c `mod` 256) (byte_val b))) (Z.shiftr c 8).

(** [^crc] on uint32 *)
Definition crc_not (c : Z) : Z := Z.lxor c MaxUint32.

Definition ChecksumIEEE (data : list byte) : Z :=
  crc_not (fold_left crc_step data (crc_not 0)).

Lemma ChecksumIEEE_123456789 :
  ChecksumIEEE (bytes_of_string "123456789") = 3421780262. (* 0xCBF43926 *)
Proof. vm_compute. reflexivity. Qed.

(** ** Ranges *)
Lemma lxor_lt a b n : 0 ≤ n → 0 ≤ a < 2 ^ n → 0 ≤ b < 2 ^ n → 0 ≤ Z.lxor a b < 2 ^ n.
Proof.
  intros Hn Ha Hb. split.
  { apply Z.lxor_nonneg. split; lia. }
  assert (E : Z.lxor a b = Z.lxor a b `mod` 2 ^ n).
  { apply Z.bits_inj'. intros i Hi.
    destruct (decide (i < n)) as [Hlt|Hge].
    - by rewrite Z.mod_pow2_bits_low by lia.
    - rewrite Z.mod_pow2_bits_high by lia. rewrite Z.lxor_spec.
      rewrite <- (Z.mod_small a (2 ^ n)), <- (Z.mod_small b (2 ^ n)) by lia.
      by rewrite !Z.mod_pow2_bits_high by lia. }
  rewrite E. apply Z.mod_pos_bound. lia.
Qed.

Lemma lxor_cancel_r a b c : Z.lxor a c = Z.lxor b c → a = b.
Proof.
  intros H. apply (f_equal (λ x, Z.lxor x c)) in H.
  by rewrite !Z.lxor_assoc, !Z.lxor_nilpotent, !Z.lxor_0_r in H.
Qed.

Lemma lxor_cancel_l a b c : Z.lxor c a = Z.lxor c b → a = b.
Proof. rewrite !(Z.lxor_comm c). apply lxor_cancel_r. Qed.

(** ** The table

    The facts about its 256 entries are decided by evaluation. *)
Definition byte_range : list Z := Z.of_nat <$> seq 0 256.

Lemma elem_of_byte_range i : 0 ≤ i < 256 → i ∈ byte_range.
Proof.
  intros Hi. unfold byte_range. apply list_elem_of_fmap.
  exists (Z.to_nat i). split; [lia|]. apply elem_of_seq. lia.
Qed.

Lemma tab_range_all :
  forallb (λ i, (0 <=? crc_tab i) && (crc_tab i <? 2 ^ 32)) byte_range = true.
Proof. vm_compute. reflexivity. Qed.

Lemma tab_top_all :
  forallb (λ i, forallb (λ j,
      negb (Z.shiftr (crc_tab i) 24 =? Z.shiftr (crc_tab j) 24) || (i =? j))
    byte_range) byte_range = true.
Proof. vm_compute. reflexivity. Qed.

Lemma forallb_byte_range (P : Z → bool) i :
  forallb P byte_range = true → 0 ≤ i < 256 → P i = true.
Proof.
  intros H Hi. rewrite List.forallb_forall in H. apply H.
  apply list_elem_of_In. by apply elem_of_byte_range.
Qed.

Lemma tab_range i : 0 ≤ i < 256 → 0 ≤ crc_tab i < 2 ^ 32.
Proof.
  intros Hi. pose proof (forallb_byte_range _ i tab_range_all Hi) as H.
  apply andb_true_iff in H as [?%Z.leb_le ?%Z.ltb_lt]. by split.
Qed.

(** The top byte of an entry determines its index. *)
Lemma tab_top_inj i j :
  0 ≤ i < 256 → 0 ≤ j < 256 →
  Z.shiftr (crc_tab i) 24 = Z.shiftr (crc_tab j) 24 → i = j.
Proof.
  intros Hi Hj E.
  pose proof (forallb_byte_range _ i tab_top_all Hi) as H.
  pose proof (forallb_byte_range _ j H Hj) as H'.
  apply orb_true_iff in H' as [H'|H'%Z.eqb_eq]; [|done].
  apply negb_true_iff, Z.eqb_neq in H'. contradiction.
Qed.

(** ** The step is injective in the state and in the byte *)
Lemma crc_index_range c b : 0 ≤ Z.lxor (c `mod` 256) (byte_val b) < 256.
Proof.
  apply (lxor_lt _ _ 8); [lia| |apply byte_val_range].
  apply Z.mod_pos_bound; lia.
Qed.

Lemma shiftr_8_range c : 0 ≤ c < 2 ^ 32 → 0 ≤ Z.shiftr c 8 < 2 ^ 24.
Proof.
  intros Hc. rewrite Z.shiftr_div_pow2 by lia. split.
  - apply Z.div_pos; lia.
  - apply Z.div_lt_upper_bound; lia.
Qed.

Lemma crc_step_range c b : 0 ≤ c < 2 ^ 32 → 0 ≤ crc_step c b < 2 ^ 32.
Proof.
  intros Hc. unfold crc_step. apply lxor_lt; [lia| |].
  - apply tab_range, crc_index_range.
  - pose proof (shiftr_8_range c Hc). lia.
Qed.

Lemma crc_step_top c b :
  0 ≤ c < 2 ^ 32 →
  Z.shiftr (crc_step c b) 24 =
    Z.shiftr (crc_tab (Z.lxor (c `mod` 256) (byte_val b))) 24.
Proof.
  intros Hc. unfold crc_step. rewrite Z.shiftr_lxor.
  replace (Z.shiftr (Z.shiftr c 8) 24) with 0; [by rewrite Z.lxor_0_r|].
  pose proof (shiftr_8_range c Hc).
  rewrite (Z.shiftr_div_pow2 (Z.shiftr c 8)) by lia. by rewrite Z.div_small.
Qed.

Lemma crc_step_inj c c' b b' :
  0 ≤ c < 2 ^ 32 → 0 ≤ c' < 2 ^ 32 →
  crc_step c b = crc_step c' b' →
  Z.shiftr c 8 = Z.shiftr c' 8 ∧
  Z.lxor (c `mod` 256) (byte_val b) = Z.lxor (c' `mod` 256) (byte_val b').
Proof.
  intros Hc Hc' E.
  assert (Ei : Z.lxor (c `mod` 256) (byte_val b) = Z.lxor (c' `mod` 256) (byte_val b')).
  { apply tab_top_inj; try apply crc_index_range.
    rewrite <- !crc_step_top by done. by rewrite E. }
  split; [|done]. unfold crc_step in E. rewrite Ei in E.
  by apply lxor_cancel_l in E.
Qed.

Lemma crc_step_inj_state c c' b :
  0 ≤ c < 2 ^ 32 → 0 ≤ c' < 2 ^ 32 → crc_step c b = crc_step c' b → c = c'.
Proof.
  intros Hc Hc' E. apply crc_step_inj in E as [E1 E2]; [|done..].
  apply lxor_cancel_r in E2.
  rewrite !Z.shiftr_div_pow2 in E1 by lia. change (2 ^ 8) with 256 in E1.
  rewrite (Z.div_mod c 256), (Z.div_mod c' 256) by lia. lia.
Qed.

Lemma crc_step_inj_byte c b b' :
  0 ≤ c < 2 ^ 32 → crc_step c b = crc_step c b' → b = b'.
Proof.
  intros Hc E. apply crc_step_inj in E as [_ E]; [|done..].
  by apply byte_val_inj, (lxor_cancel_l _ _ (c `mod` 256)).
Qed.

Lemma crc_fold_range l c :
  0 ≤ c < 2 ^ 32 → 0 ≤ fold_left crc_step l c < 2 ^ 32.
Proof.
  revert c; induction l as [|b l IH]; intros c Hc; [done|].
  simpl. by apply IH, crc_step_range.
Qed.

Lemma crc_fold_inj l c c' :
  0 ≤ c < 2 ^ 32 → 0 ≤ c' < 2 ^ 32 →
  fold_left crc_step l c = fold_left crc_step l c' → c = c'.
Proof.
  revert c c'; induction l as [|b l IH]; intros c c' Hc Hc' E; [done|].
  simpl in E. apply IH in E; auto using crc_step_range.
  by apply crc_step_inj_state in E.
Qed.

Lemma crc_not_0_range : 0 ≤ crc_not 0 < 2 ^ 32.
Proof. by vm_compute. Qed.

(** ** What the WAL relies on *)
Lemma ChecksumIEEE_range data : 0 ≤ ChecksumIEEE data < 2 ^ 32.
Proof.
  apply lxor_lt; [lia| |by vm_compute].
  apply crc_fold_range, crc_not_0_range.
Qed.

Lemma ChecksumIEEE_one_byte pre b b' post :
  b ≠ b' → ChecksumIEEE (pre ++ b :: post) ≠ ChecksumIEEE (pre ++ b' :: post).
Proof.
  intros Hb E. unfold ChecksumIEEE, crc_not in E. apply lxor_cancel_r in E.
  rewrite !fold_left_app in E. simpl in E.
  pose proof (crc_fold_range pre _ crc_not_0_range) as Hp.
  apply crc_fold_inj in E; auto using crc_step_range.
  by apply crc_step_inj_byte in E.
Qed.
