(* ===== verification/WalCodec.v ===== *)
(** * pkg/storage/wal: records and their encoding

    [Record], [encodeRecord] and [decodeRecord] of [pkg/storage/wal/wal.go],
    with the package's own checked conversions. Decoding reads from a byte
    stream: a reader is the list of bytes still to be read, and the two ways a
    read can end early ([io.EOF] and [io.ErrUnexpectedEOF]) are told apart
    because the callers tell them apart. *)
From stdpp Require Import base list numbers strings.
From Stdlib Require Import Strings.Byte ZArith Lia.
From S2P Require Import Prelude Crc32.

#[local] Open Scope Z_scope.

Inductive walError :=
| ErrUint32Range       (* safeIntToUint32 *)
| ErrUint16Range       (* safeIntToUint16 *)
| ErrBufferOverflow    (* safeRecordBufferSize *)
| ErrCollectionTooLong
| ErrDataTooLarge
| ErrRecordTooLarge
| EOF                  (* io.EOF *)
| ErrUnexpectedEOF     (* io.ErrUnexpectedEOF *)
| ErrCRCMismatch
| ErrIO                (* a failed system call *)
| ErrNotExist          (* opening or removing a path that is not there *)
| ErrCallback.         (* the error a replay callback returned *)

#[export] Instance walError_eq_dec : EqDecision walError.
Proof. solve_decision. Defined.

Definition safeIntToUint32 (v : Z) : result walError Z :=
  if (v <? 0) || (v >? MaxUint32) then Err ErrUint32Range else Ok (u32 v).

Definition safeIntToUint16 (v : Z) : result walError Z :=
  if (v <? 0) || (v >? MaxUint16) then Err ErrUint16Range else Ok (u16 v).

Definition safeInt64ToUint64 (v : Z) : Z := if v <? 0 then 0 else u64 v.

Definition safeUint64ToInt64 (v : Z) : Z :=
  if v >? MaxInt64 then MaxInt64 else i64 v.

Definition safeRecordBufferSize (totalLen : Z) : result walError Z :=
  let overhead := 8 in
  if u64 totalLen >? u64 (MaxInt - overhead) then Err ErrBufferOverflow
  else Ok (i64 (overhead + i64 totalLen)).

(** [RecordType] is a uint8; decoding can produce any byte. *)
Definition RecordTypeInsert : Z := 1.
Definition RecordTypeUpdate : Z := 2.
Definition RecordTypeDelete : Z := 3.
Definition RecordTypeCheckpoint : Z := 4.
Definition RecordTypeBatch : Z := 5.
Definition RecordTypeBatchBegin : Z := 6.
Definition RecordTypeBatchEnd : Z := 7.

Record Record_ := Record {
  SeqNum : Z;          (* uint64 *)
  Type_ : Z;           (* uint8 *)
  Collection : string;
  Data : list byte;
  Timestamp : Z        (* int64 *)
}.

#[export] Instance Record_eq_dec : EqDecision Record_.
Proof. solve_decision. Defined.

(** [fmt.Errorf("...: %w", err)] around a conversion. *)
Definition wrap_err {A} (e : walError) (r : result walError A) : result walError A :=
  match r with Ok a => Ok a | Err _ => Err e | Panic => Panic end.

(** [[type:1][seqnum:8][timestamp:8][collection_len:2][collection][data_len:4][data]] *)
Definition record_payload (r : Record_) (collLen dataLen : Z) : list byte :=
  byte_of (Type_ r) ::
  PutUint64 (SeqNum r) ++
  PutUint64 (safeInt64ToUint64 (Timestamp r)) ++
  PutUint16 collLen ++ bytes_of_string (Collection r) ++
  PutUint32 dataLen ++ Data r.

Definition encodeRecord (r : Record_) : result walError (list byte) :=
  let collBytes := bytes_of_string (Collection r) in
  collLen ← wrap_err ErrCollectionTooLong (safeIntToUint16 (len collBytes));
  dataLen ← wrap_err ErrDataTooLarge (safeIntToUint32 (len (Data r)));
  totalLen ← wrap_err ErrRecordTooLarge
    (safeIntToUint32 (1 + 8 + 8 + 2 + len collBytes + 4 + len (Data r)));
  _ ← wrap_err ErrRecordTooLarge (safeRecordBufferSize totalLen);
  let payload := record_payload r collLen dataLen in
  Ok (PutUint32 totalLen ++ payload ++ PutUint32 (ChecksumIEEE payload)).

(** [io.ReadFull(r, buf)] with [len(buf) = n]: the bytes read and the rest of
    the stream. *)
Definition ReadFull (n : Z) (r : list byte) : result walError (list byte * list byte) :=
  if n <=? len r then Ok (take (Z.to_nat n) r, drop (Z.to_nat n) r)
  else match r with [] => Err EOF | _ => Err ErrUnexpectedEOF end.

Definition decodeRecord (r : list byte) : result walError (Record_ * list byte) :=
  '(lenBuf, r) ← ReadFull 4 r;
  let length := le_get lenBuf in
  '(buf, r) ← ReadFull (u32 (length + 4)) r;
  tail ← slice buf length (len buf);
  crcBytes ← slice tail 0 4;
  let expectedCRC := le_get crcBytes in
  body ← slice buf 0 length;
  let actualCRC := ChecksumIEEE body in
  if negb (expectedCRC =? actualCRC) then Err ErrCRCMismatch else
  t ← index buf 0;
  seq ← slice buf 1 9;
  ts ← slice buf 9 17;
  cl ← slice buf 17 19;
  let collLen := le_get cl in
  coll ← slice buf 19 (19 + collLen);
  let offset := 19 + collLen in
  dl ← slice buf offset (offset + 4);
  let dataLen := le_get dl in
  let offset := offset + 4 in
  data ← slice buf offset (offset + dataLen);
  Ok (Record (le_get seq) (byte_val t) (string_of_bytes coll) data
        (safeUint64ToInt64 (le_get ts)), r).

(** [encodeBatchSize] and [decodeBatchSize]: the payload of a batch marker. *)
Definition encodeBatchSize (n : Z) : list byte := PutUint32 (u32 n).
Definition decodeBatchSize (data : list byte) : Z :=
  if len data <? 4 then 0 else le_get (take 4 data).

(** ** Well-formed records

    The field values a record can have in memory (widths of the Go types) that
    the encoding accepts. *)
Definition wf_record (r : Record_) : Prop :=
  0 ≤ SeqNum r < 2 ^ 64 ∧ 0 ≤ Type_ r < 256 ∧ 0 ≤ Timestamp r ≤ MaxInt64 ∧
  len (bytes_of_string (Collection r)) ≤ MaxUint16 ∧
  23 + len (bytes_of_string (Collection r)) + len (Data r) ≤ MaxUint32.

#[export] Instance wf_record_dec r : Decision (wf_record r).
Proof. unfold wf_record. apply _. Defined.

Definition payload_len (r : Record_) : Z :=
  23 + len (bytes_of_string (Collection r)) + len (Data r).

(** The bytes of an accepted record. *)
Definition payload_of (r : Record_) : list byte :=
  record_payload r (len (bytes_of_string (Collection r))) (len (Data r)).
Definition bytes_of_record (r : Record_) : list byte :=
  PutUint32 (payload_len r) ++ payload_of r ++ PutUint32 (ChecksumIEEE (payload_of r)).

(** ** Lemmas *)
Lemma len_le_put n z : len (le_put n z) = Z.of_nat n.
Proof. unfold len. by rewrite length_le_put. Qed.

Lemma le_get_put4 z : 0 ≤ z < 2 ^ 32 → le_get (PutUint32 z) = z.
Proof. intros. unfold PutUint32. rewrite le_get_put. by apply Z.mod_small. Qed.
Lemma le_get_put8 z : 0 ≤ z < 2 ^ 64 → le_get (PutUint64 z) = z.
Proof. intros. unfold PutUint64. rewrite le_get_put. by apply Z.mod_small. Qed.
Lemma le_get_put2 z : 0 ≤ z < 2 ^ 16 → le_get (PutUint16 z) = z.
Proof. intros. unfold PutUint16. rewrite le_get_put. by apply Z.mod_small. Qed.

Lemma len_payload_of r : len (payload_of r) = payload_len r.
Proof.
  unfold payload_of, record_payload, payload_len.
  rewrite len_cons, !len_app.
  unfold PutUint16, PutUint32, PutUint64. rewrite !len_le_put. lia.
Qed.

Lemma len_bytes_of_record r : len (bytes_of_record r) = payload_len r + 8.
Proof.
  unfold bytes_of_record. rewrite !len_app, len_payload_of.
  unfold PutUint32. rewrite !len_le_put. lia.
Qed.

Lemma safeIntToUint32_ok v : 0 ≤ v ≤ MaxUint32 → safeIntToUint32 v = Ok v.
Proof.
  intros Hv. unfold safeIntToUint32, u32. unfold MaxUint32 in *.
  rewrite Z.gtb_ltb.
  destruct (Z.ltb_spec v 0), (Z.ltb_spec 4294967295 v); simpl; try lia.
  by rewrite Z.mod_small by lia.
Qed.

Lemma safeIntToUint16_ok v : 0 ≤ v ≤ MaxUint16 → safeIntToUint16 v = Ok v.
Proof.
  intros Hv. unfold safeIntToUint16, u16. unfold MaxUint16 in *.
  rewrite Z.gtb_ltb.
  destruct (Z.ltb_spec v 0), (Z.ltb_spec 65535 v); simpl; try lia.
  by rewrite Z.mod_small by lia.
Qed.

Lemma safeRecordBufferSize_ok v :
  0 ≤ v ≤ MaxUint32 → safeRecordBufferSize v = Ok (v + 8).
Proof.
  intros Hv. unfold safeRecordBufferSize, u64, i64, MaxInt, MaxInt64, MaxUint32 in *.
  rewrite Z.gtb_ltb, !Z.mod_small by lia.
  destruct (Z.ltb_spec (9223372036854775807 - 8) v); [lia|].
  rewrite (swrap_id 64 v), swrap_id by lia. by rewrite Z.add_comm.
Qed.

Lemma encodeRecord_sizes r :
  len (bytes_of_string (Collection r)) ≤ MaxUint16 → payload_len r ≤ MaxUint32 →
  encodeRecord r = Ok (bytes_of_record r).
Proof.
  unfold payload_len. intros Hc Ht. unfold encodeRecord.
  unfold MaxUint16, MaxUint32 in Hc, Ht.
  pose proof (len_nonneg (bytes_of_string (Collection r))).
  pose proof (len_nonneg (Data r)).
  rewrite safeIntToUint16_ok by (unfold MaxUint16, MaxUint32; lia). cbn [wrap_err mbind result_bind].
  rewrite safeIntToUint32_ok by (unfold MaxUint16, MaxUint32; lia). cbn [wrap_err mbind result_bind].
  rewrite safeIntToUint32_ok by (unfold MaxUint16, MaxUint32; lia). cbn [wrap_err mbind result_bind].
  rewrite safeRecordBufferSize_ok by (unfold MaxUint16, MaxUint32; lia). cbn [wrap_err mbind result_bind].
  unfold bytes_of_record, payload_of, payload_len.
  do 3 f_equal. lia.
Qed.

Lemma encodeRecord_wf r : wf_record r → encodeRecord r = Ok (bytes_of_record r).
Proof. intros (_ & _ & _ & Hc & Ht). by apply encodeRecord_sizes. Qed.

Lemma safeInt64_round t :
  0 ≤ t ≤ MaxInt64 → safeUint64ToInt64 (le_get (PutUint64 (safeInt64ToUint64 t))) = t.
Proof.
  unfold MaxInt64. intros Ht.
  unfold safeInt64ToUint64, safeUint64ToInt64, u64, i64, MaxInt64.
  destruct (Z.ltb_spec t 0); [lia|].
  rewrite le_get_put8 by (rewrite Z.mod_small; lia).
  rewrite Z.mod_small by lia. rewrite Z.gtb_ltb.
  destruct (Z.ltb_spec 9223372036854775807 t); [lia|]. apply swrap_id; lia.
Qed.

Lemma ReadFull_app n a b : n = len a → ReadFull n (a ++ b) = Ok (a, b).
Proof.
  intros ->. unfold ReadFull. rewrite len_app.
  pose proof (len_nonneg b). rewrite (proj2 (Z.leb_le _ _)) by lia.
  unfold len. by rewrite Nat2Z.id, take_app_length, drop_app_length.
Qed.

(** ** Round trip and corruption *)

(** The payload cut into the fields [decodeRecord] slices out of the buffer;
    [tl] is what follows the payload there (the checksum). *)
Lemma decode_fields (r : Record_) tl :
  wf_record r →
  let buf := payload_of r ++ tl in
  let cb := bytes_of_string (Collection r) in
  index (E:=walError) buf 0 = Ok (byte_of (Type_ r)) ∧
  slice (E:=walError) buf 1 9 = Ok (PutUint64 (SeqNum r)) ∧
  slice (E:=walError) buf 9 17 = Ok (PutUint64 (safeInt64ToUint64 (Timestamp r))) ∧
  slice (E:=walError) buf 17 19 = Ok (PutUint16 (len cb)) ∧
  slice (E:=walError) buf 19 (19 + len cb) = Ok cb ∧
  slice (E:=walError) buf (19 + len cb) (19 + len cb + 4) = Ok (PutUint32 (len (Data r))) ∧
  slice (E:=walError) buf (19 + len cb + 4) (19 + len cb + 4 + len (Data r)) = Ok (Data r).
Proof.
  intros _ buf cb. subst buf. unfold payload_of, record_payload.
  fold cb. set (t := byte_of (Type_ r)).
  set (sq := PutUint64 (SeqNum r)). set (ts := PutUint64 (safeInt64ToUint64 _)).
  set (cl := PutUint16 (len cb)). set (dl := PutUint32 (len (Data r))).
  assert (Hsq : len sq = 8) by apply len_le_put.
  assert (Hts : len ts = 8) by apply len_le_put.
  assert (Hcl : len cl = 2) by apply len_le_put.
  assert (Hdl : len dl = 4) by apply len_le_put.
  assert (Ht : len [t] = 1) by done.
  change (t :: sq ++ ts ++ cl ++ cb ++ dl ++ Data r)
    with ([t] ++ (sq ++ ts ++ cl ++ cb ++ dl ++ Data r)).
  repeat split.
  - rewrite <- app_assoc, <- !app_assoc. by apply slice_app; rewrite ?len_app; lia.
  - rewrite <- !app_assoc. rewrite (app_assoc [t] sq).
    apply slice_app; rewrite ?len_app; lia.
  - rewrite <- !app_assoc. rewrite (app_assoc [t] sq), (app_assoc _ ts).
    apply slice_app; rewrite ?len_app; lia.
  - rewrite <- !app_assoc. rewrite (app_assoc [t] sq), (app_assoc _ ts), (app_assoc _ cl).
    apply slice_app; rewrite ?len_app; lia.
  - rewrite <- !app_assoc.
    rewrite (app_assoc [t] sq), (app_assoc _ ts), (app_assoc _ cl), (app_assoc _ cb).
    apply slice_app; rewrite ?len_app; lia.
  - rewrite <- !app_assoc.
    rewrite (app_assoc [t] sq), (app_assoc _ ts), (app_assoc _ cl), (app_assoc _ cb),
      (app_assoc _ dl).
    apply slice_app; rewrite ?len_app; lia.
Qed.

(** Reading a framed buffer: the length prefix, the body and the checksum
    reach the checksum test as they were written. *)
Definition decode_body (buf : list byte) (r : list byte) : result walError (Record_ * list byte) :=
  t ← index buf 0;
  seq ← slice buf 1 9;
  ts ← slice buf 9 17;
  cl ← slice buf 17 19;
  coll ← slice buf 19 (19 + le_get cl);
  dl ← slice buf (19 + le_get cl) (19 + le_get cl + 4);
  data ← slice buf (19 + le_get cl + 4) (19 + le_get cl + 4 + le_get dl);
  Ok (Record (le_get seq) (byte_val t) (string_of_bytes coll) data
        (safeUint64ToInt64 (le_get ts)), r).

Lemma decode_framed body crc rest :
  len body < 2 ^ 32 - 4 → 0 ≤ crc < 2 ^ 32 →
  decodeRecord (PutUint32 (len body) ++ (body ++ PutUint32 crc) ++ rest) =
    if crc =? ChecksumIEEE body then decode_body (body ++ PutUint32 crc) rest
    else Err ErrCRCMismatch.
Proof.
  intros Hb Hc. pose proof (len_nonneg body) as Hb0. unfold decodeRecord.
  rewrite ReadFull_app by (unfold PutUint32; by rewrite len_le_put).
  cbn [mbind result_bind]. rewrite le_get_put4 by lia.
  assert (Hcrc : len (PutUint32 crc) = 4) by apply len_le_put.
  unfold u32. rewrite Z.mod_small by lia.
  rewrite ReadFull_app by (rewrite len_app; lia).
  cbn [mbind result_bind]. rewrite len_app.
  rewrite (slice_app_r body (PutUint32 crc) (len body)) by lia. cbn [mbind result_bind].
  rewrite (slice_all (PutUint32 crc)) by lia. cbn [mbind result_bind].
  rewrite le_get_put4 by lia.
  rewrite (slice_app_l body (PutUint32 crc) (len body)) by lia. cbn [mbind result_bind].
  by destruct (crc =? ChecksumIEEE body).
Qed.

Lemma decode_body_ok r tl rest :
  wf_record r → decode_body (payload_of r ++ tl) rest = Ok (r, rest).
Proof.
  intros Hr. pose proof (decode_fields r tl Hr) as (H0 & H1 & H2 & H3 & H4 & H5 & H6).
  destruct Hr as (Hs & Hty & Hts & Hc & Ht).
  pose proof (len_nonneg (bytes_of_string (Collection r))).
  pose proof (len_nonneg (Data r)). unfold MaxUint16, MaxUint32 in *.
  unfold decode_body.
  rewrite H0. cbn [mbind result_bind]. rewrite H1. cbn [mbind result_bind].
  rewrite H2. cbn [mbind result_bind]. rewrite H3. cbn [mbind result_bind].
  rewrite le_get_put2 by lia. rewrite H4. cbn [mbind result_bind].
  rewrite H5. cbn [mbind result_bind]. rewrite le_get_put4 by lia.
  rewrite H6. cbn [mbind result_bind].
  rewrite le_get_put8, byte_val_of, Z.mod_small, string_bytes_round by lia.
  rewrite safeInt64_round by done. by destruct r.
Qed.

Lemma bytes_of_record_framed r rest :
  bytes_of_record r ++ rest =
    PutUint32 (len (payload_of r)) ++
    (payload_of r ++ PutUint32 (ChecksumIEEE (payload_of r))) ++ rest.
Proof. unfold bytes_of_record. by rewrite len_payload_of, !app_assoc. Qed.

(** Records whose frame length plus 4 still fits the uint32 that [decodeRecord]
    computes ([make([]byte, length+4)]). *)
Definition frame_fits (r : Record_) : Prop := payload_len r < 2 ^ 32 - 4.

Lemma decode_bytes_of_record r rest :
  wf_record r → frame_fits r → decodeRecord (bytes_of_record r ++ rest) = Ok (r, rest).
Proof.
  intros Hr Hf. rewrite bytes_of_record_framed.
  rewrite decode_framed by (rewrite ?len_payload_of; auto using ChecksumIEEE_range).
  rewrite Z.eqb_refl. by apply decode_body_ok.
Qed.

(** A strict prefix of a record's bytes never decodes: the stream ends inside
    it. *)
Lemma ReadFull_short n r :
  len r < n → ReadFull n r = Err (match r with [] => EOF | _ => ErrUnexpectedEOF end).
Proof.
  intros H. unfold ReadFull. destruct (Z.leb_spec n (len r)); [lia|]. by destruct r.
Qed.
