(* ===== verification/WalLog.v ===== *)
(** * pkg/storage/wal: the log

    The segmented log of [pkg/storage/wal/wal.go] as computations on a world
    (the files, the clock and the outcomes of system calls) and the [WAL]
    struct. [Write], [WriteBatch], [Sync], [Close], [Truncate] and [LastSeqNum]
    hold [w.mu] for their whole body, so each is one atomic step. [Replay] and
    [Open] do not take the mutex: they are modelled as running with no other
    call in progress, which is how recovery uses them. The asynchronous writer
    is a step machine over the queue.

    The world answers system calls from an arbitrary oracle: [w_faults n] is
    [None] when the [n]-th call succeeds and [Some k] when it fails (a failing
    [write] first writes [k] bytes). [w_clock n] is the [n]-th reading of
    [time.Now().UnixNano()]. *)
From stdpp Require Import base gmap strings list fin_maps numbers sorting.
From Stdlib Require Import Ascii Strings.Byte ZArith Lia.
From S2P Require Import Prelude Crc32 WalCodec.

#[local] Open Scope Z_scope.

Record segment := Segment {
  seg_path : string;
  seg_buf : list byte;      (* bytes in the bufio.Writer, not yet in the file *)
  seg_err : bool;           (* the sticky error of the bufio.Writer *)
  seg_closed : bool;
  seg_size : Z
}.

Record segmentInfo := SegmentInfo {
  si_path : string;
  si_lastSeqNum : Z;
  si_size : Z
}.

Record WAL := mkWAL {
  w_dir : string;
  w_segmentSize : Z;
  w_syncOnWrite : bool;
  w_current : option segment;
  w_segments : list segmentInfo;
  w_lastSeqNum : Z;
  w_asyncEnabled : bool;
  w_asyncBatchSize : Z;
  w_queueCap : Z;
  w_queue : list Record_     (* asyncQueue *)
}.

Record world := World {
  w_files : gmap string (list byte);
  w_clock : nat → Z;
  w_ticks : nat;
  w_faults : nat → option nat;
  w_calls : nat;
  w_log : WAL
}.

Definition W := M world walError.

Definition set_log (f : WAL → WAL) (w : world) : world :=
  World (w_files w) (w_clock w) (w_ticks w) (w_faults w) (w_calls w) (f (w_log w)).
Definition set_files (f : gmap string (list byte) → gmap string (list byte)) (w : world) : world :=
  World (f (w_files w)) (w_clock w) (w_ticks w) (w_faults w) (w_calls w) (w_log w).
Definition set_current (s : option segment) (l : WAL) : WAL :=
  mkWAL (w_dir l) (w_segmentSize l) (w_syncOnWrite l) s (w_segments l) (w_lastSeqNum l)
    (w_asyncEnabled l) (w_asyncBatchSize l) (w_queueCap l) (w_queue l).
Definition set_segments (s : list segmentInfo) (l : WAL) : WAL :=
  mkWAL (w_dir l) (w_segmentSize l) (w_syncOnWrite l) (w_current l) s (w_lastSeqNum l)
    (w_asyncEnabled l) (w_asyncBatchSize l) (w_queueCap l) (w_queue l).
Definition set_lastSeqNum (n : Z) (l : WAL) : WAL :=
  mkWAL (w_dir l) (w_segmentSize l) (w_syncOnWrite l) (w_current l) (w_segments l) n
    (w_asyncEnabled l) (w_asyncBatchSize l) (w_queueCap l) (w_queue l).
Definition set_queue (q : list Record_) (l : WAL) : WAL :=
  mkWAL (w_dir l) (w_segmentSize l) (w_syncOnWrite l) (w_current l) (w_segments l)
    (w_lastSeqNum l) (w_asyncEnabled l) (w_asyncBatchSize l) (w_queueCap l) q.

(** ** Clock and system calls *)
Definition UnixNano : W Z := λ w,
  (Ok (w_clock w (w_ticks w)),
   World (w_files w) (w_clock w) (S (w_ticks w)) (w_faults w) (w_calls w) (w_log w)).

(** The outcome of the next system call. *)
Definition syscall : W (option nat) := λ w,
  (Ok (w_faults w (w_calls w)),
   World (w_files w) (w_clock w) (w_ticks w) (w_faults w) (S (w_calls w)) (w_log w)).

Definition syscall_unit : W unit :=
  o ← syscall; match o with None => mret tt | Some _ => throw ErrIO end.

(** [file.Write(p)] on an O_APPEND file: the number of bytes appended and
    whether all of them were. *)
Definition file_append (path : string) (closed : bool) (p : list byte) : W (nat * bool) :=
  o ← syscall;
  if closed then mret (O, false) else
  match o with
  | None => modify (set_files (alter (λ c, c ++ p) path));; mret (length p, true)
  | Some k =>
      let n := Nat.min k (length p) in
      modify (set_files (alter (λ c, c ++ take n p) path));; mret (n, false)
  end.

(** ** bufio.Writer *)
Definition bufio_size : Z := 4096.

Definition with_buf (s : segment) (b : list byte) (e : bool) : segment :=
  Segment (seg_path s) b e (seg_closed s) (seg_size s).

(** [Flush]: a short write keeps the unwritten tail and makes the error sticky. *)
Definition bufio_Flush (s : segment) : W segment :=
  if seg_err s then modify (set_log (set_current (Some s)));; throw ErrIO else
  match seg_buf s with
  | [] => modify (set_log (set_current (Some s)));; mret s
  | buf =>
      '(n, ok) ← file_append (seg_path s) (seg_closed s) buf;
      let s' := with_buf s (drop n buf) (negb ok) in
      modify (set_log (set_current (Some s')));;
      if (ok : bool) then mret s' else throw ErrIO
  end.

(** [Write]: while the data does not fit the free space, an empty buffer sends
    it straight to the file and a non-empty one is filled and flushed; the rest
    is buffered. The loop runs at most twice; [fuel] is 2 plus a step to leave
    it. *)
Fixpoint bufio_Write_loop (fuel : nat) (s : segment) (p : list byte) : W segment :=
  match fuel with
  | O => panic
  | S fuel =>
      if seg_err s then modify (set_log (set_current (Some s)));; throw ErrIO else
      let avail := bufio_size - len (seg_buf s) in
      if len p <=? avail then
        let s' := with_buf s (seg_buf s ++ p) false in
        modify (set_log (set_current (Some s')));; mret s'
      else
        match seg_buf s with
        | [] =>
            '(n, ok) ← file_append (seg_path s) (seg_closed s) p;
            bufio_Write_loop fuel (with_buf s [] (negb ok)) (drop n p)
        | _ =>
            let k := Z.to_nat avail in
            s' ← bufio_Flush (with_buf s (seg_buf s ++ take k p) false);
            bufio_Write_loop fuel s' (drop k p)
        end
  end.
Definition bufio_Write (s : segment) (p : list byte) : W segment :=
  bufio_Write_loop 4 s p.

(** ** Opening segments

    [fmt.Sprintf("%020d.wal", n)]: at least 20 digits, zero-padded. *)
Definition digit (d : Z) : Ascii.ascii := Ascii.ascii_of_N (Z.to_N (48 + d)).
Fixpoint decimal_go (fuel : nat) (n : Z) (acc : string) : string :=
  match fuel with
  | O => acc
  | S fuel => decimal_go fuel (n `div` 10) (String (digit (n `mod` 10)) acc)
  end.
Definition segment_name (n : Z) : string := decimal_go 20 n ".wal".

(** [filepath.Join(dir, name)] for a clean [dir] and a plain file name. *)
Definition path_join (dir name : string) : string := dir +:+ "/" +:+ name.

Definition openCurrentSegment : W unit :=
  now ← UnixNano;
  dir ← gets (λ w, w_dir (w_log w));
  let path := path_join dir (segment_name now) in
  syscall_unit;;
  modify (set_files (λ fs, match fs !! path with Some _ => fs | None => <[path := []]> fs end));;
  modify (set_log (set_current (Some (Segment path [] false false 0)))).

(** ** rotate, Write, WriteBatch *)
Definition current : W segment :=
  c ← gets (λ w, w_current (w_log w));
  match c with Some s => mret s | None => panic end.

(** [file.Sync()] and [file.Close()] *)
Definition file_Sync (s : segment) : W unit :=
  syscall_unit;; if seg_closed s then throw ErrIO else mret tt.
Definition file_Close (s : segment) : W unit :=
  if seg_closed s then syscall_unit;; throw ErrIO else
  modify (set_log (set_current (Some
    (Segment (seg_path s) (seg_buf s) (seg_err s) true (seg_size s)))));;
  syscall_unit.

Definition rotate : W unit :=
  c ← gets (λ w, w_current (w_log w));
  match c with
  | Some s =>
      s ← bufio_Flush s;
      file_Sync s;;
      file_Close s;;
      modify (set_log (λ l, set_segments
        (w_segments l ++ [SegmentInfo (seg_path s) 0 (seg_size s)]) l))
  | None => mret tt
  end;;
  openCurrentSegment.

(** Rotate when [data] does not fit, then buffer it and count its size. *)
Definition append_data (data : list byte) : W unit :=
  s ← current;
  size ← gets (λ w, w_segmentSize (w_log w));
  when (seg_size s + len data >? size) rotate;;
  s ← current;
  s ← bufio_Write s data;
  modify (set_log (set_current (Some
    (Segment (seg_path s) (seg_buf s) (seg_err s) (seg_closed s)
       (seg_size s + len data))))).

Definition nextSeqNum : W Z :=
  modify (set_log (λ l, set_lastSeqNum (u64 (w_lastSeqNum l + 1)) l));;
  gets (λ w, w_lastSeqNum (w_log w)).

(** The record with the sequence number and timestamp given to it. *)
Definition stamp (r : Record_) (seq ts : Z) : Record_ :=
  Record seq (Type_ r) (Collection r) (Data r) ts.

(** The sequence [Write] and [WriteBatch] run on every record and marker: take
    the next sequence number, stamp, encode, rotate if needed, append. An
    encoding error leaves the sequence number consumed. *)
Definition log_one (record : Record_) : W Record_ :=
  seq ← nextSeqNum;
  now ← UnixNano;
  data ← lift (encodeRecord (stamp record seq now));
  append_data data;;
  mret (stamp record seq now).

Definition Write (record : Record_) : W Record_ :=
  record ← log_one record;
  sync ← gets (λ w, w_syncOnWrite (w_log w));
  when sync (s ← current; s ← bufio_Flush s; file_Sync s);;
  mret record.

Fixpoint batch_loop (records : list Record_) : W (list Record_) :=
  match records with
  | [] => mret []
  | record :: records =>
      record ← log_one record;
      rest ← batch_loop records;
      mret (record :: rest)
  end.

(** The [BatchBegin]/[BatchEnd] record of a batch of [n] records. *)
Definition marker (type n : Z) : Record_ := Record 0 type "" (encodeBatchSize n) 0.

Definition WriteBatch (records : list Record_) : W (list Record_) :=
  log_one (marker RecordTypeBatchBegin (len records));;
  written ← batch_loop records;
  log_one (marker RecordTypeBatchEnd (len records));;
  s ← current; s ← bufio_Flush s;
  sync ← gets (λ w, w_syncOnWrite (w_log w));
  when sync (file_Sync s);;
  mret written.

(** ** Sync, Close, LastSeqNum *)
Definition Sync : W unit :=
  c ← gets (λ w, w_current (w_log w));
  match c with
  | None => mret tt
  | Some s => s ← bufio_Flush s; file_Sync s
  end.

Definition Close : W unit :=
  c ← gets (λ w, w_current (w_log w));
  match c with
  | None => mret tt
  | Some s => s ← bufio_Flush s; file_Sync s;; file_Close s
  end.

Definition LastSeqNum : W Z := gets (λ w, w_lastSeqNum (w_log w)).

(** ** Replay *)

(** The decoding loop of [replaySegment] and [scanSegmentLastSeqNum]: the
    records decoded before the first error, and that error. A decoded record
    consumes at least one byte, so the length of the stream is enough fuel. *)
Fixpoint decode_stream (fuel : nat) (r : list byte) : list Record_ * result walError unit :=
  match fuel with
  | O => ([], Panic)
  | S fuel =>
      match decodeRecord r with
      | Ok (rec, r) => let '(rs, e) := decode_stream fuel r in (rec :: rs, e)
      | Err e => ([], Err e)
      | Panic => ([], Panic)
      end
  end.
Definition decode_all (r : list byte) := decode_stream (S (length r)) r.

(** [replaySegment] with the collecting callback of [Replay]: only [io.EOF]
    ends the loop without an error. *)
Definition replaySegment (path : string) : W (list Record_) :=
  syscall_unit;;
  fs ← gets w_files;
  match fs !! path with
  | None => throw ErrNotExist
  | Some content =>
      match decode_all content with
      | (rs, Err EOF) => mret rs
      | (_, Err e) => throw e
      | (_, _) => panic
      end
  end.

Fixpoint replay_paths (paths : list string) : W (list Record_) :=
  match paths with
  | [] => mret []
  | p :: ps => rs ← replaySegment p; rest ← replay_paths ps; mret (rs ++ rest)
  end.

Definition collectRecords : W (list Record_) :=
  segs ← gets (λ w, w_segments (w_log w));
  old ← replay_paths (si_path <$> segs);
  c ← gets (λ w, w_current (w_log w));
  match c with
  | None => mret old
  | Some s => s ← bufio_Flush s; new ← replaySegment (seg_path s); mret (old ++ new)
  end.

(** The batch-aware application of the collected records: the callback is
    called on each record of a complete batch when its end marker is met, and
    on a record outside a batch at once. *)
Record replayState := ReplayState { rp_buf : list Record_; rp_in : bool; rp_expected : Z }.

(** [for _, r := range rs { if err := fn(r); err != nil { return err } }] *)
Definition run_all {S E} (fn : Record_ → M S E unit) (rs : list Record_) : M S E unit :=
  foldr (λ r k, fn r;; k) (mret tt) rs.

Fixpoint applyRecords {S E} (fn : Record_ → M S E unit) (rs : list Record_)
    (st : replayState) : M S E unit :=
  match rs with
  | [] => mret tt
  | record :: rs =>
      if Type_ record =? RecordTypeBatchBegin then
        applyRecords fn rs (ReplayState [] true (decodeBatchSize (Data record)))
      else if Type_ record =? RecordTypeBatchEnd then
        (if rp_in st && (len (rp_buf st) =? rp_expected st) then
           run_all fn (rp_buf st)
         else mret tt);;
        applyRecords fn rs (ReplayState [] false (rp_expected st))
      else if rp_in st then
        applyRecords fn rs (ReplayState (rp_buf st ++ [record]) true (rp_expected st))
      else fn record;; applyRecords fn rs st
  end.

(** The records [applyRecords] hands to its callback, in order, when the
    callback never fails. *)
Fixpoint replayed_go (rs : list Record_) (st : replayState) : list Record_ :=
  match rs with
  | [] => []
  | record :: rs =>
      if Type_ record =? RecordTypeBatchBegin then
        replayed_go rs (ReplayState [] true (decodeBatchSize (Data record)))
      else if Type_ record =? RecordTypeBatchEnd then
        (if rp_in st && (len (rp_buf st) =? rp_expected st) then rp_buf st else []) ++
        replayed_go rs (ReplayState [] false (rp_expected st))
      else if rp_in st then
        replayed_go rs (ReplayState (rp_buf st ++ [record]) true (rp_expected st))
      else record :: replayed_go rs st
  end.
Definition replayed (rs : list Record_) : list Record_ :=
  replayed_go rs (ReplayState [] false 0).

(** [Replay(fn)], with [fn] acting on a state of its own. *)
Definition ReplayWith {S} (fn : Record_ → M S walError unit) :
    M (world * S) walError unit := λ '(w, s),
  match collectRecords w with
  | (Ok rs, w') =>
      let '(r, s') := applyRecords fn rs (ReplayState [] false 0) s in (r, (w', s'))
  | (Err e, w') => (Err e, (w', s))
  | (Panic, w') => (Panic, (w', s))
  end.

(** [Replay] with a callback that collects. *)
Definition Replay : W (list Record_) :=
  rs ← collectRecords; mret (replayed rs).

(** ** Truncate *)
Fixpoint truncate_loop (beforeSeqNum : Z) (segs remaining : list segmentInfo) :
    W (list segmentInfo) :=
  match segs with
  | [] => mret remaining
  | seg :: segs =>
      if si_lastSeqNum seg <? beforeSeqNum then
        syscall_unit;;
        fs ← gets w_files;
        match fs !! si_path seg with
        | None => throw ErrNotExist
        | Some _ =>
            modify (set_files (delete (si_path seg)));;
            truncate_loop beforeSeqNum segs remaining
        end
      else truncate_loop beforeSeqNum segs (remaining ++ [seg])
  end.

Definition Truncate (beforeSeqNum : Z) : W unit :=
  segs ← gets (λ w, w_segments (w_log w));
  remaining ← truncate_loop beforeSeqNum segs [];
  modify (set_log (set_segments remaining)).

(** ** Open *)

(** The highest sequence number decoded before the stream ends; a torn tail is
    tolerated here. *)
Definition max_seq (rs : list Record_) : Z := foldl (λ m r, Z.max m (SeqNum r)) 0 rs.

Definition scanSegmentLastSeqNum (path : string) : W Z :=
  syscall_unit;;
  fs ← gets w_files;
  match fs !! path with
  | None => throw ErrNotExist
  | Some content =>
      match decode_all content with
      | (rs, Err EOF) | (rs, Err ErrUnexpectedEOF) => mret (max_seq rs)
      | (_, Err e) => throw e
      | (_, _) => panic
      end
  end.

(** [os.ReadDir]: the names of the plain files directly inside [dir]. *)
Fixpoint strip_prefix (p s : string) : option string :=
  match p, s with
  | EmptyString, _ => Some s
  | String a p, String b s => if Ascii.eqb a b then strip_prefix p s else None
  | _, EmptyString => None
  end.
Fixpoint has_slash (s : string) : bool :=
  match s with
  | EmptyString => false
  | String c s => Ascii.eqb c "/"%char || has_slash s
  end.
Fixpoint has_suffix (suf s : string) : bool :=
  String.eqb suf s || match s with EmptyString => false | String _ s => has_suffix suf s end.
Definition in_dir (dir path : string) : bool :=
  match strip_prefix (dir +:+ "/") path with
  | Some name => negb (has_slash name)
  | None => false
  end.

(** The [.wal] files of the directory in the order of [sort.Strings]. *)
Definition wal_paths (dir : string) (fs : gmap string (list byte)) : list string :=
  merge_sort (≤)%string
    (filter (λ p, in_dir dir p && has_suffix ".wal" p) (map_to_list fs).*1).

(** Record a scanned segment, and its last sequence number if it is higher. *)
Definition load_segment (path : string) (lastSeq size : Z) (l : WAL) : WAL :=
  let l := set_segments (w_segments l ++ [SegmentInfo path lastSeq size]) l in
  if lastSeq >? w_lastSeqNum l then set_lastSeqNum lastSeq l else l.

Fixpoint load_loop (paths : list string) : W unit :=
  match paths with
  | [] => mret tt
  | path :: paths =>
      o ← syscall; (* os.Stat: a failure skips the file *)
      match o with
      | Some _ => load_loop paths
      | None =>
          lastSeq ← scanSegmentLastSeqNum path;
          fs ← gets w_files;
          modify (set_log (load_segment path lastSeq (from_option len 0 (fs !! path))));;
          load_loop paths
      end
  end.

Definition loadSegments : W unit :=
  syscall_unit;;
  dir ← gets (λ w, w_dir (w_log w));
  fs ← gets w_files;
  load_loop (wal_paths dir fs).

Record Config := mkConfig {
  Dir : string;
  SegmentSize : Z;
  SyncOnWrite : bool;
  AsyncEnabled : bool;
  AsyncBatchSize : Z
}.

Definition DefaultConfig : Config :=
  mkConfig "./data/wal" (64 * 1024 * 1024) true false 100.

Definition maxAsyncBatchSize : Z := 1000000.
Definition maxAsyncQueueCap : Z := maxAsyncBatchSize * 10.

(** The clamped batch size and the capacity of the queue [Open] makes. *)
Definition asyncBatchSizeOf (cfg : Config) : Z :=
  let n := AsyncBatchSize cfg in
  let n := if n <=? 0 then 100 else n in
  if n >? maxAsyncBatchSize then maxAsyncBatchSize else n.
Definition asyncQueueCapOf (n : Z) : Z :=
  if (n >? 0) && (n <=? maxAsyncBatchSize) then i64 (n * 10) else maxAsyncQueueCap.

Definition Open (cfg : Config) : W unit :=
  syscall_unit;; (* os.MkdirAll *)
  let n := asyncBatchSizeOf cfg in
  modify (set_log (λ _, mkWAL (Dir cfg) (SegmentSize cfg) (SyncOnWrite cfg) None [] 0
    (AsyncEnabled cfg) n (asyncQueueCapOf n) []));;
  loadSegments;;
  openCurrentSegment.

(** ** The asynchronous writer

    [asyncWriter] runs in its own goroutine and owns [batch]; one step is one
    iteration of its select loop. *)
Definition flush (batch : list Record_) : W unit := λ w,
  match batch with
  | [] => (Ok tt, w)
  | _ =>
      match WriteBatch batch w with
      | (Panic, w') => (Panic, w')
      | (_, w') => (Ok tt, w')      (* the error is dropped *)
      end
  end.

Definition WriteAsync (record : Record_) : W unit :=
  l ← gets w_log;
  if negb (w_asyncEnabled l) then Write record;; mret tt
  else if len (w_queue l) <? w_queueCap l then
    modify (set_log (set_queue (w_queue l ++ [record])))
  else Write record;; mret tt.

Inductive async_event := EvRecord | EvTick | EvDone.

(** [None] for the batch once the goroutine has returned. *)
Definition asyncWriter_step (ev : async_event) (batch : list Record_) : W (option (list Record_)) :=
  l ← gets w_log;
  match ev with
  | EvRecord =>
      match w_queue l with
      | [] => mret (Some batch)
      | record :: q =>
          modify (set_log (set_queue q));;
          let batch := batch ++ [record] in
          if w_asyncBatchSize l <=? len batch then flush batch;; mret (Some [])
          else mret (Some batch)
      end
  | EvTick => flush batch;; mret (Some [])
  | EvDone =>
      modify (set_log (set_queue []));;
      flush (batch ++ w_queue l);; mret None
  end.

(** [Close] of a log whose asynchronous writer holds [batch]: the writer drains
    the queue and returns, then the segment is closed. *)
Definition CloseAsync (batch : list Record_) : W unit :=
  l ← gets w_log;
  (if w_asyncEnabled l then asyncWriter_step EvDone batch;; mret tt else mret tt);;
  Close.
