(* ===== verification/WalProofs.v ===== *)
(** * pkg/storage/wal: correctness of the log

    The invariant [holds w rs]: the segment files of [w], in order, together
    with the unflushed buffer, are exactly the encodings of [rs]. Each
    successful operation extends [rs] by the records it wrote, and [Replay]
    reads [rs] back and applies it batch by batch. *)
From stdpp Require Import base gmap strings list fin_maps numbers sorting.
From Stdlib Require Import Ascii Strings.Byte ZArith Lia.
From S2P Require Import Prelude Crc32 WalCodec WalLog.

#[local] Open Scope Z_scope.

(** ** Successful buffered writes *)

(** [w'] is [w] with new files, clock position and log. *)
Definition moves (w w' : world) (fs : gmap string (list byte)) (tk : nat) (l : WAL) : Prop :=
  ∃ n, w' = World fs (w_clock w) tk (w_faults w) n l.

Lemma append_Ok path p w n w' c :
  w_files w !! path = Some c →
  file_append path false p w = (Ok (n, true), w') →
  n = length p ∧ moves w w' (<[path := c ++ p]> (w_files w)) (w_ticks w) (w_log w).
Proof.
  intros Hc H. unfold file_append in H. minv H as o w1 E. unfold syscall in E.
  simplify_eq. destruct (w_faults w (w_calls w)) as [k|]; unfold_M; simplify_eq.
  split; [done|]. exists (S (w_calls w)). unfold set_files; simpl. f_equal.
  apply map_eq. intros i. rewrite lookup_alter, lookup_insert.
  case_decide; subst; by rewrite ?Hc.
Qed.

Lemma flush_Ok s w s' w' c :
  seg_err s = false → seg_closed s = false → w_files w !! seg_path s = Some c →
  bufio_Flush s w = (Ok s', w') →
  s' = with_buf s [] false ∧
  moves w w' (<[seg_path s := c ++ seg_buf s]> (w_files w)) (w_ticks w)
    (set_current (Some s') (w_log w)).
Proof.
  intros He Hcl Hc H. unfold bufio_Flush in H. rewrite He in H.
  destruct (seg_buf s) as [|b buf] eqn:Eb.
  - unfold_M. simplify_eq. split.
    + destruct s'; simpl in *; by subst.
    + exists (w_calls w). unfold set_log; f_equal.
      by rewrite app_nil_r, insert_id.
  - rewrite Hcl in H. minv H as [n ok] w1 E.
    minv H as [] w2 E2. destruct ok; [|unfold_M; simplify_eq].
    apply append_Ok with (c := c) in E as [-> [n ->]]; [|done].
    unfold_M. simplify_eq. split.
    + by rewrite drop_all.
    + by exists n.
Qed.

Lemma bufio_Write_loop_Ok fuel s p w s' w' c :
  seg_closed s = false → w_files w !! seg_path s = Some c →
  bufio_Write_loop fuel s p w = (Ok s', w') →
  ∃ c' b', c' ++ b' = c ++ seg_buf s ++ p ∧ s' = with_buf s b' false ∧
    moves w w' (<[seg_path s := c']> (w_files w)) (w_ticks w)
      (set_current (Some s') (w_log w)).
Proof.
  revert s p w c. induction fuel as [|fuel IH]; intros s p w c Hcl Hc H; simpl in H.
  { unfold_M; simplify_eq. }
  destruct (seg_err s) eqn:He; [unfold_M; simplify_eq|].
  destruct (len p <=? _).
  { unfold_M. simplify_eq. exists c, (seg_buf s ++ p).
    split_and!; [done|done|]. exists (w_calls w). by rewrite insert_id. }
  destruct (seg_buf s) as [|b buf] eqn:Eb.
  - rewrite Hcl in H. minv H as [n ok] w1 E. destruct ok; simpl in H.
    + apply append_Ok with (c := c) in E as [-> [m ->]]; [|done].
      apply IH with (c := c ++ p) in H as (c' & b' & E & -> & [m' ->]);
        [|done|by simpl; rewrite lookup_insert_eq].
      exists c', b'. simpl in *. rewrite drop_all in E. split_and!; [|done|].
      * rewrite app_nil_r in E. by rewrite E.
      * exists m'. simpl. by rewrite insert_insert_eq.
    + destruct fuel; simpl in H; unfold_M; simplify_eq.
  - set (k := Z.to_nat _) in H. minv H as s1 w1 E.
    apply flush_Ok with (c := c) in E as [-> [m ->]]; [|done..].
    simpl in H.
    apply IH with (c := c ++ (b :: buf) ++ take k p) in H
      as (c' & b' & E & -> & [m' ->]); [|done|by simpl; rewrite lookup_insert_eq].
    exists c', b'. simpl in *. split_and!; [|done|].
    + rewrite E. list_simplifier. by rewrite take_drop.
    + exists m'. simpl. by rewrite insert_insert_eq.
Qed.

(** ** The invariant

    The clock is assumed to behave for its first [hz] readings; operations that
    stay within that horizon are covered. *)
Section horizon.
Context (hz : nat).

Definition encs (rs : list Record_) : list byte := concat (bytes_of_record <$> rs).

Lemma encs_app a b : encs (a ++ b) = encs a ++ encs b.
Proof. unfold encs. by rewrite fmap_app, concat_app. Qed.

Lemma encs_snoc a r : encs (a ++ [r]) = encs a ++ bytes_of_record r.
Proof. rewrite encs_app. unfold encs at 2. simpl. by rewrite app_nil_r. Qed.

Definition good_record (r : Record_) : Prop := wf_record r ∧ frame_fits r.

(** The path of the segment opened at clock reading [t]. *)
Definition seg_path_at (w : world) (t : Z) : string :=
  path_join (w_dir (w_log w)) (segment_name t).

(** What the log assumes of its clock: readings increase, and a reading is a
    non-negative int64. *)
Definition clock_ok (w : world) : Prop :=
  (∀ i j, (i < j < hz)%nat → w_clock w i < w_clock w j) ∧
  (∀ i, (i < hz)%nat → 0 ≤ w_clock w i ≤ MaxInt64).

(** The files [Open] would load. *)
Definition listed (dir p : string) : bool := in_dir dir p && has_suffix ".wal" p.

(** [paths] are the segments opened at increasing clock readings before
    [w_ticks w]. *)
Definition opened_in_order (w : world) (paths : list string) : Prop :=
  ∃ idxs, StronglySorted lt idxs ∧ Forall (λ i, (i < w_ticks w)%nat) idxs ∧
    paths = (λ i, seg_path_at w (w_clock w i)) <$> idxs.

Record log_inv (w : world) (rss : list (list Record_)) (cur : list Record_)
    (s : segment) : Prop := {
  li_cur : w_current (w_log w) = Some s;
  li_err : seg_err s = false;
  li_open : seg_closed s = false;
  li_old : Forall2 (λ si rs, w_files w !! si_path si = Some (encs rs))
             (w_segments (w_log w)) rss;
  li_file : ∃ c, w_files w !! seg_path s = Some c ∧ c ++ seg_buf s = encs cur;
  li_size : seg_size s = len (encs cur);
  li_good : Forall good_record (concat rss ++ cur);
  li_path : seg_path s ∉ si_path <$> w_segments (w_log w);
  li_clock : clock_ok w;
  li_ticks : (w_ticks w ≤ hz)%nat;
  li_fresh : ∀ n, (w_ticks w ≤ n < hz)%nat → w_files w !! seg_path_at w (w_clock w n) = None;
  li_order : opened_in_order w ((si_path <$> w_segments (w_log w)) ++ [seg_path s]);
  li_dir : ∀ p, is_Some (w_files w !! p) → listed (w_dir (w_log w)) p →
    p ∈ (si_path <$> w_segments (w_log w)) ++ [seg_path s]
}.

(** Sequence numbers increase strictly along the log and are bounded by the
    last one given out. *)
Definition ordered (last : Z) (rs : list Record_) : Prop :=
  StronglySorted Z.lt (SeqNum <$> rs) ∧ Forall (λ r, SeqNum r ≤ last) rs.

(** The log holds the records [rs], in order. *)
Definition holds (w : world) (rs : list Record_) : Prop :=
  0 ≤ w_lastSeqNum (w_log w) ∧ ordered (w_lastSeqNum (w_log w)) rs ∧
  ∃ rss cur s, log_inv w rss cur s ∧ concat rss ++ cur = rs.

Lemma ordered_mono n m rs : n ≤ m → ordered n rs → ordered m rs.
Proof. intros Hnm [Hs Hf]. split; [done|]. eapply Forall_impl; [done|]. simpl; lia. Qed.

Lemma ordered_snoc n rs r : ordered n rs → SeqNum r = n + 1 → ordered (n + 1) (rs ++ [r]).
Proof.
  intros [Hs Hf] Hr. split.
  - rewrite fmap_app. apply StronglySorted_app_2; [|done|repeat constructor].
    intros x y Hx Hy. apply list_elem_of_fmap in Hx as (r0 & -> & Hx).
    rewrite Forall_forall in Hf. specialize (Hf _ Hx).
    apply list_elem_of_singleton in Hy as ->. lia.
  - apply Forall_app_2; [|constructor; [lia|done]].
    eapply Forall_impl; [done|]. simpl; lia.
Qed.

(** ** Segment names are distinct for distinct readings *)
Lemma digit_inj a b : 0 ≤ a < 10 → 0 ≤ b < 10 → digit a = digit b → a = b.
Proof.
  intros Ha Hb H. unfold digit in H.
  apply (f_equal Ascii.N_of_ascii) in H.
  rewrite !Ascii.N_ascii_embedding in H by lia. lia.
Qed.

Lemma decimal_go_inj fuel a b x y :
  0 ≤ a < 10 ^ Z.of_nat fuel → 0 ≤ b < 10 ^ Z.of_nat fuel →
  String.length x = String.length y →
  decimal_go fuel a x = decimal_go fuel b y → a = b ∧ x = y.
Proof.
  revert a b x y. induction fuel as [|fuel IH]; intros a b x y Ha Hb Hl H.
  { simpl in *. split; [lia|done]. }
  rewrite Nat2Z.inj_succ, Z.pow_succ_r in Ha, Hb by lia. simpl in H.
  apply IH in H as [E1 E2]; [| | |by simpl; rewrite Hl].
  - simplify_eq. split; [|done].
    apply digit_inj in E2; [|by apply Z.mod_pos_bound..].
    rewrite (Z.div_mod a 10), (Z.div_mod b 10) by lia. lia.
  - split; [apply Z.div_pos; lia|apply Z.div_lt_upper_bound; lia].
  - split; [apply Z.div_pos; lia|apply Z.div_lt_upper_bound; lia].
Qed.

Lemma segment_name_inj a b :
  0 ≤ a ≤ MaxInt64 → 0 ≤ b ≤ MaxInt64 → segment_name a = segment_name b → a = b.
Proof.
  unfold MaxInt64. intros Ha Hb H.
  by apply decimal_go_inj in H as [-> _]; [|simpl; lia..|].
Qed.

Lemma path_join_inj d a b : path_join d a = path_join d b → a = b.
Proof. unfold path_join. intros H. by apply (inj _), (inj _) in H. Qed.

Lemma syscall_unit_Ok w w' :
  syscall_unit w = (Ok tt, w') → moves w w' (w_files w) (w_ticks w) (w_log w).
Proof.
  unfold syscall_unit, syscall. unfold_M. intros H.
  destruct (w_faults w (w_calls w)); simplify_eq. by eexists.
Qed.

(** ** Opening a segment *)
Record old_inv (w : world) (rss : list (list Record_)) : Prop := {
  oi_old : Forall2 (λ si rs, w_files w !! si_path si = Some (encs rs))
             (w_segments (w_log w)) rss;
  oi_good : Forall good_record (concat rss);
  oi_clock : clock_ok w;
  oi_fresh : ∀ n, (w_ticks w ≤ n < hz)%nat → w_files w !! seg_path_at w (w_clock w n) = None;
  oi_order : opened_in_order w (si_path <$> w_segments (w_log w));
  oi_dir : ∀ p, is_Some (w_files w !! p) → listed (w_dir (w_log w)) p →
    p ∈ si_path <$> w_segments (w_log w)
}.

(** Overwriting a file of the log adds no listed file. *)
Lemma dir_insert (fs : gmap string (list byte)) p c dir (paths : list string) :
  p ∈ paths → (∀ q, is_Some (fs !! q) → listed dir q → q ∈ paths) →
  ∀ q, is_Some (<[p := c]> fs !! q) → listed dir q → q ∈ paths.
Proof.
  intros Hp H q Hq Hl. destruct (decide (q = p)) as [->|Hne]; [done|].
  rewrite lookup_insert_ne in Hq by done. auto.
Qed.

Lemma opened_snoc w w' paths :
  w_clock w' = w_clock w → w_ticks w' = S (w_ticks w) →
  w_dir (w_log w') = w_dir (w_log w) →
  opened_in_order w paths →
  opened_in_order w' (paths ++ [seg_path_at w (w_clock w (w_ticks w))]).
Proof.
  intros Ec Et Ed (idxs & Hs & Hb & ->). exists (idxs ++ [w_ticks w]). split_and!.
  - apply StronglySorted_app_2; [|done|repeat constructor]. intros i j Hi Hj.
    apply list_elem_of_singleton in Hj as ->. rewrite Forall_forall in Hb. by apply Hb.
  - rewrite Et. apply Forall_app_2; [|constructor; [lia|done]].
    eapply Forall_impl; [done|]. simpl; lia.
  - rewrite fmap_app. unfold seg_path_at. by rewrite Ec, Ed.
Qed.

Lemma opened_weaken w w' paths :
  w_clock w' = w_clock w → (w_ticks w ≤ w_ticks w')%nat →
  w_dir (w_log w') = w_dir (w_log w) →
  opened_in_order w paths → opened_in_order w' paths.
Proof.
  intros Ec Et Ed (idxs & Hs & Hb & ->). exists idxs. split_and!; [done| |].
  - eapply Forall_impl; [done|]. simpl; lia.
  - unfold seg_path_at. by rewrite Ec, Ed.
Qed.

(** Adding or rewriting a file that no old segment uses keeps them. *)
Lemma old_segments_insert (fs : gmap string (list byte)) p c segs rss :
  p ∉ si_path <$> segs →
  Forall2 (λ si rs, fs !! si_path si = Some (encs rs)) segs rss →
  Forall2 (λ si rs, <[p := c]> fs !! si_path si = Some (encs rs)) segs rss.
Proof.
  intros Hp H. induction H as [|si rs segs rss Hsi H IH]; constructor.
  - rewrite lookup_insert_ne; [done|]. intros ->. apply Hp. simpl. left.
  - apply IH. intros Hin. apply Hp. simpl. by right.
Qed.

Lemma old_paths_in_files (fs : gmap string (list byte)) segs (rss : list (list Record_)) p :
  Forall2 (λ si rs, fs !! si_path si = Some (encs rs)) segs rss →
  fs !! p = None → p ∉ si_path <$> segs.
Proof.
  intros H Hp Hin. apply list_elem_of_fmap in Hin as (si & -> & Hin).
  apply list_elem_of_lookup in Hin as [i Hi].
  destruct (Forall2_lookup_l _ _ _ _ _ H Hi) as (rs & _ & E). congruence.
Qed.

Lemma open_Ok w w' rss :
  old_inv w rss → (w_ticks w < hz)%nat → openCurrentSegment w = (Ok tt, w') →
  ∃ s, log_inv w' rss [] s ∧ w_lastSeqNum (w_log w') = w_lastSeqNum (w_log w) ∧
    moves w w' (w_files w') (S (w_ticks w)) (set_current (Some s) (w_log w)).
Proof.
  intros [Hold Hgood Hck Hfresh Hord Hdir] Htk H. pose proof Hck as [Hinc Hrng].
  unfold openCurrentSegment in H.
  minv H as now w1 E. unfold UnixNano in E. simplify_eq.
  minv H as dir w1 E. unfold gets in E; simplify_eq. simpl in H.
  minv H as [] w1 E. apply syscall_unit_Ok in E as [m ->].
  minv H as [] w1 E. unfold modify in E, H. simplify_eq. simpl.
  set (p := path_join _ _).
  assert (Hp : w_files w !! p = None) by (apply (Hfresh (w_ticks w)); lia).
  unfold set_log, set_files; simpl. rewrite Hp.
  exists (Segment p [] false false 0). split_and!; [|done|by exists m].
  constructor; simpl; try done.
  - apply old_segments_insert; [|done]. by eapply old_paths_in_files.
  - exists []. by rewrite lookup_insert_eq.
  - by rewrite app_nil_r.
  - by eapply old_paths_in_files.
  - intros n Hn. rewrite lookup_insert_ne; [apply Hfresh; lia|].
    intros E. apply path_join_inj, segment_name_inj in E; [|apply Hrng; lia..].
    specialize (Hinc (w_ticks w) n ltac:(lia)). lia.
  - by apply (opened_snoc w).
  - intros q Hq Hl. destruct (decide (q = p)) as [->|Hne].
    + apply elem_of_app. right. by apply list_elem_of_singleton.
    + rewrite lookup_insert_ne in Hq by done. apply elem_of_app. left. by apply Hdir.
Qed.

(** ** Rotation and appending *)
Lemma file_Sync_Ok s w w' :
  file_Sync s w = (Ok tt, w') → moves w w' (w_files w) (w_ticks w) (w_log w).
Proof.
  unfold file_Sync. intros H. minv H as [] w1 E.
  apply syscall_unit_Ok in E as [n ->].
  destruct (seg_closed s); unfold_M; simplify_eq. by eexists.
Qed.

Lemma file_Close_Ok s w w' :
  seg_closed s = false → file_Close s w = (Ok tt, w') →
  ∃ s', moves w w' (w_files w) (w_ticks w) (set_current (Some s') (w_log w)).
Proof.
  unfold file_Close. intros -> H. minv H as [] w1 E.
  unfold modify in E; simplify_eq. apply syscall_unit_Ok in H as [n ->].
  by do 2 eexists.
Qed.

Lemma rotate_Ok w w' rss cur s :
  log_inv w rss cur s → (w_ticks w < hz)%nat → rotate w = (Ok tt, w') →
  ∃ s', log_inv w' (rss ++ [cur]) [] s' ∧
    w_lastSeqNum (w_log w') = w_lastSeqNum (w_log w) ∧ w_ticks w' = S (w_ticks w).
Proof.
  intros [Hcur Herr Hopen Hold (c & Hc & Hcb) Hsize Hgood Hpath Hclk Htk Hfresh Hord Hdir] Hlt H.
  unfold rotate in H. minv H as c0 w2 E0.
  unfold gets in E0; injection E0 as <- <-. rewrite Hcur in H. minv H as [] w1 E.
  minv E as s1 w3 E1. apply flush_Ok with (c := c) in E1 as [-> [n1 ->]]; [|done..].
  minv E as [] w4 E2. apply file_Sync_Ok in E2 as [n2 ->].
  minv E as [] w5 E3. apply file_Close_Ok in E3 as [s' [n3 ->]]; [|done].
  unfold modify in E. simplify_eq. simpl in H. rewrite Hcb in H.
  apply open_Ok with (rss := rss ++ [cur]) in H as (s1 & Hinv & Hseq & [n4 E4]).
  { exists s1. split_and!; [done..|by rewrite E4]. }
  2: done.
  constructor; simpl.
  - apply Forall2_app; [by apply old_segments_insert|].
    constructor; [|done]. simpl. by rewrite lookup_insert_eq.
  - rewrite concat_app. simpl. by rewrite app_nil_r.
  - done.
  - intros n Hn. rewrite lookup_insert_ne; [by apply Hfresh|].
    intros E. specialize (Hfresh n Hn). unfold seg_path_at in *. simpl in *. congruence.
  - rewrite fmap_app. by apply (opened_weaken w).
  - rewrite fmap_app. apply dir_insert; [|done].
    apply elem_of_app. right. by apply list_elem_of_singleton.
Qed.

Lemma current_Ok w s w' :
  current w = (Ok s, w') → w_current (w_log w) = Some s ∧ w' = w.
Proof.
  unfold current. unfold_M. intros H.
  destruct (w_current (w_log w)); simplify_eq. done.
Qed.

Lemma append_data_Ok w w' rss cur s r :
  log_inv w rss cur s → good_record r → (w_ticks w < hz)%nat →
  append_data (bytes_of_record r) w = (Ok tt, w') →
  ∃ rss' cur' s', log_inv w' rss' cur' s' ∧
    concat rss' ++ cur' = (concat rss ++ cur) ++ [r] ∧
    w_lastSeqNum (w_log w') = w_lastSeqNum (w_log w) ∧ (w_ticks w' ≤ S (w_ticks w))%nat.
Proof.
  intros Hinv Hr Hlt H. unfold append_data in H.
  minv H as s0 w1 E. apply current_Ok in E as [Es ->].
  minv H as size wz E. unfold gets in E; simplify_eq.
  minv H as [] wr E. rename wz into w, wr into w1.
  assert (∃ rss1 cur1 s1, log_inv w1 rss1 cur1 s1 ∧
    concat rss1 ++ cur1 = concat rss ++ cur ∧
    w_lastSeqNum (w_log w1) = w_lastSeqNum (w_log w) ∧
    (w_ticks w1 ≤ S (w_ticks w))%nat) as (rss1 & cur1 & s1 & Hinv1 & <- & <- & Htw).
  { unfold when in E. destruct (_ >? _).
    - eapply rotate_Ok in E as (s1 & ? & ? & ->); [|done..].
      exists (rss ++ [cur]), [], s1. split_and!; [done| |done|done].
      rewrite concat_app. simpl. by rewrite !app_nil_r.
    - unfold mret, M_ret in E. simplify_eq. exists rss, cur, s. by split_and!; [..|lia]. }
  clear Hinv E Es. destruct Hinv1 as
    [Hcur Herr Hopen Hold (c & Hc & Hcb) Hsize Hgood Hpath Hclk Htk Hfresh Hord Hdir].
  minv H as s2 w2 E. apply current_Ok in E as [Es ->]. rewrite Hcur in Es. simplify_eq.
  minv H as s3 w3 E.
  apply bufio_Write_loop_Ok with (c := c) in E as (c' & b' & Ecb & -> & [n ->]); [|done..].
  unfold modify in H. simplify_eq. simpl.
  eexists rss1, (cur1 ++ [r]), _. split_and!; [|by rewrite app_assoc|done|done].
  constructor; simpl; try done.
  - by apply old_segments_insert.
  - exists c'. rewrite lookup_insert_eq, encs_snoc. split; [done|].
    simpl. by rewrite Ecb, app_assoc, Hcb.
  - rewrite encs_snoc, len_app, Hsize. done.
  - rewrite app_assoc. apply Forall_app_2; [done|by constructor].
  - intros m Hm. rewrite lookup_insert_ne; [by apply Hfresh|].
    intros E. specialize (Hfresh m Hm). unfold seg_path_at in *. simpl in *. congruence.
  - apply dir_insert; [|done]. apply elem_of_app. right. by apply list_elem_of_singleton.
Qed.

(** ** Writing *)

Lemma holds_frame w w' rs :
  w_files w' = w_files w → w_clock w' = w_clock w → (w_ticks w ≤ w_ticks w')%nat →
  w_dir (w_log w') = w_dir (w_log w) →
  w_current (w_log w') = w_current (w_log w) →
  w_segments (w_log w') = w_segments (w_log w) →
  w_lastSeqNum (w_log w) ≤ w_lastSeqNum (w_log w') → (w_ticks w' ≤ hz)%nat →
  holds w rs → holds w' rs.
Proof.
  intros Hf Hc Ht Hd Hcu Hs Hq Htz (Hq0 & Ho & rss & cur & s & Hi & <-).
  split_and!; [lia|by eapply ordered_mono|]. exists rss, cur, s.
  split; [|done]. destruct Hi as [? ? ? ? ? ? ? ? [? ?] ? Hfr ? ?].
  constructor; rewrite ?Hf, ?Hc, ?Hcu, ?Hs, ?Hd; try done.
  - split; by rewrite Hc.
  - intros n Hn. unfold seg_path_at. rewrite Hd. apply Hfr. lia.
  - by apply (opened_weaken w).
Qed.

Lemma holds_ticks w rs : holds w rs → (w_ticks w ≤ hz)%nat.
Proof. by intros (_ & _ & ? & ? & ? & [? ? ? ? ? ? ? ? ? ? ? ? ?] & _). Qed.

Lemma holds_clock w rs i : holds w rs → (i < hz)%nat → 0 ≤ w_clock w i ≤ MaxInt64.
Proof. intros (_ & _ & ? & ? & ? & [? ? ? ? ? ? ? ? [_ Hr] ? ? ? ?] & _). apply Hr. Qed.

Lemma nextSeqNum_Ok w w' n rs :
  holds w rs → w_lastSeqNum (w_log w) + 1 < 2 ^ 64 → nextSeqNum w = (Ok n, w') →
  holds w' rs ∧ n = w_lastSeqNum (w_log w) + 1 ∧ w_lastSeqNum (w_log w') = n ∧
  ordered (w_lastSeqNum (w_log w)) rs ∧ w_ticks w' = w_ticks w.
Proof.
  intros Hh Hq H. pose proof (holds_ticks _ _ Hh). unfold nextSeqNum in H. minv H as [] w1 E.
  assert (Eu : u64 (w_lastSeqNum (w_log w) + 1) = w_lastSeqNum (w_log w) + 1).
  { apply Z.mod_small. destruct Hh as [? _]. lia. }
  unfold modify in E. unfold gets in H. simplify_eq. simpl. rewrite Eu.
  split; [|split; [done|split; [done|split; [apply Hh|done]]]].
  apply (holds_frame w); simpl; try done. rewrite Eu. lia.
Qed.

Lemma UnixNano_Ok w w' t rs :
  holds w rs → (w_ticks w < hz)%nat → UnixNano w = (Ok t, w') →
  holds w' rs ∧ 0 ≤ t ≤ MaxInt64 ∧ w_lastSeqNum (w_log w') = w_lastSeqNum (w_log w) ∧
  w_ticks w' = S (w_ticks w).
Proof.
  intros Hh Ht H. unfold UnixNano in H. simplify_eq. split; [|split; [|done]].
  - apply (holds_frame w); simpl; try done; lia.
  - by eapply holds_clock.
Qed.

(** A record as the callers of [Write] and [WriteBatch] supply it: a data
    record (not a batch marker) whose frame fits. *)
Definition data_record (r : Record_) : Prop :=
  0 ≤ Type_ r < 256 ∧ Type_ r ≠ RecordTypeBatchBegin ∧ Type_ r ≠ RecordTypeBatchEnd ∧
  frame_fits r.

(** [encodeRecord] accepts exactly the records whose lengths fit. *)
Lemma encodeRecord_Ok_inv r bs :
  encodeRecord r = Ok bs →
  len (bytes_of_string (Collection r)) ≤ MaxUint16 ∧ payload_len r ≤ MaxUint32.
Proof.
  unfold encodeRecord, safeIntToUint16, safeIntToUint32. intros H.
  rewrite !Z.gtb_ltb in H. unfold payload_len.
  destruct (Z.ltb_spec (len (bytes_of_string (Collection r))) 0); [done|].
  destruct (Z.ltb_spec MaxUint16 (len (bytes_of_string (Collection r)))); [done|].
  simpl in H.
  destruct (Z.ltb_spec (len (Data r)) 0); [done|].
  destruct (Z.ltb_spec MaxUint32 (len (Data r))); [done|].
  cbn [orb wrap_err mbind result_bind] in H.
  match type of H with context [MaxUint32 <? ?x] =>
    destruct (Z.ltb_spec MaxUint32 x) end.
  - destruct (_ <? 0) in H; done.
  - lia.
Qed.

Lemma log_one_Ok r w w' r' rs :
  holds w rs → 0 ≤ Type_ r < 256 → frame_fits r →
  w_lastSeqNum (w_log w) + 1 < 2 ^ 64 → (w_ticks w + 2 ≤ hz)%nat →
  log_one r w = (Ok r', w') →
  holds w' (rs ++ [r']) ∧ (w_ticks w' ≤ w_ticks w + 2)%nat ∧ ∃ ts, 0 ≤ ts ≤ MaxInt64 ∧
    r' = stamp r (w_lastSeqNum (w_log w) + 1) ts ∧
    w_lastSeqNum (w_log w') = w_lastSeqNum (w_log w) + 1.
Proof.
  intros Hh Hty Hfit Hq Htk H. unfold log_one in H.
  assert (Hq0 : 0 ≤ w_lastSeqNum (w_log w)) by apply Hh.
  minv H as seq w1 E1. eapply nextSeqNum_Ok in E1 as (Hh1 & -> & Hs1 & Ho & Ht1); [|done..].
  minv H as now w2 E2. eapply UnixNano_Ok in E2 as (Hh2 & Hn & Hs2 & Ht2); [|done|lia].
  minv H as data w3 E3. unfold lift in E3. injection E3 as E3 <-.
  set (r1 := stamp r _ now) in *.
  destruct (encodeRecord_Ok_inv r1 data) as [Hc Hl]; [done|].
  assert (Hgood : good_record r1).
  { split; [|done]. unfold wf_record. split_and!; simpl; first [done | lia]. }
  rewrite encodeRecord_wf in E3 by apply Hgood. simplify_eq.
  minv H as [] w4 E4. unfold mret, M_ret in H. simplify_eq.
  destruct Hh2 as (_ & _ & rss & cur & s & Hi & <-).
  eapply append_data_Ok in E4 as (rss' & cur' & s' & Hi' & E & Hs & Ht4); [|done..|lia].
  assert (Hs' : w_lastSeqNum (w_log w') = w_lastSeqNum (w_log w) + 1) by congruence.
  split; [|split; [lia|by exists now]].
  split_and!; [lia| |by exists rss', cur', s'].
  rewrite Hs'. by apply ordered_snoc.
Qed.

Lemma flush_current_Ok w w' s' s rs :
  holds w rs → w_current (w_log w) = Some s → bufio_Flush s w = (Ok s', w') →
  holds w' rs ∧ w_current (w_log w') = Some s' ∧ seg_path s' = seg_path s ∧
  w_lastSeqNum (w_log w') = w_lastSeqNum (w_log w) ∧
  w_segments (w_log w') = w_segments (w_log w) ∧
  (∀ rss cur s0, log_inv w rss cur s0 → w_files w' !! seg_path s = Some (encs cur)) ∧
  (∀ p, p ≠ seg_path s → w_files w' !! p = w_files w !! p) ∧
  w_ticks w' = w_ticks w.
Proof.
  intros (Hq0 & Ho & rss & cur & s0 & Hi & <-) Hs H.
  destruct Hi as [Hcur Herr Hopen Hold (c & Hc & Hcb) Hsize Hgood Hpath Hclk Htk Hfresh Hord Hdir] eqn:EH.
  rewrite Hcur in Hs. simplify_eq.
  apply flush_Ok with (c := c) in H as [-> [n ->]]; [|done..]. simpl.
  split_and!; try done.
  - split_and!; [done..|]. exists rss, cur, (with_buf s [] false). split; [|done].
    constructor; simpl; try done.
    + by apply old_segments_insert.
    + exists (encs cur). by rewrite lookup_insert_eq, Hcb, app_nil_r.
    + intros m Hm. rewrite lookup_insert_ne; [by apply Hfresh|].
      intros E. specialize (Hfresh m Hm). unfold seg_path_at in *. simpl in *. congruence.
    + apply dir_insert; [|done]. apply elem_of_app. right. by apply list_elem_of_singleton.
  - intros rss' cur' s1 [Hcur' _ _ _ (c' & Hc' & Hcb') _ _ _ _ _ _ _ _].
    rewrite lookup_insert_eq. congruence.
  - intros p Hp. by rewrite lookup_insert_ne.
Qed.

Lemma holds_calls w n rs :
  holds w rs →
  holds (World (w_files w) (w_clock w) (w_ticks w) (w_faults w) n (w_log w)) rs.
Proof. intros H. apply (holds_frame w); try done. exact (holds_ticks _ _ H). Qed.

Lemma Write_Ok r w w' r' rs :
  holds w rs → data_record r → w_lastSeqNum (w_log w) + 1 < 2 ^ 64 →
  (w_ticks w + 2 ≤ hz)%nat → Write r w = (Ok r', w') →
  holds w' (rs ++ [r']) ∧ (w_ticks w' ≤ w_ticks w + 2)%nat ∧ ∃ ts, 0 ≤ ts ≤ MaxInt64 ∧
    r' = stamp r (w_lastSeqNum (w_log w) + 1) ts ∧
    w_lastSeqNum (w_log w') = w_lastSeqNum (w_log w) + 1.
Proof.
  intros Hh (Hty & _ & _ & Hfit) Hq Htk H. unfold Write in H.
  minv H as r1 w1 E1. eapply log_one_Ok in E1 as (Hh1 & Ht1 & ts & Hts & -> & Hs1); [|done..].
  minv H as sync w2 E2. unfold gets in E2. injection E2 as E2 <-.
  minv H as [] w3 E3. unfold mret, M_ret in H. simplify_eq.
  enough (holds w' (rs ++ [stamp r (w_lastSeqNum (w_log w) + 1) ts]) ∧
          w_lastSeqNum (w_log w') = w_lastSeqNum (w_log w1) ∧
          w_ticks w' = w_ticks w1) as (Hh' & Hs' & Ht').
  { split; [done|]. split; [lia|]. exists ts. split_and!; try done; try apply Hts.
    by rewrite Hs'. }
  unfold when in E3. destruct (w_syncOnWrite _).
  - minv E3 as s wc Ec. apply current_Ok in Ec as [Hc ->].
    minv E3 as s' wf Ef.
    eapply flush_current_Ok in Ef as (Hh' & _ & _ & Hs & _ & _ & _ & Ht); [|done..].
    apply file_Sync_Ok in E3 as [n ->]. simpl. split; [by apply holds_calls|done].
  - unfold mret, M_ret in E3. by simplify_eq.
Qed.

(** [out] is [records], stamped. *)
Definition stamped (records out : list Record_) : Prop :=
  Forall2 (λ r r', ∃ q ts, r' = stamp r q ts) records out.

Lemma batch_loop_Ok records w w' out rs :
  holds w rs → Forall data_record records →
  w_lastSeqNum (w_log w) + len records < 2 ^ 64 →
  Z.of_nat (w_ticks w) + 2 * len records ≤ Z.of_nat hz →
  batch_loop records w = (Ok out, w') →
  holds w' (rs ++ out) ∧ stamped records out ∧
  w_lastSeqNum (w_log w') = w_lastSeqNum (w_log w) + len records ∧
  Z.of_nat (w_ticks w') ≤ Z.of_nat (w_ticks w) + 2 * len records.
Proof.
  revert w out rs. induction records as [|r records IH]; intros w out rs Hh Hr Hq Htk H.
  { simpl in H. unfold mret, M_ret in H. simplify_eq. rewrite app_nil_r, len_nil.
    split_and!; [done|constructor|lia|lia]. }
  inversion Hr as [|? ? (Hty & _ & _ & Hfit) Hr']; subst. simpl in H.
  rewrite len_cons in Hq, Htk. pose proof (len_nonneg records).
  minv H as r1 w1 E1. eapply log_one_Ok in E1 as (Hh1 & Ht1 & ts & _ & -> & Hs1); [|done..|lia|lia].
  minv H as rest w2 E2. unfold mret, M_ret in H. simplify_eq.
  eapply IH in E2 as (Hh2 & Hf & Hs2 & Ht2); [|done..|lia|lia].
  rewrite <- app_assoc in Hh2. rewrite len_cons.
  split_and!; [done|constructor; [by eauto|done]|lia|lia].
Qed.

(** ** Applying records batch by batch *)

Lemma M_bind_ret_l {S E} (k : M S E unit) s : (mret tt;; k) s = k s.
Proof. done. Qed.

Lemma run_all_app {S E} (fn : Record_ → M S E unit) a b s :
  run_all fn (a ++ b) s = (run_all fn a;; run_all fn b) s.
Proof.
  revert s. induction a as [|r a IH]; intros s; [done|]. simpl.
  unfold mbind, M_bind. destruct (fn r s) as [[[]| |] s1]; [|done..].
  rewrite IH. done.
Qed.

(** [Replay] runs its callback on the replayed records in order and stops at
    the first error, whatever the callback. *)
Lemma applyRecords_run {S E} (fn : Record_ → M S E unit) rs st s :
  applyRecords fn rs st s = run_all fn (replayed_go rs st) s.
Proof.
  revert st s. induction rs as [|r rs IH]; intros st s; [done|]. simpl.
  destruct (Type_ r =? RecordTypeBatchBegin); [apply IH|].
  destruct (Type_ r =? RecordTypeBatchEnd).
  - rewrite run_all_app. unfold mbind, M_bind.
    destruct (rp_in st && _); simpl.
    + destruct (run_all fn (rp_buf st) s) as [[[]| |] s1]; [apply IH|done..].
    + apply IH.
  - destruct (rp_in st); [apply IH|]. simpl. unfold mbind, M_bind.
    destruct (fn r s) as [[[]| |] s1]; [apply IH|done..].
Qed.

Definition plain (r : Record_) : Prop :=
  Type_ r ≠ RecordTypeBatchBegin ∧ Type_ r ≠ RecordTypeBatchEnd.

(** What a history of operations leaves in the log: single records and complete
    batches with their markers. *)
Inductive entry :=
| ESingle (r : Record_)
| EBatch (b : Record_) (rs : list Record_) (e : Record_).

Definition entry_records (en : entry) : list Record_ :=
  match en with ESingle r => [r] | EBatch b rs e => b :: rs ++ [e] end.
Definition entry_payload (en : entry) : list Record_ :=
  match en with ESingle r => [r] | EBatch _ rs _ => rs end.
Definition wf_entry (en : entry) : Prop :=
  match en with
  | ESingle r => plain r
  | EBatch b rs e =>
      Type_ b = RecordTypeBatchBegin ∧ decodeBatchSize (Data b) = len rs ∧
      Forall plain rs ∧ Type_ e = RecordTypeBatchEnd
  end.

Lemma replayed_go_outside rs buf ex :
  replayed_go rs (ReplayState buf false ex) = replayed rs.
Proof.
  unfold replayed. revert buf ex. induction rs as [|r rs IH]; intros buf ex; [done|].
  simpl. destruct (_ =? _); [done|]. destruct (_ =? _); simpl.
  - by rewrite (IH [] ex).
  - by rewrite (IH buf ex).
Qed.

Lemma replayed_go_plain rs rest buf ex :
  Forall plain rs →
  replayed_go (rs ++ rest) (ReplayState buf true ex) =
  replayed_go rest (ReplayState (buf ++ rs) true ex).
Proof.
  intros H. revert buf. induction H as [|r rs [H1 H2] H IH]; intros buf.
  { by rewrite app_nil_r. }
  simpl. rewrite (proj2 (Z.eqb_neq _ _) H1), (proj2 (Z.eqb_neq _ _) H2), IH.
  by rewrite <- app_assoc.
Qed.

Lemma replayed_entry en rest :
  wf_entry en → replayed (entry_records en ++ rest) = entry_payload en ++ replayed rest.
Proof.
  destruct en as [r|b rs e]; simpl.
  - intros [H1 H2]. unfold replayed at 1. simpl.
    by rewrite (proj2 (Z.eqb_neq _ _) H1), (proj2 (Z.eqb_neq _ _) H2).
  - intros (Hb & Hn & Hp & He). unfold replayed at 1. simpl.
    rewrite Hb, Z.eqb_refl, Hn, <- app_assoc, replayed_go_plain by done. simpl.
    rewrite He. simpl. rewrite Z.eqb_refl. by rewrite replayed_go_outside.
Qed.

Lemma replayed_entries ens rest :
  Forall wf_entry ens →
  replayed (concat (entry_records <$> ens) ++ rest) =
  concat (entry_payload <$> ens) ++ replayed rest.
Proof.
  induction 1 as [|en ens Hen H IH]; [done|]. rewrite !fmap_cons. cbn [concat].
  by rewrite <- !app_assoc, replayed_entry, IH.
Qed.

(** An open batch at the end of the log contributes nothing. *)
Lemma replayed_open_batch b rs :
  Type_ b = RecordTypeBatchBegin → Forall plain rs → replayed (b :: rs) = [].
Proof.
  intros Hb Hp. unfold replayed. simpl. rewrite Hb. simpl.
  rewrite <- (app_nil_r rs), replayed_go_plain by done. done.
Qed.

(** ** Reading segments back *)
Lemma decode_stream_encs fuel rs :
  Forall good_record rs → (length rs < fuel)%nat →
  decode_stream fuel (encs rs) = (rs, Err EOF).
Proof.
  intros H. revert fuel. induction H as [|r rs [Hw Hf] H IH]; intros fuel Hl;
    (destruct fuel as [|fuel]; [simpl in Hl; lia|]).
  { done. }
  unfold encs in *. cbn [fmap list_fmap concat decode_stream].
  rewrite decode_bytes_of_record by done. rewrite IH; [done|simpl in Hl; lia].
Qed.

Lemma length_encs rs : (length rs ≤ length (encs rs))%nat.
Proof.
  induction rs as [|r rs IH]; [done|]. unfold encs in *. rewrite fmap_cons.
  cbn [concat length]. rewrite length_app. pose proof (len_bytes_of_record r) as E. unfold len in E.
  unfold payload_len in E. pose proof (len_nonneg (Data r)).
  pose proof (len_nonneg (bytes_of_string (Collection r))). lia.
Qed.

Lemma decode_all_encs rs : Forall good_record rs → decode_all (encs rs) = (rs, Err EOF).
Proof.
  intros H. apply decode_stream_encs; [done|]. pose proof (length_encs rs). lia.
Qed.

(** ** Progress without faults *)
Definition fault_free (w : world) : Prop := ∀ n, w_faults w n = None.

(** [runs w m Q]: without faults, [m] returns normally from [w] in a state and
    with a result that satisfy [Q], still without faults. *)
Definition runs {A} (w : world) (m : W A) (Q : A → world → Prop) : Prop :=
  ∃ a w', m w = (Ok a, w') ∧ Q a w' ∧ w_faults w' = w_faults w.

Lemma runs_bind {A B} w (m : W A) (f : A → W B) Q :
  runs w m (λ a w', runs w' (f a) Q) → runs w (m ≫= f) Q.
Proof.
  intros (a & w1 & E & (b & w2 & E2 & HQ & Hf2) & Hf1). exists b, w2.
  rewrite (M_bind_run _ _ _ _ _ E). split_and!; [done..|by rewrite Hf2].
Qed.

Lemma runs_ret {A} w (a : A) Q : Q a w → runs w (mret a) Q.
Proof. intros H. by exists a, w. Qed.

Lemma runs_gets {A} w (f : world → A) Q : Q (f w) w → runs w (gets f) Q.
Proof. intros H. by exists (f w), w. Qed.

Lemma runs_modify w f Q :
  w_faults (f w) = w_faults w → Q tt (f w) → runs w (modify f) Q.
Proof. intros Hf H. by exists tt, (f w). Qed.

Lemma runs_syscall_unit w Q :
  fault_free w →
  (∀ n, Q tt (World (w_files w) (w_clock w) (w_ticks w) (w_faults w) n (w_log w))) →
  runs w syscall_unit Q.
Proof.
  intros Hff H. unfold syscall_unit, syscall. eexists tt, _. unfold_M. simpl.
  rewrite Hff. by split_and!.
Qed.

Lemma fault_free_eq w w' : w_faults w' = w_faults w → fault_free w → fault_free w'.
Proof. intros E H n. by rewrite E. Qed.

Lemma runs_file_append w path p Q :
  fault_free w →
  (∀ w', w_log w' = w_log w → fault_free w' → Q (length p, true) w') →
  runs w (file_append path false p) Q.
Proof.
  intros Hff H. unfold file_append, syscall. eexists _, _. unfold_M. simpl.
  rewrite Hff. split_and!; [done| |done]. by apply H.
Qed.

Lemma runs_flush w s Q :
  fault_free w → seg_err s = false → seg_closed s = false →
  (∀ w', w_log w' = set_current (Some (with_buf s [] false)) (w_log w) →
     fault_free w' → Q (with_buf s [] false) w') →
  runs w (bufio_Flush s) Q.
Proof.
  intros Hff He Hc H. unfold bufio_Flush. rewrite He.
  destruct (seg_buf s) as [|b buf] eqn:Eb.
  - assert (E : with_buf s [] false = s) by (destruct s; simpl in *; by subst).
    rewrite E in H. apply runs_bind, runs_modify; [done|]. apply runs_ret. by apply H.
  - rewrite Hc. apply runs_bind, runs_file_append; [done|]. intros w1 E1 Hf1.
    apply runs_bind, runs_modify; [done|]. apply runs_ret.
    rewrite drop_all. apply H; [|done]. simpl. by rewrite E1.
Qed.

Lemma runs_bufio_Write w s p Q :
  fault_free w → seg_err s = false → seg_closed s = false →
  (∀ b w', w_log w' = set_current (Some (with_buf s b false)) (w_log w) →
     fault_free w' → Q (with_buf s b false) w') →
  runs w (bufio_Write s p) Q.
Proof.
  intros Hff He Hc H. unfold bufio_Write.
  (* The last iteration: nothing is left to write. *)
  assert (Hlast : ∀ fuel w1 s1, fault_free w1 → w_log w1 = w_log w ∨
      w_log w1 = set_current (Some s1) (w_log w) → s1 = with_buf s [] false →
      runs w1 (bufio_Write_loop (S fuel) s1 []) Q).
  { intros fuel w1 s1 Hf1 Hl ->. simpl.
    apply runs_bind, runs_modify; [done|]. apply runs_ret. simpl. apply H; [|done].
    simpl. destruct Hl as [-> | ->]; done. }
  (* From an empty buffer. *)
  assert (Hempty : ∀ fuel w1 s1 q, fault_free w1 → w_log w1 = w_log w ∨
      w_log w1 = set_current (Some s1) (w_log w) → s1 = with_buf s [] false →
      runs w1 (bufio_Write_loop (S (S fuel)) s1 q) Q).
  { intros fuel w1 s1 q Hf1 Hl ->. remember (S fuel) as f eqn:Ef. simpl.
    destruct (_ <=? _).
    - apply runs_bind, runs_modify; [done|]. apply runs_ret. apply H; [|done].
      simpl. destruct Hl as [-> | ->]; done.
    - rewrite Hc. apply runs_bind, runs_file_append; [done|]. intros w2 E2 Hf2.
      rewrite drop_all, Ef. apply Hlast; [done| |done]. by rewrite E2. }
  destruct (seg_buf s) as [|b buf] eqn:Eb.
  { assert (E : with_buf s [] false = s) by (destruct s; simpl in *; by subst).
    apply (Hempty 2%nat); auto. }
  simpl. rewrite He. destruct (_ <=? _).
  { apply runs_bind, runs_modify; [done|]. apply runs_ret. by apply H. }
  rewrite Eb. apply runs_bind, runs_flush; [done..|]. intros w1 E1 Hf1.
  apply (Hempty 1%nat); [done| |done]. by right.
Qed.

(** The current segment can be written to. *)
Definition live (w : world) : Prop :=
  ∃ s, w_current (w_log w) = Some s ∧ seg_err s = false ∧ seg_closed s = false.

Lemma holds_live w rs : holds w rs → live w.
Proof. intros (_ & _ & rss & cur & s & [] & _). by exists s. Qed.

Lemma runs_openCurrentSegment w :
  fault_free w → runs w openCurrentSegment (λ _ w', live w').
Proof.
  intros Hff. unfold openCurrentSegment. apply runs_bind.
  eexists _, _. split; [reflexivity|]. split; [|done].
  apply runs_bind, runs_gets, runs_bind, runs_syscall_unit; [done|]. intros n.
  apply runs_bind, runs_modify; [done|]. apply runs_modify; [done|]. by eexists.
Qed.

Lemma runs_file_Sync w s Q :
  fault_free w → seg_closed s = false →
  (∀ n, Q tt (World (w_files w) (w_clock w) (w_ticks w) (w_faults w) n (w_log w))) →
  runs w (file_Sync s) Q.
Proof.
  intros Hff Hc H. unfold file_Sync. apply runs_bind, runs_syscall_unit; [done|].
  intros n. rewrite Hc. by apply runs_ret.
Qed.

Lemma runs_rotate w : fault_free w → live w → runs w rotate (λ _ w', live w').
Proof.
  intros Hff (s & Hs & He & Hc). unfold rotate.
  apply runs_bind, runs_gets. rewrite Hs. apply runs_bind, runs_bind, runs_flush; [done..|].
  intros w1 E1 Hf1. apply runs_bind, runs_file_Sync; [done..|]. intros n.
  unfold file_Close; simpl. rewrite Hc.
  apply runs_bind, runs_bind, runs_modify; [done|]. apply runs_syscall_unit; [done|].
  intros n2. apply runs_modify; [done|]. by apply runs_openCurrentSegment.
Qed.

Lemma runs_weaken {A} w (m : W A) (P Q : A → world → Prop) :
  runs w m P → (∀ a w', w_faults w' = w_faults w → P a w' → Q a w') → runs w m Q.
Proof. intros (a & w' & E & HP & Hf) H. exists a, w'. split_and!; auto. Qed.

Lemma runs_append_data w d :
  fault_free w → live w → runs w (append_data d) (λ _ w', live w').
Proof.
  intros Hff Hl. unfold append_data.
  apply runs_bind. destruct Hl as (s & Hs & He & Hc). unfold current.
  apply runs_bind, runs_gets. rewrite Hs. apply runs_ret.
  apply runs_bind, runs_gets, runs_bind.
  apply (runs_weaken _ _ (λ _ w', live w')).
  { unfold when. destruct (_ >? _); [apply runs_rotate|apply runs_ret]; try done; by exists s. }
  clear s Hs He Hc. intros u w1 Hf1 (s & Hs & He & Hc). unfold current.
  apply runs_bind, runs_bind, runs_gets. rewrite Hs. apply runs_ret.
  apply runs_bind, runs_bufio_Write; [by eapply fault_free_eq|done..|].
  intros b w2 E2 Hf2. apply runs_modify; [done|]. by eexists.
Qed.

(** The size limits of the encoding. *)
Definition encodable (r : Record_) : Prop :=
  len (bytes_of_string (Collection r)) ≤ MaxUint16 ∧ payload_len r ≤ MaxUint32.

Lemma runs_log_one w r :
  fault_free w → live w → encodable r → runs w (log_one r) (λ _ w', live w').
Proof.
  intros Hff Hl [Hc Hp]. unfold log_one, nextSeqNum. apply runs_bind, runs_bind.
  apply runs_modify; [done|]. apply runs_gets, runs_bind.
  eexists _, _. split; [reflexivity|]. split; [|done].
  apply runs_bind. rewrite encodeRecord_sizes by done.
  eexists _, _. split; [reflexivity|]. split; [|done].
  apply runs_bind. eapply runs_weaken; [by apply runs_append_data|].
  intros [] w' _ H. by apply runs_ret.
Qed.

Lemma runs_sync w s :
  fault_free w → w_current (w_log w) = Some s → seg_err s = false → seg_closed s = false →
  runs w (s ← bufio_Flush s; file_Sync s) (λ _ w', live w').
Proof.
  intros Hff Hs He Hc. apply runs_bind, runs_flush; [done..|]. intros w1 E1 Hf1.
  apply runs_file_Sync; [done..|]. intros n. simpl. exists (with_buf s [] false).
  by rewrite E1.
Qed.

Lemma runs_Write w r :
  fault_free w → live w → encodable r → runs w (Write r) (λ _ w', live w').
Proof.
  intros Hff Hl Hr. unfold Write. apply runs_bind.
  eapply runs_weaken; [by apply runs_log_one|]. intros r' w1 Hf1 (s & Hs & He & Hc).
  apply runs_bind, runs_gets, runs_bind. eapply runs_weaken with (P := λ _ w', live w').
  - unfold when. destruct (w_syncOnWrite _).
    + apply runs_bind. unfold current. apply runs_bind, runs_gets. rewrite Hs.
      apply runs_ret, runs_sync; [by eapply fault_free_eq|done..].
    + apply runs_ret. by exists s.
  - intros u w2 _ H. by apply runs_ret.
Qed.

Lemma runs_batch_loop w rs :
  fault_free w → live w → Forall encodable rs → runs w (batch_loop rs) (λ _ w', live w').
Proof.
  intros Hff Hl H. revert w Hff Hl. induction H as [|r rs Hr H IH]; intros w Hff Hl.
  { by apply runs_ret. }
  simpl. apply runs_bind. eapply runs_weaken; [by apply runs_log_one|].
  intros r' w1 Hf1 Hl1. apply runs_bind. eapply runs_weaken.
  { apply IH; [by eapply fault_free_eq|done]. }
  intros rest w2 _ Hl2. by apply runs_ret.
Qed.

Lemma marker_encodable t n : encodable (marker t n).
Proof.
  unfold encodable, marker, payload_len, encodeBatchSize, PutUint32.
  cbn [Collection Data]. change (len (bytes_of_string "")) with 0. rewrite len_le_put. unfold MaxUint16, MaxUint32. lia.
Qed.

Lemma runs_WriteBatch w rs :
  fault_free w → live w → Forall encodable rs → runs w (WriteBatch rs) (λ _ w', live w').
Proof.
  intros Hff Hl Hr. unfold WriteBatch. apply runs_bind.
  eapply runs_weaken; [apply runs_log_one; auto using marker_encodable|].
  intros b0 w1 Hf1 Hl1. apply runs_bind.
  eapply runs_weaken; [apply runs_batch_loop; eauto using fault_free_eq|].
  intros out w2 Hf2 Hl2. apply runs_bind. assert (Hff2 : fault_free w2).
  { eapply fault_free_eq; [|done]. congruence. }
  eapply runs_weaken; [by apply runs_log_one; auto using marker_encodable|].
  intros e0 w3 Hf3 (s & Hs & He & Hc). apply runs_bind. unfold current.
  apply runs_bind, runs_gets. rewrite Hs. apply runs_ret, runs_bind, runs_flush; [|done..|].
  { by eapply fault_free_eq. }
  intros w4 E4 Hf4. apply runs_bind, runs_gets, runs_bind.
  assert (Hl4 : live w4) by (exists (with_buf s [] false); by rewrite E4).
  eapply runs_weaken with (P := λ _ w', live w').
  - unfold when. destruct (w_syncOnWrite _); [|by apply runs_ret].
    by apply runs_file_Sync.
  - intros u w5 _ H. by apply runs_ret.
Qed.

(** ** Histories *)
Inductive op := OpWrite (r : Record_) | OpBatch (rs : list Record_) | OpSync.

Definition op_records (o : op) : list Record_ :=
  match o with OpWrite r => [r] | OpBatch rs => rs | OpSync => [] end.

(** The record and batch sizes the format supports. *)
Definition op_ok (o : op) : Prop :=
  Forall (λ r, data_record r ∧ encodable r) (op_records o) ∧ len (op_records o) < 2 ^ 32.

Definition run_op (o : op) : W (list Record_) :=
  match o with
  | OpWrite r => r' ← Write r; mret [r']
  | OpBatch rs => WriteBatch rs
  | OpSync => Sync;; mret []
  end.

(** Runs a history; the result is the acknowledged records, in order. *)
Fixpoint run_ops (os : list op) : W (list Record_) :=
  match os with
  | [] => mret []
  | o :: os => a ← run_op o; b ← run_ops os; mret (a ++ b)
  end.

Lemma batch_size_round n : 0 ≤ n < 2 ^ 32 → decodeBatchSize (encodeBatchSize n) = n.
Proof.
  intros Hn. unfold decodeBatchSize, encodeBatchSize, u32.
  rewrite Z.mod_small by lia. unfold PutUint32. rewrite len_le_put. simpl Z.ltb.
  rewrite take_ge by (by rewrite length_le_put). by apply le_get_put4.
Qed.

Lemma marker_fits t n : frame_fits (marker t n).
Proof.
  unfold frame_fits, marker, payload_len, encodeBatchSize, PutUint32.
  cbn [Collection Data]. change (len (bytes_of_string "")) with 0. rewrite len_le_put. lia.
Qed.

Lemma plain_stamp r q t : plain r → plain (stamp r q t).
Proof. done. Qed.

Lemma stamped_plain records out :
  stamped records out → Forall data_record records → Forall plain out.
Proof.
  intros HF Hr. induction HF as [|r r' rs out (q & t & ->) HF IH]; [constructor|].
  inversion Hr as [|? ? (_ & H1 & H2 & _) Hr']; subst. constructor; [by split|auto].
Qed.

Lemma WriteBatch_Ok records w w' out rs :
  holds w rs → Forall data_record records → len records < 2 ^ 32 →
  w_lastSeqNum (w_log w) + len records + 2 < 2 ^ 64 →
  Z.of_nat (w_ticks w) + 2 * (len records + 2) ≤ Z.of_nat hz →
  WriteBatch records w = (Ok out, w') →
  stamped records out ∧
  w_lastSeqNum (w_log w') = w_lastSeqNum (w_log w) + len records + 2 ∧
  Z.of_nat (w_ticks w') ≤ Z.of_nat (w_ticks w) + 2 * (len records + 2) ∧
  ∃ b e, wf_entry (EBatch b out e) ∧ holds w' (rs ++ entry_records (EBatch b out e)).
Proof.
  intros Hh Hr Hn Hq Htk H. unfold WriteBatch in H. pose proof (len_nonneg records).
  minv H as b w1 E1. eapply log_one_Ok in E1 as (Hh1 & Ht1 & tb & _ & -> & Hs1);
    [|done|by vm_compute|apply marker_fits|lia|lia].
  minv H as out' w2 E2. eapply batch_loop_Ok in E2 as (Hh2 & HF & Hs2 & Ht2); [|done..|lia|lia].
  minv H as e w3 E3. eapply log_one_Ok in E3 as (Hh3 & Ht3 & te & _ & -> & Hs3);
    [|done|by vm_compute|apply marker_fits|lia|lia].
  minv H as s w4 E4. apply current_Ok in E4 as [Hs ->].
  minv H as s' w5 E5.
  eapply flush_current_Ok in E5 as (Hh5 & _ & _ & Hs5 & _ & _ & _ & Ht5); [|done..].
  minv H as sync w6 E6. unfold gets in E6. injection E6 as _ <-.
  minv H as [] w7 E7. unfold mret, M_ret in H. simplify_eq.
  assert (w_lastSeqNum (w_log w') = w_lastSeqNum (w_log w5) ∧ w_ticks w' = w_ticks w5 ∧
    ∀ l, holds w5 l → holds w' l) as (Hs7 & Ht7 & Hkeep).
  { unfold when in E7. destruct sync.
    - apply file_Sync_Ok in E7 as [n ->]. split_and!; [done..|]. intros l. apply holds_calls.
    - unfold mret, M_ret in E7. by simplify_eq. }
  split; [done|]. split; [lia|]. split; [lia|]. eexists _, _. split.
  2: { simpl. rewrite <- !app_assoc in Hh5. apply Hkeep. exact Hh5. }
  simpl. split_and!; [done| |by eapply stamped_plain|done].
  rewrite batch_size_round by lia. unfold len. by rewrite (Forall2_length _ _ _ HF).
Qed.

(** How many sequence numbers an operation consumes. *)
Definition op_cost (o : op) : Z :=
  match o with OpWrite _ => 1 | OpBatch rs => len rs + 2 | OpSync => 0 end.
Definition ops_cost (os : list op) : Z := foldr (λ o n, op_cost o + n) 0 os.

Lemma ops_cost_nonneg os : 0 ≤ ops_cost os.
Proof.
  induction os as [|o os IH]; simpl; [lia|].
  destruct o as [r|rs|]; simpl; try pose proof (len_nonneg rs); lia.
Qed.

Lemma Sync_Ok w w' rs :
  holds w rs → Sync w = (Ok tt, w') →
  holds w' rs ∧ w_lastSeqNum (w_log w') = w_lastSeqNum (w_log w) ∧ w_ticks w' = w_ticks w.
Proof.
  intros Hh H. unfold Sync in H. minv H as c w1 E. unfold gets in E. injection E as E <-.
  destruct c as [s|]; [|unfold mret, M_ret in H; by simplify_eq].
  minv H as s' w2 E2.
  eapply flush_current_Ok in E2 as (Hh2 & _ & _ & Hs & _ & _ & _ & Ht); [|done..].
  apply file_Sync_Ok in H as [n ->]. split; [by apply holds_calls|done].
Qed.

Lemma run_op_Ok o w w' out rs :
  holds w rs → op_ok o → w_lastSeqNum (w_log w) + op_cost o < 2 ^ 64 →
  Z.of_nat (w_ticks w) + 2 * op_cost o ≤ Z.of_nat hz →
  run_op o w = (Ok out, w') →
  stamped (op_records o) out ∧
  w_lastSeqNum (w_log w') = w_lastSeqNum (w_log w) + op_cost o ∧
  Z.of_nat (w_ticks w') ≤ Z.of_nat (w_ticks w) + 2 * op_cost o ∧
  ∃ ens, Forall wf_entry ens ∧ concat (entry_payload <$> ens) = out ∧
    holds w' (rs ++ concat (entry_records <$> ens)).
Proof.
  intros Hh [Hok Hlen] Hq Htk H. destruct o as [r|rs0|]; simpl in *.
  - minv H as r' w1 E. unfold mret, M_ret in H. simplify_eq.
    inversion Hok as [|? ? [Hr _] _]; subst.
    eapply Write_Ok in E as (Hh1 & Ht1 & ts & _ & -> & Hs); [|done..|lia].
    split_and!; [constructor; [by eauto|constructor]|done|lia|].
    exists [ESingle (stamp r (w_lastSeqNum (w_log w) + 1) ts)]. split_and!; [|done|done].
    apply Forall_singleton. by destruct Hr as (_ & H1 & H2 & _).
  - eapply WriteBatch_Ok in H as (HF & Hs & Ht1 & b & e & Hwf & Hh1); [|done| |done|lia|lia].
    + split_and!; [done|lia|lia|]. exists [EBatch b out e].
      split_and!; [by apply Forall_singleton|simpl; by rewrite app_nil_r|].
      simpl in *. by rewrite app_nil_r.
    + eapply Forall_impl; [exact Hok|]. by intros ? [? _].
  - minv H as [] w1 E. unfold mret, M_ret in H. simplify_eq.
    eapply Sync_Ok in E as (Hh1 & Hs & Ht1); [|done].
    split_and!; [constructor|lia|lia|]. exists []. simpl. rewrite app_nil_r. by split_and!.
Qed.

Lemma run_ops_Ok os w w' out rs :
  holds w rs → Forall op_ok os → w_lastSeqNum (w_log w) + ops_cost os < 2 ^ 64 →
  Z.of_nat (w_ticks w) + 2 * ops_cost os ≤ Z.of_nat hz →
  run_ops os w = (Ok out, w') →
  stamped (concat (op_records <$> os)) out ∧
  w_lastSeqNum (w_log w') = w_lastSeqNum (w_log w) + ops_cost os ∧
  Z.of_nat (w_ticks w') ≤ Z.of_nat (w_ticks w) + 2 * ops_cost os ∧
  ∃ ens, Forall wf_entry ens ∧ concat (entry_payload <$> ens) = out ∧
    holds w' (rs ++ concat (entry_records <$> ens)).
Proof.
  revert w out rs. induction os as [|o os IH]; intros w out rs Hh Hok Hq Htk H.
  { simpl in H. unfold mret, M_ret in H. simplify_eq. split; [constructor|].
    split; [simpl; lia|]. split; [simpl; lia|]. exists []. simpl. by rewrite app_nil_r. }
  inversion Hok as [|? ? Ho Hok']; subst. simpl in H, Hq, Htk.
  pose proof (ops_cost_nonneg os).
  minv H as a w1 E1. eapply run_op_Ok in E1 as (HF1 & Hs1 & Ht1 & en1 & Hw1 & <- & Hh1);
    [|done..|lia|lia].
  minv H as b w2 E2. unfold mret, M_ret in H. simplify_eq.
  eapply IH in E2 as (HF2 & Hs2 & Ht2 & en2 & Hw2 & <- & Hh2); [|done..|lia|lia].
  rewrite fmap_cons. cbn [concat]. split; [by apply Forall2_app|].
  split; [simpl; lia|]. split; [simpl; lia|].
  exists (en1 ++ en2). rewrite !fmap_app, !concat_app.
  split_and!; [by apply Forall_app_2|done|]. by rewrite app_assoc.
Qed.

(** ** Replaying what is held *)
Lemma runs_replaySegment w path rs Q :
  fault_free w → w_files w !! path = Some (encs rs) → Forall good_record rs →
  (∀ n, Q rs (World (w_files w) (w_clock w) (w_ticks w) (w_faults w) n (w_log w))) →
  runs w (replaySegment path) Q.
Proof.
  intros Hff Hp Hg H. unfold replaySegment.
  apply runs_bind, runs_syscall_unit; [done|]. intros n. apply runs_bind, runs_gets.
  simpl. rewrite Hp, decode_all_encs by done. by apply runs_ret.
Qed.

Lemma runs_replay_paths w paths rss Q :
  fault_free w → Forall good_record (concat rss) →
  Forall2 (λ p rs, w_files w !! p = Some (encs rs)) paths rss →
  (∀ n, Q (concat rss) (World (w_files w) (w_clock w) (w_ticks w) (w_faults w) n (w_log w))) →
  runs w (replay_paths paths) Q.
Proof.
  revert w rss Q. induction paths as [|p paths IH]; intros w rss Q Hff Hg HF H;
    inversion HF as [|? rs ? rss' Hp HF']; subst; simpl.
  { apply runs_ret. specialize (H (w_calls w)). by destruct w. }
  simpl in Hg. apply Forall_app in Hg as [Hg1 Hg2].
  apply runs_bind, (runs_replaySegment _ _ rs); [done..|]. intros n.
  apply runs_bind, (IH _ rss'); [done..|]. intros m. by apply runs_ret.
Qed.

Lemma runs_flush_holds w rss cur s :
  fault_free w → holds w (concat rss ++ cur) → log_inv w rss cur s →
  runs w (bufio_Flush s) (λ s' w', holds w' (concat rss ++ cur) ∧
    seg_path s' = seg_path s ∧ seg_closed s' = false ∧ seg_buf s' = [] ∧
    w_files w' !! seg_path s = Some (encs cur) ∧
    w_current (w_log w') = Some s' ∧ w_ticks w' = w_ticks w ∧
    w_lastSeqNum (w_log w') = w_lastSeqNum (w_log w)).
Proof.
  intros Hff Hh Hi. pose proof Hi as [Hcur Herr Hopen _ _ _ _ _ _ _ _ _ _].
  assert (Hr : runs w (bufio_Flush s) (λ s' _, s' = with_buf s [] false)).
  { apply runs_flush; [done..|]. done. }
  destruct Hr as (s' & w' & E & Hs' & Hf). exists s', w'. split_and!; [done|..|done].
  all: eapply flush_current_Ok in E as (Hh' & Hc' & Hp' & Hl' & _ & Hfile & _ & Ht'); [|done..].
  all: subst s'; try done. by eapply Hfile.
Qed.

Lemma runs_collect w rs :
  fault_free w → holds w rs →
  runs w collectRecords (λ out w', out = rs ∧ holds w' rs ∧ w_ticks w' = w_ticks w ∧
    w_lastSeqNum (w_log w') = w_lastSeqNum (w_log w) ∧
    ∃ s, w_current (w_log w') = Some s ∧ seg_buf s = []).
Proof.
  intros Hff Hh. pose proof Hh as (_ & _ & rss & cur & s & Hi & <-).
  pose proof Hi as [Hcur Herr Hopen Hold _ _ Hgood _ _ _ _ _ _].
  pose proof Hgood as [Hg1 Hg2]%Forall_app.
  unfold collectRecords. apply runs_bind, runs_gets, runs_bind.
  apply (runs_replay_paths _ _ rss); [done..| |].
  { by apply Forall2_fmap_l. }
  intros n. apply runs_bind, runs_gets. simpl. rewrite Hcur. apply runs_bind.
  set (w1 := World _ _ _ _ n _).
  eapply runs_weaken.
  { apply (runs_flush_holds w1 rss cur s); [done| |by destruct Hi; constructor].
    by apply holds_calls. }
  intros s' w2 Hf2 (Hh2 & Hp & _ & Hb & Hfile & Hc & Ht & Hl). rewrite Hp.
  apply runs_bind, (runs_replaySegment _ _ cur); [by eapply fault_free_eq|done..|].
  intros m. apply runs_ret. split_and!; [done|by apply holds_calls|done|done|by exists s'].
Qed.

Lemma runs_Replay w rs :
  fault_free w → holds w rs →
  runs w Replay (λ out w', out = replayed rs ∧ holds w' rs ∧ w_ticks w' = w_ticks w ∧
    w_lastSeqNum (w_log w') = w_lastSeqNum (w_log w) ∧
    ∃ s, w_current (w_log w') = Some s ∧ seg_buf s = []).
Proof.
  intros Hff Hh. unfold Replay. apply runs_bind.
  eapply runs_weaken; [by apply runs_collect|]. intros out w' _ [-> H]. by apply runs_ret.
Qed.

(** Progress of whole histories. *)
Lemma runs_run_op w o :
  fault_free w → live w → op_ok o → runs w (run_op o) (λ _ w', live w').
Proof.
  intros Hff Hl [Hok _]. destruct o as [r|rs|]; simpl in *.
  - inversion Hok as [|? ? [_ He] _]; subst. apply runs_bind.
    eapply runs_weaken; [by apply runs_Write|]. intros a w' _ H. by apply runs_ret.
  - apply runs_WriteBatch; [done..|]. eapply Forall_impl; [exact Hok|]. by intros ? [_ ?].
  - apply runs_bind. destruct Hl as (s & Hs & He & Hc). unfold Sync.
    apply runs_bind, runs_gets. rewrite Hs.
    eapply runs_weaken; [by apply runs_sync|]. intros a w' _ H. by apply runs_ret.
Qed.

Lemma runs_run_ops w os :
  fault_free w → live w → Forall op_ok os → runs w (run_ops os) (λ _ w', live w').
Proof.
  intros Hff Hl H. revert w Hff Hl. induction H as [|o os Ho H IH]; intros w Hff Hl.
  { by apply runs_ret. }
  simpl. apply runs_bind. eapply runs_weaken; [by apply runs_run_op|].
  intros a w1 Hf1 Hl1. apply runs_bind. eapply runs_weaken.
  { apply IH; [by eapply fault_free_eq|done]. }
  intros b w2 _ H2. by apply runs_ret.
Qed.

End horizon.

(** ** Listing the directory *)
Lemma strip_prefix_app p s : strip_prefix p (p +:+ s) = Some s.
Proof. induction p as [|a p IH]; [done|]. simpl. by rewrite Ascii.eqb_refl. Qed.

Lemma digit_not_slash d : 0 ≤ d < 10 → Ascii.eqb (digit d) "/"%char = false.
Proof.
  intros Hd. apply Ascii.eqb_neq. unfold digit. intros E.
  apply (f_equal Ascii.N_of_ascii) in E. rewrite Ascii.N_ascii_embedding in E by lia.
  change (Ascii.N_of_ascii "/") with 47%N in E. lia.
Qed.

Lemma decimal_go_no_slash fuel n x : has_slash (decimal_go fuel n x) = has_slash x.
Proof.
  revert n x. induction fuel as [|fuel IH]; intros n x; [done|]. simpl. rewrite IH.
  simpl. rewrite digit_not_slash; [done|]. apply Z.mod_pos_bound. lia.
Qed.

Lemma has_suffix_refl s : has_suffix s s = true.
Proof. destruct s; simpl; [done|]. by rewrite Ascii.eqb_refl, String.eqb_refl. Qed.

Lemma has_suffix_cons suf c s : has_suffix suf s = true → has_suffix suf (String c s) = true.
Proof. intros H. simpl. rewrite H. by rewrite orb_true_r. Qed.

Lemma has_suffix_app suf p s : has_suffix suf s = true → has_suffix suf (p +:+ s) = true.
Proof.
  intros H. induction p as [|c p IH]; [done|].
  change (String c p +:+ s) with (String c (p +:+ s)). by apply has_suffix_cons.
Qed.

Lemma decimal_go_suffix fuel n x suf :
  has_suffix suf x = true → has_suffix suf (decimal_go fuel n x) = true.
Proof.
  revert n x. induction fuel as [|fuel IH]; intros n x H; [done|]. simpl.
  apply IH. by apply has_suffix_cons.
Qed.

Lemma seg_path_listed dir t : listed dir (path_join dir (segment_name t)) = true.
Proof.
  unfold listed, in_dir, path_join. rewrite andb_true_iff. split.
  - assert (E : dir +:+ "/" +:+ segment_name t = (dir +:+ "/") +:+ segment_name t).
    { induction dir as [|c dir IH]; [done|].
      change (String c (dir +:+ "/" +:+ segment_name t) =
              String c ((dir +:+ "/") +:+ segment_name t)). by rewrite IH. }
    rewrite E, strip_prefix_app. unfold segment_name. by rewrite decimal_go_no_slash.
  - apply has_suffix_app, has_suffix_app. unfold segment_name.
    apply decimal_go_suffix. done.
Qed.
