(* ===== verification/WalRecovery.v ===== *)
(** * pkg/storage/wal: reopening the log after a crash

    [Open] lists the segment files, orders them by name and scans them. Names
    are zero-padded clock readings, so name order is creation order; a log
    whose buffer is empty is therefore found again by [Open] from its files
    alone. *)
From stdpp Require Import base gmap strings list fin_maps numbers sorting.
From Stdlib Require Import Ascii Strings.Byte ZArith Lia.
From S2P Require Import Prelude Crc32 WalCodec WalLog WalProofs.

#[local] Open Scope Z_scope.

(** ** Operations keep the configuration

    The fields no write changes: the configuration and the queue. *)
Definition config_of (l : WAL) : WAL :=
  set_current None (set_segments [] (set_lastSeqNum 0 l)).

(** Whatever its outcome, the computation keeps the configuration and the
    queue. *)
Definition keeps {A} (m : W A) : Prop :=
  ∀ w, config_of (w_log (m w).2) = config_of (w_log w).

Lemma keeps_ret {A} (a : A) : keeps (mret a).
Proof. done. Qed.
Lemma keeps_throw {A} e : keeps (throw (A:=A) e).
Proof. done. Qed.
Lemma keeps_panic {A} : keeps (panic (A:=A)).
Proof. done. Qed.
Lemma keeps_gets {A} (f : world → A) : keeps (gets f).
Proof. done. Qed.
Lemma keeps_lift {A} (r : result walError A) : keeps (lift r).
Proof. done. Qed.
Lemma keeps_bind {A B} (m : W A) (f : A → W B) :
  keeps m → (∀ a, keeps (f a)) → keeps (m ≫= f).
Proof.
  intros Hm Hf w. specialize (Hm w). unfold mbind, M_bind.
  destruct (m w) as [[a|e|] w1]; simpl in *; [|done..]. by rewrite Hf.
Qed.
Lemma keeps_set_files f : keeps (modify (set_files f)).
Proof. done. Qed.
Lemma keeps_set_current s : keeps (modify (set_log (set_current s))).
Proof. done. Qed.
Lemma keeps_set_segments f : keeps (modify (set_log (λ l, set_segments (f l) l))).
Proof. done. Qed.
Lemma keeps_set_lastSeqNum f : keeps (modify (set_log (λ l, set_lastSeqNum (f l) l))).
Proof. done. Qed.
Lemma keeps_syscall : keeps syscall.
Proof. done. Qed.
Lemma keeps_UnixNano : keeps UnixNano.
Proof. done. Qed.

Create HintDb keeps.
#[export] Hint Resolve keeps_ret keeps_throw keeps_panic keeps_gets keeps_lift
  keeps_bind keeps_set_files keeps_set_current keeps_set_segments
  keeps_set_lastSeqNum keeps_syscall keeps_UnixNano : keeps.

(** Splits the matches and conditionals of a body and applies the hints. *)
Ltac keeps_tac :=
  repeat match goal with
    | |- keeps (_ ≫= _) => apply keeps_bind; [|intros]
    | |- keeps (when ?b _) => unfold when; destruct b
    | |- keeps (match ?x with _ => _ end) => destruct x
    | |- keeps (if ?b then _ else _) => destruct b
    | _ => solve [auto with keeps]
    end.

Lemma keeps_syscall_unit : keeps syscall_unit.
Proof. unfold syscall_unit. keeps_tac. Qed.
#[export] Hint Resolve keeps_syscall_unit : keeps.
Lemma keeps_file_append p c d : keeps (file_append p c d).
Proof. unfold file_append. keeps_tac. Qed.
#[export] Hint Resolve keeps_file_append : keeps.
Lemma keeps_Flush s : keeps (bufio_Flush s).
Proof. unfold bufio_Flush. keeps_tac. Qed.
#[export] Hint Resolve keeps_Flush : keeps.
Lemma keeps_bufio_loop n s p : keeps (bufio_Write_loop n s p).
Proof. revert s p. induction n as [|n IH]; intros s p; simpl; keeps_tac. Qed.
#[export] Hint Resolve keeps_bufio_loop : keeps.
Lemma keeps_open : keeps openCurrentSegment.
Proof. unfold openCurrentSegment. keeps_tac. Qed.
Lemma keeps_current : keeps current.
Proof. unfold current. keeps_tac. Qed.
Lemma keeps_Sync s : keeps (file_Sync s).
Proof. unfold file_Sync. keeps_tac. Qed.
Lemma keeps_Close s : keeps (file_Close s).
Proof. unfold file_Close. keeps_tac. Qed.
#[export] Hint Resolve keeps_open keeps_current keeps_Sync keeps_Close : keeps.
Lemma keeps_rotate : keeps rotate.
Proof. unfold rotate. keeps_tac. Qed.
#[export] Hint Resolve keeps_rotate : keeps.
Lemma keeps_append d : keeps (append_data d).
Proof. unfold append_data, bufio_Write. keeps_tac. Qed.
Lemma keeps_next : keeps nextSeqNum.
Proof. unfold nextSeqNum. keeps_tac. Qed.
#[export] Hint Resolve keeps_append keeps_next : keeps.
Lemma keeps_log_one r : keeps (log_one r).
Proof. unfold log_one. keeps_tac. Qed.
#[export] Hint Resolve keeps_log_one : keeps.
Lemma keeps_Write r : keeps (Write r).
Proof. unfold Write. keeps_tac. Qed.
Lemma keeps_batch rs : keeps (batch_loop rs).
Proof. induction rs; simpl; keeps_tac. Qed.
#[export] Hint Resolve keeps_Write keeps_batch : keeps.
Lemma keeps_WriteBatch rs : keeps (WriteBatch rs).
Proof. unfold WriteBatch. keeps_tac. Qed.
#[export] Hint Resolve keeps_WriteBatch : keeps.
Lemma keeps_replaySegment p : keeps (replaySegment p).
Proof. unfold replaySegment. keeps_tac. Qed.
#[export] Hint Resolve keeps_replaySegment : keeps.
Lemma keeps_replay_paths ps : keeps (replay_paths ps).
Proof. induction ps; simpl; keeps_tac. Qed.
#[export] Hint Resolve keeps_replay_paths : keeps.
Lemma keeps_Replay : keeps Replay.
Proof. unfold Replay, collectRecords. keeps_tac. Qed.
Lemma keeps_run_op o : keeps (run_op o).
Proof. destruct o; simpl; unfold Sync; keeps_tac. Qed.
#[export] Hint Resolve keeps_run_op : keeps.
Lemma keeps_run_ops os : keeps (run_ops os).
Proof. induction os; simpl; keeps_tac. Qed.

Lemma keeps_Ok {A} (m : W A) w a w' :
  keeps m → m w = (Ok a, w') → config_of (w_log w') = config_of (w_log w).
Proof. intros H E. specialize (H w). by rewrite E in H. Qed.

(** ** Acknowledged operations leave nothing in the buffer *)
Definition flushed (w : world) : Prop :=
  ∃ s, w_current (w_log w) = Some s ∧ seg_buf s = [].

Lemma file_append_true path closed p w n w' :
  file_append path closed p w = (Ok (n, true), w') → n = length p.
Proof.
  unfold file_append, syscall. unfold_M. intros H.
  destruct closed; [simplify_eq|]. destruct (w_faults w (w_calls w)); by simplify_eq.
Qed.

Lemma Flush_flushed s w s' w' :
  bufio_Flush s w = (Ok s', w') → seg_buf s' = [] ∧ w_current (w_log w') = Some s'.
Proof.
  unfold bufio_Flush. destruct (seg_err s); [by unfold_M|].
  destruct (seg_buf s) as [|b buf] eqn:Eb; intros H.
  - unfold_M. by simplify_eq.
  - minv H as [n ok] w1 E1. minv H as [] w2 E2. unfold modify in E2.
    destruct ok; unfold_M; simplify_eq. apply file_append_true in E1 as ->.
    by rewrite drop_all.
Qed.

Lemma Sync_flushed s w w' :
  w_current (w_log w) = Some s → seg_buf s = [] →
  file_Sync s w = (Ok tt, w') → flushed w'.
Proof. intros Hs Hb [n ->]%file_Sync_Ok. by exists s. Qed.

(** A batch is flushed to the file in every sync mode. *)
Lemma WriteBatch_flushed rs w w' out : WriteBatch rs w = (Ok out, w') → flushed w'.
Proof.
  intros H. unfold WriteBatch in H. minv H as b w1 E1. minv H as out' w2 E2.
  minv H as e w3 E3. minv H as s w4 E4. minv H as s' w5 E5.
  apply Flush_flushed in E5 as [Hb Hc].
  minv H as sync w6 E6. unfold gets in E6. injection E6 as _ <-.
  minv H as [] w7 E7. unfold mret, M_ret in H. simplify_eq.
  unfold when in E7. destruct sync; [by eapply Sync_flushed|].
  unfold mret, M_ret in E7. simplify_eq. by exists s'.
Qed.

Lemma run_op_flushed o w w' out :
  w_syncOnWrite (w_log w) = true → live w → run_op o w = (Ok out, w') → flushed w'.
Proof.
  intros Hsync Hl H. destruct o as [r|rs|]; simpl in H.
  - minv H as r' w1 E. unfold mret, M_ret in H. simplify_eq. unfold Write in E.
    minv E as r1 w2 E2. pose proof (keeps_Ok _ _ _ _ (keeps_log_one r) E2) as Hk.
    injection Hk as _ _ Hk. minv E as sync w3 E3. unfold gets in E3.
    injection E3 as <- <-. rewrite Hk, Hsync in E. minv E as [] w4 E4.
    unfold mret, M_ret in E. simplify_eq. unfold when in E4.
    minv E4 as s w5 E5. apply current_Ok in E5 as [Hs ->].
    minv E4 as s' w6 E6. apply Flush_flushed in E6 as [Hb Hc]. by eapply Sync_flushed.
  - by eapply WriteBatch_flushed.
  - minv H as [] w1 E. unfold mret, M_ret in H. simplify_eq. unfold Sync in E.
    minv E as c w2 E2. unfold gets in E2. injection E2 as <- <-.
    destruct Hl as (s & Hs & _). rewrite Hs in E.
    minv E as s' w3 E3. apply Flush_flushed in E3 as [Hb Hc]. by eapply Sync_flushed.
Qed.

Lemma run_ops_flushed hz os w w' out rs :
  w_syncOnWrite (w_log w) = true → flushed w → holds hz w rs → Forall op_ok os →
  w_lastSeqNum (w_log w) + ops_cost os < 2 ^ 64 →
  Z.of_nat (w_ticks w) + 2 * ops_cost os ≤ Z.of_nat hz →
  run_ops os w = (Ok out, w') → flushed w' ∧ config_of (w_log w') = config_of (w_log w).
Proof.
  revert w out rs. induction os as [|o os IH]; intros w out rs Hsync Hf Hh Hok Hq Htk H; simpl in H.
  { unfold mret, M_ret in H. by simplify_eq. }
  inversion Hok as [|? ? Ho Hok']; subst. simpl in Hq, Htk. pose proof (ops_cost_nonneg os).
  minv H as a w1 E1. minv H as b w2 E2. unfold mret, M_ret in H. simplify_eq.
  pose proof (keeps_Ok _ _ _ _ (keeps_run_op o) E1) as Hk.
  pose proof (run_op_flushed _ _ _ _ Hsync (holds_live _ _ _ Hh) E1) as Hf1.
  eapply run_op_Ok in E1 as (_ & Hs1 & Ht1 & en & _ & _ & Hh1); [|done..|lia|lia].
  eapply IH in E2 as [Hf2 Hk2]; [by rewrite Hk2| |done|done|done|lia|lia].
  injection Hk as _ _ ->. done.
Qed.

(** ** Name order is creation order *)
Lemma compare_same_prefix fuel n x y :
  String.compare (decimal_go fuel n x) (decimal_go fuel n y) = String.compare x y.
Proof.
  revert n x y. induction fuel as [|fuel IH]; intros n x y; [done|]. simpl.
  rewrite IH. simpl. unfold Ascii.compare. by rewrite N.compare_refl.
Qed.

Lemma compare_decimal fuel a b x y :
  0 ≤ a < b → b < 10 ^ Z.of_nat fuel →
  String.compare (decimal_go fuel a x) (decimal_go fuel b y) = Lt.
Proof.
  revert a b x y. induction fuel as [|fuel IH]; intros a b x y Hab Hb; [simpl in Hb; lia|].
  rewrite Nat2Z.inj_succ, Z.pow_succ_r in Hb by lia. simpl.
  assert (a `div` 10 ≤ b `div` 10) by (apply Z.div_le_mono; lia).
  destruct (decide (a `div` 10 = b `div` 10)) as [E|NE].
  - rewrite E, compare_same_prefix. simpl.
    assert (a `mod` 10 < b `mod` 10).
    { rewrite (Z.div_mod a 10), (Z.div_mod b 10) in Hab by lia. lia. }
    pose proof (Z.mod_pos_bound a 10). pose proof (Z.mod_pos_bound b 10).
    unfold Ascii.compare, digit. rewrite !Ascii.N_ascii_embedding by lia.
    by rewrite (proj2 (N.compare_lt_iff _ _)) by lia.
  - apply IH; [|apply Z.div_lt_upper_bound; lia].
    split; [apply Z.div_pos; lia|lia].
Qed.

Lemma compare_append p x y : String.compare (p +:+ x) (p +:+ y) = String.compare x y.
Proof.
  induction p as [|c p IH]; [done|].
  change (String.compare (String c (p +:+ x)) (String c (p +:+ y)) = String.compare x y).
  simpl. unfold Ascii.compare. by rewrite N.compare_refl.
Qed.

Lemma seg_path_mono dir a b :
  0 ≤ a < b → b ≤ MaxInt64 →
  (path_join dir (segment_name a) ≤ path_join dir (segment_name b))%string.
Proof.
  unfold MaxInt64. intros Hab Hb. unfold String.le, String.leb, path_join.
  rewrite !compare_append. unfold segment_name. by rewrite compare_decimal by (simpl; lia).
Qed.

(** ** Open finds the segments again *)

Section horizon.
Context (hz : nat).

Lemma opened_sorted w paths :
  clock_ok hz w → (w_ticks w ≤ hz)%nat → opened_in_order w paths →
  StronglySorted (≤)%string paths ∧ NoDup paths.
Proof.
  intros [Hinc Hrng] Htk (idxs & Hs & Hb & ->). rewrite Forall_forall in Hb. split.
  - induction Hs as [|i idxs Hs IH Hlt]; [constructor|]. simpl.
    constructor; [apply IH; intros j Hj; apply Hb; by right|].
    assert (Hi : (i < w_ticks w)%nat) by (apply Hb; by left).
    apply Forall_fmap, Forall_forall. intros j Hj. rewrite Forall_forall in Hlt.
    assert (Hj' : (j < w_ticks w)%nat) by (apply Hb; by right). specialize (Hlt j Hj).
    apply seg_path_mono; [|apply Hrng; lia]. split; [apply Hrng; lia|apply Hinc; lia].
  - apply NoDup_fmap_2_strong.
    + intros i j Hi%Hb Hj%Hb E.
      apply path_join_inj, segment_name_inj in E; [|apply Hrng; lia..].
      destruct (Nat.lt_trichotomy i j) as [H|[H|H]]; [|done|].
      * specialize (Hinc i j ltac:(lia)). lia.
      * specialize (Hinc j i ltac:(lia)). lia.
    + clear -Hs. induction Hs as [|i idxs Hs IH Hlt]; constructor; [|done].
      intros Hin. rewrite Forall_forall in Hlt. apply Hlt in Hin. lia.
Qed.

Lemma wal_paths_eq w dir paths :
  w_dir (w_log w) = dir → clock_ok hz w → (w_ticks w ≤ hz)%nat → opened_in_order w paths →
  (∀ p, p ∈ paths → is_Some (w_files w !! p)) →
  (∀ p, is_Some (w_files w !! p) → listed dir p → p ∈ paths) →
  wal_paths dir (w_files w) = paths.
Proof.
  intros <- Hck Htk Hord Hin Hdir. pose proof (opened_sorted w paths Hck Htk Hord) as [Hs Hnd].
  unfold wal_paths. apply (StronglySorted_unique (≤)%string).
  - apply (StronglySorted_merge_sort (≤)%string).
  - done.
  - rewrite merge_sort_Permutation. apply NoDup_Permutation.
    + apply NoDup_filter, NoDup_fst_map_to_list.
    + done.
    + intros p. rewrite list_elem_of_filter.
      split.
      * intros [Hl Hp]. apply Hdir; [|exact Hl].
        apply list_elem_of_fmap in Hp as ([q c] & -> & Hp).
        apply elem_of_map_to_list in Hp. by exists c.
      * intros Hp. split.
        -- destruct Hord as (idxs & _ & _ & ->).
           apply list_elem_of_fmap in Hp as (i & -> & _). apply Is_true_eq_left.
           apply (seg_path_listed (w_dir (w_log w))).
        -- destruct (Hin p Hp) as [c Hc]. apply list_elem_of_fmap. exists (p, c).
           split; [done|]. by apply elem_of_map_to_list.
Qed.

Lemma runs_scan w path rs Q :
  fault_free w → w_files w !! path = Some (encs rs) → Forall good_record rs →
  (∀ n, Q (max_seq rs) (World (w_files w) (w_clock w) (w_ticks w) (w_faults w) n (w_log w))) →
  runs w (scanSegmentLastSeqNum path) Q.
Proof.
  intros Hff Hp Hg H. unfold scanSegmentLastSeqNum.
  apply runs_bind, runs_syscall_unit; [done|]. intros n. apply runs_bind, runs_gets.
  simpl. rewrite Hp, decode_all_encs by done. by apply runs_ret.
Qed.

(** The log after loading segments [paths] holding [rss] into [l]. *)
Definition loaded (l : WAL) (paths : list string) (rss : list (list Record_)) : WAL :=
  set_lastSeqNum (foldl (λ m rs, Z.max m (max_seq rs)) (w_lastSeqNum l) rss)
    (set_segments (w_segments l ++
       zip_with (λ p rs, SegmentInfo p (max_seq rs) (len (encs rs))) paths rss) l).

Lemma load_segment_max path n size l :
  load_segment path n size l =
  set_lastSeqNum (Z.max (w_lastSeqNum l) n)
    (set_segments (w_segments l ++ [SegmentInfo path n size]) l).
Proof.
  unfold load_segment. simpl. rewrite Z.gtb_ltb. destruct (Z.ltb_spec (w_lastSeqNum l) n).
  - by rewrite Z.max_r by lia.
  - by rewrite Z.max_l by lia.
Qed.

Lemma runs_load_loop w paths rss Q :
  fault_free w → Forall good_record (concat rss) →
  Forall2 (λ p rs, w_files w !! p = Some (encs rs)) paths rss →
  (∀ n, Q tt (World (w_files w) (w_clock w) (w_ticks w) (w_faults w) n
                (loaded (w_log w) paths rss))) →
  runs w (load_loop paths) Q.
Proof.
  revert w rss Q. induction paths as [|p paths IH]; intros w rss Q Hff Hg HF H;
    inversion HF as [|? rs ? rss' Hp HF']; subst; simpl.
  { apply runs_ret. specialize (H (w_calls w)). destruct w as [f c t fa n l].
    unfold loaded in H. simpl in *. rewrite app_nil_r in H. by destruct l. }
  simpl in Hg. apply Forall_app in Hg as [Hg1 Hg2].
  apply runs_bind. eexists _, _. split; [reflexivity|]. rewrite Hff. split; [|done].
  apply runs_bind, (runs_scan _ _ rs); [done..|]. intros n.
  apply runs_bind, runs_gets. simpl. rewrite Hp. simpl.
  apply runs_bind, runs_modify; [done|]. apply (IH _ rss'); [done..|]. intros m.
  specialize (H m). unfold loaded in *. simpl in *. rewrite load_segment_max. simpl. by rewrite <- app_assoc.
Qed.

(** What is on disk when the process dies: segment files holding [rss], opened
    in this order, and nothing else that [Open] would load. *)
Record on_disk (w : world) (paths : list string) (rss : list (list Record_)) : Prop := {
  od_files : Forall2 (λ p rs, w_files w !! p = Some (encs rs)) paths rss;
  od_good : Forall good_record (concat rss);
  od_clock : clock_ok hz w;
  od_ticks : (w_ticks w < hz)%nat;
  od_fresh : ∀ n, (w_ticks w ≤ n < hz)%nat → w_files w !! seg_path_at w (w_clock w n) = None;
  od_order : opened_in_order w paths;
  od_dir : ∀ p, is_Some (w_files w !! p) → listed (w_dir (w_log w)) p → p ∈ paths
}.

Lemma on_disk_paths w paths rss p :
  on_disk w paths rss → p ∈ paths → is_Some (w_files w !! p).
Proof.
  intros [HF _ _ _ _ _ _] Hp. apply list_elem_of_lookup in Hp as [i Hi].
  destruct (Forall2_lookup_l _ _ _ _ _ HF Hi) as (rs & _ & E). by exists (encs rs).
Qed.

Lemma max_seq_foldl rs m : foldl (λ m r, Z.max m (SeqNum r)) m rs = Z.max m (foldl (λ m r, Z.max m (SeqNum r)) m rs).
Proof.
  revert m. induction rs as [|r rs IH]; intros m; simpl; [lia|].
  rewrite IH. specialize (IH (Z.max m (SeqNum r))). lia.
Qed.

Lemma max_seq_bound rs m r :
  r ∈ rs → SeqNum r ≤ foldl (λ m r, Z.max m (SeqNum r)) m rs.
Proof.
  revert m. induction rs as [|r0 rs IH]; intros m Hr; [by apply elem_of_nil in Hr|].
  apply elem_of_cons in Hr as [->|Hr]; simpl; [|by apply IH].
  rewrite max_seq_foldl. lia.
Qed.

Lemma loaded_seq_bound m rss r :
  r ∈ concat rss → SeqNum r ≤ foldl (λ m rs, Z.max m (max_seq rs)) m rss.
Proof.
  assert (Hm : ∀ rss m, m ≤ foldl (λ m rs, Z.max m (max_seq rs)) m rss).
  { clear. induction rss as [|rs rss IH]; intros m; simpl; [lia|].
    specialize (IH (Z.max m (max_seq rs))). lia. }
  revert m. induction rss as [|rs rss IH]; intros m Hr; simpl in *;
    [by apply elem_of_nil in Hr|].
  apply elem_of_app in Hr as [Hr|Hr]; [|by apply IH].
  specialize (Hm rss (Z.max m (max_seq rs))).
  pose proof (max_seq_bound rs 0 r Hr). unfold max_seq in *. lia.
Qed.

Lemma loaded_old w paths rss :
  on_disk w paths rss → w_segments (w_log w) = [] →
  old_inv hz (World (w_files w) (w_clock w) (w_ticks w) (w_faults w) (w_calls w)
             (loaded (w_log w) paths rss)) rss.
Proof.
  intros [HF Hg Hck Htk Hfr Hord Hdir] Hseg.
  assert (Hpaths : si_path <$> zip_with (λ p rs, SegmentInfo p (max_seq rs) (len (encs rs)))
      paths rss = paths).
  { clear -HF. induction HF as [|p rs paths rss Hp HF IH]; [done|]. simpl. by f_equal. }
  constructor; unfold loaded; simpl; rewrite ?Hseg; simpl; try done.
  - clear -HF. induction HF as [|p rs paths rss Hp HF IH]; simpl; by constructor.
  - by rewrite Hpaths.
  - by rewrite Hpaths.
Qed.

(** The struct [Open] starts from. *)
Definition fresh_log (cfg : Config) : WAL :=
  mkWAL (Dir cfg) (SegmentSize cfg) (SyncOnWrite cfg) None [] 0 (AsyncEnabled cfg)
    (asyncBatchSizeOf cfg) (asyncQueueCapOf (asyncBatchSizeOf cfg)) [].

Lemma loaded_seq_nonneg m rss :
  0 ≤ m → 0 ≤ foldl (λ m rs, Z.max m (max_seq rs)) m rss.
Proof. revert m. induction rss as [|rs rss IH]; intros m Hm; simpl; [done|]. apply IH. lia. Qed.

Lemma runs_Open cfg w paths rss :
  fault_free w → on_disk (set_log (λ _, fresh_log cfg) w) paths rss →
  StronglySorted Z.lt (SeqNum <$> concat rss) →
  runs w (Open cfg) (λ _ w',
    holds hz w' (concat rss) ∧ flushed w' ∧ w_ticks w' = S (w_ticks w) ∧
    config_of (w_log w') = fresh_log cfg ∧
    w_lastSeqNum (w_log w') = foldl (λ m rs, Z.max m (max_seq rs)) 0 rss ∧
    si_lastSeqNum <$> w_segments (w_log w') = max_seq <$> rss ∧
    ∃ s, log_inv hz w' rss [] s).
Proof.
  intros Hff Hd Hsort. unfold Open. apply runs_bind, runs_syscall_unit; [done|]. intros n0.
  apply runs_bind, runs_modify; [done|]. unfold loadSegments.
  apply runs_bind, runs_bind, runs_syscall_unit; [done|]. intros n1.
  apply runs_bind, runs_gets, runs_bind, runs_gets. simpl.
  pose proof (wal_paths_eq (set_log (λ _, fresh_log cfg) w) (Dir cfg) paths eq_refl (od_clock _ _ _ Hd)
    (Nat.lt_le_incl _ _ (od_ticks _ _ _ Hd)) (od_order _ _ _ Hd) (λ p, on_disk_paths _ _ _ p Hd) (od_dir _ _ _ Hd)) as Hp.
  simpl in Hp. rewrite Hp.
  apply (runs_load_loop _ _ rss); [done|apply Hd|apply Hd|]. intros n2. simpl.
  set (w2 := World _ _ _ _ n2 _).
  assert (Hold : old_inv hz w2 rss).
  { destruct (loaded_old _ _ _ Hd eq_refl) as [H1 H2 H3 H4 H5 H6]. by constructor. }
  destruct (runs_openCurrentSegment w2 Hff) as ([] & w3 & E & _ & Hf).
  pose proof (open_Ok _ _ _ _ Hold (od_ticks _ _ _ Hd) E) as (s & Hi & Hs & [n3 E3]).
  exists tt, w3. split_and!; [done| | | | | | |by exists s|done].
  - assert (Hn : 0 ≤ w_lastSeqNum (w_log w3)).
    { rewrite Hs. simpl. by apply loaded_seq_nonneg. }
    split_and!; [done| |exists rss, [], s; by rewrite app_nil_r]. split; [done|].
    rewrite Hs. apply Forall_forall. intros r Hr. by apply loaded_seq_bound.
  - exists s. pose proof (li_cur _ _ _ _ _ Hi). split; [done|].
    destruct (li_file _ _ _ _ _ Hi) as (c & _ & Hcb). by apply app_eq_nil in Hcb as [_ ->].
  - by rewrite E3.
  - by rewrite E3.
  - by rewrite Hs.
  - rewrite E3. simpl. pose proof (od_files _ _ _ Hd) as HF. clear -HF.
    induction HF as [|p rs paths rss Hp HF IH]; [done|]. simpl. by f_equal.
Qed.

(** ** From a running log to its files *)
Lemma flushed_on_disk w rs cfg :
  holds hz w rs → flushed w → w_dir (w_log w) = Dir cfg → (w_ticks w < hz)%nat →
  ∃ paths rss, on_disk (set_log (λ _, fresh_log cfg) w) paths rss ∧ concat rss = rs.
Proof.
  intros (_ & _ & rss & cur & s & Hi & <-) (s' & Hs' & Hb) Hdir Htk.
  destruct Hi as [Hcur Herr Hopen Hold (c & Hc & Hcb) _ Hgood Hpath Hck _ Hfr Hord Hd].
  rewrite Hcur in Hs'. injection Hs' as <-. rewrite Hb, app_nil_r in Hcb. subst c.
  exists ((si_path <$> w_segments (w_log w)) ++ [seg_path s]), (rss ++ [cur]).
  assert (Ec : concat (rss ++ [cur]) = concat rss ++ cur).
  { rewrite concat_app. simpl. by rewrite app_nil_r. }
  split; [|done]. constructor; simpl; rewrite ?Ec; try done.
  - apply Forall2_app; [|by constructor]. by apply Forall2_fmap_l.
  - intros n Hn. unfold seg_path_at. simpl. rewrite <- Hdir. by apply Hfr.
  - by apply (opened_weaken w).
  - rewrite <- Hdir. done.
Qed.

(** A directory with no segment file. *)
Lemma empty_on_disk w cfg :
  clock_ok hz w → (w_ticks w < hz)%nat →
  (∀ p, is_Some (w_files w !! p) → listed (Dir cfg) p = false) →
  on_disk (set_log (λ _, fresh_log cfg) w) [] [].
Proof.
  intros Hck Htk Hl. constructor; simpl; try done.
  - intros n _. destruct (w_files w !! _) eqn:E; [|done]. exfalso.
    assert (Hs : is_Some (w_files w !! path_join (Dir cfg) (segment_name (w_clock w n))))
      by (by eexists).
    apply Hl in Hs. by rewrite seg_path_listed in Hs.
  - exists []. split_and!; by constructor.
  - intros p Hp Hl'. apply Hl in Hp. by rewrite Hp in Hl'.
Qed.

End horizon.

(** A crash loses the process memory and keeps the files; the clock goes on. Every byte
    handed to the system survives it, synced or not: what fsync adds to a write on a
    machine that loses power is not modelled. *)
Definition crash (w : world) (l : WAL) : world := set_log (λ _, l) w.
