(* ===== verification/WalTheorems.v ===== *)
(** * pkg/storage/wal: the properties of the log

    Durability and replay of acknowledged writes, batch atomicity, the record
    codec, corruption detection, truncation and the asynchronous writer. *)
From stdpp Require Import base gmap strings list fin_maps numbers sorting.
From Stdlib Require Import Ascii Strings.Byte ZArith Lia.
From S2P Require Import Prelude Crc32 WalCodec WalLog WalProofs WalRecovery.

#[local] Open Scope Z_scope.

(** ** A concrete world for the witnesses *)
Definition demo_world : world :=
  World ∅ (λ n, 1700000000000000000 + Z.of_nat n) 0 (λ _, None) 0
    (mkWAL "" 0 false None [] 0 false 0 0 []).
Definition demo_config : Config := mkConfig "wal" 100 true false 0.
Definition demo_record (d : byte) : Record_ := Record 0 RecordTypeInsert "docs" [d] 0.
Definition demo_ops : list op :=
  [OpWrite (demo_record x01); OpBatch [demo_record x02; demo_record x03]; OpSync;
   OpWrite (demo_record x04)].

Lemma demo_fault_free : fault_free demo_world.
Proof. done. Qed.

Lemma demo_clock : clock_ok 100 demo_world.
Proof. split; intros; simpl; unfold MaxInt64; lia. Qed.

#[export] Instance op_ok_dec o : Decision (op_ok o).
Proof. unfold op_ok, data_record, encodable, frame_fits. apply _. Defined.

Lemma demo_ops_ok : Forall op_ok demo_ops.
Proof. apply (bool_decide_unpack _). by vm_compute. Qed.

(** No file of the world is one [Open] would load. *)
Definition no_segments (dir : string) (w : world) : Prop :=
  ∀ p, is_Some (w_files w !! p) → listed dir p = false.

Lemma demo_no_segments : no_segments (Dir demo_config) demo_world.
Proof. intros p [c Hc]. unfold demo_world, w_files in Hc. by rewrite lookup_empty in Hc. Qed.

(** ** Properties *)

(** Complete entries replay to their payload. *)
Lemma replayed_whole ens :
  Forall wf_entry ens →
  replayed (concat (entry_records <$> ens)) = concat (entry_payload <$> ens).
Proof.
  intros H. rewrite <- (app_nil_r (concat (entry_records <$> ens))).
  rewrite replayed_entries by done. by rewrite app_nil_r.
Qed.

(** Opening a log in a directory without segments. *)
Lemma runs_Open_empty hz cfg w :
  fault_free w → clock_ok hz w → (w_ticks w < hz)%nat → no_segments (Dir cfg) w →
  runs w (Open cfg) (λ _ w', holds hz w' [] ∧ flushed w' ∧ w_ticks w' = S (w_ticks w) ∧
    config_of (w_log w') = fresh_log cfg ∧
    w_lastSeqNum (w_log w') = 0).
Proof.
  intros Hff Hck Htk Hl. eapply runs_weaken.
  { apply (runs_Open hz cfg w [] []); [done|by apply empty_on_disk|constructor]. }
  by intros [] w' _ (H1 & H2 & H3 & H4 & H5 & _).
Qed.

(** What a history leaves behind: an opened log, the acknowledged records
    stamped, and the entries that hold them. *)
Lemma history_Ok hz cfg w0 os :
  fault_free w0 → clock_ok hz w0 → no_segments (Dir cfg) w0 →
  Forall op_ok os → ops_cost os < 2 ^ 64 →
  Z.of_nat (w_ticks w0) + 2 * ops_cost os + 2 ≤ Z.of_nat hz →
  ∃ out w1 ens,
    (Open cfg;; run_ops os) w0 = (Ok out, w1) ∧
    stamped (concat (op_records <$> os)) out ∧
    Forall wf_entry ens ∧ concat (entry_payload <$> ens) = out ∧
    holds hz w1 (concat (entry_records <$> ens)) ∧
    (SyncOnWrite cfg = true → flushed w1) ∧ w_dir (w_log w1) = Dir cfg ∧
    (w_ticks w1 < hz)%nat ∧ fault_free w1 ∧ w_lastSeqNum (w_log w1) = ops_cost os ∧
    Z.of_nat (w_ticks w1) ≤ Z.of_nat (w_ticks w0) + 2 * ops_cost os + 1.
Proof.
  intros Hff Hck Hl Hok Hcost Htk. pose proof (ops_cost_nonneg os).
  destruct (runs_Open_empty hz cfg w0) as ([] & w & E & (Hh & Hfl & Ht & Hcfg & Hq) & Hf);
    [done..|lia|done|].
  injection Hcfg as Hd _ Hs. assert (Hff1 : fault_free w) by by eapply fault_free_eq.
  destruct (runs_run_ops w os Hff1 (holds_live _ _ _ Hh) Hok) as (out & w1 & E1 & _ & Hf1).
  destruct (run_ops_Ok hz os w w1 out []) as (Hst & Hq1 & Ht1 & ens & Hwf & Hpay & Hh1);
    [done..|lia|lia|done|].
  exists out, w1, ens. pose proof (keeps_Ok _ _ _ _ (keeps_run_ops os) E1) as Hk.
  injection Hk as Hd1 _ Hs1.
  split_and!; try done; [by rewrite (M_bind_run _ _ _ _ _ E)| | |lia| |lia|lia].
  - intros Hsync. eapply (run_ops_flushed hz os w w1 out []); try done; [congruence|lia|lia].
  - congruence.
  - by eapply fault_free_eq.
Qed.

(** C2. Durability: open a log in a directory without segments, with
    [SyncOnWrite], and run any history of [Write], [WriteBatch] and [Sync] calls
    on supported records. Without system-call failures, and with a clock that
    advances between readings, every call succeeds, and if the process then
    dies, a new [Open] followed by [Replay] hands the callback exactly the
    acknowledged records: all of them, in order, each once, with the sequence
    numbers and timestamps they were given. *)
Theorem replay_after_crash hz cfg w0 os l :
  fault_free w0 → clock_ok hz w0 → no_segments (Dir cfg) w0 → SyncOnWrite cfg = true →
  Forall op_ok os → ops_cost os < 2 ^ 64 →
  Z.of_nat (w_ticks w0) + 2 * ops_cost os + 2 ≤ Z.of_nat hz →
  ∃ out w1 w2,
    (Open cfg;; run_ops os) w0 = (Ok out, w1) ∧
    stamped (concat (op_records <$> os)) out ∧
    (Open cfg;; Replay) (crash w1 l) = (Ok out, w2).
Proof.
  intros Hff Hck Hl Hsync Hok Hcost Htk.
  destruct (history_Ok hz cfg w0 os)
    as (out & w1 & ens & E & Hst & Hwf & Hpay & Hh1 & Hfl & Hd & Ht & Hff1 & _); [done..|].
  destruct (flushed_on_disk hz w1 _ cfg Hh1 (Hfl Hsync) Hd Ht) as (paths & rss & Hod & Hrss).
  assert (Hrun : runs (crash w1 l) (Open cfg;; Replay) (λ o _, o = out)).
  { apply runs_bind. eapply runs_weaken.
    - apply (runs_Open hz cfg (crash w1 l) paths rss Hff1 Hod). rewrite Hrss. apply Hh1.
    - intros [] w3 Hf3 (Hh3 & _). eapply runs_weaken.
      + eapply runs_Replay; [by eapply fault_free_eq|exact Hh3].
      + intros o w4 _ [-> _]. by rewrite Hrss, <- Hpay, replayed_whole. }
  destruct Hrun as (o & w2 & E2 & -> & _). by exists out, w1, w2.
Qed.

Lemma replay_after_crash_witness : ∃ out w1 w2,
  (Open demo_config;; run_ops demo_ops) demo_world = (Ok out, w1) ∧
  stamped (concat (op_records <$> demo_ops)) out ∧
  (Open demo_config;; Replay) (crash w1 (w_log demo_world)) = (Ok out, w2).
Proof.
  apply (replay_after_crash 100 demo_config demo_world demo_ops (w_log demo_world));
    [exact demo_fault_free|exact demo_clock|exact demo_no_segments|reflexivity
    |exact demo_ops_ok|reflexivity|vm_compute; discriminate].
Defined.

(** A running log replays what it acknowledged, in every sync mode: after
    any history of calls on a freshly opened log, [Replay] on the same log
    (which flushes the buffered tail itself) hands the callback the
    acknowledged records in order, across all rotations. *)
Theorem replay_running hz cfg w0 os :
  fault_free w0 → clock_ok hz w0 → no_segments (Dir cfg) w0 →
  Forall op_ok os → ops_cost os < 2 ^ 64 →
  Z.of_nat (w_ticks w0) + 2 * ops_cost os + 2 ≤ Z.of_nat hz →
  ∃ out w1 w2,
    (Open cfg;; run_ops os) w0 = (Ok out, w1) ∧
    stamped (concat (op_records <$> os)) out ∧
    Replay w1 = (Ok out, w2).
Proof.
  intros Hff Hck Hl Hok Hcost Htk.
  destruct (history_Ok hz cfg w0 os)
    as (out & w1 & ens & E & Hst & Hwf & Hpay & Hh1 & _ & _ & _ & Hff1 & _); [done..|].
  destruct (runs_Replay hz w1 _ Hff1 Hh1) as (o & w2 & E2 & [-> _] & _).
  exists out, w1, w2. split_and!; [done..|]. by rewrite E2, replayed_whole, Hpay.
Qed.

(** A log that is not synced on write: records stay in the buffer. *)
Definition demo_config_nosync : Config := mkConfig "wal" 100 false false 0.

Lemma replay_running_witness : ∃ out w1 w2,
  (Open demo_config_nosync;; run_ops demo_ops) demo_world = (Ok out, w1) ∧
  stamped (concat (op_records <$> demo_ops)) out ∧ Replay w1 = (Ok out, w2).
Proof.
  apply (replay_running 100 demo_config_nosync demo_world demo_ops);
    [exact demo_fault_free|exact demo_clock|exact demo_no_segments
    |exact demo_ops_ok|reflexivity|vm_compute; discriminate].
Defined.

(** Batch atomicity of replaying: cut the record stream of a log made of complete
    entries and one last batch at any record boundary. If the cut is before the
    end marker of that batch, replay applies nothing of it and everything
    before it; only the whole batch is applied. *)
Theorem batch_cut_at_record ens b rs e k :
  Forall wf_entry ens → wf_entry (EBatch b rs e) →
  (k ≤ length rs + 2)%nat →
  replayed (concat (entry_records <$> ens) ++ take k (entry_records (EBatch b rs e))) =
  concat (entry_payload <$> ens) ++ (if decide (k = length rs + 2)%nat then rs else []).
Proof.
  intros Hens Hb Hk. rewrite replayed_entries by done. f_equal.
  case_decide as E.
  - rewrite take_ge by (simpl; rewrite length_app; simpl; lia).
    rewrite <- (app_nil_r (entry_records _)), replayed_entry by done. by rewrite app_nil_r.
  - destruct k as [|k]; [done|]. simpl. destruct Hb as (Hb & _ & Hp & _).
    rewrite take_app_le by lia. apply replayed_open_batch; [done|]. by apply Forall_take.
Qed.

Lemma batch_cut_at_record_witness :
  replayed ([demo_record x01] ++ [marker RecordTypeBatchBegin 2; demo_record x02; demo_record x03]) =
  [demo_record x01] ++ [].
Proof.
  apply (batch_cut_at_record [ESingle (demo_record x01)] (marker RecordTypeBatchBegin 2)
    [demo_record x02; demo_record x03] (marker RecordTypeBatchEnd 2) 3);
    [|split_and!|simpl; lia]; try done; repeat constructor; done.
Defined.

(** C8. Codec round trip: on every record [encodeRecord] accepts (whose frame
    also fits the 32-bit length arithmetic of the reader), decoding the encoded
    bytes gives the record back and leaves the rest of the stream. *)
Theorem encode_decode_roundtrip r bs rest :
  wf_record r → frame_fits r → encodeRecord r = Ok bs →
  decodeRecord (bs ++ rest) = Ok (r, rest).
Proof.
  intros Hr Hf H. rewrite encodeRecord_wf in H by done. simplify_eq.
  by apply decode_bytes_of_record.
Qed.

Lemma encode_decode_roundtrip_witness :
  decodeRecord (bytes_of_record (demo_record x07) ++ [xff]) = Ok (demo_record x07, [xff]).
Proof.
  apply encode_decode_roundtrip; [|reflexivity|reflexivity].
  apply (bool_decide_unpack _). by vm_compute.
Defined.

(** Corruption detection: change any one byte of an encoded record's payload
    on disk and the reader reports a CRC mismatch instead of a record, whatever
    follows in the stream. *)
Theorem corrupt_payload_detected r rest pre post b b' :
  wf_record r → frame_fits r → payload_of r = pre ++ b :: post → b ≠ b' →
  decodeRecord (PutUint32 (payload_len r) ++ (pre ++ b' :: post) ++
    PutUint32 (ChecksumIEEE (payload_of r)) ++ rest) = Err ErrCRCMismatch.
Proof.
  intros Hr Hf Hp Hb. rewrite (app_assoc (pre ++ _)), <- (len_payload_of r).
  assert (Hlen : len (payload_of r) = len (pre ++ b' :: post)).
  { rewrite Hp. by rewrite !len_app, !len_cons. }
  unfold frame_fits in Hf. rewrite <- len_payload_of in Hf.
  rewrite Hlen, decode_framed by (auto using ChecksumIEEE_range; lia).
  destruct (Z.eqb_spec (ChecksumIEEE (payload_of r)) (ChecksumIEEE (pre ++ b' :: post))) as [E|];
    [|done].
  rewrite Hp in E. by apply ChecksumIEEE_one_byte in E.
Qed.

Lemma corrupt_payload_detected_witness :
  payload_of (demo_record x07) = byte_of RecordTypeInsert :: tail (payload_of (demo_record x07)) ∧
  decodeRecord (PutUint32 (payload_len (demo_record x07)) ++
    ([] ++ x03 :: tail (payload_of (demo_record x07))) ++
    PutUint32 (ChecksumIEEE (payload_of (demo_record x07))) ++ []) = Err ErrCRCMismatch.
Proof.
  split; [reflexivity|].
  apply (corrupt_payload_detected (demo_record x07) [] [] (tail (payload_of (demo_record x07)))
    (byte_of RecordTypeInsert) x03);
    [apply (bool_decide_unpack _); by vm_compute|reflexivity|reflexivity|by vm_compute].
Defined.

(** ** Torn tails *)
Lemma decode_stream_tail fuel rs t e :
  Forall good_record rs → (length rs < fuel)%nat → decodeRecord t = Err e →
  decode_stream fuel (encs rs ++ t) = (rs, Err e).
Proof.
  intros H Hl Ht. revert fuel Hl.
  induction H as [|r rs [Hw Hf] H IH]; intros fuel Hl;
    (destruct fuel as [|fuel]; [simpl in Hl; lia|]).
  { simpl. by rewrite Ht. }
  unfold encs in *. cbn [fmap list_fmap concat decode_stream].
  rewrite <- app_assoc, decode_bytes_of_record by done. rewrite IH; [done|simpl in Hl; lia].
Qed.

Lemma decode_all_tail rs t e :
  Forall good_record rs → decodeRecord t = Err e → decode_all (encs rs ++ t) = (rs, Err e).
Proof.
  intros H Ht. apply decode_stream_tail; [done| |done].
  pose proof (length_encs rs). rewrite length_app. lia.
Qed.

(** The error a reader meets after [k] bytes of a frame: at a field boundary
    [io.ReadFull] reads nothing and reports [io.EOF]. *)
Definition torn_error (k : nat) : walError :=
  if decide (k = 0 ∨ k = 4)%nat then EOF else ErrUnexpectedEOF.

Lemma ReadFull_take n k (bs : list byte) :
  (k ≤ length bs)%nat → Z.of_nat k < n →
  ReadFull n (take k bs) = Err (if decide (k = 0)%nat then EOF else ErrUnexpectedEOF).
Proof.
  intros Hk Hn. rewrite ReadFull_short by (unfold len; rewrite length_take; lia).
  destruct k as [|k]; [done|]. by destruct bs as [|b bs]; [simpl in Hk; lia|].
Qed.

Lemma decode_torn r k :
  good_record r → (k < length (bytes_of_record r))%nat →
  decodeRecord (take k (bytes_of_record r)) = Err (torn_error k).
Proof.
  intros [Hw Hf] Hk. rewrite <- (app_nil_r (bytes_of_record r)) in *.
  rewrite bytes_of_record_framed, app_nil_r in *. unfold frame_fits in Hf.
  rewrite <- len_payload_of in Hf. pose proof (len_nonneg (payload_of r)).
  set (n := len (payload_of r)) in *.
  set (body := payload_of r ++ PutUint32 (ChecksumIEEE (payload_of r))) in *.
  assert (Hbody : len body = n + 4).
  { unfold body. rewrite len_app. unfold PutUint32. rewrite len_le_put. lia. }
  assert (H4 : length (PutUint32 n) = 4%nat) by apply length_le_put.
  rewrite length_app, H4 in Hk. unfold decodeRecord, torn_error.
  destruct (decide (k < 4)%nat) as [Hlt|Hge].
  - rewrite ReadFull_take by (rewrite ?length_app; lia). simpl.
    do 2 case_decide; (done || lia).
  - rewrite (take_app_ge (PutUint32 n)) by lia. rewrite ReadFull_app by (unfold len; lia).
    cbn [mbind result_bind]. rewrite le_get_put4 by lia. unfold u32.
    rewrite Z.mod_small by lia. unfold len in Hbody.
    rewrite H4, ReadFull_take by lia. simpl. do 2 case_decide; (done || lia).
Qed.

(** A torn tail: a segment whose last record is cut after [k] of its bytes,
    as an interrupted write leaves it. [scanSegmentLastSeqNum] reads it as the
    complete records before the cut for every [k], so [Open] accepts it;
    [replaySegment] returns those records only when the cut falls on [k = 0]
    or right after the length prefix, and an unexpected-EOF error for every
    other [k]. *)
Theorem torn_segment w path rs r k :
  fault_free w → Forall good_record rs → good_record r →
  (k < length (bytes_of_record r))%nat →
  w_files w !! path = Some (encs rs ++ take k (bytes_of_record r)) →
  fst (scanSegmentLastSeqNum path w) = Ok (max_seq rs) ∧
  fst (replaySegment path w) =
    (if decide (k = 0 ∨ k = 4)%nat then Ok rs else Err ErrUnexpectedEOF).
Proof.
  intros Hff Hrs Hr Hk Hp. pose proof (decode_torn r k Hr Hk) as Ht.
  pose proof (decode_all_tail rs _ _ Hrs Ht) as Hd. unfold torn_error in Hd.
  unfold scanSegmentLastSeqNum, replaySegment, syscall_unit, syscall. unfold_M.
  rewrite Hff. simpl. rewrite Hp, Hd. by case_decide.
Qed.

(** A segment file of one whole record and nine bytes of the next. *)
Definition torn_world : world :=
  World {["wal/1.wal" := encs [demo_record x01] ++ take 9 (bytes_of_record (demo_record x02))]}
    (w_clock demo_world) 0 (w_faults demo_world) 0 (w_log demo_world).

Lemma demo_good d : good_record (demo_record d).
Proof. split; [|done]. unfold wf_record. split_and!; try done; by vm_compute. Qed.

Lemma torn_segment_witness :
  fst (scanSegmentLastSeqNum "wal/1.wal" torn_world) = Ok 0 ∧
  fst (replaySegment "wal/1.wal" torn_world) = Err ErrUnexpectedEOF.
Proof.
  apply (torn_segment torn_world "wal/1.wal" [demo_record x01] (demo_record x02) 9);
    [done|repeat constructor; apply demo_good|apply demo_good|vm_compute; lia|reflexivity].
Defined.

(** A corrupt length prefix crashes the reader: when the four length bytes
    read as [2^32 - 4] or more, [length+4] wraps around and slicing the buffer
    panics, so neither [Open] nor [Replay] returns an error a caller could
    handle. *)
Theorem decode_wrapped_length_panics n rest :
  2 ^ 32 - 4 ≤ n < 2 ^ 32 → n + 4 - 2 ^ 32 ≤ len rest →
  decodeRecord (PutUint32 n ++ rest) = Panic.
Proof.
  intros Hn Hl. unfold decodeRecord.
  rewrite ReadFull_app by (unfold PutUint32; by rewrite len_le_put).
  cbn [mbind result_bind]. rewrite le_get_put4 by lia.
  assert (E : u32 (n + 4) = n + 4 - 2 ^ 32).
  { unfold u32. symmetry. apply (Z.mod_unique_pos _ _ 1); lia. }
  rewrite E. unfold ReadFull. rewrite (proj2 (Z.leb_le _ _)) by lia. cbn [mbind result_bind].
  rewrite (slice_backwards _ n); [reflexivity|]. unfold len. rewrite length_take. lia.
Qed.

Lemma decode_wrapped_length_panics_witness :
  decodeRecord (PutUint32 (2 ^ 32 - 1) ++ [x00; x00; x00]) = Panic.
Proof. apply decode_wrapped_length_panics; [lia|]. vm_compute. discriminate. Defined.

(** ** Truncation *)
Definition kept (n : Z) (seg : segmentInfo) : bool := negb (si_lastSeqNum seg <? n).

Lemma runs_truncate_loop n segs remaining w Q :
  fault_free w → NoDup (si_path <$> segs) →
  Forall (λ seg, is_Some (w_files w !! si_path seg)) segs →
  (∀ m fs, (∀ p, (∀ seg, seg ∈ segs → kept n seg = false → p ≠ si_path seg) →
       fs !! p = w_files w !! p) →
     Q (remaining ++ filter (kept n) segs)
       (World fs (w_clock w) (w_ticks w) (w_faults w) m (w_log w))) →
  runs w (truncate_loop n segs remaining) Q.
Proof.
  revert remaining w. induction segs as [|seg segs IH]; intros remaining w Hff Hnd Hex H.
  { simpl. apply runs_ret. specialize (H (w_calls w) (w_files w)). rewrite app_nil_r in H.
    destruct w. by apply H. }
  inversion Hnd as [|? ? Hni Hnd']; inversion Hex as [|? ? [c Hc] Hex']; subst.
  cbn [truncate_loop]. destruct (kept n seg) eqn:Ek; pose proof Ek as Ek'; unfold kept in Ek';
    [apply negb_true_iff in Ek'|apply negb_false_iff in Ek']; rewrite Ek'.
  - rewrite filter_cons_True in H by (simpl; rewrite Ek; simpl; tauto). apply IH; [done..|]. intros m fs Hfs.
    rewrite <- app_assoc. apply H. intros p Hp. apply Hfs. intros. apply Hp; [by right|done].
  - rewrite filter_cons_False in H by (simpl; rewrite Ek; simpl; tauto). apply runs_bind, runs_syscall_unit; [done|]. intros m. apply runs_bind, runs_gets.
    simpl. rewrite Hc. apply runs_bind, runs_modify; [done|]. apply IH; [done..| |].
    + apply Forall_forall. intros s' Hs'. rewrite Forall_forall in Hex'. simpl.
      rewrite lookup_delete_ne; [by apply Hex'|]. intros E. apply Hni. rewrite E.
      by apply list_elem_of_fmap_2.
    + intros m' fs Hfs. apply H. intros p Hp. rewrite Hfs; [|intros; apply Hp; [by right|done]].
      simpl. apply lookup_delete_ne. intros E. by apply (Hp seg); [left|..].
Qed.

(** The records left after truncating a freshly opened log: those of the
    segments whose highest sequence number is at least [n]. *)
Definition truncated (n : Z) (rss : list (list Record_)) : list Record_ :=
  concat (filter (λ rs, negb (max_seq rs <? n)) rss).

Lemma truncated_sublist n rss : sublist (truncated n rss) (concat rss).
Proof.
  unfold truncated. induction rss as [|rs rss IH]; [constructor|]. rewrite filter_cons. cbn [concat].
  case_decide; cbn [concat]; [by apply sublist_app|by apply sublist_inserts_l].
Qed.

Lemma filter_none {A} (P : A → Prop) `{∀ x, Decision (P x)} (l : list A) :
  (∀ x, x ∈ l → ¬ P x) → filter P l = [].
Proof.
  induction l as [|x l IH]; intros Hl; [done|].
  rewrite filter_cons_False by (apply Hl; left). apply IH. intros y Hy. apply Hl. by right.
Qed.

Lemma truncated_filter n rss :
  filter (λ r, n ≤ SeqNum r) (truncated n rss) = filter (λ r, n ≤ SeqNum r) (concat rss).
Proof.
  unfold truncated. induction rss as [|rs rss IH]; [done|]. rewrite filter_cons. cbn [concat].
  case_decide as E; cbn [concat]; rewrite !filter_app; [by rewrite IH|].
  rewrite <- IH. destruct (Z.ltb_spec (max_seq rs) n) as [Hlt|]; [|by destruct E].
  rewrite (filter_none _ rs); [done|]. intros r Hin.
  pose proof (max_seq_bound rs 0 r Hin). unfold max_seq in Hlt. lia.
Qed.

Lemma NoDup_fmap_elem {A B} (f : A → B) (l : list A) x y :
  NoDup (f <$> l) → x ∈ l → y ∈ l → f x = f y → x = y.
Proof.
  intros Hnd Hx Hy E. apply list_elem_of_lookup in Hx as [i Hi], Hy as [j Hj].
  assert (i = j) as <-; [|congruence].
  eapply NoDup_lookup; [exact Hnd|rewrite list_lookup_fmap, Hi; done|].
  by rewrite list_lookup_fmap, Hj, E.
Qed.

(** The files of the kept segments hold the kept records. *)
Lemma kept_files n (f : string → option (list byte)) segs rss :
  Forall2 (λ seg rs, kept n seg → f (si_path seg) = Some (encs rs)) segs rss →
  si_lastSeqNum <$> segs = max_seq <$> rss →
  Forall2 (λ seg rs, f (si_path seg) = Some (encs rs)) (filter (kept n) segs)
    (filter (λ rs, negb (max_seq rs <? n)) rss).
Proof.
  induction 1 as [|seg rs segs rss Hp HF IH]; intros E; [constructor|].
  injection E as El E. rewrite !filter_cons. unfold kept in *. rewrite <- El.
  case_decide; [constructor|]; auto.
Qed.

(** Opening a disk, truncating and reading back. *)
Lemma runs_Open_Truncate hz cfg w paths rss n :
  fault_free w → on_disk hz (set_log (λ _, fresh_log cfg) w) paths rss →
  StronglySorted Z.lt (SeqNum <$> concat rss) →
  runs w (Open cfg;; Truncate n;; collectRecords) (λ out _, out = truncated n rss).
Proof.
  intros Hff Hod Hs. apply runs_bind. eapply runs_weaken; [by eapply runs_Open|].
  intros [] w1 Hf1 (_ & (s0 & Hs0 & Hb) & _ & _ & _ & Hlast & s & Hi).
  assert (Hff1 : fault_free w1) by by eapply fault_free_eq.
  destruct Hi as [Hcur Herr Hopen Hold (c & Hc & Hcb) _ Hgood Hpath Hck Htk _ Hord _].
  rewrite Hcur in Hs0. injection Hs0 as <-. rewrite Hb, app_nil_r in Hcb. subst c.
  rewrite app_nil_r in Hgood.
  assert (Hnd : NoDup (si_path <$> w_segments (w_log w1))).
  { destruct (opened_sorted hz w1 _ Hck Htk Hord) as [_ Hnd]. by apply NoDup_app in Hnd as [? _]. }
  apply runs_bind, runs_bind, runs_gets, runs_bind, runs_truncate_loop; [done| | |].
  - done.
  - apply Forall_forall. intros seg Hseg. apply list_elem_of_lookup in Hseg as [i Hsg].
    destruct (Forall2_lookup_l _ _ _ _ _ Hold Hsg) as (rs & _ & E). by exists (encs rs).
  - intros m fs Hfs. simpl. apply runs_modify; [done|]. simpl.
    unfold collectRecords. apply runs_bind, runs_gets, runs_bind. simpl.
    assert (HF : Forall2 (λ seg rs, fs !! si_path seg = Some (encs rs))
      (filter (kept n) (w_segments (w_log w1))) (filter (λ rs, negb (max_seq rs <? n)) rss)).
    { apply (kept_files n (λ p, fs !! p)); [|done]. apply Forall2_same_length_lookup. split.
      - by eapply Forall2_length.
      - intros i seg rs Hseg Hrs Hk. rewrite Hfs.
        + by apply (Forall2_lookup_lr _ _ _ _ _ _ Hold Hseg Hrs).
        + intros seg' Hin Hk' E.
          apply NoDup_fmap_elem with (l := w_segments (w_log w1)) in E; [|done| |done].
          * subst seg'. by rewrite Hk' in Hk.
          * by eapply list_elem_of_lookup_2. }
    apply (runs_replay_paths _ _ (filter (λ rs, negb (max_seq rs <? n)) rss));
      [done| |by apply Forall2_fmap_l|].
    { rewrite Forall_forall in *. intros r Hr. apply Hgood.
      eapply elem_of_sublist; [exact Hr|apply truncated_sublist]. }
    intros m2. apply runs_bind, runs_gets. simpl. rewrite Hcur.
    apply runs_bind. unfold bufio_Flush. rewrite Herr, Hb.
    apply runs_bind, runs_modify; [done|]. apply runs_ret, runs_bind.
    apply (runs_replaySegment _ _ []); [done| |done|].
    + simpl. rewrite Hfs; [done|]. intros seg Hin _ E. apply Hpath. rewrite E.
      by apply list_elem_of_fmap_2.
    + intros m3. apply runs_ret. by rewrite app_nil_r.
Qed.

(** Truncation of a reopened log keeps every record it was asked to keep:
    after any acknowledged history, a crash and a new [Open], [Truncate n]
    removes whole segments only, and of the records the log held none with a
    sequence number of [n] or more is lost, and none is reordered. *)
Theorem truncate_keeps_recent hz cfg w0 os l n :
  fault_free w0 → clock_ok hz w0 → no_segments (Dir cfg) w0 → SyncOnWrite cfg = true →
  Forall op_ok os → ops_cost os < 2 ^ 64 →
  Z.of_nat (w_ticks w0) + 2 * ops_cost os + 2 ≤ Z.of_nat hz →
  ∃ acked w1 all w2 out w3,
    (Open cfg;; run_ops os) w0 = (Ok acked, w1) ∧
    (Open cfg;; collectRecords) (crash w1 l) = (Ok all, w2) ∧ replayed all = acked ∧
    (Open cfg;; Truncate n;; collectRecords) (crash w1 l) = (Ok out, w3) ∧
    sublist out all ∧ filter (λ r, n ≤ SeqNum r) out = filter (λ r, n ≤ SeqNum r) all.
Proof.
  intros Hff Hck Hl Hsync Hok Hcost Htk.
  destruct (history_Ok hz cfg w0 os)
    as (out & w1 & ens & E & Hst & Hwf & Hpay & Hh1 & Hfl & Hd & Ht & Hff1 & _); [done..|].
  destruct (flushed_on_disk hz w1 _ cfg Hh1 (Hfl Hsync) Hd Ht) as (paths & rss & Hod & Hrss).
  assert (Hs : StronglySorted Z.lt (SeqNum <$> concat rss)) by (rewrite Hrss; apply Hh1).
  destruct (runs_Open_Truncate hz cfg (crash w1 l) paths rss n Hff1 Hod Hs)
    as (o & w3 & E3 & -> & _).
  assert (Hrun : runs (crash w1 l) (Open cfg;; collectRecords) (λ o _, o = concat rss)).
  { apply runs_bind. eapply runs_weaken; [by apply (runs_Open hz cfg (crash w1 l) paths rss)|].
    intros [] w3' Hf3 (Hh3 & _). eapply runs_weaken.
    - eapply runs_collect; [by eapply fault_free_eq|exact Hh3].
    - by intros o w4 _ [-> _]. }
  destruct Hrun as (o & w2 & E2 & -> & _).
  exists out, w1, (concat rss), w2, (truncated n rss), w3.
  split_and!; [done..| |done|apply truncated_sublist|apply truncated_filter].
  by rewrite Hrss, replayed_whole.
Qed.

Lemma truncate_keeps_recent_witness : ∃ acked w1 all w2 out w3,
  (Open demo_config;; run_ops demo_ops) demo_world = (Ok acked, w1) ∧
  (Open demo_config;; collectRecords) (crash w1 (w_log demo_world)) = (Ok all, w2) ∧
  replayed all = acked ∧
  (Open demo_config;; Truncate 4;; collectRecords) (crash w1 (w_log demo_world)) = (Ok out, w3) ∧
  sublist out all ∧ filter (λ r, 4 ≤ SeqNum r) out = filter (λ r, 4 ≤ SeqNum r) all.
Proof.
  apply (truncate_keeps_recent 100 demo_config demo_world demo_ops (w_log demo_world) 4);
    [exact demo_fault_free|exact demo_clock|exact demo_no_segments|reflexivity
    |exact demo_ops_ok|reflexivity|vm_compute; discriminate].
Defined.

(** On a log that has rotated since it was opened, [Truncate] loses live
    records: [rotate] registers a closed segment with last sequence number 0, so
    any [Truncate n] with [0 < n] deletes it whatever it holds. Here four records
    are acknowledged, all numbered 1 or more, so [Truncate 1] should delete
    nothing; replay afterwards returns one of them. *)
Theorem truncate_after_rotate_drops :
  let '(r, w1) := (Open demo_config;; run_ops demo_ops) demo_world in
  let '(r', _) := (Truncate 1;; Replay) w1 in
  ∃ acked out, r = Ok acked ∧ r' = Ok out ∧
    Forall (λ a, 1 ≤ SeqNum a) acked ∧ length acked = 4%nat ∧ length out = 1%nat.
Proof.
  vm_compute. eexists _, _. split_and!; [reflexivity|reflexivity|..|reflexivity|reflexivity].
  repeat constructor; discriminate.
Qed.

(** ** A batch that fails halfway *)
Lemma encodeRecord_long_name r :
  MaxUint16 < len (bytes_of_string (Collection r)) → encodeRecord r = Err ErrCollectionTooLong.
Proof.
  intros H. unfold encodeRecord, safeIntToUint16. rewrite Z.gtb_ltb.
  by rewrite (proj2 (Z.ltb_lt _ _) H), orb_true_r.
Qed.

Lemma log_one_long_name hz r w rs :
  holds hz w rs → MaxUint16 < len (bytes_of_string (Collection r)) →
  w_lastSeqNum (w_log w) + 1 < 2 ^ 64 → (w_ticks w < hz)%nat →
  ∃ w', log_one r w = (Err ErrCollectionTooLong, w') ∧ holds hz w' rs ∧
    w_lastSeqNum (w_log w') = w_lastSeqNum (w_log w) + 1 ∧ w_ticks w' = S (w_ticks w) ∧
    w_faults w' = w_faults w.
Proof.
  intros Hh Hlong Hq Htk. unfold log_one.
  destruct (nextSeqNum w) as [[n| |] w1] eqn:E1; [|done..].
  rewrite (M_bind_run _ _ _ _ _ E1).
  assert (Hf1 : w_faults w1 = w_faults w) by (unfold nextSeqNum in E1; unfold_M; by simplify_eq).
  eapply nextSeqNum_Ok in E1 as (Hh1 & -> & Hs1 & _ & Ht1); [|done..].
  destruct (UnixNano w1) as [[t| |] w2] eqn:E2; [|done..].
  rewrite (M_bind_run _ _ _ _ _ E2).
  assert (Hf2 : w_faults w2 = w_faults w1) by (unfold UnixNano in E2; by simplify_eq).
  eapply UnixNano_Ok in E2 as (Hh2 & _ & Hs2 & Ht2); [|done|lia].
  exists w2. unfold lift, mbind, M_bind. rewrite encodeRecord_long_name by done.
  split_and!; [done..|lia|lia|congruence].
Qed.

Lemma runs_marker hz w rs t n :
  fault_free w → holds hz w rs → 0 ≤ t < 256 → w_lastSeqNum (w_log w) + 1 < 2 ^ 64 →
  (w_ticks w + 2 ≤ hz)%nat →
  runs w (log_one (marker t n)) (λ b w', Type_ b = t ∧ holds hz w' (rs ++ [b]) ∧
    w_lastSeqNum (w_log w') = w_lastSeqNum (w_log w) + 1 ∧ (w_ticks w' ≤ w_ticks w + 2)%nat).
Proof.
  intros Hff Hh Ht Hq Htk.
  destruct (runs_log_one w (marker t n) Hff (holds_live _ _ _ Hh)) as (b & w' & E & _ & Hf).
  { apply marker_encodable. }
  exists b, w'. split_and!; [done|..|done].
  all: eapply log_one_Ok in E as (Hh1 & Ht1 & ts & _ & -> & Hs1); [|done|done|apply marker_fits|done|done].
  all: done.
Qed.

(** A batch that fails halfway hides later acknowledged writes: after any
    acknowledged history, a [WriteBatch] whose first record has a collection
    name over 65535 bytes returns an error and leaves its begin marker in the
    log; a following [Write] is acknowledged, but [Replay] takes it for a member
    of the unfinished batch and does not return it. *)
Theorem failed_batch_hides_write hz cfg w0 os bad rest r :
  fault_free w0 → clock_ok hz w0 → no_segments (Dir cfg) w0 →
  Forall op_ok os → op_ok (OpWrite r) → ops_cost os + 3 < 2 ^ 64 →
  MaxUint16 < len (bytes_of_string (Collection bad)) →
  Z.of_nat (w_ticks w0) + 2 * ops_cost os + 7 ≤ Z.of_nat hz →
  ∃ acked w1 w2 r' w3 w4,
    (Open cfg;; run_ops os) w0 = (Ok acked, w1) ∧
    WriteBatch (bad :: rest) w1 = (Err ErrCollectionTooLong, w2) ∧
    Write r w2 = (Ok r', w3) ∧ Replay w3 = (Ok acked, w4).
Proof.
  intros Hff Hck Hl Hok [Hr _] Hcost Hbad Htk. inversion Hr as [|? ? [Hdr He] _]; subst.
  destruct (history_Ok hz cfg w0 os)
    as (out & w1 & ens & E & _ & Hwf & Hpay & Hh1 & _ & _ & _ & Hff1 & Hq1 & Ht1); [done..|lia|lia|].
  destruct (runs_marker hz w1 _ RecordTypeBatchBegin (len (bad :: rest)) Hff1 Hh1)
    as (b & w1b & Eb & (Hb & Hhb & Hqb & Htb) & Hfb); [done|lia|lia|].
  destruct (log_one_long_name hz bad w1b _ Hhb Hbad) as (w2 & E2 & Hh2 & Hq2 & Ht2 & Hf2);
    [lia|lia|].
  assert (Hff2 : fault_free w2) by (eapply fault_free_eq; [|exact Hff1]; congruence).
  destruct (runs_Write w2 r Hff2 (holds_live _ _ _ Hh2) He) as (r' & w3 & E3 & _ & Hf3).
  pose proof E3 as E3'.
  eapply Write_Ok in E3' as (Hh3 & _ & ts & _ & -> & _); [|done..|lia|lia].
  eapply runs_Replay in Hh3 as (o & w4 & E4 & [-> _] & _); [|by eapply fault_free_eq].
  eexists out, w1, w2, _, w3, w4. split_and!; [done| |done|].
  - unfold WriteBatch. rewrite (M_bind_run _ _ _ _ _ Eb). by apply M_bind_Err, M_bind_Err.
  - rewrite E4, <- app_assoc, replayed_entries, Hpay by done.
    simpl. rewrite replayed_open_batch; [by rewrite app_nil_r|done|].
    constructor; [|done]. by destruct Hdr as (_ & ? & ? & _).
Qed.

Fixpoint long_name (n : nat) : string :=
  match n with O => "" | S n => String "a" (long_name n) end.

Lemma len_long_name n : len (bytes_of_string (long_name n)) = Z.of_nat n.
Proof.
  unfold len, bytes_of_string, String.list_byte_of_string. rewrite length_map.
  induction n as [|n IH]; [done|]. simpl. lia.
Qed.

Lemma failed_batch_hides_write_witness : ∃ acked w1 w2 r' w3 w4,
  (Open demo_config;; run_ops demo_ops) demo_world = (Ok acked, w1) ∧
  WriteBatch [Record 0 RecordTypeInsert (long_name (Z.to_nat 65536)) [] 0] w1 =
    (Err ErrCollectionTooLong, w2) ∧
  Write (demo_record x05) w2 = (Ok r', w3) ∧ Replay w3 = (Ok acked, w4).
Proof.
  apply (failed_batch_hides_write 100 demo_config demo_world demo_ops
    (Record 0 RecordTypeInsert (long_name (Z.to_nat 65536)) [] 0) [] (demo_record x05));
    [exact demo_fault_free|exact demo_clock|exact demo_no_segments|exact demo_ops_ok| | |
    |vm_compute; discriminate].
  - apply (bool_decide_unpack _). by vm_compute.
  - reflexivity.
  - cbn [Collection]. rewrite len_long_name. unfold MaxUint16. lia.
Defined.
