(* ===== verification/WalBatch.v ===== *)
(** * pkg/storage/wal: a crash in the middle of a batch

    [WriteBatch] runs with any outcome of its system calls: a call that fails,
    after writing some of its bytes, is where the machine stops. What the files
    hold then is all that was acknowledged, followed by a first part of the batch,
    cut at any byte. *)
From stdpp Require Import base gmap strings list fin_maps numbers sorting.
From Stdlib Require Import Ascii Strings.Byte ZArith Lia.
From S2P Require Import Prelude Crc32 WalCodec WalLog WalProofs WalRecovery WalTheorems.

#[local] Open Scope Z_scope.

(** ** Buffered writes that fail *)
Lemma append_cases path p w c :
  w_files w !! path = Some c →
  ∃ n ok w', file_append path false p w = (Ok (n, ok), w') ∧ (n ≤ length p)%nat ∧
    (ok = true → n = length p) ∧
    moves w w' (<[path := c ++ take n p]> (w_files w)) (w_ticks w) (w_log w).
Proof.
  intros Hc. assert (Hf : ∀ q, alter (λ x, x ++ q) path (w_files w) = <[path := c ++ q]> (w_files w)).
  { intros q. apply map_eq. intros i. rewrite lookup_alter, lookup_insert. case_decide; subst; by rewrite ?Hc. }
  unfold file_append, syscall. unfold_M. destruct (w_faults w (w_calls w)) as [k|]; simpl.
  - eexists _, _, _. split; [reflexivity|]. split; [lia|]. split; [done|].
    exists (S (w_calls w)). unfold set_files; simpl. by rewrite Hf.
  - eexists _, _, _. split; [reflexivity|]. split; [lia|]. split; [done|].
    exists (S (w_calls w)). unfold set_files; simpl. by rewrite Hf, firstn_all.
Qed.

(** A failed flush has put some of the buffer into the file. *)
Lemma flush_cases s w c :
  seg_err s = false → seg_closed s = false → w_files w !! seg_path s = Some c →
  (∃ w', bufio_Flush s w = (Ok (with_buf s [] false), w') ∧
     moves w w' (<[seg_path s := c ++ seg_buf s]> (w_files w)) (w_ticks w)
       (set_current (Some (with_buf s [] false)) (w_log w))) ∨
  (∃ e n s' w', bufio_Flush s w = (Err e, w') ∧
     moves w w' (<[seg_path s := c ++ take n (seg_buf s)]> (w_files w)) (w_ticks w)
       (set_current (Some s') (w_log w))).
Proof.
  intros He Hcl Hc. destruct (bufio_Flush s w) as [[s'|e|] w'] eqn:E.
  - left. exists w'. pose proof E as E'. apply flush_Ok with (c := c) in E' as [-> H]; [|done..]. done.
  - right. unfold bufio_Flush in E. rewrite He in E. destruct (seg_buf s) as [|b buf] eqn:Eb; [by unfold_M|].
    rewrite Hcl in E.
    destruct (append_cases (seg_path s) (b :: buf) w c Hc) as (n & ok & w1 & Ea & _ & _ & [m Hw1]).
    rewrite (M_bind_run _ _ _ _ _ Ea) in E. cbv beta iota in E. unfold modify, throw, mret, M_ret, mbind, M_bind in E.
    destruct ok; [simplify_eq|]. injection E as <- <-. eexists _, n, _, _. split; [reflexivity|].
    exists m. by rewrite Hw1.
  - exfalso. unfold bufio_Flush in E. rewrite He in E. destruct (seg_buf s) as [|b buf] eqn:Eb; [by unfold_M|].
    rewrite Hcl in E.
    destruct (append_cases (seg_path s) (b :: buf) w c Hc) as (n & ok & w1 & Ea & _).
    rewrite (M_bind_run _ _ _ _ _ Ea) in E. cbv beta iota in E. unfold modify, throw, mret, M_ret, mbind, M_bind in E.
    by destruct ok.
Qed.

(** A file after a write that failed: some of what was to be written came after
    what was there. *)
Definition partly (c full c' : list byte) : Prop := c `prefix_of` c' ∧ c' `prefix_of` full.

Lemma partly_take c p n : partly c (c ++ p) (c ++ take n p).
Proof. split; [by eexists|]. exists (drop n p). by rewrite <- app_assoc, take_drop. Qed.

(** The same file, clock and directory, at most [k] more readings of the clock *)
Definition left_at (w w' : world) (k : nat) (path : string) (c' : list byte) : Prop :=
  ∃ n tk l, w' = World (<[path := c']> (w_files w)) (w_clock w) tk (w_faults w) n l ∧
    w_dir l = w_dir (w_log w) ∧ (w_ticks w ≤ tk ≤ w_ticks w + k)%nat.

Lemma left_moves w w' path c' s :
  moves w w' (<[path := c']> (w_files w)) (w_ticks w) (set_current (Some s) (w_log w)) →
  left_at w w' 0 path c'.
Proof. intros [n ->]. eexists _, _, _. split_and!; [done|done|lia|lia]. Qed.

Lemma loop_cases fuel s p w c :
  (match seg_buf s with [] => 2 | _ => 3 end ≤ fuel)%nat →
  seg_err s = false → seg_closed s = false → w_files w !! seg_path s = Some c →
  (∃ s' w', bufio_Write_loop fuel s p w = (Ok s', w')) ∨
  (∃ e w' c', bufio_Write_loop fuel s p w = (Err e, w') ∧
     partly c (c ++ seg_buf s ++ p) c' ∧ left_at w w' 0 (seg_path s) c').
Proof.
  assert (Hempty : ∀ fuel s p w c, seg_buf s = [] → seg_err s = false → seg_closed s = false →
    w_files w !! seg_path s = Some c →
    (∃ s' w', bufio_Write_loop (S (S fuel)) s p w = (Ok s', w')) ∨
    (∃ e w' c', bufio_Write_loop (S (S fuel)) s p w = (Err e, w') ∧
       partly c (c ++ p) c' ∧ left_at w w' 0 (seg_path s) c')).
  { clear. intros fuel s p w c Hb He Hcl Hc. cbn [bufio_Write_loop]. rewrite He, Hb.
    destruct (_ <=? _) eqn:Hfit; [left; unfold_M; by eexists _, _|]. rewrite Hcl.
    destruct (append_cases (seg_path s) p w c Hc) as (n & ok & w1 & Ea & _ & Hok & [m Hw1]).
    rewrite (M_bind_run _ _ _ _ _ Ea). cbv beta iota. destruct ok.
    - rewrite Hok by done. rewrite drop_all. cbn. left. by eexists _, _.
    - right. cbn. eexists _, _, _. split; [reflexivity|]. split; [apply partly_take|].
      rewrite Hw1. eexists _, _, _. split_and!; [reflexivity|done|simpl; lia..]. }
  intros Hfuel He Hcl Hc. destruct (seg_buf s) as [|b buf] eqn:Eb.
  { destruct fuel as [|[|fuel]]; [lia..|]. by apply Hempty. }
  destruct fuel as [|[|[|fuel]]]; [lia..|]. remember (S (S fuel)) as f eqn:Ef. cbn [bufio_Write_loop].
  rewrite He, Eb. destruct (_ <=? _); [left; unfold_M; by eexists _, _|].
  set (k := Z.to_nat _). set (s1 := with_buf s ((b :: buf) ++ take k p) false).
  destruct (flush_cases s1 w c eq_refl Hcl Hc) as [(w1 & E & [m Hw1])|(e & n & s' & w1 & E & Hw1)].
  - rewrite (M_bind_run _ _ _ _ _ E), Ef.
    destruct (Hempty fuel (with_buf s1 [] false) (drop k p) w1 (c ++ (b :: buf) ++ take k p))
      as [H|(e & w' & c' & E' & [H1 H2] & H3)]; [done..| |by left|].
    { rewrite Hw1. unfold s1. simpl. by rewrite lookup_insert_eq. }
    right. exists e, w', c'. split; [done|]. split.
    + split; [etrans; [|exact H1]; by eexists|]. rewrite <- !app_assoc, take_drop in H2. done.
    + destruct H3 as (n & tk & l & -> & Hd & Ht). rewrite Hw1 in *. simpl in *.
      exists n, tk, l. by rewrite insert_insert_eq.
  - right. rewrite (M_bind_Err _ _ _ _ _ E). eexists e, w1, _. split; [reflexivity|]. split.
    + unfold s1. cbn [with_buf seg_buf]. destruct (partly_take c ((b :: buf) ++ take k p) n) as [H1 H2].
      split; [exact H1|]. etrans; [exact H2|]. exists (drop k p). by rewrite <- !app_assoc, take_drop.
    + by apply left_moves with s'.
Qed.

(** A file only grows. *)
Lemma flush_grows s w s' w' c :
  seg_closed s = false → w_files w !! seg_path s = Some c → bufio_Flush s w = (Ok s', w') →
  seg_path s' = seg_path s ∧ seg_closed s' = false ∧ ∃ d, w_files w' !! seg_path s = Some (c ++ d).
Proof.
  intros Hcl Hc E. destruct (seg_err s) eqn:He.
  - unfold bufio_Flush in E. rewrite He in E. by unfold_M.
  - apply flush_Ok with (c := c) in E as [-> [n ->]]; [|done..]. simpl. rewrite lookup_insert_eq. eauto.
Qed.

Lemma loop_grows fuel s p w s' w' c :
  seg_closed s = false → w_files w !! seg_path s = Some c →
  bufio_Write_loop fuel s p w = (Ok s', w') → ∃ d, w_files w' !! seg_path s = Some (c ++ d).
Proof.
  revert s p w c. induction fuel as [|fuel IH]; intros s p w c Hcl Hc E; cbn [bufio_Write_loop] in E; [by unfold_M|].
  destruct (seg_err s) eqn:He; [by unfold_M|].
  destruct (_ <=? _); [unfold_M; simplify_eq; exists []; by rewrite app_nil_r|].
  destruct (seg_buf s) eqn:Eb.
  - rewrite Hcl in E. destruct (append_cases (seg_path s) p w c Hc) as (n & ok & w1 & Ea & _ & _ & [m Hw1]).
    rewrite (M_bind_run _ _ _ _ _ Ea) in E. cbv beta iota in E.
    apply (IH (with_buf s [] (negb ok)) _ _ (c ++ take n p)) in E as [d E]; [|done|by rewrite Hw1; simpl; rewrite lookup_insert_eq].
    simpl in E. eexists. by rewrite E, <- app_assoc.
  - minv E as s1 w1 Ef. apply flush_grows with (c := c) in Ef as (Hp1 & Hc1 & d1 & Hf1); [|done..]. simpl in Hp1, Hf1.
    rewrite <- Hp1 in Hf1. apply (IH _ _ _ _ Hc1 Hf1) in E as [d E]. rewrite Hp1 in E. eexists. by rewrite E, <- app_assoc.
Qed.

(** ** A log cut off

    The segments [ps] hold [rss]; the last one, [p], holds [c], a first part of
    the records [cur]. *)
Section horizon.
Context (hz : nat).

Record torn (w : world) (ps : list string) (rss : list (list Record_)) (p : string)
    (c : list byte) (cur : list Record_) : Prop := Torn {
  to_old : Forall2 (λ p rs, w_files w !! p = Some (encs rs)) ps rss;
  to_file : w_files w !! p = Some c;
  to_prefix : c `prefix_of` encs cur;
  to_good : Forall good_record (concat rss ++ cur);
  to_path : p ∉ ps;
  to_clock : clock_ok hz w;
  to_fresh : ∀ n, (w_ticks w ≤ n < hz)%nat → w_files w !! seg_path_at w (w_clock w n) = None;
  to_order : opened_in_order w (ps ++ [p]);
  to_dir : ∀ q, is_Some (w_files w !! q) → listed (w_dir (w_log w)) q → q ∈ ps ++ [p]
}.

(** [rs] was to be in the log; at least its first [N] bytes are. *)
Definition cut (w : world) (rs : list Record_) (N : Z) : Prop :=
  ∃ ps rss p c cur, torn w ps rss p c cur ∧ concat rss ++ cur = rs ∧
    N ≤ len (encs (concat rss)) + len c.

(** The log holds [rs], and its first [N] bytes are in the files. *)
Definition stored (w : world) (rs : list Record_) (N : Z) : Prop :=
  ∃ rss cur s c, log_inv hz w rss cur s ∧ concat rss ++ cur = rs ∧
    w_files w !! seg_path s = Some c ∧ N ≤ len (encs (concat rss)) + len c.

Lemma len_prefix {A} (a b : list A) : a `prefix_of` b → len a ≤ len b.
Proof. intros [k ->]. rewrite len_app. pose proof (len_nonneg k). lia. Qed.

Lemma log_file w rss cur s c :
  log_inv hz w rss cur s → w_files w !! seg_path s = Some c →
  c ++ seg_buf s = encs cur ∧ c `prefix_of` encs cur.
Proof.
  intros Hi Hc. destruct (li_file _ _ _ _ _ Hi) as (c' & Hc' & E). rewrite Hc in Hc'. injection Hc' as <-.
  split; [done|]. by exists (seg_buf s).
Qed.

Lemma torn_left w w' rss cur cur' s c c' k :
  log_inv hz w rss cur s → w_files w !! seg_path s = Some c → left_at w w' k (seg_path s) c' →
  c' `prefix_of` encs cur' → Forall good_record (concat rss ++ cur') →
  torn w' (si_path <$> w_segments (w_log w)) rss (seg_path s) c' cur'.
Proof.
  intros [Hcur Herr Hopen Hold _ _ _ Hpath Hclk Htk Hfresh Hord Hdir] Hc (n & tk & l & -> & Hd & Ht) Hp Hg.
  constructor; simpl; rewrite ?Hd; try done.
  - apply Forall2_fmap_l. by apply old_segments_insert.
  - by rewrite lookup_insert_eq.
  - intros m Hm. rewrite lookup_insert_ne.
    + unfold seg_path_at. simpl. rewrite Hd. apply Hfresh. lia.
    + intros E. specialize (Hfresh m ltac:(lia)). unfold seg_path_at in *. simpl in *. rewrite Hd in E. congruence.
  - by apply (opened_weaken w); [done|simpl; lia|..].
  - apply dir_insert; [|done]. apply elem_of_app. right. by apply list_elem_of_singleton.
Qed.

(** A stored log, as a crash finds it *)
Lemma stored_cut w rs N : stored w rs N → cut w rs N.
Proof.
  intros (rss & cur & s & c & Hi & Hrs & Hc & HN).
  exists (si_path <$> w_segments (w_log w)), rss, (seg_path s), c, cur. split_and!; [|done|done].
  eapply (torn_left w w rss cur cur s c c 0 Hi Hc).
  - exists (w_calls w), (w_ticks w), (w_log w). rewrite insert_id by done. split_and!; [by destruct w|done|lia|lia].
  - by apply (log_file w rss cur s c Hi Hc).
  - apply Hi.
Qed.

Lemma cut_left w w' rss cur cur' s c full c' k N :
  log_inv hz w rss cur s → w_files w !! seg_path s = Some c → left_at w w' k (seg_path s) c' →
  partly c full c' → full = encs cur' → Forall good_record (concat rss ++ cur') →
  N ≤ len (encs (concat rss)) + len c → cut w' (concat rss ++ cur') N.
Proof.
  intros Hi Hc Hl [H1 H2] -> Hg HN. eexists _, _, _, _, _. split; [by eapply torn_left|]. split; [done|].
  apply len_prefix in H1. lia.
Qed.

Lemma left_trans w w1 w2 k1 k2 p c1 c2 :
  left_at w w1 k1 p c1 → left_at w1 w2 k2 p c2 → left_at w w2 (k1 + k2) p c2.
Proof.
  intros (n1 & t1 & l1 & -> & Hd1 & Ht1) (n2 & t2 & l2 & -> & Hd2 & Ht2). simpl in *.
  exists n2, t2, l2. rewrite insert_insert_eq. split_and!; [done|congruence|lia|lia].
Qed.
Lemma left_same w n l p c :
  w_files w !! p = Some c → w_dir l = w_dir (w_log w) →
  left_at w (World (w_files w) (w_clock w) (w_ticks w) (w_faults w) n l) 0 p c.
Proof. intros Hc Hd. exists n, (w_ticks w), l. rewrite insert_id by done. split_and!; [done|done|lia|lia]. Qed.

(** Rotation succeeds, or the full segment stays the last one. *)
Lemma rotate_cases w rss cur s c :
  log_inv hz w rss cur s → w_files w !! seg_path s = Some c → (w_ticks w < hz)%nat →
  (∃ w', rotate w = (Ok tt, w')) ∨
  ∃ e w' c', rotate w = (Err e, w') ∧ partly c (encs cur) c' ∧ left_at w w' 1 (seg_path s) c'.
Proof.
  intros Hi Hc Hlt. pose proof (log_file _ _ _ _ _ Hi Hc) as [Hcb _].
  destruct Hi as [Hcur Herr Hopen _ _ _ _ _ _ _ _ _ _].
  assert (Hfull : partly c (encs cur) (encs cur)) by (rewrite <- Hcb; split; [by eexists|done]).
  assert (Hleft : ∀ w1 w2 k1 k2 e, rotate w = (Err e, w2) → left_at w w1 k1 (seg_path s) (encs cur) →
    left_at w1 w2 k2 (seg_path s) (encs cur) → (k1 + k2 ≤ 1)%nat →
    ∃ e w' c', rotate w = (Err e, w') ∧ partly c (encs cur) c' ∧ left_at w w' 1 (seg_path s) c').
  { intros w1 w2 k1 k2 e E H1 H2 Hk. exists e, w2, (encs cur). split; [done|]. split; [done|].
    destruct (left_trans _ _ _ _ _ _ _ _ H1 H2) as (n & tk & l & -> & Hd & Ht). exists n, tk, l.
    split_and!; [done|done|lia|lia]. }
  destruct (flush_cases s w c Herr Hopen Hc) as [(w1 & E1 & Hm1)|(e & n & s' & w1 & E1 & Hm1)].
  2: { right. eexists e, w1, _. split; [|split].
       - unfold rotate, gets, mbind, M_bind. rewrite Hcur, E1. reflexivity.
       - rewrite <- Hcb. apply partly_take.
       - destruct (left_moves _ _ _ _ _ Hm1) as (n' & tk & l & -> & Hd & Ht). exists n', tk, l. split_and!; [done|done|lia|lia]. }
  rewrite Hcb in Hm1. pose proof (left_moves _ _ _ _ _ Hm1) as Hl1.
  assert (Hf1 : w_files w1 !! seg_path s = Some (encs cur)) by (destruct Hm1 as [n ->]; simpl; by rewrite lookup_insert_eq).
  assert (Hrot : rotate w = (file_Sync (with_buf s [] false);; file_Close (with_buf s [] false);;
    modify (set_log (λ l, set_segments (w_segments l ++ [SegmentInfo (seg_path s) 0 (seg_size s)]) l));;
    openCurrentSegment) w1).
  { unfold rotate, gets, mbind, M_bind. rewrite Hcur, E1. cbn.
    destruct (file_Sync _ w1) as [[]]; [|done..]. by destruct (file_Close _ _) as [[]]. }
  unfold file_Sync, file_Close, openCurrentSegment, syscall_unit, syscall, UnixNano in Hrot. unfold_M.
  cbn [with_buf seg_closed] in Hrot. rewrite Hopen in Hrot. cbn in Hrot.
  destruct (w_faults w1 (w_calls w1)); cbn in Hrot; [right; eapply (Hleft w1); [exact Hrot|exact Hl1|by apply left_same|lia]|].
  destruct (w_faults w1 (S (w_calls w1))); cbn in Hrot; [right; eapply (Hleft w1); [exact Hrot|exact Hl1|by apply left_same|lia]|].
  destruct (w_faults w1 (S (S (w_calls w1)))); cbn in Hrot; [right|left; by eexists].
  eapply (Hleft w1 _ 0%nat 1%nat); [exact Hrot|exact Hl1| |lia].
  unfold left_at. rewrite insert_id by done. eexists _, _, _. split_and!; [reflexivity|done|simpl; lia..].
Qed.

(** ** Appending records that may fail *)
Definition outcome {A} (m : W A) (w : world) (Q : A → world → Prop) (R : world → Prop) : Prop :=
  match m w with (Ok a, w') => Q a w' | (Err _, w') => R w' | (Panic, _) => False end.

Lemma outcome_bind {A B} (m : W A) (f : A → W B) w Q Q' (R : world → Prop) :
  outcome m w Q R → (∀ a w', Q a w' → outcome (f a) w' Q' R) → outcome (m ≫= f) w Q' R.
Proof.
  unfold outcome, mbind, M_bind. destruct (m w) as [[a|e|] w']; [|done..]. intros H Hf. by apply Hf.
Qed.

Lemma outcome_weaken {A} (m : W A) w (Q Q' : A → world → Prop) (R R' : world → Prop) :
  outcome m w Q R → (∀ a w', Q a w' → Q' a w') → (∀ w', R w' → R' w') → outcome m w Q' R'.
Proof. unfold outcome. destruct (m w) as [[a|e|] w']; auto. Qed.

(** What a failure leaves: with or without the record that was being written *)
Definition cut_at (rs : list Record_) (r : Record_) (N : Z) (w : world) : Prop :=
  cut w rs N ∨ cut w (rs ++ [r]) N.

Lemma stored_rotate w rss cur s c N :
  log_inv hz w rss cur s → w_files w !! seg_path s = Some c → (w_ticks w < hz)%nat →
  N ≤ len (encs (concat rss)) + len c →
  outcome rotate w
    (λ _ w', ∃ s', log_inv hz w' (rss ++ [cur]) [] s' ∧ w_lastSeqNum (w_log w') = w_lastSeqNum (w_log w) ∧
       w_ticks w' = S (w_ticks w) ∧ w_files w' !! seg_path s' = Some [] ∧
       N ≤ len (encs (concat (rss ++ [cur]))))
    (λ w', cut w' (concat rss ++ cur) N).
Proof.
  intros Hi Hc Ht HN. pose proof (log_file _ _ _ _ _ Hi Hc) as [_ Hp%len_prefix]. unfold outcome.
  destruct (rotate_cases w rss cur s c Hi Hc Ht) as [(w' & E)|(e & w' & c' & E & Hpart & Hl)]; rewrite E.
  - apply rotate_Ok with (rss := rss) (cur := cur) (s := s) (hz := hz) in E as (s' & Hi' & Hs & Ht'); [|done..].
    exists s'. split_and!; [done..| |].
    + destruct (li_file _ _ _ _ _ Hi') as (c' & Hc' & E'). by apply app_eq_nil in E' as [-> _].
    + rewrite concat_app. cbn [concat]. rewrite app_nil_r, encs_app, len_app. lia.
  - eapply cut_left; [exact Hi|exact Hc|exact Hl|exact Hpart|done|apply Hi|done].
Qed.

Lemma current_run w s : w_current (w_log w) = Some s → current w = (Ok s, w).
Proof. intros H. unfold current, gets, mbind, M_bind. by rewrite H. Qed.

Lemma stored_write w rss cur s c r N :
  log_inv hz w rss cur s → w_files w !! seg_path s = Some c → good_record r →
  N ≤ len (encs (concat rss)) + len c →
  outcome (s ← current; s ← bufio_Write s (bytes_of_record r);
           modify (set_log (set_current (Some (Segment (seg_path s) (seg_buf s) (seg_err s) (seg_closed s)
             (seg_size s + len (bytes_of_record r))))))) w
    (λ _ w', stored w' ((concat rss ++ cur) ++ [r]) N ∧
       w_lastSeqNum (w_log w') = w_lastSeqNum (w_log w) ∧ w_ticks w' = w_ticks w)
    (cut_at (concat rss ++ cur) r N).
Proof.
  intros Hi Hc Hr HN. pose proof (log_file _ _ _ _ _ Hi Hc) as [Hcb Hpre].
  pose proof Hi as [Hcur Herr Hopen _ _ _ _ _ _ _ _ _ _].
  unfold outcome. rewrite (M_bind_run _ _ _ _ _ (current_run w s Hcur)).
  destruct (loop_cases 4 s (bytes_of_record r) w c) as [(s' & w1 & E)|(e & w' & c' & E & Hpart & Hl)]; [destruct (seg_buf s); lia|done..| |].
  - rewrite (M_bind_run _ _ _ _ _ E). cbn. pose proof (loop_grows _ _ _ _ _ _ c Hopen Hc E) as [d Hgrow].
    apply bufio_Write_loop_Ok with (c := c) in E as (c' & b' & Ecb & -> & [n ->]); [|done..]. cbn.
    destruct Hi as [_ _ _ Hold _ Hsize Hgood Hpath Hclk Htk Hfresh Hord Hdir].
    split_and!; [|done|done]. eexists rss, (cur ++ [r]), _, c'. split_and!; [|by rewrite app_assoc|..].
    + constructor; simpl; try done.
      * by apply old_segments_insert.
      * exists c'. rewrite lookup_insert_eq, encs_snoc. split; [done|]. simpl. by rewrite Ecb, app_assoc, Hcb.
      * rewrite encs_snoc, len_app, Hsize. done.
      * rewrite app_assoc. apply Forall_app_2; [done|by constructor].
      * intros m Hm. rewrite lookup_insert_ne; [by apply Hfresh|].
        intros E. specialize (Hfresh m Hm). unfold seg_path_at in *. simpl in *. congruence.
      * apply dir_insert; [|done]. apply elem_of_app. right. by apply list_elem_of_singleton.
    + simpl. by rewrite lookup_insert_eq.
    + simpl in Hgrow. rewrite lookup_insert_eq in Hgrow. injection Hgrow as ->. rewrite len_app.
      pose proof (len_nonneg d). lia.
  - rewrite (M_bind_Err _ _ _ _ _ E). right. rewrite <- app_assoc.
    rewrite app_assoc, Hcb, <- encs_snoc in Hpart.
    eapply cut_left; [exact Hi|exact Hc|exact Hl|exact Hpart|done| |done].
    rewrite app_assoc. apply Forall_app_2; [apply Hi|by constructor].
Qed.

Lemma stored_append w rs r N :
  stored w rs N → good_record r → (w_ticks w < hz)%nat →
  outcome (append_data (bytes_of_record r)) w
    (λ _ w', stored w' (rs ++ [r]) N ∧ w_lastSeqNum (w_log w') = w_lastSeqNum (w_log w) ∧
       (w_ticks w' ≤ S (w_ticks w))%nat)
    (cut_at rs r N).
Proof.
  intros (rss & cur & s & c & Hi & <- & Hc & HN) Hr Ht. pose proof (li_cur _ _ _ _ _ Hi) as Hcur.
  unfold append_data. eapply outcome_bind with (Q := λ s' w', s' = s ∧ w' = w).
  { unfold outcome. by rewrite (current_run w s Hcur). }
  intros s' ? [-> ->]. eapply outcome_bind with (Q := λ _ w', w' = w); [by unfold outcome|]. intros size ? ->.
  unfold when. destruct (_ >? _).
  - eapply outcome_bind.
    { eapply outcome_weaken; [by apply (stored_rotate w rss cur s c N)| |]; [intros a w' H; exact H|by left]. }
    intros [] w1 (s1 & Hi1 & Hs1 & Ht1 & Hc1 & HN1).
    eapply outcome_weaken; [apply (stored_write w1 (rss ++ [cur]) [] s1 [] r N); [done..|]| |].
    + change (len (@nil byte)) with 0. lia.
    + intros _ w2 (H & Hs2 & Ht2). rewrite concat_app in H. cbn [concat] in H. rewrite !app_nil_r in H.
      split_and!; [done|congruence|lia].
    + intros w2 H. rewrite concat_app in H. cbn [concat] in H. by rewrite !app_nil_r in H.
  - eapply outcome_bind with (Q := λ _ w', w' = w); [by unfold outcome|]. intros [] ? ->.
    eapply outcome_weaken; [by apply (stored_write w rss cur s c r N)| |done].
    intros _ w2 (H & Hs2 & Ht2). split_and!; [done|done|lia].
Qed.

Lemma stored_frame w w' rs N :
  w_files w' = w_files w → w_clock w' = w_clock w → (w_ticks w ≤ w_ticks w' ≤ hz)%nat →
  w_dir (w_log w') = w_dir (w_log w) → w_current (w_log w') = w_current (w_log w) →
  w_segments (w_log w') = w_segments (w_log w) → stored w rs N → stored w' rs N.
Proof.
  intros Hf Hc Ht Hd Hcu Hs (rss & cur & s & c & Hi & Hrs & Hfile & HN).
  exists rss, cur, s, c. rewrite Hf. split_and!; [|done..].
  destruct Hi as [? ? ? ? ? ? ? ? [? ?] ? Hfr ? ?].
  constructor; rewrite ?Hf, ?Hc, ?Hcu, ?Hs, ?Hd; try done.
  - split; by rewrite Hc.
  - lia.
  - intros n Hn. unfold seg_path_at. rewrite Hd. apply Hfr. lia.
  - apply (opened_weaken w); [done|lia|done|done].
Qed.

Lemma stored_clock w rs N i : stored w rs N → (i < hz)%nat → 0 ≤ w_clock w i ≤ MaxInt64.
Proof. intros (rss & cur & s & c & Hi & _). destruct (li_clock _ _ _ _ _ Hi) as [_ H]. apply H. Qed.

(** A record the callers may write, stamped *)
Lemma stamp_good r q ts :
  0 ≤ Type_ r < 256 → frame_fits r → encodable r → 0 ≤ q < 2 ^ 64 → 0 ≤ ts ≤ MaxInt64 → good_record (stamp r q ts).
Proof.
  intros Hty Hfit [Hc Hp] Hq Hts. split; [|done]. unfold payload_len in Hp. unfold wf_record. unfold MaxInt64 in *. split_and!; simpl; first [done | lia].
Qed.

Lemma stored_log_one w rs r N :
  stored w rs N → 0 ≤ Type_ r < 256 → frame_fits r → encodable r →
  0 ≤ w_lastSeqNum (w_log w) → w_lastSeqNum (w_log w) + 1 < 2 ^ 64 → (w_ticks w + 2 ≤ hz)%nat →
  outcome (log_one r) w
    (λ r' w', ∃ ts, r' = stamp r (w_lastSeqNum (w_log w) + 1) ts ∧ stored w' (rs ++ [r']) N ∧
       w_lastSeqNum (w_log w') = w_lastSeqNum (w_log w) + 1 ∧ (w_ticks w' ≤ w_ticks w + 2)%nat)
    (λ w', ∃ ts, cut_at rs (stamp r (w_lastSeqNum (w_log w) + 1) ts) N w').
Proof.
  intros Hst Hty Hfit He Hq0 Hq Ht. set (q := w_lastSeqNum (w_log w) + 1) in *.
  assert (Eu : u64 q = q) by (apply Z.mod_small; lia).
  set (w1 := set_log (λ l, set_lastSeqNum (u64 (w_lastSeqNum l + 1)) l) w).
  set (w2 := World (w_files w1) (w_clock w1) (S (w_ticks w1)) (w_faults w1) (w_calls w1) (w_log w1)).
  set (ts := w_clock w (w_ticks w)).
  assert (Hst2 : stored w2 rs N) by (apply (stored_frame w); try done; simpl; lia).
  assert (Hts : 0 ≤ ts ≤ MaxInt64) by (apply (stored_clock w rs N); [done|lia]).
  assert (Hg : good_record (stamp r q ts)) by (apply stamp_good; try done; lia).
  assert (Hrun : log_one r w = (append_data (bytes_of_record (stamp r q ts));; mret (stamp r q ts)) w2).
  { unfold log_one, nextSeqNum, modify, gets, UnixNano, lift, mbind, M_bind. simpl.
    fold q. rewrite Eu. fold ts. rewrite encodeRecord_wf by apply Hg.
    unfold w2, w1, set_log. simpl. fold q. by rewrite Eu. }
  unfold outcome at 1. rewrite Hrun. fold (outcome (append_data (bytes_of_record (stamp r q ts));; mret (stamp r q ts)) w2
    (λ r' w', ∃ ts, r' = stamp r q ts ∧ stored w' (rs ++ [r']) N ∧ w_lastSeqNum (w_log w') = q ∧ (w_ticks w' ≤ w_ticks w + 2)%nat)
    (λ w', ∃ ts, cut_at rs (stamp r q ts) N w')).
  eapply outcome_bind.
  { eapply outcome_weaken; [apply (stored_append w2 rs _ N Hst2 Hg); simpl; lia| |]; [intros a w' H; exact H|].
    intros w' H. by exists ts. }
  intros [] w3 (H3 & Hs3 & Ht3). exists ts. split_and!; [done|done| |simpl in Ht3; lia].
  rewrite Hs3. simpl. fold q. by rewrite Eu.
Qed.

(** ** The batch *)
Lemma record_stored w rs r N :
  stored w rs N → data_record r → encodable r →
  0 ≤ w_lastSeqNum (w_log w) → w_lastSeqNum (w_log w) + 1 < 2 ^ 64 → (w_ticks w + 2 ≤ hz)%nat →
  outcome (log_one r) w
    (λ r' w', (∃ q ts, r' = stamp r q ts) ∧ plain r' ∧ stored w' (rs ++ [r']) N ∧
       w_lastSeqNum (w_log w') = w_lastSeqNum (w_log w) + 1 ∧ (w_ticks w' ≤ w_ticks w + 2)%nat)
    (λ w', ∃ part, Forall plain part ∧ cut w' (rs ++ part) N).
Proof.
  intros Hst (Hty & Hb & He & Hfit) Henc Hq0 Hq Ht.
  eapply outcome_weaken; [by apply (stored_log_one w rs r N)| |].
  - intros r' w' (ts & -> & H). split; [by eauto|]. split; [by split|done].
  - intros w' (ts & [H|H]); [exists []; rewrite app_nil_r; by split|].
    exists [stamp r (w_lastSeqNum (w_log w) + 1) ts]. split; [|done]. by apply Forall_singleton.
Qed.

Lemma batch_stored records w rs N :
  stored w rs N → Forall (λ r, data_record r ∧ encodable r) records →
  0 ≤ w_lastSeqNum (w_log w) → w_lastSeqNum (w_log w) + len records < 2 ^ 64 →
  Z.of_nat (w_ticks w) + 2 * len records ≤ Z.of_nat hz →
  outcome (batch_loop records) w
    (λ out w', stored w' (rs ++ out) N ∧ stamped records out ∧ Forall plain out ∧
       w_lastSeqNum (w_log w') = w_lastSeqNum (w_log w) + len records ∧
       Z.of_nat (w_ticks w') ≤ Z.of_nat (w_ticks w) + 2 * len records)
    (λ w', ∃ part, Forall plain part ∧ cut w' (rs ++ part) N).
Proof.
  intros Hst Hr. revert w rs Hst. induction Hr as [|r records [Hr He] _ IH]; intros w rs Hst Hq0 Hq Ht.
  { unfold outcome. cbn. rewrite app_nil_r. change (len (@nil Record_)) with 0. split_and!; [done|constructor|constructor|lia|lia]. }
  rewrite len_cons in *. pose proof (len_nonneg records). cbn [batch_loop].
  eapply outcome_bind; [apply (record_stored w rs r N); try done; lia|].
  intros r' w1 (Hstamp & Hplain & H1 & Hs1 & Ht1).
  eapply outcome_bind.
  - eapply outcome_weaken; [apply (IH w1 (rs ++ [r'])); [done|lia..]| |].
    + intros out w' H'. exact H'.
    + intros w' (part & Hp & H'). exists (r' :: part). rewrite <- app_assoc in H'. split; [by constructor|done].
  - intros out w2 (H2 & HF & Hp & Hs2 & Ht2). rewrite <- app_assoc in H2. unfold outcome. cbn.
    split_and!; [done|by constructor|by constructor|lia|lia].
Qed.

(** What there may be of a batch of [records]: nothing, an unfinished batch, or
    all of it *)
Inductive batch_part (records : list Record_) : list Record_ → Prop :=
| part_none : batch_part records []
| part_open b rs : Type_ b = RecordTypeBatchBegin → Forall plain rs → batch_part records (b :: rs)
| part_whole b out e : wf_entry (EBatch b out e) → stamped records out →
    batch_part records (entry_records (EBatch b out e)).

Lemma cut_calls w n l rs N :
  w_dir l = w_dir (w_log w) → cut w rs N →
  cut (World (w_files w) (w_clock w) (w_ticks w) (w_faults w) n l) rs N.
Proof.
  intros Hd (ps & rss & p & c & cur & [? ? ? ? ? ? Hfr Hord ?] & H). exists ps, rss, p, c, cur. split; [|done].
  constructor; simpl; rewrite ?Hd; try done.
  - intros m Hm. unfold seg_path_at. simpl. rewrite Hd. by apply Hfr.
  - by apply (opened_weaken w).
Qed.

(** The end of [WriteBatch]: the buffer goes to the file. *)
Lemma finish_cases w rs N :
  stored w rs N →
  outcome (s ← current; s ← bufio_Flush s;
           sync ← gets (λ w, w_syncOnWrite (w_log w)); when sync (file_Sync s)) w
    (λ _ w', cut w' rs (len (encs rs))) (λ w', cut w' rs N).
Proof.
  intros (rss & cur & s & c & Hi & <- & Hc & HN). pose proof Hi as [Hcur Herr Hopen _ _ _ _ _ _ _ _ _ _].
  pose proof (log_file _ _ _ _ _ Hi Hc) as [Hcb Hpre].
  pose proof (encs_app (concat rss) cur) as Eall.
  eapply outcome_bind with (Q := λ s' w', s' = s ∧ w' = w); [unfold outcome; by rewrite (current_run w s Hcur)|].
  intros s' ? [-> ->]. unfold outcome at 1.
  destruct (flush_cases s w c Herr Hopen Hc) as [(w1 & E1 & Hm1)|(e & n & s' & w1 & E1 & Hm1)].
  - rewrite (M_bind_run _ _ _ _ _ E1). rewrite Hcb in Hm1. pose proof (left_moves _ _ _ _ _ Hm1) as Hl.
    assert (Hcut : cut w1 (concat rss ++ cur) (len (encs (concat rss ++ cur)))).
    { eexists _, _, _, _, _. split; [by eapply (torn_left w w1 rss cur cur s c (encs cur)); [..|apply Hi]|].
      split; [done|]. rewrite Eall, len_app. lia. }
    unfold gets, when, file_Sync, syscall_unit, syscall. unfold_M. cbn. destruct (w_syncOnWrite _); [|done].
    assert (HcN : ∀ k, cut (World (w_files w1) (w_clock w1) (w_ticks w1) (w_faults w1) k (w_log w1)) (concat rss ++ cur) N).
    { intros k. apply cut_calls; [done|]. destruct Hcut as (ps & rss' & p & c' & cur' & Ht & Hrs & HN').
      exists ps, rss', p, c', cur'. split_and!; [done..|]. rewrite Eall, len_app in HN'. apply len_prefix in Hpre. lia. }
    destruct (w_faults w1 (w_calls w1)); cbn; [apply HcN|]. rewrite Hopen. by apply cut_calls.
  - rewrite (M_bind_Err _ _ _ _ _ E1).
    eapply cut_left; [exact Hi|exact Hc|by eapply left_moves|apply partly_take|done|apply Hi|done].
Qed.

Lemma batch_cases records w rs N :
  stored w rs N → Forall (λ r, data_record r ∧ encodable r) records → len records < 2 ^ 32 →
  0 ≤ w_lastSeqNum (w_log w) → w_lastSeqNum (w_log w) + len records + 2 < 2 ^ 64 →
  Z.of_nat (w_ticks w) + 2 * (len records + 2) ≤ Z.of_nat hz →
  outcome (WriteBatch records) w
    (λ out w', ∃ b e, wf_entry (EBatch b out e) ∧ stamped records out ∧
       cut w' (rs ++ entry_records (EBatch b out e)) (len (encs (rs ++ entry_records (EBatch b out e)))))
    (λ w', ∃ part, batch_part records part ∧ cut w' (rs ++ part) N).
Proof.
  intros Hst Hr Hn Hq0 Hq Ht. pose proof (len_nonneg records). unfold WriteBatch.
  eapply outcome_bind.
  { eapply outcome_weaken; [apply (stored_log_one w rs (marker RecordTypeBatchBegin (len records)) N); [done|done|apply marker_fits|apply marker_encodable|lia..]| |].
    - intros b w1 H1. exact H1.
    - intros w' (ts & [H'|H']); [exists []; rewrite app_nil_r; split; [constructor|done]|].
      eexists [_]. split; [|exact H']. by apply part_open. }
  intros b w1 (tb & -> & H1 & Hs1 & Ht1). set (b := stamp _ _ tb) in *.
  eapply outcome_bind.
  { eapply outcome_weaken; [apply (batch_stored records w1 _ N H1 Hr); lia| |].
    - intros out w2 H2. exact H2.
    - intros w' (part & Hp & H'). rewrite <- app_assoc in H'. exists (b :: part). split; [by apply part_open|done]. }
  intros out w2 (H2 & HF & Hp & Hs2 & Ht2). rewrite <- app_assoc in H2.
  assert (Hwf : ∀ te q, wf_entry (EBatch b out (stamp (marker RecordTypeBatchEnd (len records)) q te))).
  { intros te q. split_and!; [done| |done|done]. simpl. rewrite batch_size_round by lia. unfold len. by rewrite (Forall2_length _ _ _ HF). }
  eapply outcome_bind.
  { eapply outcome_weaken; [apply (stored_log_one w2 _ (marker RecordTypeBatchEnd (len records)) N H2); [done|apply marker_fits|apply marker_encodable|lia..]| |].
    - intros e w3 H3. exact H3.
    - intros w' (te & [H'|H']); [exists (b :: out); split; [by apply part_open|done]|].
      rewrite <- app_assoc in H'.
      exists (entry_records (EBatch b out (stamp (marker RecordTypeBatchEnd (len records)) (w_lastSeqNum (w_log w2) + 1) te))).
      split; [by apply part_whole|exact H']. }
  intros e w3 (te & -> & H3 & _). set (e := stamp _ _ te) in *. specialize (Hwf te (w_lastSeqNum (w_log w2) + 1)). fold e in Hwf.
  rewrite <- app_assoc in H3. change (([b] ++ out) ++ [e]) with (entry_records (EBatch b out e)) in H3.
  pose proof (finish_cases w3 _ N H3) as Hfin. unfold outcome in Hfin |- *. unfold mbind, M_bind in Hfin |- *.
  destruct (current w3) as [[s|err|] w4]; [|by exists (entry_records (EBatch b out e)); split; [by apply part_whole|]|done].
  destruct (bufio_Flush s w4) as [[s'|err|] w5]; [|by exists (entry_records (EBatch b out e)); split; [by apply part_whole|]|done].
  destruct (gets _ w5) as [[sync|err|] w6]; [|by exists (entry_records (EBatch b out e)); split; [by apply part_whole|]|done].
  destruct (when sync (file_Sync s') w6) as [[[]|err|] w7];
    [|by exists (entry_records (EBatch b out e)); split; [by apply part_whole|]|done].
  cbn. exists b, e. done.
Qed.

(** ** The clock is read twice for a record at most *)
Definition ticks_at_most {A} (m : W A) (k : nat) : Prop :=
  ∀ w, (w_ticks w ≤ w_ticks (m w).2 ≤ w_ticks w + k)%nat.

Lemma ticks_bind {A B} (m : W A) (f : A → W B) k1 k2 :
  ticks_at_most m k1 → (∀ a, ticks_at_most (f a) k2) → ticks_at_most (m ≫= f) (k1 + k2).
Proof.
  intros Hm Hf w. specialize (Hm w). unfold mbind, M_bind.
  destruct (m w) as [[a|e|] w1]; simpl in *; [specialize (Hf a w1)|..]; lia.
Qed.
Lemma ticks_weaken {A} (m : W A) k k' : (k ≤ k')%nat → ticks_at_most m k → ticks_at_most m k'.
Proof. intros Hk H w. specialize (H w). lia. Qed.
(** Nothing but [UnixNano] reads the clock. *)
Lemma ticks_same {A} (m : W A) : (∀ w, w_ticks (m w).2 = w_ticks w) → ticks_at_most m 0.
Proof. intros H w. rewrite H. lia. Qed.

Ltac ticks_tac :=
  repeat match goal with
    | |- ticks_at_most (_ ≫= _) 0 => apply (ticks_bind _ _ 0 0); [|intros]
    | |- ticks_at_most (match ?x with _ => _ end) _ => destruct x
    | |- ticks_at_most (if ?b then _ else _) _ => destruct b
    | |- ticks_at_most (when ?b _) _ => unfold when; destruct b
    | _ => first [done | apply ticks_same; done]
    end.

Lemma ticks_append path closed p : ticks_at_most (file_append path closed p) 0.
Proof. unfold file_append. ticks_tac. Qed.
Lemma ticks_flush s : ticks_at_most (bufio_Flush s) 0.
Proof. unfold bufio_Flush. ticks_tac. apply ticks_append. Qed.
Lemma ticks_sync s : ticks_at_most (file_Sync s) 0.
Proof. unfold file_Sync, syscall_unit. ticks_tac. Qed.
Lemma ticks_close s : ticks_at_most (file_Close s) 0.
Proof. unfold file_Close, syscall_unit. ticks_tac. Qed.
Lemma ticks_current : ticks_at_most current 0.
Proof. unfold current. ticks_tac. Qed.
Lemma ticks_loop n s p : ticks_at_most (bufio_Write_loop n s p) 0.
Proof.
  revert s p. induction n as [|n IH]; intros s p; cbn [bufio_Write_loop]; ticks_tac.
  all: first [apply ticks_append|apply ticks_flush|apply IH].
Qed.
Lemma ticks_open : ticks_at_most openCurrentSegment 1.
Proof.
  unfold openCurrentSegment. apply (ticks_bind _ _ 1 0); [intros w; simpl; lia|]. intros now.
  unfold syscall_unit. ticks_tac.
Qed.
Lemma ticks_rotate : ticks_at_most rotate 1.
Proof.
  unfold rotate. apply (ticks_bind _ _ 0 1); [ticks_tac|]. intros c.
  apply (ticks_bind _ _ 0 1); [|intros; apply ticks_open].
  ticks_tac; auto using ticks_flush, ticks_sync, ticks_close.
Qed.
Lemma ticks_append_data d : ticks_at_most (append_data d) 1.
Proof.
  unfold append_data. apply (ticks_bind _ _ 0 1); [apply ticks_current|]. intros s.
  apply (ticks_bind _ _ 0 1); [ticks_tac|]. intros size. apply (ticks_bind _ _ 1 0).
  - unfold when. destruct (_ >? _); [apply ticks_rotate|]. by apply (ticks_weaken _ 0); [lia|ticks_tac].
  - intros _. ticks_tac; [apply ticks_current|apply ticks_loop].
Qed.
Lemma ticks_log_one r : ticks_at_most (log_one r) 2.
Proof.
  unfold log_one. apply (ticks_bind _ _ 0 2); [unfold nextSeqNum; ticks_tac|]. intros q.
  apply (ticks_bind _ _ 1 1); [intros w; simpl; lia|]. intros t.
  apply (ticks_bind _ _ 0 1); [ticks_tac|]. intros d.
  apply (ticks_bind _ _ 1 0); [apply ticks_append_data|]. intros _. ticks_tac.
Qed.
Lemma ticks_batch_loop rs : ticks_at_most (batch_loop rs) (2 * length rs).
Proof.
  induction rs as [|r rs IH]; cbn [batch_loop length]; [ticks_tac|].
  apply (ticks_weaken _ (2 + (2 * length rs + 0))); [lia|].
  apply ticks_bind; [apply ticks_log_one|]. intros r'. apply ticks_bind; [done|]. intros. ticks_tac.
Qed.
Lemma ticks_WriteBatch rs : ticks_at_most (WriteBatch rs) (2 * (length rs + 2)).
Proof.
  unfold WriteBatch. apply (ticks_weaken _ (2 + (2 * length rs + (2 + 0)))); [lia|].
  apply ticks_bind; [apply ticks_log_one|]. intros _. apply ticks_bind; [apply ticks_batch_loop|]. intros out.
  apply ticks_bind; [apply ticks_log_one|]. intros _. ticks_tac; auto using ticks_current, ticks_flush, ticks_sync.
Qed.

(** ** Reading a log that was cut off *)

(** A cut through the bytes of records is a cut after whole records and [k] bytes
    of the next. *)
Inductive cut_file (cur : list Record_) (c : list byte) : Prop :=
| cut_whole : c = encs cur → cut_file cur c
| cut_inside rs r rest k : cur = rs ++ r :: rest → c = encs rs ++ take k (bytes_of_record r) →
    (k < length (bytes_of_record r))%nat → cut_file cur c.

Lemma prefix_cut cur c : c `prefix_of` encs cur → cut_file cur c.
Proof.
  revert c. induction cur as [|r cur IH]; intros c [d Hd].
  { symmetry in Hd. apply app_eq_nil in Hd as [-> _]. by constructor. }
  unfold encs in Hd. cbn [fmap list_fmap concat] in Hd.
  destruct (decide (length c < length (bytes_of_record r))%nat) as [Hlt|Hge].
  - apply (cut_inside _ _ [] r cur (length c)); [done| |done].
    apply (f_equal (take (length c))) in Hd. rewrite take_app_length, take_app_le in Hd by lia. by simpl.
  - assert (Ec : c = bytes_of_record r ++ drop (length (bytes_of_record r)) c).
    { apply (f_equal (take (length (bytes_of_record r)))) in Hd as H'.
      rewrite take_app_length, take_app_le in H' by lia. rewrite H' at 1. by rewrite take_drop. }
    rewrite Ec, <- app_assoc in Hd. apply app_inv_head in Hd.
    destruct (IH (drop (length (bytes_of_record r)) c)) as [E|rs r' rest k -> E Hk]; [by exists d|..].
    + apply cut_whole. rewrite Ec, E. done.
    + apply (cut_inside _ _ (r :: rs) r' rest k); [done| |done]. rewrite Ec, E.
      change (encs (r :: rs)) with (bytes_of_record r ++ encs rs). by rewrite <- app_assoc.
Qed.

(** Loading files that end well or in a torn record *)
Definition loadable (w : world) (p : string) (x : list Record_ * walError) : Prop :=
  ∃ c, w_files w !! p = Some c ∧ decode_all c = (x.1, Err x.2) ∧ (x.2 = EOF ∨ x.2 = ErrUnexpectedEOF).

Lemma runs_load_cut w paths xs Q :
  fault_free w → Forall2 (loadable w) paths xs →
  (∀ n l, w_dir l = w_dir (w_log w) → w_segmentSize l = w_segmentSize (w_log w) →
     si_path <$> w_segments l = (si_path <$> w_segments (w_log w)) ++ paths →
     Q tt (World (w_files w) (w_clock w) (w_ticks w) (w_faults w) n l)) →
  runs w (load_loop paths) Q.
Proof.
  revert w xs Q. induction paths as [|p paths IH]; intros w xs Q Hff HF H;
    inversion HF as [|? [rs e] ? xs' (c & Hp & Hd & He) HF']; subst; simpl.
  { apply runs_ret. specialize (H (w_calls w) (w_log w)). rewrite app_nil_r in H. destruct w. by apply H. }
  apply runs_bind. eexists _, _. split; [reflexivity|]. rewrite Hff. split; [|done].
  apply runs_bind.
  assert (Hscan : ∀ Q', (∀ n, Q' (max_seq rs) (World (w_files w) (w_clock w) (w_ticks w) (w_faults w) n (w_log w))) →
    runs (World (w_files w) (w_clock w) (w_ticks w) (w_faults w) (S (w_calls w)) (w_log w)) (scanSegmentLastSeqNum p) Q').
  { intros Q' HQ. unfold scanSegmentLastSeqNum. apply runs_bind, runs_syscall_unit; [done|]. intros n.
    apply runs_bind, runs_gets. simpl. rewrite Hp, Hd. simpl in *. destruct He as [-> | ->]; by apply runs_ret. }
  apply Hscan. intros n. apply runs_bind, runs_gets. simpl. rewrite Hp. simpl.
  apply runs_bind, runs_modify; [done|]. apply (IH _ xs'); [done|done|]. intros m l Hd' Hs' Hseg.
  apply H.
  - rewrite Hd'. simpl. unfold load_segment. by destruct (_ >? _).
  - rewrite Hs'. simpl. unfold load_segment. by destruct (_ >? _).
  - rewrite Hseg. simpl. assert (Hl : ∀ m k, w_segments (load_segment p m k (w_log w)) =
      w_segments (w_log w) ++ [SegmentInfo p m k]) by (intros; unfold load_segment; by destruct (_ >? _)).
    by rewrite Hl, fmap_app, <- app_assoc.
Qed.

Lemma replay_paths_app w ps p rss x :
  fault_free w → Forall good_record (concat rss) →
  Forall2 (λ p rs, w_files w !! p = Some (encs rs)) ps rss → loadable w p x →
  (replay_paths (ps ++ [p]) w).1 =
    (if decide (x.2 = EOF) then Ok (concat rss ++ x.1) else Err ErrUnexpectedEOF) ∧
  ∃ n, (replay_paths (ps ++ [p]) w).2 = World (w_files w) (w_clock w) (w_ticks w) (w_faults w) n (w_log w).
Proof.
  revert w rss. induction ps as [|p0 ps IH]; intros w rss Hff Hg HF Hx;
    inversion HF as [|? rs ? rss' Hp HF']; subst.
  - destruct Hx as (c & Hc & Hd & He). destruct x as [rs e]. cbn [app replay_paths concat].
    unfold replaySegment, syscall_unit, syscall. unfold_M. rewrite Hff. simpl. rewrite Hc, Hd. simpl in *.
    destruct He as [-> | ->]; simpl; rewrite ?app_nil_r; split; try done; by eexists.
  - simpl in Hg. apply Forall_app in Hg as [Hg1 Hg2]. cbn [app replay_paths concat].
    destruct (runs_replaySegment w p0 rs (λ a w', a = rs ∧ ∃ n, w' = World (w_files w) (w_clock w) (w_ticks w) (w_faults w) n (w_log w)) Hff Hp Hg1)
      as (a & w1 & E & [-> [n ->]] & _); [by intros n; split; [|exists n]|].
    rewrite (M_bind_run _ _ _ _ _ E).
    destruct (IH (World (w_files w) (w_clock w) (w_ticks w) (w_faults w) n (w_log w)) rss' Hff Hg2 HF' Hx) as [H1 [m H2]].
    simpl in H2. unfold mbind, M_bind. destruct (replay_paths (ps ++ [p]) _) as [r w2]. simpl in H1, H2. subst.
    destruct (decide (x.2 = EOF)); simpl; [rewrite <- app_assoc|]; split; try done; by exists m.
Qed.

(** The machine starts again: no call fails. *)
Definition restart (w : world) (l : WAL) : world :=
  World (w_files w) (w_clock w) (w_ticks w) (λ _, None) 0 l.

Lemma reopen_cut cfg w l ps rss p c cur x :
  torn w ps rss p c cur → w_dir (w_log w) = Dir cfg → (w_ticks w < hz)%nat →
  decode_all c = (x.1, Err x.2) → (x.2 = EOF ∨ x.2 = ErrUnexpectedEOF) →
  ((Open cfg;; Replay) (restart w l)).1 =
    (if decide (x.2 = EOF) then Ok (replayed (concat rss ++ x.1)) else Err ErrUnexpectedEOF).
Proof.
  intros [Hold Hfile _ Hgood Hpath Hclk Hfresh Hord Hdir] Hd Ht Hx He.
  apply Forall_app in Hgood as [Hgood _].
  set (w0 := restart w l). assert (Hff : fault_free w0) by done.
  assert (Hload : Forall2 (loadable w0) (ps ++ [p]) (((λ rs, (rs, EOF)) <$> rss) ++ [x])).
  { apply Forall2_app; [|constructor; [by exists c|constructor]]. apply Forall2_fmap_r. clear Hpath Hord Hdir.
    induction Hold as [|q rs ps rss Hq Hold IH]; [constructor|]. simpl in Hgood. apply Forall_app in Hgood as [Hg1 Hg2].
    constructor; [|by apply IH]. exists (encs rs). split_and!; [done|by apply decode_all_encs|by left]. }
  assert (Hopen : runs w0 (Open cfg) (λ _ w', fault_free w' ∧
    (si_path <$> w_segments (w_log w')) = ps ++ [p] ∧
    ∃ s, w_current (w_log w') = Some s ∧ seg_err s = false ∧ seg_closed s = false ∧ seg_buf s = [] ∧
      seg_path s ∉ ps ++ [p] ∧ w_files w' = <[seg_path s := []]> (w_files w))).
  { unfold Open. apply runs_bind, runs_syscall_unit; [done|]. intros n0.
    apply runs_bind, runs_modify; [done|]. unfold loadSegments.
    apply runs_bind, runs_bind, runs_syscall_unit; [done|]. intros n1.
    apply runs_bind, runs_gets, runs_bind, runs_gets. cbn [w_log w_dir w_files set_log restart w0].
    pose proof (wal_paths_eq hz (set_log (λ _, fresh_log cfg) w) (Dir cfg) (ps ++ [p]) eq_refl Hclk
      (Nat.lt_le_incl _ _ Ht)) as Hp. simpl in Hp. rewrite Hp.
    - apply (runs_load_cut _ _ (((λ rs, (rs, EOF)) <$> rss) ++ [x])); [done|exact Hload|].
      intros n2 l2 Hdl _ Hseg. simpl in Hdl, Hseg. unfold openCurrentSegment.
      apply runs_bind. eexists _, _. split; [reflexivity|]. split; [|done].
      apply runs_bind, runs_gets, runs_bind, runs_syscall_unit; [done|]. intros n3.
      assert (Hnew : w_files w !! path_join (w_dir l2) (segment_name (w_clock w (w_ticks w))) = None).
      { rewrite Hdl, <- Hd. apply (Hfresh (w_ticks w)). lia. }
      apply runs_bind, runs_modify; [done|]. apply runs_modify; [done|].
      split; [done|]. split; [exact Hseg|]. eexists. split; [reflexivity|]. split_and!; [done..| |].
      + simpl. intros Hin. apply elem_of_app in Hin as [Hin|Hin%list_elem_of_singleton].
        * apply list_elem_of_lookup in Hin as [i Hi]. destruct (Forall2_lookup_l _ _ _ _ _ Hold Hi) as (rs & _ & E). congruence.
        * congruence.
      + simpl. by rewrite Hnew.
    - apply (opened_weaken w); [done|simpl; lia|simpl; by rewrite Hd|done].
    - intros q [Hq|Hq%list_elem_of_singleton]%elem_of_app.
      + apply list_elem_of_lookup in Hq as [i Hi]. destruct (Forall2_lookup_l _ _ _ _ _ Hold Hi) as (rs & _ & E). by exists (encs rs).
      + subst. by exists c.
    - rewrite <- Hd. done. }
  destruct Hopen as ([] & w1 & E & (Hff1 & Hseg & s & Hcur & Hse & Hsc & Hb & Hnin & Hfs) & _).
  rewrite (M_bind_run _ _ _ _ _ E).
  assert (Hp1 : ∀ q, q ∈ ps ++ [p] → w_files w1 !! q = w_files w !! q).
  { intros q Hq. rewrite Hfs, lookup_insert_ne; [done|]. intros <-. done. }
  assert (Hold1 : Forall2 (λ p rs, w_files w1 !! p = Some (encs rs)) ps rss).
  { apply Forall2_same_length_lookup. split; [by eapply Forall2_length|]. intros i q rs Hq Hrs.
    rewrite Hp1; [by apply (Forall2_lookup_lr _ _ _ _ _ _ Hold Hq Hrs)|]. apply elem_of_app. left. by eapply list_elem_of_lookup_2. }
  destruct (replay_paths_app w1 ps p rss x Hff1 Hgood Hold1) as [H1 [n H2]].
  { exists c. split; [|done]. rewrite Hp1; [done|]. apply elem_of_app. right. by left. }
  unfold Replay, collectRecords, gets, mbind, M_bind. simpl. rewrite Hseg.
  destruct (replay_paths (ps ++ [p]) w1) as [r w2]. simpl in H1, H2. subst.
  destruct (decide (x.2 = EOF)); [|done]. cbn. rewrite Hcur. unfold bufio_Flush. rewrite Hse, Hb. cbn.
  unfold replaySegment, syscall_unit, syscall. unfold_M. cbn. rewrite Hff1. cbn. rewrite Hfs, lookup_insert_eq. cbn.
  assert (decodeRecord [] = Err EOF) as -> by reflexivity. cbn. by rewrite app_nil_r.
Qed.

(** The outcome of [Replay] of a cut log, from the records that were to be in it *)
Lemma cut_replay cfg w l rs N :
  cut w rs N → w_dir (w_log w) = Dir cfg → (w_ticks w < hz)%nat →
  ∃ p cur r k, w_files w !! p = Some (encs cur ++ take k (bytes_of_record r)) ∧
    ∃ whole, ((k = 0)%nat ∧ whole = rs ∨
        (k < length (bytes_of_record r))%nat ∧ ∃ rest, rs = whole ++ r :: rest) ∧
      N ≤ len (encs whole) + Z.of_nat k ∧
      ((Open cfg;; Replay) (restart w l)).1 =
        (if decide (k = 0 ∨ k = 4)%nat then Ok (replayed whole) else Err ErrUnexpectedEOF).
Proof.
  intros (ps & rss & p & c & cur & Ht & <- & HN) Hd Hlt. pose proof (to_good _ _ _ _ _ _ Ht) as Hg.
  pose proof (prefix_cut cur c (to_prefix _ _ _ _ _ _ Ht)) as [Hc|rs r rest k Hcur Hc Hk].
  - exists p, cur, (marker 0 0), 0%nat. rewrite app_nil_r. pose proof (to_file _ _ _ _ _ _ Ht) as Hf. rewrite Hc in Hf.
    split; [done|]. exists (concat rss ++ cur). split; [by left|]. split.
    + rewrite encs_app, len_app. rewrite Hc in HN. lia.
    + apply Forall_app in Hg as [_ Hg]. rewrite (reopen_cut cfg w l _ _ _ _ _ (cur, EOF) Ht Hd Hlt); [done| |by left].
      rewrite Hc. by apply decode_all_encs.
  - exists p, rs, r, k. pose proof (to_file _ _ _ _ _ _ Ht) as Hf. rewrite Hc in Hf.
    split; [done|]. exists (concat rss ++ rs). rewrite Hcur, Forall_app in Hg.
    destruct Hg as [_ [Hg1 [Hg2 _]%Forall_cons]%Forall_app].
    split; [right; split; [done|]; exists rest; by rewrite Hcur, <- app_assoc|]. split.
    + rewrite encs_app, len_app. rewrite Hc, len_app in HN. assert (len (take k (bytes_of_record r)) ≤ Z.of_nat k).
      { unfold len. rewrite length_take. lia. }
      lia.
    + assert (Hdec : decode_all c = (rs, Err (torn_error k))).
      { rewrite Hc. apply decode_all_tail; [done|]. by apply decode_torn. }
      rewrite (reopen_cut cfg w l _ _ _ _ _ (rs, torn_error k) Ht Hd Hlt Hdec).
      * unfold torn_error. cbn [fst snd]. destruct (decide (k = 0 ∨ k = 4)%nat); [by rewrite decide_True|by rewrite decide_False].
      * unfold torn_error. case_decide; auto.
Qed.
End horizon.

(** ** Nothing or all of a batch *)
Definition with_faults (f : nat → option nat) (w : world) : world :=
  World (w_files w) (w_clock w) (w_ticks w) f (w_calls w) (w_log w).

(** Some file ends inside a record: not after its length prefix alone. *)
Definition torn_record (w : world) : Prop :=
  ∃ p rs r k, w_files w !! p = Some (encs rs ++ take k (bytes_of_record r)) ∧
    (0 < k < length (bytes_of_record r))%nat ∧ k ≠ 4%nat.

Lemma encs_mono rs rest : len (encs rs) ≤ len (encs (rs ++ rest)).
Proof. rewrite encs_app, len_app. pose proof (len_nonneg (encs rest)). lia. Qed.

(** What was acknowledged comes before the cut. *)
Lemma whole_above acked whole r rest part (k : nat) :
  acked ++ part = whole ++ r :: rest → (k < length (bytes_of_record r))%nat →
  len (encs acked) ≤ len (encs whole) + Z.of_nat k → ∃ part', whole = acked ++ part' ∧ part = part' ++ r :: rest.
Proof.
  intros E Hk HN. apply app_eq_inv in E as [(d & -> & E)|(d & -> & ->)]; [|by exists d].
  destruct d as [|r' d]; [exists []; rewrite !app_nil_r; simpl in E; by rewrite E|]. injection E as <- ->.
  exfalso. rewrite encs_app, len_app in HN. change (encs (r :: d)) with (bytes_of_record r ++ encs d) in HN.
  rewrite len_app in HN. pose proof (len_nonneg (encs d)). unfold len in HN. lia.
Qed.

(** A part of a batch that is not all of it applies nothing. *)
Lemma replayed_part records part before r rest :
  batch_part records part → part = before ++ r :: rest → replayed before = [].
Proof.
  intros [|b rs Hb Hp|b out e (Hb & _ & Hp & _) _] E.
  - by destruct before.
  - destruct before as [|b' before]; [done|]. injection E as <- ->. apply Forall_app in Hp as [Hp _].
    by apply replayed_open_batch.
  - destruct before as [|b' before]; [done|]. simpl in E. injection E as <- E.
    apply replayed_open_batch; [done|].
    destruct (app_eq_inv _ _ _ _ E) as [(d & -> & _)|(d & -> & E')]; [by apply Forall_app in Hp as [? _]|].
    destruct d as [|x d]; [by rewrite app_nil_r|]. simpl in E'. injection E' as _ E'. by destruct d.
Qed.

(** Acknowledged records are in the files. *)
Lemma flushed_stored hz w rs : holds hz w rs → flushed w → stored hz w rs (len (encs rs)).
Proof.
  intros (_ & _ & rss & cur & s & Hi & <-) (s' & Hs' & Hb). pose proof (li_cur _ _ _ _ _ Hi) as Hs.
  rewrite Hs in Hs'. injection Hs' as <-. destruct (li_file _ _ _ _ _ Hi) as (c & Hc & E).
  rewrite Hb, app_nil_r in E. subst c. exists rss, cur, s, (encs cur). split_and!; [done..|].
  rewrite encs_app, len_app. lia.
Qed.

(** The cut log after the batch, and what it replays *)
Lemma cut_batch hz cfg records l w ens part N :
  Forall wf_entry ens → batch_part records part → cut hz w (concat (entry_records <$> ens) ++ part) N →
  len (encs (concat (entry_records <$> ens))) ≤ N → w_dir (w_log w) = Dir cfg → (w_ticks w < hz)%nat →
  let after := ((Open cfg;; Replay) (restart w l)).1 in
  after = Ok (concat (entry_payload <$> ens)) ∨
  (∃ out, stamped records out ∧ after = Ok (concat (entry_payload <$> ens) ++ out)) ∨
  (after = Err ErrUnexpectedEOF ∧ torn_record w).
Proof.
  intros Hens Hpart Hcut HN Hd Ht after.
  destruct (cut_replay hz cfg w l _ N Hcut Hd Ht) as (p & cur & r & k & Hf & whole & Hwhole & HN' & Hafter).
  fold after in Hafter. rewrite Hafter. destruct (decide (k = 0 ∨ k = 4)%nat) as [Hk|Hk].
  - destruct Hwhole as [[_ ->]|(Hlt & rest & E)].
    + rewrite replayed_entries by done. destruct Hpart as [|b rs Hb Hp|b out e Hwf Hst].
      * left. change (replayed []) with (@nil Record_). by rewrite app_nil_r.
      * left. by rewrite replayed_open_batch, app_nil_r.
      * right; left. exists out. split; [done|]. rewrite <- (app_nil_r (entry_records _)), replayed_entry by done.
        change (replayed []) with (@nil Record_). by rewrite app_nil_r.
    + left. destruct (whole_above _ _ _ _ _ k E Hlt) as (before & -> & Ep); [lia|].
      rewrite replayed_entries by done. by rewrite (replayed_part _ _ _ _ _ Hpart Ep), app_nil_r.
  - right; right. split; [done|]. destruct Hwhole as [[-> _]|(Hlt & _)]; [by destruct Hk; left|].
    exists p, cur, r, k. split; [done|]. split; [|by intros ->; apply Hk; right]. split; [|done].
    destruct k; [by destruct Hk; left|lia].
Qed.

(** C7. A batch is replayed whole or not at all. After any acknowledged history
    on a log synced on write, [WriteBatch] runs with any outcome [f] of its calls
    of the system, so that the machine may stop at any of them, having written any
    number of bytes. It does not panic. When the log is opened again and replayed,
    it gives the acknowledged records alone, or these and every record of the
    batch, or [Replay] reports an unexpected end of file, and then a file ends
    inside a record. When [WriteBatch] returned without an error, the whole batch
    is replayed. *)
Theorem batch_all_or_nothing hz cfg w0 os records f l :
  fault_free w0 → clock_ok hz w0 → no_segments (Dir cfg) w0 → SyncOnWrite cfg = true →
  Forall op_ok os → op_ok (OpBatch records) → ops_cost os + len records + 2 < 2 ^ 64 →
  Z.of_nat (w_ticks w0) + 2 * ops_cost os + 2 * len records + 6 ≤ Z.of_nat hz →
  ∃ acked w1 r w2,
    (Open cfg;; run_ops os) w0 = (Ok acked, w1) ∧ WriteBatch records (with_faults f w1) = (r, w2) ∧
    r ≠ Panic ∧
    let after := ((Open cfg;; Replay) (restart w2 l)).1 in
    (after = Ok acked ∨ (∃ out, stamped records out ∧ after = Ok (acked ++ out)) ∨
     (after = Err ErrUnexpectedEOF ∧ torn_record w2)) ∧
    (∀ out, r = Ok out → stamped records out ∧ after = Ok (acked ++ out)).
Proof.
  intros Hff Hck Hdir Hsync Hos [Hok Hlen] Hcost Hticks. simpl in Hok, Hlen.
  pose proof (len_nonneg records). pose proof (ops_cost_nonneg os).
  destruct (history_Ok hz cfg w0 os)
    as (out & w1 & ens & E & _ & Hwf & Hpay & Hh1 & Hfl & Hd & Ht & _ & Hq & Htk); [done..|lia|lia|].
  destruct (WriteBatch records (with_faults f w1)) as [r w2] eqn:Eb.
  set (all := concat (entry_records <$> ens)) in *. set (N := len (encs all)).
  assert (Hst : stored hz (with_faults f w1) all N) by (apply (stored_frame hz w1); try done; [simpl; lia|by apply flushed_stored; auto]).
  assert (Hd2 : w_dir (w_log w2) = Dir cfg).
  { pose proof (keeps_WriteBatch records (with_faults f w1)) as Hk. rewrite Eb in Hk. injection Hk as Hk _ _. simpl in Hk. congruence. }
  assert (Ht2 : (w_ticks w2 < hz)%nat).
  { pose proof (ticks_WriteBatch records (with_faults f w1)) as Hk. rewrite Eb in Hk. simpl in Hk. unfold len in *. lia. }
  pose proof (batch_cases hz records (with_faults f w1) all N Hst Hok) as Hcase. unfold outcome in Hcase. rewrite Eb in Hcase.
  simpl in Hcase. rewrite Hq in Hcase. specialize (Hcase ltac:(lia) ltac:(lia) ltac:(lia) ltac:(lia)).
  exists out, w1, r, w2. split; [done|]. split; [done|].
  destruct r as [written|e|]; [|split; [done|]|done].
  - destruct Hcase as (b & e & Hb & Hw & Hcut). split; [done|].
    assert (Hall : ((Open cfg;; Replay) (restart w2 l)).1 = Ok (out ++ written)).
    { destruct (cut_replay hz cfg w2 l _ _ Hcut Hd2 Ht2) as (p & cur & r & k & _ & whole & Hwhole & HN & ->).
      assert (k = 0%nat ∧ whole = all ++ entry_records (EBatch b written e)) as [-> ->].
      { destruct Hwhole as [?|(Hlt & rest & Erest)]; [done|]. exfalso. rewrite Erest in HN.
        rewrite encs_app, len_app in HN. change (encs (r :: rest)) with (bytes_of_record r ++ encs rest) in HN.
        rewrite len_app in HN. pose proof (len_nonneg (encs rest)). unfold len in HN. lia. }
      rewrite decide_True by (by left). unfold all. rewrite replayed_entries, Hpay by done.
      rewrite <- (app_nil_r (entry_records _)), replayed_entry by done. change (replayed []) with (@nil Record_). by rewrite app_nil_r. }
    split; [right; left; by exists written|]. by intros ? [= <-].
  - split; [|done]. destruct Hcase as (part & Hpart & Hcut). rewrite <- Hpay.
    by apply (cut_batch hz cfg records l w2 ens part N).
Qed.

(** The machine stops at one call, having written so many bytes. *)
Definition stops_at (call : nat) (written : nat) : nat → option nat :=
  λ n, if (n =? call)%nat then Some written else None.

Definition demo_batch : list Record_ := [demo_record x05; demo_record x06].

Lemma batch_all_or_nothing_witness : ∃ acked w1 r w2,
  (Open demo_config;; run_ops demo_ops) demo_world = (Ok acked, w1) ∧
  WriteBatch demo_batch (with_faults (stops_at 25 9) w1) = (r, w2) ∧ r ≠ Panic ∧
  let after := ((Open demo_config;; Replay) (restart w2 (w_log demo_world))).1 in
  (after = Ok acked ∨ (∃ out, stamped demo_batch out ∧ after = Ok (acked ++ out)) ∨
   (after = Err ErrUnexpectedEOF ∧ torn_record w2)) ∧
  (∀ out, r = Ok out → stamped demo_batch out ∧ after = Ok (acked ++ out)).
Proof.
  apply (batch_all_or_nothing 100 demo_config demo_world demo_ops demo_batch (stops_at 25 9) (w_log demo_world));
    [exact demo_fault_free|exact demo_clock|exact demo_no_segments|reflexivity
    |exact demo_ops_ok|apply (bool_decide_unpack _); by vm_compute|reflexivity|vm_compute; discriminate].
Defined.

(** The number of records of [demo_ops] and of the batch that are replayed when the
    machine stops at a call, having written so many bytes *)
Definition replayed_after_stop (call written : nat) : result walError Z :=
  match (Open demo_config;; run_ops demo_ops) demo_world with
  | (Ok _, w1) =>
      let '(_, w2) := WriteBatch demo_batch (with_faults (stops_at call written) w1) in
      rs ← ((Open demo_config;; Replay) (restart w2 (w_log demo_world))).1; Ok (len rs)
  | (Err e, _) => Err e
  | (Panic, _) => Panic
  end.

(** The batch is written by the calls 18 to 26, of which 21 and 25 write to a file:
    stopped before the last one, or in it at a boundary, the batch is absent; in it
    inside a record, the log does not replay; after it, the batch is there. *)
Example stops_of_the_demo :
  (replayed_after_stop 21 0, replayed_after_stop 25 4, replayed_after_stop 25 9, replayed_after_stop 26 0)
  = (Ok 4, Ok 4, Err ErrUnexpectedEOF, Ok 6).
Proof. by vm_compute. Qed.
