(* ===== verification/WalAsync.v ===== *)
(** * pkg/storage/wal: the asynchronous writer

    [WriteAsync] puts records in a bounded queue, the writer goroutine moves
    them into its batch and writes batches, and [Close] drains what is left.
    A schedule is any interleaving of these steps. *)
From stdpp Require Import base gmap strings list fin_maps numbers sorting.
From Stdlib Require Import Ascii Strings.Byte ZArith Lia.
From S2P Require Import Prelude Crc32 WalCodec WalLog WalProofs WalRecovery WalTheorems.

#[local] Open Scope Z_scope.

(** A caller's [WriteAsync], the writer receiving from the queue, and its
    ticker firing. *)
Inductive async_op := AAccept (r : Record_) | AReceive | ATick.

Fixpoint run_async (ops : list async_op) (batch : list Record_) : W (list Record_) :=
  match ops with
  | [] => mret batch
  | AAccept r :: ops => WriteAsync r;; run_async ops batch
  | AReceive :: ops =>
      b ← asyncWriter_step EvRecord batch; run_async ops (default [] b)
  | ATick :: ops =>
      b ← asyncWriter_step EvTick batch; run_async ops (default [] b)
  end.

Definition accepted (ops : list async_op) : list Record_ :=
  omap (λ o, match o with AAccept r => Some r | _ => None end) ops.

Definition record_ok (r : Record_) : Prop := data_record r ∧ encodable r.

(** The order in which the records reach the log: [written] are there already,
    then come the writer's batch and the queue. A record accepted while the queue
    is full is written at once, before those that wait. *)
Fixpoint log_order (cap size : Z) (ops : list async_op) (written batch queue : list Record_) :
    list Record_ :=
  match ops with
  | [] => written ++ batch ++ queue
  | AAccept r :: ops =>
      if len queue <? cap then log_order cap size ops written batch (queue ++ [r])
      else log_order cap size ops (written ++ [r]) batch queue
  | AReceive :: ops =>
      match queue with
      | [] => log_order cap size ops written batch []
      | r :: queue =>
          if size <=? len (batch ++ [r]) then log_order cap size ops (written ++ batch ++ [r]) [] queue
          else log_order cap size ops written (batch ++ [r]) queue
      end
  | ATick :: ops => log_order cap size ops (written ++ batch) [] queue
  end.

(** Every accepted record once *)
Lemma log_order_perm cap size ops written batch queue :
  log_order cap size ops written batch queue ≡ₚ written ++ batch ++ queue ++ accepted ops.
Proof.
  revert written batch queue. induction ops as [|[r| |] ops IH]; intros written batch queue; cbn [log_order].
  - by rewrite app_nil_r.
  - change (accepted (AAccept r :: ops)) with (r :: accepted ops). destruct (len queue <? cap).
    + by rewrite IH, <- (assoc_L (++) queue [r]).
    + rewrite IH, <- (assoc_L (++) written [r]). apply Permutation_app_head. simpl.
      by rewrite !Permutation_middle, <- Permutation_middle.
  - change (accepted (AReceive :: ops)) with (accepted ops). destruct queue as [|r queue]; [apply IH|].
    destruct (_ <=? _); rewrite IH; by rewrite <- !(assoc_L (++)).
  - change (accepted (ATick :: ops)) with (accepted ops). rewrite IH. by rewrite <- !(assoc_L (++)).
Qed.

Section async.
Context (hz : nat) (cfg : Config) (t0 : Z) (total : list Record_).
Context (Hticks : t0 + 6 * len total < Z.of_nat hz).
Context (Hlen : len total < 2 ^ 32) (Hok : Forall record_ok total).
Context (Hon : AsyncEnabled cfg = true).

(** The order for a log opened with [cfg] *)
Definition order_of : list async_op → list Record_ → list Record_ → list Record_ → list Record_ :=
  log_order (asyncQueueCapOf (asyncBatchSizeOf cfg)) (asyncBatchSizeOf cfg).

(** [done] are in the log, in the entries [ens]; with the writer's batch, the
    queue and the steps [ops] to come they make up [total]. *)
Record async_inv (done : list Record_) (ens : list entry) (w : world)
    (batch : list Record_) (ops : list async_op) : Prop := AsyncInv {
  ai_ff : fault_free w;
  ai_wf : Forall wf_entry ens;
  ai_holds : holds hz w (concat (entry_records <$> ens));
  ai_stamped : stamped done (concat (entry_payload <$> ens));
  ai_acc : total = order_of ops done batch (w_queue (w_log w));
  ai_cfg : config_of (w_log w) = set_queue (w_queue (w_log w)) (fresh_log cfg);
  ai_seq : w_lastSeqNum (w_log w) ≤ 3 * len done;
  ai_ticks : Z.of_nat (w_ticks w) ≤ t0 + 6 * len done
}.

Definition async_ok (w : world) (batch : list Record_) (ops : list async_op) : Prop :=
  ∃ done ens, async_inv done ens w batch ops.

(** What is in the log or on its way *)
Lemma order_parts ops done batch queue :
  total = order_of ops done batch queue →
  Forall record_ok batch ∧ Forall record_ok (accepted ops) ∧
  len done + len batch + len (accepted ops) ≤ len total.
Proof.
  intros E. pose proof (log_order_perm (asyncQueueCapOf (asyncBatchSizeOf cfg)) (asyncBatchSizeOf cfg)
    ops done batch queue) as Hp. fold order_of in Hp. rewrite <- E in Hp.
  pose proof Hok as HF. rewrite Hp, !Forall_app in HF. destruct HF as (_ & H1 & _ & H2).
  split_and!; [done..|]. apply Permutation_length in Hp. rewrite !length_app in Hp. unfold len. lia.
Qed.

(** The batch goes to the log; what follows is up to the queue [q]. *)
Lemma runs_flush_batch w batch ops ops' :
  async_ok w batch ops →
  (∀ done, order_of ops done batch (w_queue (w_log w)) =
    order_of ops' (done ++ batch) [] (w_queue (w_log w))) →
  runs w (flush batch) (λ _ w', async_ok w' [] ops' ∧ w_queue (w_log w') = w_queue (w_log w)).
Proof.
  intros (done & ens & [Hff Hwf Hh Hst Hacc Hcfg Hq Ht]) Hord. rewrite Hord in Hacc.
  destruct batch as [|r0 batch0] eqn:Eb.
  { rewrite app_nil_r in Hacc. exists tt, w. split_and!; [done| |done|done]. exists done, ens. by constructor. }
  rewrite <- Eb in *. pose proof (len_nonneg done).
  assert (Hpos : 1 ≤ len batch).
  { rewrite Eb, len_cons. pose proof (len_nonneg batch0). lia. }
  destruct (order_parts ops done batch (w_queue (w_log w))) as (Hin & _ & Hbound); [by rewrite Hord|].
  pose proof (len_nonneg (accepted ops)).
  destruct (runs_WriteBatch w batch Hff (holds_live _ _ _ Hh)) as (out & w' & E & _ & Hf).
  { eapply Forall_impl; [exact Hin|]. by intros ? []. }
  pose proof (keeps_Ok _ _ _ _ (keeps_WriteBatch batch) E) as Hk. rewrite Hcfg in Hk.
  assert (Hqueue : w_queue (w_log w') = w_queue (w_log w)) by (by injection Hk).
  exists tt, w'. split_and!; [by unfold flush; rewrite E, Eb| |done|done].
  eapply WriteBatch_Ok in E as (Hst' & Hq' & Ht' & b & e & Hwb & Hh');
    [|done| |lia|lia|lia].
  2: { eapply Forall_impl; [exact Hin|]. by intros ? []. }
  exists (done ++ batch), (ens ++ [EBatch b out e]).
  constructor; rewrite ?fmap_app, ?concat_app, ?Hqueue, ?len_app; try done; try lia.
  - by eapply fault_free_eq.
  - apply Forall_app_2; [done|by constructor].
  - cbn [fmap list_fmap concat]. by rewrite app_nil_r.
  - cbn [fmap list_fmap concat entry_payload]. rewrite app_nil_r. by apply Forall2_app.
Qed.

Lemma async_queue w batch ops q batch' ops' :
  async_ok w batch ops →
  (∀ done, order_of ops done batch (w_queue (w_log w)) = order_of ops' done batch' q) →
  async_ok (set_log (set_queue q) w) batch' ops'.
Proof.
  intros (done & ens & [Hff Hwf Hh Hst Hacc Hcfg Hq Ht]) E.
  exists done, ens. constructor; simpl; try done.
  - apply (holds_frame hz w); simpl; try done. by eapply holds_ticks.
  - by rewrite Hacc, E.
  - change (set_queue q (config_of (w_log w)) = set_queue q (fresh_log cfg)). by rewrite Hcfg.
Qed.

(** A full queue: the record goes straight to the log. *)
Lemma runs_write_through w batch r ops :
  async_ok w batch (AAccept r :: ops) →
  (len (w_queue (w_log w)) <? asyncQueueCapOf (asyncBatchSizeOf cfg)) = false →
  runs w (Write r;; mret tt) (λ _ w', async_ok w' batch ops).
Proof.
  intros (done & ens & [Hff Hwf Hh Hst Hacc Hcfg Hq Ht]) Hfull.
  destruct (order_parts _ _ _ _ Hacc) as (_ & Hin & Hbound).
  change (accepted (AAccept r :: ops)) with (r :: accepted ops) in Hin, Hbound.
  apply Forall_cons in Hin as [[Hr He] _]. rewrite len_cons in Hbound.
  pose proof (len_nonneg done). pose proof (len_nonneg batch). pose proof (len_nonneg (accepted ops)).
  unfold order_of in Hacc. cbn [log_order] in Hacc. rewrite Hfull in Hacc.
  apply runs_bind. destruct (runs_Write w r Hff (holds_live _ _ _ Hh) He) as (r' & w' & E & _ & Hf).
  exists r', w'. split_and!; [done| |done]. apply runs_ret.
  pose proof (keeps_Ok _ _ _ _ (keeps_Write r) E) as Hk. rewrite Hcfg in Hk.
  assert (Hqueue : w_queue (w_log w') = w_queue (w_log w)) by (by injection Hk).
  eapply Write_Ok in E as (Hh' & Ht' & ts & _ & -> & Hs); [|done|done|lia|lia].
  exists (done ++ [r]), (ens ++ [ESingle (stamp r (w_lastSeqNum (w_log w) + 1) ts)]).
  constructor; rewrite ?fmap_app, ?concat_app, ?Hqueue, ?len_app; try done.
  - by eapply fault_free_eq.
  - apply Forall_app_2; [done|]. apply Forall_singleton. by destruct Hr as (_ & ? & ? & _).
  - cbn [fmap list_fmap concat entry_payload]. apply Forall2_app; [done|]. constructor; [by eauto|done].
  - change (len [r]) with 1. lia.
  - change (len [r]) with 1. lia.
Qed.

Lemma runs_WriteAsync w batch r ops :
  async_ok w batch (AAccept r :: ops) → runs w (WriteAsync r) (λ _ w', async_ok w' batch ops).
Proof.
  intros Ha. unfold WriteAsync. apply runs_bind, runs_gets.
  pose proof Ha as (done & ens & [_ _ _ _ _ Hcfg _ _]).
  unfold config_of in Hcfg. injection Hcfg as _ _ _ He _ Hc. rewrite He, Hon, Hc. cbn [negb].
  destruct (_ <? _) eqn:Hroom; [|by apply runs_write_through].
  apply runs_modify; [done|]. eapply async_queue; [done|]. intros d.
  unfold order_of. cbn [log_order]. by rewrite Hroom.
Qed.

Lemma runs_receive w batch ops :
  async_ok w batch (AReceive :: ops) →
  runs w (asyncWriter_step EvRecord batch) (λ b w', ∃ b', b = Some b' ∧ async_ok w' b' ops).
Proof.
  intros Ha. unfold asyncWriter_step. apply runs_bind, runs_gets.
  pose proof Ha as (? & ? & [_ _ _ _ _ Hcfg _ _]).
  unfold config_of in Hcfg. injection Hcfg as _ _ _ _ Hb _. rewrite Hb.
  destruct (w_queue (w_log w)) as [|r q] eqn:Eq.
  { apply runs_ret. exists batch. split; [done|]. destruct Ha as (done & ens & [? ? ? ? Hacc ? ? ?]).
    exists done, ens. constructor; try done. unfold order_of in *. cbn [log_order] in Hacc. by rewrite Eq in *. }
  apply runs_bind, runs_modify; [done|].
  destruct (_ <=? _) eqn:Hfull.
  - assert (Ha' : async_ok (set_log (set_queue q) w) (batch ++ [r]) (ATick :: ops)).
    { eapply async_queue; [done|]. intros d. rewrite Eq. unfold order_of. cbn [log_order]. by rewrite Hfull. }
    apply runs_bind. eapply runs_weaken; [by apply (runs_flush_batch _ _ (ATick :: ops) ops)|].
    intros [] w' _ [H _]. apply runs_ret. eauto.
  - apply runs_ret. exists (batch ++ [r]). split; [done|]. eapply async_queue; [done|]. intros d.
    rewrite Eq. unfold order_of. cbn [log_order]. by rewrite Hfull.
Qed.

Lemma runs_run_async ops w batch :
  async_ok w batch ops → runs w (run_async ops batch) (λ b w', async_ok w' b []).
Proof.
  revert w batch. induction ops as [|[r| |] ops IH]; intros w batch Ha; simpl.
  - by apply runs_ret.
  - apply runs_bind. eapply runs_weaken; [by apply runs_WriteAsync|]. eauto.
  - apply runs_bind. eapply runs_weaken; [by apply runs_receive|].
    intros b w' _ (b' & -> & H). by apply IH.
  - unfold asyncWriter_step. apply runs_bind, runs_bind, runs_gets, runs_bind.
    eapply runs_weaken; [by apply (runs_flush_batch _ _ (ATick :: ops) ops)|].
    intros [] w' _ [H _]. apply runs_ret. by apply IH.
Qed.

Lemma on_disk_calls w n l paths rss :
  on_disk hz (set_log (λ _, fresh_log cfg) w) paths rss →
  on_disk hz (set_log (λ _, fresh_log cfg)
    (World (w_files w) (w_clock w) (w_ticks w) (w_faults w) n l)) paths rss.
Proof. intros []. by constructor. Qed.

(** [Close] puts what is buffered into the file. *)
Lemma runs_Close w rs :
  fault_free w → holds hz w rs → w_dir (w_log w) = Dir cfg → (w_ticks w < hz)%nat →
  runs w Close (λ _ w', ∃ paths rss,
    on_disk hz (set_log (λ _, fresh_log cfg) w') paths rss ∧ concat rss = rs).
Proof.
  intros Hff Hh Hd Ht. pose proof Hh as (_ & _ & rss & cur & s & Hi & <-).
  pose proof Hi as [Hs He Hc _ _ _ _ _ _ _ _ _ _].
  unfold Close. apply runs_bind, runs_gets. rewrite Hs. apply runs_bind.
  destruct (runs_flush w s (λ s' _, s' = with_buf s [] false)) as (s' & w1 & E & -> & Hf); [done..|].
  pose proof (keeps_Ok _ _ _ _ (keeps_Flush s) E) as Hk.
  assert (Hd1 : w_dir (w_log w1) = Dir cfg) by (injection Hk as Hd' _ _; congruence).
  eapply flush_current_Ok in E as E'; [|done..]. destruct E' as (Hh1 & Hc1 & _ & _ & _ & _ & _ & Ht1).
  exists (with_buf s [] false), w1. split_and!; [done| |done]. apply runs_bind.
  destruct (flushed_on_disk hz w1 _ cfg Hh1) as (paths & rss' & Hod & Hrss); [by eexists|done|lia|].
  apply runs_file_Sync; [by eapply fault_free_eq|done|]. intros n. unfold file_Close. simpl. rewrite Hc.
  apply runs_bind, runs_modify; [done|]. apply runs_syscall_unit; [by eapply fault_free_eq|]. intros m.
  exists paths, rss'. split; [|done]. exact (on_disk_calls w1 m _ paths rss' Hod).
Qed.

(** What [Close] leaves on disk: all accepted records, in complete entries. *)
Lemma runs_CloseAsync w batch :
  async_ok w batch [] →
  runs w (CloseAsync batch) (λ _ w', ∃ paths rss ens,
    on_disk hz (set_log (λ _, fresh_log cfg) w') paths rss ∧
    concat rss = concat (entry_records <$> ens) ∧ Forall wf_entry ens ∧
    StronglySorted Z.lt (SeqNum <$> concat rss) ∧
    stamped total (concat (entry_payload <$> ens))).
Proof.
  intros Ha. pose proof Ha as (? & ? & [_ _ _ _ _ Hcfg _ _]).
  unfold config_of in Hcfg. injection Hcfg as _ _ _ He _ _.
  unfold CloseAsync. apply runs_bind, runs_gets, runs_bind. rewrite He, Hon.
  unfold asyncWriter_step. apply runs_bind, runs_bind, runs_gets, runs_bind, runs_modify; [done|].
  apply runs_bind. eapply runs_weaken.
  { apply (runs_flush_batch _ (batch ++ w_queue (w_log w)) [] []).
    - eapply async_queue; [done|]. intros d. unfold order_of. cbn [log_order]. by rewrite app_nil_r.
    - intros d. unfold order_of. cbn [log_order w_queue w_log set_log set_queue]. by rewrite !app_nil_r. }
  intros [] w1 _ [(done & ens & [Hff Hwf Hh Hst Hacc Hcfg Hq Ht]) Hqueue].
  apply runs_ret, runs_ret. rewrite Hqueue in Hacc. unfold order_of in Hacc. simpl in Hacc. rewrite app_nil_r in Hacc.
  eapply runs_weaken; [apply (runs_Close _ _ Hff Hh)|].
  { by injection Hcfg. }
  { rewrite <- Hacc in Ht. lia. }
  intros [] w2 _ (paths & rss & Hod & Hrss). exists paths, rss, ens. split_and!; [done..| |].
  - rewrite Hrss. apply Hh.
  - by rewrite Hacc.
Qed.
End async.

(** C26. The asynchronous writer loses nothing on a clean shutdown. Open a log
    with [AsyncEnabled] and let callers and the writer interleave in any way,
    also while the queue is full, with records within the limits of the format
    and without failures of the system; then close it. Every step succeeds, and
    reopening and replaying the log gives every accepted record exactly once:
    those that waited in the order they were accepted, a record that met a full
    queue before those that waited then. *)
Theorem async_close_durable hz cfg w0 ops l :
  fault_free w0 → clock_ok hz w0 → no_segments (Dir cfg) w0 → AsyncEnabled cfg = true →
  Forall record_ok (accepted ops) → len (accepted ops) < 2 ^ 32 →
  Z.of_nat (w_ticks w0) + 6 * len (accepted ops) + 1 < Z.of_nat hz →
  let order := order_of cfg ops [] [] [] in
  order ≡ₚ accepted ops ∧
  ∃ w1 out w2,
    (Open cfg;; batch ← run_async ops []; CloseAsync batch) w0 = (Ok tt, w1) ∧
    stamped order out ∧
    (Open cfg;; Replay) (crash w1 l) = (Ok out, w2).
Proof.
  intros Hff Hck Hl Hon Hok Hlen Htk order. pose proof (len_nonneg (accepted ops)).
  assert (Hp : order ≡ₚ accepted ops) by apply (log_order_perm _ _ ops [] [] []).
  split; [done|].
  assert (El : len order = len (accepted ops)) by (unfold len; by rewrite Hp).
  assert (Hok' : Forall record_ok order) by (by rewrite Hp).
  assert (Hrun : runs w0 (Open cfg;; batch ← run_async ops []; CloseAsync batch)
    (λ _ w1, ∃ out, stamped order out ∧
       runs (crash w1 l) (Open cfg;; Replay) (λ o _, o = out))).
  { apply runs_bind. eapply runs_weaken; [apply (runs_Open_empty hz); [done..|lia|done]|].
    intros [] w Hf (Hh & Hfl & Ht & Hcfg & Hq). apply runs_bind.
    set (t0 := Z.of_nat (w_ticks w0) + 1).
    assert (Hff1 : fault_free w) by by eapply fault_free_eq.
    assert (Ha : async_ok hz cfg t0 order w [] ops).
    { exists [], []. assert (Hq0 : w_queue (w_log w) = []) by (by injection Hcfg).
      constructor; rewrite ?Hq0; try done; change (len (@nil Record_)) with 0; try lia.
      constructor. }
    eapply runs_weaken; [apply (runs_run_async hz cfg t0 order); try done; try lia|].
    intros batch w1 Hf1 Hb. eapply runs_weaken.
    { apply (runs_CloseAsync hz cfg t0 order); try done; try lia. }
    intros [] w2 Hf2 (paths & rss & ens & Hod & Hrss & Hwf & Hs & Hst).
    exists (concat (entry_payload <$> ens)). split; [done|].
    assert (Hff2 : fault_free w2) by (eapply fault_free_eq; [exact Hf2|]; by eapply fault_free_eq).
    apply runs_bind. eapply runs_weaken; [by apply (runs_Open hz cfg (crash w2 l) paths rss)|].
    intros [] w3 Hf3 (Hh3 & _). eapply runs_weaken.
    - eapply runs_Replay; [by eapply fault_free_eq|exact Hh3].
    - intros o w4 _ [-> _]. by rewrite Hrss, replayed_whole. }
  destruct Hrun as ([] & w1 & E1 & (out & Hst & (o & w2 & E2 & -> & _)) & _).
  by exists w1, out, w2.
Qed.

(** A queue of ten places, filled before the writer takes anything: the eleventh
    record is written at once. *)
Definition demo_async : Config := mkConfig "wal" 100 false true 1.
Definition demo_schedule : list async_op :=
  replicate 10 (AAccept (demo_record x01)) ++ [AAccept (demo_record x02); AReceive; ATick; AAccept (demo_record x03)].

Lemma async_close_durable_witness :
  order_of demo_async demo_schedule [] [] [] =
    [demo_record x02] ++ replicate 10 (demo_record x01) ++ [demo_record x03] ∧
  order_of demo_async demo_schedule [] [] [] ≡ₚ accepted demo_schedule ∧ ∃ w1 out w2,
  (Open demo_async;; batch ← run_async demo_schedule []; CloseAsync batch) demo_world = (Ok tt, w1) ∧
  stamped (order_of demo_async demo_schedule [] [] []) out ∧
  (Open demo_async;; Replay) (crash w1 (w_log demo_world)) = (Ok out, w2).
Proof.
  split; [reflexivity|].
  apply (async_close_durable 100 demo_async demo_world demo_schedule (w_log demo_world));
    [exact demo_fault_free|exact demo_clock| |reflexivity| |reflexivity|reflexivity].
  - intros p [c Hc]. unfold demo_world, w_files in Hc. by rewrite lookup_empty in Hc.
  - repeat constructor; try done; by vm_compute.
Defined.

(** Whatever batch size is configured, the clamped batch size is between 1
    and 1,000,000 and the queue capacity is exactly ten times it, computed
    without overflow, so [make(chan)] gets a capacity between 10 and
    10,000,000. *)
Theorem async_capacity_bounds cfg :
  1 ≤ asyncBatchSizeOf cfg ≤ maxAsyncBatchSize ∧
  asyncQueueCapOf (asyncBatchSizeOf cfg) = 10 * asyncBatchSizeOf cfg ∧
  asyncQueueCapOf (asyncBatchSizeOf cfg) ≤ maxAsyncQueueCap.
Proof.
  assert (Hb : 1 ≤ asyncBatchSizeOf cfg ≤ maxAsyncBatchSize).
  { unfold asyncBatchSizeOf, maxAsyncBatchSize. repeat case_match; lia. }
  split; [done|]. unfold asyncQueueCapOf, maxAsyncQueueCap, maxAsyncBatchSize in *.
  rewrite Z.gtb_ltb, (proj2 (Z.ltb_lt 0 _)), (proj2 (Z.leb_le _ _)) by lia. simpl.
  unfold i64. rewrite swrap_id by lia. lia.
Qed.
