(* ===== verification/Float32.v ===== *)
(** * IEEE 754 values and their order

    Go's [float32] and [float64] values as the Standard Library's [spec_float],
    with the arithmetic of each format and the comparisons of the language: [<]
    and [>] are false when an operand is NaN. [<] is a strict order on all
    values, and a strict weak order once NaN is excluded. *)
From Stdlib Require Import ZArith Lia Floats.SpecFloat.
From stdpp Require Import base numbers.

#[local] Open Scope Z_scope.

Definition f32 := spec_float.
Definition f64 := spec_float.

(** ** Arithmetic of the two formats (round to nearest even) *)
Definition f32_add : f32 → f32 → f32 := SFadd 24 128.
Definition f32_sub : f32 → f32 → f32 := SFsub 24 128.
Definition f32_mul : f32 → f32 → f32 := SFmul 24 128.
Definition f32_div : f32 → f32 → f32 := SFdiv 24 128.
Definition f32_zero : f32 := S754_zero false.
(** The conversion of an integer constant. *)
Definition f32_of_Z (z : Z) : f32 := binary_normalize 24 128 z 0 false.
Definition f64_of_Z (z : Z) : f64 := binary_normalize 53 1024 z 0 false.

(** Go's [a < b] and [a > b]. *)
Definition flt (a b : f32) : bool := SFltb a b.
Definition fgt (a b : f32) : bool := SFltb b a.

Definition fnan (a : f32) : Prop := a = S754_nan.

#[export] Instance spec_float_eq_dec : EqDecision spec_float.
Proof. solve_decision. Defined.

(** ** The order

    [SFcompare] as a total comparison of a key: the sign, then the magnitude,
    ordered by exponent first. *)
Definition key (a : f32) : Z * Z * Z :=
  match a with
  | S754_zero _ => (0, 0, 0)
  | S754_infinity true => (-2, 0, 0)
  | S754_infinity false => (2, 0, 0)
  | S754_nan => (3, 0, 0)
  | S754_finite true m e => (-1, - e, - Zpos m)
  | S754_finite false m e => (1, e, Zpos m)
  end.

Definition key_lt (x y : Z * Z * Z) : Prop :=
  let '(a1, b1, c1) := x in let '(a2, b2, c2) := y in
  a1 < a2 ∨ (a1 = a2 ∧ (b1 < b2 ∨ (b1 = b2 ∧ c1 < c2))).

Lemma flt_key a b : a ≠ S754_nan → b ≠ S754_nan → (flt a b = true ↔ key_lt (key a) (key b)).
Proof.
  intros Ha Hb. unfold flt, SFltb, key_lt.
  destruct a as [[]|[]| |[] m e], b as [[]|[]| |[] m' e'];
    simpl; try done; try (split; [done|lia]); try (split; [lia|done]);
    destruct (Z.compare_spec e e'); try (split; [done|lia]); try (split; [lia|done]);
    change (Pos.compare_cont Eq m m') with (Pos.compare m m');
    destruct (Pos.compare_spec m m'); simpl; (split; [done|lia]) || (split; [lia|done]).
Qed.

Lemma flt_nan_l b : flt S754_nan b = false.
Proof. by destruct b. Qed.
Lemma flt_nan_r a : flt a S754_nan = false.
Proof. by destruct a as [[]|[]| |[]]. Qed.

Lemma flt_not_nan a b : flt a b = true → a ≠ S754_nan ∧ b ≠ S754_nan.
Proof. intros H. split; intros ->; [by rewrite flt_nan_l in H|by rewrite flt_nan_r in H]. Qed.

Lemma flt_irrefl a : flt a a = false.
Proof.
  destruct (decide (a = S754_nan)) as [->|Ha]; [done|].
  destruct (flt a a) eqn:E; [|done]. apply flt_key in E; [|done..].
  destruct (key a) as [[x y] z]. simpl in E. lia.
Qed.

Lemma flt_trans a b c : flt a b = true → flt b c = true → flt a c = true.
Proof.
  intros H1 H2. destruct (flt_not_nan _ _ H1) as [Ha Hb], (flt_not_nan _ _ H2) as [_ Hc].
  apply flt_key in H1, H2; [|done..]. apply flt_key; [done..|].
  destruct (key a) as [[x y] z], (key b) as [[x' y'] z'], (key c) as [[x'' y''] z''].
  simpl in *. lia.
Qed.

(** Off NaN, not being below is transitive. *)
Lemma flt_ge_trans a b c :
  b ≠ S754_nan → flt b a = false → flt c b = false → flt c a = false.
Proof.
  intros Hb H1 H2. destruct (decide (a = S754_nan)) as [->|Ha]; [apply flt_nan_r|].
  destruct (decide (c = S754_nan)) as [->|Hc]; [apply flt_nan_l|].
  destruct (flt c a) eqn:E; [|done].
  apply not_true_iff_false in H1, H2. rewrite flt_key in H1, H2 by done.
  apply flt_key in E; [|done..].
  destruct (key a) as [[x y] z], (key b) as [[x' y'] z'], (key c) as [[x'' y''] z''].
  simpl in *. lia.
Qed.

Lemma flt_asym a b : flt a b = true → flt b a = false.
Proof.
  intros H. destruct (flt b a) eqn:E; [|done].
  pose proof (flt_trans _ _ _ H E) as H'. by rewrite flt_irrefl in H'.
Qed.

(** * Exact products in double precision
    A product of two doubles whose exact value fits in 53 bits is not rounded.
    This is what makes the search-width computation of [search.go] exact. *)
From Stdlib Require Import Floats.SpecFloat.

Lemma digits2_pos_log2 p : Zpos (digits2_pos p) = Z.log2 (Zpos p) + 1.
Proof.
  induction p as [p IH|p IH|]; [..|done]; cbn [digits2_pos]; rewrite Pos2Z.inj_succ, IH.
  - change (Zpos p~1) with (2 * Zpos p + 1). rewrite Z.log2_succ_double by lia. lia.
  - change (Zpos p~0) with (2 * Zpos p). rewrite Z.log2_double by lia. lia.
Qed.

(** Shifting out zero bits is exact. *)
Lemma shr_1_double m :
  0 < m → shr_1 (Build_shr_record (2 * m) false false) = Build_shr_record m false false.
Proof. by destruct m. Qed.

Lemma shr_iter_exact n m :
  0 < m →
  iter_pos shr_1 n (Build_shr_record (m * 2 ^ Zpos n) false false) = Build_shr_record m false false.
Proof.
  revert m. induction n as [n IH|n IH|]; intros m Hm; cbn [iter_pos].
  - change (Zpos n~1) with (2 * Zpos n + 1).
    rewrite Z.pow_add_r, Z.pow_mul_r, <- Z.pow_mul_r by lia.
    replace (m * (2 ^ (2 * Zpos n) * 2 ^ 1)) with (2 * (m * 2 ^ Zpos n * 2 ^ Zpos n)).
    2: { replace (2 * Zpos n) with (Zpos n + Zpos n) by lia. rewrite Z.pow_add_r by lia. lia. }
    assert (0 < 2 ^ Zpos n) by lia. rewrite shr_1_double by nia. rewrite !IH by nia. done.
  - replace (Zpos n~0) with (Zpos n + Zpos n) by lia. rewrite Z.pow_add_r, Z.mul_assoc by lia.
    assert (0 < 2 ^ Zpos n) by lia. rewrite !IH by nia. done.
  - rewrite Z.pow_1_r, Z.mul_comm. by apply shr_1_double.
Qed.

Lemma shr_exact m e s :
  0 < m → 0 ≤ s →
  shr (Build_shr_record (m * 2 ^ s) false false) e s = (Build_shr_record m false false, e + s).
Proof.
  intros Hm Hs. destruct s as [|s|s]; [|by cbn [shr]; rewrite shr_iter_exact|lia].
  cbn [shr]. by rewrite Z.mul_1_r, Z.add_0_r.
Qed.

(** A 53-bit significand followed by zero bits is rounded to itself. *)
Lemma round_aux_exact k s e :
  0 ≤ s → Z.log2 (Zpos k) = 52 → -1074 ≤ e + s ≤ 971 →
  binary_round_aux 53 1024 false (Zpos k * 2 ^ s) e loc_Exact = S754_finite false k (e + s).
Proof.
  intros Hs Hk He. unfold binary_round_aux, shr_fexp, shr_record_of_loc.
  assert (Hd : Zdigits2 (Zpos k * 2 ^ s) = 53 + s).
  { assert (0 < Zpos k * 2 ^ s) by lia. destruct (Zpos k * 2 ^ s) as [|p|] eqn:E; try lia.
    cbn [Zdigits2]. rewrite digits2_pos_log2, <- E, Z.log2_mul_pow2 by lia. lia. }
  assert (Hf : fexp 53 1024 (53 + s + e) - e = s) by (unfold fexp, emin; lia).
  rewrite Hd, Hf, shr_exact by lia. cbn [shr_m loc_of_shr_record round_nearest_even Zdigits2].
  rewrite digits2_pos_log2, Hk.
  assert (Hf' : fexp 53 1024 (52 + 1 + (e + s)) - (e + s) = 0) by (unfold fexp, emin; lia).
  rewrite Hf'. cbn [shr shr_m]. by rewrite (proj2 (Z.leb_le _ _)) by lia.
Qed.

(** The same, for any value of at most 53 bits. *)
Lemma round_aux_small z t e :
  0 < z < 2 ^ 53 → 0 ≤ t → 52 ≤ Z.log2 z + t → -1074 ≤ e + t - 52 → e + t + Z.log2 z ≤ 1023 →
  ∃ k a, binary_round_aux 53 1024 false (z * 2 ^ t) e loc_Exact = S754_finite false k (e + t - a) ∧
    Zpos k = z * 2 ^ a ∧ 0 ≤ a ≤ 52.
Proof.
  intros Hz Ht Hb Hlo Hhi. assert (Hl : 0 ≤ Z.log2 z ≤ 52).
  { split; [apply Z.log2_nonneg|]. pose proof (Z.log2_lt_pow2 z 53). lia. }
  set (a := 52 - Z.log2 z). assert (0 < z * 2 ^ a) by lia.
  destruct (z * 2 ^ a) as [|k|] eqn:E; try lia. exists k, a. split_and!; [|done|lia..].
  assert (Hs : z * 2 ^ t = Zpos k * 2 ^ (t - a)).
  { rewrite <- E, <- Z.mul_assoc, <- Z.pow_add_r by lia. do 2 f_equal. lia. }
  rewrite Hs, round_aux_exact; [f_equal; lia|lia| |lia].
  rewrite <- E, Z.log2_mul_pow2 by lia. lia.
Qed.

Lemma iter_xO d p : Zpos (Pos.iter xO p d) = Zpos p * 2 ^ Zpos d.
Proof.
  induction d as [|d IH] using Pos.peano_ind; [simpl; lia|].
  rewrite Pos.iter_succ, Pos2Z.inj_succ, Z.pow_succ_r by lia.
  rewrite Pos2Z.inj_xO, IH. ring.
Qed.

(** The conversion of a positive integer of at most 53 bits is exact. *)
Lemma f64_of_Z_exact z :
  0 < z < 2 ^ 53 →
  ∃ k a, f64_of_Z z = S754_finite false k (- a) ∧ Zpos k = z * 2 ^ a ∧ 0 ≤ a ≤ 52.
Proof.
  intros Hz. assert (Hl : 0 ≤ Z.log2 z ≤ 52).
  { split; [apply Z.log2_nonneg|]. pose proof (Z.log2_lt_pow2 z 53). lia. }
  unfold f64_of_Z, binary_normalize. destruct z as [|z|z]; [lia| |lia].
  unfold binary_round, shl_align. rewrite digits2_pos_log2.
  assert (Hf : fexp 53 1024 (Z.log2 (Zpos z) + 1 + 0) - 0 = - (52 - Z.log2 (Zpos z)))
    by (unfold fexp, emin; lia).
  replace (fexp 53 1024 (Z.log2 (Zpos z) + 1 + 0)) with (- (52 - Z.log2 (Zpos z))) by lia.
  remember (52 - Z.log2 (Zpos z)) as a eqn:Ea. assert (Ha : 0 ≤ a ≤ 52) by lia.
  rewrite Z.sub_0_r. destruct a as [|d|d]; [| |lia].
  - destruct (round_aux_small (Zpos z) 0 0) as (k & a & E & Hk & Ha'); [lia..|].
    rewrite Z.mul_1_r in E. exists k, a. done.
  - change (- Zpos d) with (Zneg d). cbv iota beta. destruct (round_aux_small (Zpos z) (Zpos d) (Zneg d)) as (k & a & E & Hk & Ha'); [lia..|].
    exists k, a. rewrite iter_xO, E. split_and!; [f_equal; lia|done|lia..].
Qed.

(** The product of such a conversion and a double. *)
Lemma f64_mul_exact z c m e b :
  0 < z → 0 < c → z * c < 2 ^ 53 → Zpos m = c * 2 ^ b → 0 ≤ b → Z.log2 (Zpos m) = 52 → -52 ≤ e ≤ 0 →
  ∃ k a, SFmul 53 1024 (f64_of_Z z) (S754_finite false m e) = S754_finite false k (e + b - a) ∧
    Zpos k = z * c * 2 ^ a ∧ 0 ≤ a ≤ 52.
Proof.
  intros Hz Hc Hzc Hm Hb Hl He.
  destruct (f64_of_Z_exact z) as (k & a & -> & Hk & Ha); [nia|].
  cbn [SFmul xorb]. rewrite Pos2Z.inj_mul, Hk, Hm.
  replace (z * 2 ^ a * (c * 2 ^ b)) with (z * c * 2 ^ (a + b)) by (rewrite Z.pow_add_r by lia; ring).
  assert (Hlc : Z.log2 c + b = 52) by (rewrite Hm, Z.log2_mul_pow2 in Hl by lia; lia).
  pose proof (Z.log2_mul_below z c). pose proof (Z.log2_nonneg z). pose proof (Z.log2_nonneg c).
  assert (Z.log2 (z * c) ≤ 52) by (pose proof (Z.log2_lt_pow2 (z * c) 53); nia).
  destruct (round_aux_small (z * c) (a + b) (- a + e)) as (k' & a' & E & Hk' & Ha'); [nia|lia..|].
  exists k', a'. rewrite E. split_and!; [f_equal; lia|done|lia..].
Qed.
