(* ===== verification/Binary.v ===== *)
(** * encoding/binary and math.Float32bits: values on a byte stream

    What the encoders of points and sparse vectors use of the standard library:
    the IEEE bit patterns of [float32], [binary.Read] of a fixed-size value and
    [io.ReadFull], as computations on the bytes a reader has left. [exact] says
    that a reader consumes precisely one encoding: it leaves what follows and
    fails on every strict prefix. It is closed under sequencing, so the exactness
    of a decoder follows from that of its parts. *)
From stdpp Require Import base list numbers.
From Stdlib Require Import Strings.Byte ZArith Lia Floats.SpecFloat.
From S2P Require Import Prelude Float32.

#[local] Open Scope Z_scope.

(** ** Bit patterns of float32 *)
Definition sign_bit (s : bool) : Z := if s then 2 ^ 31 else 0.

Definition Float32bits (x : f32) : Z :=
  match x with
  | S754_zero s => sign_bit s
  | S754_infinity s => sign_bit s + 255 * 2 ^ 23
  | S754_nan => 255 * 2 ^ 23 + 2 ^ 22
  | S754_finite s m e =>
      if Zpos m <? 2 ^ 23 then sign_bit s + Zpos m
      else sign_bit s + (e + 150) * 2 ^ 23 + (Zpos m - 2 ^ 23)
  end.

Definition Float32frombits (b : Z) : f32 :=
  let s := 2 ^ 31 <=? b in
  let e := b `div` 2 ^ 23 `mod` 256 in
  let m := b `mod` 2 ^ 23 in
  if e =? 0 then
    match m with Zpos p => S754_finite s p (-149) | _ => S754_zero s end
  else if e =? 255 then (if m =? 0 then S754_infinity s else S754_nan)
  else match m + 2 ^ 23 with Zpos p => S754_finite s p (e - 150) | _ => S754_nan end.

(** A value of the format: every NaN is the canonical one. *)
Definition valid_f32 (x : f32) : Prop := valid_binary 24 128 x = true.

Lemma digits2_bounds p : 2 ^ (Zpos (digits2_pos p) - 1) ≤ Zpos p < 2 ^ Zpos (digits2_pos p).
Proof.
  induction p as [p IH|p IH|]; simpl digits2_pos; [..|simpl; lia];
    rewrite Pos2Z.inj_succ; unfold Z.succ; rewrite Z.add_simpl_r;
    assert (E : 2 ^ (Zpos (digits2_pos p) + 1) = 2 * 2 ^ Zpos (digits2_pos p))
      by (rewrite Z.pow_add_r by lia; lia);
    assert (E' : 2 ^ Zpos (digits2_pos p) = 2 * 2 ^ (Zpos (digits2_pos p) - 1))
      by (rewrite <- Z.pow_succ_r by lia; f_equal; lia);
    lia.
Qed.

Lemma digits2_le p k : 0 ≤ k → Zpos (digits2_pos p) ≤ k ↔ Zpos p < 2 ^ k.
Proof.
  intros Hk. pose proof (digits2_bounds p) as [Hl Hh]. split; intros H.
  - eapply Z.lt_le_trans; [exact Hh|]. apply Z.pow_le_mono_r; lia.
  - destruct (decide (Zpos (digits2_pos p) ≤ k)) as [|Hn]; [done|].
    assert (2 ^ k ≤ 2 ^ (Zpos (digits2_pos p) - 1)) by (apply Z.pow_le_mono_r; lia). lia.
Qed.

(** The mantissa and exponent of a finite value: subnormal, or with 24 digits. *)
Lemma valid_f32_finite s m e :
  valid_f32 (S754_finite s m e) ↔
  (Zpos m < 2 ^ 23 ∧ e = -149) ∨ (2 ^ 23 ≤ Zpos m < 2 ^ 24 ∧ -149 ≤ e ≤ 104).
Proof.
  unfold valid_f32, valid_binary, bounded, canonical_mantissa, fexp, SpecFloat.emin.
  rewrite andb_true_iff, Z.leb_le.
  pose proof (digits2_le m 23 ltac:(lia)). pose proof (digits2_le m 24 ltac:(lia)).
  set (d := Zpos (digits2_pos m)) in *.
  assert (E : ∀ x y, Zeq_bool x y = true ↔ x = y).
  { intros x y. split; intros Hxy; [by apply Zeq_bool_eq|by apply Zeq_is_eq_bool]. }
  rewrite E. lia.
Qed.

Lemma Float32bits_range x : valid_f32 x → 0 ≤ Float32bits x < 2 ^ 32.
Proof.
  destruct x as [s|s| |s m e]; unfold Float32bits, sign_bit; try (destruct s; lia); [lia|].
  intros [H|H]%valid_f32_finite; destruct (Z.ltb_spec (Zpos m) (2 ^ 23)); destruct s; lia.
Qed.

(** The three fields of a bit pattern. *)
Lemma frombits_fields s e m :
  0 ≤ e < 256 → 0 ≤ m < 2 ^ 23 →
  let b := sign_bit s + e * 2 ^ 23 + m in
  (2 ^ 31 <=? b) = s ∧ b `div` 2 ^ 23 `mod` 256 = e ∧ b `mod` 2 ^ 23 = m.
Proof.
  intros He Hm b. unfold b, sign_bit.
  assert (Hb : (if s then 2 ^ 31 else 0) + e * 2 ^ 23 + m =
    ((if s then 1 else 0) * 256 + e) * 2 ^ 23 + m) by (destruct s; lia).
  rewrite Hb. split_and!.
  - destruct s; [apply Z.leb_le|apply Z.leb_gt]; lia.
  - rewrite Z.div_add_l, (Z.div_small m), Z.add_0_r by lia.
    rewrite Z.add_comm, Z.mod_add by lia. by apply Z.mod_small.
  - rewrite Z.add_comm, Z.mod_add by lia. by apply Z.mod_small.
Qed.

Lemma frombits_eq s e m :
  0 ≤ e < 256 → 0 ≤ m < 2 ^ 23 →
  Float32frombits (sign_bit s + e * 2 ^ 23 + m) =
  if e =? 0 then match m with Zpos p => S754_finite s p (-149) | _ => S754_zero s end
  else if e =? 255 then (if m =? 0 then S754_infinity s else S754_nan)
  else match m + 2 ^ 23 with Zpos p => S754_finite s p (e - 150) | _ => S754_nan end.
Proof.
  intros He Hm. destruct (frombits_fields s e m He Hm) as (E1 & E2 & E3).
  unfold Float32frombits. by rewrite E1, E2, E3.
Qed.

Lemma Float32_bits_round x : valid_f32 x → Float32frombits (Float32bits x) = x.
Proof.
  destruct x as [s|s| |s m e]; intros Hx; unfold Float32bits.
  - rewrite <- (Z.add_0_r (sign_bit s)), <- (Z.add_0_r (sign_bit s)), <- Z.add_assoc at 1.
    change (0 + 0) with (0 * 2 ^ 23 + 0). rewrite Z.add_assoc. by rewrite frombits_eq.
  - rewrite <- (Z.add_0_r (_ + _)). by rewrite frombits_eq.
  - done.
  - apply valid_f32_finite in Hx. destruct (Z.ltb_spec (Zpos m) (2 ^ 23)).
    + rewrite <- (Z.add_0_r (sign_bit s)). change 0 with (0 * 2 ^ 23) at 1.
      rewrite frombits_eq by lia. simpl. destruct Hx as [[_ ->]|]; [done|lia].
    + rewrite frombits_eq by lia.
      rewrite !(proj2 (Z.eqb_neq _ _)) by lia.
      replace (Zpos m - 2 ^ 23 + 2 ^ 23) with (Zpos m) by lia.
      f_equal. lia.
Qed.

(** Every bit pattern denotes a value of the format. *)
Lemma Float32frombits_valid b : valid_f32 (Float32frombits b).
Proof.
  unfold Float32frombits.
  pose proof (Z.mod_pos_bound b (2 ^ 23) ltac:(lia)) as Hm.
  pose proof (Z.mod_pos_bound (b `div` 2 ^ 23) 256 ltac:(lia)) as He.
  set (e := _ `mod` 256) in *. set (m := b `mod` _) in *.
  destruct (Z.eqb_spec e 0); [|destruct (Z.eqb_spec e 255)].
  - destruct m as [|p|p] eqn:E; [done| |done]. apply valid_f32_finite. lia.
  - by destruct (m =? 0).
  - destruct (m + 2 ^ 23) as [|p|p] eqn:E; [done| |done]. apply valid_f32_finite. lia.
Qed.

(** ** Readers *)
Inductive readError := EOF | ErrUnexpectedEOF | ErrFormat.

#[export] Instance readError_eq_dec : EqDecision readError.
Proof. solve_decision. Defined.

(** A computation on the bytes the [io.Reader] has left. *)
Definition Reader := M (list byte) readError.
#[export] Typeclasses Transparent Reader.

(** [io.ReadFull(r, buf)] for a buffer of [n] bytes: nothing to read always
    succeeds, no byte at all is [io.EOF], too few are [io.ErrUnexpectedEOF]. *)
Definition readFull (n : Z) : Reader (list byte) := λ r,
  if n <=? 0 then (Ok [], r)
  else match r with
  | [] => (Err EOF, [])
  | _ => if len r <? n then (Err ErrUnexpectedEOF, [])
         else (Ok (take (Z.to_nat n) r), drop (Z.to_nat n) r)
  end.

(** [binary.Read] of a [uint16], [uint32], [uint64], [float32] and [bool] *)
Definition readUint (n : Z) : Reader Z := bs ← readFull n; mret (le_get bs).
Definition readUint16 : Reader Z := readUint 2.
Definition readUint32 : Reader Z := readUint 4.
Definition readUint64 : Reader Z := readUint 8.
Definition readFloat32 : Reader f32 := b ← readUint32; mret (Float32frombits b).
Definition readBool : Reader bool := b ← readUint 1; mret (negb (b =? 0)).

(** [for i := range s { binary.Read(r, &s[i]) }] over a slice of length [n] *)
Fixpoint readN {A} (n : nat) (m : Reader A) : Reader (list A) :=
  match n with
  | O => mret []
  | S n => x ← m; xs ← readN n m; mret (x :: xs)
  end.

(** [binary.Write] of a [float32] and of a [bool] *)
Definition putFloat32 (x : f32) : list byte := PutUint32 (Float32bits x).
Definition putBool (b : bool) : list byte := [if b then x01 else x00].

(** ** Exact readers *)
Definition fails {A} (m : Reader A) (b : list byte) : Prop := ∃ e s, m b = (Err e, s).

Record exact {A} (m : Reader A) (x : A) (a : list byte) : Prop := {
  exact_whole rest : m (a ++ rest) = (Ok x, rest);
  exact_prefix b c : a = b ++ c → c ≠ [] → fails m b
}.
Arguments exact_whole {A m x a}.
Arguments exact_prefix {A m x a}.

(** One list cut in two ways: the cut of [b] is inside the first or the second part. *)
Lemma app_cut {A} (a1 a2 b c : list A) :
  a1 ++ a2 = b ++ c → c ≠ [] →
  (∃ k, k ≠ [] ∧ a1 = b ++ k) ∨ (∃ k, b = a1 ++ k ∧ a2 = k ++ c).
Proof.
  intros H Hc. apply app_eq_inv in H as [(k & -> & ->)|(k & -> & ->)].
  - destruct k as [|x k]; [right|left].
    + exists []. by rewrite !app_nil_r.
    + by exists (x :: k).
  - right. by exists k.
Qed.

Lemma exact_ret {A} (x : A) : exact (mret x) x [].
Proof. split; [done|]. intros b c H Hc. destruct b, c; done. Qed.

Lemma exact_bind {A B} (m : Reader A) (f : A → Reader B) x y a1 a2 :
  exact m x a1 → exact (f x) y a2 → exact (m ≫= f) y (a1 ++ a2).
Proof.
  intros [Hw Hp] [Gw Gp]. split.
  - intros rest. rewrite <- app_assoc. unfold mbind, M_bind. by rewrite Hw, Gw.
  - intros b c H Hc. destruct (app_cut _ _ _ _ H Hc) as [(k & Hk & E)|(k & -> & E)].
    + destruct (Hp b k E Hk) as (e & s & Hm). exists e, s. by apply M_bind_Err.
    + destruct (Gp k c E Hc) as (e & s & Hm). exists e, s.
      unfold mbind, M_bind. by rewrite Hw.
Qed.

Lemma exact_map {A B} (m : Reader A) (f : A → B) x a :
  exact m x a → exact (y ← m; mret (f y)) (f x) a.
Proof.
  intros H. rewrite <- (app_nil_r a). eapply exact_bind; [exact H|apply exact_ret].
Qed.

Lemma exact_readN {A} (m : Reader A) (enc : A → list byte) xs :
  Forall (λ x, exact m x (enc x)) xs → exact (readN (length xs) m) xs (xs ≫= enc).
Proof.
  induction 1 as [|x xs Hx _ IH]; [apply exact_ret|]. simpl.
  eapply exact_bind; [exact Hx|]. by apply exact_map.
Qed.

Lemma exact_readFull n a : n = len a → exact (readFull n) a a.
Proof.
  intros ->. split.
  - intros rest. unfold readFull. destruct a as [|x a]; [done|].
    replace (len (x :: a) <=? 0) with false by (symmetry; apply Z.leb_gt; unfold len; simpl; lia).
    cbn [app]. rewrite (proj2 (Z.ltb_ge _ _)) by (unfold len; simpl; rewrite length_app; lia).
    unfold len. rewrite Nat2Z.id.
    change (x :: a ++ rest) with ((x :: a) ++ rest).
    by rewrite take_app_length, drop_app_length.
  - intros b c -> Hc. unfold fails, readFull. rewrite len_app.
    assert (0 < len c) by (destruct c; [done|unfold len; simpl; lia]).
    pose proof (len_nonneg b).
    rewrite (proj2 (Z.leb_gt _ _)) by lia.
    destruct b as [|x b]; [by eexists _, _|].
    rewrite (proj2 (Z.ltb_lt _ _)) by lia. by eexists _, _.
Qed.

Lemma exact_readUint n z :
  0 ≤ z < 256 ^ Z.of_nat n → exact (readUint (Z.of_nat n)) z (le_put n z).
Proof.
  intros Hz. unfold readUint.
  assert (E : le_get (le_put n z) = z) by (rewrite le_get_put; by apply Z.mod_small).
  rewrite <- E at 1. apply (exact_map (readFull (Z.of_nat n)) le_get).
  apply exact_readFull. unfold len. by rewrite length_le_put.
Qed.

Lemma exact_readUint16 z : 0 ≤ z < 2 ^ 16 → exact readUint16 z (PutUint16 z).
Proof. apply (exact_readUint 2). Qed.
Lemma exact_readUint32 z : 0 ≤ z < 2 ^ 32 → exact readUint32 z (PutUint32 z).
Proof. apply (exact_readUint 4). Qed.
Lemma exact_readUint64 z : 0 ≤ z < 2 ^ 64 → exact readUint64 z (PutUint64 z).
Proof. apply (exact_readUint 8). Qed.

Lemma exact_readFloat32 x : valid_f32 x → exact readFloat32 x (putFloat32 x).
Proof.
  intros Hx. rewrite <- (Float32_bits_round x Hx) at 1. unfold readFloat32, putFloat32.
  apply exact_map, exact_readUint32. by apply Float32bits_range.
Qed.

Lemma exact_readBool b : exact readBool b (putBool b).
Proof.
  unfold readBool, putBool. pose proof (exact_readUint 1 (if b then 1 else 0)) as H.
  replace b with (negb ((if b then 1 else 0) =? 0)) at 1 by (by destruct b).
  apply (exact_map (readUint 1) (λ z, negb (z =? 0))). destruct b; apply H; lia.
Qed.

#[export] Hint Resolve exact_ret exact_map exact_readFull exact_readUint16 exact_readUint32
  exact_readUint64 exact_readFloat32 exact_readBool : exact.

(** ** What a successful read returns *)
Definition returns {A} (m : Reader A) (P : A → Prop) : Prop :=
  ∀ r x s, m r = (Ok x, s) → P x.

Lemma returns_ret {A} (x : A) (P : A → Prop) : P x → returns (mret x) P.
Proof. intros HP r y s [= <- _]. done. Qed.

Lemma returns_bind {A B} (m : Reader A) (f : A → Reader B) (P : A → Prop) Q :
  returns m P → (∀ x, P x → returns (f x) Q) → returns (m ≫= f) Q.
Proof. intros Hm Hf r y s H. minv H as x s1 E. eapply Hf; [by eapply Hm|exact H]. Qed.

Lemma returns_true {A} (m : Reader A) : returns m (λ _, True).
Proof. done. Qed.

Lemma returns_readFull n : 0 ≤ n → returns (readFull n) (λ bs, len bs = n).
Proof.
  intros Hn r bs s. unfold readFull. destruct (Z.leb_spec n 0); [intros [= <- _]; rewrite len_nil; lia|].
  destruct r as [|b r]; [done|].
  destruct (Z.ltb_spec (len (b :: r)) n) as [|Hl]; [done|]. intros [= <- _].
  unfold len in *. rewrite length_take. lia.
Qed.

Lemma returns_readUint n : 0 ≤ n → returns (readUint n) (λ z, 0 ≤ z < 256 ^ n).
Proof.
  intros Hn. eapply returns_bind; [by apply returns_readFull|].
  intros bs <-. apply returns_ret, le_get_range.
Qed.

Lemma returns_readFloat32 : returns readFloat32 valid_f32.
Proof.
  eapply returns_bind; [apply returns_true|]. intros b _. apply returns_ret, Float32frombits_valid.
Qed.

Lemma returns_readN {A} n (m : Reader A) P :
  returns m P → returns (readN n m) (λ xs, length xs = n ∧ Forall P xs).
Proof.
  intros Hm. induction n as [|n IH]; [by apply returns_ret|].
  eapply returns_bind; [exact Hm|]. intros x Hx.
  eapply returns_bind; [exact IH|]. intros xs [Hl Hxs]. apply returns_ret. simpl. auto.
Qed.

(** Sequencing: [rbind tac] proves the first part of a bind by [tac]. *)
Tactic Notation "rbind" tactic3(tac) := eapply returns_bind; [tac|cbv beta].
