(* ===== verification/Heap.v ===== *)
(** * container/heap

    The binary heap of Go's [container/heap] over a slice, as
    [pkg/index/hnsw/node.go] uses it through [CandidateHeap] and
    [MaxCandidateHeap]: [heap.Push], [heap.Pop], and the loop that pops a heap
    into a slice from its end. The order of equal elements is that of the
    library's sift-up and sift-down. *)
From stdpp Require Import base list numbers sorting.
From Stdlib Require Import Lia.
From S2P Require Import Prelude.

Section heap.
Context {A : Type} `{!Inhabited A} (less : A → A → bool).

Implicit Types (l : list A) (i j k n : nat).

(** [Swap(i, j)] *)
Definition swap i j l : list A := <[i := l !!! j]> (<[j := l !!! i]> l).

Definition parent j : nat := (j - 1) / 2.

(** [up(h, j)]: [j] at least halves, so [j + 1] steps are enough. *)
Fixpoint up (fuel : nat) j l : list A :=
  match fuel with
  | O => l
  | S fuel =>
      let i := parent j in
      if (i =? j)%nat || negb (less (l !!! j) (l !!! i)) then l
      else up fuel i (swap i j l)
  end.

(** [down(h, i, n)]: [i] grows towards [n], so [n - i] steps and one to stop are
    enough. *)
Fixpoint down (fuel : nat) i n l : list A :=
  match fuel with
  | O => l
  | S fuel =>
      let j1 := 2 * i + 1 in
      if n <=? j1 then l else
      let j := if (j1 + 1 <? n) && less (l !!! (j1 + 1)) (l !!! j1) then j1 + 1 else j1 in
      if negb (less (l !!! j) (l !!! i)) then l
      else down fuel j n (swap i j l)
  end.

Definition heap_Push (x : A) l : list A := up (S (length l)) (length l) (l ++ [x]).

(** [None] where the Go code would panic on an empty heap. *)
Definition heap_Pop l : option (A * list A) :=
  match l with
  | [] => None
  | _ =>
      let n := length l - 1 in
      let l := down (S n) 0 n (swap 0 n l) in
      Some (l !!! n, take n l)
  end.

(** [for i := len-1; i >= 0; i-- { result[i] = heap.Pop(h) }] *)
Fixpoint drain (n : nat) l (acc : list A) : list A :=
  match n with
  | O => acc
  | S n => match heap_Pop l with Some (x, l) => drain n l (x :: acc) | None => acc end
  end.
Definition heap_drain l : list A := drain (length l) l [].

Lemma parent_spec j :
  0 < j → 2 * parent j + 1 = j ∨ 2 * parent j + 2 = j.
Proof.
  intros Hj. unfold parent. pose proof (Nat.div_mod_eq (j - 1) 2).
  pose proof (Nat.mod_upper_bound (j - 1) 2). lia.
Qed.
Lemma parent_0 : parent 0 = 0.
Proof. done. Qed.
Lemma parent_le j : parent j ≤ j.
Proof. destruct j; [done|]. pose proof (parent_spec (S j)). lia. Qed.

(** ** Swapping *)
Lemma length_swap i j l : length (swap i j l) = length l.
Proof. unfold swap. by rewrite !length_insert. Qed.

Lemma lookup_swap i j k l :
  i < length l → j < length l →
  swap i j l !!! k = if decide (k = i) then l !!! j else if decide (k = j) then l !!! i else l !!! k.
Proof.
  intros Hi Hj. unfold swap. case_decide as E1; [subst k|].
  { by rewrite list_lookup_total_insert_eq by (by rewrite length_insert). }
  rewrite list_lookup_total_insert_ne by done. case_decide as E2; [subst k|].
  - by rewrite list_lookup_total_insert_eq.
  - by rewrite list_lookup_total_insert_ne.
Qed.

Lemma insert_perm i x y l : l !! i = Some x → y :: l ≡ₚ x :: <[i := y]> l.
Proof.
  intros H. rewrite (insert_take_drop l i y) by (by eapply lookup_lt_Some).
  rewrite <- (take_drop_middle l i x H) at 1. rewrite <- !Permutation_middle.
  apply Permutation_swap.
Qed.

Lemma swap_perm i j l : i < length l → j < length l → swap i j l ≡ₚ l.
Proof.
  intros Hi Hj. unfold swap. set (m := <[j := l !!! i]> l).
  assert (Hlj : l !! j = Some (l !!! j)) by by apply list_lookup_lookup_total_lt.
  assert (Hm : l !!! i :: l ≡ₚ l !!! j :: m) by by apply insert_perm.
  assert (Hmi : m !! i = Some (l !!! i)).
  { subst m. destruct (decide (i = j)) as [->|N].
    - by rewrite list_lookup_insert_eq.
    - rewrite list_lookup_insert_ne by done. by apply list_lookup_lookup_total_lt. }
  pose proof (insert_perm i _ (l !!! j) m Hmi) as Hp.
  apply (Permutation_cons_inv (a := l !!! i)). by rewrite <- Hp, Hm.
Qed.

Lemma up_perm fuel j l : j < length l → up fuel j l ≡ₚ l.
Proof.
  revert j l. induction fuel as [|fuel IH]; intros j l Hj; [done|]. simpl.
  destruct (_ || _); [done|]. pose proof (parent_le j). assert (parent j < length l) by lia.
  rewrite IH by (by rewrite length_swap). by apply swap_perm.
Qed.

Lemma down_perm fuel i n l : i < length l → n ≤ length l → down fuel i n l ≡ₚ l.
Proof.
  revert i l. induction fuel as [|fuel IH]; intros i l Hi Hn; [done|]. cbn [down].
  destruct (Nat.leb_spec n (2 * i + 1)); [done|].
  set (j := if _ && _ then _ else _).
  assert (Hj : j < n).
  { subst j. destruct (Nat.ltb_spec (2 * i + 1 + 1) n); simpl; [destruct (less _ _)|]; lia. }
  destruct (negb _); [done|].
  rewrite IH by (rewrite length_swap; lia). apply swap_perm; lia.
Qed.

(** Elements at and beyond [n] are not touched by [down]. *)
Lemma down_beyond fuel i n l k :
  i < n → n ≤ length l → n ≤ k → down fuel i n l !!! k = l !!! k.
Proof.
  revert i l. induction fuel as [|fuel IH]; intros i l Hi Hn Hk; [done|]. cbn [down].
  destruct (Nat.leb_spec n (2 * i + 1)); [done|].
  set (j := if _ && _ then _ else _).
  assert (Hj : j < n).
  { subst j. destruct (Nat.ltb_spec (2 * i + 1 + 1) n); simpl; [destruct (less _ _)|]; lia. }
  destruct (negb _); [done|].
  rewrite IH by (rewrite ?length_swap; lia). rewrite lookup_swap by lia.
  do 2 (case_decide; [lia|]). done.
Qed.

Lemma Push_perm x l : heap_Push x l ≡ₚ x :: l.
Proof.
  unfold heap_Push. rewrite up_perm by (rewrite length_app; simpl; lia).
  by rewrite <- Permutation_cons_append.
Qed.

Lemma length_Push x l : length (heap_Push x l) = S (length l).
Proof. by rewrite Push_perm. Qed.

Lemma Pop_eq l :
  l ≠ [] →
  heap_Pop l =
    (let n := length l - 1 in let m := down (S n) 0 n (swap 0 n l) in Some (m !!! n, take n m)).
Proof. by destruct l. Qed.

Lemma Pop_perm l x l' : heap_Pop l = Some (x, l') → l ≡ₚ x :: l'.
Proof.
  intros H. destruct (decide (l = [])) as [->|Hne]; [done|]. rewrite Pop_eq in H by done.
  assert (Hl : 0 < length l) by (destruct l; [done|simpl; lia]). cbv zeta in H.
  set (m := down _ _ _ _) in H.
  assert (Hm : m ≡ₚ l).
  { subst m. rewrite down_perm by (rewrite length_swap; lia). apply swap_perm; lia. }
  assert (Hlen : length m = length l) by by rewrite Hm.
  injection H as <- <-.
  transitivity m; [by symmetry|]. rewrite <- (take_drop (length l - 1) m) at 1.
  rewrite (drop_S m (m !!! (length l - 1)) (length l - 1))
    by (apply list_lookup_lookup_total_lt; rewrite Hlen; lia).
  rewrite drop_ge by lia. symmetry. apply Permutation_cons_append.
Qed.

Lemma Pop_None l : heap_Pop l = None ↔ l = [].
Proof. by destruct l. Qed.

Lemma Pop_Some l : l ≠ [] → ∃ x l', heap_Pop l = Some (x, l').
Proof. destruct l; [done|]. intros _. unfold heap_Pop. by eexists _, _. Qed.

Lemma drain_perm n l acc : length l = n → drain n l acc ≡ₚ l ++ acc.
Proof.
  revert l acc. induction n as [|n IH]; intros l acc Hl; simpl.
  { by destruct l. }
  destruct (Pop_Some l) as (x & l' & E); [by intros ->|]. rewrite E.
  apply Pop_perm in E. rewrite IH by (rewrite E in Hl; simpl in Hl; lia).
  rewrite E. by rewrite <- Permutation_middle.
Qed.

Lemma heap_drain_perm l : heap_drain l ≡ₚ l.
Proof. unfold heap_drain. rewrite drain_perm by done. by rewrite app_nil_r. Qed.

(** ** The heap order

    [comparable] elements are those on which not being below is transitive. *)
Context (comparable : A → Prop).
Context (less_asym : ∀ a b, less a b = true → less b a = false).
Context (less_ge_trans : ∀ a b c,
  comparable b → less b a = false → less c b = false → less c a = false).

(** No element of the first [n] is below its parent. *)
Definition heap_ok n l : Prop :=
  ∀ k, 0 < k < n → less (l !!! k) (l !!! parent k) = false.

Lemma less_irrefl a : less a a = false.
Proof. destruct (less a a) eqn:E; [|done]. pose proof (less_asym _ _ E). congruence. Qed.

Lemma heap_root n l k :
  Forall comparable l → n ≤ length l → heap_ok n l → k < n → less (l !!! k) (l !!! 0) = false.
Proof.
  intros Hc Hn Hok. induction (lt_wf k) as [k _ IH]. intros Hk.
  destruct (decide (k = 0)) as [->|Hk0]; [apply less_irrefl|].
  pose proof (parent_spec k). apply less_ge_trans with (b := l !!! parent k).
  - apply (Forall_lookup_total_1 _ l); [done|lia].
  - apply IH; lia.
  - apply Hok; lia.
Qed.

Lemma Forall_swap i j l (P : A → Prop) :
  i < length l → j < length l → Forall P l → Forall P (swap i j l).
Proof. intros Hi Hj. by rewrite swap_perm. Qed.

Lemma up_ok fuel j l :
  j < fuel → j < length l → Forall comparable l →
  (∀ k, 0 < k < length l → k ≠ j → less (l !!! k) (l !!! parent k) = false) →
  (∀ k, 0 < k < length l → parent k = j → 0 < j → less (l !!! k) (l !!! parent j) = false) →
  heap_ok (length l) (up fuel j l).
Proof.
  revert j l. induction fuel as [|fuel IH]; intros j l Hf Hj Hc H1 H2; [lia|]. simpl.
  destruct (decide (j = 0)) as [->|Hj0].
  { rewrite parent_0. simpl. intros k Hk. apply H1; lia. }
  pose proof (parent_spec j). set (p := parent j) in *.
  rewrite (proj2 (Nat.eqb_neq p j)) by lia. simpl.
  destruct (less (l !!! j) (l !!! p)) eqn:E; simpl.
  2: { intros k Hk. destruct (decide (k = j)) as [->|N]; [done|]. by apply H1. }
  assert (Hcp : comparable (l !!! p)) by (apply (Forall_lookup_total_1 _ l); [done|lia]).
  pose proof (less_asym _ _ E) as E'.
  rewrite <- (length_swap p j l). apply IH; rewrite ?length_swap; try lia.
  - apply Forall_swap; [lia|lia|done].
  - intros k Hk Hkp. rewrite !lookup_swap by lia.
    pose proof (parent_spec k). rewrite (decide_False (P := k = p)) by done.
    destruct (decide (k = j)) as [->|Hkj].
    { fold p. by rewrite decide_True by done. }
    specialize (H1 k ltac:(lia) Hkj). specialize (H2 k ltac:(lia)).
    case_decide as E1; [|case_decide as E2; [apply H2; lia|done]].
    rewrite E1 in H1. by apply (less_ge_trans _ (l !!! p)).
  - intros k Hk Hkp Hp. rewrite !lookup_swap by lia. pose proof (parent_spec k).
    pose proof (parent_spec p). rewrite (decide_False (P := k = p)) by lia.
    rewrite (decide_False (P := parent p = p)) by lia.
    rewrite (decide_False (P := parent p = j)) by lia.
    assert (Hpp : less (l !!! p) (l !!! parent p) = false) by (apply H1; lia).
    case_decide; [done|]. apply (less_ge_trans _ (l !!! p)); [done|done|].
    rewrite <- Hkp. apply H1; lia.
Qed.

Lemma Push_ok x l :
  Forall comparable l → comparable x → heap_ok (length l) l →
  heap_ok (length (heap_Push x l)) (heap_Push x l).
Proof.
  intros Hc Hx Hok. rewrite length_Push. unfold heap_Push.
  assert (Hlen : length (l ++ [x]) = S (length l)) by (rewrite length_app; simpl; lia).
  rewrite <- Hlen. apply up_ok; [lia|lia| | |].
  - apply Forall_app_2; [done|by constructor].
  - intros k Hk Hkj. pose proof (parent_spec k).
    rewrite !lookup_total_app_l by lia. apply Hok. lia.
  - intros k Hk Hkj Hj. pose proof (parent_spec k). lia.
Qed.

Lemma down_ok fuel i n l :
  n - i < fuel → i < n → n ≤ length l → Forall comparable l →
  (∀ k, 0 < k < n → parent k ≠ i → less (l !!! k) (l !!! parent k) = false) →
  (∀ k, 0 < k < n → parent k = i → 0 < i → less (l !!! k) (l !!! parent i) = false) →
  heap_ok n (down fuel i n l).
Proof.
  revert i l. induction fuel as [|fuel IH]; intros i l Hf Hi Hn Hc H1 H2; [lia|]. cbn [down].
  destruct (Nat.leb_spec n (2 * i + 1)) as [Hle|Hlt].
  { intros k Hk. apply H1; [done|]. pose proof (parent_spec k). lia. }
  set (j := if _ && _ then _ else _).
  assert (j < n ∧ (j = 2 * i + 1 ∨ j = 2 * i + 2) ∧
    ∀ k, 0 < k < n → parent k = i → less (l !!! k) (l !!! j) = false) as (Hjn & Hji & Hmin).
  { subst j. destruct (Nat.ltb_spec (2 * i + 1 + 1) n) as [H3|H3]; cbn [andb].
    - destruct (less (l !!! (2 * i + 1 + 1)) (l !!! (2 * i + 1))) eqn:E;
        (split; [lia|]; split; [lia|]);
        intros k Hk Hki; destruct (parent_spec k) as [E1|E1]; try lia; rewrite Hki in E1.
      + rewrite <- E1. by apply less_asym.
      + replace k with (2 * i + 1 + 1) by lia. apply less_irrefl.
      + rewrite <- E1. apply less_irrefl.
      + replace k with (2 * i + 1 + 1) by lia. done.
    - split; [lia|split; [lia|]]. intros k Hk Hki. pose proof (parent_spec k).
      replace k with (2 * i + 1) by lia. apply less_irrefl. }
  assert (Hpj : parent j = i) by (pose proof (parent_spec j); lia).
  assert (Hcj : comparable (l !!! j)) by (apply (Forall_lookup_total_1 _ l); [done|lia]).
  destruct (less (l !!! j) (l !!! i)) eqn:E; simpl.
  2: { intros k Hk. destruct (decide (parent k = i)) as [Ek|Ek]; [|by apply H1].
       rewrite Ek. apply (less_ge_trans _ (l !!! j)); auto. }
  pose proof (less_asym _ _ E) as E'.
  apply IH; rewrite ?length_swap; try lia.
  - apply Forall_swap; [lia|lia|done].
  - intros k Hk Hkj. rewrite !lookup_swap by lia. pose proof (parent_spec k).
    rewrite (decide_False (P := parent k = j)) by done.
    destruct (decide (k = i)) as [->|Hki].
    { rewrite decide_False by lia. apply H2; [lia|done|lia]. }
    destruct (decide (k = j)) as [->|Hkj'].
    { by rewrite decide_True by done. }
    case_decide as Ek; [by apply Hmin|]. by apply H1.
  - intros k Hk Hkj Hj0. rewrite !lookup_swap by lia. pose proof (parent_spec k).
    rewrite (decide_False (P := k = i)) by lia. rewrite (decide_False (P := k = j)) by lia.
    rewrite decide_True by done. rewrite <- Hkj. apply H1; lia.
Qed.

(** [Pop] returns a least element and leaves a heap. *)
Lemma Pop_ok l x l' :
  Forall comparable l → heap_ok (length l) l → heap_Pop l = Some (x, l') →
  heap_ok (length l') l' ∧ Forall (λ y, less y x = false) l.
Proof.
  intros Hc Hok H. destruct (decide (l = [])) as [->|Hne]; [done|].
  rewrite Pop_eq in H by done. cbv zeta in H.
  assert (Hl : 0 < length l) by (destruct l; [done|simpl; lia]).
  set (n := length l - 1) in *. set (s := swap 0 n l) in *.
  assert (Hs : length s = length l) by apply length_swap.
  set (d := down (S n) 0 n s) in *. injection H as Hx <-.
  assert (Ex : x = l !!! 0).
  { rewrite <- Hx. unfold d. destruct (decide (n = 0)) as [En|En].
    - rewrite En. simpl. unfold s. rewrite En, lookup_swap by lia. done.
    - rewrite down_beyond by lia. unfold s. rewrite lookup_swap by lia.
      rewrite decide_False, decide_True by lia. done. }
  assert (Hlen : length d = length l).
  { rewrite <- Hs. apply Permutation_length, down_perm; lia. }
  split.
  - rewrite length_take, Hlen, Nat.min_l by lia.
    destruct (decide (n = 0)) as [En|En]; [intros k Hk; lia|].
    assert (Hd : heap_ok n d).
    { apply down_ok; [lia|lia|lia| | |lia].
      - apply Forall_swap; [lia|lia|done].
      - intros k Hk Hk0. pose proof (parent_spec k). unfold s. rewrite !lookup_swap by lia.
        rewrite !decide_False by lia. apply Hok. lia. }
    intros k Hk. pose proof (parent_spec k). rewrite !lookup_total_take, !decide_True by lia. by apply Hd.
  - rewrite Forall_lookup_total. intros k Hk. rewrite Ex.
    by apply (heap_root (length l)).
Qed.

Lemma drain_sorted n l acc :
  Forall comparable l → heap_ok (length l) l → length l = n →
  StronglySorted (λ a b, less a b = false) acc →
  Forall (λ a, Forall (λ b, less a b = false) acc) l →
  StronglySorted (λ a b, less a b = false) (drain n l acc).
Proof.
  revert l acc. induction n as [|n IH]; intros l acc Hc Hok Hl Hs Hle; simpl; [done|].
  destruct (Pop_Some l) as (x & l' & E); [by intros ->|]. rewrite E.
  pose proof (Pop_perm _ _ _ E) as Hp. apply Pop_ok in E as [Hok' Hmin]; [|done..].
  rewrite Hp in Hc, Hle, Hl, Hmin. inversion Hc as [|? ? Hx Hc']; subst.
  inversion Hle as [|? ? Hx' Hle']; subst. inversion Hmin as [|? ? _ Hmin']; subst.
  apply IH; [done|done|simpl in Hl; lia|by constructor|].
  rewrite Forall_forall in *. intros a Ha. constructor; [by apply Hmin'|by apply Hle'].
Qed.

Lemma heap_drain_sorted l :
  Forall comparable l → heap_ok (length l) l →
  StronglySorted (λ a b, less a b = false) (heap_drain l).
Proof.
  intros Hc Hok. apply drain_sorted; [done..|constructor|].
  apply Forall_forall. intros. constructor.
Qed.

End heap.
