(* ===== verification/Hnsw.v ===== *)
(** * pkg/index/hnsw: the graph index

    The HNSW index of [hnsw.go], [search.go] and [node.go] with the graph and
    the vectors in memory ([graphMmap] and [vectorMmap] nil). Distances come from
    the [distance.Calculator] interface and, when configured, from a
    [quantization.Quantizer]; the level of a new node is an argument, the value
    [randomLevel] drew. Node numbers (uint32) are [nat]: [insertNode] keeps them
    below [MaxNodes]. The pooled visited list is a finite set here; Visited.v
    shows that the generation-stamped list behaves as one. Methods hold [h.mu]
    while they read or change the graph and [Insert] holds [buildLock]
    throughout; a method is one atomic step. *)
From stdpp Require Import base gmap strings list fin_maps numbers sorting.
From Stdlib Require Import Strings.Byte ZArith Lia Floats.SpecFloat.
From S2P Require Import Prelude Float32 Heap.

#[local] Open Scope Z_scope.

Definition vector := list f32.

(** distance.Calculator *)
Class Calculator := Distance : vector → vector → f32.

(** quantization.Quantizer *)
Record Quantizer := mkQuantizer {
  q_Encode : vector → option (list byte);
  q_Distance : vector → list byte → f32
}.

Inductive hnswError :=
| ErrDimensionMismatch | ErrPointExists | ErrPointNotFound | ErrTooManyNodes
| ErrParamM | ErrDimension.

#[export] Instance hnswError_eq_dec : EqDecision hnswError.
Proof. solve_decision. Defined.

(** ** node.go *)
Record Candidate := mkCandidate { cID : nat; cDistance : f32 }.

#[export] Instance Candidate_inhabited : Inhabited Candidate := populate (mkCandidate 0 f32_zero).
#[export] Instance Candidate_eq_dec : EqDecision Candidate.
Proof. solve_decision. Defined.

(** [CandidateHeap.Less] and [MaxCandidateHeap.Less] *)
Definition min_less (a b : Candidate) : bool := flt (cDistance a) (cDistance b).
Definition max_less (a b : Candidate) : bool := fgt (cDistance a) (cDistance b).

Section hnsw.
Context {payload : Type} {calc : Calculator} {sorter : Sorter}.

Record Node := mkNode {
  n_ID : string;
  n_Vector : vector;
  n_Quantized : option (list byte);
  n_Level : Z;
  n_Connections : list (list nat);
  n_deleted : bool;
  n_payload : payload
}.

#[local] Abbreviation R := (result hnswError).

(** [NewNode]: [make] panics on a negative length. *)
Definition NewNode (id : string) (v : vector) (level : Z) (p : payload)
    (q : option (list byte)) : R Node :=
  if level + 1 <? 0 then Panic
  else Ok (mkNode id v q level (replicate (Z.to_nat (level + 1)) []) false p).

Definition GetConnections (n : Node) (layer : Z) : R (list nat) :=
  if (layer >? n_Level n) || (layer <? 0) then Ok []
  else index (n_Connections n) layer.

Definition with_connections (n : Node) (c : list (list nat)) : Node :=
  mkNode (n_ID n) (n_Vector n) (n_Quantized n) (n_Level n) c (n_deleted n) (n_payload n).

Definition SetConnections (layer : Z) (connections : list nat) (n : Node) : R Node :=
  if (layer >? n_Level n) || (layer <? 0) then Ok n
  else
    index (n_Connections n) layer;;
    Ok (with_connections n (<[Z.to_nat layer := connections]> (n_Connections n))).

Definition MarkDeleted (n : Node) : Node :=
  mkNode (n_ID n) (n_Vector n) (n_Quantized n) (n_Level n) (n_Connections n) true (n_payload n).

(** ** hnsw.go *)
Record HNSW := mkHNSW {
  h_M : Z;
  h_Mmax : Z;
  h_Mmax0 : Z;
  h_efConstruction : Z;
  h_efSearch : Z;
  h_maxLevel : Z;
  h_nodes : list Node;
  h_entryPoint : nat;
  h_nodeCount : Z;
  h_dimension : Z;
  h_idToIndex : gmap string nat;
  h_deletedCount : Z;
  h_quantizer : option Quantizer
}.

Definition H := M HNSW hnswError.

Record Config := mkConfig {
  c_M : Z; c_EfConstruction : Z; c_EfSearch : Z; c_MaxElements : Z; c_Dimension : Z;
  c_Quantizer : option Quantizer
}.

(** The capacity [c_MaxElements] of the nodes is only a hint, but a negative one panics. *)
Definition New (cfg : Config) : R HNSW :=
  if c_M cfg <? 2 then Err ErrParamM
  else if c_Dimension cfg <=? 0 then Err ErrDimension
  else if c_MaxElements cfg <? 0 then Panic
  else Ok (mkHNSW (c_M cfg) (c_M cfg) (i64 (2 * c_M cfg)) (c_EfConstruction cfg)
    (c_EfSearch cfg) (-1) [] 0 0 (c_Dimension cfg) ∅ 0 (c_Quantizer cfg)).

Definition set_nodes (ns : list Node) (h : HNSW) : HNSW :=
  mkHNSW (h_M h) (h_Mmax h) (h_Mmax0 h) (h_efConstruction h) (h_efSearch h) (h_maxLevel h)
    ns (h_entryPoint h) (h_nodeCount h) (h_dimension h) (h_idToIndex h) (h_deletedCount h)
    (h_quantizer h).

(** [h.nodes[id]] *)
Definition node_at (h : HNSW) (id : nat) : R Node :=
  match h_nodes h !! id with Some n => Ok n | None => Panic end.

Definition getVector (h : HNSW) (id : nat) : R vector := n ← node_at h id; Ok (n_Vector n).

Definition getConnections (h : HNSW) (id : nat) (layer : Z) : R (list nat) :=
  n ← node_at h id; GetConnections n layer.

Definition setConnections (id : nat) (layer : Z) (connections : list nat) : H unit := λ h,
  match n ← node_at h id; SetConnections layer connections n with
  | Ok n => (Ok tt, set_nodes (<[id := n]> (h_nodes h)) h)
  | Err e => (Err e, h)
  | Panic => (Panic, h)
  end.

(** The distance from the query to a node, by its code when it has one. *)
Definition query_dist (h : HNSW) (query : vector) (id : nat) : R f32 :=
  n ← node_at h id;
  match h_quantizer h, n_Quantized n with
  | Some q, Some code => Ok (q_Distance q query code)
  | _, _ => Ok (Distance query (n_Vector n))
  end.

(** *** greedySearchLayer *)
Fixpoint greedy_scan (h : HNSW) (query : vector) (neighbors : list nat)
    (currentID : nat) (currentDist : f32) (changed : bool) : R (nat * f32 * bool) :=
  match neighbors with
  | [] => Ok (currentID, currentDist, changed)
  | neighborID :: rest =>
      n ← node_at h neighborID;
      if n_deleted n then greedy_scan h query rest currentID currentDist changed else
      dist ← query_dist h query neighborID;
      if flt dist currentDist then greedy_scan h query rest neighborID dist true
      else greedy_scan h query rest currentID currentDist changed
  end.

(** Each pass that changes anything gets strictly closer, so there are at most
    as many passes as nodes, and one that changes nothing. *)
Fixpoint greedy_loop (fuel : nat) (h : HNSW) (query : vector) (layer : Z)
    (currentID : nat) (currentDist : f32) : R nat :=
  match fuel with
  | O => Panic
  | S fuel =>
      neighbors ← getConnections h currentID layer;
      '(currentID, currentDist, changed) ←
        greedy_scan h query neighbors currentID currentDist false;
      if (changed : bool) then greedy_loop fuel h query layer currentID currentDist
      else Ok currentID
  end.

Definition greedySearchLayer (h : HNSW) (query : vector) (entryID : nat) (layer : Z) : R nat :=
  currentDist ← query_dist h query entryID;
  greedy_loop (S (length (h_nodes h))) h query layer entryID currentDist.

(** *** searchLayer *)
Record search_state := SearchState {
  ss_visited : gset nat;
  ss_candidates : list Candidate;
  ss_results : list Candidate
}.

(** [( *results)[0].Distance] *)
Definition worst (results : list Candidate) : R f32 :=
  match results with c :: _ => Ok (cDistance c) | [] => Panic end.

(** [results.Len() < ef || dist < ( *results)[0].Distance] *)
Definition improves (results : list Candidate) (ef : Z) (dist : f32) : R bool :=
  if len results <? ef then Ok true else w ← worst results; Ok (flt dist w).

(** [results.Len() >= ef && curr.Distance > ( *results)[0].Distance] *)
Definition should_stop (results : list Candidate) (ef : Z) (dist : f32) : R bool :=
  if ef <=? len results then w ← worst results; Ok (fgt dist w) else Ok false.

(** [heap.Push(results, c); if results.Len() > ef { heap.Pop(results) }] *)
Definition push_bounded (ef : Z) (c : Candidate) (results : list Candidate) : list Candidate :=
  let results := heap_Push max_less c results in
  if len results >? ef then
    match heap_Pop max_less results with Some (_, r) => r | None => results end
  else results.

Fixpoint explore (h : HNSW) (query : vector) (ef : Z) (neighbors : list nat)
    (st : search_state) : R search_state :=
  match neighbors with
  | [] => Ok st
  | id :: rest =>
      if decide (id ∈ ss_visited st) then explore h query ef rest st else
      let st := SearchState ({[id]} ∪ ss_visited st) (ss_candidates st) (ss_results st) in
      n ← node_at h id;
      if n_deleted n then explore h query ef rest st else
      dist ← query_dist h query id;
      better ← improves (ss_results st) ef dist;
      explore h query ef rest
        (if (better : bool) then
           SearchState (ss_visited st)
             (heap_Push min_less (mkCandidate id dist) (ss_candidates st))
             (push_bounded ef (mkCandidate id dist) (ss_results st))
         else st)
  end.

(** Every candidate popped was pushed when its node was first visited, so there
    are at most as many rounds as nodes, and one to find the heap empty. *)
Fixpoint search_loop (fuel : nat) (h : HNSW) (query : vector) (ef layer : Z)
    (st : search_state) : R (list Candidate) :=
  match fuel with
  | O => Panic
  | S fuel =>
      match heap_Pop min_less (ss_candidates st) with
      | None => Ok (ss_results st)
      | Some (curr, candidates) =>
          stop ← should_stop (ss_results st) ef (cDistance curr);
          if (stop : bool) then Ok (ss_results st) else
          neighbors ← getConnections h (cID curr) layer;
          st ← explore h query ef neighbors
                 (SearchState (ss_visited st) candidates (ss_results st));
          search_loop fuel h query ef layer st
      end
  end.

Definition searchLayer (h : HNSW) (query : vector) (entryID : nat) (ef layer : Z) :
    R (list Candidate) :=
  entryDist ← query_dist h query entryID;
  let c := mkCandidate entryID entryDist in
  results ← search_loop (S (length (h_nodes h))) h query ef layer
    (SearchState {[entryID]} (heap_Push min_less c []) (heap_Push max_less c []));
  Ok (heap_drain max_less results).

(** *** selectNeighborsHeuristic *)

(** Is [cVec] closer to one of [selected] than [cdist]? *)
Fixpoint dominated (h : HNSW) (cVec : vector) (cdist : f32) (selected : list Candidate) : R bool :=
  match selected with
  | [] => Ok false
  | s :: rest =>
      sVec ← getVector h (cID s);
      match sVec with
      | [] => dominated h cVec cdist rest       (* sVec == nil *)
      | _ => if flt (Distance cVec sVec) cdist then Ok true else dominated h cVec cdist rest
      end
  end.

Fixpoint heuristic_loop (h : HNSW) (maxConn : Z) (working selected discarded : list Candidate) :
    R (list Candidate * list Candidate) :=
  match working with
  | [] => Ok (selected, discarded)
  | c :: rest =>
      if maxConn <=? len selected then Ok (selected, discarded) else
      cVec ← getVector h (cID c);
      match cVec with
      | [] => heuristic_loop h maxConn rest selected (discarded ++ [c])   (* cVec == nil *)
      | _ =>
          rejected ← dominated h cVec (cDistance c) selected;
          if (rejected : bool) then heuristic_loop h maxConn rest selected (discarded ++ [c])
          else heuristic_loop h maxConn rest (selected ++ [c]) discarded
      end
  end.

Definition selectNeighborsHeuristic (h : HNSW) (candidates : list Candidate) (maxConn : Z) :
    R (list Candidate) :=
  if len candidates <=? maxConn then Ok candidates else
  '(selected, discarded) ← heuristic_loop h maxConn (sort_Slice min_less candidates) [] [];
  Ok (selected ++ take (Z.to_nat (maxConn - len selected)) discarded).

(** *** addConnection, selectNeighbors *)
Fixpoint with_distances (h : HNSW) (fromVec : vector) (ids : list nat) : R (list Candidate) :=
  match ids with
  | [] => Ok []
  | id :: rest =>
      v ← getVector h id;
      cs ← with_distances h fromVec rest;
      Ok (mkCandidate id (Distance fromVec v) :: cs)
  end.

Definition addConnection (fromID toID : nat) (layer maxConn : Z) : H unit :=
  h ← get;
  conns ← lift (getConnections h fromID layer);
  if decide (toID ∈ conns) then mret tt
  else if len conns <? maxConn then setConnections fromID layer (conns ++ [toID])
  else
    fromVec ← lift (getVector h fromID);
    candidates ← lift (with_distances h fromVec (conns ++ [toID]));
    selected ← lift (selectNeighborsHeuristic h candidates maxConn);
    setConnections fromID layer (cID <$> selected).

Fixpoint add_reverse (nodeID : nat) (layer neighborMax : Z) (selected : list Candidate) : H unit :=
  match selected with
  | [] => mret tt
  | c :: rest => addConnection (cID c) nodeID layer neighborMax;;
                 add_reverse nodeID layer neighborMax rest
  end.

Definition selectNeighbors (nodeID : nat) (candidates : list Candidate) (layer : Z) : H unit :=
  h ← get;
  let ownMax := if layer =? 0 then h_Mmax0 h else h_M h in
  let neighborMax := if layer =? 0 then h_Mmax0 h else h_Mmax h in
  lift (getVector h nodeID);;
  selected ← lift (selectNeighborsHeuristic h candidates ownMax);
  setConnections nodeID layer (cID <$> selected);;
  add_reverse nodeID layer neighborMax selected.

(** *** Insert *)
Record Point := mkPoint { p_ID : string; p_Vector : vector; p_Payload : payload }.

Definition MaxNodes : Z := MaxUint32.

Inductive inserted := First | Next (nodeID entryPoint : nat) (maxLevel : Z).

Definition insertNode (n : Node) (pointID : string) (level : Z) : H inserted :=
  h ← get;
  if MaxNodes <=? len (h_nodes h) then throw ErrTooManyNodes else
  let nodeID := length (h_nodes h) in
  let first := h_maxLevel h =? -1 in
  let higher := first || (level >? h_maxLevel h) in
  put (mkHNSW (h_M h) (h_Mmax h) (h_Mmax0 h) (h_efConstruction h) (h_efSearch h)
    (if (higher : bool) then level else h_maxLevel h) (h_nodes h ++ [n])
    (if (higher : bool) then nodeID else h_entryPoint h) (h_nodeCount h + 1) (h_dimension h)
    (<[pointID := nodeID]> (h_idToIndex h)) (h_deletedCount h) (h_quantizer h));;
  mret (if (first : bool) then First else Next nodeID (h_entryPoint h) (h_maxLevel h)).

(** [hi, hi-1, ..., lo+1] *)
Definition layers_down (hi lo : Z) : list Z :=
  (λ i, hi - Z.of_nat i) <$> seq 0 (Z.to_nat (hi - lo)).

Fixpoint descend (h : HNSW) (query : vector) (currNode : nat) (layers : list Z) : R nat :=
  match layers with
  | [] => Ok currNode
  | l :: layers => currNode ← greedySearchLayer h query currNode l;
                   descend h query currNode layers
  end.

Fixpoint connect_layers (nodeID : nat) (query : vector) (currNode : nat) (layers : list Z) : H unit :=
  match layers with
  | [] => mret tt
  | l :: layers =>
      h ← get;
      neighbors ← lift (searchLayer h query currNode (h_efConstruction h) l);
      selectNeighbors nodeID neighbors l;;
      match neighbors with
      | c :: _ => connect_layers nodeID query (cID c) layers
      | [] => panic                                  (* neighbors[0] *)
      end
  end.

Definition Insert (p : Point) (level : Z) : H unit :=
  h ← get;
  if negb (len (p_Vector p) =? h_dimension h) then throw ErrDimensionMismatch else
  match h_idToIndex h !! p_ID p with
  | Some _ => throw ErrPointExists
  | None =>
      let code := match h_quantizer h with Some q => q_Encode q (p_Vector p) | None => None end in
      n ← lift (NewNode (p_ID p) (p_Vector p) level (p_Payload p) code);
      r ← insertNode n (p_ID p) level;
      match r with
      | First => mret tt
      | Next nodeID entryPoint currentMaxLevel =>
          h ← get;
          currNode ← lift (descend h (p_Vector p) entryPoint (layers_down currentMaxLevel level));
          connect_layers nodeID (p_Vector p) currNode
            (layers_down (Z.min level currentMaxLevel) (-1))
      end
  end.

(** *** Search *)
Fixpoint rescore (h : HNSW) (query : vector) (cs : list Candidate) : R (list Candidate) :=
  match cs with
  | [] => Ok []
  | c :: rest =>
      v ← getVector h (cID c);
      rest ← rescore h query rest;
      Ok (mkCandidate (cID c) (Distance query v) :: rest)
  end.

(** Rescoring of quantized results, then the top [k]. *)
Definition finish (h : HNSW) (query : vector) (k : Z) (candidates : list Candidate) :
    R (list Candidate) :=
  candidates ←
    match h_quantizer h with
    | Some _ => cs ← rescore h query candidates; Ok (sort_Slice min_less cs)
    | None => Ok candidates
    end;
  if len candidates >? k then slice candidates 0 k else Ok candidates.

Definition SearchWithEf (h : HNSW) (query : vector) (k ef : Z) : R (list Candidate) :=
  if negb (len query =? h_dimension h) then Err ErrDimensionMismatch
  else if h_maxLevel h =? -1 then Ok [] else
  let ef := if ef <? k then k else ef in
  let searchEf := match h_quantizer h with Some _ => i64 (ef * 2) | None => ef end in
  currNode ← descend h query (h_entryPoint h) (layers_down (h_maxLevel h) 0);
  candidates ← searchLayer h query currNode searchEf 0;
  finish h query k candidates.

Definition Search (h : HNSW) (query : vector) (k : Z) : R (list Candidate) :=
  SearchWithEf h query k (h_efSearch h).

(** *** Delete, Get and the accessors *)
Definition Delete (id : string) : H unit :=
  h ← get;
  match h_idToIndex h !! id with
  | None => throw ErrPointNotFound
  | Some nodeID =>
      n ← lift (node_at h nodeID);
      if n_deleted n then mret tt else
      put (mkHNSW (h_M h) (h_Mmax h) (h_Mmax0 h) (h_efConstruction h) (h_efSearch h)
        (h_maxLevel h) (<[nodeID := MarkDeleted n]> (h_nodes h)) (h_entryPoint h)
        (h_nodeCount h) (h_dimension h) (h_idToIndex h) (h_deletedCount h + 1) (h_quantizer h))
  end.

Definition Get (h : HNSW) (id : string) : R Point :=
  match h_idToIndex h !! id with
  | None => Err ErrPointNotFound
  | Some nodeID =>
      n ← node_at h nodeID;
      if n_deleted n then Err ErrPointNotFound
      else Ok (mkPoint (n_ID n) (n_Vector n) (n_payload n))
  end.

Definition Size (h : HNSW) : Z := h_nodeCount h - h_deletedCount h.
Definition TotalSize (h : HNSW) : Z := h_nodeCount h.
Definition GetNodeID (h : HNSW) (pointID : string) : option nat := h_idToIndex h !! pointID.
Definition GetPointID (h : HNSW) (nodeID : nat) : string :=
  match h_nodes h !! nodeID with Some n => n_ID n | None => "" end.
Definition SetEfSearch (ef : Z) : H unit :=
  modify (λ h, mkHNSW (h_M h) (h_Mmax h) (h_Mmax0 h) (h_efConstruction h) ef (h_maxLevel h)
    (h_nodes h) (h_entryPoint h) (h_nodeCount h) (h_dimension h) (h_idToIndex h)
    (h_deletedCount h) (h_quantizer h)).

Definition GetAllPoints (h : HNSW) : list Point :=
  (λ n, mkPoint (n_ID n) (n_Vector n) (n_payload n)) <$>
    filter (λ n, negb (n_deleted n)) (h_nodes h).

(** [IteratePoints(cb)]: the callback acts on a state of its own and returns
    false to stop. *)
Fixpoint IteratePoints_go {S} (h : HNSW) (cb : Point → S → bool * S) (ns : list Node) (s : S) : R S :=
  match ns with
  | [] => Ok s
  | n :: ns =>
      if n_deleted n then IteratePoints_go h cb ns s else
      match Get h (n_ID n) with
      | Panic => Panic
      | Err _ => IteratePoints_go h cb ns s
      | Ok p => let '(continue, s) := cb p s in
                if (continue : bool) then IteratePoints_go h cb ns s else Ok s
      end
  end.
Definition IteratePoints {S} (h : HNSW) (cb : Point → S → bool * S) (s : S) : R S :=
  IteratePoints_go h cb (h_nodes h) s.

End hnsw.

Arguments Node : clear implicits.
Arguments HNSW : clear implicits.
Arguments Point : clear implicits.
