(* ===== verification/Distance.v ===== *)
(** * pkg/distance: the metrics

    The scalar metrics of [cosine.go], [euclidean.go], [dotproduct.go] and the
    scalar fallbacks of [simd_amd64.go] (the assembly path is switched off by
    [hasSIMD = false]) in IEEE arithmetic, and the batch functions and
    [FindNearest] of [distance.go]. Each float operation rounds separately, as
    on amd64. *)
From stdpp Require Import base list numbers sorting strings.
From Stdlib Require Import ZArith Lia Floats.SpecFloat.
From S2P Require Import Prelude Float32 Heap Hnsw.

#[local] Open Scope Z_scope.

#[export] Instance f32_inhabited : Inhabited f32 := populate f32_zero.

(** ** Conversions and [math.Sqrt] *)
Definition f64_of_f32 (x : f32) : f64 :=
  match x with
  | S754_finite s m e => binary_normalize 53 1024 (cond_Zopp s (Zpos m)) e s
  | x => x
  end.
Definition f32_of_f64 (x : f64) : f32 :=
  match x with
  | S754_finite s m e => binary_normalize 24 128 (cond_Zopp s (Zpos m)) e s
  | x => x
  end.
Definition sqrt32 (x : f32) : f32 := f32_of_f64 (SFsqrt 53 1024 (f64_of_f32 x)).

Definition f32_one : f32 := f32_of_Z 1.
Definition MaxFloat32 : f32 := S754_finite false 16777215 104.

(** ** Scalar kernels *)
Definition dotProductScalar (a b : vector) : f32 :=
  foldl (λ sum '(x, y), f32_add sum (f32_mul x y)) f32_zero (zip a b).

Definition euclideanDistanceScalar (a b : vector) : f32 :=
  sqrt32 (foldl (λ sum '(x, y), let d := f32_sub x y in f32_add sum (f32_mul d d))
            f32_zero (zip a b)).

Definition cosineDistanceScalar (a b : vector) : f32 :=
  let '(dotProduct, normA, normB) :=
    foldl (λ '(d, na, nb) '(x, y),
             (f32_add d (f32_mul x y), f32_add na (f32_mul x x), f32_add nb (f32_mul y y)))
      (f32_zero, f32_zero, f32_zero) (zip a b) in
  if SFeqb normA f32_zero || SFeqb normB f32_zero then f32_one else
  f32_sub f32_one (f32_div dotProduct (f32_mul (sqrt32 normA) (sqrt32 normB))).

(** The entry points: mismatched or empty vectors have a fixed distance. *)
Definition mismatched (a b : vector) : bool := negb (len a =? len b) || (len a =? 0).
Definition CosineDistanceSIMD (a b : vector) : f32 :=
  if mismatched a b then f32_one else cosineDistanceScalar a b.
Definition EuclideanDistanceSIMD (a b : vector) : f32 :=
  if mismatched a b then f32_zero else euclideanDistanceScalar a b.
Definition DotProductSIMD (a b : vector) : f32 :=
  if mismatched a b then f32_zero else dotProductScalar a b.

(** ** The calculators *)
Definition f32_abs (d : f32) : f32 := if flt d f32_zero then SFopp d else d.

Definition Manhattan_Distance (a b : vector) : f32 :=
  if negb (len a =? len b) then MaxFloat32 else
  foldl (λ sum '(x, y), f32_add sum (f32_abs (f32_sub x y))) f32_zero (zip a b).

Definition Chebyshev_Distance (a b : vector) : f32 :=
  if negb (len a =? len b) then MaxFloat32 else
  foldl (λ m '(x, y), let d := f32_abs (f32_sub x y) in if fgt d m then d else m)
    f32_zero (zip a b).

Definition WeightedDotProduct (a b weights : vector) : f32 :=
  if negb (len a =? len b) || negb (len a =? len weights) then f32_zero else
  foldl (λ dot '(x, y, w), f32_add dot (f32_mul (f32_mul x y) w)) f32_zero (zip (zip a b) weights).

Inductive MetricType := MetricCosine | MetricEuclidean | MetricDotProduct | MetricOther.

Record calculator := mkCalculator { calc_Distance : Calculator; IsSimilarity : bool }.

Definition Cosine : calculator := mkCalculator CosineDistanceSIMD false.
Definition Euclidean : calculator := mkCalculator EuclideanDistanceSIMD false.
Definition DotProduct : calculator := mkCalculator (λ a b, SFopp (DotProductSIMD a b)) true.
Definition NegativeDotProduct : calculator :=
  mkCalculator (λ a b, SFopp (DotProductSIMD a b)) false.

(** [distance.New] *)
Definition New (metric : MetricType) : calculator :=
  match metric with
  | MetricCosine => Cosine
  | MetricEuclidean => Euclidean
  | MetricDotProduct => DotProduct
  | MetricOther => Cosine
  end.

(** ** Batches *)
Definition BatchDistance (c : calculator) (query : vector) (vectors : list vector) : list f32 :=
  calc_Distance c query <$> vectors.

(** One worker's share, written into the shared result slice. *)
Definition fill_chunk (c : calculator) (query : vector) (vectors : list vector)
    (start end_ : nat) (results : list f32) : list f32 :=
  foldl (λ rs i, <[i := calc_Distance c query (vectors !!! i)]> rs) results
    (seq start (end_ - start)).

(** [BatchDistanceParallel]: the workers write disjoint ranges, so the order in
    which they run does not matter; [order] is any order of the workers. The
    chunk size divides by the number of workers. *)
Definition workers_of (n workers : Z) : Z :=
  if (workers <=? 0) || (workers >? n) then n else workers.
Definition BatchDistanceParallel (c : calculator) (query : vector) (vectors : list vector)
    (workers : Z) (order : list nat) : result unit (list f32) :=
  let n := len vectors in
  let workers := workers_of n workers in
  if workers =? 0 then Panic else
  let chunkSize := (n + workers - 1) `quot` workers in
  Ok (foldl (λ rs w,
        let start := Z.to_nat (Z.of_nat w * chunkSize) in
        let end_ := Z.to_nat (Z.min n (Z.of_nat w * chunkSize + chunkSize)) in
        fill_chunk c query vectors start end_ rs)
      (replicate (length vectors) f32_zero) order).

(** ** FindNearest *)
Definition better (similarity : bool) (d best : f32) : bool :=
  if similarity then fgt d best else flt d best.

Definition best_from (similarity : bool) (ds : list f32) (idx : list nat) (i : nat) : nat :=
  foldl (λ best j, if better similarity (ds !!! (idx !!! j)) (ds !!! (idx !!! best)) then j else best)
    i (seq (S i) (length ds - S i)).

Definition FindNearest (c : calculator) (query : vector) (vectors : list vector) (k : Z) : list nat :=
  if k <=? 0 then [] else
  let k := Z.to_nat (Z.min k (len vectors)) in
  let ds := BatchDistance c query vectors in
  let idx := foldl (λ idx i, swap i (best_from (IsSimilarity c) ds idx i) idx)
               (seq 0 (length vectors)) (seq 0 k) in
  take k idx.

(** ** Symmetry *)
Lemma f32_mul_comm x y : f32_mul x y = f32_mul y x.
Proof.
  unfold f32_mul. destruct x, y; simpl; try done; try (by rewrite xorb_comm).
  by rewrite xorb_comm, Pos.mul_comm, Z.add_comm.
Qed.

Lemma zip_flip {A B} (l : list A) (k : list B) : zip k l = (λ '(x, y), (y, x)) <$> zip l k.
Proof. revert k. induction l as [|x l IH]; intros [|y k]; simpl; [done..|by rewrite IH]. Qed.

Lemma foldl_zip_sym (f : f32 → f32 * f32 → f32) (a b : vector) s :
  (∀ s x y, f s (x, y) = f s (y, x)) → foldl f s (zip a b) = foldl f s (zip b a).
Proof.
  intros Hf. revert b s. induction a as [|x a IH]; intros [|y b] s; simpl; [done..|].
  by rewrite Hf, IH.
Qed.

(** Negation commutes with rounding. *)
Lemma binary_round_aux_opp p e s m ex lx :
  binary_round_aux p e (negb s) m ex lx = SFopp (binary_round_aux p e s m ex lx).
Proof.
  unfold binary_round_aux. destruct (shr_fexp p e m ex lx) as [mrs e'].
  destruct (shr_fexp p e _ e' loc_Exact) as [mrs' e'']. destruct (shr_m mrs'); [done| |done].
  by destruct (_ <=? _).
Qed.

Lemma binary_round_opp p e s m ex : binary_round p e (negb s) m ex = SFopp (binary_round p e s m ex).
Proof. unfold binary_round. destruct (shl_align _ _ _). apply binary_round_aux_opp. Qed.

(** The square of a difference does not depend on its direction. *)
Lemma square_opp d : f32_mul (SFopp d) (SFopp d) = f32_mul d d.
Proof. destruct d as [[]|[]| |[]]; done. Qed.

Lemma sub_square_sym x y :
  f32_mul (f32_sub x y) (f32_sub x y) = f32_mul (f32_sub y x) (f32_sub y x).
Proof.
  unfold f32_sub. destruct x as [sx|sx| |sx mx ex], y as [sy|sy| |sy my ey];
    try (by destruct sx, sy); try (by destruct sx); try (by destruct sy); [done|].
  - simpl. rewrite (Z.min_comm ey ex).
    set (u := cond_Zopp sx _). set (v := cond_Zopp sy _).
    rewrite <- (Z.opp_involutive (v - u)). replace (- (v - u)) with (u - v) by lia.
    destruct (u - v) as [|p|p]; simpl; [done| |].
    + change true with (negb false). by rewrite binary_round_opp, square_opp.
    + change true with (negb false). by rewrite binary_round_opp, square_opp.
Qed.


Lemma mismatched_sym a b : mismatched a b = mismatched b a.
Proof.
  unfold mismatched. destruct (Z.eqb_spec (len a) (len b)) as [->|N]; simpl.
  - by rewrite Z.eqb_refl.
  - by rewrite (proj2 (Z.eqb_neq _ _)) by congruence.
Qed.

Lemma dot_sym a b : dotProductScalar a b = dotProductScalar b a.
Proof. apply foldl_zip_sym. intros s x y. by rewrite f32_mul_comm. Qed.

Lemma euclidean_sym a b : euclideanDistanceScalar a b = euclideanDistanceScalar b a.
Proof.
  unfold euclideanDistanceScalar. f_equal. apply foldl_zip_sym. intros s x y. simpl.
  by rewrite sub_square_sym.
Qed.

Lemma cosine_fold_sym a b d na nb :
  foldl (λ '(d, na, nb) '(x, y),
      (f32_add d (f32_mul x y), f32_add na (f32_mul x x), f32_add nb (f32_mul y y)))
    (d, na, nb) (zip a b) =
  (λ '(d, na, nb), (d, nb, na))
    (foldl (λ '(d, na, nb) '(x, y),
      (f32_add d (f32_mul x y), f32_add na (f32_mul x x), f32_add nb (f32_mul y y)))
    (d, nb, na) (zip b a)).
Proof.
  revert b d na nb. induction a as [|x a IH]; intros [|y b] d na nb; simpl; [done..|].
  by rewrite IH, (f32_mul_comm x y).
Qed.

Lemma cosine_sym a b : cosineDistanceScalar a b = cosineDistanceScalar b a.
Proof.
  unfold cosineDistanceScalar. rewrite cosine_fold_sym.
  destruct (foldl _ _ (zip b a)) as [[d na] nb]. rewrite orb_comm.
  by rewrite (f32_mul_comm (sqrt32 nb)).
Qed.

(** Every metric [New] can return is symmetric, exactly, in float32
    arithmetic: the distance from [a] to [b] and from [b] to [a] are the same
    value for all vectors, of equal length or not, NaN and infinities
    included. *)
Theorem metric_symmetric metric a b :
  calc_Distance (New metric) a b = calc_Distance (New metric) b a.
Proof.
  destruct metric; simpl; unfold CosineDistanceSIMD, EuclideanDistanceSIMD, DotProductSIMD;
    rewrite mismatched_sym; destruct (mismatched b a); try done.
  - apply cosine_sym.
  - apply euclidean_sym.
  - by rewrite dot_sym.
  - apply cosine_sym.
Qed.

(** ** Parallel batches *)
Lemma fill_chunk_lookup c q vectors start end_ rs i :
  (end_ ≤ length vectors)%nat → length rs = length vectors →
  fill_chunk c q vectors start end_ rs !! i =
    if decide (start ≤ i < end_)%nat then calc_Distance c q <$> (vectors !! i) else rs !! i.
Proof.
  intros He Hrs. unfold fill_chunk. remember (end_ - start)%nat as k eqn:Ek.
  revert start rs Hrs Ek. induction k as [|k IH]; intros start rs Hrs Ek; simpl.
  { rewrite decide_False by lia. done. }
  rewrite IH by (rewrite ?length_insert; lia).
  destruct (decide (i = start)) as [->|N].
  - rewrite decide_False, decide_True by lia. rewrite list_lookup_insert_eq by lia.
    by rewrite (list_lookup_lookup_total_lt vectors) by lia.
  - rewrite list_lookup_insert_ne by done.
    destruct (decide (start ≤ i < end_)%nat) as [H1|H1].
    + by rewrite decide_True by lia.
    + by rewrite decide_False by lia.
Qed.

Lemma length_fill_chunk c q vectors start end_ rs :
  length (fill_chunk c q vectors start end_ rs) = length rs.
Proof.
  unfold fill_chunk. generalize (seq start (end_ - start)). intros l. revert rs.
  induction l as [|i l IH]; intros rs; simpl; [done|]. by rewrite IH, length_insert.
Qed.

(** The range of worker [w]. *)
Definition chunk (n chunkSize : Z) (w : nat) : nat * nat :=
  (Z.to_nat (Z.of_nat w * chunkSize), Z.to_nat (Z.min n (Z.of_nat w * chunkSize + chunkSize))).

Lemma fill_workers c q vectors cs order rs i :
  length rs = length vectors →
  let rs' := foldl (λ rs w, fill_chunk c q vectors (chunk (len vectors) cs w).1
    (chunk (len vectors) cs w).2 rs) rs order in
  ((∃ w, w ∈ order ∧ (chunk (len vectors) cs w).1 ≤ i < (chunk (len vectors) cs w).2)%nat ∨
   rs !! i = calc_Distance c q <$> (vectors !! i)) →
  rs' !! i = calc_Distance c q <$> (vectors !! i).
Proof.
  revert rs. induction order as [|w order IH]; intros rs Hrs; simpl.
  { intros [(w & Hw & _)|E]; [by apply elem_of_nil in Hw|done]. }
  intros H. apply IH; [by rewrite length_fill_chunk|].
  assert (Hend : ((chunk (len vectors) cs w).2 ≤ length vectors)%nat).
  { unfold chunk, len. cbn [snd]. lia. }
  rewrite fill_chunk_lookup by done.
  case_decide as Hd; [by right|].
  destruct H as [(w' & [->|Hw]%elem_of_cons & Hi)|E]; [done| |by right].
  left. by exists w'.
Qed.

(** [BatchDistanceParallel] computes what [BatchDistance] does for every
    non-empty batch, every worker count and every order in which the workers
    finish: the workers' ranges cover all indexes. *)
Theorem parallel_batch_equals_sequential c q vectors workers order :
  vectors ≠ [] →
  order ≡ₚ seq 0 (Z.to_nat (workers_of (len vectors) workers)) →
  BatchDistanceParallel c q vectors workers order = Ok (BatchDistance c q vectors).
Proof.
  intros Hne Hord. unfold BatchDistanceParallel, BatchDistance.
  set (n := len vectors). set (wk := workers_of n workers).
  assert (Hn : 0 < n) by (unfold n, len; destruct vectors; [done|simpl; lia]).
  assert (Hwk : 0 < wk).
  { unfold wk, workers_of. destruct (Z.leb_spec workers 0); simpl; [done|].
    rewrite Z.gtb_ltb. destruct (Z.ltb_spec n workers); lia. }
  rewrite (proj2 (Z.eqb_neq _ _)) by lia. f_equal.
  set (cs := (n + wk - 1) `quot` wk).
  assert (Hcs : 0 < cs ∧ n ≤ wk * cs).
  { unfold cs. rewrite Z.quot_div_nonneg by lia.
    pose proof (Z.div_mod (n + wk - 1) wk ltac:(lia)).
    pose proof (Z.mod_pos_bound (n + wk - 1) wk ltac:(lia)). nia. }
  apply list_eq. intros i. rewrite list_lookup_fmap.
  change (foldl _ _ order) with (foldl (λ rs w, fill_chunk c q vectors (chunk n cs w).1
    (chunk n cs w).2 rs) (replicate (length vectors) f32_zero) order).
  apply fill_workers; [by rewrite length_replicate|].
  destruct (decide (i < length vectors)%nat) as [Hi|Hi]; [left|right].
  - exists (Z.to_nat (Z.of_nat i `div` cs)). unfold chunk. simpl.
    pose proof (Z.div_mod (Z.of_nat i) cs ltac:(lia)).
    pose proof (Z.mod_pos_bound (Z.of_nat i) cs ltac:(lia)).
    assert (0 ≤ Z.of_nat i `div` cs) by (apply Z.div_pos; lia).
    unfold n, len in *. rewrite Z2Nat.id by done. split; [|nia].
    rewrite Hord, elem_of_seq. nia.
  - rewrite (lookup_ge_None_2 (replicate _ _)) by (rewrite length_replicate; lia).
    by rewrite (lookup_ge_None_2 vectors) by lia.
Qed.

Lemma parallel_batch_equals_sequential_witness :
  [[f32_one]; [f32_zero]; [f32_one]] ≠ [] ∧
  BatchDistanceParallel Euclidean [f32_one] [[f32_one]; [f32_zero]; [f32_one]] 2 [1; 0]%nat =
    Ok (BatchDistance Euclidean [f32_one] [[f32_one]; [f32_zero]; [f32_one]]).
Proof.
  split; [discriminate|]. apply parallel_batch_equals_sequential; [discriminate|].
  apply Permutation_swap.
Defined.

(** An empty batch crashes [BatchDistanceParallel], whatever the worker
    count: the worker count becomes 0 and the chunk size divides by it, where
    [BatchDistance] returns an empty slice. *)
Theorem parallel_batch_empty_panics c q workers order :
  BatchDistanceParallel c q [] workers order = Panic ∧ BatchDistance c q [] = [].
Proof.
  unfold BatchDistanceParallel, workers_of. change (len []) with 0. split; [|done].
  destruct (Z.leb_spec workers 0); simpl; [done|].
  rewrite Z.gtb_ltb, (proj2 (Z.ltb_lt _ _)) by lia. done.
Qed.

(** ** FindNearest *)
Section nearest.
Context (sim : bool) (ds : list f32).
Context (Hnan : Forall (λ d, d ≠ S754_nan) ds).

(** [b] is not better than [a]. *)
Definition not_better (a b : nat) : Prop := better sim (ds !!! b) (ds !!! a) = false.

Lemma better_irrefl d : better sim d d = false.
Proof. unfold better, fgt. destruct sim; apply flt_irrefl. Qed.
Lemma better_asym a b : better sim a b = true → better sim b a = false.
Proof. unfold better, fgt. destruct sim; apply flt_asym. Qed.
Lemma better_trans a b c :
  b ≠ S754_nan → better sim b a = false → better sim c b = false → better sim c a = false.
Proof. unfold better, fgt. destruct sim; intros; by eapply flt_ge_trans. Qed.

Lemma ds_nan i : (i < length ds)%nat → ds !!! i ≠ S754_nan.
Proof. intros Hi. by apply (Forall_lookup_total_1 (λ d, d ≠ S754_nan) ds). Qed.

Lemma best_loop idx i k best :
  Forall (λ x, (x < length ds)%nat) idx → (i + k ≤ length idx)%nat → (best < length idx)%nat →
  let r := foldl (λ best j, if better sim (ds !!! (idx !!! j)) (ds !!! (idx !!! best)) then j else best)
    best (seq i k) in
  (r = best ∨ i ≤ r < i + k)%nat ∧ not_better (idx !!! r) (idx !!! best) ∧
  ∀ j, (i ≤ j < i + k)%nat → not_better (idx !!! r) (idx !!! j).
Proof.
  intros HF. revert i best. induction k as [|k IH]; intros i best Hk Hb; simpl.
  { split; [by left|]. split; [apply better_irrefl|lia]. }
  set (b' := if better _ _ _ then i else best).
  assert (Hb' : (b' < length idx)%nat) by (unfold b'; destruct (better _ _ _); lia).
  destruct (IH (S i) b' ltac:(lia) Hb') as (H1 & H2 & H3).
  assert (Hc : ∀ x, (x < length idx)%nat → ds !!! (idx !!! x) ≠ S754_nan).
  { intros x Hx. apply ds_nan. by apply (Forall_lookup_total_1 (λ x, (x < length ds)%nat) idx). }
  assert (Hi : not_better (idx !!! b') (idx !!! best) ∧ not_better (idx !!! b') (idx !!! i)).
  { unfold b', not_better. destruct (better sim (ds !!! (idx !!! i)) _) eqn:E.
    - split; [by apply better_asym|apply better_irrefl].
    - split; [apply better_irrefl|done]. }
  destruct Hi as [Hi1 Hi2].
  split; [|split].
  - destruct H1 as [H1|H1]; [|right; lia]. rewrite H1. unfold b'. destruct (better _ _ _); lia.
  - unfold not_better in *. by eapply better_trans; [apply (Hc b')| |].
  - intros j Hj. destruct (decide (j = i)) as [->|N]; [|apply H3; lia].
    unfold not_better in *. by eapply better_trans; [apply (Hc b')| |].
Qed.

(** After [i] rounds the first [i] positions hold the best, in order. *)
Definition selected (i : nat) (idx : list nat) : Prop :=
  idx ≡ₚ seq 0 (length ds) ∧
  ∀ a b, (a < i)%nat → (a < b < length ds)%nat → not_better (idx !!! a) (idx !!! b).

Lemma select_step i idx :
  (i < length ds)%nat → selected i idx → selected (S i) (swap i (best_from sim ds idx i) idx).
Proof.
  intros Hi [Hp Hs]. assert (Hlen : length idx = length ds).
  { rewrite (Permutation_length Hp). apply length_seq. }
  assert (HF : Forall (λ x, (x < length ds)%nat) idx).
  { rewrite Hp. apply Forall_seq. lia. }
  destruct (best_loop idx (S i) (length ds - S i) i HF) as (H1 & H2 & H3); [lia|lia|].
  set (r := best_from sim ds idx i). fold (best_from sim ds idx i) in H1, H2, H3. fold r in H1, H2, H3.
  split; [rewrite swap_perm by lia; done|].
  intros a b Ha Hb. rewrite !lookup_swap by lia.
  destruct (decide (a = i)) as [->|Hai].
  - rewrite (decide_False (P := b = i)) by lia. case_decide as E; [done|]. apply H3. lia.
  - rewrite (decide_False (P := a = r)) by lia.
    case_decide; [apply Hs; lia|]. case_decide; apply Hs; lia.
Qed.

Lemma select_rounds k :
  (k ≤ length ds)%nat →
  selected k (foldl (λ idx i, swap i (best_from sim ds idx i) idx) (seq 0 (length ds)) (seq 0 k)).
Proof.
  induction k as [|k IH]; intros Hk; [split; [done|lia]|].
  rewrite seq_S, foldl_app. simpl. apply select_step; [lia|]. apply IH. lia.
Qed.
End nearest.

(** [FindNearest] finds the nearest: for a calculator that orders by
    distance ([IsSimilarity] false) and distances without NaN it returns
    [min k n] different indexes in ascending order of distance, and no vector it
    leaves out is closer than one it returns. *)
Theorem FindNearest_exact c q vectors k :
  IsSimilarity c = false → 0 < k →
  Forall (λ v, calc_Distance c q v ≠ S754_nan) vectors →
  let dist i := calc_Distance c q (vectors !!! i) in
  let r := FindNearest c q vectors k in
  len r = Z.min k (len vectors) ∧ NoDup r ∧ Forall (λ i, (i < length vectors)%nat) r ∧
  StronglySorted (λ a b, flt (dist b) (dist a) = false) r ∧
  ∀ i j, i ∈ r → (j < length vectors)%nat → j ∉ r → flt (dist j) (dist i) = false.
Proof.
  intros Hsim Hk Hnan dist r. unfold r, FindNearest.
  rewrite (proj2 (Z.leb_gt _ _)), Hsim by lia.
  set (k' := Z.to_nat _). set (ds := BatchDistance c q vectors).
  assert (Hds : length ds = length vectors) by apply length_fmap.
  assert (Hk' : (k' ≤ length ds)%nat) by (unfold k', len; lia).
  rewrite <- Hds. set (idx := foldl _ _ _).
  destruct (select_rounds false ds) with (k := k') as [Hp Hs]; [|done|].
  { unfold ds, BatchDistance. by apply Forall_fmap. }
  fold idx in Hp, Hs.
  assert (Hlen : length idx = length ds) by (rewrite (Permutation_length Hp); apply length_seq).
  assert (Hd : ∀ i, (i < length ds)%nat → ds !!! i = dist i).
  { intros i Hi. unfold ds, BatchDistance, dist. apply list_lookup_total_fmap. lia. }
  assert (HF : Forall (λ x, (x < length ds)%nat) idx) by (rewrite Hp; apply Forall_seq; lia).
  assert (Hix : ∀ i, (i < length ds)%nat → (idx !!! i < length ds)%nat).
  { intros i Hi. apply (Forall_lookup_total_1 (λ x, (x < length ds)%nat) idx); [done|lia]. }
  assert (Hnd : NoDup idx) by (rewrite Hp; apply NoDup_seq).
  split; [|split; [|split; [|split]]].
  - unfold len. rewrite length_take. unfold k', len in *. lia.
  - rewrite <- (take_drop k' idx) in Hnd. by apply NoDup_app in Hnd as [? _].
  - by apply Forall_take.
  - apply StronglySorted_lookup. intros a b x y Hab Hx Hy.
    apply lookup_take_Some in Hx as [Hx Ha], Hy as [Hy Hb].
    apply list_lookup_total_correct in Hx, Hy. subst x y.
    rewrite <- !Hd by (apply Hix; lia). apply (Hs a b); lia.
  - intros i j Hi Hj Hnot. apply list_elem_of_lookup in Hi as [a Ha].
    apply lookup_take_Some in Ha as [Ha Hak].
    assert (Hjin : j ∈ idx) by (rewrite Hp, elem_of_seq; lia).
    apply list_elem_of_lookup in Hjin as [b Hb].
    assert (Hbk : ¬ (b < k')%nat).
    { intros Hlt. apply Hnot. apply (list_elem_of_lookup_2 _ b). by apply lookup_take_Some. }
    pose proof (lookup_lt_Some _ _ _ Hb).
    apply list_lookup_total_correct in Ha, Hb. subst i j.
    rewrite <- !Hd by (apply Hix; lia). apply (Hs a b); lia.
Qed.

Lemma FindNearest_exact_witness :
  let q := [f32_zero] in let vs := [[f32_of_Z 3]; [f32_of_Z 1]; [f32_of_Z 2]] in
  FindNearest Euclidean q vs 2 = [1; 2]%nat ∧
  len (FindNearest Euclidean q vs 2) = Z.min 2 (len vs).
Proof.
  intros q vs. split; [vm_compute; reflexivity|].
  apply (FindNearest_exact Euclidean q vs 2); [reflexivity|lia|].
  repeat constructor; by vm_compute.
Defined.

(** For the dot product [FindNearest] returns the farthest vectors: the
    calculator reports [IsSimilarity] true while its [Distance] is the negated
    similarity, so the largest distance, the least similar vector, is taken for
    the best. Of the vectors 1 and 2, the one more similar to 1 under the dot
    product is 2; [FindNearest] answers 1. *)
Theorem FindNearest_dot_farthest :
  let q := [f32_one] in let vs := [[f32_one]; [f32_of_Z 2]] in
  FindNearest DotProduct q vs 1 = [0%nat] ∧
  flt (calc_Distance DotProduct q [f32_of_Z 2]) (calc_Distance DotProduct q [f32_one]) = true ∧
  flt (DotProductSIMD q [f32_one]) (DotProductSIMD q [f32_of_Z 2]) = true.
Proof. by vm_compute. Qed.
