(* ===== verification/HnswNode.v ===== *)
(** * pkg/index/hnsw/node.go: the connection lists of a node

    [AddConnection], [RemoveConnection] and [ConnectionCount] of a node, and the
    iteration over the points of an index. *)
From stdpp Require Import base gmap strings list fin_maps numbers sorting sets.
From Stdlib Require Import Strings.Byte ZArith Lia Floats.SpecFloat.
From S2P Require Import Prelude Float32 Heap Hnsw.

#[local] Open Scope Z_scope.

Section node.
Context {payload : Type}.
#[local] Abbreviation R := (result hnswError).
Implicit Types (n : Node payload) (h : HNSW payload).

(** [layer > n.Level || layer < 0] *)
Definition no_layer n (layer : Z) : bool := (layer >? n_Level n) || (layer <? 0).

Definition AddConnection (layer : Z) (nodeID : nat) n : R (bool * Node payload) :=
  if no_layer n layer then Ok (false, n) else
  conns ← index (n_Connections n) layer;
  if decide (nodeID ∈ conns) then Ok (false, n)
  else Ok (true, with_connections n (<[Z.to_nat layer := conns ++ [nodeID]]> (n_Connections n))).

(** The first occurrence is overwritten with the last element, and the list is
    shortened by one. *)
Definition swap_remove (i : nat) (conns : list nat) : R (list nat) :=
  lst ← index conns (len conns - 1);
  slice (<[i := lst]> conns) 0 (len conns - 1).

Definition RemoveConnection (layer : Z) (nodeID : nat) n : R (bool * Node payload) :=
  if no_layer n layer then Ok (false, n) else
  conns ← index (n_Connections n) layer;
  match list_find (nodeID =.) conns with
  | None => Ok (false, n)
  | Some (i, _) =>
      conns' ← swap_remove i conns;
      Ok (true, with_connections n (<[Z.to_nat layer := conns']> (n_Connections n)))
  end.

Definition ConnectionCount (layer : Z) n : R Z :=
  if no_layer n layer then Ok 0 else
  conns ← index (n_Connections n) layer; Ok (len conns).

(** [Iterate(fn)]: the callback acts on a state of its own; its first error ends
    the iteration. *)
Fixpoint Iterate_go {S E} (fn : string → M S E unit) (ns : list (Node payload)) : M S E unit :=
  match ns with
  | [] => mret tt
  | n :: ns => if n_deleted n then Iterate_go fn ns else fn (n_ID n);; Iterate_go fn ns
  end.
Definition Iterate {S E} (fn : string → M S E unit) h : M S E unit := Iterate_go fn (h_nodes h).

(** ** Removing an element *)
Lemma swap_remove_perm i x conns :
  conns !! i = Some x → ∃ conns', swap_remove i conns = Ok conns' ∧ conns ≡ₚ x :: conns'.
Proof.
  intros Hi. destruct conns as [|lst l _] using rev_ind; [done|].
  unfold swap_remove. assert (Hlen : len (l ++ [lst]) - 1 = Z.of_nat (length l)) by (unfold len; rewrite length_app; simpl; lia).
  rewrite Hlen. unfold index. rewrite (proj2 (Z.leb_le _ _)) by lia.
  rewrite Nat2Z.id, list_lookup_middle by done. cbn [mbind result_bind].
  unfold slice. rewrite (proj2 (Z.leb_le 0 (Z.of_nat (length l)))) by lia.
  assert (Hle : Z.of_nat (length l) <=? len (<[i:=lst]> (l ++ [lst])) = true).
  { apply Z.leb_le. unfold len. rewrite length_insert, length_app. lia. }
  rewrite Hle. eexists. split; [done|]. rewrite Z.sub_0_r, Nat2Z.id, drop_0.
  destruct (decide (i < length l)%nat) as [Hlt|Hge].
  - rewrite insert_app_l by done. rewrite take_app_le by (rewrite length_insert; lia).
    rewrite take_ge by (rewrite length_insert; lia). rewrite lookup_app_l in Hi by done.
    rewrite (Permutation_app_comm l [lst]). simpl. symmetry.
    destruct (list_elem_of_split_length l i x Hi) as (l1 & l2 & -> & ->).
    rewrite insert_app_r_alt, Nat.sub_diag by lia. simpl. rewrite <- !Permutation_middle.
    apply perm_swap.
  - assert (i = length l) as ->.
    { apply lookup_lt_Some in Hi. rewrite length_app in Hi. simpl in Hi. lia. }
    rewrite list_lookup_middle in Hi by done. injection Hi as <-.
    rewrite insert_app_r_alt, Nat.sub_diag by lia. simpl. rewrite take_app_length.
    by rewrite (Permutation_app_comm l [lst]).
Qed.
End node.
