(* ===== verification/HnswSearch.v ===== *)
(** * pkg/index/hnsw: searching a layer

    [searchLayer] on a well-formed graph: it terminates without a panic, and
    what it returns. *)
From stdpp Require Import base gmap strings list fin_maps numbers sorting sets.
From Stdlib Require Import Strings.Byte ZArith Lia Floats.SpecFloat.
From S2P Require Import Prelude Float32 Heap Hnsw.

#[local] Open Scope Z_scope.

Lemma result_bind_Ok {E A B} (m : result E A) (f : A → result E B) b :
  m ≫= f = Ok b → ∃ a, m = Ok a ∧ f a = Ok b.
Proof. destruct m; intros H; simplify_eq. eauto. Qed.

Section search.
Context {payload : Type} {calc : Calculator} {sorter : Sorter}.
Implicit Types (h : HNSW payload) (n : Node payload).

Definition live h (id : nat) : Prop := ∃ n, h_nodes h !! id = Some n ∧ n_deleted n = false.

Lemma node_at_Some h id n : h_nodes h !! id = Some n → node_at h id = Ok n.
Proof. unfold node_at. by intros ->. Qed.

(** The distance of an existing node always exists. *)
Lemma query_dist_Ok h q id :
  (id < length (h_nodes h))%nat → ∃ d, query_dist h q id = Ok d.
Proof.
  intros [n Hn]%lookup_lt_is_Some_2. unfold query_dist. rewrite (node_at_Some _ _ _ Hn). simpl.
  destruct (h_quantizer h), (n_Quantized n); eauto.
Qed.

(** A set of nodes closed under the edges of a layer. *)
Record closed h (layer : Z) (P : nat → Prop) : Prop := {
  cl_valid : ∀ id, P id → (id < length (h_nodes h))%nat;
  cl_edges : ∀ id, P id → ∃ conns, getConnections h id layer = Ok conns ∧ Forall P conns
}.

Section layer.
Context h (q : vector) (entry : nat) (ef layer : Z) (P : nat → Prop).
Context (HP : closed h layer P) (Hentry : P entry).

(** A candidate: a node of [P], live or the entry point, at its distance. *)
Definition cand_ok (c : Candidate) : Prop :=
  P (cID c) ∧ query_dist h q (cID c) = Ok (cDistance c) ∧ (cID c = entry ∨ live h (cID c)).

Record st_ok (st : search_state) : Prop := {
  so_visited : ∀ id, id ∈ ss_visited st → P id;
  so_cands : Forall cand_ok (ss_candidates st);
  so_results : Forall cand_ok (ss_results st);
  so_cands_vis : ∀ c, c ∈ ss_candidates st → cID c ∈ ss_visited st;
  so_results_vis : ∀ c, c ∈ ss_results st → cID c ∈ ss_visited st;
  so_cands_nodup : NoDup (cID <$> ss_candidates st);
  so_results_nodup : NoDup (cID <$> ss_results st);
  so_entry : entry ∈ ss_visited st;
  so_results_ne : ss_results st ≠ [];
  so_results_len : len (ss_results st) ≤ Z.max ef 1
}.

(** The rounds still possible. *)
Definition rounds (st : search_state) : Z :=
  len (ss_candidates st) + len (h_nodes h) - Z.of_nat (size (ss_visited st)).

Lemma visited_bound (V : gset nat) :
  (∀ id, id ∈ V → P id) → Z.of_nat (size V) ≤ len (h_nodes h).
Proof.
  intros HV. assert (V ⊆ set_seq 0 (length (h_nodes h))) as Hsub.
  { intros id Hid%HV%(cl_valid _ _ _ HP). apply elem_of_set_seq. lia. }
  apply subseteq_size in Hsub. rewrite size_set_seq in Hsub. unfold len. lia.
Qed.

Lemma improves_Ok results dist :
  results ≠ [] → ∃ b, improves results ef dist = Ok b.
Proof. intros H. unfold improves. destruct (_ <? _); [by eauto|]. destruct results; [done|]. simpl. eauto. Qed.

Lemma should_stop_Ok results dist :
  results ≠ [] → ∃ b, should_stop results ef dist = Ok b.
Proof. intros H. unfold should_stop. destruct (_ <=? _); [|by eauto]. destruct results; [done|]. simpl. eauto. Qed.

(** [push_bounded] keeps all but possibly one of the elements. *)
Lemma push_bounded_cases c (results : list Candidate) :
  (push_bounded ef c results ≡ₚ c :: results ∧ len results < ef) ∨
  (∃ x, c :: results ≡ₚ x :: push_bounded ef c results ∧ ef ≤ len results).
Proof.
  unfold push_bounded. pose proof (Push_perm max_less c results) as Hp.
  pose proof (Permutation_length Hp) as Hlen. simpl in Hlen.
  rewrite Z.gtb_ltb. unfold len in *. rewrite Hlen.
  destruct (Z.ltb_spec ef (Z.of_nat (S (length results)))).
  - right. destruct (Pop_Some max_less (heap_Push max_less c results)) as (x & r & E).
    { intros E. by rewrite E in Hlen. }
    rewrite E. exists x. split; [|lia]. rewrite <- Hp. by apply (Pop_perm max_less).
  - left. split; [done|lia].
Qed.

Lemma push_bounded_elem c x results :
  x ∈ push_bounded ef c results → x = c ∨ x ∈ results.
Proof.
  intros Hx. apply elem_of_cons.
  destruct (push_bounded_cases c results) as [[Hp _]|(y & Hp & _)]; [by rewrite <- Hp|].
  rewrite Hp. by right.
Qed.

Lemma push_bounded_nodup c results :
  NoDup (cID <$> results) → cID c ∉ cID <$> results → NoDup (cID <$> push_bounded ef c results).
Proof.
  intros Hnd Hc. assert (Hnd' : NoDup (cID <$> c :: results)) by (by constructor).
  destruct (push_bounded_cases c results) as [[Hp _]|(y & Hp & _)].
  - by rewrite Hp.
  - rewrite Hp in Hnd'. by inversion Hnd'.
Qed.

Lemma push_bounded_len c results :
  results ≠ [] → len results ≤ Z.max ef 1 →
  push_bounded ef c results ≠ [] ∧ len (push_bounded ef c results) ≤ Z.max ef 1.
Proof.
  intros Hne Hlen. unfold len in *.
  destruct (push_bounded_cases c results) as [[Hp Hlt]|(y & Hp & Hge)];
    apply Permutation_length in Hp; simpl in Hp; unfold len in *.
  - split; [intros E; by rewrite E in Hp|lia].
  - split; [|lia]. intros E. rewrite E in Hp. destruct results; [done|simpl in Hp; lia].
Qed.

(** Visiting a fresh live node. *)
Lemma st_ok_push st id dist :
  st_ok st → P id → id ∉ ss_visited st → live h id → query_dist h q id = Ok dist →
  st_ok (SearchState ({[id]} ∪ ss_visited st)
    (heap_Push min_less (mkCandidate id dist) (ss_candidates st))
    (push_bounded ef (mkCandidate id dist) (ss_results st))).
Proof.
  intros [H1 H2 H3 H4 H5 H6 H7 He H8 H9] Hid Hv Hl Hd.
  assert (Hc : cand_ok (mkCandidate id dist)) by (split_and!; [done..|by right]).
  pose proof (Push_perm min_less (mkCandidate id dist) (ss_candidates st)) as Hp.
  destruct (push_bounded_len (mkCandidate id dist) (ss_results st)) as [Hne Hlen]; [done..|].
  constructor; simpl; try done.
  - intros j [->%elem_of_singleton|Hj]%elem_of_union; auto.
  - rewrite Hp. by constructor.
  - apply Forall_forall. intros c [->|Hc']%push_bounded_elem; [done|].
    rewrite Forall_forall in H3. auto.
  - intros c Hin. rewrite Hp in Hin. apply elem_of_cons in Hin as [->|Hin]; set_solver.
  - intros c [->|Hc']%push_bounded_elem; set_solver.
  - rewrite Hp. constructor; [|done]. intros (c & E & Hin)%list_elem_of_fmap. simpl in E.
    subst id. auto.
  - apply push_bounded_nodup; [done|]. intros (c & E & Hin)%list_elem_of_fmap. simpl in E.
    subst id. auto.
  - set_solver.
Qed.

Lemma st_ok_visit st id :
  st_ok st → P id →
  st_ok (SearchState ({[id]} ∪ ss_visited st) (ss_candidates st) (ss_results st)).
Proof.
  intros [H1 H2 H3 H4 H5 H6 H7 He H8 H9] Hid. constructor; simpl; try done; set_solver.
Qed.

Lemma explore_Ok neighbors st :
  st_ok st → Forall P neighbors →
  ∃ st', explore h q ef neighbors st = Ok st' ∧ st_ok st' ∧ rounds st' ≤ rounds st.
Proof.
  intros Hst HF. revert st Hst. induction HF as [|id rest Hid HF IH]; intros st Hst; simpl.
  { exists st. split_and!; [done..|lia]. }
  case_decide as Hv; [by apply IH|].
  pose proof (cl_valid _ _ _ HP id Hid) as Hlt.
  destruct (lookup_lt_is_Some_2 _ _ Hlt) as [n Hn]. rewrite (node_at_Some _ _ _ Hn).
  cbn [mbind result_bind].
  assert (Hsz : size ({[id]} ∪ ss_visited st) = S (size (ss_visited st))).
  { rewrite size_union by set_solver. by rewrite size_singleton. }
  assert (Hskip : ∃ st', explore h q ef rest
    (SearchState ({[id]} ∪ ss_visited st) (ss_candidates st) (ss_results st)) = Ok st' ∧
    st_ok st' ∧ rounds st' ≤ rounds st).
  { destruct (IH _ (st_ok_visit st id Hst Hid)) as (st' & E & Hok & Hr).
    exists st'. split_and!; [done..|]. unfold rounds in *. simpl in *. lia. }
  destruct (n_deleted n) eqn:Hd; [done|].
  destruct (query_dist_Ok h q id Hlt) as [dist Hdist]. rewrite Hdist. cbn [mbind result_bind].
  destruct (improves_Ok (ss_results st) dist) as [[] Hb]; [apply Hst|..]; rewrite Hb;
    cbn [mbind result_bind]; [|done].
  destruct (IH _ (st_ok_push st id dist Hst Hid Hv (ex_intro _ n (conj Hn Hd)) Hdist))
    as (st' & E & Hok & Hr).
  exists st'. split_and!; [done..|]. unfold rounds, len in *. simpl in *.
  rewrite length_Push in Hr. lia.
Qed.

Lemma search_loop_Ok fuel st :
  st_ok st → rounds st < Z.of_nat fuel →
  ∃ rs, search_loop fuel h q ef layer st = Ok rs ∧ Forall cand_ok rs ∧
    NoDup (cID <$> rs) ∧ rs ≠ [] ∧ len rs ≤ Z.max ef 1.
Proof.
  revert st. induction fuel as [|fuel IH]; intros st Hst Hr.
  { pose proof (visited_bound _ (so_visited _ Hst)).
    pose proof (len_nonneg (ss_candidates st)). unfold rounds in Hr. lia. }
  cbn [search_loop]. destruct (heap_Pop min_less (ss_candidates st)) as [[curr cands]|] eqn:E.
  2: { exists (ss_results st). split_and!; [done|apply Hst..]. }
  destruct (should_stop_Ok (ss_results st) (cDistance curr)) as [[] Hs]; [apply Hst|..];
    rewrite Hs; cbn [mbind result_bind].
  { exists (ss_results st). split_and!; [done|apply Hst..]. }
  pose proof (Pop_perm _ _ _ _ E) as Hp. destruct Hst as [H1 H2 H3 H4 H5 H6 H7 He H8 H9].
  rewrite Hp in H2, H6. inversion H2 as [|? ? [Hcurr _] H2']; inversion H6; subst.
  destruct (cl_edges _ _ _ HP (cID curr) Hcurr) as (conns & -> & Hconns).
  cbn [mbind result_bind].
  destruct (explore_Ok conns (SearchState (ss_visited st) cands (ss_results st)))
    as (st' & -> & Hst' & Hr'); [|done|].
  { constructor; simpl; try done. intros c Hc. apply H4. rewrite Hp. by right. }
  cbn [mbind result_bind]. apply IH; [done|].
  apply Permutation_length in Hp. simpl in Hp. unfold rounds, len in *. simpl in *. lia.
Qed.

Lemma heap_Push_nil {A} `{!Inhabited A} (less : A → A → bool) (c : A) : heap_Push less c [] = [c].
Proof. done. Qed.

Lemma init_ok dist :
  query_dist h q entry = Ok dist →
  st_ok (SearchState {[entry]} [mkCandidate entry dist] [mkCandidate entry dist]).
Proof.
  intros Hd. assert (Hc : cand_ok (mkCandidate entry dist)) by (split_and!; [done..|by left]).
  constructor; simpl; try done; try (by repeat constructor); try set_solver.
  - apply NoDup_singleton.
  - apply NoDup_singleton.
  - unfold len. simpl. lia.
Qed.

Lemma searchLayer_Ok :
  ∃ rs, searchLayer h q entry ef layer = Ok rs ∧ Forall cand_ok rs ∧
    NoDup (cID <$> rs) ∧ rs ≠ [] ∧ len rs ≤ Z.max ef 1.
Proof.
  unfold searchLayer.
  destruct (query_dist_Ok h q entry (cl_valid _ _ _ HP _ Hentry)) as [dist Hd].
  rewrite Hd. cbn [mbind result_bind]. rewrite !heap_Push_nil.
  destruct (search_loop_Ok (S (length (h_nodes h)))
    (SearchState {[entry]} [mkCandidate entry dist] [mkCandidate entry dist]))
    as (rs & -> & H1 & H2 & H3 & H4); [by apply init_ok| |].
  { unfold rounds. cbn [ss_candidates ss_visited]. rewrite size_singleton. unfold len. simpl. lia. }
  cbn [mbind result_bind]. exists (heap_drain max_less rs).
  pose proof (heap_drain_perm max_less rs) as Hp. split_and!; [done|by rewrite Hp..| |].
  - intros E. rewrite E in Hp. by apply Permutation_nil_l in Hp.
  - unfold len in *. by rewrite (Permutation_length Hp).
Qed.

(** ** Order of the results

    When no distance of the query is NaN, both heaps are heaps and the result is
    in ascending order of distance. *)
Definition cmp (c : Candidate) : Prop := cDistance c ≠ S754_nan.

Lemma min_less_asym a b : min_less a b = true → min_less b a = false.
Proof. apply flt_asym. Qed.
Lemma min_less_trans a b c :
  cmp b → min_less b a = false → min_less c b = false → min_less c a = false.
Proof. apply flt_ge_trans. Qed.
Lemma max_less_asym a b : max_less a b = true → max_less b a = false.
Proof. apply flt_asym. Qed.
Lemma max_less_trans a b c :
  cmp b → max_less b a = false → max_less c b = false → max_less c a = false.
Proof. unfold max_less, fgt. intros Hb H1 H2. by eapply flt_ge_trans. Qed.

Definition max_heap (l : list Candidate) : Prop := heap_ok max_less (length l) l.

Lemma push_bounded_heap c results :
  Forall cmp results → cmp c → max_heap results → max_heap (push_bounded ef c results).
Proof.
  intros HF Hc Hh. unfold push_bounded, max_heap.
  assert (Hcmp : Forall cmp (heap_Push max_less c results)).
  { rewrite (Push_perm max_less). by constructor. }
  assert (Hpush : heap_ok max_less (length (heap_Push max_less c results)) (heap_Push max_less c results)).
  { by apply (Push_ok max_less cmp max_less_asym max_less_trans). }
  destruct (_ >? _); [|done].
  destruct (heap_Pop max_less _) as [[x r]|] eqn:E; [|done].
  by destruct (Pop_ok max_less cmp max_less_asym max_less_trans _ _ _ Hcmp Hpush E).
Qed.

Definition ascending (rs : list Candidate) : Prop :=
  StronglySorted (λ a b, flt (cDistance b) (cDistance a) = false) rs.

Lemma drain_ascending rs : Forall cmp rs → max_heap rs → ascending (heap_drain max_less rs).
Proof. apply (heap_drain_sorted max_less cmp max_less_asym max_less_trans). Qed.

Section ordered.
Context (Hnan : ∀ id d, P id → query_dist h q id = Ok d → d ≠ S754_nan).

Lemma cand_cmp c : cand_ok c → cmp c.
Proof. intros (HPc & Hd & _). by eapply Hnan. Qed.

Lemma cands_cmp cs : Forall cand_ok cs → Forall cmp cs.
Proof. intros HF. eapply Forall_impl; [exact HF|apply cand_cmp]. Qed.

Lemma explore_heap neighbors st st' :
  st_ok st → Forall P neighbors → max_heap (ss_results st) →
  explore h q ef neighbors st = Ok st' → max_heap (ss_results st').
Proof.
  intros Hst HF. revert st Hst. induction HF as [|id rest Hid HF IH]; intros st Hst Hh E;
    simpl in E; [by simplify_eq|].
  case_decide as Hv; [by eapply IH|].
  apply result_bind_Ok in E as (n & Hn & E). unfold node_at in Hn.
  destruct (h_nodes h !! id) as [n'|] eqn:Hlk; [simplify_eq|done].
  destruct (n_deleted n) eqn:Hd; [eapply IH; [..|exact E]; [by apply st_ok_visit|done]|].
  apply result_bind_Ok in E as (dist & Hdist & E). apply result_bind_Ok in E as ([] & _ & E).
  - assert (Hl : live h id) by (by exists n).
    eapply IH; [..|exact E]; [by apply st_ok_push|simpl].
    apply push_bounded_heap; [apply cands_cmp, Hst| |done]. apply cand_cmp. split_and!; [done..|by right].
  - eapply IH; [..|exact E]; [by apply st_ok_visit|done].
Qed.

Lemma search_loop_heap fuel st rs :
  st_ok st → max_heap (ss_results st) → search_loop fuel h q ef layer st = Ok rs → max_heap rs.
Proof.
  revert st. induction fuel as [|fuel IH]; intros st Hst Hh E; [done|]. cbn [search_loop] in E.
  destruct (heap_Pop min_less (ss_candidates st)) as [[curr cands]|] eqn:Ep; [|by simplify_eq].
  apply result_bind_Ok in E as ([] & _ & E); [by simplify_eq|].
  pose proof (Pop_perm _ _ _ _ Ep) as Hp. pose proof Hst as [H1 H2 H3 H4 H5 H6 H7 He H8 H9].
  rewrite Hp in H2, H6. inversion H2 as [|? ? [Hcurr _] H2']; inversion H6; subst.
  destruct (cl_edges _ _ _ HP (cID curr) Hcurr) as (conns & Hc & Hconns). rewrite Hc in E.
  cbn [mbind result_bind] in E. apply result_bind_Ok in E as (st' & Ex & E).
  set (st0 := SearchState (ss_visited st) cands (ss_results st)) in Ex.
  assert (Hst0 : st_ok st0).
  { constructor; simpl; try done. intros c Hin. apply H4. rewrite Hp. by right. }
  destruct (explore_Ok conns st0 Hst0 Hconns) as (st'' & Ex' & Hst' & _).
  rewrite Ex in Ex'. injection Ex' as <-.
  eapply IH; [exact Hst'| |exact E].
  by apply (explore_heap conns st0).
Qed.

Lemma searchLayer_sorted rs :
  searchLayer h q entry ef layer = Ok rs → ascending rs.
Proof.
  unfold searchLayer. intros E. apply result_bind_Ok in E as (dist & Hd & E).
  apply result_bind_Ok in E as (res & Hs & E). injection E as <-.
  rewrite !heap_Push_nil in Hs. pose proof (init_ok dist Hd) as Hinit.
  assert (Hlen : rounds (SearchState {[entry]} [mkCandidate entry dist] [mkCandidate entry dist]) <
    Z.of_nat (S (length (h_nodes h)))).
  { unfold rounds. cbn [ss_candidates ss_visited]. rewrite size_singleton. unfold len. simpl. lia. }
  destruct (search_loop_Ok _ _ Hinit Hlen) as (rs' & Hs' & HF & _).
  rewrite Hs in Hs'. injection Hs' as <-.
  apply search_loop_heap in Hs; [|done|intros k Hk; simpl in Hk; lia].
  by apply drain_ascending; [apply cands_cmp|].
Qed.

End ordered.

(** ** Exhaustive search

    With [ef] at least the number of nodes nothing is ever dropped, and every
    node reachable through live nodes is returned. *)
Inductive reach : nat → Prop :=
| reach_entry : reach entry
| reach_step id conns j :
    reach id → getConnections h id layer = Ok conns → j ∈ conns → live h j → reach j.

Context (Hbig : len (h_nodes h) ≤ ef).

Definition shown (id : nat) : Prop := live h id ∨ id = entry.

(** The nodes met so far are in the results, and all but [exc] of them still
    wait to be explored or have all their neighbours visited. *)
Record full (exc : nat → Prop) (st : search_state) : Prop := {
  fu_res : ∀ id, id ∈ ss_visited st → shown id → id ∈ cID <$> ss_results st;
  fu_done : ∀ id, id ∈ ss_visited st → shown id → exc id ∨ id ∈ cID <$> ss_candidates st ∨
    ∀ conns j, getConnections h id layer = Ok conns → j ∈ conns → j ∈ ss_visited st
}.

(** A fresh node finds room in the results. *)
Lemma room st id : st_ok st → P id → id ∉ ss_visited st → len (ss_results st) < ef.
Proof.
  intros Hst Hid Hv. assert (Hsz : Z.of_nat (size ({[id]} ∪ ss_visited st)) ≤ len (h_nodes h)).
  { apply visited_bound. intros j [->%elem_of_singleton|Hj]%elem_of_union; [done|].
    by apply (so_visited _ Hst). }
  rewrite size_union, size_singleton in Hsz by set_solver.
  assert (Hr : (length (ss_results st) ≤ size (ss_visited st))%nat).
  { rewrite <- (length_fmap cID), <- (size_list_to_set (C := gset nat)) by apply Hst.
    apply subseteq_size. intros j Hj. apply elem_of_list_to_set in Hj.
    apply list_elem_of_fmap in Hj as (c & -> & Hc). by apply (so_results_vis _ Hst). }
  unfold len in *. lia.
Qed.

Lemma room_improves st dist : len (ss_results st) < ef → improves (ss_results st) ef dist = Ok true.
Proof. intros H. unfold improves. by rewrite (proj2 (Z.ltb_lt _ _) H). Qed.

Lemma room_push c results : len results < ef → push_bounded ef c results ≡ₚ c :: results.
Proof. intros H. destruct (push_bounded_cases c results) as [[Hp _]|(y & _ & Hge)]; [done|lia]. Qed.

Lemma explore_full exc neighbors st st' :
  st_ok st → Forall P neighbors → full exc st → explore h q ef neighbors st = Ok st' →
  full exc st' ∧ ss_visited st ⊆ ss_visited st' ∧ ∀ j, j ∈ neighbors → j ∈ ss_visited st'.
Proof.
  intros Hst HF. revert st Hst.
  induction HF as [|id rest Hid HF IH]; intros st Hst Hfull E; simpl in E.
  { simplify_eq. split_and!; [done..|]. intros j Hj. by apply elem_of_nil in Hj. }
  case_decide as Hv.
  { destruct (IH st Hst Hfull E) as (H1 & H2 & H3). split_and!; [done..|].
    intros j [->|Hj]%elem_of_cons; auto. }
  apply result_bind_Ok in E as (n & Hn & E). unfold node_at in Hn.
  destruct (h_nodes h !! id) as [n'|] eqn:Hlk; [injection Hn as ->|done].
  destruct Hfull as [Hf1 Hf2].
  assert (Hgoal : ∀ st1, st_ok st1 → full exc st1 →
    ss_visited st1 = {[id]} ∪ ss_visited st → explore h q ef rest st1 = Ok st' →
    full exc st' ∧ ss_visited st ⊆ ss_visited st' ∧ ∀ j, j ∈ id :: rest → j ∈ ss_visited st').
  { intros st1 Hok1 Hfu1 Hv1 E1. destruct (IH st1 Hok1 Hfu1 E1) as (H1 & H2 & H3).
    split; [done|]. split; [set_solver|]. intros j [->|Hj]%elem_of_cons; [set_solver|auto]. }
  destruct (n_deleted n) eqn:Hd.
  { apply Hgoal in E; [done|by apply st_ok_visit| |done].
    assert (Hns : ¬ shown id ∨ id ∈ ss_visited st).
    { left. intros [(m & Hm & Hm')| ->]; [congruence|]. by apply Hv, so_entry. }
    constructor; simpl.
    - intros j [->%elem_of_singleton|Hj]%elem_of_union Hs; [|by apply Hf1].
      destruct Hns; [done|]. by apply Hf1.
    - intros j [->%elem_of_singleton|Hj]%elem_of_union Hs; [by destruct Hns|].
      destruct (Hf2 j Hj Hs) as [?|[?|Hc]]; [by left|by right; left|].
      right; right. intros. apply elem_of_union_r. eauto. }
  apply result_bind_Ok in E as (dist & Hdist & E).
  pose proof (room st id Hst Hid Hv) as Hroom.
  rewrite room_improves in E by done. cbn [mbind result_bind] in E.
  apply Hgoal in E; [done|apply st_ok_push; [done..|by exists n|done]| |done].
  pose proof (room_push (mkCandidate id dist) (ss_results st) Hroom) as Hp.
  pose proof (Push_perm min_less (mkCandidate id dist) (ss_candidates st)) as Hp'.
  constructor; cbn [ss_visited ss_candidates ss_results].
  - intros j Hj Hs. rewrite Hp. simpl. apply elem_of_cons.
    apply elem_of_union in Hj as [->%elem_of_singleton|Hj]; [by left|right; by apply Hf1].
  - intros j Hj Hs. rewrite Hp'. simpl. rewrite elem_of_cons.
    apply elem_of_union in Hj as [->%elem_of_singleton|Hj]; [by right; left; left|].
    destruct (Hf2 j Hj Hs) as [?|[?|Hc]]; [by left|by right; left; right|].
    right; right. intros. apply elem_of_union_r. eauto.
Qed.

Lemma search_loop_full fuel st rs :
  st_ok st → full (λ _, False) st → search_loop fuel h q ef layer st = Ok rs →
  ∀ id, reach id → id ∈ cID <$> rs.
Proof.
  revert st. induction fuel as [|fuel IH]; intros st Hst Hfull E; [done|]. cbn [search_loop] in E.
  destruct (heap_Pop min_less (ss_candidates st)) as [[curr cands]|] eqn:Ep.
  2: { (* nothing left to explore: the visited set is closed *)
    injection E as <-. apply Pop_None in Ep. destruct Hfull as [Hf1 Hf2].
    assert (Hr : ∀ id, reach id → id ∈ ss_visited st ∧ shown id).
    { induction 1 as [|id conns j Hid [IH1 IH2] Hc Hj Hl].
      - split; [by apply so_entry|by right].
      - split; [|by left]. destruct (Hf2 id IH1 IH2) as [[]|[Hin|Hcl]]; [|by eapply Hcl].
        rewrite Ep in Hin. by apply elem_of_nil in Hin. }
    intros id [Hv Hs]%Hr. by apply Hf1. }
  apply result_bind_Ok in E as (stop & Hstop & E).
  destruct stop.
  { (* every node is already in the results *)
    injection E as <-. unfold should_stop in Hstop.
    destruct (Z.leb_spec ef (len (ss_results st))) as [Hle|]; [|done].
    intros id Hid. assert (HPid : P id).
    { clear -Hid HP Hentry. induction Hid as [|id conns j Hid IH Hc Hj Hl]; [done|].
      destruct (cl_edges _ _ _ HP id IH) as (conns' & Hc' & HF). rewrite Hc in Hc'.
      injection Hc' as <-. rewrite Forall_forall in HF. auto. }
    destruct (decide (id ∈ ss_visited st)) as [Hv|Hv].
    - apply (fu_res _ _ Hfull); [done|]. inversion Hid; subst; [by right|by left].
    - pose proof (room st id Hst HPid Hv). lia. }
  pose proof (Pop_perm _ _ _ _ Ep) as Hp. pose proof Hst as [H1 H2 H3 H4 H5 H6 H7 He H8 H9].
  rewrite Hp in H2, H6. inversion H2 as [|? ? [Hcurr _] H2']; inversion H6; subst.
  destruct (cl_edges _ _ _ HP (cID curr) Hcurr) as (conns & Hc & Hconns). rewrite Hc in E.
  cbn [mbind result_bind] in E. apply result_bind_Ok in E as (st' & Ex & E).
  set (st0 := SearchState (ss_visited st) cands (ss_results st)) in Ex.
  assert (Hst0 : st_ok st0).
  { constructor; simpl; try done. intros c Hin. apply H4. rewrite Hp. by right. }
  destruct (explore_Ok conns st0 Hst0 Hconns) as (st'' & Ex' & Hst' & _).
  rewrite Ex in Ex'. injection Ex' as <-.
  destruct (explore_full (λ id, id = cID curr) conns st0 st') as (Hf' & Hsub & Hall); [done..| |done|].
  { destruct Hfull as [Hf1 Hf2]. constructor; simpl; [done|].
    intros id Hv Hs. destruct (Hf2 id Hv Hs) as [[]|[Hin|Hcl]]; [|by right; right].
    rewrite Hp in Hin. simpl in Hin. apply elem_of_cons in Hin as [->|Hin]; [by left|by right; left]. }
  eapply IH; [exact Hst'| |exact E]. destruct Hf' as [Hf1 Hf2]. constructor; [done|].
  intros id Hv Hs. destruct (Hf2 id Hv Hs) as [->|[Hin|Hcl]]; [|by right; left|by right; right].
  right; right. intros conns' j Hc' Hj. rewrite Hc in Hc'. injection Hc' as <-. auto.
Qed.

Lemma searchLayer_full rs :
  searchLayer h q entry ef layer = Ok rs → ∀ id, reach id → id ∈ cID <$> rs.
Proof.
  unfold searchLayer. intros E. apply result_bind_Ok in E as (dist & Hd & E).
  apply result_bind_Ok in E as (res & Hs & E). injection E as <-.
  rewrite !heap_Push_nil in Hs. intros id Hid. rewrite (heap_drain_perm max_less).
  eapply search_loop_full; [by apply init_ok| |exact Hs|done].
  constructor; simpl; intros j ->%elem_of_singleton _.
  - by apply list_elem_of_singleton.
  - right; left. by apply list_elem_of_singleton.
Qed.

End layer.

(** ** greedySearchLayer *)
Section greedy.
Context h (q : vector) (layer : Z) (P : nat → Prop).
Context (HP : closed h layer P).

(** No live neighbour of [ids] is closer to the query than [d]. *)
Definition none_closer (ids : list nat) (d : f32) : Prop :=
  ∀ j dj, j ∈ ids → live h j → query_dist h q j = Ok dj → flt dj d = false.

Lemma none_closer_mono ids d d' :
  flt d' d = true → none_closer ids d → none_closer ids d'.
Proof.
  intros Hlt H j dj Hj Hl Hd. destruct (flt dj d') eqn:E; [|done].
  specialize (H j dj Hj Hl Hd). by rewrite (flt_trans _ _ _ E Hlt) in H.
Qed.

Lemma greedy_scan_Ok neighbors id d ch :
  Forall P neighbors → P id → query_dist h q id = Ok d →
  ∃ id' d' ch', greedy_scan h q neighbors id d ch = Ok (id', d', ch') ∧
    P id' ∧ query_dist h q id' = Ok d' ∧ none_closer neighbors d' ∧
    ((id' = id ∧ d' = d ∧ ch' = ch) ∨ (flt d' d = true ∧ ch' = true ∧ live h id')).
Proof.
  intros HF. revert id d ch. induction HF as [|j rest Hj HF IH]; intros id d ch Hid Hd; simpl.
  { exists id, d, ch. split_and!; try done; [|by left]. intros j dj Hj. by apply elem_of_nil in Hj. }
  pose proof (cl_valid _ _ _ HP j Hj) as Hlt.
  destruct (lookup_lt_is_Some_2 _ _ Hlt) as [n Hn]. rewrite (node_at_Some _ _ _ Hn).
  cbn [mbind result_bind].
  (* the neighbour is passed over: it is deleted or not closer *)
  assert (Hskip : (∀ dj, live h j → query_dist h q j = Ok dj → flt dj d = false) →
    ∃ id' d' ch', greedy_scan h q rest id d ch = Ok (id', d', ch') ∧
    P id' ∧ query_dist h q id' = Ok d' ∧ none_closer (j :: rest) d' ∧
    ((id' = id ∧ d' = d ∧ ch' = ch) ∨ (flt d' d = true ∧ ch' = true ∧ live h id'))).
  { intros Hno. destruct (IH id d ch Hid Hd) as (id' & d' & ch' & E & H1 & H2 & H3 & H4).
    exists id', d', ch'. split_and!; [done..| |done].
    intros k dk [->|Hk]%elem_of_cons Hl Hdk; [|by eapply H3].
    destruct H4 as [(_ & -> & _)|(Hlt' & _)]; [by apply Hno|].
    destruct (flt dk d') eqn:E'; [|done]. specialize (Hno dk Hl Hdk).
    by rewrite (flt_trans _ _ _ E' Hlt') in Hno. }
  destruct (n_deleted n) eqn:Hdel.
  { apply Hskip. intros dj (m & Hm & Hm') _. congruence. }
  destruct (query_dist_Ok h q j Hlt) as [dj Hdj]. rewrite Hdj. cbn [mbind result_bind].
  destruct (flt dj d) eqn:Hcl.
  - destruct (IH j dj true Hj Hdj) as (id' & d' & ch' & E & H1 & H2 & H3 & H4).
    exists id', d', ch'. split_and!; [done..| |].
    + intros k dk [->|Hk]%elem_of_cons Hl Hdk; [|by eapply H3].
      rewrite Hdj in Hdk. injection Hdk as <-.
      destruct H4 as [(_ & -> & _)|(Hlt' & _)]; [apply flt_irrefl|by apply flt_asym].
    + right. destruct H4 as [(-> & -> & ->)|(Hlt' & -> & Hl)].
      * split_and!; [done..|by exists n].
      * split_and!; [by eapply flt_trans|done..].
  - apply Hskip. intros dk _ Hdk. congruence.
Qed.

(** The nodes closer to the query than [d]. *)
Definition is_below (d : f32) (id : nat) : bool :=
  match query_dist h q id with Ok x => flt x d | _ => false end.
Definition below (d : f32) : list nat :=
  filter (is_below d) (seq 0 (length (h_nodes h))).

Lemma elem_of_below d id :
  id ∈ below d ↔ (id < length (h_nodes h))%nat ∧ ∃ x, query_dist h q id = Ok x ∧ flt x d = true.
Proof.
  unfold below, is_below. rewrite list_elem_of_filter, elem_of_seq. split.
  - intros [H1 H2]. split; [lia|]. destruct (query_dist h q id); [|done..].
    eexists. split; [done|]. by apply Is_true_eq_true.
  - intros (H1 & x & -> & H2). rewrite H2. split; [done|lia].
Qed.

Lemma below_decreases d d' id :
  flt d' d = true → P id → query_dist h q id = Ok d' →
  (length (below d') < length (below d))%nat.
Proof.
  intros Hlt Hid Hd. pose proof (cl_valid _ _ _ HP id Hid) as Hv.
  assert (Hnd : ∀ x, NoDup (below x)) by (intros; apply NoDup_filter, NoDup_seq).
  assert (Hsub : id :: below d' ⊆+ below d).
  { apply NoDup_submseteq.
    - constructor; [|done]. intros (_ & x & Hx & Hx')%elem_of_below.
      rewrite Hd in Hx. injection Hx as <-. by rewrite flt_irrefl in Hx'.
    - intros j [->|Hj]%elem_of_cons; apply elem_of_below; [by eauto|].
      apply elem_of_below in Hj as (Hj & x & Hx & Hx'). split; [done|].
      exists x. split; [done|]. by eapply flt_trans. }
  apply submseteq_length in Hsub. simpl in Hsub. lia.
Qed.

Lemma greedy_loop_Ok fuel id d :
  (length (below d) < fuel)%nat → P id → query_dist h q id = Ok d →
  ∃ id' d', greedy_loop fuel h q layer id d = Ok id' ∧ P id' ∧ (id' = id ∨ live h id') ∧
    query_dist h q id' = Ok d' ∧
    ∀ conns, getConnections h id' layer = Ok conns → none_closer conns d'.
Proof.
  revert id d. induction fuel as [|fuel IH]; intros id d Hf Hid Hd; [lia|]. cbn [greedy_loop].
  destruct (cl_edges _ _ _ HP id Hid) as (conns & Hc & HF). rewrite Hc. cbn [mbind result_bind].
  destruct (greedy_scan_Ok conns id d false HF Hid Hd)
    as (id' & d' & ch' & -> & H1 & H2 & H3 & H4). cbn [mbind result_bind].
  destruct H4 as [(-> & -> & ->)|(Hlt & -> & Hl)].
  - exists id, d. split_and!; [done|done|by left|done|].
    intros conns' Hc'. rewrite Hc in Hc'. by injection Hc' as <-.
  - pose proof (below_decreases _ _ _ Hlt H1 H2).
    destruct (IH id' d') as (id'' & d'' & E & H5 & H6 & H7 & H8); [lia|done..|].
    exists id'', d''. split_and!; [done..| |done|done]. right. by destruct H6 as [->|].
Qed.

Lemma below_bound d : (length (below d) ≤ length (h_nodes h))%nat.
Proof.
  unfold below. etransitivity; [apply length_filter|]. by rewrite length_seq.
Qed.

Lemma greedySearchLayer_Ok id :
  P id → ∃ id' d', greedySearchLayer h q id layer = Ok id' ∧ P id' ∧ (id' = id ∨ live h id') ∧
    query_dist h q id' = Ok d' ∧
    ∀ conns, getConnections h id' layer = Ok conns → none_closer conns d'.
Proof.
  intros Hid. unfold greedySearchLayer.
  destruct (query_dist_Ok h q id (cl_valid _ _ _ HP _ Hid)) as [d Hd]. rewrite Hd.
  cbn [mbind result_bind]. apply greedy_loop_Ok; [|done..]. pose proof (below_bound d). lia.
Qed.

End greedy.
End search.
