(* ===== verification/HnswGraph.v ===== *)
(** * pkg/index/hnsw: the graph invariant

    What every index built by the package satisfies, and that [Insert] and
    [Delete] preserve it: edges lead to existing nodes of the layer, node
    degrees stay within [Mmax] and [Mmax0], no node links to itself or twice to
    another, the entry point is on the top layer, and the identifier table is
    exact. *)
From stdpp Require Import base gmap strings list fin_maps numbers sorting sets.
From Stdlib Require Import Strings.Byte ZArith Lia Floats.SpecFloat.
From S2P Require Import Prelude Float32 Heap Hnsw HnswSearch.

#[local] Open Scope Z_scope.

Section graph.
Context {payload : Type} {calc : Calculator} {sorter : Sorter}.
Implicit Types (h : HNSW payload) (n : Node payload).

Definition max_conn h (layer : Z) : Z := if layer =? 0 then h_Mmax0 h else h_Mmax h.

(** A node of the layer. *)
Definition on_layer h (layer : Z) (id : nat) : Prop :=
  ∃ n, h_nodes h !! id = Some n ∧ layer ≤ n_Level n.

Record conn_ok h (id : nat) (layer : Z) (conns : list nat) : Prop := {
  co_nodup : NoDup conns;
  co_self : id ∉ conns;
  co_len : len conns ≤ max_conn h layer;
  co_valid : Forall (on_layer h layer) conns
}.

Record node_ok h (id : nat) n : Prop := {
  no_vec : len (n_Vector n) = h_dimension h;
  no_level : 0 ≤ n_Level n ≤ h_maxLevel h;
  no_layers : len (n_Connections n) = n_Level n + 1;
  no_conns : ∀ layer conns, n_Connections n !! layer = Some conns →
    conn_ok h id (Z.of_nat layer) conns
}.

Definition entry_ok h : Prop :=
  match h_nodes h with
  | [] => h_maxLevel h = -1
  | _ => 0 ≤ h_maxLevel h ∧ on_layer h (h_maxLevel h) (h_entryPoint h)
  end.

Record wf h : Prop := {
  wf_M : 1 ≤ h_M h ≤ h_Mmax h ∧ h_M h ≤ h_Mmax0 h;
  wf_dim : 0 < h_dimension h;
  wf_len : len (h_nodes h) ≤ MaxNodes;
  wf_count : h_nodeCount h = len (h_nodes h);
  wf_deleted : h_deletedCount h = len (filter n_deleted (h_nodes h));
  wf_ids : ∀ id i, h_idToIndex h !! id = Some i ↔
    ∃ n, h_nodes h !! i = Some n ∧ n_ID n = id;
  wf_nodes : ∀ i n, h_nodes h !! i = Some n → node_ok h i n;
  wf_entry : entry_ok h
}.

(** ** Reading the graph *)
Lemma getConnections_Ok h layer id :
  wf h → 0 ≤ layer → on_layer h layer id →
  ∃ n conns, h_nodes h !! id = Some n ∧ n_Connections n !! Z.to_nat layer = Some conns ∧
    getConnections h id layer = Ok conns ∧ conn_ok h id layer conns.
Proof.
  intros Hwf Hl (n & Hn & Hlev). pose proof (wf_nodes _ Hwf _ _ Hn) as [Hv Hlv Hlay Hc].
  destruct (lookup_lt_is_Some_2 (n_Connections n) (Z.to_nat layer)) as [conns Hco].
  { unfold len in Hlay. lia. }
  exists n, conns. specialize (Hc _ _ Hco). rewrite Z2Nat.id in Hc by done.
  split_and!; [done..| |done]. unfold getConnections, GetConnections, index.
  rewrite (node_at_Some _ _ _ Hn). cbn [mbind result_bind].
  rewrite Z.gtb_ltb, (proj2 (Z.ltb_ge _ _)), (proj2 (Z.ltb_ge _ _)) by lia. simpl.
  by rewrite (proj2 (Z.leb_le _ _)), Hco by lia.
Qed.

Lemma on_layer_valid h layer id : on_layer h layer id → (id < length (h_nodes h))%nat.
Proof. intros (n & Hn & _). by eapply lookup_lt_Some. Qed.

(** Above its level a node has no edges. *)
Lemma getConnections_above h layer id n :
  h_nodes h !! id = Some n → n_Level n < layer → getConnections h id layer = Ok [].
Proof.
  intros Hn Hlt. unfold getConnections, GetConnections. rewrite (node_at_Some _ _ _ Hn).
  cbn [mbind result_bind]. by rewrite Z.gtb_ltb, (proj2 (Z.ltb_lt _ _)) by lia.
Qed.

(** The nodes of a layer are closed under its edges. *)
Lemma closed_layer h layer : wf h → 0 ≤ layer → closed h layer (on_layer h layer).
Proof.
  intros Hwf Hl. constructor; [apply on_layer_valid|].
  intros id Hid. destruct (getConnections_Ok _ _ _ Hwf Hl Hid) as (n & conns & _ & _ & Hc & Hok).
  exists conns. split; [done|]. apply Hok.
Qed.

Lemma getVector_Ok h id :
  wf h → (id < length (h_nodes h))%nat →
  ∃ n, h_nodes h !! id = Some n ∧ getVector h id = Ok (n_Vector n) ∧ n_Vector n ≠ [].
Proof.
  intros Hwf [n Hn]%lookup_lt_is_Some_2. exists n. unfold getVector.
  rewrite (node_at_Some _ _ _ Hn). split_and!; [done..|]. intros E.
  pose proof (no_vec _ _ _ (wf_nodes _ Hwf _ _ Hn)) as Hv. rewrite E in Hv.
  pose proof (wf_dim _ Hwf). unfold len in Hv. simpl in Hv. lia.
Qed.

(** ** The neighbour selection heuristic *)
Definition valid h (c : Candidate) : Prop := (cID c < length (h_nodes h))%nat.

Definition vec h (id : nat) : vector :=
  match h_nodes h !! id with Some n => n_Vector n | None => [] end.

Lemma dominated_Ok h v d selected :
  wf h → Forall (valid h) selected →
  ∃ b, dominated h v d selected = Ok b ∧
    (b = false ↔ Forall (λ s, flt (Distance v (vec h (cID s))) d = false) selected).
Proof.
  intros Hwf HF. induction HF as [|s rest Hs HF IH]; [by exists false|]. simpl.
  destruct (getVector_Ok h (cID s) Hwf Hs) as (n & Hn & -> & Hne). cbn [mbind result_bind].
  assert (Hvec : vec h (cID s) = n_Vector n) by (unfold vec; by rewrite Hn).
  destruct (n_Vector n) as [|x v'] eqn:Ev; [done|]. rewrite <- Ev, <- Hvec in *.
  destruct IH as (b & Hb & Hiff). destruct (flt _ d) eqn:E.
  - exists true. split; [done|]. split; [done|]. intros HF'. inversion HF'; congruence.
  - exists b. split; [done|]. rewrite Hiff, Forall_cons. naive_solver.
Qed.

(** Each kept candidate is at least as close to the query as to any candidate
    kept before it. *)
Fixpoint diverse h (kept : list Candidate) : Prop :=
  match kept with
  | [] => True
  | s :: rest =>
      Forall (λ c, flt (Distance (vec h (cID c)) (vec h (cID s))) (cDistance c) = false) rest ∧
      diverse h rest
  end.

Lemma diverse_snoc h kept c :
  diverse h (kept ++ [c]) ↔ diverse h kept ∧
    Forall (λ s, flt (Distance (vec h (cID c)) (vec h (cID s))) (cDistance c) = false) kept.
Proof.
  induction kept as [|s kept IH]; simpl; [by rewrite Forall_nil|].
  rewrite IH, Forall_app, Forall_singleton, Forall_cons. naive_solver.
Qed.

Lemma heuristic_loop_Ok h maxConn working selected discarded :
  wf h → Forall (valid h) (working ++ selected) → diverse h selected →
  ∃ sel disc, heuristic_loop h maxConn working selected discarded = Ok (sel, disc) ∧
    (∃ rest, sel ++ disc ++ rest ≡ₚ selected ++ discarded ++ working ∧
       (len sel < maxConn → rest = [])) ∧
    len sel ≤ Z.max maxConn (len selected) ∧ diverse h sel.
Proof.
  intros Hwf. revert selected discarded.
  induction working as [|c working IH]; intros selected discarded HF Hdiv; simpl.
  { exists selected, discarded. split_and!; [done| |lia|done]. by exists []. }
  destruct (Z.leb_spec maxConn (len selected)) as [Hle|Hlt].
  { exists selected, discarded. split_and!; [done| |lia|done]. exists (c :: working).
    split; [done|lia]. }
  simpl in HF. inversion HF as [|? ? Hc HF']; subst.
  destruct (getVector_Ok h (cID c) Hwf Hc) as (n & Hn & -> & Hne). cbn [mbind result_bind].
  destruct (n_Vector n) as [|x v'] eqn:Ev; [done|]. rewrite <- Ev.
  apply Forall_app in HF' as [HFw HFs].
  destruct (dominated_Ok h (n_Vector n) (cDistance c) selected Hwf HFs) as ([] & -> & Hiff);
    cbn [mbind result_bind].
  - destruct (IH selected (discarded ++ [c])) as (sel & disc & E & (rest & Hp & Hr) & Hl & Hd);
      [by apply Forall_app|done|].
    exists sel, disc. split_and!; [done| |done|done]. exists rest. split; [|done].
    rewrite Hp. by rewrite <- app_assoc.
  - assert (Hvec : vec h (cID c) = n_Vector n) by (unfold vec; by rewrite Hn).
    destruct (IH (selected ++ [c]) discarded) as (sel & disc & E & (rest & Hp & Hr) & Hl & Hd).
    { rewrite !Forall_app. split_and!; [done..|by constructor]. }
    { apply diverse_snoc. split; [done|]. rewrite Hvec. by apply Hiff. }
    exists sel, disc. split_and!; [done| | |done].
    + exists rest. split; [|done]. rewrite Hp, <- app_assoc. simpl.
      by rewrite Permutation_middle.
    + len_lia.
Qed.

Lemma selectNeighborsHeuristic_Ok h candidates maxConn :
  wf h → Forall (valid h) candidates → 0 ≤ maxConn →
  ∃ sel, selectNeighborsHeuristic h candidates maxConn = Ok sel ∧
    sel ⊆+ candidates ∧ len sel = Z.min (len candidates) maxConn ∧
    (maxConn < len candidates → ∃ kept fill, sel = kept ++ fill ∧ diverse h kept).
Proof.
  intros Hwf HF Hm. unfold selectNeighborsHeuristic.
  destruct (Z.leb_spec (len candidates) maxConn) as [Hle|Hlt].
  { exists candidates. split_and!; [done..|lia|lia]. }
  pose proof (sort_Slice_perm min_less candidates) as Hs.
  destruct (heuristic_loop_Ok h maxConn (sort_Slice min_less candidates) [] [])
    as (sel & disc & -> & (rest & Hp & Hr) & Hl & Hd); [done| |done|].
  { rewrite app_nil_r. by rewrite Hs. }
  cbn [mbind result_bind]. simpl in Hp. rewrite Hs in Hp. rewrite len_nil in Hl.
  set (fill := take _ disc). exists (sel ++ fill). split; [done|]. split; [|split].
  - rewrite <- Hp. apply submseteq_app; [done|]. apply submseteq_inserts_r.
    subst fill. rewrite <- (take_drop (Z.to_nat (maxConn - len sel)) disc) at 2.
    apply submseteq_inserts_r. done.
  - rewrite len_app. destruct (decide (len sel < maxConn)) as [Hlt'|Hge].
    + rewrite (Hr Hlt'), app_nil_r in Hp. apply Permutation_length in Hp.
      rewrite length_app in Hp. unfold fill, len in *. rewrite length_take. lia.
    + unfold fill. replace (Z.to_nat (maxConn - len sel)) with 0%nat by lia.
      rewrite take_0. unfold len in *. simpl. lia.
  - intros _. by exists sel, fill.
Qed.

(** ** Changing the edges of one node *)
Definition upd h (id layer : nat) (conns : list nat) : HNSW payload :=
  set_nodes (alter (λ n, with_connections n (<[layer := conns]> (n_Connections n))) id (h_nodes h)) h.

Lemma setConnections_run h id layer conns :
  wf h → 0 ≤ layer → on_layer h layer id →
  setConnections id layer conns h = (Ok tt, upd h id (Z.to_nat layer) conns).
Proof.
  intros Hwf Hl Hon. destruct (getConnections_Ok _ _ _ Hwf Hl Hon) as (n & old & Hn & Ho & _ & _).
  destruct Hon as (n' & Hn' & Hlev). rewrite Hn in Hn'. injection Hn' as <-.
  unfold setConnections, SetConnections, index, upd. rewrite (node_at_Some _ _ _ Hn).
  cbn [mbind result_bind].
  rewrite Z.gtb_ltb, (proj2 (Z.ltb_ge _ _)), (proj2 (Z.ltb_ge _ _)) by lia. simpl.
  rewrite (proj2 (Z.leb_le _ _)), Ho by lia. simpl. do 2 f_equal.
  apply list_eq. intros j. destruct (decide (j = id)) as [->|N].
  - rewrite list_lookup_insert_eq by (by eapply lookup_lt_Some).
    by rewrite list_lookup_alter_eq, Hn.
  - by rewrite list_lookup_insert_ne, list_lookup_alter_ne by done.
Qed.

(** [h'] differs from [h] in the edges of its nodes only. *)
Record skel h h' : Prop := {
  sk_rest : h' = set_nodes (h_nodes h') h;
  sk_len : length (h_nodes h') = length (h_nodes h);
  sk_nodes : ∀ i n', h_nodes h' !! i = Some n' →
    ∃ n, h_nodes h !! i = Some n ∧ n' = with_connections n (n_Connections n')
}.

(** And only on [layer]. *)
Definition same_but (layer : nat) h h' : Prop :=
  skel h h' ∧ ∀ i n n' l, h_nodes h !! i = Some n → h_nodes h' !! i = Some n' → l ≠ layer →
    n_Connections n' !! l = n_Connections n !! l.

Lemma skel_refl h : skel h h.
Proof. constructor; [by destruct h|done|]. intros i n Hn. exists n. split; [done|by destruct n]. Qed.

Lemma skel_trans h1 h2 h3 : skel h1 h2 → skel h2 h3 → skel h1 h3.
Proof.
  intros [H1 H2 H3] [G1 G2 G3]. constructor.
  - rewrite G1, H1. done.
  - congruence.
  - intros i n Hn. apply G3 in Hn as (m & Hm & E). apply H3 in Hm as (k & Hk & E').
    exists k. split; [done|]. rewrite E, E'. done.
Qed.

Lemma same_but_refl layer h : same_but layer h h.
Proof. split; [apply skel_refl|]. intros. congruence. Qed.

Lemma skel_fwd h h' i n :
  skel h h' → h_nodes h !! i = Some n →
  ∃ n', h_nodes h' !! i = Some n' ∧ n' = with_connections n (n_Connections n').
Proof.
  intros [H1 H2 H3] Hn. destruct (lookup_lt_is_Some_2 (h_nodes h') i) as [n' Hn'].
  { rewrite H2. by eapply lookup_lt_Some. }
  exists n'. split; [done|]. destruct (H3 _ _ Hn') as (m & Hm & E). congruence.
Qed.

Lemma same_but_trans layer h1 h2 h3 :
  same_but layer h1 h2 → same_but layer h2 h3 → same_but layer h1 h3.
Proof.
  intros [H1 H2] [G1 G2]. split; [by eapply skel_trans|].
  intros i n n3 l Hn Hn3 Hl. destruct (skel_fwd _ _ _ _ H1 Hn) as (n2 & Hn2 & _).
  rewrite (G2 i n2 n3 l) by done. by apply (H2 i n n2 l).
Qed.

Lemma upd_same_but h id layer conns : same_but layer h (upd h id layer conns).
Proof.
  split; [constructor|].
  - done.
  - simpl. apply length_alter.
  - intros i n'. simpl. destruct (decide (i = id)) as [->|N].
    + rewrite list_lookup_alter_eq. intros (n & Hn & ->)%fmap_Some. by exists n.
    + rewrite list_lookup_alter_ne by done. intros Hn. exists n'. split; [done|by destruct n'].
  - intros i n n' l Hn. simpl. destruct (decide (i = id)) as [->|N].
    + rewrite list_lookup_alter_eq, Hn. simpl. intros E Hl. injection E as <-. simpl.
      by rewrite list_lookup_insert_ne.
    + rewrite list_lookup_alter_ne by done. congruence.
Qed.

Lemma skel_on_layer h h' layer id : skel h h' → on_layer h layer id ↔ on_layer h' layer id.
Proof.
  intros Hs. split.
  - intros (n & Hn & Hl). destruct (skel_fwd _ _ _ _ Hs Hn) as (n' & Hn' & E).
    exists n'. split; [done|]. by rewrite E.
  - intros (n' & Hn' & Hl). destruct (sk_nodes _ _ Hs _ _ Hn') as (n & Hn & E).
    exists n. split; [done|]. by rewrite E in Hl.
Qed.

Lemma skel_live h h' id : skel h h' → live h id ↔ live h' id.
Proof.
  intros Hs. split.
  - intros (n & Hn & Hl). destruct (skel_fwd _ _ _ _ Hs Hn) as (n' & Hn' & E).
    exists n'. split; [done|]. by rewrite E.
  - intros (n' & Hn' & Hl). destruct (sk_nodes _ _ Hs _ _ Hn') as (n & Hn & E).
    exists n. split; [done|]. by rewrite E in Hl.
Qed.

Lemma conn_ok_skel h h' id layer conns :
  skel h h' → conn_ok h id layer conns → conn_ok h' id layer conns.
Proof.
  intros Hs [H1 H2 H3 H4]. constructor; [done..| |].
  - unfold max_conn in *. rewrite (sk_rest _ _ Hs). exact H3.
  - eapply Forall_impl; [exact H4|]. intros j. apply (skel_on_layer _ _ _ _ Hs).
Qed.

Lemma skel_filter h h' :
  skel h h' → len (filter n_deleted (h_nodes h')) = len (filter n_deleted (h_nodes h)).
Proof.
  intros Hs. assert (HF : Forall2 (λ n n', n_deleted n = n_deleted n') (h_nodes h) (h_nodes h')).
  { apply Forall2_same_length_lookup. split; [by rewrite (sk_len _ _ Hs)|].
    intros i n n' Hn Hn'. destruct (sk_nodes _ _ Hs _ _ Hn') as (m & Hm & E). rewrite E.
    simpl. congruence. }
  unfold len. f_equal. induction HF as [|n n' l l' E HF IH]; [done|].
  rewrite !filter_cons, E. case_decide; simpl; by rewrite IH.
Qed.

(** Replacing an edge list by a proper one keeps the invariant. *)
Lemma wf_upd h id layer conns :
  wf h → conn_ok h id (Z.of_nat layer) conns → wf (upd h id layer conns).
Proof.
  intros Hwf Hco. pose proof (upd_same_but h id layer conns) as [Hs _].
  pose proof Hwf as [H1 H2 H3 H4 H5 H6 H7 H8]. constructor; simpl; try done.
  - unfold len in *. by rewrite length_alter.
  - unfold len in *. by rewrite length_alter.
  - rewrite H5. symmetry. apply (skel_filter _ _ Hs).
  - intros sid i. rewrite H6. split.
    + intros (n & Hn & E). destruct (skel_fwd _ _ _ _ Hs Hn) as (n' & Hn' & E').
      exists n'. split; [done|]. by rewrite E'.
    + intros (n' & Hn' & E). destruct (sk_nodes _ _ Hs _ _ Hn') as (n & Hn & E').
      exists n. split; [done|]. by rewrite E' in E.
  - intros i n' Hn'. pose proof Hn' as Hn''. apply (sk_nodes _ _ Hs) in Hn'' as (n & Hn & E).
    destruct (H7 _ _ Hn) as [N1 N2 N3 N4]. constructor; try (by rewrite E).
    + unfold len in *. simpl in Hn'. destruct (decide (i = id)) as [->|N].
      * rewrite list_lookup_alter_eq, Hn in Hn'. injection Hn' as <-. simpl.
        by rewrite length_insert.
      * rewrite list_lookup_alter_ne, Hn in Hn' by done. by injection Hn' as <-.
    + intros l c Hc. apply (conn_ok_skel h); [done|]. simpl in Hn'.
      destruct (decide (i = id)) as [->|N].
      * rewrite list_lookup_alter_eq, Hn in Hn'. injection Hn' as <-. simpl in Hc.
        apply list_lookup_insert_Some in Hc as [(-> & <- & _)|[_ Hc]]; [done|by apply N4].
      * rewrite list_lookup_alter_ne, Hn in Hn' by done. injection Hn' as <-. by apply N4.
  - unfold entry_ok in *. simpl. destruct (h_nodes h) as [|n0 ns] eqn:E; [by destruct id|].
    destruct (alter _ id (n0 :: ns)) eqn:E'.
    { apply (f_equal length) in E'. by rewrite length_alter in E'. }
    destruct H8 as [Hm Ho]. split; [done|]. by apply (skel_on_layer _ _ _ _ Hs) in Ho.
Qed.

End graph.
