(* ===== verification/HnswInsert.v ===== *)
(** * pkg/index/hnsw: insertion

    [Insert] on a well-formed index succeeds for every level the generator can
    draw and preserves the graph invariant. *)
From stdpp Require Import base gmap strings list fin_maps numbers sorting sets.
From Stdlib Require Import Strings.Byte ZArith Lia Floats.SpecFloat.
From S2P Require Import Prelude Float32 Heap Hnsw HnswSearch HnswGraph.

#[local] Open Scope Z_scope.

Section insert.
Context {payload : Type} {calc : Calculator} {sorter : Sorter}.
Implicit Types (h : HNSW payload) (n : Node payload).

Lemma with_distances_Ok h v ids :
  wf h → Forall (λ id, (id < length (h_nodes h))%nat) ids →
  ∃ cs, with_distances h v ids = Ok cs ∧ cID <$> cs = ids.
Proof.
  intros Hwf HF. induction HF as [|id ids Hid HF (cs & E & IH)]; [by exists []|]. simpl.
  destruct (getVector_Ok h id Hwf Hid) as (n & _ & -> & _). cbn [mbind result_bind].
  rewrite E. cbn [mbind result_bind]. eexists. split; [done|]. by rewrite fmap_cons, IH.
Qed.

Lemma max_conn_pos h layer : wf h → 1 ≤ max_conn h layer.
Proof. intros Hwf. pose proof (wf_M _ Hwf). unfold max_conn. destruct (_ =? _); lia. Qed.

Lemma valid_of_layer h layer (l : list nat) :
  Forall (on_layer h layer) l → Forall (λ id, (id < length (h_nodes h))%nat) l.
Proof. intros H. eapply Forall_impl; [exact H|]. apply on_layer_valid. Qed.

Lemma valid_fmap h (cs : list Candidate) :
  Forall (λ id, (id < length (h_nodes h))%nat) (cID <$> cs) → Forall (valid h) cs.
Proof. by rewrite Forall_fmap. Qed.

(** A selection of a proper edge list is a proper edge list. *)
Lemma conn_ok_sub h id layer ids (sel : list Candidate) :
  NoDup ids → id ∉ ids → Forall (on_layer h layer) ids → cID <$> sel ⊆+ ids →
  len sel ≤ max_conn h layer → conn_ok h id layer (cID <$> sel).
Proof.
  intros Hnd Hself HF Hsub Hlen. assert (Hin : ∀ j, j ∈ cID <$> sel → j ∈ ids).
  { intros j Hj. by eapply elem_of_submseteq. }
  constructor.
  - apply submseteq_Permutation in Hsub as [k Hk]. rewrite Hk in Hnd. by apply NoDup_app in Hnd as [? _].
  - intros Hid. apply Hself. by apply Hin.
  - unfold len in *. by rewrite length_fmap.
  - rewrite Forall_forall in *. intros j Hj. by apply HF, Hin.
Qed.

Lemma addConnection_Ok h from to layer maxConn :
  wf h → 0 ≤ layer → on_layer h layer from → on_layer h layer to → from ≠ to →
  maxConn = max_conn h layer →
  ∃ h', addConnection from to layer maxConn h = (Ok tt, h') ∧ wf h' ∧
    same_but (Z.to_nat layer) h h'.
Proof.
  intros Hwf Hl Hf Ht Hne ->.
  destruct (getConnections_Ok _ _ _ Hwf Hl Hf) as (n & conns & Hn & Hco & Hg & [C1 C2 C3 C4]).
  unfold addConnection. unfold_M. rewrite Hg.
  case_decide as Hin.
  { exists h. split_and!; [done..|apply same_but_refl]. }
  assert (Hset : ∀ c, conn_ok h from layer c →
    ∃ h', setConnections from layer c h = (Ok tt, h') ∧ wf h' ∧ same_but (Z.to_nat layer) h h').
  { intros c Hc. eexists. split; [by apply setConnections_run|]. split; [|apply upd_same_but].
    apply wf_upd; [done|]. by rewrite Z2Nat.id by done. }
  assert (Hnd : NoDup (conns ++ [to])).
  { apply NoDup_app. split_and!; [done| |apply NoDup_singleton].
    intros j Hj ->%list_elem_of_singleton. done. }
  assert (Hself : from ∉ conns ++ [to]).
  { rewrite elem_of_app, list_elem_of_singleton. naive_solver. }
  assert (HF : Forall (on_layer h layer) (conns ++ [to])) by (apply Forall_app; by split; [|constructor]).
  destruct (Z.ltb_spec (len conns) (max_conn h layer)) as [Hlt|Hge].
  { apply Hset. constructor; [done..| |done]. len_lia. }
  destruct (getVector_Ok h from Hwf (on_layer_valid _ _ _ Hf)) as (m & _ & -> & _).
  destruct (with_distances_Ok h (n_Vector m) (conns ++ [to]) Hwf (valid_of_layer _ _ _ HF))
    as (cs & -> & Hcs).
  destruct (selectNeighborsHeuristic_Ok h cs (max_conn h layer)) as (sel & -> & Hsub & Hlen & _);
    [done| |pose proof (max_conn_pos h layer Hwf); lia|].
  { apply valid_fmap. rewrite Hcs. by eapply valid_of_layer. }
  apply Hset. apply (conn_ok_sub h from layer (conns ++ [to])); [done..| |lia].
  rewrite <- Hcs. by apply fmap_submseteq.
Qed.

Lemma max_conn_skel h h' layer : skel h h' → max_conn h' layer = max_conn h layer.
Proof. intros Hs. by rewrite (sk_rest _ _ Hs). Qed.

Lemma add_reverse_Ok h x layer maxConn selected :
  wf h → 0 ≤ layer → on_layer h layer x → maxConn = max_conn h layer →
  Forall (λ c, on_layer h layer (cID c) ∧ cID c ≠ x) selected →
  ∃ h', add_reverse x layer maxConn selected h = (Ok tt, h') ∧ wf h' ∧
    same_but (Z.to_nat layer) h h'.
Proof.
  intros Hwf Hl Hx -> HF. remember (max_conn h layer) as mc eqn:Emc.
  revert h Hwf Hx HF Emc. induction selected as [|c rest IH]; intros h Hwf Hx HF ->.
  { exists h. split_and!; [done..|apply same_but_refl]. }
  inversion HF as [|? ? [Hc Hne] HF']; subst. cbn [add_reverse].
  destruct (addConnection_Ok h (cID c) x layer _ Hwf Hl Hc Hx Hne eq_refl) as (h1 & E & Hwf1 & Hs1).
  rewrite (M_bind_run _ _ _ _ _ E). pose proof Hs1 as [Hsk _].
  destruct (IH h1) as (h2 & E2 & Hwf2 & Hs2); [done| | |by rewrite (max_conn_skel _ _ _ Hsk)|].
  - by apply (skel_on_layer _ _ _ _ Hsk).
  - eapply Forall_impl; [exact HF'|]. intros c' [? ?]. split; [|done].
    by apply (skel_on_layer _ _ _ _ Hsk).
  - exists h2. split_and!; [done..|by eapply same_but_trans].
Qed.

Lemma selectNeighbors_Ok h x candidates layer :
  wf h → 0 ≤ layer → on_layer h layer x → NoDup (cID <$> candidates) →
  Forall (λ c, on_layer h layer (cID c) ∧ cID c ≠ x) candidates →
  ∃ h', selectNeighbors x candidates layer h = (Ok tt, h') ∧ wf h' ∧
    same_but (Z.to_nat layer) h h'.
Proof.
  intros Hwf Hl Hx Hnd HF. unfold selectNeighbors.
  pose proof (wf_M _ Hwf) as HM. set (ownMax := if layer =? 0 then h_Mmax0 h else h_M h).
  assert (Hown : 0 ≤ ownMax ≤ max_conn h layer).
  { unfold ownMax, max_conn. destruct (_ =? _); lia. }
  destruct (getVector_Ok h x Hwf (on_layer_valid _ _ _ Hx)) as (nx & _ & Hvx & _).
  assert (HF1 : Forall (on_layer h layer) (cID <$> candidates)).
  { apply Forall_fmap. eapply Forall_impl; [exact HF|]. by intros ? []. }
  destruct (selectNeighborsHeuristic_Ok h candidates ownMax) as (sel & Hsel & Hsub & Hlen & _);
    [done|by eapply valid_fmap, valid_of_layer|lia|].
  assert (Hself : x ∉ cID <$> candidates).
  { intros (c & -> & Hc)%list_elem_of_fmap. rewrite Forall_forall in HF. by apply (HF c Hc). }
  unfold_M. fold ownMax. rewrite Hvx, Hsel, setConnections_run by done.
  set (h1 := upd h x _ _). pose proof (upd_same_but h x (Z.to_nat layer) (cID <$> sel)) as Hs1.
  assert (Hwf1 : wf h1).
  { apply wf_upd; [done|]. rewrite Z2Nat.id by done.
    apply (conn_ok_sub h x layer (cID <$> candidates)); [done..| |lia]. by apply fmap_submseteq. }
  pose proof Hs1 as [Hsk _].
  destruct (add_reverse_Ok h1 x layer (max_conn h layer) sel) as (h2 & E & Hwf2 & Hs2);
    [done|done|by apply (skel_on_layer _ _ _ _ Hsk)|by rewrite (max_conn_skel _ _ _ Hsk)| |].
  - rewrite Forall_forall in *. intros c Hc. destruct (HF c) as [H1 H2].
    { by eapply elem_of_submseteq. }
    split; [|done]. by apply (skel_on_layer _ _ _ _ Hsk).
  - exists h2. split_and!; [done..|by eapply same_but_trans].
Qed.

(** ** Descending the layers *)
Lemma layers_down_nil hi lo : hi ≤ lo → layers_down hi lo = [].
Proof. intros H. unfold layers_down. by replace (Z.to_nat (hi - lo)) with 0%nat by lia. Qed.

Lemma layers_down_cons hi lo : lo < hi → layers_down hi lo = hi :: layers_down (hi - 1) lo.
Proof.
  intros H. unfold layers_down.
  replace (Z.to_nat (hi - lo)) with (S (Z.to_nat (hi - 1 - lo))) by lia.
  cbn [seq fmap list_fmap]. f_equal; [lia|]. rewrite <- fmap_S_seq, <- list_fmap_compose.
  apply list_fmap_ext. intros i j _. simpl. lia.
Qed.

(** No edge of the layer leads to [x]. *)
Definition no_in h (x : nat) (layer : Z) : Prop :=
  ∀ i n conns, h_nodes h !! i = Some n → n_Connections n !! Z.to_nat layer = Some conns → x ∉ conns.

(** The nodes of a layer other than [x]. *)
Definition others h (x : nat) (layer : Z) (id : nat) : Prop := on_layer h layer id ∧ id ≠ x.

Lemma closed_others h x layer :
  wf h → 0 ≤ layer → no_in h x layer → closed h layer (others h x layer).
Proof.
  intros Hwf Hl Hno. constructor; [intros id [H _]; by eapply on_layer_valid|].
  intros id [Hid _]. destruct (getConnections_Ok _ _ _ Hwf Hl Hid) as (n & conns & Hn & Hc & Hg & Hok).
  exists conns. split; [done|]. apply Forall_forall. intros j Hj. split.
  - pose proof (co_valid _ _ _ _ Hok) as HF. rewrite Forall_forall in HF. auto.
  - intros ->. by apply (Hno id n conns Hn Hc).
Qed.

Lemma on_layer_mono h l l' id : l' ≤ l → on_layer h l id → on_layer h l' id.
Proof. intros Hle (n & Hn & Hl). exists n. split; [done|lia]. Qed.

Lemma descend_Ok h q x hi lo cur :
  wf h → -1 ≤ lo → (∀ l, lo < l ≤ hi → no_in h x l) → others h x hi cur →
  ∃ cur', descend h q cur (layers_down hi lo) = Ok cur' ∧ (cur' = cur ∨ live h cur') ∧
    others h x (Z.min hi (lo + 1)) cur'.
Proof.
  intros Hwf Hlo. remember (Z.to_nat (hi - lo)) as k eqn:Ek.
  revert hi cur Ek. induction k as [|k IH]; intros hi cur Ek Hno Hcur.
  { rewrite layers_down_nil by lia. exists cur. rewrite Z.min_l by lia. split_and!; [done|by left|done..]. }
  rewrite layers_down_cons by lia. cbn [descend].
  destruct (greedySearchLayer_Ok h q hi (others h x hi)) with (id := cur)
    as (cur1 & d & -> & Hcur1 & Hl1 & _); [apply closed_others; [done|lia|apply Hno; lia]|done|].
  cbn [mbind result_bind].
  destruct (decide (hi = lo + 1)) as [->|Hne].
  - rewrite layers_down_nil by lia. exists cur1. rewrite Z.min_id. done.
  - destruct (IH (hi - 1) cur1) as (cur2 & -> & Hl2 & Hcur2); [lia| | |].
    + intros l Hl. apply Hno. lia.
    + destruct Hcur1 as [H1 H2]. split; [|done]. eapply on_layer_mono; [|done]. lia.
    + exists cur2. split_and!; [done| |]; [destruct Hl2 as [->|]; [done|by right]|].
      replace (Z.min hi (lo + 1)) with (Z.min (hi - 1) (lo + 1)) by lia. done.
Qed.

Lemma connect_layers_Ok h q x hi cur :
  wf h → -1 ≤ hi → (∀ l, 0 ≤ l ≤ hi → no_in h x l) → on_layer h hi x → others h x hi cur →
  ∃ h', connect_layers x q cur (layers_down hi (-1)) h = (Ok tt, h') ∧ wf h' ∧ skel h h'.
Proof.
  intros Hwf Hhi. remember (Z.to_nat (hi + 1)) as k eqn:Ek.
  revert h hi cur Hwf Hhi Ek. induction k as [|k IH]; intros h hi cur Hwf Hhi Ek Hno Hx Hcur.
  { rewrite layers_down_nil by lia. exists h. split_and!; [done..|apply skel_refl]. }
  rewrite layers_down_cons by lia. cbn [connect_layers].
  destruct (searchLayer_Ok h q cur (h_efConstruction h) hi (others h x hi))
    as (rs & Hrs & HF & Hnd & Hne & _); [apply closed_others; [done|lia|apply Hno; lia]|done|].
  assert (HF' : Forall (λ c, on_layer h hi (cID c) ∧ cID c ≠ x) rs).
  { eapply Forall_impl; [exact HF|]. by intros c [? _]. }
  destruct (selectNeighbors_Ok h x rs hi Hwf) as (h1 & E1 & Hwf1 & Hs1); [lia|done..|].
  unfold_M. rewrite Hrs, E1. destruct rs as [|c rs]; [done|]. pose proof Hs1 as [Hsk Hlay].
  inversion HF' as [|? ? [Hc Hcx] _]; subst.
  destruct (IH h1 (hi - 1) (cID c)) as (h2 & E2 & Hwf2 & Hs2); [done|lia|lia| | | |].
  - intros l Hl i n' conns Hn' Hco. destruct (sk_nodes _ _ Hsk _ _ Hn') as (n & Hn & _).
    rewrite (Hlay i n n' (Z.to_nat l)) in Hco by (done || lia).
    apply (Hno l ltac:(lia) i n conns Hn Hco).
  - apply (skel_on_layer _ _ _ _ Hsk). eapply on_layer_mono; [|exact Hx]. lia.
  - split; [|done]. apply (skel_on_layer _ _ _ _ Hsk). eapply on_layer_mono; [|exact Hc]. lia.
  - exists h2. split_and!; [done..|by eapply skel_trans].
Qed.

(** ** Adding a node *)

(** The node [Insert] creates, and the index after [insertNode]. *)
Definition new_node h (p : Point payload) (level : Z) : Node payload :=
  mkNode (p_ID p) (p_Vector p)
    (match h_quantizer h with Some q => q_Encode q (p_Vector p) | None => None end)
    level (replicate (Z.to_nat (level + 1)) []) false (p_Payload p).

Definition added h (p : Point payload) (level : Z) : HNSW payload :=
  let higher := (h_maxLevel h =? -1) || (level >? h_maxLevel h) in
  mkHNSW (h_M h) (h_Mmax h) (h_Mmax0 h) (h_efConstruction h) (h_efSearch h)
    (if higher then level else h_maxLevel h) (h_nodes h ++ [new_node h p level])
    (if higher then length (h_nodes h) else h_entryPoint h) (h_nodeCount h + 1) (h_dimension h)
    (<[p_ID p := length (h_nodes h)]> (h_idToIndex h)) (h_deletedCount h) (h_quantizer h).

Section added.
Context h (p : Point payload) (level : Z).
Context (Hwf : wf h) (Hvec : len (p_Vector p) = h_dimension h).
Context (Hfresh : h_idToIndex h !! p_ID p = None) (Hlevel : 0 ≤ level).
Context (Hroom : len (h_nodes h) < MaxNodes).

Lemma added_old i n : h_nodes h !! i = Some n → h_nodes (added h p level) !! i = Some n.
Proof. intros Hn. simpl. by apply lookup_app_l_Some. Qed.

Lemma added_new : h_nodes (added h p level) !! length (h_nodes h) = Some (new_node h p level).
Proof. simpl. rewrite lookup_app_r by done. by rewrite Nat.sub_diag. Qed.

Lemma added_inv i n :
  h_nodes (added h p level) !! i = Some n →
  h_nodes h !! i = Some n ∨ (i = length (h_nodes h) ∧ n = new_node h p level).
Proof.
  simpl. intros [Hn|[Hle Hn]]%lookup_app_Some; [by left|right].
  apply list_lookup_singleton_Some in Hn as [Hi <-]. split; [lia|done].
Qed.

Lemma added_on_layer l i : on_layer h l i → on_layer (added h p level) l i.
Proof. intros (n & Hn & Hl). exists n. split; [by apply added_old|done]. Qed.

Lemma maxLevel_cases :
  (h_nodes h = [] ∧ h_maxLevel h = -1) ∨
  (0 ≤ h_maxLevel h ∧ on_layer h (h_maxLevel h) (h_entryPoint h)).
Proof.
  pose proof (wf_entry _ Hwf) as He. unfold entry_ok in He.
  destruct (h_nodes h); [by left|by right].
Qed.

Lemma added_maxLevel : h_maxLevel h ≤ h_maxLevel (added h p level) ∧ level ≤ h_maxLevel (added h p level).
Proof.
  simpl. rewrite Z.gtb_ltb. destruct maxLevel_cases as [[_ ->]|[Hm _]]; simpl; [lia|].
  rewrite (proj2 (Z.eqb_neq _ _)) by lia. simpl.
  destruct (Z.ltb_spec (h_maxLevel h) level); lia.
Qed.

Lemma conn_ok_added i l conns : conn_ok h i l conns → conn_ok (added h p level) i l conns.
Proof.
  intros [H1 H2 H3 H4]. constructor; [done..|]. eapply Forall_impl; [exact H4|].
  apply added_on_layer.
Qed.

Lemma node_ok_added i n : h_nodes (added h p level) !! i = Some n → node_ok (added h p level) i n.
Proof.
  pose proof added_maxLevel as [Hm1 Hm2].
  intros [Hn|[-> ->]]%added_inv.
  - destruct (wf_nodes _ Hwf _ _ Hn) as [N1 N2 N3 N4]. constructor; [done|lia|done|].
    intros l c Hc. by apply conn_ok_added, N4.
  - constructor; simpl; [done|simpl in Hm2; lia| |].
    + unfold len. rewrite length_replicate. lia.
    + intros l c [-> _]%lookup_replicate. constructor; [constructor|apply not_elem_of_nil| |constructor].
      rewrite len_nil. pose proof (wf_M _ Hwf). unfold max_conn. simpl. destruct (_ =? _); lia.
Qed.

Lemma added_entry : entry_ok (added h p level).
Proof.
  unfold entry_ok. simpl. destruct (h_nodes h ++ _) eqn:E; [by destruct (h_nodes h)|].
  clear E. rewrite Z.gtb_ltb.
  assert (Hnew : on_layer (added h p level) level (length (h_nodes h))).
  { exists (new_node h p level). split; [apply added_new|done]. }
  destruct maxLevel_cases as [[_ ->]|[Hm He]]; simpl; [done|].
  rewrite (proj2 (Z.eqb_neq _ _)) by lia. simpl.
  destruct (Z.ltb_spec (h_maxLevel h) level); [done|].
  split; [done|]. by apply (added_on_layer _ _ He).
Qed.

Lemma added_ids id i :
  h_idToIndex (added h p level) !! id = Some i ↔
  ∃ n, h_nodes (added h p level) !! i = Some n ∧ n_ID n = id.
Proof.
  simpl. pose proof (wf_ids _ Hwf) as Hids. split.
  - rewrite lookup_insert_Some. intros [[<- <-]|[Hne Hi]].
    + exists (new_node h p level). split; [apply added_new|done].
    + apply Hids in Hi as (n & Hn & E). exists n. split; [by apply added_old|done].
  - intros (n & [Hn|[-> ->]]%added_inv & E).
    + assert (Hi : h_idToIndex h !! id = Some i) by (apply Hids; eauto).
      rewrite lookup_insert_ne; [done|]. congruence.
    + simpl in E. subst id. apply lookup_insert_eq.
Qed.

Lemma wf_added : wf (added h p level).
Proof.
  pose proof Hwf as [H1 H2 H3 H4 H5 H6 H7 H8]. constructor; simpl; try done.
  - unfold len in *. rewrite length_app. simpl. lia.
  - len_lia.
  - rewrite filter_app, len_app, H5. rewrite filter_cons_False by (simpl; tauto).
    rewrite filter_nil, len_nil. lia.
  - apply added_ids.
  - apply node_ok_added.
  - apply added_entry.
Qed.

Lemma added_no_in l : no_in (added h p level) (length (h_nodes h)) l.
Proof.
  intros i n conns [Hn|[-> ->]]%added_inv Hc.
  - pose proof (no_conns _ _ _ (wf_nodes _ Hwf _ _ Hn) _ _ Hc) as [_ _ _ HF].
    rewrite Forall_forall in HF. intros Hin%HF%on_layer_valid. lia.
  - simpl in Hc. apply lookup_replicate in Hc as [-> _]. apply not_elem_of_nil.
Qed.

Lemma NewNode_run code :
  NewNode (p_ID p) (p_Vector p) level (p_Payload p) code =
    Ok (mkNode (p_ID p) (p_Vector p) code level (replicate (Z.to_nat (level + 1)) []) false (p_Payload p)).
Proof. unfold NewNode. by rewrite (proj2 (Z.ltb_ge _ _)) by lia. Qed.

Lemma Insert_Ok :
  ∃ h', Insert p level h = (Ok tt, h') ∧ wf h' ∧ skel (added h p level) h'.
Proof.
  unfold Insert. unfold_M. rewrite Hvec, Z.eqb_refl. simpl. rewrite Hfresh, NewNode_run.
  unfold insertNode. unfold_M. rewrite (proj2 (Z.leb_gt _ _)) by done.
  change (mkHNSW (h_M h) _ _ _ _ _ _ _ _ _ _ _ _) with (added h p level).
  pose proof wf_added as Hwf1.
  destruct maxLevel_cases as [[_ Hm]|[Hm He]].
  { rewrite Hm. exists (added h p level). split_and!; [done..|apply skel_refl]. }
  rewrite (proj2 (Z.eqb_neq _ _)) by lia.
  set (x := length (h_nodes h)). set (h1 := added h p level) in *.
  assert (Hothers : others h1 x (h_maxLevel h) (h_entryPoint h)).
  { split; [by apply added_on_layer|]. apply on_layer_valid in He. unfold x. lia. }
  destruct (descend_Ok h1 (p_Vector p) x (h_maxLevel h) level (h_entryPoint h))
    as (cur & -> & _ & Hcur); [done|lia|intros; apply added_no_in|done|].
  assert (Hon : on_layer h1 level x) by (exists (new_node h p level); split; [apply added_new|done]).
  destruct (connect_layers_Ok h1 (p_Vector p) x (Z.min level (h_maxLevel h)) cur)
    as (h2 & E & Hwf2 & Hs2); [done|lia|intros; apply added_no_in| | |].
  - eapply on_layer_mono; [|exact Hon]. lia.
  - destruct Hcur as [Hc Hx]. split; [|done]. eapply on_layer_mono; [|exact Hc]. lia.
  - by exists h2.
Qed.

End added.

(** [Insert] either fails and changes nothing, or adds the node. *)
Lemma Insert_cases h (p : Point payload) level :
  wf h → 0 ≤ level →
  (∃ e, Insert p level h = (Err e, h)) ∨
  (∃ h', Insert p level h = (Ok tt, h') ∧ wf h' ∧ skel (added h p level) h').
Proof.
  intros Hwf Hlev.
  destruct (Z.eqb_spec (len (p_Vector p)) (h_dimension h)) as [Hd|Hd].
  2: { left. unfold Insert. unfold_M. rewrite (proj2 (Z.eqb_neq _ _) Hd). simpl. eauto. }
  destruct (h_idToIndex h !! p_ID p) as [i|] eqn:Hi.
  { left. unfold Insert. unfold_M. rewrite Hd, Z.eqb_refl. simpl. rewrite Hi. eauto. }
  destruct (Z.leb_spec MaxNodes (len (h_nodes h))) as [Hfull|Hroom].
  { left. unfold Insert. unfold_M. rewrite Hd, Z.eqb_refl. simpl.
    rewrite Hi, NewNode_run by done. unfold insertNode. unfold_M.
    rewrite (proj2 (Z.leb_le _ _)) by done. eauto. }
  right. by apply Insert_Ok.
Qed.

End insert.
