(* ===== verification/HnswSpec.v ===== *)
(** * pkg/index/hnsw: the index as a map

    The contract of [Insert], [Delete], [Get] and [Size]: an index is a map from
    identifiers to points, plus the identifiers it has deleted, which it never
    accepts again. The graph implements that contract whatever levels the
    generator draws. *)
From stdpp Require Import base gmap strings list fin_maps numbers sorting sets.
From Stdlib Require Import Strings.Byte ZArith Lia Floats.SpecFloat.
From S2P Require Import Prelude Float32 Heap Hnsw HnswSearch HnswGraph HnswInsert.

#[local] Open Scope Z_scope.

Section spec.
Context {payload : Type} {calc : Calculator} {sorter : Sorter}.
Implicit Types (h : HNSW payload) (n : Node payload).

(** ** The abstract index *)
Record store := Store {
  st_dim : Z;
  st_live : gmap string (vector * payload);
  st_gone : gset string
}.

Inductive iop := OInsert (p : Point payload) (level : Z) | ODelete (id : string)
  | OGet (id : string) | OSize.
Inductive iout := RUnit (r : result hnswError unit) | RPoint (r : result hnswError (Point payload))
  | RSize (z : Z).

Definition spec_step (s : store) (o : iop) : iout * store :=
  match o with
  | OInsert p _ =>
      if negb (len (p_Vector p) =? st_dim s) then (RUnit (Err ErrDimensionMismatch), s)
      else if decide (is_Some (st_live s !! p_ID p) ∨ p_ID p ∈ st_gone s)
      then (RUnit (Err ErrPointExists), s)
      else if MaxNodes <=? Z.of_nat (size (st_live s)) + Z.of_nat (size (st_gone s))
      then (RUnit (Err ErrTooManyNodes), s)
      else (RUnit (Ok tt),
            Store (st_dim s) (<[p_ID p := (p_Vector p, p_Payload p)]> (st_live s)) (st_gone s))
  | ODelete id =>
      if decide (is_Some (st_live s !! id))
      then (RUnit (Ok tt), Store (st_dim s) (delete id (st_live s)) ({[id]} ∪ st_gone s))
      else if decide (id ∈ st_gone s) then (RUnit (Ok tt), s)
      else (RUnit (Err ErrPointNotFound), s)
  | OGet id =>
      (RPoint (match st_live s !! id with
               | Some (v, p) => Ok (mkPoint id v p)
               | None => Err ErrPointNotFound
               end), s)
  | OSize => (RSize (Z.of_nat (size (st_live s))), s)
  end.

(** ** The concrete index *)
Definition impl_step h (o : iop) : iout * HNSW payload :=
  match o with
  | OInsert p level => let '(r, h') := Insert p level h in (RUnit r, h')
  | ODelete id => let '(r, h') := Delete id h in (RUnit r, h')
  | OGet id => (RPoint (Get h id), h)
  | OSize => (RSize (Size h), h)
  end.

(** The contents of a node. *)
Definition item n : string * (vector * payload) := (n_ID n, (n_Vector n, n_payload n)).

Definition alive n : bool := negb (n_deleted n).

Definition live_map h : gmap string (vector * payload) :=
  list_to_map (item <$> filter alive (h_nodes h)).
Definition gone_set h : gset string :=
  list_to_set (n_ID <$> filter n_deleted (h_nodes h)).

Definition abs h : store := Store (h_dimension h) (live_map h) (gone_set h).

(** ** The abstraction function *)
Lemma ids_inj h i j n m :
  wf h → h_nodes h !! i = Some n → h_nodes h !! j = Some m → n_ID n = n_ID m → i = j.
Proof.
  intros Hwf Hi Hj E. assert (h_idToIndex h !! n_ID n = Some i) by (apply (wf_ids _ Hwf); eauto).
  assert (h_idToIndex h !! n_ID n = Some j) by (apply (wf_ids _ Hwf); eauto). congruence.
Qed.

Lemma ids_nodup h : wf h → NoDup (n_ID <$> h_nodes h).
Proof.
  intros Hwf. apply NoDup_alt. intros i j x Hi Hj. rewrite list_lookup_fmap in Hi, Hj.
  apply fmap_Some in Hi as (n & Hi & ->), Hj as (m & Hj & E). by eapply ids_inj.
Qed.

Lemma ids_nodup_filter h (P : Node payload → Prop) `{∀ n, Decision (P n)} :
  wf h → NoDup (n_ID <$> filter P (h_nodes h)).
Proof.
  intros Hwf. pose proof (ids_nodup h Hwf) as Hnd. revert Hnd.
  generalize (h_nodes h). intros l. induction l as [|n l IH]; intros Hnd; [constructor|].
  inversion Hnd as [|? ? Hn Hnd']; subst. rewrite filter_cons. case_decide; [|auto].
  rewrite fmap_cons. constructor; [|auto]. intros (m & E & Hm)%list_elem_of_fmap.
  apply Hn. rewrite E. apply list_elem_of_fmap_2. by apply list_elem_of_filter in Hm as [_ Hm].
Qed.

Lemma live_map_lookup h id x :
  wf h → live_map h !! id = Some x ↔
    ∃ i n, h_nodes h !! i = Some n ∧ n_deleted n = false ∧ item n = (id, x).
Proof.
  intros Hwf. unfold live_map. rewrite <- elem_of_list_to_map.
  2: { rewrite <- list_fmap_compose. apply (ids_nodup_filter h); done. }
  split.
  - intros (n & E & Hn)%list_elem_of_fmap. apply list_elem_of_filter in Hn as [Ha Hn].
    apply list_elem_of_lookup in Hn as [i Hi]. exists i, n. split_and!; [done| |done].
    unfold alive in Ha. by destruct (n_deleted n).
  - intros (i & n & Hi & Hd & <-). apply list_elem_of_fmap_2, list_elem_of_filter.
    unfold alive. rewrite Hd. split; [done|]. by eapply list_elem_of_lookup_2.
Qed.

Lemma gone_set_elem h id :
  id ∈ gone_set h ↔ ∃ i n, h_nodes h !! i = Some n ∧ n_deleted n = true ∧ n_ID n = id.
Proof.
  unfold gone_set. rewrite elem_of_list_to_set. split.
  - intros (n & -> & Hn)%list_elem_of_fmap. apply list_elem_of_filter in Hn as [Ha Hn].
    apply list_elem_of_lookup in Hn as [i Hi]. exists i, n. split_and!; [done| |done].
    by destruct (n_deleted n).
  - intros (i & n & Hi & Hd & <-). apply list_elem_of_fmap_2, list_elem_of_filter.
    rewrite Hd. split; [done|]. by eapply list_elem_of_lookup_2.
Qed.

Lemma size_live h : wf h → Z.of_nat (size (live_map h)) = len (filter alive (h_nodes h)).
Proof.
  intros Hwf. unfold live_map. rewrite map_size_list_to_map.
  - by rewrite length_fmap.
  - rewrite <- list_fmap_compose. apply (ids_nodup_filter h); done.
Qed.

Lemma size_gone h : wf h → Z.of_nat (size (gone_set h)) = len (filter n_deleted (h_nodes h)).
Proof.
  intros Hwf. unfold gone_set. rewrite size_list_to_set by by apply ids_nodup_filter.
  by rewrite length_fmap.
Qed.

Lemma filter_split (l : list (Node payload)) :
  len (filter alive l) + len (filter n_deleted l) = len l.
Proof.
  induction l as [|n l IH]; [done|]. rewrite !filter_cons, len_cons, <- IH. unfold alive.
  destruct (n_deleted n); simpl; rewrite len_cons; lia.
Qed.

(** Edges do not matter to the contents. *)
Lemma abs_skel h h' : skel h h' → abs h' = abs h.
Proof.
  intros Hs. unfold abs, live_map, gone_set.
  assert (HF : Forall2 (λ n n', n_deleted n = n_deleted n' ∧ item n = item n') (h_nodes h) (h_nodes h')).
  { apply Forall2_same_length_lookup. split; [by rewrite (sk_len _ _ Hs)|].
    intros i n n' Hn Hn'. destruct (sk_nodes _ _ Hs _ _ Hn') as (m & Hm & E). rewrite E.
    rewrite Hn in Hm. by injection Hm as <-. }
  f_equal.
  - by rewrite (sk_rest _ _ Hs).
  - f_equal. symmetry. induction HF as [|n n' l l' [E1 E2] HF IH]; [done|].
    assert (Ea : alive n = alive n') by (unfold alive; by rewrite E1).
    rewrite !filter_cons, Ea. case_decide; [|done]. rewrite !fmap_cons. by rewrite E2, IH.
  - f_equal. symmetry. induction HF as [|n n' l l' [E1 E2] HF IH]; [done|].
    rewrite !filter_cons, E1. case_decide; [|done]. rewrite !fmap_cons.
    injection E2 as E2 _ _. by rewrite E2, IH.
Qed.

(** An identifier is known when it is live or gone. *)
Lemma known h id :
  wf h → is_Some (h_idToIndex h !! id) ↔ is_Some (live_map h !! id) ∨ id ∈ gone_set h.
Proof.
  intros Hwf. split.
  - intros [i (n & Hn & <-)%(wf_ids _ Hwf)]. destruct (n_deleted n) eqn:Hd.
    + right. apply gone_set_elem. eauto.
    + left. exists (n_Vector n, n_payload n). apply live_map_lookup; [done|]. eauto.
  - intros [[x Hx]|Hg].
    + apply live_map_lookup in Hx as (i & n & Hn & _ & E); [|done]. injection E as E _.
      exists i. apply (wf_ids _ Hwf). eauto.
    + apply gone_set_elem in Hg as (i & n & Hn & _ & E). exists i. apply (wf_ids _ Hwf). eauto.
Qed.

(** ** Each operation implements its contract *)
Lemma insert_refines h p level :
  wf h → 0 ≤ level →
  let '(o, h') := impl_step h (OInsert p level) in
  wf h' ∧ spec_step (abs h) (OInsert p level) = (o, abs h').
Proof.
  intros Hwf Hlev. simpl. destruct (Insert p level h) as [r h'] eqn:E.
  destruct (Z.eqb_spec (len (p_Vector p)) (h_dimension h)) as [Hd|Hd]; simpl.
  2: { unfold Insert in E. unfold_M. rewrite (proj2 (Z.eqb_neq _ _) Hd) in E. simpl in E.
       by simplify_eq. }
  pose proof (known h (p_ID p) Hwf) as Hk.
  case_decide as Hknown.
  { apply Hk in Hknown as [i Hi]. unfold Insert in E. unfold_M.
    rewrite Hd, Z.eqb_refl in E. simpl in E. rewrite Hi in E. by simplify_eq. }
  assert (Hfresh : h_idToIndex h !! p_ID p = None).
  { apply eq_None_not_Some. by rewrite Hk. }
  rewrite size_live, size_gone, filter_split by done.
  destruct (Z.leb_spec MaxNodes (len (h_nodes h))) as [Hfull|Hroom].
  { unfold Insert in E. unfold_M. rewrite Hd, Z.eqb_refl in E. simpl in E.
    rewrite Hfresh, NewNode_run in E by done. unfold insertNode in E. unfold_M.
    rewrite (proj2 (Z.leb_le _ _)) in E by done. by simplify_eq. }
  destruct (Insert_Ok h p level Hwf Hd Hfresh Hlev Hroom) as (h2 & E2 & Hwf2 & Hs).
  rewrite E in E2. injection E2 as -> ->. split; [done|]. f_equal.
  rewrite (abs_skel _ _ Hs). unfold abs, live_map, gone_set, added. simpl.
  rewrite !filter_app, !fmap_app. f_equal.
  - rewrite filter_cons_True, filter_nil, fmap_cons, fmap_nil by done.
    change (item (new_node h p level)) with (p_ID p, (p_Vector p, p_Payload p)).
    rewrite list_to_map_snoc; [done|]. rewrite <- list_fmap_compose.
    intros (n & E' & Hn)%list_elem_of_fmap. apply list_elem_of_filter in Hn as [_ Hn].
    apply list_elem_of_lookup in Hn as [i Hi].
    assert (h_idToIndex h !! p_ID p = Some i) by (apply (wf_ids _ Hwf); eauto). congruence.
  - by rewrite filter_cons_False, filter_nil, fmap_nil, app_nil_r by (simpl; tauto).
Qed.

(** The index after [Delete] of a live node. *)
Definition marked h (i : nat) n : HNSW payload :=
  mkHNSW (h_M h) (h_Mmax h) (h_Mmax0 h) (h_efConstruction h) (h_efSearch h)
    (h_maxLevel h) (<[i := MarkDeleted n]> (h_nodes h)) (h_entryPoint h)
    (h_nodeCount h) (h_dimension h) (h_idToIndex h) (h_deletedCount h + 1) (h_quantizer h).

Section marked.
Context h (i : nat) n (Hwf : wf h) (Hn : h_nodes h !! i = Some n) (Hlive : n_deleted n = false).

Lemma marked_lookup j m :
  h_nodes (marked h i n) !! j = Some m ↔
  (j = i ∧ m = MarkDeleted n) ∨ (j ≠ i ∧ h_nodes h !! j = Some m).
Proof.
  simpl. rewrite list_lookup_insert_Some. pose proof (lookup_lt_Some _ _ _ Hn). naive_solver.
Qed.

Lemma marked_old j m :
  h_nodes h !! j = Some m → ∃ m', h_nodes (marked h i n) !! j = Some m' ∧
    n_ID m' = n_ID m ∧ n_Level m' = n_Level m.
Proof.
  intros Hm. destruct (decide (j = i)) as [->|N].
  - exists (MarkDeleted n). rewrite Hn in Hm. injection Hm as <-.
    split; [apply marked_lookup; by left|done].
  - exists m. split; [apply marked_lookup; by right|done].
Qed.

Lemma marked_on_layer l j : on_layer h l j → on_layer (marked h i n) l j.
Proof.
  intros (m & Hm & Hl). destruct (marked_old j m Hm) as (m' & Hm' & _ & El).
  exists m'. split; [done|]. by rewrite El.
Qed.

Lemma wf_marked : wf (marked h i n).
Proof.
  pose proof Hwf as [H1 H2 H3 H4 H5 H6 H7 H8]. constructor; try done.
  - simpl. unfold len in *. by rewrite length_insert.
  - simpl. unfold len in *. by rewrite length_insert.
  - simpl. rewrite H5. pose proof (insert_perm i n (MarkDeleted n) _ Hn) as Hp.
    assert (Hc : length (filter n_deleted (MarkDeleted n :: h_nodes h)) =
      length (filter n_deleted (n :: <[i := MarkDeleted n]> (h_nodes h)))) by (by rewrite Hp).
    rewrite filter_cons_True in Hc by done.
    rewrite filter_cons_False in Hc by (rewrite Hlive; simpl; tauto).
    unfold len. simpl in Hc. lia.
  - intros id j. simpl. rewrite H6. split.
    + intros (m & Hm & <-). destruct (marked_old j m Hm) as (m' & Hm' & E & _). eauto.
    + intros (m & [[-> ->]|[N Hm]]%marked_lookup & <-); eauto.
  - intros j m Hm.
    assert (Hok : ∃ m0, h_nodes h !! j = Some m0 ∧ n_Vector m = n_Vector m0 ∧
      n_Level m = n_Level m0 ∧ n_Connections m = n_Connections m0).
    { apply marked_lookup in Hm as [[-> ->]|[N Hm]]; eauto. }
    destruct Hok as (m0 & Hm0 & Ev & El & Ec). destruct (H7 _ _ Hm0) as [N1 N2 N3 N4].
    constructor; rewrite ?Ev, ?El, ?Ec; try done.
    intros l c Hc. destruct (N4 l c Hc) as [C1 C2 C3 C4]. constructor; [done..|].
    eapply Forall_impl; [exact C4|apply marked_on_layer].
  - pose proof (marked_on_layer (h_maxLevel h) (h_entryPoint h)) as Hmono.
    unfold entry_ok in *. simpl. destruct (<[i:=_]> (h_nodes h)) eqn:E.
    + apply (f_equal length) in E. rewrite length_insert in E.
      pose proof (lookup_lt_Some _ _ _ Hn). simpl in E. lia.
    + destruct (h_nodes h) eqn:E'; [by rewrite lookup_nil in Hn|].
      destruct H8 as [? Ho]. split; [done|]. by apply Hmono.
Qed.

Lemma marked_live_map : live_map (marked h i n) = delete (n_ID n) (live_map h).
Proof.
  apply map_eq. intros id. apply option_eq. intros x.
  rewrite (live_map_lookup _ _ _ wf_marked), lookup_delete_Some, (live_map_lookup _ _ _ Hwf). split.
  - intros (j & m & [[-> ->]|[N Hm]]%marked_lookup & Hd & E); [done|].
    split; [|eauto]. intros <-. injection E as E _. by eapply N, ids_inj.
  - intros (Hne & j & m & Hm & Hd & E). exists j, m. split; [|done]. apply marked_lookup. right.
    split; [|done]. intros ->. rewrite Hn in Hm. injection Hm as <-. injection E as E _. done.
Qed.

Lemma marked_gone_set : gone_set (marked h i n) = {[n_ID n]} ∪ gone_set h.
Proof.
  apply set_eq. intros id. rewrite elem_of_union, elem_of_singleton, !gone_set_elem. split.
  - intros (j & m & [[-> ->]|[N Hm]]%marked_lookup & Hd & <-); [by left|right; eauto].
  - intros [->|(j & m & Hm & Hd & <-)].
    + exists i, (MarkDeleted n). split; [|done]. apply marked_lookup. by left.
    + exists j, m. split; [|done]. apply marked_lookup. right. split; [|done].
      intros ->. congruence.
Qed.

End marked.

Lemma delete_refines h id :
  wf h →
  let '(o, h') := impl_step h (ODelete id) in
  wf h' ∧ spec_step (abs h) (ODelete id) = (o, abs h').
Proof.
  intros Hwf. simpl. destruct (Delete id h) as [r h'] eqn:E. unfold Delete in E. unfold_M.
  pose proof (known h id Hwf) as Hk.
  destruct (h_idToIndex h !! id) as [i|] eqn:Hi.
  2: { injection E as <- <-. split; [done|]. rewrite !decide_False; [done|..]; intros H;
       (destruct (proj2 Hk) as [x Hx]; [by auto|congruence]). }
  apply (wf_ids _ Hwf) in Hi as (n & Hn & <-). rewrite (node_at_Some _ _ _ Hn) in E.
  destruct (n_deleted n) eqn:Hd.
  - injection E as <- <-. split; [done|].
    assert (Hg : n_ID n ∈ gone_set h) by (apply gone_set_elem; eauto).
    rewrite decide_False, decide_True by (done || (intros [x Hx];
      apply live_map_lookup in Hx as (j & m & Hm & Hdm & E'); [|done]; injection E' as E' _;
      assert (i = j) as <- by (by eapply ids_inj); congruence)). done.
  - injection E as <- <-. fold (marked h i n). split; [by apply wf_marked|].
    rewrite decide_True.
    + unfold abs. rewrite marked_live_map, marked_gone_set by done. done.
    + exists (n_Vector n, n_payload n). apply live_map_lookup; [done|]. eauto.
Qed.

Lemma get_refines h id : wf h → spec_step (abs h) (OGet id) = (RPoint (Get h id), abs h).
Proof.
  intros Hwf. simpl. unfold Get. do 2 f_equal.
  destruct (live_map h !! id) as [[v p]|] eqn:E.
  - apply live_map_lookup in E as (i & n & Hn & Hd & E); [|done]. injection E as <- <- <-.
    rewrite (proj2 (wf_ids _ Hwf (n_ID n) i)) by eauto.
    rewrite (node_at_Some _ _ _ Hn). simpl. by rewrite Hd.
  - destruct (h_idToIndex h !! id) as [i|] eqn:Hi; [|done].
    apply (wf_ids _ Hwf) in Hi as (n & Hn & <-). rewrite (node_at_Some _ _ _ Hn). simpl.
    destruct (n_deleted n) eqn:Hd; [done|].
    assert (live_map h !! n_ID n = Some (n_Vector n, n_payload n)); [|congruence].
    apply live_map_lookup; [done|]. eauto.
Qed.

Lemma size_refines h : wf h → Z.of_nat (size (live_map h)) = Size h.
Proof.
  intros Hwf. rewrite size_live by done. unfold Size.
  rewrite (wf_count _ Hwf), (wf_deleted _ Hwf), <- (filter_split (h_nodes h)). lia.
Qed.

(** ** Histories *)
Definition op_level_ok (o : iop) : Prop := match o with OInsert _ l => 0 ≤ l | _ => True end.

Lemma step_refines h o :
  wf h → op_level_ok o →
  let '(out, h') := impl_step h o in wf h' ∧ spec_step (abs h) o = (out, abs h').
Proof.
  intros Hwf Ho. destruct o as [p l|id|id|].
  - by apply insert_refines.
  - by apply delete_refines.
  - split; [done|]. by apply get_refines.
  - split; [done|]. simpl. by rewrite size_refines.
Qed.

Fixpoint run_impl h (os : list iop) : list iout * HNSW payload :=
  match os with
  | [] => ([], h)
  | o :: os => let '(r, h) := impl_step h o in let '(rs, h) := run_impl h os in (r :: rs, h)
  end.
Fixpoint run_spec (s : store) (os : list iop) : list iout * store :=
  match os with
  | [] => ([], s)
  | o :: os => let '(r, s) := spec_step s o in let '(rs, s) := run_spec s os in (r :: rs, s)
  end.

Lemma run_refines h os :
  wf h → Forall op_level_ok os →
  let '(rs, h') := run_impl h os in wf h' ∧ run_spec (abs h) os = (rs, abs h').
Proof.
  intros Hwf HF. revert h Hwf. induction HF as [|o os Ho HF IH]; intros h Hwf; simpl; [done|].
  pose proof (step_refines h o Hwf Ho) as Hst. destruct (impl_step h o) as [r h1].
  destruct Hst as [Hwf1 ->]. specialize (IH h1 Hwf1). destruct (run_impl h1 os) as [rs h2].
  by destruct IH as [Hwf2 ->].
Qed.

Lemma step_limits h o :
  wf h → op_level_ok o →
  let '(_, h') := impl_step h o in h_Mmax h' = h_Mmax h ∧ h_Mmax0 h' = h_Mmax0 h.
Proof.
  intros Hwf Ho. destruct o as [p l|id|id|]; simpl; [| |done|done].
  - destruct (Insert_cases h p l Hwf Ho) as [[e ->]|(h' & -> & _ & Hs)]; [done|].
    by rewrite (sk_rest _ _ Hs).
  - destruct (Delete id h) as [r h'] eqn:E. unfold Delete in E. unfold_M.
    destruct (h_idToIndex h !! id) as [i|]; [|by injection E as <- <-].
    destruct (node_at h i) as [m| |]; [|by injection E as <- <-..].
    destruct (n_deleted m); by injection E as <- <-.
Qed.

(** The limits are fixed at creation. *)
Lemma run_limits h os :
  wf h → Forall op_level_ok os →
  let '(_, h') := run_impl h os in h_Mmax h' = h_Mmax h ∧ h_Mmax0 h' = h_Mmax0 h.
Proof.
  intros Hwf HF. revert h Hwf. induction HF as [|o os Ho HF IH]; intros h Hwf; simpl; [done|].
  pose proof (step_refines h o Hwf Ho) as Hst. pose proof (step_limits h o Hwf Ho) as Hl.
  destruct (impl_step h o) as [r h1]. destruct Hst as [Hwf1 _]. specialize (IH h1 Hwf1).
  destruct (run_impl h1 os) as [rs h2]. destruct Hl, IH. split; congruence.
Qed.

Lemma wf_New cfg h : c_M cfg ≤ 2 ^ 62 - 1 → New cfg = Ok h → wf h ∧ abs h = Store (c_Dimension cfg) ∅ ∅.
Proof.
  intros HM H. unfold New in H. destruct (Z.ltb_spec (c_M cfg) 2); [done|].
  destruct (Z.leb_spec (c_Dimension cfg) 0); [done|]. destruct (_ <? _); [done|]. injection H as <-.
  assert (E : i64 (2 * c_M cfg) = 2 * c_M cfg) by (apply swrap_id; lia).
  split; [|done]. constructor; simpl; rewrite ?E; try done.
  - lia.
  - intros id i. rewrite lookup_empty. split; [done|]. intros (n & Hn & _). by rewrite lookup_nil in Hn.
Qed.
End spec.
