(* ===== verification/HnswTheorems.v ===== *)
(** * pkg/index/hnsw: the properties of the index *)
From stdpp Require Import base gmap strings list fin_maps numbers sorting sets.
From Stdlib Require Import Strings.Byte ZArith Lia Floats.SpecFloat.
From S2P Require Import Prelude Float32 Heap Hnsw HnswSearch HnswGraph HnswInsert HnswSpec Distance.

#[local] Open Scope Z_scope.

#[export] Existing Instance insertion_sorter.

(** ** Properties *)
Section theorems.
Context {payload : Type} {calc : Calculator} {sorter : Sorter}.
Implicit Types (h : HNSW payload) (n : Node payload).

(** No edge leads to a node that does not exist. *)
Lemma no_in_length h l : wf h → no_in h (length (h_nodes h)) l.
Proof.
  intros Hwf i n conns Hn Hc Hin.
  pose proof (no_conns _ _ _ (wf_nodes _ Hwf _ _ Hn) _ _ Hc) as [_ _ _ HF].
  rewrite Forall_forall in HF. apply HF, on_layer_valid in Hin. lia.
Qed.

(** The descent through the upper layers reaches layer 0. *)
Lemma descend_search h q :
  wf h → h_maxLevel h ≠ -1 →
  ∃ cur, descend h q (h_entryPoint h) (layers_down (h_maxLevel h) 0) = Ok cur ∧
    on_layer h 0 cur ∧ (cur = h_entryPoint h ∨ live h cur).
Proof.
  intros Hwf Hm. pose proof (wf_entry _ Hwf) as He. unfold entry_ok in He.
  destruct (h_nodes h) as [|n0 ns] eqn:En; [done|]. destruct He as [Hm0 He].
  destruct (descend_Ok h q (length (h_nodes h)) (h_maxLevel h) 0 (h_entryPoint h))
    as (cur & E & Hl & [Hc _]); [done|lia|intros; by apply no_in_length| |].
  - split; [done|]. apply on_layer_valid in He. lia.
  - exists cur. split_and!; [done| |done]. destruct Hc as (n & Hn & Hlev). exists n.
    split; [done|]. apply (no_level _ _ _ (wf_nodes _ Hwf _ _ Hn)).
Qed.

(** The exact distance of a node. *)
Definition exact h (q : vector) (c : Candidate) : Prop := cDistance c = Distance q (vec h (cID c)).

Lemma query_dist_exact h q id d :
  h_quantizer h = None → query_dist h q id = Ok d → d = Distance q (vec h id).
Proof.
  unfold query_dist, vec, node_at. intros ->. destruct (h_nodes h !! id); [|done].
  simpl. intros E. by injection E.
Qed.

Lemma rescore_Ok h q cs :
  Forall (valid h) cs →
  ∃ cs', rescore h q cs = Ok cs' ∧ cID <$> cs' = cID <$> cs ∧ Forall (exact h q) cs'.
Proof.
  induction 1 as [|c cs Hc HF (cs' & E & Hid & He)]; [by exists []|]. simpl.
  destruct (lookup_lt_is_Some_2 _ _ Hc) as [n Hn]. unfold getVector.
  rewrite (node_at_Some _ _ _ Hn), E. cbn [mbind result_bind].
  eexists. split; [done|]. rewrite !fmap_cons, Hid. split; [done|]. constructor; [|done].
  unfold exact, vec. simpl. by rewrite Hn.
Qed.

(** What [finish] returns: the first [k] of the exact-distance list. *)
Lemma slice_take {E A} (l : list A) (k : Z) :
  0 ≤ k ≤ len l → slice (E:=E) l 0 k = Ok (take (Z.to_nat k) l).
Proof.
  intros Hk. unfold slice. rewrite (proj2 (Z.leb_le 0 k)), (proj2 (Z.leb_le k (len l))) by lia.
  simpl. by rewrite Z.sub_0_r.
Qed.

Lemma top_k_Ok (cs : list Candidate) (k : Z) :
  0 ≤ k → (if len cs >? k then slice cs 0 k else Ok cs) = Ok (E:=hnswError) (take (Z.to_nat k) cs).
Proof.
  intros Hk. rewrite Z.gtb_ltb. destruct (Z.ltb_spec k (len cs)).
  - apply slice_take. lia.
  - rewrite take_ge; [done|]. unfold len in *. lia.
Qed.

(** The node the layer-0 search starts from is the entry point or live. *)
Definition returned h (c : Candidate) : Prop := cID c = h_entryPoint h ∨ live h (cID c).

(** The candidates of a search with exact distances, sorted, and the first [k]. *)
Lemma finish_Ok h q k rs :
  0 ≤ k → Forall (valid h) rs → (h_quantizer h = None → Forall (exact h q) rs) →
  ∃ cs, finish h q k rs = Ok (take (Z.to_nat k) cs) ∧ cID <$> cs ≡ₚ cID <$> rs ∧
    Forall (exact h q) cs ∧ (h_quantizer h = None → cs = rs) ∧
    (h_quantizer h ≠ None → Forall cmp cs → ascending cs).
Proof.
  intros Hk Hv He. unfold finish. destruct (h_quantizer h) as [qz|].
  - destruct (rescore_Ok h q rs Hv) as (cs & -> & Hid & Hex). cbn [mbind result_bind].
    pose proof (sort_Slice_perm min_less cs) as Hp. exists (sort_Slice min_less cs).
    rewrite top_k_Ok by done. split_and!; [done|by rewrite Hp, Hid|by rewrite Hp|done|].
    intros _ Hcmp. rewrite Hp in Hcmp.
    apply (sort_Slice_sorted min_less cmp); [apply min_less_asym|apply min_less_trans|done].
  - cbn [mbind result_bind]. exists rs. rewrite top_k_Ok by done. split_and!; auto; done.
Qed.

(** Finite distances are comparable. *)
Lemma exact_cmp h q c :
  (∀ n, n ∈ h_nodes h → Distance q (n_Vector n) ≠ S754_nan) → valid h c → exact h q c → cmp c.
Proof.
  intros Hnan [n Hn]%lookup_lt_is_Some_2 He. unfold cmp. rewrite He. unfold vec. rewrite Hn.
  apply Hnan. by eapply list_elem_of_lookup_2.
Qed.

Lemma Forall_cID (P : nat → Prop) (cs rs : list Candidate) :
  cID <$> cs ≡ₚ cID <$> rs → Forall (λ c, P (cID c)) rs → Forall (λ c, P (cID c)) cs.
Proof.
  intros Hp. change (Forall (P ∘ cID) rs → Forall (P ∘ cID) cs).
  rewrite <- !Forall_fmap. by rewrite Hp.
Qed.

Lemma NoDup_take_cID k (cs : list Candidate) : NoDup (cID <$> cs) → NoDup (cID <$> take k cs).
Proof.
  intros Hnd. rewrite fmap_take. rewrite <- (take_drop k (cID <$> cs)) in Hnd.
  by apply NoDup_app in Hnd as [? _].
Qed.

Lemma ascending_take k (cs : list Candidate) : ascending cs → ascending (take k cs).
Proof. intros Ha. rewrite <- (take_drop k cs) in Ha. by eapply StronglySorted_app_1_l. Qed.

Lemma len_take (k : Z) (cs : list Candidate) : 0 ≤ k → len (take (Z.to_nat k) cs) ≤ k.
Proof. intros Hk. unfold len. rewrite length_take. lia. Qed.

Lemma SearchWithEf_Ok h q k ef :
  wf h → len q = h_dimension h → h_maxLevel h ≠ -1 → 0 ≤ k →
  ∃ rs, SearchWithEf h q k ef = Ok (take (Z.to_nat k) rs) ∧ rs ≠ [] ∧ NoDup (cID <$> rs) ∧
    Forall (λ c, valid h c ∧ exact h q c ∧ returned h c) rs ∧
    ((∀ n, n ∈ h_nodes h → Distance q (n_Vector n) ≠ S754_nan) → ascending rs) ∧
    (h_quantizer h = None → len (h_nodes h) ≤ ef → live h (h_entryPoint h) →
     ∀ id, (∀ a, live h a → reach h a 0 id) → id ∈ cID <$> rs).
Proof.
  intros Hwf Hq Hm Hk. unfold SearchWithEf. rewrite Hq, Z.eqb_refl. simpl.
  rewrite (proj2 (Z.eqb_neq _ _)) by done.
  destruct (descend_search h q Hwf Hm) as (cur & -> & Hcur & Hsrc). cbn [mbind result_bind].
  set (sef := match h_quantizer h with Some _ => _ | None => _ end).
  pose proof (closed_layer h 0 Hwf ltac:(lia)) as Hcl.
  destruct (searchLayer_Ok h q cur sef 0 _ Hcl Hcur) as (rs & Hrs & HF & Hnd & Hne & _).
  rewrite Hrs. cbn [mbind result_bind].
  assert (HFv : Forall (λ c, valid h c ∧ returned h c) rs).
  { eapply Forall_impl; [exact HF|]. intros c (Hon & _ & Hl). split; [by eapply on_layer_valid|].
    unfold returned. destruct Hl as [->|Hl]; [done|by right]. }
  destruct (finish_Ok h q k rs Hk) as (cs & -> & Hp & He & Hnone & Hsome).
  { eapply Forall_impl; [exact HFv|]. by intros ? []. }
  { intros Hqz. eapply Forall_impl; [exact HF|]. intros c (_ & Hd & _). by apply query_dist_exact. }
  exists cs. apply (Forall_cID (λ i, (i < length (h_nodes h))%nat ∧ (i = h_entryPoint h ∨ live h i)) _ _ Hp) in HFv.
  rewrite Forall_forall in HFv, He. split_and!; [done| |by rewrite Hp| | |].
  - intros ->. apply Permutation_nil_l in Hp. by destruct rs.
  - apply Forall_forall. intros c Hc. destruct (HFv c Hc). auto.
  - intros Hnan. destruct (h_quantizer h) as [qz|] eqn:Hqz.
    + apply Hsome; [done|]. apply Forall_forall. intros c Hc.
      apply (exact_cmp h q); [done|apply (HFv c Hc)|by apply He].
    + rewrite Hnone by done. eapply (searchLayer_sorted h q cur sef 0 (on_layer h 0)); [done..| |exact Hrs].
      intros id d Hon Hd. apply query_dist_exact in Hd; [|done]. subst d.
      destruct Hon as (n & Hn & _). unfold vec. rewrite Hn. apply Hnan. by eapply list_elem_of_lookup_2.
  - intros Hqz Hef Hentry id Hreach. rewrite Hp.
    apply (searchLayer_full h q cur sef 0 (on_layer h 0)); [done..| |exact Hrs|].
    + unfold sef. rewrite Hqz. destruct (Z.ltb_spec ef k); lia.
    + apply Hreach. by destruct Hsrc as [->|].
Qed.

(** The empty index has no nodes. *)
Lemma maxLevel_empty h : wf h → h_maxLevel h = -1 → h_nodes h = [].
Proof.
  intros Hwf Hm. pose proof (wf_entry _ Hwf) as He. unfold entry_ok in He.
  destruct (h_nodes h); [done|]. lia.
Qed.

(** C3. Refinement: from [New] on, any history of [Insert], [Delete], [Get] and
    [Size] calls returns, call by call, what the abstract store returns: a map
    from identifiers to points plus the set of deleted identifiers. No call
    panics, whatever (non-negative) levels the generator draws, whatever the
    distance function and the quantizer answer. *)
Theorem index_refines_store cfg h os :
  c_M cfg ≤ 2 ^ 62 - 1 → Hnsw.New cfg = Ok h → Forall op_level_ok os →
  fst (run_impl h os) = fst (run_spec (Store (c_Dimension cfg) ∅ ∅) os).
Proof.
  intros HM HN HF. destruct (wf_New cfg h HM HN) as [Hwf Habs].
  pose proof (run_refines h os Hwf HF) as H. rewrite Habs in H.
  destruct (run_impl h os) as [rs h']. by destruct H as [_ ->].
Qed.

(** C4. Graph invariant: after any such history, on every layer every node links
    to at most [M] nodes ([2*M] on layer 0), never to itself and never twice to
    the same node, and only to existing nodes that are present on that layer;
    the entry point exists and is on the top layer. *)
Theorem graph_invariant cfg h os rs h' :
  c_M cfg ≤ 2 ^ 62 - 1 → Hnsw.New cfg = Ok h → Forall op_level_ok os →
  run_impl h os = (rs, h') →
  (∀ id n layer conns, h_nodes h' !! id = Some n → n_Connections n !! layer = Some conns →
     len conns ≤ (if decide (layer = 0%nat) then 2 * c_M cfg else c_M cfg) ∧
     (id ∉ conns) ∧ NoDup conns ∧
     ∀ j, j ∈ conns → ∃ m, h_nodes h' !! j = Some m ∧ Z.of_nat layer ≤ n_Level m) ∧
  (h_nodes h' ≠ [] → ∃ n, h_nodes h' !! h_entryPoint h' = Some n ∧
     ∀ i m, h_nodes h' !! i = Some m → n_Level m ≤ n_Level n).
Proof.
  intros HM HN HF Hrun. destruct (wf_New cfg h HM HN) as [Hwf _].
  pose proof (run_refines h os Hwf HF) as H. pose proof (run_limits h os Hwf HF) as HL.
  rewrite Hrun in H, HL. destruct H as [Hwf' _]. destruct HL as [HL1 HL2].
  assert (HN' : h_Mmax h = c_M cfg ∧ h_Mmax0 h = 2 * c_M cfg).
  { unfold Hnsw.New in HN. destruct (Z.ltb_spec (c_M cfg) 2); [done|].
    destruct (_ <=? _); [done|]. destruct (_ <? _); [done|]. injection HN as <-. simpl. split; [done|]. apply swrap_id; lia. }
  split.
  - intros id n layer conns Hn Hc.
    destruct (no_conns _ _ _ (wf_nodes _ Hwf' _ _ Hn) _ _ Hc) as [C1 C2 C3 C4].
    split_and!; [|done|done|].
    + unfold max_conn in C3. rewrite HL1, HL2, (proj1 HN'), (proj2 HN') in C3.
      case_decide as E; [by subst layer|]. by rewrite (proj2 (Z.eqb_neq _ _)) in C3 by lia.
    + intros j Hj. rewrite Forall_forall in C4. by apply C4.
  - intros Hne. pose proof (wf_entry _ Hwf') as He. unfold entry_ok in He.
    destruct (h_nodes h') as [|n0 ns] eqn:En; [done|]. rewrite <- En in *. destruct He as [_ (n & Hn & Hl)].
    exists n. split; [done|]. intros i m Hm.
    pose proof (no_level _ _ _ (wf_nodes _ Hwf' _ _ Hm)). lia.
Qed.

(** A search of a well-formed graph terminates with distinct stored points. *)
Lemma SearchWithEf_found h q k ef :
  wf h → len q = h_dimension h → 0 ≤ k →
  ∃ rs, SearchWithEf h q k ef = Ok rs ∧ len rs ≤ k ∧ NoDup (cID <$> rs) ∧
    (h_nodes h ≠ [] → 0 < k → rs ≠ []) ∧
    Forall (λ c, ∃ n, h_nodes h !! cID c = Some n ∧ cDistance c = Distance q (n_Vector n) ∧
      (n_deleted n = false ∨ cID c = h_entryPoint h)) rs ∧
    ((∀ n, n ∈ h_nodes h → Distance q (n_Vector n) ≠ S754_nan) → ascending rs).
Proof.
  intros Hwf Hq Hk. destruct (decide (h_maxLevel h = -1)) as [Hm|Hm].
  { exists []. unfold SearchWithEf. rewrite Hq, Z.eqb_refl, Hm. simpl.
    split_and!; [done|done|constructor| |constructor|intros; constructor].
    intros Hne. by rewrite (maxLevel_empty h) in Hne. }
  destruct (SearchWithEf_Ok h q k ef Hwf Hq Hm Hk) as (rs & -> & Hne & Hnd & HF & Hasc & _).
  exists (take (Z.to_nat k) rs). split_and!; [done|..].
  - by apply len_take.
  - by apply NoDup_take_cID.
  - intros _ Hk0 E. destruct rs as [|r rs]; [done|].
    destruct (Z.to_nat k) eqn:Ek; [lia|]. done.
  - apply Forall_take. eapply Forall_impl; [exact HF|]. intros c (Hv & He & Hr).
    destruct (lookup_lt_is_Some_2 _ _ Hv) as [n Hn]. exists n.
    unfold exact, vec in He. rewrite Hn in He. split_and!; [done..|].
    destruct Hr as [?|(m & Hm' & Hd)]; [by right|left; congruence].
  - intros Hnan. by apply ascending_take, Hasc.
Qed.

(** C6. Search is sound: on any well-formed index and any query of the right
    dimension, [SearchWithEf] terminates without a panic and returns at most [k]
    different nodes (at least one when the index is not empty and [k > 0]),
    each with its exact distance to the query, also when the traversal used
    quantized distances, and each live unless it is the entry point; when no
    distance is NaN they are in ascending order. *)
Theorem search_sound h q k ef :
  wf h → len q = h_dimension h → 0 ≤ k →
  ∃ rs, SearchWithEf h q k ef = Ok rs ∧ len rs ≤ k ∧ NoDup (cID <$> rs) ∧
    (h_nodes h ≠ [] → 0 < k → rs ≠ []) ∧
    Forall (λ c, ∃ n, h_nodes h !! cID c = Some n ∧ cDistance c = Distance q (n_Vector n) ∧
      (n_deleted n = false ∨ cID c = h_entryPoint h)) rs ∧
    ((∀ n, n ∈ h_nodes h → Distance q (n_Vector n) ≠ S754_nan) → ascending rs).
Proof. apply SearchWithEf_found. Qed.

(** Counting elements by index. *)
Lemma length_filter_seq {A} (f : A → bool) (g : nat → bool) (l : list A) s :
  (∀ i, g (s + i)%nat = from_option f false (l !! i)) →
  length (filter g (seq s (length l))) = length (filter f l).
Proof.
  revert s. induction l as [|x l IH]; intros s Hg; [done|]. cbn [length seq].
  assert (E : g s = f x) by (rewrite <- (Nat.add_0_r s); apply (Hg 0%nat)).
  assert (IH' : length (filter g (seq (S s) (length l))) = length (filter f l)).
  { apply IH. intros i. rewrite Nat.add_succ_comm. apply (Hg (S i)). }
  rewrite !filter_cons, E. case_decide; cbn [length]; by rewrite IH'.
Qed.

Definition is_live h (i : nat) : bool :=
  match h_nodes h !! i with Some n => alive n | None => false end.

Lemma is_live_spec h i : Is_true (is_live h i) ↔ live h i.
Proof.
  unfold is_live, live, alive. destruct (h_nodes h !! i) as [n|]; [|naive_solver].
  destruct (n_deleted n) eqn:E; simpl; naive_solver congruence.
Qed.

(** A duplicate-free list of all live nodes has [Size] elements. *)
Lemma all_live_size h (rs : list Candidate) :
  wf h → NoDup (cID <$> rs) → (∀ id, live h id → id ∈ cID <$> rs) →
  Forall (λ c, live h (cID c)) rs → len rs = Size h.
Proof.
  intros Hwf Hnd Hall HF. rewrite <- size_refines, size_live by done.
  assert (Hp : cID <$> rs ≡ₚ filter (λ i, is_live h i) (seq 0 (length (h_nodes h)))).
  { apply NoDup_Permutation; [done|apply NoDup_filter, NoDup_seq|].
    intros id. rewrite list_elem_of_filter, elem_of_seq, is_live_spec. split.
    - intros (c & -> & Hc)%list_elem_of_fmap. rewrite Forall_forall in HF. specialize (HF c Hc).
      split; [done|]. destruct HF as (n & Hn & _). apply lookup_lt_Some in Hn. lia.
    - intros [Hl _]. by apply Hall. }
  apply Permutation_length in Hp. rewrite length_fmap in Hp. unfold len. rewrite Hp.
  f_equal. apply length_filter_seq. intros i. unfold is_live. simpl.
  by destruct (h_nodes h !! i).
Qed.

(** C5. Exact search, under conditions that each matter: on a well-formed index
    without a quantizer whose entry point is live, for a query of its dimension, a
    [k] above 0 and an [ef] of at least the number of nodes, when every live node can
    be reached from every live node over layer-0 edges between live nodes and no
    distance is NaN, [SearchWithEf] returns exactly the [k] nearest: as many as [k]
    and the live points allow, different, live, in ascending order of their exact
    distances, and no live point left out is closer than one returned. *)
Theorem search_exact h q k ef :
  wf h → h_quantizer h = None → len q = h_dimension h → 0 < k →
  live h (h_entryPoint h) → len (h_nodes h) ≤ ef →
  (∀ a b, live h a → live h b → reach h a 0 b) →
  (∀ n, n ∈ h_nodes h → Distance q (n_Vector n) ≠ S754_nan) →
  ∃ rs, SearchWithEf h q k ef = Ok rs ∧ len rs = Z.min k (Size h) ∧ ascending rs ∧
    NoDup (cID <$> rs) ∧ Forall (λ c, live h (cID c) ∧ exact h q c) rs ∧
    ∀ id c, live h id → id ∉ cID <$> rs → c ∈ rs →
      flt (Distance q (vec h id)) (cDistance c) = false.
Proof.
  intros Hwf Hqz Hq Hk Hent Hef Hconn Hnan.
  assert (Hm : h_maxLevel h ≠ -1).
  { intros Hm. destruct Hent as (n & Hn & _). rewrite (maxLevel_empty h) in Hn by done.
    by rewrite lookup_nil in Hn. }
  destruct (SearchWithEf_Ok h q k ef Hwf Hq Hm) as (rs & -> & Hne & Hnd & HF & Hasc & Hall); [lia|].
  specialize (Hasc Hnan).
  assert (Hin : ∀ id, live h id → id ∈ cID <$> rs).
  { intros id Hl. apply Hall; [done..|]. intros a Ha. by apply Hconn. }
  assert (HFl : Forall (λ c, live h (cID c) ∧ exact h q c) rs).
  { eapply Forall_impl; [exact HF|]. intros c (_ & He & [->|Hl]); done. }
  assert (Hlen : len rs = Size h).
  { apply all_live_size; [done..|]. eapply Forall_impl; [exact HFl|]. by intros ? []. }
  exists (take (Z.to_nat k) rs). split_and!; [done|..].
  - unfold len in *. rewrite length_take. lia.
  - by apply ascending_take.
  - by apply NoDup_take_cID.
  - by apply Forall_take.
  - intros id c Hl Hnot Hc. specialize (Hin id Hl).
    apply list_elem_of_fmap in Hin as (d & -> & Hd).
    rewrite <- (take_drop (Z.to_nat k) rs) in Hasc, Hd. apply elem_of_app in Hd as [Hd|Hd].
    { exfalso. apply Hnot. by apply list_elem_of_fmap_2. }
    pose proof (StronglySorted_app_1_elem_of _ _ _ _ _ Hasc Hc Hd) as Hlt. simpl in Hlt.
    rewrite Forall_forall in HFl. destruct (HFl d) as [_ He].
    { rewrite <- (take_drop (Z.to_nat k) rs). apply elem_of_app. by right. }
    unfold exact in He. by rewrite <- He.
Qed.

(** [greedySearchLayer] terminates at a local optimum: started from a node
    of the layer it returns a node of the layer, its start or a live one, and no
    live neighbour of the returned node is closer to the query. This holds for
    every distance function, NaN included. *)
Theorem greedy_local_optimum h q layer id :
  wf h → 0 ≤ layer → on_layer h layer id →
  ∃ id' d conns, greedySearchLayer h q id layer = Ok id' ∧ on_layer h layer id' ∧
    (id' = id ∨ live h id') ∧ query_dist h q id' = Ok d ∧
    getConnections h id' layer = Ok conns ∧
    ∀ j dj, j ∈ conns → live h j → query_dist h q j = Ok dj → flt dj d = false.
Proof.
  intros Hwf Hl Hon. pose proof (closed_layer h layer Hwf Hl) as Hcl.
  destruct (greedySearchLayer_Ok h q layer _ Hcl id Hon) as (id' & d & E & Hon' & Hlv & Hd & Hno).
  destruct (cl_edges _ _ _ Hcl id' Hon') as (conns & Hc & _).
  exists id', d, conns. split_and!; [done..|]. by apply Hno.
Qed.

(** The neighbour heuristic: given candidates that are nodes of the index it
    returns exactly [min maxConn (len candidates)] of them; when it has to choose,
    a prefix of its answer is diverse, each member at least as close to the query
    as to every member before it, and the rest fills up. *)
Theorem heuristic_selects h candidates maxConn :
  wf h → Forall (valid h) candidates → 0 ≤ maxConn →
  ∃ sel, selectNeighborsHeuristic h candidates maxConn = Ok sel ∧
    sel ⊆+ candidates ∧ len sel = Z.min (len candidates) maxConn ∧
    (maxConn < len candidates → ∃ kept fill, sel = kept ++ fill ∧ diverse h kept).
Proof. apply selectNeighborsHeuristic_Ok. Qed.

(** A deleted identifier is never accepted again: once [Delete] has removed a
    point, every [Insert] with that identifier fails with [ErrPointExists] and
    changes nothing, while [Get] answers that the point does not exist. *)
Theorem deleted_id_rejected h id p level :
  wf h → 0 ≤ level → is_Some (live_map h !! id) → p_ID p = id →
  len (p_Vector p) = h_dimension h →
  ∃ h', Delete id h = (Ok tt, h') ∧ Get h' id = Err ErrPointNotFound ∧
    Insert p level h' = (Err ErrPointExists, h').
Proof.
  intros Hwf Hlev Hlive Hid Hd. pose proof (delete_refines h id Hwf) as H. simpl in H.
  destruct (Delete id h) as [r h'] eqn:E. destruct H as [Hwf' H].
  rewrite decide_True in H by done. injection H as <- Hdim Hlm Hg.
  exists h'. split; [done|].
  assert (Hgone : id ∈ gone_set h') by (rewrite <- Hg; set_solver).
  assert (Hnone : live_map h' !! id = None) by (rewrite <- Hlm; apply lookup_delete_eq).
  split.
  - pose proof (get_refines h' id Hwf') as Hget. simpl in Hget. rewrite Hnone in Hget.
    by injection Hget.
  - destruct (proj2 (known h' id Hwf') (or_intror Hgone)) as [i Hi].
    unfold Insert. unfold_M. rewrite Hd, Hdim, Z.eqb_refl. simpl. by rewrite Hid, Hi.
Qed.

(** A deleted entry point is still returned: insert one point into a new
    index, delete it, and every search of the right dimension with [k >= 1]
    returns exactly that point, although [Get] and [Size] say the index holds
    nothing. [searchLayer] puts its entry point into the results without asking
    whether it is deleted. *)
Theorem deleted_entry_returned cfg h p level q k ef :
  c_M cfg ≤ 2 ^ 62 - 1 → Hnsw.New cfg = Ok h → 0 ≤ level →
  len (p_Vector p) = c_Dimension cfg → len q = c_Dimension cfg → 1 ≤ k →
  ∃ h' c, (Insert p level;; Delete (p_ID p)) h = (Ok tt, h') ∧ Size h' = 0 ∧
    Get h' (p_ID p) = Err ErrPointNotFound ∧
    SearchWithEf h' q k ef = Ok [c] ∧ GetPointID h' (cID c) = p_ID p.
Proof.
  intros HM HN Hlev Hd Hq Hk. destruct (wf_New cfg h HM HN) as [Hwf Habs].
  injection Habs as Hdim Hlm Hgs.
  assert (Hempty : h_nodes h = [] ∧ h_idToIndex h = ∅).
  { unfold Hnsw.New in HN. destruct (_ <? _); [done|]. destruct (_ <=? _); [done|]. destruct (_ <? _); [done|].
    by injection HN as <-. }
  destruct Hempty as [Hns Hids].
  destruct (Insert_Ok h p level Hwf) as (h1 & E1 & Hwf1 & Hs1);
    [congruence|by rewrite Hids, lookup_empty|done|by rewrite Hns|].
  destruct (skel_fwd _ _ 0%nat (new_node h p level) Hs1) as (n & Hn & En).
  { simpl. by rewrite Hns. }
  assert (Hlen1 : length (h_nodes h1) = 1%nat) by (rewrite (sk_len _ _ Hs1); simpl; by rewrite Hns).
  assert (Hidx : h_idToIndex h1 !! p_ID p = Some 0%nat).
  { apply (wf_ids _ Hwf1). exists n. split; [done|]. by rewrite En. }
  assert (E2 : Delete (p_ID p) h1 = (Ok tt, marked h1 0 n)).
  { unfold Delete. unfold_M. rewrite Hidx, (node_at_Some _ _ _ Hn). by rewrite En. }
  assert (Hnl : n_deleted n = false) by (by rewrite En).
  pose proof (wf_marked h1 0 n Hwf1 Hn Hnl) as Hwf2. set (h2 := marked h1 0 n) in *.
  assert (Hone : ∃ m, h_nodes h2 = [m] ∧ n_ID m = p_ID p ∧ n_deleted m = true).
  { destruct (h_nodes h1) as [|x [|]] eqn:Ex; try done. exists (MarkDeleted n).
    simpl. rewrite Ex. split_and!; [done|by rewrite En|done]. }
  destruct Hone as (m & Hm & Hmid & Hmd).
  assert (Hmax : h_maxLevel h2 ≠ -1).
  { intros E. by rewrite (maxLevel_empty h2 Hwf2 E) in Hm. }
  assert (Hdim2 : h_dimension h2 = c_Dimension cfg).
  { unfold h2. simpl. rewrite (sk_rest _ _ Hs1). done. }
  destruct (SearchWithEf_Ok h2 q k ef Hwf2) as (rs & Hrs & Hne & Hnd & HF & _); [congruence|done|lia|].
  assert (Hids0 : Forall (λ c, cID c = 0%nat) rs).
  { eapply Forall_impl; [exact HF|]. intros c [Hv _]. unfold valid in Hv. rewrite Hm in Hv.
    simpl in Hv. lia. }
  destruct rs as [|c [|c' rs]]; [done| |].
  - exists h2, c. split_and!.
    + by rewrite (M_bind_run _ _ _ _ _ E1).
    + rewrite <- size_refines, size_live by done. rewrite Hm, filter_cons_False; [done|].
      unfold alive. rewrite Hmd. simpl. tauto.
    + pose proof (get_refines h2 (p_ID p) Hwf2) as Hg. injection Hg as Hg. rewrite <- Hg.
      unfold h2. rewrite marked_live_map by done. rewrite En. simpl. by rewrite lookup_delete_eq.
    + by rewrite Hrs, take_ge by (simpl; lia).
    + inversion Hids0 as [|? ? Hc _]; subst. unfold GetPointID. by rewrite Hc, Hm.
  - exfalso. inversion Hids0 as [|? ? Hc Hids1]; subst. inversion Hids1 as [|? ? Hc' _]; subst.
    rewrite !fmap_cons, Hc, Hc' in Hnd. inversion Hnd as [|? ? Hx _]; subst. apply Hx. left.
Qed.

End theorems.

(** ** Witnesses

    A small index over the Euclidean distance on the line. *)
#[local] Instance demo_calc : Calculator := EuclideanDistanceSIMD.

Definition demo_point (id : string) (x : Z) : Point unit := mkPoint id [f32_of_Z x] tt.
Definition demo_cfg : Hnsw.Config := Hnsw.mkConfig 2 10 10 10 1 None.
Definition demo_empty : HNSW unit :=
  mkHNSW 2 2 4 10 10 (-1) [] 0 0 1 ∅ 0 None.
Definition demo_ops : list iop :=
  [OInsert (demo_point "a" 1) 1; OInsert (demo_point "b" 5) 0; OInsert (demo_point "c" 3) 2;
   OGet "a"; ODelete "b"; OSize; OInsert (demo_point "b" 7) 0; OGet "b"].

Lemma demo_New : Hnsw.New demo_cfg = Ok demo_empty.
Proof. reflexivity. Qed.
Lemma demo_M : c_M demo_cfg ≤ 2 ^ 62 - 1.
Proof. vm_compute. discriminate. Qed.
Lemma demo_levels : Forall op_level_ok demo_ops.
Proof. repeat constructor; simpl; lia. Qed.

Lemma index_refines_store_witness :
  fst (run_impl demo_empty demo_ops) = fst (run_spec (Store 1 ∅ ∅) demo_ops).
Proof. exact (index_refines_store demo_cfg demo_empty demo_ops demo_M demo_New demo_levels). Defined.

Lemma graph_invariant_witness :
  Hnsw.New demo_cfg = Ok demo_empty ∧
  (∀ id n layer conns,
     h_nodes (run_impl demo_empty demo_ops).2 !! id = Some n →
     n_Connections n !! layer = Some conns →
     len conns ≤ (if decide (layer = 0%nat) then 2 * 2 else 2) ∧
     (id ∉ conns) ∧ NoDup conns ∧
     ∀ j, j ∈ conns → ∃ m, h_nodes (run_impl demo_empty demo_ops).2 !! j = Some m ∧
       Z.of_nat layer ≤ n_Level m).
Proof.
  split; [exact demo_New|].
  apply (graph_invariant demo_cfg demo_empty demo_ops (run_impl demo_empty demo_ops).1
    (run_impl demo_empty demo_ops).2 demo_M demo_New demo_levels).
  apply surjective_pairing.
Defined.

(** Two points, linked to each other. *)
Definition demo_two : HNSW unit :=
  (run_impl demo_empty [OInsert (demo_point "a" 1) 1; OInsert (demo_point "b" 5) 0]).2.

Lemma demo_two_wf : wf demo_two.
Proof.
  assert (HF : Forall (op_level_ok (payload := unit))
    [OInsert (demo_point "a" 1) 1; OInsert (demo_point "b" 5) 0]) by (repeat constructor; simpl; lia).
  destruct (wf_New demo_cfg demo_empty demo_M demo_New) as [Hwf _].
  pose proof (run_refines demo_empty _ Hwf HF) as H. unfold demo_two.
  destruct (run_impl demo_empty _) as [rs h]. by destruct H as [H _].
Qed.

Lemma demo_two_live i : live demo_two i → i = 0%nat ∨ i = 1%nat.
Proof. intros (n & Hn & _). apply lookup_lt_Some in Hn. vm_compute in Hn. lia. Qed.

Lemma demo_two_entry : live demo_two (h_entryPoint demo_two).
Proof. eexists. vm_compute. split; reflexivity. Qed.

Lemma demo_two_conn a b : live demo_two a → live demo_two b → reach demo_two a 0 b.
Proof.
  intros [-> | ->]%demo_two_live Hb; destruct (demo_two_live _ Hb) as [-> | ->];
    try apply reach_entry.
  - eapply reach_step; [apply reach_entry|vm_compute; reflexivity|left|exact Hb].
  - eapply reach_step; [apply reach_entry|vm_compute; reflexivity|left|exact Hb].
Qed.

Lemma demo_two_nan n :
  n ∈ h_nodes demo_two → Distance [f32_of_Z 2] (n_Vector n) ≠ S754_nan.
Proof.
  intros Hn. apply list_elem_of_lookup in Hn as [i Hi].
  assert (Hlt : (i < 2)%nat) by (apply lookup_lt_Some in Hi; vm_compute in Hi; lia).
  destruct i as [|[|i]]; [..|lia]; vm_compute in Hi; injection Hi as <-; by vm_compute.
Qed.

Lemma search_sound_witness :
  ∃ rs, SearchWithEf demo_two [f32_of_Z 2] 1 10 = Ok rs ∧ len rs ≤ 1 ∧ rs ≠ [].
Proof.
  destruct (search_sound demo_two [f32_of_Z 2] 1 10 demo_two_wf) as (rs & E & Hl & _ & Hne & _);
    [reflexivity|lia|].
  exists rs. split; [exact E|]. split; [exact Hl|]. apply Hne; [by vm_compute|lia].
Defined.

Lemma search_exact_witness :
  ∃ rs, SearchWithEf demo_two [f32_of_Z 2] 1 10 = Ok rs ∧ len rs = 1 ∧ ascending rs.
Proof.
  destruct (search_exact demo_two [f32_of_Z 2] 1 10 demo_two_wf) as (rs & E & Hl & Ha & _);
    [reflexivity|reflexivity|lia|exact demo_two_entry|vm_compute; discriminate
    |exact demo_two_conn|exact demo_two_nan|].
  exists rs. split; [exact E|]. split; [rewrite Hl; reflexivity|exact Ha].
Defined.

Lemma demo_two_on0 : on_layer demo_two 0 1.
Proof. eexists. vm_compute. split; [reflexivity|discriminate]. Qed.

Lemma greedy_local_optimum_witness :
  ∃ id', greedySearchLayer demo_two [f32_of_Z 2] 1 0 = Ok id' ∧ on_layer demo_two 0 id'.
Proof.
  destruct (greedy_local_optimum demo_two [f32_of_Z 2] 0 1 demo_two_wf)
    as (id' & d & conns & E & Ho & _); [lia|exact demo_two_on0|].
  exists id'. split; [exact E|exact Ho].
Defined.

Definition demo_candidates : list Candidate :=
  [mkCandidate 0 (f32_of_Z 1); mkCandidate 1 (f32_of_Z 3)].

Lemma heuristic_selects_witness :
  ∃ sel, selectNeighborsHeuristic demo_two demo_candidates 1 = Ok sel ∧
    sel ⊆+ demo_candidates ∧ len sel = 1.
Proof.
  destruct (heuristic_selects demo_two demo_candidates 1 demo_two_wf) as (sel & E & Hs & Hl & _);
    [repeat constructor; vm_compute; lia|lia|].
  exists sel. split; [exact E|]. split; [exact Hs|]. rewrite Hl. reflexivity.
Defined.

Lemma deleted_id_rejected_witness :
  ∃ h', Delete "a" demo_two = (Ok tt, h') ∧ Get h' "a" = Err ErrPointNotFound ∧
    Insert (demo_point "a" 9) 0 h' = (Err ErrPointExists, h').
Proof.
  apply (deleted_id_rejected demo_two "a" (demo_point "a" 9) 0 demo_two_wf);
    [lia| |reflexivity|reflexivity].
  eexists. vm_compute. reflexivity.
Defined.

Lemma deleted_entry_returned_witness :
  ∃ h' c, (Insert (demo_point "a" 1) 0;; Delete "a") demo_empty = (Ok tt, h') ∧ Size h' = 0 ∧
    Get h' "a" = Err ErrPointNotFound ∧
    SearchWithEf h' [f32_of_Z 2] 1 10 = Ok [c] ∧ GetPointID h' (cID c) = "a"%string.
Proof.
  apply (deleted_entry_returned demo_cfg demo_empty (demo_point "a" 1) 0 [f32_of_Z 2] 1 10);
    [exact demo_M|exact demo_New|lia|reflexivity|reflexivity|lia].
Defined.
