(* ===== verification/HnswQuery.v ===== *)
(** * pkg/index/hnsw: the other queries

    [search.go]: filtered search, discovery, range search, batches and
    recommendation, over the index of Hnsw.v. *)
From stdpp Require Import base gmap strings list fin_maps numbers sorting sets.
From Stdlib Require Import Strings.Byte ZArith Lia Floats.SpecFloat.
From S2P Require Import Prelude Float32 Heap Hnsw.

#[local] Open Scope Z_scope.

(** ** calculateAdaptiveEf *)

(** The decimal constant [a/b], correctly rounded. *)
Definition f64_const (a b : Z) : f64 := SFdiv 53 1024 (f64_of_Z a) (f64_of_Z b).
(** [x >= y], [x <= y] and [x > y] on floats. *)
Definition fge (x y : spec_float) : bool := SFleb y x.
Definition fle (x y : spec_float) : bool := SFleb x y.

(** [int(x)] on amd64: truncation, and the smallest integer when the value is
    out of range or NaN. *)
Definition int_of_f64 (x : f64) : Z :=
  match x with
  | S754_zero _ => 0
  | S754_finite s m e =>
      let a := if 0 <=? e then Zpos m * 2 ^ e else Zpos m / 2 ^ (- e) in
      let z := if s then - a else a in
      if (MinInt64 <=? z) && (z <=? MaxInt64) then z else MinInt64
  | _ => MinInt64
  end.

Definition ef_multiplier (sel : f64) : f64 :=
  if fge sel (f64_const 8 10) then f64_const 15 10
  else if fge sel (f64_const 5 10) then f64_of_Z 2
  else if fge sel (f64_const 2 10) then f64_of_Z 3
  else if fge sel (f64_const 1 10) then f64_of_Z 5
  else if fge sel (f64_const 5 100) then f64_of_Z 7
  else f64_of_Z 10.

Definition calculateAdaptiveEf (ef : Z) (estimatedSelectivity : f64) : Z :=
  let sel := if fle estimatedSelectivity (f64_of_Z 0) || fgt estimatedSelectivity (f64_of_Z 1)
             then f64_const 5 10 else estimatedSelectivity in
  let adaptiveEf := int_of_f64 (SFmul 53 1024 (f64_of_Z ef) (ef_multiplier sel)) in
  let maxEf := i64 (ef * 15) in
  if adaptiveEf >? maxEf then maxEf else adaptiveEf.

Section query.
Context {payload : Type} {calc : Calculator} {sorter : Sorter}.
#[local] Abbreviation R := (result hnswError).
Implicit Types (h : HNSW payload) (n : Node payload).

(** ** Filtered layers

    The loop [searchLayerWithFilter] and [discoverLayer0] share: [dist] is the
    distance of a node, [pass] the filter, [within] the radius test, [stopEf]
    the result count from which a worse candidate ends the search, [searchEf]
    the one up to which every node is explored. *)
Section filtered.
Context (h : HNSW payload) (dist : nat → R f32) (pass : Node payload → bool) (within : f32 → bool).
Context (stopEf searchEf ef layer : Z).

(** [for results.Len() > ef { heap.Pop(results) }] *)
Fixpoint pop_excess (fuel : nat) (results : list Candidate) : R (list Candidate) :=
  if len results >? ef then
    match fuel, heap_Pop max_less results with
    | S fuel, Some (_, r) => pop_excess fuel r
    | _, _ => Panic
    end
  else Ok results.

Definition add_result (c : Candidate) (results : list Candidate) : R (list Candidate) :=
  better ← improves results ef (cDistance c);
  if (better : bool) then
    let r := heap_Push max_less c results in pop_excess (length r) r
  else Ok results.

Fixpoint filt_explore (neighbors : list nat) (st : search_state) : R search_state :=
  match neighbors with
  | [] => Ok st
  | id :: rest =>
      if decide (id ∈ ss_visited st) then filt_explore rest st else
      let visited := {[id]} ∪ ss_visited st in
      n ← node_at h id;
      if n_deleted n then
        filt_explore rest (SearchState visited (ss_candidates st) (ss_results st))
      else
        d ← dist id;
        further ← improves (ss_results st) searchEf d;
        let candidates := if (further : bool)
          then heap_Push min_less (mkCandidate id d) (ss_candidates st)
          else ss_candidates st in
        if negb (pass n) then filt_explore rest (SearchState visited candidates (ss_results st))
        else if negb (within d) then filt_explore rest (SearchState visited candidates (ss_results st))
        else
          results ← add_result (mkCandidate id d) (ss_results st);
          filt_explore rest (SearchState visited candidates results)
  end.

Fixpoint filt_loop (fuel : nat) (st : search_state) : R (list Candidate) :=
  match fuel with
  | O => Panic
  | S fuel =>
      match heap_Pop min_less (ss_candidates st) with
      | None => Ok (ss_results st)
      | Some (curr, candidates) =>
          stop ← should_stop (ss_results st) stopEf (cDistance curr);
          if (stop : bool) then Ok (ss_results st) else
          neighbors ← getConnections h (cID curr) layer;
          st ← filt_explore neighbors (SearchState (ss_visited st) candidates (ss_results st));
          filt_loop fuel st
      end
  end.

(** The entry point is a result when it passes the filter and is not deleted;
    the radius is not applied to it. *)
Definition filt_layer (entryID : nat) : R (list Candidate) :=
  d ← dist entryID;
  n ← node_at h entryID;
  let c := mkCandidate entryID d in
  let results := if pass n && negb (n_deleted n) then heap_Push max_less c [] else [] in
  results ← filt_loop (S (length (h_nodes h)))
    (SearchState {[entryID]} (heap_Push min_less c []) results);
  Ok (heap_drain max_less results).
End filtered.

(** ** SearchWithFilter *)
Record SearchParams := mkSearchParams {
  sp_K : Z;
  sp_Ef : Z;
  sp_Radius : f32;
  sp_Filter : option (string → payload → bool);
  sp_Selectivity : f64
}.

Definition passes (f : option (string → payload → bool)) n : bool :=
  match f with None => true | Some f => f (n_ID n) (n_payload n) end.

(** [!(radius > 0 && dist > radius)] *)
Definition in_radius (radius d : f32) : bool := negb (fgt radius f32_zero && fgt d radius).

Definition searchLayerWithFilter h (query : vector) (entryID : nat) (ef layer : Z)
    (params : SearchParams) : R (list Candidate) :=
  let selectivity := if fle (sp_Selectivity params) (f64_of_Z 0) then f64_const 33 100
                     else sp_Selectivity params in
  filt_layer h (query_dist h query) (passes (sp_Filter params)) (in_radius (sp_Radius params))
    ef (calculateAdaptiveEf ef selectivity) ef layer entryID.

Definition SearchWithFilter h (query : vector) (params : SearchParams) : R (list Candidate) :=
  if negb (len query =? h_dimension h) then Err ErrDimensionMismatch
  else if h_maxLevel h =? -1 then Ok [] else
  let ef := if sp_Ef params <? sp_K params then sp_K params else sp_Ef params in
  let searchEf := match h_quantizer h with Some _ => i64 (ef * 2) | None => ef end in
  currNode ← descend h query (h_entryPoint h) (layers_down (h_maxLevel h) 0);
  candidates ← searchLayerWithFilter h query currNode searchEf 0 params;
  finish h query (sp_K params) candidates.

(** ** Discovery *)
Record ContextPair := mkContextPair { Positive : vector; Negative : vector }.

Definition contextDistance (v target : vector) (context : list ContextPair) : f32 :=
  let totalPenalty := foldl (λ t pair,
    let posDist := Distance v (Positive pair) in
    let negDist := Distance v (Negative pair) in
    if fgt posDist negDist then f32_add t (f32_sub posDist negDist) else t) f32_zero context in
  if len target >? 0 then f32_add totalPenalty (Distance v target) else
  let regDist := foldl (λ r pair, f32_add r (Distance v (Positive pair))) f32_zero context in
  let regDist := match context with
                 | [] => f32_zero
                 | _ => f32_div regDist (f32_of_Z (len context))
                 end in
  f32_add totalPenalty (f32_mul (f32_div (f32_of_Z 1) (f32_of_Z 10)) regDist).

Record DiscoverParams := mkDiscoverParams {
  dp_Target : vector;
  dp_Context : list ContextPair;
  dp_K : Z;
  dp_Ef : Z;
  dp_Filter : option (string → payload → bool)
}.

Definition discoverLayer0 h (entryID : nat) (ef : Z) (params : DiscoverParams) : R (list Candidate) :=
  let searchEf := i64 (ef * 3) in
  filt_layer h
    (λ id, v ← getVector h id; Ok (contextDistance v (dp_Target params) (dp_Context params)))
    (passes (dp_Filter params)) (λ _, true) searchEf searchEf ef 0 entryID.

Definition DiscoverWithFilter h (params : DiscoverParams) : R (list Candidate) :=
  if h_maxLevel h =? -1 then Ok [] else
  let ef := if dp_Ef params <? dp_K params then dp_K params else dp_Ef params in
  candidates ← discoverLayer0 h (h_entryPoint h) ef params;
  if len candidates >? dp_K params then slice candidates 0 (dp_K params) else Ok candidates.

(** ** RangeSearch *)
Fixpoint enqueue (neighbors queue : list nat) (visited : gset nat) : list nat * gset nat :=
  match neighbors with
  | [] => (queue, visited)
  | id :: rest =>
      if decide (id ∈ visited) then enqueue rest queue visited
      else enqueue rest (queue ++ [id]) ({[id]} ∪ visited)
  end.

(** Every node enters the queue at most once, so there are at most as many
    rounds as nodes, and one to find the queue empty. *)
Fixpoint range_loop (fuel : nat) h (query : vector) (radius : f32) (queue : list nat)
    (visited : gset nat) (results : list Candidate) : R (list Candidate) :=
  match fuel with
  | O => Panic
  | S fuel =>
      match queue with
      | [] => Ok results
      | currID :: queue =>
          n ← node_at h currID;
          if n_deleted n then range_loop fuel h query radius queue visited results else
          let dist := Distance query (n_Vector n) in
          let results := if fle dist radius then results ++ [mkCandidate currID dist] else results in
          neighbors ← getConnections h currID 0;
          let '(queue, visited) := enqueue neighbors queue visited in
          range_loop fuel h query radius queue visited results
      end
  end.

Definition rangeSearchLayer0 h (query : vector) (entryID : nat) (radius : f32) : R (list Candidate) :=
  range_loop (S (length (h_nodes h))) h query radius [entryID] {[entryID]} [].

Definition RangeSearch h (query : vector) (radius : f32) : R (list Candidate) :=
  if negb (len query =? h_dimension h) then Err ErrDimensionMismatch
  else if h_maxLevel h =? -1 then Ok [] else
  currNode ← descend h query (h_entryPoint h) (layers_down (h_maxLevel h) 0);
  rangeSearchLayer0 h query currNode radius.

(** ** Batches, recommendation, neighbours *)

(** One goroutine per query; a panic in one of them ends the program. The results
    of the queries, empty for one that failed, and the first error if any. *)
Definition BatchSearchWithEf h (queries : list vector) (k ef : Z) :
    R (list (list Candidate) * option hnswError) :=
  let rs := (λ q, SearchWithEf h q k ef) <$> queries in
  if existsb (λ r, match r with Panic => true | _ => false end) rs then Panic else
  Ok ((λ r, match r with Ok cs => cs | _ => [] end) <$> rs,
      head (omap (λ r, match r with Err e => Some e | _ => None end) rs)).
Definition BatchSearch h (queries : list vector) (k : Z) := BatchSearchWithEf h queries k (h_efSearch h).

Fixpoint exclude h (id : string) (cs : list Candidate) : R (list Candidate) :=
  match cs with
  | [] => Ok []
  | c :: cs =>
      n ← node_at h (cID c);
      rest ← exclude h id cs;
      Ok (if String.eqb (n_ID n) id then rest else c :: rest)
  end.

Definition Recommend h (id : string) (k : Z) : R (list Candidate) :=
  p ← Get h id;
  results ← Search h (p_Vector p) (i64 (k + 1));
  filtered ← exclude h id results;
  if len filtered >? k then slice filtered 0 k else Ok filtered.

Fixpoint node_ids h (ids : list nat) : R (list string) :=
  match ids with
  | [] => Ok []
  | id :: ids => n ← node_at h id; rest ← node_ids h ids; Ok (n_ID n :: rest)
  end.

Definition GetNeighbors h (id : string) (layer : Z) : R (list string) :=
  match h_idToIndex h !! id with
  | None => Err ErrPointNotFound
  | Some nodeID => connections ← getConnections h nodeID layer; node_ids h connections
  end.

Definition GetLevel h (id : string) : R Z :=
  match h_idToIndex h !! id with
  | None => Err ErrPointNotFound
  | Some nodeID => n ← node_at h nodeID; Ok (n_Level n)
  end.

End query.
Arguments SearchParams : clear implicits.
Arguments DiscoverParams : clear implicits.
