(* ===== verification/HnswQueryTheorems.v ===== *)
(** * pkg/index/hnsw: the properties of the other queries *)
From stdpp Require Import base gmap strings list fin_maps numbers sorting sets.
From Stdlib Require Import Strings.Byte ZArith Lia Floats.SpecFloat.
From S2P Require Import Prelude Float32 Heap Hnsw HnswSearch.
From S2P Require Import HnswGraph HnswInsert HnswSpec Distance HnswTheorems HnswQuery.

#[local] Open Scope Z_scope.

Section range.
Context {payload : Type} {calc : Calculator} {sorter : Sorter}.
Implicit Types (h : HNSW payload) (n : Node payload).

(** ** Range search *)
Lemma enqueue_Ok (P : nat → Prop) neighbors queue (visited : gset nat) :
  Forall P neighbors →
  let '(queue', visited') := enqueue neighbors queue visited in
  ∃ new, queue' = queue ++ new ∧ NoDup new ∧ Forall P new ∧
    (∀ id, id ∈ visited' ↔ id ∈ visited ∨ id ∈ new) ∧ (∀ id, id ∈ new → id ∉ visited) ∧
    (∀ id, id ∈ neighbors → id ∈ visited') ∧ size visited' = (size visited + length new)%nat.
Proof.
  intros HF. revert queue visited. induction HF as [|id rest Hid HF IH]; intros queue visited; simpl.
  { exists []. rewrite app_nil_r. split_and!; try done; try (by constructor); simpl; try set_solver; lia. }
  case_decide as Hv.
  - specialize (IH queue visited). destruct (enqueue rest queue visited) as [q v].
    destruct IH as (new & -> & H1 & H2 & H3 & H4 & H5 & H6). exists new.
    split_and!; try done. set_solver.
  - specialize (IH (queue ++ [id]) ({[id]} ∪ visited)).
    destruct (enqueue rest _ _) as [q v].
    destruct IH as (new & -> & H1 & H2 & H3 & H4 & H5 & H6). exists (id :: new).
    rewrite <- app_assoc. split_and!; try done.
    + constructor; [|done]. intros Hin. specialize (H4 id Hin). set_solver.
    + by constructor.
    + set_solver.
    + set_solver.
    + set_solver.
    + rewrite H6, size_union, size_singleton by set_solver. simpl. lia.
Qed.

Section bfs.
Context h (q : vector) (radius : f32) (start : nat).
Context (Hwf : wf h) (Hstart : on_layer h 0 start).

(** A result: a live node within the radius, at its exact distance. *)
Definition range_ok (c : Candidate) : Prop :=
  live h (cID c) ∧ exact h q c ∧ fle (cDistance c) radius = true.

(** A live node that has left the queue. *)
Definition processed (queue : list nat) (visited : gset nat) (id : nat) : Prop :=
  id ∈ visited ∧ id ∉ queue ∧ live h id.

Record bfs_ok (queue : list nat) (visited : gset nat) (results : list Candidate) : Prop := {
  bo_queue : Forall (on_layer h 0) queue;
  bo_visited : ∀ id, id ∈ visited → on_layer h 0 id;
  bo_sub : ∀ id, id ∈ queue → id ∈ visited;
  bo_nodup : NoDup queue;
  bo_start : start ∈ visited;
  bo_results : Forall range_ok results;
  bo_res_nodup : NoDup (cID <$> results);
  bo_res_proc : ∀ c, c ∈ results → processed queue visited (cID c);
  bo_closed : ∀ id conns j, processed queue visited id → getConnections h id 0 = Ok conns →
    j ∈ conns → j ∈ visited;
  bo_found : ∀ id, processed queue visited id → fle (Distance q (vec h id)) radius = true →
    id ∈ cID <$> results
}.

(** An empty queue: everything reachable was processed. *)
Lemma bfs_done visited results :
  bfs_ok [] visited results → live h start →
  ∀ id, reach h start 0 id → fle (Distance q (vec h id)) radius = true → id ∈ cID <$> results.
Proof.
  intros [B1 B2 B3 B4 B5 B6 B7 B8 B9 B10] Hl id Hr. apply B10.
  induction Hr as [|id conns j Hr IHr Hc Hj Hlj].
  - split_and!; [done|apply not_elem_of_nil|done].
  - split_and!; [by eapply B9|apply not_elem_of_nil|done].
Qed.

(** A deleted node leaves the queue. *)
Lemma bfs_skip cur queue visited results n :
  bfs_ok (cur :: queue) visited results → h_nodes h !! cur = Some n → n_deleted n = true →
  bfs_ok queue visited results.
Proof.
  intros [B1 B2 B3 B4 B5 B6 B7 B8 B9 B10] Hn Hd.
  inversion B1 as [|? ? Hcur B1']; inversion B4 as [|? ? Hnc B4']; subst.
  assert (Hp' : ∀ id, processed queue visited id → processed (cur :: queue) visited id).
  { intros id (H1 & H2 & H3). split_and!; [done| |done]. rewrite elem_of_cons.
    intros [->|]; [|done]. destruct H3 as (m & Hm & Hmd). congruence. }
  constructor; try done.
  - intros id Hid. apply B3. by right.
  - intros c Hc. destruct (B8 c Hc) as (H1 & H2 & H3). split_and!; [done| |done].
    intros H. apply H2. by right.
  - intros id conns j Hp. by apply B9, Hp'.
  - intros id Hp. by apply B10, Hp'.
Qed.

(** A live node leaves the queue: its fresh neighbours enter it, and it becomes a
    result when it is within the radius. *)
Lemma bfs_visit cur queue visited results n conns new visited' :
  bfs_ok (cur :: queue) visited results → h_nodes h !! cur = Some n → n_deleted n = false →
  getConnections h cur 0 = Ok conns → NoDup new → Forall (on_layer h 0) new →
  (∀ id, id ∈ visited' ↔ id ∈ visited ∨ id ∈ new) → (∀ id, id ∈ new → id ∉ visited) →
  (∀ id, id ∈ conns → id ∈ visited') →
  bfs_ok (queue ++ new) visited'
    (if fle (Distance q (n_Vector n)) radius
     then results ++ [mkCandidate cur (Distance q (n_Vector n))] else results).
Proof.
  intros [B1 B2 B3 B4 B5 B6 B7 B8 B9 B10] Hn Hd Hg Q1 Q2 Q3 Q4 Q5.
  inversion B1 as [|? ? Hcur B1']; inversion B4 as [|? ? Hnc B4']; subst.
  assert (Hcv : cur ∈ visited) by (apply B3; left). assert (Hlive : live h cur) by (by exists n).
  assert (Hvec : vec h cur = n_Vector n) by (unfold vec; by rewrite Hn). rewrite <- Hvec.
  assert (Hproc : ∀ id, processed (queue ++ new) visited' id →
    id = cur ∨ processed (cur :: queue) visited id).
  { intros id (H1 & H2 & H3). rewrite elem_of_app in H2. apply Q3 in H1 as [H1|]; [|tauto].
    destruct (decide (id = cur)) as [->|N]; [by left|right]. split_and!; [done| |done].
    rewrite elem_of_cons. tauto. }
  assert (Hold : ∀ id, id ∈ visited → id ∉ queue → live h id → processed (queue ++ new) visited' id).
  { intros id H1 H2 H3. split_and!; [apply Q3; by left| |done].
    rewrite elem_of_app. intros [|Hnew]; [done|]. by apply (Q4 _ Hnew). }
  assert (Hres : ∀ c, c ∈ results → cID c ≠ cur ∧ processed (queue ++ new) visited' (cID c)).
  { intros c Hc. destruct (B8 c Hc) as (H1 & H2 & H3). rewrite elem_of_cons in H2. split; [tauto|].
    apply Hold; [done|tauto|done]. }
  constructor.
  - by apply Forall_app.
  - intros id [Hid|Hid]%Q3; [by apply B2|]. rewrite Forall_forall in Q2. auto.
  - intros id [Hid|Hid]%elem_of_app; apply Q3; [left; apply B3; by right|by right].
  - apply NoDup_app. split_and!; [done| |done]. intros id Hid Hnew. apply (Q4 id Hnew), B3. by right.
  - apply Q3. by left.
  - destruct (fle _ _) eqn:Hr; [|done]. apply Forall_app. split; [done|].
    apply Forall_singleton. by split_and!.
  - destruct (fle _ _); [|done]. rewrite fmap_app. apply NoDup_app.
    split_and!; [done| |apply NoDup_singleton].
    intros id (c & -> & Hc)%list_elem_of_fmap E%list_elem_of_singleton.
    destruct (Hres c Hc) as [N _]. by apply N.
  - destruct (fle _ _); [|intros c Hc; by apply Hres].
    intros c [Hc|Hc%list_elem_of_singleton]%elem_of_app; [by apply Hres|].
    subst c. by apply Hold.
  - intros id conns' j Hp Hc Hj. destruct (Hproc id Hp) as [->|Hp'].
    + rewrite Hg in Hc. injection Hc as <-. auto.
    + apply Q3. left. by eapply B9.
  - intros id Hp Hr. destruct (Hproc id Hp) as [->|Hp'].
    + rewrite Hr, fmap_app. apply elem_of_app. right. by apply list_elem_of_singleton.
    + pose proof (B10 id Hp' Hr). destruct (fle (Distance q (vec h cur)) radius); [|done].
      rewrite fmap_app. apply elem_of_app. by left.
Qed.

Lemma range_loop_Ok fuel queue visited results :
  bfs_ok queue visited results →
  len queue + len (h_nodes h) - Z.of_nat (size visited) < Z.of_nat fuel →
  ∃ rs, range_loop fuel h q radius queue visited results = Ok rs ∧
    NoDup (cID <$> rs) ∧ Forall range_ok rs ∧
    (live h start → ∀ id, reach h start 0 id → fle (Distance q (vec h id)) radius = true →
       id ∈ cID <$> rs).
Proof.
  pose proof (closed_layer h 0 Hwf ltac:(lia)) as Hcl.
  revert queue visited results. induction fuel as [|fuel IH]; intros queue visited results Hok Hf.
  { pose proof (visited_bound h 0 _ Hcl visited (bo_visited _ _ _ Hok)).
    pose proof (len_nonneg queue). lia. }
  cbn [range_loop]. destruct queue as [|cur queue].
  { exists results. split_and!; [done|apply Hok|apply Hok|by apply (bfs_done visited)]. }
  pose proof (bo_queue _ _ _ Hok) as HF. inversion HF as [|? ? Hcur _]; subst.
  pose proof Hcur as (n & Hn & _). rewrite (node_at_Some _ _ _ Hn). cbn [mbind result_bind].
  rewrite len_cons in Hf. destruct (n_deleted n) eqn:Hd.
  { apply IH; [by eapply bfs_skip|lia]. }
  destruct (getConnections_Ok h 0 cur Hwf ltac:(lia) Hcur) as (m & conns & _ & _ & Hg & Hco).
  rewrite Hg. cbn [mbind result_bind].
  pose proof (enqueue_Ok (on_layer h 0) conns queue visited (co_valid _ _ _ _ Hco)) as Hq.
  destruct (enqueue conns queue visited) as [queue' visited'].
  destruct Hq as (new & -> & Q1 & Q2 & Q3 & Q4 & Q5 & Q6).
  apply IH; [by eapply bfs_visit|]. rewrite len_app. unfold len in *. lia.
Qed.

Lemma rangeSearchLayer0_Ok :
  ∃ rs, rangeSearchLayer0 h q start radius = Ok rs ∧ NoDup (cID <$> rs) ∧ Forall range_ok rs ∧
    (live h start → ∀ id, reach h start 0 id → fle (Distance q (vec h id)) radius = true →
       id ∈ cID <$> rs).
Proof.
  apply range_loop_Ok.
  - assert (Hno : ∀ id, ¬ processed [start] {[start]} id).
    { intros id (H1%elem_of_singleton & H2 & _). subst id. apply H2. left. }
    constructor; try (by constructor); try set_solver.
    apply NoDup_singleton.
  - rewrite size_singleton. unfold len. simpl. lia.
Qed.
End bfs.

(** C24. Range search is exact: from a live entry point, when every live node can
    be reached from every live node over layer-0 edges between live nodes,
    [RangeSearch] returns each live point within the radius exactly once, with
    its exact distance, and nothing else. NaN distances are never within. *)
Theorem range_search_exact h q radius :
  wf h → len q = h_dimension h → live h (h_entryPoint h) →
  (∀ a b, live h a → live h b → reach h a 0 b) →
  ∃ rs, RangeSearch h q radius = Ok rs ∧ NoDup (cID <$> rs) ∧
    Forall (exact h q) rs ∧
    ∀ id, id ∈ cID <$> rs ↔ live h id ∧ fle (Distance q (vec h id)) radius = true.
Proof.
  intros Hwf Hq Hent Hconn.
  assert (Hm : h_maxLevel h ≠ -1).
  { intros Hm. destruct Hent as (n & Hn & _). rewrite (maxLevel_empty h) in Hn by done.
    by rewrite lookup_nil in Hn. }
  unfold RangeSearch. rewrite Hq, Z.eqb_refl, (proj2 (Z.eqb_neq _ _)) by done. simpl.
  destruct (descend_search h q Hwf Hm) as (cur & -> & Hcur & Hsrc). cbn [mbind result_bind].
  assert (Hl : live h cur) by (by destruct Hsrc as [->|]).
  destruct (rangeSearchLayer0_Ok h q radius cur Hwf Hcur) as (rs & E & Hnd & HF & Hall).
  exists rs. split_and!; [done..| |].
  - eapply Forall_impl; [exact HF|]. by intros c (_ & ? & _).
  - intros id. split.
    + intros (c & -> & Hc)%list_elem_of_fmap. rewrite Forall_forall in HF.
      destruct (HF c Hc) as (Hlc & He & Hr). unfold exact in He. rewrite He in Hr. done.
    + intros [Hlid Hr]. apply Hall; [done| |done]. by apply Hconn.
Qed.

(** Range search from a deleted entry point finds nothing: in an index whose
    nodes are all on layer 0, once the entry point is deleted [RangeSearch]
    returns no point for any query and radius, whatever live points the index
    holds, because the search does not continue through a deleted node. *)
Theorem range_search_deleted_entry h q radius n :
  wf h → len q = h_dimension h → h_maxLevel h = 0 →
  h_nodes h !! h_entryPoint h = Some n → n_deleted n = true →
  RangeSearch h q radius = Ok [].
Proof.
  intros Hwf Hq Hm Hn Hd. unfold RangeSearch. rewrite Hq, Z.eqb_refl, Hm. simpl.
  unfold rangeSearchLayer0. cbn [range_loop]. rewrite (node_at_Some _ _ _ Hn). simpl.
  rewrite Hd. apply lookup_lt_Some in Hn. by destruct (length (h_nodes h)) eqn:E; [lia|].
Qed.

End range.

(** ** Witnesses *)
#[local] Instance demo_range_calc : Calculator := EuclideanDistanceSIMD.

Lemma range_search_exact_witness :
  ∃ rs, RangeSearch demo_two [f32_of_Z 2] (f32_of_Z 2) = Ok rs ∧ ∀ id, id ∈ cID <$> rs ↔ live demo_two id ∧
    fle (Distance [f32_of_Z 2] (vec demo_two id)) (f32_of_Z 2) = true.
Proof.
  destruct (range_search_exact demo_two [f32_of_Z 2] (f32_of_Z 2) demo_two_wf)
    as (rs & E & _ & _ & H); [reflexivity|exact demo_two_entry|exact demo_two_conn|].
  exists rs. split; [exact E|exact H].
Defined.

(** Two points on layer 0, the first one, the entry point, deleted. *)
Definition demo_gone_ops : list iop :=
  [OInsert (demo_point "a" 1) 0; OInsert (demo_point "b" 5) 0; ODelete "a"].
Definition demo_gone : HNSW unit := (run_impl demo_empty demo_gone_ops).2.

Lemma demo_gone_wf : wf demo_gone.
Proof.
  assert (HF : Forall (op_level_ok (payload := unit)) demo_gone_ops) by (repeat constructor; simpl; lia).
  destruct (wf_New demo_cfg demo_empty demo_M demo_New) as [Hwf _].
  pose proof (run_refines demo_empty _ Hwf HF) as H. unfold demo_gone.
  destruct (run_impl demo_empty _) as [rs h]. by destruct H as [H _].
Qed.

Lemma range_search_deleted_entry_witness :
  RangeSearch demo_gone [f32_of_Z 5] (f32_of_Z 2) = Ok [] ∧ Size demo_gone = 1.
Proof.
  split; [|reflexivity].
  eapply (range_search_deleted_entry demo_gone [f32_of_Z 5] (f32_of_Z 2));
    [exact demo_gone_wf|reflexivity|reflexivity|vm_compute; reflexivity|reflexivity].
Defined.
