(* ===== verification/HnswFilter.v ===== *)
(** * pkg/index/hnsw: filtered search

    The width computation of filtered search, and what [SearchWithFilter] and
    [DiscoverWithFilter] return. *)
From stdpp Require Import base gmap strings list fin_maps numbers sorting sets.
From Stdlib Require Import Strings.Byte ZArith Lia Floats.SpecFloat.
From S2P Require Import Prelude Float32 Heap Hnsw HnswSearch.
From S2P Require Import HnswGraph HnswInsert HnswSpec Distance HnswTheorems HnswQuery.

#[local] Open Scope Z_scope.




Lemma int_of_f64_half z k a :
  0 < z < 2 ^ 53 → 0 ≤ a → Zpos k = z * 2 ^ a → int_of_f64 (S754_finite false k (-1 - a)) = z / 2.
Proof.
  intros Hz Ha Hk. unfold int_of_f64. rewrite (proj2 (Z.leb_gt 0 (-1 - a))) by lia.
  assert (E : Zpos k / 2 ^ (- (-1 - a)) = z / 2).
  { rewrite Hk. replace (- (-1 - a)) with (1 + a) by lia. rewrite Z.pow_add_r by lia.
    by rewrite Z.div_mul_cancel_r by (try apply Z.pow_nonzero; lia). }
  rewrite E. assert (0 ≤ z / 2 < 2 ^ 53) by (split; [apply Z.div_pos|apply Z.div_lt_upper_bound]; lia).
  rewrite (proj2 (Z.leb_le MinInt64 (z / 2))), (proj2 (Z.leb_le (z / 2) MaxInt64))
    by (unfold MinInt64, MaxInt64; lia). done.
Qed.

(** Twice the multiplier. *)
Definition twice (c : Z) (x : f64) : Prop :=
  match x with
  | S754_finite false m e => Zpos m = c * 2 ^ (-1 - e) ∧ Z.log2 (Zpos m) = 52 ∧ -52 ≤ e ≤ -1
  | _ => False
  end.

Lemma twice_mul ef c x :
  0 < ef → 0 < c → ef * c < 2 ^ 53 → twice c x → int_of_f64 (SFmul 53 1024 (f64_of_Z ef) x) = ef * c / 2.
Proof.
  intros He Hc Hlt. destruct x as [| | |[] m e]; try done. intros (Hm & Hl & Hr).
  destruct (f64_mul_exact ef c m e (-1 - e)) as (k & a & -> & Hk & Ha); [lia..|].
  replace (e + (-1 - e) - a) with (-1 - a) by lia. apply int_of_f64_half; [nia|lia|done].
Qed.

(** The selectivity after the default. *)
Definition eff_sel (s : f64) : f64 :=
  if fle s (f64_of_Z 0) || fgt s (f64_of_Z 1) then f64_const 5 10 else s.

(** The index of the multiplier among the six. *)
Definition ef_class (s : f64) : Z :=
  if fge s (f64_const 8 10) then 3 else if fge s (f64_const 5 10) then 4
  else if fge s (f64_const 2 10) then 6 else if fge s (f64_const 1 10) then 10
  else if fge s (f64_const 5 100) then 14 else 20.

Lemma ef_class_range s : 3 ≤ ef_class s ≤ 20.
Proof. unfold ef_class. repeat destruct (fge s _); lia. Qed.

Lemma ef_multiplier_twice s : twice (ef_class s) (ef_multiplier s).
Proof.
  unfold ef_class, ef_multiplier.
  repeat destruct (fge s _); vm_compute; split_and!; congruence.
Qed.


Lemma adaptive_value ef s :
  1 ≤ ef ≤ 2 ^ 48 → calculateAdaptiveEf ef s = ef * ef_class (eff_sel s) / 2.
Proof.
  intros He. pose proof (ef_class_range (eff_sel s)).
  unfold calculateAdaptiveEf. fold (eff_sel s). cbv zeta.
  assert (ef * ef_class (eff_sel s) ≤ ef * 20) by nia.
  rewrite (twice_mul ef (ef_class (eff_sel s))); [|lia..|apply ef_multiplier_twice].
  rewrite Z.gtb_ltb, (proj2 (Z.ltb_ge _ _)); [done|].
  unfold i64. rewrite swrap_id by lia. apply Z.div_le_upper_bound; nia.
Qed.

Lemma adaptive_range ef s : 1 ≤ ef ≤ 2 ^ 48 → ef ≤ calculateAdaptiveEf ef s ≤ 10 * ef.
Proof.
  intros He. rewrite adaptive_value by done. pose proof (ef_class_range (eff_sel s)).
  split; [apply Z.div_le_lower_bound; nia|apply Z.div_le_upper_bound; nia].
Qed.



(** ** Filtered layers *)
Section filtered.
Context {payload : Type} {calc : Calculator} {sorter : Sorter}.
Implicit Types (h : HNSW payload) (n : Node payload).

Section layer.
Context h (dist : nat → result hnswError f32) (pass : Node payload → bool) (within : f32 → bool).
Context (stopEf searchEf ef layer : Z) (P : nat → Prop) (entry : nat).
Context (HP : closed h layer P) (Hentry : P entry) (Hdist : ∀ id, P id → ∃ d, dist id = Ok d).
Context (Hstop : 1 ≤ stopEf) (Hsearch : 1 ≤ searchEf) (Hef : 1 ≤ ef).

(** No distance is NaN. *)
Definition no_nan : Prop := ∀ id d, P id → dist id = Ok d → d ≠ S754_nan.

(** A node of the layer at its distance. *)
Definition at_dist (c : Candidate) : Prop := P (cID c) ∧ dist (cID c) = Ok (cDistance c).

(** A result: also live, and let through by the filter and, unless it is the
    entry point, by the radius test. *)
Definition fres_ok (c : Candidate) : Prop :=
  at_dist c ∧ (∃ n, h_nodes h !! cID c = Some n ∧ n_deleted n = false ∧ pass n = true) ∧
  (cID c = entry ∨ within (cDistance c) = true).

Record fst_ok (st : search_state) : Prop := {
  fo_visited : ∀ id, id ∈ ss_visited st → P id;
  fo_cands : Forall at_dist (ss_candidates st);
  fo_results : Forall fres_ok (ss_results st);
  fo_results_vis : ∀ c, c ∈ ss_results st → cID c ∈ ss_visited st;
  fo_results_nodup : NoDup (cID <$> ss_results st);
  fo_results_len : len (ss_results st) ≤ ef;
  fo_heap : no_nan → max_heap (ss_results st)
}.

Lemma improves_total results e d : 1 ≤ e → ∃ b, improves results e d = Ok b.
Proof.
  intros He. destruct results as [|r results]; [|by apply improves_Ok].
  unfold improves. rewrite (proj2 (Z.ltb_lt _ _)); [by eauto|]. unfold len. simpl. lia.
Qed.

Lemma should_stop_total results e d : 1 ≤ e → ∃ b, should_stop results e d = Ok b.
Proof.
  intros He. destruct results as [|r results]; [|by apply should_stop_Ok].
  unfold should_stop. rewrite (proj2 (Z.leb_gt _ _)); [by eauto|]. unfold len. simpl. lia.
Qed.

(** Popping until the bound holds is popping at most once. *)
Lemma pop_excess_push c results :
  len results ≤ ef →
  let r := heap_Push max_less c results in
  pop_excess ef (length r) r = Ok (push_bounded ef c results).
Proof.
  intros Hl. cbv zeta. rewrite length_Push. cbn [pop_excess]. unfold push_bounded.
  destruct (len _ >? ef) eqn:E; [|done].
  destruct (Pop_Some max_less (heap_Push max_less c results)) as (x & r & Hr).
  { intros E'. pose proof (length_Push max_less c results) as Hlen. by rewrite E' in Hlen. }
  rewrite Hr. pose proof (Permutation_length (Pop_perm _ _ _ _ Hr)) as Hlen.
  rewrite length_Push in Hlen. simpl in Hlen.
  assert (Hle : len r >? ef = false) by (rewrite Z.gtb_ltb; apply Z.ltb_ge; unfold len in *; lia).
  destruct (length results); cbn [pop_excess]; by rewrite Hle.
Qed.

Lemma fres_cmp rs : no_nan → Forall fres_ok rs → Forall cmp rs.
Proof.
  intros Hn HF. eapply Forall_impl; [exact HF|]. intros c ([Hp Hd] & _). by eapply Hn.
Qed.

(** Adding a result that was not visited before. *)
Lemma add_result_Ok st c visited cands :
  fst_ok st → fres_ok c → cID c ∉ ss_visited st → cID c ∈ visited → ss_visited st ⊆ visited →
  (∀ id, id ∈ visited → P id) → Forall at_dist cands →
  ∃ rs, add_result ef c (ss_results st) = Ok rs ∧ fst_ok (SearchState visited cands rs).
Proof.
  intros [F1 F2 F3 F4 F5 F6 F7] Hc Hnv Hin Hsub HV HC. unfold add_result.
  destruct (improves_total (ss_results st) ef (cDistance c) Hef) as [b ->]. cbn [mbind result_bind].
  destruct b.
  - exists (push_bounded ef c (ss_results st)). rewrite pop_excess_push by done. split; [done|].
    constructor; simpl; try done.
    + apply Forall_forall. rewrite Forall_forall in F3. intros x [->|Hx]%push_bounded_elem; auto.
    + intros x [->|Hx]%push_bounded_elem; auto.
    + apply push_bounded_nodup; [done|]. intros (x & E & Hx)%list_elem_of_fmap. apply Hnv.
      rewrite E. auto.
    + destruct (push_bounded_cases ef c (ss_results st)) as [[Hp ?]|(y & Hp & ?)];
        apply Permutation_length in Hp; unfold len in *; simpl in Hp; lia.
    + intros Hn. apply push_bounded_heap; [by apply fres_cmp| |auto].
      destruct Hc as ([Hp Hd] & _). by eapply Hn.
  - exists (ss_results st). split; [done|]. constructor; simpl; auto.
Qed.

Lemma filt_explore_Ok neighbors st :
  fst_ok st → Forall P neighbors →
  ∃ st', filt_explore h dist pass within searchEf ef neighbors st = Ok st' ∧ fst_ok st' ∧
    rounds h st' ≤ rounds h st.
Proof.
  intros Hst HF. revert st Hst. induction HF as [|id rest Hid HF IH]; intros st Hst; simpl.
  { exists st. split_and!; [done..|lia]. }
  case_decide as Hv; [by apply IH|].
  destruct (lookup_lt_is_Some_2 _ _ (cl_valid _ _ _ HP id Hid)) as [n Hn].
  rewrite (node_at_Some _ _ _ Hn). cbn [mbind result_bind].
  set (V := {[id]} ∪ ss_visited st).
  assert (Hsz : size V = S (size (ss_visited st))).
  { unfold V. rewrite size_union, size_singleton by set_solver. done. }
  assert (HV : ∀ j, j ∈ V → P j).
  { intros j [->%elem_of_singleton|Hj]%elem_of_union; [done|by apply Hst]. }
  assert (Hstep : ∀ cands rs, fst_ok (SearchState V cands rs) →
    (length cands ≤ S (length (ss_candidates st)))%nat →
    ∃ st', filt_explore h dist pass within searchEf ef rest (SearchState V cands rs) = Ok st' ∧
      fst_ok st' ∧ rounds h st' ≤ rounds h st).
  { intros cands rs Hok Hl. destruct (IH _ Hok) as (st' & E & Hok' & Hr).
    exists st'. split_and!; [done..|]. unfold rounds, len in *. cbn [ss_candidates ss_visited] in *. lia. }
  assert (Hkeep : ∀ cands, Forall at_dist cands → fst_ok (SearchState V cands (ss_results st))).
  { intros cands HC. destruct Hst as [F1 F2 F3 F4 F5 F6 F7]. constructor; simpl; try done. set_solver. }
  destruct (n_deleted n) eqn:Hd; [apply Hstep; [apply Hkeep, Hst|lia]|].
  destruct (Hdist id Hid) as [d Ed]. rewrite Ed. cbn [mbind result_bind].
  destruct (improves_total (ss_results st) searchEf d Hsearch) as [b ->]. cbn [mbind result_bind].
  set (cands := if b then _ else _).
  assert (HC : Forall at_dist cands ∧ (length cands ≤ S (length (ss_candidates st)))%nat).
  { unfold cands. destruct b; [|split; [apply Hst|lia]]. rewrite length_Push. split; [|lia].
    rewrite (Push_perm min_less). constructor; [done|apply Hst]. }
  destruct HC as [HC Hl].
  destruct (pass n) eqn:Hpass; simpl; [|by apply Hstep; auto].
  destruct (within d) eqn:Hw; simpl; [|by apply Hstep; auto].
  destruct (add_result_Ok st (mkCandidate id d) V cands) as (rs & -> & Hok);
    [done| |done|unfold V; set_solver..|done|done|].
  { split_and!; [done|by exists n|by right]. }
  by apply Hstep.
Qed.

Lemma filt_loop_Ok fuel st :
  fst_ok st → rounds h st < Z.of_nat fuel →
  ∃ rs, filt_loop h dist pass within stopEf searchEf ef layer fuel st = Ok rs ∧
    Forall fres_ok rs ∧ NoDup (cID <$> rs) ∧ len rs ≤ ef ∧ (no_nan → max_heap rs).
Proof.
  revert st. induction fuel as [|fuel IH]; intros st Hst Hr.
  { pose proof (visited_bound _ _ _ HP _ (fo_visited _ Hst)).
    pose proof (len_nonneg (ss_candidates st)). unfold rounds in Hr. lia. }
  cbn [filt_loop]. destruct (heap_Pop min_less (ss_candidates st)) as [[curr cands]|] eqn:E.
  2: { exists (ss_results st). split_and!; [done|apply Hst..]. }
  destruct (should_stop_total (ss_results st) stopEf (cDistance curr) Hstop) as [b ->].
  cbn [mbind result_bind]. destruct b.
  { exists (ss_results st). split_and!; [done|apply Hst..]. }
  pose proof (Pop_perm _ _ _ _ E) as Hp. destruct Hst as [F1 F2 F3 F4 F5 F6 F7].
  rewrite Hp in F2. inversion F2 as [|? ? [Hcurr _] F2']; subst.
  destruct (cl_edges _ _ _ HP (cID curr) Hcurr) as (conns & -> & Hconns).
  cbn [mbind result_bind].
  destruct (filt_explore_Ok conns (SearchState (ss_visited st) cands (ss_results st)))
    as (st' & -> & Hst' & Hr'); [by constructor|done|].
  cbn [mbind result_bind]. apply IH; [done|].
  apply Permutation_length in Hp. simpl in Hp. unfold rounds, len in *. simpl in *. lia.
Qed.

Lemma filt_layer_Ok :
  ∃ rs, filt_layer h dist pass within stopEf searchEf ef layer entry = Ok rs ∧
    Forall fres_ok rs ∧ NoDup (cID <$> rs) ∧ len rs ≤ ef ∧ (no_nan → ascending rs).
Proof.
  unfold filt_layer. destruct (Hdist entry Hentry) as [d Hd]. rewrite Hd. cbn [mbind result_bind].
  destruct (lookup_lt_is_Some_2 _ _ (cl_valid _ _ _ HP entry Hentry)) as [n Hn].
  rewrite (node_at_Some _ _ _ Hn). cbn [mbind result_bind]. rewrite !heap_Push_nil.
  set (rs0 := if _ && _ then _ else _). set (st := SearchState _ _ rs0).
  assert (Hst : fst_ok st).
  { unfold st, rs0. destruct (pass n) eqn:Hp, (n_deleted n) eqn:Hde; simpl;
      constructor; simpl; try done; try (by repeat constructor); try set_solver;
      try (unfold len; simpl; lia); try (intros _ k Hk; simpl in Hk; lia).
    - apply Forall_singleton. split_and!; [done..|by exists n|by left].
    - apply NoDup_singleton. }
  destruct (filt_loop_Ok (S (length (h_nodes h))) st Hst) as (rs & -> & H1 & H2 & H3 & H4).
  { unfold rounds, st. cbn [ss_candidates ss_visited]. rewrite size_singleton. unfold len. simpl. lia. }
  cbn [mbind result_bind]. exists (heap_drain max_less rs).
  pose proof (heap_drain_perm max_less rs) as Hp. split_and!; [done|by rewrite Hp..| |].
  - unfold len in *. by rewrite (Permutation_length Hp).
  - intros Hnn. apply drain_ascending; [by apply fres_cmp|by apply H4].
Qed.
End layer.

(** A filtered search of a well-formed graph terminates with accepted live points. *)
Lemma SearchWithFilter_found h q params :
  wf h → len q = h_dimension h → 0 ≤ sp_K params →
  1 ≤ Z.max (sp_K params) (sp_Ef params) ≤ 2 ^ 47 →
  ∃ rs, SearchWithFilter h q params = Ok rs ∧ len rs ≤ sp_K params ∧ NoDup (cID <$> rs) ∧
    Forall (λ c, ∃ n, h_nodes h !! cID c = Some n ∧ n_deleted n = false ∧
      passes (sp_Filter params) n = true ∧ cDistance c = Distance q (n_Vector n)) rs ∧
    ((∀ n, n ∈ h_nodes h → Distance q (n_Vector n) ≠ S754_nan) → ascending rs) ∧
    (h_quantizer h = None → ∃ cur, ∀ c, c ∈ rs → cID c = cur ∨
       in_radius (sp_Radius params) (cDistance c) = true).
Proof.
  intros Hwf Hq Hk Hef. unfold SearchWithFilter. rewrite Hq, Z.eqb_refl. simpl.
  destruct (Z.eqb_spec (h_maxLevel h) (-1)) as [Hm|Hm].
  { exists []. split_and!; [done|unfold len; simpl; lia|constructor|constructor|intros; constructor|].
    intros _. exists 0%nat. intros c Hc. by apply not_elem_of_nil in Hc. }
  set (ef := if _ <? _ then _ else _).
  assert (He : 1 ≤ ef ≤ 2 ^ 47) by (unfold ef; destruct (Z.ltb_spec (sp_Ef params) (sp_K params)); lia).
  destruct (descend_search h q Hwf Hm) as (cur & -> & Hcur & _). cbn [mbind result_bind].
  set (sef := match h_quantizer h with Some _ => _ | None => _ end).
  assert (Hs : 1 ≤ sef ≤ 2 ^ 48).
  { unfold sef, i64. destruct (h_quantizer h); [rewrite swrap_id by lia|]; lia. }
  unfold searchLayerWithFilter. set (sel := if fle _ _ then _ else _).
  pose proof (closed_layer h 0 Hwf ltac:(lia)) as Hcl.
  pose proof (adaptive_range sef sel Hs) as Ha.
  destruct (filt_layer_Ok h (query_dist h q) (passes (sp_Filter params)) (in_radius (sp_Radius params))
    sef (calculateAdaptiveEf sef sel) sef 0 (on_layer h 0) cur Hcl Hcur)
    as (rs & -> & HF & Hnd & _ & Hasc); [|lia..|].
  { intros id Hid. apply query_dist_Ok. by eapply on_layer_valid. }
  cbn [mbind result_bind]. destruct (finish_Ok h q (sp_K params) rs Hk) as (cs & -> & Hp & Hx & Hnone & Hsome).
  { eapply Forall_impl; [exact HF|]. intros c ([Hon _] & _). by eapply on_layer_valid. }
  { intros Hqz. eapply Forall_impl; [exact HF|]. intros c ([_ Hd] & _). by apply query_dist_exact. }
  assert (HFc : Forall (λ c, ∃ n, h_nodes h !! cID c = Some n ∧ n_deleted n = false ∧
      passes (sp_Filter params) n = true) cs).
  { apply (Forall_cID (λ i, ∃ n, h_nodes h !! i = Some n ∧ n_deleted n = false ∧
      passes (sp_Filter params) n = true) _ _ Hp). eapply Forall_impl; [exact HF|]. by intros c (_ & ? & _). }
  exists (take (Z.to_nat (sp_K params)) cs). split_and!; [done|..].
  - by apply len_take.
  - apply NoDup_take_cID. by rewrite Hp.
  - apply Forall_take, Forall_forall. rewrite Forall_forall in Hx, HFc. intros c Hc.
    destruct (HFc c Hc) as (n & Hn & Hd & Hf). exists n. split_and!; [done..|].
    rewrite (Hx c Hc). unfold vec. by rewrite Hn.
  - intros Hnan. apply ascending_take. destruct (h_quantizer h) eqn:Hqz.
    + apply Hsome; [done|]. apply Forall_forall. rewrite Forall_forall in Hx, HFc. intros c Hc.
      destruct (HFc c Hc) as (n & Hn & _). apply (exact_cmp h q); [done| |by apply Hx].
      by eapply lookup_lt_Some.
    + rewrite Hnone by done. apply Hasc. intros id d (n & Hn & _) Hd.
      apply query_dist_exact in Hd; [|done]. subst d. unfold vec. rewrite Hn. apply Hnan.
      by eapply list_elem_of_lookup_2.
  - intros Hqz. exists cur. rewrite Hnone by done. intros c Hc. rewrite Forall_forall in HF.
    destruct (HF c) as (_ & _ & Hr); [by eapply subseteq_take|done].
Qed.

(** C21. Filtered search is sound: on any well-formed index, for a query of the
    right dimension and a search width between 1 and [2^47], [SearchWithFilter]
    terminates without a panic and returns at most [K] different points, every
    one of them live, accepted by the filter and at its exact distance, also
    with a quantizer; in ascending order when no distance is NaN. Without a
    quantizer all but at most one of them (the node layer 0 is entered at) also
    pass the radius test. *)
Theorem filtered_search_sound h q params :
  wf h → len q = h_dimension h → 0 ≤ sp_K params →
  1 ≤ Z.max (sp_K params) (sp_Ef params) ≤ 2 ^ 47 →
  ∃ rs, SearchWithFilter h q params = Ok rs ∧ len rs ≤ sp_K params ∧ NoDup (cID <$> rs) ∧
    Forall (λ c, ∃ n, h_nodes h !! cID c = Some n ∧ n_deleted n = false ∧
      passes (sp_Filter params) n = true ∧ cDistance c = Distance q (n_Vector n)) rs ∧
    ((∀ n, n ∈ h_nodes h → Distance q (n_Vector n) ≠ S754_nan) → ascending rs) ∧
    (h_quantizer h = None → ∃ cur, ∀ c, c ∈ rs → cID c = cur ∨
       in_radius (sp_Radius params) (cDistance c) = true).
Proof. apply SearchWithFilter_found. Qed.

(** Discovery is sound: with a result width between 1 and [2^60]
    [DiscoverWithFilter] terminates without a panic and returns at most [K]
    different live points accepted by the filter, each at its context distance,
    in ascending order when no context distance is NaN. *)
Theorem discover_sound h params :
  wf h → 0 ≤ dp_K params → 1 ≤ Z.max (dp_K params) (dp_Ef params) ≤ 2 ^ 60 →
  let cost n := contextDistance (n_Vector n) (dp_Target params) (dp_Context params) in
  ∃ rs, DiscoverWithFilter h params = Ok rs ∧ len rs ≤ dp_K params ∧ NoDup (cID <$> rs) ∧
    Forall (λ c, ∃ n, h_nodes h !! cID c = Some n ∧ n_deleted n = false ∧
      passes (dp_Filter params) n = true ∧ cDistance c = cost n) rs ∧
    ((∀ n, n ∈ h_nodes h → cost n ≠ S754_nan) → ascending rs).
Proof.
  intros Hwf Hk Hef cost. unfold DiscoverWithFilter.
  destruct (Z.eqb_spec (h_maxLevel h) (-1)) as [Hm|Hm].
  { exists []. split_and!; [done|unfold len; simpl; lia|constructor|constructor|intros; constructor]. }
  set (ef := if _ <? _ then _ else _).
  assert (He : 1 ≤ ef ≤ 2 ^ 60) by (unfold ef; destruct (Z.ltb_spec (dp_Ef params) (dp_K params)); lia).
  assert (Hent : on_layer h 0 (h_entryPoint h)).
  { pose proof (wf_entry _ Hwf) as Hen. unfold entry_ok in Hen.
    destruct (h_nodes h) as [|n0 ns] eqn:En; [done|]. destruct Hen as [Hm0 (n & Hn & Hl)].
    exists n. split; [done|lia]. }
  unfold discoverLayer0. assert (Hs : i64 (ef * 3) = ef * 3) by (apply swrap_id; lia). rewrite Hs.
  assert (Hcost : ∀ id n, h_nodes h !! id = Some n →
    (v ← getVector h id; Ok (contextDistance v (dp_Target params) (dp_Context params))) = Ok (E:=hnswError) (cost n)).
  { intros id n Hn. unfold getVector. by rewrite (node_at_Some _ _ _ Hn). }
  destruct (filt_layer_Ok h
    (λ id, v ← getVector h id; Ok (contextDistance v (dp_Target params) (dp_Context params)))
    (passes (dp_Filter params)) (λ _, true) (ef * 3) (ef * 3) ef 0 (on_layer h 0) (h_entryPoint h)
    (closed_layer h 0 Hwf ltac:(lia)) Hent) as (rs & -> & HF & Hnd & _ & Hasc); [|lia..|].
  { intros id (n & Hn & _). exists (cost n). by apply Hcost. }
  cbn [mbind result_bind]. rewrite top_k_Ok by done. eexists. split; [done|]. split_and!.
  - by apply len_take.
  - by apply NoDup_take_cID.
  - apply Forall_take. eapply Forall_impl; [exact HF|].
    intros c ([_ Hd] & (n & Hn & Hde & Hp) & _). exists n. rewrite (Hcost _ _ Hn) in Hd.
    injection Hd as Hd. done.
  - intros Hnan. apply ascending_take, Hasc. intros id d (n & Hn & _) Hd.
    rewrite (Hcost _ _ Hn) in Hd. injection Hd as <-. apply Hnan. by eapply list_elem_of_lookup_2.
Qed.

End filtered.

(** ** Witnesses *)
#[local] Instance demo_filter_calc : Calculator := EuclideanDistanceSIMD.

Definition demo_filter (k ef radius : Z) : SearchParams unit :=
  mkSearchParams k ef (f32_of_Z radius) (Some (λ id _, String.eqb id "a")) (f64_of_Z 0).

Lemma filtered_search_sound_witness :
  ∃ rs, SearchWithFilter demo_two [f32_of_Z 2] (demo_filter 1 10 3) = Ok rs ∧ len rs ≤ 1.
Proof.
  destruct (filtered_search_sound demo_two [f32_of_Z 2] (demo_filter 1 10 3) demo_two_wf)
    as (rs & E & Hl & _); [reflexivity|simpl; lia|simpl; lia|].
  exists rs. split; [exact E|exact Hl].
Defined.

Definition demo_discover : DiscoverParams unit :=
  mkDiscoverParams [f32_of_Z 2] [mkContextPair [f32_of_Z 1] [f32_of_Z 9]] 1 5 None.

Lemma discover_sound_witness :
  ∃ rs, DiscoverWithFilter demo_two demo_discover = Ok rs ∧ len rs ≤ 1.
Proof.
  destruct (discover_sound demo_two demo_discover demo_two_wf) as (rs & E & Hl & _);
    [simpl; lia|simpl; lia|].
  exists rs. split; [exact E|exact Hl].
Defined.

(** The radius is not applied to the node layer 0 is entered at: there is a
    well-formed index and a filtered search with a positive radius that returns
    a point farther away than the radius. *)
Theorem filtered_entry_outside_radius :
  ∃ (h : HNSW unit) q params c, wf h ∧ fgt (sp_Radius params) f32_zero = true ∧
    SearchWithFilter h q params = Ok [c] ∧ fgt (cDistance c) (sp_Radius params) = true.
Proof.
  exists demo_two, [f32_of_Z 9], (demo_filter 1 10 2). eexists.
  split; [exact demo_two_wf|]. split; [reflexivity|]. split; [vm_compute; reflexivity|reflexivity].
Qed.
