(* ===== verification/Visited.v ===== *)
(** * internal/pool and pkg/index/hnsw: visited sets

    [VisitedList] of [internal/pool/pool.go], which every HNSW search uses to
    remember the nodes it has seen: an array of generation stamps that is cleared
    by advancing the generation. It refines a finite set, across any number of
    resets, the wrap-around of the 32-bit generation included; this is why the
    search model may keep a set. [VisitedSet] and [BitSet] of [node.go] follow. *)
From stdpp Require Import base gmap list numbers sets.
From Stdlib Require Import ZArith Lia.
From S2P Require Import Prelude.

#[local] Open Scope Z_scope.

(** A visited tracker: [ok] its invariant, [elems] the set it stands for. *)
Class Tracker (V : Type) := {
  t_add : nat → V → result Empty_set (bool * V);
  t_contains : nat → V → result Empty_set bool;
  t_reset : V → V;
  t_ok : V → Prop;
  t_in : V → nat → Prop;
  t_add_ok v id : Z.of_nat id ≤ MaxUint32 → t_ok v → ∃ b v', t_add id v = Ok (b, v') ∧ t_ok v' ∧
    (b = true ↔ t_in v id) ∧ ∀ j, t_in v' j ↔ j = id ∨ t_in v j;
  t_contains_ok v id : t_ok v → ∃ b, t_contains id v = Ok b ∧ (b = true ↔ t_in v id);
  t_reset_ok v : t_ok v → t_ok (t_reset v) ∧ ∀ j, ¬ t_in (t_reset v) j
}.

(** ** VisitedList *)
Module VisitedList.

Record VisitedList := mk { matches : list Z; match_ : Z }.

Definition NewVisitedList (size : Z) : result Empty_set VisitedList :=
  if size <? 0 then Panic else Ok (mk (replicate (Z.to_nat size) 0) 0).

(** The growth of [Add]: a new array of [newCap] zeros, the old one copied over. *)
Definition grow (id : nat) (ms : list Z) : list Z :=
  let newCap := i64 (i64 (Z.of_nat id * 2) + 100) in
  ms ++ replicate (Z.to_nat newCap - length ms) 0.

Definition Add (id : nat) (vl : VisitedList) : result Empty_set (bool * VisitedList) :=
  let ms := if len (matches vl) <=? Z.of_nat id then grow id (matches vl) else matches vl in
  m ← index ms (Z.of_nat id);
  if m =? match_ vl then Ok (true, mk ms (match_ vl))
  else Ok (false, mk (<[id := match_ vl]> ms) (match_ vl)).

Definition Contains (id : nat) (vl : VisitedList) : result Empty_set bool :=
  if len (matches vl) <=? Z.of_nat id then Ok false
  else m ← index (matches vl) (Z.of_nat id); Ok (m =? match_ vl).

Definition Reset (vl : VisitedList) : VisitedList :=
  let m := u32 (match_ vl + 1) in
  if m =? 0 then mk ((λ _, 0) <$> matches vl) 1 else mk (matches vl) m.

(** ** The pool

    [sync.Pool] hands out some list that was put back, or a new one; [Get]
    resets it. *)
Definition pool_Get (from_pool : option VisitedList) (initialSize : Z) : result Empty_set VisitedList :=
  vl ← match from_pool with Some vl => Ok vl | None => NewVisitedList initialSize end;
  Ok (Reset vl).

(** Every stamp is of this generation or an earlier one. *)
Definition stamped (vl : VisitedList) : Prop :=
  0 ≤ match_ vl ≤ MaxUint32 ∧ Forall (λ m, 0 ≤ m ≤ match_ vl) (matches vl).
(** In use: at least one reset has happened. *)
Definition ok (vl : VisitedList) : Prop := stamped vl ∧ 1 ≤ match_ vl.
Definition visited (vl : VisitedList) (id : nat) : Prop := matches vl !! id = Some (match_ vl).

Lemma index_lookup {E} (ms : list Z) id m :
  ms !! id = Some m → index (E := E) ms (Z.of_nat id) = Ok m.
Proof.
  intros H. unfold index. rewrite (proj2 (Z.leb_le 0 (Z.of_nat id))) by lia.
  rewrite Nat2Z.id, H. done.
Qed.

Lemma grow_length id ms : Z.of_nat id ≤ MaxUint32 → (length ms ≤ id)%nat →
  (id < length (grow id ms))%nat.
Proof.
  intros Hid Hl. unfold grow. rewrite length_app, length_replicate.
  assert (E : i64 (i64 (Z.of_nat id * 2) + 100) = Z.of_nat id * 2 + 100).
  { unfold MaxUint32 in Hid. unfold i64. rewrite (swrap_id _ (_ * 2)), swrap_id; lia. }
  rewrite E. lia.
Qed.

Lemma grow_visited id vl j : ok vl →
  grow id (matches vl) !! j = Some (match_ vl) ↔ visited vl j.
Proof.
  intros [_ Hm]. unfold grow, visited. rewrite lookup_app.
  destruct (matches vl !! j) as [m|]; [done|]. split; [|done].
  intros [H _]%lookup_replicate. lia.
Qed.

Lemma grow_stamped id vl : stamped vl → stamped (mk (grow id (matches vl)) (match_ vl)).
Proof.
  intros [Hm HF]. split; [done|]. simpl. apply Forall_app. split; [done|].
  apply Forall_replicate. lia.
Qed.

Lemma Add_Ok vl id : Z.of_nat id ≤ MaxUint32 → ok vl → ∃ b vl', Add id vl = Ok (b, vl') ∧ ok vl' ∧
  (b = true ↔ visited vl id) ∧ ∀ j, visited vl' j ↔ j = id ∨ visited vl j.
Proof.
  intros Hid Hok. unfold Add. set (ms := if _ <=? _ then _ else _).
  assert (Hms : (id < length ms)%nat ∧ stamped (mk ms (match_ vl)) ∧
    ∀ j, ms !! j = Some (match_ vl) ↔ visited vl j).
  { unfold ms, len. destruct (Z.leb_spec (Z.of_nat (length (matches vl))) (Z.of_nat id)).
    - split_and!; [apply grow_length; [done|lia]|apply grow_stamped, Hok|]. intros j. by apply grow_visited.
    - split_and!; [lia|destruct vl; apply Hok|done]. }
  clearbody ms. destruct Hms as (Hlt & Hst & Hvis). destruct Hok as [_ Hm1].
  destruct (lookup_lt_is_Some_2 _ _ Hlt) as [m Hm]. rewrite (index_lookup _ _ _ Hm). cbn [mbind result_bind].
  destruct (Z.eqb_spec m (match_ vl)) as [->|Hne].
  - eexists _, _. split; [done|]. split; [by split|]. split.
    + split; [|done]. intros _. by apply Hvis.
    + intros j. unfold visited at 1. simpl. rewrite Hvis. split; [by right|].
      intros [->|]; [by apply Hvis|done].
  - eexists _, _. split; [done|]. split; [split; [|done]|split].
    + split; [apply Hst|]. simpl. apply Forall_insert; [apply Hst|]. destruct Hst as [[??] _]. simpl in *. lia.
    + split; [done|]. intros Hv%Hvis. congruence.
    + intros j. unfold visited at 1. simpl. destruct (decide (j = id)) as [->|Hj].
      * rewrite list_lookup_insert_eq by done. split; [by left|done].
      * rewrite list_lookup_insert_ne by done. rewrite Hvis. tauto.
Qed.

Lemma Contains_Ok vl id : ∃ b, Contains id vl = Ok b ∧ (b = true ↔ visited vl id).
Proof.
  unfold Contains, len, visited. destruct (Z.leb_spec (Z.of_nat (length (matches vl))) (Z.of_nat id)).
  - exists false. split; [done|]. rewrite lookup_ge_None_2 by lia. done.
  - destruct (lookup_lt_is_Some_2 (matches vl) id) as [m Hm]; [lia|].
    rewrite (index_lookup _ _ _ Hm), Hm. eexists. split; [done|]. rewrite Z.eqb_eq. naive_solver.
Qed.

Lemma Reset_Ok vl : stamped vl → ok (Reset vl) ∧ ∀ j, ¬ visited (Reset vl) j.
Proof.
  intros [Hm HF]. unfold Reset.
  destruct (decide (match_ vl = MaxUint32)) as [E|Hne].
  - rewrite E. simpl. split; [split; [split|]; simpl; [unfold MaxUint32; lia| |lia]|].
    + apply Forall_fmap, Forall_forall. intros; simpl; lia.
    + intros j. unfold visited. simpl. rewrite list_lookup_fmap. by destruct (matches vl !! j).
  - assert (Eu : u32 (match_ vl + 1) = match_ vl + 1).
    { unfold u32, MaxUint32 in *. apply Z.mod_small. lia. }
    rewrite Eu, (proj2 (Z.eqb_neq _ _)) by lia. split; [split; [split|]; simpl; [unfold MaxUint32 in *; lia| |lia]|].
    + eapply Forall_impl; [exact HF|]. simpl. lia.
    + intros j Hj. unfold visited in Hj. simpl in Hj. rewrite Forall_lookup in HF. specialize (HF j _ Hj). simpl in HF. lia.
Qed.

#[global, refine] Instance tracker : Tracker VisitedList := {|
  t_add := Add; t_contains := Contains; t_reset := Reset; t_ok := ok; t_in := visited;
  t_add_ok := Add_Ok
|}.
Proof.
  - intros vl id _. apply Contains_Ok.
  - intros vl [Hst _]. by apply Reset_Ok.
Defined.

Lemma New_stamped size vl : NewVisitedList size = Ok vl → stamped vl.
Proof.
  unfold NewVisitedList. destruct (size <? 0); [done|]. intros [= <-].
  split; simpl; [unfold MaxUint32; lia|]. apply Forall_replicate. lia.
Qed.
End VisitedList.

(** ** Histories of a tracker against a set *)
Section history.
Context {V : Type} `{T : !Tracker V}.

Inductive vop := VAdd (id : nat) | VContains (id : nat) | VReset.
Definition vop_ok (o : vop) : Prop := match o with VAdd id => Z.of_nat id ≤ MaxUint32 | _ => True end.
#[export] Instance vop_ok_dec o : Decision (vop_ok o).
Proof. destruct o; simpl; apply _. Defined.

Definition vstep (o : vop) (v : V) : result Empty_set (option bool * V) :=
  match o with
  | VAdd id => r ← t_add id v; Ok (Some r.1, r.2)
  | VContains id => b ← t_contains id v; Ok (Some b, v)
  | VReset => Ok (None, t_reset v)
  end.
Fixpoint vrun (os : list vop) (v : V) : result Empty_set (list (option bool) * V) :=
  match os with
  | [] => Ok ([], v)
  | o :: os => r ← vstep o v; rs ← vrun os r.2; Ok (r.1 :: rs.1, rs.2)
  end.

(** The same history on a set. *)
Definition sstep (o : vop) (s : gset nat) : option bool * gset nat :=
  match o with
  | VAdd id => (Some (bool_decide (id ∈ s)), {[id]} ∪ s)
  | VContains id => (Some (bool_decide (id ∈ s)), s)
  | VReset => (None, ∅)
  end.
Fixpoint srun (os : list vop) (s : gset nat) : list (option bool) :=
  match os with
  | [] => []
  | o :: os => let '(r, s) := sstep o s in r :: srun os s
  end.

Lemma vrun_refines os v s :
  t_ok v → (∀ j, t_in v j ↔ j ∈ s) → Forall vop_ok os →
  ∃ v', vrun os v = Ok (srun os s, v') ∧ t_ok v'.
Proof.
  intros Hok Hs HF. revert v s Hok Hs. induction HF as [|o os Ho HF IH]; intros v s Hok Hs; [by exists v|].
  cbn [vrun srun]. destruct o as [id|id|]; simpl in *.
  - destruct (t_add_ok v id Ho Hok) as (b & v' & -> & Hok' & Hb & Hin). cbn [mbind result_bind fst snd].
    destruct (IH v' ({[id]} ∪ s) Hok') as (v'' & -> & Hok''); [intros j; rewrite Hin, Hs; set_solver|].
    exists v''. split; [|done]. cbn [mbind result_bind fst snd]. do 4 f_equal.
    destruct b; symmetry; [apply bool_decide_eq_true|apply bool_decide_eq_false]; rewrite <- Hs; naive_solver.
  - destruct (t_contains_ok v id Hok) as (b & -> & Hb). cbn [mbind result_bind fst snd].
    destruct (IH v s Hok Hs) as (v'' & -> & Hok''). exists v''. split; [|done].
    cbn [mbind result_bind fst snd]. do 4 f_equal.
    destruct b; symmetry; [apply bool_decide_eq_true|apply bool_decide_eq_false]; rewrite <- Hs; naive_solver.
  - destruct (t_reset_ok v Hok) as [Hok' Hno].
    destruct (IH (t_reset v) ∅ Hok') as (v'' & -> & Hok''); [set_solver|]. by exists v''.
Qed.
End history.

(** C23. A visited list is a set: take a list from the pool, new or left over by
    any earlier search (any generation, also the last one before the 32-bit
    counter wraps), and every history of [Add], [Contains] and [Reset] answers,
    call by call, what a set starting empty answers, without a panic; the list
    that goes back to the pool is again one the pool may hand out. *)
Theorem visited_list_refines_set from_pool initialSize vl os :
  (∀ old, from_pool = Some old → VisitedList.stamped old) →
  VisitedList.pool_Get from_pool initialSize = Ok vl → Forall vop_ok os →
  ∃ vl', vrun os vl = Ok (srun os ∅, vl') ∧ VisitedList.stamped vl'.
Proof.
  intros Hold Hget HF.
  assert (Hvl : ∃ v0, VisitedList.stamped v0 ∧ vl = VisitedList.Reset v0).
  { unfold VisitedList.pool_Get in Hget. destruct from_pool as [old|].
    - injection Hget as <-. exists old. auto.
    - destruct (VisitedList.NewVisitedList initialSize) as [v0|?|] eqn:E; try done.
      injection Hget as <-. exists v0. split; [by eapply VisitedList.New_stamped|done]. }
  destruct Hvl as (v0 & Hst & ->). destruct (VisitedList.Reset_Ok v0 Hst) as [Hok Hno].
  destruct (vrun_refines (T := VisitedList.tracker) os (VisitedList.Reset v0) ∅ Hok) as (v' & E & Hok'); [set_solver|done|].
  exists v'. split; [done|]. apply Hok'.
Qed.

Lemma visited_list_refines_set_witness :
  ∃ vl', vrun [VAdd 3; VAdd 3; VContains 7; VReset; VContains 3]
    (VisitedList.mk [0; 0; 0; 0] 1) = Ok ([Some false; Some true; Some false; None; Some false], vl').
Proof.
  destruct (visited_list_refines_set (Some (VisitedList.mk [0; MaxUint32; 5; 0] MaxUint32)) 4
    (VisitedList.mk [0; 0; 0; 0] 1) [VAdd 3; VAdd 3; VContains 7; VReset; VContains 3])
    as (vl' & E & _).
  - intros old [= <-]. split; simpl; [unfold MaxUint32; lia|]. repeat constructor; unfold MaxUint32; lia.
  - vm_compute. reflexivity.
  - apply (bool_decide_unpack _). vm_compute. exact I.
  - exists vl'. rewrite E. vm_compute. reflexivity.
Defined.

(** ** VisitedSet *)
Module VisitedSet.
Record VisitedSet := mk { visited : gset nat }.
Definition NewVisitedSet : VisitedSet := mk ∅.
Definition Add (id : nat) (v : VisitedSet) : result Empty_set (bool * VisitedSet) :=
  if decide (id ∈ visited v) then Ok (true, v) else Ok (false, mk ({[id]} ∪ visited v)).
Definition Contains (id : nat) (v : VisitedSet) : result Empty_set bool :=
  Ok (bool_decide (id ∈ visited v)).
Definition Reset (v : VisitedSet) : VisitedSet := mk ∅.
Definition Size (v : VisitedSet) : Z := Z.of_nat (size (visited v)).

#[global, refine] Instance set_tracker : Tracker VisitedSet := {|
  t_add := Add; t_contains := Contains; t_reset := Reset;
  t_ok := λ _, True; t_in := λ v id, id ∈ visited v
|}.
Proof.
  - intros v id _ _. unfold Add. destruct (decide (id ∈ visited v)) as [Hin|Hin].
    + exists true, v. split; [done|]. split; [done|]. split; [done|]. set_solver.
    + eexists false, _. split; [done|]. split; [done|]. split; [done|]. set_solver.
  - intros v id _. eexists. split; [done|]. apply bool_decide_eq_true.
  - intros v _. split; [done|]. set_solver.
Defined.
End VisitedSet.

(** ** BitSet *)
Module BitSet.
Record BitSet := mk { bits : list Z; size : Z }.

Definition NewBitSet (size : Z) : result Empty_set BitSet :=
  let numWords := Z.quot (i64 (size + 63)) 64 in
  if numWords <? 0 then Panic else Ok (mk (replicate (Z.to_nat numWords) 0) size).

Definition in_range (i : Z) (b : BitSet) : bool := negb ((i <? 0) || (size b <=? i)).

Definition Set_ (i : Z) (b : BitSet) : result Empty_set BitSet :=
  if negb (in_range i b) then Ok b else
  w ← index (bits b) (Z.quot i 64);
  Ok (mk (<[Z.to_nat (Z.quot i 64) := Z.lor w (u64 (Z.shiftl 1 (Z.rem i 64)))]> (bits b)) (size b)).

Definition Test_ (i : Z) (b : BitSet) : result Empty_set bool :=
  if negb (in_range i b) then Ok false else
  w ← index (bits b) (Z.quot i 64);
  Ok (negb (Z.land w (u64 (Z.shiftl 1 (Z.rem i 64))) =? 0)).

Definition Clear (b : BitSet) : BitSet := mk ((λ _, 0) <$> bits b) (size b).

(** Room for every index. *)
Definition ok (b : BitSet) : Prop := size b ≤ 64 * len (bits b).
Definition bit (i : Z) (b : BitSet) : bool :=
  match bits b !! Z.to_nat (i / 64) with Some w => Z.testbit w (i mod 64) | None => false end.

Lemma New_ok n b : 0 ≤ n ≤ MaxInt64 - 63 → NewBitSet n = Ok b → ok b ∧ size b = n ∧ ∀ i, bit i b = false.
Proof.
  intros Hn. unfold NewBitSet, i64, MaxInt64 in *. rewrite swrap_id by lia.
  destruct (_ <? 0) eqn:E; [done|]. intros [= <-]. unfold ok, len. simpl. rewrite length_replicate.
  rewrite Z.quot_div_nonneg by lia.
  pose proof (Z.div_mod (n + 63) 64 ltac:(lia)). pose proof (Z.mod_pos_bound (n + 63) 64 ltac:(lia)).
  split; [rewrite Z2Nat.id by lia; lia|]. split; [done|]. intros i. unfold bit. simpl.
  destruct (replicate _ 0 !! _) eqn:El; [|done]. apply lookup_replicate in El as [-> _]. apply Z.bits_0.
Qed.

Lemma in_range_spec i b : in_range i b = true ↔ 0 ≤ i < size b.
Proof. unfold in_range. destruct (Z.ltb_spec i 0), (Z.leb_spec (size b) i); simpl; split; try done; lia. Qed.

Lemma mask i : 0 ≤ i → u64 (Z.shiftl 1 (Z.rem i 64)) = 2 ^ (i mod 64) ∧ Z.quot i 64 = i / 64.
Proof.
  intros Hi. rewrite Z.rem_mod_nonneg, Z.quot_div_nonneg by lia. split; [|done].
  pose proof (Z.mod_pos_bound i 64 ltac:(lia)).
  rewrite Z.shiftl_1_l. unfold u64. apply Z.mod_small. split; [lia|].
  apply Z.pow_lt_mono_r; lia.
Qed.

Lemma word_at i b : ok b → 0 ≤ i < size b →
  ∃ w, bits b !! Z.to_nat (i / 64) = Some w ∧ index (E := Empty_set) (bits b) (i / 64) = Ok w.
Proof.
  intros Hok Hi. unfold ok, len in Hok.
  destruct (lookup_lt_is_Some_2 (bits b) (Z.to_nat (i / 64))) as [w Hw].
  { assert (i / 64 < Z.of_nat (length (bits b))) by (apply Z.div_lt_upper_bound; lia). lia. }
  pose proof (Z.div_pos i 64).
  exists w. split; [done|]. unfold index. rewrite (proj2 (Z.leb_le 0 (i / 64))) by lia. by rewrite Hw.
Qed.

Lemma Test_Ok i b : ok b → Test_ i b = Ok (in_range i b && bit i b).
Proof.
  intros Hok. unfold Test_. destruct (in_range i b) eqn:Hr; [|done]. simpl.
  apply in_range_spec in Hr. destruct (mask i) as [-> ->]; [lia|].
  destruct (word_at i b Hok Hr) as (w & Hw & ->). cbn [mbind result_bind]. unfold bit. rewrite Hw. f_equal.
  pose proof (Z.mod_pos_bound i 64 ltac:(lia)).
  destruct (Z.testbit w (i mod 64)) eqn:Ht.
  - apply negb_true_iff, Z.eqb_neq. intros E.
    assert (Z.testbit (Z.land w (2 ^ (i mod 64))) (i mod 64) = true).
    { by rewrite Z.land_spec, Ht, Z.pow2_bits_true by lia. }
    rewrite E, Z.bits_0 in *. done.
  - apply negb_false_iff, Z.eqb_eq. apply Z.bits_inj'. intros k Hk. rewrite Z.land_spec, Z.bits_0.
    destruct (decide (k = i mod 64)) as [->|Hne]; [by rewrite Ht|].
    rewrite Z.pow2_bits_false by lia. apply andb_false_r.
Qed.

(** Setting a bit changes that bit and no other. *)
Lemma Set_Ok i b : ok b → ∃ b', Set_ i b = Ok b' ∧ ok b' ∧ size b' = size b ∧
  ∀ j, 0 ≤ j → in_range j b && bit j b' = in_range j b && (bit j b || (j =? i)).
Proof.
  intros Hok. unfold Set_. destruct (in_range i b) eqn:Hr; simpl.
  2: { exists b. split; [done|]. split; [done|]. split; [done|]. intros j Hj.
       destruct (Z.eqb_spec j i) as [->|]; [by rewrite Hr|]. by rewrite orb_false_r. }
  apply in_range_spec in Hr. destruct (mask i) as [-> ->]; [lia|].
  destruct (word_at i b Hok Hr) as (w & Hw & ->). cbn [mbind result_bind].
  eexists. split; [done|]. unfold ok, len in *. simpl. rewrite length_insert. split; [done|]. split; [done|].
  intros j Hj. f_equal. unfold bit. simpl.
  destruct (decide (Z.to_nat (j / 64) = Z.to_nat (i / 64))) as [E|E].
  - rewrite E, Hw, list_lookup_insert_eq by (by eapply lookup_lt_Some).
    pose proof (Z.mod_pos_bound i 64 ltac:(lia)). pose proof (Z.div_pos i 64). pose proof (Z.div_pos j 64).
    pose proof (Z.div_mod i 64 ltac:(lia)). pose proof (Z.div_mod j 64 ltac:(lia)).
    rewrite Z.lor_spec, Z.pow2_bits_eqb by lia. f_equal.
    destruct (Z.eqb_spec (i mod 64) (j mod 64)), (Z.eqb_spec j i); try done; [lia|congruence].
  - rewrite list_lookup_insert_ne by done. destruct (Z.eqb_spec j i) as [->|]; [done|]. by rewrite orb_false_r.
Qed.
End BitSet.
