(* ===== verification/Cache.v ===== *)
(** * pkg/cache/cache.go: the LRU query cache

    [Cache] keeps a doubly linked list of entries in order of use and a map from
    keys to list elements. The elements are modelled with their identity: the
    map holds element numbers, and an operation on an element looks it up in the
    list. The structure refines a list of entries without the map. *)
From stdpp Require Import base gmap strings list fin_maps numbers sorting.
From Stdlib Require Import ZArith Lia Floats.SpecFloat.
From S2P Require Import Prelude Float32.

#[local] Open Scope Z_scope.

Lemma filter_id {A} (P : A → Prop) `{∀ x, Decision (P x)} (l : list A) :
  (∀ x, x ∈ l → P x) → filter P l = l.
Proof.
  induction l as [|x l IH]; intros H'; [done|]. rewrite filter_cons_True by (apply H'; left).
  f_equal. apply IH. intros y Hy. apply H'. by right.
Qed.

Section cache.
Context {value : Type}.

Record CacheEntry := mkEntry { e_Key : string; e_Value : value; e_ExpiresAt : Z }.

(** [order] lists the elements, the most recently used first; [next] is the
    number the next new element gets. *)
Record Cache := mkCache {
  capacity : Z;
  ttl : Z;
  items : gmap string nat;
  order : list (nat * CacheEntry);
  hits : Z;
  misses : Z;
  next : nat
}.

Definition NewCache (cap t : Z) : Cache := mkCache cap t ∅ [] 0 0 0.

(** ** container/list: find, remove and move an element *)
Fixpoint find_elem (p : nat) (l : list (nat * CacheEntry)) : option CacheEntry :=
  match l with
  | [] => None
  | (q, e) :: l => if decide (q = p) then Some e else find_elem p l
  end.
Definition remove_elem (p : nat) (l : list (nat * CacheEntry)) : list (nat * CacheEntry) :=
  filter (λ x, x.1 ≠ p) l.
Definition MoveToFront (p : nat) (l : list (nat * CacheEntry)) : list (nat * CacheEntry) :=
  match find_elem p l with Some e => (p, e) :: remove_elem p l | None => l end.

Definition with_items (i : gmap string nat) (o : list (nat * CacheEntry)) (c : Cache) : Cache :=
  mkCache (capacity c) (ttl c) i o (hits c) (misses c) (next c).
Definition miss (c : Cache) : Cache :=
  mkCache (capacity c) (ttl c) (items c) (order c) (hits c) (i64 (misses c + 1)) (next c).
Definition hit (c : Cache) : Cache :=
  mkCache (capacity c) (ttl c) (items c) (order c) (i64 (hits c + 1)) (misses c) (next c).

Definition removeElement (p : nat) (c : Cache) : Cache :=
  match find_elem p (order c) with
  | Some e => with_items (delete (e_Key e) (items c)) (remove_elem p (order c)) c
  | None => c
  end.

Definition removeOldest (c : Cache) : Cache :=
  match list.last (order c) with Some (p, _) => removeElement p c | None => c end.

Definition Get (now : Z) (key : string) (c : Cache) : option value * Cache :=
  match items c !! key with
  | Some p =>
      match find_elem p (order c) with
      | None => (None, miss c)
      | Some e =>
          if now <? e_ExpiresAt e
          then (Some (e_Value e), hit (with_items (items c) (MoveToFront p (order c)) c))
          else (None, miss (removeElement p c))
      end
  | None => (None, miss c)
  end.

(** The eviction loop; [None] when it has not ended within the fuel. *)
Fixpoint evict (fuel : nat) (c : Cache) : option Cache :=
  if capacity c <=? len (order c) then
    match fuel with O => None | S fuel => evict fuel (removeOldest c) end
  else Some c.

(** The assignments to the fields of an entry, through its element. *)
Definition update_elem (p : nat) (v : value) (exp : Z) (l : list (nat * CacheEntry)) :
    list (nat * CacheEntry) :=
  (λ x, if decide (x.1 = p) then (p, mkEntry (e_Key x.2) v exp) else x) <$> l.

Definition Set_ (fuel : nat) (now : Z) (key : string) (v : value) (c : Cache) : option Cache :=
  match items c !! key with
  | Some p => Some (with_items (items c) (update_elem p v (now + ttl c) (MoveToFront p (order c))) c)
  | None =>
      c ← evict fuel c;
      Some (mkCache (capacity c) (ttl c) (<[key := next c]> (items c))
        ((next c, mkEntry key v (now + ttl c)) :: order c) (hits c) (misses c) (S (next c)))
  end.

Definition Delete (key : string) (c : Cache) : Cache :=
  match items c !! key with Some p => removeElement p c | None => c end.

Definition Clear (c : Cache) : Cache := with_items ∅ [] c.

Record CacheStats := mkCacheStats { cs_Size : Z; cs_Hits : Z; cs_Misses : Z; cs_HitRate : f64 }.
Definition hit_rate (h m : Z) : f64 :=
  let total := i64 (h + m) in
  if total >? 0 then SFdiv 53 1024 (f64_of_Z h) (f64_of_Z total) else f64_of_Z 0.
Definition Stats (c : Cache) : CacheStats :=
  mkCacheStats (len (order c)) (hits c) (misses c) (hit_rate (hits c) (misses c)).

(** ** The invariant: the map holds exactly the elements of the list *)
Record cache_ok (c : Cache) : Prop := {
  co_ids : NoDup (order c).*1;
  co_keys : NoDup (e_Key ∘ snd <$> order c);
  co_fresh : ∀ p e, (p, e) ∈ order c → (p < next c)%nat;
  co_items : ∀ key p, items c !! key = Some p ↔ ∃ e, (p, e) ∈ order c ∧ e_Key e = key
}.

Lemma find_elem_Some p e l : NoDup l.*1 → (p, e) ∈ l → find_elem p l = Some e.
Proof.
  induction l as [|[q f] l IH]; intros Hnd Hin; [by apply not_elem_of_nil in Hin|].
  inversion Hnd as [|? ? Hq Hnd']; subst. simpl. apply elem_of_cons in Hin as [Hin|Hin].
  - injection Hin as -> ->. by rewrite decide_True.
  - rewrite decide_False; [by apply IH|]. intros ->. apply Hq. change p with (p, e).1.
    by apply list_elem_of_fmap_2.
Qed.

Lemma remove_elem_elem p x l : x ∈ remove_elem p l ↔ x.1 ≠ p ∧ x ∈ l.
Proof. unfold remove_elem. by rewrite list_elem_of_filter. Qed.

Lemma remove_elem_sublist p l : remove_elem p l `sublist_of` l.
Proof. apply sublist_filter. Qed.

Lemma cache_ok_remove c p e :
  cache_ok c → (p, e) ∈ order c →
  cache_ok (with_items (delete (e_Key e) (items c)) (remove_elem p (order c)) c).
Proof.
  intros [H1 H2 H3 H4] Hin. constructor; simpl.
  - eapply sublist_NoDup; [exact H1|]. apply fmap_sublist, remove_elem_sublist.
  - eapply sublist_NoDup; [exact H2|]. apply fmap_sublist, remove_elem_sublist.
  - intros q f [_ Hq]%remove_elem_elem. by eapply H3.
  - intros key q. rewrite lookup_delete_Some, H4. split.
    + intros (Hne & f & Hf & Hk). exists f. split; [|done]. apply remove_elem_elem. split; [|done].
      simpl. intros ->. apply Hne. rewrite <- Hk. f_equal.
      pose proof (find_elem_Some _ _ _ H1 Hf). pose proof (find_elem_Some _ _ _ H1 Hin). congruence.
    + intros (f & [Hq Hf]%remove_elem_elem & Hk). split; [|by exists f]. simpl in Hq. intros E. apply Hq.
      assert (items c !! key = Some q) by (apply H4; eauto).
      assert (items c !! key = Some p) by (apply H4; exists e; split; [done|congruence]). congruence.
Qed.

Lemma removeElement_ok c p e :
  cache_ok c → (p, e) ∈ order c →
  removeElement p c = with_items (delete (e_Key e) (items c)) (remove_elem p (order c)) c.
Proof. intros Hok Hin. unfold removeElement. by rewrite (find_elem_Some _ e) by (done || apply Hok). Qed.

(** ** The specification: entries by recency, without element numbers *)
Record lru := mkLru { l_entries : list CacheEntry; l_hits : Z; l_misses : Z }.
Inductive cop := CGet (now : Z) (key : string) | CSet (now : Z) (key : string) (v : value)
  | CDelete (key : string) | CClear | CStats.
Inductive cout := RValue (r : option value) | RNone | RStats (s : CacheStats).

Definition entry_of (key : string) (es : list CacheEntry) : option CacheEntry :=
  head (filter (λ e, e_Key e = key) es).
Definition without (key : string) (es : list CacheEntry) : list CacheEntry :=
  filter (λ e, e_Key e ≠ key) es.

Definition spec_step (cap t : Z) (o : cop) (s : lru) : cout * lru :=
  let 'mkLru es h m := s in
  match o with
  | CGet now key =>
      match entry_of key es with
      | Some e => if now <? e_ExpiresAt e
                  then (RValue (Some (e_Value e)), mkLru (e :: without key es) (i64 (h + 1)) m)
                  else (RValue None, mkLru (without key es) h (i64 (m + 1)))
      | None => (RValue None, mkLru es h (i64 (m + 1)))
      end
  | CSet now key v =>
      let kept := match entry_of key es with
                  | Some _ => without key es
                  | None => take (Z.to_nat (cap - 1)) es
                  end in
      (RNone, mkLru (mkEntry key v (now + t) :: kept) h m)
  | CDelete key => (RNone, mkLru (without key es) h m)
  | CClear => (RNone, mkLru [] h m)
  | CStats => (RStats (mkCacheStats (len es) h m (hit_rate h m)), s)
  end.

Definition impl_step (fuel : nat) (o : cop) (c : Cache) : option (cout * Cache) :=
  match o with
  | CGet now key => let '(r, c) := Get now key c in Some (RValue r, c)
  | CSet now key v => c ← Set_ fuel now key v c; Some (RNone, c)
  | CDelete key => Some (RNone, Delete key c)
  | CClear => Some (RNone, Clear c)
  | CStats => Some (RStats (Stats c), c)
  end.

Definition abs (c : Cache) : lru := mkLru (order c).*2 (hits c) (misses c).

(** Removing by element number is removing by key. *)
Lemma remove_elem_key c p e :
  cache_ok c → (p, e) ∈ order c → (remove_elem p (order c)).*2 = without (e_Key e) (order c).*2.
Proof.
  intros [H1 H2 _ _] Hin. unfold remove_elem, without. revert H1 H2 Hin.
  generalize (order c). induction l as [|[q f] l IH]; intros H1 H2 Hin; [done|].
  cbn in H1, H2.
  inversion H1 as [|? ? Hq H1']; inversion H2 as [|? ? Hk H2']; subst.
  apply elem_of_cons in Hin as [Hin|Hin].
  - injection Hin as -> ->. rewrite fmap_cons, !filter_cons_False by (simpl; tauto).
    rewrite !filter_id; [done|..].
    + intros x (y & -> & Hy)%list_elem_of_fmap E. apply Hk. rewrite <- E. by apply (list_elem_of_fmap_2 (e_Key ∘ snd)).
    + intros x Hx E. apply Hq. rewrite <- E. by apply list_elem_of_fmap_2.
  - rewrite fmap_cons, !filter_cons_True; simpl.
    + f_equal. by apply IH.
    + intros E. apply Hk. rewrite E. by apply (list_elem_of_fmap_2 (e_Key ∘ snd) l (p, e)).
    + intros ->. apply Hq. change p with (p, e).1. by apply list_elem_of_fmap_2.
Qed.

(** ** Lookup by key *)
Lemma entry_of_Some es e : NoDup (e_Key <$> es) → e ∈ es → entry_of (e_Key e) es = Some e.
Proof.
  unfold entry_of. induction es as [|f es IH]; intros Hnd Hin; [by apply not_elem_of_nil in Hin|].
  inversion Hnd as [|? ? Hf Hnd']; subst. apply elem_of_cons in Hin as [->|Hin].
  - by rewrite filter_cons_True.
  - rewrite filter_cons_False; [by apply IH|]. intros E. apply Hf. rewrite E. by apply list_elem_of_fmap_2.
Qed.

Lemma known_key c key p :
  cache_ok c → items c !! key = Some p →
  ∃ e, (p, e) ∈ order c ∧ e_Key e = key ∧ entry_of key (order c).*2 = Some e ∧
    find_elem p (order c) = Some e.
Proof.
  intros Hok Hp. destruct (proj1 (co_items _ Hok _ _) Hp) as (e & Hin & <-). exists e.
  split_and!; [done..| |apply find_elem_Some; [apply Hok|done]].
  apply entry_of_Some; [|by apply (list_elem_of_fmap_2 snd _ (p, e))].
  rewrite <- list_fmap_compose. apply Hok.
Qed.

Lemma unknown_key c key :
  cache_ok c → items c !! key = None →
  (∀ p e, (p, e) ∈ order c → e_Key e ≠ key) ∧
  entry_of key (order c).*2 = None ∧ without key (order c).*2 = (order c).*2.
Proof.
  intros Hok Hn. assert (H : ∀ p e, (p, e) ∈ order c → e_Key e ≠ key).
  { intros p e Hin E. assert (items c !! key = Some p) by (apply (co_items _ Hok); eauto). congruence. }
  assert (H' : ∀ e, e ∈ (order c).*2 → e_Key e ≠ key).
  { intros e ([p f] & -> & Hin)%list_elem_of_fmap. by eapply H. }
  split_and!; [done| |by apply filter_id]. unfold entry_of.
  destruct (filter _ _) as [|e l] eqn:E; [done|]. exfalso.
  assert (Hin : e ∈ filter (λ e, e_Key e = key) (order c).*2) by (rewrite E; left).
  apply list_elem_of_filter in Hin as [Hk Hin]. by apply (H' e).
Qed.

(** An element moved to the front, possibly with a new value. *)
Lemma cache_ok_front c p e e' :
  cache_ok c → (p, e) ∈ order c → e_Key e' = e_Key e →
  cache_ok (with_items (items c) ((p, e') :: remove_elem p (order c)) c).
Proof.
  intros Hok Hin Hk. pose proof (cache_ok_remove c p e Hok Hin) as [R1 R2 R3 R4].
  destruct Hok as [H1 H2 H3 H4]. simpl in *. constructor; simpl.
  - constructor; [|done]. intros ([q f] & E & [Hq _]%remove_elem_elem)%list_elem_of_fmap. simpl in *. congruence.
  - constructor; [|done]. intros ([q f] & E & Hf)%list_elem_of_fmap. simpl in *.
    assert (D : delete (e_Key e) (items c) !! e_Key f = Some q) by (apply R4; eauto).
    apply lookup_delete_Some in D as [D _]. congruence.
  - intros q f [Hq|[_ Hq]%remove_elem_elem]%elem_of_cons; [injection Hq as -> ->; by eapply H3|by eapply H3].
  - intros key q. rewrite H4. split.
    + intros (f & Hf & Hkf). destruct (decide (q = p)) as [->|Hne].
      * exists e'. split; [left|]. pose proof (find_elem_Some _ _ _ H1 Hf).
        pose proof (find_elem_Some _ _ _ H1 Hin). congruence.
      * exists f. split; [right; by apply remove_elem_elem|done].
    + intros (f & [Hq|[_ Hq]%remove_elem_elem]%elem_of_cons & Hkf); [|by exists f].
      injection Hq as -> ->. exists e. split; [done|congruence].
Qed.

Lemma update_front p e v exp l :
  update_elem p v exp ((p, e) :: remove_elem p l) = (p, mkEntry (e_Key e) v exp) :: remove_elem p l.
Proof.
  unfold update_elem. rewrite fmap_cons. simpl. rewrite decide_True by done. f_equal.
  transitivity (id <$> remove_elem p l); [|apply list_fmap_id].
  apply list_fmap_ext. intros i x Hx. apply list_elem_of_lookup_2, remove_elem_elem in Hx as [Hx _].
  by rewrite decide_False.
Qed.

(** ** Eviction *)
Lemma evict_Ok fuel c :
  cache_ok c → 1 ≤ capacity c → (length (order c) ≤ fuel)%nat →
  ∃ c', evict fuel c = Some c' ∧ cache_ok c' ∧ order c' = take (Z.to_nat (capacity c - 1)) (order c) ∧
    capacity c' = capacity c ∧ ttl c' = ttl c ∧ hits c' = hits c ∧ misses c' = misses c ∧
    (∀ key, items c !! key = None → items c' !! key = None).
Proof.
  revert c. induction fuel as [|fuel IH]; intros c Hok Hc Hf.
  { cbn [evict]. rewrite (proj2 (Z.leb_gt _ _)) by (unfold len; lia). exists c.
    split_and!; try done. rewrite take_ge by lia. done. }
  cbn [evict]. unfold len. destruct (Z.leb_spec (capacity c) (Z.of_nat (length (order c)))) as [Hl|Hl].
  2: { exists c. split_and!; try done. rewrite take_ge by lia. done. }
  destruct (order c) as [|x0 l0] eqn:E0 using rev_ind; [simpl in Hl; lia|]. clear IHl0.
  destruct x0 as [p e]. assert (Hin : (p, e) ∈ order c) by (rewrite E0; apply elem_of_app; right; left).
  assert (Hr : remove_elem p (order c) = l0).
  { pose proof (co_ids _ Hok) as Hnd. rewrite E0, fmap_app in Hnd. apply NoDup_app in Hnd as (_ & Hd & _).
    rewrite E0. unfold remove_elem. rewrite filter_app, (filter_cons_False _ (p, e)) by (simpl; tauto).
    rewrite app_nil_r. apply filter_id. intros y Hy E. apply (Hd y.1); [by apply list_elem_of_fmap_2|].
    rewrite E. left. }
  assert (Hro : removeOldest c = with_items (delete (e_Key e) (items c)) l0 c).
  { unfold removeOldest. rewrite E0, last_snoc. rewrite (removeElement_ok c p e), Hr by done. done. }
  rewrite Hro. pose proof (cache_ok_remove c p e Hok Hin) as Hok'. rewrite Hr in Hok'.
  rewrite length_app in Hf, Hl. simpl in Hf, Hl.
  destruct (IH _ Hok') as (c' & Hev & Hokc & Ho & E1 & E2 & E3 & E4 & Hn); [done|simpl; lia|].
  exists c'. split_and!; try done.
  - rewrite Ho. simpl. rewrite take_app_le by lia. done.
  - intros key Hk. apply Hn. simpl. rewrite lookup_delete_None. by right.
Qed.

(** A new entry at the front. *)
Lemma cache_ok_new c key v exp h m :
  cache_ok c → items c !! key = None →
  cache_ok (mkCache (capacity c) (ttl c) (<[key := next c]> (items c))
    ((next c, mkEntry key v exp) :: order c) h m (S (next c))).
Proof.
  intros Hok Hn. destruct (unknown_key c key Hok Hn) as (Hk & _). destruct Hok as [H1 H2 H3 H4].
  constructor; simpl.
  - constructor; [|done]. intros ([q f] & E & Hf)%list_elem_of_fmap. simpl in E. specialize (H3 q f Hf). lia.
  - constructor; [|done]. intros ([q f] & E & Hf)%list_elem_of_fmap. simpl in E. by apply (Hk q f).
  - intros q f [Hq|Hq]%elem_of_cons; [injection Hq as -> ->; lia|]. specialize (H3 q f Hq). lia.
  - intros k q. rewrite lookup_insert_Some, H4. split.
    + intros [[<- <-]|[_ (f & Hf & Hkf)]].
      * exists (mkEntry key v exp). split; [left|done].
      * exists f. split; [by right|done].
    + intros (f & [Hq|Hq]%elem_of_cons & Hkf).
      * injection Hq as -> ->. by left.
      * right. split; [|by exists f]. intros ->. by apply (Hk q f).
Qed.

(** ** Refinement *)
Record cache_inv (c : Cache) : Prop := {
  ci_ok : cache_ok c;
  ci_cap : 1 ≤ capacity c;
  ci_len : len (order c) ≤ capacity c
}.

Lemma len_remove p l : len (remove_elem p l) ≤ len l.
Proof. unfold len. pose proof (sublist_length _ _ (remove_elem_sublist p l)). lia. Qed.

Lemma len_front p e l : (p, e) ∈ l → len (remove_elem p l) < len l.
Proof.
  intros Hin. unfold len, remove_elem. pose proof (length_filter_lt (λ x, x.1 ≠ p) l (p, e) Hin). simpl in *.
  assert (¬ p ≠ p) by tauto. lia.
Qed.

Lemma Get_refines now key c :
  cache_inv c →
  let '(r, c') := Get now key c in
  cache_inv c' ∧ capacity c' = capacity c ∧ ttl c' = ttl c ∧
  spec_step (capacity c) (ttl c) (CGet now key) (abs c) = (RValue r, abs c').
Proof.
  intros [Hok Hcap Hlen]. unfold Get, spec_step, abs. cbn [l_entries].
  destruct (items c !! key) as [p|] eqn:Hp.
  - destruct (known_key c key p Hok Hp) as (e & Hin & Hk & -> & Hf). rewrite Hf.
    pose proof (len_front _ _ _ Hin).
    destruct (now <? e_ExpiresAt e).
    + unfold MoveToFront. rewrite Hf. split_and!; try done.
      * constructor; simpl; [by destruct (cache_ok_front c p e e Hok Hin eq_refl)|done|].
        rewrite len_cons. lia.
      * by rewrite <- Hk, <- (remove_elem_key c p e).
    + rewrite (removeElement_ok c p e) by done. split_and!; try done.
      * constructor; simpl; [by destruct (cache_ok_remove c p e Hok Hin)|done|lia].
      * by rewrite <- Hk, <- (remove_elem_key c p e).
  - destruct (unknown_key c key Hok Hp) as (_ & -> & _). split_and!; try done.
    constructor; simpl; [by destruct Hok|done|done].
Qed.

Lemma Set_refines fuel now key v c :
  cache_inv c → capacity c ≤ Z.of_nat fuel →
  ∃ c', Set_ fuel now key v c = Some c' ∧ cache_inv c' ∧ capacity c' = capacity c ∧ ttl c' = ttl c ∧
    spec_step (capacity c) (ttl c) (CSet now key v) (abs c) = (RNone, abs c').
Proof.
  intros [Hok Hcap Hlen] Hf. unfold Set_, spec_step, abs. cbn [l_entries].
  destruct (items c !! key) as [p|] eqn:Hp.
  - destruct (known_key c key p Hok Hp) as (e & Hin & Hk & -> & Hfe).
    pose proof (len_front _ _ _ Hin). eexists. split; [done|]. unfold MoveToFront. rewrite Hfe, update_front.
    split_and!; try done.
    + constructor; simpl; [by apply (cache_ok_front c p e)|done|]. rewrite len_cons. lia.
    + by rewrite <- Hk, <- (remove_elem_key c p e).
  - destruct (unknown_key c key Hok Hp) as (_ & -> & _).
    destruct (evict_Ok fuel c Hok Hcap) as (c1 & -> & Hok1 & Ho & E1 & E2 & E3 & E4 & Hn); [unfold len in *; lia|].
    simpl. eexists. split; [done|]. split_and!; simpl; [|done|done|].
    + constructor; simpl; [by apply cache_ok_new; [|apply Hn]|lia|].
      rewrite Ho, len_cons. unfold len. rewrite length_take. lia.
    + by rewrite Ho, E2, E3, E4, fmap_take.
Qed.

Lemma Delete_refines key c :
  cache_inv c → cache_inv (Delete key c) ∧ capacity (Delete key c) = capacity c ∧
  ttl (Delete key c) = ttl c ∧ spec_step (capacity c) (ttl c) (CDelete key) (abs c) = (RNone, abs (Delete key c)).
Proof.
  intros [Hok Hcap Hlen]. unfold Delete, spec_step, abs. destruct (items c !! key) as [p|] eqn:Hp.
  - destruct (known_key c key p Hok Hp) as (e & Hin & Hk & _ & _).
    rewrite (removeElement_ok c p e) by done. pose proof (len_front _ _ _ Hin). split_and!; try done.
    + constructor; simpl; [by apply cache_ok_remove|done|lia].
    + by rewrite <- Hk, <- (remove_elem_key c p e).
  - destruct (unknown_key c key Hok Hp) as (_ & _ & ->). done.
Qed.

Lemma Clear_inv c : cache_inv c → cache_inv (Clear c).
Proof.
  intros [Hok Hcap Hlen]. constructor; simpl; [|done|unfold len; simpl; lia].
  constructor; simpl; [constructor|constructor|intros p e H; by apply not_elem_of_nil in H|].
  intros key p. rewrite lookup_empty. split; [done|]. intros (e & H & _). by apply not_elem_of_nil in H.
Qed.

Fixpoint run_cache (fuel : nat) (os : list cop) (c : Cache) : option (list cout * Cache) :=
  match os with
  | [] => Some ([], c)
  | o :: os => '(r, c) ← impl_step fuel o c; '(rs, c) ← run_cache fuel os c; Some (r :: rs, c)
  end.
Fixpoint run_lru (cap t : Z) (os : list cop) (s : lru) : list cout :=
  match os with
  | [] => []
  | o :: os => let '(r, s) := spec_step cap t o s in r :: run_lru cap t os s
  end.

Lemma cache_step_refines fuel o c :
  cache_inv c → capacity c ≤ Z.of_nat fuel →
  ∃ r c', impl_step fuel o c = Some (r, c') ∧ cache_inv c' ∧ capacity c' = capacity c ∧ ttl c' = ttl c ∧
    spec_step (capacity c) (ttl c) o (abs c) = (r, abs c').
Proof.
  intros Hinv Hf. destruct o as [now key|now key v|key| |]; cbn [impl_step].
  - pose proof (Get_refines now key c Hinv) as H. destruct (Get now key c) as [r c']. by exists (RValue r), c'.
  - destruct (Set_refines fuel now key v c Hinv Hf) as (c' & -> & H). by exists RNone, c'.
  - exists RNone, (Delete key c). split; [done|]. by apply Delete_refines.
  - exists RNone, (Clear c). split; [done|]. split; [by apply Clear_inv|done].
  - exists (RStats (Stats c)), c. split; [done|]. split; [done|]. split; [done|]. split; [done|].
    unfold spec_step, abs, Stats, len. by rewrite length_fmap.
Qed.

Lemma run_refines_lru fuel os c :
  cache_inv c → capacity c ≤ Z.of_nat fuel →
  ∃ c', run_cache fuel os c = Some (run_lru (capacity c) (ttl c) os (abs c), c') ∧
    cache_inv c' ∧ capacity c' = capacity c.
Proof.
  revert c. induction os as [|o os IH]; intros c Hinv Hf; [by exists c|].
  destruct (cache_step_refines fuel o c Hinv Hf) as (r & c1 & E & Hinv1 & Ec & Et & Hs).
  destruct (IH c1 Hinv1) as (c' & E' & Hinv' & Ec'); [lia|].
  exists c'. cbn [run_cache run_lru]. rewrite E, Hs. cbn [mbind option_bind]. rewrite E', Ec, Et.
  split; [done|]. split; [done|]. congruence.
Qed.

(** C22. The cache is an LRU cache: with a capacity of at least 1, every history of
    [Get], [Set], [Delete], [Clear] and [Stats] terminates and answers, call by
    call, what the list of entries in order of use answers, in which [Set] of a
    new key keeps the [capacity - 1] most recently used entries and an expired
    entry is dropped by [Get]; the cache never holds more than [capacity]
    entries. *)
Theorem lru_refines cap t os fuel :
  1 ≤ cap ≤ Z.of_nat fuel →
  ∃ c, run_cache fuel os (NewCache cap t) = Some (run_lru cap t os (mkLru [] 0 0), c) ∧
    cs_Size (Stats c) ≤ cap.
Proof.
  intros Hcap. assert (Hinv : cache_inv (NewCache cap t)).
  { constructor; simpl; [|lia|unfold len; simpl; lia].
    constructor; simpl; [constructor|constructor|intros p e H; by apply not_elem_of_nil in H|].
    intros key p. rewrite lookup_empty. split; [done|]. intros (e & H & _). by apply not_elem_of_nil in H. }
  destruct (run_refines_lru fuel os (NewCache cap t) Hinv) as (c & E & Hc & Ec); [simpl; lia|].
  exists c. split; [exact E|]. pose proof (ci_len c Hc) as Hl. rewrite Ec in Hl. exact Hl.
Qed.

(** A capacity of zero or less hangs the cache: the first [Set] never returns,
    because the eviction loop waits for the length to drop below the capacity
    and there is nothing to evict. *)
Theorem zero_capacity_hangs cap t now key v :
  cap ≤ 0 → ∀ fuel, Set_ fuel now key v (NewCache cap t) = None.
Proof.
  intros Hcap fuel. unfold Set_, NewCache. cbn [items]. rewrite lookup_empty.
  assert (H : evict fuel (mkCache cap t ∅ [] 0 0 0) = None); [|by rewrite H].
  induction fuel as [|fuel IH]; cbn [evict capacity order]; unfold len; simpl;
    rewrite (proj2 (Z.leb_le _ _)) by lia; [done|exact IH].
Qed.
End cache.

Lemma lru_refines_witness :
  ∃ c, run_cache 2 [CSet 0 "a" 1; CSet 1 "b" 2; CGet 2 "a"; CSet 3 "c" 3; CGet 4 "b"; CGet 4 "a"; CGet 99 "c"; CStats]
    (NewCache 2 10) =
    Some ([RNone; RNone; RValue (Some 1); RNone; RValue None; RValue (Some 1); RValue None;
           RStats (mkCacheStats 1 2 2 (SFdiv 53 1024 (f64_of_Z 1) (f64_of_Z 2)))], c).
Proof.
  destruct (lru_refines 2 10
    [CSet 0 "a" 1; CSet 1 "b" 2; CGet 2 "a"; CSet 3 "c" 3; CGet 4 "b"; CGet 4 "a"; CGet 99 "c"; CStats] 2)
    as (c & E & _); [lia|].
  exists c. rewrite E. reflexivity.
Defined.

Lemma zero_capacity_hangs_witness : Set_ 1000 0 "a" tt (NewCache 0 10) = None.
Proof. apply (zero_capacity_hangs 0 10 0 "a" tt). lia. Defined.
