(* ===== verification/PayloadFilter.v ===== *)
(** * pkg/index/payload/filter.go: filters over payloads

    The filter language, its evaluation against a payload, the Qdrant-style
    filters and their conversion, and validation. *)
From stdpp Require Import base list strings numbers.
From Stdlib Require Import Strings.Ascii ZArith Lia Floats.SpecFloat.
From S2P Require Import Prelude Float32 Distance.

#[local] Open Scope Z_scope.

(** ** Strings

    Case mapping on ASCII text; beyond ASCII it follows the Unicode tables, which
    are left open: [ToLower] and [EqualFold] are any functions that agree with
    the ASCII mapping on ASCII text. *)
Definition ascii_lower (c : ascii) : ascii :=
  let n := nat_of_ascii c in
  if (65 <=? n)%nat && (n <=? 90)%nat then ascii_of_nat (n + 32) else c.
Fixpoint string_map (f : ascii → ascii) (s : string) : string :=
  match s with EmptyString => EmptyString | String c s => String (f c) (string_map f s) end.
Fixpoint ascii_only (s : string) : bool :=
  match s with EmptyString => true | String c s => (nat_of_ascii c <? 128)%nat && ascii_only s end.

Class CaseMap := {
  ToLower : string → string;
  EqualFold : string → string → bool;
  ToLower_ascii s : ascii_only s = true → ToLower s = string_map ascii_lower s;
  EqualFold_ascii s t : ascii_only s = true → ascii_only t = true →
    EqualFold s t = String.eqb (string_map ascii_lower s) (string_map ascii_lower t);
  EqualFold_refl s : EqualFold s s = true
}.

(** [strings.HasPrefix], [strings.HasSuffix], [strings.Contains] *)
Definition HasPrefix (s prefix : string) : bool := String.prefix prefix s.
Fixpoint Contains_ (s sub : string) : bool :=
  HasPrefix s sub || match s with EmptyString => false | String _ s => Contains_ s sub end.
Fixpoint HasSuffix (s suffix : string) : bool :=
  String.eqb s suffix || match s with EmptyString => false | String _ s => HasSuffix s suffix end.

(** [strings.Split(s, ".")] *)
Fixpoint split_dot (s : string) : list string :=
  match s with
  | EmptyString => [EmptyString]
  | String c s =>
      let rest := split_dot s in
      if Ascii.eqb c "."%char then EmptyString :: rest
      else match rest with
           | [] => [String c EmptyString]
           | w :: ws => String c w :: ws
           end
  end.

(** ** Values

    The dynamic values a payload or a condition holds: what JSON decodes to, and
    the Go numbers [toFloat64] tells apart. A map is a list of its entries. *)
Inductive value :=
| VNil
| VBool (b : bool)
| VFloat64 (x : f64)
| VFloat32 (x : f32)
| VInt (z : Z)
| VInt64 (z : Z)
| VString (s : string)
| VList (l : list value)
| VMap (m : list (string * value)).

Definition payload := list (string * value).

(** [m[key]]: the nil value when the key is absent *)
Fixpoint map_get (m : list (string * value)) (key : string) : value :=
  match m with
  | [] => VNil
  | (k, v) :: m => if String.eqb k key then v else map_get m key
  end.

Definition toFloat64 (v : value) : option f64 :=
  match v with
  | VFloat64 x => Some x
  | VFloat32 x => Some (f64_of_f32 x)
  | VInt z | VInt64 z => Some (f64_of_Z z)
  | _ => None
  end.

(** ** Filters *)
Inductive FilterType :=
| FilterTypeAnd | FilterTypeOr | FilterTypeNot | FilterTypeField
| FilterTypeOther (name : string).

Inductive Operator :=
| OpEqual | OpNotEqual | OpGreater | OpGreaterEqual | OpLess | OpLessEqual | OpIn | OpNotIn
| OpContains | OpStartsWith | OpEndsWith | OpIsNull | OpIsNotNull | OpRange
| OpOther (name : string).

Record Condition := mkCondition {
  Op : Operator;
  Value : value;
  Values : list value;
  Min : value;
  Max : value
}.

(** A nil pointer is [None]. The [Conditions] field is read by no operation of
    this package. *)
Inductive Filter := mkFilter {
  f_Type : FilterType;
  f_Field : string;
  f_Condition : option Condition;
  f_Filters : list (option Filter)
}.

Definition And (filters : list (option Filter)) : Filter :=
  mkFilter FilterTypeAnd "" None filters.
Definition Or (filters : list (option Filter)) : Filter :=
  mkFilter FilterTypeOr "" None filters.
Definition Not (filter : option Filter) : Filter :=
  mkFilter FilterTypeNot "" None [filter].
Definition Field (name : string) (cond : option Condition) : Filter :=
  mkFilter FilterTypeField name cond [].

Definition cond_value (op : Operator) (v : value) : Condition := mkCondition op v [] VNil VNil.
Definition Eq_ := cond_value OpEqual.
Definition Ne := cond_value OpNotEqual.
Definition Gt_ := cond_value OpGreater.
Definition Gte := cond_value OpGreaterEqual.
Definition Lt_ := cond_value OpLess.
Definition Lte := cond_value OpLessEqual.
Definition In_ (vs : list value) : Condition := mkCondition OpIn VNil vs VNil VNil.
Definition NotIn (vs : list value) : Condition := mkCondition OpNotIn VNil vs VNil VNil.
Definition Contains (s : string) : Condition := cond_value OpContains (VString s).
Definition StartsWith (s : string) : Condition := cond_value OpStartsWith (VString s).
Definition EndsWith (s : string) : Condition := cond_value OpEndsWith (VString s).
Definition IsNull : Condition := cond_value OpIsNull VNil.
Definition IsNotNull : Condition := cond_value OpIsNotNull VNil.
Definition Range (min max : value) : Condition := mkCondition OpRange VNil [] min max.

(** ** Evaluation *)

Abbreviation E := (result Empty_set).

Fixpoint get_path (parts : list string) (current : value) : value :=
  match parts with
  | [] => current
  | part :: parts =>
      match current with
      | VMap m => get_path parts (map_get m part)
      | _ => VNil
      end
  end.
Definition getFieldValue (field : string) (p : payload) : value := get_path (split_dot field) (VMap p).

(** Go's [a == b] on two interface values: false when the dynamic types differ,
    and a run-time panic when they are the same and cannot be compared. *)
Definition interface_eq (a b : value) : E bool :=
  match a, b with
  | VNil, VNil => Ok true
  | VBool x, VBool y => Ok (Bool.eqb x y)
  | VFloat64 x, VFloat64 y | VFloat32 x, VFloat32 y => Ok (SFeqb x y)
  | VInt x, VInt y | VInt64 x, VInt64 y => Ok (x =? y)
  | VString x, VString y => Ok (String.eqb x y)
  | VList _, VList _ | VMap _, VMap _ => Panic
  | _, _ => Ok false
  end.

Section evaluator.
Context {cm : CaseMap}.

Definition compareEqual (a b : value) : E bool :=
  match a, b with
  | VNil, VNil => Ok true
  | VNil, _ | _, VNil => Ok false
  | _, _ =>
      match toFloat64 a, toFloat64 b with
      | Some x, Some y => Ok (SFeqb x y)
      | _, _ =>
          match a, b with
          | VString s, VString t => Ok (EqualFold s t)
          | _, _ => interface_eq a b
          end
      end
  end.

Definition compareNumeric (a b : value) : Z :=
  match toFloat64 a, toFloat64 b with
  | Some x, Some y => if flt x y then -1 else if fgt x y then 1 else 0
  | _, _ => 0
  end.

Fixpoint valueIn (v : value) (vs : list value) : E bool :=
  match vs with
  | [] => Ok false
  | x :: vs => b ← compareEqual v x; if (b : bool) then Ok true else valueIn v vs
  end.

(** The three string tests, on lower-cased text. *)
Definition string_test (test : string → string → bool) (v arg : value) : bool :=
  match v, arg with
  | VString s, VString t => test (ToLower s) (ToLower t)
  | _, _ => false
  end.
Definition stringContains := string_test Contains_.
Definition stringStartsWith := string_test HasPrefix.
Definition stringEndsWith := string_test HasSuffix.

Definition inRange (v min max : value) : bool :=
  match toFloat64 v, toFloat64 min, toFloat64 max with
  | Some x, Some lo, Some hi => SFleb lo x && SFleb x hi
  | _, _, _ => false
  end.

Definition is_nil (v : value) : bool := match v with VNil => true | _ => false end.

Definition evaluateCondition (field : string) (cond : option Condition) (p : payload) : E bool :=
  match cond with
  | None => Ok true
  | Some c =>
      let v := getFieldValue field p in
      match Op c with
      | OpEqual => compareEqual v (Value c)
      | OpNotEqual => b ← compareEqual v (Value c); Ok (negb b)
      | OpGreater => Ok (compareNumeric v (Value c) >? 0)
      | OpGreaterEqual => Ok (0 <=? compareNumeric v (Value c))
      | OpLess => Ok (compareNumeric v (Value c) <? 0)
      | OpLessEqual => Ok (compareNumeric v (Value c) <=? 0)
      | OpIn => valueIn v (Values c)
      | OpNotIn => b ← valueIn v (Values c); Ok (negb b)
      | OpContains => Ok (stringContains v (Value c))
      | OpStartsWith => Ok (stringStartsWith v (Value c))
      | OpEndsWith => Ok (stringEndsWith v (Value c))
      | OpIsNull => Ok (is_nil v)
      | OpIsNotNull => Ok (negb (is_nil v))
      | OpRange => Ok (inRange v (Min c) (Max c))
      | OpOther _ => Ok true
      end
  end.

(** [evaluateAnd] and [evaluateOr] stop at the first filter that decides. *)
Definition all_of (ev : option Filter → E bool) : list (option Filter) → E bool :=
  fix go fs := match fs with
  | [] => Ok true
  | f :: fs => b ← ev f; if (b : bool) then go fs else Ok false
  end.
Definition any_of (ev : option Filter → E bool) : list (option Filter) → E bool :=
  fix go fs := match fs with
  | [] => Ok false
  | f :: fs => b ← ev f; if (b : bool) then Ok true else go fs
  end.

Fixpoint Evaluate_filter (f : Filter) (p : payload) {struct f} : E bool :=
  let ev (o : option Filter) := match o with None => Ok true | Some f => Evaluate_filter f p end in
  match f_Type f with
  | FilterTypeAnd => all_of ev (f_Filters f)
  | FilterTypeOr => match f_Filters f with [] => Ok true | _ => any_of ev (f_Filters f) end
  | FilterTypeNot =>
      match f_Filters f with
      | [] => Ok true
      | g :: _ => b ← ev g; Ok (negb b)
      end
  | FilterTypeField => evaluateCondition (f_Field f) (f_Condition f) p
  | FilterTypeOther _ => Ok true
  end.

Definition Evaluate (filter : option Filter) (p : payload) : E bool :=
  match filter with None => Ok true | Some f => Evaluate_filter f p end.
Definition evaluateAnd (fs : list (option Filter)) (p : payload) : E bool :=
  all_of (λ f, Evaluate f p) fs.
Definition evaluateOr (fs : list (option Filter)) (p : payload) : E bool :=
  match fs with [] => Ok true | _ => any_of (λ f, Evaluate f p) fs end.

End evaluator.

(** ** Qdrant filters *)
Record Match := mkMatch { m_Value : value; m_Any : list value; m_Text : string }.
Record QRange := mkQRange { q_Lt : option f64; q_Lte : option f64; q_Gt : option f64; q_Gte : option f64 }.
Record QdrantCondition := mkQdrantCondition {
  qc_Field : string;
  qc_Match : option Match;
  qc_Range : option QRange;
  qc_IsNull : option bool
}.
Record QdrantFilter := mkQdrantFilter {
  Must : list QdrantCondition;
  Should : list QdrantCondition;
  MustNot : list QdrantCondition
}.

Definition match_condition (m : Match) : option Condition :=
  if negb (is_nil (m_Value m)) then Some (Eq_ (m_Value m))
  else match m_Any m with
       | _ :: _ => Some (In_ (m_Any m))
       | [] => if String.eqb (m_Text m) "" then None else Some (Contains (m_Text m))
       end.

Definition range_condition (r : QRange) : option Condition :=
  match q_Lt r, q_Lte r, q_Gt r, q_Gte r with
  | Some x, _, _, _ => Some (Lt_ (VFloat64 x))
  | None, Some x, _, _ => Some (Lte (VFloat64 x))
  | None, None, Some x, _ => Some (Gt_ (VFloat64 x))
  | None, None, None, Some x => Some (Gte (VFloat64 x))
  | None, None, None, None => None
  end.

Definition conditionToFilter (cond : QdrantCondition) : Filter :=
  let condition :=
    match qc_IsNull cond with
    | Some b => Some (if (b : bool) then IsNull else IsNotNull)
    | None =>
        match qc_Match cond with
        | Some m => match_condition m
        | None => match qc_Range cond with Some r => range_condition r | None => None end
        end
    end in
  mkFilter FilterTypeField (qc_Field cond) condition [].

Definition ToFilter (qf : option QdrantFilter) : option Filter :=
  match qf with
  | None => None
  | Some qf =>
      let filters := Some ∘ conditionToFilter <$> Must qf in
      let should := Some ∘ conditionToFilter <$> Should qf in
      let filters := if len (Should qf) >? 0
                     then filters ++ [Some (mkFilter FilterTypeOr "" None should)] else filters in
      Some (mkFilter FilterTypeAnd "" None
        (filters ++ ((λ c, Some (Not (Some (conditionToFilter c)))) <$> MustNot qf)))
  end.

(** ** Validation *)
Inductive filterError := ErrNoSubFilter | ErrNotArity | ErrNoField | ErrNoCondition | ErrUnknownType.

Definition validate_all (val : option Filter → result filterError unit) :
    list (option Filter) → result filterError unit :=
  fix go fs := match fs with [] => Ok tt | f :: fs => val f;; go fs end.

Fixpoint Validate_filter (f : Filter) : result filterError unit :=
  let val (o : option Filter) := match o with None => Ok tt | Some f => Validate_filter f end in
  match f_Type f with
  | FilterTypeAnd | FilterTypeOr =>
      match f_Filters f with [] => Err ErrNoSubFilter | _ => validate_all val (f_Filters f) end
  | FilterTypeNot => match f_Filters f with [g] => val g | _ => Err ErrNotArity end
  | FilterTypeField =>
      if String.eqb (f_Field f) "" then Err ErrNoField
      else match f_Condition f with None => Err ErrNoCondition | Some _ => Ok tt end
  | FilterTypeOther _ => Err ErrUnknownType
  end.
Definition Validate (filter : option Filter) : result filterError unit :=
  match filter with None => Ok tt | Some f => Validate_filter f end.

(** * pkg/index/payload/filter.go: properties of filters *)

(** ** Induction on filters *)
Definition on_sub (P : Filter → Prop) (o : option Filter) : Prop :=
  match o with None => True | Some f => P f end.

Section filter_ind.
Context (P : Filter → Prop).
Context (H : ∀ t fld c fs, Forall (on_sub P) fs → P (mkFilter t fld c fs)).

Fixpoint Filter_nested_ind (f : Filter) : P f :=
  match f with
  | mkFilter t fld c fs => H t fld c fs
      ((fix go fs : Forall (on_sub P) fs :=
        match fs with
        | [] => List.Forall_nil _
        | o :: fs => List.Forall_cons _ o fs
            (match o return on_sub P o with None => I | Some f => Filter_nested_ind f end) (go fs)
        end) fs)
  end.
End filter_ind.

(** The values Go can compare with [==]. *)
Definition comparable (v : value) : Prop := match v with VList _ | VMap _ => False | _ => True end.

Fixpoint plain_filter (f : Filter) : Prop :=
  match f_Condition f with
  | None => True
  | Some c => comparable (Value c) ∧ Forall comparable (Values c)
  end ∧
  (fix go fs := match fs with
   | [] => True
   | o :: fs => match o with None => True | Some g => plain_filter g end ∧ go fs
   end) (f_Filters f).

Section theorems.
Context {cm : CaseMap}.

Lemma Evaluate_And fs p : Evaluate (Some (And fs)) p = evaluateAnd fs p.
Proof. done. Qed.
Lemma Evaluate_Or fs p : Evaluate (Some (Or fs)) p = evaluateOr fs p.
Proof. done. Qed.
Lemma Evaluate_Not f p : Evaluate (Some (Not f)) p = b ← Evaluate f p; Ok (negb b).
Proof. done. Qed.

Lemma compareEqual_Ok a b : comparable b → ∃ r, compareEqual a b = Ok r.
Proof. intros Hb. destruct a, b; simpl in *; try done; eauto. Qed.

Lemma valueIn_Ok a vs : Forall comparable vs → ∃ r, valueIn a vs = Ok r.
Proof.
  induction 1 as [|v vs Hv HF [r Hr]]; [by eexists|]. simpl.
  destruct (compareEqual_Ok a v Hv) as [[] ->]; simpl; eauto.
Qed.

Lemma evaluateCondition_Ok field c p :
  comparable (Value c) → Forall comparable (Values c) →
  ∃ r, evaluateCondition field (Some c) p = Ok r.
Proof.
  intros H1 H2. simpl. destruct (compareEqual_Ok (getFieldValue field p) _ H1) as [r1 E1].
  destruct (valueIn_Ok (getFieldValue field p) _ H2) as [r2 E2].
  destruct (Op c); rewrite ?E1, ?E2; simpl; eauto.
Qed.

Lemma all_of_Ok (ev : option Filter → E bool) fs :
  Forall (λ o, ∃ b, ev o = Ok b) fs → ∃ b, all_of ev fs = Ok b.
Proof. induction 1 as [|o fs [[] Hb] HF IH]; simpl; [by eexists|rewrite Hb; simpl; eauto..]. Qed.

Lemma any_of_Ok (ev : option Filter → E bool) fs :
  Forall (λ o, ∃ b, ev o = Ok b) fs → ∃ b, any_of ev fs = Ok b.
Proof. induction 1 as [|o fs [[] Hb] HF IH]; simpl; [by eexists|rewrite Hb; simpl; eauto..]. Qed.

(** Evaluation is total on comparable operands: when no condition of the
    filter, at any depth, is compared with a list or a map, [Evaluate] returns
    true or false for every payload, whatever its values and their nesting, and
    never panics. *)
Theorem evaluate_safe f p : plain_filter f → ∃ b, Evaluate (Some f) p = Ok b.
Proof.
  induction f as [t fld c fs IH] using Filter_nested_ind. intros [Hc Hs]. simpl in Hc, Hs.
  assert (HF : Forall (λ o, ∃ b, Evaluate o p = Ok b) fs).
  { revert Hs. clear Hc. induction IH as [|o fs Ho HF IH']; [by constructor|]. intros [Ho' Hs'].
    constructor; [|by apply IH']. destruct o as [g|]; [by apply Ho|by eexists]. }
  simpl. destruct t; simpl.
  - by apply all_of_Ok.
  - destruct fs as [|o fs]; [by eexists|].
    change (∃ b, any_of (λ f, Evaluate f p) (o :: fs) = Ok b). by apply any_of_Ok.
  - destruct fs as [|o fs]; [by eexists|]. inversion HF as [|? ? [b Hb] _]; subst.
    change (match o with Some f => _ | None => _ end) with (Evaluate o p). rewrite Hb. by eexists.
  - destruct c as [c|]; [|by eexists]. by apply evaluateCondition_Ok; apply Hc.
  - by eexists.
Qed.

(** Equality with a list panics when the field holds a list too: both interface
    values have the same uncomparable dynamic type. [Validate] accepts the
    filter. *)
Theorem evaluate_list_equality_panics xs ys :
  let f := Field "tags" (Some (Eq_ (VList xs))) in
  Validate (Some f) = Ok tt ∧ Evaluate (Some f) [("tags"%string, VList ys)] = Panic.
Proof. done. Qed.

(** De Morgan and double negation hold for evaluation as it is, in the order
    and with the early stops of the code, so also for the run-time panics: a
    negated conjunction is the disjunction of the negations, a negated
    disjunction the conjunction of the negations, and two negations cancel. *)
Theorem evaluate_de_morgan f fs p :
  Evaluate (Some (Not (Some (And (f :: fs))))) p =
    Evaluate (Some (Or (Some ∘ Not <$> f :: fs))) p ∧
  Evaluate (Some (Not (Some (Or (f :: fs))))) p =
    Evaluate (Some (And (Some ∘ Not <$> f :: fs))) p ∧
  Evaluate (Some (Not (Some (Not f)))) p = Evaluate f p.
Proof.
  rewrite !Evaluate_Not, !Evaluate_And, !Evaluate_Or. unfold evaluateAnd, evaluateOr.
  assert (H : ∀ gs, (b ← all_of (λ f, Evaluate f p) gs; Ok (negb b)) =
      any_of (λ f, Evaluate f p) (Some ∘ Not <$> gs) ∧
    (b ← any_of (λ f, Evaluate f p) gs; Ok (negb b)) =
      all_of (λ f, Evaluate f p) (Some ∘ Not <$> gs)).
  { induction gs as [|g gs [IH1 IH2]]; [done|]. rewrite fmap_cons. cbn [all_of any_of compose].
    rewrite Evaluate_Not. destruct (Evaluate g p) as [[]|?|]; simpl; auto. }
  split; [apply H|]. split; [apply (H (f :: fs))|].
  by destruct (Evaluate f p) as [[]|?|].
Qed.

(** Bounds on a field that is not a number: when the field is missing, null
    or not numeric, [gte] and [lte] conditions are met, whatever the bound,
    while [gt], [lt] and [range] are not, so [gte b] is weaker than "[gt b] or
    [eq b]" and [range] stronger than "[gte] and [lte]". *)
Theorem bounds_on_missing_field field p b lo hi :
  toFloat64 (getFieldValue field p) = None →
  let holds c := Evaluate (Some (Field field (Some c))) p in
  holds (Gte b) = Ok true ∧ holds (Lte b) = Ok true ∧ holds (Gt_ b) = Ok false ∧
  holds (Lt_ b) = Ok false ∧ holds (Range lo hi) = Ok false.
Proof.
  intros H holds. unfold holds, Evaluate. cbn [Evaluate_filter Field f_Type f_Field f_Condition].
  unfold evaluateCondition, compareNumeric, inRange. cbn [Op Gte Lte Gt_ Lt_ Range cond_value].
  by rewrite H.
Qed.

(** ** Qdrant filters *)
Lemma all_of_app ev fs gs :
  all_of ev (fs ++ gs) = b ← all_of ev fs; if (b : bool) then all_of ev gs else Ok false.
Proof.
  induction fs as [|f fs IH]; simpl; [by destruct (all_of ev gs)|].
  destruct (ev f) as [[]|?|]; simpl; auto.
Qed.

Lemma all_of_map {A} (ev : option Filter → E bool) (g : A → option Filter) (sat : A → bool) cs :
  (∀ c, c ∈ cs → ev (g c) = Ok (sat c)) → all_of ev (g <$> cs) = Ok (forallb sat cs).
Proof.
  induction cs as [|c cs IH]; intros H; [done|]. simpl. rewrite H by left. simpl.
  destruct (sat c); [|done]. apply IH. intros x Hx. apply H. by right.
Qed.

Lemma any_of_map {A} (ev : option Filter → E bool) (g : A → option Filter) (sat : A → bool) cs :
  (∀ c, c ∈ cs → ev (g c) = Ok (sat c)) → any_of ev (g <$> cs) = Ok (existsb sat cs).
Proof.
  induction cs as [|c cs IH]; intros H; [done|]. simpl. rewrite H by left. simpl.
  destruct (sat c); [done|]. apply IH. intros x Hx. apply H. by right.
Qed.

(** The part of the conversion that comes from [must] and [should]. *)
Lemma must_should qf p (sat : QdrantCondition → bool) :
  (∀ c, c ∈ Must qf ++ Should qf → Evaluate (Some (conditionToFilter c)) p = Ok (sat c)) →
  all_of (λ f, Evaluate f p) (if len (Should qf) >? 0
    then (Some ∘ conditionToFilter <$> Must qf) ++
      [Some (mkFilter FilterTypeOr "" None (Some ∘ conditionToFilter <$> Should qf))]
    else Some ∘ conditionToFilter <$> Must qf) =
  Ok (forallb sat (Must qf) && match Should qf with [] => true | _ => existsb sat (Should qf) end).
Proof.
  intros H.
  assert (Hm : all_of (λ f, Evaluate f p) (Some ∘ conditionToFilter <$> Must qf) = Ok (forallb sat (Must qf))).
  { apply all_of_map. intros c Hc. apply H. rewrite elem_of_app. auto. }
  destruct (Should qf) as [|s ss]; [by rewrite andb_true_r|].
  assert (Hl : len (s :: ss) >? 0 = true) by (rewrite Z.gtb_ltb; apply Z.ltb_lt; unfold len; simpl; lia).
  rewrite Hl, all_of_app, Hm. cbn [mbind result_bind].
  assert (Ho : Evaluate (Some (mkFilter FilterTypeOr "" None (Some ∘ conditionToFilter <$> s :: ss))) p =
    Ok (existsb sat (s :: ss))).
  { apply (any_of_map (λ f, Evaluate f p)). intros c Hc. apply H. rewrite elem_of_app. auto. }
  destruct (forallb sat (Must qf)); [|done]. cbn [all_of]. rewrite Ho. cbn [mbind result_bind].
  by destruct (existsb sat (s :: ss)).
Qed.

(** A converted Qdrant filter means what the three clauses say: when each
    single condition evaluates, the filter holds exactly when every [must]
    condition holds, at least one [should] condition holds if there are any, and
    no [must_not] condition holds. *)
Theorem qdrant_filter_semantics qf p (sat : QdrantCondition → bool) :
  (∀ c, c ∈ Must qf ++ Should qf ++ MustNot qf →
     Evaluate (Some (conditionToFilter c)) p = Ok (sat c)) →
  Evaluate (ToFilter (Some qf)) p =
    Ok (forallb sat (Must qf) &&
        (match Should qf with [] => true | _ => existsb sat (Should qf) end) &&
        forallb (λ c, negb (sat c)) (MustNot qf)).
Proof.
  intros H. etransitivity; [apply (all_of_app (λ f, Evaluate f p))|].
  rewrite (must_should qf p sat) by (intros c Hc; apply H; rewrite app_assoc, elem_of_app; auto).
  rewrite (all_of_map (λ f, Evaluate f p) _ (λ c, negb (sat c))).
  2: { intros c Hc. rewrite Evaluate_Not, H by (rewrite !elem_of_app; auto). done. }
  cbn [mbind result_bind]. by destruct (forallb sat (Must qf) && _).
Qed.

(** A Qdrant range keeps one bound only: a condition [lt: hi, gte: lo] accepts
    every value below [hi], whatever the lower bound, because the conversion
    takes the first bound that is set and drops the others. *)
Theorem qdrant_range_one_bound field lo hi x :
  split_dot field = [field] → flt x hi = true →
  Evaluate (ToFilter (Some (mkQdrantFilter
    [mkQdrantCondition field None (Some (mkQRange (Some hi) None None (Some lo))) None] [] [])))
    [(field, VFloat64 x)] = Ok true.
Proof.
  intros Hs Hx. simpl. unfold getFieldValue. rewrite Hs. simpl. rewrite String.eqb_refl.
  unfold compareNumeric. simpl. by rewrite Hx.
Qed.

End theorems.

(** ** Witnesses: ASCII case mapping *)
#[local, refine] Instance ascii_case : CaseMap := {|
  ToLower := string_map ascii_lower;
  EqualFold := λ s t, String.eqb (string_map ascii_lower s) (string_map ascii_lower t)
|}.
Proof. - done. - done. - intros s. apply String.eqb_refl. Defined.

Definition demo_plain : Filter :=
  And [Some (Field "a.b" (Some (Eq_ (VString "X")))); Some (Not (Some (Field "n" (Some (Gt_ (VInt 3))))))].
Definition demo_payload : payload :=
  [("a"%string, VMap [("b"%string, VString "x")]); ("n"%string, VFloat64 (f64_of_Z 2)); ("t"%string, VList [])].

Lemma evaluate_safe_witness : ∃ b, Evaluate (Some demo_plain) demo_payload = Ok b ∧ b = true.
Proof.
  destruct (evaluate_safe demo_plain demo_payload) as [b Hb]; [simpl; repeat split; constructor|].
  exists b. split; [exact Hb|]. vm_compute in Hb. congruence.
Defined.

Lemma bounds_on_missing_field_witness :
  Evaluate (Some (Field "price" (Some (Gte (VInt 10))))) demo_payload = Ok true.
Proof. apply (bounds_on_missing_field "price" demo_payload (VInt 10) VNil VNil). reflexivity. Defined.

Definition demo_qdrant : QdrantFilter :=
  mkQdrantFilter
    [mkQdrantCondition "a.b" (Some (mkMatch (VString "X") [] "")) None None]
    [mkQdrantCondition "n" None (Some (mkQRange (Some (f64_of_Z 1)) None None None)) None;
     mkQdrantCondition "zz" None None (Some true)]
    [mkQdrantCondition "t" None None (Some true)].

Lemma qdrant_filter_semantics_witness :
  Evaluate (ToFilter (Some demo_qdrant)) demo_payload = Ok true.
Proof.
  rewrite (qdrant_filter_semantics demo_qdrant demo_payload
    (λ c, match Evaluate (Some (conditionToFilter c)) demo_payload with Ok b => b | _ => false end)).
  - reflexivity.
  - intros c Hc. repeat (apply elem_of_cons in Hc as [->|Hc]; [reflexivity|]).
    exfalso. exact (not_elem_of_nil c Hc).
Defined.

Lemma qdrant_range_one_bound_witness :
  Evaluate (ToFilter (Some (mkQdrantFilter
    [mkQdrantCondition "price" None
      (Some (mkQRange (Some (f64_of_Z 20)) None None (Some (f64_of_Z 10)))) None] [] [])))
    [("price"%string, VFloat64 (f64_of_Z 1))] = Ok true.
Proof. apply (qdrant_range_one_bound "price" (f64_of_Z 10) (f64_of_Z 20) (f64_of_Z 1)); reflexivity. Defined.

Lemma evaluate_de_morgan_witness :
  Evaluate (Some (Not (Some (And [Some demo_plain; None])))) demo_payload =
    Evaluate (Some (Or [Some (Not (Some demo_plain)); Some (Not None)])) demo_payload.
Proof. exact (proj1 (evaluate_de_morgan (Some demo_plain) [None] demo_payload)). Defined.
