(* ===== verification/PayloadIndex.v ===== *)
(** * pkg/index/payload/index.go: the payload index

    The compilation of filters to SQL, the escaping of LIKE patterns, and the
    index operations over the SQLite database, which is an interface here. *)
From stdpp Require Import base gmap list strings numbers.
From Stdlib Require Import Strings.Ascii ZArith Lia.
From S2P Require Import Prelude PayloadFilter.

#[local] Open Scope Z_scope.
#[local] Open Scope string_scope.
#[local] Open Scope list_scope.

(** ** Escaping

    [strings.ReplaceAll] with a one-character pattern. *)
Fixpoint replace_char (c : ascii) (by_ : string) (s : string) : string :=
  match s with
  | EmptyString => EmptyString
  | String a s => if Ascii.eqb a c then by_ +:+ replace_char c by_ s else String a (replace_char c by_ s)
  end.

Definition escapeLikePattern (s : string) : string :=
  let s := replace_char "\" "\\" s in
  let s := replace_char "%" "\%" s in
  replace_char "_" "\_" s.

(** [fmt.Sprint] of a value: of a string it is the string itself; the formats of
    the other types are left open. *)
Class Fmt := { Sprint : value → string; Sprint_string s : Sprint (VString s) = s }.

(** [strings.Join] *)
Fixpoint join (sep : string) (l : list string) : string :=
  match l with
  | [] => ""
  | [s] => s
  | s :: l => s +:+ sep +:+ join sep l
  end.

Section build.
Context {fmt : Fmt}.

Definition clause := (string * list value)%type.

(** The loop of [and] and [or]: the non-empty clauses and their arguments. *)
Definition collect (build : option Filter → clause) : list (option Filter) → list string * list value :=
  fix go fs := match fs with
  | [] => ([], [])
  | f :: fs =>
      let '(c, a) := build f in
      let '(cs, as_) := go fs in
      if String.eqb c "" then (cs, as_) else (c :: cs, a ++ as_)
  end.

Definition group (sep : string) (ca : list string * list value) : clause :=
  match ca.1 with
  | [] => ("", [])
  | _ => ("(" +:+ join sep ca.1 +:+ ")", ca.2)
  end.

Definition in_clause (op : string) (empty : string) (fieldPath : value) (vs : list value) : clause :=
  match vs with
  | [] => (empty, [])
  | _ => ("json_extract(data, ?) " +:+ op +:+ " (" +:+ join "," (replicate (length vs) "?") +:+ ")",
          fieldPath :: vs)
  end.

Definition compare_clause (op : string) (fieldPath v : value) : clause :=
  ("json_extract(data, ?) " +:+ op +:+ " ?", [fieldPath; v]).
Definition like_clause (fieldPath : value) (pattern : string) : clause :=
  ("json_extract(data, ?) LIKE ? ESCAPE '\'", [fieldPath; VString pattern]).

Definition condition_clause (field : string) (c : Condition) : clause :=
  let fieldPath := VString ("$." +:+ field) in
  match Op c with
  | OpEqual => compare_clause "=" fieldPath (Value c)
  | OpNotEqual => compare_clause "!=" fieldPath (Value c)
  | OpGreater => compare_clause ">" fieldPath (Value c)
  | OpGreaterEqual => compare_clause ">=" fieldPath (Value c)
  | OpLess => compare_clause "<" fieldPath (Value c)
  | OpLessEqual => compare_clause "<=" fieldPath (Value c)
  | OpIn => in_clause "IN" "0" fieldPath (Values c)
  | OpNotIn => in_clause "NOT IN" "1" fieldPath (Values c)
  | OpContains => like_clause fieldPath ("%" +:+ escapeLikePattern (Sprint (Value c)) +:+ "%")
  | OpStartsWith => like_clause fieldPath (escapeLikePattern (Sprint (Value c)) +:+ "%")
  | OpEndsWith => like_clause fieldPath ("%" +:+ escapeLikePattern (Sprint (Value c)))
  | OpIsNull => ("(json_extract(data, ?) IS NULL OR json_type(data, ?) = 'null')", [fieldPath; fieldPath])
  | OpIsNotNull =>
      ("(json_extract(data, ?) IS NOT NULL AND json_type(data, ?) != 'null')", [fieldPath; fieldPath])
  | OpRange => ("(json_extract(data, ?) >= ? AND json_extract(data, ?) <= ?)",
                [fieldPath; Min c; fieldPath; Max c])
  | OpOther _ => ("", [])
  end.

Fixpoint buildWhere_filter (f : Filter) : clause :=
  let build (o : option Filter) : clause := match o with None => ("", []) | Some f => buildWhere_filter f end in
  match f_Type f with
  | FilterTypeAnd => group " AND " (collect build (f_Filters f))
  | FilterTypeOr => group " OR " (collect build (f_Filters f))
  | FilterTypeNot =>
      match f_Filters f with
      | [] => ("", [])
      | g :: _ => let '(c, a) := build g in if String.eqb c "" then ("", []) else ("NOT (" +:+ c +:+ ")", a)
      end
  | FilterTypeField =>
      match f_Condition f with None => ("", []) | Some c => condition_clause (f_Field f) c end
  | FilterTypeOther _ => ("", [])
  end.
Definition buildWhereClause (f : option Filter) : clause :=
  match f with None => ("", []) | Some f => buildWhere_filter f end.

Definition buildFilterQuery (f : option Filter) : clause :=
  let '(where_, args) := buildWhereClause f in
  if String.eqb where_ "" then ("", []) else ("SELECT point_id FROM payloads WHERE " +:+ where_, args).

(** ** The index

    [Exec] and [Query] of [database/sql] on the SQLite driver, and
    [json.Marshal], as an interface; a row that does not scan is [None]. *)
Class Database (D : Type) := {
  db_Exec : string → list value → D → D;
  db_Query : string → list value → D → option (list (option Z));
  Marshal : payload → option string
}.

Inductive IndexType := IndexTypeHash | IndexTypeNumeric | IndexTypeFullText | IndexTypeGeo.
Record IndexStats := mkIndexStats { PointCount : Z; SizeBytes : Z }.

Section index.
Context {D : Type} `{!Database D}.

Record Index := mkIndex { db : D; indexedFields : gmap string IndexType }.
Definition with_db (d : D) (idx : Index) : Index := mkIndex d (indexedFields idx).

Definition IndexPoint (pointID : Z) (p : payload) (idx : Index) : Index :=
  match p with
  | [] => idx
  | _ =>
      match Marshal p with
      | None => idx
      | Some data => with_db (db_Exec "INSERT OR REPLACE INTO payloads (point_id, data) VALUES (?, ?)"
                                [VInt64 pointID; VString data] (db idx)) idx
      end
  end.

Definition RemovePoint (pointID : Z) (idx : Index) : Index :=
  with_db (db_Exec "DELETE FROM payloads WHERE point_id = ?" [VInt64 pointID] (db idx)) idx.

Definition Filter_ (filter : option Filter) (idx : Index) : list Z :=
  match filter with
  | None => []
  | Some _ =>
      let '(query, args) := buildFilterQuery filter in
      if String.eqb query "" then [] else
      match db_Query query args (db idx) with None => [] | Some rows => omap id rows end
  end.

Definition IndexedFields (idx : Index) : list string := (map_to_list (indexedFields idx)).*1.
Definition CreateIndex (fieldName : string) (t : IndexType) (idx : Index) : Index :=
  mkIndex (db idx) (<[fieldName := t]> (indexedFields idx)).
Definition DeleteIndex (fieldName : string) (idx : Index) : Index :=
  mkIndex (db idx) (delete fieldName (indexedFields idx)).
Definition GetIndexStats (fieldName : string) (idx : Index) : option IndexStats :=
  match indexedFields idx !! fieldName with Some _ => Some (mkIndexStats 1 1024) | None => None end.
End index.

(** ** Placeholders *)
Fixpoint placeholders (s : string) : nat :=
  match s with
  | EmptyString => 0
  | String a s => ((if Ascii.eqb a "?" then 1 else 0) + placeholders s)%nat
  end.

Lemma placeholders_app s t : placeholders (s +:+ t) = (placeholders s + placeholders t)%nat.
Proof. induction s as [|a s IH]; simpl; [done|]. rewrite IH. lia. Qed.

Lemma placeholders_join sep l :
  placeholders sep = 0%nat → placeholders (join sep l) = sum_list (placeholders <$> l).
Proof.
  intros Hs. induction l as [|s [|t l] IH]; [done|simpl; lia|].
  change (join sep (s :: t :: l)) with (s +:+ sep +:+ join sep (t :: l)).
  rewrite !placeholders_app, Hs, IH. done.
Qed.

(** As many placeholders as arguments. *)
Definition balanced (c : clause) : Prop := placeholders c.1 = length c.2.

Lemma balanced_collect build fs :
  Forall (λ f, balanced (build f)) fs →
  sum_list (placeholders <$> (collect build fs).1) = length (collect build fs).2.
Proof.
  induction 1 as [|f fs Hf HF IH]; [done|]. simpl. unfold balanced in Hf.
  destruct (build f) as [c a]. destruct (collect build fs) as [cs as_]. simpl in *.
  destruct (String.eqb c ""); [done|]. cbn [fst snd]. rewrite fmap_cons, length_app. cbn [sum_list sum_list_with foldr]. rewrite <- IH, <- Hf. done.
Qed.

Lemma balanced_group sep ca :
  placeholders sep = 0%nat → sum_list (placeholders <$> ca.1) = length ca.2 → balanced (group sep ca).
Proof.
  intros Hs H. unfold group. destruct ca as [[|c cs] a]; [done|]. unfold balanced. cbn [fst snd].
  rewrite !placeholders_app, placeholders_join by done. simpl in *. lia.
Qed.

Lemma balanced_in op empty path vs :
  placeholders op = 0%nat → placeholders empty = 0%nat → balanced (in_clause op empty path vs).
Proof.
  intros Hop He. unfold in_clause. destruct vs as [|v vs]; [done|]. unfold balanced. cbn [fst snd].
  rewrite !placeholders_app, placeholders_join by done. rewrite Hop.
  assert (H : ∀ n, sum_list (placeholders <$> replicate n "?") = n).
  { induction n as [|n IH]; [done|]. rewrite replicate_S, fmap_cons. simpl. by rewrite IH. }
  rewrite H. simpl. lia.
Qed.

Lemma balanced_condition field c : balanced (condition_clause field c).
Proof. unfold condition_clause. destruct (Op c); try done; by apply balanced_in. Qed.

Lemma buildWhere_balanced f : balanced (buildWhere_filter f).
Proof.
  induction f as [t fld c fs IH] using Filter_nested_ind.
  assert (HF : Forall (λ o, balanced (buildWhereClause o)) fs).
  { eapply Forall_impl; [|exact IH]. by intros [f|]. }
  cbn [buildWhere_filter f_Type f_Filters f_Field f_Condition]. destruct t; try done.
  - apply balanced_group; [done|]. by apply (balanced_collect buildWhereClause).
  - apply balanced_group; [done|]. by apply (balanced_collect buildWhereClause).
  - destruct fs as [|g fs]; [done|]. inversion HF as [|? ? Hg _]; subst.
    change (match g with Some f => buildWhere_filter f | None => ("", []) end) with (buildWhereClause g).
    unfold balanced in Hg. destruct (buildWhereClause g) as [s a]. destruct (String.eqb s ""); [done|].
    unfold balanced. cbn [fst snd] in *. rewrite !placeholders_app. simpl. lia.
  - destruct c as [c|]; [apply balanced_condition|done].
Qed.

(** ** Nothing of the request in the query text

    A filter with every name and value removed; the number of listed values is
    kept. *)
Definition blank_condition (c : Condition) : Condition :=
  mkCondition (Op c) VNil (replicate (length (Values c)) VNil) VNil VNil.
Fixpoint blank (f : Filter) : Filter :=
  mkFilter (f_Type f) "" (blank_condition <$> f_Condition f)
    ((λ o, match o with None => None | Some g => Some (blank g) end) <$> f_Filters f).

Lemma collect_texts build build' (g : option Filter → option Filter) fs :
  Forall (λ o, (build o).1 = (build' (g o)).1) fs →
  (collect build fs).1 = (collect build' (g <$> fs)).1.
Proof.
  induction 1 as [|o fs Ho HF IH]; [done|]. rewrite fmap_cons. simpl.
  destruct (build o) as [c a], (build' (g o)) as [c' a'], (collect build fs), (collect build' (g <$> fs)).
  simpl in *. subst. by destruct (String.eqb c' "").
Qed.

Lemma group_texts sep ca ca' : ca.1 = ca'.1 → (group sep ca).1 = (group sep ca').1.
Proof. unfold group. intros ->. by destruct (ca'.1). Qed.

Lemma condition_text field c : (condition_clause field c).1 = (condition_clause "" (blank_condition c)).1.
Proof.
  unfold condition_clause. simpl. destruct (Op c); try done; unfold in_clause;
    destruct (Values c) as [|v vs]; try done; simpl; by rewrite length_replicate.
Qed.

Lemma buildWhere_blank f : (buildWhere_filter f).1 = (buildWhere_filter (blank f)).1.
Proof.
  induction f as [t fld c fs IH] using Filter_nested_ind.
  set (g := λ o : option Filter, match o with None => None | Some g => Some (blank g) end).
  assert (HF : Forall (λ o, (buildWhereClause o).1 = (buildWhereClause (g o)).1) fs).
  { eapply Forall_impl; [|exact IH]. by intros [f|]. }
  cbn [buildWhere_filter blank f_Type f_Filters f_Field f_Condition]. fold g. destruct t; try done.
  - apply group_texts. by apply (collect_texts buildWhereClause buildWhereClause).
  - apply group_texts. by apply (collect_texts buildWhereClause buildWhereClause).
  - destruct fs as [|o fs]; [done|]. inversion HF as [|? ? Ho _]; subst. rewrite fmap_cons.
    change (match o with Some f => buildWhere_filter f | None => ("", []) end) with (buildWhereClause o).
    change (match g o with Some f => buildWhere_filter f | None => ("", []) end) with (buildWhereClause (g o)).
    destruct (buildWhereClause o) as [s a], (buildWhereClause (g o)) as [s' a']. simpl in Ho. subst.
    by destruct (String.eqb s' "").
  - destruct c as [c|]; [apply condition_text|done].
Qed.

(** C25. The query is parameterised: its text has exactly one placeholder for each
    argument, and it is the text built for the same filter with all field names
    and values removed, so nothing a client sends is ever part of the SQL. *)
Theorem query_parameterised f :
  placeholders (buildFilterQuery (Some f)).1 = length (buildFilterQuery (Some f)).2 ∧
  (buildFilterQuery (Some f)).1 = (buildFilterQuery (Some (blank f))).1.
Proof.
  pose proof (buildWhere_balanced f) as Hb. pose proof (buildWhere_blank f) as Ht.
  unfold buildFilterQuery, buildWhereClause, balanced in *.
  destruct (buildWhere_filter f) as [s a], (buildWhere_filter (blank f)) as [s' a']. simpl in *. subst s'.
  destruct (String.eqb s ""); [done|]. split; [|done].
  cbn [fst snd]. rewrite placeholders_app. exact Hb.
Qed.

(** ** Escaping in one pass

    The three replacements together put one backslash before each special
    character, so no character is escaped twice and the text can be read back. *)
Definition special (a : ascii) : bool := Ascii.eqb a "\" || Ascii.eqb a "%" || Ascii.eqb a "_".
Fixpoint escape_once (s : string) : string :=
  match s with
  | EmptyString => EmptyString
  | String a s => if special a then String "\" (String a (escape_once s)) else String a (escape_once s)
  end.
Fixpoint unescape (s : string) : string :=
  match s with
  | EmptyString => EmptyString
  | String a s =>
      if Ascii.eqb a "\" then match s with EmptyString => EmptyString | String b s => String b (unescape s) end
      else String a (unescape s)
  end.

(** [String.append] on literals. *)
Ltac append_cbn :=
  repeat (cbn; match goal with
  | |- context [String ?a ?s +:+ ?t] => change (String a s +:+ t) with (String a (s +:+ t))
  | |- context [EmptyString +:+ ?t] => change (EmptyString +:+ t) with t
  end); cbn.

Lemma escapeLikePattern_once s : escapeLikePattern s = escape_once s.
Proof.
  unfold escapeLikePattern. induction s as [|a s IH]; [done|]. cbn [replace_char escape_once].
  unfold special. destruct (Ascii.eqb_spec a "\") as [->|H1]; [append_cbn; by rewrite IH|].
  cbn [replace_char]. destruct (Ascii.eqb_spec a "%") as [->|H2]; [append_cbn; by rewrite IH|].
  cbn [replace_char]. destruct (Ascii.eqb_spec a "_") as [->|H3]; append_cbn; by rewrite IH.
Qed.

Lemma unescape_escape s : unescape (escapeLikePattern s) = s.
Proof.
  rewrite escapeLikePattern_once. induction s as [|a s IH]; [done|]. simpl. unfold special.
  destruct (Ascii.eqb_spec a "\") as [->|H1]; [simpl; by rewrite IH|].
  destruct (Ascii.eqb a "%") eqn:E2, (Ascii.eqb a "_") eqn:E3; simpl;
    rewrite ?(proj2 (Ascii.eqb_neq _ _) H1), IH; done.
Qed.
End build.

(** ** Witness: a formatter that prints strings only *)
#[local, refine] Instance plain_fmt : Fmt := {| Sprint := λ v, match v with VString s => s | _ => "" end |}.
Proof. done. Defined.

Definition demo_request : Filter :=
  And [Some (Field "name" (Some (Contains "50%'; DROP TABLE payloads")));
       Some (Field "kind" (Some (In_ [VString "a"; VString "b"])))].

Lemma query_parameterised_witness :
  placeholders (buildFilterQuery (Some demo_request)).1 = 5%nat ∧
  (buildFilterQuery (Some demo_request)).1 = (buildFilterQuery (Some (blank demo_request))).1.
Proof.
  destruct (query_parameterised demo_request) as [E1 E2]. split; [rewrite E1; reflexivity|exact E2].
Defined.
