(* ===== verification/Auth.v ===== *)
(** * pkg/auth/rbac.go: what a token allows

    The three permission checks on validated claims. Signing and parsing tokens
    is the JWT library's. *)
From stdpp Require Import base gmap strings list fin_maps numbers sorting.
From Stdlib Require Import ZArith Lia.
From S2P Require Import Prelude PayloadFilter.

Record Permissions := mkPermissions {
  GlobalAdmin : bool;
  Collections : gmap string (list string)
}.
Record TokenClaims := mkTokenClaims { tc_Permissions : Permissions; Subject : string }.

(** Some role of the collection passes [test], or the holder is a global admin. *)
Definition allowed (test : string → bool) (c : TokenClaims) (collection : string) : bool :=
  if GlobalAdmin (tc_Permissions c) then true else
  match Collections (tc_Permissions c) !! collection with
  | None => false
  | Some perms => existsb test perms
  end.

Section auth.
Context {cm : CaseMap}.

Definition CanRead (c : TokenClaims) (collection : string) : bool :=
  allowed (λ p, String.eqb p "READ_ONLY" || String.eqb p "COLLECTION_ADMIN" || String.eqb p "READ_WRITE")
    c collection.
Definition CanWrite (c : TokenClaims) (collection : string) : bool :=
  allowed (λ p, EqualFold p "COLLECTION_ADMIN" || EqualFold p "READ_WRITE") c collection.
Definition CanAdmin (c : TokenClaims) (collection : string) : bool :=
  allowed (λ p, EqualFold p "COLLECTION_ADMIN") c collection.

(** The roles as they are documented. *)
Definition known_role (p : string) : Prop :=
  p = "READ_ONLY"%string ∨ p = "READ_WRITE"%string ∨ p = "COLLECTION_ADMIN"%string.

Lemma allowed_mono (t t' : string → bool) c coll :
  (∀ perms p, Collections (tc_Permissions c) !! coll = Some perms → p ∈ perms → t p = true → t' p = true) →
  allowed t c coll = true → allowed t' c coll = true.
Proof.
  unfold allowed. destruct (GlobalAdmin (tc_Permissions c)); [done|].
  destruct (Collections (tc_Permissions c) !! coll) as [perms|]; [|done]. intros H.
  rewrite !existsb_exists. intros (p & Hp & Ht). exists p. split; [done|].
  eapply H; [done| |done]. by apply list_elem_of_In.
Qed.

(** The levels of access: whoever may administer a collection may write it,
    and whoever may write it may read it, provided the roles are spelled as
    documented. A role in lower case is not: [CanWrite] compares without regard
    to case and [CanRead] does not, so the role "read_write" may write and not
    read. *)
Theorem access_levels c coll subject :
  (CanAdmin c coll = true → CanWrite c coll = true) ∧
  ((∀ perms, Collections (tc_Permissions c) !! coll = Some perms → Forall known_role perms) →
     CanWrite c coll = true → CanRead c coll = true) ∧
  (let lower := mkTokenClaims (mkPermissions false {[coll := ["read_write"%string]]}) subject in
   CanWrite lower coll = true ∧ CanRead lower coll = false).
Proof.
  split; [|split].
  - apply allowed_mono. intros perms p _ _ ->. done.
  - intros Hk. apply allowed_mono. intros perms p Hp Hin.
    pose proof (Hk perms Hp) as HF. rewrite Forall_forall in HF.
    by destruct (HF p Hin) as [->|[->| ->]].
  - unfold CanWrite, CanRead, allowed. simpl. rewrite lookup_singleton_eq. simpl.
    rewrite !EqualFold_ascii by done. done.
Qed.
End auth.

#[local, refine] Instance auth_case : CaseMap := {|
  ToLower := string_map ascii_lower;
  EqualFold := λ s t, String.eqb (string_map ascii_lower s) (string_map ascii_lower t)
|}.
Proof. - done. - done. - intros s. apply String.eqb_refl. Defined.

Definition demo_claims : TokenClaims :=
  mkTokenClaims (mkPermissions false {[ "docs"%string := ["READ_WRITE"%string] ]}) "alice".

Lemma access_levels_witness : CanWrite demo_claims "docs" = true ∧ CanRead demo_claims "docs" = true.
Proof.
  split; [reflexivity|].
  apply (proj1 (proj2 (access_levels demo_claims "docs" "alice"))); [|reflexivity].
  intros perms Hp. vm_compute in Hp. injection Hp as <-. apply Forall_singleton. right. left. reflexivity.
Defined.
