(* ===== verification/Point.v ===== *)
(** * pkg/point/point.go: points and their binary encoding

    A point with its dense, named, sparse and multi vectors, [Clone], [Validate],
    the norm operations and the encoding that goes into the write-ahead log.
    JSON text comes from [encoding/json], an interface here: what it prints for a
    JSON payload it reads back. A Go map has no order, so [Encode] takes the order
    in which the loop meets the named vectors. *)
From stdpp Require Import base gmap strings list fin_maps numbers.
From Stdlib Require Import Strings.Byte ZArith Lia Floats.SpecFloat.
From S2P Require Import Prelude Float32 Distance PayloadFilter Binary.

#[local] Open Scope Z_scope.

Definition Vector := list f32.

Record SparseVector := mkSparse { sv_Indices : list Z; sv_Values : list f32 }.

(** A nil map or pointer is [None]. *)
Record Point := mkPoint {
  pt_ID : string;
  pt_Vector : Vector;
  pt_Payload : option payload;
  pt_NamedVectors : option (gmap string Vector);
  pt_Sparse : option SparseVector;
  pt_MultiVectors : option (gmap string (list Vector));
  pt_Version : Z
}.

(** The zero value [Point{}] *)
Definition zero_Point : Point := mkPoint "" [] None None None None 0.

(** ** Construction *)

(** [NewPoint]: the identifier is what [uuid.New().String()] returned. *)
Definition NewPointWithID (id : string) (vector : Vector) (p : option payload) : Point :=
  mkPoint id vector p None None None 1.
Definition NewPoint (uuid : string) (vector : Vector) (p : option payload) : Point :=
  NewPointWithID uuid vector p.

Definition Dimension (p : Point) : Z := len (pt_Vector p).

Definition Clone (p : Point) : Point :=
  mkPoint (pt_ID p) (pt_Vector p) (pt_Payload p) (pt_NamedVectors p) (pt_Sparse p) None
    (pt_Version p).

(** ** Validation *)
Inductive pointError :=
| ErrEmptyID | ErrEmptyVector
| InvalidVectorError (index : Z) (value : f32)
| ErrIDTooLong | ErrVectorTooLarge | ErrMarshal | ErrPayloadTooLarge | ErrTooManyNamed
| ErrNameTooLong | ErrNamedTooLarge | ErrSparseTooLarge.

(** [math.IsNaN(float64(v)) || math.IsInf(float64(v), 0)] *)
Definition not_finite (v : f32) : bool :=
  match v with S754_nan | S754_infinity _ => true | _ => false end.

(** The loop over the components of one vector, from index [i] *)
Fixpoint check_vector (i : Z) (v : Vector) : result pointError unit :=
  match v with
  | [] => Ok tt
  | x :: v => if not_finite x then Err (InvalidVectorError i x) else check_vector (i + 1) v
  end.

Fixpoint check_named (named : list (string * Vector)) : result pointError unit :=
  match named with
  | [] => Ok tt
  | (_, v) :: named => check_vector 0 v;; check_named named
  end.

(** [len] of a map that may be nil *)
Definition map_len {A} (m : option (gmap string A)) : Z :=
  match m with Some m => Z.of_nat (size m) | None => 0 end.
Definition entries {A} (m : option (gmap string A)) : list (string * A) :=
  match m with Some m => map_to_list m | None => [] end.

(** [named] is the order in which the range over [p.NamedVectors] runs. *)
Definition Validate (p : Point) (named : list (string * Vector)) : result pointError unit :=
  if String.eqb (pt_ID p) "" then Err ErrEmptyID
  else if (len (pt_Vector p) =? 0) && (map_len (pt_NamedVectors p) =? 0) &&
          match pt_Sparse p with None => true | Some _ => false end
  then Err ErrEmptyVector
  else check_vector 0 (pt_Vector p);; check_named named.

(** ** Norms *)
Definition sum_squares (v : Vector) : f32 :=
  foldl (λ sum val, f32_add sum (f32_mul val val)) f32_zero v.

Definition Magnitude (v : Vector) : f32 := sqrt32 (sum_squares v).

(** [norm == 0] holds for both zeros. *)
Definition is_zero (x : f32) : bool := match x with S754_zero _ => true | _ => false end.

Definition Normalize (v : Vector) : Vector :=
  if is_zero (sum_squares v) then v
  else (λ val, f32_div val (sqrt32 (sum_squares v))) <$> v.

Definition Normalize_point (p : Point) : Point :=
  mkPoint (pt_ID p) (Normalize (pt_Vector p)) (pt_Payload p) (pt_NamedVectors p) (pt_Sparse p)
    (pt_MultiVectors p) (pt_Version p).

(** ** Encoding *)
Definition safeIntToUint32 (e : pointError) (v : Z) : result pointError Z :=
  if (v <? 0) || (MaxUint32 <? v) then Err e else Ok (u32 v).
Definition safeIntToUint16 (e : pointError) (v : Z) : result pointError Z :=
  if (v <? 0) || (MaxUint16 <? v) then Err e else Ok (u16 v).

(** [encoding/json] on payloads. [Unmarshal] gets the map it decodes into; on a
    nil map the text of a payload of JSON values gives the payload back. *)
Class Json := {
  Marshal : option payload → option (list byte);
  Unmarshal : list byte → option payload → option (option payload);
  json_payload : option payload → Prop;
  Marshal_nonempty p bs : Marshal p = Some bs → bs ≠ [];
  Unmarshal_Marshal p bs : json_payload p → Marshal p = Some bs → Unmarshal bs None = Some p
}.

Section codec.
Context {json : Json}.

Definition encode_vector (e : pointError) (v : Vector) : result pointError (list byte) :=
  n ← safeIntToUint32 e (len v); Ok (PutUint32 n ++ (v ≫= putFloat32)).

Definition encode_string (e : pointError) (s : string) : result pointError (list byte) :=
  n ← safeIntToUint16 e (len (bytes_of_string s)); Ok (PutUint16 n ++ bytes_of_string s).

Definition encode_payload (p : option payload) : result pointError (list byte) :=
  match Marshal p with
  | None => Err ErrMarshal
  | Some bs => n ← safeIntToUint32 ErrPayloadTooLarge (len bs); Ok (PutUint32 n ++ bs)
  end.

Fixpoint encode_named (named : list (string * Vector)) : result pointError (list byte) :=
  match named with
  | [] => Ok []
  | (name, vec) :: rest =>
      a ← encode_string ErrNameTooLong name;
      b ← encode_vector ErrNamedTooLarge vec;
      c ← encode_named rest;
      Ok (a ++ b ++ c)
  end.

Definition encode_sparse (s : option SparseVector) : result pointError (list byte) :=
  match s with
  | None => Ok (putBool false)
  | Some s =>
      n ← safeIntToUint32 ErrSparseTooLarge (len (sv_Indices s));
      Ok (putBool true ++ PutUint32 n ++ (sv_Indices s ≫= PutUint32) ++
          (sv_Values s ≫= putFloat32))
  end.

(** [Encode] into a [bytes.Buffer]: writing does not fail. *)
Definition Encode (p : Point) (named : list (string * Vector)) : result pointError (list byte) :=
  a ← encode_string ErrIDTooLong (pt_ID p);
  b ← encode_vector ErrVectorTooLarge (pt_Vector p);
  c ← encode_payload (pt_Payload p);
  numNamed ← safeIntToUint16 ErrTooManyNamed (map_len (pt_NamedVectors p));
  d ← encode_named named;
  e ← encode_sparse (pt_Sparse p);
  Ok (a ++ b ++ c ++ PutUint16 numNamed ++ d ++ PutUint64 (pt_Version p) ++ e).

(** ** Decoding *)
Definition decode_string : Reader string :=
  n ← readUint16; bs ← readFull n; mret (string_of_bytes bs).

Definition decode_vector : Reader Vector :=
  dim ← readUint32; readN (Z.to_nat dim) readFloat32.

Definition decode_payload (old : option payload) : Reader (option payload) :=
  n ← readUint32;
  if 0 <? n then
    bs ← readFull n;
    match Unmarshal bs old with Some p => mret p | None => throw ErrFormat end
  else mret old.

(** The loop stores into the map as it goes: a later entry replaces an earlier one. *)
Fixpoint decode_named (n : nat) (acc : gmap string Vector) : Reader (gmap string Vector) :=
  match n with
  | O => mret acc
  | S n => name ← decode_string; vec ← decode_vector; decode_named n (<[name := vec]> acc)
  end.

(** [err := binary.Read(r, ...)] where [io.EOF] is handled by the caller *)
Definition or_eof {A} (m : Reader A) : Reader (option A) := λ r,
  match m r with
  | (Ok x, s) => (Ok (Some x), s)
  | (Err EOF, s) => (Ok None, s)
  | (Err e, s) => (Err e, s)
  | (Panic, s) => (Panic, s)
  end.

Definition decode_sparse : Reader SparseVector :=
  n ← readUint32;
  indices ← readN (Z.to_nat n) readUint32;
  values ← readN (Z.to_nat n) readFloat32;
  mret (mkSparse indices values).

(** [Decode] on the point [p], whose payload and maps stay where the data has none. *)
Definition Decode (p : Point) : Reader Point :=
  id ← decode_string;
  v ← decode_vector;
  pl ← decode_payload (pt_Payload p);
  numNamed ← or_eof readUint16;
  match numNamed with
  | None => mret (mkPoint id v pl (pt_NamedVectors p) (pt_Sparse p) (pt_MultiVectors p) 1)
  | Some numNamed =>
      named ← (if 0 <? numNamed then m ← decode_named (Z.to_nat numNamed) ∅; mret (Some m)
               else mret (pt_NamedVectors p));
      version ← or_eof readUint64;
      match version with
      | None => mret (mkPoint id v pl named (pt_Sparse p) (pt_MultiVectors p) 1)
      | Some version =>
          hasSparse ← or_eof readBool;
          match hasSparse with
          | Some true =>
              s ← decode_sparse;
              mret (mkPoint id v pl named (Some s) (pt_MultiVectors p) version)
          | _ => mret (mkPoint id v pl named (pt_Sparse p) (pt_MultiVectors p) version)
          end
      end
  end.

(** ** Points the format can hold

    The types of the fields ([uint32] indices, [uint64] version, [float32]
    values), and the limits of the length fields. *)
Definition wf_vector (v : Vector) : Prop := len v ≤ MaxUint32 ∧ Forall valid_f32 v.
Definition wf_name (s : string) : Prop := len (bytes_of_string s) ≤ MaxUint16.
Definition wf_sparse (s : SparseVector) : Prop :=
  len (sv_Indices s) ≤ MaxUint32 ∧ length (sv_Indices s) = length (sv_Values s) ∧
  Forall (λ i, 0 ≤ i < 2 ^ 32) (sv_Indices s) ∧ Forall valid_f32 (sv_Values s).

Record wf_point (p : Point) : Prop := {
  wf_id : wf_name (pt_ID p);
  wf_vec : wf_vector (pt_Vector p);
  wf_named_count : map_len (pt_NamedVectors p) ≤ MaxUint16;
  wf_named : ∀ name v, (name, v) ∈ entries (pt_NamedVectors p) → wf_name name ∧ wf_vector v;
  wf_sp : ∀ s, pt_Sparse p = Some s → wf_sparse s;
  wf_version : 0 ≤ pt_Version p < 2 ^ 64
}.

(** The payload is JSON, and its text is short enough. *)
Definition wf_payload (pl : option payload) : Prop :=
  json_payload pl ∧ ∃ bs, Marshal pl = Some bs ∧ len bs ≤ MaxUint32.

(** What the encoding keeps of a point: an empty map of named vectors reads back
    as nil, and multi vectors are not written at all. *)
Definition stored (p : Point) : Point :=
  mkPoint (pt_ID p) (pt_Vector p) (pt_Payload p)
    (if map_len (pt_NamedVectors p) =? 0 then None else pt_NamedVectors p)
    (pt_Sparse p) None (pt_Version p).

(** The same point as a writer without named vectors, without versions, or
    without sparse vectors left it. *)
Definition legacy_plain (p : Point) : Point :=
  mkPoint (pt_ID p) (pt_Vector p) (pt_Payload p) None None None 1.
Definition legacy_named (p : Point) : Point :=
  mkPoint (pt_ID p) (pt_Vector p) (pt_Payload p) (pt_NamedVectors (stored p)) None None 1.
Definition legacy_dense (p : Point) : Point :=
  mkPoint (pt_ID p) (pt_Vector p) (pt_Payload p) (pt_NamedVectors (stored p)) None None
    (pt_Version p).

(** ** Each part is read exactly *)
Lemma safe32_ok e v : 0 ≤ v ≤ MaxUint32 → safeIntToUint32 e v = Ok v.
Proof.
  unfold safeIntToUint32, MaxUint32, u32. intros Hv.
  rewrite (proj2 (Z.ltb_ge _ _)), (proj2 (Z.ltb_ge _ _)) by lia. simpl.
  by rewrite Z.mod_small by lia.
Qed.

Lemma safe16_ok e v : 0 ≤ v ≤ MaxUint16 → safeIntToUint16 e v = Ok v.
Proof.
  unfold safeIntToUint16, MaxUint16, u16. intros Hv.
  rewrite (proj2 (Z.ltb_ge _ _)), (proj2 (Z.ltb_ge _ _)) by lia. simpl.
  by rewrite Z.mod_small by lia.
Qed.

Lemma encode_string_exact e s :
  wf_name s → ∃ bs, encode_string e s = Ok bs ∧ bs ≠ [] ∧ exact decode_string s bs.
Proof.
  intros Hs. unfold wf_name, MaxUint16 in Hs. pose proof (len_nonneg (bytes_of_string s)).
  eexists. unfold encode_string. rewrite safe16_ok by (unfold MaxUint16; lia).
  split_and!; [done|done|].
  eapply exact_bind; [apply exact_readUint16; lia|].
  rewrite <- (string_bytes_round s) at 2. by apply exact_map, exact_readFull.
Qed.

Lemma encode_vector_exact e v :
  wf_vector v → ∃ bs, encode_vector e v = Ok bs ∧ bs ≠ [] ∧ exact decode_vector v bs.
Proof.
  intros [Hl Hv]. unfold MaxUint32 in Hl. pose proof (len_nonneg v).
  eexists. unfold encode_vector. rewrite safe32_ok by (unfold MaxUint32; lia).
  split_and!; [done|done|].
  eapply exact_bind; [apply exact_readUint32; lia|]. unfold len. rewrite Nat2Z.id.
  apply exact_readN. eapply Forall_impl; [|exact Hv]. eauto with exact.
Qed.

Lemma encode_payload_exact pl :
  wf_payload pl → ∃ bs, encode_payload pl = Ok bs ∧ exact (decode_payload None) pl bs.
Proof.
  intros (Hj & bs & Hm & Hl). unfold MaxUint32 in Hl. pose proof (Marshal_nonempty _ _ Hm).
  assert (0 < len bs) by (destruct bs; [done|unfold len; simpl; lia]).
  eexists. unfold encode_payload. rewrite Hm, safe32_ok by (unfold MaxUint32; lia).
  split; [done|].
  eapply exact_bind; [apply exact_readUint32; lia|]. rewrite (proj2 (Z.ltb_lt _ _)) by done.
  rewrite <- (app_nil_r bs) at 2. eapply exact_bind; [by apply exact_readFull|].
  rewrite (Unmarshal_Marshal _ _ Hj Hm). apply exact_ret.
Qed.

Lemma encode_sparse_exact s :
  wf_sparse s → ∃ bs, encode_sparse (Some s) = Ok (putBool true ++ bs) ∧ bs ≠ [] ∧
    exact decode_sparse s bs.
Proof.
  intros (Hl & Hlen & Hi & Hv). unfold MaxUint32 in Hl. pose proof (len_nonneg (sv_Indices s)).
  eexists. unfold encode_sparse. rewrite safe32_ok by (unfold MaxUint32; lia).
  split_and!; [done|done|].
  eapply exact_bind; [apply exact_readUint32; lia|]. unfold len. rewrite Nat2Z.id.
  eapply exact_bind.
  - apply exact_readN. eapply Forall_impl; [|exact Hi]. eauto with exact.
  - rewrite Hlen. destruct s as [ixs vs]. simpl in *.
    apply (exact_map _ (mkSparse ixs)), exact_readN.
    eapply Forall_impl; [|exact Hv]. eauto with exact.
Qed.

Lemma encode_named_exact named acc :
  (∀ name v, (name, v) ∈ named → wf_name name ∧ wf_vector v) → NoDup named.*1 →
  (∀ name, name ∈ named.*1 → acc !! name = None) →
  ∃ bs, encode_named named = Ok bs ∧
    exact (decode_named (length named) acc) (list_to_map named ∪ acc) bs.
Proof.
  revert acc. induction named as [|[name v] named IH]; intros acc Hwf Hnd Hacc.
  - exists []. split; [done|]. simpl. rewrite map_empty_union. apply exact_ret.
  - simpl in Hnd. inversion Hnd as [|? ? Hn Hnd']; subst.
    destruct (Hwf name v) as [Hname Hv]; [by left|].
    destruct (encode_string_exact ErrNameTooLong name Hname) as (a & Ea & _ & Ha).
    destruct (encode_vector_exact ErrNamedTooLarge v Hv) as (b & Eb & _ & Hb).
    destruct (IH (<[name := v]> acc)) as (c & Ec & Hc); [|done| |].
    { intros n w Hw. apply Hwf. by right. }
    { intros n Hn'. rewrite lookup_insert_ne by (by intros ->). apply Hacc. by right. }
    exists (a ++ b ++ c). simpl. rewrite Ea. simpl. rewrite Eb. simpl. rewrite Ec. split; [done|].
    eapply exact_bind; [exact Ha|]. eapply exact_bind; [exact Hb|].
    rewrite <- insert_union_l, insert_union_r.
    + exact Hc.
    + apply not_elem_of_list_to_map_1. done.
Qed.

(** ** The optional tail *)
Lemma or_eof_whole {A} (m : Reader A) x a rest :
  exact m x a → or_eof m (a ++ rest) = (Ok (Some x), rest).
Proof. intros Hm. unfold or_eof. by rewrite (exact_whole Hm). Qed.

Lemma or_eof_uint n b :
  b ≠ [] → len b < n → or_eof (readUint n) b = (Err ErrUnexpectedEOF, []).
Proof.
  intros Hb Hn. unfold or_eof, readUint, readFull, mbind, M_bind. pose proof (len_nonneg b).
  rewrite (proj2 (Z.leb_gt _ _)) by lia. destruct b as [|x b]; [done|].
  by rewrite (proj2 (Z.ltb_lt _ _)) by lia.
Qed.

Lemma cut_bind {A B} (m : Reader A) (f : A → Reader B) x a1 a2 b c :
  exact m x a1 → a1 ++ a2 = b ++ c → c ≠ [] →
  fails (m ≫= f) b ∨ ∃ k, b = a1 ++ k ∧ a2 = k ++ c ∧ (m ≫= f) b = f x k.
Proof.
  intros Hm E Hc. destruct (app_cut _ _ _ _ E Hc) as [(k & Hk & E')|(k & -> & E')].
  - left. destruct (exact_prefix Hm b k E' Hk) as (e & s & Hb). exists e, s. by apply M_bind_Err.
  - right. exists k. split_and!; [done..|]. unfold mbind, M_bind. by rewrite (exact_whole Hm).
Qed.

(** An optional field of [n] bytes: absent at the end, otherwise read whole. *)
Lemma cut_eof {B} (f : option Z → Reader B) n z a2 b c :
  0 ≤ z < 256 ^ Z.of_nat n → le_put n z ++ a2 = b ++ c → c ≠ [] →
  b = [] ∨ fails (or_eof (readUint (Z.of_nat n)) ≫= f) b ∨
  ∃ k, b = le_put n z ++ k ∧ a2 = k ++ c ∧
    (or_eof (readUint (Z.of_nat n)) ≫= f) b = f (Some z) k.
Proof.
  intros Hz E Hc. destruct (decide (b = [])) as [|Hb]; [by left|right].
  destruct (app_cut _ _ _ _ E Hc) as [(k & Hk & E')|(k & -> & E')].
  - left. eexists _, _. apply M_bind_Err, or_eof_uint; [done|].
    assert (Hl : len (b ++ k) = Z.of_nat n) by (unfold len; by rewrite <- E', length_le_put).
    rewrite len_app in Hl. destruct k; [done|]. rewrite len_cons in Hl.
    pose proof (len_nonneg k). lia.
  - right. exists k. split_and!; [done..|]. unfold mbind, M_bind.
    by rewrite (or_eof_whole _ z) by (by apply exact_readUint).
Qed.

Definition decode_entries (n : Z) : Reader (option (gmap string Vector)) :=
  if 0 <? n then m ← decode_named (Z.to_nat n) ∅; mret (Some m) else mret None.

Lemma entries_size {A} (m : option (gmap string A)) named :
  named ≡ₚ entries m → len named = map_len m.
Proof.
  intros H. unfold len. rewrite (Permutation_length H). destruct m as [m|]; [|done].
  unfold map_len, entries. by rewrite length_map_to_list.
Qed.

Lemma encode_entries_exact p named :
  wf_point p → named ≡ₚ entries (pt_NamedVectors p) →
  ∃ bs, encode_named named = Ok bs ∧
    exact (decode_entries (map_len (pt_NamedVectors p))) (pt_NamedVectors (stored p)) bs.
Proof.
  intros Hp Hnamed. rewrite <- (entries_size _ _ Hnamed).
  assert (Hmap : ∃ m : gmap string Vector, named ≡ₚ map_to_list m ∧
    pt_NamedVectors (stored p) = if len named =? 0 then None else Some m).
  { rewrite (entries_size _ _ Hnamed). unfold stored. simpl.
    destruct (pt_NamedVectors p) as [m|]; [by exists m|]. by exists ∅. }
  destruct Hmap as (m & Hm & ->).
  destruct (encode_named_exact named ∅) as (bs & Ebs & Hbs).
  { intros name v Hin. apply (wf_named p Hp). by rewrite <- Hnamed. }
  { rewrite Hm. apply NoDup_fst_map_to_list. }
  { intros. apply lookup_empty. }
  exists bs. split; [done|]. unfold decode_entries.
  rewrite map_union_empty in Hbs.
  rewrite (list_to_map_proper named (map_to_list m)), list_to_map_to_list in Hbs; [|..|done].
  2: { rewrite Hm. apply NoDup_fst_map_to_list. }
  destruct named as [|x named]; [simpl in *; injection Ebs as <-; apply exact_ret|].
  rewrite (proj2 (Z.ltb_lt _ _)), (proj2 (Z.eqb_neq _ _)) by (unfold len; simpl; lia).
  apply (exact_map _ Some). unfold len. by rewrite Nat2Z.id.
Qed.

(** ** The parts of an encoded point *)
Record parts (p : Point) (a b c d e : list byte) : Prop := {
  part_id : exact decode_string (pt_ID p) a;
  part_vec : exact decode_vector (pt_Vector p) b;
  part_payload : exact (decode_payload None) (pt_Payload p) c;
  part_named : exact (decode_entries (map_len (pt_NamedVectors p))) (pt_NamedVectors (stored p)) d;
  part_sparse : match pt_Sparse p with
                | None => e = putBool false
                | Some s => ∃ bs, e = putBool true ++ bs ∧ exact decode_sparse s bs
                end
}.

Definition layout (p : Point) (a b c d e : list byte) : list byte :=
  a ++ b ++ c ++ PutUint16 (map_len (pt_NamedVectors p)) ++ d ++ PutUint64 (pt_Version p) ++ e.

Lemma Encode_parts p named :
  wf_point p → wf_payload (pt_Payload p) → named ≡ₚ entries (pt_NamedVectors p) →
  ∃ a b c d e, Encode p named = Ok (layout p a b c d e) ∧ parts p a b c d e.
Proof.
  intros Hp Hpl Hn.
  destruct (encode_string_exact ErrIDTooLong _ (wf_id p Hp)) as (a & Ea & _ & Ha).
  destruct (encode_vector_exact ErrVectorTooLarge _ (wf_vec p Hp)) as (b & Eb & _ & Hb).
  destruct (encode_payload_exact _ Hpl) as (c & Ec & Hc).
  destruct (encode_entries_exact p named Hp Hn) as (d & Ed & Hd).
  assert (He : ∃ e, encode_sparse (pt_Sparse p) = Ok e ∧
    match pt_Sparse p with None => e = putBool false
    | Some s => ∃ bs, e = putBool true ++ bs ∧ exact decode_sparse s bs end).
  { destruct (pt_Sparse p) as [s|] eqn:E; [|by eexists].
    destruct (encode_sparse_exact s (wf_sp p Hp s E)) as (bs & Es & _ & Hs). eauto. }
  destruct He as (e & Ee & He).
  exists a, b, c, d, e. split; [|by split].
  unfold Encode. rewrite Ea. simpl. rewrite Eb. simpl. rewrite Ec. simpl.
  rewrite safe16_ok; [simpl; rewrite Ed; simpl; by rewrite Ee|].
  pose proof (wf_named_count p Hp). rewrite <- (entries_size _ _ Hn).
  pose proof (len_nonneg named). rewrite (entries_size _ _ Hn) in *. lia.
Qed.

(** [Decode] on a fresh point, from the named vectors on and from the version on. *)
Definition decode_tail (id : string) (v : Vector) (pl : option payload)
    (named : option (gmap string Vector)) : Reader Point :=
  version ← or_eof readUint64;
  match version with
  | None => mret (mkPoint id v pl named None None 1)
  | Some version =>
      hasSparse ← or_eof readBool;
      match hasSparse with
      | Some true => s ← decode_sparse; mret (mkPoint id v pl named (Some s) None version)
      | _ => mret (mkPoint id v pl named None None version)
      end
  end.

Definition decode_rest (id : string) (v : Vector) (pl : option payload) : Reader Point :=
  numNamed ← or_eof readUint16;
  match numNamed with
  | None => mret (mkPoint id v pl None None None 1)
  | Some n => named ← decode_entries n; decode_tail id v pl named
  end.

Lemma Decode_zero :
  Decode zero_Point = (id ← decode_string; v ← decode_vector; pl ← decode_payload None;
                       decode_rest id v pl).
Proof. reflexivity. Qed.

#[local] Abbreviation tail_of p :=
  (decode_tail (pt_ID p) (pt_Vector p) (pt_Payload p) (pt_NamedVectors (stored p))).
#[local] Abbreviation rest_of p := (decode_rest (pt_ID p) (pt_Vector p) (pt_Payload p)).

Section Parts.
Context (p : Point) (a b c d e : list byte).
Context (Hp : wf_point p) (Hparts : parts p a b c d e).

Lemma Decode_rest k : Decode zero_Point (a ++ b ++ c ++ k) = rest_of p k.
Proof.
  destruct Hparts as [Ha Hb Hc _ _]. rewrite Decode_zero.
  rewrite (M_bind_run _ _ _ _ _ (exact_whole Ha _)), (M_bind_run _ _ _ _ _ (exact_whole Hb _)).
  by rewrite (M_bind_run _ _ _ _ _ (exact_whole Hc _)).
Qed.

Lemma count_range : 0 ≤ map_len (pt_NamedVectors p) < 2 ^ 16.
Proof.
  pose proof (wf_named_count p Hp) as H. unfold MaxUint16 in H. split; [|lia].
  unfold map_len. destruct (pt_NamedVectors p); lia.
Qed.

Lemma rest_tail k :
  rest_of p (PutUint16 (map_len (pt_NamedVectors p)) ++ d ++ k) = tail_of p k.
Proof.
  unfold decode_rest.
  rewrite (M_bind_run _ _ _ _ _ (or_eof_whole _ _ _ _ (exact_readUint16 _ count_range))).
  by rewrite (M_bind_run _ _ _ _ _ (exact_whole (part_named _ _ _ _ _ _ Hparts) _)).
Qed.

Lemma tail_version k :
  tail_of p (PutUint64 (pt_Version p) ++ k) =
  (hasSparse ← or_eof readBool;
   match hasSparse with
   | Some true => s ← decode_sparse;
                  mret (mkPoint (pt_ID p) (pt_Vector p) (pt_Payload p)
                          (pt_NamedVectors (stored p)) (Some s) None (pt_Version p))
   | _ => mret (legacy_dense p)
   end) k.
Proof.
  unfold decode_tail.
  by rewrite (M_bind_run _ _ _ _ _
    (or_eof_whole _ _ _ _ (exact_readUint64 _ (wf_version p Hp)))).
Qed.

Lemma Decode_layout rest : Decode zero_Point (layout p a b c d e ++ rest) = (Ok (stored p), rest).
Proof.
  unfold layout. rewrite <- !app_assoc, Decode_rest, rest_tail, tail_version.
  pose proof (part_sparse _ _ _ _ _ _ Hparts) as Hs. unfold stored.
  destruct (pt_Sparse p) as [s|] eqn:E.
  - destruct Hs as (bs & -> & Hbs). rewrite <- app_assoc.
    rewrite (M_bind_run _ _ _ _ _ (or_eof_whole _ _ _ _ (exact_readBool true))).
    by rewrite (M_bind_run _ _ _ _ _ (exact_whole Hbs rest)).
  - subst e. by rewrite (M_bind_run _ _ _ _ _ (or_eof_whole _ _ _ _ (exact_readBool false))).
Qed.

(** The three boundaries at which an older writer stopped. *)
Lemma Decode_plain : Decode zero_Point (a ++ b ++ c) = (Ok (legacy_plain p), []).
Proof. rewrite <- (app_nil_r c), Decode_rest. reflexivity. Qed.

Lemma Decode_named :
  Decode zero_Point (a ++ b ++ c ++ PutUint16 (map_len (pt_NamedVectors p)) ++ d) =
  (Ok (legacy_named p), []).
Proof. rewrite <- (app_nil_r d), Decode_rest, rest_tail. reflexivity. Qed.

Lemma Decode_dense :
  Decode zero_Point (a ++ b ++ c ++ PutUint16 (map_len (pt_NamedVectors p)) ++ d ++
    PutUint64 (pt_Version p)) = (Ok (legacy_dense p), []).
Proof.
  rewrite <- (app_nil_r (PutUint64 _)), Decode_rest, rest_tail, tail_version. reflexivity.
Qed.

(** Any other strict prefix is rejected. *)
Lemma sparse_cut k c' :
  e = k ++ c' → c' ≠ [] → k ≠ [] → fails (tail_of p) (PutUint64 (pt_Version p) ++ k).
Proof.
  intros He Hc' Hk. pose proof (part_sparse _ _ _ _ _ _ Hparts) as Hs.
  unfold fails. rewrite tail_version. destruct (pt_Sparse p) as [s|].
  - destruct Hs as (bs & E & Hbs). rewrite E in He.
    destruct k as [|x k]; [done|]. injection He as <- He.
    destruct (exact_prefix Hbs k c' He Hc') as (er & s' & Hf). exists er, s'.
    rewrite (M_bind_run _ _ _ _ _ (or_eof_whole _ _ _ k (exact_readBool true))).
    by apply M_bind_Err.
  - subst e. destruct k as [|x k]; [done|]. destruct k, c'; done.
Qed.

Lemma layout_cut k c' :
  layout p a b c d e = k ++ c' → c' ≠ [] →
  k ≠ a ++ b ++ c → k ≠ a ++ b ++ c ++ PutUint16 (map_len (pt_NamedVectors p)) ++ d →
  k ≠ a ++ b ++ c ++ PutUint16 (map_len (pt_NamedVectors p)) ++ d ++ PutUint64 (pt_Version p) →
  fails (Decode zero_Point) k.
Proof.
  intros E Hc' N1 N2 N3. unfold layout in E. rewrite Decode_zero.
  destruct (cut_bind _ (λ id, v ← decode_vector; pl ← decode_payload None; decode_rest id v pl)
    _ _ _ _ _ (part_id _ _ _ _ _ _ Hparts) E Hc') as [Hf|(k1 & -> & E1 & Hk)]; [done|].
  unfold fails. rewrite Hk.
  destruct (cut_bind _ (λ v, pl ← decode_payload None; decode_rest (pt_ID p) v pl)
    _ _ _ _ _ (part_vec _ _ _ _ _ _ Hparts) E1 Hc') as [Hf|(k2 & -> & E2 & Hk2)]; [done|].
  rewrite Hk2.
  destruct (cut_bind _ (λ pl, decode_rest (pt_ID p) (pt_Vector p) pl)
    _ _ _ _ _ (part_payload _ _ _ _ _ _ Hparts) E2 Hc') as [Hf|(k3 & -> & E3 & Hk3)]; [done|].
  rewrite Hk3. unfold decode_rest.
  destruct (cut_eof (λ n, match n with
      | None => mret (legacy_plain p)
      | Some n => named ← decode_entries n;
                  decode_tail (pt_ID p) (pt_Vector p) (pt_Payload p) named end)
    2 _ _ _ _ count_range E3 Hc') as [->|[Hf|(k4 & -> & E4 & Hk4)]].
  { by rewrite app_nil_r in N1. } { exact Hf. }
  setoid_rewrite Hk4.
  destruct (cut_bind _ (λ nm, decode_tail (pt_ID p) (pt_Vector p) (pt_Payload p) nm)
    _ _ _ _ _ (part_named _ _ _ _ _ _ Hparts) E4 Hc') as [Hf|(k5 & -> & E5 & Hk5)]; [done|].
  rewrite Hk5.
  destruct (app_cut _ _ _ _ E5 Hc') as [(k6 & Hk6 & E6)|(k6 & -> & E6)].
  - assert (Hne : k5 ≠ []) by (intros ->; by rewrite app_nil_r in N2).
    eexists _, _. apply M_bind_Err, (or_eof_uint 8); [done|].
    assert (Hl : len (k5 ++ k6) = 8) by (by rewrite <- E6).
    rewrite len_app in Hl. destruct k6; [done|]. rewrite len_cons in Hl.
    pose proof (len_nonneg k6). lia.
  - apply (sparse_cut k6 c' E6 Hc'). intros ->. by rewrite app_nil_r in N3.
Qed.
End Parts.

(** ** Properties *)

(** C30. A point that fits the format is encoded, whatever order its named vectors are
    met in, and [Decode] gives it back, without its multi vectors, leaving what
    follows. Of the strict prefixes of the encoding exactly three are decoded, the
    ones an older writer produced (no named vectors, no version, no sparse vector);
    every other truncation is rejected. *)
Theorem point_roundtrip p named :
  wf_point p → wf_payload (pt_Payload p) → named ≡ₚ entries (pt_NamedVectors p) →
  ∃ bs, Encode p named = Ok bs ∧
    (∀ rest, Decode zero_Point (bs ++ rest) = (Ok (stored p), rest)) ∧
    ∃ n1 n2 n3, (n1 < n2 < n3)%nat ∧ (n3 < length bs)%nat ∧
      Decode zero_Point (take n1 bs) = (Ok (legacy_plain p), []) ∧
      Decode zero_Point (take n2 bs) = (Ok (legacy_named p), []) ∧
      Decode zero_Point (take n3 bs) = (Ok (legacy_dense p), []) ∧
      ∀ n, (n < length bs)%nat → n ≠ n1 → n ≠ n2 → n ≠ n3 →
        ∃ err s, Decode zero_Point (take n bs) = (Err err, s).
Proof.
  intros Hp Hpl Hn. destruct (Encode_parts p named Hp Hpl Hn) as (a & b & c & d & e & HE & Hparts).
  exists (layout p a b c d e). split; [done|].
  split; [intros rest; by apply Decode_layout|].
  set (x1 := a ++ b ++ c). set (x2 := x1 ++ PutUint16 (map_len (pt_NamedVectors p)) ++ d).
  set (x3 := x2 ++ PutUint64 (pt_Version p)).
  assert (Hx3 : layout p a b c d e = x3 ++ e)
    by (unfold layout, x3, x2, x1; by rewrite <- !app_assoc).
  assert (L2 : (length x1 < length x2)%nat) by (unfold x2; rewrite !length_app; simpl; lia).
  assert (L3 : (length x2 < length x3)%nat) by (unfold x3; rewrite length_app; simpl; lia).
  assert (Le : (0 < length e)%nat).
  { pose proof (part_sparse _ _ _ _ _ _ Hparts) as Hs.
    destruct (pt_Sparse p); [destruct Hs as (bs & -> & _)|subst e]; simpl; lia. }
  assert (T1 : take (length x1) (layout p a b c d e) = x1).
  { rewrite Hx3. unfold x3, x2. rewrite <- !app_assoc. apply take_app_length. }
  assert (T2 : take (length x2) (layout p a b c d e) = x2).
  { rewrite Hx3. unfold x3. rewrite <- app_assoc. apply take_app_length. }
  assert (T3 : take (length x3) (layout p a b c d e) = x3)
    by (rewrite Hx3; apply take_app_length).
  exists (length x1), (length x2), (length x3). rewrite T1, T2, T3.
  split_and!; [lia..| | | | |].
  - rewrite Hx3, length_app. lia.
  - by eapply Decode_plain.
  - unfold x2, x1. rewrite <- !app_assoc. by eapply Decode_named.
  - unfold x3, x2, x1. rewrite <- !app_assoc. by eapply Decode_dense.
  - intros n Hlt N1 N2 N3. pose proof (take_drop n (layout p a b c d e)) as E.
    assert (Hl : length (take n (layout p a b c d e)) = n) by (rewrite length_take; lia).
    apply (layout_cut p a b c d e Hp Hparts _ (drop n (layout p a b c d e))).
    + done.
    + intros Hd. apply (f_equal length) in Hd. rewrite length_drop in Hd. simpl in Hd. lia.
    + fold x1. congruence.
    + intros H. apply N2. rewrite <- Hl, H. unfold x2, x1. by rewrite <- !app_assoc.
    + intros H. apply N3. rewrite <- Hl, H. unfold x3, x2, x1. by rewrite <- !app_assoc.
Qed.

(** *** What Decode returns is well typed *)
Lemma returns_string : returns decode_string wf_name.
Proof.
  rbind (by apply (returns_readUint 2)). intros n Hn.
  rbind (apply (returns_readFull n); lia). intros bs Hl.
  apply returns_ret. unfold wf_name, MaxUint16, bytes_of_string, string_of_bytes.
  rewrite String.list_byte_of_string_of_list_byte. lia.
Qed.

Lemma returns_vector : returns decode_vector wf_vector.
Proof.
  rbind (by apply (returns_readUint 4)). intros n Hn r v s H.
  destruct (returns_readN _ _ _ returns_readFloat32 r v s H) as [Hl Hv].
  split; [|done]. unfold len, MaxUint32. rewrite Hl. lia.
Qed.

Lemma returns_sparse : returns decode_sparse wf_sparse.
Proof.
  rbind (by apply (returns_readUint 4)). intros n Hn.
  rbind (apply returns_readN, (returns_readUint 4); lia). intros indices [Hi Hif].
  rbind (apply returns_readN, returns_readFloat32). intros vs [Hv Hvf].
  apply returns_ret. unfold wf_sparse, len, MaxUint32. simpl. split_and!; [lia|lia|done..].
Qed.

Lemma returns_named n acc :
  returns (decode_named n acc) (λ m,
    (size m ≤ n + size acc)%nat ∧ (0 < n + size acc → 0 < size m)%nat ∧
    ((∀ k v, acc !! k = Some v → wf_name k ∧ wf_vector v) →
     ∀ k v, m !! k = Some v → wf_name k ∧ wf_vector v)).
Proof.
  revert acc. induction n as [|n IH]; intros acc; [by apply returns_ret|].
  rbind (apply returns_string). intros k Hk.
  rbind (apply returns_vector). intros v Hv r m s H.
  destruct (IH _ r m s H) as (Hs & Hpos & Hall).
  assert (Hins : (size (<[k := v]> acc) ≤ S (size acc))%nat ∧ (0 < size (<[k := v]> acc))%nat).
  { destruct (acc !! k) as [w|] eqn:E.
    - rewrite map_size_insert_Some by eauto. split; [lia|].
      destruct (decide (size acc = 0%nat)) as [Hz|]; [|lia].
      apply map_size_empty_inv in Hz. subst acc. by rewrite lookup_empty in E.
    - rewrite map_size_insert_None by done. lia. }
  split_and!; [lia|lia|].
  intros Hacc. apply Hall. intros k' v'. rewrite lookup_insert_Some.
  intros [[<- <-]|[_ ?]]; auto.
Qed.

Definition wf_map (m : option (gmap string Vector)) : Prop :=
  map_len m ≤ MaxUint16 ∧ (map_len m = 0 → m = None) ∧
  ∀ k v, (k, v) ∈ entries m → wf_name k ∧ wf_vector v.

Lemma returns_entries n : 0 ≤ n < 2 ^ 16 → returns (decode_entries n) wf_map.
Proof.
  intros Hn. unfold decode_entries. destruct (Z.ltb_spec 0 n).
  - rbind (apply returns_named). intros m (Hs & Hpos & Hall).
    rewrite map_size_empty in Hs, Hpos. apply returns_ret. unfold wf_map, map_len, MaxUint16.
    split_and!; [lia|lia|]. intros k v Hkv. simpl in Hkv. apply elem_of_map_to_list in Hkv.
    by apply Hall in Hkv.
  - apply returns_ret. split_and!; [done|done|]. intros k v Hkv. by apply elem_of_nil in Hkv.
Qed.

Lemma returns_or_eof {A} (m : Reader A) P :
  returns m P → returns (or_eof m) (λ o, ∀ x, o = Some x → P x).
Proof.
  intros Hm r o s. unfold or_eof. destruct (m r) as [[x|[]|] s'] eqn:E; intros [= <- <-] y; [|done].
  intros [= <-]. eauto.
Qed.

Lemma returns_tail id v pl named :
  wf_name id → wf_vector v → wf_map named →
  returns (decode_tail id v pl named) (λ p, wf_point p ∧ stored p = p).
Proof.
  intros Hid Hv (Hc & Hz & Hall). unfold decode_tail.
  assert (Hw : ∀ version sp, 0 ≤ version < 2 ^ 64 → (∀ s, sp = Some s → wf_sparse s) →
    wf_point (mkPoint id v pl named sp None version) ∧
    stored (mkPoint id v pl named sp None version) = mkPoint id v pl named sp None version).
  { intros version sp Hver Hsp. split; [by split|]. unfold stored. simpl. f_equal.
    destruct (Z.eqb_spec (map_len named) 0); [symmetry|]; auto. }
  rbind (apply returns_or_eof, (returns_readUint 8); lia).
  intros [version|] Hver; [|by apply returns_ret, Hw].
  specialize (Hver version eq_refl).
  rbind (apply returns_true).
  intros [[]|] _; [|by apply returns_ret, Hw..].
  rbind (apply returns_sparse). intros s Hs.
  apply returns_ret, Hw; [done|]. by intros ? [= <-].
Qed.

(** C32. Whatever bytes it is given, a point that [Decode] returns fits the format:
    lengths within the length fields, canonical float32 values, as many sparse
    values as indices, all of them uint32, a uint64 version. Hence, if its
    payload can be written back, encoding it and decoding again changes nothing. *)
Theorem decode_typed r p s :
  Decode zero_Point r = (Ok p, s) →
  wf_point p ∧ (wf_payload (pt_Payload p) → ∀ named, named ≡ₚ entries (pt_NamedVectors p) →
    ∃ bs, Encode p named = Ok bs ∧ Decode zero_Point bs = (Ok p, [])).
Proof.
  intros H.
  assert (Hp : wf_point p ∧ stored p = p).
  { revert r p s H. fold (returns (Decode zero_Point) (λ p, wf_point p ∧ stored p = p)).
    rewrite Decode_zero. rbind (apply returns_string). intros id Hid.
    rbind (apply returns_vector). intros v Hv.
    rbind (apply returns_true). intros pl _. unfold decode_rest.
    rbind (apply returns_or_eof, (returns_readUint 2); lia).
    intros [n|] Hn.
    - rbind (by apply returns_entries, Hn). intros named Hnamed.
      by apply returns_tail.
    - apply returns_ret. split; [|done]. split; simpl; try done.
      intros ? ? Hkv. by apply elem_of_nil in Hkv. }
  destruct Hp as [Hp Hst]. split; [done|]. intros Hpl named Hn.
  destruct (Encode_parts p named Hp Hpl Hn) as (a & b & c & d & e & HE & Hparts).
  eexists. split; [exact HE|]. rewrite <- (app_nil_r (layout _ _ _ _ _ _)).
  rewrite (Decode_layout p a b c d e Hp Hparts). by rewrite Hst.
Qed.
End codec.

(** *** Validation *)
Lemma check_vector_ok i v : check_vector i v = Ok tt ↔ Forall (λ x, not_finite x = false) v.
Proof.
  revert i. induction v as [|x v IH]; intros i; simpl; [done|].
  rewrite Forall_cons_iff, <- (IH (i + 1)). destruct (not_finite x); naive_solver.
Qed.

Lemma check_named_ok named :
  check_named named = Ok tt ↔ ∀ k v, (k, v) ∈ named → Forall (λ x, not_finite x = false) v.
Proof.
  induction named as [|[k v] named IH]; simpl.
  - split; [|done]. intros _ k v Hin. by apply elem_of_nil in Hin.
  - destruct (check_vector 0 v) as [[]|err|] eqn:E; simpl.
    + rewrite IH. split; intros H k' v' Hin; [|by apply (H k'); right].
      apply elem_of_cons in Hin as [[= -> ->]|Hin]; [|by eapply H]. by eapply check_vector_ok.
    + split; [done|]. intros H. specialize (H k v (list_elem_of_here _ _)).
      apply (check_vector_ok 0) in H. congruence.
    + split; [done|]. intros H. specialize (H k v (list_elem_of_here _ _)).
      apply (check_vector_ok 0) in H. congruence.
Qed.

(** [Validate] accepts exactly the points with an identifier and some vector whose
    dense and named components are all finite, whatever order the map is met in.
    Sparse and multi vectors are not looked at. *)
Theorem validate_exact p named :
  named ≡ₚ entries (pt_NamedVectors p) →
  Validate p named = Ok tt ↔
    pt_ID p ≠ ""%string ∧
    (pt_Vector p ≠ [] ∨ entries (pt_NamedVectors p) ≠ [] ∨ pt_Sparse p ≠ None) ∧
    Forall (λ x, not_finite x = false) (pt_Vector p) ∧
    ∀ k v, (k, v) ∈ entries (pt_NamedVectors p) → Forall (λ x, not_finite x = false) v.
Proof.
  intros Hn.
  assert (Hall : (∀ k v, (k, v) ∈ entries (pt_NamedVectors p) →
      Forall (λ x, not_finite x = false) v) ↔ check_named named = Ok tt).
  { rewrite check_named_ok. split; intros H k v Hin; apply (H k); [by rewrite <- Hn|by rewrite Hn]. }
  pose proof (check_vector_ok 0 (pt_Vector p)) as Hv.
  enough (Validate p named = Ok tt ↔ pt_ID p ≠ ""%string ∧
      (pt_Vector p ≠ [] ∨ entries (pt_NamedVectors p) ≠ [] ∨ pt_Sparse p ≠ None) ∧
      check_vector 0 (pt_Vector p) = Ok tt ∧ check_named named = Ok tt) by tauto.
  clear Hall Hv. unfold Validate.
  rewrite <- (entries_size _ _ Hn).
  assert (Hnil : named = [] ↔ entries (pt_NamedVectors p) = []).
  { split; intros E; rewrite E in Hn;
      [by apply Permutation_nil_l in Hn|by apply Permutation_nil_r in Hn]. }
  set (none := _ && _ && _).
  assert (Hnone : none = false ↔
    (pt_Vector p ≠ [] ∨ entries (pt_NamedVectors p) ≠ [] ∨ pt_Sparse p ≠ None)).
  { unfold none. destruct (pt_Vector p), named, (pt_Sparse p); simpl; naive_solver. }
  destruct (String.eqb_spec (pt_ID p) ""), none, (check_vector 0 (pt_Vector p)) as [[]| |];
    simpl; naive_solver.
Qed.

(** ** A concrete point *)

(** Enough of [encoding/json] to write nil and empty payloads. *)
Definition demo_marshal (p : option payload) : option (list byte) :=
  match p with
  | None => Some (bytes_of_string "null")
  | Some [] => Some (bytes_of_string "{}")
  | _ => None
  end.
Definition demo_unmarshal (bs : list byte) (old : option payload) : option (option payload) :=
  if decide (bs = bytes_of_string "null") then Some None
  else if decide (bs = bytes_of_string "{}") then
    Some (Some (match old with Some m => m | None => [] end))
  else None.

#[export] Program Instance demo_json : Json := {|
  Marshal := demo_marshal;
  Unmarshal := demo_unmarshal;
  json_payload p := p = None ∨ p = Some []
|}.
Next Obligation. by intros [[]|] bs [= <-]. Qed.
Next Obligation. by intros p bs [->| ->] [= <-]. Qed.

Definition one : f32 := f32_of_Z 1.

Definition demo_point : Point :=
  mkPoint "p1" [one; f32_of_Z 2] (Some []) (Some {["title"%string := [one]]})
    (Some (mkSparse [7; 9] [one; one])) None 3.

Lemma demo_vector_wf v : len v ≤ 2 → Forall valid_f32 v → wf_vector v.
Proof. split; [unfold MaxUint32; lia|done]. Qed.

Lemma demo_point_wf : wf_point demo_point.
Proof.
  assert (Hone : valid_f32 one) by reflexivity.
  assert (Htwo : valid_f32 (f32_of_Z 2)) by reflexivity.
  split; cbn [demo_point pt_ID pt_Vector pt_NamedVectors pt_Sparse pt_Version].
  - apply Z.leb_le. reflexivity.
  - apply demo_vector_wf; [by apply Z.leb_le|]. repeat constructor; done.
  - apply Z.leb_le. reflexivity.
  - intros name v Hin. unfold entries in Hin. rewrite map_to_list_singleton in Hin.
    apply list_elem_of_singleton in Hin. injection Hin as -> ->.
    split; [by apply Z.leb_le|]. apply demo_vector_wf; [by apply Z.leb_le|].
    repeat constructor; done.
  - intros s [= <-]. unfold wf_sparse. cbn [sv_Indices sv_Values].
    split_and!; [by apply Z.leb_le|reflexivity|repeat constructor; lia|repeat constructor; done].
  - lia.
Qed.

Lemma demo_named : [("title"%string, [one])] ≡ₚ entries (pt_NamedVectors demo_point).
Proof. unfold entries, demo_point; cbn. by rewrite map_to_list_singleton. Qed.

Lemma demo_point_payload : wf_payload (pt_Payload demo_point).
Proof. split; [by right|]. by eexists. Qed.

Lemma point_roundtrip_witness :
  ∃ bs, Encode demo_point [("title"%string, [one])] = Ok bs ∧
    Decode zero_Point bs = (Ok demo_point, []) ∧
    Decode zero_Point (take 22 bs) = (Ok (legacy_plain demo_point), []).
Proof.
  destruct (point_roundtrip demo_point [("title"%string, [one])] demo_point_wf demo_point_payload
    demo_named) as (bs & E & H & _).
  exists bs. split; [exact E|]. split.
  - specialize (H []). rewrite app_nil_r in H. exact H.
  - assert (Ebs : bs = match Encode demo_point [("title"%string, [one])] with
                       | Ok bs => bs | _ => [] end) by (by rewrite E).
    rewrite Ebs. vm_compute. reflexivity.
Defined.

Lemma decode_typed_witness :
  ∃ bs, Encode demo_point [("title"%string, [one])] = Ok bs ∧ wf_point demo_point ∧
    Decode zero_Point bs = (Ok demo_point, []).
Proof.
  eexists. split; [vm_compute; reflexivity|].
  assert (E : Decode zero_Point (match Encode demo_point [("title"%string, [one])] with
    | Ok bs => bs | _ => [] end) = (Ok demo_point, [])) by (vm_compute; reflexivity).
  destruct (decode_typed _ _ _ E) as [Hwf _]. split; [exact Hwf|]. vm_compute. reflexivity.
Defined.

Lemma validate_exact_witness : Validate demo_point [("title"%string, [one])] = Ok tt.
Proof.
  apply (validate_exact demo_point _ demo_named). split; [done|]. split; [by left|].
  split; [by repeat constructor|]. intros k v Hin. rewrite <- demo_named in Hin.
  apply list_elem_of_singleton in Hin. injection Hin as -> ->. by repeat constructor.
Defined.
