(* ===== verification/PointV2.v ===== *)
(** * pkg/point/named_vectors.go: points with named vectors

    [PointV2] with its accessors, validation, conversions and binary format,
    version 2. The parts of the format are those of Point.v, read by the same
    exact readers. *)
From stdpp Require Import base gmap strings list fin_maps numbers.
From Stdlib Require Import Strings.Byte ZArith Lia Floats.SpecFloat.
From S2P Require Import Prelude Float32 Distance PayloadFilter Binary Point.

#[local] Open Scope Z_scope.

Abbreviation NamedVectors := (gmap string Vector).

Record PointV2 := mkPointV2 {
  p2_ID : string;
  p2_Vector : Vector;
  p2_Vectors : option NamedVectors;
  p2_Payload : option payload;
  p2_Sparse : option SparseVector;
  p2_MultiVectors : option (gmap string (list Vector));
  p2_Version : Z
}.

Definition zero_PointV2 : PointV2 := mkPointV2 "" [] None None None None 0.

Definition NewPointV2WithID (id : string) (vectors : option NamedVectors) (pl : option payload) :
    PointV2 := mkPointV2 id [] vectors pl None None 1.
(** The identifier is what [uuid.New().String()] returned. *)
Definition NewPointV2 (uuid : string) (vectors : option NamedVectors) (pl : option payload) :
    PointV2 := NewPointV2WithID uuid vectors pl.
Definition NewPointV2FromSingle (id : string) (vector : Vector) (pl : option payload) : PointV2 :=
  mkPointV2 id vector None pl None None 1.

(** ** Accessors *)
Definition vectors_of (p : PointV2) : NamedVectors := default ∅ (p2_Vectors p).

Definition is_default (name : string) : bool := String.eqb name "" || String.eqb name "default".

Definition GetVector (p : PointV2) (name : string) : option Vector :=
  if is_default name then
    if 0 <? len (p2_Vector p) then Some (p2_Vector p)
    else match vectors_of p !! "default"%string with
    | Some v => Some v
    | None => match map_to_list (vectors_of p) with [(_, v)] => Some v | _ => None end
    end
  else vectors_of p !! name.

Definition SetVector (name : string) (vector : Vector) (p : PointV2) : PointV2 :=
  if is_default name then
    mkPointV2 (p2_ID p) vector (p2_Vectors p) (p2_Payload p) (p2_Sparse p) (p2_MultiVectors p)
      (p2_Version p)
  else
    mkPointV2 (p2_ID p) (p2_Vector p) (Some (<[name := vector]> (vectors_of p))) (p2_Payload p)
      (p2_Sparse p) (p2_MultiVectors p) (p2_Version p).

Definition VectorNames {order : MapOrder string} (p : PointV2) : list string :=
  (if 0 <? len (p2_Vector p) then ["default"%string] else []) ++ (map_range (vectors_of p)).*1.

Definition HasVector (p : PointV2) (name : string) : bool :=
  match GetVector p name with Some _ => true | None => false end.

Definition DimensionOf (p : PointV2) (name : string) : Z :=
  match GetVector p name with Some v => len v | None => 0 end.

(** ** Clone, validation, normalisation, conversions *)
Definition Clone2 (p : PointV2) : PointV2 :=
  mkPointV2 (p2_ID p) (p2_Vector p)
    (if 0 <? map_len (p2_Vectors p) then p2_Vectors p else None)
    (p2_Payload p) (p2_Sparse p) None (p2_Version p).

Definition validateVector (v : Vector) : result pointError unit :=
  if len v =? 0 then Err ErrEmptyVector else check_vector 0 v.

Fixpoint validate_named (named : list (string * Vector)) : result pointError unit :=
  match named with
  | [] => Ok tt
  | (_, v) :: named => validateVector v;; validate_named named
  end.

Definition Validate2 {order : MapOrder string} (p : PointV2) : result pointError unit :=
  if String.eqb (p2_ID p) "" then Err ErrEmptyID
  else if (len (p2_Vector p) =? 0) && (map_len (p2_Vectors p) =? 0) &&
          match p2_Sparse p with None => true | Some _ => false end
  then Err ErrEmptyVector
  else
    (if 0 <? len (p2_Vector p) then validateVector (p2_Vector p) else Ok tt);;
    validate_named (map_range (vectors_of p)).

(** [vec.Normalize()] writes through the slice the map holds. *)
Definition Normalize2 (name : string) (p : PointV2) : PointV2 :=
  if is_default name then SetVector "" (Normalize (p2_Vector p)) p
  else match vectors_of p !! name with
  | Some v => SetVector name (Normalize v) p
  | None => p
  end.

Definition NormalizeAll (p : PointV2) : PointV2 :=
  mkPointV2 (p2_ID p) (Normalize (p2_Vector p)) ((λ m : gmap string Vector, Normalize <$> m) <$> p2_Vectors p) (p2_Payload p)
    (p2_Sparse p) (p2_MultiVectors p) (p2_Version p).

Definition ToPoint (p : PointV2) : Point :=
  mkPoint (p2_ID p) (default [] (GetVector p "")) (p2_Payload p) None (p2_Sparse p) None
    (p2_Version p).

Definition PointToV2 (p : Point) : PointV2 :=
  mkPointV2 (pt_ID p) (pt_Vector p) None (pt_Payload p) (pt_Sparse p) None (pt_Version p).

(** ** Encoding *)
Section codec.
Context {json : Json}.

Definition encode_name (name : string) : result pointError (list byte) :=
  let nameBytes := bytes_of_string name in
  if 255 <? len nameBytes then Err ErrNameTooLong
  else Ok (le_put 1 (Z.land (len nameBytes) 255) ++ nameBytes).

Definition writeVector (v : Vector) : result pointError (list byte) := encode_vector ErrVectorTooLarge v.

Fixpoint encode_vectors (named : list (string * Vector)) : result pointError (list byte) :=
  match named with
  | [] => Ok []
  | (name, vec) :: rest =>
      a ← encode_name name;
      b ← writeVector vec;
      c ← encode_vectors rest;
      Ok (a ++ b ++ c)
  end.

Definition Encode2 (p : PointV2) (named : list (string * Vector)) : result pointError (list byte) :=
  a ← encode_string ErrIDTooLong (p2_ID p);
  b ← writeVector (p2_Vector p);
  numVectors ← safeIntToUint16 ErrTooManyNamed (map_len (p2_Vectors p));
  c ← encode_vectors named;
  d ← encode_payload (p2_Payload p);
  Ok (le_put 1 2 ++ a ++ b ++ PutUint16 numVectors ++ c ++ d ++ PutUint64 (p2_Version p)).

(** ** Decoding *)
Definition decode_name : Reader string :=
  n ← readUint 1; bs ← readFull n; mret (string_of_bytes bs).

Definition readVector : Reader Vector :=
  dim ← readUint32;
  if dim =? 0 then mret [] else readN (Z.to_nat dim) readFloat32.

Fixpoint decode_vectors (n : nat) (acc : NamedVectors) : Reader NamedVectors :=
  match n with
  | O => mret acc
  | S n => name ← decode_name; vec ← readVector; decode_vectors n (<[name := vec]> acc)
  end.

Definition Decode2 (p : PointV2) : Reader PointV2 :=
  version ← readUint 1;
  if negb (version =? 2) then throw ErrFormat else
  id ← decode_string;
  v ← readVector;
  vecCount ← readUint16;
  vectors ← (if 0 <? vecCount then m ← decode_vectors (Z.to_nat vecCount) ∅; mret (Some m)
             else mret (p2_Vectors p));
  pl ← decode_payload (p2_Payload p);
  ver ← readUint64;
  mret (mkPointV2 id v vectors pl (p2_Sparse p) (p2_MultiVectors p) ver).

(** ** The round trip *)
Record wf_point2 (p : PointV2) : Prop := {
  wf2_id : wf_name (p2_ID p);
  wf2_vec : wf_vector (p2_Vector p);
  wf2_count : map_len (p2_Vectors p) ≤ MaxUint16;
  wf2_named : ∀ name v, (name, v) ∈ entries (p2_Vectors p) →
    len (bytes_of_string name) ≤ 255 ∧ wf_vector v;
  wf2_version : 0 ≤ p2_Version p < 2 ^ 64
}.

(** What the format keeps: sparse and multi vectors are not written. *)
Definition stored2 (p : PointV2) : PointV2 :=
  mkPointV2 (p2_ID p) (p2_Vector p)
    (if map_len (p2_Vectors p) =? 0 then None else p2_Vectors p)
    (p2_Payload p) None None (p2_Version p).

Lemma encode_name_exact name :
  len (bytes_of_string name) ≤ 255 → ∃ bs, encode_name name = Ok bs ∧ exact decode_name name bs.
Proof.
  intros Hl. pose proof (len_nonneg (bytes_of_string name)).
  eexists. unfold encode_name. rewrite (proj2 (Z.ltb_ge _ _)) by lia. split; [done|].
  change 255 with (Z.ones 8). rewrite Z.land_ones, Z.mod_small by lia.
  eapply exact_bind; [apply (exact_readUint 1); lia|].
  rewrite <- (string_bytes_round name) at 2. by apply exact_map, exact_readFull.
Qed.

Lemma writeVector_exact v : wf_vector v → ∃ bs, writeVector v = Ok bs ∧ exact readVector v bs.
Proof.
  intros Hv. destruct (encode_vector_exact ErrVectorTooLarge v Hv) as (bs & E & _ & Hbs).
  exists bs. split; [exact E|]. destruct v as [|x v].
  - unfold writeVector, encode_vector in E. injection E as <-.
    apply (exact_bind readUint32 _ 0 [] (PutUint32 0) []);
      [apply exact_readUint32; lia|apply exact_ret].
  - assert (Hsame : ∀ r y s, decode_vector r = (Ok y, s) → y ≠ [] → readVector r = (Ok y, s)).
    { intros r y s H Hy. unfold decode_vector, readVector in *.
      minv H as dim s1 E1. rewrite (M_bind_run _ _ _ _ _ E1).
      destruct (Z.eqb_spec dim 0) as [->|]; [|done]. injection H as <- <-. done. }
    split.
    + intros rest. apply Hsame; [apply (exact_whole Hbs)|done].
    + intros b c E' Hc. destruct (exact_prefix Hbs b c E' Hc) as (e & s & Hf).
      unfold fails, decode_vector, readVector, mbind, M_bind in *.
      destruct (readUint32 b) as [[dim|e'|] s1] eqn:E1; [|by eauto|done].
      destruct (Z.eqb_spec dim 0) as [->|]; [done|by eauto].
Qed.

Lemma encode_vectors_exact named acc :
  (∀ name v, (name, v) ∈ named → len (bytes_of_string name) ≤ 255 ∧ wf_vector v) →
  NoDup named.*1 → (∀ name, name ∈ named.*1 → acc !! name = None) →
  ∃ bs, encode_vectors named = Ok bs ∧
    exact (decode_vectors (length named) acc) (list_to_map named ∪ acc) bs.
Proof.
  revert acc. induction named as [|[name v] named IH]; intros acc Hwf Hnd Hacc.
  - exists []. split; [done|]. simpl. rewrite map_empty_union. apply exact_ret.
  - simpl in Hnd. inversion Hnd as [|? ? Hn Hnd']; subst.
    destruct (Hwf name v) as [Hname Hv]; [by left|].
    destruct (encode_name_exact name Hname) as (a & Ea & Ha).
    destruct (writeVector_exact v Hv) as (b & Eb & Hb).
    destruct (IH (<[name := v]> acc)) as (c & Ec & Hc); [|done| |].
    { intros n w Hw. apply Hwf. by right. }
    { intros n Hn'. rewrite lookup_insert_ne by (by intros ->). apply Hacc. by right. }
    exists (a ++ b ++ c). simpl. rewrite Ea. simpl. rewrite Eb. simpl. rewrite Ec. split; [done|].
    eapply exact_bind; [exact Ha|]. eapply exact_bind; [exact Hb|].
    rewrite <- insert_union_l, insert_union_r; [exact Hc|by apply not_elem_of_list_to_map_1].
Qed.

Definition decode_map (n : Z) : Reader (option NamedVectors) :=
  if 0 <? n then m ← decode_vectors (Z.to_nat n) ∅; mret (Some m) else mret None.

Lemma encode_map_exact p named :
  wf_point2 p → named ≡ₚ entries (p2_Vectors p) →
  ∃ bs, encode_vectors named = Ok bs ∧
    exact (decode_map (map_len (p2_Vectors p))) (p2_Vectors (stored2 p)) bs.
Proof.
  intros Hp Hnamed. rewrite <- (entries_size _ _ Hnamed).
  assert (Hmap : ∃ m : NamedVectors, named ≡ₚ map_to_list m ∧
    p2_Vectors (stored2 p) = if len named =? 0 then None else Some m).
  { rewrite (entries_size _ _ Hnamed). unfold stored2. simpl.
    destruct (p2_Vectors p) as [m|]; [by exists m|]. by exists ∅. }
  destruct Hmap as (m & Hm & ->).
  assert (Hnd : NoDup named.*1) by (rewrite Hm; apply NoDup_fst_map_to_list).
  destruct (encode_vectors_exact named ∅) as (bs & Ebs & Hbs); [|done|intros; apply lookup_empty|].
  { intros name v Hin. apply (wf2_named p Hp). by rewrite <- Hnamed. }
  exists bs. split; [done|]. unfold decode_map. rewrite map_union_empty in Hbs.
  rewrite (list_to_map_proper named (map_to_list m)), list_to_map_to_list in Hbs by done.
  destruct named as [|x named]; [simpl in *; injection Ebs as <-; apply exact_ret|].
  rewrite (proj2 (Z.ltb_lt _ _)), (proj2 (Z.eqb_neq _ _)) by (unfold len; simpl; lia).
  apply (exact_map _ Some). unfold len. by rewrite Nat2Z.id.
Qed.

(** A [PointV2] that fits the format is encoded, whatever order its vectors are met
    in, and [Decode] returns it without its sparse and multi vectors, leaving what
    follows; every strict prefix of the encoding is rejected with an error. *)
Theorem pointv2_roundtrip p named :
  wf_point2 p → wf_payload (p2_Payload p) → named ≡ₚ entries (p2_Vectors p) →
  ∃ bs, Encode2 p named = Ok bs ∧
    (∀ rest, Decode2 zero_PointV2 (bs ++ rest) = (Ok (stored2 p), rest)) ∧
    ∀ n, (n < length bs)%nat → ∃ err s, Decode2 zero_PointV2 (take n bs) = (Err err, s).
Proof.
  intros Hp Hpl Hn.
  destruct (encode_string_exact ErrIDTooLong _ (wf2_id p Hp)) as (a & Ea & _ & Ha).
  destruct (writeVector_exact _ (wf2_vec p Hp)) as (b & Eb & Hb).
  destruct (encode_map_exact p named Hp Hn) as (c & Ec & Hc).
  destruct (encode_payload_exact _ Hpl) as (d & Ed & Hd).
  assert (Hcount : 0 ≤ map_len (p2_Vectors p) < 2 ^ 16).
  { pose proof (wf2_count p Hp) as H. unfold MaxUint16 in H. split; [|lia].
    unfold map_len. destruct (p2_Vectors p); lia. }
  set (bs := le_put 1 2 ++ a ++ b ++ PutUint16 (map_len (p2_Vectors p)) ++ c ++ d ++
    PutUint64 (p2_Version p)).
  assert (Hex : exact (Decode2 zero_PointV2) (stored2 p) bs).
  { unfold Decode2, bs. eapply exact_bind; [apply (exact_readUint 1); lia|].
    eapply exact_bind; [exact Ha|]. eapply exact_bind; [exact Hb|].
    eapply exact_bind; [by apply exact_readUint16|].
    change (if 0 <? _ then _ else _) with (decode_map (map_len (p2_Vectors p))).
    eapply exact_bind; [exact Hc|]. eapply exact_bind; [exact Hd|].
    apply (exact_map readUint64 (mkPointV2 (p2_ID p) (p2_Vector p) (p2_Vectors (stored2 p))
      (p2_Payload p) None None)), exact_readUint64, Hp. }
  exists bs. split_and!.
  - unfold Encode2. rewrite Ea. simpl. rewrite Eb. simpl.
    assert (H16 : 0 ≤ map_len (p2_Vectors p) ≤ MaxUint16) by (split; [apply Hcount|apply Hp]).
    rewrite (safe16_ok _ _ H16). simpl. rewrite Ec. simpl. by rewrite Ed.
  - apply (exact_whole Hex).
  - intros n Hlt. apply (exact_prefix Hex (take n bs) (drop n bs)); [by rewrite take_drop|].
    intros E. apply (f_equal length) in E. rewrite length_drop in E. change (length []) with 0%nat in E. lia.
Qed.
End codec.

Definition demo_v2 : PointV2 :=
  mkPointV2 "p" [one] (Some {["title"%string := [one]]}) None None None 1.

Lemma pointv2_roundtrip_witness :
  ∃ bs, Encode2 demo_v2 [("title"%string, [one])] = Ok bs ∧
    Decode2 zero_PointV2 bs = (Ok demo_v2, []).
Proof.
  assert (Hone : wf_vector [one]) by (apply demo_vector_wf; [by apply Z.leb_le|repeat constructor; done]).
  assert (Hwf : wf_point2 demo_v2).
  { split; cbn [demo_v2 p2_ID p2_Vector p2_Vectors p2_Version].
    - apply Z.leb_le. reflexivity.
    - exact Hone.
    - apply Z.leb_le. reflexivity.
    - intros name v Hin. unfold entries in Hin. rewrite map_to_list_singleton in Hin.
      apply list_elem_of_singleton in Hin. injection Hin as -> ->. split; [by apply Z.leb_le|done].
    - lia. }
  assert (Hpl : wf_payload (p2_Payload demo_v2)) by (split; [by left|by eexists]).
  assert (Hn : [("title"%string, [one])] ≡ₚ entries (p2_Vectors demo_v2))
    by (unfold entries, demo_v2; cbn; by rewrite map_to_list_singleton).
  destruct (pointv2_roundtrip demo_v2 _ Hwf Hpl Hn) as (bs & E & H & _).
  exists bs. split; [exact E|]. specialize (H []). rewrite app_nil_r in H. exact H.
Defined.
