(* ===== verification/Sparse.v ===== *)
(** * pkg/index/sparse/sparse.go: sparse vectors, the inverted index, fusion

    Sparse vectors with their merge dot product and byte format, the inverted
    index over posting lists, BM25 scoring and the fusion of dense and sparse
    results. [math.Log] is an interface. *)
From stdpp Require Import base gmap strings list fin_maps numbers sorting.
From Stdlib Require Import Strings.Byte ZArith Lia Floats.SpecFloat.
From S2P Require Import Prelude Float32 Heap Hnsw HnswTheorems Distance Binary.

#[local] Open Scope Z_scope.

(** [math.Log] *)
Class MathLog := Log : f64 → f64.

#[local] Abbreviation R := (result Empty_set).

(** ** Vectors *)
Record Vec := mkVec { Indices : list Z; Values : list f32 }.

Definition NewVector (indices : list Z) (values : list f32) : Vec := mkVec indices values.

Section ops.
Context {sorter : Sorter} {order : MapOrder Z}.

Definition NewVectorFromMap (m : gmap Z f32) : Vec :=
  let indices := sort_Slice Z.ltb (map_range m).*1 in
  mkVec indices ((λ idx, default f32_zero (m !! idx)) <$> indices).

Definition Len (v : Vec) : Z := len (Indices v).

(** The merge: each round advances [i] or [j]. *)
Fixpoint dot_loop (fuel : nat) (v other : Vec) (i j : Z) (acc : f32) : R f32 :=
  match fuel with
  | O => Panic
  | S fuel =>
      if (i <? len (Indices v)) && (j <? len (Indices other)) then
        a ← index (Indices v) i;
        b ← index (Indices other) j;
        if a =? b then
          x ← index (Values v) i;
          y ← index (Values other) j;
          dot_loop fuel v other (i + 1) (j + 1) (f32_add acc (f32_mul x y))
        else if a <? b then dot_loop fuel v other (i + 1) j acc
        else dot_loop fuel v other i (j + 1) acc
      else Ok acc
  end.

Definition DotProduct (v other : Vec) : R f32 :=
  dot_loop (S (length (Indices v) + length (Indices other))) v other 0 0 f32_zero.

Definition Norm (v : Vec) : f32 :=
  sqrt32 (foldl (λ sum val, f32_add sum (f32_mul val val)) f32_zero (Values v)).

Definition Normalize (v : Vec) : Vec :=
  let norm := Norm v in
  if fgt norm f32_zero then mkVec (Indices v) ((λ val, f32_div val norm) <$> Values v) else v.

(** ** Bytes *)

(** [binary.LittleEndian.PutUint32(data[offset:], z)] and [Uint32(data[offset:])] *)
Definition put32 (data : list byte) (offset z : Z) : R (list byte) :=
  rest ← slice data offset (len data);
  if len rest <? 4 then Panic
  else Ok (take (Z.to_nat offset) data ++ PutUint32 z ++ drop 4 rest).
Definition get32 (data : list byte) (offset : Z) : R Z :=
  rest ← slice data offset (len data);
  if len rest <? 4 then Panic else Ok (le_get (take 4 rest)).

Fixpoint put_all (data : list byte) (offset : Z) (zs : list Z) : R (list byte * Z) :=
  match zs with
  | [] => Ok (data, offset)
  | z :: zs => data ← put32 data offset z; put_all data (offset + 4) zs
  end.

Fixpoint get_all (data : list byte) (offset : Z) (n : nat) : R (list Z * Z) :=
  match n with
  | O => Ok ([], offset)
  | S n => z ← get32 data offset;
           '(zs, offset) ← get_all data (offset + 4) n;
           Ok (z :: zs, offset)
  end.

Definition Encode (v : Vec) : R (list byte) :=
  let numElements := len (Indices v) in
  let data := replicate (Z.to_nat (4 + numElements * 4 + numElements * 4)) x00 in
  data ← put32 data 0 (u32 numElements);
  '(data, offset) ← put_all data 4 (Indices v);
  '(data, _) ← put_all data offset (Float32bits <$> Values v);
  Ok data.

Inductive decodeError := ErrInvalid | ErrTooShort.

Definition Decode (data : list byte) : result decodeError Vec :=
  if len data <? 4 then Err ErrInvalid
  else
    let numElements := le_get (take 4 data) in
    let expectedLen := 4 + numElements * 4 + numElements * 4 in
    if len data <? expectedLen then Err ErrTooShort
    else
      match '(indices, offset) ← get_all data 4 (Z.to_nat numElements);
            '(values, _) ← get_all data offset (Z.to_nat numElements);
            Ok (mkVec indices (Float32frombits <$> values)) with
      | Ok v => Ok v
      | _ => Panic
      end.

(** ** The inverted index *)
Record posting := mkPosting { DocID : Z; Value : f32 }.
Record ScoredDoc := mkScored { sd_DocID : Z; sd_Score : f32 }.

Record InvertedIndex := mkIndex { postingLists : gmap Z (list posting); docCount : Z }.

Definition NewInvertedIndex : InvertedIndex := mkIndex ∅ 0.

Definition postings (idx : InvertedIndex) (dimIdx : Z) : list posting :=
  default [] (postingLists idx !! dimIdx).

(** The loop of [Add] over [vec.Indices], from position [i] *)
Fixpoint add_postings (docID : Z) (values : list f32) (i : Z) (indices : list Z) :
    M InvertedIndex Empty_set unit :=
  match indices with
  | [] => mret tt
  | dimIdx :: rest =>
      x ← lift (index values i);
      modify (λ idx, mkIndex
        (<[dimIdx := postings idx dimIdx ++ [mkPosting docID x]]> (postingLists idx)) (docCount idx));;
      add_postings docID values (i + 1) rest
  end.

Definition Add (docID : Z) (vec : Vec) : M InvertedIndex Empty_set unit :=
  add_postings docID (Values vec) 0 (Indices vec);;
  modify (λ idx, mkIndex (postingLists idx) (docCount idx + 1)).

(** Each list loses the postings of [docID]; an emptied list is deleted. *)
Definition remove_postings (docID : Z) (ps : list posting) : option (list posting) :=
  match filter (λ p, DocID p ≠ docID) ps with [] => None | ps => Some ps end.

Definition Remove (docID : Z) (idx : InvertedIndex) : InvertedIndex :=
  mkIndex (omap (remove_postings docID) (postingLists idx)) (docCount idx).

Definition Size (idx : InvertedIndex) : Z := docCount idx.

(** [scores[d] += y] *)
Definition bump (scores : gmap Z f32) (d : Z) (y : f32) : gmap Z f32 :=
  <[d := f32_add (default f32_zero (scores !! d)) y]> scores.

Definition higher (a b : ScoredDoc) : bool := fgt (sd_Score a) (sd_Score b).

(** The scores as a slice, sorted, cut to [k] *)
Definition top_scores (scores : gmap Z f32) (k : Z) : R (list ScoredDoc) :=
  let results := sort_Slice higher ((λ '(d, s), mkScored d s) <$> map_range scores) in
  if len results >? k then slice results 0 k else Ok results.

Definition score_postings (queryVal : f32) (ps : list posting) (scores : gmap Z f32) : gmap Z f32 :=
  foldl (λ scores p, bump scores (DocID p) (f32_mul queryVal (Value p))) scores ps.

Fixpoint score_query (idx : InvertedIndex) (values : list f32) (i : Z) (indices : list Z)
    (scores : gmap Z f32) : R (gmap Z f32) :=
  match indices with
  | [] => Ok scores
  | dimIdx :: rest =>
      queryVal ← index values i;
      score_query idx values (i + 1) rest (score_postings queryVal (postings idx dimIdx) scores)
  end.

Definition Search (idx : InvertedIndex) (query : Vec) (k : Z) : R (list ScoredDoc) :=
  scores ← score_query idx (Values query) 0 (Indices query) ∅;
  top_scores scores k.

(** ** BM25 *)
Record BM25Config := mkBM25Config { K1 : f32; B : f32 }.

(** The constants 1.2 and 0.75 as [float32] *)
Definition DefaultBM25Config : BM25Config :=
  mkBM25Config (S754_finite false 10066330 (-23)) (S754_finite false 12582912 (-24)).

Record BM25Index := mkBM25 {
  config : BM25Config;
  invertedIdx : InvertedIndex;
  docLengths : gmap Z Z;
  avgDocLength : f32;
  totalDocs : Z;
  docFreq : gmap Z Z
}.

Definition NewBM25Index (cfg : option BM25Config) : BM25Index :=
  mkBM25 (default DefaultBM25Config cfg) NewInvertedIndex ∅ f32_zero 0 ∅.

(** [int(freq)] truncates; beyond the range amd64 yields the smallest integer. *)
Definition int_of_f32 (x : f32) : Z :=
  match x with
  | S754_zero _ => 0
  | S754_finite s m e =>
      let z := cond_Zopp s (if 0 <=? e then Zpos m * 2 ^ e else Zpos m `div` 2 ^ (- e)) in
      if (MinInt64 <=? z) && (z <=? MaxInt64) then z else MinInt64
  | _ => MinInt64
  end.

Definition BM25_Add (docID : Z) (termFreqs : gmap Z f32) : M BM25Index Empty_set unit :=
  let docLen := foldl (λ n '(_, freq), i64 (n + int_of_f32 freq)) 0 (map_range termFreqs) in
  modify (λ idx,
    let lengths := <[docID := docLen]> (docLengths idx) in
    let total := totalDocs idx + 1 in
    let totalLen := foldl (λ t '(_, l), f32_add t (f32_of_Z l)) f32_zero (map_range lengths) in
    let freqs := foldl (λ df '(t, _), <[t := default 0 (df !! t) + 1]> df)
                   (docFreq idx) (map_range termFreqs) in
    mkBM25 (config idx) (invertedIdx idx) lengths (f32_div totalLen (f32_of_Z total)) total freqs);;
  idx ← get;
  let '(r, inv) := Add docID (NewVectorFromMap termFreqs) (invertedIdx idx) in
  put (mkBM25 (config idx) inv (docLengths idx) (avgDocLength idx) (totalDocs idx) (docFreq idx));;
  lift r.

Definition f64_half : f64 := S754_finite false 4503599627370496 (-53).

Definition idf {log : MathLog} (total df : Z) : f32 :=
  f32_of_f64 (Log (SFadd 53 1024 (f64_of_Z 1)
    (SFdiv 53 1024 (SFadd 53 1024 (SFsub 53 1024 (f64_of_Z total) (f64_of_Z df)) f64_half)
                   (SFadd 53 1024 (f64_of_Z df) f64_half)))).

Definition tfNorm (idx : BM25Index) (p : posting) : f32 :=
  let tf := Value p in
  let docLen := f32_of_Z (default 0 (docLengths idx !! DocID p)) in
  let k1 := K1 (config idx) in
  let b := B (config idx) in
  f32_div (f32_mul tf (f32_add k1 f32_one))
    (f32_add tf (f32_mul k1
      (f32_add (f32_sub f32_one b) (f32_mul b (f32_div docLen (avgDocLength idx)))))).

(** One term of the query *)
Definition score_term {log : MathLog} (idx : BM25Index) (scores : gmap Z f32)
    (term : Z * f32) : gmap Z f32 :=
  let '(termID, queryWeight) := term in
  let df := default 0 (docFreq idx !! termID) in
  if df =? 0 then scores
  else
    let idf := idf (totalDocs idx) df in
    foldl (λ scores p, bump scores (DocID p) (f32_mul (f32_mul queryWeight idf) (tfNorm idx p)))
      scores (postings (invertedIdx idx) termID).

Definition BM25_Search {log : MathLog} (idx : BM25Index) (queryTerms : gmap Z f32) (k : Z) :
    R (list ScoredDoc) :=
  top_scores (foldl (score_term idx) ∅ (map_range queryTerms)) k.

(** ** Fusion of dense and sparse results *)
Record HybridResult := mkHybrid {
  hr_DocID : Z; DenseScore : f32; SparseScore : f32; FinalScore : f32
}.
Inductive FusionMethod := FusionRRF | FusionWeighted | FusionOther (name : string).
Record HybridSearchConfig := mkHybridConfig {
  Method : FusionMethod; DenseWeight : f32; SparseWeight : f32; RRFConstant : Z
}.

Definition f32_half : f32 := S754_finite false 8388608 (-24).
Definition DefaultHybridConfig : HybridSearchConfig := mkHybridConfig FusionRRF f32_half f32_half 60.

(** [scores[doc.DocID]], created when absent; its two scores are updated. *)
Definition entry (scores : gmap Z HybridResult) (docID : Z) : HybridResult :=
  default (mkHybrid docID f32_zero f32_zero f32_zero) (scores !! docID).
Definition add_dense (scores : gmap Z HybridResult) (doc : ScoredDoc) (y : f32) :
    gmap Z HybridResult :=
  let r := entry scores (sd_DocID doc) in
  <[sd_DocID doc := mkHybrid (hr_DocID r) (sd_Score doc) (SparseScore r) (f32_add (FinalScore r) y)]>
    scores.
Definition add_sparse (scores : gmap Z HybridResult) (doc : ScoredDoc) (y : f32) :
    gmap Z HybridResult :=
  let r := entry scores (sd_DocID doc) in
  <[sd_DocID doc := mkHybrid (hr_DocID r) (DenseScore r) (sd_Score doc) (f32_add (FinalScore r) y)]>
    scores.

Definition rrf_weight (rrf_k rank : Z) : f32 := f32_div f32_one (f32_of_Z (i64 (rrf_k + rank + 1))).

Definition higher_final (a b : HybridResult) : bool := fgt (FinalScore a) (FinalScore b).
Definition top_hybrid (scores : gmap Z HybridResult) (k : Z) : R (list HybridResult) :=
  let results := sort_Slice higher_final (map_range scores).*2 in
  if len results >? k then slice results 0 k else Ok results.

(** The loop over ranked documents, from rank [rank] *)
Fixpoint rrf_loop (add : gmap Z HybridResult → ScoredDoc → f32 → gmap Z HybridResult)
    (rrf_k rank : Z) (docs : list ScoredDoc) (scores : gmap Z HybridResult) :
    gmap Z HybridResult :=
  match docs with
  | [] => scores
  | doc :: docs => rrf_loop add rrf_k (rank + 1) docs (add scores doc (rrf_weight rrf_k rank))
  end.

Definition fuseRRF (denseResults sparseResults : list ScoredDoc) (rrf_k k : Z) :
    R (list HybridResult) :=
  top_hybrid (rrf_loop add_sparse rrf_k 0 sparseResults
                (rrf_loop add_dense rrf_k 0 denseResults ∅)) k.

(** The constant 1e-8 as [float32] *)
Definition tiny : f32 := S754_finite false 11258999 (-50).

Definition normalizeScores (docs : list ScoredDoc) : list ScoredDoc :=
  match docs with
  | [] => docs
  | d0 :: _ =>
      let maxScore := foldl (λ m d, if fgt (sd_Score d) m then sd_Score d else m) (sd_Score d0) docs in
      let minScore := foldl (λ m d, if flt (sd_Score d) m then sd_Score d else m) (sd_Score d0) docs in
      let rang := f32_sub maxScore minScore in
      let rang := if flt rang tiny then f32_one else rang in
      (λ d, mkScored (sd_DocID d) (f32_div (f32_sub (sd_Score d) minScore) rang)) <$> docs
  end.

Definition fuseWeighted (denseResults sparseResults : list ScoredDoc)
    (denseWeight sparseWeight : f32) (k : Z) : R (list HybridResult) :=
  let scores := foldl (λ s d, add_dense s d (f32_mul denseWeight (sd_Score d))) ∅
                  (normalizeScores denseResults) in
  top_hybrid (foldl (λ s d, add_sparse s d (f32_mul sparseWeight (sd_Score d))) scores
                (normalizeScores sparseResults)) k.

Definition FuseResults (denseResults sparseResults : list ScoredDoc)
    (cfg : option HybridSearchConfig) (k : Z) : R (list HybridResult) :=
  let cfg := default DefaultHybridConfig cfg in
  match Method cfg with
  | FusionWeighted =>
      fuseWeighted denseResults sparseResults (DenseWeight cfg) (SparseWeight cfg) k
  | _ => fuseRRF denseResults sparseResults (RRFConstant cfg) k
  end.
End ops.

(** * pkg/index/sparse: what sparse search computes
    The merge of [DotProduct] is the dot product of the two vectors read as maps;
    the scores of the inverted index are, bit for bit, the dot products of the
    query with the documents it holds; the byte format round-trips; fusion ranks
    the union of its inputs. *)

(** ** Vectors as maps *)
Definition pairs (v : Vec) : list (Z * f32) := zip (Indices v) (Values v).
Definition vec_map (v : Vec) : gmap Z f32 := list_to_map (pairs v).

(** Indices strictly ascending, one value each: what [NewVectorFromMap] builds. *)
Record wf_vec (v : Vec) : Prop := {
  wf_length : length (Indices v) = length (Values v);
  wf_sorted : StronglySorted Z.lt (Indices v)
}.

(** The reference: the products at common indices, added in ascending order. *)
Definition dot_step (m : gmap Z f32) (acc : f32) (p : Z * f32) : f32 :=
  match m !! p.1 with Some y => f32_add acc (f32_mul p.2 y) | None => acc end.
Definition dot (v other : Vec) : f32 := foldl (dot_step (vec_map other)) f32_zero (pairs v).

Lemma pairs_fst v : wf_vec v → (pairs v).*1 = Indices v.
Proof. intros Hv. apply fst_zip. rewrite (wf_length v Hv). lia. Qed.

Lemma SS_lt_NoDup l : StronglySorted Z.lt l → NoDup l.
Proof.
  induction 1 as [|x l Hl IH HF]; constructor; [|done].
  intros Hin. rewrite Forall_forall in HF. specialize (HF x Hin). lia.
Qed.

Lemma pairs_NoDup v : wf_vec v → NoDup (pairs v).*1.
Proof. intros Hv. rewrite pairs_fst by done. apply SS_lt_NoDup, Hv. Qed.

Lemma foldl_ext_in {A B} (f g : A → B → A) a l :
  (∀ a x, x ∈ l → f a x = g a x) → foldl f a l = foldl g a l.
Proof.
  revert a. induction l as [|x l IH]; intros a H; [done|]. simpl.
  rewrite (H a x) by left. apply IH. intros; apply H. by right.
Qed.

Section dot.
Context (v other : Vec) (Hv : wf_vec v) (Ho : wf_vec other).

Lemma pairs_drop (w : Vec) (i : nat) a x :
  Indices w !! i = Some a → Values w !! i = Some x →
  drop i (pairs w) = (a, x) :: drop (S i) (pairs w).
Proof.
  intros Ha Hx. apply drop_S. unfold pairs. apply lookup_zip_with_Some. eauto.
Qed.

Lemma index_nat {E A} (l : list A) (i : nat) x :
  l !! i = Some x → index (E:=E) l (Z.of_nat i) = Ok x.
Proof. intros H. unfold index. rewrite (proj2 (Z.leb_le _ _)) by lia. by rewrite Nat2Z.id, H. Qed.

Lemma wf_lookup (w : Vec) (i : nat) :
  wf_vec w → Z.of_nat i < len (Indices w) →
  ∃ a x, Indices w !! i = Some a ∧ Values w !! i = Some x ∧
    (∀ b y, (b, y) ∈ drop (S i) (pairs w) → a < b).
Proof.
  intros Hw Hi. unfold len in Hi.
  destruct (lookup_lt_is_Some_2 (Indices w) i) as [a Ha]; [lia|].
  destruct (lookup_lt_is_Some_2 (Values w) i) as [x Hx]; [rewrite <- (wf_length w Hw); lia|].
  exists a, x. split_and!; [done..|]. intros b y Hb.
  apply list_elem_of_lookup in Hb as [k Hk]. rewrite lookup_drop in Hk.
  apply lookup_zip_with_Some in Hk as (b' & y' & [= <- <-] & Hb & _).
  pose proof (wf_sorted w Hw) as Hs.
  apply (StronglySorted_app_1_elem_of Z.lt (take (S i) (Indices w)) (drop (S i) (Indices w))).
  - by rewrite take_drop.
  - apply list_elem_of_lookup. exists i. by rewrite lookup_take_lt by lia.
  - apply list_elem_of_lookup. exists k. by rewrite lookup_drop.
Qed.

Definition tail_map (j : nat) : gmap Z f32 := list_to_map (drop j (pairs other)).

Lemma tail_map_below j a :
  (∀ b y, (b, y) ∈ drop j (pairs other) → a < b) → tail_map j !! a = None.
Proof.
  intros H. apply not_elem_of_list_to_map_1. intros Hin.
  apply list_elem_of_fmap in Hin as ([b y] & -> & Hin). specialize (H _ _ Hin). simpl in H. lia.
Qed.

Lemma dot_loop_spec fuel i j acc :
  (length (Indices v) - i + (length (Indices other) - j) < fuel)%nat →
  dot_loop fuel v other (Z.of_nat i) (Z.of_nat j) acc =
  Ok (foldl (dot_step (tail_map j)) acc (drop i (pairs v))).
Proof.
  revert i j acc. induction fuel as [|fuel IH]; intros i j acc Hf; [lia|]. simpl.
  destruct (Z.ltb_spec (Z.of_nat i) (len (Indices v))) as [Hi|Hi];
    [destruct (Z.ltb_spec (Z.of_nat j) (len (Indices other))) as [Hj|Hj]|]; simpl.
  - destruct (wf_lookup v i Hv Hi) as (a & x & Ha & Hx & Hlow).
    destruct (wf_lookup other j Ho Hj) as (b & y & Hb & Hy & Hlow').
    unfold len in Hi, Hj.
    rewrite (index_nat _ _ _ Ha), (index_nat _ _ _ Hb). simpl.
    pose proof (pairs_drop v i a x Ha Hx) as Dv. pose proof (pairs_drop other j b y Hb Hy) as Do.
    assert (Htm : tail_map j = <[b := y]> (tail_map (S j))) by (unfold tail_map; by rewrite Do).
    assert (Hskip : ∀ l acc, (∀ c z, (c, z) ∈ l → b < c) →
      foldl (dot_step (tail_map j)) acc l = foldl (dot_step (tail_map (S j))) acc l).
    { intros l acc' Hl. apply foldl_ext_in. intros s [c z] Hin. unfold dot_step. simpl.
      rewrite Htm, lookup_insert_ne; [done|]. specialize (Hl c z Hin). lia. }
    destruct (Z.eqb_spec a b) as [->|Hne]; [|destruct (Z.ltb_spec a b)].
    + rewrite (index_nat _ _ _ Hx), (index_nat _ _ _ Hy). simpl.
      replace (Z.of_nat i + 1) with (Z.of_nat (S i)) by lia.
      replace (Z.of_nat j + 1) with (Z.of_nat (S j)) by lia.
      rewrite IH by lia. rewrite Dv. simpl. rewrite (Hskip _ _ Hlow). f_equal. f_equal.
      unfold dot_step. simpl. by rewrite Htm, lookup_insert_eq.
    + replace (Z.of_nat i + 1) with (Z.of_nat (S i)) by lia. rewrite IH by lia. rewrite Dv. simpl.
      f_equal. f_equal. unfold dot_step. simpl. rewrite tail_map_below; [done|].
      intros c z. rewrite Do. intros [[= -> ->]|Hc]%elem_of_cons; [done|].
      specialize (Hlow' c z Hc). lia.
    + replace (Z.of_nat j + 1) with (Z.of_nat (S j)) by lia. rewrite IH by lia.
      f_equal. rewrite Hskip; [done|]. intros c z. rewrite Dv.
      intros [[= -> ->]|Hc]%elem_of_cons; [lia|]. specialize (Hlow c z Hc). lia.
  - assert (E : tail_map j = ∅).
    { unfold tail_map. rewrite drop_ge; [done|]. unfold pairs. rewrite length_zip.
      unfold len in Hj. lia. }
    rewrite E. generalize (drop i (pairs v)). intros l. clear -l. revert acc.
    induction l as [|p l IH]; intros acc; [done|]. simpl. unfold dot_step at 2.
    rewrite lookup_empty. apply IH.
  - rewrite drop_ge; [done|]. unfold pairs. rewrite length_zip. unfold len in Hi. lia.
Qed.

Lemma DotProduct_dot : DotProduct v other = Ok (dot v other).
Proof.
  unfold DotProduct. change 0 with (Z.of_nat 0). rewrite dot_loop_spec by lia. done.
Qed.
End dot.

(** ** The documents of an inverted index *)
Definition doc_postings (docs : gmap Z Vec) (i d : Z) : list posting :=
  match docs !! d ≫= λ v, vec_map v !! i with Some y => [mkPosting d y] | None => [] end.

(** Each list holds, for each document, its value there, once. *)
Definition holds (idx : InvertedIndex) (docs : gmap Z Vec) : Prop :=
  ∀ i d, filter (λ p, DocID p = d) (postings idx i) = doc_postings docs i d.

Lemma postings_insert idx n i j ps :
  postings (mkIndex (<[i := ps]> (postingLists idx)) n) j =
  if decide (i = j) then ps else postings idx j.
Proof.
  unfold postings. simpl. case_decide; [subst; by rewrite lookup_insert_eq|].
  by rewrite lookup_insert_ne.
Qed.

Lemma add_postings_spec d v n idx :
  wf_vec v →
  ∃ idx', add_postings d (Values v) (Z.of_nat n) (drop n (Indices v)) idx = (Ok tt, idx') ∧
    docCount idx' = docCount idx ∧
    ∀ j, postings idx' j = postings idx j ++
      match (list_to_map (drop n (pairs v)) : gmap Z f32) !! j with
      | Some y => [mkPosting d y] | None => [] end.
Proof.
  intros Hv. remember (drop n (Indices v)) as l eqn:El. revert n idx El.
  induction l as [|i l IH]; intros n idx El.
  - exists idx. split_and!; [done..|]. intros j. rewrite drop_ge; [by rewrite app_nil_r|].
    apply (f_equal length) in El. rewrite length_drop in El. simpl in El.
    unfold pairs. rewrite length_zip. lia.
  - assert (Hi : Z.of_nat n < len (Indices v)).
    { apply (f_equal length) in El. rewrite length_drop in El. simpl in El. unfold len. lia. }
    destruct (wf_lookup v n Hv Hi) as (a & x & Ha & Hx & Hlow).
    rewrite (drop_S _ _ _ Ha) in El. injection El as -> ->.
    rewrite (pairs_drop v n a x Ha Hx).
    edestruct (IH (S n)) as (idx' & Hrun & Hc & Hp); [done|].
    exists idx'. split_and!.
    + cbn [add_postings]. unfold mbind, M_bind, lift, modify.
      rewrite (index_nat _ _ _ Hx).
      replace (Z.of_nat n + 1) with (Z.of_nat (S n)) by lia. exact Hrun.
    + by rewrite Hc.
    + intros j. rewrite Hp. rewrite postings_insert. cbn [list_to_map foldr uncurry fst snd].
      case_decide as E; [subst j|].
      * rewrite lookup_insert_eq. rewrite (not_elem_of_list_to_map_1 _ a); [by rewrite app_nil_r|].
        intros Hin. apply list_elem_of_fmap in Hin as ([b y] & -> & Hin).
        specialize (Hlow _ _ Hin). simpl in Hlow. lia.
      * by rewrite lookup_insert_ne by done.
Qed.

Lemma doc_postings_owner docs i d : Forall (λ p, DocID p = d) (doc_postings docs i d).
Proof. unfold doc_postings. destruct (_ ≫= _); by repeat constructor. Qed.

Lemma Add_holds d v idx docs :
  holds idx docs → wf_vec v → docs !! d = None →
  ∃ idx', Add d v idx = (Ok tt, idx') ∧ holds idx' (<[d := v]> docs) ∧
    docCount idx' = docCount idx + 1.
Proof.
  intros Hh Hv Hd. destruct (add_postings_spec d v 0 idx Hv) as (idx' & Hrun & Hc & Hp).
  eexists. split; [|split].
  - unfold Add, mbind, M_bind. rewrite drop_0 in Hrun. change 0 with (Z.of_nat 0).
    rewrite Hrun. reflexivity.
  - intros i e. change (postings _ i) with (postings idx' i). rewrite Hp, filter_app, Hh.
    unfold doc_postings. destruct (decide (e = d)) as [->|Hne].
    + rewrite Hd, lookup_insert_eq. simpl. change (list_to_map (drop 0 (pairs v))) with (vec_map v).
      destruct (vec_map v !! i) as [y|]; [|done].
      rewrite filter_cons_True by done. done.
    + rewrite lookup_insert_ne by done.
      assert (E : ∀ o : option f32, filter (λ p, DocID p = e)
        (match o with Some y => [mkPosting d y] | None => [] end) = []).
      { intros [y|]; [|done]. rewrite filter_cons_False by (simpl; congruence). done. }
      rewrite E. apply app_nil_r.
  - simpl. by rewrite Hc.
Qed.

Lemma Remove_holds d idx docs : holds idx docs → holds (Remove d idx) (delete d docs).
Proof.
  intros Hh i e.
  assert (E : postings (Remove d idx) i = filter (λ p, DocID p ≠ d) (postings idx i)).
  { unfold postings, Remove. simpl. rewrite lookup_omap.
    destruct (postingLists idx !! i) as [ps|]; [|done]. simpl. unfold remove_postings.
    by destruct (filter _ ps). }
  rewrite E. unfold doc_postings. destruct (decide (e = d)) as [->|Hne].
  - rewrite lookup_delete_eq. simpl. rewrite list_filter_filter. clear E.
    induction (postings idx i) as [|p ps IH]; [done|].
    rewrite filter_cons_False by tauto. exact IH.
  - rewrite lookup_delete_ne by done. fold (doc_postings docs i e). rewrite <- Hh.
    rewrite list_filter_filter_l; [done|]. intros p. congruence.
Qed.

(** ** Scores *)
Definition hit (f : posting → f32) (o : option f32) (p : posting) : option f32 :=
  Some (f32_add (default f32_zero o) (f p)).

(** Only the postings of a document count for its score. *)
Lemma bump_lookup (f : posting → f32) ps scores d :
  foldl (λ s p, bump s (DocID p) (f p)) scores ps !! d =
  foldl (hit f) (scores !! d) (filter (λ p, DocID p = d) ps).
Proof.
  revert scores. induction ps as [|p ps IH]; intros scores; [done|]. simpl. rewrite IH.
  unfold bump at 1. destruct (decide (DocID p = d)) as [<-|Hne].
  - rewrite filter_cons_True by done. simpl. by rewrite lookup_insert_eq.
  - rewrite filter_cons_False by done. by rewrite lookup_insert_ne.
Qed.

(** The score of one document against the pairs of a query. *)
Definition score_step (m : gmap Z f32) (o : option f32) (p : Z * f32) : option f32 :=
  match m !! p.1 with Some y => Some (f32_add (default f32_zero o) (f32_mul p.2 y)) | None => o end.

Definition shares (qs : list (Z * f32)) (m : gmap Z f32) : bool :=
  existsb (λ p, bool_decide (is_Some (m !! p.1))) qs.

Lemma score_fold m o qs :
  foldl (score_step m) o qs =
  if match o with Some _ => true | None => shares qs m end
  then Some (foldl (dot_step m) (default f32_zero o) qs) else None.
Proof.
  revert o. induction qs as [|[i x] qs IH]; intros o; [by destruct o|]. simpl. rewrite IH.
  unfold shares. simpl.
  assert (E : score_step m o (i, x) = match m !! i with
    | Some y => Some (f32_add (default f32_zero o) (f32_mul x y)) | None => o end) by done.
  assert (E' : dot_step m (default f32_zero o) (i, x) = match m !! i with
    | Some y => f32_add (default f32_zero o) (f32_mul x y) | None => default f32_zero o end) by done.
  rewrite E, E'. by destruct (m !! i), o.
Qed.

Lemma score_query_foldl idx q n scores :
  wf_vec q →
  score_query idx (Values q) (Z.of_nat n) (drop n (Indices q)) scores =
  Ok (foldl (λ s '(i, x), score_postings x (postings idx i) s) scores (drop n (pairs q))).
Proof.
  intros Hq. remember (drop n (Indices q)) as l eqn:El. revert n scores El.
  induction l as [|i l IH]; intros n scores El.
  - rewrite drop_ge; [done|]. apply (f_equal length) in El. rewrite length_drop in El.
    simpl in El. unfold pairs. rewrite length_zip. lia.
  - assert (Hi : Z.of_nat n < len (Indices q)).
    { apply (f_equal length) in El. rewrite length_drop in El. simpl in El. unfold len. lia. }
    destruct (wf_lookup q n Hq Hi) as (a & x & Ha & Hx & _).
    rewrite (drop_S _ _ _ Ha) in El. injection El as -> ->.
    rewrite (pairs_drop q n a x Ha Hx). cbn [score_query foldl]. rewrite (index_nat _ _ _ Hx).
    cbn [mbind result_bind]. replace (Z.of_nat n + 1) with (Z.of_nat (S n)) by lia. by apply IH.
Qed.

Lemma score_fold_lookup idx docs qs scores d :
  holds idx docs →
  foldl (λ s '(i, x), score_postings x (postings idx i) s) scores qs !! d =
  match docs !! d with
  | Some v => foldl (score_step (vec_map v)) (scores !! d) qs
  | None => scores !! d
  end.
Proof.
  intros Hh. revert scores. induction qs as [|[i x] qs IH]; intros scores; simpl.
  - by destruct (docs !! d).
  - rewrite IH. unfold score_postings. rewrite (bump_lookup (λ p, f32_mul x (Value p))), Hh.
    unfold doc_postings. destruct (docs !! d) as [v|]; [|done]. simpl.
    unfold score_step at 3. simpl. by destruct (vec_map v !! i).
Qed.

(** What a search finds before it is cut: each document that shares an index with
    the query, with their dot product. *)
Definition matches (docs : gmap Z Vec) (q : Vec) : gmap Z f32 :=
  omap (λ v, if shares (pairs q) (vec_map v) then Some (dot q v) else None) docs.

Lemma score_query_matches idx docs q :
  holds idx docs → wf_vec q →
  score_query idx (Values q) 0 (Indices q) ∅ = Ok (matches docs q).
Proof.
  intros Hh Hq. pose proof (score_query_foldl idx q 0 ∅ Hq) as H. rewrite drop_0 in H.
  change (Z.of_nat 0) with 0 in H. rewrite H. f_equal. apply map_eq. intros d.
  change (drop 0 (pairs q)) with (pairs q).
  rewrite (score_fold_lookup idx docs _ _ _ Hh), lookup_empty. unfold matches. rewrite lookup_omap.
  destruct (docs !! d) as [v|]; [|done]. rewrite score_fold. done.
Qed.

(** ** Ranking *)
Section rank.
Context {sorter : Sorter} {order : MapOrder Z}.

Definition descending (l : list f32) : Prop := StronglySorted (λ a b, flt a b = false) l.

Lemma fgt_asym a b : fgt a b = true → fgt b a = false.
Proof. unfold fgt. apply flt_asym. Qed.

Lemma rank_spec {A} (score : A → f32) (xs : list A) k :
  0 ≤ k → Forall (λ x, score x ≠ S754_nan) xs →
  let results := sort_Slice (λ a b, fgt (score a) (score b)) xs in
  (if len results >? k then slice results 0 k else Ok results) =
    Ok (E:=Empty_set) (take (Z.to_nat k) results) ∧
  results ≡ₚ xs ∧ descending (score <$> results).
Proof.
  intros Hk Hnan results. split_and!.
  - pose proof (len_nonneg results). destruct (Z.gtb_spec (len results) k).
    + unfold slice. rewrite (proj2 (Z.leb_le 0 k)), (proj2 (Z.leb_le k _)) by lia. simpl.
      by rewrite Z.sub_0_r.
    + rewrite take_ge; [done|]. unfold len in *. lia.
  - apply sort_Slice_perm.
  - pose proof (sort_Slice_sorted (λ a b, fgt (score a) (score b)) (λ x, score x ≠ S754_nan) xs) as Hs.
    unfold descending.
    assert (HS : StronglySorted (λ a b, fgt (score b) (score a) = false) results).
    { apply Hs; [intros ? ?; apply fgt_asym| |done].
      intros a b c Hb H1 H2. unfold fgt in *. by eapply flt_ge_trans. }
    clear -HS. induction HS as [|x l Hl IH HF]; [constructor|]. simpl. constructor; [done|].
    apply Forall_fmap. eapply Forall_impl; [exact HF|]. done.
Qed.

(** The ranking of a map of scores, before it is cut. *)
Lemma top_scores_spec (scores : gmap Z f32) k :
  0 ≤ k → (∀ d s, scores !! d = Some s → s ≠ S754_nan) →
  ∃ all, top_scores scores k = Ok (take (Z.to_nat k) all) ∧
    NoDup (sd_DocID <$> all) ∧ descending (sd_Score <$> all) ∧
    ∀ d s, mkScored d s ∈ all ↔ scores !! d = Some s.
Proof.
  intros Hk Hnan. set (xs := (λ '(d, s), mkScored d s) <$> map_range scores).
  assert (Hxs : ∀ d s, mkScored d s ∈ xs ↔ scores !! d = Some s).
  { intros d s. unfold xs. rewrite map_range_perm, list_elem_of_fmap. split.
    - intros ([d' s'] & [= -> ->] & Hin). by apply elem_of_map_to_list.
    - intros Hm. exists (d, s). split; [done|]. by apply elem_of_map_to_list. }
  destruct (rank_spec sd_Score xs k Hk) as (Hrank & Hperm & Hdesc).
  { apply Forall_forall. intros [d s] Hin. apply Hxs in Hin. simpl. by eapply Hnan. }
  exists (sort_Slice higher xs). split_and!; [exact Hrank| |exact Hdesc|].
  - rewrite Hperm. unfold xs. rewrite <- list_fmap_compose.
    rewrite (list_fmap_ext (sd_DocID ∘ _) fst) by (by intros ? []).
    rewrite map_range_perm. apply NoDup_fst_map_to_list.
  - intros d s. by rewrite Hperm.
Qed.
End rank.

(** ** Histories of an index *)
Inductive sop := SAdd (d : Z) (v : Vec) | SRemove (d : Z).

Definition step (o : sop) : M InvertedIndex Empty_set unit :=
  match o with SAdd d v => Add d v | SRemove d => modify (Remove d) end.
Fixpoint run (os : list sop) : M InvertedIndex Empty_set unit :=
  match os with [] => mret tt | o :: os => step o;; run os end.

Definition is_add (o : sop) : bool := match o with SAdd _ _ => true | SRemove _ => false end.
Definition adds (os : list sop) : Z := len (filter (λ o, is_add o = true) os).

(** The documents a history leaves: each is added well formed and while absent. *)
Inductive history : list sop → gmap Z Vec → Prop :=
| history_nil : history [] ∅
| history_add os docs d v :
    history os docs → docs !! d = None → wf_vec v →
    history (os ++ [SAdd d v]) (<[d := v]> docs)
| history_remove os docs d : history os docs → history (os ++ [SRemove d]) (delete d docs).

Lemma run_snoc os o s s1 :
  run os s = (Ok tt, s1) → run (os ++ [o]) s = step o s1.
Proof.
  revert s. induction os as [|o' os IH]; intros s; simpl.
  - intros [= <-]. unfold mbind, M_bind. by destruct (step o s) as [[[]|[]|] ?].
  - unfold mbind, M_bind. destruct (step o' s) as [[[]|[]|] s2]; [|done]. apply IH.
Qed.

Lemma history_holds os docs :
  history os docs →
  ∃ idx, run os NewInvertedIndex = (Ok tt, idx) ∧ holds idx docs ∧ Size idx = adds os.
Proof.
  induction 1 as [|os docs d v _ (idx & Hr & Hh & Hs) Hd Hv|os docs d _ (idx & Hr & Hh & Hs)].
  - exists NewInvertedIndex. split_and!; [done| |done]. intros i d. unfold postings.
    simpl. rewrite lookup_empty. unfold doc_postings. by rewrite lookup_empty.
  - destruct (Add_holds d v idx docs Hh Hv Hd) as (idx' & Ha & Hh' & Hc).
    exists idx'. split_and!; [|done|].
    + by rewrite (run_snoc _ _ _ _ Hr).
    + unfold Size, adds in *. rewrite Hc, Hs, filter_app. simpl. by rewrite len_app.
  - exists (Remove d idx). split_and!; [|by apply Remove_holds|].
    + by rewrite (run_snoc _ _ _ _ Hr).
    + unfold Size, adds in *. rewrite filter_app. simpl. by rewrite app_nil_r.
Qed.

Section theorems.
Context {sorter : Sorter} {order : MapOrder Z}.

(** C31. After any history that adds well-formed documents, each only while it is absent,
    and removes documents, for a well-formed query, a [k] of 0 or more and scores that are
    not NaN, [Search] returns the first [k], by descending score, of the documents that
    share an index with the query, each with exactly the value [DotProduct] computes for it
    and the query, bit for bit; it never panics. [Size] is the number of additions and not,
    as its comment says, of the documents: a removal does not lower it. *)
Theorem sparse_search_exact os docs q k :
  history os docs → wf_vec q → 0 ≤ k →
  (∀ d v, docs !! d = Some v → dot q v ≠ S754_nan) →
  ∃ idx all, run os NewInvertedIndex = (Ok tt, idx) ∧
    Search idx q k = Ok (take (Z.to_nat k) all) ∧
    NoDup (sd_DocID <$> all) ∧ descending (sd_Score <$> all) ∧
    (∀ d s, mkScored d s ∈ all ↔
       ∃ v, docs !! d = Some v ∧ shares (pairs q) (vec_map v) = true ∧ DotProduct q v = Ok s) ∧
    Size idx = adds os.
Proof.
  intros Hist Hq Hk Hnan.
  assert (Hwf : ∀ d v, docs !! d = Some v → wf_vec v).
  { clear Hnan. induction Hist as [|os docs d v _ IH _ Hv|os docs d _ IH]; intros e w.
    - by rewrite lookup_empty.
    - rewrite lookup_insert_Some. intros [[<- <-]|[_ H]]; eauto.
    - rewrite lookup_delete_Some. intros [_ H]. eauto. }
  destruct (history_holds os docs Hist) as (idx & Hr & Hh & Hs).
  assert (Hm : ∀ d s, matches docs q !! d = Some s ↔
    ∃ v, docs !! d = Some v ∧ shares (pairs q) (vec_map v) = true ∧ DotProduct q v = Ok s).
  { intros d s. unfold matches. rewrite lookup_omap. split.
    - destruct (docs !! d) as [v|] eqn:E; [|done]. simpl. destruct (shares _ _) eqn:E'; [|done].
      intros [= <-]. exists v. split_and!; [done..|]. apply DotProduct_dot; eauto.
    - intros (v & Hv & Hsh & Hd). rewrite Hv. simpl. rewrite Hsh.
      rewrite DotProduct_dot in Hd by eauto. congruence. }
  destruct (top_scores_spec (matches docs q) k Hk) as (all & Htop & Hnd & Hdesc & Hall).
  { intros d s (v & Hv & _ & Hd)%Hm. rewrite DotProduct_dot in Hd by eauto.
    injection Hd as <-. by eapply Hnan. }
  exists idx, all. split_and!; [done| |done|done| |done].
  - unfold Search. by rewrite (score_query_matches idx docs q Hh Hq).
  - intros d s. by rewrite Hall.
Qed.

Lemma zip_self_fmap {A C} (f : A → C) l : zip l (f <$> l) = (λ x, (x, f x)) <$> l.
Proof. induction l as [|x l IH]; [done|]. simpl. f_equal. exact IH. Qed.

(** [NewVectorFromMap] builds such a vector, holding the map. *)
Lemma NewVectorFromMap_wf m : wf_vec (NewVectorFromMap m) ∧ vec_map (NewVectorFromMap m) = m.
Proof.
  assert (Hp : sort_Slice Z.ltb (map_range m).*1 ≡ₚ (map_to_list m).*1)
    by (rewrite sort_Slice_perm; by rewrite map_range_perm).
  assert (Hnd : NoDup (sort_Slice Z.ltb (map_range m).*1))
    by (rewrite Hp; apply NoDup_fst_map_to_list).
  split; [split|].
  - simpl. by rewrite length_fmap.
  - simpl. assert (Hs : StronglySorted (λ a b, (b <? a) = false)
      (sort_Slice Z.ltb (map_range m).*1)).
    { apply (sort_Slice_sorted Z.ltb (λ _, True)); [..|by apply Forall_true];
        intros; apply Z.ltb_ge; lia. }
    clear Hp. induction Hs as [|x l Hl IH HF]; constructor; inversion Hnd; subst; [auto|].
    rewrite Forall_forall in *. intros y Hy. specialize (HF y Hy).
    assert (x ≠ y) by (intros ->; done). lia.
  - apply map_eq. intros d. unfold vec_map, pairs. simpl. rewrite zip_self_fmap.
    apply option_eq. intros y. rewrite <- elem_of_list_to_map.
    2: { rewrite <- list_fmap_compose. by rewrite list_fmap_id. }
    rewrite list_elem_of_fmap. setoid_rewrite Hp. split.
    + intros (i & [= -> ->] & ([i' z] & -> & Hin)%list_elem_of_fmap).
      apply elem_of_map_to_list in Hin. simpl. by rewrite Hin.
    + intros Hd. exists d. rewrite Hd. split; [done|].
      apply list_elem_of_fmap. exists (d, y). split; [done|]. by apply elem_of_map_to_list.
Qed.

(** [NewVectorFromMap] lists a map by ascending index, and [DotProduct] of two
    vectors built this way is the sum of the products at the common indices of the
    maps, added in ascending order: the merge never reads out of range and misses
    no common index. *)
Theorem dot_product_merge (m1 m2 : gmap Z f32) :
  StronglySorted Z.lt (Indices (NewVectorFromMap m1)) ∧ vec_map (NewVectorFromMap m1) = m1 ∧
  DotProduct (NewVectorFromMap m1) (NewVectorFromMap m2) =
    Ok (foldl (λ acc p, match m2 !! p.1 with
                        | Some y => f32_add acc (f32_mul p.2 y) | None => acc end)
          f32_zero (pairs (NewVectorFromMap m1))).
Proof.
  destruct (NewVectorFromMap_wf m1) as [H1 E1], (NewVectorFromMap_wf m2) as [H2 E2].
  split; [apply H1|]. split; [done|]. rewrite DotProduct_dot by done. unfold dot. by rewrite E2.
Qed.
End theorems.

(** ** The byte format *)
Lemma put32_app a b c z :
  len b = 4 → put32 (a ++ b ++ c) (len a) z = Ok (a ++ PutUint32 z ++ c).
Proof.
  intros Hb. unfold put32.
  rewrite (slice_app_r a (b ++ c)) by (rewrite ?len_app; lia). rewrite Ok_bind.
  rewrite (proj2 (Z.ltb_ge _ _)) by (rewrite len_app; pose proof (len_nonneg c); lia).
  unfold len in *. rewrite Nat2Z.id, take_app_length.
  replace 4%nat with (length b) by lia. by rewrite drop_app_length.
Qed.

Lemma get32_app a b c : len b = 4 → get32 (a ++ b ++ c) (len a) = Ok (le_get b).
Proof.
  intros Hb. unfold get32.
  rewrite (slice_app_r a (b ++ c)) by (rewrite ?len_app; lia). rewrite Ok_bind.
  rewrite (proj2 (Z.ltb_ge _ _)) by (rewrite len_app; pose proof (len_nonneg c); lia).
  replace 4%nat with (length b) by (unfold len in Hb; lia). by rewrite take_app_length.
Qed.

Lemma len_put32 z : len (PutUint32 z) = 4.
Proof. unfold len, PutUint32. by rewrite length_le_put. Qed.

Lemma put_all_app a b c zs :
  len b = 4 * len zs →
  put_all (a ++ b ++ c) (len a) zs = Ok (a ++ (zs ≫= PutUint32) ++ c, len a + 4 * len zs).
Proof.
  revert a b. induction zs as [|z zs IH]; intros a b Hb.
  - destruct b; [|unfold len in Hb; simpl in Hb; lia].
    simpl. unfold len. simpl. do 2 f_equal. lia.
  - rewrite len_cons in *. pose proof (len_nonneg zs).
    rewrite <- (take_drop 4 b). cbn [put_all]. rewrite <- app_assoc.
    assert (L4 : len (take 4 b) = 4) by (unfold len in *; rewrite length_take; lia).
    rewrite put32_app by done. rewrite Ok_bind.
    assert (Ld : len (drop 4 b) = 4 * len zs) by (unfold len in *; rewrite length_drop; lia).
    specialize (IH (a ++ PutUint32 z) (drop 4 b) Ld). rewrite len_app, len_put32 in IH.
    rewrite <- !app_assoc in IH. rewrite IH.
    change ((z :: zs) ≫= PutUint32) with (PutUint32 z ++ (zs ≫= PutUint32)).
    rewrite <- !app_assoc. do 2 f_equal. lia.
Qed.

Lemma get_all_app a c zs :
  Forall (λ z, 0 ≤ z < 2 ^ 32) zs →
  get_all (a ++ (zs ≫= PutUint32) ++ c) (len a) (length zs) = Ok (zs, len a + 4 * len zs).
Proof.
  intros Hzs. revert a. induction Hzs as [|z zs Hz Hzs IH]; intros a.
  - simpl. unfold len. simpl. do 2 f_equal. lia.
  - cbn [length get_all]. change ((z :: zs) ≫= PutUint32) with (PutUint32 z ++ (zs ≫= PutUint32)).
    rewrite <- app_assoc, get32_app by apply len_put32. rewrite Ok_bind.
    specialize (IH (a ++ PutUint32 z)). rewrite len_app, len_put32, <- app_assoc in IH.
    rewrite IH. rewrite Ok_bind. rewrite len_cons.
    unfold PutUint32 at 1. rewrite le_get_put, Z.mod_small by lia. do 2 f_equal. lia.
Qed.

Lemma len_bind_put zs : len (zs ≫= PutUint32) = 4 * len zs.
Proof.
  induction zs as [|z zs IH]; [done|].
  change ((z :: zs) ≫= PutUint32) with (PutUint32 z ++ (zs ≫= PutUint32)).
  rewrite len_app, len_put32, IH, len_cons. lia.
Qed.

Definition vec_bytes (v : Vec) : list byte :=
  PutUint32 (len (Indices v)) ++ (Indices v ≫= PutUint32) ++ ((Float32bits <$> Values v) ≫= PutUint32).

Lemma Encode_bytes v :
  length (Indices v) = length (Values v) → len (Indices v) < 2 ^ 32 → Encode v = Ok (vec_bytes v).
Proof.
  intros Hl Hn. unfold Encode. set (n := len (Indices v)) in *.
  assert (0 ≤ n) by apply len_nonneg.
  assert (Hv : len (Float32bits <$> Values v) = n)
    by (unfold n, len; by rewrite length_fmap, Hl).
  replace (Z.to_nat (4 + n * 4 + n * 4))
    with (4 + (Z.to_nat (4 * n) + Z.to_nat (4 * n)))%nat by lia.
  rewrite !replicate_add.
  pose proof (λ c, put32_app [] (replicate 4 x00) c (u32 n) eq_refl) as E0.
  change (len []) with 0 in E0. setoid_rewrite app_nil_l in E0.
  rewrite E0, Ok_bind.
  unfold u32. rewrite Z.mod_small by lia.
  rewrite (put_all_app (PutUint32 n)) by (unfold n, len; rewrite length_replicate; lia).
  rewrite Ok_bind, app_assoc. cbv beta iota.
  pose proof (put_all_app (PutUint32 n ++ (Indices v ≫= PutUint32))
    (replicate (Z.to_nat (4 * n)) x00) [] (Float32bits <$> Values v)) as E2.
  rewrite !app_nil_r, len_app, len_bind_put in E2. rewrite E2.
  - rewrite Ok_bind. unfold vec_bytes. by rewrite <- app_assoc.
  - rewrite Hv. unfold len. rewrite length_replicate. lia.
Qed.

(** [Decode] after [Encode] gives back a sparse vector with as many values as
    indices, also when more bytes follow, and reports an error, without a panic, on
    every strict prefix of an encoding. *)
Theorem sparse_roundtrip v rest :
  len (Indices v) < 2 ^ 32 → Forall (λ i, 0 ≤ i < 2 ^ 32) (Indices v) →
  Forall valid_f32 (Values v) → length (Indices v) = length (Values v) →
  ∃ bs, Encode v = Ok bs ∧ Decode (bs ++ rest) = Ok v ∧
    ∀ n, (n < length bs)%nat → Decode (take n bs) = Err ErrInvalid ∨ Decode (take n bs) = Err ErrTooShort.
Proof.
  intros Hn Hi Hv Hl. exists (vec_bytes v). split; [by apply Encode_bytes|].
  set (n := len (Indices v)) in *. assert (0 ≤ n) by apply len_nonneg.
  assert (Hb : len (vec_bytes v) = 4 + n * 4 + n * 4).
  { unfold vec_bytes. rewrite !len_app, len_put32, !len_bind_put. unfold n, len.
    rewrite length_fmap, Hl. lia. }
  assert (Hhead : ∀ r, take 4 (vec_bytes v ++ r) = PutUint32 n).
  { intros r. unfold vec_bytes. rewrite <- !app_assoc. apply take_app_length'.
    unfold PutUint32. by rewrite length_le_put. }
  assert (Hget : le_get (PutUint32 n) = n)
    by (unfold PutUint32; rewrite le_get_put; apply Z.mod_small; lia).
  split.
  - unfold Decode. rewrite Hhead, Hget, len_app, Hb.
    pose proof (len_nonneg rest). rewrite !(proj2 (Z.ltb_ge _ _)) by lia.
    unfold vec_bytes. rewrite <- !app_assoc. fold n.
    replace (Z.to_nat n) with (length (Indices v)) by (unfold n, len; lia).
    change 4 with (len (PutUint32 n)) at 1. rewrite get_all_app by done. rewrite Ok_bind.
    rewrite len_put32. replace (4 + 4 * len (Indices v)) with (len (PutUint32 n ++ (Indices v ≫= PutUint32)))
      by (rewrite len_app, len_put32, len_bind_put; done).
    rewrite app_assoc, Hl, <- (length_fmap Float32bits (Values v)), get_all_app.
    + simpl. rewrite <- list_fmap_compose.
      rewrite (Forall_fmap_ext_1 (Float32frombits ∘ Float32bits) id).
      * rewrite list_fmap_id. by destruct v.
      * eapply Forall_impl; [exact Hv|]. intros x Hx. by apply Float32_bits_round.
    + apply Forall_fmap. eapply Forall_impl; [exact Hv|]. intros x Hx. by apply Float32bits_range.
  - intros k Hk. unfold Decode.
    assert (Lk : len (take k (vec_bytes v)) = Z.of_nat k) by (unfold len; rewrite length_take; lia).
    rewrite Lk. destruct (Z.ltb_spec (Z.of_nat k) 4); [by left|right].
    rewrite take_take, Nat.min_l by lia. rewrite <- (app_nil_r (vec_bytes v)), Hhead, Hget.
    rewrite (proj2 (Z.ltb_lt _ _)); [done|]. unfold len in Hb. lia.
Qed.

(** ** Reciprocal rank fusion *)

(** The rank and score of a document in a result list, ranks from [r] *)
Fixpoint rank_from (r : Z) (docs : list ScoredDoc) (d : Z) : option (Z * f32) :=
  match docs with
  | [] => None
  | doc :: docs => if decide (sd_DocID doc = d) then Some (r, sd_Score doc)
                   else rank_from (r + 1) docs d
  end.

Definition score_of (o : option (Z * f32)) : f32 := match o with Some (_, s) => s | None => f32_zero end.
Definition add_rank (rrf_k : Z) (o : option (Z * f32)) (x : f32) : f32 :=
  match o with Some (r, _) => f32_add x (rrf_weight rrf_k r) | None => x end.

(** The entry of a document: its two scores, and 1/(k + rank + 1) for each list it is in. *)
Definition fused (rrf_k : Z) (dense sparse : list ScoredDoc) (d : Z) : HybridResult :=
  let a := rank_from 0 dense d in
  let b := rank_from 0 sparse d in
  mkHybrid d (score_of a) (score_of b) (add_rank rrf_k b (add_rank rrf_k a f32_zero)).

Lemma rank_from_None r docs d : rank_from r docs d = None ↔ d ∉ sd_DocID <$> docs.
Proof.
  revert r. induction docs as [|doc docs IH]; intros r; simpl.
  - split; [|done]. intros _ H. by apply elem_of_nil in H.
  - rewrite not_elem_of_cons. case_decide; [naive_solver|]. rewrite IH. naive_solver.
Qed.

(** A loop that updates the entry of each document of a list without repetitions. *)
Lemma rrf_loop_lookup add upd rrf_k r docs scores d :
  (∀ scores doc y d, add scores doc y !! d =
     if decide (sd_DocID doc = d) then Some (upd (entry scores d) (sd_Score doc) y) else scores !! d) →
  NoDup (sd_DocID <$> docs) →
  rrf_loop add rrf_k r docs scores !! d =
  match rank_from r docs d with
  | Some (i, s) => Some (upd (entry scores d) s (rrf_weight rrf_k i))
  | None => scores !! d
  end.
Proof.
  intros Hadd. revert r scores. induction docs as [|doc docs IH]; intros r scores Hnd; [done|].
  simpl in *. inversion Hnd as [|? ? Hn Hnd']; subst. rewrite IH by done. rewrite Hadd.
  case_decide as E; [subst d|].
  - destruct (rank_from _ docs _) as [[]|] eqn:Er; [|done].
    apply rank_from_None with (r := r + 1) in Hn. congruence.
  - destruct (rank_from _ docs d) as [[i s]|]; [|done]. do 2 f_equal.
    unfold entry. by rewrite Hadd, decide_False by done.
Qed.

Section fusion.
Context {sorter : Sorter} {order : MapOrder Z}.

Lemma rrf_scores rrf_k dense sparse d :
  NoDup (sd_DocID <$> dense) → NoDup (sd_DocID <$> sparse) →
  rrf_loop add_sparse rrf_k 0 sparse (rrf_loop add_dense rrf_k 0 dense ∅) !! d =
  if decide (d ∈ sd_DocID <$> dense ∨ d ∈ sd_DocID <$> sparse)
  then Some (fused rrf_k dense sparse d) else None.
Proof.
  intros Hd Hs.
  rewrite (rrf_loop_lookup add_sparse (λ r s y,
    mkHybrid (hr_DocID r) (DenseScore r) s (f32_add (FinalScore r) y))); [|..|done].
  2: { intros scores doc y e. unfold add_sparse. case_decide; [subst; by rewrite lookup_insert_eq|].
       by rewrite lookup_insert_ne. }
  assert (Hdense : rrf_loop add_dense rrf_k 0 dense ∅ !! d =
    match rank_from 0 dense d with
    | Some (i, s) => Some (mkHybrid d s f32_zero (f32_add f32_zero (rrf_weight rrf_k i)))
    | None => None end).
  { rewrite (rrf_loop_lookup add_dense (λ r s y,
      mkHybrid (hr_DocID r) s (SparseScore r) (f32_add (FinalScore r) y))); [|..|done].
    - unfold entry. by rewrite lookup_empty.
    - intros scores doc y e. unfold add_dense. case_decide; [subst; by rewrite lookup_insert_eq|].
      by rewrite lookup_insert_ne. }
  unfold entry, fused. rewrite Hdense.
  pose proof (rank_from_None 0 dense d). pose proof (rank_from_None 0 sparse d).
  destruct (rank_from 0 dense d) as [[]|], (rank_from 0 sparse d) as [[]|]; simpl;
    case_decide; try done; naive_solver.
Qed.

(** Reciprocal rank fusion of two result lists without repetitions returns the
    first [k], by descending final score, of the documents of either list; a document
    carries its score from each list and the sum of 1/(constant + rank + 1) over the
    lists it occurs in. *)
Theorem rrf_fusion dense sparse rrf_k k :
  NoDup (sd_DocID <$> dense) → NoDup (sd_DocID <$> sparse) → 0 ≤ k →
  (∀ d, FinalScore (fused rrf_k dense sparse d) ≠ S754_nan) →
  ∃ all, fuseRRF dense sparse rrf_k k = Ok (take (Z.to_nat k) all) ∧
    descending (FinalScore <$> all) ∧ NoDup (hr_DocID <$> all) ∧
    ∀ h, h ∈ all ↔ (hr_DocID h ∈ sd_DocID <$> dense ∨ hr_DocID h ∈ sd_DocID <$> sparse) ∧
                   h = fused rrf_k dense sparse (hr_DocID h).
Proof.
  intros Hd Hs Hk Hnan.
  set (m := rrf_loop add_sparse rrf_k 0 sparse (rrf_loop add_dense rrf_k 0 dense ∅)).
  assert (Hm : ∀ d h, m !! d = Some h ↔
    (d ∈ sd_DocID <$> dense ∨ d ∈ sd_DocID <$> sparse) ∧ h = fused rrf_k dense sparse d).
  { intros d h. unfold m. rewrite rrf_scores by done. case_decide; naive_solver. }
  assert (Hin : ∀ h, h ∈ (map_range m).*2 ↔ m !! hr_DocID h = Some h).
  { intros h. rewrite map_range_perm, list_elem_of_fmap. split.
    - intros ([d h'] & -> & H). apply elem_of_map_to_list in H. simpl in *.
      destruct (proj1 (Hm _ _) H) as [_ E]. rewrite E at 1. exact H.
    - intros H. exists (hr_DocID h, h). split; [done|]. by apply elem_of_map_to_list. }
  destruct (rank_spec FinalScore (map_range m).*2 k Hk) as (Hrank & Hperm & Hdesc).
  { apply Forall_forall. intros h Hh. apply Hin, Hm in Hh as [_ ->]. apply Hnan. }
  exists (sort_Slice higher_final (map_range m).*2). split_and!; [exact Hrank|exact Hdesc| |].
  - rewrite Hperm. rewrite map_range_perm, <- list_fmap_compose.
    rewrite (Forall_fmap_ext_1 (hr_DocID ∘ snd) fst).
    + apply NoDup_fst_map_to_list.
    + apply Forall_forall. intros [d h] H. apply elem_of_map_to_list, Hm in H as [_ ->]. done.
  - intros h. rewrite Hperm, Hin. apply Hm.
Qed.
End fusion.

(** ** BM25 *)
Section bm25.
Context {sorter : Sorter} {order : MapOrder Z} {log : MathLog}.

(** The number of documents that contain a term *)
Definition df (docs : gmap Z (gmap Z f32)) (t : Z) : Z :=
  Z.of_nat (size (filter (λ '(_, m), is_Some (m !! t)) docs)).

Record bm25_inv (idx : BM25Index) (docs : gmap Z (gmap Z f32)) : Prop := {
  inv_postings : holds (invertedIdx idx) (NewVectorFromMap <$> docs);
  inv_total : totalDocs idx = Z.of_nat (size docs);
  inv_freq t : default 0 (docFreq idx !! t) = df docs t
}.

Lemma count_terms (l : list (Z * f32)) (freq : gmap Z Z) t :
  NoDup l.*1 →
  default 0 (foldl (λ df '(t, _), <[t := default 0 (df !! t) + 1]> df) freq l !! t) =
  default 0 (freq !! t) + (if decide (t ∈ l.*1) then 1 else 0).
Proof.
  revert freq. induction l as [|[u x] l IH]; intros freq Hnd.
  - rewrite decide_False by apply not_elem_of_nil. cbn [foldl]. lia.
  - cbn [foldl]. rewrite fmap_cons in *. cbn [fst] in *. inversion Hnd as [|? ? Hu Hnd']; subst. rewrite IH by done.
    destruct (decide (u = t)) as [->|Hne].
    + rewrite lookup_insert_eq. rewrite (decide_False (P := t ∈ l.*1)) by done.
      rewrite decide_True by left. simpl. lia.
    + rewrite lookup_insert_ne by done. f_equal.
      destruct (decide (t ∈ l.*1)) as [Hin|Hin].
      * by rewrite decide_True by (by right).
      * rewrite decide_False; [done|]. by intros [?|?]%elem_of_cons.
Qed.

Lemma df_insert docs d m t :
  docs !! d = None → df (<[d := m]> docs) t = df docs t + (if decide (is_Some (m !! t)) then 1 else 0).
Proof.
  intros Hd. unfold df. case_decide.
  - rewrite map_filter_insert_True by done. rewrite map_size_insert_None; [lia|].
    apply map_lookup_filter_None. by left.
  - rewrite map_filter_insert_False by done. rewrite delete_id by done. lia.
Qed.

Lemma BM25_Add_inv idx docs d m :
  bm25_inv idx docs → docs !! d = None →
  ∃ idx', BM25_Add d m idx = (Ok tt, idx') ∧ bm25_inv idx' (<[d := m]> docs).
Proof.
  intros [Hh Ht Hf] Hd.
  destruct (Add_holds d (NewVectorFromMap m) (invertedIdx idx) (NewVectorFromMap <$> docs) Hh)
    as (inv & Ha & Hinv & _).
  { apply NewVectorFromMap_wf. } { by rewrite lookup_fmap, Hd. }
  unfold BM25_Add, mbind, M_bind, modify, get, put, lift. cbn [invertedIdx]. rewrite Ha.
  eexists. split; [reflexivity|]. split; cbn [invertedIdx totalDocs docFreq].
  - by rewrite fmap_insert.
  - rewrite Ht, map_size_insert_None by done. lia.
  - intros t. assert (Hnd : NoDup (map_range m).*1)
      by (rewrite map_range_perm; apply NoDup_fst_map_to_list).
    rewrite (count_terms _ _ _ Hnd), Hf, df_insert by done. f_equal.
    apply decide_ext. rewrite map_range_perm, list_elem_of_fmap. split.
    + intros ([u x] & -> & Hin). apply elem_of_map_to_list in Hin. eauto.
    + intros [x Hx]. exists (t, x). split; [done|]. by apply elem_of_map_to_list.
Qed.

(** Histories: documents are added once each. *)
Fixpoint bm25_run (ds : list (Z * gmap Z f32)) : M BM25Index Empty_set unit :=
  match ds with [] => mret tt | (d, m) :: ds => BM25_Add d m;; bm25_run ds end.

Lemma bm25_run_inv ds idx docs :
  bm25_inv idx docs → NoDup ds.*1 → (∀ d, d ∈ ds.*1 → docs !! d = None) →
  ∃ idx', bm25_run ds idx = (Ok tt, idx') ∧ bm25_inv idx' (list_to_map ds ∪ docs).
Proof.
  revert idx docs. induction ds as [|[d m] ds IH]; intros idx docs Hi Hnd Hnew.
  - exists idx. split; [done|]. simpl. by rewrite map_empty_union.
  - simpl in Hnd. inversion Hnd as [|? ? Hn Hnd']; subst.
    destruct (BM25_Add_inv idx docs d m Hi) as (idx1 & Ha & Hi1); [by apply Hnew; left|].
    destruct (IH idx1 (<[d := m]> docs) Hi1 Hnd') as (idx2 & Hr & Hi2).
    { intros e He. rewrite lookup_insert_ne by (by intros ->). apply Hnew. by right. }
    exists idx2. split.
    + cbn [bm25_run]. unfold mbind, M_bind. by rewrite Ha.
    + cbn [list_to_map foldr uncurry]. simpl. rewrite <- insert_union_l, insert_union_r; [done|].
      by apply not_elem_of_list_to_map_1.
Qed.

(** The score of a document with terms [m]: the weighted terms it contains, in order. *)
Definition bm25_step (idx : BM25Index) (docs : gmap Z (gmap Z f32)) (d : Z) (m : gmap Z f32)
    (o : option f32) (q : Z * f32) : option f32 :=
  match m !! q.1 with
  | Some tf => Some (f32_add (default f32_zero o)
      (f32_mul (f32_mul q.2 (idf (Z.of_nat (size docs)) (df docs q.1))) (tfNorm idx (mkPosting d tf))))
  | None => o
  end.

Lemma score_term_lookup idx docs scores q d :
  bm25_inv idx docs →
  score_term idx scores q !! d =
  match docs !! d with
  | Some m => bm25_step idx docs d m (scores !! d) q
  | None => scores !! d
  end.
Proof.
  intros [Hh Ht Hf]. destruct q as [t w]. unfold score_term. rewrite Hf, Ht.
  assert (Hdf : ∀ m, docs !! d = Some m → is_Some (m !! t) → df docs t ≠ 0).
  { intros m Hm Hs. unfold df. intros E.
    assert (E0 : size (filter (λ '(_, m), is_Some (m !! t)) docs) = 0%nat) by lia.
    apply map_size_empty_inv in E0.
    assert (filter (λ '(_, m), is_Some (m !! t)) docs !! d = Some m)
      by (by apply map_lookup_filter_Some).
    rewrite E0, lookup_empty in H. done. }
  assert (Hp : filter (λ p, DocID p = d) (postings (invertedIdx idx) t) =
    match docs !! d ≫= λ m, m !! t with Some y => [mkPosting d y] | None => [] end).
  { rewrite Hh. unfold doc_postings. rewrite lookup_fmap. destruct (docs !! d) as [m|]; [|done].
    simpl. by rewrite (proj2 (NewVectorFromMap_wf m)). }
  unfold bm25_step. cbn [fst snd].
  destruct (Z.eqb_spec (df docs t) 0) as [E|E].
  - destruct (docs !! d) as [m|] eqn:Em; [|done]. destruct (m !! t) eqn:Emt; [|done].
    exfalso. by eapply Hdf.
  - rewrite (bump_lookup (λ p, f32_mul (f32_mul w (idf (Z.of_nat (size docs)) (df docs t))) (tfNorm idx p))).
    rewrite Hp. destruct (docs !! d) as [m|]; [|done]. simpl. by destruct (m !! t).
Qed.

Lemma score_terms_lookup idx docs qs scores d :
  bm25_inv idx docs →
  foldl (score_term idx) scores qs !! d =
  match docs !! d with
  | Some m => foldl (bm25_step idx docs d m) (scores !! d) qs
  | None => scores !! d
  end.
Proof.
  intros Hi. revert scores. induction qs as [|q qs IH]; intros scores; simpl.
  - by destruct (docs !! d).
  - rewrite IH, (score_term_lookup _ docs) by done. by destruct (docs !! d).
Qed.

Lemma bm25_step_Some idx docs d m o qs :
  is_Some (foldl (bm25_step idx docs d m) o qs) ↔ is_Some o ∨ ∃ t, t ∈ qs.*1 ∧ is_Some (m !! t).
Proof.
  revert o. induction qs as [|[t w] qs IH]; intros o; simpl.
  - split; [by left|]. intros [|(t & Ht & _)]; [done|]. by apply elem_of_nil in Ht.
  - rewrite IH. unfold bm25_step at 1. simpl. setoid_rewrite elem_of_cons.
    destruct (m !! t) as [x|] eqn:E.
    + split; [|by eauto]. intros _. right. exists t. split; [by left|]. by rewrite E.
    + split; [naive_solver|]. intros [?|(u & [->|Hu] & Hs)]; [by left| |by eauto].
      rewrite E in Hs. by destruct Hs.
Qed.

(** After adding documents with distinct numbers, BM25 search returns the first [k],
    by descending score, of exactly the documents that contain a term of the query.
    The score adds, over those terms, weight * idf * saturated frequency, where idf
    uses the number of documents added and the number that contain the term. *)
Theorem bm25_search_exact cfg ds q k idx :
  NoDup ds.*1 → 0 ≤ k → bm25_run ds (NewBM25Index cfg) = (Ok tt, idx) →
  (∀ d s, foldl (score_term idx) ∅ (map_range q) !! d = Some s → s ≠ S754_nan) →
  ∃ all, BM25_Search idx q k = Ok (take (Z.to_nat k) all) ∧
    NoDup (sd_DocID <$> all) ∧ descending (sd_Score <$> all) ∧
    (∀ d, d ∈ sd_DocID <$> all ↔ ∃ m t, (d, m) ∈ ds ∧ is_Some (q !! t) ∧ is_Some (m !! t)) ∧
    ∀ d s m, mkScored d s ∈ all → (d, m) ∈ ds →
      foldl (bm25_step idx (list_to_map ds) d m) None (map_range q) = Some s.
Proof.
  intros Hnd Hk Hrun Hnan.
  destruct (bm25_run_inv ds (NewBM25Index cfg) ∅) as (idx' & Hr & Hi); [|done|done|].
  { split; [|done|].
    - intros i d. unfold postings, doc_postings. simpl. by rewrite fmap_empty, !lookup_empty.
    - intros t. unfold df. by rewrite map_filter_empty. }
  rewrite Hrun in Hr. injection Hr as <-. rewrite map_union_empty in Hi.
  set (sc := foldl (score_term idx) ∅ (map_range q)) in *.
  assert (Hsc : ∀ d, sc !! d = match (list_to_map ds : gmap Z (gmap Z f32)) !! d with
    | Some m => foldl (bm25_step idx (list_to_map ds) d m) None (map_range q)
    | None => None end).
  { intros d. unfold sc. rewrite (score_terms_lookup _ _ _ _ _ Hi), lookup_empty. done. }
  destruct (top_scores_spec sc k Hk Hnan) as (all & Htop & Hnda & Hdesc & Hall).
  exists all. split_and!; [exact Htop|done|done|..].
  - intros d. rewrite list_elem_of_fmap. split.
    + intros ([d' s] & -> & Hin). apply Hall in Hin. rewrite Hsc in Hin. simpl in *.
      destruct (list_to_map ds !! d') as [m|] eqn:E; [|done].
      apply elem_of_list_to_map_2 in E.
      assert (HS : is_Some (foldl (bm25_step idx (list_to_map ds) d' m) None (map_range q))) by eauto.
      apply bm25_step_Some in HS as [[? ?]|(t & Ht & Hmt)]; [done|]. exists m, t.
      split_and!; [done| |done]. rewrite map_range_perm in Ht.
      apply list_elem_of_fmap in Ht as ([u w] & -> & Hin'). apply elem_of_map_to_list in Hin'. eauto.
    + intros (m & t & Hin & [w Hq] & Hmt). apply (elem_of_list_to_map_1 _ _ _ Hnd) in Hin.
      assert (HS : is_Some (sc !! d)).
      { rewrite Hsc, Hin. apply bm25_step_Some. right. exists t. split; [|done].
        rewrite map_range_perm. apply list_elem_of_fmap. exists (t, w). split; [done|].
        by apply elem_of_map_to_list. }
      destruct HS as [s Hs]. exists (mkScored d s). split; [done|]. by apply Hall.
  - intros d s m Hin Hds. apply Hall in Hin. rewrite Hsc in Hin.
    apply (elem_of_list_to_map_1 _ _ _ Hnd) in Hds. by rewrite Hds in Hin.
Qed.
End bm25.

(** ** Witnesses *)

(** Decides a closed proposition by evaluation. *)
Ltac by_decision := apply (bool_decide_eq_true_1 _); vm_compute; reflexivity.

#[local] Instance demo_order : MapOrder Z := listed_order Z.
#[local] Instance demo_log : MathLog := λ x, x.

Definition vec1 : Vec := mkVec [1; 4] [f32_of_Z 2; f32_of_Z 3].
Definition vec2 : Vec := mkVec [2; 4] [f32_of_Z 5; f32_of_Z 7].
Definition sparse_ops : list sop := [SAdd 10 vec1; SAdd 20 vec2; SAdd 30 vec1; SRemove 30].
Definition sparse_docs : gmap Z Vec := delete 30 (<[30 := vec1]> (<[20 := vec2]> (<[10 := vec1]> ∅))).

Lemma vec1_wf : wf_vec vec1.
Proof. split; [done|]. repeat constructor. Qed.
Lemma vec2_wf : wf_vec vec2.
Proof. split; [done|]. repeat constructor. Qed.

Lemma sparse_history : history sparse_ops sparse_docs.
Proof.
  apply (history_remove [SAdd 10 vec1; SAdd 20 vec2; SAdd 30 vec1]).
  apply (history_add [SAdd 10 vec1; SAdd 20 vec2]); [|done|apply vec1_wf].
  apply (history_add [SAdd 10 vec1]); [|done|apply vec2_wf].
  apply (history_add []); [constructor|done|apply vec1_wf].
Qed.

Lemma sparse_docs_nan d v : sparse_docs !! d = Some v → dot vec1 v ≠ S754_nan.
Proof.
  unfold sparse_docs. rewrite lookup_delete_Some, !lookup_insert_Some.
  intros [Hd [[<- <-]|[_ [[<- <-]|[_ [[<- <-]|[_ H]]]]]]];
    [done|vm_compute; discriminate|vm_compute; discriminate|by rewrite lookup_empty in H].
Qed.

Lemma sparse_search_exact_witness :
  ∃ idx all, run sparse_ops NewInvertedIndex = (Ok tt, idx) ∧
    Search idx vec1 1 = Ok (take 1 all) ∧ Size idx = 3.
Proof.
  destruct (sparse_search_exact sparse_ops sparse_docs vec1 1 sparse_history vec1_wf
    ltac:(lia) sparse_docs_nan) as (idx & all & H1 & H2 & _ & _ & _ & H3).
  exists idx, all. auto.
Defined.

Lemma sparse_roundtrip_witness : ∃ bs, Encode vec1 = Ok bs ∧ Decode bs = Ok vec1.
Proof.
  destruct (sparse_roundtrip vec1 [] ltac:(done) ltac:(repeat constructor; lia)
    ltac:(repeat constructor) ltac:(done)) as (bs & H1 & H2 & _).
  exists bs. rewrite app_nil_r in H2. auto.
Defined.

Definition ranked1 : list ScoredDoc := [mkScored 1 (f32_of_Z 9); mkScored 2 (f32_of_Z 8)].
Definition ranked2 : list ScoredDoc := [mkScored 2 (f32_of_Z 5)].

Lemma ranked_nan d : FinalScore (fused 60 ranked1 ranked2 d) ≠ S754_nan.
Proof.
  unfold fused, ranked1, ranked2. cbn [rank_from sd_DocID sd_Score].
  destruct (decide (1 = d)), (decide (2 = d)); subst; by vm_compute.
Qed.

Lemma rrf_fusion_witness :
  ∃ all, fuseRRF ranked1 ranked2 60 10 = Ok (take 10 all) ∧ fused 60 ranked1 ranked2 2 ∈ all.
Proof.
  destruct (rrf_fusion ranked1 ranked2 60 10 ltac:(by_decision)
    ltac:(by_decision) ltac:(lia) ranked_nan) as (all & H1 & _ & _ & H2).
  exists all. split; [exact H1|]. apply H2. split; [|reflexivity]. left. by_decision.
Defined.

Definition bm25_docs : list (Z * gmap Z f32) := [(1, {[7 := f32_of_Z 2]}); (2, {[8 := f32_of_Z 1]})].

Lemma bm25_search_exact_witness :
  ∃ idx all, bm25_run bm25_docs (NewBM25Index None) = (Ok tt, idx) ∧
    BM25_Search idx {[7 := f32_one]} 5 = Ok (take 5 all) ∧ 1 ∈ sd_DocID <$> all.
Proof.
  assert (Hrun : ∃ idx, bm25_run bm25_docs (NewBM25Index None) = (Ok tt, idx) ∧
    ∀ d s, foldl (score_term idx) ∅ (map_range {[7 := f32_one]}) !! d = Some s → s ≠ S754_nan).
  { exists (snd (bm25_run bm25_docs (NewBM25Index None))).
    split; [vm_compute; reflexivity|]. intros d s.
    enough (map_Forall (λ _ s, s ≠ S754_nan) (foldl (score_term
      (snd (bm25_run bm25_docs (NewBM25Index None)))) ∅ (map_range {[7 := f32_one]}))) as H
      by apply H.
    by_decision. }
  destruct Hrun as (idx & Hrun & Hnan).
  destruct (bm25_search_exact None bm25_docs {[7 := f32_one]} 5 idx ltac:(by_decision)
    ltac:(lia) Hrun Hnan) as (all & H1 & _ & _ & H2 & _).
  exists idx, all. split_and!; [exact Hrun|exact H1|]. apply H2.
  exists {[7 := f32_of_Z 2]}, 7. split; [by left|]. split; by eexists.
Defined.
