(* ===== verification/Config.v ===== *)
(** * pkg/config/config.go: the configuration of a collection

    The settings of a collection, their validation and the lookups the collection
    makes. Reading and writing configuration files is I/O and not modelled. *)
From stdpp Require Import base gmap strings list fin_maps numbers.
From Stdlib Require Import ZArith Lia.
From S2P Require Import Prelude.

#[local] Open Scope Z_scope.

(** Metrics are strings. *)
Definition MetricCosine : string := "cosine".
Definition MetricEuclidean : string := "euclidean".
Definition MetricDotProduct : string := "dot_product".

Record HNSWConfig := mkHNSWConfig {
  hc_M : Z; hc_EfConstruction : Z; hc_EfSearch : Z; hc_MaxElements : Z
}.

(** [Q] stands for the settings of the quantizer. *)
Section config.
Context {Q : Type}.

Record VectorConfig := mkVectorConfig {
  vc_Dimension : Z;
  vc_Metric : string;
  vc_HNSW : HNSWConfig;
  vc_OnDisk : bool;
  vc_Quantization : option Q
}.

Record CollectionConfig := mkCollectionConfig {
  cc_Name : string;
  cc_Dimension : Z;
  cc_Metric : string;
  cc_HNSW : HNSWConfig;
  cc_OnDisk : bool;
  cc_Quantization : option Q;
  cc_Vectors : gmap string VectorConfig
}.

Inductive configError :=
| ErrInvalidCollectionName
| ErrInvalidDimension
| ErrInvalidMetric
| ErrVector (name : string) (e : configError).

Definition dimension_ok (d : Z) : bool := negb ((d <=? 0) || (d >? 65536)).
Definition metric_ok (m : string) : bool :=
  String.eqb m MetricCosine || String.eqb m MetricEuclidean || String.eqb m MetricDotProduct.

Fixpoint validate_vectors (vs : list (string * VectorConfig)) : result configError unit :=
  match vs with
  | [] => Ok tt
  | (name, vc) :: vs =>
      if negb (dimension_ok (vc_Dimension vc)) then Err (ErrVector name ErrInvalidDimension)
      else if metric_ok (vc_Metric vc) || String.eqb (vc_Metric vc) "" then validate_vectors vs
      else Err (ErrVector name ErrInvalidMetric)
  end.

Definition HasNamedVectors (c : CollectionConfig) : bool :=
  0 <? Z.of_nat (size (cc_Vectors c)).

Definition Validate {order : MapOrder string} (c : CollectionConfig) : result configError unit :=
  if String.eqb (cc_Name c) "" then Err ErrInvalidCollectionName
  else if 0 <? Z.of_nat (size (cc_Vectors c)) then validate_vectors (map_range (cc_Vectors c))
  else if negb (dimension_ok (cc_Dimension c)) then Err ErrInvalidDimension
  else if metric_ok (cc_Metric c) then Ok tt
  else Err ErrInvalidMetric.

Definition GetVectorConfig (c : CollectionConfig) (name : string) : option VectorConfig :=
  if 0 <? Z.of_nat (size (cc_Vectors c)) then cc_Vectors c !! name
  else if String.eqb name "" || String.eqb name "default" then
    Some (mkVectorConfig (cc_Dimension c) (cc_Metric c) (cc_HNSW c) (cc_OnDisk c) None)
  else None.

Definition VectorNames {order : MapOrder string} (c : CollectionConfig) : list string :=
  if 0 <? Z.of_nat (size (cc_Vectors c)) then (map_range (cc_Vectors c)).*1 else ["default"%string].

(** A valid configuration: a name, and for every vector a dimension up to 65536
    and a known metric, which only named vectors may leave out. *)
Definition valid_vector (vc : VectorConfig) : Prop :=
  0 < vc_Dimension vc ≤ 65536 ∧ (metric_ok (vc_Metric vc) = true ∨ vc_Metric vc = ""%string).

Lemma dimension_ok_spec d : dimension_ok d = true ↔ 0 < d ≤ 65536.
Proof.
  unfold dimension_ok. rewrite negb_true_iff, orb_false_iff, Z.leb_gt, Z.gtb_ltb, Z.ltb_ge. lia.
Qed.

Lemma validate_vectors_ok vs :
  validate_vectors vs = Ok tt ↔ ∀ name vc, (name, vc) ∈ vs → valid_vector vc.
Proof.
  induction vs as [|[name vc] vs IH]; simpl.
  - split; [|done]. intros _ ? ? H. by apply elem_of_nil in H.
  - assert (Hcons : (∀ n v, (n, v) ∈ (name, vc) :: vs → valid_vector v) ↔
      valid_vector vc ∧ ∀ n v, (n, v) ∈ vs → valid_vector v).
    { split.
      - intros H. split; [apply (H name); by left|]. intros n v Hin. apply (H n). by right.
      - intros [H1 H2] n v [[= -> ->]|Hin]%elem_of_cons; [done|by eapply H2]. }
    rewrite Hcons, <- IH. unfold valid_vector. rewrite <- dimension_ok_spec.
    destruct (dimension_ok (vc_Dimension vc)); simpl; [|naive_solver].
    destruct (metric_ok (vc_Metric vc)); simpl; [naive_solver|].
    destruct (String.eqb_spec (vc_Metric vc) ""); naive_solver.
Qed.

Lemma Validate_ok {order : MapOrder string} c :
  Validate c = Ok tt ↔ cc_Name c ≠ ""%string ∧
    if HasNamedVectors c then ∀ name vc, cc_Vectors c !! name = Some vc → valid_vector vc
    else 0 < cc_Dimension c ≤ 65536 ∧ metric_ok (cc_Metric c) = true.
Proof.
  unfold Validate, HasNamedVectors. destruct (String.eqb_spec (cc_Name c) ""); [naive_solver|].
  destruct (0 <? Z.of_nat (size (cc_Vectors c))).
  - rewrite validate_vectors_ok. setoid_rewrite map_range_perm.
    setoid_rewrite elem_of_map_to_list. naive_solver.
  - rewrite <- dimension_ok_spec.
    destruct (dimension_ok (cc_Dimension c)), (metric_ok (cc_Metric c)); naive_solver.
Qed.
End config.
Arguments VectorConfig : clear implicits.
Arguments CollectionConfig : clear implicits.
