(* ===== verification/SearchCache.v ===== *)
(** * pkg/cache/cache.go: the search cache and the semantic cache

    Both wrap the LRU cache of Cache.v. The key of a search is the hash of the
    JSON of its parameters, a function of them here; the semantic cache compares
    query vectors with its own cosine similarity. *)
From stdpp Require Import base gmap strings list fin_maps numbers.
From Stdlib Require Import ZArith Lia Floats.SpecFloat.
From S2P Require Import Prelude Float32 Hnsw Distance Cache.

#[local] Open Scope Z_scope.

(** [json.Marshal] of the parameters and the hexadecimal SHA-256 of the text. The
    error of [Marshal] is dropped: parameters it cannot write, such as a vector
    with a NaN, have the hash of no bytes. *)
Class Digest := {
  json_search : string → vector → Z → option (list Byte.byte);
  sha256_hex : list Byte.byte → string
}.

Section cache.
Context {value : Type} {dg : Digest}.
#[local] Abbreviation cache := (@Cache value).

(** ** SearchCache *)
Record SearchCache := mkSearchCache { sc_cache : cache }.

Definition NewSearchCache (capacity ttl : Z) : SearchCache := mkSearchCache (NewCache capacity ttl).

(** The filter of a cached search is always nil. *)
Definition SearchKey (collection : string) (v : vector) (k : Z) : string :=
  sha256_hex (default [] (json_search collection v k)).

Definition sc_Get (now : Z) (key : string) (sc : SearchCache) : option value * SearchCache :=
  let '(r, c) := Get now key (sc_cache sc) in (r, mkSearchCache c).

(** [None] when the eviction loop has not ended; a positive capacity is enough fuel. *)
Definition sc_Set (now : Z) (key : string) (v : value) (sc : SearchCache) : option SearchCache :=
  mkSearchCache <$> Set_ (Z.to_nat (capacity (sc_cache sc)) + 1) now key v (sc_cache sc).

Definition InvalidateCollection (collection : string) (sc : SearchCache) : SearchCache :=
  mkSearchCache (Clear (sc_cache sc)).

Definition sc_Stats (sc : SearchCache) : CacheStats := Stats (sc_cache sc).

(** ** SemanticCache *)
Record SemanticCache := mkSemanticCache {
  sem_cache : cache;
  similarityThreshold : f32;
  sem_vectors : gmap string vector
}.

Definition NewSemanticCache (capacity ttl : Z) (threshold : f32) : SemanticCache :=
  mkSemanticCache (NewCache capacity ttl) threshold ∅.

(** Ten rounds of Newton's iteration from [x] itself *)
Fixpoint newton (n : nat) (x z : f32) : f32 :=
  match n with
  | O => z
  | S n => newton n x (f32_div (f32_add z (f32_div x z)) (f32_of_Z 2))
  end.
Definition sqrt (x : f32) : f32 := if SFleb x f32_zero then f32_zero else newton 10 x x.

Definition cosineSimilarity (a b : vector) : f32 :=
  if negb (len a =? len b) then f32_zero else
  let '(dotProduct, normA, normB) :=
    foldl (λ '(d, na, nb) '(x, y),
             (f32_add d (f32_mul x y), f32_add na (f32_mul x x), f32_add nb (f32_mul y y)))
      (f32_zero, f32_zero, f32_zero) (zip a b) in
  if SFeqb normA f32_zero || SFeqb normB f32_zero then f32_zero
  else f32_div dotProduct (f32_mul (sqrt normA) (sqrt normB)).

(** The candidates in the order they were copied from the map *)
Fixpoint find_similar (now : Z) (v : vector) (candidates : list (string * vector))
    (sc : SemanticCache) : option (string * value) * SemanticCache :=
  match candidates with
  | [] => (None, sc)
  | (key, cached) :: rest =>
      if SFleb (similarityThreshold sc) (cosineSimilarity v cached) then
        let '(r, c) := Get now key (sem_cache sc) in
        let sc := mkSemanticCache c (similarityThreshold sc) (sem_vectors sc) in
        match r with
        | Some x => (Some (key, x), sc)
        | None => find_similar now v rest sc
        end
      else find_similar now v rest sc
  end.

Definition FindSimilar {order : MapOrder string} (now : Z) (v : vector) (sc : SemanticCache) :
    option (string * value) * SemanticCache :=
  find_similar now v (map_range (sem_vectors sc)) sc.

Definition sem_Set (now : Z) (key : string) (v : vector) (result : value) (sc : SemanticCache) :
    option SemanticCache :=
  c ← Set_ (Z.to_nat (capacity (sem_cache sc)) + 1) now key result (sem_cache sc);
  Some (mkSemanticCache c (similarityThreshold sc) (<[key := v]> (sem_vectors sc))).

(** ** The search cache as a set of entries *)

(** What a lookup returns was stored under that key and has not expired; looking
    up and storing keep or replace entries, never invent one. *)
Definition cached (sc : SearchCache) (key : string) (x : value) : Prop :=
  ∃ p e, (p, e) ∈ order (sc_cache sc) ∧ e_Key e = key ∧ e_Value e = x.

Lemma find_elem_In p (l : list (nat * CacheEntry)) (e : @CacheEntry value) :
  find_elem p l = Some e → (p, e) ∈ l.
Proof.
  induction l as [|[q f] l IH]; [done|]. simpl. case_decide as E.
  - intros [= <-]. subst. left.
  - intros H. right. by apply IH.
Qed.

Lemma MoveToFront_In p (l : list (nat * CacheEntry)) (x : nat * @CacheEntry value) :
  x ∈ MoveToFront p l → x ∈ l.
Proof.
  unfold MoveToFront. destruct (find_elem p l) as [e|] eqn:E; [|done].
  intros [->|H]%elem_of_cons; [by apply find_elem_In|].
  by apply remove_elem_elem in H as [_ H].
Qed.

Lemma removeElement_In p c x : x ∈ order (@removeElement value p c) → x ∈ order c.
Proof.
  unfold removeElement. destruct (find_elem p (order c)) as [e|]; [|done]. simpl.
  by intros [_ H]%remove_elem_elem.
Qed.

Lemma Get_In now key c x : x ∈ order (snd (@Get value now key c)) → x ∈ order c.
Proof.
  unfold Get. destruct (items c !! key) as [p|]; [|done].
  destruct (find_elem p (order c)) as [e|]; [|done].
  destruct (now <? e_ExpiresAt e); simpl; [apply MoveToFront_In|apply removeElement_In].
Qed.

Lemma Get_hit now key c x :
  cache_ok c → fst (@Get value now key c) = Some x →
  ∃ p e, (p, e) ∈ order c ∧ e_Key e = key ∧ e_Value e = x.
Proof.
  intros Hok. unfold Get. destruct (items c !! key) as [p|] eqn:Ei; [|done].
  destruct (find_elem p (order c)) as [e|] eqn:E; [|done].
  destruct (now <? e_ExpiresAt e); [|done]. simpl. intros [= <-].
  apply (co_items c Hok) in Ei as (e' & Hin & Hk).
  rewrite (find_elem_Some p e' (order c) (co_ids c Hok) Hin) in E. injection E as <-. eauto.
Qed.

Lemma removeOldest_In c x : x ∈ order (@removeOldest value c) → x ∈ order c.
Proof. unfold removeOldest. destruct (list.last (order c)) as [[p e]|]; [apply removeElement_In|done]. Qed.

Lemma evict_In fuel c c' x : @evict value fuel c = Some c' → x ∈ order c' → x ∈ order c.
Proof.
  revert c. induction fuel as [|fuel IH]; intros c; simpl;
    destruct (capacity c <=? len (order c)); try done; try (by intros [= <-]).
  intros H Hx. by eapply removeOldest_In, IH.
Qed.

Lemma Set_In fuel now key v c c' p e :
  cache_ok c → @Set_ value fuel now key v c = Some c' → (p, e) ∈ order c' →
  (e_Key e = key ∧ e_Value e = v) ∨ (p, e) ∈ order c.
Proof.
  intros Hok. unfold Set_. destruct (items c !! key) as [q|] eqn:Ei.
  - intros [= <-] Hin. simpl in Hin. unfold update_elem in Hin.
    apply list_elem_of_fmap in Hin as ([q' f] & E & Hin). simpl in E.
    apply MoveToFront_In in Hin.
    case_decide as Eq; [subst q'|injection E as -> ->; by right].
    injection E as -> ->. left. simpl. split; [|done].
    apply (co_items c Hok) in Ei as (e' & Hin' & Hk).
    pose proof (find_elem_Some q e' _ (co_ids c Hok) Hin') as E1.
    pose proof (find_elem_Some q f _ (co_ids c Hok) Hin) as E2. congruence.
  - destruct (evict fuel c) as [c1|] eqn:Ee; [|done]. simpl. intros [= <-].
    intros [[= -> ->]|Hin]%elem_of_cons; [by left|]. right. by eapply evict_In.
Qed.
End cache.
Arguments SearchCache : clear implicits.
Arguments SemanticCache : clear implicits.
