(* ===== verification/HnswContents.v ===== *)
(** * pkg/index/hnsw: the index as a table of rows

    What an index holds, in node order: identifier, vector, payload and deletion
    mark of each node. [Insert], [Delete], [Get], [GetNodeID] and [GetAllPoints]
    act on the rows alone; the graph, and with it the levels the generator drew,
    plays no part. Collections rely on this when they replay a log. *)
From stdpp Require Import base gmap strings list fin_maps numbers sorting sets.
From Stdlib Require Import Strings.Byte ZArith Lia Floats.SpecFloat.
From S2P Require Import Prelude Float32 Heap Hnsw HnswSearch HnswGraph HnswInsert HnswSpec.

#[local] Open Scope Z_scope.

Section contents.
Context {payload : Type}.
Implicit Types (h : HNSW payload) (n : Node payload) (p : Point payload).

Record row := Row { r_ID : string; r_Vector : vector; r_payload : payload; r_deleted : bool }.

Definition row_of n : row := Row (n_ID n) (n_Vector n) (n_payload n) (n_deleted n).
Definition contents h : list row := row_of <$> h_nodes h.

(** ** Operations on rows *)
Fixpoint find_row (id : string) (rows : list row) : option nat :=
  match rows with
  | [] => None
  | r :: rows => if decide (r_ID r = id) then Some 0%nat else S <$> find_row id rows
  end.

Definition rows_insert (dim : Z) (p : Point payload) (rows : list row) :
    result hnswError unit * list row :=
  if negb (len (p_Vector p) =? dim) then (Err ErrDimensionMismatch, rows)
  else match find_row (p_ID p) rows with
  | Some _ => (Err ErrPointExists, rows)
  | None => if MaxNodes <=? len rows then (Err ErrTooManyNodes, rows)
            else (Ok tt, rows ++ [Row (p_ID p) (p_Vector p) (p_Payload p) false])
  end.

Definition mark (r : row) : row := Row (r_ID r) (r_Vector r) (r_payload r) true.

Definition rows_delete (id : string) (rows : list row) : result hnswError unit * list row :=
  match find_row id rows with
  | None => (Err ErrPointNotFound, rows)
  | Some i => (Ok tt, alter mark i rows)
  end.

Definition row_point (r : row) : Point payload := mkPoint (r_ID r) (r_Vector r) (r_payload r).

Definition rows_get (id : string) (rows : list row) : result hnswError (Point payload) :=
  match find_row id rows ≫= λ i, rows !! i with
  | Some r => if r_deleted r then Err ErrPointNotFound else Ok (row_point r)
  | None => Err ErrPointNotFound
  end.

Definition rows_live (rows : list row) : list (Point payload) :=
  row_point <$> filter (λ r, r_deleted r = false) rows.

(** ** Agreement *)
Lemma find_row_Some id rows i :
  find_row id rows = Some i → ∃ r, rows !! i = Some r ∧ r_ID r = id.
Proof.
  revert i. induction rows as [|r rows IH]; intros i; simpl; [done|].
  case_decide as E; [intros [= <-]; by exists r|].
  intros (j & Hj & ->)%fmap_Some. by apply IH.
Qed.

Lemma find_row_None id rows : find_row id rows = None → ∀ i r, rows !! i = Some r → r_ID r ≠ id.
Proof.
  induction rows as [|r rows IH]; simpl; [done|]. case_decide as E; [done|].
  intros Hn%fmap_None [|i] r'; simpl; [intros [= <-]; done|]. by apply IH.
Qed.

Lemma GetNodeID_contents h id : wf h → GetNodeID h id = find_row id (contents h).
Proof.
  intros Hwf. unfold GetNodeID. destruct (find_row id (contents h)) as [i|] eqn:E.
  - apply find_row_Some in E as (r & Hr & <-). unfold contents in Hr.
    apply list_lookup_fmap_Some in Hr as (n & -> & Hn).
    apply (wf_ids _ Hwf). exists n. done.
  - destruct (h_idToIndex h !! id) as [i|] eqn:Ei; [|done].
    apply (wf_ids _ Hwf) in Ei as (n & Hn & <-).
    exfalso. apply (find_row_None _ _ E i (row_of n)); [|done].
    unfold contents. by rewrite list_lookup_fmap, Hn.
Qed.

Lemma contents_skel h h' : skel h h' → contents h' = contents h.
Proof.
  intros Hs. unfold contents. apply list_eq. intros i. rewrite !list_lookup_fmap.
  destruct (h_nodes h' !! i) as [n'|] eqn:E'.
  - destruct (sk_nodes _ _ Hs _ _ E') as (n & -> & En). rewrite En. done.
  - apply lookup_ge_None in E'. rewrite (sk_len _ _ Hs) in E'.
    by rewrite (proj2 (lookup_ge_None _ _) E').
Qed.

Lemma len_contents h : len (contents h) = len (h_nodes h).
Proof. unfold len, contents. by rewrite length_fmap. Qed.

Lemma Insert_contents {calc : Calculator} {sorter : Sorter} h p level :
  wf h → 0 ≤ level →
  ∃ h', Insert p level h = (fst (rows_insert (h_dimension h) p (contents h)), h') ∧ wf h' ∧
    h_dimension h' = h_dimension h ∧ contents h' = snd (rows_insert (h_dimension h) p (contents h)).
Proof.
  intros Hwf Hl. unfold rows_insert. rewrite <- GetNodeID_contents, len_contents by done.
  unfold GetNodeID.
  destruct (Z.eqb_spec (len (p_Vector p)) (h_dimension h)) as [Hd|Hd]; simpl.
  2: { exists h. split_and!; try done. unfold Insert. unfold_M.
       rewrite (proj2 (Z.eqb_neq _ _) Hd). done. }
  destruct (h_idToIndex h !! p_ID p) as [i|] eqn:Hi; simpl.
  { exists h. split_and!; try done. unfold Insert. unfold_M. rewrite Hd, Z.eqb_refl. simpl.
    by rewrite Hi. }
  destruct (Z.leb_spec MaxNodes (len (h_nodes h))) as [Hfull|Hroom]; simpl.
  { exists h. split_and!; try done. unfold Insert. unfold_M. rewrite Hd, Z.eqb_refl. simpl.
    rewrite Hi, NewNode_run by done. unfold insertNode. unfold_M.
    by rewrite (proj2 (Z.leb_le _ _)) by done. }
  destruct (Insert_Ok h p level Hwf Hd Hi Hl Hroom) as (h' & E & Hwf' & Hs).
  exists h'. split_and!; [done|done|by rewrite (sk_rest _ _ Hs)|].
  rewrite (contents_skel _ _ Hs). unfold contents, added. simpl. by rewrite fmap_app.
Qed.

Lemma Delete_contents h id :
  wf h →
  ∃ h', Delete id h = (fst (rows_delete id (contents h)), h') ∧ wf h' ∧
    h_dimension h' = h_dimension h ∧ contents h' = snd (rows_delete id (contents h)).
Proof.
  intros Hwf. unfold rows_delete. rewrite <- GetNodeID_contents by done. unfold GetNodeID.
  destruct (h_idToIndex h !! id) as [i|] eqn:Hi.
  2: { exists h. split_and!; try done. unfold Delete. unfold_M. by rewrite Hi. }
  pose proof Hi as Hi'. apply (wf_ids _ Hwf) in Hi' as (n & Hn & Hid).
  destruct (n_deleted n) eqn:Hd.
  - exists h. split_and!; try done.
    + unfold Delete. unfold_M. rewrite Hi, (node_at_Some _ _ _ Hn). simpl. by rewrite Hd.
    + simpl. symmetry. apply list_eq. intros j. unfold contents.
      destruct (decide (i = j)) as [->|Hne]; [|by rewrite list_lookup_alter_ne].
      rewrite list_lookup_alter_eq, list_lookup_fmap, Hn. simpl. f_equal.
      unfold mark, row_of. simpl. by rewrite Hd.
  - exists (marked h i n). split_and!; [|by apply wf_marked|done|].
    + unfold Delete. unfold_M. rewrite Hi, (node_at_Some _ _ _ Hn). simpl. by rewrite Hd.
    + simpl. unfold contents. apply list_eq. intros j.
      change (h_nodes (marked h i n)) with (<[i := MarkDeleted n]> (h_nodes h)).
      rewrite list_fmap_insert.
      destruct (decide (i = j)) as [->|Hne].
      * rewrite list_lookup_alter_eq, list_lookup_insert_eq, list_lookup_fmap, Hn; [done|].
        rewrite length_fmap. by eapply lookup_lt_Some.
      * by rewrite list_lookup_insert_ne, list_lookup_alter_ne.
Qed.

Lemma Get_contents h id : wf h → Get h id = rows_get id (contents h).
Proof.
  intros Hwf. unfold Get, rows_get. rewrite <- GetNodeID_contents by done. unfold GetNodeID.
  destruct (h_idToIndex h !! id) as [i|] eqn:Hi; [|done].
  apply (wf_ids _ Hwf) in Hi as (n & Hn & _). simpl. unfold contents.
  rewrite (node_at_Some _ _ _ Hn), list_lookup_fmap, Hn. done.
Qed.

Lemma GetAllPoints_contents h : GetAllPoints h = rows_live (contents h).
Proof.
  unfold GetAllPoints, rows_live, contents. induction (h_nodes h) as [|n ns IH]; [done|].
  rewrite fmap_cons. destruct (n_deleted n) eqn:E.
  - rewrite !filter_cons_False; [exact IH|simpl; by rewrite E|rewrite E; simpl; tauto].
  - rewrite !filter_cons_True by (simpl; by rewrite E). rewrite !fmap_cons. f_equal. exact IH.
Qed.
End contents.
Arguments row : clear implicits.
