(* ===== verification/Collection.v ===== *)
(** * pkg/collection/collection.go: collections

    A collection keeps an HNSW index over its vectors (one, or one per named
    vector), a payload index, a sparse index and a cache of search results, and
    writes each change to the write-ahead log before it applies it. The log is
    the interface [Log]; its promise, durability, is stated in CollectionLog.v
    and discharged there by the log of WalLog.v. Collections are kept in memory
    here ([OnDisk] false): the files of the memory-mapped mode are not modelled.
    Times of creation and update and the durations in results are left out. The
    random levels the index draws are arguments, one per vector name, the empty
    name standing for the default vector. *)
From stdpp Require Import base gmap strings list fin_maps numbers.
From Stdlib Require Import Strings.Byte ZArith Lia Floats.SpecFloat.
From S2P Require Import Prelude Float32 Heap WalCodec Hnsw Distance HnswQuery Cache PayloadFilter.
From S2P Require Import PayloadIndex Binary Point PointV2 Sparse Config SearchCache.

#[local] Open Scope Z_scope.

(** The log as a collection uses it *)
Class Log (L : Type) := {
  log_Write : Record_ → M L walError unit;
  log_WriteBatch : list Record_ → M L walError unit
}.

(** [quantization.New] *)
Class NewQuantizer (Q : Type) := quantization_New : Q → Z → option Quantizer.

Inductive collError :=
| EConfig (e : configError) | EQuantizer
| EPoint (e : pointError) | ESerialize (e : pointError) | EWAL (e : walError) | EHnsw (e : hnswError)
| EDimensionMismatch | EEmptyVector | EUnknownVector (name : string) | EVectorConfig (name : string)
| EIndexNotInitialized.

(** An index with the distance it was built for *)
Record Idx := mkIdx { ix_calc : calculator; ix_hnsw : HNSW (option payload) }.

(** What a result holds of a point *)
Record ScoredPoint := mkScoredPoint {
  sp_ID : string; sp_Score : f32; sp_Vector : Vector; sp_Payload : option payload
}.

Inductive EventType := EventInsert | EventDelete.

Section collection.
Context {Q D L : Type} {nq : NewQuantizer Q} {dbase : Database D} {logI : Log L}.
Context {sorter : Sorter} {order : MapOrder string} {zorder : MapOrder Z}.
Context {json : Json} {digest : Digest}.

Record Coll := mkColl {
  c_config : CollectionConfig Q;
  c_index : option Idx;
  c_indices : gmap string Idx;
  c_payloadIndex : @Index D;
  c_sparseIdx : InvertedIndex;
  c_hasWAL : bool;
  c_searchCache : SearchCache (list ScoredPoint);
  c_events : list (EventType * string)      (* handed to the change dispatcher *)
}.

#[local] Abbreviation IM := (M Coll collError).          (* without the log *)
#[local] Abbreviation CM := (M (Coll * L) collError).    (* with the log *)

Definition set_index (i : option Idx) (c : Coll) : Coll :=
  mkColl (c_config c) i (c_indices c) (c_payloadIndex c) (c_sparseIdx c) (c_hasWAL c)
    (c_searchCache c) (c_events c).
Definition set_indices (m : gmap string Idx) (c : Coll) : Coll :=
  mkColl (c_config c) (c_index c) m (c_payloadIndex c) (c_sparseIdx c) (c_hasWAL c)
    (c_searchCache c) (c_events c).
Definition set_payloadIndex (p : Index) (c : Coll) : Coll :=
  mkColl (c_config c) (c_index c) (c_indices c) p (c_sparseIdx c) (c_hasWAL c)
    (c_searchCache c) (c_events c).
Definition set_sparse (s : InvertedIndex) (c : Coll) : Coll :=
  mkColl (c_config c) (c_index c) (c_indices c) (c_payloadIndex c) s (c_hasWAL c)
    (c_searchCache c) (c_events c).
Definition set_cache (s : SearchCache (list ScoredPoint)) (c : Coll) : Coll :=
  mkColl (c_config c) (c_index c) (c_indices c) (c_payloadIndex c) (c_sparseIdx c) (c_hasWAL c)
    s (c_events c).
Definition publish (t : EventType) (id : string) (c : Coll) : Coll :=
  mkColl (c_config c) (c_index c) (c_indices c) (c_payloadIndex c) (c_sparseIdx c) (c_hasWAL c)
    (c_searchCache c) (c_events c ++ [(t, id)]).

(** [SetWAL]: the collection shares the log of its manager. *)
Definition SetWAL (c : Coll) : Coll :=
  mkColl (c_config c) (c_index c) (c_indices c) (c_payloadIndex c) (c_sparseIdx c) true
    (c_searchCache c) (c_events c).

(** A computation on the collection alone, and one on the log alone *)
Definition on_coll {A} (m : IM A) : CM A := λ '(c, l), let '(r, c) := m c in (r, (c, l)).
Definition on_log {A} (m : M L walError A) : CM A := λ '(c, l),
  match m l with
  | (Ok a, l) => (Ok a, (c, l))
  | (Err e, l) => (Err (EWAL e), (c, l))
  | (Panic, l) => (Panic, (c, l))
  end.

(** ** Indexes *)
Definition hnsw_err {A} (r : result hnswError A) : result collError A :=
  match r with Ok a => Ok a | Err e => Err (EHnsw e) | Panic => Panic end.

Definition ix_Insert (p : Hnsw.Point (option payload)) (level : Z) (i : Idx) :
    result collError unit * Idx :=
  let '(r, h) := @Insert _ (calc_Distance (ix_calc i)) _ p level (ix_hnsw i) in
  (hnsw_err r, mkIdx (ix_calc i) h).
Definition ix_Delete (id : string) (i : Idx) : result collError unit * Idx :=
  let '(r, h) := Hnsw.Delete id (ix_hnsw i) in (hnsw_err r, mkIdx (ix_calc i) h).
Definition ix_Get (i : Idx) (id : string) : result hnswError (Hnsw.Point (option payload)) :=
  Hnsw.Get (ix_hnsw i) id.

(** *** New *)
Definition metric_of (m : string) : MetricType :=
  if String.eqb m Config.MetricCosine then Distance.MetricCosine
  else if String.eqb m Config.MetricEuclidean then Distance.MetricEuclidean
  else if String.eqb m Config.MetricDotProduct then Distance.MetricDotProduct
  else MetricOther.

Definition or_default (z d : Z) : Z := if z =? 0 then d else z.

Definition new_quantizer (q : option Q) (dim : Z) : result collError (option Quantizer) :=
  match q with
  | None => Ok None
  | Some q => match quantization_New q dim with Some q => Ok (Some q) | None => Err EQuantizer end
  end.

(** One index of named vectors: cosine unless given, and defaults for zero settings *)
Definition new_named_index (vc : VectorConfig Q) : result collError Idx :=
  let metric := if String.eqb (vc_Metric vc) "" then Config.MetricCosine else vc_Metric vc in
  q ← new_quantizer (vc_Quantization vc) (vc_Dimension vc);
  h ← hnsw_err (Hnsw.New (Hnsw.mkConfig (or_default (hc_M (vc_HNSW vc)) 16)
        (or_default (hc_EfConstruction (vc_HNSW vc)) 200)
        (or_default (hc_EfSearch (vc_HNSW vc)) 100) (or_default (hc_MaxElements (vc_HNSW vc)) 100000)
        (vc_Dimension vc) q));
  Ok (mkIdx (Distance.New (metric_of metric)) h).

Definition new_default_index (cfg : CollectionConfig Q) : result collError Idx :=
  q ← new_quantizer (cc_Quantization cfg) (cc_Dimension cfg);
  h ← hnsw_err (Hnsw.New (Hnsw.mkConfig (hc_M (cc_HNSW cfg)) (hc_EfConstruction (cc_HNSW cfg))
        (hc_EfSearch (cc_HNSW cfg)) (hc_MaxElements (cc_HNSW cfg)) (cc_Dimension cfg) q));
  Ok (mkIdx (Distance.New (metric_of (cc_Metric cfg))) h).

Fixpoint new_indices (vs : list (string * VectorConfig Q)) (acc : gmap string Idx) :
    result collError (gmap string Idx) :=
  match vs with
  | [] => Ok acc
  | (name, vc) :: vs => i ← new_named_index vc; new_indices vs (<[name := i]> acc)
  end.

(** [db0] is what the database file of the collection holds when
    [payload.NewIndex] opens it: rows of an earlier process may be there. *)
Definition New (db0 : D) (cfg : CollectionConfig Q) : result collError Coll :=
  match Config.Validate cfg with
  | Err e => Err (EConfig e)
  | Panic => Panic
  | Ok _ =>
      let c index indices :=
        mkColl cfg index indices (PayloadIndex.mkIndex db0 ∅) NewInvertedIndex false
          (NewSearchCache 10000 300000000000) [] in
      if HasNamedVectors cfg then
        indices ← new_indices (map_range (cc_Vectors cfg)) ∅; Ok (c None indices)
      else i ← new_default_index cfg; Ok (c (Some i) ∅)
  end.

Definition DimensionFor (c : Coll) (vectorName : string) : Z :=
  if HasNamedVectors (c_config c) then
    match GetVectorConfig (c_config c) vectorName with Some vc => vc_Dimension vc | None => 0 end
  else cc_Dimension (c_config c).

(** *** Lookups through the default index, which must not be nil *)
Definition the_index : IM Idx :=
  c ← get; match c_index c with Some i => mret i | None => panic end.
Definition getNodeID (pointID : string) : IM (option nat) :=
  i ← the_index; mret (GetNodeID (ix_hnsw i) pointID).
Definition getPointID (nodeID : nat) : IM string :=
  i ← the_index; mret (GetPointID (ix_hnsw i) nodeID).

(** A node number as the [uint32] the other indexes use; a lookup that fails yields 0. *)
Definition node_number (o : option nat) : Z := match o with Some n => Z.of_nat n | None => 0 end.

Definition is_cosine (m : string) : bool := String.eqb m Config.MetricCosine.

(** Running an index operation on the default or a named index *)
Definition update_index (f : Idx → result collError unit * Idx) : IM unit :=
  i ← the_index;
  let '(r, i) := f i in
  modify (set_index (Some i));; lift r.

Definition update_named (name : string) (i : Idx) (f : Idx → result collError unit * Idx) : IM unit :=
  let '(r, i) := f i in
  modify (λ c, set_indices (<[name := i]> (c_indices c)) c);; lift r.

(** [c.sparseIdx.Add] *)
Definition sparse_Add (nodeID : Z) (s : SparseVector) : IM unit :=
  c ← get;
  match Sparse.Add nodeID (mkVec (sv_Indices s) (sv_Values s)) (c_sparseIdx c) with
  | (Ok _, s) => put (set_sparse s c)
  | (_, s) => put (set_sparse s c);; panic
  end.

Definition index_payload (nodeID : Z) (pl : option payload) : IM unit :=
  modify (λ c, set_payloadIndex (IndexPoint nodeID (default [] pl) (c_payloadIndex c)) c).

(** *** Insert *)
Definition insert_default (lv : string → Z) (p : Point) : IM unit :=
  c ← get;
  match c_index c with
  | Some _ =>
      if 0 <? len (pt_Vector p) then
        if negb (len (pt_Vector p) =? cc_Dimension (c_config c)) then throw EDimensionMismatch else
        let v := if is_cosine (cc_Metric (c_config c)) then Point.Normalize (pt_Vector p)
                 else pt_Vector p in
        update_index (ix_Insert (Hnsw.mkPoint (pt_ID p) v (pt_Payload p)) (lv ""%string))
      else mret tt
  | None => mret tt
  end.

Fixpoint insert_named (lv : string → Z) (p : Point) (named : list (string * Vector)) : IM unit :=
  match named with
  | [] => mret tt
  | (name, vec) :: rest =>
      c ← get;
      match c_indices c !! name, GetVectorConfig (c_config c) name with
      | Some idx, Some vc =>
          if negb (len vec =? vc_Dimension vc) then throw EDimensionMismatch else
          let v := if is_cosine (vc_Metric vc) then Point.Normalize vec else vec in
          update_named name idx (ix_Insert (Hnsw.mkPoint (pt_ID p) v (pt_Payload p)) (lv name));;
          insert_named lv p rest
      | _, _ => insert_named lv p rest
      end
  end.

Definition insertInternal (lv : string → Z) (p : Point) : IM unit :=
  insert_default lv p;;
  c ← get;
  when (HasNamedVectors (c_config c) && (0 <? map_len (pt_NamedVectors p)))
    (insert_named lv p (map_range (default ∅ (pt_NamedVectors p))));;
  o ← getNodeID (pt_ID p);
  let nodeID := node_number o in
  index_payload nodeID (pt_Payload p);;
  match pt_Sparse p with Some s => sparse_Add nodeID s | None => mret tt end.

(** [serializePoint] and [deserializePoint] *)
Definition serializePoint (p : Point) : result pointError (list byte) :=
  Point.Encode p (map_range (default ∅ (pt_NamedVectors p))).
Definition deserializePoint (data : list byte) : result readError Point :=
  fst (Point.Decode zero_Point data).

Definition point_err {A} (r : result pointError A) : result collError A :=
  match r with Ok a => Ok a | Err e => Err (EPoint e) | Panic => Panic end.
Definition serialize_err {A} (r : result pointError A) : result collError A :=
  match r with Ok a => Ok a | Err e => Err (ESerialize e) | Panic => Panic end.

Definition validate_point (p : Point) : result collError unit :=
  point_err (Point.Validate p (map_range (default ∅ (pt_NamedVectors p)))).

(** The record of one operation; the log stamps number and time. *)
Definition log_record (cfg : CollectionConfig Q) (type : Z) (data : list byte) : Record_ :=
  Record 0 type (cc_Name cfg) data 0.

(** Writing a record when the collection has a log *)
Definition write_record (type : Z) (data : result collError (list byte)) : CM unit :=
  c ← on_coll get;
  if c_hasWAL c then
    data ← lift data;
    on_log (log_Write (log_record (c_config c) type data))
  else mret tt.

Definition invalidate : IM unit :=
  modify (λ c, set_cache (InvalidateCollection (cc_Name (c_config c)) (c_searchCache c)) c).

Definition Insert (lv : string → Z) (p : Point) : CM unit :=
  lift (validate_point p);;
  write_record RecordTypeInsert (serialize_err (serializePoint p));;
  on_coll (insertInternal lv p);;
  on_coll invalidate.

(** *** InsertBatch *)
Record BatchResult := mkBatchResult {
  br_Total : Z; br_Succeeded : Z; br_Failed : Z; br_Errors : list (string * collError)
}.
Definition br_fail (id : string) (e : collError) (r : BatchResult) : BatchResult :=
  mkBatchResult (br_Total r) (br_Succeeded r) (br_Failed r + 1) (br_Errors r ++ [(id, e)]).
Definition br_succeed (r : BatchResult) : BatchResult :=
  mkBatchResult (br_Total r) (br_Succeeded r + 1) (br_Failed r) (br_Errors r).

(** Step 1: the valid points *)
Fixpoint batch_validate (cfg : CollectionConfig Q) (points : list Point) (r : BatchResult) :
    result collError (list Point * BatchResult) :=
  match points with
  | [] => Ok ([], r)
  | p :: points =>
      match validate_point p with
      | Panic => Panic
      | Err e => batch_validate cfg points (br_fail (pt_ID p) e r)
      | Ok _ =>
          if negb (len (pt_Vector p) =? cc_Dimension cfg)
          then batch_validate cfg points (br_fail (pt_ID p) EDimensionMismatch r)
          else '(valid, r) ← batch_validate cfg points r; Ok (p :: valid, r)
      end
  end.

(** Step 2: their records; a point that cannot be serialised has none. *)
Fixpoint batch_records (cfg : CollectionConfig Q) (points : list Point) (r : BatchResult) :
    list Record_ * BatchResult :=
  match points with
  | [] => ([], r)
  | p :: points =>
      match serializePoint p with
      | Ok data => let '(rs, r) := batch_records cfg points r in
                   (log_record cfg RecordTypeInsert data :: rs, r)
      | Err e => batch_records cfg points (br_fail (pt_ID p) (ESerialize e) r)
      | Panic => batch_records cfg points r
      end
  end.

(** Step 3: every valid point, also one that has no record *)
Fixpoint batch_apply (lv : nat → string → Z) (n : nat) (points : list Point) (r : BatchResult) :
    IM BatchResult :=
  match points with
  | [] => mret r
  | p :: points => λ c,
      match insertInternal (lv n) p c with
      | (Ok _, c) => batch_apply lv (S n) points (br_succeed r) c
      | (Err e, c) => batch_apply lv (S n) points (br_fail (pt_ID p) e r) c
      | (Panic, c) => (Panic, c)
      end
  end.

(** The error of the log is returned with the result so far. *)
Definition InsertBatch (lv : nat → string → Z) (points : list Point) :
    CM (BatchResult * option collError) :=
  let r := mkBatchResult (len points) 0 0 [] in
  match points with
  | [] => mret (r, None)
  | _ =>
      c ← on_coll get;
      '(valid, r) ← lift (batch_validate (c_config c) points r);
      let '(records, r) := if c_hasWAL c && (0 <? len valid) then batch_records (c_config c) valid r
                           else ([], r) in
      logged ← (λ s : Coll * L,
        if c_hasWAL c && (0 <? len valid) then
          match on_log (log_WriteBatch records) s with
          | (Ok _, s) => (Ok None, s)
          | (Err e, s) => (Ok (Some e), s)
          | (Panic, s) => (Panic, s)
          end
        else (Ok None, s));
      match logged with
      | Some e => mret (r, Some e)
      | None =>
          r ← on_coll (batch_apply lv 0 valid r);
          on_coll invalidate;;
          mret (r, None)
      end
  end.

(** *** Upsert, Get, Delete *)
Definition upsertInternal (lv : string → Z) (p : Point) : IM unit :=
  c ← get;
  let v := if is_cosine (cc_Metric (c_config c)) then Point.Normalize (pt_Vector p)
           else pt_Vector p in
  i ← the_index;
  let '(r, i') := ix_Delete (pt_ID p) i in
  modify (set_index (Some i'));;
  (match r with Panic => panic | _ => mret tt end);;
  o ← getNodeID (pt_ID p);
  match o with
  | Some n => modify (λ c, set_sparse (Remove (Z.of_nat n) (c_sparseIdx c)) c)
  | None => mret tt
  end;;
  update_index (ix_Insert (Hnsw.mkPoint (pt_ID p) v (pt_Payload p)) (lv ""%string));;
  o ← getNodeID (pt_ID p);
  index_payload (node_number o) (pt_Payload p);;
  modify (publish EventInsert (pt_ID p)).

Definition Upsert (lv : string → Z) (p : Point) : CM unit :=
  lift (validate_point p);;
  c ← on_coll get;
  if negb (len (pt_Vector p) =? cc_Dimension (c_config c)) then throw EDimensionMismatch else
  write_record RecordTypeUpdate (serialize_err (serializePoint p));;
  on_coll (upsertInternal lv p).

Definition Get (id : string) : IM (Hnsw.Point (option payload)) :=
  i ← the_index; lift (hnsw_err (ix_Get i id)).

Definition deleteInternal (id : string) : IM unit :=
  update_index (ix_Delete id);;
  o ← getNodeID id;
  match o with
  | Some n => modify (λ c, set_sparse (Remove (Z.of_nat n) (c_sparseIdx c)) c)
  | None => mret tt
  end;;
  modify (publish EventDelete id).

Definition Delete (id : string) : CM unit :=
  write_record RecordTypeDelete (Ok (bytes_of_string id));;
  on_coll (deleteInternal id);;
  on_coll invalidate.

(** *** Size, Scroll, Iterate *)

(** The first index a range over the map meets *)
Definition first_index (c : Coll) : option Idx := snd <$> head (map_range (c_indices c)).

Definition Size (c : Coll) : result collError Z :=
  if HasNamedVectors (c_config c) then
    Ok match first_index c with Some i => Hnsw.Size (ix_hnsw i) | None => 0 end
  else match c_index c with Some i => Ok (Hnsw.Size (ix_hnsw i)) | None => Panic end.

Record ScrollParams := mkScrollParams {
  s_Offset : string; s_Limit : Z; s_Filter : option Filter; s_WithVector : bool; s_WithPayload : bool
}.
Record ScrollResult := mkScrollResult { sr_Points : list ScoredPoint; sr_NextOffset : string }.

(** [evaluator.Evaluate(filter, payload)] as the callback of a filtered search. A
    condition on lists or maps may panic (PayloadFilter.v), which leaves the search; the
    search model takes such a point as rejected, [Scroll] below keeps the panic. *)
Definition accepts {cm : CaseMap} (filter : option Filter) (pl : option payload) : bool :=
  match Evaluate filter (default [] pl) with Ok b => b | _ => false end.

(** The points whose payload passes *)
Fixpoint filter_points {cm : CaseMap} (filter : option Filter) (ps : list (Hnsw.Point (option payload))) :
    result collError (list (Hnsw.Point (option payload))) :=
  match ps with
  | [] => Ok []
  | p :: ps =>
      match Evaluate filter (default [] (p_Payload p)) with
      | Ok b => rest ← filter_points filter ps; Ok (if b then p :: rest else rest)
      | _ => Panic
      end
  end.

(** The position after the point [offset], or the start when it is not there *)
Fixpoint offset_index (offset : string) (i : nat) (ps : list (Hnsw.Point (option payload))) : nat :=
  match ps with
  | [] => 0
  | p :: ps => if String.eqb (p_ID p) offset then S i else offset_index offset (S i) ps
  end.

Definition scroll_point (params : ScrollParams) (p : Hnsw.Point (option payload)) : ScoredPoint :=
  mkScoredPoint (p_ID p) f32_zero (if s_WithVector params then p_Vector p else [])
    (if s_WithPayload params then p_Payload p else None).

Definition clamp_limit (limit : Z) : Z :=
  let limit := if limit <=? 0 then 10 else limit in if limit >? 1000 then 1000 else limit.

(** The page of the filtered points *)
Definition scroll_page (params : ScrollParams) (filtered : list (Hnsw.Point (option payload))) :
    result collError ScrollResult :=
  let limit := clamp_limit (s_Limit params) in
  let startIdx := if String.eqb (s_Offset params) "" then 0
                  else Z.of_nat (offset_index (s_Offset params) 0 filtered) in
  let endIdx := startIdx + limit in
  let endIdx := if endIdx >? len filtered then len filtered else endIdx in
  page ← slice filtered startIdx endIdx;
  Ok (mkScrollResult (scroll_point params <$> page)
    (if (endIdx <? len filtered) && (0 <? len page)
     then match list.last page with Some p => p_ID p | None => "" end else "")).

Definition Scroll {cm : CaseMap} (params : ScrollParams) (c : Coll) : result collError ScrollResult :=
  match (if HasNamedVectors (c_config c) then first_index c else c_index c) with
  | None => Ok (mkScrollResult [] "")
  | Some i =>
      let allPoints := GetAllPoints (ix_hnsw i) in
      filtered ← match s_Filter params with
        | Some _ => filter_points (s_Filter params) allPoints
        | None => Ok allPoints
        end;
      scroll_page params filtered
  end.

(** ** Searching *)
Record SearchParams := mkSearchParams {
  q_K : Z; q_Ef : Z; q_Filter : option Filter; q_WithVector : bool; q_WithPayload : bool;
  q_SparseQuery : option SparseVector
}.

(** The candidates of the index, filtered when there is a filter *)
Definition candidates {cm : CaseMap} (i : Idx) (query : Vector) (params : SearchParams) :
    result collError (list Candidate) :=
  let ef := if q_Ef params =? 0 then 100 else q_Ef params in
  hnsw_err match q_Filter params with
  | Some _ =>
      @SearchWithFilter _ (calc_Distance (ix_calc i)) _ (ix_hnsw i) query
        (HnswQuery.mkSearchParams (q_K params) ef f32_zero
           (Some (λ _ pl, accepts (q_Filter params) pl)) (f64_of_Z 0))
  | None => @SearchWithEf _ (calc_Distance (ix_calc i)) _ (ix_hnsw i) query (q_K params) ef
  end.

Definition result_point (params : SearchParams) (id : string) (score : f32)
    (p : Hnsw.Point (option payload)) : ScoredPoint :=
  mkScoredPoint id score (if q_WithVector params then p_Vector p else [])
    (if q_WithPayload params then p_Payload p else None).

(** A candidate whose point cannot be read is skipped. *)
Fixpoint build_results (i : Idx) (params : SearchParams) (cs : list Candidate) :
    result collError (list ScoredPoint) :=
  match cs with
  | [] => Ok []
  | cand :: cs =>
      match ix_Get i (GetPointID (ix_hnsw i) (cID cand)) with
      | Panic => Panic
      | Err _ => build_results i params cs
      | Ok p => rest ← build_results i params cs;
                Ok (result_point params (p_ID p) (f32_sub f32_one (cDistance cand)) p :: rest)
      end
  end.

(** The dense results by node number *)
Definition dense_matches (i : Idx) (points : list ScoredPoint) : list ScoredDoc :=
  omap (λ dm, (λ n, mkScored (Z.of_nat n) (sp_Score dm)) <$> GetNodeID (ix_hnsw i) (sp_ID dm)) points.

Fixpoint fused_points (i : Idx) (params : SearchParams) (docs : list HybridResult) :
    result collError (list ScoredPoint) :=
  match docs with
  | [] => Ok []
  | fd :: docs =>
      let id := GetPointID (ix_hnsw i) (Z.to_nat (hr_DocID fd)) in
      match ix_Get i id with
      | Panic => Panic
      | Err _ => fused_points i params docs
      | Ok p => rest ← fused_points i params docs;
                Ok (result_point params id (FinalScore fd) p :: rest)
      end
  end.

(** Fusion with the sparse index, when there is a sparse query *)
Definition fuse (c : Coll) (i : Idx) (params : SearchParams) (points : list ScoredPoint) :
    result collError (list ScoredPoint) :=
  match q_SparseQuery params with
  | None => Ok points
  | Some sq =>
      match Sparse.Search (c_sparseIdx c) (mkVec (sv_Indices sq) (sv_Values sq)) (q_K params) with
      | Ok sparseMatches =>
          match FuseResults (dense_matches i points) sparseMatches (Some DefaultHybridConfig)
                  (q_K params) with
          | Ok fusedDocs => fused_points i params fusedDocs
          | _ => Panic
          end
      | _ => Panic
      end
  end.

(** The search itself, past the cache *)
Definition search_uncached {cm : CaseMap} (c : Coll) (query : Vector) (params : SearchParams) :
    result collError (list ScoredPoint) :=
  if negb (len query =? cc_Dimension (c_config c)) then Err EDimensionMismatch else
  match c_index c with
  | None => Panic
  | Some i =>
      let query := if is_cosine (cc_Metric (c_config c)) then Point.Normalize query else query in
      cs ← candidates i query params;
      points ← build_results i params cs;
      fuse c i params points
  end.

(** [now] and [later] are the times of the lookup and of the store. *)
Definition SearchWithParams {cm : CaseMap} (now later : Z) (query : Vector) (params : SearchParams) :
    IM (list ScoredPoint) :=
  c ← get;
  match q_Filter params, q_SparseQuery params with
  | None, None =>
      let cacheKey := SearchKey (cc_Name (c_config c)) query (q_K params) in
      let '(hit, sc) := sc_Get now cacheKey (c_searchCache c) in
      put (set_cache sc c);;
      match hit with
      | Some points => mret points
      | None =>
          points ← lift (search_uncached c query params);
          c ← get;
          match (if String.eqb cacheKey "" then Some (c_searchCache c)
                 else sc_Set later cacheKey points (c_searchCache c)) with
          | Some sc => put (set_cache sc c);; mret points
          | None => panic
          end
      end
  | _, _ => lift (search_uncached c query params)
  end.

Definition Search {cm : CaseMap} (now later : Z) (query : Vector) (k : Z) : IM (list ScoredPoint) :=
  SearchWithParams now later query (mkSearchParams k 0 None false false None).

Definition Recommend (id : string) (k : Z) (c : Coll) : result collError (list ScoredPoint) :=
  match c_index c with
  | None => Panic
  | Some i =>
      cs ← hnsw_err (@HnswQuery.Recommend _ (calc_Distance (ix_calc i)) _ (ix_hnsw i) id k);
      build_results i (mkSearchParams k 0 None false true None) cs
  end.

(** *** Named vectors *)
Definition target_index (c : Coll) (vectorName : string) :
    result collError (option Idx * option (VectorConfig Q) * string) :=
  if HasNamedVectors (c_config c) then
    let vectorName := if String.eqb vectorName "" then "default"%string else vectorName in
    match c_indices c !! vectorName with
    | None => Err (EUnknownVector vectorName)
    | Some i => Ok (Some i, GetVectorConfig (c_config c) vectorName, vectorName)
    end
  else Ok (c_index c, GetVectorConfig (c_config c) "", vectorName).

Definition SearchV2WithParams {cm : CaseMap} (query : Vector) (vectorName : string)
    (params : SearchParams) (c : Coll) : result collError (list ScoredPoint * string) :=
  '(idx, vc, vectorName) ← target_index c vectorName;
  match vc with
  | None => Err (EVectorConfig "")
  | Some vc =>
      if negb (len query =? vc_Dimension vc) then Err EDimensionMismatch else
      match idx with
      | None => Panic
      | Some i =>
          let query := if is_cosine (vc_Metric vc) then Point.Normalize query else query in
          cs ← candidates i query params;
          points ← build_results i params cs;
          points ← fuse c i params points;
          Ok (points, vectorName)
      end
  end.

(** The point the index hands out: identifier, vector and payload only *)
Definition index_point (p : Hnsw.Point (option payload)) : Point :=
  Point.mkPoint (p_ID p) (p_Vector p) (p_Payload p) None None None 0.

(** The dot product of two tokens: [dToken[i]] panics when it is shorter. *)
Fixpoint token_dot (qToken dToken : Vector) (score : f32) : result collError f32 :=
  match qToken, dToken with
  | [], _ => Ok score
  | x :: q, y :: d => token_dot q d (f32_add score (f32_mul x y))
  | _ :: _, [] => Panic
  end.

Fixpoint max_score (qToken : Vector) (docMatrix : list Vector) (best : f32) : result collError f32 :=
  match docMatrix with
  | [] => Ok best
  | d :: ds => score ← token_dot qToken d f32_zero;
               max_score qToken ds (if fgt score best then score else best)
  end.

Fixpoint total_score (query docMatrix : list Vector) (total : f32) : result collError f32 :=
  match query with
  | [] => Ok total
  | q :: qs => m ← max_score q docMatrix (SFopp MaxFloat32);
               total_score qs docMatrix (f32_add total m)
  end.

(** The callback: points without a matrix under this name are passed over. *)
Definition colbert_visit (query : list Vector) (vectorName : string)
    (q : Hnsw.Point (option payload)) (st : result collError (list ScoredPoint)) :
    bool * result collError (list ScoredPoint) :=
  let p := index_point q in
  match default ∅ (pt_MultiVectors p) !! vectorName with
  | Some (d :: ds) =>
      match (results ← st; s ← total_score query (d :: ds) f32_zero;
             Ok (results ++ [mkScoredPoint (pt_ID p) s (pt_Vector p) (pt_Payload p)])) with
      | Panic => (false, Panic)
      | r => (true, r)
      end
  | _ => (true, st)
  end.

Definition better_point (a b : ScoredPoint) : bool := fgt (sp_Score a) (sp_Score b).

Definition SearchColBERT (query : list Vector) (vectorName : string) (k : Z) (c : Coll) :
    result collError (list ScoredPoint) :=
  let vectorName := if String.eqb vectorName "" then "default"%string else vectorName in
  idx ← (if HasNamedVectors (c_config c) then
           match c_indices c !! vectorName with
           | Some i => Ok (Some i)
           | None => Err (EUnknownVector vectorName)
           end
         else Ok (c_index c));
  match idx with
  | None => Err EIndexNotInitialized
  | Some i =>
      match IteratePoints (ix_hnsw i) (colbert_visit query vectorName) (Ok []) with
      | Ok (Ok results) =>
          let results := sort_Slice better_point results in
          if len results >? k then slice results 0 k else Ok results
      | Ok r => r
      | _ => Panic
      end
  end.

(** *** InsertV2: a point with named vectors, not written to the log *)
Definition legacy (p : PointV2) (v : Vector) : Hnsw.Point (option payload) :=
  Hnsw.mkPoint (p2_ID p) v (p2_Payload p).

(** A failed insertion because the point exists is accepted. *)
Definition tolerate (f : Idx → result collError unit * Idx) (i : Idx) : result collError unit * Idx :=
  match f i with
  | (Err (EHnsw ErrPointExists), i) => (Ok tt, i)
  | r => r
  end.

Fixpoint insert_vectors (lv : string → Z) (p : PointV2) (named : list (string * Vector)) : IM unit :=
  match named with
  | [] => mret tt
  | (name, vec) :: rest =>
      c ← get;
      match c_indices c !! name with
      | None => throw (EUnknownVector name)
      | Some idx =>
          match GetVectorConfig (c_config c) name with
          | None => throw (EVectorConfig name)
          | Some vc =>
              if negb (len vec =? vc_Dimension vc) then throw EDimensionMismatch else
              let v := if is_cosine (vc_Metric vc) then Point.Normalize vec else vec in
              update_named name idx (tolerate (ix_Insert (legacy p v) (lv name)));;
              insert_vectors lv p rest
          end
      end
  end.

(** The first index that knows the point gives the node number. *)
Fixpoint first_node (id : string) (ixs : list (string * Idx)) : option nat :=
  match ixs with
  | [] => None
  | (_, i) :: ixs => match GetNodeID (ix_hnsw i) id with Some n => Some n | None => first_node id ixs end
  end.

Definition InsertV2 (lv : string → Z) (p : PointV2) : IM unit :=
  lift (point_err (Validate2 p));;
  c ← get;
  if HasNamedVectors (c_config c) then
    insert_vectors lv p (map_range (vectors_of p));;
    c ← get;
    (match c_indices c !! "default"%string with
     | Some idx => when (0 <? len (p2_Vector p))
         (update_named "default" idx (tolerate (ix_Insert (legacy p (p2_Vector p)) (lv "default"%string))))
     | None => mret tt
     end);;
    c ← get;
    match first_node (p2_ID p) (map_range (c_indices c)) with
    | Some n => index_payload (Z.of_nat n) (p2_Payload p)
    | None => mret tt
    end
  else
    match GetVector p "" with
    | None => throw EEmptyVector
    | Some vec =>
        if negb (len vec =? cc_Dimension (c_config c)) then throw EDimensionMismatch else
        let v := if is_cosine (cc_Metric (c_config c)) then Point.Normalize vec else vec in
        update_index (ix_Insert (legacy p v) (lv ""%string));;
        o ← getNodeID (p2_ID p);
        index_payload (node_number o) (p2_Payload p)
    end.
End collection.
Arguments Coll : clear implicits.
