(* ===== verification/CollectionSpec.v ===== *)
(** * pkg/collection: a collection as a table

    What a collection without named vectors holds, apart from its graph: the rows
    of its index in node order and the sparse index. Inserting, upserting,
    deleting, reading and scrolling are functions of that table; the graph, the
    random levels, the payload database, the cache and the published events play
    no part.
    [represents] relates a collection to its table and the lemmas below show that
    every operation keeps the relation and answers as the table does. *)
From stdpp Require Import base gmap strings list fin_maps numbers sorting.
From Stdlib Require Import Strings.Byte ZArith Lia Floats.SpecFloat.
From S2P Require Import Prelude Float32 Heap WalCodec Hnsw Distance HnswGraph HnswSpec HnswContents Cache.
From S2P Require Import PayloadFilter PayloadIndex Binary Point Sparse Config SearchCache Collection.

#[local] Open Scope Z_scope.

Section spec.
Context {Q D L : Type} {nq : NewQuantizer Q} {dbase : Database D} {logI : Log L}.
Context {sorter : Sorter} {order : MapOrder string} {zorder : MapOrder Z}.
Context {json : Json} {digest : Digest}.

#[local] Abbreviation Cfg := (CollectionConfig Q).
#[local] Abbreviation rows := (list (row (option payload))).

Record table := mkTable { t_rows : rows; t_sparse : InvertedIndex }.

Definition with_rows (rs : rows) (t : table) : table := mkTable rs (t_sparse t).
Definition with_sparse (s : InvertedIndex) (t : table) : table := mkTable (t_rows t) s.

Definition empty_table : table := mkTable [] NewInvertedIndex.

(** ** Operations on tables *)
Definition stored_vector (cfg : Cfg) (v : Vector) : Vector :=
  if is_cosine (cc_Metric cfg) then Point.Normalize v else v.

Definition row_entry (cfg : Cfg) (p : Point) : Hnsw.Point (option payload) :=
  Hnsw.mkPoint (pt_ID p) (stored_vector cfg (pt_Vector p)) (pt_Payload p).

(** The node number of an identifier, 0 when it has none *)
Definition t_node (id : string) (t : table) : Z := node_number (find_row id (t_rows t)).

Definition t_add_sparse (p : Point) (t : table) : result collError unit * table :=
  match pt_Sparse p with
  | None => (Ok tt, t)
  | Some s => match Sparse.Add (t_node (pt_ID p) t) (mkVec (sv_Indices s) (sv_Values s)) (t_sparse t) with
              | (Ok _, s) => (Ok tt, with_sparse s t)
              | (_, s) => (Panic, with_sparse s t)
              end
  end.

(** The dense vector goes into a new row; a point without one has no row. *)
Definition t_dense (cfg : Cfg) (p : Point) (t : table) : result collError unit * table :=
  if 0 <? len (pt_Vector p) then
    if negb (len (pt_Vector p) =? cc_Dimension cfg) then (Err EDimensionMismatch, t)
    else let '(r, rs) := rows_insert (cc_Dimension cfg) (row_entry cfg p) (t_rows t) in
         (hnsw_err r, with_rows rs t)
  else (Ok tt, t).

Definition t_insert (cfg : Cfg) (p : Point) (t : table) : result collError unit * table :=
  match t_dense cfg p t with
  | (Ok _, t) => t_add_sparse p t
  | r => r
  end.

Definition t_forget (id : string) (t : table) : table :=
  match find_row id (t_rows t) with
  | Some n => with_sparse (Remove (Z.of_nat n) (t_sparse t)) t
  | None => t
  end.

Definition t_delete (id : string) (t : table) : result collError unit * table :=
  match rows_delete id (t_rows t) with
  | (Ok _, rs) => (Ok tt, t_forget id (with_rows rs t))
  | (r, rs) => (hnsw_err r, with_rows rs t)
  end.

Definition t_upsert (cfg : Cfg) (p : Point) (t : table) : result collError unit * table :=
  let t := t_forget (pt_ID p) (with_rows (snd (rows_delete (pt_ID p) (t_rows t))) t) in
  match rows_insert (cc_Dimension cfg) (row_entry cfg p) (t_rows t) with
  | (Ok _, rs) => (Ok tt, with_rows rs t)
  | (r, rs) => (hnsw_err r, with_rows rs t)
  end.

Fixpoint t_apply (cfg : Cfg) (ps : list Point) (r : BatchResult) (t : table) :
    result collError BatchResult * table :=
  match ps with
  | [] => (Ok r, t)
  | p :: ps =>
      match t_insert cfg p t with
      | (Ok _, t) => t_apply cfg ps (br_succeed r) t
      | (Err e, t) => t_apply cfg ps (br_fail (pt_ID p) e r) t
      | (Panic, t) => (Panic, t)
      end
  end.

Definition t_get (id : string) (t : table) : result collError (Hnsw.Point (option payload)) :=
  hnsw_err (rows_get id (t_rows t)).

Definition t_scroll {cm : CaseMap} (params : ScrollParams) (t : table) : result collError ScrollResult :=
  filtered ← match s_Filter params with
    | Some _ => filter_points (s_Filter params) (rows_live (t_rows t))
    | None => Ok (rows_live (t_rows t))
    end;
  scroll_page params filtered.

(** ** The relation *)
Record represents (c : Coll Q D) (t : table) : Prop := {
  rep_plain : HasNamedVectors (c_config c) = false;
  rep_index : ∃ i, c_index c = Some i ∧ wf (ix_hnsw i) ∧
    h_dimension (ix_hnsw i) = cc_Dimension (c_config c) ∧ contents (ix_hnsw i) = t_rows t;
  rep_sparse : c_sparseIdx c = t_sparse t
}.

(** [m] on a collection with table [t] returns [r] and leaves table [t'], the
    configuration and the attachment to the log untouched. *)
Definition acts {A} (m : M (Coll Q D) collError A) (c : Coll Q D) (o : result collError A * table) : Prop :=
  ∃ c', m c = (fst o, c') ∧ represents c' (snd o) ∧ c_config c' = c_config c ∧
    c_hasWAL c' = c_hasWAL c ∧ c_searchCache c' = c_searchCache c.

Lemma acts_bind {A B} (m : M (Coll Q D) collError A) (f : A → M (Coll Q D) collError B) c a t o :
  acts m c (Ok a, t) →
  (∀ c', represents c' t → c_config c' = c_config c → acts (f a) c' o) → acts (m ≫= f) c o.
Proof.
  intros (c1 & E & Hr & Hc & Hw & Hs) Hf. destruct (Hf c1 Hr Hc) as (c2 & E2 & Hr2 & Hc2 & Hw2 & Hs2).
  exists c2. split_and!; [|done|congruence..]. by rewrite (M_bind_run _ _ _ _ _ E).
Qed.

Lemma acts_stop {A B} (m : M (Coll Q D) collError A) (f : A → M (Coll Q D) collError B) c r t :
  acts m c (r, t) → (∀ a, r ≠ Ok a) →
  acts (m ≫= f) c (match r with Err e => Err e | _ => Panic end, t).
Proof.
  intros (c1 & E & Hr & Hc & Hw & Hs) Hn. exists c1. split_and!; [|done..].
  unfold mbind, M_bind. rewrite E. simpl. destruct r as [a|e|]; [by destruct (Hn a)|done..].
Qed.

Lemma acts_ret {A} (a : A) c t : represents c t → acts (mret a) c (Ok a, t).
Proof. intros Hr. by exists c. Qed.
Lemma acts_throw {A} e c t : represents c t → acts (throw (A:=A) e) c (Err e, t).
Proof. intros Hr. by exists c. Qed.
Lemma acts_panic {A} c t : represents c t → acts (panic (A:=A)) c (Panic, t).
Proof. intros Hr. by exists c. Qed.
Lemma acts_get c t : represents c t → acts get c (Ok c, t).
Proof. intros Hr. by exists c. Qed.

Lemma acts_publish ev id c t : represents c t → acts (modify (publish ev id)) c (Ok tt, t).
Proof. intros []. by exists (publish ev id c). Qed.

Lemma acts_index_payload n pl c t :
  represents c t →
  acts (index_payload n pl) c (Ok tt, t).
Proof. intros []. eexists. split; [reflexivity|]. simpl. split_and!; try done; by constructor. Qed.

Lemma acts_remove n c t :
  represents c t →
  acts (modify (λ c, set_sparse (Remove n (c_sparseIdx c)) c)) c
    (Ok tt, with_sparse (Remove n (t_sparse t)) t).
Proof.
  intros [H1 H2 H4]. eexists. split; [reflexivity|]. simpl. split_and!; [|done..].
  constructor; simpl; [done..|by rewrite H4].
Qed.

Lemma acts_sparse_Add n s c t :
  represents c t →
  acts (sparse_Add n s) c
    match Sparse.Add n (mkVec (sv_Indices s) (sv_Values s)) (t_sparse t) with
    | (Ok _, s) => (Ok tt, with_sparse s t)
    | (_, s) => (Panic, with_sparse s t)
    end.
Proof.
  intros [H1 H2 H4]. unfold acts, sparse_Add. unfold_M. rewrite H4.
  destruct (Sparse.Add n _ (t_sparse t)) as [[a|[]|] s'];
    eexists; (split; [reflexivity|]); simpl; split_and!; try done; by constructor.
Qed.

Lemma acts_the_index c t : represents c t →
  ∃ i, acts the_index c (Ok i, t) ∧ wf (ix_hnsw i) ∧
    h_dimension (ix_hnsw i) = cc_Dimension (c_config c) ∧ contents (ix_hnsw i) = t_rows t.
Proof.
  intros Hr. destruct (rep_index _ _ Hr) as (i & Hi & Hrest). exists i. split; [|done].
  exists c. unfold the_index. unfold_M. by rewrite Hi.
Qed.

Lemma acts_getNodeID id c t :
  represents c t → acts (getNodeID id) c (Ok (find_row id (t_rows t)), t).
Proof.
  intros Hr. destruct (acts_the_index _ _ Hr) as (i & Ha & Hwf & _ & Hc).
  eapply acts_bind; [exact Ha|]. intros c' Hr' _.
  rewrite <- Hc, <- GetNodeID_contents by done. by apply acts_ret.
Qed.

(** A new index in place of the old one *)
Lemma represents_set_index c t i rs :
  represents c t → wf (ix_hnsw i) → h_dimension (ix_hnsw i) = cc_Dimension (c_config c) →
  contents (ix_hnsw i) = rs → represents (set_index (Some i) c) (with_rows rs t).
Proof. intros [H1 H2 H4] Hwf Hd Hc. constructor; simpl; [done|by exists i|done..]. Qed.

Lemma acts_update_index f c t r rs :
  represents c t →
  (∀ i, wf (ix_hnsw i) → h_dimension (ix_hnsw i) = cc_Dimension (c_config c) →
    contents (ix_hnsw i) = t_rows t →
    ∃ i', f i = (r, i') ∧ wf (ix_hnsw i') ∧
      h_dimension (ix_hnsw i') = cc_Dimension (c_config c) ∧ contents (ix_hnsw i') = rs) →
  acts (update_index f) c (r, with_rows rs t).
Proof.
  intros Hr Hf. destruct (rep_index _ _ Hr) as (i & Hi & Hwf & Hd & Hc).
  destruct (Hf i Hwf Hd Hc) as (i' & Ef & Hwf' & Hd' & Hc').
  exists (set_index (Some i') c). split; [|split; [by apply represents_set_index|done]].
  unfold update_index, the_index. unfold_M. rewrite Hi, Ef. done.
Qed.

Lemma ix_Insert_spec p level i dim :
  0 ≤ level → wf (ix_hnsw i) → h_dimension (ix_hnsw i) = dim →
  ∃ i', ix_Insert p level i = (hnsw_err (fst (rows_insert dim p (contents (ix_hnsw i)))), i') ∧
    wf (ix_hnsw i') ∧ h_dimension (ix_hnsw i') = dim ∧
    contents (ix_hnsw i') = snd (rows_insert dim p (contents (ix_hnsw i))).
Proof.
  intros Hl Hwf <-. unfold ix_Insert.
  destruct (@Insert_contents _ (calc_Distance (ix_calc i)) sorter (ix_hnsw i) p level Hwf Hl)
    as (h' & -> & Hwf' & Hd & Hc). by eexists.
Qed.

Lemma ix_Delete_spec id i dim :
  wf (ix_hnsw i) → h_dimension (ix_hnsw i) = dim →
  ∃ i', ix_Delete id i = (hnsw_err (fst (rows_delete id (contents (ix_hnsw i)))), i') ∧
    wf (ix_hnsw i') ∧ h_dimension (ix_hnsw i') = dim ∧
    contents (ix_hnsw i') = snd (rows_delete id (contents (ix_hnsw i))).
Proof.
  intros Hwf <-. unfold ix_Delete.
  destruct (Delete_contents (ix_hnsw i) id Hwf) as (h' & -> & Hwf' & Hd & Hc). by eexists.
Qed.

Lemma acts_ix_Insert p level c t :
  0 ≤ level → represents c t →
  acts (update_index (ix_Insert p level)) c
    (let '(r, rs) := rows_insert (cc_Dimension (c_config c)) p (t_rows t) in
     (hnsw_err r, with_rows rs t)).
Proof.
  intros Hl Hr. destruct (rows_insert _ p (t_rows t)) as [r rs] eqn:E.
  apply acts_update_index; [done|]. intros i Hwf Hd Hc.
  destruct (ix_Insert_spec p level i _ Hl Hwf Hd) as (i' & Hi & Hwf' & Hd' & Hc').
  rewrite Hc, E in Hi, Hc'. by exists i'.
Qed.

Lemma acts_ix_Delete id c t :
  represents c t →
  acts (update_index (ix_Delete id)) c
    (let '(r, rs) := rows_delete id (t_rows t) in (hnsw_err r, with_rows rs t)).
Proof.
  intros Hr. destruct (rows_delete id (t_rows t)) as [r rs] eqn:E.
  apply acts_update_index; [done|]. intros i Hwf Hd Hc.
  destruct (ix_Delete_spec id i _ Hwf Hd) as (i' & Hi & Hwf' & Hd' & Hc').
  rewrite Hc, E in Hi, Hc'. by exists i'.
Qed.
(** ** The operations act as the table does *)
Lemma acts_default lv p c t :
  (∀ s, 0 ≤ lv s) → represents c t →
  acts (insert_default lv p) c (t_dense (c_config c) p t).
Proof.
  intros Hl Hr. destruct (rep_index _ _ Hr) as (i & Hi & _).
  unfold insert_default. eapply acts_bind; [by apply acts_get|]. intros c1 Hr1 Hc1. rewrite Hi.
  unfold t_dense. destruct (0 <? len (pt_Vector p)); [|by apply acts_ret].
  destruct (negb _); [by apply acts_throw|]. rewrite <- Hc1. by apply acts_ix_Insert.
Qed.

(** A bind after an operation that acts as [o]: the continuation runs on success. *)
Definition then_ {A B} (o : result collError A * table) (k : A → table → result collError B * table) :
    result collError B * table :=
  match o with
  | (Ok a, t) => k a t
  | (Err e, t) => (Err e, t)
  | (Panic, t) => (Panic, t)
  end.

Lemma acts_then {A B} (m : M (Coll Q D) collError A) (f : A → M (Coll Q D) collError B) c o k :
  acts m c o →
  (∀ a t c', o = (Ok a, t) → represents c' t → c_config c' = c_config c → acts (f a) c' (k a t)) →
  acts (m ≫= f) c (then_ o k).
Proof.
  intros Hm Hf. destruct o as [[a|e|] t]; simpl.
  - eapply acts_bind; [exact Hm|]. intros c' Hr Hc. by apply Hf.
  - by apply (acts_stop _ f _ (Err e)) in Hm.
  - by apply (acts_stop _ f _ Panic) in Hm.
Qed.

Lemma insertInternal_acts lv p c t :
  (∀ s, 0 ≤ lv s) → represents c t →
  acts (insertInternal lv p) c (t_insert (c_config c) p t).
Proof.
  intros Hl Hr. unfold insertInternal.
  replace (t_insert (c_config c) p t) with
    (then_ (t_dense (c_config c) p t) (λ _ t, t_add_sparse p t))
    by (unfold t_insert; by destruct (t_dense (c_config c) p t) as [[]]).
  apply acts_then; [by apply acts_default|]. intros [] t1 c1 _ Hr1 Hc1.
  eapply acts_bind; [by apply acts_get|]. intros c2 Hr2 _.
  rewrite (rep_plain _ _ Hr1). simpl.
  eapply acts_bind; [by apply acts_ret|]. intros c3 Hr3 _.
  eapply acts_bind; [by apply acts_getNodeID|]. intros c4 Hr4 _.
  eapply acts_bind; [by apply acts_index_payload|]. intros c5 Hr5 _.
  unfold t_add_sparse. destruct (pt_Sparse p) as [s|]; [|by apply acts_ret].
  exact (acts_sparse_Add _ s _ _ Hr5).
Qed.

(** Forgetting the postings of a node *)
Lemma acts_forget id c t :
  represents c t →
  acts (o ← getNodeID id;
        match o with
        | Some n => modify (λ c, set_sparse (Remove (Z.of_nat n) (c_sparseIdx c)) c)
        | None => mret tt
        end) c (Ok tt, t_forget id t).
Proof.
  intros Hr. eapply acts_bind; [by apply acts_getNodeID|]. intros c1 Hr1 _.
  unfold t_forget. destruct (find_row id (t_rows t)); [by apply acts_remove|by apply acts_ret].
Qed.

Lemma M_bind_assoc {S E A B C} (m : M S E A) (f : A → M S E B) (g : B → M S E C) s :
  ((m ≫= f) ≫= g) s = (m ≫= λ a, f a ≫= g) s.
Proof. unfold mbind, M_bind. by destruct (m s) as [[a|e|] s1]. Qed.

Lemma acts_assoc {A B C} (m : M (Coll Q D) collError A) (f : A → M (Coll Q D) collError B)
    (g : B → M (Coll Q D) collError C) c o :
  acts ((m ≫= f) ≫= g) c o → acts (m ≫= λ a, f a ≫= g) c o.
Proof. unfold acts. by setoid_rewrite M_bind_assoc. Qed.

Lemma deleteInternal_acts id c t :
  represents c t → acts (deleteInternal id) c (t_delete id t).
Proof.
  intros Hr. unfold deleteInternal.
  replace (t_delete id t) with
    (then_ (let '(r, rs) := rows_delete id (t_rows t) in (hnsw_err r, with_rows rs t))
       (λ _ t, (Ok tt, t_forget id t)))
    by (unfold t_delete; by destruct (rows_delete id (t_rows t)) as [[[]| |]]).
  apply acts_then; [by apply acts_ix_Delete|]. intros [] t1 c1 _ Hr1 _.
  apply acts_assoc. eapply acts_bind; [by apply acts_forget|]. intros c2 Hr2 _.
  by apply acts_publish.
Qed.

Lemma rows_delete_no_panic id (rs : rows) : fst (rows_delete id rs) ≠ Panic.
Proof. unfold rows_delete. by destruct (find_row id rs). Qed.

(** The deletion inside an upsert, whose error is ignored *)
Lemma acts_drop id c t :
  represents c t →
  acts (i ← the_index;
        let '(r, i') := ix_Delete id i in
        modify (set_index (Some i'));;
        match r with Panic => panic | _ => mret tt end) c
    (Ok tt, with_rows (snd (rows_delete id (t_rows t))) t).
Proof.
  intros Hr. destruct (rep_index _ _ Hr) as (i & Hi & Hwf & Hd & Hc).
  destruct (ix_Delete_spec id i _ Hwf Hd) as (i' & E & Hwf' & Hd' & Hc').
  exists (set_index (Some i') c).
  split; [|split; [apply represents_set_index; try done; by rewrite Hc', Hc|done]].
  unfold the_index. unfold_M. rewrite Hi, E, Hc.
  pose proof (rows_delete_no_panic id (t_rows t)).
  by destruct (fst (rows_delete id (t_rows t))).
Qed.

Lemma upsertInternal_acts lv p c t :
  (∀ s, 0 ≤ lv s) → represents c t →
  acts (upsertInternal lv p) c (t_upsert (c_config c) p t).
Proof.
  intros Hl Hr. unfold upsertInternal. eapply acts_bind; [by apply acts_get|]. intros c1 Hr1 Hc1.
  set (v := if is_cosine _ then _ else _).
  set (t1 := with_rows (snd (rows_delete (pt_ID p) (t_rows t))) t).
  set (t2 := t_forget (pt_ID p) t1).
  pose proof (acts_drop (pt_ID p) _ _ Hr1) as Ha.
  set (k := λ _ : unit, o ← getNodeID (pt_ID p);
    match o with
    | Some n => modify (λ c, set_sparse (Remove (Z.of_nat n) (c_sparseIdx c)) c)
    | None => mret tt
    end;;
    update_index (ix_Insert (Hnsw.mkPoint (pt_ID p) v (pt_Payload p)) (lv ""%string));;
    o ← getNodeID (pt_ID p);
    index_payload (node_number o) (pt_Payload p);;
    modify (publish EventInsert (pt_ID p))).
  assert (Hk : acts ((i ← the_index;
        let '(r, i') := ix_Delete (pt_ID p) i in
        modify (set_index (Some i'));;
        match r with Panic => panic | _ => mret tt end) ≫= k) c1 (t_upsert (c_config c) p t)).
  { eapply acts_bind; [exact Ha|]. intros c2 Hr2 Hc2. unfold k. apply acts_assoc.
    eapply acts_bind; [by apply acts_forget|]. intros c3 Hr3 Hc3.
    replace (t_upsert (c_config c) p t) with
      (then_ (let '(r, rs) := rows_insert (cc_Dimension (c_config c)) (row_entry (c_config c) p) (t_rows t2) in
              (hnsw_err r, with_rows rs t2)) (λ _ t, (Ok tt, t)))
      by (unfold t_upsert; fold t1 t2; by destruct (rows_insert _ _ (t_rows t2)) as [[[]| |]]).
    apply acts_then.
    { pose proof (acts_ix_Insert (row_entry (c_config c) p) _ _ _ (Hl ""%string) Hr3) as Hi.
      by rewrite Hc3, Hc2, Hc1 in Hi. }
    intros [] t3 c4 _ Hr4 _. eapply acts_bind; [by apply acts_getNodeID|]. intros c5 Hr5 _.
    eapply acts_bind; [by apply acts_index_payload|]. intros c6 Hr6 _.
    by apply acts_publish. }
  clear -Hk. unfold acts in *. destruct Hk as (c' & E & Hk). exists c'. split; [|exact Hk].
  rewrite <- E. unfold the_index. unfold_M. destruct (c_index c1) as [i|]; [|done].
  destruct (ix_Delete (pt_ID p) i) as [[]]; done.
Qed.

Lemma batch_apply_acts lv n ps r c t :
  (∀ n s, 0 ≤ lv n s) → represents c t →
  acts (batch_apply lv n ps r) c (t_apply (c_config c) ps r t).
Proof.
  intros Hl. revert n r c t. induction ps as [|p ps IH]; intros n r c t Hr; simpl.
  { by apply acts_ret. }
  destruct (insertInternal_acts (lv n) p c t (Hl n) Hr) as (c1 & E & Hr1 & Hc1 & Hw1 & Hs1).
  unfold acts. rewrite E. destruct (t_insert (c_config c) p t) as [[[]|e|] t1]; simpl in *.
  - destruct (IH (S n) (br_succeed r) c1 t1 Hr1) as (c2 & E2 & Hr2 & Hc2 & Hw2 & Hs2).
    rewrite Hc1 in E2, Hr2. exists c2. split_and!; [done..|congruence|congruence|congruence].
  - destruct (IH (S n) (br_fail (pt_ID p) e r) c1 t1 Hr1) as (c2 & E2 & Hr2 & Hc2 & Hw2 & Hs2).
    rewrite Hc1 in E2, Hr2. exists c2. split_and!; [done..|congruence|congruence|congruence].
  - by exists c1.
Qed.

Lemma Get_acts id c t : represents c t → acts (Get id) c (t_get id t, t).
Proof.
  intros Hr. destruct (acts_the_index _ _ Hr) as (i & Ha & Hwf & _ & Hc).
  eapply acts_bind; [exact Ha|]. intros c' Hr' _. exists c'. split; [|done].
  unfold t_get, ix_Get, lift. by rewrite Get_contents, Hc.
Qed.

Lemma Scroll_acts {cm : CaseMap} params c t : represents c t → Scroll params c = t_scroll params t.
Proof.
  intros Hr. destruct (rep_index _ _ Hr) as (i & Hi & Hwf & _ & Hc).
  unfold Scroll, t_scroll. rewrite (rep_plain _ _ Hr), Hi, GetAllPoints_contents, Hc. done.
Qed.
End spec.
