(* ===== verification/CollectionLog.v ===== *)
(** * The log as collections rely on it

    [DurableLog] states what a collection is promised by its log: while it is
    healthy, a write or a batch succeeds and is appended to what the log holds,
    and a crash followed by a reopen and a replay hands out what it holds. The
    write-ahead log of WalLog.v, synced on every write, without system-call
    failures and with an advancing clock, keeps the promise ([wal_durable]). The
    budget of [healthy] counts the sequence numbers and clock readings left. *)
From stdpp Require Import base gmap strings list fin_maps numbers sorting.
From Stdlib Require Import Strings.Byte ZArith Lia.
From S2P Require Import Prelude Crc32 WalCodec WalLog WalProofs WalRecovery WalTheorems.
From S2P Require Import Collection.

#[local] Open Scope Z_scope.

(** The log stamps a record with a number and a time and keeps the rest. *)
Definition same_record (r r' : Record_) : Prop :=
  Type_ r' = Type_ r ∧ WalCodec.Collection r' = WalCodec.Collection r ∧ Data r' = Data r.

Definition loggable (r : Record_) : Prop := data_record r ∧ encodable r.

Class DurableLog (L : Type) {logI : Log L} := {
  healthy : Z → L → list Record_ → Prop;
  (** the process dies; what it held in memory is lost, the log is opened again
      and replayed *)
  log_recover : L → result walError (list Record_) * L;
  durable_Write b l rs r :
    healthy (b + 1) l rs → 0 ≤ b → loggable r →
    ∃ l', log_Write r l = (Ok tt, l') ∧ healthy b l' (rs ++ [r]);
  durable_WriteBatch b l rs batch :
    healthy (b + len batch + 2) l rs → 0 ≤ b → Forall loggable batch → len batch < 2 ^ 32 →
    ∃ l', log_WriteBatch batch l = (Ok tt, l') ∧ healthy b l' (rs ++ batch);
  durable_recover b l rs :
    healthy (b + 1) l rs → 0 ≤ b →
    ∃ out l', log_recover l = (Ok out, l') ∧ Forall2 same_record rs out ∧ healthy b l' rs;
  healthy_weaken b b' l rs : healthy b l rs → b' ≤ b → healthy b' l rs
}.

(** ** The write-ahead log *)
#[export] Instance wal_log : Log world := {
  log_Write r := WalLog.Write r;; mret tt;
  log_WriteBatch rs := WalLog.WriteBatch rs;; mret tt
}.

Section wal.
Context (hz : nat) (cfg : Config) (sync : SyncOnWrite cfg = true).

Record wal_healthy (b : Z) (w : world) (rs : list Record_) : Prop := {
  wh_faults : fault_free w;
  wh_holds : ∃ ens, Forall wf_entry ens ∧ holds hz w (concat (entry_records <$> ens)) ∧
    Forall2 same_record rs (concat (entry_payload <$> ens));
  wh_flushed : flushed w;
  wh_config : config_of (w_log w) = fresh_log cfg;
  wh_numbers : w_lastSeqNum (w_log w) + b < 2 ^ 64;
  wh_ticks : Z.of_nat (w_ticks w) + 2 * b + 1 ≤ Z.of_nat hz
}.

Lemma stamped_same rs out : stamped rs out → Forall2 same_record rs out.
Proof. intros HF. induction HF as [|r r' rs out (q & t & ->) HF IH]; by constructor. Qed.

Lemma wal_op b w rs o :
  wal_healthy (b + op_cost o) w rs → 0 ≤ b → op_ok o →
  ∃ out w', run_op o w = (Ok out, w') ∧ wal_healthy b w' (rs ++ op_records o).
Proof.
  intros [Hff (ens & Hwf & Hh & HF) Hfl Hcfg Hn Ht] Hb Hok.
  destruct (runs_run_op w o Hff (holds_live _ _ _ Hh) Hok) as (out & w' & E & _ & Hf).
  exists out, w'. split; [done|].
  pose proof (keeps_Ok _ _ _ _ (keeps_run_op o) E) as Hk. pose proof Hcfg as Hcfg'. injection Hcfg' as Hd _ Hs.
  assert (Hfl' : flushed w') by (eapply run_op_flushed; [|by eapply holds_live|done]; congruence).
  eapply run_op_Ok in E as (Hst & Hs1 & Ht1 & ens' & Hwf' & <- & Hh'); [|done..|lia|lia].
  constructor; [by eapply fault_free_eq| |done| |lia|lia].
  - exists (ens ++ ens'). rewrite !fmap_app, !concat_app.
    split_and!; [by apply Forall_app_2|done|apply Forall2_app; [done|by apply stamped_same]].
  - congruence.
Qed.

(** Loading the segments finds no number above the last one given out. *)
Lemma max_seq_le n rs : 0 ≤ n → Forall (λ r, SeqNum r ≤ n) rs → max_seq rs ≤ n.
Proof.
  intros Hn HF. unfold max_seq. cut (∀ m, m ≤ n → foldl (λ m r, Z.max m (SeqNum r)) m rs ≤ n); [auto|].
  induction HF as [|r rs Hr HF IH]; intros m Hm; simpl; [done|]. apply IH. lia.
Qed.

Lemma loaded_seq_le n rss :
  0 ≤ n → Forall (λ r, SeqNum r ≤ n) (concat rss) →
  foldl (λ m rs, Z.max m (max_seq rs)) 0 rss ≤ n.
Proof.
  intros Hn HF. cut (∀ m, m ≤ n → foldl (λ m rs, Z.max m (max_seq rs)) m rss ≤ n); [auto|].
  induction rss as [|rs rss IH]; intros m Hm; simpl in *; [done|].
  apply Forall_app in HF as [H1 H2]. apply IH; [done|]. pose proof (max_seq_le n rs Hn H1). lia.
Qed.

(** Open and replay after the crash: [l] is what the new process starts from. *)
Definition wal_recover (l : WAL) (w : world) : result walError (list Record_) * world :=
  (Open cfg;; Replay) (crash w l).

Lemma wal_recover_Ok l b w rs :
  wal_healthy (b + 1) w rs → 0 ≤ b →
  ∃ out w', wal_recover l w = (Ok out, w') ∧ Forall2 same_record rs out ∧ wal_healthy b w' rs.
Proof.
  intros [Hff (ens & Hwf & Hh & HF) Hfl Hcfg Hn Ht] Hb. injection Hcfg as Hd _ _.
  destruct (flushed_on_disk hz w _ cfg Hh Hfl Hd) as (paths & rss & Hod & Hrss); [lia|].
  assert (Hseq : StronglySorted Z.lt (SeqNum <$> concat rss)) by (rewrite Hrss; apply Hh).
  assert (Hrun : runs (crash w l) (Open cfg;; Replay) (λ o w',
    o = concat (entry_payload <$> ens) ∧ holds hz w' (concat (entry_records <$> ens)) ∧
    flushed w' ∧ config_of (w_log w') = fresh_log cfg ∧ w_ticks w' = S (w_ticks w) ∧
    w_lastSeqNum (w_log w') ≤ w_lastSeqNum (w_log w))).
  { apply runs_bind. eapply runs_weaken; [by apply (runs_Open hz cfg (crash w l) paths rss)|].
    intros [] w3 Hf3 (Hh3 & Hfl3 & Ht3 & Hc3 & Hl3 & _).
    destruct (runs_Replay hz w3 (concat rss)) as (o & w4 & E4 & (-> & Hh4 & Ht4 & Hl4 & Hfl4) & Hf4);
      [by eapply fault_free_eq|done|].
    exists (replayed (concat rss)), w4. split_and!; [done|..|done].
    - by rewrite Hrss, replayed_whole.
    - by rewrite <- Hrss.
    - exact Hfl4.
    - rewrite (keeps_Ok _ _ _ _ keeps_Replay E4). done.
    - by rewrite Ht4, Ht3.
    - rewrite Hl4, Hl3. destruct Hh as (Hge & [_ Hle] & _). rewrite <- Hrss in Hle.
      by apply loaded_seq_le. }
  destruct Hrun as (o & w2 & E2 & (-> & Hh2 & Hfl2 & Hc2 & Ht2 & Hl2) & Hf2).
  eexists _, w2. split_and!; [exact E2|done|].
  constructor; [by eapply fault_free_eq|by exists ens|done|done|lia|lia].
Qed.

Lemma wal_healthy_weaken b b' w rs : wal_healthy b w rs → b' ≤ b → wal_healthy b' w rs.
Proof. intros [] Hb. constructor; try done; lia. Qed.

Lemma op_ok_single r : loggable r → op_ok (OpWrite r).
Proof. intros Hr. split; [by constructor|]. simpl. rewrite len_cons, len_nil. lia. Qed.

#[global] Instance wal_durable (l : WAL) : DurableLog world.
Proof.
  refine {| healthy := wal_healthy; log_recover := wal_recover l |}.
  - intros b w rs r Hh Hb Hr.
    destruct (wal_op b w rs (OpWrite r) Hh Hb (op_ok_single r Hr)) as (out & w' & E & Hh').
    exists w'. split; [|done]. simpl in E. minv E as r' w1 E1. unfold mret, M_ret in E.
    simplify_eq. simpl. by rewrite (M_bind_run _ _ _ _ _ E1).
  - intros b w rs batch Hh Hb Hr Hlen.
    destruct (wal_op b w rs (OpBatch batch)) as (out & w' & E & Hh'); [|done|by split|].
    { simpl. by replace (b + (len batch + 2)) with (b + len batch + 2) by lia. }
    exists w'. split; [|done]. simpl in E. simpl. by rewrite (M_bind_run _ _ _ _ _ E).
  - intros b w rs Hh Hb. by apply wal_recover_Ok.
  - intros b b' w rs. apply wal_healthy_weaken.
Defined.

(** A log opened in a directory without segments holds nothing and is healthy. *)
Lemma wal_healthy_open b w0 :
  fault_free w0 → clock_ok hz w0 → no_segments (Dir cfg) w0 → 0 ≤ b < 2 ^ 64 →
  Z.of_nat (w_ticks w0) + 2 * b + 2 ≤ Z.of_nat hz →
  ∃ w, Open cfg w0 = (Ok tt, w) ∧ wal_healthy b w [].
Proof.
  intros Hff Hck Hl Hb Htk.
  destruct (runs_Open_empty hz cfg w0) as ([] & w & E & (Hh & Hfl & Ht & Hcfg & Hq) & Hf);
    [done..|lia|done|].
  exists w. split; [done|]. constructor; [by eapply fault_free_eq| |done|done|lia|lia].
  by exists [].
Qed.
End wal.
