(* ===== verification/Manager.v ===== *)
(** * pkg/collection/manager.go and recovery.go: the collections of a server

    The manager keeps the collections by name, their settings in one directory
    each ([m_disk], the settings a directory's [meta.json] holds), and the log
    they share. Recovery replays that log into the collections the manager loaded.
    Whether a file operation succeeds is an argument. Index files of memory-mapped
    collections, snapshots and archiving are not modelled. *)
From stdpp Require Import base gmap strings list fin_maps numbers.
From Stdlib Require Import Strings.Ascii Strings.Byte ZArith Lia Floats.SpecFloat.
From S2P Require Import Prelude Float32 WalCodec Hnsw HnswQuery PayloadFilter PayloadIndex Binary Point.
From S2P Require Import Sparse Config SearchCache Collection.

#[local] Open Scope Z_scope.

(** ** Names *)
Definition alnum (c : ascii) : bool :=
  let n := nat_of_ascii c in
  ((97 <=? n) && (n <=? 122) || (65 <=? n) && (n <=? 90) || (48 <=? n) && (n <=? 57))%nat.
Definition name_char (c : ascii) : bool :=
  alnum c || Ascii.eqb c "_"%char || Ascii.eqb c "-"%char.
Fixpoint all_chars (f : ascii → bool) (s : string) : bool :=
  match s with EmptyString => true | String c s => f c && all_chars f s end.

(** [validNamePattern]: ^[a-zA-Z0-9][a-zA-Z0-9_-]*$ *)
Definition valid_pattern (s : string) : bool :=
  match s with EmptyString => false | String c s => alnum c && all_chars name_char s end.

Inductive managerError :=
| ENameEmpty | ENameTooLong | ENameInvalid | ENamePath
| ECollectionExists | ECollectionNotFound | EMaxCollections | EColl (e : collError) | EIO.

Definition validateName (name : string) : result managerError unit :=
  if String.eqb name "" then Err ENameEmpty
  else if 255 <? len (bytes_of_string name) then Err ENameTooLong
  else if negb (valid_pattern name) then Err ENameInvalid
  else if Contains_ name ".." || Contains_ name "/" || Contains_ name "\" then Err ENamePath
  else Ok tt.

Section manager.
Context {Q D L : Type} {nq : NewQuantizer Q} {dbase : Database D} {logI : Log L}.
Context {sorter : Sorter} {order : MapOrder string} {zorder : MapOrder Z}.
Context {json : Json} {digest : Digest}.

#[local] Abbreviation Cfg := (CollectionConfig Q).

Record Manager := mkManager {
  m_collections : gmap string (Coll Q D);
  m_disk : gmap string Cfg;
  m_maxCollections : Z;
  m_hasWAL : bool
}.

#[local] Abbreviation MM := (M Manager managerError).

Definition set_collections (cs : gmap string (Coll Q D)) (m : Manager) : Manager :=
  mkManager cs (m_disk m) (m_maxCollections m) (m_hasWAL m).
Definition set_disk (d : gmap string Cfg) (m : Manager) : Manager :=
  mkManager (m_collections m) d (m_maxCollections m) (m_hasWAL m).

(** What the payload database of each collection holds when [New] opens it *)
Context (payload_db : string → D).

(** *** NewManager *)
Fixpoint load_collections (dirs : list (string * Cfg)) (cs : gmap string (Coll Q D)) :
    gmap string (Coll Q D) :=
  match dirs with
  | [] => cs
  | (_, cfg) :: dirs =>
      load_collections dirs
        (match Collection.New (payload_db (cc_Name cfg)) cfg with Ok c => <[cc_Name cfg := c]> cs | _ => cs end)
  end.

(** The collections of a data directory, read in the order of its entries *)
Definition NewManager (entries : list (string * Cfg)) (maxCollections : Z) (hasWAL : bool) : Manager :=
  mkManager (load_collections entries ∅) (list_to_map entries) maxCollections hasWAL.

(** *** Create *)
Definition default_hnsw (h : HNSWConfig) : HNSWConfig :=
  mkHNSWConfig (or_default (hc_M h) 16) (or_default (hc_EfConstruction h) 200)
    (or_default (hc_EfSearch h) 100) (or_default (hc_MaxElements h) 100000).

Definition with_defaults (cfg : Cfg) : Cfg :=
  mkCollectionConfig (cc_Name cfg) (cc_Dimension cfg) (cc_Metric cfg) (default_hnsw (cc_HNSW cfg))
    (cc_OnDisk cfg) (cc_Quantization cfg) (cc_Vectors cfg).

Definition coll_err {A} (r : result collError A) : result managerError A :=
  match r with Ok a => Ok a | Err e => Err (EColl e) | Panic => Panic end.

(** [mkdir] and [save]: do making the directory and writing the settings succeed? *)
Definition Create (mkdir save : bool) (cfg : Cfg) : MM (Coll Q D) :=
  lift (validateName (cc_Name cfg));;
  m ← get;
  match m_collections m !! cc_Name cfg with
  | Some _ => throw ECollectionExists
  | None =>
      if m_maxCollections m <=? Z.of_nat (size (m_collections m)) then throw EMaxCollections else
      let cfg := with_defaults cfg in
      coll ← lift (coll_err (Collection.New (payload_db (cc_Name cfg)) cfg));
      if negb mkdir then throw EIO else
      if negb save then
        put (set_disk (delete (cc_Name cfg) (m_disk m)) m);; throw EIO       (* os.RemoveAll *)
      else
        let coll := if m_hasWAL m then SetWAL coll else coll in
        put (set_collections (<[cc_Name cfg := coll]> (m_collections m))
              (set_disk (<[cc_Name cfg := cfg]> (m_disk m)) m));;
        mret coll
  end.

(** *** Get, Delete, Exists, Count, List *)
Definition Get (name : string) (m : Manager) : result managerError (Coll Q D) :=
  match m_collections m !! name with Some c => Ok c | None => Err ECollectionNotFound end.

Definition Exists (name : string) (m : Manager) : bool :=
  match m_collections m !! name with Some _ => true | None => false end.
Definition Count (m : Manager) : Z := Z.of_nat (size (m_collections m)).
Definition List (m : Manager) : list string := (map_range (m_collections m)).*1.

(** [remove]: does removing the directory succeed? *)
Definition Delete (remove : bool) (name : string) : MM unit :=
  lift (validateName name);;
  m ← get;
  match m_collections m !! name with
  | None => throw ECollectionNotFound
  | Some _ =>
      let m := set_collections (delete name (m_collections m)) m in
      if remove then put (set_disk (delete name (m_disk m)) m)
      else put m;; throw EIO
  end.

(** *** Rename *)
Definition set_name (name : string) (c : Coll Q D) : Coll Q D :=
  let cfg := c_config c in
  mkColl (mkCollectionConfig name (cc_Dimension cfg) (cc_Metric cfg) (cc_HNSW cfg) (cc_OnDisk cfg)
            (cc_Quantization cfg) (cc_Vectors cfg))
    (c_index c) (c_indices c) (c_payloadIndex c) (c_sparseIdx c) (c_hasWAL c) (c_searchCache c)
    (c_events c).

(** The new name is stored in the settings before the directory is moved. *)
Definition Rename (move save : bool) (oldName newName : string) : MM unit :=
  lift (validateName newName);;
  m ← get;
  match m_collections m !! oldName with
  | None => throw ECollectionNotFound
  | Some coll =>
      match m_collections m !! newName with
      | Some _ => throw ECollectionExists
      | None =>
          let coll := set_name newName coll in
          if negb move then put (set_collections (<[oldName := coll]> (m_collections m)) m);; throw EIO
          else
            let disk := match m_disk m !! oldName with
                        | Some cfg => <[newName := cfg]> (delete oldName (m_disk m))
                        | None => m_disk m end in
            put (set_collections (<[newName := coll]> (delete oldName (m_collections m)))
                  (set_disk disk m));;
            if save then modify (λ m, set_disk (<[newName := c_config coll]> (m_disk m)) m)
            else throw EIO
      end
  end.

(** *** Flush and Close: the settings of every collection *)
Definition save_all (m : Manager) : gmap string Cfg :=
  foldl (λ d '(_, c), <[cc_Name (c_config c) := c_config c]> d) (m_disk m)
    (map_range (m_collections m)).
Definition Flush (m : Manager) : Manager := set_disk (save_all m) m.
Definition Close (m : Manager) : Manager := set_collections ∅ (Flush m).

(** *** SetWALForCollections *)
Definition SetWALForCollections (m : Manager) : Manager :=
  set_collections (SetWAL <$> m_collections m) m.

(** ** Recovery *)

(** An operation on one collection, past its errors; a panic stops the process. *)
Definition replay_on (name : string) (f : M (Coll Q D) collError unit) : M Manager Empty_set unit := λ m,
  match m_collections m !! name with
  | None => (Ok tt, m)
  | Some c => match f c with
              | (Panic, c) => (Panic, set_collections (<[name := c]> (m_collections m)) m)
              | (_, c) => (Ok tt, set_collections (<[name := c]> (m_collections m)) m)
              end
  end.

(** The callback of [replayWAL] on one record *)
Definition replay_record (lv : string → Z) (record : Record_) : M Manager Empty_set unit :=
  let t := Type_ record in
  if t =? RecordTypeInsert then
    match deserializePoint (Data record) with
    | Ok p => replay_on (WalCodec.Collection record) (insertInternal lv p)
    | _ => mret tt
    end
  else if t =? RecordTypeUpdate then
    match deserializePoint (Data record) with
    | Ok p => replay_on (WalCodec.Collection record) (upsertInternal lv p)
    | _ => mret tt
    end
  else if t =? RecordTypeDelete then
    replay_on (WalCodec.Collection record) (deleteInternal (string_of_bytes (Data record)))
  else mret tt.

(** [replayWAL] on the records the log hands out; [lv] gives each its levels. *)
Fixpoint replayWAL (lv : nat → string → Z) (n : nat) (records : list Record_) :
    M Manager Empty_set unit :=
  match records with
  | [] => mret tt
  | r :: records => replay_record (lv n) r;; replayWAL lv (S n) records
  end.

(** [Recover]: replay, then the collections write to the log again. *)
Definition Recover (lv : nat → string → Z) (records : list Record_) : M Manager Empty_set unit :=
  replayWAL lv 0 records;;
  modify SetWALForCollections.
End manager.
Arguments Manager : clear implicits.
