(* ===== verification/RecoveryTheorems.v ===== *)
(** * pkg/collection: properties of the server

    Crash recovery over the write-ahead log of WalLog.v, the two operations that
    lose or resurrect points, insertion with named vectors, and scrolling. *)
From stdpp Require Import base gmap strings list fin_maps numbers sorting.
From Stdlib Require Import Strings.Byte ZArith Lia Floats.SpecFloat.
From S2P Require Import Prelude Float32 Heap WalCodec WalLog WalProofs WalRecovery WalTheorems Hnsw Distance.
From S2P Require Import HnswGraph HnswSpec HnswContents HnswTheorems Cache PayloadFilter.
From S2P Require Import PayloadIndex Binary.
From S2P Require Import Point Sparse Config SearchCache Collection CollectionSpec CollectionLog Manager Recovery.

#[local] Open Scope Z_scope.

(** ** Scrolling through all pages *)
Section scroll.
Context {Q D : Type} {order : MapOrder string} {cm : CaseMap}.

Definition at_offset (offset : string) (params : ScrollParams) : ScrollParams :=
  mkScrollParams offset (s_Limit params) (s_Filter params) (s_WithVector params) (s_WithPayload params).

(** A client that follows [NextOffset] until it is empty *)
Fixpoint scroll_from (fuel : nat) (params : ScrollParams) (offset : string) (c : Coll Q D) :
    result collError (list ScoredPoint) :=
  match fuel with
  | O => Panic
  | S fuel =>
      page ← Scroll (at_offset offset params) c;
      if String.eqb (sr_NextOffset page) "" then Ok (sr_Points page)
      else rest ← scroll_from fuel params (sr_NextOffset page) c; Ok (sr_Points page ++ rest)
  end.

#[local] Abbreviation pts := (list (Hnsw.Point (option payload))).

Lemma offset_index_app offset k (pre rest : pts) p :
  NoDup (p_ID <$> (pre ++ p :: rest)) → p_ID p = offset →
  offset_index offset k (pre ++ p :: rest) = S (k + length pre).
Proof.
  intros Hnd <-. revert k. induction pre as [|q pre IH]; intros k; simpl.
  - rewrite String.eqb_refl. lia.
  - simpl in Hnd. apply NoDup_cons in Hnd as [Hq Hnd].
    destruct (String.eqb_spec (p_ID q) (p_ID p)) as [E|_].
    + exfalso. apply Hq. rewrite E, fmap_app. set_solver.
    + rewrite IH by done. lia.
Qed.

(** The offset that stands for a position: empty at the start, else the
    identifier before it *)
Definition offset_at (offset : string) (pre : pts) : Prop :=
  match list.last pre with Some p => offset = p_ID p | None => offset = ""%string end.

Lemma Forall_at {A} (P : A → Prop) l x : Forall P l → x ∈ l → P x.
Proof. rewrite Forall_forall. auto. Qed.

Lemma clamp_range z : 0 < clamp_limit z ≤ 1000.
Proof. unfold clamp_limit. repeat case_match; lia. Qed.

Lemma scroll_page_at params offset (pre rest : pts) :
  NoDup (p_ID <$> (pre ++ rest)) → Forall (λ p, p_ID p ≠ ""%string) (pre ++ rest) → offset_at offset pre →
  let n := Z.to_nat (clamp_limit (s_Limit params)) in
  scroll_page (at_offset offset params) (pre ++ rest) =
    Ok (mkScrollResult (scroll_point params <$> take n rest)
          (if (n <? length rest)%nat then
             match list.last (take n rest) with Some p => p_ID p | None => "" end else "")).
Proof.
  intros Hnd Hne Hoff n. pose proof (clamp_range (s_Limit params)) as Hlim.
  unfold scroll_page. cbn [s_Limit s_Offset at_offset].
  assert (Hstart : (if String.eqb offset "" then 0 else Z.of_nat (offset_index offset 0 (pre ++ rest)))
    = len pre).
  { unfold offset_at in Hoff. destruct (list.last pre) as [p|] eqn:El.
    - apply last_Some in El as [pre' ->]. subst offset.
      assert (p_ID p ≠ ""%string) by (apply (Forall_at _ _ p Hne); set_solver).
      destruct (String.eqb_spec (p_ID p) ""); [done|]. rewrite <- app_assoc in Hnd |- *. simpl in *.
      rewrite (offset_index_app _ _ _ _ p) by done. unfold len. rewrite length_app. simpl. lia.
    - apply last_None in El as ->. subst offset. done. }
  rewrite Hstart. pose proof (len_nonneg pre). pose proof (len_nonneg rest). rewrite len_app.
  set (endIdx := if (_ >? _) then _ else _).
  assert (Hend : endIdx = len pre + len (take n rest)).
  { unfold endIdx. unfold len in *. rewrite length_take. unfold n.
    destruct (Z.gtb_spec (Z.of_nat (length pre) + clamp_limit (s_Limit params))
      (Z.of_nat (length pre) + Z.of_nat (length rest))); lia. }
  rewrite <- (take_drop n rest) at 1. rewrite (slice_app pre (take n rest) (drop n rest)) by done.
  rewrite Ok_bind. do 2 f_equal. rewrite Hend.
  assert (Hlt : (len pre + len (take n rest) <? len pre + len rest) = (n <? length rest)%nat).
  { unfold len. rewrite length_take. destruct (Nat.ltb_spec n (length rest)), (Z.ltb_spec
      (Z.of_nat (length pre) + Z.of_nat (n `min` length rest)) (Z.of_nat (length pre) + Z.of_nat (length rest))); lia. }
  rewrite Hlt. destruct (Nat.ltb_spec n (length rest)); simpl; [|done].
  rewrite (proj2 (Z.ltb_lt _ _)); [done|]. unfold len. rewrite length_take. lia.
Qed.

(** The points a scroll runs over *)
Definition scrolled (params : ScrollParams) (c : Coll Q D) (i : Idx) : result collError pts :=
  match s_Filter params with
  | Some _ => filter_points (s_Filter params) (GetAllPoints (ix_hnsw i))
  | None => Ok (GetAllPoints (ix_hnsw i))
  end.

Lemma filter_points_sublist f (ps qs : pts) : filter_points f ps = Ok qs → sublist qs ps.
Proof.
  revert qs. induction ps as [|p ps IH]; intros qs H; simpl in H; [by simplify_eq|].
  destruct (Evaluate f _) as [b|e|]; try done.
  destruct (filter_points f ps) as [rest|e|]; try done. rewrite Ok_bind in H. simplify_eq.
  destruct b; [by apply sublist_skip, IH|by apply sublist_cons, IH].
Qed.

Lemma NoDup_sublist {A} (l k : list A) : sublist l k → NoDup k → NoDup l.
Proof.
  intros H. induction H as [|x l k H IH|x l k H IH]; [done| |].
  - rewrite !NoDup_cons. intros [Hx Hk]. split; [|by apply IH]. intros Hin. apply Hx.
    by eapply sublist_elem.
  - rewrite NoDup_cons. intros [_ Hk]. by apply IH.
Qed.

Lemma sublist_fmap {A B} (f : A → B) l k : sublist l k → sublist (f <$> l) (f <$> k).
Proof. intros H. induction H; simpl; by constructor. Qed.

Lemma GetAllPoints_sublist {P} (h : HNSW P) : sublist (p_ID <$> GetAllPoints h) (n_ID <$> h_nodes h).
Proof.
  rewrite GetAllPoints_contents. unfold rows_live, contents. rewrite <- list_fmap_compose.
  induction (h_nodes h) as [|n ns IH]; [done|]. rewrite fmap_cons.
  destruct (n_deleted n) eqn:E.
  - rewrite filter_cons_False by (simpl; by rewrite E). simpl. by apply sublist_cons.
  - rewrite filter_cons_True by done. simpl. by apply sublist_skip.
Qed.

Lemma scroll_loop fuel params (pre rest : pts) offset (c : Coll Q D) :
  (∀ offset, Scroll (at_offset offset params) c = scroll_page (at_offset offset params) (pre ++ rest)) →
  NoDup (p_ID <$> (pre ++ rest)) → Forall (λ p, p_ID p ≠ ""%string) (pre ++ rest) → offset_at offset pre →
  (length rest < fuel)%nat →
  scroll_from fuel params offset c = Ok (scroll_point params <$> rest).
Proof.
  revert pre rest offset. induction fuel as [|fuel IH]; intros pre rest offset Hs Hnd Hne Hoff Hf; [lia|].
  simpl. rewrite Hs, scroll_page_at by done. rewrite Ok_bind. cbn [sr_NextOffset sr_Points].
  pose proof (clamp_range (s_Limit params)) as Hlim.
  set (n := Z.to_nat (clamp_limit (s_Limit params))). assert (0 < n)%nat by (unfold n; lia).
  destruct (Nat.ltb_spec n (length rest)) as [Hlt|Hge].
  2: { simpl. by rewrite take_ge. }
  destruct (list.last (take n rest)) as [p|] eqn:El.
  2: { apply last_None in El. apply (f_equal length) in El. rewrite length_take in El. simpl in El. lia. }
  pose proof El as El'. apply last_Some in El as [pg Epg].
  assert (Hp : p_ID p ≠ ""%string).
  { apply (Forall_at _ _ p Hne). apply elem_of_app. right.
    rewrite <- (take_drop n rest), Epg. set_solver. }
  destruct (String.eqb_spec (p_ID p) ""); [done|].
  rewrite (IH (pre ++ take n rest) (drop n rest) (p_ID p)).
  - rewrite Ok_bind, <- fmap_app. by rewrite take_drop.
  - intros o. by rewrite <- app_assoc, take_drop.
  - by rewrite <- app_assoc, take_drop.
  - by rewrite <- app_assoc, take_drop.
  - unfold offset_at. rewrite last_app, El'. done.
  - rewrite length_drop. lia.
Qed.

(** C29. Scrolling visits everything: a client that starts without an offset and
    follows [NextOffset] gets each live point that passes the filter exactly once,
    in node order, and after at most one page per point an empty offset, whatever
    the limit it asks for. The identifiers must not be empty, which [Validate]
    ensures, as an empty offset means the start. *)
Theorem scroll_complete params (c : Coll Q D) i ps :
  HasNamedVectors (c_config c) = false → c_index c = Some i → wf (ix_hnsw i) →
  Forall (λ p, p_ID p ≠ ""%string) (GetAllPoints (ix_hnsw i)) →
  scrolled params c i = Ok ps →
  scroll_from (S (length ps)) params "" c = Ok (scroll_point params <$> ps).
Proof.
  intros Hp Hi Hwf Hne Hps.
  assert (Hsub : sublist ps (GetAllPoints (ix_hnsw i))).
  { unfold scrolled in Hps. destruct (s_Filter params); [by eapply filter_points_sublist|].
    by injection Hps as <-. }
  apply (scroll_loop _ _ []); simpl.
  - intros o. unfold Scroll. rewrite Hp, Hi. unfold scrolled in Hps. cbn [s_Filter at_offset]. by rewrite Hps.
  - eapply NoDup_sublist; [by apply sublist_fmap|].
    eapply NoDup_sublist; [apply GetAllPoints_sublist|by apply ids_nodup].
  - apply Forall_forall. intros p Hpin. apply (Forall_at _ _ p Hne). by eapply sublist_elem.
  - done.
  - lia.
Qed.
End scroll.

(** ** Recovery *)
Section server.
Context {Q D : Type} {nq : NewQuantizer Q} {dbase : Database D}.
Context {sorter : Sorter} {order : MapOrder string} {zorder : MapOrder Z}.
Context {json : Json} {digest : Digest} {cm : CaseMap}.

(** C1. Crashes are invisible. Start a server on an empty directory with a log
    that is synced on every write, and run any sequence of calls: creating
    collections, inserting points one by one and in batches, upserting, deleting,
    reading, scrolling, and crashing, after each of which the process loads the
    settings, opens the log again and replays it. Without system-call failures and
    with an advancing clock every call returns exactly what the specification
    returns, in which a collection is a table and a crash does nothing, and at the
    end every collection holds the rows and the sparse index of its table. No
    choice of random levels, map iteration order, replay levels or contents of the
    payload databases changes an answer, and nothing panics. *)
Theorem recovery_transparent hz cfg (sync : SyncOnWrite cfg = true) w0 l dbs max os :
  fault_free w0 → clock_ok hz w0 → no_segments (Dir cfg) w0 →
  Forall (call_ok (Q:=Q) (D:=D)) os → calls_cost os < 2 ^ 64 →
  Z.of_nat (w_ticks w0) + 2 * calls_cost os + 2 ≤ Z.of_nat hz →
  ∃ w m w',
    Open cfg w0 = (Ok tt, w) ∧
    sys_run (durable := wal_durable hz cfg sync l) os (new_server dbs max, w) =
      (fst (spec_run max os ∅), (m, w')) ∧
    stands true m (snd (spec_run max os ∅)).
Proof.
  intros Hff Hck Hl Hok Hcost Htk. pose proof (calls_cost_nonneg os) as Hpos.
  destruct (wal_healthy_open hz cfg (calls_cost os) w0) as (w & E & Hh); [done..|lia|lia|].
  pose proof (new_consistent (durable := wal_durable hz cfg sync l) dbs max (calls_cost os) w Hh) as Hcon.
  pose proof (run_consistent (durable := wal_durable hz cfg sync l) max 0 os _ _ Hok Hcon
    ltac:(lia)) as Hrun.
  exists w. destruct (sys_run _ _) as [r [m w']], (spec_run _ _ _) as [r' db]. destruct Hrun as [-> Hcon'].
  exists m, w'. split; [done|]. split; [done|]. exact (co_stands _ _ _ _ Hcon').
Qed.

(** *** Deleting and creating again *)
Context {L : Type} {logI : Log L} {durable : DurableLog L}.

Lemma delete_stands (m : Manager Q D) (db : gmap string (CollectionConfig Q * table)) name ct u :
  stands true m db → db !! name = Some ct → validateName name = Ok u →
  ∃ m', Manager.Delete true name m = (Ok tt, m') ∧ stands true m' (delete name db) ∧
    m_hasWAL m' = m_hasWAL m ∧ m_maxCollections m' = m_maxCollections m.
Proof.
  intros [Hd Hm] Hct Hv. unfold Manager.Delete. unfold_M. rewrite Hv.
  pose proof (Hm name) as Hn. rewrite Hct in Hn. unfold matches in Hn.
  destruct (m_collections m !! name) as [c|]; [|done]. eexists. split; [reflexivity|].
  split_and!; [|done..]. split; simpl.
  - by rewrite Hd, fmap_delete.
  - intros n. destruct (decide (name = n)) as [<-|Hne]; [by rewrite !lookup_delete_eq|].
    rewrite !lookup_delete_ne by done. apply Hm.
Qed.

(** Deleted data comes back: in every state the server reaches, delete a
    collection and create it again under its name. The new collection is empty,
    but the log still holds the records of the old one, and after the next restart
    the new collection holds every point of the deleted one. *)
Theorem recreated_collection_restored pdb dbs lv max b (m : Manager Q D) (l : L) db name cfg t u :
  (∀ n s, 0 ≤ lv n s) → consistent max (b + 1) (m, l) db → 0 ≤ b →
  db !! name = Some (cfg, t) → validateName name = Ok u → Z.of_nat (size db) ≤ max →
  ∃ m1 m2 m3 c l3,
    Manager.Delete true name m = (Ok tt, m1) ∧
    Create pdb true true cfg m1 = (Ok c, m2) ∧ represents c empty_table ∧
    restart dbs lv (m2, l) = (Ok tt, (m3, l3)) ∧
    ∃ c3, m_collections m3 !! name = Some c3 ∧ represents c3 t.
Proof.
  intros Hl [Hst Hw Hmax (rs & Hh & Hex)] Hb Hdb Hv Hsz. simpl in *.
  destruct (delete_stands m db name (cfg, t) u Hst Hdb Hv) as (m1 & E1 & Hst1 & Hw1 & Hx1).
  pose proof (proj2 Hst name) as Hmn. rewrite Hdb in Hmn. unfold matches in Hmn.
  destruct (m_collections m !! name) as [c0|]; [|done]. destruct Hmn as (_ & _ & _ & Hg).
  destruct (gc_new _ _ Hg (pdb (cc_Name cfg))) as [c Hc].
  destruct (New_represents _ cfg c (gc_plain _ _ Hg) (gc_M _ _ Hg) Hc) as (Hr & Hcc & _).
  set (m2 := set_collections (<[name := SetWAL c]> (m_collections m1))
    (set_disk (<[name := cfg]> (m_disk m1)) m1)).
  assert (E2 : Create pdb true true cfg m1 = (Ok (SetWAL c), m2)).
  { unfold Create. unfold_M. rewrite (gc_defaults _ _ Hg), Hc, (gc_name _ _ Hg), Hv.
    pose proof (proj2 Hst1 name) as Hn. rewrite lookup_delete_eq in Hn. unfold matches in Hn.
    destruct (m_collections m1 !! name); [done|].
    rewrite (stands_size _ _ _ Hst1), Hx1, Hmax.
    rewrite map_size_delete_Some by (by eexists).
    assert (size db ≠ 0%nat) by (intros ?%map_size_empty_inv; subst; by rewrite lookup_empty in Hdb).
    rewrite (proj2 (Z.leb_gt _ _)) by lia. simpl. by rewrite Hw1, Hw. }
  assert (Hst2 : stands true m2 (<[name := (cfg, empty_table)]> (delete name db))).
  { apply stands_create; try done. by destruct Hr. }
  destruct (restart_replays dbs lv b m2 l _ rs Hl Hst2 Hh Hb (ex_safe _ _ Hex))
    as (m3 & l3 & E3 & _ & _ & Hm3).
  exists m1, m2, m3, (SetWAL c), l3. split_and!; [done|done|by destruct Hr|done|].
  specialize (Hm3 name). rewrite lookup_insert_eq in Hm3. simpl in Hm3. unfold matches in Hm3.
  destruct (m_collections m3 !! name) as [c3|]; [|done]. destruct Hm3 as (Hr3 & _).
  exists c3. split; [done|]. by rewrite (ex_tables _ _ Hex _ _ _ Hdb) in Hr3.
Qed.
End server.

(** ** Operations that fail *)
Section failing.
Context {Q D : Type} {nq : NewQuantizer Q} {dbase : Database D}.
Context {sorter : Sorter} {order : MapOrder string} {zorder : MapOrder Z}.
Context {json : Json} {digest : Digest}.

Lemma len_stored_vector (cfg : CollectionConfig Q) v : len (stored_vector cfg v) = len v.
Proof.
  unfold stored_vector, Point.Normalize. destruct (is_cosine _); [|done].
  destruct (is_zero _); [done|]. unfold len. by rewrite length_fmap.
Qed.

Lemma find_row_mark id i (rs : list (row (option payload))) : find_row id (alter mark i rs) = find_row id rs.
Proof.
  revert i. induction rs as [|r rs IH]; [done|]. intros [|i]; [done|].
  change (alter mark (S i) (r :: rs)) with (r :: alter mark i rs). cbn [find_row]. by rewrite IH.
Qed.

(** C40. [Upsert] does not update: for an identifier the collection knows, live or
    deleted, it marks the old point as deleted, fails with "point with this ID
    already exists", and the point is gone. *)
Theorem upsert_loses_point lv p (c : Coll Q D) t n :
  (∀ s, 0 ≤ lv s) → represents c t → find_row (pt_ID p) (t_rows t) = Some n →
  len (pt_Vector p) = cc_Dimension (c_config c) →
  ∃ c', upsertInternal lv p c = (Err (EHnsw ErrPointExists), c') ∧
    fst (Collection.Get (pt_ID p) c') = Err (EHnsw ErrPointNotFound).
Proof.
  intros Hl Hr Hn Hd. destruct (upsertInternal_acts lv p c t Hl Hr) as (c' & E & Hr' & _).
  exists c'. destruct (Get_acts (pt_ID p) c' _ Hr') as (c2 & E2 & _). rewrite E2. simpl.
  destruct (find_row_Some _ _ _ Hn) as (r & Hrow & Hid).
  unfold t_upsert in *. unfold rows_delete, t_forget in *. rewrite Hn in *. cbn [snd with_rows t_rows] in *.
  rewrite find_row_mark, Hn in *. cbn [with_sparse t_rows] in *. unfold rows_insert in *.
  cbn [p_Vector p_ID row_entry] in *. rewrite len_stored_vector, Hd, Z.eqb_refl in *. simpl in *.
  rewrite find_row_mark, Hn in *. simpl in *. split; [done|].
  unfold t_get, rows_get. simpl. rewrite find_row_mark, Hn. simpl.
  rewrite list_lookup_alter_eq, Hrow. done.
Qed.

Lemma named_index_nil (cfg : CollectionConfig Q) (db0 : D) c :
  Collection.New db0 cfg = Ok c → HasNamedVectors cfg = true → c_index c = None.
Proof.
  unfold Collection.New. intros H Hn. destruct (Config.Validate cfg); try done. rewrite Hn in H.
  destruct (new_indices _ _) as [ixs|e|]; try done. rewrite Ok_bind in H. by injection H as <-.
Qed.

(** Named insertions leave the default index alone. *)
Lemma insert_named_index lv p named (c : Coll Q D) :
  c_index (snd (insert_named lv p named c)) = c_index c.
Proof.
  revert c. induction named as [|[name v] named IH]; intros c; simpl; [done|].
  unfold mbind at 1, M_bind at 1, get.
  destruct (c_indices c !! name) as [i|]; [|apply IH].
  destruct (GetVectorConfig (c_config c) name) as [vc|]; [|apply IH].
  destruct (negb _); [done|]. unfold update_named.
  destruct (ix_Insert _ _ _) as [[[]|e|] i']; [|done..].
  unfold_M. by rewrite IH.
Qed.

(** No point can be inserted into a collection with named vectors: such a
    collection has no default index, and [insertInternal] asks it for the node
    number in the end. A point without vectors for the named indexes runs into
    the nil pointer at once, any other one after its vectors were indexed, unless
    an error came first. *)
Theorem named_insert_panics lv p (cfg : CollectionConfig Q) (db0 : D) (c0 c : Coll Q D) :
  (Collection.New db0 cfg = Ok c0 → HasNamedVectors cfg = true → c_index c0 = None) ∧
  (c_index c = None →
    fst (insertInternal lv p c) ≠ Ok tt ∧
    (map_len (pt_NamedVectors p) = 0 → insertInternal lv p c = (Panic, c))).
Proof.
  split; [apply named_index_nil|]. intros Hc.
  assert (Hdef : insert_default lv p c = (Ok tt, c)) by (unfold insert_default; unfold_M; by rewrite Hc).
  unfold insertInternal. rewrite (M_bind_run _ _ _ _ _ Hdef).
  rewrite (M_bind_run get _ c c c) by done. split.
  - unfold when. destruct (HasNamedVectors (c_config c) && (0 <? map_len (pt_NamedVectors p))).
    + pose proof (insert_named_index lv p (map_range (default ∅ (pt_NamedVectors p))) c) as Hi.
      unfold mbind at 1, M_bind at 1.
      destruct (insert_named _ _ _ _) as [[[]|e|] c1]; simpl in *; [|done..].
      unfold getNodeID, the_index. unfold_M. by rewrite Hi, Hc.
    + unfold getNodeID, the_index. unfold_M. by rewrite Hc.
  - intros Hz. rewrite Hz, andb_false_r. rewrite (M_bind_run (when false _) _ c c tt) by done.
    unfold getNodeID, the_index. unfold_M. by rewrite Hc.
Qed.
End failing.

(** ** Witnesses

    A database that records its statements, a log that is the list of its records,
    and one collection of vectors of dimension one. *)
#[local] Instance demo_quantizers : NewQuantizer unit := λ _ _, None.
#[local] Instance demo_database : Database (list (string * list value)) := {|
  db_Exec q args d := d ++ [(q, args)];
  db_Query _ _ _ := None;
  PayloadIndex.Marshal _ := None
|}.
#[local] Instance demo_strings : MapOrder string := listed_order string.
#[local] Instance demo_numbers : MapOrder Z := listed_order Z.
#[local] Instance demo_digest : Digest := {| json_search _ _ _ := None; sha256_hex _ := "" |}.
#[local] Existing Instance ascii_case.

Definition demo_collection : CollectionConfig unit :=
  mkCollectionConfig "docs" 1 Config.MetricEuclidean (mkHNSWConfig 0 0 0 0) false None ∅.
Definition doc (id : string) (x : Z) : Point.Point :=
  Point.mkPoint id [f32_of_Z x] None None None None 0.
Definition flat : string → Z := λ _, 0.
Definition flats : nat → string → Z := λ _ _, 0.

#[local] Abbreviation demo_db := (list (string * list value)).
Definition no_dbs : string → demo_db := λ _, [].

Definition demo_calls : list (call (Q:=unit) (D:=demo_db)) :=
  [CCreate [] demo_collection; CInsert "docs" flat (doc "a" 1); CCrash no_dbs flats; CGet "docs" "a";
   CInsertBatch "docs" flats [doc "b" 2; doc "a" 3]; CDelete "docs" "a"; CCrash no_dbs flats; CGet "docs" "a";
   CGet "docs" "b"].

Lemma doc_storable (id : string) (x : Z) :
  len (bytes_of_string id) = 1 → valid_f32 (f32_of_Z x) → (∀ data, serializePoint (doc id x) = Ok data →
    len data ≤ 100) → storable (doc id x).
Proof.
  intros Hid Hx Hs. constructor; [split|split|]; cbn [pt_ID pt_Vector pt_NamedVectors pt_Sparse pt_Version doc].
  - unfold wf_name, MaxUint16. lia.
  - split; [by apply Z.leb_le|by repeat constructor].
  - by apply Z.leb_le.
  - intros name v Hin. by apply elem_of_nil in Hin.
  - done.
  - lia.
  - by left.
  - by eexists.
  - intros data E. specialize (Hs data E). lia.
Qed.

Ltac doc_ok := apply doc_storable; [reflexivity|reflexivity|];
  let E := fresh in intros data E; vm_compute in E; injection E as <-; apply Z.leb_le; reflexivity.

Ltac docs_ok := repeat (apply Forall_cons_2; [doc_ok|]); apply Forall_nil_2.
Ltac call_tac := cbn [call_ok];
  match goal with
  | |- True => exact I
  | |- ∀ _ : nat, _ => done
  | |- HasNamedVectors _ = _ ∧ _ => split; [reflexivity|apply Z.leb_le; reflexivity]
  | |- _ ∧ storable _ => split; [done|doc_ok]
  | |- _ ∧ Forall _ _ ∧ _ => split; [done|split; [docs_ok|apply Z.ltb_lt; reflexivity]]
  | |- _ ≤ _ => apply Z.leb_le; reflexivity
  end.

Lemma demo_calls_ok : Forall call_ok demo_calls.
Proof. unfold demo_calls. repeat (apply Forall_cons_2; [call_tac|]). apply Forall_nil_2. Qed.

Lemma demo_sync : SyncOnWrite demo_config = true.
Proof. reflexivity. Qed.

Lemma recovery_transparent_witness :
  (∃ w m w',
    Open demo_config demo_world = (Ok tt, w) ∧
    sys_run (durable := wal_durable 100 demo_config demo_sync (w_log demo_world)) demo_calls
      (new_server no_dbs 10, w) = (fst (spec_run 10 demo_calls ∅), (m, w')) ∧
    stands true m (snd (spec_run 10 demo_calls ∅))) ∧
  fst (spec_run 10 demo_calls ∅) !! 3%nat =
    Some (APoint (Ok (Hnsw.mkPoint "a" [f32_of_Z 1] None))) ∧
  fst (spec_run 10 demo_calls ∅) !! 7%nat = Some (APoint (Err (EColl (EHnsw ErrPointNotFound)))) ∧
  fst (spec_run 10 demo_calls ∅) !! 8%nat =
    Some (APoint (Ok (Hnsw.mkPoint "b" [f32_of_Z 2] None))).
Proof.
  split; [|vm_compute; split_and!; reflexivity].
  apply (recovery_transparent 100 demo_config demo_sync demo_world (w_log demo_world) no_dbs 10 demo_calls);
    [exact demo_fault_free|exact demo_clock|exact demo_no_segments|exact demo_calls_ok|reflexivity
    |vm_compute; discriminate].
Defined.

(** A log that is the list of its records *)
#[local] Instance list_log : Log (list Record_) := {|
  log_Write r := modify (λ l, l ++ [r]);
  log_WriteBatch rs := modify (λ l, l ++ rs)
|}.
#[local, refine] Instance list_durable : DurableLog (list Record_) := {|
  healthy _ l rs := l = rs;
  log_recover l := (Ok l, l)
|}.
Proof.
  - intros b l rs r -> _ _. by eexists.
  - intros b l rs batch -> _ _ _. by eexists.
  - intros b l rs -> _. eexists _, _. split_and!; [reflexivity| |done].
    induction rs; by constructor.
  - done.
Defined.

Definition demo_two_calls : list (call (Q:=unit) (D:=demo_db)) :=
  [CCreate [] demo_collection; CInsert "docs" flat (doc "a" 1)].
Definition demo_state := snd (sys_run demo_two_calls (new_server no_dbs 10, [])).
Definition demo_tables := snd (spec_run 10 demo_two_calls ∅).

Lemma demo_two_calls_ok : Forall call_ok demo_two_calls.
Proof. unfold demo_two_calls. repeat (apply Forall_cons_2; [call_tac|]). apply Forall_nil_2. Qed.

Lemma demo_consistent : consistent 10 (0 + 1) demo_state demo_tables.
Proof.
  pose proof (run_consistent 10 (0 + 1) demo_two_calls (new_server no_dbs 10, []) ∅ demo_two_calls_ok) as H.
  unfold demo_state, demo_tables.
  destruct (sys_run demo_two_calls (new_server no_dbs 10, [])), (spec_run 10 demo_two_calls ∅).
  apply H; [|lia]. by apply new_consistent.
Qed.

Definition demo_table : CollectionConfig unit * table :=
  default (demo_collection, empty_table) (demo_tables !! "docs"%string).

Lemma recreated_collection_restored_witness :
  len (t_rows (snd demo_table)) = 1 ∧
  ∃ m1 m2 m3 c l3,
    Manager.Delete true "docs" (fst demo_state) = (Ok tt, m1) ∧
    Create no_dbs true true (fst demo_table) m1 = (Ok c, m2) ∧ represents c empty_table ∧
    restart no_dbs flats (m2, snd demo_state) = (Ok tt, (m3, l3)) ∧
    ∃ c3, m_collections m3 !! "docs"%string = Some c3 ∧ represents c3 (snd demo_table).
Proof.
  split; [vm_compute; reflexivity|].
  apply (recreated_collection_restored no_dbs no_dbs flats 10 0 (fst demo_state) (snd demo_state) demo_tables "docs"
    (fst demo_table) (snd demo_table) tt); [done|exact demo_consistent|lia|vm_compute; reflexivity
    |vm_compute; reflexivity|vm_compute; discriminate].
Defined.

Definition demo_coll : option (Coll unit (list (string * list value))) :=
  m_collections (fst demo_state) !! "docs"%string.
Definition demo_fresh : Coll unit (list (string * list value)) :=
  mkColl demo_collection None ∅ (PayloadIndex.mkIndex [] ∅) NewInvertedIndex false
    (NewSearchCache 10 10) [].

Lemma demo_represents : represents (default demo_fresh demo_coll) (snd demo_table).
Proof.
  pose proof (proj2 (co_stands _ _ _ _ demo_consistent) "docs"%string) as H.
  assert (Hsome : is_Some (demo_tables !! "docs"%string)) by (vm_compute; by eexists).
  unfold demo_coll, demo_table. revert H Hsome.
  generalize (m_collections (fst demo_state) !! "docs"%string), (demo_tables !! "docs"%string).
  intros [c|] [[cfg t]|] H [x Hx]; [|done..]. apply H.
Qed.

Lemma upsert_loses_point_witness :
  ∃ c', upsertInternal flat (doc "a" 5) (default demo_fresh demo_coll) =
      (Err (EHnsw ErrPointExists), c') ∧
    fst (Collection.Get "a" c') = Err (EHnsw ErrPointNotFound).
Proof.
  apply (upsert_loses_point flat (doc "a" 5) (default demo_fresh demo_coll) (snd demo_table) 0);
    [done|exact demo_represents|vm_compute; reflexivity|vm_compute; reflexivity].
Defined.

Lemma named_insert_panics_witness :
  insertInternal flat (doc "a" 5) demo_fresh = (Panic, demo_fresh).
Proof.
  apply (named_insert_panics flat (doc "a" 5) demo_collection [] demo_fresh demo_fresh); reflexivity.
Defined.

Definition demo_index : Idx :=
  default (mkIdx (Distance.New Distance.MetricEuclidean) (mkHNSW 2 2 4 1 1 (-1) [] 0 0 1 ∅ 0 None))
    (c_index (default demo_fresh demo_coll)).

Lemma demo_index_some : c_index (default demo_fresh demo_coll) = Some demo_index ∧ wf (ix_hnsw demo_index).
Proof.
  destruct (rep_index _ _ demo_represents) as (i & Hi & Hwf & _). unfold demo_index. rewrite Hi. split; [reflexivity|exact Hwf].
Qed.

Definition demo_page : ScrollParams := mkScrollParams "" 1 None false false.

Lemma scroll_complete_witness :
  length (GetAllPoints (ix_hnsw demo_index)) = 1%nat ∧
  scroll_from (S (length (GetAllPoints (ix_hnsw demo_index)))) demo_page "" (default demo_fresh demo_coll) =
    Ok (scroll_point demo_page <$> GetAllPoints (ix_hnsw demo_index)).
Proof.
  split; [vm_compute; reflexivity|].
  apply (scroll_complete demo_page (default demo_fresh demo_coll) demo_index
    (GetAllPoints (ix_hnsw demo_index)));
    [vm_compute; reflexivity|exact (proj1 demo_index_some)|exact (proj2 demo_index_some)
    |vm_compute; repeat constructor; discriminate|vm_compute; reflexivity].
Defined.
