(* ===== verification/Shard.v ===== *)
(** * pkg/collection/shard.go: shards of a collection

    A shard manager spreads the points of a collection over indexes by a hash of
    their identifiers and merges the searches of all shards. [SHA-256] is a
    function of the bytes; the goroutines of a search report in the order of a
    range over the shards, which may be any. *)
From stdpp Require Import base gmap strings list fin_maps numbers sorting sets.
From Stdlib Require Import Strings.Byte ZArith Lia Floats.SpecFloat.
From S2P Require Import Prelude Float32 Heap Hnsw Distance HnswSearch HnswGraph HnswSpec HnswTheorems.
From S2P Require Import PayloadFilter PayloadIndex Config Collection.

#[local] Open Scope Z_scope.

Inductive ShardState :=
| ShardStateActive | ShardStateRecovering | ShardStateDead | ShardStateInitializing.
#[export] Instance ShardState_eq_dec : EqDecision ShardState.
Proof. solve_decision. Defined.

Inductive shardError :=
| ENotActive (id : Z) (s : ShardState) | ENotSearchable (id : Z) (s : ShardState)
| EIndex (e : hnswError) | ENoShard (id : string)
| EShardNotFound (id : Z) | ERecoveryStream | ENoHandler.

#[local] Abbreviation pt := (Hnsw.Point (option payload)).
#[local] Abbreviation R := (result shardError).

Definition index_err {A} (r : result hnswError A) : R A :=
  match r with Ok a => Ok a | Err e => Err (EIndex e) | Panic => Panic end.

Section shard.
Context {Q D : Type} {dbase : Database D} {sorter : Sorter} {zorder : MapOrder Z} {sha : Sha256}.

(** ** One shard *)
Record Shard := mkShard {
  sh_ID : Z; sh_CollectionID : string; sh_State : ShardState; sh_NodeID : string;
  sh_ReplicaOf : Z; sh_IsPrimary : bool;
  sh_index : Idx; sh_payloadIndex : @Index D; sh_config : VectorConfig Q
}.

Definition set_state (st : ShardState) (s : Shard) : Shard :=
  mkShard (sh_ID s) (sh_CollectionID s) st (sh_NodeID s) (sh_ReplicaOf s) (sh_IsPrimary s)
    (sh_index s) (sh_payloadIndex s) (sh_config s).
Definition set_data (i : Idx) (p : Index) (s : Shard) : Shard :=
  mkShard (sh_ID s) (sh_CollectionID s) (sh_State s) (sh_NodeID s) (sh_ReplicaOf s) (sh_IsPrimary s)
    i p (sh_config s).

(** In memory; [db0] is the anonymous database of the new payload index. *)
Definition NewShard (db0 : D) (id : Z) (collection : string) (vc : VectorConfig Q) : R Shard :=
  h ← index_err (Hnsw.New (Hnsw.mkConfig (or_default (hc_M (vc_HNSW vc)) 16)
        (or_default (hc_EfConstruction (vc_HNSW vc)) 200)
        (or_default (hc_EfSearch (vc_HNSW vc)) 100) (or_default (hc_MaxElements (vc_HNSW vc)) 100000)
        (vc_Dimension vc) None));
  Ok (mkShard id collection ShardStateInitializing "" 0 true
        (mkIdx (Distance.New (metric_of (vc_Metric vc))) h) (PayloadIndex.mkIndex db0 ∅) vc).

Definition Insert (p : pt) (level : Z) (s : Shard) : R unit * Shard :=
  if negb (bool_decide (sh_State s = ShardStateActive)) then (Err (ENotActive (sh_ID s) (sh_State s)), s)
  else
    let i := sh_index s in
    match @Hnsw.Insert _ (calc_Distance (ix_calc i)) _ p level (ix_hnsw i) with
    | (Ok _, h) =>
        let nodeID := node_number (GetNodeID h (p_ID p)) in
        (Ok tt, set_data (mkIdx (ix_calc i) h)
                  (IndexPoint nodeID (default [] (p_Payload p)) (sh_payloadIndex s)) s)
    | (r, h) => (index_err r, set_data (mkIdx (ix_calc i) h) (sh_payloadIndex s) s)
    end.

Definition Search (s : Shard) (query : vector) (k ef : Z) : R (list Candidate) :=
  if bool_decide (sh_State s ≠ ShardStateActive) && bool_decide (sh_State s ≠ ShardStateRecovering)
  then Err (ENotSearchable (sh_ID s) (sh_State s))
  else index_err (@SearchWithEf _ (calc_Distance (ix_calc (sh_index s))) _ (ix_hnsw (sh_index s)) query k ef).

Definition Get (s : Shard) (id : string) : R pt := index_err (Hnsw.Get (ix_hnsw (sh_index s)) id).

Definition Delete (id : string) (s : Shard) : R unit * Shard :=
  if negb (bool_decide (sh_State s = ShardStateActive)) then (Err (ENotActive (sh_ID s) (sh_State s)), s)
  else let i := sh_index s in
       let '(r, h) := Hnsw.Delete id (ix_hnsw i) in
       (index_err r, set_data (mkIdx (ix_calc i) h) (sh_payloadIndex s) s).

Definition Size (s : Shard) : Z := Hnsw.Size (ix_hnsw (sh_index s)).
Definition Activate (s : Shard) : Shard := set_state ShardStateActive s.

(** ** The manager *)
Record ShardManager := mkShardManager {
  sm_shards : gmap Z Shard; sm_shardCount : Z; sm_replicaFactor : Z; sm_collectionName : string
}.
Definition set_shards (m : gmap Z Shard) (sm : ShardManager) : ShardManager :=
  mkShardManager m (sm_shardCount sm) (sm_replicaFactor sm) (sm_collectionName sm).

(** Shards [i], [i+1], ..., [n] of them *)
Fixpoint create_shards (db0 : D) (name : string) (vc : VectorConfig Q) (n : nat) (i : Z)
    (m : gmap Z Shard) : R (gmap Z Shard) :=
  match n with
  | O => Ok m
  | S n => s ← NewShard db0 (u32 i) name vc; create_shards db0 name vc n (i + 1) (<[u32 i := s]> m)
  end.

Definition NewShardManager (db0 : D) (name : string) (shardCount replicaFactor : Z) (vc : VectorConfig Q) :
    R ShardManager :=
  let shardCount := if shardCount <=? 0 then 1 else shardCount in
  let replicaFactor := if replicaFactor <=? 0 then 1 else replicaFactor in
  m ← create_shards db0 name vc (Z.to_nat shardCount) 0 ∅;
  Ok (mkShardManager (Activate <$> m) shardCount replicaFactor name).

(** The count is positive and, as that many shards exist, below 2^32. *)
Definition computeShardID (sm : ShardManager) (pointID : string) : Z :=
  let num := be_get (take 4 (Sum256 (bytes_of_string pointID))) in
  let count := if sm_shardCount sm <=? 0 then 1 else sm_shardCount sm in
  num `mod` u32 count.

Definition GetShard (sm : ShardManager) (pointID : string) : option Shard :=
  sm_shards sm !! computeShardID sm pointID.

Definition GetAllShards (sm : ShardManager) : list Shard := (map_range (sm_shards sm)).*2.

(** An operation on the shard of a point *)
Definition on_shard {A} (id : string) (f : Shard → R A * Shard) (sm : ShardManager) : R A * ShardManager :=
  match GetShard sm id with
  | None => (Err (ENoShard id), sm)
  | Some s => let '(r, s) := f s in
              (r, set_shards (<[computeShardID sm id := s]> (sm_shards sm)) sm)
  end.

Definition mgr_Insert (p : pt) (level : Z) : ShardManager → R unit * ShardManager :=
  on_shard (p_ID p) (Insert p level).
Definition mgr_Delete (id : string) : ShardManager → R unit * ShardManager := on_shard id (Delete id).
Definition mgr_Get (sm : ShardManager) (id : string) : R pt :=
  match GetShard sm id with None => Err (ENoShard id) | Some s => Get s id end.
Definition mgr_Size (sm : ShardManager) : Z :=
  foldl (λ total s, total + Size s) 0 (GetAllShards sm).

(** *** Searching all shards *)

(** One round of [sortCandidates]: position [i] meets every later position. *)
Fixpoint sort_round (a : Candidate) (rest : list Candidate) : Candidate * list Candidate :=
  match rest with
  | [] => (a, [])
  | b :: rest =>
      let '(a, b) := if flt (cDistance b) (cDistance a) then (b, a) else (a, b) in
      let '(a, rest) := sort_round a rest in (a, b :: rest)
  end.
Fixpoint sort_rounds (n : nat) (cs : list Candidate) : list Candidate :=
  match n, cs with
  | S n, a :: rest => let '(a, rest) := sort_round a rest in a :: sort_rounds n rest
  | _, _ => cs
  end.
Definition sortCandidates (cs : list Candidate) : list Candidate := sort_rounds (length cs - 1) cs.

(** The candidates of the shards that answer; a shard that fails is skipped. *)
Fixpoint collect_candidates (shards : list Shard) (query : vector) (k ef : Z) : R (list Candidate) :=
  match shards with
  | [] => Ok []
  | s :: shards =>
      match Search s query k ef with
      | Panic => Panic
      | Err _ => collect_candidates shards query k ef
      | Ok cs => rest ← collect_candidates shards query k ef; Ok (cs ++ rest)
      end
  end.

Definition mgr_Search (sm : ShardManager) (query : vector) (k ef : Z) : R (list Candidate) :=
  all ← collect_candidates (GetAllShards sm) query k ef;
  let all := sortCandidates all in
  if len all >? k then slice all 0 k else Ok all.

(** *** RecoverShard: [handler] is the configured callback, if any; it may change the
    shard also when it fails. *)
Definition RecoverShard (handler : option (Z → Shard → bool * Shard)) (shardID : Z) (sm : ShardManager) :
    R unit * ShardManager :=
  match sm_shards sm !! shardID with
  | None => (Err (EShardNotFound shardID), sm)
  | Some s =>
      let put s := set_shards (<[shardID := s]> (sm_shards sm)) sm in
      let s := set_state ShardStateRecovering s in
      match handler with
      | None => (Err ENoHandler, put (set_state ShardStateDead s))
      | Some f =>
          match f shardID s with
          | (false, s) => (Err ERecoveryStream, put (set_state ShardStateDead s))
          | (true, s) => (Ok tt, put (set_state ShardStateActive s))
          end
      end
  end.

Record ShardInfo := mkShardInfo {
  si_ID : Z; si_State : ShardState; si_NodeID : string; si_IsPrimary : bool; si_Size : Z
}.
Definition ShardInfos (sm : ShardManager) : list ShardInfo :=
  (λ s, mkShardInfo (sh_ID s) (sh_State s) (sh_NodeID s) (sh_IsPrimary s) (Size s)) <$> GetAllShards sm.
End shard.
Arguments Shard : clear implicits.
Arguments ShardManager : clear implicits.

(** * pkg/collection/shard.go: properties
    The shards together behave like one index: the interface of HnswSpec.v, an
    abstract store, is implemented by any number of shards as well as by one
    graph. A search returns the nearest of what the shards found. *)

Section theorems.
Context {Q D : Type} {dbase : Database D} {sorter : Sorter} {zorder : MapOrder Z} {sha : Sha256}.

(** ** Histories *)
Inductive sout := SUnit (r : R unit) | SPoint (r : R pt) | SSize (z : Z).

Definition sout_of (o : @iout (option payload)) : sout :=
  match o with RUnit r => SUnit (index_err r) | RPoint r => SPoint (index_err r) | RSize z => SSize z end.

Definition shard_step (sm : ShardManager Q D) (o : @iop (option payload)) : sout * ShardManager Q D :=
  match o with
  | OInsert p level => let '(r, sm) := mgr_Insert p level sm in (SUnit r, sm)
  | ODelete id => let '(r, sm) := mgr_Delete id sm in (SUnit r, sm)
  | OGet id => (SPoint (mgr_Get sm id), sm)
  | OSize => (SSize (mgr_Size sm), sm)
  end.

Fixpoint run_shards (sm : ShardManager Q D) (os : list iop) : list sout * ShardManager Q D :=
  match os with
  | [] => ([], sm)
  | o :: os => let '(a, sm) := shard_step sm o in let '(r, sm) := run_shards sm os in (a :: r, sm)
  end.

(** ** The sum of the sizes *)
Definition total {A} (f : A → Z) (m : gmap Z A) : Z := foldr (λ x n, f x + n) 0 (map_to_list m).*2.

Lemma foldr_perm {A} (f : A → Z) (l k : list A) : l ≡ₚ k → foldr (λ x n, f x + n) 0 l = foldr (λ x n, f x + n) 0 k.
Proof. intros H. induction H; simpl; lia. Qed.

Lemma foldl_sum {A} (f : A → Z) (l : list A) n : foldl (λ t x, t + f x) n l = n + foldr (λ x n, f x + n) 0 l.
Proof. revert n. induction l as [|x l IH]; intros n; simpl; [lia|]. rewrite IH. lia. Qed.

Lemma total_insert {A} (f : A → Z) (m : gmap Z A) k x y :
  m !! k = Some x → total f (<[k := y]> m) = total f m - f x + f y.
Proof.
  intros Hk. unfold total. rewrite <- (insert_delete_id m k x Hk) at 2. rewrite <- insert_delete_eq.
  rewrite !(foldr_perm f _ _ (fmap_Permutation _ _ _ (map_to_list_insert _ _ _ (lookup_delete_eq m k)))).
  simpl. lia.
Qed.

Lemma mgr_Size_total (sm : ShardManager Q D) : mgr_Size sm = total Size (sm_shards sm).
Proof.
  unfold mgr_Size, GetAllShards, total. rewrite foldl_sum, Z.add_0_l. apply foldr_perm.
  by rewrite map_range_perm.
Qed.

(** ** The invariant *)
Definition sh_hnsw (s : Shard Q D) : HNSW (option payload) := ix_hnsw (sh_index s).

Record sharded (n : Z) (sm : ShardManager Q D) (s : store) : Prop := {
  sd_count : 0 < sm_shardCount sm ≤ MaxUint32;
  sd_shards : ∀ j, 0 ≤ j < sm_shardCount sm → is_Some (sm_shards sm !! j);
  sd_wf : ∀ j sh, sm_shards sm !! j = Some sh →
    sh_State sh = ShardStateActive ∧ wf (sh_hnsw sh) ∧ h_dimension (sh_hnsw sh) = st_dim s;
  sd_home : ∀ j sh id, sm_shards sm !! j = Some sh →
    is_Some (live_map (sh_hnsw sh) !! id) ∨ id ∈ gone_set (sh_hnsw sh) → computeShardID sm id = j;
  sd_live : ∀ id sh, GetShard sm id = Some sh → live_map (sh_hnsw sh) !! id = st_live s !! id;
  sd_gone : ∀ id sh, GetShard sm id = Some sh → id ∈ gone_set (sh_hnsw sh) ↔ id ∈ st_gone s;
  sd_size : mgr_Size sm = Z.of_nat (size (st_live s));
  sd_room : ∀ j sh, sm_shards sm !! j = Some sh →
    Z.of_nat (size (live_map (sh_hnsw sh))) + Z.of_nat (size (gone_set (sh_hnsw sh))) ≤ n;
  sd_room_all : Z.of_nat (size (st_live s)) + Z.of_nat (size (st_gone s)) ≤ n
}.

Lemma computeShardID_range (sm : ShardManager Q D) id :
  0 < sm_shardCount sm ≤ MaxUint32 → 0 ≤ computeShardID sm id < sm_shardCount sm.
Proof.
  intros Hc. unfold computeShardID. rewrite (proj2 (Z.leb_gt _ _)) by lia.
  unfold u32. rewrite (Z.mod_small (sm_shardCount sm)) by (unfold MaxUint32 in Hc; lia).
  apply Z.mod_pos_bound. lia.
Qed.

(** Every identifier has its shard. *)
Lemma GetShard_Some n (sm : ShardManager Q D) s id : sharded n sm s → ∃ sh, GetShard sm id = Some sh.
Proof.
  intros Hs. pose proof (computeShardID_range sm id (sd_count _ _ _ Hs)) as Hr.
  destruct (sd_shards _ _ _ Hs _ Hr) as [sh Hsh]. by exists sh.
Qed.

(** Replacing the shard of one identifier *)
Lemma sharded_update n n' sm s s' id sh sh' :
  sharded n sm s → GetShard sm id = Some sh → n ≤ n' →
  sh_State sh' = ShardStateActive → wf (sh_hnsw sh') → h_dimension (sh_hnsw sh') = st_dim s' →
  st_dim s' = st_dim s →
  (∀ id', id' ≠ id → live_map (sh_hnsw sh') !! id' = live_map (sh_hnsw sh) !! id') →
  (∀ id', id' ≠ id → id' ∈ gone_set (sh_hnsw sh') ↔ id' ∈ gone_set (sh_hnsw sh)) →
  (∀ id', id' ≠ id → st_live s' !! id' = st_live s !! id') →
  (∀ id', id' ≠ id → id' ∈ st_gone s' ↔ id' ∈ st_gone s) →
  live_map (sh_hnsw sh') !! id = st_live s' !! id →
  (id ∈ gone_set (sh_hnsw sh') ↔ id ∈ st_gone s') →
  Z.of_nat (size (st_live s')) - Z.of_nat (size (st_live s)) = Size sh' - Size sh →
  Z.of_nat (size (live_map (sh_hnsw sh'))) + Z.of_nat (size (gone_set (sh_hnsw sh'))) ≤ n' →
  Z.of_nat (size (st_live s')) + Z.of_nat (size (st_gone s')) ≤ n' →
  sharded n' (set_shards (<[computeShardID sm id := sh']> (sm_shards sm)) sm) s'.
Proof.
  intros [Hc Hsh Hwf Hhome Hlive Hgone Hsize Hroom Hall] Hid Hn Hact Hw Hd Hdim Hol Hog Hsl Hsg Hl Hg Hsz Hr Hra.
  set (j := computeShardID sm id).
  assert (Hlk : ∀ i x, (<[j := sh']> (sm_shards sm) : gmap Z (Shard Q D)) !! i = Some x →
    (i = j ∧ x = sh') ∨ (i ≠ j ∧ sm_shards sm !! i = Some x)).
  { intros i x H. destruct (decide (j = i)) as [<-|Hne].
    - rewrite lookup_insert_eq in H. by simplify_eq; left.
    - rewrite lookup_insert_ne in H by done. by right. }
  assert (Hgs : ∀ id' x, GetShard (set_shards (<[j := sh']> (sm_shards sm)) sm) id' = Some x →
    (computeShardID sm id' = j ∧ x = sh') ∨ (computeShardID sm id' ≠ j ∧ GetShard sm id' = Some x)).
  { intros id' x H. by apply Hlk in H. }
  constructor; simpl; try done.
  - intros i Hi. destruct (decide (j = i)) as [<-|Hne]; [by rewrite lookup_insert_eq|].
    rewrite lookup_insert_ne by done. by apply Hsh.
  - intros i x [[-> ->]|[_ H]]%Hlk; [done|]. rewrite Hdim. by apply (Hwf i).
  - intros i x id' [[-> ->]|[Hne H]]%Hlk Hk; [|by apply (Hhome i x)].
    destruct (decide (id' = id)) as [->|Hne']; [done|]. apply (Hhome j sh id' Hid).
    rewrite Hol, Hog in Hk by done. done.
  - intros id' x [[Hj ->]|[Hj H]]%Hgs.
    + destruct (decide (id' = id)) as [->|Hne']; [done|]. rewrite Hol, Hsl by done.
      apply Hlive. unfold GetShard. rewrite Hj. exact Hid.
    + rewrite Hsl; [by apply Hlive|]. intros ->. done.
  - intros id' x [[Hj ->]|[Hj H]]%Hgs.
    + destruct (decide (id' = id)) as [->|Hne']; [done|]. rewrite Hog, Hsg by done.
      apply Hgone. unfold GetShard. rewrite Hj. exact Hid.
    + rewrite Hsg; [by apply Hgone|]. intros ->. done.
  - rewrite mgr_Size_total in Hsize |- *. cbn [sm_shards set_shards].
    rewrite (total_insert _ _ _ sh) by exact Hid. lia.
  - intros i x [[-> ->]|[_ H]]%Hlk; [done|]. specialize (Hroom i x H). lia.
Qed.
Lemma Size_live (sh : Shard Q D) : wf (sh_hnsw sh) → Size sh = Z.of_nat (size (live_map (sh_hnsw sh))).
Proof. intros Hwf. symmetry. by apply size_refines. Qed.

(** An operation that changes nothing *)
Lemma sharded_same n sm s id sh sh' :
  sharded n sm s → GetShard sm id = Some sh → sh_State sh' = ShardStateActive → wf (sh_hnsw sh') →
  abs (sh_hnsw sh') = abs (sh_hnsw sh) →
  sharded n (set_shards (<[computeShardID sm id := sh']> (sm_shards sm)) sm) s.
Proof.
  intros Hs Hid Hact Hw Habs. injection Habs as Hd Hl Hg.
  destruct (sd_wf _ _ _ Hs _ _ Hid) as (_ & Hwf & Hdim).
  apply (sharded_update n n sm s s id sh sh'); try done.
  - congruence.
  - intros id' _. by rewrite Hl.
  - intros id' _. by rewrite Hg.
  - rewrite Hl. by apply (sd_live _ _ _ Hs).
  - rewrite Hg. by apply (sd_gone _ _ _ Hs).
  - rewrite !Size_live by done. rewrite Hl. lia.
  - rewrite Hl, Hg. by apply (sd_room _ _ _ Hs _ _ Hid).
  - apply (sd_room_all _ _ _ Hs).
Qed.

Lemma active_state (sh : Shard Q D) : sh_State sh = ShardStateActive →
  bool_decide (sh_State sh = ShardStateActive) = true.
Proof. intros H. by apply bool_decide_eq_true. Qed.

(** Splits an answer of the abstract store from its state *)
Ltac pair_inv H :=
  let E := fresh "E" in
  pose proof (f_equal fst H) as E; simpl in E; injection E as <-;
  apply (f_equal snd) in H; cbn [snd] in H.

Lemma insert_step n sm s p level :
  sharded n sm s → 0 ≤ level → n < MaxNodes →
  let '(r, sm') := mgr_Insert p level sm in
  let '(o, s') := spec_step s (OInsert p level) in
  SUnit r = sout_of o ∧ sharded (n + 1) sm' s'.
Proof.
  intros Hs Hlev Hn. destruct (GetShard_Some n sm s (p_ID p) Hs) as [sh Hsh].
  destruct (sd_wf _ _ _ Hs _ _ Hsh) as (Hact & Hwf & Hdim).
  unfold mgr_Insert, on_shard. rewrite Hsh. unfold Insert. rewrite active_state by done. cbn [negb].
  pose proof (@insert_refines _ (calc_Distance (ix_calc (sh_index sh))) _ (sh_hnsw sh) p level Hwf Hlev) as Href.
  simpl in Href. unfold sh_hnsw in *. destruct (Hnsw.Insert p level (ix_hnsw (sh_index sh))) as [r h'].
  destruct Href as [Hwf' Href]. simpl. rewrite Hdim in Href.
  pose proof (sd_live _ _ _ Hs _ _ Hsh) as Hl. pose proof (sd_gone _ _ _ Hs _ _ Hsh) as Hg.
  unfold sh_hnsw in Hl, Hg.
  assert (Hweak : sharded (n + 1) sm s).
  { destruct Hs. constructor; try done; [|lia]. intros j x Hx. specialize (sd_room0 j x Hx). lia. }
  destruct (negb (len (p_Vector p) =? st_dim s)).
  { pair_inv Href. split; [done|]. by apply (sharded_same _ _ _ _ sh). }
  assert (Hknown : (is_Some (live_map (ix_hnsw (sh_index sh)) !! p_ID p) ∨
      p_ID p ∈ gone_set (ix_hnsw (sh_index sh))) ↔ (is_Some (st_live s !! p_ID p) ∨ p_ID p ∈ st_gone s))
    by (rewrite Hl, Hg; done).
  destruct (decide (is_Some (st_live s !! p_ID p) ∨ p_ID p ∈ st_gone s)) as [Hk|Hk].
  { rewrite decide_True in Href by tauto. pair_inv Href. split; [done|].
    by apply (sharded_same _ _ _ _ sh). }
  rewrite decide_False in Href by tauto.
  pose proof (sd_room _ _ _ Hs _ _ Hsh) as Hroom. pose proof (sd_room_all _ _ _ Hs) as Hall.
  unfold sh_hnsw in Hroom.
  rewrite (proj2 (Z.leb_gt _ _)) in Href by lia. rewrite (proj2 (Z.leb_gt MaxNodes (_ + Z.of_nat (size (st_gone s))))) by lia.
  injection Href as <- Hd' Hl' Hg'. split; [done|].
  assert (Hnone : st_live s !! p_ID p = None) by (apply eq_None_not_Some; tauto).
  eapply (sharded_update n (n + 1) sm s _ _ sh); try done; unfold sh_hnsw; simpl; rewrite <- ?Hl', <- ?Hg'.
  - lia.
  - intros id' Hne. by rewrite lookup_insert_ne.
  - done.
  - intros id' Hne. by rewrite lookup_insert_ne.
  - by rewrite !lookup_insert_eq.
  - done.
  - rewrite !Size_live by done. unfold sh_hnsw. simpl. rewrite <- Hl'.
    rewrite !map_size_insert_None by congruence. lia.
  - rewrite map_size_insert_None by congruence. lia.
  - rewrite map_size_insert_None by done. lia.
Qed.
Lemma delete_step n sm s id :
  sharded n sm s →
  let '(r, sm') := mgr_Delete id sm in
  let '(o, s') := spec_step s (ODelete id) in
  SUnit r = sout_of o ∧ sharded n sm' s'.
Proof.
  intros Hs. destruct (GetShard_Some n sm s id Hs) as [sh Hsh].
  destruct (sd_wf _ _ _ Hs _ _ Hsh) as (Hact & Hwf & Hdim).
  unfold mgr_Delete, on_shard. rewrite Hsh. unfold Delete. rewrite active_state by done. cbn [negb].
  pose proof (@delete_refines _ (calc_Distance (ix_calc (sh_index sh))) _ (sh_hnsw sh) id Hwf) as Href.
  simpl in Href. unfold sh_hnsw in *. destruct (Hnsw.Delete id (ix_hnsw (sh_index sh))) as [r h'].
  destruct Href as [Hwf' Href]. simpl.
  pose proof (sd_live _ _ _ Hs _ _ Hsh) as Hl. pose proof (sd_gone _ _ _ Hs _ _ Hsh) as Hg.
  unfold sh_hnsw in Hl, Hg.
  destruct (decide (is_Some (st_live s !! id))) as [Hk|Hk].
  2: { rewrite decide_False in Href by (by rewrite Hl).
       destruct (decide (id ∈ st_gone s)) as [Hk'|Hk'].
       - rewrite decide_True in Href by (by apply Hg). pair_inv Href. split; [done|].
         by apply (sharded_same _ _ _ _ sh).
       - rewrite decide_False in Href by (by rewrite Hg). pair_inv Href. split; [done|].
         by apply (sharded_same _ _ _ _ sh). }
  rewrite decide_True in Href by (by rewrite Hl).
  injection Href as <- Hd' Hl' Hg'. split; [done|].
  destruct Hk as [x Hx]. assert (Hng : id ∉ gone_set (ix_hnsw (sh_index sh))).
  { intros Hin. apply gone_set_elem in Hin as (i & nd & Hnd & Hdel & <-).
    rewrite <- Hl in Hx. apply live_map_lookup in Hx as (j & m & Hm & Hdm & E); [|done].
    injection E as E _. assert (i = j) as -> by (eapply ids_inj; [exact Hwf|exact Hnd|exact Hm|congruence]). congruence. }
  assert (Hng' : id ∉ st_gone s) by (by rewrite <- Hg).
  pose proof (sd_room _ _ _ Hs _ _ Hsh) as Hroom. pose proof (sd_room_all _ _ _ Hs) as Hall.
  unfold sh_hnsw in Hroom.
  assert (Hs1 : size (delete id (live_map (ix_hnsw (sh_index sh)))) =
    pred (size (live_map (ix_hnsw (sh_index sh))))) by (apply map_size_delete_Some; rewrite Hl; by eexists).
  assert (Hs2 : size (delete id (st_live s)) = pred (size (st_live s)))
    by (apply map_size_delete_Some; by eexists).
  assert (Hp1 : size (live_map (ix_hnsw (sh_index sh))) ≠ 0%nat).
  { intros ?%map_size_empty_inv. rewrite <- Hl in Hx. by rewrite H, lookup_empty in Hx. }
  assert (Hp2 : size (st_live s) ≠ 0%nat).
  { intros ?%map_size_empty_inv. by rewrite H, lookup_empty in Hx. }
  eapply (sharded_update n n sm s _ _ sh); try done; unfold sh_hnsw; simpl; rewrite <- ?Hl', <- ?Hg'.
  - congruence.
  - intros id' Hne. by rewrite lookup_delete_ne.
  - set_solver.
  - intros id' Hne. by rewrite lookup_delete_ne.
  - set_solver.
  - by rewrite !lookup_delete_eq.
  - set_solver.
  - rewrite !Size_live by done. unfold sh_hnsw. simpl. rewrite <- Hl', Hs1, Hs2. lia.
  - rewrite size_union, size_singleton, Hs1 by set_solver. lia.
  - rewrite size_union, size_singleton, Hs2 by set_solver. lia.
Qed.

Lemma get_step n sm s id : sharded n sm s → SPoint (mgr_Get sm id) = sout_of (fst (spec_step s (OGet id))).
Proof.
  intros Hs. destruct (GetShard_Some n sm s id Hs) as [sh Hsh].
  destruct (sd_wf _ _ _ Hs _ _ Hsh) as (Hact & Hwf & Hdim).
  unfold mgr_Get. rewrite Hsh. unfold Get.
  pose proof (get_refines (sh_hnsw sh) id Hwf) as H. simpl in H. pose proof (f_equal fst H) as E.
  simpl in E. injection E as E. unfold sh_hnsw in *. rewrite <- E.
  pose proof (sd_live _ _ _ Hs _ _ Hsh) as Hl. unfold sh_hnsw in Hl. by rewrite Hl.
Qed.

Definition inserts (os : list (@iop (option payload))) : Z :=
  len (filter (λ o, match o with OInsert _ _ => true | _ => false end = true) os).

Lemma run_sharded n sm s os :
  sharded n sm s → Forall op_level_ok os → n + inserts os ≤ MaxNodes →
  fst (run_shards sm os) = sout_of <$> fst (run_spec s os).
Proof.
  intros Hs HF. revert n sm s Hs. induction HF as [|o os Ho HF IH]; intros n sm s Hs Hn; [done|].
  unfold inserts in *. pose proof (len_nonneg (filter (λ o : @iop (option payload),
    match o with OInsert _ _ => true | _ => false end = true) os)).
  destruct o as [p level|id|id|]; cbn [run_shards run_spec shard_step].
  - rewrite filter_cons_True in Hn by done. rewrite len_cons in Hn.
    pose proof (insert_step n sm s p level Hs Ho ltac:(lia)) as Hst.
    destruct (mgr_Insert p level sm) as [r sm'], (spec_step s (OInsert p level)) as [a s'].
    destruct Hst as [-> Hs']. specialize (IH (n + 1) sm' s' Hs' ltac:(lia)).
    destruct (run_shards sm' os), (run_spec s' os). simpl in *. by rewrite IH.
  - rewrite filter_cons_False in Hn by done. pose proof (delete_step n sm s id Hs) as Hst.
    destruct (mgr_Delete id sm) as [r sm'], (spec_step s (ODelete id)) as [a s'].
    destruct Hst as [-> Hs']. specialize (IH n sm' s' Hs' Hn).
    destruct (run_shards sm' os), (run_spec s' os). simpl in *. by rewrite IH.
  - rewrite filter_cons_False in Hn by done. pose proof (get_step n sm s id Hs) as Hg.
    specialize (IH n sm s Hs Hn). simpl in *.
    destruct (run_shards sm os), (run_spec s os). simpl in *. by rewrite Hg, IH.
  - rewrite filter_cons_False in Hn by done. pose proof (sd_size _ _ _ Hs) as Hg.
    specialize (IH n sm s Hs Hn). simpl in *.
    destruct (run_shards sm os), (run_spec s os). simpl in *. by rewrite Hg, IH.
Qed.

(** *** New shards are empty *)
Definition fresh_shard (vc : VectorConfig Q) (sh : Shard Q D) : Prop :=
  wf (sh_hnsw sh) ∧ abs (sh_hnsw sh) = Store (vc_Dimension vc) ∅ ∅.

Lemma NewShard_fresh (db0 : D) id name (vc : VectorConfig Q) sh :
  hc_M (vc_HNSW vc) ≤ 2 ^ 62 - 1 → NewShard db0 id name vc = Ok sh → fresh_shard vc sh.
Proof.
  intros HM H. unfold NewShard in H. destruct (Hnsw.New _) as [h| |] eqn:E; try done.
  cbn [index_err] in H. rewrite Ok_bind in H. simplify_eq. unfold fresh_shard, sh_hnsw. simpl.
  apply (wf_New (Hnsw.mkConfig _ _ _ _ _ _)) in E as [Hwf Ha]; [done|]. simpl. unfold or_default.
  destruct (Z.eqb _ _); lia.
Qed.

Lemma create_shards_fresh (db0 : D) name (vc : VectorConfig Q) k i m m' :
  hc_M (vc_HNSW vc) ≤ 2 ^ 62 - 1 → 0 ≤ i → i + Z.of_nat k ≤ MaxUint32 →
  create_shards db0 name vc k i m = Ok m' →
  (∀ j sh, m !! j = Some sh → fresh_shard vc sh) →
  (∀ j sh, m' !! j = Some sh → fresh_shard vc sh) ∧
  (∀ j, is_Some (m !! j) ∨ i ≤ j < i + Z.of_nat k → is_Some (m' !! j)).
Proof.
  intros HM. revert i m. induction k as [|k IH]; intros i m Hi Hk H Hm; simpl in H.
  { simplify_eq. split; [done|]. intros j [?|?]; [done|lia]. }
  destruct (NewShard db0 (u32 i) name vc) as [sh| |] eqn:E; try done. rewrite Ok_bind in H.
  assert (Eu : u32 i = i) by (unfold u32, MaxUint32 in *; apply Z.mod_small; lia). rewrite Eu in *.
  destruct (IH (i + 1) (<[i := sh]> m) ltac:(lia) ltac:(lia) H) as [H1 H2].
  { intros j x Hx. destruct (decide (i = j)) as [<-|Hne].
    - rewrite lookup_insert_eq in Hx. simplify_eq. by eapply NewShard_fresh.
    - rewrite lookup_insert_ne in Hx by done. by eapply Hm. }
  split; [done|]. intros j Hj. apply H2. destruct (decide (i = j)) as [<-|Hne].
  - left. by rewrite lookup_insert_eq.
  - rewrite lookup_insert_ne by done. destruct Hj; [by left|right; lia].
Qed.

Lemma total_zero {A} (f : A → Z) (m : gmap Z A) : (∀ j x, m !! j = Some x → f x = 0) → total f m = 0.
Proof.
  intros H. unfold total. assert (HF : Forall (λ x, f x = 0) (map_to_list m).*2).
  { apply Forall_forall. intros x ([j y] & -> & Hin)%list_elem_of_fmap.
    apply elem_of_map_to_list in Hin. by eapply H. }
  induction HF; simpl; lia.
Qed.

Lemma new_sharded (db0 : D) name count rf (vc : VectorConfig Q) sm :
  hc_M (vc_HNSW vc) ≤ 2 ^ 62 - 1 → count ≤ MaxUint32 →
  NewShardManager db0 name count rf vc = Ok sm → sharded 0 sm (Store (vc_Dimension vc) ∅ ∅).
Proof.
  intros HM Hcount H. unfold NewShardManager in H. set (n := if count <=? 0 then 1 else count) in H.
  assert (Hn : 0 < n ≤ MaxUint32) by (unfold n, MaxUint32 in *; destruct (Z.leb_spec count 0); lia).
  destruct (create_shards _ _ _ _ _ _) as [m| |] eqn:E; try done. rewrite Ok_bind in H. simplify_eq.
  apply create_shards_fresh in E as [Hf Hs]; [|done|lia|lia|intros ? ? Hx; by rewrite lookup_empty in Hx].
  assert (Hact : ∀ j sh, (Activate <$> m) !! j = Some sh → sh_State sh = ShardStateActive ∧ fresh_shard vc sh).
  { intros j sh. rewrite lookup_fmap. intros (x & Hx & ->)%fmap_Some. split; [done|]. exact (Hf j x Hx). }
  assert (Hempty : ∀ j sh, (Activate <$> m) !! j = Some sh →
    live_map (sh_hnsw sh) = ∅ ∧ gone_set (sh_hnsw sh) = ∅ ∧ h_dimension (sh_hnsw sh) = vc_Dimension vc).
  { intros j sh Hx. destruct (Hact j sh Hx) as (_ & _ & Ha). by injection Ha. }
  constructor; simpl; try done.
  - intros j Hj. rewrite lookup_fmap. destruct (Hs j) as [x ->]; [right; lia|]. by eexists.
  - intros j sh Hx. destruct (Hact j sh Hx) as (? & ? & _), (Hempty j sh Hx) as (_ & _ & ?). done.
  - intros j sh id Hx Hk. destruct (Hempty j sh Hx) as (Hl & Hg & _). rewrite Hl, Hg, lookup_empty in Hk.
    destruct Hk as [[? ?]|?]; [done|set_solver].
  - intros id sh Hx. destruct (Hempty _ sh Hx) as (Hl & _). by rewrite Hl.
  - intros id sh Hx. destruct (Hempty _ sh Hx) as (_ & Hg & _). by rewrite Hg.
  - rewrite mgr_Size_total. simpl. rewrite (total_zero Size); [done|]. intros j sh Hx.
    destruct (Hact j sh Hx) as (_ & Hwf & _), (Hempty j sh Hx) as (Hl & _).
    by rewrite Size_live, Hl, map_size_empty.
  - intros j sh Hx. destruct (Hempty j sh Hx) as (Hl & Hg & _). rewrite Hl, Hg. done.
Qed.

(** C11. Sharding is invisible to the operations on points: every history of
    insertions, deletions, reads and size queries on a new shard manager, with any
    number of shards, answers what one abstract store answers, whatever the hash,
    the order of the shards in a range and the levels drawn, as long as there are
    not more insertions than one index holds. *)
Theorem shards_refine_store (db0 : D) name count rf (vc : VectorConfig Q) sm os :
  NewShardManager db0 name count rf vc = Ok sm →
  hc_M (vc_HNSW vc) ≤ 2 ^ 62 - 1 → count ≤ MaxUint32 →
  Forall op_level_ok os → inserts os ≤ MaxNodes →
  fst (run_shards sm os) = sout_of <$> fst (run_spec (Store (vc_Dimension vc) ∅ ∅) os).
Proof.
  intros Hnew HM Hc HF Hn. apply (run_sharded 0); [exact (new_sharded _ _ _ _ _ _ HM Hc Hnew)|done|lia].
Qed.
(** ** Searching *)
Definition near (a b : Candidate) : Prop := flt (cDistance b) (cDistance a) = false.
Definition number (c : Candidate) : Prop := cDistance c ≠ S754_nan.

Lemma near_trans a b c : number b → near a b → near b c → near a c.
Proof. intros Hb Hab Hbc. by apply (flt_ge_trans _ (cDistance b)). Qed.

Lemma sort_round_spec a rest :
  let '(a', rest') := sort_round a rest in
  a' :: rest' ≡ₚ a :: rest ∧
  (Forall number (a :: rest) → near a' a ∧ Forall (near a') rest').
Proof.
  revert a. induction rest as [|b rest IH]; intros a; simpl.
  { split; [done|]. intros _. split; [apply flt_irrefl|constructor]. }
  destruct (flt (cDistance b) (cDistance a)) eqn:E.
  - specialize (IH b). destruct (sort_round b rest) as [a' rest']. destruct IH as [Hp Hs]. split.
    + by rewrite Permutation_swap, Hp.
    + intros HF. apply Forall_cons_iff in HF as [Ha HF]. destruct (Hs HF) as [Hb Hr].
      assert (Hba : near b a) by (by apply flt_asym).
      apply Forall_cons_iff in HF as [Hbn _]. split; [by apply (near_trans _ b)|].
      constructor; [by apply (near_trans _ b)|done].
  - specialize (IH a). destruct (sort_round a rest) as [a' rest']. destruct IH as [Hp Hs]. split.
    + rewrite Permutation_swap, Hp. apply Permutation_swap.
    + intros HF. apply Forall_cons_iff in HF as [Ha HF]. apply Forall_cons_iff in HF as [Hb HF].
      destruct (Hs ltac:(by constructor)) as [Hna Hr]. split; [done|].
      constructor; [by apply (near_trans _ a)|done].
Qed.

Lemma sort_rounds_spec n cs :
  (length cs ≤ S n)%nat →
  sort_rounds n cs ≡ₚ cs ∧ (Forall number cs → StronglySorted near (sort_rounds n cs)).
Proof.
  revert cs. induction n as [|n IH]; intros cs Hn; simpl.
  { split; [done|]. intros _. destruct cs as [|a [|b cs]]; simpl in Hn; [constructor|by repeat constructor|lia]. }
  destruct cs as [|a rest]; [split; [done|]; intros _; constructor|].
  pose proof (sort_round_spec a rest) as Hr. destruct (sort_round a rest) as [a' rest'].
  destruct Hr as [Hp Hs]. pose proof (Permutation_length Hp) as Hlen. simpl in *.
  destruct (IH rest' ltac:(lia)) as [Hp' Hs'].
  split; [by rewrite Hp'|]. intros HF. destruct (Hs HF) as [_ Hnear].
  rewrite <- Hp in HF. apply Forall_cons_iff in HF as [_ HF].
  constructor; [by apply Hs'|]. by rewrite Hp'.
Qed.

Lemma sortCandidates_spec cs :
  sortCandidates cs ≡ₚ cs ∧ (Forall number cs → StronglySorted near (sortCandidates cs)).
Proof. apply sort_rounds_spec. lia. Qed.

(** A search over the shards returns the nearest of what the shards found:
    the hand-written exchange sort terminates and sorts, so of all candidates the
    answering shards report, [min k n] are returned in ascending order of distance
    and none left out is nearer, whatever the order in which the shards report. *)
Theorem shard_search_nearest (sm : ShardManager Q D) query k ef all :
  0 ≤ k → collect_candidates (GetAllShards sm) query k ef = Ok all → Forall number all →
  ∃ res rest, mgr_Search sm query k ef = Ok res ∧ all ≡ₚ res ++ rest ∧
    len res = Z.min k (len all) ∧ StronglySorted near res ∧
    ∀ x y, x ∈ res → y ∈ rest → near x y.
Proof.
  intros Hk Hall HF. unfold mgr_Search. rewrite Hall, Ok_bind.
  destruct (sortCandidates_spec all) as [Hp Hs]. specialize (Hs HF).
  assert (Hlen : len (sortCandidates all) = len all) by (unfold len; by rewrite Hp).
  destruct (Z.gtb_spec (len (sortCandidates all)) k) as [Hgt|Hle].
  - exists (take (Z.to_nat k) (sortCandidates all)), (drop (Z.to_nat k) (sortCandidates all)).
    assert (Hl : len (take (Z.to_nat k) (sortCandidates all)) = k).
    { unfold len in *. rewrite length_take. lia. }
    split_and!.
    + rewrite <- (take_drop (Z.to_nat k) (sortCandidates all)) at 1. by apply slice_app_l.
    + rewrite take_drop. by symmetry.
    + lia.
    + rewrite <- (take_drop (Z.to_nat k) (sortCandidates all)) in Hs. by eapply StronglySorted_app_1_l.
    + intros x y Hx Hy. rewrite <- (take_drop (Z.to_nat k) (sortCandidates all)) in Hs.
      by eapply StronglySorted_app_1_elem_of.
  - exists (sortCandidates all), []. split_and!; [done| |lia|done|intros ? ? ? Hy; by apply elem_of_nil in Hy].
    rewrite app_nil_r. by symmetry.
Qed.
End theorems.

(** ** Witnesses: three shards, points placed by the first byte of their name *)
#[local] Instance demo_db : Database (list (string * list value)) := {|
  db_Exec q args d := d ++ [(q, args)]; db_Query _ _ _ := None; PayloadIndex.Marshal _ := None
|}.
#[local] Instance demo_shards : MapOrder Z := listed_order Z.
#[local, refine] Instance demo_sha : Sha256 :=
  {| Sum256 bs := [x00; x00; x00; hd x00 bs] ++ repeat x00 28 |}.
Proof. done. Defined.

Definition demo_vc : VectorConfig unit :=
  mkVectorConfig 1 Config.MetricEuclidean (mkHNSWConfig 2 10 10 10) false None.
Definition demo_manager : ShardManager unit (list (string * list value)) :=
  match NewShardManager [] "docs" 3 1 demo_vc with
  | Ok sm => sm | _ => mkShardManager ∅ 0 0 ""
  end.
Lemma demo_manager_new : NewShardManager [] "docs" 3 1 demo_vc = Ok demo_manager.
Proof.
  assert (H : match NewShardManager ([] : list (string * list value)) "docs" 3 1 demo_vc with Ok _ => true | _ => false end = true)
    by (vm_compute; reflexivity).
  revert H. unfold demo_manager. by destruct (NewShardManager _ "docs" 3 1 demo_vc).
Qed.
Definition demo_pt (id : string) (x : Z) : pt := Hnsw.mkPoint id [f32_of_Z x] None.
Definition demo_history : list (@iop (option payload)) :=
  [OInsert (demo_pt "a" 1) 0; OInsert (demo_pt "b" 2) 1; OInsert (demo_pt "c" 3) 0; OSize; ODelete "b";
   OGet "b"; OGet "c"; OSize].

Lemma shards_refine_store_witness :
  fst (run_shards demo_manager demo_history) = 
    sout_of <$> fst (run_spec (Store (vc_Dimension demo_vc) ∅ ∅) demo_history).
Proof.
  apply (shards_refine_store [] "docs" 3 1 demo_vc demo_manager demo_history);
    [exact demo_manager_new|apply Z.leb_le; reflexivity|apply Z.leb_le; reflexivity
    |repeat constructor; apply Z.leb_le; reflexivity|apply Z.leb_le; reflexivity].
Defined.

Definition demo_filled := snd (run_shards demo_manager (take 3 demo_history)).
Definition demo_found : list Candidate :=
  match collect_candidates (GetAllShards demo_filled) [f32_of_Z 3] 2 10 with Ok cs => cs | _ => [] end.

Lemma shard_search_nearest_witness : ∃ res rest,
  mgr_Search demo_filled [f32_of_Z 3] 2 10 = Ok res ∧ demo_found ≡ₚ res ++ rest ∧
  len res = Z.min 2 (len demo_found) ∧ StronglySorted near res ∧ ∀ x y, x ∈ res → y ∈ rest → near x y.
Proof.
  apply (shard_search_nearest demo_filled [f32_of_Z 3] 2 10 demo_found);
    [lia|vm_compute; reflexivity|vm_compute; repeat constructor; discriminate].
Defined.
