(* ===== verification/Aliases.v ===== *)
(** * pkg/collection/aliases.go: aliases of collections

    The manager keeps a map from aliases to collection names and the file
    [aliases.json] with the same map. A file write is an outcome given from
    outside: it succeeds, or it fails and leaves the file in any state.
    [aliases_refine_map] shows that, while saves succeed, the manager answers like
    a map that a restart does not change. *)
From stdpp Require Import base gmap strings list fin_maps.
From Stdlib Require Import Strings.Byte.
From S2P Require Import Prelude.

(** ** The text of the file

    [json.MarshalIndent] and [json.Unmarshal] on a map of strings: the round trip
    holds for valid UTF-8; other bytes are replaced by the encoder. *)
Class MapJson := {
  valid_text : string → bool;
  MarshalIndent : gmap string string → list byte;
  Unmarshal : list byte → option (gmap string string);
  Unmarshal_MarshalIndent m :
    map_Forall (λ k v, valid_text k = true ∧ valid_text v = true) m →
    Unmarshal (MarshalIndent m) = Some m
}.

Inductive aliasError := ErrAliasExists | ErrAliasNotFound | EFile | ESyntax.

(** The outcome of [os.MkdirAll] and [os.WriteFile]; after an error the file may be
    unchanged, missing or cut short. *)
Inductive outcome := Written | NotWritten (after : option (list byte)).

Section aliases.
Context {js : MapJson} {order : MapOrder string}.

Record AliasManager := mkAliasManager {
  aliases : gmap string string;
  file : option (list byte)
}.
#[local] Abbreviation AM := (M AliasManager aliasError).

Definition set_aliases (a : gmap string string) : AM unit := modify (λ am, mkAliasManager a (file am)).

(** ** Reading and writing the file *)

Definition load (f : option (list byte)) : result aliasError (gmap string string) :=
  match f with
  | None => Ok ∅ (* a missing file is not an error for NewAliasManager *)
  | Some data => match Unmarshal data with Some a => Ok a | None => Err ESyntax end
  end.

Definition NewAliasManager (f : option (list byte)) : result aliasError AliasManager :=
  a ← load f; Ok (mkAliasManager a f).

Definition save (o : outcome) : AM unit := λ am,
  match o with
  | Written => (Ok tt, mkAliasManager (aliases am) (Some (MarshalIndent (aliases am))))
  | NotWritten after => (Err EFile, mkAliasManager (aliases am) after)
  end.

(** ** Operations *)

Definition Create (alias collectionName : string) (o : outcome) : AM unit :=
  am ← get;
  match aliases am !! alias with
  | Some existing =>
      if String.eqb existing collectionName
      then set_aliases (<[alias := collectionName]> (aliases am));; save o
      else throw ErrAliasExists
  | None => set_aliases (<[alias := collectionName]> (aliases am));; save o
  end.

Definition Delete (alias : string) (o : outcome) : AM unit :=
  am ← get;
  match aliases am !! alias with
  | None => throw ErrAliasNotFound
  | Some _ => set_aliases (delete alias (aliases am));; save o
  end.

Definition Resolve (am : AliasManager) (nameOrAlias : string) : string :=
  default nameOrAlias (aliases am !! nameOrAlias).

Definition Get (am : AliasManager) (alias : string) : option string := aliases am !! alias.

Definition List (am : AliasManager) : gmap string string :=
  foldl (λ result '(k, v), <[k := v]> result) ∅ (map_range (aliases am)).

Definition ListForCollection (am : AliasManager) (collectionName : string) : list string :=
  (filter (λ '(_, name), String.eqb name collectionName) (map_range (aliases am))).*1.

(** Both loops visit each key once and change only the entry of the key they visit. *)
Definition rename_entry (oldName newName : string) (acc : gmap string string * bool)
    (e : string * string) : gmap string string * bool :=
  if String.eqb (snd e) oldName then (<[fst e := newName]> (fst acc), true) else acc.

Definition Rename (oldName newName : string) (o : outcome) : AM unit :=
  am ← get;
  let '(a, changed) := foldl (rename_entry oldName newName) (aliases am, false) (map_range (aliases am)) in
  set_aliases a;; when changed (save o).

Definition delete_entry (collectionName : string) (acc : gmap string string * bool)
    (e : string * string) : gmap string string * bool :=
  if String.eqb (snd e) collectionName then (delete (fst e) (fst acc), true) else acc.

Definition DeleteForCollection (collectionName : string) (o : outcome) : AM unit :=
  am ← get;
  let '(a, changed) := foldl (delete_entry collectionName) (aliases am, false) (map_range (aliases am)) in
  set_aliases a;; when changed (save o).

Definition Switch (alias newCollectionName : string) (o : outcome) : AM unit :=
  am ← get;
  set_aliases (<[alias := newCollectionName]> (aliases am));; save o.

(** ** The loops *)

Lemma range_elem (m : gmap string string) k v : (k, v) ∈ map_range m ↔ m !! k = Some v.
Proof. by rewrite map_range_perm, elem_of_map_to_list. Qed.

Lemma List_eq am : List am = aliases am.
Proof.
  unfold List. destruct am as [m f]; simpl. clear f.
  assert (H : ∀ l (acc : gmap string string), NoDup l.*1 →
    foldl (λ result '(k, v), <[k := v]> result) acc l = list_to_map l ∪ acc).
  { induction l as [|[k v] l IH]; intros acc Hnd; simpl; [by rewrite (left_id_L ∅ (∪))|].
    apply NoDup_cons in Hnd as [Hk Hnd]. rewrite IH by done.
    apply not_elem_of_list_to_map in Hk.
    rewrite <- insert_union_l, <- insert_union_r by done. done. }
  rewrite H by (rewrite map_range_perm; apply NoDup_fst_map_to_list).
  rewrite (right_id_L ∅ (∪)). trans (list_to_map (map_to_list m) : gmap string string);
    [|apply list_to_map_to_list].
  apply list_to_map_proper; [|apply map_range_perm].
  rewrite map_range_perm. apply NoDup_fst_map_to_list.
Qed.

Lemma visits_notin {B} (step : gmap string B * bool → string * string → gmap string B * bool) l acc k :
  (∀ acc e, k ≠ fst e → fst (step acc e) !! k = fst acc !! k) →
  k ∉ l.*1 → fst (foldl step acc l) !! k = fst acc !! k.
Proof.
  intros Hs. revert acc. induction l as [|e l IH]; intros acc Hk; simpl; [done|].
  apply not_elem_of_cons in Hk as [? ?]. rewrite IH by done. by apply Hs.
Qed.

(** A loop whose step changes only the visited key gives each key what its own step gives. *)
Lemma visits_each (step : gmap string string * bool → string * string → gmap string string * bool) m k v :
  (∀ acc e j, j ≠ fst e → fst (step acc e) !! j = fst acc !! j) →
  m !! k = Some v →
  ∃ acc, fst acc !! k = Some v ∧
    fst (foldl step (m, false) (map_range m)) !! k = fst (step acc (k, v)) !! k.
Proof.
  intros Hs Hk. assert (Hin : (k, v) ∈ map_range m) by by apply range_elem.
  apply list_elem_of_split in Hin as (l1 & l2 & Hl).
  assert (Hnd : NoDup (map_range m).*1) by (rewrite map_range_perm; apply NoDup_fst_map_to_list).
  rewrite Hl, fmap_app, fmap_cons in Hnd. apply NoDup_app in Hnd as (_ & Hd & [Hn2 _]%NoDup_cons).
  exists (foldl step (m, false) l1). split.
  - rewrite visits_notin; [done|by intros; apply Hs|].
    intros Hin. apply (Hd k Hin). simpl. apply elem_of_cons. by left.
  - rewrite Hl, foldl_app. simpl. by rewrite visits_notin by (try (by intros; apply Hs); done).
Qed.

Lemma changed_iff (step : gmap string string * bool → string * string → gmap string string * bool) p l acc :
  (∀ acc e, snd (step acc e) = snd acc || p e) → snd (foldl step acc l) = snd acc || existsb p l.
Proof.
  intros Hs. revert acc. induction l as [|e l IH]; intros acc; simpl; [by rewrite orb_false_r|].
  by rewrite IH, Hs, orb_assoc.
Qed.

Definition renamed (oldName newName name : string) : string :=
  if String.eqb name oldName then newName else name.

Lemma rename_loop oldName newName m :
  fst (foldl (rename_entry oldName newName) (m, false) (map_range m)) = renamed oldName newName <$> m.
Proof.
  assert (Hs : ∀ acc e j, j ≠ fst e → fst (rename_entry oldName newName acc e) !! j = fst acc !! j).
  { intros [a c] [k v] j Hj. unfold rename_entry. simpl in *. case_match; simpl; [|done].
    by rewrite lookup_insert_ne. }
  apply map_eq. intros k. rewrite lookup_fmap. destruct (m !! k) as [v|] eqn:Hk; simpl.
  - destruct (visits_each _ m k v Hs Hk) as (acc & Ha & ->).
    unfold rename_entry, renamed. simpl. case_match; simpl; [by rewrite lookup_insert_eq|done].
  - rewrite visits_notin; [done|by intros; apply Hs|].
    rewrite map_range_perm. intros ([? ?] & -> & Hin)%list_elem_of_fmap.
    apply elem_of_map_to_list in Hin. simpl in *. congruence.
Qed.

Lemma delete_loop name m :
  fst (foldl (delete_entry name) (m, false) (map_range m)) =
  filter (λ '(_, v), v ≠ name) m.
Proof.
  assert (Hs : ∀ acc e j, j ≠ fst e → fst (delete_entry name acc e) !! j = fst acc !! j).
  { intros [a c] [k v] j Hj. unfold delete_entry. simpl in *. case_match; simpl; [|done].
    by rewrite lookup_delete_ne. }
  apply map_eq. intros k. destruct (m !! k) as [v|] eqn:Hk; simpl.
  - destruct (visits_each _ m k v Hs Hk) as (acc & Ha & ->).
    unfold delete_entry. simpl. destruct (String.eqb_spec v name) as [->|Hne]; simpl.
    + rewrite lookup_delete_eq. symmetry. apply map_lookup_filter_None. right. intros x. naive_solver.
    + rewrite Ha. symmetry. apply map_lookup_filter_Some. naive_solver.
  - rewrite visits_notin; [|by intros; apply Hs|].
    + simpl. rewrite Hk. symmetry. apply map_lookup_filter_None. by left.
    + rewrite map_range_perm. intros ([? ?] & -> & Hin)%list_elem_of_fmap.
      apply elem_of_map_to_list in Hin. simpl in *. congruence.
Qed.

(** ** Histories *)

Inductive op :=
| OCreate (alias name : string) | ODelete (alias : string) | OSwitch (alias name : string)
| ORename (oldName newName : string) | ODeleteFor (name : string)
| OResolve (name : string) | OGet (alias : string) | OList | OListFor (name : string)
| ORestart.

Inductive out :=
| RUnit (r : result aliasError unit) | RName (n : string) | RFound (n : option string)
| RMap (m : gmap string string) | RNames (names : gset string).

Definition step (am : AliasManager) (o : op) : out * AliasManager :=
  let run (m : AM unit) := let '(r, am) := m am in (RUnit r, am) in
  match o with
  | OCreate a n => run (Create a n Written)
  | ODelete a => run (Delete a Written)
  | OSwitch a n => run (Switch a n Written)
  | ORename n n' => run (Rename n n' Written)
  | ODeleteFor n => run (DeleteForCollection n Written)
  | OResolve n => (RName (Resolve am n), am)
  | OGet a => (RFound (Get am a), am)
  | OList => (RMap (List am), am)
  | OListFor n => (RNames (list_to_set (ListForCollection am n)), am)
  | ORestart =>
      match NewAliasManager (file am) with
      | Ok am => (RUnit (Ok tt), am) | Err e => (RUnit (Err e), am) | Panic => (RUnit Panic, am)
      end
  end.

(** The same operations on a map: a restart does nothing. *)
Definition spec_step (m : gmap string string) (o : op) : out * gmap string string :=
  match o with
  | OCreate a n =>
      if decide (m !! a = None ∨ m !! a = Some n) then (RUnit (Ok tt), <[a := n]> m)
      else (RUnit (Err ErrAliasExists), m)
  | ODelete a =>
      if decide (a ∈ dom m) then (RUnit (Ok tt), delete a m) else (RUnit (Err ErrAliasNotFound), m)
  | OSwitch a n => (RUnit (Ok tt), <[a := n]> m)
  | ORename n n' => (RUnit (Ok tt), renamed n n' <$> m)
  | ODeleteFor n => (RUnit (Ok tt), filter (λ '(_, v), v ≠ n) m)
  | OResolve n => (RName (default n (m !! n)), m)
  | OGet a => (RFound (m !! a), m)
  | OList => (RMap m, m)
  | OListFor n => (RNames (dom (filter (λ '(_, v), v = n) m)), m)
  | ORestart => (RUnit (Ok tt), m)
  end.

Fixpoint run {S} (f : S → op → out * S) (s : S) (os : list op) : list out :=
  match os with [] => [] | o :: os => let '(r, s) := f s o in r :: run f s os end.

Definition op_text (o : op) : Prop :=
  match o with
  | OCreate a n | OSwitch a n => valid_text a = true ∧ valid_text n = true
  | ORename _ n => valid_text n = true
  | _ => True
  end.

Definition text_map (m : gmap string string) : Prop :=
  map_Forall (λ k v, valid_text k = true ∧ valid_text v = true) m.

(** Memory holds the map; so does the file, unless both are empty and it is missing. *)
Definition holds (am : AliasManager) (m : gmap string string) : Prop :=
  aliases am = m ∧ text_map m ∧ (file am = Some (MarshalIndent m) ∨ file am = None ∧ m = ∅).

Lemma text_map_insert m a n :
  text_map m → valid_text a = true → valid_text n = true → text_map (<[a := n]> m).
Proof. intros. by apply map_Forall_insert_2. Qed.
Lemma text_map_delete m a : text_map m → text_map (delete a m).
Proof. intros. by apply map_Forall_delete. Qed.
Lemma text_map_rename m n n' : text_map m → valid_text n' = true → text_map (renamed n n' <$> m).
Proof.
  intros Hm Hn k v. rewrite lookup_fmap, fmap_Some. intros (x & Hx & ->).
  unfold renamed. destruct (Hm k x Hx). by case_match.
Qed.
Lemma text_map_filter m n : text_map m → text_map (filter (λ '(_, v), v ≠ n) m).
Proof. intros Hm k v [Hk _]%map_lookup_filter_Some. by apply Hm. Qed.
Hint Resolve text_map_insert text_map_delete text_map_rename text_map_filter : core.

(** A pass over the map saves exactly when it changed something. *)
Lemma saved_pass am m m' changed r am' :
  holds am m → text_map m' → (changed = false → m' = m) →
  (set_aliases m';; when changed (save Written)) am = (r, am') → r = Ok tt ∧ holds am' m'.
Proof.
  intros (<- & Ht & Hf) Ht' Hc. unfold_M. destruct changed; simpl; intros [= <- <-].
  - split; [done|]. split_and!; [done..|by left].
  - rewrite (Hc eq_refl) in *. done.
Qed.

Lemma pass_changed p (m : gmap string string) k v :
  existsb p (map_range m) = false → m !! k = Some v → p (k, v) = false.
Proof.
  intros He Hk. destruct (p (k, v)) eqn:Hp; [|done]. rewrite <- He. symmetry. apply existsb_exists.
  exists (k, v). split; [|done]. apply list_elem_of_In. by apply range_elem.
Qed.

Lemma Rename_step am m n n' r am' :
  holds am m → valid_text n' = true → Rename n n' Written am = (r, am') →
  r = Ok tt ∧ holds am' (renamed n n' <$> m).
Proof.
  intros Hh Hn. pose proof Hh as (Ha & Ht & _). unfold Rename. rewrite get_bind.
  destruct (foldl _ _ _) as [a c] eqn:Hl. pose proof (rename_loop n n' (aliases am)) as Hr.
  pose proof (changed_iff (rename_entry n n') (λ e, String.eqb (snd e) n) (map_range (aliases am)) (aliases am, false)) as Hc.
  rewrite Hl in Hr, Hc. simpl in Hr, Hc. subst a. rewrite Ha in *.
  apply (saved_pass am m); [done|by auto|]. intros ->.
  apply map_eq. intros k. rewrite lookup_fmap. destruct (m !! k) as [v|] eqn:Hk; simpl; [|done].
  unfold renamed. assert (String.eqb v n = false) as ->; [|done].
  apply (pass_changed (λ e, String.eqb (snd e) n) m k v); [|done]. symmetry. apply Hc.
  intros [? ?] [? ?]. unfold rename_entry. simpl. case_match; simpl; [by rewrite orb_true_r|by rewrite orb_false_r].
Qed.

Lemma DeleteFor_step am m n r am' :
  holds am m → DeleteForCollection n Written am = (r, am') →
  r = Ok tt ∧ holds am' (filter (λ '(_, v), v ≠ n) m).
Proof.
  intros Hh. pose proof Hh as (Ha & Ht & _). unfold DeleteForCollection. rewrite get_bind.
  destruct (foldl _ _ _) as [a c] eqn:Hl. pose proof (delete_loop n (aliases am)) as Hr.
  pose proof (changed_iff (delete_entry n) (λ e, String.eqb (snd e) n) (map_range (aliases am)) (aliases am, false)) as Hc.
  rewrite Hl in Hr, Hc. simpl in Hr, Hc. subst a. rewrite Ha in *.
  apply (saved_pass am m); [done|by auto|]. intros ->.
  apply map_filter_id. intros k v Hk ->.
  assert (String.eqb n n = false) as Hn; [|by rewrite String.eqb_refl in Hn].
  apply (pass_changed (λ e, String.eqb (snd e) n) m k n); [|done]. symmetry. apply Hc.
  intros [? ?] [? ?]. unfold delete_entry. simpl. case_match; simpl; [by rewrite orb_true_r|by rewrite orb_false_r].
Qed.

Lemma set_save am m m' r am' :
  holds am m → text_map m' → (set_aliases m';; save Written) am = (r, am') → r = Ok tt ∧ holds am' m'.
Proof. intros Hh Ht H. by apply (saved_pass am m m' true). Qed.

Lemma ListFor_set am n :
  (list_to_set (ListForCollection am n) : gset string) = dom (filter (λ '(_, v), v = n) (aliases am)).
Proof.
  apply set_eq. intros k. rewrite elem_of_list_to_set, elem_of_dom. unfold ListForCollection.
  split.
  - intros ([k' v] & -> & [Hv Hin]%list_elem_of_filter)%list_elem_of_fmap. simpl.
    apply range_elem in Hin. exists v. apply map_lookup_filter_Some. split; [done|].
    by apply Is_true_true, String.eqb_eq in Hv.
  - intros [v [Hk ->]%map_lookup_filter_Some]. apply list_elem_of_fmap. exists (k, n). split; [done|].
    apply list_elem_of_filter. split; [by apply Is_true_true, String.eqb_eq|by apply range_elem].
Qed.

Lemma alias_step_refines am m o : holds am m → op_text o →
  fst (step am o) = fst (spec_step m o) ∧ holds (snd (step am o)) (snd (spec_step m o)).
Proof.
  intros Hh Ho. pose proof Hh as (Ha & Ht & Hf). destruct o as [a n|a|a n|n n'|n|n|a| |n|]; cbn [step spec_step op_text] in *.
  - destruct Ho. destruct (Create a n Written am) as [r am'] eqn:E. revert E. unfold Create.
    rewrite get_bind. rewrite Ha. simpl.
    destruct (m !! a) as [v|] eqn:Hm; [destruct (String.eqb_spec v n) as [->|Hne]|].
    + intros [-> ?]%(set_save am m); [|done|by auto]. by rewrite decide_True by naive_solver.
    + unfold throw. intros [= <- <-]. by rewrite decide_False by naive_solver.
    + intros [-> ?]%(set_save am m); [|done|by auto]. by rewrite decide_True by naive_solver.
  - destruct (Delete a Written am) as [r am'] eqn:E. revert E. unfold Delete.
    rewrite get_bind. rewrite Ha. simpl. destruct (m !! a) as [v|] eqn:Hm.
    + intros [-> ?]%(set_save am m); [|done|by auto]. by rewrite decide_True by (by eapply elem_of_dom_2).
    + unfold throw. intros [= <- <-]. by rewrite decide_False by (by apply not_elem_of_dom).
  - destruct Ho. destruct (Switch a n Written am) as [r am'] eqn:E. revert E. unfold Switch.
    rewrite get_bind. rewrite Ha. simpl. intros E%(set_save am m); [|done|by auto]. by destruct E as [-> ?].
  - destruct (Rename n n' Written am) as [r am'] eqn:E. by apply (Rename_step am m) in E as [-> ?].
  - destruct (DeleteForCollection n Written am) as [r am'] eqn:E. by apply (DeleteFor_step am m) in E as [-> ?].
  - unfold Resolve. by rewrite Ha.
  - unfold Get. by rewrite Ha.
  - by rewrite List_eq, Ha.
  - by rewrite ListFor_set, Ha.
  - unfold NewAliasManager. destruct Hf as [Hf | [Hf ->]]; rewrite Hf; simpl.
    + rewrite Unmarshal_MarshalIndent by done. simpl. split; [done|]. split_and!; [done..|by left].
    + split; [done|]. split_and!; [done..|by right].
Qed.

Lemma alias_run_refines os am m : holds am m → Forall op_text os → run step am os = run spec_step m os.
Proof.
  revert am m. induction os as [|o os IH]; intros am m Hh HF; simpl; [done|].
  apply Forall_cons_iff in HF as [Ho HF]. destruct (alias_step_refines am m o Hh Ho) as [H1 H2].
  destruct (step am o), (spec_step m o). simpl in *. f_equal; [done|by apply IH].
Qed.

(** C15. While saves succeed, a manager started without a file answers every history
    of creations, deletions, switches, renames, lookups, listings and restarts like a
    map from aliases to names on which a restart does nothing. *)
Theorem aliases_refine_map am os :
  NewAliasManager None = Ok am → Forall op_text os → run step am os = run spec_step ∅ os.
Proof.
  intros [= <-]. apply alias_run_refines. split_and!; [done|apply map_Forall_empty|by right].
Qed.
End aliases.

(** ** A concrete file format: the bits of the map's number, a byte each *)

Fixpoint bit_bytes (p : positive) : list byte :=
  match p with xH => [] | xO p => x00 :: bit_bytes p | xI p => x01 :: bit_bytes p end.
Fixpoint of_bits (bs : list byte) : positive :=
  match bs with [] => xH | b :: bs => if decide (b = x00) then xO (of_bits bs) else xI (of_bits bs) end.
Lemma of_bits_bytes p : of_bits (bit_bytes p) = p.
Proof. by induction p as [p IH|p IH|]; simpl; rewrite ?IH. Qed.

#[local] Program Instance bit_json : MapJson :=
  {| valid_text _ := true; MarshalIndent m := bit_bytes (encode m); Unmarshal bs := decode (of_bits bs) |}.
Next Obligation. intros. simpl. by rewrite of_bits_bytes, decode_encode. Qed.
#[local] Instance demo_order : MapOrder string := listed_order string.

Definition demo_history : list op :=
  [OCreate "prod" "docs_v1"; OCreate "prod" "docs_v2"; OSwitch "prod" "docs_v2"; ORestart;
   OResolve "prod"; ORename "docs_v2" "docs"; ORestart; OGet "prod"; ODeleteFor "docs"; OResolve "prod"].

Lemma aliases_refine_map_witness :
  run step (mkAliasManager ∅ None) demo_history =
  [RUnit (Ok tt); RUnit (Err ErrAliasExists); RUnit (Ok tt); RUnit (Ok tt); RName "docs_v2";
   RUnit (Ok tt); RUnit (Ok tt); RFound (Some "docs"); RUnit (Ok tt); RName "prod"].
Proof.
  etrans; [apply (aliases_refine_map (mkAliasManager ∅ None) demo_history); [reflexivity|repeat constructor]
          |vm_compute; reflexivity].
Defined.
