(* ===== verification/Ring.v ===== *)
(** * pkg/cluster/cluster.go: the consistent-hash ring

    Nodes are shared objects: the ring, the shard table and the membership map
    hold pointers to them, so that a state change is seen through each. A pointer
    is a location [loc] of a store. The ring itself is a sorted list of virtual
    nodes; [clockwise] lists them from the position of a key onwards, and the
    lookups are functions of that list. [ring_moves_only_its_keys] is the property
    consistent hashing is for. *)
From stdpp Require Import base gmap strings list fin_maps numbers sorting pretty.
From Stdlib Require Import Strings.Byte ZArith Lia.
From S2P Require Import Prelude.

#[local] Open Scope Z_scope.

(** ** Nodes *)

Inductive NodeState := NodeStateActive | NodeStateInactive | NodeStateSuspect | NodeStateLeaving.
#[export] Instance NodeState_eq_dec : EqDecision NodeState.
Proof. solve_decision. Defined.

Record Node := mkNode {
  nd_ID : string; nd_Address : string; nd_State : NodeState; nd_LastHeartbeat : Z;
  nd_Shards : list Z; nd_ReplicaShards : list Z; nd_Metadata : gmap string string
}.
Definition IsHealthy (n : Node) : bool := bool_decide (nd_State n = NodeStateActive).

Abbreviation loc := nat (only parsing).
Abbreviation store := (gmap nat Node) (only parsing).

(** ** [sort.Search]: binary search in [i, j) *)

Fixpoint search_loop (fuel : nat) (f : nat → bool) (i j : nat) : nat :=
  match fuel with
  | O => i
  | S fuel =>
      if (i <? j)%nat then
        let h := ((i + j) / 2)%nat in
        if f h then search_loop fuel f i h else search_loop fuel f (h + 1) j
      else i
  end.
Definition sort_Search (n : nat) (f : nat → bool) : nat := search_loop n f 0 n.

Lemma search_loop_spec fuel f n i j :
  (∀ a b, (a ≤ b < n)%nat → f a = true → f b = true) →
  (i ≤ j ≤ n)%nat → (j - i ≤ fuel)%nat →
  (∀ a, (a < i)%nat → f a = false) → (∀ a, (j ≤ a < n)%nat → f a = true) →
  (search_loop fuel f i j ≤ n)%nat ∧
  (∀ a, (a < search_loop fuel f i j)%nat → f a = false) ∧
  (∀ a, (search_loop fuel f i j ≤ a < n)%nat → f a = true).
Proof.
  intros Hm. revert i j. induction fuel as [|fuel IH]; intros i j Hij Hf Hlo Hhi; cbn [search_loop].
  { split_and!; [lia|done|intros; apply Hhi; lia]. }
  destruct (Nat.ltb_spec i j) as [Hlt|]; [|split_and!; [lia|done|intros; apply Hhi; lia]].
  pose proof (Nat.div_lt_upper_bound (i + j) 2 j ltac:(lia) ltac:(lia)).
  pose proof (Nat.div_le_lower_bound (i + j) 2 i ltac:(lia) ltac:(lia)).
  destruct (f ((i + j) / 2)%nat) eqn:Hh.
  - apply IH; [lia|lia|done|]. intros a Ha. apply (Hm ((i + j) / 2)%nat); [lia|done].
  - apply IH; [lia|lia| |intros; apply Hhi; lia]. intros a Ha.
    destruct (f a) eqn:Hfa; [|done]. rewrite <- Hh. symmetry. apply (Hm a); [lia|done].
Qed.

Lemma sort_Search_spec n f : (∀ a b, (a ≤ b < n)%nat → f a = true → f b = true) →
  (sort_Search n f ≤ n)%nat ∧ (∀ a, (a < sort_Search n f)%nat → f a = false) ∧
  (∀ a, (sort_Search n f ≤ a < n)%nat → f a = true).
Proof. intros Hm. apply search_loop_spec; [done|lia|lia|lia|lia]. Qed.

(** ** The ring *)

Record hashEntry := mkEntry { he_hash : Z; he_nodeID : string }.

Record HashRing := mkHashRing {
  hr_nodes : gmap string loc; hr_ring : list hashEntry; hr_virtualNodes : Z
}.

Section ring.
Context {sha : Sha256} {sorter : Sorter} {order : MapOrder string}.

Definition hashKey (key : string) : Z := be_get (take 4 (Sum256 (bytes_of_string key))).

Definition NewHashRing (virtualNodes : Z) : HashRing :=
  mkHashRing ∅ [] (if virtualNodes <? 1 then 150 else virtualNodes).

(** [fmt.Sprintf("%s-%d", id, i)] *)
Definition virtual_key (id : string) (i : Z) : string := id +:+ "-" +:+ pretty i.
Definition virtual_entries (id : string) (count : Z) : list hashEntry :=
  (λ i, mkEntry (hashKey (virtual_key id i)) id) <$> seqZ 0 count.

Definition hash_less (a b : hashEntry) : bool := he_hash a <? he_hash b.

Definition AddNode (id : string) (l : loc) (hr : HashRing) : HashRing :=
  mkHashRing (<[id := l]> (hr_nodes hr))
    (sort_Slice hash_less (hr_ring hr ++ virtual_entries id (hr_virtualNodes hr)))
    (hr_virtualNodes hr).

(** The loop compacts the slice in place. *)
Definition RemoveNode (id : string) (hr : HashRing) : HashRing :=
  mkHashRing (delete id (hr_nodes hr)) (filter (λ e, he_nodeID e ≠ id) (hr_ring hr)) (hr_virtualNodes hr).

Definition entry_hash (hr : HashRing) (i : nat) : Z :=
  match hr_ring hr !! i with Some e => he_hash e | None => 0 end.

(** The first position at or after a hash, wrapping around *)
Definition position (hr : HashRing) (hash : Z) : nat :=
  let idx := sort_Search (length (hr_ring hr)) (λ i, hash <=? entry_hash hr i) in
  if (length (hr_ring hr) <=? idx)%nat then 0%nat else idx.

(** [None] is the nil pointer. *)
Definition GetNode (hr : HashRing) (key : string) : option loc :=
  match hr_ring hr with
  | [] => None
  | _ => e ← hr_ring hr !! position hr (hashKey key); hr_nodes hr !! he_nodeID e
  end.

Definition healthy (st : store) (l : loc) : bool :=
  match st !! l with Some n => IsHealthy n | None => false end.

(** [k] entries are left to visit from offset [i]. *)
Fixpoint collect_nodes (st : store) (hr : HashRing) (idx : nat) (n : Z) (k i : nat)
    (nodes : list loc) (seen : gset string) : list loc :=
  match k with
  | O => nodes
  | S k =>
      if len nodes <? n then
        match hr_ring hr !! ((idx + i) `mod` length (hr_ring hr))%nat with
        | None => nodes
        | Some e =>
            let id := he_nodeID e in
            if decide (id ∈ seen) then collect_nodes st hr idx n k (S i) nodes seen
            else
              let nodes := match hr_nodes hr !! id with
                           | Some l => if healthy st l then nodes ++ [l] else nodes
                           | None => nodes
                           end in
              collect_nodes st hr idx n k (S i) nodes ({[id]} ∪ seen)
        end
      else nodes
  end.

Definition GetNodes (st : store) (hr : HashRing) (key : string) (n : Z) : list loc :=
  match hr_ring hr with
  | [] => []
  | _ => if n <=? 0 then []
         else collect_nodes st hr (position hr (hashKey key)) n (length (hr_ring hr)) 0 [] ∅
  end.

(** Copies of the nodes *)
Definition GetAllNodes (st : store) (hr : HashRing) : list Node :=
  omap (λ e, st !! snd e) (map_range (hr_nodes hr)).
End ring.

(** * The consistent-hash ring: lookups and membership changes
    A lookup visits the virtual nodes clockwise from the hash of its key and takes
    the first healthy nodes it meets. [GetNodes_preference] says so; the theorems
    on replica sets and on membership changes follow from it by list reasoning. *)

#[local] Open Scope Z_scope.

Section ring_theorems.
Context {sha : Sha256} {sorter : Sorter}.

Definition hash_le (a b : hashEntry) : Prop := he_hash a ≤ he_hash b.

(** ** Rings built by additions and removals; a new node is a new object. *)
Inductive reachable : HashRing → Prop :=
| reach_new v : reachable (NewHashRing v)
| reach_add id l hr : reachable hr → (∀ j, hr_nodes hr !! j = Some l → j = id) →
    reachable (AddNode id l hr)
| reach_remove id hr : reachable hr → reachable (RemoveNode id hr).

Record ring_ok (hr : HashRing) : Prop := mk_ring_ok {
  ok_sorted : StronglySorted hash_le (hr_ring hr);
  ok_ids : ∀ id, id ∈ he_nodeID <$> hr_ring hr ↔ is_Some (hr_nodes hr !! id);
  ok_inj : ∀ i j l, hr_nodes hr !! i = Some l → hr_nodes hr !! j = Some l → i = j;
  ok_virtual : 1 ≤ hr_virtualNodes hr
}.

Lemma sort_hash_sorted l : StronglySorted hash_le (sort_Slice hash_less l).
Proof.
  eapply StronglySorted_weaken; [|apply (sort_Slice_sorted hash_less (λ _, True))].
  - intros a b. unfold hash_less, hash_le. intros ?%Z.ltb_ge. done.
  - intros a b. unfold hash_less. intros ?%Z.ltb_lt. apply Z.ltb_ge. lia.
  - intros a b c _. unfold hash_less. intros ?%Z.ltb_ge ?%Z.ltb_ge. apply Z.ltb_ge. lia.
  - by apply Forall_true.
Qed.

Lemma virtual_ids id count j : j ∈ he_nodeID <$> virtual_entries id count ↔ j = id ∧ 1 ≤ count.
Proof.
  unfold virtual_entries. rewrite <- list_fmap_compose, list_elem_of_fmap. simpl. split.
  - intros (i & -> & Hi%elem_of_seqZ). split; [done|lia].
  - intros [-> Hc]. exists 0. split; [done|]. apply elem_of_seqZ. lia.
Qed.

Lemma ring_ok_remove x hr : ring_ok hr → ring_ok (RemoveNode x hr).
Proof.
  intros [Hs Hi Hj Hv]. split; simpl; [by apply StronglySorted_sublist_filter| | |done].
  - intros j. rewrite list_elem_of_fmap. setoid_rewrite list_elem_of_filter. split.
    + intros (e & -> & Hne & He). rewrite lookup_delete_ne by done. apply Hi.
      apply list_elem_of_fmap. by exists e.
    + intros [l [Hne Hl]%lookup_delete_Some].
      pose proof (proj2 (Hi j) (ex_intro _ l Hl)) as (e & -> & He)%list_elem_of_fmap.
      exists e. split_and!; [done|congruence|done].
  - intros i j l [_ ?]%lookup_delete_Some [_ ?]%lookup_delete_Some. eauto.
Qed.

Lemma reachable_ok hr : reachable hr → ring_ok hr.
Proof.
  induction 1 as [v|id l hr _ [Hs Hi Hj Hv] Hl|id hr _ Hok].
  - split; simpl; [constructor| |done|destruct (Z.ltb_spec v 1); lia].
    intros id. rewrite lookup_empty. split; [by intros ?%elem_of_nil|by intros [? ?]].
  - split; simpl; [apply sort_hash_sorted| | |done].
    + intros j. rewrite sort_Slice_perm, fmap_app, elem_of_app, virtual_ids, Hi.
      destruct (decide (j = id)) as [->|Hne]; [rewrite lookup_insert_eq; naive_solver|].
      rewrite lookup_insert_ne by done. naive_solver.
    + intros i j l'. rewrite !lookup_insert_Some. naive_solver.
  - by apply ring_ok_remove.
Qed.

(** ** The clockwise order from a hash *)

Definition clockwise (es : list hashEntry) (hash : Z) : list hashEntry :=
  filter (λ e, hash ≤ he_hash e) es ++ filter (λ e, ¬ hash ≤ he_hash e) es.

Lemma sorted_split es hash : StronglySorted hash_le es →
  es = filter (λ e, ¬ hash ≤ he_hash e) es ++ filter (λ e, hash ≤ he_hash e) es.
Proof.
  induction 1 as [|e es Hs IH He]; [done|]. rewrite !filter_cons.
  destruct (decide (hash ≤ he_hash e)) as [Hle|]; [|by rewrite decide_True by done; simpl; rewrite <- IH].
  rewrite decide_False by naive_solver.
  assert (Hnil : filter (λ e, ¬ hash ≤ he_hash e) es = []).
  { apply elem_of_nil_inv. intros x [Hx Hin]%list_elem_of_filter. rewrite Forall_forall in He.
    specialize (He x Hin). unfold hash_le in He. lia. }
  rewrite Hnil in *. simpl in *. by rewrite <- IH.
Qed.

Lemma position_clockwise hr hash : StronglySorted hash_le (hr_ring hr) →
  drop (position hr hash) (hr_ring hr) ++ take (position hr hash) (hr_ring hr) = clockwise (hr_ring hr) hash.
Proof.
  intros Hs. unfold position, clockwise. set (es := hr_ring hr) in *. pose proof (sorted_split es hash Hs) as Hsp.
  set (A := filter (λ e, ¬ hash ≤ he_hash e) es) in *. set (B := filter (λ e, hash ≤ he_hash e) es) in *.
  assert (Hidx : sort_Search (length es) (λ i, hash <=? entry_hash hr i) = length A).
  { assert (Hf : ∀ i, (i < length es)%nat → (hash <=? entry_hash hr i) = negb (i <? length A)%nat).
    { intros i Hi. unfold entry_hash. fold es. rewrite Hsp. destruct (Nat.ltb_spec i (length A)) as [HA|HA].
      - rewrite lookup_app_l by done. destruct (lookup_lt_is_Some_2 A i HA) as [e He]. rewrite He.
        apply list_elem_of_lookup_2, list_elem_of_filter in He as [He _]. simpl. apply Z.leb_gt. lia.
      - rewrite lookup_app_r by done. rewrite Hsp, length_app in Hi.
        destruct (lookup_lt_is_Some_2 B (i - length A) ltac:(lia)) as [e He]. rewrite He.
        apply list_elem_of_lookup_2, list_elem_of_filter in He as [He _]. simpl. apply Z.leb_le. lia. }
    assert (HA : (length A ≤ length es)%nat) by (rewrite Hsp, length_app; lia).
    destruct (sort_Search_spec (length es) (λ i, hash <=? entry_hash hr i)) as (H1 & H2 & H3).
    { intros a b Hab. rewrite !Hf by lia. destruct (Nat.ltb_spec a (length A)), (Nat.ltb_spec b (length A)); try done; lia. }
    set (s := sort_Search _ _) in *. destruct (Nat.lt_trichotomy s (length A)) as [Hlt|[Heq|Hgt]]; [|done|].
    - specialize (H3 s ltac:(lia)). rewrite Hf in H3 by lia. destruct (Nat.ltb_spec s (length A)); [done|lia].
    - specialize (H2 (length A) Hgt). rewrite Hf in H2 by lia. destruct (Nat.ltb_spec (length A) (length A)); [lia|done]. }
  rewrite Hidx. destruct (Nat.leb_spec (length es) (length A)) as [Hle|Hlt].
  - assert (HB : B = []). { apply nil_length_inv. rewrite Hsp, length_app in Hle. lia. }
    rewrite drop_0, take_0, app_nil_r. rewrite HB in *. by rewrite Hsp, app_nil_r.
  - rewrite Hsp at 1 2. by rewrite drop_app_length, take_app_length.
Qed.

Lemma clockwise_filter (P : hashEntry → Prop) `{∀ e, Decision (P e)} es hash :
  clockwise (filter P es) hash = filter P (clockwise es hash).
Proof.
  unfold clockwise. rewrite filter_app, !list_filter_filter. f_equal; apply list_filter_iff; naive_solver.
Qed.

Lemma clockwise_perm es hash : clockwise es hash ≡ₚ es.
Proof. unfold clockwise. induction es as [|e es IH]; [done|]. rewrite !filter_cons.
  destruct (decide (hash ≤ he_hash e)); rewrite ?decide_True, ?decide_False by naive_solver; simpl; [by rewrite IH|].
  by rewrite <- Permutation_middle, IH.
Qed.

(** ** What a lookup returns *)

(** First occurrences *)
Fixpoint firsts (ids : list string) (seen : gset string) : list string :=
  match ids with
  | [] => []
  | id :: ids => if decide (id ∈ seen) then firsts ids seen else id :: firsts ids ({[id]} ∪ seen)
  end.

Lemma firsts_filter x ids seen : firsts (filter (λ id, id ≠ x) ids) seen = filter (λ id, id ≠ x) (firsts ids seen).
Proof.
  revert seen. induction ids as [|id ids IH]; intros seen; [done|].
  rewrite filter_cons. simpl. destruct (decide (id = x)) as [->|Hne].
  - rewrite decide_False by naive_solver. case_decide; [by rewrite IH|].
    rewrite filter_cons_False by naive_solver. rewrite <- IH. clear IH H.
    assert (Hx : ∀ l s s', x ∉ l → (∀ y, y ≠ x → y ∈ s ↔ y ∈ s') → firsts l s = firsts l s').
    { induction l as [|y l IHl]; intros s s' Hl Hs; [done|]. apply not_elem_of_cons in Hl as [Hy Hl]. simpl.
      assert (Hyy : y ∈ s ↔ y ∈ s') by naive_solver.
      rewrite (decide_ext _ _ _ _ Hyy). case_decide; [by apply IHl|]. f_equal. apply IHl; [done|]. set_solver. }
    apply Hx; [rewrite list_elem_of_filter; naive_solver|set_solver].
  - rewrite decide_True by done. simpl. case_decide; [by apply IH|].
    rewrite filter_cons_True by done. f_equal. apply IH.
Qed.

Lemma firsts_elem ids seen id : id ∈ firsts ids seen ↔ id ∈ ids ∧ id ∉ seen.
Proof.
  revert seen. induction ids as [|x ids IH]; intros seen; simpl; [set_solver|].
  case_decide; [rewrite IH; set_solver|]. rewrite elem_of_cons, IH. 
  destruct (decide (id = x)) as [->|]; set_solver.
Qed.

Lemma firsts_NoDup ids seen : NoDup (firsts ids seen).
Proof.
  revert seen. induction ids as [|x ids IH]; intros seen; simpl; [constructor|].
  case_decide; [done|]. constructor; [|done]. rewrite firsts_elem. set_solver.
Qed.

(** The pointer of a healthy node *)
Definition serving (st : store) (nodes : gmap string loc) (id : string) : option loc :=
  l ← nodes !! id; if healthy st l then Some l else None.

Definition preference (st : store) (hr : HashRing) (hash : Z) : list loc :=
  omap (serving st (hr_nodes hr)) (firsts (he_nodeID <$> clockwise (hr_ring hr) hash) ∅).

Lemma rotated_lookup {A} (l : list A) idx i : (idx ≤ length l)%nat → (i < length l)%nat →
  l !! ((idx + i) `mod` length l)%nat = (drop idx l ++ take idx l) !! i.
Proof.
  intros Hidx Hi. destruct (decide (idx + i < length l)%nat) as [Hlt|Hge].
  - rewrite Nat.mod_small by done. rewrite lookup_app_l by (rewrite length_drop; lia).
    by rewrite lookup_drop.
  - rewrite lookup_app_r by (rewrite length_drop; lia). rewrite length_drop, lookup_take_lt by lia.
    f_equal. replace (idx + i)%nat with (i - (length l - idx) + 1 * length l)%nat by lia.
    rewrite Nat.Div0.mod_add. apply Nat.mod_small. lia.
Qed.

Lemma collect_nodes_spec st hr idx n k i nodes seen :
  (idx ≤ length (hr_ring hr))%nat → (i + k = length (hr_ring hr))%nat → len nodes ≤ n →
  collect_nodes st hr idx n k i nodes seen =
  nodes ++ take (Z.to_nat n - length nodes)
    (omap (serving st (hr_nodes hr))
       (firsts (he_nodeID <$> drop i (drop idx (hr_ring hr) ++ take idx (hr_ring hr))) seen)).
Proof.
  intros Hidx. set (es := drop idx (hr_ring hr) ++ take idx (hr_ring hr)).
  assert (Hlen : length es = length (hr_ring hr)) by (unfold es; rewrite length_app, length_drop, length_take; lia).
  revert i nodes seen. induction k as [|k IH]; intros i nodes seen Hik Hn; cbn [collect_nodes].
  { rewrite drop_ge by lia. simpl. by rewrite take_nil, app_nil_r. }
  destruct (Z.ltb_spec (len nodes) n) as [Hlt|Hge].
  2: { replace (Z.to_nat n - length nodes)%nat with 0%nat by (unfold len in *; lia). by rewrite take_0, app_nil_r. }
  rewrite rotated_lookup by lia. fold es.
  destruct (lookup_lt_is_Some_2 es i ltac:(lia)) as [e He]. rewrite He, (drop_S _ _ _ He). simpl.
  destruct (decide (he_nodeID e ∈ seen)); [by apply IH; [lia|]|]. simpl.
  change (serving st (hr_nodes hr) (he_nodeID e)) with
    (l ← hr_nodes hr !! he_nodeID e; if healthy st l then Some l else None).
  destruct (hr_nodes hr !! he_nodeID e) as [l|]; simpl; [|by apply IH; [lia|]].
  destruct (healthy st l); simpl; [|by apply IH; [lia|]].
  rewrite IH by (unfold len in *; rewrite ?length_app; simpl; lia).
  replace (Z.to_nat n - length nodes)%nat with (S (Z.to_nat n - length (nodes ++ [l]))%nat)
    by (unfold len in *; rewrite length_app; simpl; lia).
  simpl. by rewrite <- app_assoc.
Qed.

Lemma GetNodes_preference st hr key n : ring_ok hr →
  GetNodes st hr key n = take (Z.to_nat n) (preference st hr (hashKey key)).
Proof.
  intros Hok. unfold GetNodes, preference. destruct (hr_ring hr) as [|e es] eqn:Hr.
  { simpl. by rewrite take_nil. }
  destruct (Z.leb_spec n 0) as [Hn|Hn]; [by replace (Z.to_nat n) with 0%nat by lia|].
  rewrite <- Hr, collect_nodes_spec; [|unfold position; case_match; simpl; try lia|lia|unfold len; simpl; lia].
  - rewrite drop_0, position_clockwise by apply Hok. by rewrite Nat.sub_0_r.
  - match goal with H : (_ <=? _)%nat = false |- _ => apply Nat.leb_gt in H; lia end.
Qed.

Lemma serving_Some st nodes id l : serving st nodes id = Some l ↔ nodes !! id = Some l ∧ healthy st l = true.
Proof. unfold serving. rewrite bind_Some. split; [intros (? & ? & ?); case_match; naive_solver|].
  intros [? Hh]. exists l. by rewrite Hh. Qed.

Lemma preference_elem st hr hash l : ring_ok hr →
  l ∈ preference st hr hash ↔ (∃ id, hr_nodes hr !! id = Some l) ∧ healthy st l = true.
Proof.
  intros Hok. unfold preference. rewrite list_elem_of_omap. split.
  - intros (id & _ & [? ?]%serving_Some). eauto.
  - intros [[id Hid] Hh]. exists id. split; [|by apply serving_Some].
    rewrite firsts_elem, clockwise_perm, (ok_ids _ Hok). split; [by exists l|set_solver].
Qed.

Lemma NoDup_omap_inj {A B} (f : A → option B) l :
  (∀ x y b, f x = Some b → f y = Some b → x = y) → NoDup l → NoDup (omap f l).
Proof.
  intros Hf. induction 1 as [|x l Hx Hl IH]; simpl; [constructor|]. destruct (f x) as [b|] eqn:Hb; [|done].
  constructor; [|done]. rewrite list_elem_of_omap. intros (y & Hy & Hfy). by rewrite (Hf x y b) in Hx.
Qed.

Lemma preference_NoDup st hr hash : ring_ok hr → NoDup (preference st hr hash).
Proof.
  intros Hok. apply NoDup_omap_inj; [|apply firsts_NoDup].
  intros x y l [? _]%serving_Some [? _]%serving_Some. by eapply ok_inj.
Qed.

(** The healthy nodes of the ring *)
Definition healthy_nodes (st : store) (hr : HashRing) : list loc :=
  filter (λ l, healthy st l = true) (map_to_list (hr_nodes hr)).*2.

Lemma preference_perm st hr hash : ring_ok hr → preference st hr hash ≡ₚ healthy_nodes st hr.
Proof.
  intros Hok. apply NoDup_Permutation; [by apply preference_NoDup| |].
  - apply NoDup_filter. apply NoDup_fmap_2_strong; [|apply NoDup_map_to_list].
    intros [i l] [j l'] Hi%elem_of_map_to_list Hj%elem_of_map_to_list Hl. simpl in *. subst l'.
    by rewrite (ok_inj _ Hok i j l).
  - intros l. rewrite preference_elem by done. unfold healthy_nodes.
    rewrite list_elem_of_filter, list_elem_of_fmap. split.
    + intros [[id Hid] Hh]. split; [done|]. exists (id, l). split; [done|by apply elem_of_map_to_list].
    + intros [Hh ([id l'] & -> & Hin%elem_of_map_to_list)]. eauto.
Qed.

Lemma GetNodes_elem st hr key n l : ring_ok hr →
  l ∈ GetNodes st hr key n → (∃ id, hr_nodes hr !! id = Some l) ∧ healthy st l = true.
Proof.
  intros Hok Hl. apply (preference_elem st hr (hashKey key)); [done|].
  rewrite GetNodes_preference in Hl by done. eapply elem_of_sublist; [done|apply sublist_take].
Qed.

(** For every key and every number of replicas, the lookup returns distinct
    healthy nodes of the ring, as many as asked for or all that are healthy, and
    fewer replicas are a prefix of more. *)
Theorem replica_sets st hr key n :
  reachable hr →
  NoDup (GetNodes st hr key n) ∧
  (∀ l, l ∈ GetNodes st hr key n → (∃ id, hr_nodes hr !! id = Some l) ∧ healthy st l = true) ∧
  len (GetNodes st hr key n) = Z.min (Z.max n 0) (len (healthy_nodes st hr)) ∧
  (∀ m, m ≤ n → GetNodes st hr key m = take (Z.to_nat m) (GetNodes st hr key n)).
Proof.
  intros Hok%reachable_ok. split_and!; [|by intros l; apply GetNodes_elem|..].
  all: rewrite !GetNodes_preference by done.
  - eapply sublist_NoDup; [apply preference_NoDup, Hok|apply sublist_take].
  - unfold len. rewrite length_take, (preference_perm st hr (hashKey key) Hok). lia.
  - intros m Hm. rewrite GetNodes_preference, take_take by done. f_equal. lia.
Qed.

(** ** Membership changes *)

Lemma omap_cons_eq {A B} (f : A → option B) x (l : list A) :
  omap f (x :: l) = match f x with Some y => y :: omap f l | None => omap f l end.
Proof. done. Qed.

Lemma omap_filter_ne st nodes x l (ids : list string) :
  nodes !! x = Some l → (∀ i j l, nodes !! i = Some l → nodes !! j = Some l → i = j) →
  omap (serving st (delete x nodes)) (filter (λ id, id ≠ x) ids) =
  filter (λ l', l' ≠ l) (omap (serving st nodes) ids).
Proof.
  intros Hx Hinj. induction ids as [|id ids IH]; [done|]. rewrite filter_cons, (omap_cons_eq (serving st nodes)).
  destruct (decide (id = x)) as [->|Hne].
  - rewrite decide_False by naive_solver. rewrite IH.
    destruct (serving st nodes x) as [l'|] eqn:Hs; [|done].
    apply serving_Some in Hs as [Hl _]. rewrite filter_cons_False; [done|]. naive_solver.
  - rewrite decide_True, omap_cons_eq, IH by done.
    assert (serving st (delete x nodes) id = serving st nodes id) as ->.
    { unfold serving. by rewrite lookup_delete_ne. }
    destruct (serving st nodes id) as [l'|] eqn:Hs; [|done].
    apply serving_Some in Hs as [Hl _]. rewrite filter_cons_True; [done|]. intros ->. apply Hne. by eapply Hinj.
Qed.

Lemma preference_RemoveNode st hr x l hash : ring_ok hr → hr_nodes hr !! x = Some l →
  preference st (RemoveNode x hr) hash = filter (λ l', l' ≠ l) (preference st hr hash).
Proof.
  intros Hok Hx. unfold preference. simpl. rewrite clockwise_filter.
  rewrite <- (omap_filter_ne _ _ x) by (done || apply Hok). f_equal.
  rewrite <- firsts_filter. f_equal. generalize (clockwise (hr_ring hr) hash) as es.
  induction es as [|e es IH]; [done|]. rewrite fmap_cons, !filter_cons.
  destruct (decide (he_nodeID e ≠ x)); [rewrite fmap_cons|]; by rewrite IH.
Qed.

Lemma take_filter_one {A} `{EqDecision A} (l : list A) x n : NoDup l →
  take n (filter (λ y, y ≠ x) (take (S n) l)) = take n (filter (λ y, y ≠ x) l) ∧
  (x ∉ take n l → take n (filter (λ y, y ≠ x) l) = take n l).
Proof.
  intros Hl. revert n. induction Hl as [|y l Hy Hl IH]; intros n; [by rewrite take_nil|].
  assert (Hid : ∀ k : list A, x ∉ k → filter (λ y, y ≠ x) k = k).
  { intros k Hk. apply filter_keep. by intros z Hz ->. }
  cbn [take]. destruct (decide (y = x)) as [->|Hne].
  - rewrite !filter_cons_False by naive_solver. rewrite !Hid.
    + split; [by rewrite take_take, Nat.min_id|]. destruct n; [done|]. cbn [take]. set_solver.
    + done.
    + intros Hin. apply Hy. eapply elem_of_sublist; [done|apply sublist_take].
  - rewrite !filter_cons_True by done. destruct n as [|n]; [done|]. cbn [take].
    destruct (IH n) as [-> H2]. split; [done|]. intros [? ?]%not_elem_of_cons. f_equal. by apply H2.
Qed.

Lemma RemoveNode_moves st hr x l key n : ring_ok hr → hr_nodes hr !! x = Some l → 0 ≤ n →
  GetNodes st (RemoveNode x hr) key n = take (Z.to_nat n) (filter (λ l', l' ≠ l) (GetNodes st hr key (n + 1))) ∧
  (l ∉ GetNodes st hr key n → GetNodes st (RemoveNode x hr) key n = GetNodes st hr key n).
Proof.
  intros Hok Hx Hn. pose proof (ring_ok_remove x hr Hok) as Hok'.
  rewrite !GetNodes_preference, (preference_RemoveNode _ _ x l) by done.
  replace (Z.to_nat (n + 1)) with (S (Z.to_nat n)) by lia.
  destruct (take_filter_one (preference st hr (hashKey key)) l (Z.to_nat n)) as [-> H2];
    [by apply preference_NoDup|done].
Qed.

Lemma RemoveNode_AddNode hr x l : ring_ok hr → hr_nodes hr !! x = None →
  NoDup (he_hash <$> hr_ring hr ++ virtual_entries x (hr_virtualNodes hr)) →
  RemoveNode x (AddNode x l hr) = hr.
Proof.
  intros Hok Hx Hnd. destruct hr as [nodes ring v]. unfold RemoveNode, AddNode. simpl in *. f_equal.
  { by apply delete_insert_id. }
  assert (Hp : filter (λ e, he_nodeID e ≠ x) (sort_Slice hash_less (ring ++ virtual_entries x v)) ≡ₚ ring).
  { rewrite sort_Slice_perm, filter_app. rewrite (filter_keep _ ring), (filter_nothing _ (virtual_entries x v)).
    - by rewrite app_nil_r.
    - intros e He. destruct (proj1 (virtual_ids x v (he_nodeID e))); [by apply list_elem_of_fmap_2|congruence].
    - intros e He <-. destruct (proj1 (ok_ids _ Hok (he_nodeID e))) as [? Hl]; [by apply list_elem_of_fmap_2|].
      simpl in Hl. congruence. }
  apply (StronglySorted_unique_strong hash_le); [|by apply StronglySorted_sublist_filter, sort_hash_sorted|apply Hok|done].
  intros a b Ha Hb Hab Hba. assert (Heq : he_hash a = he_hash b) by (unfold hash_le in *; lia).
  rewrite fmap_app in Hnd. apply NoDup_app in Hnd as [Hnd _]. rewrite Hp in Ha.
  apply list_elem_of_lookup in Ha as [i Ha], Hb as [j Hb].
  assert (i = j) as ->; [|congruence].
  apply (NoDup_lookup _ i j (he_hash a)) in Hnd; [done|by rewrite list_lookup_fmap, Ha|by rewrite list_lookup_fmap, Hb, Heq].
Qed.

(** C10. Consistent hashing: when a node leaves, the replica set of a key is the old
    preference list without that node, so that keys it did not hold keep their
    replica set; when a node joins and no two virtual nodes collide, it only inserts
    itself, so that keys it does not take keep their replica set. *)
Theorem ring_moves_only_its_keys st hr x l key n :
  reachable hr → 0 ≤ n →
  (hr_nodes hr !! x = Some l →
    GetNodes st (RemoveNode x hr) key n =
      take (Z.to_nat n) (filter (λ l', l' ≠ l) (GetNodes st hr key (n + 1))) ∧
    (l ∉ GetNodes st hr key n → GetNodes st (RemoveNode x hr) key n = GetNodes st hr key n)) ∧
  (hr_nodes hr !! x = None → (∀ j, hr_nodes hr !! j ≠ Some l) →
    NoDup (he_hash <$> hr_ring hr ++ virtual_entries x (hr_virtualNodes hr)) →
    GetNodes st hr key n =
      take (Z.to_nat n) (filter (λ l', l' ≠ l) (GetNodes st (AddNode x l hr) key (n + 1))) ∧
    (l ∉ GetNodes st (AddNode x l hr) key n → GetNodes st (AddNode x l hr) key n = GetNodes st hr key n)).
Proof.
  intros Hr Hn. pose proof (reachable_ok hr Hr) as Hok. split.
  - intros Hx. by apply RemoveNode_moves.
  - intros Hx Hl Hnd. assert (Hok' : ring_ok (AddNode x l hr)).
    { apply reachable_ok. constructor; [done|]. intros j Hj. by apply Hl in Hj. }
    destruct (RemoveNode_moves st (AddNode x l hr) x l key n) as [H1 H2];
      [done|simpl; by rewrite lookup_insert_eq|done|].
    rewrite RemoveNode_AddNode in H1, H2 by done. split; [done|]. intros H. by rewrite H2.
Qed.
End ring_theorems.

(** ** Three nodes on a ring with two virtual nodes each *)

#[local, refine] Instance demo_sha : Sha256 :=
  {| Sum256 bs := [x00; x00; hd x00 bs; List.last bs x00] ++ repeat x00 28 |}.
Proof. done. Defined.
#[local] Existing Instance insertion_sorter.

Definition demo_node (id : string) (s : NodeState) : Node := mkNode id "" s 0 [] [] ∅.
Definition demo_store : store :=
  {[0%nat := demo_node "a" NodeStateActive; 1%nat := demo_node "b" NodeStateSuspect;
    2%nat := demo_node "c" NodeStateActive; 3%nat := demo_node "d" NodeStateActive]}.
Definition demo_ring : HashRing := AddNode "c" 2%nat (AddNode "b" 1%nat (AddNode "a" 0%nat (NewHashRing 2))).

Lemma demo_ring_reachable : reachable demo_ring.
Proof.
  unfold demo_ring. repeat apply reach_add; [apply reach_new|..]; intros j; simpl;
    rewrite ?lookup_insert_Some, ?lookup_empty; naive_solver.
Qed.

Lemma replica_sets_witness :
  GetNodes demo_store demo_ring "b1" 2 = [2%nat; 0%nat] ∧
  len (GetNodes demo_store demo_ring "b1" 5) = Z.min (Z.max 5 0) (len (healthy_nodes demo_store demo_ring)).
Proof.
  split; [vm_compute; reflexivity|].
  apply (replica_sets demo_store demo_ring "b1" 5 demo_ring_reachable).
Defined.

Lemma ring_moves_only_its_keys_witness :
  GetNodes demo_store (RemoveNode "c" demo_ring) "b1" 2 = [0%nat] ∧
  GetNodes demo_store demo_ring "b1" 2 =
    take 2 (filter (λ l', l' ≠ 3%nat) (GetNodes demo_store (AddNode "d" 3%nat demo_ring) "b1" 3)).
Proof.
  destruct (ring_moves_only_its_keys demo_store demo_ring "c" 2%nat "b1" 2 demo_ring_reachable) as [H _]; [lia|].
  destruct (ring_moves_only_its_keys demo_store demo_ring "d" 3%nat "b1" 2 demo_ring_reachable) as [_ H']; [lia|].
  split.
  - destruct H as [H _]; [vm_compute; reflexivity|]. rewrite H. vm_compute. reflexivity.
  - apply H'; [vm_compute; reflexivity| |].
    + clear. intros j Hj. assert (Hall : map_Forall (λ _ l, l ≠ 3%nat) (hr_nodes demo_ring)).
      { apply (bool_decide_unpack _). vm_compute. exact I. }
      by apply (Hall j) in Hj.
    + apply (bool_decide_unpack _). vm_compute. exact I.
Defined.
