(* ===== verification/Cluster.v ===== *)
(** * pkg/cluster/cluster.go: shard assignment and membership

    The shard manager assigns the shards of the cluster to the nodes of a ring; the
    coordinator keeps the membership, detects silent members and reports changes
    on a channel of 100 events. Nodes are shared objects in the coordinator's store
    (see the ring). A send on a full channel blocks the caller: [EBlocked]. Times
    are nanoseconds. *)
From stdpp Require Import base gmap strings list fin_maps numbers infinite sorting.
From Stdlib Require Import Strings.Byte ZArith Lia Floats.SpecFloat.
From S2P Require Import Prelude Float32 Ring.

#[local] Open Scope Z_scope.

Inductive clusterError := EBlocked | EInsufficientAcks.

Section cluster.
Context {sha : Sha256} {sorter : Sorter} {order : MapOrder string} {zorder : MapOrder Z}.

(** ** Shards *)

Inductive ShardState := ShardStateActive | ShardStateRecovering | ShardStateRebalancing.

Record Shard := mkShard {
  sh_ID : Z; sh_Primary : string; sh_Replicas : list string; sh_State : ShardState
}.

Record ShardManager := mkShardManager {
  sm_shards : gmap Z Shard; sm_shardCount : Z; sm_replication : Z; sm_hashRing : HashRing
}.

Definition new_shards (count : Z) : gmap Z Shard :=
  foldl (λ m i, <[i := mkShard i "" [] ShardStateActive]> m) ∅ (seqZ 0 count).

Definition NewShardManager (shardCount replicationFactor : Z) : ShardManager :=
  let shardCount := u32 (if shardCount <? 0 then 16 else shardCount) in
  mkShardManager (new_shards shardCount) shardCount replicationFactor (NewHashRing 150).

(** The remainder by zero panics. *)
Definition GetShardForKey (sm : ShardManager) (key : string) : result clusterError Z :=
  if sm_shardCount sm =? 0 then Panic else Ok (hashKey key `mod` sm_shardCount sm).

Definition GetNodesForKey (st : store) (sm : ShardManager) (key : string) : list loc :=
  GetNodes st (sm_hashRing sm) key (sm_replication sm).

Definition GetShard (sm : ShardManager) (shardID : Z) : option Shard := sm_shards sm !! shardID.

Definition GetShards (sm : ShardManager) : gmap Z Shard :=
  foldl (λ m '(id, s), <[id := mkShard (sh_ID s) (sh_Primary s) (sh_Replicas s) (sh_State s)]> m) ∅
    (map_range (sm_shards sm)).

(** [nodes[i].ID] *)
Definition node_id (nodes : list Node) (i : Z) : string :=
  match nodes !! Z.to_nat i with Some n => nd_ID n | None => "" end.

(** [make] panics for a negative capacity, a missing shard is a nil pointer. *)
Definition assign_shard (nodes : list Node) (replication shardID : Z) (m : gmap Z Shard) :
    result clusterError (gmap Z Shard) :=
  match m !! shardID with
  | None => Panic
  | Some s =>
      let primaryIdx := shardID `mod` len nodes in
      if replication - 1 <? 0 then Panic else
      let replicas := (λ r, node_id nodes ((primaryIdx + r) `mod` len nodes)) <$>
                      seqZ 1 (Z.min replication (len nodes) - 1) in
      Ok (<[shardID := mkShard (sh_ID s) (node_id nodes primaryIdx) replicas (sh_State s)]> m)
  end.

Fixpoint assign_shards (nodes : list Node) (replication : Z) (ids : list Z) (m : gmap Z Shard) :
    result clusterError (gmap Z Shard) :=
  match ids with
  | [] => Ok m
  | id :: ids => m ← assign_shard nodes replication id m; assign_shards nodes replication ids m
  end.

Definition rebalanceShards (st : store) (sm : ShardManager) : result clusterError ShardManager :=
  let nodes := GetAllNodes st (sm_hashRing sm) in
  if len nodes =? 0 then Ok sm else
  m ← assign_shards nodes (sm_replication sm) (seqZ 0 (sm_shardCount sm)) (sm_shards sm);
  Ok (mkShardManager m (sm_shardCount sm) (sm_replication sm) (sm_hashRing sm)).

Definition set_ring (hr : HashRing) (sm : ShardManager) : ShardManager :=
  mkShardManager (sm_shards sm) (sm_shardCount sm) (sm_replication sm) hr.

Definition sm_AddNode (st : store) (id : string) (l : loc) (sm : ShardManager) : result clusterError ShardManager :=
  rebalanceShards st (set_ring (AddNode id l (sm_hashRing sm)) sm).

Definition sm_RemoveNode (st : store) (id : string) (sm : ShardManager) : result clusterError ShardManager :=
  rebalanceShards st (set_ring (RemoveNode id (sm_hashRing sm)) sm).

(** A copy of the node, or nil *)
Definition GetPrimaryNode (st : store) (sm : ShardManager) (shardID : Z) : option Node :=
  s ← sm_shards sm !! shardID;
  head (filter (λ n, nd_ID n = sh_Primary s) (GetAllNodes st (sm_hashRing sm))).

(** ** The coordinator *)

Record Config := mkConfig {
  cf_NodeID : string; cf_AdvertiseAddr : string; cf_ReplicationFactor : Z; cf_ShardCount : Z;
  cf_FailureTimeout : Z
}.

Inductive MemberEventType := MemberEventJoin | MemberEventLeave | MemberEventFailed.
Record MemberEvent := mkEvent { me_Type : MemberEventType; me_Node : loc; me_Time : Z }.

Record Coordinator := mkCoordinator {
  co_store : store;
  co_config : Config;
  co_localNode : loc;
  co_shardManager : ShardManager;
  co_hashRing : HashRing;
  co_members : gmap string loc;
  co_memberCh : list MemberEvent;
  co_isLeader : bool;
  co_leaderID : string
}.
#[local] Abbreviation CM := (M Coordinator clusterError).

Definition set_store (st : store) (c : Coordinator) : Coordinator :=
  mkCoordinator st (co_config c) (co_localNode c) (co_shardManager c) (co_hashRing c) (co_members c)
    (co_memberCh c) (co_isLeader c) (co_leaderID c).
Definition set_membership (m : gmap string loc) (hr : HashRing) (c : Coordinator) : Coordinator :=
  mkCoordinator (co_store c) (co_config c) (co_localNode c) (co_shardManager c) hr m
    (co_memberCh c) (co_isLeader c) (co_leaderID c).
Definition set_shardManager (sm : ShardManager) (c : Coordinator) : Coordinator :=
  mkCoordinator (co_store c) (co_config c) (co_localNode c) sm (co_hashRing c) (co_members c)
    (co_memberCh c) (co_isLeader c) (co_leaderID c).
Definition set_memberCh (es : list MemberEvent) (c : Coordinator) : Coordinator :=
  mkCoordinator (co_store c) (co_config c) (co_localNode c) (co_shardManager c) (co_hashRing c) (co_members c)
    es (co_isLeader c) (co_leaderID c).

(** A new object *)
Definition alloc (n : Node) : CM loc :=
  c ← get;
  let l := fresh (dom (co_store c)) in
  put (set_store (<[l := n]> (co_store c)) c);; mret l.

Definition deref (l : loc) : CM Node :=
  c ← get; match co_store c !! l with Some n => mret n | None => panic end.

Definition with_state (s : NodeState) (n : Node) : Node :=
  mkNode (nd_ID n) (nd_Address n) s (nd_LastHeartbeat n) (nd_Shards n) (nd_ReplicaShards n) (nd_Metadata n).
Definition with_heartbeat (t : Z) (n : Node) : Node :=
  mkNode (nd_ID n) (nd_Address n) (nd_State n) t (nd_Shards n) (nd_ReplicaShards n) (nd_Metadata n).

(** A send on the buffered channel *)
Definition send (e : MemberEvent) : CM unit :=
  c ← get;
  if len (co_memberCh c) <? 100 then put (set_memberCh (co_memberCh c ++ [e]) c) else throw EBlocked.

Fixpoint send_all (es : list MemberEvent) : CM unit :=
  match es with [] => mret tt | e :: es => send e;; send_all es end.

(** A receive on the channel of [MemberEvents], when an event is there *)
Definition receive : CM (option MemberEvent) :=
  c ← get;
  match co_memberCh c with
  | [] => mret None
  | e :: es => put (set_memberCh es c);; mret (Some e)
  end.

Definition NewCoordinator (config : Config) : result clusterError Coordinator :=
  let localNode := mkNode (cf_NodeID config) (cf_AdvertiseAddr config) NodeStateActive 0 [] [] ∅ in
  let l := 0%nat in
  let st : store := {[l := localNode]} in
  let id := nd_ID localNode in
  sm ← sm_AddNode st id l (NewShardManager (cf_ShardCount config) (cf_ReplicationFactor config));
  Ok (mkCoordinator st config l sm (AddNode id l (NewHashRing 150)) {[id := l]} [] false "").

Definition sendHeartbeats (now : Z) : CM unit :=
  c ← get; n ← deref (co_localNode c);
  put (set_store (<[co_localNode c := with_heartbeat now n]> (co_store c)) c).

(** One member of the failure detector's loop; the store is shared with the rings. *)
Definition detect_member (timeout now : Z) (local : loc) (acc : result clusterError (store * list MemberEvent))
    (m : string * loc) : result clusterError (store * list MemberEvent) :=
  '(st, failed) ← acc;
  match st !! snd m, st !! local with
  | Some n, Some self =>
      if String.eqb (nd_ID n) (nd_ID self) then Ok (st, failed)
      else if now - nd_LastHeartbeat n >? timeout then
        match nd_State n with
        | NodeStateActive => Ok (<[snd m := with_state NodeStateSuspect n]> st, failed)
        | NodeStateSuspect => Ok (<[snd m := with_state NodeStateInactive n]> st,
                                  failed ++ [mkEvent MemberEventFailed (snd m) now])
        | _ => Ok (st, failed)
        end
      else Ok (st, failed)
  | _, _ => Panic
  end.

Definition detectFailures (now : Z) : CM unit :=
  c ← get;
  '(st, failed) ← lift (foldl (detect_member (cf_FailureTimeout (co_config c)) now (co_localNode c))
                          (Ok (co_store c, [])) (map_range (co_members c)));
  put (set_store st c);; send_all failed.

Definition AddMember (l : loc) (now later : Z) : CM unit :=
  n ← deref l;
  modify (λ c, set_store (<[l := with_heartbeat now (with_state NodeStateActive n)]> (co_store c)) c);;
  modify (λ c, set_membership (<[nd_ID n := l]> (co_members c)) (AddNode (nd_ID n) l (co_hashRing c)) c);;
  c ← get;
  sm ← lift (sm_AddNode (co_store c) (nd_ID n) l (co_shardManager c));
  put (set_shardManager sm c);;
  send (mkEvent MemberEventJoin l later).

Definition RemoveMember (nodeID : string) (now : Z) : CM unit :=
  c ← get;
  match co_members c !! nodeID with
  | None => mret tt
  | Some l =>
      put (set_membership (delete nodeID (co_members c)) (RemoveNode nodeID (co_hashRing c)) c);;
      sm ← lift (sm_RemoveNode (co_store c) nodeID (co_shardManager c));
      modify (set_shardManager sm);;
      send (mkEvent MemberEventLeave l now)
  end.

(** Copies of the members *)
Definition GetMembers (c : Coordinator) : list Node := omap (λ m, co_store c !! snd m) (map_range (co_members c)).

Definition GetLocalNode (c : Coordinator) : loc := co_localNode c.
Definition IsLeader (c : Coordinator) : bool := co_isLeader c.
Definition SetLeader (isLeader : bool) (leaderID : string) (c : Coordinator) : Coordinator :=
  mkCoordinator (co_store c) (co_config c) (co_localNode c) (co_shardManager c) (co_hashRing c) (co_members c)
    (co_memberCh c) isLeader leaderID.

Definition co_GetShardForKey (c : Coordinator) (key : string) : result clusterError Z :=
  GetShardForKey (co_shardManager c) key.
Definition co_GetNodesForKey (c : Coordinator) (key : string) : list loc :=
  GetNodesForKey (co_store c) (co_shardManager c) key.

Record ClusterState := mkClusterState {
  st_Version : Z; st_Members : list Node; st_Shards : gmap Z Shard; st_LeaderID : string; st_Timestamp : Z
}.
Definition GetState (c : Coordinator) (now : Z) : ClusterState :=
  mkClusterState 1 (GetMembers c) (GetShards (co_shardManager c)) (co_leaderID c) now.

(** ** Search and replication

    The calls to other nodes are not written yet in the source: [searchShard]
    returns no results and [sendToNode] succeeds. *)

Record SearchResult := mkSearchResult { sr_ID : string; sr_Score : f32 }.
Record ShardResult := mkShardResult { rs_ShardID : Z; rs_NodeID : string; rs_Count : Z; rs_Error : string }.
Record shardSearchResult := mkShardSearchResult {
  ss_ShardID : Z; ss_NodeID : string; ss_Results : list SearchResult; ss_Error : string
}.

Definition searchShard (c : Coordinator) (shardID : Z) : shardSearchResult :=
  match GetPrimaryNode (co_store c) (co_shardManager c) shardID with
  | None => mkShardSearchResult shardID "" [] "no node available for shard"
  | Some n => mkShardSearchResult shardID (nd_ID n) [] ""
  end.

(** Scores in descending order, cut to [k] *)
Definition merge_results (k : Z) (all : list SearchResult) : result clusterError (list SearchResult) :=
  let all := sort_Slice (λ a b, flt (sr_Score b) (sr_Score a)) all in
  if len all >? k then slice all 0 k else Ok all.

(** [arrivals] are the shards in the order in which their goroutines answer. *)
Definition DistributedSearch (c : Coordinator) (arrivals : list Z) (k : Z) :
    result clusterError (list SearchResult * list ShardResult) :=
  let answers := searchShard c <$> arrivals in
  results ← merge_results k (answers ≫= ss_Results);
  Ok (results, (λ a, mkShardResult (ss_ShardID a) (ss_NodeID a) (len (ss_Results a)) (ss_Error a)) <$> answers).

Definition sendToNode (l : loc) (data : list byte) : bool := true.

Definition ReplicateWrite (c : Coordinator) (key : string) (data : list byte) : result clusterError unit :=
  let nodes := co_GetNodesForKey c key in
  if len nodes <? 2 then Ok tt else
  let errs := filter (λ l, sendToNode l data = false) (drop 1 nodes) in
  let successCount := len nodes - 1 - len errs in
  let requiredAcks := (len nodes + 1) `quot` 2 in
  if successCount <? requiredAcks then Err EInsufficientAcks else Ok tt.
End cluster.

(** * Membership, shard assignment and failure detection
    [cluster_ok] is the invariant of the coordinator: the membership map, its ring
    and the ring of the shard manager name the same objects, and every shard is
    assigned round robin over the members. Every operation keeps it, also when it
    blocks on the event channel. *)

Section cluster_theorems.
Context {sha : Sha256} {sorter : Sorter} {order : MapOrder string} {zorder : MapOrder Z}.
Implicit Types (c : Coordinator) (sm : ShardManager) (st : store).

(** ** Histories *)

Inductive cop :=
| OJoin (n : Node) (now later : Z) | OLeave (id : string) (now : Z)
| ODetect (now : Z) | OHeartbeat (now : Z) | OReceive.

Definition cstep (o : cop) : M Coordinator clusterError unit :=
  match o with
  | OJoin n now later => l ← alloc n; AddMember l now later
  | OLeave id now => RemoveMember id now
  | ODetect now => detectFailures now
  | OHeartbeat now => sendHeartbeats now
  | OReceive => _ ← receive; mret tt
  end.
Definition crun (c : Coordinator) (os : list cop) : Coordinator := foldl (λ c o, snd (cstep o c)) c os.

(** ** Round robin *)

Definition id_at (ids : list string) (i : Z) : string := default "" (ids !! Z.to_nat i).

Definition assigned (ids : list string) (replication count : Z) (m : gmap Z Shard) : Prop :=
  ∀ i, 0 ≤ i < count → ∃ s, m !! i = Some s ∧
    sh_Primary s = id_at ids (i `mod` len ids) ∧
    sh_Replicas s = (λ r, id_at ids ((i `mod` len ids + r) `mod` len ids)) <$>
                    seqZ 1 (Z.min replication (len ids) - 1).

Lemma node_id_at nodes i : node_id nodes i = id_at (nd_ID <$> nodes) i.
Proof. unfold node_id, id_at. rewrite list_lookup_fmap. by destruct (nodes !! Z.to_nat i). Qed.

Definition round_robin (nodes : list Node) (replication i : Z) (s : Shard) : Prop :=
  sh_Primary s = id_at (nd_ID <$> nodes) (i `mod` len nodes) ∧
  sh_Replicas s = (λ r, id_at (nd_ID <$> nodes) ((i `mod` len nodes + r) `mod` len nodes)) <$>
                  seqZ 1 (Z.min replication (len nodes) - 1).

Lemma assign_shard_ok nodes replication i m : 1 ≤ replication → is_Some (m !! i) →
  ∃ s, assign_shard nodes replication i m = Ok (<[i := s]> m) ∧ round_robin nodes replication i s.
Proof.
  intros Hr [s Hs]. unfold assign_shard. rewrite Hs. destruct (Z.ltb_spec (replication - 1) 0); [lia|].
  eexists. split; [done|]. split; simpl; [apply node_id_at|].
  apply list_fmap_ext. intros. apply node_id_at.
Qed.

Lemma assign_shards_ok nodes replication (ids : list Z) m :
  1 ≤ replication → (∀ i, i ∈ ids → is_Some (m !! i)) → NoDup ids →
  ∃ m', assign_shards nodes replication ids m = Ok m' ∧ dom m' = dom m ∧
    (∀ i, i ∉ ids → m' !! i = m !! i) ∧
    ∀ i, i ∈ ids → ∃ s, m' !! i = Some s ∧ round_robin nodes replication i s.
Proof.
  intros Hr. revert m. induction ids as [|i ids IH]; intros m Hm Hnd; simpl.
  { exists m. split_and!; [done..|]. by intros i ?%elem_of_nil. }
  apply NoDup_cons in Hnd as [Hi Hnd].
  destruct (assign_shard_ok nodes replication i m Hr) as (s & -> & Hs); [apply Hm; by left|].
  rewrite Ok_bind. destruct (IH (<[i := s]> m)) as (m' & -> & Hd & Ho & Hin); [|done|].
  { intros j Hj. rewrite lookup_insert_is_Some'. right. apply Hm. by right. }
  exists m'. split_and!; [done| | |].
  - rewrite Hd. apply dom_insert_lookup_L, Hm. by left.
  - intros j [? ?]%not_elem_of_cons. by rewrite Ho, lookup_insert_ne by done.
  - intros j [->|Hj]%elem_of_cons; [|by apply Hin]. exists s. by rewrite Ho, lookup_insert_eq by done.
Qed.

(** ** The invariant *)

Record cluster_ok (c : Coordinator) : Prop := mk_cluster_ok {
  ok_ring : hr_nodes (co_hashRing c) = co_members c ∧ reachable (co_hashRing c);
  ok_sm_ring : hr_nodes (sm_hashRing (co_shardManager c)) = co_members c ∧
               reachable (sm_hashRing (co_shardManager c));
  ok_objects : ∀ id l, co_members c !! id = Some l → ∃ n, co_store c !! l = Some n ∧ nd_ID n = id;
  ok_local : ∃ n, co_store c !! co_localNode c = Some n ∧ nd_ID n = cf_NodeID (co_config c);
  ok_shards : ∀ i, 0 ≤ i < sm_shardCount (co_shardManager c) → is_Some (sm_shards (co_shardManager c) !! i);
  ok_replication : 1 ≤ sm_replication (co_shardManager c);
  ok_assigned : co_members c ≠ ∅ → ∃ nodes,
    nd_ID <$> nodes ≡ₚ (map_to_list (co_members c)).*1 ∧
    ∀ i, 0 ≤ i < sm_shardCount (co_shardManager c) →
      ∃ s, sm_shards (co_shardManager c) !! i = Some s ∧
           round_robin nodes (sm_replication (co_shardManager c)) i s
}.

(** *** Rebalancing *)

Lemma GetAllNodes_ids st hr :
  (∀ id l, hr_nodes hr !! id = Some l → ∃ n, st !! l = Some n ∧ nd_ID n = id) →
  nd_ID <$> GetAllNodes st hr = (map_range (hr_nodes hr)).*1.
Proof.
  intros Ho. unfold GetAllNodes.
  assert (H : ∀ e, e ∈ map_range (hr_nodes hr) → ∃ n, st !! snd e = Some n ∧ nd_ID n = fst e).
  { intros [id l] He. rewrite map_range_perm in He. apply Ho. by apply elem_of_map_to_list. }
  revert H. generalize (map_range (hr_nodes hr)) as l. induction l as [|e l IH]; intros H; [done|].
  destruct (H e) as (n & Hn & Hid); [by left|]. rewrite omap_cons_eq, Hn, !fmap_cons, Hid.
  f_equal. apply IH. intros e' He'. apply H. by right.
Qed.

Lemma GetAllNodes_length st hr :
  (∀ id l, hr_nodes hr !! id = Some l → ∃ n, st !! l = Some n ∧ nd_ID n = id) →
  length (GetAllNodes st hr) = size (hr_nodes hr).
Proof.
  intros Ho. rewrite <- (length_fmap nd_ID), GetAllNodes_ids by done.
  by rewrite length_fmap, map_range_perm, length_map_to_list.
Qed.

Lemma rebalance_ok st sm :
  (∀ id l, hr_nodes (sm_hashRing sm) !! id = Some l → ∃ n, st !! l = Some n ∧ nd_ID n = id) →
  (∀ i, 0 ≤ i < sm_shardCount sm → is_Some (sm_shards sm !! i)) → 1 ≤ sm_replication sm →
  ∃ sm', rebalanceShards st sm = Ok sm' ∧
    sm_shardCount sm' = sm_shardCount sm ∧ sm_replication sm' = sm_replication sm ∧
    sm_hashRing sm' = sm_hashRing sm ∧
    (∀ i, 0 ≤ i < sm_shardCount sm → is_Some (sm_shards sm' !! i)) ∧
    (hr_nodes (sm_hashRing sm) ≠ ∅ → ∃ nodes,
      nd_ID <$> nodes ≡ₚ (map_to_list (hr_nodes (sm_hashRing sm))).*1 ∧
      ∀ i, 0 ≤ i < sm_shardCount sm →
        ∃ s, sm_shards sm' !! i = Some s ∧ round_robin nodes (sm_replication sm) i s).
Proof.
  intros Ho Hs Hr. unfold rebalanceShards. set (nodes := GetAllNodes st (sm_hashRing sm)).
  pose proof (GetAllNodes_length st _ Ho) as Hlen. fold nodes in Hlen.
  destruct (Z.eqb_spec (len nodes) 0) as [H0|H0].
  { exists sm. split_and!; [done..|]. intros Hne. destruct Hne. apply map_size_empty_inv.
    unfold len in H0. lia. }
  destruct (assign_shards_ok nodes (sm_replication sm) (seqZ 0 (sm_shardCount sm)) (sm_shards sm))
    as (m' & -> & Hd & _ & Hin); [done|intros i Hi%elem_of_seqZ; apply Hs; lia|apply NoDup_seqZ|].
  rewrite Ok_bind. eexists. split; [done|]. simpl. split_and!; [done..| |].
  - intros i Hi. destruct (Hin i) as (s & Hm & _); [apply elem_of_seqZ; lia|by exists s].
  - intros _. exists nodes. split; [unfold nodes; by rewrite GetAllNodes_ids, map_range_perm|].
    intros i Hi. apply Hin. apply elem_of_seqZ. lia.
Qed.

(** *** Operations keep the invariant *)

(** What an operation that does not fail in the model may answer *)
Definition benign {A} (r : result clusterError A) : Prop := match r with Ok _ | Err EBlocked => True | _ => False end.

Lemma ok_events c es : cluster_ok c → cluster_ok (set_memberCh es c).
Proof. intros []. by constructor. Qed.

Lemma send_ok e c : cluster_ok c →
  benign (fst (send e c)) ∧ cluster_ok (snd (send e c)) ∧ ∃ es, snd (send e c) = set_memberCh es c.
Proof.
  intros Hok. unfold send. unfold_M. destruct (len (co_memberCh c) <? 100); simpl.
  - split_and!; [done|by apply ok_events|by eexists].
  - split_and!; [done|done|]. exists (co_memberCh c). by destruct c.
Qed.

Lemma send_all_ok es c : cluster_ok c →
  benign (fst (send_all es c)) ∧ cluster_ok (snd (send_all es c)) ∧ ∃ es', snd (send_all es c) = set_memberCh es' c.
Proof.
  revert c. induction es as [|e es IH]; intros c Hok.
  { simpl. split_and!; [done|done|]. exists (co_memberCh c). by destruct c. }
  destruct (send_ok e c Hok) as (Hb & Hok1 & es1 & Hc1). cbn [send_all]. unfold mbind, M_bind.
  destruct (send e c) as [[[]|[]|] c1]; simpl in *; try done; [|by split_and!; [..|exists es1]].
  destruct (IH c1 Hok1) as (Hb2 & Hok2 & es2 & Hc2). split_and!; [done|done|].
  exists es2. rewrite Hc2, Hc1. by destruct c.
Qed.

(** What no operation changes *)
Definition same_node c c' : Prop :=
  co_localNode c' = co_localNode c ∧ co_config c' = co_config c ∧
  sm_replication (co_shardManager c') = sm_replication (co_shardManager c) ∧
  sm_shardCount (co_shardManager c') = sm_shardCount (co_shardManager c).

Lemma join_run n now later c : cluster_ok c → ∃ c',
  (l ← alloc n; AddMember l now later) c =
    send (mkEvent MemberEventJoin (fresh (dom (co_store c))) later) c' ∧
  cluster_ok c' ∧ same_node c c' ∧
  co_members c' = <[nd_ID n := fresh (dom (co_store c))]> (co_members c) ∧
  co_store c' = <[fresh (dom (co_store c)) := with_heartbeat now (with_state NodeStateActive n)]> (co_store c).
Proof.
  intros [[HR1 HR2] [HS1 HS2] Ho Hl Hs Hr Ha]. set (l := fresh (dom (co_store c))).
  assert (Hfresh : co_store c !! l = None) by (apply not_elem_of_dom, is_fresh).
  assert (Hnew : ∀ j, co_members c !! j ≠ Some l).
  { intros j (? & Hj & _)%Ho. congruence. }
  set (st2 := <[l := with_heartbeat now (with_state NodeStateActive n)]> (co_store c)).
  assert (Ho2 : ∀ id l', <[nd_ID n := l]> (co_members c) !! id = Some l' → ∃ n', st2 !! l' = Some n' ∧ nd_ID n' = id).
  { intros id l' [[<- <-]|[Hne Hid]]%lookup_insert_Some.
    - unfold st2. rewrite lookup_insert_eq. by eexists.
    - destruct (Ho id l' Hid) as (n' & Hn' & ?). exists n'. split; [|done]. unfold st2.
      rewrite lookup_insert_ne; [done|]. intros <-. by apply (Hnew id). }
  destruct (rebalance_ok st2 (set_ring (AddNode (nd_ID n) l (sm_hashRing (co_shardManager c))) (co_shardManager c)))
    as (sm' & Hreb & Hc & Hrep & Hring & Hsh & Has); [simpl; by rewrite HS1|done|done|].
  simpl in *. rewrite HS1 in Has.
  exists (set_shardManager sm' (set_membership (<[nd_ID n := l]> (co_members c)) (AddNode (nd_ID n) l (co_hashRing c))
            (set_store st2 c))).
  split_and!.
  - unfold alloc, AddMember, deref, sm_AddNode. unfold_M. simpl. fold l. rewrite lookup_insert_eq. simpl.
    rewrite insert_insert_eq. fold st2. by rewrite Hreb.
  - constructor; simpl.
    + rewrite HR1. split; [done|]. constructor; [done|]. intros j. rewrite HR1. by intros []%Hnew.
    + rewrite Hring. simpl. rewrite HS1. split; [done|]. constructor; [done|]. intros j. rewrite HS1. by intros []%Hnew.
    + done.
    + destruct Hl as (n' & Hn' & ?). exists n'. split; [|done]. unfold st2. rewrite lookup_insert_ne; [done|]. congruence.
    + by rewrite Hc.
    + by rewrite Hrep.
    + rewrite Hc, Hrep. done.
  - by repeat split.
  - done.
  - done.
Qed.

Lemma leave_run id l now c : cluster_ok c → co_members c !! id = Some l → ∃ c',
  RemoveMember id now c = send (mkEvent MemberEventLeave l now) c' ∧ cluster_ok c' ∧ same_node c c' ∧
  co_members c' = delete id (co_members c) ∧ co_store c' = co_store c.
Proof.
  intros [[HR1 HR2] [HS1 HS2] Ho Hl Hs Hr Ha] Hid.
  destruct (rebalance_ok (co_store c) (set_ring (RemoveNode id (sm_hashRing (co_shardManager c))) (co_shardManager c)))
    as (sm' & Hreb & Hc & Hrep & Hring & Hsh & Has); simpl in *; [|done|done|].
  { rewrite HS1. intros j l' [_ ?]%lookup_delete_Some. by apply Ho. }
  rewrite HS1 in Has.
  exists (set_shardManager sm' (set_membership (delete id (co_members c)) (RemoveNode id (co_hashRing c)) c)).
  split_and!.
  - unfold RemoveMember, sm_RemoveNode. unfold_M. rewrite Hid. simpl. by rewrite Hreb.
  - constructor; simpl.
    + rewrite HR1. split; [done|by constructor].
    + rewrite Hring. simpl. rewrite HS1. split; [done|by constructor].
    + intros j l' [_ ?]%lookup_delete_Some. by apply Ho.
    + done.
    + by rewrite Hc.
    + by rewrite Hrep.
    + rewrite Hc, Hrep. done.
  - by repeat split.
  - done.
  - done.
Qed.

(** A store that keeps the identities keeps the invariant. *)
Lemma ok_store st c : cluster_ok c →
  (∀ l n, co_store c !! l = Some n → ∃ n', st !! l = Some n' ∧ nd_ID n' = nd_ID n) →
  cluster_ok (set_store st c).
Proof.
  intros [HR HS Ho Hl Hs Hr Ha] Hst. constructor; simpl; try done.
  - intros id l (n & Hn & <-)%Ho. by apply Hst.
  - destruct Hl as (n & Hn & <-). by apply Hst.
Qed.

(** *** The failure detector *)

Definition advance (timeout now : Z) (self : string) (n : Node) : Node :=
  if String.eqb (nd_ID n) self then n
  else if now - nd_LastHeartbeat n >? timeout then
    match nd_State n with
    | NodeStateActive => with_state NodeStateSuspect n
    | NodeStateSuspect => with_state NodeStateInactive n
    | _ => n
    end
  else n.

Lemma advance_ID timeout now self n : nd_ID (advance timeout now self n) = nd_ID n.
Proof. unfold advance. repeat case_match; done. Qed.

Lemma detect_one timeout now local st fs m n self :
  st !! snd m = Some n → st !! local = Some self →
  ∃ fs', detect_member timeout now local (Ok (st, fs)) m =
         Ok (<[snd m := advance timeout now (nd_ID self) n]> st, fs ++ fs').
Proof.
  intros Hn Hs. unfold detect_member. rewrite Ok_bind. simpl. rewrite Hn, Hs. unfold advance.
  assert (Hsame : <[snd m := n]> st = st) by by apply insert_id.
  repeat case_match; try (exists []; by rewrite ?Hsame, app_nil_r).
  eexists. done.
Qed.

Lemma detect_all timeout now local ms st fs self :
  NoDup ms.*2 → (∀ l, l ∈ ms.*2 → is_Some (st !! l)) →
  (∃ n, st !! local = Some n ∧ nd_ID n = self) →
  ∃ st' fs', foldl (detect_member timeout now local) (Ok (st, fs)) ms = Ok (st', fs ++ fs') ∧
    ∀ l, st' !! l = if decide (l ∈ ms.*2) then advance timeout now self <$> st !! l else st !! l.
Proof.
  revert st fs. induction ms as [|m ms IH]; intros st fs Hnd Hin Hl; cbn [foldl].
  { exists st, []. split; [by rewrite app_nil_r|]. intros l. by rewrite decide_False by apply not_elem_of_nil. }
  rewrite fmap_cons in *. apply NoDup_cons in Hnd as [Hm Hnd].
  destruct (Hin (snd m)) as [n Hn]; [by left|]. destruct Hl as (self' & Hl & <-).
  destruct (detect_one timeout now local st fs m n self' Hn Hl) as (fs1 & ->).
  set (st1 := <[snd m := advance timeout now (nd_ID self') n]> st).
  destruct (IH st1 (fs ++ fs1) Hnd) as (st' & fs' & -> & Hst').
  { intros l Hl'. unfold st1. rewrite lookup_insert_is_Some'. right. apply Hin. by right. }
  { unfold st1. destruct (decide (snd m = local)) as [<-|Hne].
    - rewrite lookup_insert_eq. eexists. split; [done|]. rewrite advance_ID. congruence.
    - rewrite lookup_insert_ne by done. eauto. }
  exists st', (fs1 ++ fs'). split; [by rewrite app_assoc|]. intros l. rewrite Hst'. unfold st1.
  destruct (decide (l = snd m)) as [->|Hne].
  - rewrite decide_False by done. rewrite decide_True by by left. by rewrite lookup_insert_eq, Hn.
  - rewrite lookup_insert_ne by done.
    destruct (decide (l ∈ ms.*2)); [by rewrite decide_True by by right|].
    rewrite decide_False; [done|]. by intros [?|?]%elem_of_cons.
Qed.

Lemma members_inj c i j l : cluster_ok c → co_members c !! i = Some l → co_members c !! j = Some l → i = j.
Proof. intros Hok (n & Hn & <-)%(ok_objects _ Hok) (n' & Hn' & <-)%(ok_objects _ Hok). congruence. Qed.

Lemma members_locs c : cluster_ok c → NoDup (map_range (co_members c)).*2.
Proof.
  intros Hok. rewrite map_range_perm. apply NoDup_fmap_2_strong; [|apply NoDup_map_to_list].
  intros [i l] [j l'] Hi%elem_of_map_to_list Hj%elem_of_map_to_list Hl. simpl in *. subst l'.
  by rewrite (members_inj c i j l).
Qed.

Lemma member_loc c l : l ∈ (map_range (co_members c)).*2 ↔ ∃ id, co_members c !! id = Some l.
Proof.
  rewrite map_range_perm, list_elem_of_fmap. split.
  - intros ([id l'] & -> & Hin%elem_of_map_to_list). eauto.
  - intros [id Hid]. exists (id, l). split; [done|by apply elem_of_map_to_list].
Qed.

Lemma detect_run now c : cluster_ok c → ∃ st fs,
  detectFailures now c = send_all fs (set_store st c) ∧ cluster_ok (set_store st c) ∧
  (∀ id l, co_members c !! id = Some l →
     st !! l = advance (cf_FailureTimeout (co_config c)) now (cf_NodeID (co_config c)) <$> co_store c !! l).
Proof.
  intros Hok. destruct (detect_all (cf_FailureTimeout (co_config c)) now (co_localNode c)
    (map_range (co_members c)) (co_store c) [] (cf_NodeID (co_config c))) as (st & fs & Hf & Hst).
  { by apply members_locs. }
  { intros l [id Hid]%member_loc. destruct (ok_objects _ Hok id l Hid) as (n & -> & _). by eexists. }
  { exact (ok_local _ Hok). }
  exists st, fs. split_and!.
  - unfold detectFailures. unfold_M. by rewrite Hf.
  - apply ok_store; [done|]. intros l n Hn. rewrite Hst. case_decide; [|by exists n].
    rewrite Hn. simpl. eexists. split; [done|]. apply advance_ID.
  - intros id l Hid. rewrite Hst, decide_True; [done|]. apply member_loc. eauto.
Qed.

Lemma heartbeat_run now c : cluster_ok c → ∃ n, co_store c !! co_localNode c = Some n ∧
  sendHeartbeats now c = (Ok tt, set_store (<[co_localNode c := with_heartbeat now n]> (co_store c)) c) ∧
  cluster_ok (set_store (<[co_localNode c := with_heartbeat now n]> (co_store c)) c).
Proof.
  intros Hok. destruct (ok_local _ Hok) as (n & Hn & _). exists n. split_and!; [done| |].
  - unfold sendHeartbeats, deref. unfold_M. by rewrite Hn.
  - apply ok_store; [done|]. intros l n' Hn'. destruct (decide (l = co_localNode c)) as [->|].
    + rewrite lookup_insert_eq. eexists. split; [done|]. simpl. congruence.
    + rewrite lookup_insert_ne by done. eauto.
Qed.

(** ** Every history *)

Lemma cstep_ok o c : cluster_ok c → benign (fst (cstep o c)) ∧ cluster_ok (snd (cstep o c)) ∧ same_node c (snd (cstep o c)).
Proof.
  intros Hok. destruct o as [n now later|id now|now|now|]; cbn [cstep].
  - destruct (join_run n now later c Hok) as (c' & -> & Hok' & Hsame & _).
    destruct (send_ok (mkEvent MemberEventJoin (fresh (dom (co_store c))) later) c' Hok') as (? & ? & es & Hes).
    split_and!; [done|done|]. by rewrite Hes.
  - destruct (co_members c !! id) as [l|] eqn:Hid.
    + destruct (leave_run id l now c Hok Hid) as (c' & -> & Hok' & Hsame & _).
      destruct (send_ok (mkEvent MemberEventLeave l now) c' Hok') as (? & ? & es & Hes).
      split_and!; [done|done|]. by rewrite Hes.
    + unfold RemoveMember. unfold_M. rewrite Hid. by split_and!.
  - destruct (detect_run now c Hok) as (st & fs & -> & Hok' & _).
    destruct (send_all_ok fs _ Hok') as (? & ? & es & Hes). split_and!; [done|done|]. by rewrite Hes.
  - destruct (heartbeat_run now c Hok) as (n & _ & -> & Hok'). by split_and!.
  - unfold receive. unfold_M. destruct (co_memberCh c); simpl; [by split_and!|].
    split_and!; [done|by apply ok_events|done].
Qed.

Lemma crun_ok os c : cluster_ok c → cluster_ok (crun c os) ∧ same_node c (crun c os).
Proof.
  revert c. induction os as [|o os IH]; intros c Hok; [done|]. simpl.
  destruct (cstep_ok o c Hok) as (_ & Hok' & Hs). destruct (IH _ Hok') as [? Hs']. split; [done|].
  destruct Hs as (? & ? & ? & ?), Hs' as (? & ? & ? & ?). repeat split; congruence.
Qed.

Lemma new_shards_lookup count i : 0 ≤ i < count → is_Some (new_shards count !! i).
Proof.
  intros Hi. unfold new_shards. assert (Hin : i ∈ seqZ 0 count) by (apply elem_of_seqZ; lia).
  revert Hin. generalize (∅ : gmap Z Shard) as m. generalize (seqZ 0 count) as l.
  assert (Hkeep : ∀ l (m : gmap Z Shard), is_Some (m !! i) →
    is_Some (foldl (λ m i, <[i := mkShard i "" [] ShardStateActive]> m) m l !! i)).
  { induction l as [|j l IH]; intros m Hm; [done|]. simpl. apply IH. rewrite lookup_insert_is_Some'. by right. }
  induction l as [|j l IH]; intros m; [by intros ?%elem_of_nil|]. simpl. intros [->|Hin]%elem_of_cons; [|by apply IH].
  apply Hkeep. by rewrite lookup_insert_eq.
Qed.

Lemma new_ok config : 1 ≤ cf_ReplicationFactor config → ∃ c, NewCoordinator config = Ok c ∧ cluster_ok c ∧
  co_config c = config.
Proof.
  intros Hr. unfold NewCoordinator. cbv zeta. set (n := mkNode _ _ _ _ _ _ _). simpl.
  set (st := {[0%nat := n]} : store). set (sm0 := NewShardManager _ _).
  assert (Ho : ∀ id l, ({[nd_ID n := 0%nat]} : gmap string loc) !! id = Some l → ∃ n', st !! l = Some n' ∧ nd_ID n' = id).
  { intros id l [<- <-]%lookup_singleton_Some. exists n. split; [apply lookup_singleton_eq|done]. }
  destruct (rebalance_ok st (set_ring (AddNode (nd_ID n) 0%nat (sm_hashRing sm0)) sm0))
    as (sm' & Hreb & Hc & Hrep & Hring & Hsh & Has).
  - simpl. rewrite insert_empty. done.
  - intros i Hi. by apply new_shards_lookup.
  - done.
  - unfold sm_AddNode. cbn [nd_ID n] in Hreb. rewrite Hreb, Ok_bind. eexists. split; [done|]. simpl in *.
    assert (Hreach : reachable (AddNode (cf_NodeID config) 0%nat (NewHashRing 150))).
    { constructor; [constructor|]. intros j. simpl. by rewrite lookup_empty. }
    split; [|done]. constructor; simpl.
    + split; [apply insert_empty|done].
    + rewrite Hring. simpl. split; [apply insert_empty|done].
    + done.
    + exists n. split; [apply lookup_singleton_eq|done].
    + by rewrite Hc.
    + by rewrite Hrep.
    + rewrite Hc, Hrep. rewrite insert_empty in Has. done.
Qed.

(** The coordinator of a node after a history *)
Definition reached (config : Config) (os : list cop) (c : Coordinator) : Prop :=
  ∃ c0, NewCoordinator config = Ok c0 ∧ c = crun c0 os.

Lemma reached_ok config os c : 1 ≤ cf_ReplicationFactor config → reached config os c → cluster_ok c.
Proof.
  intros Hr (c0 & Hnew & ->). destruct (new_ok config Hr) as (c1 & Hnew' & Hok & _).
  assert (c0 = c1) as -> by congruence. by apply crun_ok.
Qed.

(** ** Shards are spread over the members *)

Lemma residue_step n k (c : Z) : 0 ≤ k < n → 0 ≤ c →
  (c + 1 + n - 1 - k) `div` n = (c + n - 1 - k) `div` n + (if decide (c `mod` n = k) then 1 else 0).
Proof.
  intros Hk Hc. pose proof (Z.div_mod c n ltac:(lia)) as Hdm. pose proof (Z.mod_pos_bound c n ltac:(lia)).
  set (q := c `div` n) in *. set (x := c `mod` n) in *.
  assert (Hdiv : ∀ y, 0 ≤ y < 2 * n → (n * q + y) `div` n = if decide (y < n) then q else q + 1).
  { intros y Hy. case_decide; symmetry; [apply (Z.div_unique_pos _ _ _ y)|apply (Z.div_unique_pos _ _ _ (y - n))]; lia. }
  replace (c + 1 + n - 1 - k) with (n * q + (x + n - k)) by lia.
  replace (c + n - 1 - k) with (n * q + (x + n - 1 - k)) by lia.
  rewrite !Hdiv by lia. repeat case_decide; lia.
Qed.

Lemma residue_count n k (count : nat) : 0 ≤ k < n →
  Z.of_nat (length (filter (λ i, i `mod` n = k) (seqZ 0 (Z.of_nat count)))) = (Z.of_nat count + n - 1 - k) `div` n.
Proof.
  intros Hk. induction count as [|c IH].
  { simpl. symmetry. apply Z.div_small. lia. }
  replace (Z.of_nat (S c)) with (Z.of_nat c + 1) by lia. rewrite seqZ_app by lia. rewrite filter_app, length_app.
  rewrite residue_step, <- IH by lia. rewrite Nat2Z.inj_add. f_equal.
  assert (seqZ (0 + Z.of_nat c) 1 = [Z.of_nat c]) as -> by (unfold seqZ; simpl; f_equal; lia).
  rewrite filter_cons. by case_decide.
Qed.

Lemma residue_bounds n k count : 0 ≤ k < n → 0 ≤ count →
  count `div` n ≤ len (filter (λ i, i `mod` n = k) (seqZ 0 count)) ≤ count `div` n + 1.
Proof.
  intros Hk Hc. unfold len. rewrite <- (Z2Nat.id count) at 2 3 by done. rewrite residue_count, Z2Nat.id by done.
  split; [apply Z.div_le_mono; lia|].
  trans ((count + 1 * n) `div` n); [apply Z.div_le_mono; lia|]. rewrite Z.div_add; lia.
Qed.

Lemma filter_ext_elem {A} (P Q : A → Prop) `{∀ x, Decision (P x)} `{∀ x, Decision (Q x)} (l : list A) :
  (∀ x, x ∈ l → P x ↔ Q x) → filter P l = filter Q l.
Proof.
  induction l as [|x l IH]; intros HPQ; [done|]. rewrite !filter_cons.
  rewrite (decide_ext (P x) (Q x)) by (apply HPQ; by left).
  rewrite IH; [done|]. intros y Hy. apply HPQ. by right.
Qed.

(** The shards a node is the primary of *)
Definition primaries (c : Coordinator) (id : string) : list Z :=
  filter (λ i, sh_Primary <$> sm_shards (co_shardManager c) !! i = Some id)
    (seqZ 0 (sm_shardCount (co_shardManager c))).

Lemma id_at_lookup ids i id : 0 ≤ i → ids !! Z.to_nat i = Some id → id_at ids i = id.
Proof. intros _ Hi. unfold id_at. by rewrite Hi. Qed.

Lemma id_at_inj ids i j : NoDup ids → 0 ≤ i < len ids → 0 ≤ j < len ids → id_at ids i = id_at ids j → i = j.
Proof.
  unfold len, id_at. intros Hnd Hi Hj.
  destruct (lookup_lt_is_Some_2 ids (Z.to_nat i) ltac:(lia)) as [x Hx].
  destruct (lookup_lt_is_Some_2 ids (Z.to_nat j) ltac:(lia)) as [y Hy].
  rewrite Hx, Hy. simpl. intros ->. pose proof (NoDup_lookup _ _ _ _ Hnd Hx Hy). lia.
Qed.

Lemma id_at_elem ids i : 0 ≤ i < len ids → id_at ids i ∈ ids.
Proof.
  unfold len, id_at. intros Hi. destruct (lookup_lt_is_Some_2 ids (Z.to_nat i) ltac:(lia)) as [x Hx].
  rewrite Hx. by eapply list_elem_of_lookup_2.
Qed.

Lemma round_robin_replicas nodes replication i s : NoDup (nd_ID <$> nodes) → nodes ≠ [] → 1 ≤ replication →
  round_robin nodes replication i s →
  sh_Primary s ∈ nd_ID <$> nodes ∧ NoDup (sh_Primary s :: sh_Replicas s) ∧
  (∀ x, x ∈ sh_Replicas s → x ∈ nd_ID <$> nodes) ∧ len (sh_Replicas s) = Z.min replication (len nodes) - 1.
Proof.
  intros Hnd Hne Hr [Hp Hrep]. set (ids := nd_ID <$> nodes) in *.
  assert (Hlen : len ids = len nodes) by (unfold len, ids; by rewrite length_fmap).
  assert (Hpos : 0 < len nodes) by (destruct nodes; [done|rewrite len_cons; pose proof (len_nonneg nodes); lia]).
  pose proof (Z.mod_pos_bound i (len nodes) Hpos) as Hm. rewrite Hp, Hrep.
  assert (Hat : ∀ r, 0 ≤ (i `mod` len nodes + r) `mod` len nodes < len ids).
  { intros r. rewrite Hlen. by apply Z.mod_pos_bound. }
  assert (Hne' : ∀ r r', 0 ≤ r < len nodes → 0 ≤ r' < len nodes →
    id_at ids ((i `mod` len nodes + r) `mod` len nodes) = id_at ids ((i `mod` len nodes + r') `mod` len nodes) → r = r').
  { intros a b Ha Hb Heq. apply id_at_inj in Heq; [|done|apply Hat|apply Hat].
    assert (Hz : (a - b) `mod` len nodes = 0).
    { replace (a - b) with ((i `mod` len nodes + a) - (i `mod` len nodes + b)) by lia.
      rewrite Zminus_mod, Heq, Z.sub_diag. apply Z.mod_0_l. lia. }
    apply Z.mod_divide in Hz as [q Hq]; [|lia].
    destruct (Z.lt_trichotomy q 0) as [?|[->|?]]; [nia|lia|nia]. }
  split_and!.
  - apply id_at_elem. lia.
  - apply NoDup_cons. split.
    + intros (r & Heq & Hin%elem_of_seqZ)%list_elem_of_fmap.
      assert (0 = r); [|lia]. apply Hne'; [lia|lia|]. rewrite Z.add_0_r, Z.mod_mod by lia. done.
    + apply NoDup_fmap_2_strong; [|apply NoDup_seqZ].
      intros a b Ha%elem_of_seqZ Hb%elem_of_seqZ. apply Hne'; lia.
  - intros x (r & -> & _)%list_elem_of_fmap. by apply id_at_elem.
  - unfold len in *. rewrite length_fmap, length_seqZ. lia.
Qed.

Lemma primaries_residue c nodes id k :
  NoDup (nd_ID <$> nodes) → (nd_ID <$> nodes) !! k = Some id →
  (∀ i, 0 ≤ i < sm_shardCount (co_shardManager c) → ∃ s, sm_shards (co_shardManager c) !! i = Some s ∧
     round_robin nodes (sm_replication (co_shardManager c)) i s) →
  primaries c id = filter (λ i, i `mod` len nodes = Z.of_nat k) (seqZ 0 (sm_shardCount (co_shardManager c))).
Proof.
  intros Hnd Hk Ha. unfold primaries. apply filter_ext_elem.
  assert (Hlen : len (nd_ID <$> nodes) = len nodes) by (unfold len; by rewrite length_fmap).
  assert (Hkl : Z.of_nat k < len nodes). { rewrite <- Hlen. apply lookup_lt_Some in Hk. unfold len. lia. }
  intros i Hi%elem_of_seqZ. destruct (Ha i) as (s & -> & Hp & _); [lia|]. simpl. rewrite Hp.
  assert (Hid : id_at (nd_ID <$> nodes) (Z.of_nat k) = id) by (apply id_at_lookup; [lia|by rewrite Nat2Z.id]).
  rewrite <- Hid. split.
  - intros [= Heq]. apply id_at_inj in Heq; [done|done| |lia]. rewrite Hlen. apply Z.mod_pos_bound. lia.
  - by intros ->.
Qed.

(** C9. After every history of joins, leaves, heartbeats and failure detections, each
    shard has a member as its primary and min(replication, members) - 1 distinct other
    members as replicas, and the numbers of shards two members are primary of differ
    by at most one; no operation panics. *)
Theorem shards_spread config os c :
  1 ≤ cf_ReplicationFactor config → reached config os c → co_members c ≠ ∅ →
  (∀ o, benign (fst (cstep o c))) ∧
  (∀ i, 0 ≤ i < sm_shardCount (co_shardManager c) → ∃ s,
     GetShard (co_shardManager c) i = Some s ∧ sh_Primary s ∈ dom (co_members c) ∧
     NoDup (sh_Primary s :: sh_Replicas s) ∧ (∀ x, x ∈ sh_Replicas s → x ∈ dom (co_members c)) ∧
     len (sh_Replicas s) = Z.min (sm_replication (co_shardManager c)) (Z.of_nat (size (co_members c))) - 1) ∧
  (∀ a b, a ∈ dom (co_members c) → b ∈ dom (co_members c) → len (primaries c a) ≤ len (primaries c b) + 1).
Proof.
  intros Hr Hc Hne. pose proof (reached_ok config os c Hr Hc) as Hok. split; [intros o; by apply cstep_ok|].
  destruct (ok_assigned _ Hok Hne) as (nodes & Hp & Ha).
  assert (Hnd : NoDup (nd_ID <$> nodes)) by (rewrite Hp; apply NoDup_fst_map_to_list).
  assert (Hdom : ∀ x, x ∈ nd_ID <$> nodes ↔ x ∈ dom (co_members c)).
  { intros x. rewrite Hp, elem_of_dom, list_elem_of_fmap. split.
    - intros ([y l] & -> & Hin%elem_of_map_to_list). by exists l.
    - intros [l Hl]. exists (x, l). split; [done|by apply elem_of_map_to_list]. }
  assert (Hsize : len nodes = Z.of_nat (size (co_members c))).
  { unfold len. rewrite <- (length_fmap nd_ID), Hp, length_fmap, length_map_to_list. done. }
  assert (Hnn : nodes ≠ []). { intros ->. destruct Hne. apply map_size_empty_inv. unfold len in Hsize. simpl in Hsize. lia. }
  split.
  - intros i Hi. destruct (Ha i Hi) as (s & Hs & Hrr).
    destruct (round_robin_replicas nodes _ i s Hnd Hnn (ok_replication _ Hok) Hrr) as (H1 & H2 & H3 & H4).
    exists s. rewrite <- Hdom, <- Hsize. split_and!; [done..| |done]. intros x Hx. by apply Hdom, H3.
  - intros a b Hxa Hxb. apply Hdom, list_elem_of_lookup in Hxa as [ka Hka], Hxb as [kb Hkb].
    rewrite (primaries_residue c nodes a ka), (primaries_residue c nodes b kb) by done.
    apply lookup_lt_Some in Hka, Hkb. rewrite length_fmap in Hka, Hkb.
    destruct (decide (0 ≤ sm_shardCount (co_shardManager c))) as [Hpos|Hneg].
    + pose proof (residue_bounds (len nodes) (Z.of_nat ka) _ ltac:(unfold len; lia) Hpos).
      pose proof (residue_bounds (len nodes) (Z.of_nat kb) _ ltac:(unfold len; lia) Hpos). lia.
    + rewrite !(seqZ_nil 0) by lia. simpl. unfold len. simpl. lia.
Qed.

(** ** Silent members *)

(** Operations that neither add nor remove the member [id] *)
Definition not_about (id : string) (o : cop) : Prop :=
  match o with OJoin n _ _ => nd_ID n ≠ id | OLeave id' _ => id' ≠ id | _ => True end.

(** The detector only moves a state forward. *)
Definition forward (s s' : NodeState) : Prop :=
  s' = s ∨ (s = NodeStateActive ∧ s' ∈ [NodeStateSuspect; NodeStateInactive]) ∨
  (s = NodeStateSuspect ∧ s' = NodeStateInactive).

Lemma forward_trans s1 s2 s3 : forward s1 s2 → forward s2 s3 → forward s1 s3.
Proof. unfold forward. rewrite !elem_of_cons, !elem_of_nil. naive_solver. Qed.

Lemma advance_forward timeout now self n :
  nd_LastHeartbeat (advance timeout now self n) = nd_LastHeartbeat n ∧
  forward (nd_State n) (nd_State (advance timeout now self n)).
Proof.
  unfold advance, forward. repeat case_match; simpl; (split; [done|]); try (by left); right.
  - left. split; [congruence|left].
  - right. split; [congruence|done].
Qed.

Definition holds_member (c : Coordinator) (id : string) (l : loc) (hb : Z) (s : NodeState) : Prop :=
  co_members c !! id = Some l ∧
  ∃ n, co_store c !! l = Some n ∧ nd_LastHeartbeat n = hb ∧ forward s (nd_State n).

Lemma holds_events c id l hb s es : holds_member (set_memberCh es c) id l hb s ↔ holds_member c id l hb s.
Proof. done. Qed.

Lemma step_keeps_member o c id l hb s :
  cluster_ok c → id ≠ cf_NodeID (co_config c) → not_about id o →
  holds_member c id l hb s → holds_member (snd (cstep o c)) id l hb s.
Proof.
  intros Hok Hne Ho Hh. pose proof Hh as [Hid (n & Hn & Hhb & Hf)].
  destruct o as [n' now later|id' now|now|now|]; cbn [cstep]; simpl in Ho.
  - destruct (join_run n' now later c Hok) as (c' & -> & Hok' & _ & Hm & Hst).
    destruct (send_ok (mkEvent MemberEventJoin (fresh (dom (co_store c))) later) c' Hok') as (_ & _ & es & ->).
    apply holds_events. split; [by rewrite Hm, lookup_insert_ne|]. exists n. split; [|done].
    rewrite Hst, lookup_insert_ne; [done|]. intros Hl. apply (is_fresh (dom (co_store c))). rewrite Hl.
    by eapply elem_of_dom_2.
  - destruct (co_members c !! id') as [l'|] eqn:Hid'.
    + destruct (leave_run id' l' now c Hok Hid') as (c' & -> & Hok' & _ & Hm & Hst).
      destruct (send_ok (mkEvent MemberEventLeave l' now) c' Hok') as (_ & _ & es & ->).
      apply holds_events. split; [by rewrite Hm, lookup_delete_ne|]. rewrite Hst. eauto.
    + unfold RemoveMember. unfold_M. by rewrite Hid'.
  - destruct (detect_run now c Hok) as (st & fs & -> & Hok' & Hst).
    destruct (send_all_ok fs _ Hok') as (_ & _ & es & ->). apply holds_events. split; [done|].
    simpl. rewrite (Hst id l Hid), Hn. simpl. eexists. split; [done|].
    destruct (advance_forward (cf_FailureTimeout (co_config c)) now (cf_NodeID (co_config c)) n) as [H1 H2].
    split; [congruence|by eapply forward_trans].
  - destruct (heartbeat_run now c Hok) as (self & Hself & -> & _). simpl. split; [done|]. exists n. split; [|done].
    simpl. rewrite lookup_insert_ne; [done|]. intros <-.
    destruct (ok_objects _ Hok id _ Hid) as (? & ? & ?), (ok_local _ Hok) as (? & ? & ?). congruence.
  - unfold receive. unfold_M. by destruct (co_memberCh c).
Qed.

Lemma run_keeps_member os c id l hb s :
  cluster_ok c → id ≠ cf_NodeID (co_config c) → Forall (not_about id) os →
  holds_member c id l hb s → holds_member (crun c os) id l hb s.
Proof.
  revert c. induction os as [|o os IH]; intros c Hok Hne HF Hh; [done|]. simpl.
  apply Forall_cons_iff in HF as [Ho HF]. destruct (cstep_ok o c Hok) as (_ & Hok' & _ & Hcfg & _).
  apply IH; [done|by rewrite Hcfg|done|by apply step_keeps_member].
Qed.

(** A detection that finds the member silent moves it past [Active], and past [Suspect]
    when it was suspected before. *)
Lemma detect_silent now c id l hb s :
  cluster_ok c → id ≠ cf_NodeID (co_config c) → now - hb > cf_FailureTimeout (co_config c) →
  holds_member c id l hb s → ∃ n', co_store (snd (cstep (ODetect now) c)) !! l = Some n' ∧
    nd_LastHeartbeat n' = hb ∧ nd_State n' ≠ NodeStateActive ∧ (s = NodeStateSuspect → nd_State n' = NodeStateInactive).
Proof.
  intros Hok Hne Hnow [Hid (n & Hn & Hhb & Hf)]. cbn [cstep].
  destruct (detect_run now c Hok) as (st & fs & -> & Hok' & Hst).
  destruct (send_all_ok fs _ Hok') as (_ & _ & es & ->). simpl. rewrite (Hst id l Hid), Hn. simpl.
  eexists. split; [done|]. unfold advance. destruct (ok_objects _ Hok id l Hid) as (n2 & Hn2 & Hnid).
  assert (n2 = n) as -> by congruence. destruct (String.eqb_spec (nd_ID n) (cf_NodeID (co_config c))); [congruence|].
  destruct (Z.gtb_spec (now - nd_LastHeartbeat n) (cf_FailureTimeout (co_config c))); [|lia].
  unfold forward in Hf. rewrite !elem_of_cons, !elem_of_nil in Hf.
  destruct (nd_State n) eqn:Hs; simpl; split_and!; try done; try congruence; naive_solver.
Qed.

(** C13. A member that has been silent for longer than the timeout at two detections,
    with any operations in between that neither re-add nor remove it, is not a replica
    of any key any more, and is inactive if it was active or suspected; it stays in the
    membership. *)
Theorem silent_member_excluded config os c id l n now1 os' now2 c' :
  1 ≤ cf_ReplicationFactor config → reached config os c → id ≠ cf_NodeID (co_config c) →
  co_members c !! id = Some l → co_store c !! l = Some n →
  now1 - nd_LastHeartbeat n > cf_FailureTimeout (co_config c) →
  now2 - nd_LastHeartbeat n > cf_FailureTimeout (co_config c) →
  Forall (not_about id) os' →
  c' = crun c (ODetect now1 :: os' ++ [ODetect now2]) →
  co_members c' !! id = Some l ∧ (∀ key, l ∉ co_GetNodesForKey c' key) ∧
  (nd_State n ∈ [NodeStateActive; NodeStateSuspect] →
   nd_State <$> co_store c' !! l = Some NodeStateInactive).
Proof.
  intros Hr Hc Hne Hid Hn H1 H2 HF ->. pose proof (reached_ok config os c Hr Hc) as Hok.
  assert (Hh : holds_member c id l (nd_LastHeartbeat n) (nd_State n)).
  { split; [done|]. exists n. split_and!; [done|done|by left]. }
  cbn [crun foldl]. unfold crun. rewrite foldl_app. cbn [foldl].
  set (c1 := snd (cstep (ODetect now1) c)).
  destruct (cstep_ok (ODetect now1) c Hok) as (_ & Hok1 & _ & Hcfg1 & _). fold c1 in Hok1, Hcfg1.
  destruct (detect_silent now1 c id l _ _ Hok Hne H1 Hh) as (n1 & Hn1 & Hhb1 & Hs1 & Hi1). fold c1 in Hn1.
  pose proof (step_keeps_member (ODetect now1) c id l _ _ Hok Hne I Hh) as [Hid1 (n1' & Hn1' & _ & Hf1)].
  fold c1 in Hid1, Hn1'. assert (n1' = n1) as -> by congruence.
  assert (Hh1 : holds_member c1 id l (nd_LastHeartbeat n) (nd_State n1)).
  { split; [done|]. exists n1. split_and!; [done|done|by left]. }
  assert (Hne1 : id ≠ cf_NodeID (co_config c1)) by by rewrite Hcfg1.
  pose proof (run_keeps_member os' c1 id l _ _ Hok1 Hne1 HF Hh1) as Hh2.
  destruct (crun_ok os' c1 Hok1) as [Hok2 (_ & Hcfg2 & _)]. unfold crun in Hh2, Hok2, Hcfg2.
  set (c2 := foldl (λ c o, snd (cstep o c)) c1 os') in *.
  assert (Hne2 : id ≠ cf_NodeID (co_config c2)) by by rewrite Hcfg2.
  destruct (detect_silent now2 c2 id l _ _ Hok2 Hne2 ltac:(by rewrite Hcfg2, Hcfg1) Hh2) as (n3 & Hn3 & _ & Hs3 & Hi3).
  pose proof (step_keeps_member (ODetect now2) c2 id l _ _ Hok2 Hne2 I Hh2) as [Hid3 (n3' & Hn3' & _ & Hf3)].
  assert (n3' = n3) as -> by congruence.
  destruct (cstep_ok (ODetect now2) c2 Hok2) as (_ & Hok3 & _).
  set (c3 := snd (cstep (ODetect now2) c2)) in *. split_and!; [done| |].
  - intros key Hin. destruct (ok_sm_ring _ Hok3) as [_ Hreach].
    apply GetNodes_elem in Hin as [_ Hheal]; [|by apply reachable_ok].
    unfold healthy in Hheal. rewrite Hn3 in Hheal. by apply bool_decide_eq_true in Hheal.
  - intros Hst. rewrite Hn3. simpl. f_equal. unfold forward in Hf1, Hf3.
    rewrite !elem_of_cons, !elem_of_nil in Hf1, Hf3, Hst.
    destruct (nd_State n1) eqn:E; [done| |by apply Hi3|].
    + destruct Hf3 as [?|[[? _]|[? _]]]; done.
    + destruct Hst as [Hst|[Hst|[]]]; rewrite Hst in Hf1; destruct Hf1 as [?|[[? [?|[?|[]]]]|[? ?]]]; done.
Qed.
End cluster_theorems.

(** ** A cluster of three nodes *)

#[local] Existing Instance demo_sha.
#[local] Existing Instance insertion_sorter.
#[local] Instance demo_order : MapOrder string := listed_order string.

Definition demo_config : Config := mkConfig "a" "10.0.0.1:7946" 2 4 5.
Definition demo_joins : list cop :=
  [OJoin (demo_node "b" NodeStateActive) 10 10; OJoin (demo_node "c" NodeStateActive) 20 20].
Definition demo_start : Coordinator :=
  match NewCoordinator demo_config with
  | Ok c => c
  | _ => mkCoordinator ∅ demo_config 0%nat (NewShardManager 0 0) (NewHashRing 1) ∅ [] false ""
  end.
Definition demo_cluster : Coordinator := crun demo_start demo_joins.

Lemma demo_reached : reached demo_config demo_joins demo_cluster.
Proof.
  exists demo_start. split; [|done].
  assert (H : match NewCoordinator demo_config with Ok _ => true | _ => false end = true) by (vm_compute; reflexivity).
  revert H. unfold demo_start. by destruct (NewCoordinator demo_config).
Qed.

Lemma shards_spread_witness :
  (length <$> (primaries demo_cluster <$> ["a"; "b"; "c"])) = [1; 1; 2]%nat ∧
  ∀ a b, a ∈ dom (co_members demo_cluster) → b ∈ dom (co_members demo_cluster) →
    len (primaries demo_cluster a) ≤ len (primaries demo_cluster b) + 1.
Proof.
  split; [vm_compute; reflexivity|].
  apply (shards_spread demo_config demo_joins demo_cluster); [apply Z.leb_le; reflexivity|exact demo_reached|].
  intros H. apply (f_equal size) in H. vm_compute in H. discriminate.
Defined.

Definition demo_silent : Coordinator := crun demo_cluster (ODetect 21 :: [OReceive; OHeartbeat 22] ++ [ODetect 23]).

Lemma silent_member_excluded_witness :
  co_members demo_silent !! "b" = Some 1%nat ∧ (∀ key, 1%nat ∉ co_GetNodesForKey demo_silent key) ∧
  nd_State <$> co_store demo_silent !! 1%nat = Some NodeStateInactive.
Proof.
  destruct (silent_member_excluded demo_config demo_joins demo_cluster "b" 1%nat
    (mkNode "b" "" NodeStateActive 10 [] [] ∅) 21 [OReceive; OHeartbeat 22] 23 demo_silent) as (H1 & H2 & H3);
    [apply Z.leb_le; reflexivity|exact demo_reached|vm_compute; discriminate|vm_compute; reflexivity
    |vm_compute; reflexivity|vm_compute; reflexivity|vm_compute; reflexivity|repeat constructor|reflexivity|].
  split_and!; [exact H1|exact H2|apply H3; left].
Defined.
