(* ===== verification/Gossip.v ===== *)
(** * pkg/cluster/gossip.go: membership by gossip

    The gossiper keeps what it knows of each node, merges what it hears and suspects
    nodes that do not answer a probe. Its mutex is part of the state: Go's mutexes
    are not reentrant, so that a goroutine which locks the mutex it holds blocks
    for ever with the mutex held ([EDeadlock]), and so does everybody after it.
    Callbacks run in goroutines of their own; the model records the calls. What the
    transport answers and what the random source draws are arguments. *)
From stdpp Require Import base gmap strings list fin_maps numbers.
From Stdlib Require Import Strings.Byte ZArith Lia.
From S2P Require Import Prelude.

#[local] Open Scope Z_scope.

(** [NodeState] is a string, since a message may hold any. *)
Definition NodeStateActive : string := "active".
Definition NodeStateInactive : string := "inactive".
Definition NodeStateSuspect : string := "suspect".
Definition NodeStateLeaving : string := "leaving".

Definition statePriority (state : string) : Z :=
  if String.eqb state NodeStateActive then 0
  else if String.eqb state NodeStateSuspect then 1
  else if String.eqb state NodeStateLeaving then 2
  else if String.eqb state NodeStateInactive then 3
  else -1.

Record GossipConfig := mkGossipConfig {
  gc_GossipFanout : Z; gc_SuspicionMult : Z; gc_ProbeInterval : Z
}.
Definition DefaultGossipConfig : GossipConfig := mkGossipConfig 3 4 1000000000.

(** A nil map of metadata is [None]. *)
Record GossipState := mkState {
  gs_NodeID : string; gs_Address : string; gs_State : string; gs_Incarnation : Z;
  gs_LastUpdated : Z; gs_Metadata : option (gmap string string)
}.
Definition with_state (state : string) (now : Z) (s : GossipState) : GossipState :=
  mkState (gs_NodeID s) (gs_Address s) state (gs_Incarnation s) now (gs_Metadata s).

Inductive GossipMessageType :=
| GossipTypePush | GossipTypePull | GossipTypePushPull | GossipTypeProbe | GossipTypeProbeAck
| GossipTypeAlive | GossipTypeSuspect | GossipTypeDead | GossipTypeOther.

Record GossipMessage := mkMessage {
  gm_Type : GossipMessageType; gm_States : list GossipState; gm_From : string; gm_SeqNo : Z
}.

Record suspicionTimer := mkTimer { su_startTime : Z; su_timeout : Z }.

Inductive call := CallJoin (nodeID addr : string) | CallLeave (nodeID : string) | CallFail (nodeID : string).

(** [localState] points to the entry of the local node in [states], which is only ever
    assigned in place: it is [g_states !! g_local]. *)
Record Gossiper := mkGossiper {
  g_config : GossipConfig; g_local : string;
  g_states : gmap string GossipState;
  g_incarnation : Z; g_seqNo : Z;
  g_suspicions : gmap string suspicionTimer;
  g_broadcasts : list GossipMessage;
  g_onJoin : bool; g_onLeave : bool; g_onFail : bool;
  g_calls : list call;
  g_locked : bool
}.

Inductive gossipError := EDeadlock | ETransport | EDecode.

Section gossip.
Context {order : MapOrder string}.
#[local] Abbreviation GM := (M Gossiper gossipError).

(** ** Fields *)
Definition set_states (m : gmap string GossipState) (g : Gossiper) : Gossiper :=
  mkGossiper (g_config g) (g_local g) m (g_incarnation g) (g_seqNo g) (g_suspicions g) (g_broadcasts g)
    (g_onJoin g) (g_onLeave g) (g_onFail g) (g_calls g) (g_locked g).
Definition set_incarnation (i : Z) (g : Gossiper) : Gossiper :=
  mkGossiper (g_config g) (g_local g) (g_states g) i (g_seqNo g) (g_suspicions g) (g_broadcasts g)
    (g_onJoin g) (g_onLeave g) (g_onFail g) (g_calls g) (g_locked g).
Definition set_seqNo (n : Z) (g : Gossiper) : Gossiper :=
  mkGossiper (g_config g) (g_local g) (g_states g) (g_incarnation g) n (g_suspicions g) (g_broadcasts g)
    (g_onJoin g) (g_onLeave g) (g_onFail g) (g_calls g) (g_locked g).
Definition set_suspicions (m : gmap string suspicionTimer) (g : Gossiper) : Gossiper :=
  mkGossiper (g_config g) (g_local g) (g_states g) (g_incarnation g) (g_seqNo g) m (g_broadcasts g)
    (g_onJoin g) (g_onLeave g) (g_onFail g) (g_calls g) (g_locked g).
Definition set_broadcasts (l : list GossipMessage) (g : Gossiper) : Gossiper :=
  mkGossiper (g_config g) (g_local g) (g_states g) (g_incarnation g) (g_seqNo g) (g_suspicions g) l
    (g_onJoin g) (g_onLeave g) (g_onFail g) (g_calls g) (g_locked g).
Definition set_callbacks (j l f : bool) (g : Gossiper) : Gossiper :=
  mkGossiper (g_config g) (g_local g) (g_states g) (g_incarnation g) (g_seqNo g) (g_suspicions g) (g_broadcasts g)
    j l f (g_calls g) (g_locked g).
Definition add_call (b : bool) (k : call) (g : Gossiper) : Gossiper :=
  mkGossiper (g_config g) (g_local g) (g_states g) (g_incarnation g) (g_seqNo g) (g_suspicions g) (g_broadcasts g)
    (g_onJoin g) (g_onLeave g) (g_onFail g) (if b then g_calls g ++ [k] else g_calls g) (g_locked g).
Definition set_locked (b : bool) (g : Gossiper) : Gossiper :=
  mkGossiper (g_config g) (g_local g) (g_states g) (g_incarnation g) (g_seqNo g) (g_suspicions g) (g_broadcasts g)
    (g_onJoin g) (g_onLeave g) (g_onFail g) (g_calls g) b.

(** ** The mutex *)

(** [mu.Lock(); defer mu.Unlock()] around a body: a body that blocks never unlocks. *)
Definition locked {A} (m : GM A) : GM A :=
  g ← get;
  if g_locked g then throw EDeadlock else
  put (set_locked true g);; a ← m; modify (set_locked false);; mret a.

(** [mu.RLock(); defer mu.RUnlock()] around a body that only reads *)
Definition rlocked {A} (f : Gossiper → A) : GM A :=
  g ← get; if g_locked g then throw EDeadlock else mret (f g).

Definition NewGossiper (nodeID addr : string) (config : option GossipConfig) (now : Z) : Gossiper :=
  mkGossiper (default DefaultGossipConfig config) nodeID
    {[nodeID := mkState nodeID addr NodeStateActive 1 now (Some ∅)]} 1 0 ∅ [] false false false [] false.

Definition nextSeqNo : GM Z :=
  locked (g ← get; put (set_seqNo (u64 (g_seqNo g + 1)) g);; mret (u64 (g_seqNo g + 1))).

Definition getAllStates : GM (list GossipState) := rlocked (λ g, (map_range (g_states g)).*2).
Definition GetMembers : GM (list GossipState) := rlocked (λ g, (map_range (g_states g)).*2).
Definition GetHealthyMembers : GM (list GossipState) :=
  rlocked (λ g, filter (λ s, gs_State s = NodeStateActive) (map_range (g_states g)).*2).

Definition OnJoin : GM unit := locked (modify (λ g, set_callbacks true (g_onLeave g) (g_onFail g) g)).
Definition OnLeave : GM unit := locked (modify (λ g, set_callbacks (g_onJoin g) true (g_onFail g) g)).
Definition OnFail : GM unit := locked (modify (λ g, set_callbacks (g_onJoin g) (g_onLeave g) true g)).

(** Appends and keeps the last 100 *)
Definition queueBroadcast (msg : GossipMessage) : GM unit :=
  modify (λ g, let bs := g_broadcasts g ++ [msg] in
               set_broadcasts (if len bs >? 100 then drop 1 bs else bs) g).

(** ** Merging *)

(** The comparison and the assignment for one incoming state *)
Definition merge_state (incoming : GossipState) (g : Gossiper) : Gossiper :=
  let id := gs_NodeID incoming in
  let store g := set_states (<[id := incoming]> (g_states g)) g in
  match g_states g !! id with
  | None =>
      add_call (String.eqb (gs_State incoming) NodeStateActive && g_onJoin g)
        (CallJoin id (gs_Address incoming)) (store g)
  | Some existing =>
      if gs_Incarnation incoming <? gs_Incarnation existing then g
      else if (gs_Incarnation incoming =? gs_Incarnation existing) &&
              (statePriority (gs_State incoming) <=? statePriority (gs_State existing)) then g
      else
        let was_active := String.eqb (gs_State existing) NodeStateActive in
        let g := store g in
        let g := add_call (was_active && String.eqb (gs_State incoming) NodeStateInactive && g_onFail g) (CallFail id) g in
        add_call (was_active && String.eqb (gs_State incoming) NodeStateLeaving && g_onLeave g) (CallLeave id) g
  end.

Definition mergeStates (states : list GossipState) : GM unit :=
  locked (modify (λ g, foldl (λ g s, merge_state s g) g states)).

(** ** Local changes *)

Definition bump_local (f : GossipState → GossipState) (now : Z) (g : Gossiper) : Gossiper :=
  let inc := u64 (g_incarnation g + 1) in
  match g_states g !! g_local g with
  | None => g (* the local entry is never removed *)
  | Some s => set_states (<[g_local g := let s := f s in mkState (gs_NodeID s) (gs_Address s) (gs_State s) inc now (gs_Metadata s)]>
                (g_states g)) (set_incarnation inc g)
  end.

(** [*state] is read and the sequence number is drawn while the lock is held. *)
Definition queue_state (ty : GossipMessageType) (id : string) : GM unit :=
  g ← get;
  match g_states g !! id with
  | None => panic
  | Some s => n ← nextSeqNo; queueBroadcast (mkMessage ty [s] (g_local g) n)
  end.

Definition broadcastState (id : string) : GM unit := locked (queue_state GossipTypeAlive id).

Definition Leave (now : Z) : GM unit :=
  locked (modify (bump_local (λ s, mkState (gs_NodeID s) (gs_Address s) NodeStateLeaving (gs_Incarnation s)
                                     (gs_LastUpdated s) (gs_Metadata s)) now));;
  g ← get; broadcastState (g_local g).

(** A write to a nil map panics. *)
Definition SetMetadata (key value : string) (now : Z) : GM unit :=
  locked (
    g ← get;
    match g_states g !! g_local g with
    | Some s =>
        match gs_Metadata s with
        | None => panic
        | Some m => put (bump_local (λ s, mkState (gs_NodeID s) (gs_Address s) (gs_State s) (gs_Incarnation s)
                                            (gs_LastUpdated s) (Some (<[key := value]> m))) now g)
        end
    | None => panic
    end).

(** ** Messages *)

Definition own_states : GM GossipMessage :=
  g ← get; states ← getAllStates; n ← nextSeqNo; mret (mkMessage GossipTypePush states (g_local g) n).

Definition HandleMessage (msg : GossipMessage) : GM (option GossipMessage) :=
  match gm_Type msg with
  | GossipTypePush | GossipTypeAlive | GossipTypeSuspect | GossipTypeDead =>
      mergeStates (gm_States msg);; mret None
  | GossipTypePull => m ← own_states; mret (Some m)
  | GossipTypePushPull => mergeStates (gm_States msg);; m ← own_states; mret (Some m)
  | GossipTypeProbe => g ← get; mret (Some (mkMessage GossipTypeProbeAck [] (g_local g) 0))
  | GossipTypeProbeAck | GossipTypeOther => mret None
  end.

(** [transport] answers a message to an address, or fails. *)
Definition Join (transport : string → GossipMessage → option GossipMessage) (seedAddr : string) : GM unit :=
  g ← get; states ← getAllStates; n ← nextSeqNo;
  match transport seedAddr (mkMessage GossipTypePushPull states (g_local g) n) with
  | None => throw ETransport
  | Some resp => mergeStates (gm_States resp)
  end.

(** ** Choosing targets *)

Definition swap {A} (l : list A) (i j : nat) : list A :=
  match l !! i, l !! j with Some a, Some b => <[i := b]> (<[j := a]> l) | _, _ => l end.

(** Fisher-Yates: position [i] is exchanged with a random one at or below it. *)
Fixpoint shuffle {A} (rnd : nat → nat) (i : nat) (l : list A) : list A :=
  match i with O => l | S i' => shuffle rnd i' (swap l i (rnd (S i))) end.

Definition active_others (g : Gossiper) : list GossipState :=
  (filter (λ e, fst e ≠ g_local g ∧ gs_State (snd e) = NodeStateActive) (map_range (g_states g))).*2.

(** [rnd n] is [cryptoRandIntn n], in [0, n) *)
Definition selectGossipTargets (rnd : nat → nat) : GM (list string) :=
  g ← get;
  if g_locked g then throw EDeadlock else
  let candidates := gs_Address <$> active_others g in
  if len candidates =? 0 then mret [] else
  let fanout := Z.min (gc_GossipFanout (g_config g)) (len candidates) in
  lift (slice (shuffle rnd (length candidates - 1) candidates) 0 fanout).

Definition selectProbeTarget (rnd : nat → nat) : GM (option GossipState) :=
  rlocked (λ g, let candidates := active_others g in candidates !! rnd (length candidates)).

(** The goroutines of a round, in the order in which their answers arrive *)
Fixpoint gossip_to (transport : string → GossipMessage → option GossipMessage) (msg : GossipMessage)
    (targets : list string) : GM unit :=
  match targets with
  | [] => mret tt
  | addr :: targets =>
      match transport addr msg with
      | None => mret tt
      | Some resp => mergeStates (gm_States resp)
      end;;
      gossip_to transport msg targets
  end.

Definition doGossip (rnd : nat → nat) (transport : string → GossipMessage → option GossipMessage) : GM unit :=
  targets ← selectGossipTargets rnd;
  if len targets =? 0 then mret tt else
  msg ← own_states; gossip_to transport msg targets.

(** ** Suspicion *)

Definition startSuspicion (nodeID : string) (now : Z) : GM unit :=
  locked (
    g ← get;
    match g_suspicions g !! nodeID with
    | Some _ => mret tt
    | None =>
        match g_states g !! nodeID with
        | None => mret tt
        | Some state =>
            if negb (String.eqb (gs_State state) NodeStateActive) then mret tt else
            let timeout := i64 (i64 (gc_SuspicionMult (g_config g) * gc_ProbeInterval (g_config g)) *
                                Z.of_nat (size (g_states g))) in
            put (set_suspicions (<[nodeID := mkTimer now timeout]> (g_suspicions g))
                   (set_states (<[nodeID := with_state NodeStateSuspect now state]> (g_states g)) g));;
            queue_state GossipTypeSuspect nodeID
        end
    end).

Definition clearSuspicion (nodeID : string) (now : Z) : GM unit :=
  locked (modify (λ g,
    let g := set_suspicions (delete nodeID (g_suspicions g)) g in
    match g_states g !! nodeID with
    | Some state => if String.eqb (gs_State state) NodeStateSuspect
                    then set_states (<[nodeID := with_state NodeStateActive now state]> (g_states g)) g else g
    | None => g
    end)).

(** The timers in the order of the range; a timer that expired is removed. *)
Fixpoint check_timers (now : Z) (timers : list (string * suspicionTimer)) : GM unit :=
  match timers with
  | [] => mret tt
  | (nodeID, timer) :: timers =>
      (if now - su_startTime timer >? su_timeout timer then
         g ← get;
         match g_states g !! nodeID with
         | None => mret tt
         | Some state =>
             put (add_call (g_onFail g) (CallFail nodeID)
                    (set_states (<[nodeID := with_state NodeStateInactive now state]> (g_states g)) g));;
             queue_state GossipTypeDead nodeID
         end;;
         modify (λ g, set_suspicions (delete nodeID (g_suspicions g)) g)
       else mret tt);;
      check_timers now timers
  end.

Definition checkSuspicions (now : Z) : GM unit :=
  locked (g ← get; check_timers now (map_range (g_suspicions g))).

Definition doProbe (rnd : nat → nat) (transport : string → GossipMessage → option GossipMessage) (now : Z) : GM unit :=
  target ← selectProbeTarget rnd;
  match target with
  | None => mret tt
  | Some t =>
      n ← nextSeqNo; g ← get;
      match transport (gs_Address t) (mkMessage GossipTypeProbe [] (g_local g) n) with
      | None => startSuspicion (gs_NodeID t) now
      | Some _ => clearSuspicion (gs_NodeID t) now
      end
  end.
End gossip.

(** * Gossip: convergence of merges, and the mutex
    A state has a rank, its incarnation first and its priority second; a merge keeps
    the state of the higher rank. Ranks form a join semilattice, so that what a node
    knows depends only on the set of states it has heard. The second part is about
    the non-reentrant mutex. *)

(** ** Ranks *)

Definition rank (s : GossipState) : Z := 8 * gs_Incarnation s + statePriority (gs_State s).
(** What a merge compares *)
Definition view (s : GossipState) : Z * string := (gs_Incarnation s, gs_State s).
(** One of the four states *)
Definition known (s : GossipState) : Prop := 0 ≤ statePriority (gs_State s).

Lemma statePriority_range x : -1 ≤ statePriority x ≤ 3.
Proof. unfold statePriority. repeat case_match; lia. Qed.

Lemma statePriority_inj x y : 0 ≤ statePriority x → statePriority x = statePriority y → x = y.
Proof.
  unfold statePriority.
  destruct (String.eqb_spec x NodeStateActive), (String.eqb_spec x NodeStateSuspect),
    (String.eqb_spec x NodeStateLeaving), (String.eqb_spec x NodeStateInactive); subst; try lia;
  destruct (String.eqb_spec y NodeStateActive), (String.eqb_spec y NodeStateSuspect),
    (String.eqb_spec y NodeStateLeaving), (String.eqb_spec y NodeStateInactive); subst; try lia; done.
Qed.

Lemma rank_view s s' : known s → rank s = rank s' → view s = view s'.
Proof.
  unfold rank, view, known. intros Hk Hr.
  pose proof (statePriority_range (gs_State s)). pose proof (statePriority_range (gs_State s')).
  assert (gs_Incarnation s = gs_Incarnation s') by lia. f_equal; [done|]. apply statePriority_inj; lia.
Qed.

#[export] Instance rank_join : base.Join (option Z) := union_with (λ a b, Some (Z.max a b)).

#[local] Instance rank_join_comm : Comm (=@{option Z}) (⊔).
Proof. intros [a|] [b|]; unfold join, rank_join; simpl; f_equal; lia. Qed.
#[local] Instance rank_join_assoc : Assoc (=@{option Z}) (⊔).
Proof. intros [a|] [b|] [c|]; unfold join, rank_join; simpl; f_equal; lia. Qed.
#[local] Instance rank_join_idemp : IdemP (=@{option Z}) (⊔).
Proof. intros [a|]; unfold join, rank_join; simpl; f_equal; lia. Qed.
#[local] Instance rank_join_left_id : LeftId (=@{option Z}) None (⊔).
Proof. by intros [a|]. Qed.

(** What a list of states says of a node *)
Definition heard (l : list GossipState) (id : string) : option Z :=
  foldr (λ s r, (if decide (gs_NodeID s = id) then Some (rank s) else None) ⊔ r) None l.

Lemma heard_app l k id : heard (l ++ k) id = heard l id ⊔ heard k id.
Proof.
  induction l as [|s l IH]; simpl; [by rewrite (left_id None (⊔))|]. by rewrite IH, (assoc (⊔)).
Qed.

Lemma heard_absorb l s id : s ∈ l → gs_NodeID s = id → Some (rank s) ⊔ heard l id = heard l id.
Proof.
  intros Hin Hid. induction l as [|x l IH]; [by apply elem_of_nil in Hin|]. simpl.
  apply elem_of_cons in Hin as [<-|Hin].
  - rewrite decide_True by done. by rewrite (assoc (⊔)), (idemp (⊔)).
  - rewrite (assoc (⊔)), (comm (⊔) (Some (rank s))), <- (assoc (⊔)), IH by done. done.
Qed.

(** It depends only on the set of states. *)
Lemma heard_subset l k id : (∀ s, s ∈ l → s ∈ k) → heard l id ⊔ heard k id = heard k id.
Proof.
  induction l as [|s l IH]; intros Hsub; simpl; [by rewrite (left_id None (⊔))|].
  rewrite <- (assoc (⊔)), IH by (intros x Hx; apply Hsub; by right).
  case_decide; [|by rewrite (left_id None (⊔))]. apply heard_absorb; [apply Hsub; by left|done].
Qed.
Lemma heard_same l k id : (∀ s, s ∈ l ↔ s ∈ k) → heard l id = heard k id.
Proof.
  intros Hs. rewrite <- (heard_subset k l id), (comm (⊔)) by (intros; by apply Hs).
  apply heard_subset. intros. by apply Hs.
Qed.

Section gossip_theorems.
Context {order : MapOrder string}.
Implicit Types (g : Gossiper).

(** ** Merging *)

Definition rank_of g (id : string) : option Z := rank <$> g_states g !! id.
Definition view_of g (id : string) : option (Z * string) := view <$> g_states g !! id.
Definition all_known g : Prop := map_Forall (λ id s, gs_NodeID s = id ∧ known s) (g_states g).

Lemma add_call_states b k g : g_states (add_call b k g) = g_states g.
Proof. done. Qed.

Lemma merge_state_rank s g id :
  rank_of (merge_state s g) id = rank_of g id ⊔ (if decide (gs_NodeID s = id) then Some (rank s) else None).
Proof.
  unfold merge_state, rank_of. destruct (decide (gs_NodeID s = id)) as [<-|Hne].
  - destruct (g_states g !! gs_NodeID s) as [e|] eqn:He; simpl.
    2: { by rewrite lookup_insert_eq. }
    pose proof (statePriority_range (gs_State s)). pose proof (statePriority_range (gs_State e)).
    destruct (Z.ltb_spec (gs_Incarnation s) (gs_Incarnation e)).
    { rewrite He. simpl. unfold join, rank_join, rank. simpl. f_equal. lia. }
    destruct (Z.eqb_spec (gs_Incarnation s) (gs_Incarnation e)) as [Heq|], (Z.leb_spec (statePriority (gs_State s)) (statePriority (gs_State e))); simpl.
    1: rewrite He; simpl. 2-4: rewrite lookup_insert_eq; simpl.
    all: unfold join, rank_join, rank; simpl; f_equal; lia.
  - rewrite (comm (⊔)), (left_id None (⊔)).
    destruct (g_states g !! gs_NodeID s) as [e|]; [repeat case_match|]; simpl; by rewrite ?lookup_insert_ne.
Qed.

Lemma merge_list_rank l g id :
  rank_of (foldl (λ g s, merge_state s g) g l) id = rank_of g id ⊔ heard l id.
Proof.
  revert g. induction l as [|s l IH]; intros g; simpl.
  { by rewrite (comm (⊔)), (left_id None (⊔)). }
  by rewrite IH, merge_state_rank, (assoc (⊔)).
Qed.

Lemma merge_state_known s g : known s → all_known g → all_known (merge_state s g).
Proof.
  intros Hs Hg. unfold merge_state, all_known in *.
  assert (H : map_Forall (λ id s, gs_NodeID s = id ∧ known s) (<[gs_NodeID s := s]> (g_states g)))
    by by apply map_Forall_insert_2.
  repeat case_match; simpl; done.
Qed.

Lemma merge_list_known l g : Forall known l → all_known g → all_known (foldl (λ g s, merge_state s g) g l).
Proof.
  intros Hl. revert g. induction Hl as [|s l Hs Hl IH]; intros g Hg; simpl; [done|].
  by apply IH, merge_state_known.
Qed.

Lemma merge_list_locked l g : g_locked (foldl (λ g s, merge_state s g) g l) = g_locked g.
Proof.
  revert g. induction l as [|s l IH]; intros g; simpl; [done|]. rewrite IH.
  unfold merge_state. repeat case_match; done.
Qed.

(** A merge on an unlocked gossiper *)
Lemma mergeStates_run l g : g_locked g = false → ∃ g', mergeStates l g = (Ok tt, g') ∧
  g_locked g' = false ∧ (∀ id, rank_of g' id = rank_of g id ⊔ heard l id) ∧
  (Forall known l → all_known g → all_known g').
Proof.
  intros Hl. unfold mergeStates, locked. unfold_M. rewrite Hl. simpl. eexists. split; [done|].
  split_and!; [done| |].
  - intros id. exact (merge_list_rank l (set_locked true g) id).
  - intros Hk Hg. exact (merge_list_known l (set_locked true g) Hk Hg).
Qed.

Lemma view_of_rank g g' id : all_known g → all_known g' → rank_of g id = rank_of g' id → view_of g id = view_of g' id.
Proof.
  unfold rank_of, view_of. intros Hg Hg'.
  destruct (g_states g !! id) as [s|] eqn:Hs, (g_states g' !! id) as [s'|] eqn:Hs'; simpl; intros [=]; [|done].
  f_equal. apply rank_view; [|done]. by apply (Hg id s).
Qed.

Fixpoint merge_all (ms : list (list GossipState)) : M Gossiper gossipError unit :=
  match ms with [] => mret tt | m :: ms => mergeStates m;; merge_all ms end.

Lemma merge_all_run ms g : g_locked g = false → all_known g → Forall known (concat ms) →
  ∃ g', merge_all ms g = (Ok tt, g') ∧ all_known g' ∧ ∀ id, rank_of g' id = rank_of g id ⊔ heard (concat ms) id.
Proof.
  revert g. induction ms as [|m ms IH]; intros g Hl Hg HF; simpl in *.
  { exists g. split_and!; [done|done|]. intros id. by rewrite (comm (⊔)), (left_id None (⊔)). }
  apply Forall_app in HF as [Hm HF].
  destruct (mergeStates_run m g Hl) as (g1 & E & Hl1 & Hr1 & Hk1). rewrite (M_bind_run _ _ _ _ _ E).
  destruct (IH g1 Hl1 (Hk1 Hm Hg) HF) as (g' & -> & Hg' & Hr'). exists g'. split_and!; [done|done|].
  intros id. by rewrite Hr', Hr1, heard_app, (assoc (⊔)).
Qed.

(** C12. Two gossipers that agree on a node and then hear the same states, in whatever
    order, as often and in whatever messages, agree on its incarnation and state, and
    the result is never older than any state heard. *)
Theorem gossip_converges g1 g2 ms1 ms2 id :
  g_locked g1 = false → g_locked g2 = false → all_known g1 → all_known g2 →
  rank_of g1 id = rank_of g2 id → Forall known (concat ms1) →
  (∀ s, s ∈ concat ms1 ↔ s ∈ concat ms2) →
  ∃ g1' g2', merge_all ms1 g1 = (Ok tt, g1') ∧ merge_all ms2 g2 = (Ok tt, g2') ∧
    view_of g1' id = view_of g2' id ∧
    ∀ s, s ∈ concat ms1 → gs_NodeID s = id → Some (rank s) ⊔ rank_of g1' id = rank_of g1' id.
Proof.
  intros Hl1 Hl2 Hk1 Hk2 Hr HF Hs.
  assert (HF2 : Forall known (concat ms2)).
  { apply Forall_forall. intros s Hin%list_elem_of_In. rewrite Forall_forall in HF. by apply HF, list_elem_of_In, Hs. }
  destruct (merge_all_run ms1 g1 Hl1 Hk1 HF) as (g1' & -> & Hg1 & H1).
  destruct (merge_all_run ms2 g2 Hl2 Hk2 HF2) as (g2' & -> & Hg2 & H2).
  exists g1', g2'. split_and!; [done|done| |].
  - apply view_of_rank; [done|done|]. by rewrite H1, H2, Hr, (heard_same _ _ id Hs).
  - intros s Hin Hid. rewrite H1. rewrite (comm (⊔) (rank_of g1 id)), (assoc (⊔)).
    by rewrite heard_absorb.
Qed.

(** ** A push-pull exchange *)

Lemma heard_range (m : gmap string GossipState) id :
  map_Forall (λ id s, gs_NodeID s = id ∧ known s) m → heard (map_range m).*2 id = rank <$> m !! id.
Proof.
  intros Hm. assert (Hin : ∀ s, s ∈ (map_range m).*2 ↔ m !! gs_NodeID s = Some s).
  { intros s. rewrite map_range_perm, list_elem_of_fmap. split.
    - intros ([k v] & -> & Hk%elem_of_map_to_list). simpl. by rewrite (proj1 (Hm k v Hk)).
    - intros Hk. exists (gs_NodeID s, s). split; [done|by apply elem_of_map_to_list]. }
  destruct (m !! id) as [s|] eqn:Hid; simpl.
  - destruct (Hm id s Hid) as [Hns _]. rewrite (heard_same _ ([s] ++ filter (λ s', gs_NodeID s' ≠ id) (map_range m).*2) id).
    + rewrite heard_app. simpl. rewrite decide_True by done.
      assert (heard (filter (λ s', gs_NodeID s' ≠ id) (map_range m).*2) id = None) as ->; [|by simpl].
      generalize ((map_range m).*2) as l. induction l as [|x l IH]; [done|]. rewrite filter_cons.
      case_decide; [|done]. simpl. by rewrite decide_False, (left_id None (⊔)).
    + intros x. rewrite elem_of_app, list_elem_of_singleton, list_elem_of_filter. split.
      * intros Hx. destruct (decide (gs_NodeID x = id)) as [Hxi|]; [left|by right].
        apply Hin in Hx. rewrite Hxi in Hx. congruence.
      * intros [->|[_ ?]]; [|done]. apply Hin. by rewrite Hns.
  - assert (Hno : ∀ s, s ∈ (map_range m).*2 → gs_NodeID s ≠ id). { intros s Hs%Hin Hsi. congruence. }
    revert Hno. clear. generalize ((map_range m).*2) as l. induction l as [|x l IH]; intros Hno; simpl; [done|].
    rewrite decide_False by (apply Hno; by left). rewrite (left_id None (⊔)). apply IH. intros s Hs. apply Hno. by right.
Qed.

Lemma range_known (m : gmap string GossipState) :
  map_Forall (λ id s, gs_NodeID s = id ∧ known s) m → Forall known (map_range m).*2.
Proof.
  intros Hm. apply Forall_forall. intros s Hs%list_elem_of_In. rewrite map_range_perm in Hs.
  apply list_elem_of_fmap in Hs as ([k v] & -> & Hk%elem_of_map_to_list). by apply (Hm k v).
Qed.

Lemma nextSeqNo_run g : g_locked g = false → ∃ n, nextSeqNo g = (Ok n, set_locked false (set_seqNo n (set_locked true g))).
Proof. intros Hl. unfold nextSeqNo, locked. unfold_M. rewrite Hl. simpl. by eexists. Qed.

Lemma own_states_run g : g_locked g = false → ∃ n g',
  own_states g = (Ok (mkMessage GossipTypePush (map_range (g_states g)).*2 (g_local g) n), g') ∧
  g_states g' = g_states g ∧ g_locked g' = false.
Proof.
  intros Hl. unfold own_states, getAllStates, rlocked. destruct (nextSeqNo_run g Hl) as (n & E).
  exists n, (set_locked false (set_seqNo n (set_locked true g))). split; [|done].
  revert E. unfold_M. rewrite Hl. by intros ->.
Qed.

Lemma HandleMessage_PushPull m g : gm_Type m = GossipTypePushPull →
  HandleMessage m g = (mergeStates (gm_States m);; r ← own_states; mret (Some r)) g.
Proof. unfold HandleMessage. by intros ->. Qed.

(** A node that joins over a push-pull exchange with a seed and the seed agree on
    every node afterwards, and neither lost anything it knew. *)
Theorem join_agrees g1 g2 addr :
  g_locked g1 = false → g_locked g2 = false → all_known g1 → all_known g2 →
  ∃ msg g1',
    gm_Type msg = GossipTypePushPull ∧ gm_States msg = (map_range (g_states g1)).*2 ∧
    Join (λ _ m, match fst (HandleMessage m g2) with Ok r => r | _ => None end) addr g1 = (Ok tt, g1') ∧
    let g2' := snd (HandleMessage msg g2) in
    ∀ id, view_of g1' id = view_of g2' id ∧
      rank_of g1 id ⊔ rank_of g1' id = rank_of g1' id ∧ rank_of g2 id ⊔ rank_of g2' id = rank_of g2' id.
Proof.
  intros Hl1 Hl2 Hk1 Hk2. destruct (nextSeqNo_run g1 Hl1) as (n & En).
  set (msg := mkMessage GossipTypePushPull (map_range (g_states g1)).*2 (g_local g1) n).
  destruct (mergeStates_run (gm_States msg) g2 Hl2) as (g2m & Em & Hl2m & Hr2m & Hk2m).
  destruct (own_states_run g2m Hl2m) as (n2 & g2' & Eo & Hs2' & _).
  assert (EH : HandleMessage msg g2 = (Ok (Some (mkMessage GossipTypePush (map_range (g_states g2m)).*2 (g_local g2m) n2)), g2')).
  { rewrite HandleMessage_PushPull by done. unfold mbind, M_bind. by rewrite Em, Eo. }
  set (g1s := set_locked false (set_seqNo n (set_locked true g1))).
  assert (Hl1s : g_locked g1s = false) by done.
  destruct (mergeStates_run (map_range (g_states g2m)).*2 g1s Hl1s) as (g1' & E1 & _ & Hr1 & Hk1').
  specialize (Hk2m (range_known _ Hk1) Hk2). specialize (Hk1' (range_known _ Hk2m) Hk1).
  exists msg, g1'. split_and!; [done|done| |].
  - unfold Join, getAllStates, rlocked. revert En. unfold_M. rewrite Hl1. intros ->.
    change (mkMessage GossipTypePushPull (map_range (g_states g1)).*2 (g_local g1) n) with msg. by rewrite EH.
  - rewrite EH. simpl. intros id.
    assert (H2 : rank_of g2' id = rank_of g2m id) by (unfold rank_of; by rewrite Hs2').
    assert (H2m : rank_of g2m id = rank_of g2 id ⊔ rank_of g1 id).
    { rewrite Hr2m. f_equal. apply heard_range. exact Hk1. }
    assert (H1 : rank_of g1' id = rank_of g1 id ⊔ rank_of g2m id).
    { rewrite Hr1. f_equal. apply heard_range. exact Hk2m. }
    rewrite H2, H1, H2m. split_and!.
    + apply view_of_rank; [done|unfold all_known; by rewrite Hs2'|].
      rewrite H2, H1, H2m, (comm (⊔) (rank_of g2 id)), (assoc (⊔)), (idemp (⊔)). done.
    + by rewrite (assoc (⊔)), (idemp (⊔)).
    + by rewrite (assoc (⊔)), (idemp (⊔)).
Qed.

(** ** The mutex *)

(** The operations that other goroutines run *)
Inductive gop :=
| GMerge (l : list GossipState) | GMembers | GHealthy | GSetMetadata (k v : string) (now : Z) | GLeave (now : Z)
| GGossip (rnd : nat → nat) (tr : string → GossipMessage → option GossipMessage)
| GProbe (rnd : nat → nat) (tr : string → GossipMessage → option GossipMessage) (now : Z)
| GCheck (now : Z) | GJoin (tr : string → GossipMessage → option GossipMessage) (addr : string)
| GHandle (m : GossipMessage).

(** A message other than a probe, which is answered without the lock *)
Definition locking (o : gop) : Prop :=
  match o with
  | GHandle m => gm_Type m ∉ [GossipTypeProbe; GossipTypeProbeAck; GossipTypeOther]
  | _ => True
  end.

Definition gstep (o : gop) : M Gossiper gossipError unit :=
  match o with
  | GMerge l => mergeStates l
  | GMembers => _ ← GetMembers; mret tt
  | GHealthy => _ ← GetHealthyMembers; mret tt
  | GSetMetadata k v now => SetMetadata k v now
  | GLeave now => Leave now
  | GGossip rnd tr => doGossip rnd tr
  | GProbe rnd tr now => doProbe rnd tr now
  | GCheck now => checkSuspicions now
  | GJoin tr addr => Join tr addr
  | GHandle m => _ ← HandleMessage m; mret tt
  end.

Lemma gstep_frozen o g : g_locked g = true → locking o → gstep o g = (Err EDeadlock, g).
Proof.
  intros Hl Ho. destruct o as [| | | | | | | | |m]; simpl in Ho.
  10: { unfold gstep, HandleMessage. destruct (gm_Type m); try (exfalso; apply Ho; set_solver);
        unfold mergeStates, own_states, getAllStates, rlocked, locked; unfold_M; by rewrite Hl. }
  all: unfold gstep, mergeStates, GetMembers, GetHealthyMembers, SetMetadata, Leave, doGossip, selectGossipTargets,
         doProbe, selectProbeTarget, checkSuspicions, Join, getAllStates, rlocked, locked; unfold_M; by rewrite Hl.
Qed.

(** The queued message needs the mutex its caller holds. *)
Lemma queue_state_blocks ty id g : g_locked g = true → is_Some (g_states g !! id) →
  queue_state ty id g = (Err EDeadlock, g).
Proof. intros Hl [s Hs]. unfold queue_state, nextSeqNo, locked. unfold_M. by rewrite Hs, Hl. Qed.

Lemma startSuspicion_blocks id s now g :
  g_locked g = false → g_suspicions g !! id = None → g_states g !! id = Some s → gs_State s = NodeStateActive →
  ∃ g', startSuspicion id now g = (Err EDeadlock, g') ∧ g_locked g' = true.
Proof.
  intros Hl Hsu Hs Ha. unfold startSuspicion, locked. unfold mbind at 1, M_bind at 1, get at 1. rewrite Hl.
  unfold mbind, M_bind, get, put. cbn [g_suspicions set_locked g_states]. rewrite Hsu, Hs, Ha. simpl negb. cbv iota.
  rewrite queue_state_blocks; [by eexists|done|]. simpl. rewrite lookup_insert_eq. by eexists.
Qed.

Lemma active_others_elem g s : s ∈ active_others g → ∃ id, g_states g !! id = Some s ∧ gs_State s = NodeStateActive.
Proof.
  unfold active_others. intros ([id s'] & -> & [[_ Ha] Hin]%list_elem_of_filter)%list_elem_of_fmap.
  rewrite map_range_perm in Hin. apply elem_of_map_to_list in Hin. eauto.
Qed.

(** C14. A probe that is not answered blocks its goroutine with the mutex held, since the
    suspicion it starts draws a sequence number under the lock; from then on every
    operation of the gossiper that needs the mutex blocks. Leaving the cluster blocks
    in the same way on every gossiper that knows itself. *)
Theorem failed_probe_freezes g rnd tr now t :
  g_locked g = false → all_known g →
  active_others g !! rnd (length (active_others g)) = Some t →
  g_suspicions g !! gs_NodeID t = None → (∀ m, tr (gs_Address t) m = None) →
  (∃ g', doProbe rnd tr now g = (Err EDeadlock, g') ∧ ∀ o, locking o → gstep o g' = (Err EDeadlock, g')) ∧
  (is_Some (g_states g !! g_local g) →
   ∃ g', Leave now g = (Err EDeadlock, g') ∧ ∀ o, locking o → gstep o g' = (Err EDeadlock, g')).
Proof.
  intros Hl Hk Ht Hsu Htr. split.
  - assert (Hin : t ∈ active_others g) by by eapply list_elem_of_lookup_2.
    destruct (active_others_elem g t Hin) as (id & Hid & Ha).
    assert (id = gs_NodeID t) as -> by (symmetry; apply (Hk id t Hid)).
    destruct (nextSeqNo_run g Hl) as (n & En).
    set (g1 := set_locked false (set_seqNo n (set_locked true g))) in *.
    destruct (startSuspicion_blocks (gs_NodeID t) t now g1) as (g' & E & Hl'); [done..|].
    exists g'. split; [|intros o; by apply gstep_frozen].
    unfold doProbe, selectProbeTarget, rlocked. revert En E. unfold_M. rewrite Hl, Ht. intros -> E. by rewrite Htr.
  - intros [s Hs]. set (f := λ s, mkState (gs_NodeID s) (gs_Address s) NodeStateLeaving (gs_Incarnation s)
                                     (gs_LastUpdated s) (gs_Metadata s)).
    set (g1 := bump_local f now (set_locked true g)).
    assert (Hg1 : g_local g1 = g_local g ∧ is_Some (g_states g1 !! g_local g)).
    { unfold g1, bump_local. simpl. rewrite Hs. simpl. rewrite lookup_insert_eq. split; [done|by eexists]. }
    destruct Hg1 as [Hlo Hst].
    exists (set_locked true (set_locked false g1)). split; [|intros o; by apply gstep_frozen].
    unfold Leave, broadcastState, locked. unfold mbind, M_bind, get, put, modify, mret, M_ret. rewrite Hl.
    fold f. fold g1. cbn [g_locked set_locked g_local]. rewrite Hlo, queue_state_blocks; done.
Qed.
End gossip_theorems.

(** ** Three nodes *)

#[local] Instance demo_order : MapOrder string := listed_order string.

Definition demo_a : Gossiper := NewGossiper "a" "10.0.0.1:7946" None 0.
Definition demo_b : Gossiper := NewGossiper "b" "10.0.0.2:7946" None 0.
Definition demo_c (state : string) (inc : Z) : GossipState := mkState "c" "10.0.0.3:7946" state inc 0 None.

Lemma demo_known (g : Gossiper) :
  bool_decide (map_Forall (λ id s, gs_NodeID s = id ∧ 0 ≤ statePriority (gs_State s)) (g_states g)) = true → all_known g.
Proof. intros H%bool_decide_eq_true. exact H. Qed.

Lemma gossip_converges_witness : ∃ a b,
  merge_all [[demo_c "active" 1; demo_c "suspect" 1]; [demo_c "active" 2]] demo_a = (Ok tt, a) ∧
  merge_all [[demo_c "active" 2; demo_c "suspect" 1; demo_c "active" 1; demo_c "active" 2]] demo_b = (Ok tt, b) ∧
  view_of a "c" = view_of b "c" ∧ view_of a "c" = Some (2, "active").
Proof.
  destruct (gossip_converges demo_a demo_b
    [[demo_c "active" 1; demo_c "suspect" 1]; [demo_c "active" 2]]
    [[demo_c "active" 2; demo_c "suspect" 1; demo_c "active" 1; demo_c "active" 2]] "c") as (a & b & Ha & Hb & Hv & _);
    [reflexivity|reflexivity|apply demo_known; vm_compute; reflexivity|apply demo_known; vm_compute; reflexivity
    |reflexivity|repeat constructor; vm_compute; discriminate|simpl; intros; set_solver|].
  exists a, b. split_and!; [exact Ha|exact Hb|exact Hv|].
  vm_compute in Ha. injection Ha as <-. vm_compute. reflexivity.
Defined.

Lemma join_agrees_witness : ∃ msg a,
  gm_Type msg = GossipTypePushPull ∧
  Join (λ _ m, match fst (HandleMessage m demo_b) with Ok r => r | _ => None end) "10.0.0.2:7946" demo_a = (Ok tt, a) ∧
  view_of a "b" = view_of (snd (HandleMessage msg demo_b)) "b".
Proof.
  destruct (join_agrees demo_a demo_b "10.0.0.2:7946") as (msg & a & H1 & _ & H2 & H3);
    [reflexivity|reflexivity|apply demo_known; vm_compute; reflexivity|apply demo_known; vm_compute; reflexivity|].
  exists msg, a. split_and!; [exact H1|exact H2|apply H3].
Defined.

Definition demo_ac : Gossiper := snd (mergeStates [demo_c "active" 1] demo_a).

Lemma failed_probe_freezes_witness :
  ∃ g', doProbe (λ _, 0%nat) (λ _ _, None) 5 demo_ac = (Err EDeadlock, g') ∧
        gstep GMembers g' = (Err EDeadlock, g') ∧ gstep (GLeave 6) g' = (Err EDeadlock, g').
Proof.
  destruct (failed_probe_freezes demo_ac (λ _, 0%nat) (λ _ _, None) 5 (demo_c "active" 1)) as [(g' & H1 & H2) _];
    [reflexivity|apply demo_known; vm_compute; reflexivity|vm_compute; reflexivity|reflexivity|reflexivity|].
  exists g'. split_and!; [exact H1|exact (H2 GMembers I)|exact (H2 (GLeave 6) I)].
Defined.
