(* ===== verification/ShardRecovery.v ===== *)
(** * pkg/cluster/recovery.go: recovery of shards from other nodes

    Shards wait in a queue; a job streams the data of a shard from its primary or a
    replica into the local data provider and compares checksums. Jobs are objects
    the goroutine of a recovery shares with the manager's map, so they live in a list
    and the map holds their positions. The data provider is an interface of the
    source; what a stream or a remote checksum yields is an argument, and both may stay
    silent for ever: [Recv] has no deadline and [Send] ignores its context. *)
From stdpp Require Import base gmap strings list fin_maps numbers.
From Stdlib Require Import Strings.Byte ZArith Lia.
From S2P Require Import Prelude Ring Cluster.

#[local] Open Scope Z_scope.

(** [DataProvider] over its state [P]; an operation may fail and change the state. *)
Class DataProvider (P : Type) := {
  ImportData : Z → list byte → P → bool * P;
  GetChecksum : Z → P → option string;
  GetShardSize : Z → P → option Z;
  (** the items of the iterator and whether it ends without an error *)
  GetShardData : Z → P → option (list (list byte) * bool)
}.

Inductive RecoveryStatus :=
| RecoveryStatusPending | RecoveryStatusStreaming | RecoveryStatusApplying
| RecoveryStatusComplete | RecoveryStatusFailed.
#[export] Instance RecoveryStatus_eq_dec : EqDecision RecoveryStatus.
Proof. solve_decision. Defined.

Inductive recoveryError :=
| EAlreadyRecovering | EStream | EImport | EChecksum | ERemoteChecksum | EMismatch | EShardData | ESend | EIterator | ESize.

(** What a stream yields: it fails to open, its opening never returns, or it yields
    messages and then the end, an error, or nothing: [Recv] waits. *)
Inductive ending := EndOfFile | Broken | Silent.
Inductive stream := NotOpened | NeverOpens | Opened (msgs : list (list byte)) (e : ending).

(** What a request for a checksum yields *)
Inductive reply := Answered (sum : string) | NoReply | NeverAnswers.

(** Whether the goroutine of a recovery has returned *)
Inductive course := Returned | Waiting.

Record RecoveryConfig := mkRecoveryConfig { rc_MaxConcurrentRecov : Z; rc_ChecksumEnabled : bool }.
Definition DefaultRecoveryConfig : RecoveryConfig := mkRecoveryConfig 2 true.

Record recoveryJob := mkJob {
  rj_ShardID : Z; rj_SourceNode : string; rj_StartTime : Z; rj_BytesRecv : Z;
  rj_Status : RecoveryStatus; rj_Error : option recoveryError; rj_Progress : Z
}.

Section recovery.
Context {P : Type} {provider : DataProvider P}.
Context {sha : Sha256} {sorter : Sorter} {order : MapOrder string} {zorder : MapOrder Z}.

Record RecoveryManager := mkManager {
  rm_config : RecoveryConfig;
  rm_data : P;
  rm_jobs : list recoveryJob;
  rm_recovering : gmap Z nat;
  rm_queue : list Z
}.
#[local] Abbreviation RM := (M RecoveryManager recoveryError).

Definition set_data (p : P) (rm : RecoveryManager) : RecoveryManager :=
  mkManager (rm_config rm) p (rm_jobs rm) (rm_recovering rm) (rm_queue rm).
Definition set_queue (q : list Z) (rm : RecoveryManager) : RecoveryManager :=
  mkManager (rm_config rm) (rm_data rm) (rm_jobs rm) (rm_recovering rm) q.
Definition set_job (j : nat) (job : recoveryJob) (rm : RecoveryManager) : RecoveryManager :=
  mkManager (rm_config rm) (rm_data rm) (<[j := job]> (rm_jobs rm)) (rm_recovering rm) (rm_queue rm).

Definition NewRecoveryManager (config : option RecoveryConfig) (p : P) : RecoveryManager :=
  mkManager (default DefaultRecoveryConfig config) p [] ∅ [].

Definition RecoverShard (shardID : Z) : RM unit :=
  rm ← get;
  match rm_recovering rm !! shardID with
  | Some _ => throw EAlreadyRecovering
  | None => put (set_queue (rm_queue rm ++ [shardID]) rm)
  end.

(** The jobs, by shard *)
Definition GetRecoveryStatus (rm : RecoveryManager) : gmap Z recoveryJob :=
  omap (λ j, rm_jobs rm !! j) (rm_recovering rm).

(** ** Starting a recovery *)

Definition active (job : recoveryJob) : bool :=
  bool_decide (rj_Status job = RecoveryStatusStreaming) || bool_decide (rj_Status job = RecoveryStatusApplying).

Definition activeCount (rm : RecoveryManager) : Z :=
  len (filter (λ job, active job = true) (omap (λ e, rm_jobs rm !! snd e) (map_range (rm_recovering rm)))).

(** A healthy node of this name *)
Definition find_healthy (c : Coordinator) (id : string) : option Node :=
  head (filter (λ n, nd_ID n = id ∧ IsHealthy n = true) (GetAllNodes (co_store c) (co_hashRing c))).

Fixpoint find_replica (c : Coordinator) (replicas : list string) : option Node :=
  match replicas with
  | [] => None
  | id :: replicas => match find_healthy c id with Some n => Some n | None => find_replica c replicas end
  end.

Definition findSourceNode (c : Coordinator) (shard : Shard) : option Node :=
  match (if String.eqb (sh_Primary shard) "" then None else find_healthy c (sh_Primary shard)) with
  | Some n => Some n
  | None => find_replica c (sh_Replicas shard)
  end.

(** The new job, if one starts *)
Definition processRecoveryQueue (c : Coordinator) (now : Z) : RM (option nat) :=
  rm ← get;
  if activeCount rm >=? rc_MaxConcurrentRecov (rm_config rm) then mret None else
  match rm_queue rm with
  | [] => mret None
  | shardID :: queue =>
      put (set_queue queue rm);;
      match GetShard (co_shardManager c) shardID with
      | None => mret None
      | Some shard =>
          match findSourceNode c shard with
          | None => mret None
          | Some source =>
              let j := length (rm_jobs rm) in
              put (mkManager (rm_config rm) (rm_data rm)
                     (rm_jobs rm ++ [mkJob shardID (nd_ID source) now 0 RecoveryStatusStreaming None 0])
                     (<[shardID := j]> (rm_recovering rm)) queue);;
              mret (Some j)
          end
      end
  end.

(** ** Running it *)

Definition failRecovery (j : nat) (e : recoveryError) : RM unit :=
  modify (λ rm, match rm_jobs rm !! j with
                | Some job => set_job j (mkJob (rj_ShardID job) (rj_SourceNode job) (rj_StartTime job) (rj_BytesRecv job)
                                           RecoveryStatusFailed (Some e) (rj_Progress job)) rm
                | None => rm
                end).

Definition set_bytes (j : nat) (n : Z) (rm : RecoveryManager) : RecoveryManager :=
  match rm_jobs rm !! j with
  | Some job => set_job j (mkJob (rj_ShardID job) (rj_SourceNode job) (rj_StartTime job) n
                             (rj_Status job) (rj_Error job) (rj_Progress job)) rm
  | None => rm
  end.

(** The messages of the stream; the answer says whether all were imported. *)
Fixpoint import_messages (j : nat) (shardID total : Z) (msgs : list (list byte)) : RM bool :=
  match msgs with
  | [] => mret true
  | m :: msgs =>
      rm ← get;
      let '(ok, p) := ImportData shardID m (rm_data rm) in
      put (set_data p rm);;
      if ok then modify (set_bytes j (i64 (total + len m)));; import_messages j shardID (i64 (total + len m)) msgs
      else failRecovery j EImport;; mret false
  end.

Definition complete (j : nat) : RM unit :=
  modify (λ rm, match rm_jobs rm !! j with
                | Some job => set_job j (mkJob (rj_ShardID job) (rj_SourceNode job) (rj_StartTime job) (rj_BytesRecv job)
                                           RecoveryStatusComplete (rj_Error job) 100) rm
                | None => rm
                end).

(** The goroutine fails the job, completes it and returns, or waits where it is. *)
Definition failed (j : nat) (e : recoveryError) : RM course := failRecovery j e;; mret Returned.
Definition completed (j : nat) : RM course := complete j;; mret Returned.

(** The comparison of checksums *)
Definition verify (j : nat) (shardID : Z) (remote : reply) : RM course :=
  rm ← get;
  match GetChecksum shardID (rm_data rm) with
  | None => failed j EChecksum
  | Some localChecksum =>
      match remote with
      | NeverAnswers => mret Waiting
      | NoReply => failed j ERemoteChecksum
      | Answered remoteChecksum =>
          if String.eqb localChecksum remoteChecksum then completed j else failed j EMismatch
      end
  end.

(** [s]: what the stream from the source yields; [remote]: what the source answers to the
    request for its checksum. *)
Definition executeRecovery (j : nat) (s : stream) (remote : reply) : RM course :=
  rm ← get;
  match rm_jobs rm !! j with
  | None => panic
  | Some job =>
      match s with
      | NotOpened => failed j EStream
      | NeverOpens => mret Waiting
      | Opened msgs e =>
          ok ← import_messages j (rj_ShardID job) 0 msgs;
          if negb ok then mret Returned else
          match e with
          | Silent => mret Waiting
          | Broken => failed j EStream
          | EndOfFile =>
              if rc_ChecksumEnabled (rm_config rm) then verify j (rj_ShardID job) remote else completed j
          end
      end
  end.

(** ** Anti-entropy *)

Definition getLocalShards (c : Coordinator) : list Z :=
  match co_store c !! co_localNode c with
  | None => []
  | Some self => (filter (λ e, sh_Primary (snd e) = nd_ID self) (map_range (sm_shards (co_shardManager c)))).*1
  end.

(** The replicas whose checksum differs: the nodes the shard is pushed to *)
Definition repairShard (c : Coordinator) (remote : Node → Z → option string) (p : P) (shardID : Z) : list Node :=
  match GetShard (co_shardManager c) shardID with
  | None => []
  | Some shard =>
      match GetChecksum shardID p with
      | None => []
      | Some localChecksum =>
          sh_Replicas shard ≫= λ replicaID,
            filter (λ n, nd_ID n = replicaID ∧ IsHealthy n = true ∧
                         match remote n shardID with
                         | Some sum => negb (String.eqb localChecksum sum) | None => false
                         end = true)
              (GetAllNodes (co_store c) (co_hashRing c))
      end
  end.

Definition runAntiEntropy (c : Coordinator) (remote : Node → Z → option string) (p : P) : list (Z * list Node) :=
  (λ id, (id, repairShard c remote p id)) <$> getLocalShards c.

(** ** Serving others *)

(** [send_ok n]: whether the [n]-th message is sent; the answer is what was sent. *)
Fixpoint send_items (send_ok : nat → bool) (n : nat) (items : list (list byte)) : list (list byte) * bool :=
  match items with
  | [] => ([], true)
  | m :: items => if send_ok n then let '(sent, ok) := send_items send_ok (S n) items in (m :: sent, ok) else ([], false)
  end.

Definition HandleStreamRequest (p : P) (send_ok : nat → bool) (shardID : Z) :
    result recoveryError unit * list (list byte) :=
  match GetShardData shardID p with
  | None => (Err EShardData, [])
  | Some (items, clean) =>
      let '(sent, ok) := send_items send_ok 0 items in
      (if negb ok then Err ESend else if clean then Ok tt else Err EIterator, sent)
  end.

(** What reaches the replica; errors are not reported. *)
Definition pushDataToReplica (p : P) (send_ok : nat → bool) (shardID : Z) : list (list byte) :=
  match GetShardData shardID p with
  | None => []
  | Some (items, _) => fst (send_items send_ok 0 items)
  end.

Definition HandleChecksumRequest (p : P) (shardID : Z) : result recoveryError (Z * string * Z) :=
  match GetChecksum shardID p with
  | None => Err EChecksum
  | Some sum => match GetShardSize shardID p with None => Err ESize | Some n => Ok (shardID, sum, n) end
  end.

(** ** Theorems *)

Definition status_of (rm : RecoveryManager) (j : nat) : option RecoveryStatus := rj_Status <$> rm_jobs rm !! j.

(** The data after a list of imports, if all succeed *)
Fixpoint imported (shardID : Z) (msgs : list (list byte)) (p : P) : option P :=
  match msgs with
  | [] => Some p
  | m :: msgs => let '(ok, p) := ImportData shardID m p in if ok then imported shardID msgs p else None
  end.

Lemma set_bytes_fields j n rm : rm_config (set_bytes j n rm) = rm_config rm ∧ rm_data (set_bytes j n rm) = rm_data rm ∧
  ∀ i, status_of (set_bytes j n rm) i = status_of rm i.
Proof.
  unfold set_bytes, status_of. destruct (rm_jobs rm !! j) as [job|] eqn:Hj; [|done]. split_and!; [done..|].
  intros i. simpl. destruct (decide (i = j)) as [->|].
  - rewrite list_lookup_insert_eq by (by eapply lookup_lt_Some). by rewrite Hj.
  - by rewrite list_lookup_insert_ne.
Qed.

Lemma failRecovery_status j e rm : is_Some (rm_jobs rm !! j) →
  status_of (snd (failRecovery j e rm)) j = Some RecoveryStatusFailed.
Proof.
  intros [job Hj]. unfold failRecovery, status_of. unfold_M. simpl. rewrite Hj. simpl.
  by rewrite list_lookup_insert_eq by (by eapply lookup_lt_Some).
Qed.

Lemma import_messages_run j shardID msgs total rm : is_Some (rm_jobs rm !! j) →
  ∃ ok rm', import_messages j shardID total msgs rm = (Ok ok, rm') ∧ is_Some (rm_jobs rm' !! j) ∧
    if ok then status_of rm' j = status_of rm j ∧ imported shardID msgs (rm_data rm) = Some (rm_data rm')
    else status_of rm' j = Some RecoveryStatusFailed ∧ imported shardID msgs (rm_data rm) = None.
Proof.
  revert total rm. induction msgs as [|m msgs IH]; intros total rm Hj; simpl.
  { exists true, rm. done. }
  unfold mbind, M_bind, get. destruct (ImportData shardID m (rm_data rm)) as [[] p] eqn:E.
  - unfold put, modify. simpl. set (rm1 := set_bytes j _ (set_data p rm)).
    destruct (set_bytes_fields j (i64 (total + len m)) (set_data p rm)) as (_ & Hd & Hs). fold rm1 in Hd, Hs.
    assert (Hj1 : is_Some (rm_jobs rm1 !! j)).
    { specialize (Hs j). unfold status_of in Hs. simpl in Hs. destruct Hj as [job Hj]. rewrite Hj in Hs.
      destruct (rm_jobs rm1 !! j); [by eexists|done]. }
    destruct (IH (i64 (total + len m)) rm1 Hj1) as (ok & rm' & -> & Hj' & Hok). exists ok, rm'.
    split_and!; [done|done|]. rewrite Hs, Hd in Hok. exact Hok.
  - unfold put. simpl. exists false. eexists. split; [done|].
    destruct Hj as [job Hj]. rewrite Hj. simpl. unfold status_of. simpl.
    rewrite list_lookup_insert_eq by (by eapply lookup_lt_Some). split; [by eexists|done].
Qed.

Lemma complete_status j rm : is_Some (rm_jobs rm !! j) → status_of (snd (complete j rm)) j = Some RecoveryStatusComplete.
Proof.
  intros [job Hj]. unfold complete, status_of. unfold_M. simpl. rewrite Hj. simpl.
  by rewrite list_lookup_insert_eq by (by eapply lookup_lt_Some).
Qed.

(** How a job ends and when it does not *)
Definition all_imported (rm : RecoveryManager) (shardID : Z) (s : stream) (e : ending) (p : P) : Prop :=
  ∃ msgs, s = Opened msgs e ∧ imported shardID msgs (rm_data rm) = Some p.

Definition outcome (rm rm' : RecoveryManager) (j : nat) (c : course) (succeeds waits : Prop) : Prop :=
  (c = Waiting ↔ waits) ∧
  match c with
  | Returned => (status_of rm' j = Some RecoveryStatusComplete ∨ status_of rm' j = Some RecoveryStatusFailed) ∧
                (status_of rm' j = Some RecoveryStatusComplete ↔ succeeds)
  | Waiting => status_of rm' j = status_of rm j
  end.

Lemma failed_run j e rm rm0 (T W : Prop) : is_Some (rm_jobs rm !! j) → ¬ T → ¬ W →
  ∃ c rm', failed j e rm = (Ok c, rm') ∧ outcome rm0 rm' j c T W.
Proof.
  intros Hj HT HW. eexists Returned, _. split; [done|]. split; [by split; [|intros ?%HW]|].
  pose proof (failRecovery_status j e rm Hj) as Hs. unfold failRecovery, modify in Hs. simpl in Hs. rewrite Hs.
  split; [by right|]. split; [done|by intros ?%HT].
Qed.

Lemma completed_run j rm rm0 (T W : Prop) : is_Some (rm_jobs rm !! j) → T → ¬ W →
  ∃ c rm', completed j rm = (Ok c, rm') ∧ outcome rm0 rm' j c T W.
Proof.
  intros Hj HT HW. eexists Returned, _. split; [done|]. split; [by split; [|intros ?%HW]|].
  pose proof (complete_status j rm Hj) as Hs. unfold complete, modify in Hs. simpl in Hs. rewrite Hs.
  split; [by left|]. by split.
Qed.

Lemma waiting_run j rm rm0 (T W : Prop) : status_of rm j = status_of rm0 j → W →
  ∃ c rm', (mret Waiting : RM course) rm = (Ok c, rm') ∧ outcome rm0 rm' j c T W.
Proof. intros Hs HW. exists Waiting, rm. split; [done|]. by split. Qed.

Lemma verify_run j shardID remote rm rm0 : is_Some (rm_jobs rm !! j) → status_of rm j = status_of rm0 j →
  ∃ c rm', verify j shardID remote rm = (Ok c, rm') ∧
    outcome rm0 rm' j c (∃ sum, GetChecksum shardID (rm_data rm) = Some sum ∧ remote = Answered sum)
      (is_Some (GetChecksum shardID (rm_data rm)) ∧ remote = NeverAnswers).
Proof.
  intros Hj Hs. unfold verify. rewrite get_bind. destruct (GetChecksum shardID (rm_data rm)) as [sum|].
  2: { apply failed_run; [done|by intros (? & [=] & _)|by intros [[? [=]] _]]. }
  destruct remote as [rsum| |].
  - destruct (String.eqb_spec sum rsum) as [->|Hne].
    + apply completed_run; [done|by exists rsum|by intros [_ [=]]].
    + apply failed_run; [done|by intros (? & [= <-] & [= ->])|by intros [_ [=]]].
  - apply failed_run; [done|by intros (? & _ & [=])|by intros [_ [=]]].
  - apply waiting_run; [done|]. by split.
Qed.

Lemma outcome_iff rm rm' j c (T T' W W' : Prop) : (T ↔ T') → (W ↔ W') → outcome rm rm' j c T W → outcome rm rm' j c T' W'.
Proof. intros HT HW [H1 H2]. split; [by rewrite H1|]. destruct c; [|done]. destruct H2 as [H2 H3]. split; [done|by rewrite H3]. Qed.

(** C16. A recovery never panics. Its goroutine waits for ever exactly when the stream never
    opens, or falls silent after messages that were all imported, or, with checksums enabled,
    the source never answers the request for its checksum; its job is then still streaming.
    Else the job ends complete or failed, and it is complete exactly when the stream opened
    and ended, every message of it was imported in order and, with checksums enabled, the
    checksum of the resulting data is the one the source reports. *)
Theorem recovery_verified rm j job s remote : rm_jobs rm !! j = Some job →
  ∃ c rm', executeRecovery j s remote rm = (Ok c, rm') ∧
    (c = Waiting ↔ s = NeverOpens ∨ (∃ p, all_imported rm (rj_ShardID job) s Silent p) ∨
       (∃ p, all_imported rm (rj_ShardID job) s EndOfFile p ∧ rc_ChecksumEnabled (rm_config rm) = true ∧
         is_Some (GetChecksum (rj_ShardID job) p) ∧ remote = NeverAnswers)) ∧
    match c with
    | Waiting => status_of rm' j = Some (rj_Status job)
    | Returned =>
        (status_of rm' j = Some RecoveryStatusComplete ∨ status_of rm' j = Some RecoveryStatusFailed) ∧
        (status_of rm' j = Some RecoveryStatusComplete ↔
         ∃ p, all_imported rm (rj_ShardID job) s EndOfFile p ∧
           (rc_ChecksumEnabled (rm_config rm) = true →
            ∃ sum, GetChecksum (rj_ShardID job) p = Some sum ∧ remote = Answered sum))
    end.
Proof.
  intros Hj. assert (Hst : status_of rm j = Some (rj_Status job)) by (unfold status_of; by rewrite Hj).
  rewrite <- Hst. unfold executeRecovery. rewrite get_bind, Hj. unfold all_imported.
  destruct s as [| |msgs e].
  { apply (failed_run j EStream rm rm); [by eexists|by intros (? & (? & [=] & _) & _)|].
    intros [[=]|[(? & ? & [=] & _)|(? & (? & [=] & _) & _)]]. }
  { apply (waiting_run j rm rm); [done|]. by left. }
  destruct (import_messages_run j (rj_ShardID job) msgs 0 rm) as (ok & rm1 & E & Hj1 & Hok); [by eexists|].
  rewrite (M_bind_run _ _ _ _ _ E). destruct ok, Hok as [Hs Hi]; cbn [negb]; cbv iota.
  2: { exists Returned, rm1. split; [done|]. rewrite Hs. split_and!.
       - split; [done|]. intros [[=]|[(? & ? & [= <- ->] & ?)|(? & (? & [= <- ->] & ?) & _)]]; congruence.
       - by right.
       - split; [done|]. intros (? & (? & [= <- ->] & ?) & _). congruence. }
  destruct e.
  - destruct (rc_ChecksumEnabled (rm_config rm)).
    + destruct (verify_run j (rj_ShardID job) remote rm1 rm Hj1 Hs) as (c & rm' & Ev & Ho). exists c, rm'. split; [exact Ev|].
      revert Ho. apply outcome_iff; split.
      * intros (sum & ? & ?). exists (rm_data rm1). split; [by exists msgs|]. intros _. by exists sum.
      * intros (p & (? & [= <-] & Hp) & Hsum). assert (p = rm_data rm1) as -> by congruence. by apply Hsum.
      * intros [? ?]. right. right. exists (rm_data rm1). split; [by exists msgs|done].
      * intros [[=]|[(? & ? & [=] & _)|(p & (? & [= <-] & Hp) & _ & ? & ?)]]. assert (p = rm_data rm1) as -> by congruence. done.
    + apply (completed_run j rm1 rm); [done| |].
      * exists (rm_data rm1). split; [by exists msgs|done].
      * intros [[=]|[(? & ? & [=] & _)|(? & _ & [=] & _)]].
  - apply (failed_run j EStream rm1 rm); [done|by intros (? & (? & [=] & _) & _)|].
    intros [[=]|[(? & ? & [=] & _)|(? & (? & [=] & _) & _)]].
  - apply (waiting_run j rm1 rm); [done|]. right. left. exists (rm_data rm1). by exists msgs.
Qed.

(** ** Histories *)

Inductive rop :=
| RRecover (shardID : Z) | RProcess (c : Coordinator) (now : Z)
| RExecute (j : nat) (s : stream) (remote : reply).

Definition rstep (o : rop) : RM unit :=
  match o with
  | RRecover id => RecoverShard id
  | RProcess c now => _ ← processRecoveryQueue c now; mret tt
  | RExecute j s remote => _ ← executeRecovery j s remote; mret tt
  end.
Definition rrun (rm : RecoveryManager) (os : list rop) : RecoveryManager := foldl (λ rm o, snd (rstep o rm)) rm os.

Lemma bind_snd_ret {A} (m : RM A) rm : snd ((_ ← m; mret tt) rm) = snd (m rm).
Proof. unfold mbind, M_bind. by destruct (m rm) as [[]?]. Qed.

(** No step forgets a shard. *)
Lemma keeps_recovering o rm id : is_Some (rm_recovering rm !! id) → is_Some (rm_recovering (snd (rstep o rm)) !! id).
Proof.
  intros Hid. destruct o as [id'|c now|j st remote]; cbn [rstep].
  - unfold RecoverShard. unfold_M. by destruct (rm_recovering rm !! id').
  - unfold processRecoveryQueue. unfold_M. repeat case_match; simplify_eq; simpl; try done.
    all: rewrite ?lookup_insert_is_Some'; auto.
  - assert (Hf : ∀ e rm1, rm_recovering (snd (failRecovery j e rm1)) = rm_recovering rm1).
    { intros e rm1. unfold failRecovery. unfold_M. simpl. by destruct (rm_jobs rm1 !! j). }
    assert (Hcm : ∀ rm1, rm_recovering (snd (complete j rm1)) = rm_recovering rm1).
    { intros rm1. unfold complete. unfold_M. simpl. by destruct (rm_jobs rm1 !! j). }
    assert (Him : ∀ msgs s t rm1, rm_recovering (snd (import_messages j s t msgs rm1)) = rm_recovering rm1).
    { induction msgs as [|m msgs IH]; intros s t rm1; simpl; [done|]. unfold mbind, M_bind, get.
      destruct (ImportData s m (rm_data rm1)) as [[] p]; unfold put, modify; simpl.
      - rewrite IH. unfold set_bytes. by destruct (rm_jobs _ !! j).
      - by destruct (rm_jobs rm1 !! j). }
    assert (Hf' : ∀ e rm1, rm_recovering (snd (failed j e rm1)) = rm_recovering rm1) by (intros; apply Hf).
    assert (Hcm' : ∀ rm1, rm_recovering (snd (completed j rm1)) = rm_recovering rm1) by (intros; apply Hcm).
    rewrite bind_snd_ret. unfold executeRecovery. rewrite get_bind. destruct (rm_jobs rm !! j) as [job|]; [|done].
    destruct st as [| |msgs en]; [by rewrite Hf'|done|]. specialize (Him msgs (rj_ShardID job) 0 rm).
    unfold mbind, M_bind. destruct (import_messages j (rj_ShardID job) 0 msgs rm) as [[[]|e|] rm1];
      simpl in Him; cbn [negb]; cbv iota; [|simpl; by rewrite Him..].
    destruct en; [|by rewrite Hf', Him|simpl; by rewrite Him].
    destruct (rc_ChecksumEnabled (rm_config rm)); [|by rewrite Hcm', Him].
    unfold verify. rewrite get_bind. destruct (GetChecksum _ _); [|by rewrite Hf', Him].
    destruct remote; [|by rewrite Hf', Him|simpl; by rewrite Him]. destruct (String.eqb _ _); by rewrite ?Hf', ?Hcm', Him.
Qed.

(** A shard whose recovery was started once, whether it completed or failed, is reported
    as already recovering for ever after. *)
Theorem recovery_never_repeated rm id os :
  is_Some (rm_recovering rm !! id) → fst (RecoverShard id (rrun rm os)) = Err EAlreadyRecovering.
Proof.
  intros Hid. assert (H : is_Some (rm_recovering (rrun rm os) !! id)).
  { revert rm Hid. induction os as [|o os IH]; intros rm Hid; simpl; [done|]. by apply IH, keeps_recovering. }
  destruct H as [j Hj]. unfold RecoverShard. unfold_M. by rewrite Hj.
Qed.
End recovery.
Arguments RecoveryManager : clear implicits.

(** ** A provider that keeps the bytes of each shard; the checksum is their text. *)

#[local] Instance bytes_provider : DataProvider (gmap Z (list byte)) := {|
  ImportData id m p := (true, <[id := default [] (p !! id) ++ m]> p);
  GetChecksum id p := string_of_bytes <$> p !! id;
  GetShardSize id p := len <$> p !! id;
  GetShardData id p := (λ bs, ([bs], true)) <$> p !! id
|}.

Definition demo_job : recoveryJob := mkJob 3 "b" 0 0 RecoveryStatusStreaming None 0.
Definition demo_rm : RecoveryManager (gmap Z (list byte)) :=
  mkManager DefaultRecoveryConfig ∅ [demo_job] {[3 := 0%nat]} [].

(** The shard is streamed in two messages; a source that keeps the stream open after them
    keeps the recovery waiting. *)
Lemma recovery_verified_witness :
  (∃ rm', executeRecovery 0 (Opened [[x61]; [x62; x63]] EndOfFile) (Answered "abc") demo_rm = (Ok Returned, rm') ∧
     status_of rm' 0 = Some RecoveryStatusComplete) ∧
  (∃ rm', executeRecovery 0 (Opened [[x61]; [x62; x63]] Silent) (Answered "abc") demo_rm = (Ok Waiting, rm') ∧
     status_of rm' 0 = Some RecoveryStatusStreaming).
Proof.
  split.
  - destruct (recovery_verified demo_rm 0 demo_job (Opened [[x61]; [x62; x63]] EndOfFile) (Answered "abc"))
      as (c & rm' & H1 & H2 & H3); [reflexivity|].
    assert (c = Returned) as ->.
    { destruct c; [reflexivity|]. destruct (proj1 H2 eq_refl) as [[=]|[(? & ? & [=] & _)|(? & _ & _ & _ & [=])]]. }
    exists rm'. split; [exact H1|]. apply H3. exists {[3 := [x61; x62; x63]]}.
    split; [eexists; split; [reflexivity|vm_compute; reflexivity]|]. intros _. exists "abc". split; reflexivity.
  - destruct (recovery_verified demo_rm 0 demo_job (Opened [[x61]; [x62; x63]] Silent) (Answered "abc"))
      as (c & rm' & H1 & H2 & H3); [reflexivity|].
    assert (c = Waiting) as ->.
    { apply H2. right. left. exists {[3 := [x61; x62; x63]]}. eexists. split; [reflexivity|vm_compute; reflexivity]. }
    exists rm'. split; [exact H1|exact H3].
Defined.

Lemma recovery_never_repeated_witness (sha : Sha256) (sorter : Sorter) (order : MapOrder string) (zorder : MapOrder Z) :
  fst (RecoverShard 3 (rrun demo_rm [RExecute 0 NotOpened NoReply])) = Err EAlreadyRecovering.
Proof. apply (recovery_never_repeated demo_rm 3 [RExecute 0 NotOpened NoReply]). by exists 0%nat. Defined.
