(* ===== verification/Fsm.v ===== *)
(** * pkg/cluster/fsm.go: the replicated state machine

    [Apply] carries out one committed command of the Raft log on the manager of a
    node. What may differ between nodes is an argument: the levels the index draws,
    the payload databases, and the log each node writes. [replicas_agree] shows that
    none of it matters: nodes that apply the same commands return the same answers
    and read the same data afterwards. Commands arrive as bytes; JSON decoding is an
    interface. Snapshots of the machine are file transfers and are not modelled. *)
From stdpp Require Import base gmap strings list fin_maps numbers sorting.
From Stdlib Require Import Strings.Byte ZArith Lia Floats.SpecFloat.
From S2P Require Import Prelude Float32 Heap WalCodec WalProofs Hnsw Distance HnswGraph HnswSpec HnswContents.
From S2P Require Import Cache PayloadFilter PayloadIndex Binary Point Sparse Config SearchCache Collection.
From S2P Require Import CollectionSpec CollectionLog Manager Recovery RecoveryTheorems.

#[local] Open Scope Z_scope.

(** ** Commands *)

Record Command (B : Type) := mkCommand { cmd_Op : string; cmd_Data : B }.
Arguments mkCommand {B}. Arguments cmd_Op {B}. Arguments cmd_Data {B}.

(** [json.Unmarshal] into the types of the commands; a missing configuration decodes
    to a nil pointer. The points of a command are never null here: the code dereferences
    a null one and panics. *)
Class CommandJson (B Q : Type) := {
  dec_Command : B → option (Command B);
  dec_SetLeaderRest : B → option string;
  dec_CreateCollection : B → option (option (CollectionConfig Q));
  dec_DeleteCollection : B → option string;
  dec_UpsertPoints : B → option (string * list Point);
  dec_DeletePoints : B → option (string * list string)
}.

Definition OpCreateCollection : string := "create_collection".
Definition OpDeleteCollection : string := "delete_collection".
Definition OpUpsertPoints : string := "upsert_points".
Definition OpDeletePoints : string := "delete_points".
Definition OpSetLeaderRest : string := "set_leader_rest".

Inductive fsmError := EUnmarshal | EUnknownOp (op : string) | EManager (e : managerError) | EBatch (e : collError).

(** What a node brings to a command *)
Record env (D : Type) := mkEnv { e_db : D; e_mkdir : bool; e_save : bool; e_remove : bool; e_levels : nat → string → Z }.
Arguments mkEnv {D}. Arguments e_db {D}. Arguments e_mkdir {D}. Arguments e_save {D}.
Arguments e_remove {D}. Arguments e_levels {D}.

Section fsm.
Context {B Q D L : Type} {cj : CommandJson B Q}.
Context {nq : NewQuantizer Q} {dbase : Database D} {logI : Log L} {durable : DurableLog L}.
Context {sorter : Sorter} {order : MapOrder string} {zorder : MapOrder Z}.
Context {json : Json} {digest : Digest} {cm : CaseMap}.

#[local] Abbreviation Cfg := (CollectionConfig Q).
#[local] Abbreviation Sys := (Manager Q D * L)%type.

(** The manager, the log its collections share and, when the node runs Raft, the
    address of the leader. *)
Record FSM := mkFSM { f_sys : Sys; f_leaderRest : option string }.
#[local] Abbreviation Answer := (result fsmError (option BatchResult)).

Definition man_err {A} (r : result managerError A) : result fsmError A :=
  match r with Ok a => Ok a | Err e => Err (EManager e) | Panic => Panic end.

(** [for _, id := range data.IDs { _ = coll.Delete(id) }] *)
Fixpoint delete_points (ids : list string) : M (Coll Q D * L) collError unit :=
  match ids with
  | [] => mret tt
  | id :: ids => λ s,
      match Collection.Delete id s with
      | (Panic, s) => (Panic, s)
      | (_, s) => delete_points ids s
      end
  end.

(** Carries an operation of the manager or a collection over to the machine. *)
Definition on_sys {A} (k : A → Answer) (o : result managerError A * Sys) (f : FSM) : Answer * FSM :=
  (match fst o with Ok a => k a | Err e => Err (EManager e) | Panic => Panic end,
   mkFSM (snd o) (f_leaderRest f)).

Definition nil_answer {A} (_ : A) : Answer := Ok None.

(** [Manager.Create] on the manager of the machine *)
Definition create (e : env D) (cfg : Cfg) (s : Sys) : result managerError (Coll Q D) * Sys :=
  let '(r, m) := Create (λ _, e_db e) (e_mkdir e) (e_save e) cfg (fst s) in (r, (m, snd s)).
Definition remove (e : env D) (name : string) (s : Sys) : result managerError unit * Sys :=
  let '(r, m) := Manager.Delete (e_remove e) name (fst s) in (r, (m, snd s)).

Definition Apply (e : env D) (data : B) (f : FSM) : Answer * FSM :=
  match dec_Command data with
  | None => (Ok None, f)
  | Some cmd =>
      let op := cmd_Op cmd in
      if String.eqb op OpSetLeaderRest then
        match dec_SetLeaderRest (cmd_Data cmd) with
        | None => (Err EUnmarshal, f)
        | Some addr => (Ok None, mkFSM (f_sys f) (match f_leaderRest f with Some _ => Some addr | None => None end))
        end
      else if String.eqb op OpCreateCollection then
        match dec_CreateCollection (cmd_Data cmd) with
        | None => (Err EUnmarshal, f)
        | Some None => (Panic, f)
        | Some (Some cfg) =>
            if Exists (cc_Name cfg) (fst (f_sys f)) then (Ok None, f)
            else on_sys nil_answer (create e cfg (f_sys f)) f
        end
      else if String.eqb op OpDeleteCollection then
        match dec_DeleteCollection (cmd_Data cmd) with
        | None => (Err EUnmarshal, f)
        | Some name =>
            if Exists name (fst (f_sys f)) then on_sys nil_answer (remove e name (f_sys f)) f else (Ok None, f)
        end
      else if String.eqb op OpUpsertPoints then
        match dec_UpsertPoints (cmd_Data cmd) with
        | None => (Err EUnmarshal, f)
        | Some (name, points) =>
            on_sys (λ '(r, err), match err with Some e => Err (EBatch e) | None => Ok (Some r) end)
              (on_collection name (InsertBatch (e_levels e) points) (f_sys f)) f
        end
      else if String.eqb op OpDeletePoints then
        match dec_DeletePoints (cmd_Data cmd) with
        | None => (Err EUnmarshal, f)
        | Some (name, ids) => on_sys nil_answer (on_collection name (delete_points ids) (f_sys f)) f
        end
      else (Err (EUnknownOp op), f)
  end.

Fixpoint apply_all (es : list (env D)) (log : list B) (f : FSM) : list Answer * FSM :=
  match es, log with
  | e :: es, data :: log => let '(a, f) := Apply e data f in let '(r, f) := apply_all es log f in (a :: r, f)
  | _, _ => ([], f)
  end.

(** ** The machine on tables *)

#[local] Abbreviation Db := (gmap string (Cfg * table)).
Record state := mkStateOf { st_db : Db; st_leader : option string }.

Definition t_delete_all (ids : list string) (t : table) : table := foldl (λ t id, snd (t_delete id t)) t ids.

Definition on_db {A} (k : A → Answer) (o : result managerError A * Db) (st : state) : Answer * state :=
  (match fst o with Ok a => k a | Err e => Err (EManager e) | Panic => Panic end, mkStateOf (snd o) (st_leader st)).

Definition db_remove (name : string) (db : Db) : result managerError unit * Db :=
  match validateName name with
  | Ok _ => match db !! name with Some _ => (Ok tt, delete name db) | None => (Err ECollectionNotFound, db) end
  | Err e => (Err e, db)
  | Panic => (Panic, db)
  end.

Definition spec_Apply (max : Z) (pdb : D) (data : B) (st : state) : Answer * state :=
  match dec_Command data with
  | None => (Ok None, st)
  | Some cmd =>
      let op := cmd_Op cmd in
      if String.eqb op OpSetLeaderRest then
        match dec_SetLeaderRest (cmd_Data cmd) with
        | None => (Err EUnmarshal, st)
        | Some addr => (Ok None, mkStateOf (st_db st) (match st_leader st with Some _ => Some addr | None => None end))
        end
      else if String.eqb op OpCreateCollection then
        match dec_CreateCollection (cmd_Data cmd) with
        | None => (Err EUnmarshal, st)
        | Some None => (Panic, st)
        | Some (Some cfg) =>
            match st_db st !! cc_Name cfg with
            | Some _ => (Ok None, st)
            | None => on_db nil_answer (db_create max pdb cfg (st_db st)) st
            end
        end
      else if String.eqb op OpDeleteCollection then
        match dec_DeleteCollection (cmd_Data cmd) with
        | None => (Err EUnmarshal, st)
        | Some name =>
            match st_db st !! name with
            | Some _ => on_db nil_answer (db_remove name (st_db st)) st
            | None => (Ok None, st)
            end
        end
      else if String.eqb op OpUpsertPoints then
        match dec_UpsertPoints (cmd_Data cmd) with
        | None => (Err EUnmarshal, st)
        | Some (name, points) =>
            on_db (λ '(r, err), match err with Some e => Err (EBatch e) | None => Ok (Some r) end)
              (db_on name (t_InsertBatch points) (st_db st)) st
        end
      else if String.eqb op OpDeletePoints then
        match dec_DeletePoints (cmd_Data cmd) with
        | None => (Err EUnmarshal, st)
        | Some (name, ids) => on_db nil_answer (db_on name (λ _ t, (Ok tt, t_delete_all ids t)) (st_db st)) st
        end
      else (Err (EUnknownOp op), st)
  end.

Fixpoint spec_apply_all (max : Z) (pdb : D) (log : list B) (st : state) : list Answer * state :=
  match log with
  | [] => ([], st)
  | data :: log => let '(a, st) := spec_Apply max pdb data st in
                   let '(r, st) := spec_apply_all max pdb log st in (a :: r, st)
  end.

(** ** Supported commands and their cost on the log *)

Definition command_ok (data : B) : Prop :=
  match dec_Command data with
  | None => True
  | Some cmd =>
      (∀ cfg, dec_CreateCollection (cmd_Data cmd) = Some (Some cfg) →
         HasNamedVectors cfg = false ∧ hc_M (cc_HNSW cfg) ≤ 2 ^ 62 - 1) ∧
      (∀ name ps, dec_UpsertPoints (cmd_Data cmd) = Some (name, ps) → Forall storable ps ∧ len ps < 2 ^ 32) ∧
      (∀ name ids, dec_DeletePoints (cmd_Data cmd) = Some (name, ids) →
         Forall (λ id, len (bytes_of_string id) ≤ 2 ^ 32 - 512) ids)
  end.

Definition command_cost (data : B) : Z :=
  match dec_Command data with
  | None => 0
  | Some cmd =>
      (match dec_UpsertPoints (cmd_Data cmd) with Some (_, ps) => len ps + 2 | None => 0 end) +
      (match dec_DeletePoints (cmd_Data cmd) with Some (_, ids) => len ids | None => 0 end)
  end.
Definition log_cost (log : list B) : Z := foldr (λ data n, command_cost data + n) 0 log.

Definition env_ok (e : env D) : Prop :=
  e_mkdir e = true ∧ e_save e = true ∧ e_remove e = true ∧ ∀ n s, 0 ≤ e_levels e n s.

(** ** A node that stands for a state *)

Record running (max b : Z) (f : FSM) (st : state) : Prop := {
  ru_stands : stands true (fst (f_sys f)) (st_db st);
  ru_wal : m_hasWAL (fst (f_sys f)) = true;
  ru_max : m_maxCollections (fst (f_sys f)) = max;
  ru_log : ∃ rs, healthy b (snd (f_sys f)) rs;
  ru_leader : f_leaderRest f = st_leader st
}.

Lemma running_weaken max b b' f st : running max b f st → b' ≤ b → running max b' f st.
Proof. intros [? ? ? (rs & Hh) ?] Hb. constructor; try done. exists rs. by eapply healthy_weaken. Qed.

Lemma on_collection_running {A} (g : M (Coll Q D * L) collError A) tf (k : A → Answer) cost max b f st name :
  serves g tf cost → running max (b + cost) f st → 0 ≤ b → 0 ≤ cost →
  let '(a, f') := on_sys k (on_collection name g (f_sys f)) f in
  let '(a', st') := on_db k (db_on name tf (st_db st)) st in
  a = a' ∧ running max b f' st'.
Proof.
  intros Hg [Hst Hw Hmax (rs & Hh) Hl] Hb Hc. destruct f as [[m l] lr]. simpl in *.
  pose proof (proj2 Hst name) as Hm. unfold on_sys, on_db, on_collection, Manager.Get, db_on, matches in *.
  destruct (m_collections m !! name) as [c|] eqn:Ec, (st_db st !! name) as [[cfg t]|] eqn:Edb; try done.
  2: { simpl. split; [done|]. constructor; try done. exists rs. apply (healthy_weaken (b + cost)); [done|simpl; lia]. }
  destruct Hm as (Hr & <- & Hcw & Hgc).
  destruct (Hg c t l b rs Hr Hcw) as (c' & l' & rs' & Hpost); [by rewrite (gc_name _ _ Hgc); apply Hgc|done..|].
  destruct (tf (c_config c) t) as [r t']. destruct Hpost as (-> & Hr' & Hc' & Hw' & Hh' & _).
  simpl. split; [by destruct r|]. constructor; simpl; [by eapply stands_update|done..| |done]. by exists (rs ++ rs').
Qed.

Lemma serves_delete_points ids :
  Forall (λ id, len (bytes_of_string id) ≤ 2 ^ 32 - 512) ids →
  serves (delete_points ids) (λ _ t, (Ok tt, t_delete_all ids t)) (len ids).
Proof.
  intros HF. induction HF as [|id ids Hid HF IH].
  { intros c t l b rs Hr Hw Hn Hh Hb. simpl. exists c, l, []. rewrite app_nil_r. split_and!; try done.
    eapply healthy_weaken; [done|]. unfold len. simpl. lia. }
  intros c t l b rs Hr Hw Hn Hh Hb. rewrite len_cons in Hh. pose proof (len_nonneg ids).
  destruct (serves_Delete id Hid c t l (b + len ids) rs Hr Hw Hn) as (c1 & l1 & rs1 & Hpost).
  { by replace (b + len ids + 1) with (b + (len ids + 1)) by lia. }
  { lia. }
  simpl. pose proof (t_delete_no_panic id t) as Hnp.
  destruct (t_delete id t) as [r t1] eqn:Et. destruct Hpost as (E & Hr1 & Hc1 & Hw1 & Hh1 & Hm1 & Hs1 & Ht1).
  destruct (IH c1 t1 l1 b (rs ++ rs1) Hr1 Hw1) as (c2 & l2 & rs2 & E2 & Hr2 & Hc2 & Hw2 & Hh2 & Hm2 & Hs2 & Ht2);
    [by rewrite Hc1|done|done|].
  exists c2, l2, (rs1 ++ rs2). rewrite E. rewrite app_assoc. simpl in Hnp.
  split_and!; try done; [by destruct r|congruence|..].
  - rewrite <- Hc1 in Hm1. rewrite <- Hc1. by apply Forall_app_2.
  - by apply Forall_app_2.
  - rewrite t_records_app, Ht1. by rewrite <- Hc1.
Qed.

Lemma stands_Exists (m : Manager Q D) (db : Db) name : stands true m db → Exists name m = bool_decide (is_Some (db !! name)).
Proof.
  intros [_ Hm]. specialize (Hm name). unfold Exists, matches in *.
  destruct (m_collections m !! name), (db !! name) as [[]|]; try done.
Qed.

(** Whether a collection can be made does not depend on its payload database. *)
Lemma New_same (db db' : D) (cfg : Cfg) :
  match Collection.New db cfg, Collection.New db' cfg with
  | Ok _, Ok _ | Panic, Panic => True | Err e, Err e' => e = e' | _, _ => False
  end.
Proof.
  unfold Collection.New. destruct (Config.Validate cfg); [|done..]. destruct (HasNamedVectors cfg).
  - by destruct (new_indices _ _).
  - by destruct (new_default_index cfg).
Qed.

Lemma create_running e cfg max b (pdb : D) f st :
  env_ok e → HasNamedVectors cfg = false → hc_M (cc_HNSW cfg) ≤ 2 ^ 62 - 1 → running max b f st →
  let '(a, f') := on_sys nil_answer (create e cfg (f_sys f)) f in
  let '(a', st') := on_db nil_answer (db_create max pdb cfg (st_db st)) st in
  a = a' ∧ running max b f' st'.
Proof.
  intros (Hmk & Hsv & _) Hp HM [Hst Hw Hmax Hlog Hl]. destruct f as [[m l] lr]. destruct st as [db ld]. simpl in *.
  unfold on_sys, on_db, create, Create, db_create. rewrite Hmk, Hsv. unfold_M. cbn [fst snd f_sys f_leaderRest st_db st_leader].
  destruct (validateName (cc_Name cfg)) as [u|er|] eqn:En; [|by split..].
  pose proof (proj2 Hst (cc_Name cfg)) as Hm. unfold matches in Hm.
  destruct (m_collections m !! cc_Name cfg) as [c|] eqn:Ec, (db !! cc_Name cfg) as [[cfg' t]|] eqn:Edb; try done.
  rewrite (stands_size _ _ _ Hst), Hmax. destruct (max <=? Z.of_nat (size db)); [done|].
  pose proof (New_same (e_db e) pdb (with_defaults cfg)) as Hsame.
  destruct (Collection.New (e_db e) (with_defaults cfg)) as [c|er|] eqn:Enew,
    (Collection.New pdb (with_defaults cfg)) as [c'|er'|] eqn:Enew'; try done.
  2: { subst er'. done. }
  simpl. rewrite Hw. split; [done|].
  pose proof (good_with_defaults _ cfg c u En Hp HM Enew) as Hg.
  destruct (New_represents _ _ _ (gc_plain _ _ Hg) (gc_M _ _ Hg) Enew) as (Hr & Hc & _).
  constructor; simpl; try done. apply (stands_create m db (with_defaults cfg) (cc_Name cfg) (SetWAL c)); try done.
  by destruct Hr.
Qed.

Lemma stands_remove (m : Manager Q D) (db : Db) name : stands true m db →
  stands true (set_disk (delete name (m_disk m)) (set_collections (delete name (m_collections m)) m)) (delete name db).
Proof.
  intros [Hd Hm]. split; simpl; [by rewrite Hd, fmap_delete|]. intros n.
  destruct (decide (name = n)) as [<-|Hne]; [by rewrite !lookup_delete_eq|].
  rewrite !lookup_delete_ne by done. apply Hm.
Qed.

Lemma remove_running e name max b f st :
  env_ok e → running max b f st →
  let '(a, f') := on_sys nil_answer (remove e name (f_sys f)) f in
  let '(a', st') := on_db nil_answer (db_remove name (st_db st)) st in
  a = a' ∧ running max b f' st'.
Proof.
  intros (_ & _ & Hrm & _) [Hst Hw Hmax Hlog Hl]. destruct f as [[m l] lr]. destruct st as [db ld]. simpl in *.
  unfold on_sys, on_db, remove, Manager.Delete, db_remove. rewrite Hrm. unfold_M. cbn [fst snd f_sys f_leaderRest st_db st_leader].
  destruct (validateName name) as [u|er|]; [|by split..].
  pose proof (proj2 Hst name) as Hm. unfold matches in Hm.
  destruct (m_collections m !! name) as [c|] eqn:Ec, (db !! name) as [[cfg' t]|] eqn:Edb; try done.
  simpl. split; [done|]. constructor; simpl; try done. by apply stands_remove.
Qed.

Lemma Apply_running e data max b (pdb : D) f st :
  env_ok e → command_ok data → running max (b + command_cost data) f st → 0 ≤ b →
  let '(a, f') := Apply e data f in let '(a', st') := spec_Apply max pdb data st in
  a = a' ∧ running max b f' st'.
Proof.
  intros He Hok Hrun Hb. unfold Apply, spec_Apply, command_ok, command_cost in *.
  destruct (dec_Command data) as [cmd|]; [|split; [done|by eapply running_weaken; [done|lia]]].
  destruct Hok as (Hcr & Hup & Hdel).
  assert (Hcosts : 0 ≤ match dec_UpsertPoints (cmd_Data cmd) with Some (_, ps) => len ps + 2 | None => 0 end ∧
                   0 ≤ match dec_DeletePoints (cmd_Data cmd) with Some (_, ids) => len ids | None => 0 end).
  { split; [destruct (dec_UpsertPoints (cmd_Data cmd)) as [[? ps]|]; [pose proof (len_nonneg ps)|]; lia|].
    destruct (dec_DeletePoints (cmd_Data cmd)) as [[? ids]|]; [pose proof (len_nonneg ids)|]; lia. }
  assert (Hrun0 : running max b f st) by (eapply running_weaken; [done|lia]).
  destruct (String.eqb (cmd_Op cmd) OpSetLeaderRest).
  { destruct (dec_SetLeaderRest (cmd_Data cmd)); [|done]. split; [done|]. destruct Hrun0 as [? ? ? ? ->]. by constructor. }
  destruct (String.eqb (cmd_Op cmd) OpCreateCollection).
  { destruct (dec_CreateCollection (cmd_Data cmd)) as [[cfg|]|]; [|done..].
    rewrite (stands_Exists _ _ _ (ru_stands _ _ _ _ Hrun0)). destruct (Hcr cfg eq_refl) as [H1 H2].
    destruct (st_db st !! cc_Name cfg) as [x|] eqn:Ex.
    - by rewrite bool_decide_eq_true_2.
    - rewrite bool_decide_eq_false_2 by (by intros []). by apply create_running. }
  destruct (String.eqb (cmd_Op cmd) OpDeleteCollection).
  { destruct (dec_DeleteCollection (cmd_Data cmd)) as [name|]; [|done].
    rewrite (stands_Exists _ _ _ (ru_stands _ _ _ _ Hrun0)). destruct (st_db st !! name) as [x|] eqn:Ex.
    - rewrite bool_decide_eq_true_2 by done. by apply remove_running.
    - by rewrite bool_decide_eq_false_2 by (by intros []). }
  destruct (String.eqb (cmd_Op cmd) OpUpsertPoints).
  { destruct (dec_UpsertPoints (cmd_Data cmd)) as [[name ps]|] eqn:E; [|done]. destruct (Hup name ps eq_refl) as [HF Hlen].
    apply (on_collection_running _ _ _ (len ps + 2)); [apply serves_InsertBatch; [apply He|done..]| |done|lia].
    eapply running_weaken; [exact Hrun|]. lia. }
  destruct (String.eqb (cmd_Op cmd) OpDeletePoints); [|done].
  destruct (dec_DeletePoints (cmd_Data cmd)) as [[name ids]|] eqn:E; [|done].
  apply (on_collection_running _ _ _ (len ids)); [by apply serves_delete_points, (Hdel name)| |done|pose proof (len_nonneg ids); lia].
  eapply running_weaken; [exact Hrun|]. lia.
Qed.

Lemma command_cost_nonneg data : 0 ≤ command_cost data.
Proof.
  unfold command_cost. destruct (dec_Command data) as [cmd|]; [|lia].
  destruct (dec_UpsertPoints (cmd_Data cmd)) as [[? ps]|], (dec_DeletePoints (cmd_Data cmd)) as [[? ids]|];
    [pose proof (len_nonneg ps); pose proof (len_nonneg ids)|pose proof (len_nonneg ps)|pose proof (len_nonneg ids)|]; lia.
Qed.
Lemma log_cost_nonneg log : 0 ≤ log_cost log.
Proof. induction log as [|data log IH]; simpl; [lia|]. pose proof (command_cost_nonneg data). lia. Qed.

Lemma apply_all_running es log max b (pdb : D) f st :
  Forall env_ok es → length es = length log → Forall command_ok log → running max (b + log_cost log) f st → 0 ≤ b →
  let '(r, f') := apply_all es log f in let '(r', st') := spec_apply_all max pdb log st in
  r = r' ∧ running max b f' st'.
Proof.
  intros HE. revert log f st. induction HE as [|e es He HE IH]; intros [|data log] f st Hlen HF Hrun Hb; try done; simpl in *.
  { split; [done|]. by replace (b + 0) with b in Hrun by lia. }
  apply Forall_cons_iff in HF as [Hd HF]. pose proof (log_cost_nonneg log).
  pose proof (Apply_running e data max (b + log_cost log) pdb f st He Hd) as Hstep.
  replace (b + log_cost log + command_cost data) with (b + (command_cost data + log_cost log)) in Hstep by lia.
  specialize (Hstep Hrun ltac:(lia)). destruct (Apply e data f) as [a f1], (spec_Apply max pdb data st) as [a' st1].
  destruct Hstep as [-> Hrun1]. specialize (IH log f1 st1 ltac:(lia) HF Hrun1 Hb).
  destruct (apply_all es log f1), (spec_apply_all max pdb log st1). destruct IH as [-> ?]. done.
Qed.

(** ** What a node answers to reads *)

Definition read_point (name id : string) (f : FSM) : result managerError (Hnsw.Point (option payload)) :=
  fst (on_collection name (on_coll (Collection.Get id)) (f_sys f)).
Definition read_page (name : string) (params : ScrollParams) (f : FSM) : result managerError ScrollResult :=
  fst (on_collection name (on_coll (c ← get; lift (Scroll params c))) (f_sys f)).

Lemma read_running {A} (g : M (Coll Q D * L) collError A) tf max b f st name :
  serves g tf 0 → running max b f st → 0 ≤ b →
  fst (on_collection name g (f_sys f)) = fst (db_on name tf (st_db st)).
Proof.
  intros Hg [Hst Hw Hmax (rs & Hh) Hl] Hb. destruct f as [[m l] lr]. simpl in *.
  pose proof (proj2 Hst name) as Hm. unfold on_collection, Manager.Get, db_on, matches in *.
  destruct (m_collections m !! name) as [c|] eqn:Ec, (st_db st !! name) as [[cfg t]|] eqn:Edb; try done.
  destruct Hm as (Hr & <- & Hcw & Hgc).
  destruct (Hg c t l b rs Hr Hcw) as (c' & l' & rs' & Hpost);
    [by rewrite (gc_name _ _ Hgc); apply Hgc|by rewrite Z.add_0_r|done|].
  destruct (tf (c_config c) t) as [r t']. by destruct Hpost as (-> & _).
Qed.

(** A new node on an empty log *)
Definition new_fsm (dbs : string → D) (max : Z) (l : L) : FSM := mkFSM (new_server dbs max, l) (Some "").

Lemma new_running dbs max b l : healthy b l [] → running max b (new_fsm dbs max l) (mkStateOf ∅ (Some "")).
Proof.
  intros Hh. constructor; simpl; [|done|done|by exists []|done].
  split; simpl; [by rewrite fmap_empty|]. intros name. by rewrite !lookup_empty.
Qed.

(** C17. Two nodes that apply the same committed commands, whatever levels their indexes
    draw and whatever their payload databases hold, return the same answers, and answer
    every later read of a point or a page the same; they are the answers of a map of
    tables. *)
Theorem replicas_agree max log es1 es2 dbs1 dbs2 l1 l2 b (pdb : D) :
  Forall command_ok log → Forall env_ok es1 → Forall env_ok es2 →
  length es1 = length log → length es2 = length log →
  healthy (b + log_cost log) l1 [] → healthy (b + log_cost log) l2 [] → 0 ≤ b →
  let '(a1, f1) := apply_all es1 log (new_fsm dbs1 max l1) in
  let '(a2, f2) := apply_all es2 log (new_fsm dbs2 max l2) in
  a1 = a2 ∧ a1 = fst (spec_apply_all max pdb log (mkStateOf ∅ (Some ""))) ∧
  (∀ name id, read_point name id f1 = read_point name id f2) ∧
  (∀ name params, read_page name params f1 = read_page name params f2) ∧
  f_leaderRest f1 = f_leaderRest f2.
Proof.
  intros HF HE1 HE2 Hlen1 Hlen2 Hh1 Hh2 Hb.
  pose proof (apply_all_running es1 log max b pdb _ _ HE1 Hlen1 HF (new_running dbs1 max _ l1 Hh1) Hb) as H1.
  pose proof (apply_all_running es2 log max b pdb _ _ HE2 Hlen2 HF (new_running dbs2 max _ l2 Hh2) Hb) as H2.
  destruct (apply_all es1 log _) as [a1 f1], (apply_all es2 log _) as [a2 f2], (spec_apply_all max pdb log _) as [a st].
  destruct H1 as [-> H1], H2 as [-> H2]. split_and!; [done..| | |].
  - intros name id. unfold read_point.
    by rewrite (read_running _ _ _ _ _ _ _ (serves_Get id) H1 Hb), (read_running _ _ _ _ _ _ _ (serves_Get id) H2 Hb).
  - intros name params. unfold read_page.
    by rewrite (read_running _ _ _ _ _ _ _ (serves_Scroll params) H1 Hb), (read_running _ _ _ _ _ _ _ (serves_Scroll params) H2 Hb).
  - by rewrite (ru_leader _ _ _ _ H1), (ru_leader _ _ _ _ H2).
Qed.
End fsm.


(** ** Witness: two nodes over a list of records, whose indexes draw other levels *)

Inductive demo_bytes :=
| BCommand (op : string) (data : demo_bytes)
| BConfig (cfg : option (CollectionConfig unit))
| BName (name : string)
| BPoints (name : string) (points : list Point)
| BIds (name : string) (ids : list string)
| BBroken.

#[local] Instance demo_json : CommandJson demo_bytes unit := {|
  dec_Command b := match b with BCommand op data => Some (mkCommand op data) | _ => None end;
  dec_SetLeaderRest b := match b with BName addr => Some addr | _ => None end;
  dec_CreateCollection b := match b with BConfig cfg => Some cfg | _ => None end;
  dec_DeleteCollection b := match b with BName name => Some name | _ => None end;
  dec_UpsertPoints b := match b with BPoints name ps => Some (name, ps) | _ => None end;
  dec_DeletePoints b := match b with BIds name ids => Some (name, ids) | _ => None end
|}.
#[local] Existing Instance demo_quantizers.
#[local] Existing Instance demo_database.
#[local] Existing Instance demo_strings.
#[local] Existing Instance demo_numbers.
#[local] Existing Instance demo_digest.
#[local] Existing Instance insertion_sorter.
#[local] Existing Instance ascii_case.
#[local] Existing Instance list_log.
#[local] Existing Instance list_durable.

Definition demo_raft_log : list demo_bytes :=
  [BCommand OpCreateCollection (BConfig (Some demo_collection));
   BCommand OpUpsertPoints (BPoints "docs" [doc "a" 1; doc "b" 2]);
   BCommand OpDeletePoints (BIds "docs" ["a"%string; "c"%string]);
   BCommand OpSetLeaderRest (BName "host:8080"); BBroken].

#[local] Abbreviation demo_db := (list (string * list value)).
#[local] Abbreviation demo_env := (env demo_db).
Definition demo_node (level : Z) : demo_env := mkEnv [] true true true (λ _ _, level).

Lemma demo_raft_log_ok : Forall command_ok demo_raft_log.
Proof.
  unfold demo_raft_log.
  repeat apply Forall_cons_2; [..|apply Forall_nil_2]; unfold command_ok; cbn; [..|done]; split_and!; try discriminate.
  - intros cfg [= <-]. split; [reflexivity|apply Z.leb_le; reflexivity].
  - intros name ps [= <- <-]. split; [docs_ok|apply Z.ltb_lt; reflexivity].
  - intros name ids [= <- <-]. repeat apply Forall_cons_2; [..|apply Forall_nil_2]; apply Z.leb_le; reflexivity.
Qed.
Lemma demo_envs_ok level : 0 ≤ level → Forall env_ok (replicate 5 (demo_node level)).
Proof. intros H. apply Forall_replicate. by split_and!. Qed.

Definition demo_fsm : FSM (Q:=unit) (D:=list (string * list value)) (L:=list Record_) := new_fsm no_dbs 10 [].
Definition demo_start : state (Q:=unit) := mkStateOf ∅ (Some ""%string).

Lemma replicas_agree_witness :
  (let '(a1, f1) := apply_all (replicate 5 (demo_node 0)) demo_raft_log demo_fsm in
   let '(a2, f2) := apply_all (replicate 5 (demo_node 2)) demo_raft_log demo_fsm in
   a1 = a2 ∧ a1 = fst (spec_apply_all 10 ([] : demo_db) demo_raft_log demo_start) ∧
   (∀ name id, read_point name id f1 = read_point name id f2) ∧
   (∀ name params, read_page name params f1 = read_page name params f2) ∧
   f_leaderRest f1 = f_leaderRest f2) ∧
  let f1 := snd (apply_all (replicate 5 (demo_node 0)) demo_raft_log demo_fsm) in
  read_point "docs" "b" f1 = Ok (Hnsw.mkPoint "b" [f32_of_Z 2] None) ∧
  read_point "docs" "a" f1 = Err (EColl (EHnsw ErrPointNotFound)).
Proof.
  split; [|vm_compute; split; reflexivity].
  apply (replicas_agree 10 demo_raft_log (replicate 5 (demo_node 0)) (replicate 5 (demo_node 2)) no_dbs no_dbs
    [] [] 0 []); [exact demo_raft_log_ok|by apply demo_envs_ok..|reflexivity|reflexivity|reflexivity|reflexivity|done].
Defined.
