(* ===== verification/Text.v ===== *)
(** * Text as Go's strings: bytes that usually hold UTF-8

    The functions of [strings], [strconv] and [unicode/utf8] that the query parser
    and the tokenizers call, on lists of bytes, with their behaviour on ASCII text.
    Upper-casing and the parsing of floating-point numbers are interfaces. *)
From Stdlib Require Import Strings.Ascii ZArith Lia Floats.SpecFloat.
From stdpp Require Import base list strings numbers.
From S2P Require Import Prelude Float32 PayloadFilter.

#[local] Open Scope Z_scope.

Abbreviation text := (list ascii).
Definition tx (s : string) : text := String.list_ascii_of_string s.
Definition str (s : text) : string := String.string_of_list_ascii s.

Lemma str_tx s : str (tx s) = s.
Proof. apply String.string_of_list_ascii_of_string. Qed.
Lemma tx_str s : tx (str s) = s.
Proof. apply String.list_ascii_of_string_of_list_ascii. Qed.

Definition code (c : ascii) : Z := Z.of_nat (nat_of_ascii c).
Definition between (lo hi z : Z) : bool := (lo <=? z) && (z <=? hi).
Definition is_ascii (c : ascii) : bool := code c <? 128.

Definition is_upper (c : ascii) : bool := between 65 90 (code c).
Definition is_lower (c : ascii) : bool := between 97 122 (code c).
Definition is_digit (c : ascii) : bool := between 48 57 (code c).
Definition is_letter (c : ascii) : bool := is_upper c || is_lower c.
Definition ascii_upper (c : ascii) : ascii :=
  if is_lower c then ascii_of_nat (nat_of_ascii c - 32) else c.

(** ** Runes *)

Definition cont (lo hi : Z) (c : option ascii) : bool :=
  match c with Some c => between lo hi (code c) | None => false end.
Definition low6 (c : option ascii) : Z := match c with Some c => Z.land (code c) 63 | None => 0 end.

(** [utf8.DecodeRuneInString]: the rune and its width, the replacement rune and one
    byte for an invalid encoding *)
Definition decode_rune (s : text) : Z * nat :=
  let c := s !! 1%nat in let d := s !! 2%nat in let e := s !! 3%nat in
  match s with
  | [] => (65533, 0%nat)
  | b :: _ =>
      let b := code b in
      if b <? 128 then (b, 1%nat)
      else if between 194 223 b && cont 128 191 c then (Z.land b 31 * 64 + low6 c, 2%nat)
      else if between 224 239 b && cont (if b =? 224 then 160 else 128) (if b =? 237 then 159 else 191) c &&
              cont 128 191 d then (Z.land b 15 * 4096 + low6 c * 64 + low6 d, 3%nat)
      else if between 240 244 b && cont (if b =? 240 then 144 else 128) (if b =? 244 then 143 else 191) c &&
              cont 128 191 d && cont 128 191 e
           then (Z.land b 7 * 262144 + low6 c * 4096 + low6 d * 64 + low6 e, 4%nat)
      else (65533, 1%nat)
  end.

(** The runes of a string, each with its bytes *)
Fixpoint runes_from (fuel : nat) (s : text) : list (Z * text) :=
  match fuel, s with
  | S fuel, _ :: _ => let '(r, w) := decode_rune s in (r, take w s) :: runes_from fuel (drop w s)
  | _, _ => []
  end.
Definition runes (s : text) : list (Z * text) := runes_from (length s) s.

(** [Builder.WriteRune] of a byte taken as a rune *)
Definition write_rune (c : ascii) : text :=
  if is_ascii c then [c]
  else [ascii_of_nat (Z.to_nat (192 + Z.shiftr (code c) 6)); ascii_of_nat (Z.to_nat (128 + Z.land (code c) 63))].

(** [unicode.IsSpace] *)
Definition is_space (r : Z) : bool :=
  between 9 13 r || (r =? 32) || (r =? 133) || (r =? 160) || (r =? 5760) || between 8192 8202 r ||
  (r =? 8232) || (r =? 8233) || (r =? 8239) || (r =? 8287) || (r =? 12288).

Fixpoint drop_while {A} (p : A → bool) (l : list A) : list A :=
  match l with [] => [] | x :: l' => if p x then drop_while p l' else l end.
Definition trim_by {A} (p : A → bool) (l : list A) : list A :=
  reverse (drop_while p (reverse (drop_while p l))).

(** [strings.TrimSpace] *)
Definition TrimSpace (s : text) : text := concat (snd <$> trim_by (λ r, is_space (fst r)) (runes s)).
(** [strings.Trim] with an ASCII cutset *)
Definition Trim (cutset : text) (s : text) : text := trim_by (λ c, bool_decide (c ∈ cutset)) s.

(** ** Searching and splitting *)

Fixpoint has_prefix (p s : text) : bool :=
  match p, s with
  | [], _ => true
  | a :: p, b :: s => Ascii.eqb a b && has_prefix p s
  | _ :: _, [] => false
  end.
Definition has_suffix (p s : text) : bool := has_prefix (reverse p) (reverse s).

(** [strings.Index], and whether there is one *)
Fixpoint index_of (sub s : text) : option nat :=
  if has_prefix sub s then Some 0%nat
  else match s with [] => None | _ :: s => S <$> index_of sub s end.
Definition contains (sub s : text) : bool := bool_decide (is_Some (index_of sub s)).

(** [strings.Split] at a byte, [strings.SplitN] in two *)
Fixpoint Split (sep : ascii) (s : text) : list text :=
  match s with
  | [] => [[]]
  | c :: s =>
      if Ascii.eqb c sep then [] :: Split sep s
      else match Split sep s with [] => [[c]] | w :: ws => (c :: w) :: ws end
  end.
Definition SplitN2 (sep : ascii) (s : text) : list text :=
  match index_of [sep] s with Some i => [take i s; drop (S i) s] | None => [s] end.

(** ** Numbers *)

Fixpoint digits (acc : Z) (s : text) : option Z :=
  match s with
  | [] => Some acc
  | c :: s => if is_digit c then digits (acc * 10 + (code c - 48)) s else None
  end.

(** [strconv.ParseInt(s, 10, 64)] and [strconv.Atoi] *)
Definition ParseInt (s : text) : option Z :=
  let '(neg, ds) :=
    match s with
    | "-"%char :: ds => (true, ds) | "+"%char :: ds => (false, ds) | _ => (false, s)
    end in
  match ds with
  | [] => None
  | _ => v ← digits 0 ds;
         let v := if (neg : bool) then - v else v in
         if between MinInt64 MaxInt64 v then Some v else None
  end.

(** [strconv.ParseFloat] at the two sizes, [None] for any error *)
Class FloatSyntax := { ParseFloat32 : text → option f32; ParseFloat64 : text → option f64 }.

(** [strings.ToUpper]: the ASCII mapping on ASCII text, the Unicode tables beyond *)
Class UpperMap := {
  ToUpper : text → text;
  ToUpper_ascii s : Forall is_ascii s → ToUpper s = ascii_upper <$> s
}.

(** ** ASCII text *)

Lemma code_range c : 0 ≤ code c < 256.
Proof. unfold code. pose proof (nat_ascii_bounded c). lia. Qed.

Lemma decode_rune_ascii c s : is_ascii c → decode_rune (c :: s) = (code c, 1%nat).
Proof. intros H. unfold decode_rune. unfold is_ascii in H. by destruct (code c <? 128). Qed.

Lemma runes_ascii s : Forall is_ascii s → runes s = (λ c, (code c, [c])) <$> s.
Proof.
  intros H. unfold runes. induction H as [|c s Hc Hs IH]; [done|].
  cbn [length runes_from]. rewrite decode_rune_ascii by done. simpl. rewrite drop_0. by f_equal.
Qed.

Lemma drop_while_fmap {A B} (f : A → B) p (l : list A) : drop_while p (f <$> l) = f <$> drop_while (p ∘ f) l.
Proof. induction l as [|x l IH]; [done|]. simpl. by destruct (p (f x)). Qed.
Lemma trim_by_fmap {A B} (f : A → B) p (l : list A) : trim_by p (f <$> l) = f <$> trim_by (p ∘ f) l.
Proof. unfold trim_by. by rewrite drop_while_fmap, <- !fmap_reverse, drop_while_fmap, <- fmap_reverse. Qed.

Definition blank (c : ascii) : bool := is_space (code c).

Lemma TrimSpace_ascii s : Forall is_ascii s → TrimSpace s = trim_by blank s.
Proof.
  intros H. unfold TrimSpace. rewrite runes_ascii by done. rewrite trim_by_fmap, <- list_fmap_compose.
  change ((snd ∘ λ c, (code c, [c])) <$> ?l) with ((λ c : ascii, [c]) <$> l).
  change ((λ r, is_space (fst r)) ∘ λ c, (code c, [c])) with blank.
  generalize (trim_by blank s) as l. intros l. induction l as [|c l IH]; [done|]. simpl. by f_equal.
Qed.

Lemma drop_while_suffix {A} (p : A → bool) (l : list A) : ∃ k, l = k ++ drop_while p l ∧ Forall p k.
Proof.
  induction l as [|x l (k & E & H)]; [by exists []|]. simpl. destruct (p x) eqn:Ep; [|by exists []].
  exists (x :: k). split; [by simpl; f_equal|]. constructor; [by rewrite Ep|done].
Qed.
Lemma trim_by_parts {A} (p : A → bool) (l : list A) : ∃ a b, l = a ++ trim_by p l ++ b ∧ Forall p a ∧ Forall p b.
Proof.
  unfold trim_by. destruct (drop_while_suffix p l) as (a & Ea & Ha).
  destruct (drop_while_suffix p (reverse (drop_while p l))) as (b & Eb & Hb).
  exists a, (reverse b). split_and!; [|done|by apply Forall_reverse].
  rewrite <- reverse_app, <- Eb, reverse_involutive. done.
Qed.
Lemma trim_by_length {A} p (l : list A) : (length (trim_by p l) ≤ length l)%nat.
Proof. destruct (trim_by_parts p l) as (a & b & E & _). apply (f_equal length) in E. rewrite !length_app in E. lia. Qed.
Lemma trim_by_Forall {A} (p : A → bool) (P : A → Prop) (l : list A) : Forall P l → Forall P (trim_by p l).
Proof. destruct (trim_by_parts p l) as (a & b & E & _). rewrite E at 1. rewrite !Forall_app. tauto. Qed.

Lemma drop_while_id {A} p (l : list A) : (∀ x, head l = Some x → p x = false) → drop_while p l = l.
Proof. destruct l as [|x l]; [done|]. intros H. simpl. by rewrite (H x). Qed.
Lemma drop_while_app {A} (p : A → bool) (k l : list A) : Forall p k → drop_while p (k ++ l) = drop_while p l.
Proof. induction 1 as [|x k Hx Hk IH]; [done|]. simpl. by destruct (p x). Qed.

(** Text that starts and ends with something else is not trimmed, and blanks around
    it go. *)
Definition tight {A} (p : A → bool) (l : list A) : Prop :=
  (∀ x, head l = Some x → p x = false) ∧ (∀ x, list.last l = Some x → p x = false).

Lemma trim_by_tight {A} (p : A → bool) (a l b : list A) : Forall p a → Forall p b → tight p l → l ≠ [] →
  trim_by p (a ++ l ++ b) = l.
Proof.
  intros Ha Hb [Hh Hl] Hne. unfold trim_by. rewrite drop_while_app by done.
  rewrite (drop_while_id p (l ++ b)) by (destruct l; [done|]; exact Hh).
  rewrite reverse_app, drop_while_app by by apply Forall_reverse.
  rewrite drop_while_id; [apply reverse_involutive|]. by rewrite head_reverse.
Qed.
Lemma trim_by_all {A} (p : A → bool) (l : list A) : Forall p l → trim_by p l = [].
Proof. intros H. unfold trim_by. rewrite <- (app_nil_r l) at 1. by rewrite drop_while_app. Qed.
