(* ===== verification/Regexp.v ===== *)
(** * Go's regular expressions, as far as the query parser uses them

    [run] is the backtracking matcher whose first success is the leftmost-first
    match of [regexp]: the alternatives of an expression are tried in their order,
    greedy repetitions long to short and lazy ones short to long. Repetitions are
    of one character, so that every round consumes a byte. [derives] says what an
    expression matches; the matcher finds a match exactly when there is one. *)
From Stdlib Require Import Strings.Ascii ZArith Lia.
From stdpp Require Import base gmap list strings numbers.
From S2P Require Import Prelude Text.

#[local] Open Scope Z_scope.

(** One character of an expression: a byte of an ASCII class, a letter up to case,
    or any rune but those of an ASCII class. *)
Inductive atom := ABytes (p : ascii → bool) | AFold (c : ascii) | ARune (p : ascii → bool).

Definition fold_char (c d : ascii) : bool := Ascii.eqb (ascii_upper c) (ascii_upper d).

(** Two letters have a third case form beyond ASCII: the long s and the Kelvin sign. A class
    of word characters takes neither, although Go's folds to them under (?i); on ASCII texts
    there is no difference. *)
Definition long_s : text := [ascii_of_nat 197; ascii_of_nat 191].
Definition kelvin : text := [ascii_of_nat 226; ascii_of_nat 132; ascii_of_nat 170].

(** The rest of the text after one character *)
Definition step (a : atom) (s : text) : option text :=
  match s with
  | [] => None
  | d :: s' =>
      match a with
      | ABytes p => if p d then Some s' else None
      | AFold c =>
          if fold_char c d then Some s'
          else if fold_char c "S"%char && has_prefix long_s s then Some (drop 2 s)
          else if fold_char c "K"%char && has_prefix kelvin s then Some (drop 3 s)
          else None
      | ARune p => if is_ascii d && p d then None else Some (drop (snd (decode_rune s)) s)
      end
  end.

Inductive re :=
| REps
| RAtom (a : atom)
| RSeq (r1 r2 : re)
| RAlt (r1 r2 : re)
| RPlus (greedy : bool) (a : atom)
| RGroup (n : nat) (r : re)
| REnd.

(** The texts of the groups *)
Abbreviation groups := (gmap nat text).

Section matcher.
Context {X : Type}.

Definition or_else (x y : option X) : option X := match x with Some _ => x | None => y end.

(** One character or more, then [k] *)
Fixpoint plus (greedy : bool) (a : atom) (fuel : nat) (s : text) (k : text → option X) : option X :=
  match fuel, step a s with
  | S fuel, Some s' =>
      if greedy then or_else (plus greedy a fuel s' k) (k s') else or_else (k s') (plus greedy a fuel s' k)
  | _, _ => None
  end.

Fixpoint run (r : re) (s : text) (g : groups) (k : text → groups → option X) : option X :=
  match r with
  | REps => k s g
  | RAtom a => match step a s with Some s' => k s' g | None => None end
  | RSeq r1 r2 => run r1 s g (λ s' g', run r2 s' g' k)
  | RAlt r1 r2 => or_else (run r1 s g k) (run r2 s g k)
  | RPlus greedy a => plus greedy a (length s) s (λ s', k s' g)
  | RGroup n r => run r s g (λ s' g', k s' (<[n := take (length s - length s') s]> g'))
  | REnd => match s with [] => k s g | _ => None end
  end.
End matcher.

(** [FindStringSubmatch]: the groups of the leftmost match *)
Fixpoint FindStringSubmatch (r : re) (s : text) : option groups :=
  match run r s ∅ (λ _ g, Some g) with
  | Some g => Some g
  | None => match s with [] => None | _ :: s => FindStringSubmatch r s end
  end.

(** The text of a group, empty when the group took no part *)
Definition group (g : groups) (n : nat) : text := default [] (g !! n).

(** ** What an expression matches *)

Inductive derives : re → text → groups → text → groups → Prop :=
| D_eps s g : derives REps s g s g
| D_atom a s s' g : step a s = Some s' → derives (RAtom a) s g s' g
| D_seq r1 r2 s g s1 g1 s2 g2 : derives r1 s g s1 g1 → derives r2 s1 g1 s2 g2 → derives (RSeq r1 r2) s g s2 g2
| D_left r1 r2 s g s' g' : derives r1 s g s' g' → derives (RAlt r1 r2) s g s' g'
| D_right r1 r2 s g s' g' : derives r2 s g s' g' → derives (RAlt r1 r2) s g s' g'
| D_one b a s s' g : step a s = Some s' → derives (RPlus b a) s g s' g
| D_more b a s s1 s' g : step a s = Some s1 → derives (RPlus b a) s1 g s' g → derives (RPlus b a) s g s' g
| D_group n r s g s' g' : derives r s g s' g' →
    derives (RGroup n r) s g s' (<[n := take (length s - length s') s]> g')
| D_end g : derives REnd [] g [] g.

Lemma decode_rune_width c s : (0 < snd (decode_rune (c :: s)))%nat.
Proof. unfold decode_rune. repeat case_match; simpl; lia. Qed.

Lemma drop_shorter n c (s : text) : (0 < n)%nat → (length (drop n (c :: s)) < length (c :: s))%nat.
Proof. intros H. change (drop n (c :: s)) with (skipn n (c :: s)). rewrite length_skipn. simpl. lia. Qed.

Lemma step_shorter a s s' : step a s = Some s' → (length s' < length s)%nat.
Proof.
  destruct s as [|d s]; [done|]. destruct a as [p|c|p]; cbn [step].
  - destruct (p d); [|done]. intros [= <-]. simpl. lia.
  - destruct (fold_char c d); [intros [= <-]; simpl; lia|].
    destruct (fold_char c "S" && has_prefix long_s (d :: s)); [intros [= <-]; apply (drop_shorter 2); lia|].
    destruct (fold_char c "K" && has_prefix kelvin (d :: s)); [intros [= <-]; apply (drop_shorter 3); lia|done].
  - destruct (is_ascii d && p d); [done|]. intros [= <-]. apply drop_shorter, decode_rune_width.
Qed.

Lemma or_else_Some {X} (x y : option X) v : or_else x y = Some v → x = Some v ∨ y = Some v.
Proof. destruct x; simpl; [|by right]. by left. Qed.

Lemma plus_sound {X} b a fuel s (k : text → option X) g v : plus b a fuel s k = Some v →
  ∃ s', derives (RPlus b a) s g s' g ∧ k s' = Some v.
Proof.
  revert s. induction fuel as [|fuel IH]; intros s; simpl; [done|].
  destruct (step a s) as [s'|] eqn:Es; [|done]. intros H.
  assert (H' : plus b a fuel s' k = Some v ∨ k s' = Some v) by (destruct b; apply or_else_Some in H; tauto).
  destruct H' as [H'|H'].
  - destruct (IH _ H') as (s2 & Hd & Hk). exists s2. split; [by eapply D_more|done].
  - exists s'. split; [by apply D_one|done].
Qed.

Lemma run_sound {X} r s g (k : text → groups → option X) v : run r s g k = Some v →
  ∃ s' g', derives r s g s' g' ∧ k s' g' = Some v.
Proof.
  revert s g k. induction r as [|a|r1 IH1 r2 IH2|r1 IH1 r2 IH2|b a|n r IH|]; intros s g k; simpl.
  - intros H. exists s, g. split; [constructor|done].
  - destruct (step a s) as [s'|] eqn:E; [|done]. intros H. exists s', g. split; [by constructor|done].
  - intros (s1 & g1 & H1 & (s2 & g2 & H2 & Hk)%IH2)%IH1. exists s2, g2. split; [by eapply D_seq|done].
  - intros [H|H]%or_else_Some.
    + destruct (IH1 _ _ _ H) as (s' & g' & ? & ?). exists s', g'. split; [by apply D_left|done].
    + destruct (IH2 _ _ _ H) as (s' & g' & ? & ?). exists s', g'. split; [by apply D_right|done].
  - intros H. destruct (plus_sound _ _ _ _ _ g _ H) as (s' & ? & ?). by exists s', g.
  - intros (s' & g' & H1 & H2)%IH. eexists s', _. split; [by constructor|done].
  - destruct s; [|done]. intros H. exists [], g. split; [constructor|done].
Qed.

Lemma or_else_l {X} (x y : option X) : is_Some x → is_Some (or_else x y).
Proof. by intros [v ->]. Qed.
Lemma or_else_r {X} (x y : option X) : is_Some y → is_Some (or_else x y).
Proof. by destruct x. Qed.

Lemma plus_complete {X} b a s g s' g' (k : text → option X) fuel : derives (RPlus b a) s g s' g' → (length s ≤ fuel)%nat →
  is_Some (k s') → is_Some (plus b a fuel s k).
Proof.
  intros H. remember (RPlus b a) as r eqn:Er. revert fuel.
  induction H as [| | | | |b' a' s s' g Hs|b' a' s s1 s' g Hs Hd IH| |]; intros fuel Hf Hk; try done;
    injection Er as -> ->; pose proof (step_shorter _ _ _ Hs); (destruct fuel as [|fuel]; [lia|]); simpl; rewrite Hs.
  - destruct b; [by apply or_else_r|by apply or_else_l].
  - specialize (IH eq_refl fuel ltac:(lia) Hk). destruct b; [by apply or_else_l|by apply or_else_r].
Qed.

Lemma run_complete {X} r s g s' g' (k : text → groups → option X) : derives r s g s' g' →
  is_Some (k s' g') → is_Some (run r s g k).
Proof.
  intros H. revert k. induction H; intros k Hk; simpl; try done.
  - by rewrite H.
  - apply IHderives1. by apply IHderives2.
  - apply or_else_l. by apply IHderives.
  - apply or_else_r. by apply IHderives.
  - eapply plus_complete; [exact (D_one b a s s' g H)|done|exact Hk].
  - eapply plus_complete; [by eapply D_more|done|exact Hk].
  - by apply IHderives.
Qed.

(** The matcher finds a match exactly when some suffix of the text starts with one. *)
Lemma find_iff r s :
  is_Some (FindStringSubmatch r s) ↔ ∃ k s1 s2 g, s = k ++ s1 ∧ derives r s1 ∅ s2 g.
Proof.
  split.
  - induction s as [|c s IH]; simpl; destruct (run r _ _ _) as [g|] eqn:E.
    + intros _. destruct (run_sound _ _ _ _ _ E) as (s' & g' & H & _). by exists [], [], s', g'.
    + by intros [].
    + intros _. destruct (run_sound _ _ _ _ _ E) as (s' & g' & H & _). by exists [], (c :: s), s', g'.
    + intros (k & s1 & s2 & g & -> & H)%IH. by exists (c :: k), s1, s2, g.
  - intros (k & s1 & s2 & g & -> & H). induction k as [|c k IH]; simpl.
    + pose proof (run_complete r s1 ∅ s2 g (λ _ g, Some g) H ltac:(by eexists)) as [v Hv].
      destruct s1; simpl; by rewrite Hv.
    + by destruct (run r _ _ _).
Qed.

(** ** Building expressions *)

Definition lit (s : string) : re := foldr (λ c r, RSeq (RAtom (AFold c)) r) REps (tx s).
Definition seqs (rs : list re) : re := foldr RSeq REps rs.
Definition opt (r : re) : re := RAlt r REps.

(** The classes [\s], [\w], [\d], [.] *)
Definition re_space (c : ascii) : bool := between 9 10 (code c) || between 12 13 (code c) || (code c =? 32).
Definition re_word (c : ascii) : bool := is_letter c || is_digit c || Ascii.eqb c "_"%char.
Definition re_newline (c : ascii) : bool := code c =? 10.

Definition spaces : re := RPlus true (ABytes re_space).
Definition words : re := RPlus true (ABytes re_word).
Definition numbers : re := RPlus true (ABytes is_digit).
Definition some_lazy : re := RPlus false (ARune re_newline).
Definition some_greedy : re := RPlus true (ARune re_newline).
