(* ===== verification/Sql.v ===== *)
(** * pkg/query/sql_parser.go: the query language

    The expressions of each statement, the splitting of conditions at keywords, and
    the conversion of conditions to filters (executor.go, [buildFilter]). A loop
    over a shrinking text has the length of the text as fuel. *)
From Stdlib Require Import Strings.Ascii ZArith Lia Floats.SpecFloat.
From stdpp Require Import base list strings numbers.
From S2P Require Import Prelude Float32 PayloadFilter Text Regexp.
From S2P Require Distance Point.

#[local] Open Scope Z_scope.

(** ** Parsed queries *)

Inductive QueryType :=
| QuerySelect | QueryInsert | QueryUpdate | QueryDelete | QueryCreateTable | QueryDropTable
| QueryDescribe | QueryShowTables | QueryVectorSearch.
#[export] Instance QueryType_eq_dec : EqDecision QueryType.
Proof. solve_decision. Defined.

(** A filter expression; the operator is one of the names of the table of operators. *)
Inductive FilterExpr := mkFE {
  fe_Field : text;
  fe_Operator : string;
  fe_Value : value;
  fe_And : list FilterExpr;
  fe_Or : list FilterExpr;
  fe_Not : option FilterExpr
}.
Definition condition (field : text) (op : string) (v : value) : FilterExpr := mkFE field op v [] [] None.
Definition all (fs : list FilterExpr) : FilterExpr := mkFE [] "" VNil fs [] None.
Definition any (fs : list FilterExpr) : FilterExpr := mkFE [] "" VNil [] fs None.
Definition negation (f : FilterExpr) : FilterExpr := mkFE [] "" VNil [] [] (Some f).

Record CollectionConfigSQL := mkCfgSQL { cs_Name : text; cs_Dimension : Z; cs_Metric : text; cs_VectorType : text }.

Record SQLQuery := mkQuery {
  q_Type : QueryType;
  q_Collection : text;
  q_Columns : list text;
  q_Vector : list f32;
  q_VectorName : text;
  q_Limit : Z;
  q_Offset : Z;
  q_Filter : option FilterExpr;
  q_OrderBy : text;
  q_OrderDesc : bool;
  q_Points : list Point.Point;
  q_CollectionConfig : option CollectionConfigSQL
}.
(** [&SQLQuery{Type: t}] with its collection *)
Definition query (t : QueryType) (coll : text) : SQLQuery :=
  mkQuery t coll [] [] [] 0 0 None [] false [] None.

Inductive sqlError :=
| EEmpty | EUnsupported (word : text) | ESyntax (t : QueryType) | EVector (i : nat) (part : text)
| ELimit | EOffset | EDimension | ErrNullValue | ECondition (cond : text).
Abbreviation parsed := (result sqlError).

Section parser.
Context {up : UpperMap} {cm : CaseMap} {fl : FloatSyntax}.

(** ** Values *)

Definition quoted (q : ascii) (s : text) : bool := has_prefix [q] s && has_suffix [q] s.

(** [s[1 : len(s)-1]] *)
Definition inside {E} (s : text) : result E text := slice s 1 (len s - 1).

Definition quote1 : ascii := "'"%char.
Definition quote2 : ascii := ascii_of_nat 34.

Fixpoint parse_value (fuel : nat) (s : text) : parsed value :=
  match fuel with
  | O => Panic
  | S fuel =>
      let s := TrimSpace s in
      if (2 <=? len s) && (quoted quote1 s || quoted quote2 s) then v ← inside s; Ok (VString (str v))
      else if decide (ToUpper s = tx "NULL") then Err ErrNullValue
      else if decide (ToUpper s = tx "TRUE") then Ok (VBool true)
      else if decide (ToUpper s = tx "FALSE") then Ok (VBool false)
      else if has_prefix (tx "(") s && has_suffix (tx ")") s then
        inner ← inside s;
        vs ← mapM (λ part, parse_value fuel (TrimSpace part)) (Split ","%char inner);
        Ok (VList vs)
      else match ParseInt s with
      | Some i => Ok (VInt64 i)
      | None => match ParseFloat64 s with Some f => Ok (VFloat64 f) | None => Ok (VString (str s)) end
      end
  end.
Definition parseValue (s : text) : parsed value := parse_value (S (length s)) s.

(** ** Single conditions *)

Definition operators : list (string * string) :=
  [("<>", "ne"); ("!=", "ne"); ("<=", "lte"); (">=", "gte"); ("<", "lt"); (">", "gt"); ("=", "eq");
   (" LIKE ", "like"); (" IN ", "in"); (" IS NOT NULL", "is_not_null"); (" IS NULL", "is_null");
   (" BETWEEN ", "between")]%string.

Fixpoint strip_parens (fuel : nat) (cond : text) : parsed text :=
  if has_prefix (tx "(") cond && has_suffix (tx ")") cond then
    match fuel with
    | O => Panic
    | S fuel => c ← inside cond; strip_parens fuel (TrimSpace c)
    end
  else Ok cond.

Definition op_index (sql : text) (cond : text) : option nat :=
  if has_prefix (tx " ") sql then index_of sql (ToUpper cond) else index_of sql cond.

Fixpoint try_operators (ops : list (string * string)) (cond : text) : parsed FilterExpr :=
  match ops with
  | [] => Err (ECondition cond)
  | (sql, op) :: ops =>
      match op_index (tx sql) cond with
      | None => try_operators ops cond
      | Some idx =>
          f ← slice cond 0 (Z.of_nat idx);
          v ← slice cond (Z.of_nat idx + len (tx sql)) (len cond);
          if String.eqb op "is_null" || String.eqb op "is_not_null" then Ok (condition (TrimSpace f) op VNil)
          else value ← parseValue (TrimSpace v); Ok (condition (TrimSpace f) op value)
      end
  end.

Definition parseSingleCondition (cond : text) : parsed FilterExpr :=
  let cond := TrimSpace cond in
  cond ← strip_parens (length cond) cond;
  try_operators operators cond.

(** ** Splitting at a keyword *)

Definition isWordChar (c : ascii) : bool :=
  is_upper c || is_lower c || is_digit c || Ascii.eqb c "_"%char.

(** The variables of the loop of [splitByKeyword] *)
Record scan := mkScan { sc_parts : list text; sc_current : text; sc_depth : Z; sc_quote : option ascii }.

Definition flush (st : scan) : list text :=
  match TrimSpace (sc_current st) with [] => sc_parts st | part => sc_parts st ++ [part] end.

Definition is_quote (c : ascii) : bool := Ascii.eqb c quote2 || Ascii.eqb c quote1.

(** Whether the keyword stands alone at position [i] *)
Definition keyword_at (s upper keyword : text) (i : nat) : bool :=
  let n := length keyword in
  bool_decide (i + n ≤ length upper)%nat && bool_decide (take n (drop i upper) = keyword) &&
  ((i =? 0)%nat || match s !! (i - 1)%nat with Some c => negb (isWordChar c) | None => false end) &&
  (bool_decide (length s ≤ i + n)%nat || match s !! (i + n)%nat with Some c => negb (isWordChar c) | None => false end).

Fixpoint split_loop (fuel : nat) (s upper keyword : text) (i : nat) (st : scan) : list text :=
  match fuel, s !! i with
  | S fuel, Some c =>
      let keep st := mkScan (sc_parts st) (sc_current st ++ write_rune c) (sc_depth st) (sc_quote st) in
      let set_quote q st := mkScan (sc_parts st) (sc_current st) (sc_depth st) q in
      match sc_quote st with
      | None =>
          if is_quote c then split_loop fuel s upper keyword (S i) (keep (set_quote (Some c) st))
          else
            let depth := if Ascii.eqb c "("%char then sc_depth st + 1
                         else if Ascii.eqb c ")"%char then sc_depth st - 1 else sc_depth st in
            let st := mkScan (sc_parts st) (sc_current st) depth None in
            if (depth =? 0) && keyword_at s upper keyword i then
              split_loop fuel s upper keyword (i + length keyword) (mkScan (flush st) [] depth None)
            else split_loop fuel s upper keyword (S i) (keep st)
      | Some q =>
          if Ascii.eqb c q then split_loop fuel s upper keyword (S i) (keep (set_quote None st))
          else split_loop fuel s upper keyword (S i) (keep st)
      end
  | _, _ => flush st
  end.

Definition splitByKeyword (s keyword : text) : list text :=
  split_loop (length s) s (ToUpper s) keyword 0 (mkScan [] [] 0 None).

(** ** Conditions *)

Fixpoint parse_where (fuel : nat) (clause : text) : parsed FilterExpr :=
  match fuel with
  | O => Panic
  | S fuel =>
      let clause := TrimSpace clause in
      let orParts := splitByKeyword clause (tx "OR") in
      if 1 <? len orParts then fs ← mapM (parse_where fuel) orParts; Ok (any fs)
      else
        let andParts := splitByKeyword clause (tx "AND") in
        if 1 <? len andParts then fs ← mapM (parse_where fuel) andParts; Ok (all fs)
        else if has_prefix (tx "NOT ") (ToUpper clause) then
          inner ← slice clause 4 (len clause);
          f ← parse_where fuel inner;
          Ok (negation f)
        else parseSingleCondition clause
  end.
Definition parseWhereClause (clause : text) : parsed FilterExpr := parse_where (S (length clause)) clause.

(** ** Vectors and columns *)

Fixpoint parse_elements (i : nat) (parts : list text) : parsed (list f32) :=
  match parts with
  | [] => Ok []
  | part :: parts =>
      let part := TrimSpace part in
      match ParseFloat32 part with
      | None => Err (EVector i part)
      | Some x => xs ← parse_elements (S i) parts; Ok (x :: xs)
      end
  end.
Definition parseVector (s : text) : parsed (list f32) := parse_elements 0 (Split ","%char s).

Definition columns (columnsStr : text) : list text :=
  let columnsStr := TrimSpace columnsStr in
  if decide (columnsStr = tx "*") then [tx "*"] else TrimSpace <$> Split ","%char columnsStr.

(** Parts of a statement that may be missing: an empty group is left out. *)
Definition where_clause (g : text) : parsed (option FilterExpr) :=
  match g with [] => Ok None | _ => f ← parseWhereClause g; Ok (Some f) end.
Definition number_clause (err : sqlError) (g : text) : parsed Z :=
  match g with [] => Ok 0 | _ => match ParseInt g with Some n => Ok n | None => Err err end end.
Definition default_limit (limit : Z) : Z := if limit =? 0 then 10 else limit.

(** ** Statements *)

Definition kw (s : string) : re := RSeq spaces (lit s).

Definition where_re (n : nat) : re := opt (seqs [kw "WHERE"; spaces; RGroup n some_lazy]).
Definition using_re (n : nat) : re := opt (seqs [kw "USING"; spaces; RGroup n words]).
Definition limit_re (n : nat) : re := opt (seqs [kw "LIMIT"; spaces; RGroup n numbers]).
Definition offset_re (n : nat) : re := opt (seqs [kw "OFFSET"; spaces; RGroup n numbers]).
Definition order_re (n m : nat) : re :=
  opt (seqs [kw "ORDER"; kw "BY"; spaces; RGroup n words;
             opt (seqs [spaces; RGroup m (RAlt (lit "ASC") (lit "DESC"))])]).
Definition vector_re (n : nat) : re :=
  seqs [RAtom (AFold "["%char); RGroup n (RPlus true (ARune (Ascii.eqb "]"%char))); RAtom (AFold "]"%char)].

Definition selectRe : re :=
  seqs [lit "SELECT"; spaces; RGroup 1 some_lazy; kw "FROM"; spaces; RGroup 2 words;
        where_re 3; order_re 4 5; limit_re 6; offset_re 7; REnd].
Definition nearestRe : re :=
  seqs [lit "SELECT"; spaces; RGroup 1 some_lazy; kw "FROM"; spaces; RGroup 2 words; spaces;
        RAlt (lit "NEAREST") (lit "SIMILAR"); kw "TO"; spaces; vector_re 3; using_re 4; where_re 5; limit_re 6].
Definition searchRe : re :=
  seqs [lit "SEARCH"; spaces; RGroup 1 words; kw "FOR"; spaces; vector_re 2; using_re 3; where_re 4; limit_re 5].
Definition insertRe : re := seqs [lit "INSERT"; kw "INTO"; spaces; RGroup 1 words].
Definition updateRe : re := seqs [lit "UPDATE"; spaces; RGroup 1 words].
Definition deleteRe : re :=
  seqs [lit "DELETE"; kw "FROM"; spaces; RGroup 1 words;
        opt (seqs [kw "WHERE"; spaces; RGroup 2 some_greedy])].
Definition createRe : re :=
  seqs [lit "CREATE"; kw "TABLE"; spaces; RGroup 1 words;
        opt (RAlt (seqs [spaces; RAtom (AFold "("%char); RGroup 2 some_greedy; RAtom (AFold ")"%char)])
                  (seqs [kw "WITH"; spaces; RGroup 3 some_greedy]))].
Definition dropRe : re :=
  seqs [lit "DROP"; kw "TABLE"; spaces; opt (seqs [lit "IF"; kw "EXISTS"; spaces]); RGroup 1 words].
Definition descRe : re := seqs [RAlt (lit "DESCRIBE") (lit "DESC"); spaces; RGroup 1 words].

(** [FindStringSubmatch] with the syntax error of the statement *)
Definition find (t : QueryType) (r : re) (q : text) : parsed groups :=
  match FindStringSubmatch r q with Some g => Ok g | None => Err (ESyntax t) end.

Definition parseVectorSelectSearch (q : text) : parsed SQLQuery :=
  g ← find QueryVectorSearch nearestRe q;
  vec ← parseVector (TrimSpace (group g 3));
  filter ← where_clause (group g 5);
  limit ← number_clause ELimit (group g 6);
  Ok (mkQuery QueryVectorSearch (TrimSpace (group g 2)) (columns (group g 1)) vec (group g 4)
        (default_limit limit) 0 filter [] false [] None).

Definition parseSelect (q : text) : parsed SQLQuery :=
  if contains (tx "NEAREST TO") (ToUpper q) || contains (tx "SIMILAR TO") (ToUpper q)
  then parseVectorSelectSearch q
  else
    g ← find QuerySelect selectRe q;
    filter ← where_clause (group g 3);
    limit ← number_clause ELimit (group g 6);
    offset ← number_clause EOffset (group g 7);
    Ok (mkQuery QuerySelect (TrimSpace (group g 2)) (columns (group g 1)) [] [] limit offset filter (group g 4)
          (match group g 4 with [] => false | _ => bool_decide (ToUpper (group g 5) = tx "DESC") end) [] None).

Definition parseVectorSearch (q : text) : parsed SQLQuery :=
  g ← find QueryVectorSearch searchRe q;
  vec ← parseVector (group g 2);
  filter ← where_clause (group g 4);
  limit ← number_clause ELimit (group g 5);
  Ok (mkQuery QueryVectorSearch (TrimSpace (group g 1)) [tx "*"] vec (group g 3)
        (default_limit limit) 0 filter [] false [] None).

(** The statements of which only the name of the collection is parsed *)
Definition parse_name (t : QueryType) (r : re) (q : text) : parsed SQLQuery :=
  g ← find t r q; Ok (query t (TrimSpace (group g 1))).
Definition parseInsert := parse_name QueryInsert insertRe.
Definition parseUpdate := parse_name QueryUpdate updateRe.
Definition parseDropTable := parse_name QueryDropTable dropRe.
Definition parseDescribe := parse_name QueryDescribe descRe.
Definition parseShowTables (_ : text) : parsed SQLQuery := Ok (query QueryShowTables []).

Definition parseDelete (q : text) : parsed SQLQuery :=
  g ← find QueryDelete deleteRe q;
  filter ← where_clause (group g 2);
  Ok (mkQuery QueryDelete (TrimSpace (group g 1)) [] [] [] 0 0 filter [] false [] None).

Fixpoint create_options (pairs : list text) (cfg : CollectionConfigSQL) : parsed CollectionConfigSQL :=
  match pairs with
  | [] => Ok cfg
  | kv :: pairs =>
      match SplitN2 "="%char kv with
      | [k; v] =>
          let key := TrimSpace (tx (ToLower (str k))) in
          let v := Trim [quote1; quote2] (TrimSpace v) in
          let '(mkCfgSQL name dim metric vt) := cfg in
          if decide (key = tx "dimension") then
            match ParseInt v with
            | Some d => create_options pairs (mkCfgSQL name d metric vt)
            | None => Err EDimension
            end
          else if decide (key = tx "metric") then create_options pairs (mkCfgSQL name dim v vt)
          else if decide (key = tx "vector_type") then create_options pairs (mkCfgSQL name dim metric v)
          else create_options pairs cfg
      | _ => create_options pairs cfg
      end
  end.

Definition parseCreateTable (q : text) : parsed SQLQuery :=
  g ← find QueryCreateTable createRe q;
  let options := match group g 2 with [] => group g 3 | o => o end in
  let cfg := mkCfgSQL (TrimSpace (group g 1)) 0 [] [] in
  cfg ← (match options with [] => Ok cfg | _ => create_options (Split ","%char options) cfg end);
  Ok (mkQuery QueryCreateTable (cs_Name cfg) [] [] [] 0 0 None [] false [] (Some cfg)).

(** [ReplaceAllString] of runs of blanks by one space *)
Fixpoint collapse (in_run : bool) (s : text) : text :=
  match s with
  | [] => []
  | c :: s => if re_space c then (if in_run then collapse true s else " "%char :: collapse true s)
              else c :: collapse false s
  end.

(** The kind of statement, by its first words *)
Definition dispatch (q : text) : parsed SQLQuery :=
  let starts w := has_prefix (tx w) (ToUpper q) in
  if starts "SELECT"%string then parseSelect q
  else if starts "INSERT"%string then parseInsert q
  else if starts "UPDATE"%string then parseUpdate q
  else if starts "DELETE"%string then parseDelete q
  else if starts "CREATE TABLE"%string then parseCreateTable q
  else if starts "DROP TABLE"%string then parseDropTable q
  else if starts "DESCRIBE"%string || starts "DESC "%string then parseDescribe q
  else if starts "SHOW TABLES"%string then parseShowTables q
  else if starts "SEARCH"%string then parseVectorSearch q
  else Err (EUnsupported (default [] (head (Split " "%char q)))).

Definition Parse (q : text) : parsed SQLQuery :=
  match TrimSpace q with
  | [] => Err EEmpty
  | q => dispatch (collapse false q)
  end.
End parser.

(** ** Filters of the store *)

(** [buildFilter] of executor.go; a pointer to an expression it gets is never nil. *)
Fixpoint buildFilter (fe : FilterExpr) : Filter :=
  match fe with
  | mkFE field op v [] [] None =>
      let cond (c : option Condition) := Field (str field) c in
      if String.eqb op "eq" then cond (Some (Eq_ v))
      else if String.eqb op "ne" then Not (Some (cond (Some (Eq_ v))))
      else if String.eqb op "lt" then cond (Some (Lt_ v))
      else if String.eqb op "lte" then cond (Some (Lte v))
      else if String.eqb op "gt" then cond (Some (Gt_ v))
      else if String.eqb op "gte" then cond (Some (Gte v))
      else if String.eqb op "in" then cond (match v with VList vs => Some (In_ vs) | _ => None end)
      else if String.eqb op "like" then cond (match v with VString s => Some (Contains s) | _ => None end)
      else if String.eqb op "is_null" then cond (Some IsNull)
      else if String.eqb op "is_not_null" then cond (Some IsNotNull)
      else cond (Some (Eq_ v))
  | mkFE _ _ _ [] [] (Some f) => Not (Some (buildFilter f))
  | mkFE _ _ _ [] ors _ => Or (Some <$> (buildFilter <$> ors))
  | mkFE _ _ _ ands _ _ => And (Some <$> (buildFilter <$> ands))
  end.
