(* ===== verification/SqlScan.v ===== *)
(** * Splitting a condition at a keyword

    On ASCII text [splitByKeyword] is a scan that needs one character of context
    ([scan_text]). A text is [frozen] for a keyword when the scan runs over it
    without a cut; words, symbols, quoted strings and parenthesised text are, and
    frozen texts that a keyword joins are what the split gives back. *)
From Stdlib Require Import Strings.Ascii ZArith Lia Floats.SpecFloat.
From stdpp Require Import base list strings numbers.
From S2P Require Import Prelude Float32 PayloadFilter Text Regexp Sql.

#[local] Open Scope Z_scope.

Definition word_next (s : text) : bool := match s with c :: _ => isWordChar c | [] => false end.
Definition word_prev (prev : option ascii) : bool := match prev with Some c => isWordChar c | None => false end.

(** The keyword stands alone at the head of [s], after [prev]. *)
Definition keyword_here (kw : text) (prev : option ascii) (s : text) : bool :=
  has_prefix kw (ascii_upper <$> s) && negb (word_prev prev) && negb (word_next (drop (length kw) s)).

Definition keep (c : ascii) (st : scan) : scan :=
  mkScan (sc_parts st) (sc_current st ++ [c]) (sc_depth st) (sc_quote st).

Section scan.
Context {up : UpperMap}.

(** The scan with the character before the text; [skip] characters belong to the
    keyword that was just found. *)
Fixpoint scan_text (kw : text) (skip : nat) (prev : option ascii) (s : text) (st : scan) : list text :=
  match s with
  | [] => flush st
  | c :: s' =>
      match skip with
      | S skip => scan_text kw skip (Some c) s' st
      | O =>
          match sc_quote st with
          | Some q =>
              let st := keep c st in
              scan_text kw 0 (Some c) s' (if Ascii.eqb c q then mkScan (sc_parts st) (sc_current st) (sc_depth st) None else st)
          | None =>
              if is_quote c then
                scan_text kw 0 (Some c) s' (mkScan (sc_parts st) (sc_current st ++ [c]) (sc_depth st) (Some c))
              else
                let depth := if Ascii.eqb c "("%char then sc_depth st + 1
                             else if Ascii.eqb c ")"%char then sc_depth st - 1 else sc_depth st in
                let st := mkScan (sc_parts st) (sc_current st) depth None in
                if (depth =? 0) && keyword_here kw prev s then
                  scan_text kw (length kw - 1) (Some c) s' (mkScan (flush st) [] depth None)
                else scan_text kw 0 (Some c) s' (keep c st)
          end
      end
  end.

Lemma has_prefix_take p s : has_prefix p s = bool_decide (take (length p) s = p).
Proof.
  revert s. induction p as [|a p IH]; intros s; [by destruct s|].
  destruct s as [|b s]; simpl; [done|]. rewrite IH.
  destruct (Ascii.eqb_spec a b) as [->|Hne]; simpl.
  - apply bool_decide_ext. split; [by intros ->|by intros [= ->]].
  - symmetry. apply bool_decide_eq_false_2. congruence.
Qed.

Lemma has_prefix_length p s : has_prefix p s = true → (length p ≤ length s)%nat.
Proof. rewrite has_prefix_take. intros H%bool_decide_eq_true_1. rewrite <- H. rewrite length_take. lia. Qed.

Lemma keyword_at_here (pre s kw : text) :
  keyword_at (pre ++ s) (ascii_upper <$> (pre ++ s)) kw (length pre) = keyword_here kw (list.last pre) s.
Proof.
  unfold keyword_at, keyword_here. rewrite fmap_app, length_app, !length_fmap, length_app.
  rewrite drop_app_length' by by rewrite length_fmap. rewrite has_prefix_take.
  destruct (bool_decide_reflect (take (length kw) (ascii_upper <$> s) = kw)) as [E|_]; [|by rewrite andb_false_r].
  assert (Hl : (length kw ≤ length s)%nat) by (rewrite <- E, length_take, length_fmap; lia).
  rewrite (bool_decide_eq_true_2 (length pre + length kw ≤ _)%nat) by lia. simpl. f_equal.
  - destruct pre as [|c pre _] using rev_ind; [done|]. rewrite length_app. simpl.
    replace (length pre + 1 - 1)%nat with (length pre) by lia. replace (length pre + 1)%nat with (S (length pre)) by lia.
    simpl. rewrite <- app_assoc, lookup_app_r by done. by rewrite Nat.sub_diag, last_snoc.
  - rewrite lookup_app_r by lia. replace (length pre + length kw - length pre)%nat with (length kw) by lia.
    replace (s !! length kw) with (drop (length kw) s !! 0%nat) by (rewrite lookup_drop; f_equal; lia).
    destruct (drop (length kw) s) as [|c r] eqn:Ed; simpl.
    + apply (f_equal length) in Ed. rewrite length_drop in Ed. simpl in Ed.
      by rewrite bool_decide_eq_true_2 by lia.
    + apply (f_equal length) in Ed. rewrite length_drop in Ed. simpl in Ed.
      by rewrite bool_decide_eq_false_2 by lia.
Qed.

Lemma scan_text_skip kw n prev s st :
  scan_text kw n prev s st = scan_text kw 0 (match list.last (take n s) with Some c => Some c | None => prev end) (drop n s) st.
Proof.
  revert prev s. induction n as [|n IH]; intros prev s; [by rewrite firstn_O|].
  destruct s as [|c s]; [done|]. cbn [scan_text take drop]. rewrite IH. f_equal.
  rewrite last_cons. by destruct (list.last (take n s)).
Qed.

Lemma split_scan fuel kw pre s st : (length s ≤ fuel)%nat → Forall is_ascii s → kw ≠ [] →
  split_loop fuel (pre ++ s) (ascii_upper <$> (pre ++ s)) kw (length pre) st = scan_text kw 0 (list.last pre) s st.
Proof.
  revert pre s st. induction fuel as [|fuel IH]; intros pre s st Hf Ha Hk.
  { destruct s; [done|simpl in Hf; lia]. }
  destruct s as [|c s]; [by rewrite app_nil_r; simpl; rewrite lookup_ge_None_2|].
  apply Forall_cons_iff in Ha as [Hc Ha]. simpl in Hf. cbn [split_loop scan_text].
  rewrite lookup_app_r, Nat.sub_diag by done. cbn [lookup list_lookup].
  assert (Hw : write_rune c = [c]) by (unfold write_rune; destruct (is_ascii c); done). rewrite Hw.
  assert (Hstep : ∀ st, split_loop fuel (pre ++ c :: s) (ascii_upper <$> pre ++ c :: s) kw (S (length pre)) st =
                        scan_text kw 0 (Some c) s st).
  { intros st'. specialize (IH (pre ++ [c]) s st' ltac:(lia) Ha Hk).
    rewrite last_snoc, length_app, <- app_assoc in IH. simpl in IH. by rewrite Nat.add_1_r in IH. }
  destruct (sc_quote st) as [q|] eqn:Eq; cbn [sc_parts sc_current sc_depth sc_quote].
  - rewrite !Hstep. unfold keep. rewrite Eq. by destruct (Ascii.eqb c q).
  - destruct (is_quote c); [by rewrite Hstep|].
    set (depth := if Ascii.eqb c "(" then _ else _).
    rewrite keyword_at_here. destruct ((depth =? 0) && keyword_here kw (list.last pre) (c :: s)) eqn:Ekw; [|by rewrite Hstep].
    apply andb_true_iff in Ekw as [_ Ekw]. unfold keyword_here in Ekw.
    apply andb_true_iff in Ekw as [[Hp _]%andb_true_iff _]. apply has_prefix_length in Hp. rewrite length_fmap in Hp. simpl in Hp.
    rewrite scan_text_skip. destruct kw as [|k kw]; [done|]. cbn [length] in *.
    replace (S (length kw) - 1)%nat with (length kw) by lia.
    specialize (IH (pre ++ c :: take (length kw) s) (drop (length kw) s) (mkScan (flush (mkScan (sc_parts st) (sc_current st) depth None)) [] depth None)).
    rewrite last_app, last_cons in IH. rewrite <- app_assoc in IH. cbn [app] in IH. rewrite take_drop in IH.
    rewrite length_app in IH. cbn [length] in IH. rewrite length_take, Nat.min_l in IH by lia.
    rewrite IH; [|rewrite length_drop; lia|by apply Forall_drop|done]. f_equal. by destruct (list.last (take (length kw) s)).
Qed.

Lemma splitByKeyword_scan s kw : Forall is_ascii s → kw ≠ [] →
  splitByKeyword s kw = scan_text kw 0 None s (mkScan [] [] 0 None).
Proof. intros Ha Hk. unfold splitByKeyword. rewrite ToUpper_ascii by done. by apply (split_scan _ _ [] s). Qed.

(** ** Frozen text *)

Definition keep_all (s : text) (st : scan) : scan :=
  mkScan (sc_parts st) (sc_current st ++ s) (sc_depth st) None.
Definition after (s : text) (prev : option ascii) : option ascii :=
  match list.last s with Some c => Some c | None => prev end.

Lemma after_app a b prev : after (a ++ b) prev = after b (after a prev).
Proof. unfold after. rewrite last_app. by destruct (list.last b). Qed.

Section keyword.
Context (kw : text) (Hkw : Forall is_upper kw) (Hne : kw ≠ []).

(** At this depth nothing is cut, whatever stands around. *)
Definition inert (d : Z) (s : text) : Prop := ∀ prev rest st, sc_quote st = None → sc_depth st = d →
  scan_text kw 0 prev (s ++ rest) st = scan_text kw 0 (after s prev) rest (keep_all s st).
(** Outside of parentheses nothing is cut when no word touches the ends. *)
Definition frozen (s : text) : Prop := ∀ prev rest st, sc_quote st = None → sc_depth st = 0 →
  word_prev prev = false → word_next rest = false →
  scan_text kw 0 prev (s ++ rest) st = scan_text kw 0 (after s prev) rest (keep_all s st).

Lemma inert_frozen s : inert 0 s → frozen s.
Proof. intros H prev rest st ? ? _ _. by apply H. Qed.

Lemma inert_app d a b : inert d a → inert d b → inert d (a ++ b).
Proof.
  intros Ha Hb prev rest st Hq Hd. rewrite <- app_assoc, Ha, Hb by done. rewrite after_app.
  unfold keep_all. simpl. by rewrite app_assoc.
Qed.

Lemma frozen_mid a m b : frozen a → inert 0 m → frozen b →
  word_next m = false → m ≠ [] → word_prev (list.last m) = false → frozen (a ++ m ++ b).
Proof.
  intros Ha Hm Hb Hn Hne' Hl prev rest st Hq Hd Hp Hr. rewrite <- !app_assoc.
  assert (Hmp : after m (after a prev) = list.last m).
  { unfold after at 1. destruct m using rev_ind; [done|]. by rewrite last_snoc. }
  rewrite Ha; [|done..|by destruct m]. rewrite Hm by done. rewrite Hmp, Hb by done.
  rewrite !after_app, Hmp. unfold keep_all. simpl. by rewrite !app_assoc.
Qed.

Lemma upper_not_keyword c s prev : isWordChar c = false → keyword_here kw prev (c :: s) = false.
Proof.
  intros Hc. unfold keyword_here. destruct kw as [|k kw']; [done|]. apply Forall_cons_iff in Hkw as [Hk _]. simpl.
  destruct (Ascii.eqb_spec k (ascii_upper c)) as [->|_]; [|done]. exfalso. revert Hk Hc.
  unfold ascii_upper, isWordChar. destruct (is_lower c) eqn:E; [by rewrite orb_true_r|].
  intros Hk%Is_true_true. by rewrite Hk.
Qed.

Definition is_paren (c : ascii) : bool := Ascii.eqb c "("%char || Ascii.eqb c ")"%char.

Lemma scan_plain (c : ascii) s prev st : is_quote c = false → is_paren c = false → sc_quote st = None →
  (sc_depth st =? 0) && keyword_here kw prev (c :: s) = false →
  scan_text kw 0 prev (c :: s) st = scan_text kw 0 (Some c) s (keep_all [c] st).
Proof.
  intros Hq Hp Hn Hk. cbn [scan_text]. rewrite Hn, Hq. unfold is_paren in Hp. apply orb_false_iff in Hp as [-> ->].
  cbv zeta. by rewrite Hk.
Qed.

Lemma inert_plain d c : is_quote c = false → is_paren c = false → (d ≠ 0 ∨ isWordChar c = false) → inert d [c].
Proof.
  intros Hq Hp Hd prev rest st Hn Hsd. apply scan_plain; [done..|]. rewrite Hsd.
  destruct Hd as [Hd|Hd]; [by rewrite (proj2 (Z.eqb_neq _ _) Hd)|]. rewrite upper_not_keyword by done. apply andb_false_r.
Qed.
Lemma inert_plains d s : Forall (λ c, is_quote c = false ∧ is_paren c = false ∧ (d ≠ 0 ∨ isWordChar c = false)) s → inert d s.
Proof.
  induction 1 as [|c s (H1 & H2 & H3) Hs IH].
  - intros prev rest st Hq _. unfold keep_all, after. simpl. rewrite app_nil_r, <- Hq. by destruct st.
  - apply (inert_app d [c] s); [by apply inert_plain|done].
Qed.

Lemma scan_quoted q body prev rest st : q ∉ body → sc_quote st = Some q →
  scan_text kw 0 prev (body ++ rest) st =
  scan_text kw 0 (after body prev) rest (mkScan (sc_parts st) (sc_current st ++ body) (sc_depth st) (Some q)).
Proof.
  revert prev st. induction body as [|c body IH]; intros prev st Hin Hq.
  { unfold after. simpl. rewrite app_nil_r, <- Hq. by destruct st. }
  apply not_elem_of_cons in Hin as [Hc Hin]. cbn [app scan_text]. rewrite Hq.
  destruct (Ascii.eqb_spec c q); [congruence|]. cbv zeta. rewrite IH by done. unfold keep. simpl. rewrite <- app_assoc. simpl.
  f_equal. unfold after. rewrite last_cons. by destruct (list.last body).
Qed.

Lemma inert_quoted d q body : is_quote q = true → q ∉ body → inert d (q :: body ++ [q]).
Proof.
  intros Hq Hin prev rest st Hn Hd. cbn [app scan_text]. rewrite Hn, Hq. rewrite <- app_assoc, (scan_quoted q) by done.
  cbn [app scan_text sc_quote]. rewrite Ascii.eqb_refl. cbv zeta. unfold keep_all, after. cbn.
  rewrite last_cons, last_snoc, <- !app_assoc. done.
Qed.

Lemma inert_parens s : inert 1 s → inert 0 ("("%char :: s ++ [")"%char]).
Proof.
  intros Hs prev rest st Hn Hd. cbn [app scan_text]. rewrite Hn, Hd.
  change (is_quote "(") with false. cbn [Ascii.eqb Bool.eqb]. cbv zeta. cbn [Z.add Z.eqb Pos.eqb andb].
  rewrite <- app_assoc, Hs by done. cbn [app scan_text sc_quote]. change (is_quote ")") with false.
  assert (Hk : keyword_here kw (after s (Some "("%char)) (")"%char :: rest) = false) by by apply upper_not_keyword.
  cbn [keep_all keep sc_quote sc_depth sc_parts sc_current]. cbn [Ascii.eqb Bool.eqb]. cbv zeta. rewrite Hk, andb_false_r.
  unfold keep, keep_all, after. cbn. rewrite last_cons, last_snoc, Hd, <- !app_assoc. done.
Qed.

Lemma is_word_letter c : is_upper c → isWordChar c = true.
Proof. intros H. unfold isWordChar. by rewrite (Is_true_true_1 _ H). Qed.

Lemma keyword_here_word w rest prev : Forall isWordChar w → word_next rest = false →
  keyword_here kw prev (w ++ rest) = true → ascii_upper <$> w = kw.
Proof.
  intros Hw Hr. unfold keyword_here. intros [[Hp _]%andb_true_iff Hn]%andb_true_iff.
  rewrite has_prefix_take in Hp. apply bool_decide_eq_true_1 in Hp. apply negb_true_iff in Hn.
  destruct (lt_eq_lt_dec (length kw) (length w)) as [[Hlt|Heq]|Hgt].
  - exfalso. rewrite drop_app_le in Hn by lia. destruct (drop (length kw) w) as [|c r] eqn:E.
    { apply (f_equal length) in E. rewrite length_drop in E. simpl in E. lia. }
    simpl in Hn. assert (Hin : c ∈ w).
    { apply (list_elem_of_lookup_2 _ (length kw + 0)). rewrite <- lookup_drop, E. done. }
    rewrite Forall_forall in Hw. specialize (Hw c). rewrite <- list_elem_of_In in Hw. specialize (Hw Hin). by rewrite Hn in Hw.
  - rewrite fmap_app, take_app_le in Hp by (rewrite length_fmap; lia). rewrite take_ge in Hp by (rewrite length_fmap; lia). done.
  - exfalso. destruct rest as [|c rest].
    { rewrite app_nil_r in Hp. apply (f_equal length) in Hp. rewrite length_take, length_fmap in Hp. lia. }
    assert (Hc : kw !! length w = Some (ascii_upper c)).
    { rewrite <- Hp. rewrite lookup_take_lt by done. rewrite list_lookup_fmap, lookup_app_r, Nat.sub_diag by done. done. }
    assert (Hu : is_upper (ascii_upper c)).
    { rewrite Forall_forall in Hkw. apply Hkw, list_elem_of_In. by eapply list_elem_of_lookup_2. }
    simpl in Hr. unfold ascii_upper in Hu. revert Hr Hu. unfold isWordChar.
    destruct (is_lower c) eqn:El; [by rewrite orb_true_r|]. intros Hr Hu. by rewrite (Is_true_true_1 _ Hu) in Hr.
Qed.

Lemma word_plain c : isWordChar c = true → is_quote c = false ∧ is_paren c = false.
Proof. destruct c as [[] [] [] [] [] [] [] []]; vm_compute; try discriminate; done. Qed.

Lemma frozen_word w : Forall isWordChar w → ascii_upper <$> w ≠ kw → frozen w.
Proof.
  intros Hw Hk prev rest st Hq Hd Hp Hr.
  destruct w as [|c w]; [by apply (inert_plains 0 []); [constructor|done..]|].
  assert (Hplain : ∀ w prev st, Forall isWordChar w → word_prev prev = true → sc_quote st = None →
    scan_text kw 0 prev (w ++ rest) st = scan_text kw 0 (after w prev) rest (keep_all w st)).
  { clear. intros w. induction w as [|c w IH]; intros prev st Hw Hp Hq.
    { unfold after, keep_all. simpl. rewrite app_nil_r, <- Hq. by destruct st. }
    apply Forall_cons_iff in Hw as [Hc Hw]. apply Is_true_true in Hc. destruct (word_plain c Hc) as [H1 H2].
    cbn [app]. rewrite scan_plain; [|done..|].
    - rewrite IH by done. unfold keep_all. simpl. rewrite <- app_assoc. simpl. f_equal.
      unfold after. rewrite last_cons. by destruct (list.last w).
    - unfold keyword_here. rewrite Hp. simpl. by rewrite andb_false_r, andb_false_r. }
  destruct (keyword_here kw prev ((c :: w) ++ rest)) eqn:E; [by apply keyword_here_word in E|].
  pose proof Hw as [Hc Hw']%Forall_cons_iff. apply Is_true_true in Hc. destruct (word_plain c Hc) as [H1 H2].
  cbn [app] in E |- *. rewrite scan_plain; [|done..|by rewrite E, andb_false_r].
  rewrite Hplain by done. unfold keep_all. simpl. rewrite <- app_assoc. simpl. f_equal.
  unfold after. rewrite last_cons. by destruct (list.last w).
Qed.

(** ** Splitting what was joined *)

Definition separator : text := " "%char :: kw ++ [" "%char].
Fixpoint join (sep : text) (parts : list text) : text :=
  match parts with [] => [] | [p] => p | p :: parts => p ++ sep ++ join sep parts end.

Definition piece (s : text) : Prop := s ≠ [] ∧ tight blank s ∧ Forall is_ascii s.

Lemma upper_id s : Forall is_upper s → ascii_upper <$> s = s.
Proof.
  induction 1 as [|c s Hc Hs IH]; [done|]. simpl. f_equal; [|done]. unfold ascii_upper.
  destruct (is_lower c) eqn:E; [|done]. apply Is_true_true in Hc. unfold is_upper, is_lower, between in *. lia.
Qed.

Lemma flush_piece acc a p b d : piece p → Forall (λ c, c = " "%char) a → Forall (λ c, c = " "%char) b →
  flush (mkScan acc (a ++ p ++ b) d None) = acc ++ [p].
Proof.
  intros (Hne' & Ht & Ha) Hb1 Hb2. unfold flush. cbn [sc_parts sc_current].
  assert (Hsp : ∀ l : text, Forall (λ c, c = " "%char) l → Forall is_ascii l ∧ Forall blank l).
  { intros l Hl. split; (eapply List.Forall_impl; [|exact Hl]); by intros ? ->. }
  rewrite TrimSpace_ascii by (rewrite !Forall_app; split_and!; [apply Hsp|done|apply Hsp]; done).
  rewrite trim_by_tight; [|apply Hsp; done|apply Hsp; done|done|done]. by destruct p.
Qed.

Lemma inert_space d : inert d [" "%char].
Proof. by apply inert_plain; [..|right]. Qed.

Lemma scan_space prev r st : sc_quote st = None → sc_depth st = 0 →
  scan_text kw 0 prev (" "%char :: r) st = scan_text kw 0 (Some " "%char) r (keep_all [" "%char] st).
Proof. intros. by apply (inert_space 0 prev r). Qed.

Lemma scan_join parts acc blanks prev : parts ≠ [] → Forall piece parts → Forall frozen parts →
  Forall (λ c, c = " "%char) blanks → word_prev prev = false →
  scan_text kw 0 prev (join separator parts) (mkScan acc blanks 0 None) = acc ++ parts.
Proof.
  revert acc blanks prev. induction parts as [|p parts IH]; [done|]. intros acc blanks prev _ Hp Hf Hb Hprev.
  apply Forall_cons_iff in Hp as [Hp Hps]. apply Forall_cons_iff in Hf as [Hf Hfs].
  destruct parts as [|p2 parts].
  { cbn [join]. rewrite <- (app_nil_r p) at 1. rewrite Hf by done. cbn [scan_text]. unfold keep_all. simpl.
    rewrite <- (app_nil_r p) at 1. by apply flush_piece. }
  change (join separator (p :: p2 :: parts)) with (p ++ separator ++ join separator (p2 :: parts)).
  set (more := join separator (p2 :: parts)) in *. unfold separator.
  rewrite Hf by done. cbn [app]. rewrite scan_space by done.
  rewrite <- app_assoc. assert (∃ k kw', kw = k :: kw') as (k & kw' & Ekw) by (destruct kw; [done|by eexists _, _]).
  assert (Hhere : keyword_here kw (Some " "%char) (kw ++ " "%char :: more) = true).
  { unfold keyword_here. rewrite fmap_app, upper_id by done. rewrite has_prefix_take, take_app_length, drop_app_length.
    by rewrite bool_decide_eq_true_2. }
  assert (Hk : is_upper k) by (rewrite Ekw in Hkw; by apply Forall_cons_iff in Hkw as [? _]).
  destruct (word_plain k (is_word_letter k Hk)) as [Hq1 Hq2].
  change ([" "%char] ++ more) with (" "%char :: more).
  replace (kw ++ " "%char :: more) with (k :: kw' ++ " "%char :: more) in * by by rewrite Ekw.
  cbn [scan_text keep_all sc_quote sc_depth sc_parts sc_current]. rewrite Hq1. unfold is_paren in Hq2.
  apply orb_false_iff in Hq2 as [-> ->]. cbv zeta. rewrite Hhere. cbn [Z.eqb andb].
  rewrite scan_text_skip. replace (length kw - 1)%nat with (length kw') by (rewrite Ekw; simpl; lia).
  rewrite take_app_length, drop_app_length.
  replace (match list.last kw' with Some c => Some c | None => Some k end) with (list.last kw)
    by (rewrite Ekw, last_cons; by destruct (list.last kw')).
  rewrite scan_space by done. unfold keep_all. cbn [sc_parts sc_current sc_depth app].
  rewrite (IH _ [" "%char] _); [|done|done|done|by constructor|done].
  rewrite <- app_assoc, flush_piece; [|done|done|by constructor]. by rewrite <- app_assoc.
Qed.

Lemma join_ascii sep parts : Forall is_ascii sep → Forall (Forall is_ascii) parts → Forall is_ascii (join sep parts).
Proof.
  intros Hs H. induction H as [|p parts Hp Hps IH]; [constructor|]. destruct parts; [done|].
  cbn [join]. apply Forall_app. split; [done|]. by apply Forall_app.
Qed.

Lemma upper_ascii c : is_upper c → is_ascii c.
Proof. intros H%Is_true_true. apply Is_true_true. unfold is_upper, is_ascii, between in *. lia. Qed.

(** The split gives back the parts that the keyword joined. *)
Lemma split_join parts : parts ≠ [] → Forall piece parts → Forall frozen parts →
  splitByKeyword (join separator parts) kw = parts.
Proof.
  intros Hp1 Hp Hf. rewrite splitByKeyword_scan; [|apply join_ascii|done].
  - by rewrite scan_join.
  - unfold separator. constructor; [done|]. apply Forall_app. split; [|by repeat constructor].
    eapply List.Forall_impl; [|exact Hkw]. apply upper_ascii.
  - eapply List.Forall_impl; [|exact Hp]. by intros ? (_ & _ & ?).
Qed.
End keyword.
End scan.
