(* ===== verification/SqlShow.v ===== *)
(** * Conditions in the syntax the parser reads

    [show] writes a condition in disjunctive form, and [parseWhereClause] reads it
    back ([where_roundtrip]). Parentheses around conditions are not part of this
    form, since the parser does not group with them. *)
From Stdlib Require Import Strings.Ascii ZArith Lia Floats.SpecFloat.
From stdpp Require Import base list strings numbers.
From S2P Require Import Prelude Float32 PayloadFilter Text Regexp Sql SqlScan.

#[local] Open Scope Z_scope.

(** ** Values *)

Definition digit (n : Z) : ascii := ascii_of_nat (Z.to_nat (48 + n)).
Fixpoint show_digits (fuel : nat) (n : Z) (acc : text) : text :=
  match fuel with
  | O => acc
  | S fuel =>
      let acc := digit (n `mod` 10) :: acc in
      if n <? 10 then acc else show_digits fuel (n `div` 10) acc
  end.
(** Decimal notation of the integers of 64 bits *)
Definition show_nat (n : Z) : text := show_digits 20 n [].
Definition show_Z (z : Z) : text := if z <? 0 then "-"%char :: show_nat (- z) else show_nat z.

Definition show_scalar (v : value) : text :=
  match v with
  | VString s => quote1 :: tx s ++ [quote1]
  | VInt64 z => show_Z z
  | VBool b => tx (if b then "TRUE" else "FALSE")
  | _ => []
  end.
Definition show_value (v : value) : text :=
  match v with
  | VList vs => "("%char :: join [","%char] (show_scalar <$> vs) ++ [")"%char]
  | _ => show_scalar v
  end.

(** Characters a string literal may hold: no quotes, parentheses, commas or
    characters of the operators, which the parser looks for inside of quotes too *)
Definition special : text := tx "<>=!,".
Definition safe (c : ascii) : bool :=
  is_ascii c && negb (is_quote c) && negb (is_paren c) && negb (bool_decide (c ∈ special)).

Definition wf_scalar (blanks : bool) (v : value) : Prop :=
  match v with
  | VString s => Forall (λ c, safe c ∧ (blanks = true ∨ c ≠ " "%char)) (tx s)
  | VInt64 z => MinInt64 ≤ z ≤ MaxInt64
  | VBool _ => True
  | _ => False
  end.
Definition wf_list (v : value) : Prop :=
  match v with VList vs => vs ≠ [] ∧ Forall (wf_scalar false) vs | _ => False end.

(** ** Conditions *)

Definition op_words : list (string * string) :=
  [("ne", "<>"); ("lte", "<="); ("gte", ">="); ("lt", "<"); ("gt", ">"); ("eq", "=");
   ("like", "LIKE"); ("in", "IN"); ("is_not_null", "IS NOT NULL"); ("is_null", "IS NULL")]%string.

Definition show_op (op : string) : text :=
  match list_find (λ p, fst p = op) op_words with Some (_, (_, w)) => tx w | None => [] end.

Definition show_cond (field : text) (op : string) (v : value) : text :=
  field ++ " "%char :: show_op op ++ match v with VNil => [] | _ => " "%char :: show_value v end.

(** A field is a path of words none of which is a keyword. *)
Definition wf_segment (s : text) : Prop :=
  s ≠ [] ∧ Forall isWordChar s ∧ (ascii_upper <$> s) ∉ [tx "OR"; tx "AND"; tx "NOT"].
Definition wf_field (f : text) : Prop :=
  ∃ segs, f = join ["."%char] segs ∧ segs ≠ [] ∧ Forall wf_segment segs.

Definition wf_cond (field : text) (op : string) (v : value) : Prop :=
  wf_field field ∧
  (((op ∈ ["ne"; "lte"; "gte"; "lt"; "gt"; "eq"; "like"]%string) ∧ (wf_scalar true v ∨ wf_list v)) ∨
   (op = "in"%string ∧ wf_list v) ∨ ((op = "is_null"%string ∨ op = "is_not_null"%string) ∧ v = VNil)).

Fixpoint show (fe : FilterExpr) : text :=
  match fe with
  | mkFE f op v [] [] None => show_cond f op v
  | mkFE _ _ _ [] [] (Some g) => tx "NOT " ++ show g
  | mkFE _ _ _ [] ors _ => join (separator (tx "OR")) (show <$> ors)
  | mkFE _ _ _ ands _ _ => join (separator (tx "AND")) (show <$> ands)
  end.

Inductive wf_lit : FilterExpr → Prop :=
| lit_condition f op v : wf_cond f op v → wf_lit (condition f op v)
| lit_negation fe : wf_lit fe → wf_lit (negation fe).
Inductive wf_conj : FilterExpr → Prop :=
| conj_lit fe : wf_lit fe → wf_conj fe
| conj_all fs : (2 ≤ length fs)%nat → Forall wf_lit fs → wf_conj (all fs).
Inductive wf_disj : FilterExpr → Prop :=
| disj_conj fe : wf_conj fe → wf_disj fe
| disj_any fs : (2 ≤ length fs)%nat → Forall wf_conj fs → wf_disj (any fs).

(** ** Numbers read back *)

Lemma code_digit n : 0 ≤ n < 10 → code (digit n) = 48 + n.
Proof. intros H. unfold code, digit. rewrite nat_ascii_embedding by lia. lia. Qed.
Lemma digit_is_digit n : 0 ≤ n < 10 → is_digit (digit n) = true.
Proof. intros H. unfold is_digit, between. rewrite code_digit by done. lia. Qed.

Lemma show_digits_app fuel n acc : show_digits fuel n acc = show_digits fuel n [] ++ acc.
Proof.
  revert n acc. induction fuel as [|fuel IH]; intros n acc; [done|]. cbn [show_digits].
  destruct (n <? 10); [done|]. rewrite IH, (IH _ [_]), <- app_assoc. done.
Qed.
Lemma show_digits_digits fuel n : 0 ≤ n → Forall is_digit (show_digits fuel n []).
Proof.
  revert n. induction fuel as [|fuel IH]; intros n Hn; [constructor|]. cbn [show_digits].
  pose proof (Z.mod_pos_bound n 10 ltac:(lia)).
  destruct (n <? 10); [|rewrite show_digits_app; apply Forall_app; split; [apply IH, Z.div_pos; lia|]];
    by (constructor; [by rewrite digit_is_digit|constructor]).
Qed.
Lemma digits_show fuel n acc : 0 ≤ n < 10 ^ Z.of_nat fuel → digits 0 (show_digits fuel n acc) = digits n acc.
Proof.
  revert n acc. induction fuel as [|fuel IH]; intros n acc Hn.
  { simpl in Hn. by replace n with 0 by lia. }
  cbn [show_digits]. pose proof (Z.mod_pos_bound n 10 ltac:(lia)). pose proof (Z.div_mod n 10 ltac:(lia)).
  rewrite Nat2Z.inj_succ, Z.pow_succ_r in Hn by lia.
  destruct (Z.ltb_spec n 10).
  - cbn [digits]. rewrite digit_is_digit, code_digit by done. f_equal. rewrite Z.mod_small by lia. lia.
  - rewrite IH; [|split; [apply Z.div_pos; lia|apply Z.div_lt_upper_bound; lia]].
    cbn [digits]. rewrite digit_is_digit, code_digit by done. f_equal. lia.
Qed.
Lemma show_digits_ne fuel n acc : show_digits (S fuel) n acc ≠ [].
Proof. cbn [show_digits]. destruct (n <? 10); [done|]. rewrite show_digits_app. by destruct (show_digits _ _ _). Qed.

Lemma show_nat_digits n : 0 ≤ n → Forall is_digit (show_nat n) ∧ show_nat n ≠ [].
Proof. intros H. split; [by apply show_digits_digits|apply show_digits_ne]. Qed.

Lemma ParseInt_show z : MinInt64 ≤ z ≤ MaxInt64 → ParseInt (show_Z z) = Some z.
Proof.
  intros Hz. unfold MinInt64, MaxInt64 in Hz. unfold show_Z.
  assert (Hd : ∀ n, 0 ≤ n < 10 ^ 20 → digits 0 (show_nat n) = Some n).
  { intros n Hn. unfold show_nat. by rewrite digits_show. }
  destruct (Z.ltb_spec z 0).
  - unfold ParseInt. destruct (show_nat_digits (- z) ltac:(lia)) as [_ Hne].
    destruct (show_nat (- z)) as [|c r] eqn:E; [done|]. rewrite <- E, Hd by lia. simpl.
    rewrite Z.opp_involutive. unfold between, MinInt64, MaxInt64. by rewrite (proj2 (Z.leb_le _ _)), (proj2 (Z.leb_le _ _)) by lia.
  - destruct (show_nat_digits z ltac:(lia)) as [Hds Hne]. pose proof (Hd z ltac:(lia)) as Hv.
    destruct (show_nat z) as [|c r]; [done|]. apply Forall_cons_iff in Hds as [Hc _].
    assert (c ≠ "-"%char ∧ c ≠ "+"%char) as [H1 H2] by (split; intros ->; by vm_compute in Hc).
    unfold ParseInt. assert (Hb : between MinInt64 MaxInt64 z = true) by (unfold between, MinInt64, MaxInt64; lia).
    destruct c as [[] [] [] [] [] [] [] []]; simpl in *; rewrite ?Hv; simpl; rewrite ?Hb; try done; by vm_compute in Hc.
Qed.

(** ** Shown conditions are pieces the scan does not cut *)

Definition solid (s : text) : Prop :=
  (∃ c r, s = c :: r ∧ blank c = false) ∧ (∃ r c, s = r ++ [c] ∧ blank c = false) ∧ Forall is_ascii s.

Lemma solid_piece s : solid s → piece s.
Proof.
  intros ((c & r & E & Hc) & (r' & c' & E' & Hc') & Ha). split_and!; [by rewrite E| |done]. split.
  - intros x. rewrite E. by intros [= <-].
  - intros x. rewrite E', last_snoc. by intros [= <-].
Qed.
Lemma solid_app a m b : solid a → Forall is_ascii m → solid b → solid (a ++ m ++ b).
Proof.
  intros ((c & r & -> & Hc) & _ & Ha) Hm (_ & (r' & c' & -> & Hc') & Hb). split_and!.
  - by eexists c, _.
  - exists ((c :: r) ++ m ++ r'), c'. by rewrite <- !app_assoc.
  - rewrite !Forall_app. rewrite Forall_app in Hb. tauto.
Qed.
Lemma solid_join sep parts : Forall is_ascii sep → parts ≠ [] → Forall solid parts → solid (join sep parts).
Proof.
  intros Hs Hne H. induction H as [|p parts Hp Hps IH]; [done|]. destruct parts; [done|].
  by apply solid_app; [..|apply IH].
Qed.

Lemma word_solid s : s ≠ [] → Forall isWordChar s → solid s.
Proof.
  intros Hne H. assert (Hw : ∀ c, isWordChar c = true → blank c = false ∧ is_ascii c = true).
  { intros c. destruct c as [[] [] [] [] [] [] [] []]; vm_compute; try discriminate; done. }
  split_and!.
  - destruct s as [|c r]; [done|]. exists c, r. apply Forall_cons_iff in H as [H _]. split; [done|]. apply Hw. by apply Is_true_true.
  - destruct s as [|c r _] using rev_ind; [done|]. exists r, c. apply Forall_app in H as [_ H]. apply Forall_cons_iff in H as [H _].
    split; [done|]. apply Hw. by apply Is_true_true.
  - eapply List.Forall_impl; [|exact H]. intros c Hc%Is_true_true. apply Is_true_true. by apply Hw.
Qed.

Lemma digit_word c : is_digit c → isWordChar c.
Proof. intros H. unfold isWordChar. rewrite (Is_true_true_1 _ H). by rewrite !orb_true_r. Qed.
Lemma digits_word s : Forall is_digit s → Forall isWordChar s.
Proof. apply List.Forall_impl, digit_word. Qed.

Lemma safe_parts c : safe c → is_ascii c = true ∧ is_quote c = false ∧ is_paren c = false ∧ c ∉ special.
Proof.
  intros H%Is_true_true. unfold safe in H.
  apply andb_true_iff in H as [H H4]. apply andb_true_iff in H as [H H3]. apply andb_true_iff in H as [H1 H2].
  apply negb_true_iff in H2, H3, H4. by apply bool_decide_eq_false_1 in H4.
Qed.

Lemma scalar_solid b v : wf_scalar b v → solid (show_scalar v).
Proof.
  destruct v as [|bv| | | |z|s| |]; simpl; try done.
  - intros _. destruct bv; apply word_solid; try done; by repeat constructor.
  - intros Hz. unfold show_Z. destruct (Z.ltb_spec z 0).
    + destruct (show_nat_digits (- z) ltac:(lia)) as [Hd Hn].
      destruct (word_solid _ Hn (digits_word _ Hd)) as (_ & (r & c & E & Hc) & Ha).
      split_and!; [by eexists _, _|exists ("-"%char :: r), c; by rewrite E|by constructor].
    + destruct (show_nat_digits z ltac:(lia)) as [Hd Hn]. by apply word_solid; [|apply digits_word].
  - intros H. split_and!; [by eexists _, _|exists (quote1 :: tx s), quote1; done|].
    constructor; [done|]. apply Forall_app. split; [|by repeat constructor].
    eapply List.Forall_impl; [|exact H]. intros c [Hc _]. apply Is_true_true. by apply safe_parts.
Qed.

Lemma list_solid vs : vs ≠ [] → Forall (wf_scalar false) vs → solid (show_value (VList vs)).
Proof.
  intros Hne H. split_and!; [by eexists _, _|exists ("("%char :: join [","%char] (show_scalar <$> vs)), ")"%char; done|].
  constructor; [done|]. apply Forall_app. split; [|by repeat constructor]. apply join_ascii; [by repeat constructor|].
  apply Forall_fmap. eapply List.Forall_impl; [|exact H]. intros v Hv. by apply scalar_solid in Hv as (_ & _ & ?).
Qed.

(** Whether the parser splits at OR or at AND *)
Section keyword.
Context (kw : text) (Hkw : kw = tx "OR" ∨ kw = tx "AND").
#[local] Abbreviation frozen := (frozen kw).
#[local] Abbreviation inert := (inert kw).

Lemma kw_upper : Forall is_upper kw.
Proof. destruct Hkw as [-> | ->]; by repeat constructor. Qed.
Lemma kw_ne : kw ≠ [].
Proof. by destruct Hkw as [-> | ->]. Qed.
#[local] Hint Resolve kw_upper kw_ne : core.
Lemma kw_letters c s : is_letter c = false → c :: s ≠ kw.
Proof. intros Hc E. destruct Hkw as [Hk|Hk]; rewrite Hk in E; injection E as -> _; by vm_compute in Hc. Qed.

Lemma frozen_blank a b : frozen a → frozen b → frozen (a ++ " "%char :: b).
Proof. intros Ha Hb. by apply (frozen_mid kw a [" "%char] b); [done|apply inert_space|..]. Qed.

Lemma number_frozen n : 0 ≤ n → frozen (show_nat n).
Proof.
  intros Hn. destruct (show_nat_digits n Hn) as [Hd Hne]. apply frozen_word; [done|done|by apply digits_word|].
  destruct (show_nat n) as [|c r]; [done|]. apply Forall_cons_iff in Hd as [Hc _]. cbn. apply kw_letters.
  destruct c as [[] [] [] [] [] [] [] []]; by vm_compute in Hc |- *.
Qed.

Lemma scalar_frozen b v : wf_scalar b v → frozen (show_scalar v).
Proof.
  destruct v as [|bv| | | |z|s| |]; simpl; try done.
  - intros _. apply frozen_word; [done|done|by destruct bv; repeat constructor|].
    destruct Hkw as [-> | ->], bv; by vm_compute.
  - intros Hz. unfold show_Z. destruct (Z.ltb_spec z 0); [|by apply number_frozen].
    apply (frozen_mid kw [] ["-"%char] (show_nat (- z))); [by apply inert_frozen, (inert_plains kw kw_upper kw_ne 0 []); constructor
      |by apply inert_plain; [..|right]|apply number_frozen; lia|done..].
  - intros H. apply inert_frozen, inert_quoted; [done|].
    intros Hin%list_elem_of_In. rewrite Forall_forall in H. apply H in Hin as [Hs _]. by vm_compute in Hs.
Qed.

Lemma scalar_inert v : wf_scalar false v → inert 1 (show_scalar v).
Proof.
  assert (Hw : ∀ s, Forall isWordChar s → inert 1 s).
  { intros s H. apply inert_plains; [done|done|]. eapply List.Forall_impl; [|exact H]. intros c Hc%Is_true_true.
    destruct (word_plain c Hc). split_and!; [done..|by left]. }
  destruct v as [|bv| | | |z|s| |]; simpl; try done.
  - intros _. apply Hw. by destruct bv; repeat constructor.
  - intros Hz. unfold show_Z. destruct (Z.ltb_spec z 0).
    + apply (inert_app kw 1 ["-"%char]); [by apply inert_plain; [..|left]|].
      apply Hw, digits_word, show_nat_digits. lia.
    + apply Hw, digits_word, show_nat_digits. lia.
  - intros H. apply inert_quoted; [done|].
    intros Hin%list_elem_of_In. rewrite Forall_forall in H. apply H in Hin as [Hs _]. by vm_compute in Hs.
Qed.

Lemma list_frozen vs : Forall (wf_scalar false) vs → frozen (show_value (VList vs)).
Proof.
  intros H. apply inert_frozen, inert_parens; [done|done|].
  induction H as [|v vs Hv Hvs IH]; [by apply (inert_plains kw kw_upper kw_ne 1 []); constructor|].
  destruct vs as [|v2 vs]; [by apply scalar_inert|].
  change (join [","%char] (show_scalar <$> v :: v2 :: vs)) with
    (show_scalar v ++ [","%char] ++ join [","%char] (show_scalar <$> v2 :: vs)).
  apply inert_app; [by apply scalar_inert|]. apply inert_app; [|done]. by apply inert_plain; [..|left].
Qed.
End keyword.

(** ** Fields and single conditions *)

(** Closed facts about characters and words *)
Ltac decided := apply (bool_decide_eq_true_1 _); vm_compute; reflexivity.

Definition field_char (c : ascii) : Prop := isWordChar c = true ∨ c = "."%char.

Lemma field_chars f : wf_field f → Forall field_char f.
Proof.
  intros (segs & -> & _ & H). induction H as [|s segs (Hne & Hs & _) Hsegs IH]; [constructor|].
  assert (Hc : Forall field_char s) by (eapply List.Forall_impl; [|exact Hs]; intros c Hc; left; by apply Is_true_true).
  destruct segs; [done|]. cbn [join]. apply Forall_app. split; [done|]. constructor; [by right|done].
Qed.
Lemma field_char_plain c : field_char c → c ≠ " "%char ∧ (c ∉ special) ∧ is_paren c = false ∧ is_quote c = false.
Proof.
  intros [H | ->]; [|decided]. destruct c as [[] [] [] [] [] [] [] []]; first [discriminate H|decided].
Qed.
Lemma field_solid f : wf_field f → solid f.
Proof.
  intros (segs & -> & Hne & H). apply solid_join; [by repeat constructor|done|].
  eapply List.Forall_impl; [|exact H]. intros s (? & ? & _). by apply word_solid.
Qed.
Lemma field_frozen kw f : kw = tx "OR" ∨ kw = tx "AND" → wf_field f → frozen kw f.
Proof.
  intros Hkw (segs & -> & Hne & H). induction H as [|s segs (Hs0 & Hs & Hk) Hsegs IH]; [done|].
  assert (Hf : frozen kw s).
  { apply frozen_word; [by apply kw_upper|by apply kw_ne|done|]. intros E. apply Hk. rewrite E.
    destruct Hkw as [-> | ->]; decided. }
  destruct segs as [|s2 segs]; [done|].
  apply (frozen_mid kw s ["."%char]); [done| |by apply IH|done..].
  apply inert_plain; [by apply kw_upper|by apply kw_ne|done|done|by right].
Qed.

Lemma upper_fixed c : is_letter c = false → ∀ d, ascii_upper d = c → d = c.
Proof.
  intros Hc d Hd. unfold ascii_upper in Hd. destruct (is_lower d) eqn:E; [|done]. exfalso.
  revert Hc E. subst c. destruct d as [[] [] [] [] [] [] [] []]; vm_compute; discriminate.
Qed.
Lemma upper_notin c (s : text) : is_letter c = false → c ∉ s → c ∉ ascii_upper <$> s.
Proof. intros Hc Hs (d & E & Hd)%list_elem_of_fmap. apply Hs. by rewrite <- (upper_fixed c Hc d). Qed.

Lemma field_not_NOT f r : wf_field f → has_prefix (tx "NOT ") (ascii_upper <$> (f ++ " "%char :: r)) = false.
Proof.
  intros Hw. pose proof (field_chars f Hw) as Hc. destruct Hw as (segs & -> & Hne & H).
  destruct segs as [|s segs]; [done|]. apply Forall_cons_iff in H as [(Hs0 & Hs & Hk) _].
  destruct (has_prefix _ _) eqn:E; [exfalso|done]. rewrite has_prefix_take in E. apply bool_decide_eq_true_1 in E.
  set (f := join ["."%char] (s :: segs)) in *.
  assert (Hb : ∀ i, (i < 4)%nat → (f ++ " "%char :: r) !! i ≫= (λ c, Some (ascii_upper c)) = tx "NOT " !! i).
  { intros i Hi. rewrite <- E. rewrite lookup_take_lt, list_lookup_fmap by done. by destruct (_ !! i). }
  assert (Hlen : length f = 3%nat).
  { destruct (lt_eq_lt_dec (length f) 3) as [[Hl|]|Hl]; [exfalso|done|exfalso].
    - specialize (Hb (length f) ltac:(lia)). rewrite lookup_app_r, Nat.sub_diag in Hb by done. simpl in Hb.
      destruct (length f) as [|[|[|]]]; [done..|lia].
    - specialize (Hb 3%nat ltac:(lia)). rewrite lookup_app_l in Hb by done.
      destruct (f !! 3%nat) as [c|] eqn:Ec; [|done]. simpl in Hb.
      assert (c = " "%char) as -> by (apply upper_fixed; [done|congruence]).
      assert (Hin : field_char " "%char) by (rewrite Forall_forall in Hc; apply Hc, list_elem_of_In; by eapply list_elem_of_lookup_2).
      by apply field_char_plain in Hin as [? _]. }
  assert (Ef : ascii_upper <$> f = tx "NOT").
  { change (length (tx "NOT ")) with 4%nat in E. rewrite fmap_app, take_app in E. rewrite length_fmap, Hlen in E. rewrite take_ge in E by (rewrite length_fmap; lia).
    simpl in E. by apply (app_inj_2 _ (tx "NOT") [" "%char] [" "%char]) in E as [? _]. }
  assert (Hd : "."%char ∉ f).
  { intros Hin. assert ("."%char ∈ ascii_upper <$> f) as Hin2 by (apply list_elem_of_fmap; by exists "."%char).
    rewrite Ef in Hin2. revert Hin2. decided. }
  assert (f = s) as Es.
  { subst f. destruct segs; [done|]. exfalso. apply Hd. cbn [join]. apply elem_of_app. right. by left. }
  apply Hk. rewrite <- Es, Ef. decided.
Qed.

Lemma op_frozen kw op : kw = tx "OR" ∨ kw = tx "AND" → frozen kw (show_op op).
Proof.
  intros Hkw. assert (Hs : ∀ s, Forall (λ c, is_quote c = false ∧ is_paren c = false ∧ (0 ≠ 0 ∨ isWordChar c = false)) s → frozen kw s).
  { intros s H. apply inert_frozen, inert_plains; [by apply kw_upper|by apply kw_ne|done]. }
  assert (Hsym : ∀ s, forallb (λ c, negb (is_quote c || is_paren c || isWordChar c)) s = true → frozen kw s).
  { intros s H. apply Hs. induction s as [|c s IH]; constructor; simpl in H; apply andb_true_iff in H as [Hc H]; [|by apply IH].
    apply negb_true_iff, orb_false_iff in Hc as [Hc ?]. apply orb_false_iff in Hc as [? ?]. split_and!; [done..|by right]. }
  assert (Hw : ∀ s, forallb (λ c, isWordChar c) s = true → s ∉ [tx "OR"; tx "AND"] → ascii_upper <$> s = s → frozen kw s).
  { intros s Hc Hn Hu. apply frozen_word; [by apply kw_upper|by apply kw_ne| |].
    - clear - Hc. induction s as [|c s IH]; constructor; simpl in Hc; apply andb_true_iff in Hc as [Hc H]; [by rewrite Hc|by apply IH].
    - rewrite Hu. intros ->. apply Hn. destruct Hkw as [-> | ->]; decided. }
  assert (Hw' : ∀ w, bool_decide (w ∈ tx <$> ["LIKE"; "IN"; "IS"; "NOT"; "NULL"]%string) = true → frozen kw w).
  { intros w Hin%bool_decide_eq_true_1. cbn in Hin. rewrite !elem_of_cons, elem_of_nil in Hin.
    repeat (destruct Hin as [->|Hin]; [apply Hw; [reflexivity|decided|reflexivity]|]). done. }
  unfold show_op. destruct (list_find _ _) as [[i [k w]]|] eqn:E; [|by apply Hsym].
  apply list_find_Some in E as (Hin & _ & _). apply list_elem_of_lookup_2 in Hin. unfold op_words in Hin.
  rewrite !elem_of_cons, elem_of_nil in Hin.
  repeat (destruct Hin as [[= -> ->]|Hin]; [try (by apply Hsym)|]); [..|done].
  - by apply Hw'.
  - by apply Hw'.
  - apply (frozen_blank kw Hkw (tx "IS")); [by apply Hw'|]. by apply (frozen_blank kw Hkw (tx "NOT")); apply Hw'.
  - by apply (frozen_blank kw Hkw (tx "IS")); apply Hw'.
Qed.

(** ** Reading values *)

Lemma has_prefix_app p s : has_prefix p (p ++ s) = true.
Proof. rewrite has_prefix_take, take_app_length. by apply bool_decide_eq_true_2. Qed.
Lemma has_prefix_head p c s : p ≠ [] → head p ≠ Some c → has_prefix p (c :: s) = false.
Proof. destruct p as [|a p]; [done|]. intros _ H. simpl. by destruct (Ascii.eqb_spec a c) as [->|]. Qed.
Lemma has_suffix_snoc c s : has_suffix [c] (s ++ [c]) = true.
Proof. unfold has_suffix. rewrite reverse_app. simpl. by rewrite Ascii.eqb_refl. Qed.

Lemma has_suffix_last a c s : has_suffix [c] (a :: s ++ [c]) = true.
Proof. apply (has_suffix_snoc c (a :: s)). Qed.

Lemma inside_between {E} a s b : @inside E (a :: s ++ [b]) = Ok s.
Proof.
  unfold inside. replace (a :: s ++ [b]) with ([a] ++ s ++ [b]) by done.
  apply slice_app; rewrite ?len_app; unfold len; simpl; lia.
Qed.

Lemma solid_trim s : solid s → TrimSpace s = s.
Proof.
  intros H. destruct (solid_piece s H) as (Hne & Ht & Ha). rewrite TrimSpace_ascii by done.
  rewrite <- (app_nil_r s) at 1. by apply (trim_by_tight blank [] s []).
Qed.

Lemma split_commas parts : parts ≠ [] → Forall (λ s, ","%char ∉ s) parts → Split ","%char (join [","%char] parts) = parts.
Proof.
  assert (Hone : ∀ s rest, ","%char ∉ s → Split ","%char (s ++ ","%char :: rest) = s :: Split ","%char rest).
  { intros s rest. induction s as [|c s IH]; intros Hs; simpl; [done|]. apply not_elem_of_cons in Hs as [Hc Hs].
    destruct (Ascii.eqb_spec c ","%char); [by subst|]. by rewrite IH. }
  assert (Hlast : ∀ s, ","%char ∉ s → Split ","%char s = [s]).
  { intros s. induction s as [|c s IH]; intros Hs; simpl; [done|]. apply not_elem_of_cons in Hs as [Hc Hs].
    destruct (Ascii.eqb_spec c ","%char); [by subst|]. by rewrite IH. }
  intros Hne H. induction H as [|p parts Hp Hps IH]; [done|]. destruct parts as [|p2 parts]; [by apply Hlast|].
  change (join [","%char] (p :: p2 :: parts)) with (p ++ ","%char :: join [","%char] (p2 :: parts)).
  by rewrite Hone, IH.
Qed.

(** The characters of a shown value *)
Definition value_char (blanks : bool) (c : ascii) : Prop := c ∉ special ∨ c = ","%char.

Lemma number_chars z c : MinInt64 ≤ z ≤ MaxInt64 → c ∈ show_Z z → is_digit c = true ∨ c = "-"%char.
Proof.
  intros Hz Hc. unfold show_Z in Hc. assert (Hd : ∀ n, 0 ≤ n → c ∈ show_nat n → is_digit c = true).
  { intros n Hn Hin%list_elem_of_In. destruct (show_nat_digits n Hn) as [H _]. rewrite Forall_forall in H. by apply Is_true_true, H. }
  destruct (Z.ltb_spec z 0); [|left; by apply (Hd z)]. apply elem_of_cons in Hc as [->|Hc]; [by right|]. left. apply (Hd (- z)); [lia|done].
Qed.

Lemma scalar_chars b v c : wf_scalar b v → c ∈ show_scalar v → c ∉ special ∧ (b = false → c ≠ " "%char) ∧ is_paren c = false.
Proof.
  assert (Hw : ∀ c, is_digit c = true ∨ c = "-"%char → c ∉ special ∧ c ≠ " "%char ∧ is_paren c = false).
  { intros d [H | ->]; [|decided]. destruct d as [[] [] [] [] [] [] [] []]; first [discriminate H|decided]. }
  destruct v as [|bv| | | |z|s| |]; simpl; try done.
  - intros _ Hin. assert (H : c ∈ tx "TRUEFALSE") by (destruct bv; revert Hin; cbn; rewrite !elem_of_cons; tauto).
    cbn in H. rewrite !elem_of_cons, elem_of_nil in H.
    repeat (destruct H as [->|H]; [split_and!; [decided|intros _; decided|done]|]). done.
  - intros Hz Hin. destruct (Hw c (number_chars z c Hz Hin)) as (? & ? & ?). done.
  - intros H. rewrite elem_of_cons, elem_of_app, elem_of_cons, elem_of_nil.
    assert (Hq : quote1 ∉ special ∧ quote1 ≠ " "%char ∧ is_paren quote1 = false) by decided.
    intros [->|[Hin|[->|Hin]]]; [by destruct Hq as (? & ? & ?)| |by destruct Hq as (? & ? & ?)|done].
    apply list_elem_of_In in Hin. rewrite Forall_forall in H. destruct (H c Hin) as [Hs Hb]. apply safe_parts in Hs as (_ & _ & ? & ?).
    split_and!; [done| |done]. intros ->. by destruct Hb.
Qed.

Section values.
Context {up : UpperMap} {fl : FloatSyntax}.

Lemma upper_number z : MinInt64 ≤ z ≤ MaxInt64 →
  quoted quote1 (show_Z z) = false ∧ quoted quote2 (show_Z z) = false ∧ has_prefix (tx "(") (show_Z z) = false ∧
  ∀ w, w ∈ [tx "NULL"; tx "TRUE"; tx "FALSE"] → ToUpper (show_Z z) ≠ w.
Proof.
  intros Hz. destruct (scalar_solid true (VInt64 z) Hz) as ((c & r & E & _) & _ & Ha). cbn [show_scalar] in *.
  assert (Hc : is_digit c = true ∨ c = "-"%char) by (apply (number_chars z c Hz); rewrite E; by left).
  assert (Hcs : c ≠ quote1 ∧ c ≠ quote2 ∧ c ≠ "("%char ∧ is_letter c = false ∧ ascii_upper c = c).
  { destruct Hc as [H | ->]; [|decided]. destruct c as [[] [] [] [] [] [] [] []]; first [discriminate H|decided]. }
  destruct Hcs as (H1 & H2 & H3 & H4 & H5). rewrite ToUpper_ascii by done. rewrite E. cbn [fmap list_fmap]. rewrite H5.
  assert (Hq : ∀ q, c ≠ q → has_prefix [q] (c :: r) = false) by (intros q Hq; apply has_prefix_head; [done|simpl; congruence]).
  unfold quoted. rewrite (Hq quote1), (Hq quote2) by done. split_and!; [done|done|by apply (Hq "("%char)|].
  intros w Hw Heq. rewrite !elem_of_cons, elem_of_nil in Hw. destruct c as [[] [] [] [] [] [] [] []]; try discriminate H4;
    destruct Hw as [->|[->|[->|[]]]]; discriminate Heq.
Qed.

Lemma parse_scalar fuel b v : wf_scalar b v → parse_value (S fuel) (show_scalar v) = Ok v.
Proof.
  intros H. pose proof (scalar_solid b v H) as Hs. cbn [parse_value]. rewrite solid_trim by done.
  destruct v as [|bv| | | |z|s| |]; try done.
  - cbn [show_scalar]. rewrite ToUpper_ascii by (by destruct bv; repeat constructor). by destruct bv.
  - cbn [show_scalar wf_scalar] in *. destruct (upper_number z H) as (-> & -> & -> & Hu). rewrite andb_false_r.
    cbn [andb]. destruct (decide _) as [E|_]; [by apply Hu in E; [|decided]|].
    destruct (decide _) as [E|_]; [by apply Hu in E; [|decided]|]. destruct (decide _) as [E|_]; [by apply Hu in E; [|decided]|].
    by rewrite ParseInt_show.
  - cbn [show_scalar]. unfold quoted. rewrite (has_suffix_last quote1). cbn [has_prefix].
    rewrite Ascii.eqb_refl. rewrite len_cons, len_app. replace (2 <=? len (tx s) + len [quote1] + 1) with true.
    2: { symmetry. apply Z.leb_le. pose proof (len_nonneg (tx s)). unfold len in *. simpl. lia. }
    cbn [andb orb]. rewrite inside_between. cbn. by rewrite str_tx.
Qed.

Lemma parse_list fuel vs : vs ≠ [] → Forall (wf_scalar false) vs → parse_value (S (S fuel)) (show_value (VList vs)) = Ok (VList vs).
Proof.
  intros Hne H. pose proof (list_solid vs Hne H) as Hs. remember (S fuel) as f eqn:Ef. cbn [parse_value]. rewrite solid_trim by done.
  cbn [show_value] in *. set (inner := join [","%char] (show_scalar <$> vs)) in *.
  assert (Ha : Forall is_ascii ("("%char :: inner ++ [")"%char])) by by destruct Hs as (_ & _ & ?).
  assert (Hq : ∀ q, q ≠ "("%char → quoted q ("("%char :: inner ++ [")"%char]) = false).
  { intros q Hq. unfold quoted. rewrite has_prefix_head; [done..|]. simpl. congruence. }
  rewrite !Hq by done. rewrite andb_false_r, ToUpper_ascii by done. cbn [fmap list_fmap].
  change (ascii_upper "("%char) with "("%char. destruct (decide _) as [E|_]; [done|]. destruct (decide _) as [E|_]; [done|].
  destruct (decide _) as [E|_]; [done|]. change (has_prefix (tx "(") _) with true.
  change (tx ")") with [")"%char]. rewrite (has_suffix_last "("%char ")"%char inner). cbn [andb]. rewrite inside_between, Ok_bind. unfold inner.
  rewrite split_commas; [|by destruct vs|].
  2: { apply Forall_fmap. eapply List.Forall_impl; [|exact H]. intros v Hv Hin. apply (scalar_chars _ _ _ Hv) in Hin as [Hc _].
       apply Hc. decided. }
  assert (Hm : mapM (λ part, parse_value f (TrimSpace part)) (show_scalar <$> vs) = Ok vs); [|by rewrite Hm].
  clear - H Ef. induction H as [|v vs Hv Hvs IH]; [done|]. cbn. rewrite solid_trim by by eapply scalar_solid.
  rewrite Ef. erewrite parse_scalar by done. rewrite Ok_bind, <- Ef, IH. done.
Qed.

Lemma parse_shown v b : wf_scalar b v ∨ wf_list v → parseValue (show_value v) = Ok v.
Proof.
  unfold parseValue. intros [H|H].
  - assert (E : show_value v = show_scalar v) by by destruct v. rewrite E. by eapply parse_scalar.
  - destruct v as [| | | | | | |vs|]; try done. destruct H as [Hne H]. cbn [show_value length]. by apply parse_list.
Qed.
End values.
