(* ===== verification/SqlTheorems.v ===== *)
(** * The query language: conditions read back, and what the parser never does

    [where_roundtrip]: a condition in disjunctive form, written out, is parsed to
    itself. [parse_total]: on ASCII text the parser returns a query or an error,
    with the fuel it is given. *)
From Stdlib Require Import Strings.Ascii ZArith Lia Floats.SpecFloat.
From stdpp Require Import base gmap list strings numbers.
From S2P Require Import Prelude Float32 PayloadFilter Text Regexp Sql SqlScan SqlShow.

#[local] Open Scope Z_scope.

(** ** Finding the operator *)

Lemma index_of_none c sub s : c ∈ sub → c ∉ s → index_of sub s = None.
Proof.
  intros Hc. induction s as [|d s IH]; intros Hs; cbn [index_of].
  - destruct sub; [by apply elem_of_nil in Hc|done].
  - rewrite IH by (intros H; apply Hs; by right). destruct (has_prefix sub (d :: s)) eqn:E; [exfalso|done].
    rewrite has_prefix_take in E. apply bool_decide_eq_true_1 in E. apply Hs. rewrite <- E in Hc.
    by eapply subseteq_take.
Qed.
Lemma index_of_skip c sub a s : head sub = Some c → c ∉ a → index_of sub (a ++ s) = (λ n, length a + n)%nat <$> index_of sub s.
Proof.
  intros Hh. induction a as [|d a IH]; intros Ha; cbn [app length].
  - by destruct (index_of sub s).
  - apply not_elem_of_cons in Ha as [Hd Ha]. cbn [index_of].
    rewrite has_prefix_head; [|by destruct sub|congruence]. rewrite IH by done. by destruct (index_of sub s).
Qed.
Lemma index_of_here sub s : index_of sub (sub ++ s) = Some 0%nat.
Proof. destruct (sub ++ s) eqn:E; cbn [index_of]; by rewrite <- E, has_prefix_app. Qed.

Section conditions.
Context {up : UpperMap} {fl : FloatSyntax}.

Lemma try_skip sql op ops cond : op_index (tx sql) cond = None → try_operators ((sql, op) :: ops) cond = try_operators ops cond.
Proof. intros H. cbn [try_operators]. by rewrite H. Qed.

(** The condition that an operator at an index gives *)
Lemma try_here sql op ops pre rest v val field :
  op_index (tx sql) (pre ++ tx sql ++ rest) = Some (length pre) → TrimSpace pre = field →
  (if String.eqb op "is_null" || String.eqb op "is_not_null" then val = VNil else TrimSpace rest = v ∧ parseValue v = Ok val) →
  try_operators ((sql, op) :: ops) (pre ++ tx sql ++ rest) = Ok (condition field op val).
Proof.
  intros Hi Hf Hv. cbn [try_operators]. rewrite Hi. rewrite (slice_app_l pre) by done. rewrite Ok_bind.
  replace (slice (pre ++ tx sql ++ rest) _ _) with (@Ok sqlError _ rest).
  2: { symmetry. rewrite app_assoc. apply slice_app_r; unfold len; rewrite !length_app; lia. }
  rewrite Ok_bind, Hf. destruct (_ || _); [by subst|]. destruct Hv as [-> ->]. done.
Qed.

Definition op_chars : text := tx "<>=!".

Lemma op_char_special c : c ∈ op_chars → (c ∈ special) ∧ c ≠ " "%char ∧ c ≠ ","%char ∧ is_paren c = false ∧ is_letter c = false.
Proof. intros H. cbn in H. rewrite !elem_of_cons, elem_of_nil in H. destruct H as [->|[->|[->|[->|[]]]]]; decided. Qed.

Lemma in_join c sep parts : c ∈ join sep parts → c ∈ sep ∨ ∃ p, p ∈ parts ∧ c ∈ p.
Proof.
  induction parts as [|p parts IH]; [by intros H%elem_of_nil|]. destruct parts as [|p2 parts].
  { intros H. right. exists p. split; [by left|done]. }
  change (join sep (p :: p2 :: parts)) with (p ++ sep ++ join sep (p2 :: parts)).
  rewrite !elem_of_app. intros [H|[H|H]]; [right; exists p; split; [by left|done]|by left|].
  destruct (IH H) as [?|(q & ? & ?)]; [by left|]. right. exists q. split; [by right|done].
Qed.

Lemma list_chars vs c : Forall (wf_scalar false) vs → c ∈ show_value (VList vs) →
  c = "("%char ∨ c = ")"%char ∨ c = ","%char ∨ (c ∉ special ∧ c ≠ " "%char).
Proof.
  intros H Hin. cbn [show_value] in Hin. rewrite elem_of_cons, elem_of_app, elem_of_cons, elem_of_nil in Hin.
  destruct Hin as [->|[Hin|[->|[]]]]; [by left| |by right; left].
  destruct (in_join _ _ _ Hin) as [Hs|(p & Hp & Hc)].
  - rewrite elem_of_cons, elem_of_nil in Hs. destruct Hs as [->|[]]. by right; right; left.
  - apply list_elem_of_fmap in Hp as (v & -> & Hv%list_elem_of_In). rewrite Forall_forall in H.
    destruct (scalar_chars false v c (H v Hv) Hc) as (? & Hb & _). right; right; right. split; [done|by apply Hb].
Qed.

Lemma value_chars b v c : wf_scalar b v ∨ wf_list v → c ∈ op_chars → c ∉ show_value v.
Proof.
  intros Hv Hc Hin. destruct (op_char_special c Hc) as (H1 & H2 & H3 & H4 & _). destruct Hv as [Hv|Hv].
  - assert (E : show_value v = show_scalar v) by by destruct v. rewrite E in Hin. by apply (scalar_chars b v c Hv) in Hin as [? _].
  - destruct v; try done. destruct Hv as [_ Hv]. destruct (list_chars _ _ Hv Hin) as [->|[->|[->|[? _]]]]; done.
Qed.
Lemma value_solid b v : wf_scalar b v ∨ wf_list v → solid (show_value v).
Proof.
  intros [H|H].
  - assert (E : show_value v = show_scalar v) by by destruct v. rewrite E. by eapply scalar_solid.
  - destruct v; try done. destruct H. by apply list_solid.
Qed.

Section conditions_of_field.
Context (f : text) (Hf : wf_field f).

Lemma field_no c : c ∈ op_chars ∨ c = " "%char → c ∉ f.
Proof.
  intros Hc Hin%list_elem_of_In. pose proof (field_chars f Hf) as H. rewrite Forall_forall in H.
  destruct (field_char_plain c (H c Hin)) as (? & ? & _). destruct Hc as [Hc|Hc]; [|done]. by apply op_char_special in Hc as [? _].
Qed.

Lemma symbol_condition w op v i : operators !! i = Some (w, op) → Forall is_ascii (tx w) →
  Forall (λ o, ∃ c, c ∈ tx (fst o) ∧ c ∈ op_chars ∧ c ∉ tx w) (take i operators) →
  (∃ c r, tx w = c :: r ∧ c ∈ op_chars) → String.eqb op "is_null" || String.eqb op "is_not_null" = false →
  wf_scalar true v ∨ wf_list v →
  try_operators operators (f ++ " "%char :: tx w ++ " "%char :: show_value v) = Ok (condition f op v).
Proof.
  intros Hi Hwa Hskip (c & r & Ew & Hc) Hop Hv. rewrite <- (take_drop_middle _ _ _ Hi).
  replace (f ++ " "%char :: tx w ++ " "%char :: show_value v) with ((f ++ [" "%char]) ++ tx w ++ " "%char :: show_value v)
    by by rewrite <- app_assoc.
  induction Hskip as [|o os (d & Hd1 & Hd2 & Hd3) Hos IH].
  - apply (try_here _ _ _ _ _ (show_value v)).
    + unfold op_index. rewrite Ew. rewrite has_prefix_head; [|done|simpl; intros [= <-]; by apply op_char_special in Hc as (_ & ? & _)].
      rewrite <- Ew. rewrite (index_of_skip c); [|by rewrite Ew|].
      * rewrite index_of_here. simpl. by rewrite Nat.add_0_r.
      * rewrite elem_of_app, elem_of_cons, elem_of_nil. intros [H|[->|[]]]; [by apply (field_no c) in H; [|left]|].
        by apply op_char_special in Hc as (_ & ? & _).
    + rewrite TrimSpace_ascii by (apply Forall_app; split; [apply field_solid; done|by repeat constructor]).
      apply (trim_by_tight blank [] f [" "%char]); [constructor|by repeat constructor|..]; by apply solid_piece, field_solid.
    + rewrite Hop. split; [|by eapply parse_shown]. pose proof (value_solid _ _ Hv) as Hs.
      rewrite TrimSpace_ascii by (constructor; [done|apply Hs]). rewrite <- (app_nil_r (show_value v)) at 1.
      apply (trim_by_tight blank [" "%char] (show_value v) []); [by repeat constructor|constructor|..]; by apply solid_piece.
  - destruct o as [sql o]. cbn [app fst]. rewrite try_skip; [exact IH|]. destruct (op_char_special d Hd2) as (_ & Hb & _ & _ & Hl).
    assert (Hno : d ∉ (f ++ [" "%char]) ++ tx w ++ " "%char :: show_value v).
    { rewrite !elem_of_app, !elem_of_cons, elem_of_nil. intros [[H|[H|[]]]|[H|[H|H]]]; [by apply (field_no d) in H; [|left]|done..|].
      by apply (value_chars _ _ d Hv) in H. }
    unfold op_index. destruct (has_prefix (tx " ") (tx sql)); [|by apply (index_of_none d)].
    apply (index_of_none d); [done|]. rewrite ToUpper_ascii; [by apply upper_notin|].
    rewrite !Forall_app. split_and!; [apply field_solid; done|by repeat constructor|done|constructor; [done|by eapply value_solid]].
Qed.

(** Operators that are words: no symbol occurs, and the first blank of the text is
    before the operator. *)
Lemma skip_symbols rest : (∀ c, c ∈ op_chars → c ∉ rest) →
  try_operators operators (f ++ rest) = try_operators (drop 7 operators) (f ++ rest).
Proof.
  intros Hr. assert (Hno : ∀ c, c ∈ op_chars → c ∉ f ++ rest).
  { intros c Hc [H|H]%elem_of_app; [by apply (field_no c) in H; [|left]|by apply Hr in H]. }
  assert (Hs : ∀ sql op ops, match sql with String a _ => a ∈ op_chars | _ => False end →
    try_operators ((sql, op) :: ops) (f ++ rest) = try_operators ops (f ++ rest)).
  { intros [|a sql] op ops Ha; [done|]. apply try_skip. unfold op_index. change (tx (String a sql)) with (a :: tx sql).
    destruct (op_char_special a Ha) as (_ & Hb & _). rewrite has_prefix_head; [|done|simpl; intros [= <-]; done].
    apply (index_of_none a); [by left|by apply Hno]. }
  unfold operators. rewrite !Hs by decided. done.
Qed.

Lemma word_index sql rest : head (tx sql) = Some " "%char → Forall is_ascii rest →
  op_index (tx sql) (f ++ rest) = (λ n, length f + n)%nat <$> index_of (tx sql) (ascii_upper <$> rest).
Proof.
  intros Hh Hr. unfold op_index. replace (has_prefix (tx " ") (tx sql)) with true.
  2: { destruct (tx sql) as [|c r]; [done|]. by injection Hh as ->. }
  rewrite ToUpper_ascii by (apply Forall_app; split; [apply field_solid|]; done). rewrite fmap_app.
  rewrite (index_of_skip " "%char); [by rewrite length_fmap|done|].
  apply upper_notin; [done|]. apply field_no. by right.
Qed.

Lemma word_condition sql op rest ops v val :
  head (tx sql) = Some " "%char → Forall is_ascii (tx sql) → ascii_upper <$> tx sql = tx sql → Forall is_ascii rest →
  (if String.eqb op "is_null" || String.eqb op "is_not_null" then val = VNil else TrimSpace rest = v ∧ parseValue v = Ok val) →
  try_operators ((sql, op) :: ops) (f ++ tx sql ++ rest) = Ok (condition f op val).
Proof.
  intros Hh Ha Hu Hr Hv. apply (try_here _ _ _ _ _ v); [|by apply solid_trim, field_solid|done].
  rewrite word_index by (done || by apply Forall_app). rewrite fmap_app, Hu, index_of_here. simpl. by rewrite Nat.add_0_r.
Qed.

Lemma word_skip sql op ops rest : head (tx sql) = Some " "%char → Forall is_ascii rest →
  index_of (tx sql) (ascii_upper <$> rest) = None →
  try_operators ((sql, op) :: ops) (f ++ rest) = try_operators ops (f ++ rest).
Proof. intros Hh Hr Hn. apply try_skip. by rewrite word_index, Hn. Qed.

Lemma op_char_words c s : c ∈ op_chars → forallb (λ d, isWordChar d || Ascii.eqb d " "%char) s = true → c ∉ s.
Proof.
  intros Hc Hs Hin. rewrite List.forallb_forall in Hs. specialize (Hs c (proj1 (list_elem_of_In _ _) Hin)).
  cbn in Hc. rewrite !elem_of_cons, elem_of_nil in Hc. destruct Hc as [->|[->|[->|[->|[]]]]]; discriminate Hs.
Qed.

Lemma like_condition v : wf_scalar true v ∨ wf_list v →
  try_operators operators (f ++ tx " LIKE " ++ show_value v) = Ok (condition f "like" v).
Proof.
  intros Hv. pose proof (value_solid _ _ Hv) as Hs. rewrite skip_symbols.
  2: { intros c Hc [H|H]%elem_of_app; [by apply op_char_words in H|by apply (value_chars _ _ c Hv) in H]. }
  cbn [drop operators]. apply (word_condition _ _ _ _ (show_value v)); [done|by repeat constructor|done|apply Hs|].
  cbn. split; [by apply solid_trim|by eapply parse_shown].
Qed.

Lemma in_condition vs : vs ≠ [] → Forall (wf_scalar false) vs →
  try_operators operators (f ++ tx " IN " ++ show_value (VList vs)) = Ok (condition f "in" (VList vs)).
Proof.
  intros Hne Hv. pose proof (list_solid _ Hne Hv) as Hs. assert (Hw : wf_scalar true (VList vs) ∨ wf_list (VList vs)) by by right.
  rewrite skip_symbols.
  2: { intros c Hc [H|H]%elem_of_app; [by apply op_char_words in H|by apply (value_chars _ _ c Hw) in H]. }
  cbn [drop operators]. rewrite word_skip; [|done|apply Forall_app; split; [by repeat constructor|apply Hs]|].
  - apply (word_condition _ _ _ _ (show_value (VList vs))); [done|by repeat constructor|done|apply Hs|].
    cbn [String.eqb Ascii.eqb Bool.eqb orb]. split; [by apply solid_trim|by eapply parse_shown].
  - rewrite fmap_app. change (ascii_upper <$> tx " IN ") with (tx " IN "). cbn [show_value fmap list_fmap].
    set (r := ascii_upper <$> _). assert (Hr : " "%char ∉ "("%char :: r).
    { change ("("%char :: r) with (ascii_upper <$> show_value (VList vs)). apply upper_notin; [done|].
      intros Hin. destruct (list_chars _ _ Hv Hin) as [?|[?|[?|[_ ?]]]]; done. }
    assert (Hn : index_of (tx " LIKE ") ("("%char :: r) = None) by (apply (index_of_none " "%char); [by left|done]).
    change (ascii_upper "("%char) with "("%char. set (t := "("%char :: r) in *.
    change (tx " IN " ++ t) with (" "%char :: "I"%char :: "N"%char :: " "%char :: t). cbn [index_of].
    rewrite Hn. by subst t.
Qed.

Lemma null_condition op : op = "is_null"%string ∨ op = "is_not_null"%string →
  try_operators operators (f ++ " "%char :: show_op op) = Ok (condition f op VNil).
Proof.
  intros Hop. replace (" "%char :: show_op op) with (tx (if String.eqb op "is_null" then " IS NULL" else " IS NOT NULL") ++ [])
    by by destruct Hop as [-> | ->].
  rewrite skip_symbols by (intros c Hc; rewrite app_nil_r; apply op_char_words; [done|by destruct Hop as [-> | ->]]).
  cbn [drop operators]. destruct Hop as [-> | ->]; cbn [String.eqb Ascii.eqb Bool.eqb].
  - do 3 (rewrite word_skip; [|done|by repeat constructor|done]).
    apply (word_condition _ _ _ _ [] VNil); [done|by repeat constructor|done|constructor|done].
  - do 2 (rewrite word_skip; [|done|by repeat constructor|done]).
    apply (word_condition _ _ _ _ [] VNil); [done|by repeat constructor|done|constructor|done].
Qed.

Lemma condition_read op v : wf_cond f op v → try_operators operators (show_cond f op v) = Ok (condition f op v).
Proof.
  intros (_ & Hop). unfold show_cond.
  assert (Hval : v ≠ VNil → match v with VNil => [] | _ => " "%char :: show_value v end = " "%char :: show_value v) by by destruct v.
  destruct Hop as [(Hin & Hv)|[(-> & Hv)|(Hop & ->)]].
  - rewrite Hval by (intros ->; by destruct Hv). rewrite !elem_of_cons, elem_of_nil in Hin.
    assert (Hd : ∀ w i, operators !! i = Some (w, op) → show_op op = tx w →
      forallb (λ o, existsb (λ c, bool_decide (c ∈ op_chars) && negb (bool_decide (c ∈ tx w))) (tx (fst o))) (take i operators) = true →
      match tx w with c :: _ => bool_decide (c ∈ op_chars) | [] => false end = true → forallb is_ascii (tx w) = true →
      String.eqb op "is_null" || String.eqb op "is_not_null" = false →
      try_operators operators (f ++ " "%char :: show_op op ++ " "%char :: show_value v) = Ok (condition f op v)).
    { intros w i Hi -> Hsk Hc Ha Hn. apply (symbol_condition w op v i); [done| | | |done..].
      - apply Forall_forall. intros c Hc'. rewrite List.forallb_forall in Ha. by rewrite (Ha c Hc').
      - apply Forall_forall. intros o Ho. rewrite List.forallb_forall in Hsk. specialize (Hsk o Ho).
        apply List.existsb_exists in Hsk as (c & Hcin & [H1 H2]%andb_true_iff).
        apply bool_decide_eq_true_1 in H1. apply negb_true_iff, bool_decide_eq_false_1 in H2.
        exists c. split_and!; [by apply list_elem_of_In|done..].
      - destruct (tx w) as [|c r]; [done|]. exists c, r. split; [done|]. by apply bool_decide_eq_true_1 in Hc. }
    destruct Hin as [->|[->|[->|[->|[->|[->|[->|[]]]]]]]];
      [by apply (Hd "<>"%string 0%nat)|by apply (Hd "<="%string 2%nat)|by apply (Hd ">="%string 3%nat)|by apply (Hd "<"%string 4%nat)
      |by apply (Hd ">"%string 5%nat)|by apply (Hd "="%string 6%nat)|by apply (like_condition v)].
  - rewrite Hval by (intros ->; done). destruct v; try done. destruct Hv. by apply in_condition.
  - rewrite app_nil_r. by apply null_condition.
Qed.
End conditions_of_field.
End conditions.

(** ** Conditions in disjunctive form *)

Lemma op_solid op : show_op op = [] ∨ solid (show_op op).
Proof.
  unfold show_op. destruct (list_find _ _) as [[i [k w]]|] eqn:E; [right|by left].
  apply list_find_Some in E as (Hin & _ & _). apply list_elem_of_lookup_2 in Hin. unfold op_words in Hin.
  rewrite !elem_of_cons, elem_of_nil in Hin.
  repeat (destruct Hin as [[= -> ->]|Hin];
    [split_and!; [by eexists _, _|match goal with |- ∃ r c, tx ?w = _ ∧ _ =>
       exists (removelast (tx w)), (List.last (tx w) " "%char); done end|by repeat constructor]|]).
  done.
Qed.

Lemma op_known op : op ∈ ["ne"; "lte"; "gte"; "lt"; "gt"; "eq"; "like"]%string ∨ op = "in"%string ∨ op = "is_null"%string ∨ op = "is_not_null"%string →
  show_op op ≠ [].
Proof.
  rewrite !elem_of_cons, elem_of_nil. intros H.
  repeat (destruct H as [H|H]; [repeat (destruct H as [->|H]; [done|]); try done; by subst|]). by subst.
Qed.

Lemma cond_parts f op v : wf_cond f op v → wf_field f ∧ solid (show_op op) ∧
  (v = VNil ∨ (v ≠ VNil ∧ (wf_scalar true v ∨ wf_list v))).
Proof.
  intros [Hf Hop]. split; [done|]. assert (Hs : solid (show_op op)).
  { destruct (op_solid op) as [E|]; [exfalso; revert E; apply op_known|done].
    destruct Hop as [[H _]|[[-> _]|[H _]]]; [by left|by right; left|by right; right]. }
  split; [done|]. destruct Hop as [(_ & H)|[(_ & H)|(_ & ->)]]; [right..|by left].
  - split; [|done]. intros ->. by destruct H.
  - split; [|by right]. by intros ->.
Qed.

Lemma cond_solid f op v : wf_cond f op v → solid (show_cond f op v).
Proof.
  intros (Hf & Hs & Hv)%cond_parts. unfold show_cond. destruct Hv as [->|(Hn & Hv)].
  - rewrite app_nil_r. apply (solid_app f [" "%char]); [by apply field_solid|by repeat constructor|done].
  - apply value_solid in Hv. destruct v; try done;
      (apply (solid_app f [" "%char]); [by apply field_solid|by repeat constructor|
       apply (solid_app _ [" "%char]); [done|by repeat constructor|done]]).
Qed.

Lemma cond_frozen kw f op v : kw = tx "OR" ∨ kw = tx "AND" → wf_cond f op v → frozen kw (show_cond f op v).
Proof.
  intros Hkw (Hf & Hs & Hv)%cond_parts. unfold show_cond.
  apply (frozen_blank kw Hkw); [by apply field_frozen|]. pose proof (op_frozen kw op Hkw) as Ho.
  destruct Hv as [->|(Hn & Hv)]; [by rewrite app_nil_r|].
  assert (Hfv : frozen kw (show_value v)).
  { destruct Hv as [Hv|Hv].
    - assert (E : show_value v = show_scalar v) by by destruct v. rewrite E. by eapply scalar_frozen.
    - destruct v; try done. destruct Hv. by apply list_frozen. }
  destruct v; try done; by apply frozen_blank.
Qed.

Lemma lit_solid fe : wf_lit fe → solid (show fe).
Proof.
  induction 1 as [f op v H|fe H IH]; [by apply cond_solid|]. cbn [show negation].
  apply (solid_app (tx "NOT") [" "%char]); [|by repeat constructor|done].
  apply word_solid; [done|by repeat constructor].
Qed.
Lemma lit_frozen kw fe : kw = tx "OR" ∨ kw = tx "AND" → wf_lit fe → frozen kw (show fe).
Proof.
  intros Hkw. induction 1 as [f op v H|fe H IH]; [by apply cond_frozen|]. cbn [show negation].
  apply (frozen_blank kw Hkw (tx "NOT")); [|done].
  apply frozen_word; [by apply kw_upper|by apply kw_ne|by repeat constructor|by destruct Hkw as [-> | ->]].
Qed.

Lemma show_all fs : fs ≠ [] → show (all fs) = join (separator (tx "AND")) (show <$> fs).
Proof. by destruct fs. Qed.
Lemma show_any fs : fs ≠ [] → show (any fs) = join (separator (tx "OR")) (show <$> fs).
Proof. by destruct fs. Qed.

Lemma separator_ascii kw : kw = tx "OR" ∨ kw = tx "AND" → Forall is_ascii (separator kw).
Proof. intros [-> | ->]; by repeat constructor. Qed.

Lemma conj_solid fe : wf_conj fe → solid (show fe).
Proof.
  destruct 1 as [fe H|fs Hl H]; [by apply lit_solid|]. rewrite show_all by by destruct fs; [simpl in Hl; lia|].
  apply solid_join; [by apply separator_ascii; right|by destruct fs; [simpl in Hl; lia|]|].
  apply Forall_fmap. eapply List.Forall_impl; [|exact H]. apply lit_solid.
Qed.

(** Literals joined by AND are not cut at OR. *)
Lemma conj_frozen fe : wf_conj fe → frozen (tx "OR") (show fe).
Proof.
  assert (Hor : tx "OR" = tx "OR" ∨ tx "OR" = tx "AND") by by left.
  destruct 1 as [fe H|fs Hl H]; [by apply lit_frozen|]. rewrite show_all by by destruct fs; [simpl in Hl; lia|].
  assert (Hne : fs ≠ []) by by destruct fs; [simpl in Hl; lia|]. clear Hl.
  induction H as [|fe fs Hfe Hfs IH]; [done|]. destruct fs as [|fe2 fs]; [by apply lit_frozen|].
  change (join _ (show <$> fe :: fe2 :: fs)) with
    (show fe ++ " "%char :: tx "AND" ++ " "%char :: join (separator (tx "AND")) (show <$> fe2 :: fs)).
  apply frozen_blank; [done|by apply lit_frozen|]. apply frozen_blank; [done| |by apply IH].
  apply frozen_word; [by apply kw_upper|by apply kw_ne|by repeat constructor|done].
Qed.

Section roundtrip.
Context {up : UpperMap} {fl : FloatSyntax}.

Lemma split_one kw s : kw = tx "OR" ∨ kw = tx "AND" → solid s → frozen kw s → splitByKeyword s kw = [s].
Proof.
  intros Hkw Hs Hf. apply (split_join kw (kw_upper kw Hkw) (kw_ne kw Hkw) [s]); [done|constructor; [by apply solid_piece|done]|by constructor].
Qed.
Lemma split_parts kw parts : kw = tx "OR" ∨ kw = tx "AND" → parts ≠ [] → Forall solid parts → Forall (frozen kw) parts →
  splitByKeyword (join (separator kw) parts) kw = parts.
Proof.
  intros Hkw Hne Hs Hf. apply (split_join kw (kw_upper kw Hkw) (kw_ne kw Hkw)); [done| |done].
  eapply List.Forall_impl; [|exact Hs]. apply solid_piece.
Qed.

Lemma single_read f op v : wf_cond f op v → parseSingleCondition (show_cond f op v) = Ok (condition f op v).
Proof.
  intros H. unfold parseSingleCondition. rewrite (solid_trim _ (cond_solid _ _ _ H)).
  assert (Hp : ∀ n, strip_parens n (show_cond f op v) = Ok (show_cond f op v)).
  { intros n. unfold show_cond. destruct (field_solid f (proj1 H)) as ((c & r & E & _) & _).
    assert (Hc : field_char c) by (pose proof (field_chars f (proj1 H)) as Hc; rewrite E in Hc; by apply Forall_cons_iff in Hc as [? _]).
    rewrite E. cbn [app]. destruct n; cbn [strip_parens];
      (rewrite (has_prefix_head (tx "(") c); [done|done|]; apply field_char_plain in Hc as (_ & _ & Hc & _); simpl; by intros [= <-]). }
  rewrite Hp, Ok_bind. by apply condition_read; [apply H|].
Qed.

Lemma length_join_parts sep parts p : p ∈ parts → (2 ≤ length parts)%nat → sep ≠ [] → (length p < length (join sep parts))%nat.
Proof.
  intros Hp H2 Hs. assert (Hle : ∀ parts : list text, p ∈ parts → (length p ≤ length (join sep parts))%nat).
  { clear. intros parts. induction parts as [|q parts IH]; [by intros H%elem_of_nil|]. destruct parts as [|q2 parts].
    - intros [->|H%elem_of_nil]%elem_of_cons; [done|done].
    - change (join sep (q :: q2 :: parts)) with (q ++ sep ++ join sep (q2 :: parts)). rewrite !length_app.
      intros [->|H]%elem_of_cons; [lia|]. specialize (IH H). lia. }
  destruct parts as [|q [|q2 parts]]; [simpl in H2; lia..|].
  change (join sep (q :: q2 :: parts)) with (q ++ sep ++ join sep (q2 :: parts)). rewrite !length_app.
  destruct sep; [done|]. simpl. apply elem_of_cons in Hp as [->|Hp]; [lia|]. specialize (Hle _ Hp). simpl in Hle. lia.
Qed.

Lemma one_part (s : text) : (1 <? len [s]) = false.
Proof. done. Qed.

Lemma lit_read fe fuel : wf_lit fe → (length (show fe) < fuel)%nat → parse_where fuel (show fe) = Ok fe.
Proof.
  intros H. revert fuel. induction H as [f op v H|fe H IH]; intros [|fuel] Hf; try lia; cbn [parse_where].
  - change (show (condition f op v)) with (show_cond f op v). rewrite (solid_trim _ (cond_solid _ _ _ H)).
    rewrite !split_one; [|by right|by apply cond_solid|by apply cond_frozen; [right|]|by left|by apply cond_solid|by apply cond_frozen; [left|]].
    rewrite !one_part, ToUpper_ascii by by apply cond_solid. unfold show_cond at 1.
    by rewrite field_not_NOT, single_read by (done || apply H).
  - pose proof (lit_negation fe H) as Hn. rewrite (solid_trim _ (lit_solid _ Hn)).
    rewrite !split_one; [|by right|by apply lit_solid|by apply lit_frozen; [right|]|by left|by apply lit_solid|by apply lit_frozen; [left|]].
    rewrite !one_part, ToUpper_ascii by by apply lit_solid. cbn [show negation] in *. rewrite fmap_app.
    change (ascii_upper <$> tx "NOT ") with (tx "NOT "). rewrite has_prefix_app.
    rewrite slice_app_r; [|done|by rewrite len_app]. rewrite Ok_bind, IH; [done|]. rewrite length_app in Hf. simpl in Hf. lia.
Qed.

Lemma mapM_read fuel fs : Forall (λ fe, parse_where fuel (show fe) = Ok fe) fs → mapM (parse_where fuel) (show <$> fs) = Ok fs.
Proof. induction 1 as [|fe fs H Hfs IH]; [done|]. cbn. by rewrite H, Ok_bind, IH. Qed.

Lemma two_parts {A} (l : list A) : (2 ≤ length l)%nat → (1 <? len l) = true ∧ l ≠ [].
Proof. intros H. split; [unfold len; apply Z.ltb_lt; lia|]. by destruct l; [simpl in H; lia|]. Qed.

Lemma conj_read fe fuel : wf_conj fe → (length (show fe) < fuel)%nat → parse_where fuel (show fe) = Ok fe.
Proof.
  destruct 1 as [fe H|fs Hl H]; [by apply lit_read|]. intros Hf. destruct (two_parts fs Hl) as [Hlen Hne].
  assert (Hc : wf_conj (all fs)) by by constructor. destruct fuel as [|fuel]; [lia|]. cbn [parse_where].
  rewrite (solid_trim _ (conj_solid _ Hc)), (split_one (tx "OR")); [|by left|by apply conj_solid|by apply conj_frozen].
  rewrite one_part. rewrite show_all in * by done.
  rewrite split_parts; [|by right|by destruct fs|..].
  2: { apply Forall_fmap. eapply List.Forall_impl; [|exact H]. intros. by apply lit_solid. }
  2: { apply Forall_fmap. eapply List.Forall_impl; [|exact H]. intros. by apply lit_frozen; [right|]. }
  assert (E : len (show <$> fs) = len fs) by (unfold len; by rewrite length_fmap). rewrite E, Hlen.
  rewrite mapM_read; [done|]. rewrite Forall_forall in *. intros x Hx. apply lit_read; [by apply H|].
  pose proof (length_join_parts (separator (tx "AND")) (show <$> fs) (show x)) as Hlt.
  rewrite length_fmap in Hlt. specialize (Hlt ltac:(apply list_elem_of_fmap; exists x; by rewrite list_elem_of_In) Hl ltac:(done)). lia.
Qed.

Lemma where_reads fe : wf_disj fe → parseWhereClause (show fe) = Ok fe.
Proof.
  unfold parseWhereClause. destruct 1 as [fe H|fs Hl H]; [by apply conj_read; [|lia]|]. destruct (two_parts fs Hl) as [Hlen Hne].
  rewrite show_any by done. cbn [parse_where].
  assert (Hs : Forall solid (show <$> fs)) by (apply Forall_fmap; eapply List.Forall_impl; [|exact H]; intros; by apply conj_solid).
  rewrite solid_trim by by apply solid_join; [apply separator_ascii; left|by destruct fs|].
  rewrite split_parts; [|by left|by destruct fs|done|apply Forall_fmap; eapply List.Forall_impl; [|exact H]; intros; by apply conj_frozen].
  assert (E : len (show <$> fs) = len fs) by (unfold len; by rewrite length_fmap). rewrite E, Hlen.
  rewrite mapM_read; [done|]. rewrite Forall_forall in *. intros x Hx. apply conj_read; [by apply H|].
  pose proof (length_join_parts (separator (tx "OR")) (show <$> fs) (show x)) as Hlt.
  rewrite length_fmap in Hlt. apply Hlt; [apply list_elem_of_fmap; exists x; by rewrite list_elem_of_In|done..].
Qed.

(** The parser reads every condition in disjunctive form, written out, as that
    condition: OR binds weaker than AND and AND weaker than NOT, and keywords inside
    of string literals are left alone. *)
Theorem where_roundtrip fe : wf_disj fe → parseWhereClause (show fe) = Ok fe.
Proof. apply where_reads. Qed.
End roundtrip.

(** ** Witness *)
#[local, refine] Instance demo_upper : UpperMap := {| ToUpper s := ascii_upper <$> s |}.
Proof. done. Defined.
#[local] Instance demo_floats : FloatSyntax := {|
  ParseFloat32 s := f32_of_Z <$> ParseInt s; ParseFloat64 s := f64_of_Z <$> ParseInt s |}.

Definition demo_where : FilterExpr :=
  any [all [condition (tx "x.y") "lte" (VInt64 (-12));
            negation (condition (tx "kind") "in" (VList [VString "u"; VBool true]))];
       condition (tx "name") "like" (VString "this OR that"); condition (tx "z") "is_not_null" VNil].

Lemma wf_one_word (s : string) : tx s ≠ [] → forallb isWordChar (tx s) = true →
  (ascii_upper <$> tx s) ∉ [tx "OR"; tx "AND"; tx "NOT"] → wf_field (tx s).
Proof.
  intros Hne H Hk. exists [tx s]. split_and!; [done|done|]. constructor; [|done]. split_and!; [done| |done].
  apply Forall_forall. intros c Hc. rewrite List.forallb_forall in H. by rewrite (H c Hc).
Qed.

Lemma demo_where_ok : wf_disj demo_where.
Proof.
  assert (H : ∀ s : string, tx s ≠ [] ∧ forallb isWordChar (tx s) = true ∧ (ascii_upper <$> tx s) ∉ [tx "OR"; tx "AND"; tx "NOT"] → wf_field (tx s))
    by (intros s (? & ? & ?); by apply wf_one_word).
  apply disj_any; [simpl; lia|]. repeat apply Forall_cons_2; [..|apply Forall_nil_2].
  - apply conj_all; [simpl; lia|]. repeat apply Forall_cons_2; [..|apply Forall_nil_2].
    + apply lit_condition. split.
      * exists [tx "x"; tx "y"]. split_and!; [done|done|]. repeat constructor; done || decided.
      * left. split; [decided|]. left. split; apply Z.leb_le; reflexivity.
    + apply lit_negation, lit_condition. split; [apply H; decided|]. right; left. split; [done|]. split; [done|].
      repeat apply Forall_cons_2; try done; try apply Forall_nil_2. split; [done|by right].
  - apply conj_lit, lit_condition. split; [apply H; decided|]. left. split; [decided|]. left.
    unfold wf_scalar. repeat constructor.
  - apply conj_lit, lit_condition. split; [apply H; decided|]. right; right. split; [by right|done].
Qed.

Lemma where_roundtrip_witness :
  parseWhereClause (show demo_where) = Ok demo_where ∧
  str (show demo_where) = "x.y <= -12 AND NOT kind IN ('u',TRUE) OR name LIKE 'this OR that' OR z IS NOT NULL"%string.
Proof. split; [apply (where_roundtrip demo_where demo_where_ok)|reflexivity]. Defined.
