(* ===== verification/SqlTotal.v ===== *)
(** * The parser returns on every ASCII text

    [parse_total]: a query or an error, never a panic and never out of fuel. Beyond
    ASCII it can panic: upper-casing may lengthen a text, and the index of an
    operator in the upper-cased text is used to cut the text itself
    ([long_upper_case_panics]). *)
From Stdlib Require Import Strings.Ascii ZArith Lia Floats.SpecFloat.
From stdpp Require Import base gmap list strings numbers.
From S2P Require Import Prelude Float32 PayloadFilter Text Regexp Sql SqlScan SqlShow SqlTheorems.

#[local] Open Scope Z_scope.

(** ** Computations that do not panic *)

Create HintDb calm.

Definition calm {A} (r : parsed A) : Prop := r ≠ Panic.

Lemma calm_bind {A B} (r : parsed A) (f : A → parsed B) : calm r → (∀ a, r = Ok a → calm (f a)) → calm (r ≫= f).
Proof. unfold calm. destruct r; try done. intros _ H. by apply H. Qed.
Lemma calm_mapM {A B} (f : A → parsed B) l : (∀ x, x ∈ l → calm (f x)) → calm (mapM f l).
Proof.
  induction l as [|x l IH]; intros H; [done|]. cbn. apply calm_bind; [by apply H; left|]. intros y _.
  apply calm_bind; [|done]. apply IH. intros z Hz. apply H. by right.
Qed.

(** ** ASCII pieces of ASCII text *)

Abbreviation plain := (Forall is_ascii).

Lemma plain_trim s : plain s → plain (TrimSpace s).
Proof. intros H. rewrite TrimSpace_ascii by done. by apply (trim_by_Forall blank). Qed.
Lemma trim_length s : plain s → (length (TrimSpace s) ≤ length s)%nat.
Proof. intros H. rewrite TrimSpace_ascii by done. apply trim_by_length. Qed.

Lemma step_suffix a s s' : step a s = Some s' → ∃ n, s' = drop n s.
Proof.
  destruct s as [|d s]; [done|]. destruct a as [p|c|p]; cbn [step].
  - destruct (p d); [|done]. intros [= <-]. by exists 1%nat.
  - destruct (fold_char c d); [intros [= <-]; by exists 1%nat|].
    destruct (fold_char c "S" && has_prefix long_s (d :: s)); [intros [= <-]; by exists 2%nat|].
    destruct (fold_char c "K" && has_prefix kelvin (d :: s)); [intros [= <-]; by exists 3%nat|done].
  - destruct (is_ascii d && p d); [done|]. intros [= <-]. by eexists.
Qed.

Definition plain_groups (g : groups) : Prop := ∀ n t, g !! n = Some t → plain t.

Lemma derives_plain r s g s' g' : derives r s g s' g' → plain s → plain_groups g → plain s' ∧ plain_groups g'.
Proof.
  induction 1 as [|a s s' g Hs|r1 r2 s g s1 g1 s2 g2 H1 IH1 H2 IH2|r1 r2 s g s' g' H IH|r1 r2 s g s' g' H IH
    |b a s s' g Hs|b a s s1 s' g Hs H IH|n r s g s' g' H IH|g]; intros Hp Hg; try done; try by apply IH.
  1, 3: destruct (step_suffix _ _ _ Hs) as [n ->]; split; [by apply Forall_drop|done].
  - destruct (IH1 Hp Hg) as [Hp1 Hg1]. by apply IH2.
  - apply IH; [|done]. destruct (step_suffix _ _ _ Hs) as [n ->]. by apply Forall_drop.
  - destruct (IH Hp Hg) as [Hp' Hg']. split; [done|]. intros m t. rewrite lookup_insert_Some.
    intros [[_ <-]|[_ Hm]]; [by apply Forall_take|by eapply Hg'].
Qed.

Lemma find_plain r s g : FindStringSubmatch r s = Some g → plain s → plain_groups g.
Proof.
  induction s as [|c s IH]; cbn [FindStringSubmatch]; destruct (run r _ _ _) as [g'|] eqn:E; try done;
    try (intros [= <-] Hp; destruct (run_sound _ _ _ _ _ E) as (s' & g2 & Hd & [= ->]);
         apply (derives_plain _ _ _ _ _ Hd Hp); intros n t; by rewrite lookup_empty).
  intros H [_ Hp]%Forall_cons_iff. by apply IH.
Qed.

Lemma group_plain g n : plain_groups g → plain (group g n).
Proof. intros H. unfold group. destruct (g !! n) eqn:E; [by eapply H|constructor]. Qed.

(** ** The parts of a split *)

Definition total (parts : list text) : nat := sum_list (length <$> parts).

Definition parts_ok (n : nat) (parts : list text) : Prop :=
  (total parts ≤ n)%nat ∧ Forall (λ p, p ≠ [] ∧ plain p) parts.

Lemma sum_list_app (l k : list nat) : sum_list (l ++ k) = (sum_list l + sum_list k)%nat.
Proof. induction l; simpl; lia. Qed.
Lemma total_app a b : total (a ++ b) = (total a + total b)%nat.
Proof. unfold total. by rewrite fmap_app, sum_list_app. Qed.
Lemma total_one p : total [p] = length p.
Proof. unfold total. simpl. lia. Qed.
Lemma total_pos parts : Forall (λ p, p ≠ [] ∧ plain p) parts → (length parts ≤ total parts)%nat.
Proof.
  unfold total. induction 1 as [|q l [Hq _] Hl IH]; [done|]. rewrite fmap_cons. destruct q; [done|]. simpl. lia.
Qed.

Lemma parts_ok_two n parts p : parts_ok n parts → (2 ≤ length parts)%nat → p ∈ parts → (length p < n)%nat.
Proof.
  intros [Hn H] H2 Hp. apply list_elem_of_split in Hp as (a & b & ->). rewrite total_app in Hn.
  rewrite length_app in H2. cbn in H2. apply Forall_app in H as [Ha%total_pos Hb]. apply Forall_cons_iff in Hb as [_ Hb%total_pos].
  unfold total in *. cbn in Hn. lia.
Qed.

Section splitting.
Context {up : UpperMap}.

Lemma flush_ok n st : (total (sc_parts st) + length (sc_current st) ≤ n)%nat → plain (sc_current st) →
  Forall (λ p, p ≠ [] ∧ plain p) (sc_parts st) → parts_ok n (flush st).
Proof.
  intros Hn Hp Hf. unfold flush. pose proof (trim_length _ Hp) as Hl. pose proof (plain_trim _ Hp) as Hpl.
  destruct (TrimSpace (sc_current st)) as [|c r] eqn:E; [split; [lia|done]|]. split.
  - rewrite total_app, total_one. simpl in *. lia.
  - apply Forall_app. split; [done|]. by constructor.
Qed.

Lemma scan_ok kw n skip prev s st : (total (sc_parts st) + length (sc_current st) + length s ≤ n)%nat →
  plain s → plain (sc_current st) → Forall (λ p, p ≠ [] ∧ plain p) (sc_parts st) → parts_ok n (scan_text kw skip prev s st).
Proof.
  revert skip prev st. induction s as [|c s IH]; intros skip prev st Hn Hs Hc Hf; cbn [scan_text].
  { apply flush_ok; [simpl in Hn; lia|done..]. }
  apply Forall_cons_iff in Hs as [Hch Hs]. cbn [length] in Hn.
  assert (Hc' : plain (sc_current st ++ [c])) by (apply Forall_app; by repeat constructor).
  destruct skip; [|apply IH; by (done || lia)].
  destruct (sc_quote st) as [q|].
  - cbv zeta. apply IH; destruct (Ascii.eqb c q); cbn -[total]; rewrite ?length_app; simpl; try done; lia.
  - destruct (is_quote c); [apply IH; cbn -[total]; rewrite ?length_app; simpl; try done; lia|]. cbv zeta.
    destruct (_ && _); [|apply IH; cbn -[total]; rewrite ?length_app; simpl; try done; lia].
    assert (Hfl : ∀ d, parts_ok (total (sc_parts st) + length (sc_current st)) (flush (mkScan (sc_parts st) (sc_current st) d None)))
      by (intros d; by apply flush_ok).
    apply IH; cbn -[total]; [|done|constructor|apply Hfl]. specialize (Hfl (if Ascii.eqb c "(" then sc_depth st + 1 else if Ascii.eqb c ")" then sc_depth st - 1 else sc_depth st)) as [Hfl _]. lia.
Qed.

Lemma split_ok s kw : plain s → kw ≠ [] → parts_ok (length s) (splitByKeyword s kw).
Proof. intros Hs Hk. rewrite splitByKeyword_scan by done. apply scan_ok; [done|done|constructor|constructor]. Qed.
End splitting.

(** ** Values and single conditions *)

Lemma index_of_bound sub s i : index_of sub s = Some i → (i + length sub ≤ length s)%nat.
Proof.
  revert i. induction s as [|c s IH]; intros i; cbn [index_of].
  - destruct (has_prefix sub []) eqn:E; [|done]. intros [= <-]. by apply has_prefix_length in E.
  - destruct (has_prefix sub (c :: s)) eqn:E; [intros [= <-]; by apply has_prefix_length in E|].
    destruct (index_of sub s) as [j|]; [|done]. intros [= <-]. specialize (IH j eq_refl). simpl. lia.
Qed.

Lemma slice_ok {E A} (l : list A) lo hi : 0 ≤ lo ≤ hi → hi ≤ len l → @slice E A l lo hi = Ok (take (Z.to_nat (hi - lo)) (drop (Z.to_nat lo) l)).
Proof. intros H1 H2. unfold slice. by rewrite !(proj2 (Z.leb_le _ _)) by lia. Qed.

Lemma inside_ok {E} s : plain s → 2 ≤ len s → ∃ t, @inside E s = Ok t ∧ plain t ∧ (length t < length s)%nat.
Proof.
  intros Hp Hl. unfold inside. eexists. split; [apply slice_ok; lia|]. split; [by apply Forall_take, Forall_drop|].
  rewrite length_take, length_drop. unfold len in *. lia.
Qed.

Lemma parens_long s : has_prefix (tx "(") s && has_suffix (tx ")") s = true → 2 ≤ len s.
Proof.
  intros [H1 H2]%andb_true_iff. destruct s as [|a [|b s]]; [done| |unfold len; simpl; lia].
  change (has_prefix (tx "(") [a]) with (Ascii.eqb "(" a && true) in H1. rewrite andb_true_r in H1.
  apply Ascii.eqb_eq in H1 as <-. by vm_compute in H2.
Qed.

Lemma split_parts_ok c s : plain s → Forall (λ p, plain p ∧ (length p ≤ length s)%nat) (Split c s).
Proof.
  induction 1 as [|d s Hd Hs IH]; cbn [Split]; [by repeat constructor|].
  assert (IH' : Forall (λ p, plain p ∧ (length p ≤ length (d :: s))%nat) (Split c s)).
  { eapply List.Forall_impl; [|exact IH]. intros p [? ?]. split; [done|simpl; lia]. }
  destruct (Ascii.eqb d c); [constructor; [split; [constructor|simpl; lia]|done]|].
  destruct (Split c s) as [|w ws]; [constructor; [split; [by constructor|simpl; lia]|constructor]|].
  apply Forall_cons_iff in IH as [[Hw Hl] _]. apply Forall_cons_iff in IH' as [_ Hws].
  constructor; [split; [by constructor|simpl; lia]|done].
Qed.

Section parser.
Context {up : UpperMap} {cm : CaseMap} {fl : FloatSyntax}.

Lemma value_calm fuel s : plain s → (length s < fuel)%nat → calm (parse_value fuel s).
Proof.
  revert s. induction fuel as [|fuel IH]; intros s Hp Hf; [lia|]. cbn [parse_value].
  pose proof (plain_trim s Hp) as Hpt. pose proof (trim_length s Hp) as Hlt. set (t := TrimSpace s) in *.
  destruct (2 <=? len t) eqn:E2; cbn [andb].
  - destruct (inside_ok (E:=sqlError) t Hpt) as (u & Hu & Hup & Hul); [by apply Z.leb_le|].
    destruct (quoted quote1 t || quoted quote2 t); [by rewrite Hu|].
    repeat (destruct (decide _); [done|]). destruct (has_prefix _ _ && _); [|by repeat case_match].
    rewrite Hu, Ok_bind. apply calm_bind; [|done]. apply calm_mapM. intros p Hin%list_elem_of_In.
    pose proof (split_parts_ok ","%char u Hup) as Hs. rewrite Forall_forall in Hs. destruct (Hs p Hin) as [Hpp Hpl].
    pose proof (trim_length p Hpp). apply IH; [by apply plain_trim|]. lia.
  - repeat (destruct (decide _); [done|]). destruct (has_prefix _ _ && _) eqn:Ep; [|by repeat case_match].
    apply parens_long in Ep. apply Z.leb_gt in E2. lia.
Qed.

Lemma strip_ok fuel s : plain s → (length s ≤ fuel)%nat → ∃ t, strip_parens fuel s = Ok t ∧ plain t.
Proof.
  revert s. induction fuel as [|fuel IH]; intros s Hp Hf; cbn [strip_parens];
    destruct (has_prefix _ _ && _) eqn:Ep; try by exists s.
  - apply parens_long in Ep. unfold len in Ep. lia.
  - apply parens_long in Ep. destruct (inside_ok (E:=sqlError) s Hp Ep) as (u & -> & Hup & Hul). rewrite Ok_bind.
    pose proof (trim_length u Hup). apply IH; [by apply plain_trim|lia].
Qed.

Lemma operators_calm ops s : plain s → calm (try_operators ops s).
Proof.
  intros Hp. induction ops as [|[sql op] ops IH]; [done|]. cbn [try_operators]. destruct (op_index (tx sql) s) as [i|] eqn:E; [|done].
  assert (Hi : (i + length (tx sql) ≤ length s)%nat).
  { unfold op_index in E. destruct (has_prefix _ _); apply index_of_bound in E; [|done].
    rewrite ToUpper_ascii, length_fmap in E by done. done. }
  rewrite !slice_ok by (unfold len; lia). rewrite !Ok_bind. destruct (_ || _); [done|]. apply calm_bind; [|done].
  unfold parseValue. apply value_calm; [|lia]. by apply plain_trim, Forall_take, Forall_drop.
Qed.

Lemma single_calm s : plain s → calm (parseSingleCondition s).
Proof.
  intros Hp. unfold parseSingleCondition. destruct (strip_ok (length (TrimSpace s)) (TrimSpace s)) as (t & -> & Ht); [by apply plain_trim|done|].
  by apply operators_calm.
Qed.

Lemma where_calm fuel s : plain s → (length s < fuel)%nat → calm (parse_where fuel s).
Proof.
  revert s. induction fuel as [|fuel IH]; intros s Hp Hf; [lia|]. cbn [parse_where].
  pose proof (plain_trim s Hp) as Hpt. pose proof (trim_length s Hp) as Hlt. set (t := TrimSpace s) in *.
  assert (Hsplit : ∀ kw (g : list FilterExpr → FilterExpr), kw ≠ [] → (1 <? len (splitByKeyword t kw)) = true →
    calm (fs ← mapM (parse_where fuel) (splitByKeyword t kw); Ok (g fs))).
  { intros kw g Hk H1%Z.ltb_lt. apply calm_bind; [|done]. apply calm_mapM. intros p Hin. pose proof (split_ok t kw Hpt Hk) as Ho.
    pose proof (parts_ok_two _ _ p Ho ltac:(unfold len in H1; lia) Hin). destruct Ho as [_ Ho]. rewrite Forall_forall in Ho.
    apply IH; [|lia]. apply Ho. by apply list_elem_of_In. }
  destruct (1 <? len (splitByKeyword t (tx "OR"))) eqn:E1; [by apply Hsplit|].
  destruct (1 <? len (splitByKeyword t (tx "AND"))) eqn:E2; [by apply Hsplit|].
  destruct (has_prefix _ _) eqn:E3; [|by apply single_calm].
  rewrite ToUpper_ascii in E3 by done. apply has_prefix_length in E3. rewrite length_fmap in E3. simpl in E3.
  rewrite slice_ok by (unfold len; lia). rewrite Ok_bind. apply calm_bind; [|done]. apply IH.
  - by apply Forall_take, Forall_drop.
  - rewrite length_take, length_drop. unfold len. lia.
Qed.

Lemma where_clause_calm s : plain s → calm (where_clause s).
Proof. intros H. unfold where_clause. destruct s; [done|]. apply calm_bind; [|done]. by apply where_calm; [|lia]. Qed.
Lemma number_calm err s : calm (number_clause err s).
Proof. unfold number_clause. destruct s; [done|]. by destruct (ParseInt _). Qed.
Lemma elements_calm i parts : calm (parse_elements i parts).
Proof.
  revert i. induction parts as [|p parts IH]; intros i; [done|]. cbn [parse_elements]. destruct (ParseFloat32 _); [|done].
  by apply calm_bind.
Qed.
Lemma options_calm pairs cfg : calm (create_options pairs cfg).
Proof.
  revert cfg. induction pairs as [|p pairs IH]; intros cfg; [done|]. cbn [create_options].
  destruct (SplitN2 _ _) as [|k [|v [|]]]; try done. destruct cfg.
  repeat (destruct (decide _)); try done. by destruct (ParseInt _).
Qed.

Lemma find_calm {A} t r q (f : groups → parsed A) : plain q → (∀ g, plain_groups g → calm (f g)) → calm (find t r q ≫= f).
Proof.
  intros Hq H. unfold find. destruct (FindStringSubmatch r q) as [g|] eqn:E; [|done]. apply H. by eapply find_plain.
Qed.

Lemma collapse_plain b s : plain s → plain (collapse b s).
Proof.
  intros H. revert b. induction H as [|c s Hc Hs IH]; intros b; [constructor|]. cbn [collapse].
  destruct (re_space c); [destruct b; [done|by constructor]|by constructor].
Qed.

Lemma vector_calm s : calm (parseVector s).
Proof. apply elements_calm. Qed.

#[local] Hint Resolve where_clause_calm number_calm vector_calm options_calm group_plain plain_trim : calm.
Ltac calm_tac := repeat first [apply find_calm; [done|intros] | apply calm_bind; [by eauto with calm|intros] | done].

(** C20. On ASCII text the parser returns a query or an error: it does not panic, and
    the recursion over conditions and values ends. *)
Theorem parse_total s : Forall is_ascii s → Parse s ≠ Panic.
Proof.
  intros Hs. change (calm (Parse s)). unfold Parse. pose proof (plain_trim s Hs) as Ht. destruct (TrimSpace s) as [|c r]; [done|].
  pose proof (collapse_plain false _ Ht) as Hq. set (q := collapse false (c :: r)) in *. clearbody q. unfold dispatch. cbv zeta.
  repeat match goal with |- calm (if ?b then _ else _) => destruct b end; try done;
    unfold parseSelect, parseVectorSelectSearch, parseVectorSearch, parseInsert, parseUpdate, parseDelete, parseDropTable,
      parseDescribe, parse_name; try by calm_tac.
  - destruct (_ || _); by calm_tac.
  - unfold parseCreateTable. apply find_calm; [done|]. intros g Hg. apply calm_bind; [|done].
    destruct (match group g 2 with [] => _ | o => o end); [done|apply options_calm].
Qed.
End parser.

(** ** Beyond ASCII

    The Latin letter turned a takes two bytes in lower case and three in upper case.
    Eight of them before LIKE move its index in the upper-cased text behind the end
    of the text. *)
Definition turned_a : text := [ascii_of_nat 201; ascii_of_nat 144].
Definition turned_A : text := [ascii_of_nat 226; ascii_of_nat 177; ascii_of_nat 175].
Definition eight (s : text) : text := concat (replicate 8 s).

Lemma long_upper_case_panics {up : UpperMap} {fl : FloatSyntax} :
  ToUpper (eight turned_a ++ tx " LIKE b") = eight turned_A ++ tx " LIKE B" →
  parseSingleCondition (eight turned_a ++ tx " LIKE b") = Panic.
Proof.
  intros H. unfold parseSingleCondition.
  replace (TrimSpace (eight turned_a ++ tx " LIKE b")) with (eight turned_a ++ tx " LIKE b") by by vm_compute.
  set (s := eight turned_a ++ tx " LIKE b") in *.
  replace (strip_parens (length s) s) with (@Ok sqlError _ s) by by vm_compute. rewrite Ok_bind. unfold operators.
  do 7 (rewrite try_skip; [|by vm_compute]). cbn [try_operators]. unfold op_index. rewrite H.
  replace (has_prefix (tx " ") (tx " LIKE ")) with true by done.
  replace (index_of (tx " LIKE ") (eight turned_A ++ tx " LIKE B")) with (Some 24%nat) by by vm_compute.
  by replace (slice s 0 (Z.of_nat 24)) with (@Panic sqlError text) by by vm_compute.
Qed.

(** ** Witness *)
#[local] Existing Instance ascii_case.
#[local] Existing Instance demo_upper.
#[local] Existing Instance demo_floats.

Definition demo_select : text := tx "select a, b from docs where x = 1 and not y in ('u', 'v') limit 5".

Lemma parse_total_witness : Parse demo_select ≠ Panic.
Proof. apply (parse_total demo_select). by repeat constructor. Defined.
