(* ===== verification/SqlSelect.v ===== *)
(** * SELECT statements read back

    How the expressions of the statements run over ASCII text that is made of their
    parts, and [select_roundtrip]: a SELECT statement, written out, is parsed to
    itself. A WHERE clause of a vector search, however, is cut to its first
    character ([search_where_lost]). *)
From Stdlib Require Import Strings.Ascii ZArith Lia Floats.SpecFloat.
From stdpp Require Import base gmap list strings numbers.
From S2P Require Import Prelude Float32 PayloadFilter Text Regexp Sql SqlScan SqlShow SqlTheorems SqlTotal.

#[local] Open Scope Z_scope.

(** ** The matcher on text made of parts *)

Section runs.
Context {X : Type}.
Implicit Types (k : text → groups → option X) (g : groups).

Lemma fold_char_upper c d : fold_char c d = Ascii.eqb (ascii_upper c) (ascii_upper d).
Proof. done. Qed.

Lemma step_fold c d s : is_ascii d → step (AFold c) (d :: s) = if fold_char c d then Some s else None.
Proof.
  intros Hd. cbn [step]. destruct (fold_char c d); [done|].
  assert (H1 : has_prefix long_s (d :: s) = false).
  { apply has_prefix_head; [done|]. intros [= <-]. by vm_compute in Hd. }
  assert (H2 : has_prefix kelvin (d :: s) = false).
  { apply has_prefix_head; [done|]. intros [= <-]. by vm_compute in Hd. }
  by rewrite H1, H2, !andb_false_r.
Qed.

(** A word of the statement, up to case *)
Lemma run_lit W s g k : plain s →
  run (lit W) s g k = if has_prefix (ascii_upper <$> tx W) (ascii_upper <$> s) then k (drop (length (tx W)) s) g else None.
Proof.
  unfold lit. revert s. induction (tx W) as [|c w IH]; intros s Hs; [by destruct s|]. cbn [foldr run fmap list_fmap].
  destruct s as [|d s]; [done|]. apply Forall_cons_iff in Hs as [Hd Hs]. rewrite step_fold by done. cbn [fmap list_fmap has_prefix].
  unfold fold_char. destruct (Ascii.eqb _ _); [|done]. cbn [andb length drop]. by apply IH.
Qed.

Lemma run_lit_here W rest g k : plain (tx W ++ rest) → run (lit W) (tx W ++ rest) g k = k rest g.
Proof. intros H. rewrite run_lit by done. by rewrite fmap_app, has_prefix_app, drop_app_length. Qed.

Definition spaced (s : text) : bool := match s with c :: _ => re_space c | [] => false end.

Lemma run_space rest g k : spaced rest = false → run spaces (" "%char :: rest) g k = k rest g.
Proof.
  intros H. unfold spaces. cbn [run plus length step]. change (re_space " ") with true. cbv iota.
  destruct rest as [|c rest]; [done|]. cbn [plus length step]. cbn [spaced] in H. by rewrite H.
Qed.
Lemma run_no_space s g k : spaced s = false → run spaces s g k = None.
Proof. unfold spaces. destruct s as [|c s]; [done|]. cbn [run plus length step spaced]. intros H. by rewrite H. Qed.

Lemma plain_cons c s : plain (c :: s) → plain s.
Proof. by intros [_ ?]%Forall_cons_iff. Qed.

Lemma run_kw_here W rest g k : spaced (tx W) = false → tx W ≠ [] → plain (tx W ++ rest) →
  run (kw W) (" "%char :: tx W ++ rest) g k = k rest g.
Proof. intros Hs Hne Hp. unfold kw. cbn [run]. rewrite run_space; [by apply run_lit_here|]. by destruct (tx W). Qed.

(** Another word, or no blank at all *)
Definition no_kw (W : string) (s : text) : Prop :=
  match s with
  | c :: s' => if Ascii.eqb c " "%char then spaced s' = false ∧ has_prefix (ascii_upper <$> tx W) (ascii_upper <$> s') = false
               else re_space c = false
  | [] => True
  end.
Lemma run_no_kw W s g k : no_kw W s → plain s → run (kw W) s g k = None.
Proof.
  unfold kw. cbn [run]. destruct s as [|c s]; [done|]. cbn [no_kw]. destruct (Ascii.eqb_spec c " ") as [->|].
  - intros [Hs Hn] Hp. rewrite run_space by done. rewrite run_lit by by eapply plain_cons. by rewrite Hn.
  - intros Hc _. by apply run_no_space.
Qed.

Lemma run_seq r1 r2 s g k : run (RSeq r1 r2) s g k = run r1 s g (λ s' g', run r2 s' g' k).
Proof. done. Qed.

Lemma run_opt_skip r s g k : run r s g k = None → run (opt r) s g k = k s g.
Proof. intros H. cbn. by rewrite H. Qed.
Lemma run_opt_take r s g k v : run r s g k = Some v → run (opt r) s g k = Some v.
Proof. intros H. cbn. by rewrite H. Qed.

(** Greedy runs of a class of bytes *)
Lemma plus_greedy (p : ascii → bool) w rest fuel (k : text → option X) v : w ≠ [] → Forall p w → (length w ≤ fuel)%nat →
  match rest with c :: _ => p c = false | [] => True end → k rest = Some v →
  plus true (ABytes p) fuel (w ++ rest) k = Some v.
Proof.
  intros Hne Hw. revert fuel. induction Hw as [|c w Hc Hw IH]; [done|]. intros [|fuel] Hf Hr Hk; simpl in Hf; [lia|].
  cbn [app plus step]. rewrite (Is_true_true_1 _ Hc). destruct w as [|c2 w].
  - cbn [app]. replace (plus true (ABytes p) fuel rest k) with (@None X); [done|].
    destruct fuel; [done|]. cbn [plus]. destruct rest as [|d rest]; [done|]. cbn [step]. by rewrite Hr.
  - rewrite IH; [done|done|simpl in *; lia|done|done].
Qed.

Lemma run_greedy (p : ascii → bool) w rest g k v : w ≠ [] → Forall p w → match rest with c :: _ => p c = false | [] => True end →
  k rest g = Some v → run (RPlus true (ABytes p)) (w ++ rest) g k = Some v.
Proof. intros. cbn [run]. apply plus_greedy; [done|done|rewrite length_app; lia|done|done]. Qed.

Lemma group_text (x rest : text) : take (length (x ++ rest) - length rest) (x ++ rest) = x.
Proof. rewrite length_app. replace (length x + length rest - length rest)%nat with (length x) by lia. apply take_app_length. Qed.

Lemma run_group_greedy n (p : ascii → bool) w rest g k v : w ≠ [] → Forall p w → match rest with c :: _ => p c = false | [] => True end →
  k rest (<[n := w]> g) = Some v → run (RGroup n (RPlus true (ABytes p))) (w ++ rest) g k = Some v.
Proof.
  intros Hne Hw Hr Hk. cbn [run]. apply plus_greedy; [done|done|rewrite length_app; lia|done|]. by rewrite group_text.
Qed.

(** Lazy runs stop at the first place where the rest matches. *)
Definition no_newline (s : text) : Prop := Forall (λ c, re_newline c = false) s.

Lemma plus_lazy p w rest fuel (k : text → option X) v : w ≠ [] → plain w → Forall (λ c, p c = false) w → (length w ≤ fuel)%nat →
  (∀ a b, w = a ++ b → a ≠ [] → b ≠ [] → k (b ++ rest) = None) → k rest = Some v →
  plus false (ARune p) fuel (w ++ rest) k = Some v.
Proof.
  intros Hne Hp Hn. revert fuel Hp. induction Hn as [|c w Hc Hw IH]; [done|].
  intros [|fuel] [Hpc Hp]%Forall_cons_iff Hf Hk Hv; simpl in Hf; [lia|].
  cbn [app plus]. cbn [step]. rewrite Hc, andb_false_r. rewrite decode_rune_ascii by done. cbn [snd drop].
  destruct w as [|c2 w].
  - cbn [app]. by rewrite drop_0, Hv.
  - rewrite drop_0. rewrite (Hk [c] (c2 :: w)) by done. cbn [or_else]. apply IH; [done|done|simpl in *; lia| |done].
    intros a b E Ha Hb. apply (Hk (c :: a) b); [by rewrite E|done..].
Qed.

Lemma run_group_lazy n w rest g k v : w ≠ [] → plain w → no_newline w →
  (∀ a b, w = a ++ b → a ≠ [] → b ≠ [] → ∀ g', k (b ++ rest) g' = None) → k rest (<[n := w]> g) = Some v →
  run (RGroup n some_lazy) (w ++ rest) g k = Some v.
Proof.
  intros Hne Hp Hn Hk Hv. unfold some_lazy. cbn [run]. apply plus_lazy; [done..|rewrite length_app; lia| |].
  - intros a b E Ha Hb. by apply (Hk a b).
  - by rewrite group_text.
Qed.
End runs.

(** ** Statements *)

Definition clause (W : string) (x : text) : text :=
  match x with [] => [] | _ => " "%char :: tx W ++ " "%char :: x end.
Definition show_number (n : Z) : text := if n =? 0 then [] else show_nat n.
Definition show_filter (f : option FilterExpr) : text := match f with Some fe => show fe | None => [] end.
Definition show_order (field : text) (desc : bool) : text :=
  match field with [] => [] | _ => clause "ORDER BY" field ++ (if desc then tx " DESC" else []) end.
Definition show_tail (q : SQLQuery) : text :=
  show_order (q_OrderBy q) (q_OrderDesc q) ++ clause "LIMIT" (show_number (q_Limit q)) ++
  clause "OFFSET" (show_number (q_Offset q)).
Definition show_select (q : SQLQuery) : text :=
  tx "SELECT " ++ join [","%char] (q_Columns q) ++ clause "FROM" (q_Collection q) ++
  clause "WHERE" (show_filter (q_Filter q)) ++ show_tail q.

(** Groups, where an empty one is the same as none *)
Definition gset (n : nat) (t : text) (g : groups) : groups := match t with [] => g | _ => <[n := t]> g end.

Lemma group_gset_eq n t g : group g n = [] → group (gset n t g) n = t.
Proof. intros H. unfold gset. destruct t; [done|]. unfold group. by rewrite lookup_insert_eq. Qed.
Lemma group_gset_ne n m t g : n ≠ m → group (gset n t g) m = group g m.
Proof. intros H. unfold gset. destruct t; [done|]. unfold group. by rewrite lookup_insert_ne. Qed.

(** What follows a clause: nothing, or a blank and another clause *)
Definition edge (s : text) : Prop := match s with c :: _ => c = " "%char | [] => True end.
Lemma edge_clause W x s : edge s → edge (clause W x ++ s).
Proof. by destruct x. Qed.
Lemma edge_not (p : ascii → bool) s : edge s → p " "%char = false → match s with c :: _ => p c = false | [] => True end.
Proof. destruct s; [done|]. by intros ->. Qed.

Lemma plain_app_r a b : plain (a ++ b) → plain b.
Proof. by intros [_ ?]%Forall_app. Qed.

Section clauses.
Context {X : Type}.
Implicit Types (k : text → groups → option X).

Lemma run_clause W r rs x rest g k v : spaced (tx W) = false → tx W ≠ [] → spaced x = false →
  plain (clause W x ++ rest) → x ≠ [] →
  run (seqs (r :: rs)) (x ++ rest) g k = Some v →
  run (seqs (kw W :: spaces :: r :: rs)) (clause W x ++ rest) g k = Some v.
Proof.
  intros Hw Hne Hx Hp Hx0 Hk. assert (E : clause W x ++ rest = " "%char :: tx W ++ " "%char :: x ++ rest).
  { unfold clause. destruct x; [done|]. cbn [app]. by rewrite <- app_assoc. }
  rewrite E in *. apply plain_cons in Hp. change (seqs (kw W :: spaces :: r :: rs)) with (RSeq (kw W) (RSeq spaces (seqs (r :: rs)))).
  cbn [run]. rewrite run_kw_here by done. rewrite run_space; [done|]. by destruct x.
Qed.

Lemma run_no_clause W rs s g k : no_kw W s → plain s → run (seqs (kw W :: rs)) s g k = None.
Proof. intros Hn Hp. change (seqs (kw W :: rs)) with (RSeq (kw W) (seqs rs)). cbn [run]. by apply run_no_kw. Qed.

(** [LIMIT n] or [OFFSET n], or neither *)
Lemma run_number W n x rest g k v : spaced (tx W) = false → tx W ≠ [] → Forall is_digit x → edge rest →
  (x = [] → no_kw W rest) → plain (clause W x ++ rest) → k rest (gset n x g) = Some v →
  run (opt (seqs [kw W; spaces; RGroup n numbers])) (clause W x ++ rest) g k = Some v.
Proof.
  intros Hw Hne Hx Hr Hno Hp Hk. destruct x as [|c x].
  { cbn [clause app] in *. rewrite run_opt_skip; [done|]. apply run_no_clause; [by apply Hno|done]. }
  apply run_opt_take. apply run_clause; [done|done| |done|done|].
  - apply Forall_cons_iff in Hx as [Hc _]. destruct c as [[] [] [] [] [] [] [] []]; try done; by vm_compute in Hc.
  - change (seqs [RGroup n numbers]) with (RSeq (RGroup n numbers) REps). cbn [run]. unfold numbers.
    apply (run_group_greedy n is_digit); [done|done|by apply edge_not|done].
Qed.

Lemma word_re c : isWordChar c = re_word c.
Proof. reflexivity. Qed.

Lemma word_unspaced x : Forall isWordChar x → spaced x = false.
Proof.
  intros H. destruct x as [|c x]; [done|]. apply Forall_cons_iff in H as [Hc _].
  destruct c as [[] [] [] [] [] [] [] []]; try done; by vm_compute in Hc.
Qed.

(** [ORDER BY f DESC] *)
Lemma run_order f (desc : bool) rest g k v : Forall isWordChar f → (f = [] → desc = false) → edge rest →
  (f = [] → no_kw "ORDER" rest) → (desc = false → no_kw "ASC" rest ∧ no_kw "DESC" rest) → plain (show_order f desc ++ rest) →
  k rest (gset 5 (if desc then tx "DESC" else []) (gset 4 f g)) = Some v →
  run (order_re 4 5) (show_order f desc ++ rest) g k = Some v.
Proof.
  intros Hf Hd Hr Hno Hdir Hp Hk. unfold order_re. destruct f as [|c f].
  { rewrite (Hd eq_refl) in *. cbn [show_order app] in *. rewrite run_opt_skip; [done|]. apply run_no_clause; [by apply Hno|done]. }
  apply run_opt_take. unfold show_order in *. set (x := c :: f) in *. set (dir := if desc then tx " DESC" else []) in *.
  assert (E : (clause "ORDER BY" x ++ dir) ++ rest = " "%char :: tx "ORDER" ++ " "%char :: tx "BY" ++ " "%char :: x ++ dir ++ rest)
    by by rewrite <- app_assoc.
  rewrite E in *. change (seqs [kw "ORDER"; kw "BY"; ?a; ?b; ?c]) with (RSeq (kw "ORDER") (RSeq (kw "BY") (RSeq a (RSeq b (RSeq c REps))))).
  apply plain_cons in Hp. rewrite run_seq, run_kw_here by done. apply plain_app_r, plain_cons in Hp.
  rewrite run_seq, run_kw_here by done. apply plain_app_r, plain_cons in Hp.
  rewrite run_seq, run_space, run_seq by by apply (word_unspaced x).
  unfold words. apply (run_group_greedy 4 re_word x); [done|done| |].
  { subst dir. destruct desc; [done|]. by apply edge_not. }
  apply plain_app_r in Hp. subst dir. change (gset 4 x g) with (<[4%nat := x]> g) in Hk. destruct desc.
  - apply run_opt_take. cbn [seqs foldr run]. change (tx " DESC" ++ rest) with (" "%char :: tx "DESC" ++ rest) in *.
    apply plain_cons in Hp. rewrite run_space by done. rewrite run_lit by done.
    change (has_prefix (ascii_upper <$> tx "ASC") (ascii_upper <$> (tx "DESC" ++ rest))) with false. cbn [or_else].
    rewrite run_lit_here by done. rewrite group_text. exact Hk.
  - cbn [app] in *. rewrite run_seq, run_opt_skip; [exact Hk|]. cbn [seqs foldr run]. destruct (Hdir eq_refl) as [H1 H2].
    destruct rest as [|d rest]; [done|]. simpl in Hr. subst d. cbn in H1, H2. destruct H1 as [Hs H1], H2 as [_ H2].
    apply plain_cons in Hp. rewrite run_space by done. rewrite !run_lit by done. cbn. by rewrite H1, H2.
Qed.
End clauses.

(** ** A SELECT statement is parsed to itself *)

Definition col_char (c : ascii) : bool := isWordChar c || Ascii.eqb c "."%char || Ascii.eqb c "*"%char.
Definition wf_column (c : text) : Prop := c ≠ [] ∧ Forall col_char c.

(** No clause of the statement may seem to start inside of the condition. *)
Definition clause_free (w : text) : Prop :=
  Forall (λ W, index_of (" "%char :: tx W) (ascii_upper <$> w) = None) ["ORDER"; "LIMIT"; "OFFSET"]%string.

Definition wf_filter (f : option FilterExpr) : Prop :=
  match f with
  | Some fe => wf_disj fe ∧ clause_free (show fe) ∧ collapse false (show fe) = show fe
  | None => True
  end.

Record select_ok (q : SQLQuery) : Prop := {
  so_type : q_Type q = QuerySelect;
  so_rest : q_Vector q = [] ∧ q_VectorName q = [] ∧ q_Points q = [] ∧ q_CollectionConfig q = None;
  so_name : q_Collection q ≠ [] ∧ Forall isWordChar (q_Collection q);
  so_columns : q_Columns q ≠ [] ∧ Forall wf_column (q_Columns q);
  so_filter : wf_filter (q_Filter q);
  so_order : Forall isWordChar (q_OrderBy q) ∧ (q_OrderBy q = [] → q_OrderDesc q = false);
  so_limit : 0 ≤ q_Limit q ≤ MaxInt64;
  so_offset : 0 ≤ q_Offset q ≤ MaxInt64;
  so_plain : contains (tx "NEAREST TO") (ascii_upper <$> show_select q) = false ∧
             contains (tx "SIMILAR TO") (ascii_upper <$> show_select q) = false
}.

Lemma number_digits n : 0 ≤ n → Forall is_digit (show_number n).
Proof. intros H. unfold show_number. destruct (n =? 0); [constructor|by apply show_nat_digits]. Qed.
Lemma number_read err n : 0 ≤ n ≤ MaxInt64 → number_clause err (show_number n) = Ok n.
Proof.
  intros H. unfold show_number. destruct (Z.eqb_spec n 0) as [->|Hne]; [done|]. unfold number_clause.
  destruct (show_nat_digits n ltac:(lia)) as [_ Hs]. pose proof (ParseInt_show n) as Hp. unfold show_Z in Hp.
  destruct (Z.ltb_spec n 0); [lia|]. rewrite Hp by (unfold MinInt64, MaxInt64 in *; lia). by destruct (show_nat n).
Qed.

Lemma word_plain_text x : Forall isWordChar x → plain x.
Proof. intros H. destruct x as [|c x]; [constructor|]. by apply word_solid. Qed.
Lemma digits_plain x : Forall is_digit x → plain x.
Proof. intros H. by apply word_plain_text, digits_word. Qed.
Lemma col_char_facts c : col_char c → re_space c = false ∧ is_ascii c = true ∧ c ≠ ","%char ∧ re_newline c = false ∧ blank c = false.
Proof. intros H%Is_true_true. destruct c as [[] [] [] [] [] [] [] []]; first [discriminate H|by split_and!]. Qed.

Lemma column_solid c : wf_column c → solid c.
Proof.
  intros [Hne H]. assert (Hf : ∀ d, d ∈ c → blank d = false ∧ is_ascii d).
  { intros d Hd%list_elem_of_In. rewrite Forall_forall in H. destruct (col_char_facts d (H d Hd)) as (_ & -> & _ & _ & ?). done. }
  split_and!.
  - destruct c as [|d r]; [done|]. exists d, r. split; [done|]. apply Hf. by left.
  - destruct c as [|d r _] using rev_ind; [done|]. exists r, d. split; [done|]. apply Hf. apply elem_of_app. right. by left.
  - apply Forall_forall. intros d Hd. apply Hf. by apply list_elem_of_In.
Qed.

Lemma columns_read cols : cols ≠ [] → Forall wf_column cols → columns (join [","%char] cols) = cols.
Proof.
  intros Hne H. unfold columns. rewrite solid_trim.
  2: { apply solid_join; [by repeat constructor|done|]. eapply List.Forall_impl; [|exact H]. apply column_solid. }
  assert (Hs : Split ","%char (join [","%char] cols) = cols).
  { apply split_commas; [done|]. eapply List.Forall_impl; [|exact H]. intros c [_ Hc] Hin%list_elem_of_In.
    rewrite Forall_forall in Hc. by destruct (col_char_facts _ (Hc _ Hin)) as (_ & _ & ? & _). }
  destruct (decide _) as [E|_]; [by rewrite <- Hs, E|]. rewrite Hs. clear Hs Hne.
  induction H as [|c cols Hc Hcols IH]; [done|]. cbn. f_equal; [|exact IH]. by apply solid_trim, column_solid.
Qed.

(** *** Statements have single blanks *)

Lemma collapse_app b x y : collapse b (x ++ y) = collapse b x ++ collapse (match list.last x with Some c => re_space c | None => b end) y.
Proof.
  revert b. induction x as [|c x IH]; intros b; [done|]. cbn [app collapse]. rewrite last_cons.
  destruct (re_space c) eqn:E; [destruct b|]; rewrite IH; (destruct (list.last x); by rewrite ?E).
Qed.
Lemma collapse_edge y : spaced y = false → collapse true y = collapse false y.
Proof. destruct y as [|c y]; [done|]. cbn [spaced collapse]. intros H. by rewrite H. Qed.

Definition norm (s : text) : Prop := collapse false s = s.
Definition closed (s : text) : Prop := match list.last s with Some c => re_space c = false | None => True end.

Lemma norm_app x y : norm x → norm y → closed x → norm (x ++ y).
Proof. unfold norm, closed. intros Hx Hy Hc. rewrite collapse_app, Hx. destruct (list.last x); [by rewrite Hc, Hy|by rewrite Hy]. Qed.
Lemma norm_space y : norm y → spaced y = false → norm (" "%char :: y).
Proof. unfold norm. intros Hy Hs. cbn [collapse]. change (re_space " ") with true. cbv iota. by rewrite collapse_edge, Hy. Qed.
Lemma norm_unspaced x : Forall (λ c, re_space c = false) x → norm x ∧ closed x ∧ spaced x = false.
Proof.
  intros H. split_and!.
  - unfold norm. induction H as [|c x Hc Hx IH]; [done|]. cbn [collapse]. by rewrite Hc, IH.
  - unfold closed. destruct (list.last x) as [c|] eqn:E; [|done].
    apply last_Some in E as [l ->]. apply Forall_app in H as [_ H]. by apply Forall_cons_iff in H as [? _].
  - destruct H; done.
Qed.
Lemma spaced_app x y : spaced x = false → x ≠ [] → spaced (x ++ y) = false.
Proof. by destruct x. Qed.
Lemma norm_clause W x s : norm (tx W) → closed (tx W) → spaced (tx W) = false → tx W ≠ [] → norm x → closed x → spaced x = false →
  norm s → edge s → norm (clause W x ++ s) ∧ edge (clause W x ++ s).
Proof.
  intros HW HcW HsW HW0 Hx Hcx Hsx Hs He. split; [|by apply edge_clause]. unfold clause. destruct x as [|c x]; [done|].
  cbn [app]. rewrite <- app_assoc. apply norm_space; [|by apply spaced_app]. apply norm_app; [done| |done].
  cbn [app]. apply norm_space; [by apply (norm_app (c :: x))|by apply (spaced_app (c :: x))].
Qed.

(** *** A condition runs up to its end *)

Lemma collapse_length b s : (length (collapse b s) ≤ length s)%nat.
Proof.
  revert b. induction s as [|c s IH]; intros b; [done|]. cbn [collapse].
  pose proof (IH true). pose proof (IH false). destruct (re_space c), b; simpl; lia.
Qed.
Lemma collapse_chars b s c : c ∈ collapse b s → re_space c = true → c = " "%char.
Proof.
  revert b. induction s as [|d s IH]; intros b; cbn [collapse]; [by intros H%elem_of_nil|].
  destruct (re_space d) eqn:E; [destruct b|]; rewrite ?elem_of_cons; [by apply IH|..].
  - intros [->|H]; [done|]. by apply (IH true).
  - intros [->|H]; [congruence|]. by apply (IH false).
Qed.
Lemma norm_chars s c : norm s → c ∈ s → re_space c = true → c = " "%char.
Proof. unfold norm. intros E H. rewrite <- E in H. by eapply collapse_chars. Qed.

Lemma norm_no_double a s : norm (a ++ " "%char :: s) → spaced s = false.
Proof.
  unfold norm. rewrite collapse_app. set (b := match list.last a with Some c => _ | None => _ end). intros E%(f_equal length).
  rewrite !length_app in E. pose proof (collapse_length false a). destruct s as [|c s]; [done|]. cbn [spaced].
  destruct (re_space c) eqn:Ec; [exfalso|done]. cbn [collapse] in E. change (re_space " ") with true in E. rewrite Ec in E.
  pose proof (collapse_length true s). destruct b; simpl in E; lia.
Qed.

Lemma has_prefix_within p x y : has_prefix p (x ++ y) = true → match y with c :: _ => c ∉ p | [] => True end → has_prefix p x = true.
Proof.
  revert x. induction p as [|a p IH]; intros x H Hy; [by destruct x|]. destruct x as [|b x].
  - exfalso. cbn [app] in H. destruct y as [|c y]; [done|]. cbn in H. apply Hy.
    destruct (Ascii.eqb_spec a c) as [->|]; [by left|done].
  - cbn [app has_prefix] in *. destruct (Ascii.eqb a b); [|done]. apply IH; [done|]. destruct y; [done|].
    intros Hin. apply Hy. by right.
Qed.
Lemma index_of_some sub a s : has_prefix sub s = true → index_of sub (a ++ s) ≠ None.
Proof.
  intros H. induction a as [|c a IH]; cbn [app]; [destruct s; cbn [index_of]; by rewrite H|].
  cbn [index_of]. destruct (has_prefix sub (c :: a ++ s)); [done|]. by destruct (index_of sub (a ++ s)).
Qed.

Lemma blank_space c : blank c = false → re_space c = false.
Proof. destruct c as [[] [] [] [] [] [] [] []]; vm_compute; done. Qed.

Section condition.
Context (w : text) (Hs : solid w) (Hfree : clause_free w) (Hn : norm w).

Lemma suffix_no_kw W a b tail : W ∈ ["ORDER"; "LIMIT"; "OFFSET"]%string → w = a ++ b → b ≠ [] → edge tail → no_kw W (b ++ tail).
Proof.
  intros HW E Hb He. destruct b as [|c b]; [done|]. cbn [app no_kw]. destruct (Ascii.eqb_spec c " ") as [->|Hc].
  - assert (Hb' : b ≠ []).
    { intros ->. destruct Hs as (_ & (r & d & E' & Hd) & _). rewrite E' in E. apply app_inj_2 in E as [_ E]; [|done]. by injection E as ->. }
    split; [apply spaced_app; [|done]; apply (norm_no_double a); by rewrite <- E|].
    destruct (has_prefix _ _) eqn:Ep; [exfalso|done]. rewrite fmap_app in Ep.
    assert (HW' : ascii_upper <$> tx W = tx W ∧ " "%char ∉ tx W).
    { rewrite !elem_of_cons, elem_of_nil in HW. destruct HW as [->|[->|[->|[]]]]; (split; [done|decided]). }
    destruct HW' as [HU Hsp]. rewrite HU in Ep. apply has_prefix_within in Ep; [|destruct tail as [|d tail]; [done|by simpl in He; subst d]].
    unfold clause_free in Hfree. rewrite Forall_forall in Hfree. specialize (Hfree W (proj1 (list_elem_of_In _ _) HW)).
    rewrite E, fmap_app in Hfree. revert Hfree. apply index_of_some. cbn [fmap list_fmap has_prefix]. change (ascii_upper " ") with " "%char.
    by rewrite Ascii.eqb_refl.
  - destruct (re_space c) eqn:Ec; [|done]. exfalso. apply Hc, (norm_chars w); [done| |done]. rewrite E. apply elem_of_app. right. by left.
Qed.

Lemma condition_no_newline : no_newline w.
Proof.
  apply Forall_forall. intros c Hc%list_elem_of_In. destruct (re_newline c) eqn:E; [exfalso|done].
  assert (Hsp : re_space c = true) by (revert E; destruct c as [[] [] [] [] [] [] [] []]; vm_compute; done).
  apply (norm_chars w c Hn Hc) in Hsp as ->. done.
Qed.
End condition.

(** *** The whole statement *)

Definition tail_re : list re := [order_re 4 5; limit_re 6; offset_re 7; REnd].
Definition direction (desc : bool) : text := if desc then tx "DESC" else [].

Lemma tail_no_kw W x y : W ∈ ["ORDER"; "ASC"; "DESC"; "WHERE"]%string → no_kw W (clause "LIMIT" x ++ clause "OFFSET" y).
Proof.
  intros HW. rewrite !elem_of_cons, elem_of_nil in HW. destruct HW as [->|[->|[->|[->|[]]]]]; by destruct x, y.
Qed.

Lemma run_tail q g : select_ok q → plain (show_tail q) →
  run (seqs tail_re) (show_tail q) g (λ _ g, Some g) =
  Some (gset 7 (show_number (q_Offset q)) (gset 6 (show_number (q_Limit q))
         (gset 5 (direction (q_OrderDesc q)) (gset 4 (q_OrderBy q) g)))).
Proof.
  intros Hok Hp. unfold show_tail, tail_re in *. cbn [seqs foldr]. rewrite run_seq.
  destruct (so_order _ Hok) as [Hw Hd]. pose proof (number_digits _ (proj1 (so_limit _ Hok))) as Hl.
  pose proof (number_digits _ (proj1 (so_offset _ Hok))) as Ho.
  assert (He : edge (clause "LIMIT" (show_number (q_Limit q)) ++ clause "OFFSET" (show_number (q_Offset q)))).
  { apply edge_clause. rewrite <- (app_nil_r (clause "OFFSET" _)). by apply edge_clause. }
  apply run_order; [done|done|done|intros _; apply tail_no_kw; decided|intros _; split; apply tail_no_kw; decided|done|].
  apply plain_app_r in Hp. rewrite run_seq. apply (run_number "LIMIT" 6); [done|done|exact Hl| | |exact Hp|].
  { rewrite <- (app_nil_r (clause "OFFSET" _)). by apply edge_clause. }
  { intros _. by destruct (show_number (q_Offset q)). }
  apply plain_app_r in Hp. rewrite run_seq. rewrite <- (app_nil_r (clause "OFFSET" _)) in *.
  apply (run_number "OFFSET" 7); [done|done|done|done|done|done|]. done.
Qed.

Lemma tail_fails w a b tail g : solid w → clause_free w → norm w → plain tail → edge tail → w = a ++ b → b ≠ [] →
  run (seqs tail_re) (b ++ tail) g (λ _ g, Some g) = None.
Proof.
  intros Hs Hf Hn Hp He E Hb. unfold tail_re. cbn [seqs foldr].
  assert (Hpl : plain (b ++ tail)).
  { apply Forall_app. split; [|done]. destruct Hs as (_ & _ & Hs). rewrite E in Hs. by apply Forall_app in Hs as [_ ?]. }
  assert (Hk : ∀ W, W ∈ ["ORDER"; "LIMIT"; "OFFSET"]%string → no_kw W (b ++ tail)) by (intros W HW; by apply (suffix_no_kw w Hs Hf Hn W a b)).
  rewrite run_seq. unfold order_re. rewrite run_opt_skip by (apply run_no_clause; [apply Hk; decided|done]).
  rewrite run_seq. unfold limit_re. rewrite run_opt_skip by (apply run_no_clause; [apply Hk; decided|done]).
  rewrite run_seq. unfold offset_re. rewrite run_opt_skip by (apply run_no_clause; [apply Hk; decided|done]).
  rewrite run_seq. cbn [run]. by destruct b.
Qed.

Lemma solid_edges s : solid s → closed s ∧ spaced s = false ∧ s ≠ [].
Proof.
  intros ((c & r & -> & Hc) & (r' & c' & E & Hc') & _). split_and!; [|by apply blank_space|done].
  unfold closed. rewrite E, last_snoc. by apply blank_space.
Qed.

(** Optional texts of clauses: empty, or solid with single blanks *)
Definition part (x : text) : Prop := x = [] ∨ (solid x ∧ norm x).

Lemma solid_clause W s x : plain (tx W) → solid s → part x → solid (s ++ clause W x).
Proof.
  intros HW Hs [-> | [Hx _]]; [by rewrite app_nil_r|]. unfold clause. destruct x as [|c x]; [by destruct Hx as ((? & ? & ? & _) & _)|].
  change (" "%char :: tx W ++ " "%char :: c :: x) with ((" "%char :: tx W ++ [" "%char] ++ (c :: x))).
  replace (" "%char :: tx W ++ [" "%char] ++ (c :: x)) with ((" "%char :: tx W ++ [" "%char]) ++ (c :: x)) by (by cbn [app]; rewrite <- app_assoc).
  apply solid_app; [done| |done]. constructor; [done|]. apply Forall_app. split; [done|by repeat constructor].
Qed.
Lemma norm_part W x s : norm (tx W) → closed (tx W) → spaced (tx W) = false → tx W ≠ [] → part x → norm s → edge s →
  norm (clause W x ++ s) ∧ edge (clause W x ++ s).
Proof.
  intros H1 H2 H3 H4 [-> | [Hx Hn]] Hs He; [done|]. destruct (solid_edges x Hx) as (? & ? & ?). by apply norm_clause.
Qed.

Lemma word_part x : Forall isWordChar x → part x.
Proof.
  intros H. destruct x as [|c x]; [by left|]. right. split; [by apply word_solid|].
  apply norm_unspaced. eapply List.Forall_impl; [|exact H]. intros d Hd. apply (col_char_facts d). unfold col_char. by rewrite (Is_true_true_1 _ Hd).
Qed.
Lemma number_part n : 0 ≤ n → part (show_number n).
Proof. intros H. by apply word_part, digits_word, number_digits. Qed.
Lemma filter_part f : wf_filter f → part (show_filter f).
Proof.
  destruct f as [fe|]; [|by left]. intros (Hw & _ & Hn). right. split; [|done]. clear Hn.
  destruct Hw as [fe H|fs Hl H]; [by apply conj_solid|]. destruct (two_parts fs Hl) as [_ Hne].
  cbn [show_filter]. rewrite show_any by done. apply solid_join; [apply separator_ascii; by left|by destruct fs|].
  apply Forall_fmap. eapply List.Forall_impl; [|exact H]. apply conj_solid.
Qed.

Section statement.
Context (q : SQLQuery) (Hok : select_ok q).
#[local] Abbreviation cols := (join [","%char] (q_Columns q)).

Lemma cols_chars : Forall (λ c, re_space c = false ∧ re_newline c = false) cols.
Proof.
  apply Forall_forall. intros c Hc%list_elem_of_In. destruct (so_columns _ Hok) as [_ H]. destruct (in_join _ _ _ Hc) as [Hs|(p & Hp & Hcp)].
  - rewrite elem_of_cons, elem_of_nil in Hs. by destruct Hs as [->|[]].
  - rewrite Forall_forall in H. destruct (H p (proj1 (list_elem_of_In _ _) Hp)) as [_ Hpc]. rewrite Forall_forall in Hpc.
    apply list_elem_of_In in Hcp. destruct (col_char_facts c (Hpc c Hcp)) as (? & _ & _ & ? & _). done.
Qed.
Lemma cols_solid : solid cols.
Proof.
  destruct (so_columns _ Hok) as [Hne H]. apply solid_join; [by repeat constructor|done|].
  eapply List.Forall_impl; [|exact H]. apply column_solid.
Qed.

Lemma select_solid : solid (show_select q) ∧ norm (show_select q).
Proof.
  destruct (so_order _ Hok) as [Ho _]. apply word_part in Ho. destruct (so_name _ Hok) as [_ Hc]. apply word_part in Hc.
  pose proof (filter_part _ (so_filter _ Hok)) as Hf. pose proof (number_part _ (proj1 (so_limit _ Hok))) as Hl.
  pose proof (number_part _ (proj1 (so_offset _ Hok))) as Hoff. split.
  - unfold show_select, show_tail, show_order.
    replace (tx "SELECT " ++ cols ++ clause "FROM" (q_Collection q) ++ clause "WHERE" (show_filter (q_Filter q)) ++
      match q_OrderBy q with [] => [] | _ => clause "ORDER BY" (q_OrderBy q) ++ (if q_OrderDesc q then tx " DESC" else []) end ++
      clause "LIMIT" (show_number (q_Limit q)) ++ clause "OFFSET" (show_number (q_Offset q))) with
      (((((tx "SELECT" ++ [" "%char] ++ cols) ++ clause "FROM" (q_Collection q)) ++ clause "WHERE" (show_filter (q_Filter q))) ++
      (clause "ORDER BY" (q_OrderBy q) ++ match q_OrderBy q with [] => [] | _ => if q_OrderDesc q then tx " DESC" else [] end)) ++
      clause "LIMIT" (show_number (q_Limit q)) ++ clause "OFFSET" (show_number (q_Offset q)))
      by (change (tx "SELECT ") with (tx "SELECT" ++ [" "%char]); destruct (q_OrderBy q); rewrite <- ?app_assoc; done).
    rewrite (app_assoc _ (clause "LIMIT" _)). apply (solid_clause "OFFSET"); [by repeat constructor| |done].
    apply (solid_clause "LIMIT"); [by repeat constructor| |exact Hl]. rewrite app_assoc. assert (Hall : solid ((((tx "SELECT" ++ [" "%char] ++ cols) ++ clause "FROM" (q_Collection q)) ++
      clause "WHERE" (show_filter (q_Filter q))) ++ clause "ORDER BY" (q_OrderBy q))).
    { apply (solid_clause "ORDER BY"); [by repeat constructor| |done]. apply (solid_clause "WHERE"); [by repeat constructor| |done].
      apply (solid_clause "FROM"); [by repeat constructor| |done]. apply solid_app; [|by repeat constructor|apply cols_solid].
      apply word_solid; [done|by repeat constructor]. }
    destruct (q_OrderBy q), (q_OrderDesc q); try by rewrite app_nil_r.
    apply (solid_app _ [" "%char] (tx "DESC")); [done|by repeat constructor|]. apply word_solid; [done|by repeat constructor].
  - assert (Htail : norm (show_tail q) ∧ edge (show_tail q)).
    { assert (H1 : norm (clause "OFFSET" (show_number (q_Offset q)) ++ []) ∧ edge (clause "OFFSET" (show_number (q_Offset q)) ++ []))
        by by apply norm_part.
      rewrite app_nil_r in H1. assert (H2 := norm_part "LIMIT" _ _ eq_refl eq_refl eq_refl ltac:(done) Hl (proj1 H1) (proj2 H1)).
      unfold show_tail, show_order. destruct (q_OrderBy q) as [|c f] eqn:Ef; [exact H2|]. rewrite <- app_assoc.
      apply norm_part; [done|done|done|done|done|..]; destruct (q_OrderDesc q); try apply H2; [|done].
      change (tx " DESC") with (" "%char :: tx "DESC"). cbn [app]. apply norm_space; [|done]. by apply (norm_app (tx "DESC")); [|apply H2|]. }
    assert (H3 := norm_part "WHERE" _ _ eq_refl eq_refl eq_refl ltac:(done) Hf (proj1 Htail) (proj2 Htail)).
    assert (H4 := norm_part "FROM" _ _ eq_refl eq_refl eq_refl ltac:(done) Hc (proj1 H3) (proj2 H3)).
    destruct (norm_unspaced cols) as (Hn1 & Hn2 & Hn3); [eapply List.Forall_impl; [|apply cols_chars]; by intros ? []|].
    unfold show_select. change (tx "SELECT ") with (tx "SELECT" ++ [" "%char]). rewrite <- app_assoc. apply norm_app; [done| |done].
    cbn [app]. apply norm_space; [by apply norm_app; [|apply H4|]|]. apply spaced_app; [done|]. apply solid_edges, cols_solid.
Qed.

Lemma run_select : run selectRe (show_select q) ∅ (λ _ g, Some g) =
  Some (gset 7 (show_number (q_Offset q)) (gset 6 (show_number (q_Limit q)) (gset 5 (direction (q_OrderDesc q)) (gset 4 (q_OrderBy q)
    (gset 3 (show_filter (q_Filter q)) (gset 2 (q_Collection q) (gset 1 cols ∅))))))).
Proof.
  destruct select_solid as [(_ & _ & Hp) Hn]. destruct (so_name _ Hok) as [Hc0 Hc]. pose proof (filter_part _ (so_filter _ Hok)) as Hf.
  destruct (solid_edges _ cols_solid) as (_ & Hcs & Hc1).
  unfold show_select in *. change (tx "SELECT ") with (tx "SELECT" ++ [" "%char]) in *. rewrite <- app_assoc in *. cbn [app] in *.
  set (R := clause "WHERE" (show_filter (q_Filter q)) ++ show_tail q) in *.
  change selectRe with (RSeq (lit "SELECT") (RSeq spaces (RSeq (RGroup 1 some_lazy)
    (seqs (kw "FROM" :: spaces :: RGroup 2 words :: where_re 3 :: tail_re))))).
  rewrite run_seq, run_lit_here by done. apply plain_app_r, plain_cons in Hp. rewrite run_seq, run_space by by apply spaced_app.
  rewrite run_seq. apply run_group_lazy; [done|by apply Forall_app in Hp as [? _]| | |].
  { eapply List.Forall_impl; [|apply cols_chars]. by intros ? []. }
  { intros a b E Ha Hb g'. change (seqs (kw "FROM" :: ?rs)) with (RSeq (kw "FROM") (seqs rs)).
    rewrite run_seq. apply run_no_kw.
    - destruct b as [|c b]; [done|]. cbn [app no_kw]. assert (Hsp : re_space c = false).
      { pose proof cols_chars as H. rewrite E in H. apply Forall_app in H as [_ H]. by apply Forall_cons_iff in H as [[? _] _]. }
      destruct (Ascii.eqb_spec c " ") as [->|]; [done|done].
    - rewrite E, <- app_assoc in Hp. by apply plain_app_r in Hp. }
  apply plain_app_r in Hp. apply run_clause; [done|done|by apply word_unspaced|done|done|]. apply plain_app_r in Hp.
  change (seqs (RGroup 2 words :: where_re 3 :: tail_re)) with (RSeq (RGroup 2 words) (RSeq (where_re 3) (seqs tail_re))).
  assert (Het : edge (show_tail q)).
  { unfold show_tail, show_order. destruct (q_OrderBy q); [|done]. apply edge_clause. rewrite <- (app_nil_r (clause _ _)). by apply edge_clause. }
  rewrite run_seq. unfold words. apply (run_group_greedy 2 re_word); [done|done|by apply edge_not; [apply edge_clause|]|].
  rewrite run_seq. assert (Hpt : plain (show_tail q)) by by apply plain_app_r in Hp.
  assert (Eg : <[2%nat := q_Collection q]> (<[1%nat := cols]> ∅) = gset 2 (q_Collection q) (gset 1 cols ∅)).
  { unfold gset. destruct cols; [done|]. by destruct (q_Collection q). }
  rewrite Eg. unfold where_re, R. destruct Hf as [Hw|[Hws Hwn]].
  - rewrite Hw in *. cbn [clause app]. rewrite run_opt_skip; [by apply run_tail|]. apply run_no_clause; [|done].
    unfold show_tail, show_order. destruct (q_OrderBy q); [apply tail_no_kw; decided|done].
  - assert (Hfree : clause_free (show_filter (q_Filter q))).
    { pose proof (so_filter _ Hok) as H. destruct (q_Filter q); [by destruct H as (_ & ? & _)|]. by destruct Hws as ((? & ? & ? & _) & _). }
    destruct (solid_edges _ Hws) as (_ & Hsp & Hne). apply run_opt_take. apply run_clause; [done..|].
    change (seqs [RGroup 3 some_lazy]) with (RSeq (RGroup 3 some_lazy) REps). rewrite run_seq.
    apply run_group_lazy; [done|by destruct Hws as (_ & _ & ?)|by apply condition_no_newline| |].
    + intros a b E Ha Hb g'. cbn [run]. by apply (tail_fails (show_filter (q_Filter q)) a b).
    + cbn [run]. rewrite run_tail by done. do 5 f_equal. unfold gset at 4. by destruct (show_filter (q_Filter q)).
Qed.
End statement.

Section statements.
Context {up : UpperMap} {cm : CaseMap} {fl : FloatSyntax}.

Lemma find_here t r s g : run r s ∅ (λ _ g, Some g) = Some g → find t r s = Ok g.
Proof. intros H. unfold find. destruct s; cbn [FindStringSubmatch]; by rewrite H. Qed.

Lemma select_direct q : select_ok q → parseSelect (show_select q) = Ok q.
Proof.
  intros Hok. pose proof (proj1 (select_solid q Hok)) as (_ & _ & Hp). unfold parseSelect.
  rewrite ToUpper_ascii by done. destruct (so_plain _ Hok) as [-> ->]. cbn [orb]. rewrite (find_here _ _ _ _ (run_select q Hok)), Ok_bind.
  set (g1 := gset 1 _ ∅). set (g2 := gset 2 _ g1). set (g3 := gset 3 _ g2). set (g4 := gset 4 _ g3). set (g5 := gset 5 _ g4).
  set (g6 := gset 6 _ g5). set (g7 := gset 7 _ g6).
  assert (E1 : group g7 1 = join [","%char] (q_Columns q)) by (unfold g7, g6, g5, g4, g3, g2; rewrite !group_gset_ne by done; by apply group_gset_eq).
  assert (E2 : group g7 2 = q_Collection q) by (unfold g7, g6, g5, g4, g3; rewrite !group_gset_ne by done; apply group_gset_eq; by unfold g1; rewrite group_gset_ne).
  assert (E3 : group g7 3 = show_filter (q_Filter q)).
  { unfold g7, g6, g5, g4. rewrite !group_gset_ne by done. apply group_gset_eq. unfold g2, g1. by rewrite !group_gset_ne. }
  assert (E4 : group g7 4 = q_OrderBy q).
  { unfold g7, g6, g5. rewrite !group_gset_ne by done. apply group_gset_eq. unfold g3, g2, g1. by rewrite !group_gset_ne. }
  assert (E5 : group g7 5 = direction (q_OrderDesc q)).
  { unfold g7, g6. rewrite !group_gset_ne by done. apply group_gset_eq. unfold g4, g3, g2, g1. by rewrite !group_gset_ne. }
  assert (E6 : group g7 6 = show_number (q_Limit q)).
  { unfold g7. rewrite group_gset_ne by done. apply group_gset_eq. unfold g5, g4, g3, g2, g1. by rewrite !group_gset_ne. }
  assert (E7 : group g7 7 = show_number (q_Offset q)).
  { apply group_gset_eq. unfold g6, g5, g4, g3, g2, g1. by rewrite !group_gset_ne. }
  rewrite E1, E2, E3, E4, E5, E6, E7. clear E1 E2 E3 E4 E5 E6 E7. clearbody g7.
  destruct (so_columns _ Hok) as [Hc0 Hc]. rewrite columns_read by done.
  destruct (so_name _ Hok) as [Hn0 Hn]. rewrite (solid_trim (q_Collection q)) by by apply word_solid.
  rewrite !number_read by apply Hok. rewrite ToUpper_ascii by (by destruct (q_OrderDesc q); repeat constructor).
  assert (Hf : where_clause (show_filter (q_Filter q)) = Ok (q_Filter q)).
  { pose proof (filter_part _ (so_filter _ Hok)) as Hpart. pose proof (so_filter _ Hok) as Hwf. destruct (q_Filter q) as [fe|]; [|done].
    destruct Hwf as (Hw & _). cbn [show_filter] in *. unfold where_clause.
    destruct Hpart as [E|[Hs _]]; [exfalso|destruct (show fe) as [|c r] eqn:E; [by destruct Hs as ((? & ? & ? & _) & _)|rewrite <- E; by rewrite where_reads]].
    destruct Hw as [fe' H|fs Hl H]; [by destruct (solid_edges _ (conj_solid _ H)) as (_ & _ & ?)|].
    destruct (two_parts fs Hl) as [_ Hne]. rewrite show_any in E by done. destruct fs as [|f0 [|f1 fs]]; [done|simpl in Hl; lia|].
    apply Forall_cons_iff in H as [H0 _]. destruct (solid_edges _ (conj_solid _ H0)) as (_ & _ & Hs0). cbn in E. by destruct (show f0). }
  rewrite Hf, !Ok_bind. f_equal. destruct q as [ty coll cs vec vn lim off fil ord desc pts cfg]. cbn in *.
  destruct Hok as [Ht (Hv1 & Hv2 & Hv3 & Hv4) _ _ _ [_ Hd] _ _ _]. cbn in *. subst. f_equal.
  destruct ord as [|c ord]; [by rewrite Hd|]. by destruct desc.
Qed.

Lemma parse_dispatch s : solid s → norm s → Parse s = dispatch s.
Proof.
  intros Hs Hn. destruct (solid_edges s Hs) as (_ & _ & Hne). unfold Parse. rewrite solid_trim by done.
  unfold norm in Hn. destruct s; [done|]. by rewrite Hn.
Qed.

Lemma select_reads q : select_ok q → Parse (show_select q) = Ok q.
Proof.
  intros Hok. destruct (select_solid q Hok) as [Hs Hn]. rewrite parse_dispatch by done. unfold dispatch. cbv zeta.
  rewrite ToUpper_ascii by apply Hs. replace (has_prefix (tx "SELECT") (ascii_upper <$> show_select q)) with true.
  - by apply select_direct.
  - unfold show_select. change (tx "SELECT ") with (tx "SELECT" ++ [" "%char]). rewrite <- app_assoc, fmap_app. symmetry. apply has_prefix_app.
Qed.

(** C19. A SELECT statement that [select_ok] admits, written out by [show_select], is
    parsed to that statement: columns of word characters, dots and stars, a condition in
    disjunctive form over paths of words that are no keywords, an order, a limit and an
    offset. Its literals are 64-bit integers, booleans, lists of them and strings of ASCII
    characters without quotes, parentheses, commas, comparison or exclamation signs, runs
    of blanks or the words of the clauses behind a blank; floats are left out. *)
Theorem select_roundtrip q : select_ok q → Parse (show_select q) = Ok q.
Proof. apply select_reads. Qed.

(** ** The WHERE clause of a vector search *)

Lemma plus_greedy_rune {X} (p : ascii → bool) w c rest fuel (k : text → option X) v : w ≠ [] → plain w → Forall (λ c, p c = false) w →
  is_ascii c → p c = true → (length w ≤ fuel)%nat → k (c :: rest) = Some v →
  plus true (ARune p) fuel (w ++ c :: rest) k = Some v.
Proof.
  intros Hne Hp Hw Hc Hpc. revert fuel Hp. induction Hw as [|d w Hd Hw IH]; [done|].
  intros [|fuel] [Hpd Hp]%Forall_cons_iff Hf Hk; simpl in Hf; [lia|]. cbn [app plus step]. rewrite Hd, andb_false_r.
  rewrite decode_rune_ascii by done. cbn [snd drop]. rewrite drop_0. destruct w as [|d2 w].
  - cbn [app]. rewrite Hk. destruct fuel; [done|]. cbn [plus step]. by rewrite Hpc, (Is_true_true_1 _ Hc).
  - rewrite IH; [done|done|done|simpl in *; lia|done].
Qed.

Lemma run_vector n es rest g {X} (k : text → groups → option X) v : es ≠ [] → plain es → "]"%char ∉ es →
  k rest (<[n := es]> g) = Some v → run (vector_re n) ("["%char :: es ++ "]"%char :: rest) g k = Some v.
Proof.
  intros Hne Hp Hes Hk. unfold vector_re. cbn [seqs foldr]. rewrite run_seq. cbn [run step]. change (fold_char "[" "[") with true.
  cbv iota. apply plus_greedy_rune; [done|done| |done|done|rewrite length_app; lia|].
  - apply Forall_forall. intros c Hc%list_elem_of_In. destruct (Ascii.eqb_spec "]"%char c) as [<-|]; [done|done].
  - cbn [run step]. change (fold_char "]" "]") with true. cbv iota. rewrite length_app. cbn [length].
    replace (length es + S (length rest) - S (length rest))%nat with (length es) by lia. by rewrite take_app_length.
Qed.

(** A single name is not a condition. *)
Lemma name_is_no_condition c : isWordChar c → parseSingleCondition [c] = Err (ECondition [c]).
Proof.
  intros Hc. assert (Hone : solid [c]) by by apply word_solid; [|by constructor].
  unfold parseSingleCondition. rewrite (solid_trim _ Hone). cbn [length strip_parens].
  rewrite has_prefix_head; [|done|by simpl; intros [= <-]; vm_compute in Hc]. cbn [andb]. cbv iota. rewrite Ok_bind.
  assert (Hall : forallb (λ o, match tx (fst o) with d :: _ => negb (isWordChar d) && negb (is_letter d) | [] => false end) operators = true)
    by reflexivity.
  revert Hall. generalize operators as ops. induction ops as [|[sql op] ops IH]; [done|]. cbn [forallb fst].
  intros [Hd Hall]%andb_true_iff. rewrite try_skip; [by apply IH|]. destruct (tx sql) as [|d r]; [done|].
  apply andb_true_iff in Hd as [Hd1%negb_true_iff Hd2%negb_true_iff].
  assert (Hdc : d ∉ [c]) by (intros ->%list_elem_of_singleton; by rewrite Hd1 in Hc).
  unfold op_index. destruct (has_prefix (tx " ") (d :: r)); [|by apply (index_of_none d); [left|]].
  rewrite ToUpper_ascii by apply Hone. apply (index_of_none d); [by left|by apply upper_notin].
Qed.

Definition show_search (coll es w : text) : text :=
  tx "SEARCH " ++ coll ++ clause "FOR" ("["%char :: es ++ ["]"%char]) ++ clause "WHERE" w.

(** The WHERE clause of a SEARCH statement is cut to its first character: a search
    with a condition that starts with a name fails, whatever the condition. *)
Theorem search_where_lost coll es vec c w :
  coll ≠ [] → Forall isWordChar coll → es ≠ [] → "]"%char ∉ es → parseVector es = Ok vec →
  isWordChar c → w ≠ [] → no_kw "LIMIT" w → Forall is_ascii (es ++ c :: w) →
  parseVectorSearch (show_search coll es (c :: w)) = Err (ECondition [c]).
Proof.
  intros Hc0 Hcw He0 He Hvec Hc Hw0 Hw Hp. apply Forall_app in Hp as [Hpe Hpw]. pose proof (word_plain_text _ Hcw) as Hpc.
  assert (Hrun : run searchRe (show_search coll es (c :: w)) ∅ (λ _ g, Some g) =
    Some (<[4%nat := [c]]> (<[2%nat := es]> (<[1%nat := coll]> ∅)))).
  { unfold show_search. change (tx "SEARCH ") with (tx "SEARCH" ++ [" "%char]). rewrite <- app_assoc. cbn [app].
    assert (Hpt : plain (clause "WHERE" (c :: w))) by (constructor; [done|]; apply Forall_app; split; [by repeat constructor|by constructor]).
    set (T := clause "WHERE" (c :: w)) in *.
    assert (Hpf : plain (clause "FOR" ("["%char :: es ++ ["]"%char]) ++ T)).
    { apply Forall_app; split; [|done]. constructor; [done|]. apply Forall_app; split; [by repeat constructor|].
      constructor; [done|]. constructor; [done|]. apply Forall_app; split; [done|by repeat constructor]. }
    change searchRe with (RSeq (lit "SEARCH") (RSeq spaces (RSeq (RGroup 1 words)
      (seqs (kw "FOR" :: spaces :: vector_re 2 :: [using_re 3; where_re 4; limit_re 5]))))).
    rewrite run_seq, run_lit_here; [|apply Forall_app; split; [by repeat constructor|]; constructor; [done|]; by apply Forall_app].
    rewrite run_seq, run_space by by apply spaced_app; [apply word_unspaced|].
    rewrite run_seq. unfold words. apply (run_group_greedy 1 re_word); [done|done|done|].
    apply run_clause; [done|done|done|done|done|].
    replace (("["%char :: es ++ ["]"%char]) ++ T) with ("["%char :: es ++ "]"%char :: T) by by rewrite <- app_comm_cons, <- app_assoc.
    change (seqs (vector_re 2 :: [using_re 3; where_re 4; limit_re 5])) with
      (RSeq (vector_re 2) (RSeq (using_re 3) (RSeq (where_re 4) (seqs [limit_re 5])))).
    rewrite run_seq. apply run_vector; [done|done|done|]. rewrite run_seq. unfold using_re.
    rewrite run_opt_skip by by apply run_no_clause. rewrite run_seq. unfold where_re. apply run_opt_take.
    rewrite <- (app_nil_r T). assert (Hcs : spaced (c :: w) = false) by (apply (word_unspaced [c]); by constructor).
    apply run_clause; [done|done|done|by rewrite app_nil_r|done|]. rewrite app_nil_r.
    change (seqs [RGroup 4 some_lazy]) with (RSeq (RGroup 4 some_lazy) REps). rewrite run_seq. apply (run_group_lazy 4 [c] w); [done| | | |].
    - by apply (word_plain_text [c]); constructor.
    - constructor; [|done]. destruct c as [[] [] [] [] [] [] [] []]; by vm_compute in Hc |- *.
    - intros a b E Ha Hb. destruct a as [|? [|]]; [done| |done]. by destruct b.
    - cbn [run]. cbn [seqs foldr]. rewrite run_seq. unfold limit_re. rewrite run_opt_skip; [done|].
      apply run_no_clause; [done|by eapply plain_cons]. }
  unfold parseVectorSearch. rewrite (find_here _ _ _ _ Hrun), Ok_bind.
  change (group _ 2) with es. change (group _ 4) with [c]. rewrite Hvec, Ok_bind.
  assert (Hone : solid [c]) by by apply word_solid; [|by constructor].
  cbn [where_clause]. unfold parseWhereClause. cbn [length parse_where]. rewrite (solid_trim _ Hone).
  assert (Hsp : ∀ W, W = tx "OR" ∨ W = tx "AND" → splitByKeyword [c] W = [[c]]).
  { intros W HW. apply split_one; [done|done|]. apply frozen_word; [by apply kw_upper|by apply kw_ne|by constructor|].
    destruct HW as [-> | ->]; done. }
  rewrite !Hsp by auto. rewrite !one_part, ToUpper_ascii by by apply Hone.
  replace (has_prefix (tx "NOT ") (ascii_upper <$> [c])) with false.
  2: { symmetry. destruct (has_prefix _ _) eqn:E; [|done]. apply has_prefix_length in E. simpl in E. lia. }
  by rewrite name_is_no_condition.
Qed.
End statements.

(** ** Witnesses *)
#[local] Existing Instance ascii_case.
#[local] Existing Instance demo_upper.
#[local] Existing Instance demo_floats.

Definition demo_query : SQLQuery :=
  mkQuery QuerySelect (tx "docs") [tx "a"; tx "meta.b"] [] [] 5 20 (Some demo_where) (tx "a") true [] None.

Lemma demo_query_ok : select_ok demo_query.
Proof.
  constructor; cbn [demo_query q_Type q_Vector q_VectorName q_Points q_CollectionConfig q_Collection q_Columns q_Filter q_OrderBy q_OrderDesc q_Limit q_Offset].
  - done.
  - done.
  - split; [done|by repeat constructor].
  - split; [done|]. repeat constructor; done.
  - split_and!; [exact demo_where_ok|by repeat constructor|reflexivity].
  - split; [by repeat constructor|done].
  - split; apply Z.leb_le; reflexivity.
  - split; apply Z.leb_le; reflexivity.
  - by vm_compute.
Qed.

Lemma select_roundtrip_witness :
  Parse (show_select demo_query) = Ok demo_query ∧
  str (show_select demo_query) =
    "SELECT a,meta.b FROM docs WHERE x.y <= -12 AND NOT kind IN ('u',TRUE) OR name LIKE 'this OR that' OR z IS NOT NULL ORDER BY a DESC LIMIT 5 OFFSET 20"%string.
Proof. split; [apply (select_roundtrip demo_query demo_query_ok)|reflexivity]. Defined.

Lemma search_where_lost_witness :
  str (show_search (tx "docs") (tx "1, 2") (tx "kind = 'x' LIMIT 3")) = "SEARCH docs FOR [1, 2] WHERE kind = 'x' LIMIT 3"%string ∧
  parseVectorSearch (show_search (tx "docs") (tx "1, 2") (tx "kind = 'x' LIMIT 3")) = Err (ECondition (tx "k")).
Proof.
  split; [reflexivity|].
  apply (search_where_lost (tx "docs") (tx "1, 2") [f32_of_Z 1; f32_of_Z 2] "k"%char (tx "ind = 'x' LIMIT 3"));
    [done|by repeat constructor|done|decided|reflexivity|done|done|done|by repeat constructor].
Defined.
