(* ===== verification/SqlExec.v ===== *)
(** * pkg/query/executor.go: parsed queries against the server

    Every statement as an operation on the manager of a server, and what a SELECT
    answers: [select_answers] follows a statement from its text to the rows, over a
    server that stands for tables. *)
From Stdlib Require Import Strings.Ascii ZArith Lia Floats.SpecFloat.
From stdpp Require Import base gmap list strings fin_maps numbers sorting.
From S2P Require Import Prelude Float32 Heap WalCodec WalProofs Hnsw Distance HnswGraph HnswSpec HnswContents.
From S2P Require Import Cache PayloadFilter PayloadIndex Binary Point Sparse Config SearchCache Collection.
From S2P Require Import CollectionSpec CollectionLog Manager Recovery RecoveryTheorems.
From S2P Require Import Text Regexp Sql SqlScan SqlShow SqlTheorems SqlTotal SqlSelect.

#[local] Open Scope Z_scope.

(** ** Answers *)

Inductive cell := CValue (v : value) | CVector (v : Vector) | CScore (x : f32).
Abbreviation row := (gmap string cell).

Record QueryResult := mkResult {
  r_Type : QueryType; r_Collection : text; r_Rows : list row; r_Affected : Z; r_Message : text; r_Columns : list text
}.

Inductive execError :=
| XNotFound (name : text) | XColl (e : collError) | XManager (e : managerError) | XParse (e : sqlError)
| XNoPoints | XUpdate | XNoFilter | XIdType | XOnlyId | XNoConfig.

(** What a call takes from the clock, the random source and the disk *)
Record xenv (D : Type) := mkXenv {
  x_now : Z; x_later : Z; x_levels : nat → string → Z; x_db : D; x_mkdir : bool; x_save : bool; x_remove : bool }.
Arguments mkXenv {D}. Arguments x_now {D}. Arguments x_later {D}. Arguments x_levels {D}. Arguments x_db {D}.
Arguments x_mkdir {D}. Arguments x_save {D}. Arguments x_remove {D}.

Definition hasColumn (columns : list text) (col : string) : bool :=
  existsb (λ c, bool_decide (c = tx col) || bool_decide (c = tx "*")) columns.

(** [val, ok := payload[col]] *)
Definition payload_find (p : payload) (col : string) : option value :=
  snd <$> (list_find (λ kv, fst kv = col) p ≫= λ iv, Some (snd iv)).

Definition set_payload (pl : option payload) (r : row) : row :=
  foldl (λ r kv, <[fst kv := CValue (snd kv)]> r) r (default [] pl).

(** The columns a query names; [skip] are the ones that are always there. *)
Definition set_columns (skip : list string) (columns : list text) (p : ScoredPoint) (r : row) : row :=
  foldl (λ r col, let col := str col in
    if bool_decide (col ∈ skip) then r
    else if String.eqb col "vector" then <["vector"%string := CVector (sp_Vector p)]> r
    else match payload_find (default [] (sp_Payload p)) col with Some v => <[col := CValue v]> r | None => r end) r columns.

Definition select_row (columns : list text) (p : ScoredPoint) : row :=
  let r : row := {["id"%string := CValue (VString (sp_ID p))]} in
  if hasColumn columns "*" || hasColumn columns "payload" then set_payload (sp_Payload p) r
  else set_columns ["id"%string] columns p r.

Definition search_row (columns : list text) (p : ScoredPoint) : row :=
  let r : row := <["_score"%string := CScore (sp_Score p)]> {["id"%string := CValue (VString (sp_ID p))]} in
  if hasColumn columns "*" || hasColumn columns "payload" then set_payload (sp_Payload p) r
  else set_columns ["id"; "_score"]%string columns p r.

Section executor.
Context {Q D L : Type} {nq : NewQuantizer Q} {dbase : Database D} {logI : Log L}.
Context {sorter : Sorter} {order : MapOrder string} {zorder : MapOrder Z}.
Context {json : Json} {digest : Digest} {cm : CaseMap} {up : UpperMap} {fl : FloatSyntax}.

#[local] Abbreviation Cfg := (CollectionConfig Q).
#[local] Abbreviation Sys := (Manager Q D * L)%type.
#[local] Abbreviation XM := (M Sys execError).
#[local] Abbreviation CM := (M (Coll Q D * L) collError).

(** [e.manager.Get] and an operation of the collection *)
Definition with_collection {A} (name : text) (f : CM A) : XM A := λ s,
  let '(r, s) := on_collection (str name) f s in
  (match r with Ok a => Ok a | Err (EColl e) => Err (XColl e) | Err _ => Err (XNotFound name) | Panic => Panic end, s).

(** An operation of the manager *)
Definition with_manager {A} (f : M (Manager Q D) managerError A) : XM A := λ s,
  let '(r, m) := f (fst s) in
  (match r with Ok a => Ok a | Err e => Err (XManager e) | Panic => Panic end, (m, snd s)).

Definition select_params (q : SQLQuery) : ScrollParams :=
  mkScrollParams "" (if q_Limit q <=? 0 then 100 else q_Limit q) (buildFilter <$> q_Filter q)
    (hasColumn (q_Columns q) "vector") true.

Definition executeSelect (q : SQLQuery) : XM QueryResult :=
  page ← with_collection (q_Collection q) (on_coll (c ← get; lift (Scroll (select_params q) c)));
  mret (mkResult QuerySelect (q_Collection q) (select_row (q_Columns q) <$> sr_Points page) 0 [] (q_Columns q)).

Definition executeVectorSearch (e : xenv D) (q : SQLQuery) : XM QueryResult :=
  let limit := if q_Limit q <=? 0 then 10 else q_Limit q in
  points ← with_collection (q_Collection q)
    (match q_VectorName q with
     | [] => on_coll (SearchWithParams (x_now e) (x_later e) (q_Vector q)
               (mkSearchParams limit 0 (buildFilter <$> q_Filter q) (hasColumn (q_Columns q) "vector") true None))
     | name => r ← on_coll (c ← get; lift (SearchV2WithParams (q_Vector q) (str name) (mkSearchParams limit 0 None false false None) c));
               mret (fst r)
     end);
  mret (mkResult QueryVectorSearch (q_Collection q) (search_row (q_Columns q) <$> points) 0 []
          (tx "id" :: tx "_score" :: q_Columns q)).

Fixpoint insert_all (lv : nat → string → Z) (n : nat) (ps : list Point) : CM unit :=
  match ps with [] => mret tt | p :: ps => Insert (lv n) p;; insert_all lv (S n) ps end.

Definition executeInsert (e : xenv D) (q : SQLQuery) : XM QueryResult :=
  match q_Points q with
  | [] => throw XNoPoints
  | ps =>
      with_collection (q_Collection q) (insert_all (x_levels e) 0 ps);;
      mret (mkResult QueryInsert (q_Collection q) [] (len ps) (tx "Inserted " ++ show_Z (len ps) ++ tx " point(s)") [])
  end.

Definition executeUpdate (_ : SQLQuery) : XM QueryResult := throw XUpdate.

Definition executeDelete (q : SQLQuery) : XM QueryResult :=
  with_collection (q_Collection q) (mret tt);;
  match q_Filter q with
  | None => throw XNoFilter
  | Some f =>
      if decide (fe_Field f = tx "id") then
        if String.eqb (fe_Operator f) "eq" then
          match fe_Value f with
          | VString id =>
              with_collection (q_Collection q) (Collection.Delete id);;
              mret (mkResult QueryDelete (q_Collection q) [] 1 (tx "Deleted 1 point") [])
          | _ => throw XIdType
          end
        else throw XOnlyId
      else throw XOnlyId
  end.

Definition sql_metric (m : text) : string :=
  if decide (m = tx "euclidean" ∨ m = tx "l2") then Config.MetricEuclidean
  else if decide (m = tx "dot" ∨ m = tx "dotproduct") then Config.MetricDotProduct
  else Config.MetricCosine.

Definition executeCreateTable (e : xenv D) (q : SQLQuery) : XM QueryResult :=
  match q_CollectionConfig q with
  | None => throw XNoConfig
  | Some cfg =>
      let dim := if cs_Dimension cfg <=? 0 then 128 else cs_Dimension cfg in
      with_manager (Create (λ _, x_db e) (x_mkdir e) (x_save e)
        (mkCollectionConfig (str (cs_Name cfg)) dim (sql_metric (cs_Metric cfg)) (mkHNSWConfig 0 0 0 0) false None ∅));;
      mret (mkResult QueryCreateTable (cs_Name cfg) [] 0 (tx "Collection '" ++ cs_Name cfg ++ tx "' created") [])
  end.

Definition executeDropTable (e : xenv D) (q : SQLQuery) : XM QueryResult :=
  with_manager (Manager.Delete (x_remove e) (str (q_Collection q)));;
  mret (mkResult QueryDropTable (q_Collection q) [] 0 (tx "Collection '" ++ q_Collection q ++ tx "' dropped") []).

Definition describe_row (field type : string) (v : value) : row :=
  <["field"%string := CValue (VString field)]> (<["type"%string := CValue (VString type)]> {["value"%string := CValue v]}).

Definition describe (c : Coll Q D) : result collError (list row) :=
  size ← Size c;
  Ok ([describe_row "name" "string" (VString (cc_Name (c_config c)));
       describe_row "dimension" "int" (VInt (cc_Dimension (c_config c)));
       describe_row "metric" "string" (VString (cc_Metric (c_config c)));
       describe_row "size" "int" (VInt64 size)] ++
      (if HasNamedVectors (c_config c)
       then (λ '(name, vc), describe_row ("vector." ++ name ++ ".dimension") "int" (VInt (vc_Dimension vc))) <$>
            map_range (cc_Vectors (c_config c))
       else [])).

Definition executeDescribe (q : SQLQuery) : XM QueryResult :=
  rows ← with_collection (q_Collection q) (on_coll (c ← get; lift (describe c)));
  mret (mkResult QueryDescribe (q_Collection q) rows 0 [] [tx "field"; tx "type"; tx "value"]).

Definition show_row (m : Manager Q D) (name : string) : result execError row :=
  match Manager.Get name m with
  | Ok c =>
      match Size c with
      | Ok size => Ok (<["name"%string := CValue (VString name)]> (<["size"%string := CValue (VInt64 size)]>
          (<["dimension"%string := CValue (VInt (cc_Dimension (c_config c)))]>
            {["metric"%string := CValue (VString (cc_Metric (c_config c)))]})))
      | _ => Panic
      end
  | _ => Panic
  end.
Definition executeShowTables (_ : SQLQuery) : XM QueryResult :=
  s ← get;
  rows ← lift (mapM (show_row (fst s)) (List (fst s)));
  mret (mkResult QueryShowTables [] rows 0 [] [tx "name"; tx "points_count"; tx "dimension"; tx "metric"]).

Definition Execute (e : xenv D) (q : SQLQuery) : XM QueryResult :=
  match q_Type q with
  | QuerySelect => executeSelect q
  | QueryVectorSearch => executeVectorSearch e q
  | QueryInsert => executeInsert e q
  | QueryUpdate => executeUpdate q
  | QueryDelete => executeDelete q
  | QueryCreateTable => executeCreateTable e q
  | QueryDropTable => executeDropTable e q
  | QueryDescribe => executeDescribe q
  | QueryShowTables => executeShowTables q
  end.

Definition ExecuteRaw (e : xenv D) (sql : text) : XM QueryResult :=
  q ← lift (match Parse sql with Ok q => Ok q | Err er => Err (XParse er) | Panic => Panic end);
  Execute e q.
End executor.

(** ** What a condition means *)

Definition field_value (f : text) (p : payload) : value := getFieldValue (str f) p.

Section meaning.
Context {cm : CaseMap}.

Definition equal (a b : value) : bool := match compareEqual a b with Ok r => r | _ => false end.

Definition sat_op (op : string) (x v : value) : bool :=
  if String.eqb op "ne" then negb (equal x v)
  else if String.eqb op "lt" then compareNumeric x v <? 0
  else if String.eqb op "lte" then compareNumeric x v <=? 0
  else if String.eqb op "gt" then compareNumeric x v >? 0
  else if String.eqb op "gte" then 0 <=? compareNumeric x v
  else if String.eqb op "in" then match v with VList vs => existsb (equal x) vs | _ => true end
  else if String.eqb op "like" then match v with VString s => stringContains x (VString s) | _ => true end
  else if String.eqb op "is_null" then is_nil x
  else if String.eqb op "is_not_null" then negb (is_nil x)
  else equal x v.

Fixpoint sat (p : payload) (fe : FilterExpr) : bool :=
  match fe with
  | mkFE f op v [] [] None => sat_op op (field_value f p) v
  | mkFE _ _ _ [] [] (Some g) => negb (sat p g)
  | mkFE _ _ _ [] ors _ => existsb id (sat p <$> ors)
  | mkFE _ _ _ ands _ _ => forallb id (sat p <$> ands)
  end.

(** Comparisons with lists are left to IN. *)
Definition no_list_equality (v : value) (op : string) : Prop := op = "in"%string ∨ comparable v.

Inductive tame : FilterExpr → Prop :=
| tame_condition f op v : no_list_equality v op → (∀ vs, v = VList vs → Forall comparable vs) → tame (condition f op v)
| tame_negation fe : tame fe → tame (negation fe)
| tame_all fs : fs ≠ [] → Forall tame fs → tame (all fs)
| tame_any fs : fs ≠ [] → Forall tame fs → tame (any fs).

Lemma valueIn_exists x vs : Forall comparable vs → valueIn x vs = Ok (existsb (equal x) vs).
Proof.
  induction 1 as [|v vs Hv HF IH]; [done|]. cbn [valueIn existsb]. unfold equal at 1.
  destruct (compareEqual_Ok x v Hv) as [b ->]. rewrite Ok_bind. by destruct b.
Qed.

Lemma condition_meaning f op v p : no_list_equality v op → (∀ vs, v = VList vs → Forall comparable vs) →
  Evaluate (Some (buildFilter (condition f op v))) p = Ok (sat p (condition f op v)).
Proof.
  intros Hc Hl. cbn [buildFilter condition sat]. unfold sat_op. set (x := field_value f p).
  assert (Heq : op ≠ "in"%string → compareEqual x v = Ok (equal x v)).
  { intros Hop. destruct Hc as [?|Hc]; [done|]. unfold equal. by destruct (compareEqual_Ok x v Hc) as [b ->]. }
  destruct (String.eqb_spec op "eq") as [->|_].
  { change (compareEqual x v = Ok (equal x v)). by apply Heq. }
  destruct (String.eqb_spec op "ne") as [->|_].
  { change ((b ← compareEqual x v; Ok (negb b)) = Ok (negb (equal x v)) :> E bool). by rewrite Heq. }
  destruct (String.eqb op "lt"); [done|]. destruct (String.eqb op "lte"); [done|].
  destruct (String.eqb op "gt"); [done|]. destruct (String.eqb op "gte"); [done|].
  destruct (String.eqb_spec op "in") as [->|Hin].
  { destruct v; try done. change (valueIn x l = Ok (existsb (equal x) l)). apply valueIn_exists. by apply Hl. }
  destruct (String.eqb op "like"); [by destruct v|]. destruct (String.eqb op "is_null"); [done|].
  destruct (String.eqb op "is_not_null"); [done|].
  change (compareEqual x v = Ok (equal x v)). by apply Heq.
Qed.

Lemma all_of_built (ev : option Filter → E bool) (fs : list FilterExpr) (h : FilterExpr → bool) :
  Forall (λ f, ev (Some (buildFilter f)) = Ok (h f)) fs →
  all_of ev (Some <$> (buildFilter <$> fs)) = Ok (forallb id (h <$> fs)).
Proof. induction 1 as [|f fs Hf Hfs IH]; [done|]. cbn. rewrite Hf, Ok_bind. destruct (h f); [exact IH|done]. Qed.
Lemma any_of_built (ev : option Filter → E bool) (fs : list FilterExpr) (h : FilterExpr → bool) :
  Forall (λ f, ev (Some (buildFilter f)) = Ok (h f)) fs →
  any_of ev (Some <$> (buildFilter <$> fs)) = Ok (existsb id (h <$> fs)).
Proof. induction 1 as [|f fs Hf Hfs IH]; [done|]. cbn. rewrite Hf, Ok_bind. destruct (h f); [done|exact IH]. Qed.

Lemma tame_ind' (P : FilterExpr → Prop)
  (Hc : ∀ f op v, no_list_equality v op → (∀ vs, v = VList vs → Forall comparable vs) → P (condition f op v))
  (Hn : ∀ fe, tame fe → P fe → P (negation fe))
  (Ha : ∀ fs, fs ≠ [] → Forall P fs → P (all fs)) (Ho : ∀ fs, fs ≠ [] → Forall P fs → P (any fs)) : ∀ fe, tame fe → P fe.
Proof.
  fix IH 2. intros fe [f op v H1 H2|g H|fs Hne H|fs Hne H].
  - by apply Hc.
  - apply Hn; [done|]. by apply IH.
  - apply Ha; [done|]. clear Hne. induction H as [|g fs Hg Hfs IHfs]; constructor; [by apply IH|exact IHfs].
  - apply Ho; [done|]. clear Hne. induction H as [|g fs Hg Hfs IHfs]; constructor; [by apply IH|exact IHfs].
Qed.

Lemma filter_meaning fe p : tame fe → Evaluate (Some (buildFilter fe)) p = Ok (sat p fe).
Proof.
  induction 1 as [f op v H1 H2|g Hg IH|fs Hne IH|fs Hne IH] using tame_ind'.
  - by apply condition_meaning.
  - change (buildFilter (negation g)) with (Not (Some (buildFilter g))). rewrite Evaluate_Not, IH. done.
  - destruct fs as [|f fs]; [done|]. change (buildFilter (all (f :: fs))) with (And (Some <$> (buildFilter <$> f :: fs))).
    rewrite Evaluate_And. by apply (all_of_built _ (f :: fs) (sat p)).
  - destruct fs as [|f fs]; [done|]. change (buildFilter (any (f :: fs))) with (Or (Some <$> (buildFilter <$> f :: fs))).
    rewrite Evaluate_Or. unfold evaluateOr. by apply (any_of_built _ (f :: fs) (sat p)).
Qed.

Definition live_payload (p : Hnsw.Point (option payload)) : payload := default [] (p_Payload p).

Lemma filter_points_meaning fe ps : tame fe →
  filter_points (Some (buildFilter fe)) ps = Ok (filter (λ p, sat (live_payload p) fe) ps).
Proof.
  intros Hf. induction ps as [|p ps IH]; [done|]. cbn [filter_points]. rewrite filter_meaning by done. rewrite IH, Ok_bind.
  rewrite filter_cons. unfold live_payload. by destruct (sat _ fe).
Qed.
End meaning.

(** ** What a SELECT answers *)

(** At most a thousand rows; a hundred without a limit *)
Definition row_limit (q : SQLQuery) : Z := Z.min 1000 (if q_Limit q =? 0 then 100 else q_Limit q).

Definition fields (p : Hnsw.Point (option payload)) : payload := default [] (p_Payload p).

(** The cells of the row of a point. A list of columns with [*] or [payload] in it shows the
    payload and nothing else, a field called id in place of the point's own; any other list
    shows the identifier, the vector when it is named and the named fields the payload has. The payload is a map: no key occurs
    twice in it. *)
Definition row_of (columns : list text) (p : Hnsw.Point (option payload)) (r : row) : Prop :=
  NoDup (fields p).*1 → ∀ k c, r !! k = Some c ↔
    (if bool_decide (tx "*" ∈ columns ∨ tx "payload" ∈ columns) then
       (∃ v, (k, v) ∈ fields p ∧ c = CValue v) ∨
       (k = "id"%string ∧ "id"%string ∉ (fields p).*1 ∧ c = CValue (VString (p_ID p)))
     else
       (k = "id"%string ∧ c = CValue (VString (p_ID p))) ∨
       (k = "vector"%string ∧ tx "vector" ∈ columns ∧ c = CVector (p_Vector p)) ∨
       (k ≠ "id"%string ∧ k ≠ "vector"%string ∧ tx k ∈ columns ∧ ∃ v, (k, v) ∈ fields p ∧ c = CValue v)).

Lemma hasColumn_spec columns col : hasColumn columns col = true ↔ tx col ∈ columns ∨ tx "*" ∈ columns.
Proof.
  unfold hasColumn. rewrite existsb_exists. split.
  - intros (c & Hc%list_elem_of_In & [->%bool_decide_eq_true| ->%bool_decide_eq_true]%orb_true_iff); auto.
  - intros [H|H]; (eexists; split; [apply list_elem_of_In, H|]); apply orb_true_iff; [left|right]; by apply bool_decide_eq_true.
Qed.

Lemma set_payload_lookup (pl : payload) (r : row) k c : NoDup pl.*1 →
  set_payload (Some pl) r !! k = Some c ↔ (∃ v, (k, v) ∈ pl ∧ c = CValue v) ∨ (k ∉ pl.*1 ∧ r !! k = Some c).
Proof.
  unfold set_payload. cbn [default]. revert r. induction pl as [|[k' v'] pl IH]; intros r; cbn.
  { split; [intros ?; right; split; [by apply not_elem_of_nil|done]|].
    by intros [(? & ?%not_elem_of_nil & _)|[_ ?]]. }
  intros [Hk' Hnd]%NoDup_cons. rewrite IH by done.
  destruct (decide (k = k')) as [->|Hne].
  - rewrite lookup_insert_eq. split.
    + intros [(v & Hv & ->)|[_ [= <-]]]; left; [exists v|exists v']; (split; [|done]); [by right|by left].
    + intros [(v & [[= ->]|Hv]%elem_of_cons & ->)|[[? _]%not_elem_of_cons _]]; [by right|left; by exists v|done].
  - rewrite lookup_insert_ne by done. split.
    + intros [(v & Hv & ->)|[? ?]]; [left; exists v; split; [by right|done]|right; split; [|done]].
      by apply not_elem_of_cons.
    + intros [(v & [[= -> ->]|Hv]%elem_of_cons & ->)|[[_ ?]%not_elem_of_cons ?]]; [done|left; by exists v|by right].
Qed.

Lemma payload_find_spec (pl : payload) k v : NoDup pl.*1 → payload_find pl k = Some v ↔ (k, v) ∈ pl.
Proof.
  unfold payload_find. induction pl as [|[k' v'] pl IH]; cbn [list_find].
  { intros _. split; [done|]. by intros ?%not_elem_of_nil. }
  cbn [fmap list_fmap]. intros [Hk' Hnd]%NoDup_cons. rewrite elem_of_cons. destruct (decide _) as [E|E]; cbn in E.
  - subst k'. cbn. split; [by intros [= <-]; left|]. intros [[= ->]|Hv]; [done|].
    destruct Hk'. apply list_elem_of_fmap. by exists (k, v).
  - specialize (IH Hnd). destruct (list_find _ pl) as [[i [k2 v2]]|]; cbn in *; rewrite IH; split; auto; intros [[= -> ->]|]; done.
Qed.

(** The cell of a named column, over the one that is there *)
Definition column_cell (p : ScoredPoint) (k : string) (c : option cell) : option cell :=
  if String.eqb k "vector" then Some (CVector (sp_Vector p))
  else match payload_find (default [] (sp_Payload p)) k with Some v => Some (CValue v) | None => c end.

Lemma set_column_lookup (skip : list string) p (r : row) (col : string) k :
  (if bool_decide (col ∈ skip) then r
   else if String.eqb col "vector" then <["vector"%string := CVector (sp_Vector p)]> r
   else match payload_find (default [] (sp_Payload p)) col with Some v => <[col := CValue v]> r | None => r end) !! k =
  if bool_decide (k ∈ skip ∨ k ≠ col) then r !! k else column_cell p k (r !! k).
Proof.
  destruct (decide (k = col)) as [->|Hne].
  - destruct (decide (col ∈ skip)) as [Hs|Hs].
    { rewrite (bool_decide_eq_true_2 (col ∈ skip)), bool_decide_eq_true_2 by auto. done. }
    rewrite (bool_decide_eq_false_2 (col ∈ skip)), bool_decide_eq_false_2 by naive_solver. unfold column_cell.
    destruct (String.eqb_spec col "vector") as [->|_]; [by rewrite lookup_insert_eq|].
    destruct (payload_find _ col); [by rewrite lookup_insert_eq|done].
  - rewrite (bool_decide_eq_true_2 (_ ∨ _)) by auto. case_bool_decide; [done|].
    destruct (String.eqb_spec col "vector") as [->|_]; [by rewrite lookup_insert_ne|].
    destruct (payload_find _ col); [by rewrite lookup_insert_ne|done].
Qed.

Lemma set_columns_lookup skip columns p (r : row) k :
  set_columns skip columns p r !! k =
  if bool_decide (k ∈ skip ∨ tx k ∉ columns) then r !! k else column_cell p k (r !! k).
Proof.
  unfold set_columns. revert r. induction columns as [|col columns IH]; intros r.
  { rewrite bool_decide_eq_true_2; [done|]. right. apply not_elem_of_nil. }
  cbn [foldl]. cbv zeta. rewrite IH, set_column_lookup. clear IH.
  destruct (decide (k ∈ skip)) as [Hs|Hs].
  { rewrite (bool_decide_eq_true_2 (k ∈ skip ∨ tx k ∉ columns)), (bool_decide_eq_true_2 (k ∈ skip ∨ k ≠ _)) by auto.
    by rewrite bool_decide_eq_true_2 by auto. }
  destruct (decide (k = str col)) as [->|Hk].
  - rewrite (bool_decide_eq_false_2 (_ ∨ str col ≠ _)), tx_str by naive_solver.
    rewrite (bool_decide_eq_false_2 (_ ∨ col ∉ _ :: _)) by (rewrite not_elem_of_cons; naive_solver).
    case_bool_decide; [done|]. unfold column_cell. destruct (String.eqb _ _); [done|]. by destruct (payload_find _ _).
  - rewrite (bool_decide_eq_true_2 (_ ∨ k ≠ _)) by auto.
    assert (bool_decide (k ∈ skip ∨ tx k ∉ columns) = bool_decide (k ∈ skip ∨ tx k ∉ col :: columns)) as ->; [|done].
    apply bool_decide_ext. rewrite not_elem_of_cons. split; [|tauto]. intros [?|?]; [by left|]. right. split; [|done].
    intros E. apply Hk. by rewrite <- E, str_tx.
Qed.

Section select.
Context {Q D L : Type} {nq : NewQuantizer Q} {dbase : Database D} {logI : Log L} {durable : DurableLog L}.
Context {sorter : Sorter} {order : MapOrder string} {zorder : MapOrder Z}.
Context {json : Json} {digest : Digest} {cm : CaseMap} {up : UpperMap} {fl : FloatSyntax}.

Definition keeps (q : SQLQuery) (p : Hnsw.Point (option payload)) : bool :=
  match q_Filter q with Some fe => sat (live_payload p) fe | None => true end.

(** The points a table has for a query *)
Definition selected (q : SQLQuery) (t : table) : list (Hnsw.Point (option payload)) :=
  take (Z.to_nat (row_limit q)) (filter (λ p, keeps q p) (rows_live (t_rows t))).

(** The row of a scrolled point *)
Lemma select_row_of q p : row_of (q_Columns q) p (select_row (q_Columns q) (scroll_point (select_params q) p)).
Proof.
  intros Hnd k c. unfold select_row, scroll_point, select_params. cbn [s_WithPayload s_WithVector sp_Payload sp_ID].
  assert (hasColumn (q_Columns q) "*" || hasColumn (q_Columns q) "payload" =
    bool_decide (tx "*" ∈ q_Columns q ∨ tx "payload" ∈ q_Columns q)) as ->.
  { apply eq_true_iff_eq. rewrite orb_true_iff, !hasColumn_spec, bool_decide_eq_true. tauto. }
  case_bool_decide as Hall.
  - assert (∀ r : row, set_payload (p_Payload p) r = set_payload (Some (fields p)) r) as -> by (intros r; unfold set_payload, fields; by destruct (p_Payload p)).
    rewrite set_payload_lookup by done. split; (intros [H|[H1 H2]]; [by left|right]).
    + apply lookup_singleton_Some in H2 as [<- <-]. done.
    + destruct H2 as [H2 ->]. subst k. split; [done|]. by rewrite lookup_singleton_eq.
  - rewrite set_columns_lookup. unfold column_cell. cbn [sp_Payload sp_Vector]. fold (fields p).
    destruct (decide (k = "id"%string)) as [->|Hid].
    + rewrite bool_decide_eq_true_2 by (left; by apply list_elem_of_singleton). rewrite lookup_singleton_eq.
      split; [intros [= <-]; by left|]. by intros [[_ ->]|[[[=] _]|[? _]]].
    + rewrite lookup_singleton_ne by done. destruct (decide (tx k ∈ q_Columns q)) as [Hin|Hin].
      2: { rewrite bool_decide_eq_true_2 by auto. split; [done|]. intros [[? _]|[(-> & ? & _)|(_ & _ & ? & _)]]; done. }
      rewrite bool_decide_eq_false_2 by (intros [?%list_elem_of_singleton|?]; done).
      destruct (String.eqb_spec k "vector") as [->|Hv].
      * assert (hasColumn (q_Columns q) "vector" = true) as -> by (apply hasColumn_spec; by left).
        split; [intros [= <-]; right; by left|]. intros [[? _]|[(_ & _ & ->)|(_ & ? & _)]]; done.
      * assert (Hf : ∀ v, payload_find (fields p) k = Some v ↔ (k, v) ∈ fields p) by (intros v; by apply payload_find_spec).
        split.
        -- destruct (payload_find _ k) as [v|]; [|done]. intros [= <-]. right. right. split_and!; [done..|].
           exists v. split; [by apply Hf|done].
        -- intros [[? _]|[(? & _)|(_ & _ & _ & v & ->%Hf & ->)]]; done.
Qed.

Lemma clamp_pos z : 0 < clamp_limit z.
Proof. unfold clamp_limit. destruct (Z.leb_spec z 0); cbv zeta; [done|]. by destruct (Z.gtb_spec z 1000). Qed.

Lemma first_page params ps : s_Offset params = ""%string →
  ∃ next, scroll_page params ps = Ok (mkScrollResult (scroll_point params <$> take (Z.to_nat (clamp_limit (s_Limit params))) ps) next).
Proof.
  intros Ho. unfold scroll_page. rewrite Ho. cbn [String.eqb]. pose proof (clamp_pos (s_Limit params)) as Hc. set (n := clamp_limit _) in *.
  pose proof (len_nonneg ps). rewrite Z.add_0_l. set (e := if n >? len ps then len ps else n).
  assert (He : 0 ≤ e ≤ len ps) by (unfold e; destruct (Z.gtb_spec n (len ps)); lia).
  rewrite slice_ok by lia. rewrite Ok_bind.
  assert (Ht : take (Z.to_nat (e - 0)) (drop (Z.to_nat 0) ps) = take (Z.to_nat n) ps).
  { change (Z.to_nat 0) with 0%nat. rewrite drop_0, Z.sub_0_r. unfold e. destruct (Z.gtb_spec n (len ps)); [|done].
    unfold len in *. rewrite Nat2Z.id, !take_ge by lia. done. }
  rewrite Ht. by eexists.
Qed.

Lemma filter_true {A} (l : list A) : filter (λ _, true) l = l.
Proof. induction l as [|x l IH]; [done|]. rewrite filter_cons. destruct (decide _); [by f_equal|done]. Qed.

Lemma limit_clamped q : 0 ≤ q_Limit q → clamp_limit (s_Limit (select_params q)) = row_limit q.
Proof.
  intros H. unfold clamp_limit, row_limit, select_params. cbn [s_Limit].
  destruct (Z.leb_spec (q_Limit q) 0), (Z.eqb_spec (q_Limit q) 0); try lia; cbv zeta; [done|].
  rewrite (proj2 (Z.leb_gt _ _)) by lia. rewrite Z.gtb_ltb. destruct (Z.ltb_spec 1000 (q_Limit q)); lia.
Qed.

(** C18. A SELECT statement in the printed form of [show_select] (a statement that
    [select_ok] admits: no floats, quotes, parentheses, commas, comparison signs or clause
    words in its literals, no keywords in its field names), with a condition that compares
    a field with lists only by IN: on a server that stands for tables it answers a row for
    each of the first points, in the order they were stored, whose payload satisfies the
    condition, up to the limit (a hundred when there is none) and at most a thousand; the
    cells of each row are those [row_of] spells out for the columns. It changes nothing.
    The order and the offset it names play no part. *)
Theorem select_answers (e : xenv D) q w (m : Manager Q D) (l : L) db :
  stands w m db → select_ok q → match q_Filter q with Some fe => tame fe | None => True end →
  match db !! str (q_Collection q) with
  | Some (_, t) =>
      ∃ rows, ExecuteRaw e (show_select q) (m, l) =
          (Ok (mkResult QuerySelect (q_Collection q) rows 0 [] (q_Columns q)), (m, l)) ∧
        Forall2 (row_of (q_Columns q)) (selected q t) rows
  | None => ExecuteRaw e (show_select q) (m, l) = (Err (XNotFound (q_Collection q)), (m, l))
  end.
Proof.
  intros Hst Hok Htame. unfold ExecuteRaw. rewrite (select_reads q Hok). unfold Execute. unfold_M. cbn [lift].
  rewrite (so_type _ Hok). unfold executeSelect, with_collection, on_collection, Manager.Get. unfold_M.
  pose proof (proj2 Hst (str (q_Collection q))) as Hm. unfold matches in Hm.
  destruct (m_collections m !! str (q_Collection q)) as [c|] eqn:Ec, (db !! str (q_Collection q)) as [[cfg t]|] eqn:Edb; try done.
  exists (select_row (q_Columns q) <$> (scroll_point (select_params q) <$> selected q t)).
  split; [|apply Forall2_fmap_r, Forall2_fmap_r, Forall_Forall2_diag, Forall_true; intros p; apply select_row_of].
  destruct Hm as (Hr & _). assert (Hself : set_collections (<[str (q_Collection q) := c]> (m_collections m)) m = m).
  { unfold set_collections. rewrite insert_id by done. by destruct m. }
  unfold on_coll. rewrite (Scroll_acts (select_params q) c t Hr). unfold t_scroll.
  assert (Hf : (match s_Filter (select_params q) with
     | Some _ => filter_points (s_Filter (select_params q)) (rows_live (t_rows t))
     | None => Ok (rows_live (t_rows t)) end) = Ok (filter (λ p, keeps q p) (rows_live (t_rows t)))).
  { unfold keeps, select_params. cbn [s_Filter]. destruct (q_Filter q) as [fe|]; cbn; [by apply filter_points_meaning|by rewrite filter_true]. }
  rewrite Hf, Ok_bind. destruct (first_page (select_params q) (filter (λ p, keeps q p) (rows_live (t_rows t)))) as [next ->]; [done|].
  rewrite (limit_clamped q) by apply (so_limit _ Hok). fold (selected q t). cbn. by rewrite Hself.
Qed.
End select.

(** ** Witness: one point without a payload, on the server of [RecoveryTheorems] *)
#[local] Existing Instance demo_quantizers.
#[local] Existing Instance demo_database.
#[local] Existing Instance demo_strings.
#[local] Existing Instance demo_numbers.
#[local] Existing Instance demo_digest.
#[local] Existing Instance insertion_sorter.
#[local] Existing Instance ascii_case.
#[local] Existing Instance list_log.
#[local] Existing Instance list_durable.
#[local] Existing Instance demo_upper.
#[local] Existing Instance demo_floats.

Definition demo_statement : SQLQuery :=
  mkQuery QuerySelect (tx "docs") [tx "id"; tx "x"] [] [] 3 0 (Some (negation (condition (tx "x") "eq" (VInt64 5)))) [] false [] None.

Lemma demo_statement_ok : select_ok demo_statement.
Proof.
  constructor; cbn [demo_statement q_Type q_Vector q_VectorName q_Points q_CollectionConfig q_Collection q_Columns q_Filter q_OrderBy q_OrderDesc q_Limit q_Offset].
  - done.
  - done.
  - split; [done|by repeat constructor].
  - split; [done|]. repeat constructor; done.
  - split_and!; [|by repeat constructor|reflexivity]. apply disj_conj, conj_lit, lit_negation, lit_condition.
    split; [apply (wf_one_word "x"); [done|done|decided]|]. left. split; [decided|]. left. split; apply Z.leb_le; reflexivity.
  - done.
  - split; apply Z.leb_le; reflexivity.
  - split; apply Z.leb_le; reflexivity.
  - by vm_compute.
Qed.

Definition demo_xenv : xenv (list (string * list value)) := mkXenv 0 0 flats [] true true true.

Lemma select_answers_witness :
  str (show_select demo_statement) = "SELECT id,x FROM docs WHERE NOT x = 5 LIMIT 3"%string ∧
  (∃ row, ExecuteRaw demo_xenv (show_select demo_statement) demo_state =
     (Ok (mkResult QuerySelect (tx "docs") [row] 0 [] [tx "id"; tx "x"]), demo_state) ∧
     row !! "id"%string = Some (CValue (VString "a")) ∧ row !! "x"%string = None).
Proof.
  split; [reflexivity|].
  pose proof (co_stands _ _ _ _ demo_consistent) as Hst. destruct demo_state as [m l]. cbn [fst] in Hst.
  pose proof (select_answers demo_xenv demo_statement true m l demo_tables Hst demo_statement_ok) as H.
  destruct H as (rows & Hr & Hrows); [apply tame_negation, tame_condition; [right; exact I|intros vs; discriminate]|].
  destruct rows as [|row [|]]; [inversion Hrows| |inversion Hrows as [|? ? ? ? _ Hn]; inversion Hn].
  exists row. split; [exact Hr|]. apply Forall2_cons_1 in Hrows as [Hrow _].
  assert (Hnd : NoDup ([] : list string)) by constructor.
  split; [apply (Hrow Hnd); left; split; reflexivity|].
  apply eq_None_not_Some. intros [c Hc%(Hrow Hnd)]. revert Hc.
  intros [[[=] _]|[([=] & _)|(_ & _ & _ & v & Hv & _)]]. by apply not_elem_of_nil in Hv.
Defined.
