(* ===== verification/Quantization.v ===== *)
(** * pkg/quantization: compressed vectors

    The quantizers of [quantization.go] and [pq.go]: no compression, a byte per
    dimension, a bit per dimension, and product codes. A method that writes a
    field of its receiver is a computation on the receiver; the others read it.
    The locks order whole methods, so a method is one atomic step. Indexes that
    leave a slice, and slices made with a negative length, panic. *)
From stdpp Require Import base list numbers strings.
From Stdlib Require Import Strings.Byte ZArith Lia Floats.SpecFloat.
From S2P Require Import Prelude GoLoops Float32 Binary Hnsw HnswQuery Distance.

#[local] Open Scope Z_scope.

Inductive quantError :=
| ErrInvalidDimension | ErrNoVectors | ErrNotEnough | ErrUntrained | ErrEncodedLength | ErrUnknownType.

#[export] Instance quantError_eq_dec : EqDecision quantError.
Proof. solve_decision. Defined.

Definition f32_ratio (n d : Z) : f32 := f32_div (f32_of_Z n) (f32_of_Z d).
(** [1e-8] *)
Definition epsilon : f32 := f32_ratio 1 100000000.

(** [int(x)] of a float32 is the truncation of the same value; [byte(x)] is the
    low byte of a conversion to 32 bits. *)
Definition int_of_f32 (x : f32) : Z := int_of_f64 x.
Definition byte_of_f32 (x : f32) : byte :=
  let z := int_of_f32 x in
  byte_of (if (MinInt32 <=? z) && (z <=? MaxInt32) then z else MinInt32).

(** ** Helper functions *)

(** [popcount]: the byte halves in each round, so eight rounds are enough. *)
Fixpoint popcount_loop (fuel : nat) (b count : Z) : Z :=
  match fuel with
  | O => count
  | S fuel => if b =? 0 then count else popcount_loop fuel (Z.shiftr b 1) (count + Z.land b 1)
  end.
Definition popcount (b : byte) : Z := popcount_loop 8 (byte_val b) 0.

Definition cosineDistance (a b : vector) : result quantError f32 :=
  '(dotProduct, normA, normB) ←
    loop (λ i x '(d, na, nb), y ← index b (Z.of_nat i);
            Ok (f32_add d (f32_mul x y), f32_add na (f32_mul x x), f32_add nb (f32_mul y y)))
      0 a (f32_zero, f32_zero, f32_zero);
  Ok (if flt normA epsilon || flt normB epsilon then f32_one
      else f32_sub f32_one (f32_div dotProduct (f32_mul (sqrt32 normA) (sqrt32 normB)))).

(** [sortFloat32s]: the sorted prefix is kept from its last element to its
    first, the order in which [key] passes it. *)
Fixpoint shift_in (key : f32) (prefix : list f32) : list f32 :=
  match prefix with
  | x :: rest => if fgt x key then x :: shift_in key rest else key :: prefix
  | [] => [key]
  end.
Definition sortFloat32s (s : list f32) : list f32 :=
  reverse (foldl (λ prefix key, shift_in key prefix) [] s).

(** ** NoneQuantizer *)
Record NoneQuantizer := mkNone { none_dimension : Z }.
Definition NewNoneQuantizer (dimension : Z) : NoneQuantizer := mkNone dimension.

Definition None_Encode (q : NoneQuantizer) (v : vector) : result quantError (list byte) :=
  Ok (v ≫= putFloat32).

(** [binary.LittleEndian.Uint32(data[i*4:])] *)
Definition uint32_at (data : list byte) (i : Z) : result quantError Z :=
  rest ← slice data (i * 4) (len data);
  if len rest <? 4 then Panic else Ok (le_get (take 4 rest)).
Definition None_Decode (q : NoneQuantizer) (data : list byte) : result quantError vector :=
  v ← make (none_dimension q) f32_zero;
  loop (λ i _ v, b ← uint32_at data (Z.of_nat i); assign v (Z.of_nat i) (Float32frombits b)) 0 v v.
Definition None_Distance (q : NoneQuantizer) (query : vector) (quantized : list byte) : result quantError f32 :=
  v ← None_Decode q quantized; cosineDistance query v.
Definition None_BatchDistance (q : NoneQuantizer) (query : vector) (quantized : list (list byte)) :
    result quantError (list f32) :=
  loop (λ _ data ds, d ← None_Distance q query data; Ok (ds ++ [d])) 0 quantized [].
Definition None_EncodedSize (q : NoneQuantizer) : Z := none_dimension q * 4.
Definition None_CompressionRatio : f32 := f32_one.
Definition None_Train (vectors : list vector) : result quantError unit := Ok tt.

(** ** ScalarQuantizer *)
Definition maxDimension : Z := 65536.

Record ScalarQuantizer := mkScalar {
  sq_dimension : Z;
  sq_quantile : f32;
  sq_mins : list f32;
  sq_maxs : list f32;
  sq_scales : list f32;
  sq_trained : bool
}.
#[local] Abbreviation Scalar := (M ScalarQuantizer quantError).

Definition NewScalarQuantizer (dimension : Z) (quantile : f32) : result quantError ScalarQuantizer :=
  if (dimension <=? 0) || (dimension >? maxDimension) then Err ErrInvalidDimension else
  let zeros := replicate (Z.to_nat dimension) f32_zero in
  Ok (mkScalar dimension quantile zeros zeros zeros false).

(** [q.mins[i] = x], [q.maxs[i] = x], [q.scales[i] = x] and [q.trained = true] *)
Definition set_min (i : Z) (x : f32) : Scalar unit :=
  q ← get; mins ← lift (assign (sq_mins q) i x);
  put (mkScalar (sq_dimension q) (sq_quantile q) mins (sq_maxs q) (sq_scales q) (sq_trained q)).
Definition set_max (i : Z) (x : f32) : Scalar unit :=
  q ← get; maxs ← lift (assign (sq_maxs q) i x);
  put (mkScalar (sq_dimension q) (sq_quantile q) (sq_mins q) maxs (sq_scales q) (sq_trained q)).
Definition set_scale (i : Z) (x : f32) : Scalar unit :=
  q ← get; scales ← lift (assign (sq_scales q) i x);
  put (mkScalar (sq_dimension q) (sq_quantile q) (sq_mins q) (sq_maxs q) scales (sq_trained q)).
Definition set_trained : Scalar unit :=
  modify (λ q, mkScalar (sq_dimension q) (sq_quantile q) (sq_mins q) (sq_maxs q) (sq_scales q) true).

(** [dimValues]: the values of each dimension, in the order of the vectors *)
Definition collect (dimension : Z) (vectors : list vector) : result quantError (list (list f32)) :=
  dims ← make dimension [];
  loop (λ _ vec dims,
    loop (λ i v dims, vs ← index dims (Z.of_nat i); assign dims (Z.of_nat i) (vs ++ [v])) 0 vec dims)
    0 vectors dims.

(** The positions of the two quantiles among [n] sorted values *)
Definition quantile_range (quantile : f32) (n : Z) : Z * Z :=
  let lowIdx := int_of_f32 (f32_mul (f32_of_Z n) (f32_sub f32_one quantile)) in
  let highIdx := int_of_f32 (f32_mul (f32_of_Z n) quantile) in
  (if lowIdx <? 0 then 0 else lowIdx, if highIdx >=? n then n - 1 else highIdx).

Definition calibrate (dimValues : list (list f32)) (i : Z) : Scalar unit :=
  values ← lift (index dimValues i);
  let s := sortFloat32s values in
  q ← get;
  let '(lowIdx, highIdx) := quantile_range (sq_quantile q) (len s) in
  mn ← lift (index s lowIdx); set_min i mn;;
  mx ← lift (index s highIdx); set_max i mx;;
  let rang := f32_sub mx mn in
  let rang := if flt rang epsilon then f32_one else rang in
  set_scale i (f32_div (f32_of_Z 255) rang).

Definition Scalar_Train (vectors : list vector) : Scalar unit :=
  if len vectors =? 0 then throw ErrNoVectors else
  q ← get;
  dimValues ← lift (collect (sq_dimension q) vectors);
  loop (λ _ i _, calibrate dimValues i) 0 (below (sq_dimension q)) tt;;
  set_trained.

(** [_ = f()] *)
Definition ignore {S E} (f : M S E unit) : M S E unit := λ s,
  match f s with (Err _, s) => (Ok tt, s) | r => r end.

(** One value: clamped to the range of its dimension and scaled. *)
Definition quantize (mn mx scale v : f32) : byte :=
  let v := if flt v mn then mn else v in
  let v := if fgt v mx then mx else v in
  let quantized := f32_mul (f32_sub v mn) scale in
  byte_of_f32 (if fgt quantized (f32_of_Z 255) then f32_of_Z 255 else quantized).

Definition Scalar_code (q : ScalarQuantizer) (v : vector) : result quantError (list byte) :=
  data ← make (sq_dimension q) x00;
  loop (λ i v data,
    mn ← index (sq_mins q) (Z.of_nat i); mx ← index (sq_maxs q) (Z.of_nat i);
    scale ← index (sq_scales q) (Z.of_nat i);
    assign data (Z.of_nat i) (quantize mn mx scale v)) 0 v data.

Definition Scalar_Encode (v : vector) : Scalar (list byte) :=
  q ← get;
  when (negb (sq_trained q)) (ignore (Scalar_Train [v]));;
  q ← get; lift (Scalar_code q v).

(** [float32(b)/q.scales[i] + q.mins[i]] *)
Definition dequantize (q : ScalarQuantizer) (i : Z) (b : byte) : result quantError f32 :=
  scale ← index (sq_scales q) i; mn ← index (sq_mins q) i;
  Ok (f32_add (f32_div (f32_of_Z (byte_val b)) scale) mn).

Definition Scalar_Decode (q : ScalarQuantizer) (data : list byte) : result quantError vector :=
  v ← make (sq_dimension q) f32_zero;
  loop (λ i b v, x ← dequantize q (Z.of_nat i) b; assign v (Z.of_nat i) x) 0 data v.

Definition Scalar_Distance (q : ScalarQuantizer) (query : vector) (quantized : list byte) :
    result quantError f32 :=
  '(dotProduct, queryNorm, vecNorm) ←
    loop (λ i qVal '(d, qn, vn),
            b ← index quantized (Z.of_nat i); vVal ← dequantize q (Z.of_nat i) b;
            Ok (f32_add d (f32_mul qVal vVal), f32_add qn (f32_mul qVal qVal), f32_add vn (f32_mul vVal vVal)))
      0 query (f32_zero, f32_zero, f32_zero);
  Ok (if flt queryNorm epsilon || flt vecNorm epsilon then f32_one
      else f32_sub f32_one (f32_div dotProduct (f32_mul (sqrt32 queryNorm) (sqrt32 vecNorm)))).
Definition Scalar_BatchDistance (q : ScalarQuantizer) (query : vector) (quantized : list (list byte)) :
    result quantError (list f32) :=
  loop (λ _ data ds, d ← Scalar_Distance q query data; Ok (ds ++ [d])) 0 quantized [].
Definition Scalar_EncodedSize (q : ScalarQuantizer) : Z := sq_dimension q.
Definition Scalar_CompressionRatio : f32 := f32_of_Z 4.

(** ** BinaryQuantizer *)
Record BinaryQuantizer := mkBinary {
  bq_dimension : Z;
  bq_thresholds : list f32;
  bq_trained : bool
}.
#[local] Abbreviation Bin := (M BinaryQuantizer quantError).

Definition NewBinaryQuantizer (dimension : Z) : result quantError BinaryQuantizer :=
  if (dimension <=? 0) || (dimension >? maxDimension) then Err ErrInvalidDimension else
  Ok (mkBinary dimension (replicate (Z.to_nat dimension) f32_zero) false).

Definition set_threshold (i : Z) (x : f32) : Bin unit :=
  q ← get; ts ← lift (assign (bq_thresholds q) i x);
  put (mkBinary (bq_dimension q) ts (bq_trained q)).

Definition Binary_Train (vectors : list vector) : Bin unit :=
  if len vectors =? 0 then throw ErrNoVectors else
  q ← get;
  loop (λ _ i _,
    sum ← lift (loop (λ _ vec sum, x ← index vec i; Ok (f32_add sum x)) 0 vectors f32_zero);
    set_threshold i (f32_div sum (f32_of_Z (len vectors)))) 0 (below (bq_dimension q)) tt;;
  modify (λ q, mkBinary (bq_dimension q) (bq_thresholds q) true).

(** The thresholds are zero until the first training. *)
Definition default_thresholds : Bin unit :=
  modify (λ q, mkBinary (bq_dimension q) ((λ _, f32_zero) <$> bq_thresholds q) true).

Definition set_bit (data : list byte) (i : Z) : result quantError (list byte) :=
  b ← index data (i / 8);
  assign data (i / 8) (byte_of (Z.lor (byte_val b) (Z.shiftl 1 (i `mod` 8)))).

Definition Binary_EncodedSize (q : BinaryQuantizer) : Z := (bq_dimension q + 7) `quot` 8.

Definition Binary_code (q : BinaryQuantizer) (v : vector) : result quantError (list byte) :=
  data ← make ((bq_dimension q + 7) `quot` 8) x00;
  loop (λ i x data, t ← index (bq_thresholds q) (Z.of_nat i);
          if fge x t then set_bit data (Z.of_nat i) else Ok data) 0 v data.

Definition Binary_Encode (v : vector) : Bin (list byte) :=
  q ← get;
  when (negb (bq_trained q)) default_thresholds;;
  q ← get; lift (Binary_code q v).

Definition Binary_Decode (q : BinaryQuantizer) (data : list byte) : result quantError vector :=
  v ← make (bq_dimension q) f32_zero;
  loop (λ _ i v, b ← index data (i / 8);
          assign v i (if negb (Z.land (byte_val b) (Z.shiftl 1 (i `mod` 8)) =? 0)
                      then f32_one else f32_of_Z (-1))) 0 (below (bq_dimension q)) v.

(** The differing bits of a code and the query's *)
Definition hamming (queryBinary quantized : list byte) : result quantError Z :=
  loop (λ i b hammingDist, a ← index queryBinary (Z.of_nat i);
          Ok (hammingDist + popcount (byte_of (Z.lxor (byte_val a) (byte_val b))))) 0 quantized 0.

(** [queryBinary, _ := q.Encode(query)]: [nil] when it fails *)
Definition encode_query (query : vector) : Bin (list byte) := λ q,
  match Binary_Encode query q with (Err _, q) => (Ok [], q) | r => r end.

Definition Binary_Distance (query : vector) (quantized : list byte) : Bin f32 :=
  queryBinary ← encode_query query;
  q ← get; h ← lift (hamming queryBinary quantized);
  mret (f32_div (f32_of_Z h) (f32_of_Z (bq_dimension q))).

Definition Binary_BatchDistance (query : vector) (quantized : list (list byte)) : Bin (list f32) :=
  queryBinary ← encode_query query;
  q ← get;
  loop (λ _ data ds, h ← lift (hamming queryBinary data);
          mret (ds ++ [f32_div (f32_of_Z h) (f32_of_Z (bq_dimension q))])) 0 quantized [].
Definition Binary_CompressionRatio : f32 := f32_of_Z 32.

(** ** ProductQuantizer *)
Record ProductQuantizer := mkPQ {
  pq_dimension : Z;
  pq_m : Z;
  pq_k : Z;
  pq_codebooks : list (list (list f32));
  pq_trained : bool
}.
#[local] Abbreviation PQ := (M ProductQuantizer quantError).

(** [None] is the nil pointer. *)
Definition NewProductQuantizer (dimension m k : Z) : result quantError (option ProductQuantizer) :=
  if m =? 0 then Panic else
  if negb (dimension `rem` m =? 0) then Ok None else
  codebooks ← make m []; Ok (Some (mkPQ dimension m k codebooks false)).

Definition subDim (q : ProductQuantizer) : Z := pq_dimension q `quot` pq_m q.
(** [vector[i*subDim : (i+1)*subDim]] *)
Definition segment (q : ProductQuantizer) (v : vector) (i : Z) : result quantError vector :=
  slice v (i * subDim q) ((i + 1) * subDim q).

Definition set_codebook (i : Z) (cs : list (list f32)) : PQ unit :=
  q ← get; books ← lift (assign (pq_codebooks q) i cs);
  put (mkPQ (pq_dimension q) (pq_m q) (pq_k q) books (pq_trained q)).
Definition set_centroid (i j : Z) (c : list f32) : PQ unit :=
  q ← get; cs ← lift (index (pq_codebooks q) i); cs ← lift (assign cs j c); set_codebook i cs.

Definition PQ_Train (vectors : list vector) : PQ unit :=
  q ← get;
  if len vectors <? pq_k q then throw ErrNotEnough else
  loop (λ _ i _,
    row ← lift (make (pq_k q) []); set_codebook i row;;
    loop (λ _ j _,
      zeros ← lift (make (subDim q) f32_zero); set_centroid i j zeros;;
      v ← lift (index vectors j); sub ← lift (segment q v i);
      set_centroid i j (go_copy zeros sub)) 0 (below (pq_k q)) tt) 0 (below (pq_m q)) tt;;
  modify (λ q, mkPQ (pq_dimension q) (pq_m q) (pq_k q) (pq_codebooks q) true).

(** The squared distance added up over the [n] dimensions of a segment *)
Definition sub_dist (n : Z) (subVec centroid : list f32) (start : f32) : result quantError f32 :=
  loop (λ _ k dist, x ← index subVec k; y ← index centroid k;
          let diff := f32_sub x y in Ok (f32_add dist (f32_mul diff diff))) 0 (below n) start.

Definition centroid_at (q : ProductQuantizer) (i j : Z) : result quantError (list f32) :=
  cs ← index (pq_codebooks q) i; index cs j.

(** The nearest centroid of segment [i] *)
Definition nearest (q : ProductQuantizer) (subVec : list f32) (i : Z) : result quantError (f32 * Z) :=
  loop (λ _ j '(bestDist, bestIdx),
    centroid ← centroid_at q i j;
    dist ← sub_dist (subDim q) subVec centroid f32_zero;
    Ok (if flt dist bestDist then (dist, j) else (bestDist, bestIdx))) 0 (below (pq_k q)) (MaxFloat32, 0).

Definition PQ_Encode (q : ProductQuantizer) (v : vector) : result quantError (list byte) :=
  if negb (pq_trained q) then Err ErrUntrained else
  encoded ← make (pq_m q) x00;
  loop (λ _ i encoded, subVec ← segment q v i; '(_, bestIdx) ← nearest q subVec i;
          assign encoded i (byte_of bestIdx)) 0 (below (pq_m q)) encoded.

Definition PQ_Decode (q : ProductQuantizer) (data : list byte) : result quantError vector :=
  if negb (len data =? pq_m q) then Err ErrEncodedLength else
  v ← make (pq_dimension q) f32_zero;
  loop (λ _ i v,
    b ← index data i; centroid ← centroid_at q i (byte_val b);
    window ← segment q v i;
    Ok (take (Z.to_nat (i * subDim q)) v ++ go_copy window centroid ++ drop (Z.to_nat ((i + 1) * subDim q)) v))
    0 (below (pq_m q)) v.

Definition PQ_Distance (q : ProductQuantizer) (query : vector) (quantized : list byte) : result quantError f32 :=
  loop (λ _ i totalDist,
    subQuery ← segment q query i;
    b ← index quantized i; centroid ← centroid_at q i (byte_val b);
    sub_dist (subDim q) subQuery centroid totalDist) 0 (below (pq_m q)) f32_zero.

(** The distance of each segment of the query to each centroid *)
Definition adc_table (q : ProductQuantizer) (query : vector) : result quantError (list (list f32)) :=
  table ← make (pq_m q) [];
  loop (λ _ i table,
    row ← make (pq_k q) f32_zero; subQuery ← segment q query i;
    row ← loop (λ _ j row, centroid ← centroid_at q i j;
                  dist ← sub_dist (subDim q) subQuery centroid f32_zero; assign row j dist)
            0 (below (pq_k q)) row;
    assign table i row) 0 (below (pq_m q)) table.

Definition table_dist (m : Z) (table : list (list f32)) (data : list byte) : result quantError f32 :=
  loop (λ _ j dist, row ← index table j; b ← index data j; d ← index row (byte_val b);
          Ok (f32_add dist d)) 0 (below m) f32_zero.

Definition PQ_BatchDistance (q : ProductQuantizer) (query : vector) (quantized : list (list byte)) :
    result quantError (list f32) :=
  table ← adc_table q query;
  loop (λ _ data ds, d ← table_dist (pq_m q) table data; Ok (ds ++ [d])) 0 quantized [].

Definition PQ_EncodedSize (q : ProductQuantizer) : Z := pq_m q.
Definition PQ_CompressionRatio (q : ProductQuantizer) : f32 :=
  f32_div (f32_of_Z (pq_dimension q * 4)) (f32_of_Z (pq_m q)).

(** ** Configuration and construction *)
Definition TypeNone : string := "none".
Definition TypeScalar : string := "scalar".
Definition TypeBinary : string := "binary".
Definition TypePQ : string := "pq".

Record Config := mkConfig {
  qc_Type : string;
  qc_Rescore : bool;
  qc_RescoreLimit : Z;
  qc_AlwaysRam : bool;
  qc_ScalarType : string;
  qc_ScalarQuantile : f32;
  qc_PQSegments : Z;
  qc_PQCentroids : Z
}.

Definition DefaultConfig : Config :=
  mkConfig TypeNone true 100 true "int8" (f32_ratio 99 100) 8 256.

(** The four implementations of the interface; a product quantizer may be a nil
    pointer in a non-nil interface. *)
Inductive quantizer :=
| QNone (q : NoneQuantizer)
| QScalar (q : ScalarQuantizer)
| QBinary (q : BinaryQuantizer)
| QPQ (q : option ProductQuantizer).

Definition New (cfg : Config) (dimension : Z) : result quantError quantizer :=
  if String.eqb (qc_Type cfg) TypeNone then Ok (QNone (NewNoneQuantizer dimension))
  else if String.eqb (qc_Type cfg) TypeScalar then
    q ← NewScalarQuantizer dimension (qc_ScalarQuantile cfg); Ok (QScalar q)
  else if String.eqb (qc_Type cfg) TypeBinary then
    q ← NewBinaryQuantizer dimension; Ok (QBinary q)
  else if String.eqb (qc_Type cfg) TypePQ then
    q ← NewProductQuantizer dimension (qc_PQSegments cfg) (qc_PQCentroids cfg); Ok (QPQ q)
  else Err ErrUnknownType.

(** The interface's methods on whichever implementation is there *)
Definition Encode (q : quantizer) (v : vector) : result quantError (list byte) * quantizer :=
  match q with
  | QNone n => (None_Encode n v, q)
  | QScalar s => let '(r, s) := Scalar_Encode v s in (r, QScalar s)
  | QBinary b => let '(r, b) := Binary_Encode v b in (r, QBinary b)
  | QPQ (Some p) => (PQ_Encode p v, q)
  | QPQ None => (Panic, q)
  end.
Definition quant_Distance (q : quantizer) (query : vector) (code : list byte) : result quantError f32 * quantizer :=
  match q with
  | QNone n => (None_Distance n query code, q)
  | QScalar s => (Scalar_Distance s query code, q)
  | QBinary b => let '(r, b) := Binary_Distance query code b in (r, QBinary b)
  | QPQ (Some p) => (PQ_Distance p query code, q)
  | QPQ None => (Panic, q)
  end.
Definition quant_Train (q : quantizer) (vectors : list vector) : result quantError unit * quantizer :=
  match q with
  | QNone n => (None_Train vectors, q)
  | QScalar s => let '(r, s) := Scalar_Train vectors s in (r, QScalar s)
  | QBinary b => let '(r, b) := Binary_Train vectors b in (r, QBinary b)
  | QPQ (Some p) => let '(r, p) := PQ_Train vectors p in (r, QPQ (Some p))
  | QPQ None => (Panic, q)
  end.
