(* ===== verification/QuantBits.v ===== *)
(** * pkg/quantization: bit codes

    The codes of the binary quantizer read as lists of bits: encoding sets the bit of each dimension on the upper
    side of its threshold, and the Hamming distance counts the dimensions on
    which two codes differ. *)
From stdpp Require Import base list numbers strings.
From Stdlib Require Import Strings.Byte ZArith Lia Floats.SpecFloat.
From S2P Require Import Prelude GoLoops Float32 Binary Hnsw HnswQuery Distance Quantization.

#[local] Open Scope Z_scope.

(** ** Finite values *)
Definition finite (x : f32) : Prop :=
  match x with S754_zero _ | S754_finite _ _ _ => True | _ => False end.

Lemma f32_sub_diag x : finite x → f32_sub x x = f32_zero.
Proof.
  destruct x as [s|s| |s m e]; intros H; try done; [by destruct s|].
  unfold f32_sub, SFsub. by rewrite Z.sub_diag.
Qed.

(** ** Bytes as bits *)
Definition byte_bits (b : byte) : list bool := (λ i, Z.testbit (byte_val b) (Z.of_nat i)) <$> seq 0 8.
Definition bits (data : list byte) : list bool := data ≫= byte_bits.
Definition count (bs : list bool) : Z := foldr (λ (b : bool) n, (if b then 1 else 0) + n) 0 bs.

(** A decidable fact of every byte holds when it does of the 256 of them. *)
Definition all_bytes : list byte := byte_of <$> below 256.
Lemma all_bytes_total (P : byte → Prop) `{!∀ b, Decision (P b)} :
  bool_decide (Forall P all_bytes) = true → ∀ b, P b.
Proof.
  intros H%bool_decide_eq_true_1 b. rewrite Forall_forall in H. apply H.
  apply list_elem_of_fmap. exists (byte_val b). split; [by rewrite byte_of_val|].
  apply list_elem_of_fmap. exists (Z.to_nat (byte_val b)). pose proof (byte_val_range b).
  split; [lia|]. apply elem_of_seq. lia.
Qed.

Ltac by_bytes :=
  match goal with |- ∀ b : byte, @?P b => apply (all_bytes_total P) end; by vm_compute.

Lemma length_byte_bits b : length (byte_bits b) = 8%nat.
Proof. done. Qed.
Lemma length_bits data : length (bits data) = (8 * length data)%nat.
Proof.
  induction data as [|b data IH]; [done|]. cbn [bits mbind list_bind].
  rewrite length_app. unfold bits in IH. rewrite IH. cbn. lia.
Qed.
Lemma bits_app a b : bits (a ++ b) = bits a ++ bits b.
Proof. unfold bits. apply bind_app. Qed.

(** [popcount] counts the bits that are set. *)
Lemma popcount_bits b : popcount b = count (byte_bits b).
Proof. revert b. by_bytes. Qed.

Lemma byte_val_testbit_high b i : 8 ≤ i → Z.testbit (byte_val b) i = false.
Proof.
  intros Hi. pose proof (byte_val_range b).
  rewrite <- (Z.mod_small (byte_val b) (2 ^ 8)) by lia. by apply Z.mod_pow2_bits_high.
Qed.

Lemma byte_bits_inj b c : byte_bits b = byte_bits c → b = c.
Proof.
  intros H. apply byte_val_inj, Z.bits_inj'. intros n Hn.
  destruct (decide (n < 8)) as [Hlt|Hge]; [|by rewrite !byte_val_testbit_high by lia].
  assert (E : byte_bits b !! Z.to_nat n = byte_bits c !! Z.to_nat n) by by rewrite H.
  unfold byte_bits in E. rewrite !list_lookup_fmap, lookup_seq_lt in E by lia.
  cbn in E. injection E as E. by rewrite Z2Nat.id in E by lia.
Qed.

Lemma bits_inj a b : bits a = bits b → a = b.
Proof.
  revert b. induction a as [|x a IH]; intros [|y b] H; [done|..].
  - apply (f_equal length) in H. rewrite !length_bits in H. cbn in H. lia.
  - apply (f_equal length) in H. rewrite !length_bits in H. cbn in H. lia.
  - change (byte_bits x ++ bits a = byte_bits y ++ bits b) in H.
    apply app_inj_1 in H as [Hx Ha]; [|done]. f_equal; [by apply byte_bits_inj|by apply IH].
Qed.

Lemma xor_bits b c :
  byte_bits (byte_of (Z.lxor (byte_val b) (byte_val c))) = zip_with xorb (byte_bits b) (byte_bits c).
Proof.
  unfold byte_bits. rewrite byte_val_of.
  pose proof (Z.lxor_spec (byte_val b) (byte_val c)) as Hx.
  assert (∀ i, Z.testbit (Z.lxor (byte_val b) (byte_val c) `mod` 256) (Z.of_nat i) =
    if decide (i < 8)%nat then xorb (Z.testbit (byte_val b) (Z.of_nat i)) (Z.testbit (byte_val c) (Z.of_nat i)) else false)
    as E.
  { intros i. change 256 with (2 ^ 8). destruct (decide (i < 8)%nat).
    - by rewrite Z.mod_pow2_bits_low, Hx by lia.
    - by rewrite Z.mod_pow2_bits_high by lia. }
  cbn [seq fmap list_fmap]. by rewrite !E.
Qed.

Lemma set_byte_bit b r :
  (r < 8)%nat →
  byte_bits (byte_of (Z.lor (byte_val b) (Z.shiftl 1 (Z.of_nat r)))) = <[r := true]> (byte_bits b).
Proof.
  revert b.
  enough (∀ b, Forall (λ r, byte_bits (byte_of (Z.lor (byte_val b) (Z.shiftl 1 (Z.of_nat r)))) =
    <[r := true]> (byte_bits b)) (seq 0 8)) as H.
  { intros b Hr. specialize (H b). rewrite Forall_forall in H. apply H, elem_of_seq. lia. }
  by_bytes.
Qed.

Lemma get_byte_bit b r :
  (r < 8)%nat →
  negb (Z.land (byte_val b) (Z.shiftl 1 (Z.of_nat r)) =? 0) = byte_bits b !!! r.
Proof.
  revert b.
  enough (∀ b, Forall (λ r, negb (Z.land (byte_val b) (Z.shiftl 1 (Z.of_nat r)) =? 0) = byte_bits b !!! r) (seq 0 8)) as H.
  { intros b Hr. specialize (H b). rewrite Forall_forall in H. apply H, elem_of_seq. lia. }
  by_bytes.
Qed.

(** The byte and the bit that hold dimension [i] *)
Lemma bit_position (data : list byte) i :
  (i < 8 * length data)%nat →
  ∃ a b c, data = a ++ b :: c ∧ len a = Z.of_nat i / 8 ∧ (i = 8 * length a + i mod 8)%nat ∧
    bits data = bits a ++ byte_bits b ++ bits c.
Proof.
  intros Hi. pose proof (Nat.div_mod_eq i 8). pose proof (Nat.mod_upper_bound i 8 ltac:(lia)).
  destruct (lookup_lt_is_Some_2 data (i / 8)) as [b Hb]; [lia|].
  exists (take (i / 8) data), b, (drop (S (i / 8)) data).
  pose proof (take_drop_middle data (i / 8) b Hb) as E.
  assert (length (take (i / 8) data) = (i / 8)%nat) as Hl by (rewrite length_take; lia).
  split; [done|]. split; [|split; [lia|]].
  - unfold len. rewrite Hl. by rewrite Nat2Z.inj_div.
  - rewrite <- E at 1. by rewrite bits_app.
Qed.

Lemma set_bit_bits data i :
  (i < 8 * length data)%nat →
  ∃ data', set_bit data (Z.of_nat i) = Ok data' ∧ length data' = length data ∧
    bits data' = <[i := true]> (bits data).
Proof.
  intros Hi. destruct (bit_position data i Hi) as (a & b & c & -> & Ha & Hr & Hbits).
  pose proof (Nat.mod_upper_bound i 8 ltac:(lia)).
  unfold set_bit. rewrite index_app by done. rewrite Ok_bind, <- Ha.
  rewrite assign_Ok by (rewrite len_app, len_cons; pose proof (len_nonneg a); pose proof (len_nonneg c); lia).
  unfold len. rewrite Nat2Z.id. eexists. split; [done|]. split; [by rewrite length_insert|].
  rewrite insert_middle, Hbits, bits_app.
  rewrite insert_app_r_alt by (rewrite length_bits; lia). f_equal.
  cbn [bits mbind list_bind]. change (mbind byte_bits c) with (bits c).
  rewrite length_bits. replace (i - 8 * length a)%nat with (i mod 8)%nat by lia.
  rewrite insert_app_l by (rewrite length_byte_bits; lia). f_equal.
  change 8 with (Z.of_nat 8). rewrite <- Nat2Z.inj_mod. by apply set_byte_bit.
Qed.

(** ** The Hamming distance of two codes *)
Lemma count_app a b : count (a ++ b) = count a + count b.
Proof. unfold count. induction a as [|x a IH]; [done|]. cbn. rewrite IH. lia. Qed.

Lemma count_false n : count (replicate n false) = 0.
Proof. by induction n. Qed.

Lemma count_nonneg bs : 0 ≤ count bs ≤ len bs.
Proof. induction bs as [|b bs IH]; [done|]. rewrite len_cons. change (count (b :: bs)) with ((if b then 1 else 0) + count bs). destruct b; lia. Qed.

Lemma hamming_bits a b :
  length a = length b → hamming a b = Ok (count (zip_with xorb (bits a) (bits b))).
Proof.
  intros Hl. unfold hamming.
  enough (∀ pre acc,
    loop (λ i b acc, x ← index (pre ++ a) (Z.of_nat i);
            Ok (acc + popcount (byte_of (Z.lxor (byte_val x) (byte_val b))))) (length pre) b acc
    = Ok (E:=quantError) (acc + count (zip_with xorb (bits a) (bits b)))) as H by apply (H [] 0).
  revert b Hl. induction a as [|x a IH]; intros [|y b] Hl pre acc; try done.
  - cbn. by rewrite Z.add_0_r.
  - cbn [loop]. rewrite (index_app pre) by done. rewrite !Ok_bind.
    replace (pre ++ x :: a) with ((pre ++ [x]) ++ a) by by rewrite <- app_assoc.
    replace (S (length pre)) with (length (pre ++ [x])) by (rewrite length_app; cbn; lia).
    rewrite IH by (cbn in Hl; lia). f_equal.
    change (bits (x :: a)) with (byte_bits x ++ bits a). change (bits (y :: b)) with (byte_bits y ++ bits b).
    rewrite zip_with_app by done. rewrite count_app, popcount_bits, xor_bits. lia.
Qed.

(** ** Codes of vectors *)
Definition binary_wf (q : BinaryQuantizer) : Prop :=
  0 < bq_dimension q ∧ len (bq_thresholds q) = bq_dimension q.

(** The side of each threshold *)
Definition sides (q : BinaryQuantizer) (v : vector) : list bool := zip_with fge v (bq_thresholds q).
Definition code_size (q : BinaryQuantizer) : nat := Z.to_nat ((bq_dimension q + 7) `quot` 8).
Definition padding (q : BinaryQuantizer) : nat := (8 * code_size q - Z.to_nat (bq_dimension q))%nat.

Lemma code_size_enough q : 0 < bq_dimension q → (Z.to_nat (bq_dimension q) ≤ 8 * code_size q)%nat.
Proof.
  intros H. unfold code_size. rewrite Z.quot_div_nonneg by lia.
  pose proof (Z.div_mod (bq_dimension q + 7) 8). pose proof (Z.mod_pos_bound (bq_dimension q + 7) 8). lia.
Qed.

Lemma bits_zero n : bits (replicate n x00) = replicate (8 * n) false.
Proof.
  induction n as [|n IH]; [done|]. cbn [replicate].
  change (bits (x00 :: replicate n x00)) with (byte_bits x00 ++ bits (replicate n x00)).
  rewrite IH. replace (8 * S n)%nat with (8 + 8 * n)%nat by lia. by rewrite replicate_add.
Qed.

Lemma zip_with_take_S {A B C} (f : A → B → C) l k i x y :
  l !! i = Some x → k !! i = Some y →
  zip_with f (take (S i) l) (take (S i) k) = zip_with f (take i l) (take i k) ++ [f x y].
Proof.
  intros Hx Hy. rewrite (take_S_r _ _ _ Hx), (take_S_r _ _ _ Hy).
  apply lookup_lt_Some in Hx, Hy. by rewrite zip_with_app by (rewrite !length_take; lia).
Qed.

Lemma Binary_code_bits q v :
  binary_wf q → len v = bq_dimension q →
  ∃ code, Binary_code q v = Ok code ∧ length code = code_size q ∧
    bits code = sides q v ++ replicate (padding q) false.
Proof.
  intros [Hd Ht] Hv. pose proof (code_size_enough q Hd) as Hsize.
  assert (Z.to_nat (bq_dimension q) = length v) as Hvl by (unfold len in Hv; lia).
  assert (length (bq_thresholds q) = length v) as Htl by (unfold len in *; lia).
  unfold Binary_code. rewrite make_Ok, Ok_bind by (apply Z.quot_pos; lia).
  run_loop (λ i (data : list byte), length data = code_size q ∧
    bits data = zip_with fge (take i v) (take i (bq_thresholds q)) ++ replicate (8 * code_size q - i) false)
    as code Hc Hinv; [..|destruct Hinv as [Hl Hb]; exists code; rewrite Hc; split; [done|split; [done|]]].
  - rewrite length_replicate. split; [done|]. rewrite bits_zero. by rewrite Nat.sub_0_r.
  - cbn [Nat.add]. intros k x data Hx [Hl Hb]. pose proof (lookup_lt_Some (A:=f32) v _ _ Hx).
    destruct (lookup_lt_is_Some_2 (bq_thresholds q) k) as [t Htk]; [lia|].
    rewrite (index_of_nat _ _ _ Htk), Ok_bind, (zip_with_take_S _ _ _ _ _ _ Hx Htk), <- app_assoc.
    assert (replicate (8 * code_size q - k) false = false :: replicate (8 * code_size q - S k) false) as E.
    { by replace (8 * code_size q - k)%nat with (S (8 * code_size q - S k)) by lia. }
    rewrite E in Hb. cbn [app]. destruct (fge x t); [|by exists data].
    destruct (set_bit_bits data k) as (data' & Hs & Hl' & Hb'); [lia|].
    exists data'. split; [done|]. split; [lia|]. rewrite Hb', Hb.
    assert (k = length (zip_with fge (take k v) (take k (bq_thresholds q)))) as Hk
      by (rewrite length_zip_with, !length_take; unfold f32 in *; lia).
    rewrite Hk at 1. apply insert_middle.
  - rewrite Hb. unfold sides, padding. rewrite Hvl. cbn [Nat.add].
    by rewrite (take_ge v), (take_ge (bq_thresholds q)) by (unfold f32 in *; lia).
Qed.

(** * pkg/quantization: what the quantizers guarantee
    Binary codes: the distance counts the dimensions on which two vectors lie on
    different sides, a batch is the distance of each code, decoding and encoding
    are inverse. The quantizers as interfaces: once a quantizer is settled, its
    answers never change. Scalar codes: the sort, and what the quantizer makes of
    a single training vector. The configurations that panic. *)
From stdpp Require Import sorting.

#[local] Open Scope Z_scope.

(** ** Binary codes *)

(** The receiver once it has encoded a vector *)
Definition effective (q : BinaryQuantizer) : BinaryQuantizer :=
  if bq_trained q then q else mkBinary (bq_dimension q) ((λ _, f32_zero) <$> bq_thresholds q) true.

Definition disagreements (q : BinaryQuantizer) (a b : vector) : Z :=
  count (zip_with xorb (sides q a) (sides q b)).

Lemma effective_trained q : bq_trained (effective q) = true.
Proof. unfold effective. by destruct (bq_trained q) eqn:E. Qed.
Lemma effective_idem q : effective (effective q) = effective q.
Proof. unfold effective at 1. by rewrite effective_trained. Qed.
Lemma effective_dimension q : bq_dimension (effective q) = bq_dimension q.
Proof. unfold effective. by destruct (bq_trained q). Qed.
Lemma effective_wf q : binary_wf q → binary_wf (effective q).
Proof.
  intros [Hd Ht]. unfold effective. destruct (bq_trained q); [done|].
  split; [done|]. cbn. unfold len in *. by rewrite length_fmap.
Qed.

Lemma Binary_Encode_effective v q : Binary_Encode v q = (Binary_code (effective q) v, effective q).
Proof. unfold Binary_Encode, effective, default_thresholds. unfold_M. by destruct q as [d ts []]. Qed.

(** What a failed encoding of the query is used as *)
Definition query_code (q : BinaryQuantizer) (query : vector) : result quantError (list byte) :=
  match Binary_code (effective q) query with Err _ => Ok [] | r => r end.

Lemma encode_query_eq query q : encode_query query q = (query_code q query, effective q).
Proof.
  unfold encode_query, query_code. rewrite Binary_Encode_effective.
  by destruct (Binary_code (effective q) query).
Qed.
Lemma query_code_effective q query : query_code (effective q) query = query_code q query.
Proof. unfold query_code. by rewrite effective_idem. Qed.

(** The distance to one code, without the receiver *)
Definition code_distance (q : BinaryQuantizer) (query : vector) (code : list byte) : result quantError f32 :=
  qb ← query_code q query; h ← hamming qb code;
  Ok (f32_div (f32_of_Z h) (f32_of_Z (bq_dimension q))).

Lemma Binary_Distance_eq query code q :
  Binary_Distance query code q = (code_distance q query code, effective q).
Proof.
  unfold Binary_Distance, code_distance. unfold_M. rewrite encode_query_eq.
  destruct (query_code q query) as [qb| |]; [|done..].
  rewrite effective_dimension. cbn. by destruct (hamming qb code).
Qed.

Lemma code_distance_effective q query code :
  code_distance (effective q) query code = code_distance q query code.
Proof. unfold code_distance. by rewrite query_code_effective, effective_dimension. Qed.

Lemma sides_length q v : len v = len (bq_thresholds q) → len (sides q v) = len v.
Proof. intros H. unfold sides, len in *. rewrite length_zip_with. unfold f32, vector in *. lia. Qed.

Lemma hamming_sides q a b ca cb :
  length ca = length cb → len a = len (bq_thresholds q) → len b = len (bq_thresholds q) →
  bits ca = sides q a ++ replicate (padding q) false →
  bits cb = sides q b ++ replicate (padding q) false →
  hamming ca cb = Ok (disagreements q a b).
Proof.
  intros Hl Ha Hb Hca Hcb. rewrite hamming_bits by done. rewrite Hca, Hcb.
  pose proof (sides_length q a Ha). pose proof (sides_length q b Hb).
  rewrite zip_with_app by (unfold len in *; lia). rewrite count_app, zip_with_replicate by done.
  cbn [xorb]. by rewrite count_false, Z.add_0_r.
Qed.

Lemma distance_of_code q query v :
  binary_wf q → len query = bq_dimension q → len v = bq_dimension q →
  ∃ code, Binary_code (effective q) v = Ok code ∧
    code_distance q query code =
      Ok (f32_div (f32_of_Z (disagreements (effective q) query v)) (f32_of_Z (bq_dimension q))).
Proof.
  intros Hq%effective_wf Hquery Hv. rewrite <- (effective_dimension q) in *. pose proof Hq as [_ Ht].
  destruct (Binary_code_bits _ v Hq Hv) as (code & Hc & Hl & Hb).
  destruct (Binary_code_bits _ query Hq Hquery) as (qc & Hqc & Hql & Hqb).
  exists code. split; [done|]. unfold code_distance, query_code. rewrite Hqc, Ok_bind.
  rewrite (hamming_sides (effective q) query v) by (done || congruence).
  by rewrite Ok_bind, effective_dimension.
Qed.

(** The distance of a query to the code of a vector is the number of
    dimensions on which the two lie on different sides of the threshold, divided
    by the dimension: the packing in bytes, the exclusive or and the bit counts
    add up to exactly that. Before any training the thresholds are zero, and the
    quantizer then keeps them. *)
Theorem binary_distance_counts q query v :
  binary_wf q → len query = bq_dimension q → len v = bq_dimension q →
  ∃ code, Binary_Encode v q = (Ok code, effective q) ∧
    Binary_Distance query code (effective q) =
      (Ok (f32_div (f32_of_Z (disagreements (effective q) query v)) (f32_of_Z (bq_dimension q))),
       effective q).
Proof.
  intros Hq Hquery Hv. destruct (distance_of_code q query v) as (code & Hc & Hd); [done..|].
  exists code. rewrite Binary_Encode_effective, Hc, Binary_Distance_eq, effective_idem. split; [done|].
  unfold code_distance in *. rewrite query_code_effective, effective_dimension. by rewrite Hd.
Qed.

Lemma binary_distance_counts_witness :
  let q := mkBinary 3 [f32_one; f32_one; f32_one] false in
  ∃ code, Binary_Encode [f32_of_Z 1; f32_of_Z (-2); f32_of_Z 3] q = (Ok code, effective q) ∧
    Binary_Distance [f32_of_Z (-1); f32_of_Z (-1); f32_of_Z 1] code (effective q)
    = (Ok (f32_ratio 1 3), effective q).
Proof.
  destruct (binary_distance_counts (mkBinary 3 [f32_one; f32_one; f32_one] false)
    [f32_of_Z (-1); f32_of_Z (-1); f32_of_Z 1] [f32_of_Z 1; f32_of_Z (-2); f32_of_Z 3])
    as (code & Hc & Hd); [by split|reflexivity..|].
  exists code. split; [exact Hc|]. rewrite Hd. reflexivity.
Defined.

(** ** Batches *)
Lemma mapM_distance query codes q :
  codes ≠ [] → mapM (Binary_Distance query) codes q = (mapM (code_distance q query) codes, effective q).
Proof.
  intros Hne. destruct codes as [|c codes]; [done|]. clear Hne. revert q c.
  induction codes as [|c' codes IH]; intros q c.
  - cbn. unfold_M. rewrite Binary_Distance_eq. by destruct (code_distance q query c).
  - remember (c' :: codes) as cs. cbn. unfold_M. rewrite Binary_Distance_eq.
    destruct (code_distance q query c) as [d| |]; [|done..]. subst cs.
    rewrite IH, effective_idem.
    assert (∀ l, mapM (code_distance (effective q) query) l = mapM (code_distance q query) l) as ->.
    { induction l as [|x l IHl]; [done|]. cbn. by rewrite code_distance_effective, IHl. }
    by destruct (mapM (code_distance q query) (c' :: codes)).
Qed.

(** A batch of binary distances is the distance of each code in order,
    with the same panics and the same effect on the quantizer; only an empty
    batch still encodes its query. *)
Theorem binary_batch_is_map query codes q :
  codes ≠ [] → Binary_BatchDistance query codes q = mapM (Binary_Distance query) codes q.
Proof.
  intros Hne. rewrite mapM_distance by done.
  pose proof (encode_query_eq query q) as Eq. unfold code_distance, Binary_BatchDistance.
  destruct codes as [|c codes]; [done|].
  destruct (query_code q query) as [qb| |]; [|unfold_M; by rewrite Eq..].
  rewrite (M_bind_run _ _ _ _ _ Eq), (M_bind_run get _ _ _ _ eq_refl), effective_dimension.
  rewrite (loop_append_lift _ (λ h, f32_div (f32_of_Z h) (f32_of_Z (bq_dimension q)))).
  f_equal. cbn [app]. by destruct (mapM _ (c :: codes)).
Qed.

Lemma binary_batch_is_map_witness :
  let q := mkBinary 2 [f32_zero; f32_zero] false in
  Binary_BatchDistance [f32_one; f32_one] [[x03]; [x01]; []] q
  = (Ok [f32_zero; f32_ratio 1 2; f32_zero], mkBinary 2 [f32_zero; f32_zero] true).
Proof. intros q. rewrite (binary_batch_is_map [f32_one; f32_one] [[x03]; [x01]; []] q); [reflexivity|done]. Defined.

(** ** Decoding binary codes *)
Definition sign_of (b : bool) : f32 := if b then f32_one else f32_of_Z (-1).

Lemma Binary_Decode_bits q code :
  0 < bq_dimension q → length code = code_size q →
  Binary_Decode q code = Ok (sign_of <$> take (Z.to_nat (bq_dimension q)) (bits code)).
Proof.
  intros Hd Hl. pose proof (code_size_enough q Hd) as Hsize. set (n := Z.to_nat (bq_dimension q)) in *.
  set (v := sign_of <$> take n (bits code)).
  assert (length v = n) as Hv by (unfold v; rewrite length_fmap, length_take, length_bits; lia).
  unfold Binary_Decode. rewrite make_Ok, Ok_bind by lia. fold n.
  run_loop (λ i (w : list f32), w = filled v f32_zero i) as w Hw Hinv; [..|rewrite Hw, Hinv; f_equal].
  - by rewrite filled_0, Hv.
  - intros k a w Ha ->. apply below_lookup in Ha as [-> Hk]. cbn [Nat.add].
    assert (k < n)%nat as Hkn by (unfold n; lia).
    destruct (bit_position code k) as (a & b & c & E & Ha & Hr & Hbits); [lia|].
    assert (index (E:=quantError) code (Z.of_nat k / 8) = Ok b) as -> by (rewrite E; by apply index_app).
    rewrite Ok_bind. change 8 with (Z.of_nat 8) at 1. pose proof (Nat.mod_upper_bound k 8 ltac:(lia)).
    rewrite <- Nat2Z.inj_mod, get_byte_bit by lia.
    destruct (lookup_lt_is_Some_2 (bits code) k) as [x Hx]; [rewrite length_bits; lia|].
    assert (byte_bits b !!! (k mod 8)%nat = x) as ->.
    { apply list_lookup_total_correct. rewrite Hbits, lookup_app_r in Hx by (rewrite length_bits; lia).
      rewrite lookup_app_l in Hx by (rewrite length_bits, length_byte_bits; lia).
      rewrite length_bits in Hx. by replace (k - 8 * length a)%nat with (k mod 8)%nat in Hx by lia. }
    eexists. split; [|done]. apply assign_filled. unfold v. by rewrite list_lookup_fmap, lookup_take_lt, Hx by lia.
  - rewrite length_below. fold n. cbn [Nat.add]. rewrite <- Hv at 1. apply filled_all.
Qed.

(** What a binary code keeps of a vector is the side of each threshold:
    decoding the code of a vector gives one where it was reached and minus one
    elsewhere. *)
Theorem binary_decode_code q v :
  binary_wf q → len v = bq_dimension q →
  ∃ code, Binary_code q v = Ok code ∧ Binary_Decode q code = Ok (sign_of <$> sides q v).
Proof.
  intros Hq Hv. destruct (Binary_code_bits q v Hq Hv) as (code & Hc & Hl & Hb). destruct Hq as [Hd Ht].
  exists code. split; [done|]. rewrite (Binary_Decode_bits q code Hd Hl), Hb.
  pose proof (sides_length q v ltac:(congruence)).
  rewrite take_app_length' by (unfold len in *; lia). done.
Qed.

Lemma sides_of_signs q bs :
  Forall (λ t, t = f32_zero) (bq_thresholds q) → length bs = length (bq_thresholds q) →
  sides q (sign_of <$> bs) = bs.
Proof.
  unfold sides. intros Ht. revert bs. induction Ht as [|t ts -> Ht IH]; intros [|b bs] Hl; try done.
  cbn [fmap list_fmap zip_with]. f_equal; [by destruct b|]. apply IH. by injection Hl.
Qed.

(** With the default thresholds a code is recovered from the vector it
    decodes to, as long as its padding bits are zero. *)
Theorem binary_recode q code :
  0 < bq_dimension q → len (bq_thresholds q) = bq_dimension q →
  Forall (λ t, t = f32_zero) (bq_thresholds q) → length code = code_size q →
  drop (Z.to_nat (bq_dimension q)) (bits code) = replicate (padding q) false →
  ∃ v, Binary_Decode q code = Ok v ∧ Binary_code q v = Ok code.
Proof.
  intros Hd Hl Ht Hc Hp. pose proof (code_size_enough q Hd) as Hsize.
  eexists. split; [by apply Binary_Decode_bits|].
  assert (length (take (Z.to_nat (bq_dimension q)) (bits code)) = length (bq_thresholds q)) as Hn.
  { rewrite length_take, length_bits. unfold len in Hl. lia. }
  edestruct (Binary_code_bits q) as (code' & Hc' & Hl' & Hb'); [by split| |rewrite Hc'].
  { unfold len. rewrite length_fmap, Hn. exact Hl. }
  f_equal. apply bits_inj. rewrite Hb', sides_of_signs by done. rewrite <- Hp. apply take_drop.
Qed.

(** ** Sorting *)
Lemma shift_in_insert key prefix : shift_in key prefix = isort_insert fgt key prefix.
Proof. induction prefix as [|x prefix IH]; [done|]. cbn. by rewrite IH. Qed.

Lemma sortFloat32s_isort s : sortFloat32s s = reverse (isort fgt (reverse s)).
Proof.
  unfold sortFloat32s, isort. f_equal.
  enough (∀ acc, foldl (λ prefix key, shift_in key prefix) acc s =
    foldr (isort_insert fgt) acc (reverse s)) as H by apply H.
  induction s as [|x s IH]; intros acc; [done|].
  cbn [foldl]. rewrite IH, reverse_cons, foldr_app. cbn. by rewrite shift_in_insert.
Qed.

Lemma StronglySorted_reverse {A} (R : A → A → Prop) l :
  StronglySorted R l → StronglySorted (flip R) (reverse l).
Proof.
  induction 1 as [|x l Hl IH Hx]; [constructor|]. rewrite reverse_cons. apply StronglySorted_app.
  split; [|split; [done|by repeat constructor]].
  intros y z Hy Hz%list_elem_of_singleton. subst z. rewrite elem_of_reverse in Hy.
  rewrite Forall_forall in Hx. by apply Hx.
Qed.

(** The calibration sort returns the same values, in order when none is NaN. *)
Theorem sortFloat32s_sorts s :
  sortFloat32s s ≡ₚ s ∧
  (Forall (λ x, x ≠ S754_nan) s → StronglySorted (λ x y, fgt x y = false) (sortFloat32s s)).
Proof.
  rewrite sortFloat32s_isort. split.
  - by rewrite reverse_Permutation, isort_perm, reverse_Permutation.
  - intros Hs. apply (StronglySorted_reverse (λ x y, fgt y x = false)).
    apply (isort_sorted fgt (λ x, x ≠ S754_nan)).
    + intros a b. apply flt_asym.
    + intros a b c Hb H1 H2. by apply (flt_ge_trans c b a).
    + by rewrite reverse_Permutation.
Qed.

(** ** Uncompressed codes *)
Lemma len_floats (v : list f32) : len (v ≫= putFloat32) = 4 * len v.
Proof. induction v as [|x v IH]; [done|]. cbn [mbind list_bind]. rewrite len_app, len_cons, IH. unfold len. cbn. lia. Qed.

Lemma uint32_at_float (v : list f32) i x :
  v !! i = Some x → valid_f32 x → uint32_at (v ≫= putFloat32) (Z.of_nat i) = Ok (Float32bits x).
Proof.
  intros Hx Hv. pose proof (take_drop_middle v i x Hx) as E. set (b := drop (S i) v) in E.
  pose proof (lookup_lt_Some _ _ _ Hx).
  assert (len (take i v) = Z.of_nat i) as Hl by (unfold len; rewrite length_take; lia).
  rewrite <- E, bind_app. cbn [mbind list_bind]. unfold uint32_at.
  rewrite slice_app_r by (rewrite ?len_app, ?len_floats; lia). rewrite Ok_bind.
  assert (len (putFloat32 x) = 4) as H4 by done.
  rewrite (proj2 (Z.ltb_ge _ _)) by (rewrite len_app, H4; pose proof (len_nonneg (b ≫= putFloat32)); lia).
  rewrite take_app_length' by done. f_equal. unfold putFloat32, PutUint32. rewrite le_get_put.
  apply Z.mod_small. pose proof (Float32bits_range x Hv). lia.
Qed.

(** Without compression nothing is lost: a vector of the dimension is decoded
    as it was encoded, bit for bit. *)
Theorem none_roundtrip q (v : vector) :
  len v = none_dimension q → Forall valid_f32 v →
  ∃ data, None_Encode q v = Ok data ∧ len data = None_EncodedSize q ∧ None_Decode q data = Ok v.
Proof.
  intros Hd Hv. eexists. split; [done|]. split; [rewrite len_floats; unfold None_EncodedSize; lia|].
  unfold None_Decode. rewrite make_Ok, Ok_bind by (pose proof (len_nonneg v); lia).
  assert (Z.to_nat (none_dimension q) = length v) as -> by (unfold len in Hd; lia).
  run_loop (λ i (w : list f32), w = filled (v : list f32) f32_zero i) as w Hw Hinv; [..|rewrite Hw, Hinv].
  - by rewrite filled_0.
  - cbn [Nat.add]. intros k z w Hz ->. apply lookup_replicate in Hz as [_ Hk].
    destruct (lookup_lt_is_Some_2 v k Hk) as [x Hx].
    assert (valid_f32 x) as Hvx by (rewrite Forall_lookup in Hv; by eapply Hv).
    rewrite (uint32_at_float v k x Hx Hvx), Ok_bind, Float32_bits_round by done.
    eexists. split; [|done]. by apply assign_filled.
  - rewrite length_replicate. cbn [Nat.add]. by rewrite (filled_all (v : list f32)).
Qed.
