(* ===== verification/QuantScalar.v ===== *)
(** * pkg/quantization: training, configurations and the interface

    Nothing on the path of an insert trains a quantizer, so the scalar quantizer
    calibrates itself on the first vector it encodes: from then on every vector
    has the same code. A configuration that gives only the type of the
    quantization makes the first use panic. Apart from that first encoding, a
    quantizer answers like a pure function, which is the interface the index is
    modelled against. *)
From stdpp Require Import base list numbers strings.
From Stdlib Require Import Strings.Byte ZArith Lia Floats.SpecFloat.
From S2P Require Import Prelude GoLoops Float32 Binary Hnsw HnswQuery Distance Quantization QuantBits.

#[local] Open Scope Z_scope.

Ltac len_f32 := unfold len, vector, f32 in *; rewrite ?length_replicate in *; lia.

(** ** Arithmetic of one value *)
(** Two values neither of which is below the other are the same, or both zero. *)
Lemma neither_below x y :
  x ≠ S754_nan → y ≠ S754_nan → flt x y = false → flt y x = false →
  x = y ∨ ∃ s t, x = S754_zero s ∧ y = S754_zero t.
Proof.
  intros Hx Hy H1 H2. apply not_true_iff_false in H1, H2. rewrite flt_key in H1, H2 by done.
  destruct x as [[]|[]| |[] m e], y as [[]|[]| |[] m' e']; simpl in *; try done; try lia;
    try (right; by eexists _, _); try (by left);
    left; assert (e = e' ∧ Zpos m = Zpos m') as [-> [= ->]] by lia; done.
Qed.

Definition zero_like (x : f32) : Prop := ∃ s, x = S754_zero s.

Lemma zero_code x :
  zero_like x → byte_of_f32 (if fgt x (f32_of_Z 255) then f32_of_Z 255 else x) = x00.
Proof. by intros [[] ->]. Qed.

(** The range of a dimension is a single value: every number becomes zero. *)
Lemma quantize_point x w : finite x → w ≠ S754_nan → quantize x x (f32_of_Z 255) w = x00.
Proof.
  intros Hx Hw. assert (x ≠ S754_nan) as Hnx by by destruct x.
  assert (zero_like (f32_mul (f32_sub x x) (f32_of_Z 255))) as Hself
    by (rewrite f32_sub_diag by done; by exists false).
  unfold quantize. destruct (flt w x) eqn:E1.
  - assert (fgt x x = false) as -> by apply flt_irrefl. by apply zero_code.
  - destruct (fgt w x) eqn:E2; [by apply zero_code|].
    destruct (neither_below w x) as [->|(s & t & -> & ->)]; [done..|by apply zero_code|].
    apply zero_code. by destruct s, t; eexists.
Qed.

(** ** Calibration on one vector *)
Lemma collect_one dim (v : vector) :
  len v = dim → collect dim [v] = Ok ((λ x, [x]) <$> v).
Proof.
  intros Hv. unfold collect. rewrite make_Ok, Ok_bind by (pose proof (len_nonneg v); lia).
  assert (Z.to_nat dim = length v) as -> by (unfold len in Hv; lia).
  cbn [loop].
  set (singles := (λ x : f32, [x]) <$> v).
  assert (length singles = length v) as Hl by apply length_fmap.
  run_loop (λ i (dims : list (list f32)), dims = filled singles [] i) as dims Hd Hinv;
    [..|rewrite Hd, Ok_bind, Hinv; cbn [Nat.add]].
  - by rewrite filled_0, Hl.
  - intros k x dims Hx ->. cbn [Nat.add]. pose proof (lookup_lt_Some _ _ _ Hx).
    rewrite (index_of_nat _ _ []) by (apply filled_next; unfold f32, vector in *; lia). rewrite Ok_bind.
    eexists. split; [|done]. apply assign_filled. unfold singles. rewrite list_lookup_fmap.
    exact (f_equal (fmap _) Hx).
  - rewrite <- Hl. f_equal. apply filled_all.
Qed.

(** The quantizer when the first [i] dimensions are calibrated on [v] *)
Definition calibrated (dim : Z) (quantile : f32) (v : vector) (i : nat) (trained : bool) : ScalarQuantizer :=
  mkScalar dim quantile (filled v f32_zero i) (filled v f32_zero i)
    (filled (replicate (length v) (f32_of_Z 255)) f32_zero i) trained.

Lemma calibrate_one dim quantile v i x :
  quantile_range quantile 1 = (0, 0) → v !! i = Some x → finite x →
  calibrate ((λ x, [x]) <$> v) (Z.of_nat i) (calibrated dim quantile v i false)
  = (Ok tt, calibrated dim quantile v (S i) false).
Proof.
  intros Hq Hx Hf. pose proof (lookup_lt_Some _ _ _ Hx).
  assert (replicate (length v) (f32_of_Z 255) !! i = Some (f32_of_Z 255)) as Hs by by apply lookup_replicate_2.
  unfold calibrate. unfold_M.
  rewrite (index_of_nat _ _ [x]) by (by rewrite list_lookup_fmap, Hx).
  cbn [sq_quantile calibrated]. change (sortFloat32s [x]) with [x]. change (len [x]) with 1. rewrite Hq.
  unfold set_min, set_max, set_scale. unfold_M. change (index [x] 0) with (Ok (E:=quantError) x).
  cbv iota beta.
  unfold calibrated. cbn [sq_mins sq_maxs sq_scales sq_dimension sq_quantile sq_trained].
  rewrite (assign_filled v _ _ x) by done. cbn [sq_mins sq_maxs sq_scales sq_dimension sq_quantile sq_trained].
  rewrite (assign_filled v _ _ x) by done. cbn [sq_mins sq_maxs sq_scales sq_dimension sq_quantile sq_trained].
  rewrite f32_sub_diag by done.
  change (f32_div (f32_of_Z 255) (if flt f32_zero epsilon then f32_one else f32_zero)) with (f32_of_Z 255).
  by rewrite (assign_filled _ _ _ (f32_of_Z 255)) by done.
Qed.

Lemma train_one dim quantile q (v : vector) :
  NewScalarQuantizer dim quantile = Ok q → quantile_range quantile 1 = (0, 0) →
  len v = dim → Forall finite v →
  Scalar_Train [v] q = (Ok tt, calibrated dim quantile v (length v) true).
Proof.
  unfold NewScalarQuantizer. destruct (_ || _) eqn:Hdim; [done|]. intros [= <-] Hq Hv Hf.
  apply orb_false_iff in Hdim as [Hdim _].
  assert (Z.to_nat dim = length v) as -> by (unfold len in Hv; lia).
  change (mkScalar _ _ _ _ _ _) with (mkScalar dim quantile (replicate (length v) f32_zero)
    (replicate (length v) f32_zero) (replicate (length v) f32_zero) false).
  assert (mkScalar dim quantile (replicate (length v) f32_zero) (replicate (length v) f32_zero)
    (replicate (length v) f32_zero) false = calibrated dim quantile v 0 false) as ->
    by (unfold calibrated; by rewrite !filled_0, length_replicate).
  unfold Scalar_Train. change (len [v] =? 0) with false. cbv iota.
  rewrite (M_bind_run get _ _ _ _ eq_refl). cbn [sq_dimension calibrated].
  rewrite (lift_bind _ _ _ _ (collect_one dim v Hv)).
  run_method (λ i (_ : unit) q, q = calibrated dim quantile v i false)
    from (calibrated dim quantile v 0 false) as x q' Hrun Hinv; [done|..].
  - cbn [Nat.add]. intros k a [] q Ha ->. apply below_lookup in Ha as [-> Hk].
    destruct (lookup_lt_is_Some_2 v k) as [x Hx]; [unfold len in Hv; lia|].
    exists tt, (calibrated dim quantile v (S k) false). split; [|done].
    apply (calibrate_one _ _ _ _ x); [done..|]. rewrite Forall_lookup in Hf. by eapply Hf.
  - rewrite (M_bind_run _ _ _ _ _ Hrun), Hinv, length_below. cbn [Nat.add].
    by replace (Z.to_nat dim) with (length v) by (unfold len in Hv; lia).
Qed.

Lemma point_code dim quantile (v w : vector) :
  0 < dim → len v = dim → Forall finite v → len w = dim → Forall (λ x, x ≠ S754_nan) w →
  Scalar_code (calibrated dim quantile v (length v) true) w = Ok (replicate (length v) x00).
Proof.
  intros Hd Hv Hf Hw Hnan. unfold Scalar_code. cbn [sq_dimension calibrated]. rewrite make_Ok, Ok_bind by lia.
  assert (Z.to_nat dim = length v) as -> by (unfold len in Hv; lia).
  run_loop (λ (_ : nat) (data : list byte), data = replicate (length v) x00) as data Hr Hinv; [done|..].
  - cbn [Nat.add]. intros k x data Hx ->. pose proof (lookup_lt_Some _ _ _ Hx).
    destruct (lookup_lt_is_Some_2 v k) as [y Hy]; [len_f32|].
    assert (∀ (l : list f32) z, l !! k = Some z → length l = length v →
      index (E:=quantError) (filled l f32_zero (length v)) (Z.of_nat k) = Ok z) as Hix.
    { intros l z Hz <-. rewrite filled_all. by apply index_of_nat. }
    unfold calibrated. cbn [sq_mins sq_maxs sq_scales].
    rewrite !(Hix v y) by done. rewrite !Ok_bind.
    rewrite (Hix _ (f32_of_Z 255)) by (apply length_replicate || (apply lookup_replicate_2; len_f32)).
    rewrite Ok_bind, quantize_point.
    + eexists. rewrite assign_Ok by (len_f32). split; [done|].
      rewrite Nat2Z.id. apply list_insert_id. apply lookup_replicate_2. len_f32.
    + rewrite Forall_lookup in Hf. by eapply Hf.
    + rewrite Forall_lookup in Hnan. by eapply Hnan.
  - by rewrite Hr, Hinv.
Qed.

(** A scalar quantizer that was never trained calibrates itself on the first
    vector it encodes, and the range of each dimension is then that one value:
    the vector is encoded as zeros, and so is every vector after it. All stored
    points have the same code and every query is at one distance from all of
    them. Inserts never train the quantizer of an index. *)
Theorem scalar_single_training_collapses dim quantile q (v : vector) :
  NewScalarQuantizer dim quantile = Ok q → quantile_range quantile 1 = (0, 0) →
  len v = dim → Forall finite v →
  ∃ q', Scalar_Encode v q = (Ok (replicate (length v) x00), q') ∧
    ∀ w : vector, len w = dim → Forall (λ x, x ≠ S754_nan) w →
      Scalar_Encode w q' = (Ok (replicate (length v) x00), q').
Proof.
  intros Hnew Hq Hv Hf. pose proof (train_one _ _ _ _ Hnew Hq Hv Hf) as Ht.
  assert (0 < dim ∧ sq_trained q = false) as [Hd Htr].
  { unfold NewScalarQuantizer in Hnew. destruct (_ || _) eqn:E; [done|]. injection Hnew as <-.
    apply orb_false_iff in E as [E _]. split; [lia|done]. }
  assert (∀ w : vector, len w = dim → Forall (λ x, x ≠ S754_nan) w →
    Scalar_code (calibrated dim quantile v (length v) true) w = Ok (replicate (length v) x00)) as Hcode
    by (intros; by apply point_code).
  exists (calibrated dim quantile v (length v) true). unfold Scalar_Encode. split.
  - unfold ignore. unfold_M. rewrite Htr. cbn [negb]. cbv beta iota. rewrite Ht. f_equal. apply Hcode; [done|].
    eapply Forall_impl; [exact Hf|]. by intros [] Hx.
  - intros w Hw Hn. unfold_M. cbn [sq_trained calibrated negb]. f_equal. by apply Hcode.
Qed.

Lemma scalar_single_training_collapses_witness :
  ∃ q', Scalar_Encode [f32_of_Z 3; f32_of_Z (-1)]
      (mkScalar 2 (f32_ratio 99 100) [f32_zero; f32_zero] [f32_zero; f32_zero] [f32_zero; f32_zero] false)
      = (Ok [x00; x00], q') ∧
    ∀ w : vector, len w = 2 → Forall (λ x, x ≠ S754_nan) w → Scalar_Encode w q' = (Ok [x00; x00], q').
Proof.
  apply (scalar_single_training_collapses 2 (f32_ratio 99 100)
    (mkScalar 2 (f32_ratio 99 100) [f32_zero; f32_zero] [f32_zero; f32_zero] [f32_zero; f32_zero] false)
    [f32_of_Z 3; f32_of_Z (-1)]); [reflexivity|by vm_compute|reflexivity|by repeat constructor].
Defined.

(** ** Configurations *)
Lemma train_quantile_zero dim q (v : vector) :
  NewScalarQuantizer dim f32_zero = Ok q → len v = dim → (Scalar_Encode v q).1 = Panic.
Proof.
  unfold NewScalarQuantizer. destruct (_ || _) eqn:Hdim; [done|]. intros [= <-] Hv.
  apply orb_false_iff in Hdim as [Hdim _].
  destruct v as [|x v]; [rewrite len_nil in Hv; lia|].
  assert (below dim = 0 :: tail (below dim)) as Hbelow.
  { unfold below. destruct (Z.to_nat dim) eqn:E; [lia|done]. }
  unfold Scalar_Encode, ignore, Scalar_Train. unfold_M.
  cbn [sq_trained negb]. change (len [x :: v] =? 0) with false. cbv beta iota.
  cbn [sq_dimension]. rewrite collect_one by done. cbn [fmap list_fmap]. rewrite Hbelow. cbn [loop].
  unfold calibrate. unfold_M. change (index ([x] :: _) 0) with (Ok (E:=quantError) [x]).
  cbv beta iota. change (sortFloat32s [x]) with [x]. cbn [sq_quantile].
  change (quantile_range f32_zero (len [x])) with (1, 0). cbv beta iota.
  by change (index [x] 1) with (Panic (E:=quantError) (A:=f32)).
Qed.

(** A configuration that names the type of the quantization and leaves the
    rest out has a zero quantile and zero segments. With the scalar type the
    collection is created and its first insert panics, indexing the sorted values
    of one vector at one; with the product type the division by the segments
    panics when the collection is created. *)
Theorem type_only_config_panics cfg dim :
  0 < dim ≤ maxDimension → qc_ScalarQuantile cfg = f32_zero → qc_PQSegments cfg = 0 →
  (qc_Type cfg = TypeScalar →
     ∃ q, New cfg dim = Ok q ∧ ∀ v : vector, len v = dim → (Encode q v).1 = Panic) ∧
  (qc_Type cfg = TypePQ → New cfg dim = Panic).
Proof.
  intros Hd Hq Hs. split; intros E; unfold New; rewrite E.
  - change (String.eqb TypeScalar TypeNone) with false. change (String.eqb TypeScalar TypeScalar) with true.
    cbv iota. rewrite Hq.
    assert (∃ q, NewScalarQuantizer dim f32_zero = Ok q) as [q Hnew].
    { unfold NewScalarQuantizer. rewrite (proj2 (Z.leb_gt _ _)) by lia.
      rewrite Z.gtb_ltb, (proj2 (Z.ltb_ge _ _)) by lia. by eexists. }
    exists (QScalar q). rewrite Hnew. split; [done|]. intros v Hv.
    pose proof (train_quantile_zero dim q v Hnew Hv) as Hp.
    cbn [Encode]. by destruct (Scalar_Encode v q).
  - unfold NewProductQuantizer. by rewrite Hs.
Qed.

Lemma type_only_config_panics_witness :
  let cfg := mkConfig TypeScalar false 0 false "" f32_zero 0 0 in
  ∃ q, New cfg 2 = Ok q ∧ ∀ v : vector, len v = 2 → (Encode q v).1 = Panic.
Proof.
  refine (proj1 (type_only_config_panics (mkConfig TypeScalar false 0 false "" f32_zero 0 0) 2 _ _ _) _);
    [by split|reflexivity..].
Defined.

(** ** The interface of the index *)
Inductive call := CEncode (v : vector) | CDistance (query : vector) (code : list byte).
Inductive answer := AEncode (r : result quantError (list byte)) | ADistance (r : result quantError f32).

Definition answer_call (q : quantizer) (c : call) : answer * quantizer :=
  match c with
  | CEncode v => let '(r, q) := Encode q v in (AEncode r, q)
  | CDistance query code => let '(r, q) := quant_Distance q query code in (ADistance r, q)
  end.

(** The answers to calls in order, from one quantizer *)
Fixpoint answers (q : quantizer) (cs : list call) : list answer :=
  match cs with
  | [] => []
  | c :: cs => let '(a, q) := answer_call q c in a :: answers q cs
  end.

(** The pure quantizer the index is modelled against *)
Definition interface (q : quantizer) : Quantizer :=
  mkQuantizer (λ v, match (Encode q v).1 with Ok code => Some code | _ => None end)
    (λ query code, match (quant_Distance q query code).1 with Ok d => d | _ => S754_nan end).

(** An answer of the interface, unless the call panics; distances have no error. *)
Definition agrees (i : Quantizer) (c : call) (a : answer) : Prop :=
  match c, a with
  | CEncode v, AEncode (Ok code) => q_Encode i v = Some code
  | CEncode v, AEncode (Err _) => q_Encode i v = None
  | CEncode _, AEncode Panic => True
  | CDistance query code, ADistance (Ok d) => q_Distance i query code = d
  | CDistance _ _, ADistance _ => True
  | _, _ => False
  end.

(** Everything but a scalar quantizer before its first encoding *)
Definition settled (q : quantizer) : Prop :=
  match q with QScalar s => sq_trained s = true | _ => True end.

(** What a call leaves: the same quantizer, or a binary one with its thresholds *)
Definition settle (q : quantizer) : quantizer :=
  match q with QBinary b => QBinary (effective b) | q => q end.

Lemma answer_settled q c : settled q → (answer_call q c).2 = q ∨ (answer_call q c).2 = settle q.
Proof.
  destruct q as [n|s|b|[p|]]; intros Hs; destruct c; try (by left); right; cbn.
  - unfold Scalar_Encode. unfold_M. by rewrite Hs.
  - by rewrite Binary_Encode_effective.
  - by rewrite Binary_Distance_eq.
Qed.

Lemma settle_answers q c : (answer_call (settle q) c).1 = (answer_call q c).1.
Proof.
  destruct q as [n|s|b|p]; [done..| |done]. destruct c; cbn.
  - by rewrite !Binary_Encode_effective, effective_idem.
  - by rewrite !Binary_Distance_eq, code_distance_effective.
Qed.

Lemma settle_idem q : settle (settle q) = settle q.
Proof. destruct q as [| |b|]; [done..| |done]. cbn. by rewrite effective_idem. Qed.
Lemma settle_settled q : settled q → settled (settle q).
Proof. by destruct q. Qed.

Lemma answers_constant q cs : settled q → answers q cs = (λ c, (answer_call q c).1) <$> cs.
Proof.
  intros Hq. revert q Hq. induction cs as [|c cs IH]; intros q Hq; [done|].
  cbn. pose proof (answer_settled q c Hq) as Hnext. destruct (answer_call q c) as [a q'] eqn:E.
  f_equal. cbn in Hnext. destruct Hnext as [->| ->].
  - by apply IH.
  - rewrite IH by by apply settle_settled. apply list_fmap_ext. intros _ c' _. apply settle_answers.
Qed.

Lemma answer_agrees q c : agrees (interface q) c (answer_call q c).1.
Proof.
  destruct c as [v|query code]; cbn.
  - destruct (Encode q v) as [[] q'] eqn:E; cbn; by rewrite ?E.
  - destruct (quant_Distance q query code) as [[] q'] eqn:E; cbn; by rewrite ?E.
Qed.

(** Once a quantizer is settled the order of the calls does not matter: each
    call of any sequence is answered as it would be answered first, and every
    answer is the one of the pure interface that the index is modelled against.
    Every quantizer is settled but a scalar one that has not encoded yet. *)
Theorem settled_refines_interface q cs :
  settled q →
  answers q cs = (λ c, (answer_call q c).1) <$> cs ∧ Forall2 (agrees (interface q)) cs (answers q cs).
Proof.
  intros Hq. rewrite (answers_constant q cs Hq). split; [done|].
  apply Forall2_fmap_r, Forall_Forall2_diag, Forall_true. intros c. apply answer_agrees.
Qed.

Lemma settled_refines_interface_witness :
  let q := QBinary (mkBinary 2 [f32_one; f32_one] false) in
  let v := [f32_of_Z 1; f32_of_Z (-1)] in
  answers q [CDistance v [x01]; CEncode v] = [ADistance (Ok f32_zero); AEncode (Ok [x01])].
Proof.
  refine (eq_trans (proj1 (settled_refines_interface (QBinary (mkBinary 2 [f32_one; f32_one] false)) _ I)) _).
  reflexivity.
Defined.
