(* ===== verification/QuantProduct.v ===== *)
(** * pkg/quantization: product codes

    A trained product quantizer: the code of a vector names, for each segment, a
    centroid to which no other is closer; a batch of distances adds up, per code,
    the distances of the query's segments to the named centroids; and a vector
    the quantizer was trained on is at distance zero from its own code. *)
From stdpp Require Import base list numbers strings.
From Stdlib Require Import Strings.Byte ZArith Lia Floats.SpecFloat.
From S2P Require Import Prelude GoLoops Float32 Binary Hnsw HnswQuery Distance Quantization QuantBits.

#[local] Open Scope Z_scope.

#[local] Instance byte_inhabited : Inhabited byte := populate x00.

(** The squared distance of two segments, in the order of the code *)
Definition sqdist (a b : list f32) (start : f32) : f32 :=
  foldl (λ d '(x, y), f32_add d (f32_mul (f32_sub x y) (f32_sub x y))) start (zip a b).

Definition seg (q : ProductQuantizer) (v : list f32) (i : nat) : list f32 :=
  take (Z.to_nat (subDim q)) (drop (i * Z.to_nat (subDim q)) v).
Definition centroid (q : ProductQuantizer) (i j : nat) : list f32 := (pq_codebooks q !!! i) !!! j.
(** The distance of segment [i] of a vector to centroid [j] *)
Definition seg_dist (q : ProductQuantizer) (v : list f32) (i j : nat) : f32 :=
  sqdist (seg q v i) (centroid q i j) f32_zero.

Record pq_wf (q : ProductQuantizer) : Prop := {
  wf_sub : 0 ≤ subDim q;
  wf_dim : pq_dimension q = pq_m q * subDim q;
  wf_m : 0 < pq_m q;
  wf_k : 0 < pq_k q ≤ 256;
  wf_books : len (pq_codebooks q) = pq_m q;
  wf_rows : Forall (λ cs, len cs = pq_k q ∧ Forall (λ c, len c = subDim q) cs) (pq_codebooks q);
  wf_trained : pq_trained q = true
}.

Lemma sub_dist_eq n (a b : list f32) start :
  len a = n → len b = n → sub_dist n a b start = Ok (sqdist a b start).
Proof.
  intros Ha Hb. unfold sub_dist.
  assert (length a = length b) as Hab by (unfold len in *; lia).
  run_loop (λ i (d : f32), d = sqdist (take i a) (take i b) start) as d Hd Hinv; [done|..].
  - intros k z d Hz ->. apply below_lookup in Hz as [-> Hk]. cbn [Nat.add].
    destruct (lookup_lt_is_Some_2 a k) as [x Hx]; [unfold len in *; lia|].
    destruct (lookup_lt_is_Some_2 b k) as [y Hy]; [unfold len in *; lia|].
    rewrite (index_of_nat _ _ _ Hx), Ok_bind, (index_of_nat _ _ _ Hy), Ok_bind. eexists. split; [done|].
    unfold sqdist. pose proof (zip_with_take_S pair a b k x y Hx Hy) as E.
    rewrite E, foldl_app. done.
  - rewrite Hd, Hinv, length_below. cbn [Nat.add]. unfold sqdist.
    by rewrite !take_ge by (unfold len in *; lia).
Qed.

Section wf.
Context (q : ProductQuantizer) (Hq : pq_wf q).

Lemma segment_Ok (v : list f32) i :
  len v = pq_dimension q → (i < Z.to_nat (pq_m q))%nat →
  segment q v (Z.of_nat i) = Ok (seg q v i) ∧ len (seg q v i) = subDim q.
Proof.
  destruct Hq as [Hs Hd Hm _ _ _ _]. intros Hv Hi. unfold segment, slice, seg.
  assert ((Z.of_nat i + 1) * subDim q ≤ len v) by nia.
  rewrite !(proj2 (Z.leb_le _ _)) by nia. cbn [andb]. split.
  - do 3 f_equal; [lia|]. rewrite Z2Nat.inj_mul by lia. by rewrite Nat2Z.id.
  - unfold len in *. rewrite length_take, length_drop. nia.
Qed.

Lemma centroid_Ok i j :
  (i < Z.to_nat (pq_m q))%nat → (j < Z.to_nat (pq_k q))%nat →
  centroid_at q (Z.of_nat i) (Z.of_nat j) = Ok (centroid q i j) ∧ len (centroid q i j) = subDim q.
Proof.
  destruct Hq as [_ _ _ _ Hb Hr _]. intros Hi Hj. rewrite Forall_lookup in Hr.
  destruct (lookup_lt_is_Some_2 (pq_codebooks q) i) as [cs Hcs]; [unfold len in Hb; lia|].
  destruct (Hr i cs Hcs) as [Hl Hc]. rewrite Forall_lookup in Hc.
  destruct (lookup_lt_is_Some_2 cs j) as [c Hcj]; [unfold len in Hl; lia|].
  unfold centroid_at, centroid. rewrite (index_of_nat _ _ _ Hcs), Ok_bind, (index_of_nat _ _ _ Hcj).
  rewrite (list_lookup_total_correct _ _ _ Hcs), (list_lookup_total_correct _ _ _ Hcj).
  split; [done|]. by eapply Hc.
Qed.

Lemma seg_dist_Ok (v : list f32) i j :
  len v = pq_dimension q → (i < Z.to_nat (pq_m q))%nat → (j < Z.to_nat (pq_k q))%nat →
  sub_dist (subDim q) (seg q v i) (centroid q i j) f32_zero = Ok (seg_dist q v i j).
Proof.
  intros Hv Hi Hj. apply sub_dist_eq; [by apply segment_Ok|by apply centroid_Ok].
Qed.

(** [c] is the code of segment [i]: no centroid is closer, or none is at a
    distance below the largest float and the code is zero. *)
Definition nearest_code (v : list f32) (i : nat) (c : Z) : Prop :=
  0 ≤ c < pq_k q ∧
  (flt (seg_dist q v i (Z.to_nat c)) MaxFloat32 = true ∧
   (∀ j, (j < Z.to_nat (pq_k q))%nat → flt (seg_dist q v i j) (seg_dist q v i (Z.to_nat c)) = false) ∨
   c = 0 ∧ ∀ j, (j < Z.to_nat (pq_k q))%nat → flt (seg_dist q v i j) MaxFloat32 = false).

Lemma nearest_spec (v : list f32) i :
  len v = pq_dimension q → (i < Z.to_nat (pq_m q))%nat →
  ∃ d c, nearest q (seg q v i) (Z.of_nat i) = Ok (d, c) ∧ nearest_code v i c.
Proof.
  intros Hv Hi. pose proof (wf_k q Hq) as Hk. unfold nearest.
  set (D := seg_dist q v i).
  run_loop (λ n '(best, idx),
    (∀ j, (j < n)%nat → flt (D j) best = false) ∧ 0 ≤ idx < pq_k q ∧
    (best = D (Z.to_nat idx) ∧ flt best MaxFloat32 = true ∨ best = MaxFloat32 ∧ idx = 0)) as r Hr Hinv.
  - split; [intros; lia|]. split; [lia|by right].
  - intros n z [best idx] Hz (Hmin & Hidx & Hbest). apply below_lookup in Hz as [-> Hn]. cbn [Nat.add].
    destruct (centroid_Ok i n) as [-> _]; [done|lia|]. rewrite Ok_bind.
    rewrite seg_dist_Ok by (done || lia). rewrite Ok_bind. fold (D n).
    destruct (flt (D n) best) eqn:E.
    + assert (flt (D n) MaxFloat32 = true) as Hmax
        by (destruct Hbest as [[_ Hb]|[-> _]]; [by eapply flt_trans|done]).
      exists (D n, Z.of_nat n). split; [done|]. split; [|split; [lia|left; by rewrite Nat2Z.id]].
      intros j Hj. destruct (decide (j = n)) as [->|]; [apply flt_irrefl|].
      destruct (flt (D j) (D n)) eqn:E'; [|done].
      rewrite <- (Hmin j) by lia. symmetry. by eapply flt_trans.
    + exists (best, idx). split; [done|]. split; [|done].
      intros j Hj. destruct (decide (j = n)) as [->|]; [done|]. apply Hmin. lia.
  - destruct r as [d c]. exists d, c. split; [done|]. rewrite length_below in Hinv. cbn [Nat.add] in Hinv.
    destruct Hinv as (Hmin & Hc & [[-> Hmax]|[-> ->]]); (split; [done|]); [by left|right; by split].
Qed.

Lemma PQ_Encode_nearest (v : list f32) :
  len v = pq_dimension q →
  ∃ code, PQ_Encode q v = Ok code ∧ length code = Z.to_nat (pq_m q) ∧
    ∀ i b, code !! i = Some b → nearest_code v i (byte_val b).
Proof.
  intros Hv. pose proof (wf_m q Hq). pose proof (wf_k q Hq). unfold PQ_Encode.
  rewrite (wf_trained q Hq). cbn [negb]. rewrite make_Ok, Ok_bind by lia.
  run_loop (λ n (code : list byte), length code = Z.to_nat (pq_m q) ∧
    ∀ i b, (i < n)%nat → code !! i = Some b → nearest_code v i (byte_val b)) as code Hcode Hinv.
  - split; [apply length_replicate|intros; lia].
  - intros n z code Hz (Hl & Hin). apply below_lookup in Hz as [-> Hn]. cbn [Nat.add].
    destruct (segment_Ok v n) as [-> _]; [done|lia|]. rewrite Ok_bind.
    destruct (nearest_spec v n) as (d & c & -> & Hc); [done|lia|]. rewrite Ok_bind.
    rewrite assign_Ok by (unfold len; lia). rewrite Nat2Z.id. eexists. split; [done|].
    split; [by rewrite length_insert|]. intros i b Hi Hb.
    destruct (decide (i = n)) as [->|].
    + rewrite list_lookup_insert_eq in Hb by lia. injection Hb as <-.
      rewrite byte_val_of, Z.mod_small; [done|]. destruct Hc as [Hc _]. lia.
    + rewrite list_lookup_insert_ne in Hb by done. apply Hin; [lia|done].
  - exists code. destruct Hinv as [Hl Hin]. split; [done|]. split; [done|].
    intros i b Hb. apply Hin; [|done]. rewrite length_below. apply lookup_lt_Some in Hb. lia.
Qed.

(** ** Batches *)

(** A code that names a centroid in each segment *)
Definition code_wf (code : list byte) : Prop :=
  len code = pq_m q ∧ Forall (λ b, byte_val b < pq_k q) code.

Definition table (query : list f32) : list (list f32) :=
  (λ i, seg_dist q query i <$> seq 0 (Z.to_nat (pq_k q))) <$> seq 0 (Z.to_nat (pq_m q)).

(** The distances of the segments of a query to the centroids a code names,
    added up in order *)
Definition code_dist (query : list f32) (code : list byte) : f32 :=
  foldl (λ d i, f32_add d (seg_dist q query i (Z.to_nat (byte_val (code !!! i)))))
    f32_zero (seq 0 (Z.to_nat (pq_m q))).

Lemma adc_table_Ok (query : list f32) :
  len query = pq_dimension q → adc_table q query = Ok (table query).
Proof.
  intros Hv. pose proof (wf_m q Hq). pose proof (wf_k q Hq). unfold adc_table.
  assert (length (table query) = Z.to_nat (pq_m q)) as Hl
    by (unfold table; by rewrite length_fmap, length_seq).
  rewrite (make_Ok (pq_m q)), Ok_bind by lia.
  run_loop (λ n (t : list (list f32)), t = filled (table query) [] n) as t Ht Hinv.
  - by rewrite filled_0, Hl.
  - intros n z t Hz ->. apply below_lookup in Hz as [-> Hn]. cbn [Nat.add].
    set (row := seg_dist q query n <$> seq 0 (Z.to_nat (pq_k q))).
    assert (length row = Z.to_nat (pq_k q)) as Hrow by (unfold row; by rewrite length_fmap, length_seq).
    rewrite (make_Ok (pq_k q)), Ok_bind by lia.
    destruct (segment_Ok query n) as [-> _]; [done|lia|]. rewrite Ok_bind.
    run_loop (λ k (r : list f32), r = filled row f32_zero k) as r Hr Hinv.
    + by rewrite filled_0, Hrow.
    + intros k z r Hz ->. apply below_lookup in Hz as [-> Hk]. cbn [Nat.add].
      destruct (centroid_Ok n k) as [-> _]; [lia|lia|]. rewrite Ok_bind.
      rewrite seg_dist_Ok by (done || lia). rewrite Ok_bind. eexists. split; [|done].
      apply assign_filled. unfold row. rewrite list_lookup_fmap, lookup_seq_lt by lia. done.
    + rewrite Hr, Ok_bind, Hinv, length_below. cbn [Nat.add]. rewrite <- Hrow, filled_all.
      eexists. split; [|done]. apply assign_filled. unfold table.
      rewrite list_lookup_fmap, lookup_seq_lt by lia. done.
  - rewrite Ht, Hinv, length_below. cbn [Nat.add]. by rewrite <- Hl, filled_all.
Qed.

Lemma table_dist_Ok (query : list f32) code :
  code_wf code → table_dist (pq_m q) (table query) code = Ok (code_dist query code).
Proof.
  intros [Hl Hc]. unfold table_dist, code_dist.
  run_loop (λ n (d : f32), d = foldl (λ d i, f32_add d (seg_dist q query i (Z.to_nat (byte_val (code !!! i)))))
    f32_zero (seq 0 n)) as d Hd Hinv; [done|..].
  - intros n z d Hz ->. apply below_lookup in Hz as [-> Hn]. cbn [Nat.add].
    destruct (lookup_lt_is_Some_2 code n) as [b Hb]; [unfold len in Hl; lia|].
    rewrite Forall_lookup in Hc. pose proof (Hc n b Hb) as Hbk. pose proof (byte_val_range b).
    rewrite (index_of_nat (table query) n (seg_dist q query n <$> seq 0 (Z.to_nat (pq_k q))))
      by (unfold table; rewrite list_lookup_fmap, lookup_seq_lt by lia; done).
    rewrite Ok_bind, (index_of_nat code n b Hb), Ok_bind.
    rewrite (index_Ok _ (byte_val b) (seg_dist q query n (Z.to_nat (byte_val b))))
      by (lia || (rewrite list_lookup_fmap, lookup_seq_lt by lia; done)).
    eexists. split; [done|]. rewrite seq_S, foldl_app. cbn [foldl Nat.add].
    by rewrite (list_lookup_total_correct _ _ _ Hb).
  - rewrite Hd, Hinv, length_below. done.
Qed.

Lemma PQ_BatchDistance_Ok (query : list f32) codes :
  len query = pq_dimension q → Forall code_wf codes →
  PQ_BatchDistance q query codes = Ok (code_dist query <$> codes).
Proof.
  intros Hv Hc. unfold PQ_BatchDistance. rewrite adc_table_Ok, Ok_bind by done.
  rewrite loop_append. cbn [app].
  assert (mapM (table_dist (pq_m q) (table query)) codes = Ok (code_dist query <$> codes)) as ->; [|done].
  induction Hc as [|code codes Hc _ IH]; [done|]. cbn. by rewrite table_dist_Ok, Ok_bind, IH by done.
Qed.
End wf.

(** ** Sums of squares are not negative *)
Definition not_negative (x : f32) : Prop :=
  match x with S754_zero s | S754_infinity s | S754_finite s _ _ => s = false | S754_nan => True end.

Lemma round_aux_sign prec emax s m e l :
  match binary_round_aux prec emax s m e l with
  | S754_zero t | S754_infinity t | S754_finite t _ _ => t = s | S754_nan => True end.
Proof.
  unfold binary_round_aux. destruct (shr_fexp prec emax m e l) as [mrs' e'].
  destruct (shr_fexp _ _ _ _ _) as [mrs'' e'']. destruct (shr_m mrs''); try done.
  by destruct (_ <=? _).
Qed.

Lemma normalize_not_negative m e : 0 ≤ m → not_negative (binary_normalize 24 128 m e false).
Proof.
  intros Hm. destruct m as [|p|p]; [done| |lia]. unfold binary_normalize, binary_round.
  destruct (shl_align _ _ _) as [m' e']. pose proof (round_aux_sign 24 128 false (Zpos m') e' loc_Exact) as H.
  by destruct (binary_round_aux _ _ _ _ _ _).
Qed.

Lemma add_not_negative x y : not_negative x → not_negative y → not_negative (f32_add x y).
Proof.
  destruct x as [s|s| |s m e], y as [t|t| |t m' e']; cbn; intros Hx Hy; try done; subst; try done.
  apply normalize_not_negative. cbn. lia.
Qed.

Lemma square_not_negative x : not_negative (f32_mul x x).
Proof.
  destruct x as [s|s| |s m e]; cbn; try done; try (by destruct s).
  rewrite xorb_nilpotent.
  pose proof (round_aux_sign 24 128 false (Zpos (m * m)) (e + e) loc_Exact) as H.
  by destruct (binary_round_aux _ _ _ _ _ _).
Qed.

Lemma sqdist_not_negative a b start : not_negative start → not_negative (sqdist a b start).
Proof.
  unfold sqdist. revert start. induction (zip a b) as [|[x y] l IH]; intros start Hs; [done|].
  cbn [foldl]. apply IH, add_not_negative; [done|apply square_not_negative].
Qed.

(** Nothing but zero is between zero and a value that zero is not below. *)
Lemma zero_least x : not_negative x → x ≠ S754_nan → flt f32_zero x = false → x = f32_zero.
Proof. destruct x as [[]|[]| |[] m e]; cbn; done. Qed.

(** ** Training *)
Section train.
Context (dim m k : Z) (vectors : list vector).
Context (Hm : 0 < m) (Hk : 0 < k ≤ 256) (Hdim : 0 ≤ dim) (Hdiv : dim `rem` m = 0).
Context (Hlen : k ≤ len vectors) (Hvs : Forall (λ v, len v = dim) vectors).

Let sd : Z := dim `quot` m.

(** The quantizer while it is trained *)
Definition training (books : list (list (list f32))) (trained : bool) : ProductQuantizer :=
  mkPQ dim m k books trained.

Definition part_of (v : list f32) (i : nat) : list f32 := take (Z.to_nat sd) (drop (i * Z.to_nat sd) v).
Definition centroids (i : nat) : list (list f32) :=
  (λ v : list f32, part_of v i) <$> take (Z.to_nat k) vectors.
Definition codebooks : list (list (list f32)) := centroids <$> seq 0 (Z.to_nat m).

Lemma dim_split : dim = m * sd ∧ 0 ≤ sd.
Proof.
  unfold sd. split; [|apply Z.quot_pos; lia].
  pose proof (Z.quot_rem' dim m). lia.
Qed.

Lemma length_centroids i : length (centroids i) = Z.to_nat k.
Proof. unfold centroids. rewrite length_fmap, length_take. unfold len, vector, f32 in *. lia. Qed.
Lemma length_codebooks : length codebooks = Z.to_nat m.
Proof. unfold codebooks. by rewrite length_fmap, length_seq. Qed.

Lemma part_Ok v i books t :
  len v = dim → (i < Z.to_nat m)%nat →
  segment (training books t) v (Z.of_nat i) = Ok (part_of v i) ∧ len (part_of v i) = sd.
Proof.
  intros Hv Hi. destruct dim_split as [Hd Hs]. unfold segment, slice, part_of, subDim.
  cbn [pq_dimension pq_m training]. fold sd. assert ((Z.of_nat i + 1) * sd ≤ len v) by nia.
  rewrite !(proj2 (Z.leb_le _ _)) by nia. cbn [andb]. split.
  - do 3 f_equal; [lia|]. rewrite Z2Nat.inj_mul by lia. by rewrite Nat2Z.id.
  - unfold len in *. rewrite length_take, length_drop. nia.
Qed.

Lemma set_codebook_Ok books i cs t :
  (i < length books)%nat →
  set_codebook (Z.of_nat i) cs (training books t) = (Ok tt, training (<[i := cs]> books) t).
Proof.
  intros Hi. unfold set_codebook. unfold_M. cbn [pq_codebooks training].
  rewrite assign_Ok by (unfold len; lia). by rewrite Nat2Z.id.
Qed.

Lemma set_centroid_Ok books i j c cs t :
  books !! i = Some cs → (j < length cs)%nat →
  set_centroid (Z.of_nat i) (Z.of_nat j) c (training books t)
  = (Ok tt, training (<[i := <[j := c]> cs]> books) t).
Proof.
  intros Hcs Hj. unfold set_centroid. unfold_M. cbn [pq_codebooks training].
  rewrite (index_of_nat _ _ _ Hcs). rewrite assign_Ok by (unfold len; lia). rewrite Nat2Z.id.
  apply set_codebook_Ok. by eapply lookup_lt_Some.
Qed.

(** One centroid: made of zeros, then copied over *)
Lemma centroid_step b0 books i j (zeros : list f32) :
  (i < length books)%nat → (i < Z.to_nat m)%nat → (j < Z.to_nat k)%nat →
  books !! i = Some (filled (centroids i) [] j) → len zeros = sd →
  (set_centroid (Z.of_nat i) (Z.of_nat j) zeros;;
   v ← lift (index vectors (Z.of_nat j));
   sub ← lift (segment (training b0 false) v (Z.of_nat i));
   set_centroid (Z.of_nat i) (Z.of_nat j) (go_copy zeros sub)) (training books false)
  = (Ok tt, training (<[i := filled (centroids i) [] (S j)]> books) false).
Proof.
  intros Hib Him Hj Hb Hz.
  assert (j < length (filled (centroids i) [] j))%nat by (rewrite length_filled, length_centroids; lia).
  rewrite (M_bind_run _ _ _ _ _ (set_centroid_Ok _ _ _ _ _ _ Hb ltac:(done))).
  destruct (lookup_lt_is_Some_2 vectors j) as [v Hv]; [unfold len in Hlen; lia|].
  assert (len v = dim) as Hvd by (rewrite Forall_lookup in Hvs; by eapply Hvs).
  unfold_M. rewrite (index_of_nat _ _ _ Hv).
  destruct (part_Ok v i b0 false) as [-> Hpl]; [done..|].
  assert (go_copy zeros (part_of v i) = part_of v i) as ->.
  { unfold go_copy. rewrite take_ge, drop_ge, app_nil_r by (unfold len in *; lia). done. }
  rewrite (set_centroid_Ok _ _ _ _ (<[j := zeros]> (filled (centroids i) [] j)))
    by (rewrite ?length_insert; done || by apply list_lookup_insert_eq).
  do 2 f_equal. rewrite !list_insert_insert_eq.
  rewrite (insert_filled _ _ _ (part_of v i)); [done|].
  unfold centroids. rewrite list_lookup_fmap, lookup_take_lt by lia.
  exact (f_equal (fmap _) Hv).
Qed.

Lemma row_step b0 books i :
  (i < length books)%nat → (i < Z.to_nat m)%nat →
  (row ← lift (make k []); set_codebook (Z.of_nat i) row;;
   loop (λ _ j _,
     zeros ← lift (make sd f32_zero); set_centroid (Z.of_nat i) j zeros;;
     v ← lift (index vectors j); sub ← lift (segment (training b0 false) v (Z.of_nat i));
     set_centroid (Z.of_nat i) j (go_copy zeros sub)) 0 (below k) tt) (training books false)
  = (Ok tt, training (<[i := centroids i]> books) false).
Proof.
  intros Hib Him. destruct dim_split as [Hd Hs].
  rewrite (lift_bind _ _ _ _ (make_Ok k [] ltac:(lia))).
  rewrite (M_bind_run _ _ _ _ _ (set_codebook_Ok _ _ _ _ Hib)).
  run_method (λ j (_ : unit) q, q = training (<[i := filled (centroids i) [] j]> books) false)
    from (training (<[i := replicate (Z.to_nat k) []]> books) false) as x q' Hrun Hinv;
    [..|rewrite Hrun, Hinv; destruct x].
  - by rewrite filled_0, length_centroids.
  - cbn [Nat.add]. intros j z [] q Hz ->. apply below_lookup in Hz as [-> Hj].
    eexists tt, _. split; [|done].
    rewrite (lift_bind _ _ _ _ (make_Ok sd f32_zero Hs)).
    rewrite centroid_step; [by rewrite list_insert_insert_eq|by rewrite length_insert|lia|lia|..].
    + by apply list_lookup_insert_eq.
    + unfold len. rewrite length_replicate. lia.
  - rewrite length_below. cbn [Nat.add]. by rewrite <- (length_centroids i), filled_all.
Qed.

Lemma PQ_Train_Ok :
  PQ_Train vectors (training (replicate (Z.to_nat m) []) false) = (Ok tt, training codebooks true).
Proof.
  unfold PQ_Train. set (b0 := replicate (Z.to_nat m) []).
  rewrite (M_bind_run get _ _ _ _ eq_refl). cbn [pq_k training]. rewrite (proj2 (Z.ltb_ge _ _)) by lia.
  change (subDim (training b0 false)) with sd.
  run_method (λ i (_ : unit) q, q = training (filled codebooks [] i) false)
    from (training b0 false) as x q' Hrun Hinv; [..|rewrite (M_bind_run _ _ _ _ _ Hrun), Hinv].
  - by rewrite filled_0, length_codebooks.
  - cbn [Nat.add]. intros i z [] q Hz ->. apply below_lookup in Hz as [-> Hi].
    cbn [pq_k pq_m training] in Hi. eexists tt, _. split; [|done].
    rewrite row_step by (rewrite ?length_filled, ?length_codebooks; lia). do 2 f_equal.
    apply insert_filled. unfold codebooks. rewrite list_lookup_fmap, lookup_seq_lt by lia. done.
  - unfold_M. cbn [pq_dimension pq_m pq_k pq_codebooks training]. rewrite length_below. cbn [Nat.add].
    by rewrite <- length_codebooks, filled_all.
Qed.

Lemma trained_wf : pq_wf (training codebooks true).
Proof.
  destruct dim_split as [Hd Hs]. split; try done.
  - unfold len. cbn. rewrite length_codebooks. lia.
  - cbn [pq_codebooks pq_k training]. change (subDim (training codebooks true)) with sd.
    unfold codebooks. apply Forall_fmap, Forall_lookup. intros i z Hz. apply lookup_seq in Hz as [-> Hi].
    cbn [Nat.add compose]. split; [unfold len; rewrite length_centroids; lia|].
    unfold centroids. apply Forall_fmap, Forall_lookup. intros j v Hv. apply lookup_take_Some in Hv as [Hv _].
    cbn [compose]. apply (part_Ok v i [] false); [|done]. rewrite Forall_lookup in Hvs. by eapply Hvs.
Qed.

Lemma trained_centroid i j v :
  (i < Z.to_nat m)%nat → (j < Z.to_nat k)%nat → vectors !! j = Some v →
  centroid (training codebooks true) i j = seg (training codebooks true) v i.
Proof.
  intros Hi Hj Hv. unfold centroid. cbn [pq_codebooks training].
  rewrite (list_lookup_total_correct _ i (centroids i))
    by (unfold codebooks; rewrite list_lookup_fmap, lookup_seq_lt by lia; done).
  apply list_lookup_total_correct. unfold centroids. rewrite list_lookup_fmap, lookup_take_lt by lia.
  exact (f_equal (fmap _) Hv).
Qed.
End train.

(** ** Properties *)
Lemma sqdist_self (a : list f32) : Forall finite a → sqdist a a f32_zero = f32_zero.
Proof.
  unfold sqdist. induction 1 as [|x a Hx _ IH]; [done|]. cbn [zip_with foldl].
  by rewrite f32_sub_diag.
Qed.

Lemma seg_finite q v i : Forall finite v → Forall finite (seg q v i).
Proof. intros H. by apply Forall_take, Forall_drop. Qed.

(** A centroid at distance zero: the code of the segment is at distance zero too. *)
Lemma nearest_zero q v i j c :
  (j < Z.to_nat (pq_k q))%nat → seg_dist q v i j = f32_zero → nearest_code q v i c →
  seg_dist q v i (Z.to_nat c) = f32_zero.
Proof.
  intros Hj Hz [_ [[Hmax Hmin]|[_ Hmin]]].
  - apply zero_least; [by apply sqdist_not_negative|by apply (flt_not_nan _ _ Hmax)|].
    rewrite <- Hz. by apply Hmin.
  - specialize (Hmin j Hj). by rewrite Hz in Hmin.
Qed.

(** The code of a vector has one byte per segment, and the byte of a segment
    names a centroid to which no centroid of the segment is closer; when no
    centroid is at a distance below the largest float it is the first. *)
Theorem pq_encodes_nearest q (v : vector) :
  pq_wf q → len v = pq_dimension q →
  ∃ code, PQ_Encode q v = Ok code ∧ length code = Z.to_nat (pq_m q) ∧
    ∀ i b, code !! i = Some b → nearest_code q v i (byte_val b).
Proof. intros Hq Hv. by apply PQ_Encode_nearest. Qed.

(** A batch of product distances is, for each code in order, the sum over
    the segments of the distances of the query to the centroids the code names. *)
Theorem pq_batch_sums q (query : vector) codes :
  pq_wf q → len query = pq_dimension q → Forall (code_wf q) codes →
  PQ_BatchDistance q query codes = Ok (code_dist q query <$> codes).
Proof. intros Hq Hv Hc. by apply PQ_BatchDistance_Ok. Qed.

Lemma nearest_codes_wf q v code :
  pq_wf q → length code = Z.to_nat (pq_m q) →
  (∀ i b, code !! i = Some b → nearest_code q v i (byte_val b)) → code_wf q code.
Proof.
  intros Hq Hl Hn. pose proof (wf_m q Hq). split; [unfold len; lia|].
  apply Forall_lookup. intros i b Hb. by destruct (Hn i b Hb) as [[_ Hk] _].
Qed.

Lemma code_dist_zero q v code :
  length code = Z.to_nat (pq_m q) →
  (∀ i b, code !! i = Some b → seg_dist q v i (Z.to_nat (byte_val b)) = f32_zero) →
  code_dist q v code = f32_zero.
Proof.
  intros Hl Hz. unfold code_dist. rewrite <- Hl.
  assert (Forall (λ i, seg_dist q v i (Z.to_nat (byte_val (code !!! i))) = f32_zero) (seq 0 (length code))) as H.
  { apply Forall_seq. intros i Hi. destruct (lookup_lt_is_Some_2 code i) as [b Hb]; [lia|].
    rewrite (list_lookup_total_correct _ _ _ Hb). by apply Hz. }
  induction H as [|i l Hi _ IH]; [done|]. cbn [foldl]. by rewrite Hi.
Qed.

(** Training succeeds on enough vectors, and each of the vectors it takes as
    centroids is then encoded to a code at distance zero from it, whichever of
    several centroids at distance zero the code names. *)
Theorem pq_trained_vector_at_zero dim m k q vectors :
  NewProductQuantizer dim m k = Ok (Some q) → 0 < m → 0 ≤ dim → 0 < k ≤ 256 →
  k ≤ len vectors → Forall (λ v : vector, len v = dim) vectors →
  ∃ q', PQ_Train vectors q = (Ok tt, q') ∧
    ∀ j (v : vector), (j < Z.to_nat k)%nat → vectors !! j = Some v → Forall finite v →
      ∃ code, PQ_Encode q' v = Ok code ∧ PQ_BatchDistance q' v [code] = Ok [f32_zero].
Proof.
  intros Hnew Hm Hdim Hk Hlen Hvs. unfold NewProductQuantizer in Hnew.
  destruct (m =? 0) eqn:E0; [lia|]. destruct (dim `rem` m =? 0) eqn:Hdiv; [|done].
  rewrite make_Ok, Ok_bind in Hnew by lia. injection Hnew as <-. apply Z.eqb_eq in Hdiv.
  exists (training dim m k (codebooks dim m k vectors) true).
  split; [by apply PQ_Train_Ok|]. intros j v Hj Hv Hf.
  pose proof (trained_wf dim m k vectors Hm Hk Hdim Hdiv Hlen Hvs) as Hwf.
  assert (len v = dim) as Hvd by (rewrite Forall_lookup in Hvs; by eapply Hvs).
  destruct (PQ_Encode_nearest _ Hwf v Hvd) as (code & Hc & Hl & Hn). exists code. split; [done|].
  rewrite PQ_BatchDistance_Ok; [|done|done|constructor; [by eapply nearest_codes_wf|constructor]].
  cbn [fmap list_fmap]. do 2 f_equal. apply code_dist_zero; [done|]. intros i b Hb.
  apply lookup_lt_Some in Hb as Hi. cbn [pq_m training] in Hl.
  apply (nearest_zero _ v i j); [done| |by apply Hn].
  unfold seg_dist. rewrite (trained_centroid dim m k vectors i j v) by (lia || done).
  by apply sqdist_self, seg_finite.
Qed.

Lemma pq_trained_vector_at_zero_witness :
  ∃ q', PQ_Train [[f32_of_Z 1; f32_of_Z 2]; [f32_of_Z 3; f32_of_Z 5]] (mkPQ 2 2 2 [[]; []] false) = (Ok tt, q') ∧
    ∀ j (v : vector), (j < 2)%nat →
      [[f32_of_Z 1; f32_of_Z 2]; [f32_of_Z 3; f32_of_Z 5]] !! j = Some v → Forall finite v →
      ∃ code, PQ_Encode q' v = Ok code ∧ PQ_BatchDistance q' v [code] = Ok [f32_zero].
Proof.
  apply (pq_trained_vector_at_zero 2 2 2 (mkPQ 2 2 2 [[]; []] false)
    [[f32_of_Z 1; f32_of_Z 2]; [f32_of_Z 3; f32_of_Z 5]]);
    [reflexivity|lia|lia|lia|unfold len; cbn [length]; lia|by repeat constructor].
Defined.
