(* ===== verification/Kmeans.v ===== *)
(** * pkg/index/ivf/cluster.go: k-means

    The clusterer of the inverted file index: k-means++ seeding, Lloyd's
    iterations, and the nearest centroids of a vector. The generator of
    [math/rand] is an interface: its draws are in range, nothing else is assumed.
    The mutable parts of a configuration are fields of the state. *)
From stdpp Require Import base list numbers.
From Stdlib Require Import ZArith Lia Floats.SpecFloat.
From S2P Require Import Prelude GoLoops Float32 Heap Quantization QuantBits HnswQuery Hnsw Distance.

#[local] Open Scope Z_scope.

(** [rand.Rand]: [Intn(n)] and [Float32()] *)
Class Rng := {
  rng : Type;
  Intn : Z → rng → Z * rng;
  rand_Float32 : rng → f32 * rng;
  Intn_range n r : 0 < n → 0 ≤ (Intn n r).1 < n
}.

(** One generator, for concrete evaluations: the draws count up. *)
Definition counting_rng : Rng.
Proof.
  refine {| rng := Z; Intn n r := (r `mod` n, r + 1); rand_Float32 r := (f32_ratio 1 2, r + 1) |}.
  intros n r Hn. by apply Z.mod_pos_bound.
Defined.

Inductive ivfError :=
| ErrNoVectors | ErrNotEnoughVectors | ErrDimension | ErrDimensionMismatch | ErrPointExists
| ErrPointNotFound | ErrNoCluster | ErrTooMany | EQuantizer (e : quantError).

#[export] Instance ivfError_eq_dec : EqDecision ivfError.
Proof. solve_decision. Defined.

Record KMeansConfig := mkKMeansConfig {
  kc_NumClusters : Z;
  kc_MaxIterations : Z;
  kc_Tolerance : f32;
  kc_NumInitRuns : Z;
  kc_Seed : Z
}.
Definition DefaultKMeansConfig : KMeansConfig := mkKMeansConfig 100 50 (f32_ratio 1 10000) 3 0.

Record CentroidDistance := mkCentroidDistance { cd_Index : Z; cd_Distance : f32 }.
#[export] Instance CentroidDistance_inhabited : Inhabited CentroidDistance :=
  populate (mkCentroidDistance 0 f32_zero).

Section kmeans.
Context {calc : Calculator} {gen : Rng}.

Record KMeans := mkKMeans {
  km_config : KMeansConfig;
  km_centroids : list vector;
  km_dimension : Z;
  km_trained : bool;
  km_rng : rng
}.
#[local] Abbreviation K := (M KMeans ivfError).

(** [NewKMeans]; the generator is seeded from the configuration or the system. *)
Definition NewKMeans (cfg : KMeansConfig) (dimension : Z) (g : rng) : KMeans :=
  mkKMeans cfg [] dimension false g.

(** [km.rng.Intn(n)], which panics without a positive bound, and [km.rng.Float32()] *)
Definition draw (n : Z) : K Z := λ km,
  if n <=? 0 then (Panic, km) else
  let '(x, g) := Intn n (km_rng km) in
  (Ok x, mkKMeans (km_config km) (km_centroids km) (km_dimension km) (km_trained km) g).
Definition draw_float : K f32 := λ km,
  let '(x, g) := rand_Float32 (km_rng km) in
  (Ok x, mkKMeans (km_config km) (km_centroids km) (km_dimension km) (km_trained km) g).

(** [copyVector(vectors[km.rng.Intn(n)])] *)
Definition sample (vectors : list vector) : K vector :=
  i ← draw (len vectors); lift (index vectors i).
(** [count] samples *)
Definition samples (vectors : list vector) (count : Z) : K (list vector) :=
  loop (λ _ _ cs, v ← sample vectors; mret (cs ++ [v])) 0 (below count) [].

(** *** k-means++ *)

(** The distance of each vector to its nearest centroid so far, and the sum of
    the squares *)
Definition update_distances (vectors : list vector) (lastCentroid : vector) (distances : list f32) :
    list f32 * f32 :=
  foldl (λ '(ds, totalDist) '(vec, d),
      let dist := Distance vec lastCentroid in
      let d := if flt dist d then dist else d in
      (ds ++ [d], f32_add totalDist (f32_mul d d)))
    ([], f32_zero) (zip vectors distances).

(** The first index at which the sum of the squares reaches the threshold *)
Fixpoint reach (threshold cumSum : f32) (i : nat) (distances : list f32) : option nat :=
  match distances with
  | [] => None
  | d :: ds =>
      let cumSum := f32_add cumSum (f32_mul d d) in
      if fge cumSum threshold then Some i else reach threshold cumSum (S i) ds
  end.

(** One round appends one centroid. *)
Definition plus_round (vectors : list vector) (st : list vector * list f32) :
    K (list vector * list f32) :=
  let '(centroids, distances) := st in
  lastCentroid ← lift (index centroids (len centroids - 1));
  let '(distances, totalDist) := update_distances vectors lastCentroid distances in
  if SFeqb totalDist f32_zero then
    c ← sample vectors; mret (centroids ++ [c], distances)
  else
    x ← draw_float;
    match reach (f32_mul x totalDist) f32_zero 0 distances with
    | Some i => c ← lift (index vectors (Z.of_nat i)); mret (centroids ++ [c], distances)
    | None => c ← sample vectors; mret (centroids ++ [c], distances)
    end.

(** [initializeCentroidsKMeansPlusPlus]: the loop runs until there are [k]
    centroids, one more in each round. *)
Definition initializeCentroidsKMeansPlusPlus (vectors : list vector) : K (list vector) :=
  km ← get;
  let n := len vectors in
  let k := kc_NumClusters (km_config km) in
  if (n =? 0) || (k =? 0) then mret [] else
  if k <? 0 then panic else
  first ← sample vectors;
  st ← loop (λ _ _ st, plus_round vectors st) 0 (below (k - 1))
         ([first], replicate (length vectors) MaxFloat32);
  mret st.1.

(** *** Lloyd's iterations *)

(** The nearest of the centroids, the first when none is closer than the largest
    float *)
Definition nearest_scan (vec : vector) (centroids : list vector) : f32 * nat :=
  foldl (λ '(minDist, minIdx) '(i, c),
      let dist := Distance vec c in
      if flt dist minDist then (dist, i) else (minDist, minIdx))
    (MaxFloat32, 0%nat) (imap pair centroids).

(** [newCentroids[c][d] += vec[d]] for every dimension *)
Definition accumulate (dimension : Z) (vec : vector) (acc : vector) : result ivfError vector :=
  loop (λ _ d acc, x ← index vec d; a ← index acc d; assign acc d (f32_add a x)) 0 (below dimension) acc.

Record lloyd := mkLloyd { l_sums : list vector; l_sizes : list Z; l_inertia : f32 }.

(** The assignment of one vector *)
Definition assign_vector (dimension : Z) (centroids : list vector) (vec : vector) (st : lloyd) :
    result ivfError lloyd :=
  let '(minDist, minCluster) := nearest_scan vec centroids in
  size ← index (l_sizes st) (Z.of_nat minCluster);
  sizes ← assign (l_sizes st) (Z.of_nat minCluster) (size + 1);
  acc ← index (l_sums st) (Z.of_nat minCluster);
  acc ← accumulate dimension vec acc;
  sums ← assign (l_sums st) (Z.of_nat minCluster) acc;
  Ok (mkLloyd sums sizes (f32_add (l_inertia st) (f32_mul minDist minDist))).

(** The update of one centroid: the mean of its vectors *)
Definition update_centroid (centroid sum : vector) (size : Z) (maxShift : f32) : vector * f32 :=
  if size >? 0 then
    let mean := (λ x, f32_div x (f32_of_Z size)) <$> sum in
    let shift := Distance centroid mean in
    (go_copy centroid mean, if fgt shift maxShift then shift else maxShift)
  else (centroid, maxShift).

(** One iteration: the centroids, the inertia and the largest shift *)
Definition iteration (dimension : Z) (vectors centroids : list vector) :
    result ivfError (list vector * f32 * f32) :=
  zeros ← make dimension f32_zero;
  st ← loop (λ _ vec st, assign_vector dimension centroids vec st) 0 vectors
         (mkLloyd (replicate (length centroids) zeros) (replicate (length centroids) 0) f32_zero);
  let '(centroids, maxShift) :=
    foldl (λ '(cs, maxShift) '(c, sum, size),
        let '(c, maxShift) := update_centroid c sum size maxShift in (cs ++ [c], maxShift))
      ([], f32_zero) (zip (zip centroids (l_sums st)) (l_sizes st)) in
  Ok (centroids, l_inertia st, maxShift).

(** [runKMeans], at most [MaxIterations] iterations *)
Fixpoint runKMeans (n : nat) (dimension : Z) (tolerance : f32) (vectors centroids : list vector)
    (inertia : f32) : result ivfError (list vector * f32) :=
  match n with
  | O => Ok (centroids, inertia)
  | S n =>
      '(centroids, inertia, maxShift) ← iteration dimension vectors centroids;
      if flt maxShift tolerance then Ok (centroids, inertia)
      else runKMeans n dimension tolerance vectors centroids inertia
  end.

(** One run from a new seeding *)
Definition one_run (vectors : list vector) : K (list vector * f32) :=
  km ← get;
  centroids ← initializeCentroidsKMeansPlusPlus vectors;
  centroids ← (if len centroids =? 0 then samples vectors (kc_NumClusters (km_config km)) else mret centroids);
  let cfg := km_config km in
  lift (runKMeans (Z.to_nat (kc_MaxIterations cfg)) (km_dimension km) (kc_Tolerance cfg) vectors centroids f32_zero).

Definition KMeans_Train (vectors : list vector) : K unit :=
  km ← get;
  let k := kc_NumClusters (km_config km) in
  if len vectors =? 0 then throw ErrNoVectors
  else if len vectors <? k then throw ErrNotEnoughVectors else
  best ← loop (λ _ _ '(bestCentroids, bestInertia),
      '(centroids, inertia) ← one_run vectors;
      mret (if flt inertia bestInertia then (centroids, inertia) else (bestCentroids, bestInertia)))
    0 (below (kc_NumInitRuns (km_config km))) ([], MaxFloat32);
  centroids ← (if (len best.1 =? 0) && (k >? 0) then samples vectors k else mret best.1);
  modify (λ km, mkKMeans (km_config km) centroids (km_dimension km) true (km_rng km)).

(** [-1] without centroids *)
Definition FindNearestCentroid (km : KMeans) (vec : vector) : Z :=
  if len (km_centroids km) =? 0 then -1 else Z.of_nat (nearest_scan vec (km_centroids km)).2.

(** [partialSort]: the [n] smallest first, by selection *)
Definition smallest_from (items : list CentroidDistance) (i : nat) : nat :=
  foldl (λ minIdx j, if flt (cd_Distance (items !!! j)) (cd_Distance (items !!! minIdx)) then j else minIdx)
    i (seq (S i) (length items - S i)).
Definition partialSort (items : list CentroidDistance) (n : Z) : list CentroidDistance :=
  foldl (λ items i, swap i (smallest_from items i) items) items
    (seq 0 (Z.to_nat (Z.min n (len items)))).

Definition FindNearestCentroids (km : KMeans) (vec : vector) (n : Z) : result ivfError (list CentroidDistance) :=
  if len (km_centroids km) =? 0 then Ok [] else
  let n := if n >? len (km_centroids km) then len (km_centroids km) else n in
  let distances := imap (λ i c, mkCentroidDistance (Z.of_nat i) (Distance vec c)) (km_centroids km) in
  slice (partialSort distances n) 0 n.
End kmeans.
Arguments KMeans {gen}.

(** * pkg/index/ivf/cluster.go: the nearest centroids
    The partial sort selects: after it the first [n] entries are the nearest
    centroids in order. It is the selection of Distance.v on a list of entries. *)
From stdpp Require Import sorting.

#[local] Open Scope Z_scope.

(** ** Entries picked by their indexes *)
Section picked.
Context (items : list CentroidDistance).
#[local] Abbreviation N := (length items).
#[local] Abbreviation ds := (cd_Distance <$> items).

Definition pick (idx : list nat) : list CentroidDistance := (λ i, items !!! i) <$> idx.
Definition in_range (idx : list nat) : Prop := length idx = N ∧ Forall (λ i, (i < N)%nat) idx.

Lemma pick_distance idx j :
  in_range idx → (j < N)%nat → cd_Distance (pick idx !!! j) = ds !!! (idx !!! j).
Proof.
  intros [Hl Hr] Hj. unfold pick. rewrite (list_lookup_total_fmap (λ i, items !!! i) idx j) by lia.
  rewrite (list_lookup_total_fmap cd_Distance items (idx !!! j)); [done|]. apply (Forall_lookup_total_1 (λ i, (i < N)%nat) idx); [done|lia].
Qed.

Lemma smallest_pick idx i :
  in_range idx → (i < N)%nat → smallest_from (pick idx) i = best_from false ds idx i.
Proof.
  intros Hidx Hi. unfold smallest_from, best_from. assert (length (pick idx) = N) as -> by (unfold pick; rewrite length_fmap; apply Hidx).
  rewrite length_fmap.
  enough (∀ l m, (m < N)%nat → Forall (λ j, (j < N)%nat) l →
    foldl (λ minIdx j, if flt (cd_Distance (pick idx !!! j)) (cd_Distance (pick idx !!! minIdx)) then j else minIdx) m l
    = foldl (λ best j, if better false (ds !!! (idx !!! j)) (ds !!! (idx !!! best)) then j else best) m l) as H.
  { apply H; [done|]. apply Forall_seq. lia. }
  intros l. induction l as [|j l IH]; intros m Hm Hl; [done|]. apply Forall_cons_iff in Hl as [Hj Hl].
  cbn [foldl]. rewrite !pick_distance by done. unfold better at 2. apply IH; [|done].
  by destruct (flt _ _).
Qed.

Lemma pick_swap idx i j :
  in_range idx → (i < N)%nat → (j < N)%nat → swap i j (pick idx) = pick (swap i j idx).
Proof.
  intros [Hl _] Hi Hj. unfold pick, swap.
  rewrite !(list_lookup_total_fmap (λ i, items !!! i) idx) by lia.
  by rewrite !list_fmap_insert.
Qed.

Lemma swap_in_range idx i j :
  in_range idx → (i < N)%nat → (j < N)%nat → in_range (swap i j idx).
Proof.
  intros [Hl Hr] Hi Hj. split; [by rewrite length_swap|]. rewrite swap_perm by lia. done.
Qed.

Lemma best_from_bound idx i :
  in_range idx → (i < N)%nat → (best_from false ds idx i < N)%nat.
Proof.
  intros Hidx Hi. rewrite <- smallest_pick by done. unfold smallest_from.
  assert (length (pick idx) = N) as -> by (unfold pick; rewrite length_fmap; apply Hidx).
  enough (∀ l m, (m < N)%nat → Forall (λ j, (j < N)%nat) l →
    (foldl (λ minIdx j, if flt (cd_Distance (pick idx !!! j)) (cd_Distance (pick idx !!! minIdx)) then j else minIdx) m l < N)%nat) as H.
  { apply H; [done|]. apply Forall_seq. lia. }
  intros l. induction l as [|j l IH]; intros m Hm Hl; [done|]. apply Forall_cons_iff in Hl as [Hj Hl].
  cbn [foldl]. apply IH; [|done]. by destruct (flt _ _).
Qed.

Definition rounds (k : nat) : list nat :=
  foldl (λ idx i, swap i (best_from false ds idx i) idx) (seq 0 N) (seq 0 k).

Lemma rounds_in_range k : (k ≤ N)%nat → in_range (rounds k).
Proof.
  induction k as [|k IH]; intros Hk; unfold rounds in *.
  - split; [apply length_seq|]. apply Forall_seq. lia.
  - rewrite seq_S, foldl_app. cbn [foldl Nat.add]. specialize (IH ltac:(lia)).
    apply swap_in_range; [done|lia|]. apply best_from_bound; [done|lia].
Qed.

Lemma pick_seq : pick (seq 0 N) = items.
Proof.
  unfold pick. apply list_eq. intros i. rewrite list_lookup_fmap. destruct (decide (i < N)%nat).
  - rewrite lookup_seq_lt by done. cbn. by rewrite list_lookup_lookup_total_lt by done.
  - rewrite !lookup_ge_None_2 by (rewrite ?length_seq; lia). done.
Qed.

Lemma partialSort_pick k : (k ≤ N)%nat → partialSort items (Z.of_nat k) = pick (rounds k).
Proof.
  intros Hk. unfold partialSort. replace (Z.to_nat (Z.min (Z.of_nat k) (len items))) with k by (unfold len; lia).
  induction k as [|k IH]; [|].
  - unfold rounds. cbn [seq foldl]. symmetry. apply pick_seq.
  - unfold rounds. rewrite seq_S, !foldl_app. cbn [foldl Nat.add]. rewrite IH by lia. fold (rounds k).
    pose proof (rounds_in_range k ltac:(lia)). rewrite smallest_pick by (done || lia).
    apply pick_swap; [done|lia|]. apply best_from_bound; [done|lia].
Qed.

Lemma pick_perm idx : idx ≡ₚ seq 0 N → pick idx ≡ₚ items.
Proof.
  intros H. unfold pick. rewrite H. fold (pick (seq 0 N)). by rewrite pick_seq.
Qed.

Lemma rounds_perm k : (k ≤ N)%nat → rounds k ≡ₚ seq 0 N.
Proof.
  induction k as [|k IH]; intros Hk; unfold rounds in *; [done|].
  rewrite seq_S, foldl_app. cbn [foldl Nat.add]. fold (rounds k) in *.
  pose proof (rounds_in_range k ltac:(lia)) as Hr. pose proof (proj1 Hr) as Hl.
  rewrite swap_perm; [apply IH; lia|lia|]. rewrite Hl. apply best_from_bound; [done|lia].
Qed.
End picked.

(** ** The nearest centroids of a vector *)
Section nearest.
Context {calc : Calculator} {gen : Rng}.

Definition entries (km : KMeans) (vec : vector) : list CentroidDistance :=
  imap (λ i c, mkCentroidDistance (Z.of_nat i) (Distance vec c)) (km_centroids km).

Lemma length_entries km vec : length (entries km vec) = length (km_centroids km).
Proof. apply length_imap. Qed.

Lemma FindNearestCentroids_eq km vec n :
  km_centroids km ≠ [] → 0 ≤ n →
  let k := Nat.min (Z.to_nat n) (length (km_centroids km)) in
  FindNearestCentroids km vec n = Ok (take k (pick (entries km vec) (rounds (entries km vec) k))).
Proof.
  intros Hne Hn k. unfold FindNearestCentroids.
  assert (0 < length (km_centroids km))%nat as Hpos by (destruct (km_centroids km); [done|cbn; lia]).
  assert (len (km_centroids km) =? 0 = false) as -> by (apply Z.eqb_neq; unfold len; lia).
  cbv zeta. fold (entries km vec).
  assert ((if n >? len (km_centroids km) then len (km_centroids km) else n) = Z.of_nat k) as ->
    by (unfold k, len; destruct (n >? Z.of_nat (length (km_centroids km))) eqn:E; lia).
  assert (k ≤ length (entries km vec))%nat as Hk by (rewrite length_entries; unfold k; lia).
  rewrite partialSort_pick by done. unfold slice.
  assert (length (pick (entries km vec) (rounds (entries km vec) k)) = length (entries km vec)) as Hl
    by (unfold pick; rewrite length_fmap; by apply rounds_in_range).
  rewrite !(proj2 (Z.leb_le _ _)) by (unfold len; lia). cbn [andb].
  by rewrite Z.sub_0_r, Nat2Z.id.
Qed.

(** With room for all of them every centroid is returned. *)
Lemma FindNearestCentroids_all km vec n :
  km_centroids km ≠ [] → len (km_centroids km) ≤ n →
  ∃ cds, FindNearestCentroids km vec n = Ok cds ∧ cds ≡ₚ entries km vec.
Proof.
  intros Hne Hn. pose proof (len_nonneg (km_centroids km)).
  rewrite FindNearestCentroids_eq by (done || lia). eexists. split; [done|].
  rewrite Nat.min_r by (unfold len in *; lia). rewrite <- (length_entries km vec).
  rewrite take_ge by (unfold pick; rewrite length_fmap; apply Nat.eq_le_incl; by apply rounds_in_range).
  by apply pick_perm, rounds_perm.
Qed.

Lemma FindNearestCentroids_range km vec n :
  km_centroids km ≠ [] → 0 ≤ n →
  ∃ cds, FindNearestCentroids km vec n = Ok cds ∧
    Forall (λ cd, 0 ≤ cd_Index cd < len (km_centroids km)) cds.
Proof.
  intros Hne Hn. rewrite FindNearestCentroids_eq by done. eexists. split; [done|].
  apply Forall_take. rewrite pick_perm by (apply rounds_perm; rewrite length_entries; lia).
  apply Forall_lookup. intros i cd Hi. unfold entries in Hi. apply list_lookup_imap_Some in Hi as (c & Hc & ->).
  apply lookup_lt_Some in Hc. cbn. unfold len. lia.
Qed.

(** The probed clusters are the nearest: of the centroids, [n] or all when
    there are fewer are returned with their distances, in ascending order, each
    once, and none that is left out is nearer than one that is returned. *)
Theorem nearest_centroids_exact km vec n :
  km_centroids km ≠ [] → 0 ≤ n → Forall (λ c, Distance vec c ≠ S754_nan) (km_centroids km) →
  ∃ cds rest, FindNearestCentroids km vec n = Ok cds ∧ entries km vec ≡ₚ cds ++ rest ∧
    len cds = Z.min n (len (km_centroids km)) ∧
    StronglySorted (λ a b, flt (cd_Distance b) (cd_Distance a) = false) cds ∧
    ∀ a b, a ∈ cds → b ∈ rest → flt (cd_Distance b) (cd_Distance a) = false.
Proof.
  intros Hne Hn Hnan. rewrite FindNearestCentroids_eq by done. set (items := entries km vec).
  set (k := Nat.min _ _). assert (k ≤ length items)%nat as Hk by (unfold items; rewrite length_entries; unfold k; lia).
  pose proof (rounds_perm items k Hk) as Hp. pose proof (rounds_in_range items k Hk) as Hr.
  pose proof (proj1 Hr) as Hl. set (idx := rounds items k) in *.
  assert (length (cd_Distance <$> items) = length items) as Hds by apply length_fmap.
  assert (∀ a b, (a < k)%nat → (a < b < length items)%nat →
    flt (cd_Distance (pick items idx !!! b)) (cd_Distance (pick items idx !!! a)) = false) as Hsel.
  { intros a b Ha Hb. rewrite !pick_distance by (done || lia).
    destruct (select_rounds false (cd_Distance <$> items)) with (k := k) as [_ Hs]; [|lia|].
    - apply Forall_fmap, Forall_lookup. intros i c Hc. unfold items, entries in Hc.
      apply list_lookup_imap_Some in Hc as (v & Hv & ->). rewrite Forall_lookup in Hnan. by eapply Hnan.
    - rewrite Hds in Hs. specialize (Hs a b Ha Hb). exact Hs. }
  assert (∀ i c, pick items idx !! i = Some c → c = pick items idx !!! i ∧ (i < length items)%nat) as Hget.
  { intros i c Hc. split; [symmetry; by apply list_lookup_total_correct|].
    apply lookup_lt_Some in Hc. unfold pick in Hc. rewrite length_fmap in Hc. lia. }
  exists (take k (pick items idx)), (drop k (pick items idx)). split_and!.
  - done.
  - rewrite take_drop. symmetry. by apply pick_perm.
  - unfold len. rewrite length_take. unfold pick. rewrite length_fmap, Hl. unfold items.
    rewrite length_entries. unfold k. lia.
  - apply StronglySorted_lookup. intros i j x y Hij Hx Hy.
    apply lookup_take_Some in Hx as [Hx Hi], Hy as [Hy Hj].
    destruct (Hget _ _ Hx) as [-> _], (Hget _ _ Hy) as [-> Hjl]. apply Hsel; lia.
  - intros a b Ha Hb. apply list_elem_of_lookup in Ha as [i Ha], Hb as [j Hb].
    apply lookup_take_Some in Ha as [Ha Hi]. rewrite lookup_drop in Hb.
    destruct (Hget _ _ Ha) as [-> _], (Hget _ _ Hb) as [-> Hjl]. apply Hsel; lia.
Qed.
End nearest.
