(* ===== verification/Ivf.v ===== *)
(** * pkg/index/ivf: the inverted file index

    [ivf.go] and [search.go]: points are kept in insertion order, and once the
    index is trained each cluster lists the points whose nearest centroid it is.
    The quantizer is the stateful one of Quantization.v. [buildLock] and [mu]
    order the methods; a method is one atomic step. Node numbers (uint32) are
    [nat], below [2^32] by the check of [storePoint]. *)
From stdpp Require Import base gmap strings list fin_maps numbers sorting.
From Stdlib Require Import Strings.Byte ZArith Lia Floats.SpecFloat.
From S2P Require Import Prelude GoLoops Float32 Heap Quantization QuantBits HnswQuery Hnsw Distance Kmeans.

#[local] Open Scope Z_scope.

Section ivf.
Context {payload : Type} {calc : Calculator} {gen : Rng} {sorter : Sorter}.

#[local] Abbreviation Point := (Hnsw.Point payload).

Record Config := mkIvfConfig {
  ic_NumClusters : Z;
  ic_Nprobe : Z;
  ic_Dimension : Z;
  ic_Quantizer : option quantizer;
  ic_MaxElements : Z;
  ic_TrainingSamples : Z
}.
Definition DefaultConfig : Config := mkIvfConfig 100 10 0 None 100000 10000.

Record IVF := mkIVF {
  v_config : Config;
  v_kmeans : KMeans;
  v_clusters : gmap Z (list nat);
  v_quantizer : option quantizer;
  v_points : list Point;
  v_idToIndex : gmap string nat;
  v_pointCount : Z;
  v_deletedCount : Z;
  v_trainingBuffer : list vector;
  v_trained : bool
}.
#[local] Abbreviation I := (M IVF ivfError).

(** [clusters[i] = &Cluster{ID: i}] for every [i < n] *)
Definition empty_clusters (n : Z) : gmap Z (list nat) :=
  list_to_map ((λ i, (i, [])) <$> below n).

Definition New (cfg : Config) (g : rng) : result ivfError IVF :=
  if ic_Dimension cfg <=? 0 then Err ErrDimension else
  let numClusters := if ic_NumClusters cfg <=? 0 then 100 else ic_NumClusters cfg in
  let nprobe := if ic_Nprobe cfg <=? 0 then 10 else ic_Nprobe cfg in
  let nprobe := if nprobe >? numClusters then numClusters else nprobe in
  let cfg := mkIvfConfig numClusters nprobe (ic_Dimension cfg) (ic_Quantizer cfg)
    (ic_MaxElements cfg) (ic_TrainingSamples cfg) in
  let kmeansCfg := mkKMeansConfig numClusters 50 (f32_ratio 1 10000) 3 0 in
  if ic_MaxElements cfg <? 0 then Panic else
  if ic_TrainingSamples cfg <? 0 then Panic else
  Ok (mkIVF cfg (NewKMeans kmeansCfg (ic_Dimension cfg) g) (empty_clusters numClusters)
        (ic_Quantizer cfg) [] ∅ 0 0 [] false).

(** ** Changes of the fields *)
Definition set_kmeans (km : KMeans) (s : IVF) : IVF :=
  mkIVF (v_config s) km (v_clusters s) (v_quantizer s) (v_points s) (v_idToIndex s)
    (v_pointCount s) (v_deletedCount s) (v_trainingBuffer s) (v_trained s).
Definition set_quantizer (q : option quantizer) (s : IVF) : IVF :=
  mkIVF (v_config s) (v_kmeans s) (v_clusters s) q (v_points s) (v_idToIndex s)
    (v_pointCount s) (v_deletedCount s) (v_trainingBuffer s) (v_trained s).
Definition set_clusters (cs : gmap Z (list nat)) (trained : bool) (s : IVF) : IVF :=
  mkIVF (v_config s) (v_kmeans s) cs (v_quantizer s) (v_points s) (v_idToIndex s)
    (v_pointCount s) (v_deletedCount s) (v_trainingBuffer s) trained.
Definition set_buffer (b : list vector) (s : IVF) : IVF :=
  mkIVF (v_config s) (v_kmeans s) (v_clusters s) (v_quantizer s) (v_points s) (v_idToIndex s)
    (v_pointCount s) (v_deletedCount s) b (v_trained s).
Definition add_point (p : Point) (s : IVF) : IVF :=
  mkIVF (v_config s) (v_kmeans s) (v_clusters s) (v_quantizer s) (v_points s ++ [p])
    (<[p_ID p := length (v_points s)]> (v_idToIndex s))
    (v_pointCount s + 1) (v_deletedCount s) (v_trainingBuffer s) (v_trained s).

(** A method of the clusterer on its field *)
Definition on_kmeans {A} (m : M KMeans ivfError A) : I A := λ s,
  let '(r, km) := m (v_kmeans s) in (r, set_kmeans km s).

(** ** Insertion and training *)

(** [storePoint]: appending to a cluster that does not exist panics. *)
Definition storePoint (p : Point) (clusterID : Z) : I unit :=
  s ← get;
  match v_idToIndex s !! p_ID p with
  | Some _ => throw ErrPointExists
  | None =>
      if len (v_points s) >? MaxUint32 then throw ErrTooMany else
      let pointID := length (v_points s) in
      modify (add_point p);;
      when (0 <=? clusterID)
        (s ← get;
         match v_clusters s !! clusterID with
         | Some ids => put (set_clusters (<[clusterID := ids ++ [pointID]]> (v_clusters s)) (v_trained s) s)
         | None => panic
         end)
  end.

Definition insertTrained (p : Point) : I unit :=
  s ← get;
  let clusterID := FindNearestCentroid (v_kmeans s) (p_Vector p) in
  if clusterID <? 0 then throw ErrNoCluster else storePoint p clusterID.

(** Training lowers the number of clusters for few vectors. *)
Definition clusters_for (numClusters n : Z) : Z :=
  if numClusters >? n then
    let r := int_of_f64 (SFsqrt 53 1024 (f64_of_Z n)) in if r <? 1 then 1 else r
  else numClusters.

Definition set_NumClusters (n : Z) : M KMeans ivfError unit :=
  modify (λ km, let c := km_config km in
    mkKMeans (mkKMeansConfig n (kc_MaxIterations c) (kc_Tolerance c) (kc_NumInitRuns c) (kc_Seed c))
      (km_centroids km) (km_dimension km) (km_trained km) (km_rng km)).

(** One stored point into the cluster of its nearest centroid *)
Definition reassign (km : KMeans) (numClusters : Z) (i : nat) (p : Point)
    (clusters : gmap Z (list nat)) : result ivfError (gmap Z (list nat)) :=
  let clusterID := FindNearestCentroid km (p_Vector p) in
  if (0 <=? clusterID) && (clusterID <? numClusters) then
    match clusters !! clusterID with
    | Some ids => Ok (<[clusterID := ids ++ [i]]> clusters)
    | None => Panic
    end
  else Ok clusters.

Definition Train (vectors : list vector) : I unit :=
  s ← get;
  if len vectors =? 0 then throw ErrNoVectors else
  let numClusters := clusters_for (ic_NumClusters (v_config s)) (len vectors) in
  on_kmeans (set_NumClusters numClusters);;
  on_kmeans (KMeans_Train vectors);;
  s ← get;
  put (set_clusters (empty_clusters numClusters) true s);;
  clusters ← lift (loop (reassign (v_kmeans s) numClusters) 0 (v_points s) (empty_clusters numClusters));
  modify (set_clusters clusters true);;
  s ← get;
  match v_quantizer s with
  | None => mret tt
  | Some q =>
      let '(r, q) := quant_Train q vectors in
      modify (set_quantizer (Some q));;
      match r with Ok _ => mret tt | Err e => throw (EQuantizer e) | Panic => panic end
  end.

Definition Insert (p : Point) : I unit :=
  s ← get;
  if negb (len (p_Vector p) =? ic_Dimension (v_config s)) then throw ErrDimensionMismatch else
  match v_idToIndex s !! p_ID p with
  | Some _ => throw ErrPointExists
  | None =>
      if v_trained s then insertTrained p else
      let buffer := v_trainingBuffer s ++ [p_Vector p] in
      if len buffer >=? ic_TrainingSamples (v_config s) then
        modify (set_buffer []);; Train buffer;; insertTrained p
      else modify (set_buffer buffer);; storePoint p (-1)
  end.

(** ** The other operations *)

(** [Delete] only counts. *)
Definition Delete (id : string) : I unit :=
  s ← get;
  match v_idToIndex s !! id with
  | None => throw ErrPointNotFound
  | Some _ => modify (λ s, mkIVF (v_config s) (v_kmeans s) (v_clusters s) (v_quantizer s) (v_points s)
      (v_idToIndex s) (v_pointCount s) (v_deletedCount s + 1) (v_trainingBuffer s) (v_trained s))
  end.

Definition Get (s : IVF) (id : string) : result ivfError Point :=
  match v_idToIndex s !! id with
  | None => Err ErrPointNotFound
  | Some i => index (v_points s) (Z.of_nat i)
  end.

Definition Size (s : IVF) : Z := v_pointCount s - v_deletedCount s.
Definition TotalSize (s : IVF) : Z := v_pointCount s.
Definition NumClusters (s : IVF) : Z := Z.of_nat (size (v_clusters s)).
Definition ClusterSizes (s : IVF) : gmap Z Z := (len (A:=nat)) <$> v_clusters s.
Definition GetNodeID (s : IVF) (id : string) : option nat := v_idToIndex s !! id.
Definition GetPointID (s : IVF) (nodeID : nat) : string :=
  match v_points s !! nodeID with Some p => p_ID p | None => "" end.
Definition GetAllPoints (s : IVF) : list Point := v_points s.

Definition SetNprobe (nprobe : Z) : I unit :=
  modify (λ s, if (0 <? nprobe) && (nprobe <=? NumClusters s) then
    mkIVF (mkIvfConfig (ic_NumClusters (v_config s)) nprobe (ic_Dimension (v_config s))
             (ic_Quantizer (v_config s)) (ic_MaxElements (v_config s)) (ic_TrainingSamples (v_config s)))
      (v_kmeans s) (v_clusters s) (v_quantizer s) (v_points s) (v_idToIndex s)
      (v_pointCount s) (v_deletedCount s) (v_trainingBuffer s) (v_trained s) else s).

(** [Iterate]: the first error ends it. *)
Fixpoint iterate_ids {S E} (fn : string → M S E unit) (ps : list Point) : M S E unit :=
  match ps with
  | [] => mret tt
  | p :: ps => fn (p_ID p);; iterate_ids fn ps
  end.

(** ** Search *)
Record SearchParams := mkIvfParams {
  vp_K : Z;
  vp_Nprobe : Z;
  vp_Filter : option (string → payload → bool)
}.
Definition accepts (f : option (string → payload → bool)) (p : Point) : bool :=
  match f with None => true | Some f => f (p_ID p) (p_Payload p) end.

(** The distance of a point: to its code when it can be encoded *)
Definition point_distance (query : vector) (p : Point) : I f32 :=
  s ← get;
  match v_quantizer s with
  | None => mret (Distance query (p_Vector p))
  | Some q =>
      let '(r, q) := Quantization.Encode q (p_Vector p) in
      put (set_quantizer (Some q) s);;
      match r with
      | Ok code =>
          let '(d, q) := quant_Distance q query code in
          put (set_quantizer (Some q) s);;
          match d with Ok d => mret d | _ => panic end
      | Err _ => mret (Distance query (p_Vector p))
      | Panic => panic
      end
  end.

(** A candidate into the heap of the [k] nearest; with an empty heap that may
    hold none its root is out of range. *)
Definition keep_nearest (k : Z) (c : Candidate) (results : list Candidate) : result ivfError (list Candidate) :=
  if len results <? k then Ok (heap_Push max_less c results) else
  match results with
  | [] => Panic
  | root :: _ =>
      if flt (cDistance c) (cDistance root) then
        match heap_Pop max_less results with
        | Some (_, rest) => Ok (heap_Push max_less c rest)
        | None => Panic
        end
      else Ok results
  end.

(** One point of a cluster *)
Definition visit (query : vector) (params : SearchParams) (pointID : nat) (results : list Candidate) :
    I (list Candidate) :=
  s ← get;
  match v_points s !! pointID with
  | None => mret results
  | Some p =>
      if negb (accepts (vp_Filter params) p) then mret results else
      d ← point_distance query p;
      lift (keep_nearest (vp_K params) (mkCandidate pointID d) results)
  end.

(** The exact distances of the results, sorted *)
Definition rescored (query : vector) (cs : list Candidate) : I (list Candidate) :=
  s ← get;
  match v_quantizer s with
  | None => mret cs
  | Some _ =>
      cs ← loop (λ _ c out, p ← lift (index (v_points s) (Z.of_nat (cID c)));
                   mret (out ++ [mkCandidate (cID c) (Distance query (p_Vector p))])) 0 cs [];
      mret (sort_Slice min_less cs)
  end.

(** [bruteForceSearch], for an index that is not trained *)
Definition bruteForceSearch (query : vector) (k : Z) (f : option (string → payload → bool)) (s : IVF) :
    result ivfError (list Candidate) :=
  results ← loop (λ i p results,
      if negb (accepts f p) then Ok results
      else keep_nearest k (mkCandidate i (Distance query (p_Vector p))) results) 0 (v_points s) [];
  Ok (heap_drain max_less results).

Definition SearchWithParams (query : vector) (params : SearchParams) : I (list Candidate) :=
  s ← get;
  if negb (len query =? ic_Dimension (v_config s)) then throw ErrDimensionMismatch else
  if negb (v_trained s) then lift (bruteForceSearch query (vp_K params) (vp_Filter params) s) else
  let nprobe := if vp_Nprobe params <=? 0 then ic_Nprobe (v_config s) else vp_Nprobe params in
  nearestClusters ← lift (FindNearestCentroids (v_kmeans s) query nprobe);
  results ← loop (λ _ cd results,
      match v_clusters s !! cd_Index cd with
      | None => mret results
      | Some ids => loop (λ _ id results, visit query params id results) 0 ids results
      end) 0 nearestClusters [];
  rescored query (heap_drain max_less results).

Definition Search (query : vector) (k : Z) : I (list Candidate) :=
  SearchWithParams query (mkIvfParams k 0 None).

(** [SearchWithFilter]: twice the clusters, when the parameters give a number *)
Definition SearchWithFilter (query : vector) (params : SearchParams) : I (list Candidate) :=
  match vp_Filter params with
  | None => SearchWithParams query params
  | Some _ =>
      s ← get;
      let nprobe := vp_Nprobe params * 2 in
      let nprobe := if nprobe >? NumClusters s then NumClusters s else nprobe in
      SearchWithParams query (mkIvfParams (vp_K params) nprobe (vp_Filter params))
  end.

(** [RangeSearch]: clusters whose centroid is beyond twice the radius are skipped. *)
Definition RangeSearch (query : vector) (radius : f32) (s : IVF) : result ivfError (list Candidate) :=
  if negb (len query =? ic_Dimension (v_config s)) then Err ErrDimensionMismatch else
  let within (i : nat) (p : Point) (results : list Candidate) :=
    let dist := Distance query (p_Vector p) in
    if fle dist radius then results ++ [mkCandidate i dist] else results in
  if negb (v_trained s) then
    Ok (foldl (λ results '(i, p), within i p results) [] (imap pair (v_points s)))
  else
    allClusters ← FindNearestCentroids (v_kmeans s) query (NumClusters s);
    let results := foldl (λ results cd,
        if fgt (cd_Distance cd) (f32_mul (f32_of_Z 2) radius) then results else
        match v_clusters s !! cd_Index cd with
        | None => results
        | Some ids => foldl (λ results id,
            match v_points s !! id with None => results | Some p => within id p results end) results ids
        end) [] allClusters in
    Ok (sort_Slice min_less results).

Definition Recommend (id : string) (k : Z) : I (list Candidate) :=
  s ← get;
  p ← lift (Get s id);
  results ← Search (p_Vector p) (k + 1);
  s ← get;
  if k <? 0 then panic else
  filtered ← lift (loop (λ _ c out, q ← index (v_points s) (Z.of_nat (cID c));
      Ok (if String.eqb (p_ID q) id then out else out ++ [c])) 0 results []);
  mret (if len filtered >? k then take (Z.to_nat k) filtered else filtered).

(** [BatchSearchWithParams]: the searches read the index; without a quantizer
    their order does not matter, and this is the order of the queries. The first
    error is reported next to all the results. *)
Definition BatchSearchWithParams (queries : list vector) (params : SearchParams) :
    I (list (list Candidate) * option ivfError) :=
  loop (λ _ q '(rs, err), (λ s,
      match SearchWithParams q params s with
      | (Ok cs, s) => (Ok (rs ++ [cs], err), s)
      | (Err e, s) => (Ok (rs ++ [[]], match err with None => Some e | e => e end), s)
      | (Panic, s) => (Panic, s)
      end) : I (list (list Candidate) * option ivfError)) 0 queries ([], None).
End ivf.
