(* ===== verification/IvfClusters.v ===== *)
(** * pkg/index/ivf: the clusters

    Training returns the number of centroids it is configured for, and changes
    nothing but the state of the generator until it succeeds. Over every history
    of an index, each cluster lists, in order, the points whose nearest centroid
    it is. *)
From stdpp Require Import base gmap strings list fin_maps numbers sorting.
From Stdlib Require Import Strings.Byte ZArith Lia Floats.SpecFloat.
From S2P Require Import Prelude GoLoops Float32 Heap Quantization QuantBits HnswQuery Hnsw Distance Kmeans Ivf.

#[local] Open Scope Z_scope.

(** ** What a loop that returns establishes *)
Lemma loop_post {S E A X} (I : nat → X → S → Prop) (body : nat → A → X → M S E X) l i x s x' s' :
  I i x s →
  (∀ k a x s y t, l !! k = Some a → I (i + k)%nat x s → body (i + k)%nat a x s = (Ok y, t) →
     I (1 + (i + k))%nat y t) →
  loop body i l x s = (Ok x', s') → I (i + length l)%nat x' s'.
Proof.
  revert i x s. induction l as [|a l IH]; intros i x s Hi Hstep Hrun.
  - injection Hrun as <- <-. by rewrite Nat.add_0_r.
  - cbn [loop] in Hrun. minv Hrun as y t Hb. cbn [length]. rewrite <- Nat.add_succ_comm.
    eapply IH; [|clear Hrun|exact Hrun].
    + specialize (Hstep 0%nat a x s y t eq_refl). rewrite Nat.add_0_r in Hstep. by apply Hstep.
    + intros k b z u w v Hk Hz Hbody. specialize (Hstep (1 + k)%nat b z u w v Hk).
      rewrite <- Nat.add_succ_comm in Hstep. by apply Hstep.
Qed.

Lemma loop_post_result {E A X} (I : nat → X → Prop) (body : nat → A → X → result E X) l i x x' :
  I i x →
  (∀ k a x y, l !! k = Some a → I (i + k)%nat x → body (i + k)%nat a x = Ok y → I (1 + (i + k))%nat y) →
  loop body i l x = Ok x' → I (i + length l)%nat x'.
Proof.
  revert i x. induction l as [|a l IH]; intros i x Hi Hstep Hrun.
  - injection Hrun as <-. by rewrite Nat.add_0_r.
  - cbn [loop] in Hrun. destruct (body i a x) as [y| |] eqn:Hb; [|done..]. rewrite Ok_bind in Hrun.
    cbn [length]. rewrite <- Nat.add_succ_comm. eapply IH; [|clear Hrun|exact Hrun].
    + specialize (Hstep 0%nat a x y eq_refl). rewrite Nat.add_0_r in Hstep. by apply Hstep.
    + intros k b z w Hk Hz Hbody. specialize (Hstep (1 + k)%nat b z w Hk).
      rewrite <- Nat.add_succ_comm in Hstep. by apply Hstep.
Qed.

Section kmeans.
Context {calc : Calculator} {gen : Rng}.

(** ** Computations that only draw *)
Definition same_but_rng (km km' : KMeans) : Prop :=
  km_config km' = km_config km ∧ km_centroids km' = km_centroids km ∧
  km_dimension km' = km_dimension km ∧ km_trained km' = km_trained km.
Definition draws {A} (m : M KMeans ivfError A) : Prop := ∀ km, same_but_rng km (m km).2.

Lemma draws_run {A} (m : M KMeans ivfError A) km r km' : draws m → m km = (r, km') → same_but_rng km km'.
Proof. intros Hm E. specialize (Hm km). by rewrite E in Hm. Qed.

Lemma same_refl km : same_but_rng km km.
Proof. done. Qed.
Lemma same_trans a b c : same_but_rng a b → same_but_rng b c → same_but_rng a c.
Proof. intros (?&?&?&?) (?&?&?&?). unfold same_but_rng. by split_and!; etrans. Qed.

Lemma draws_ret {A} (x : A) : draws (mret x).
Proof. intros km. apply same_refl. Qed.
Lemma draws_lift {A} (r : result ivfError A) : draws (lift r).
Proof. intros km. apply same_refl. Qed.
Lemma draws_panic {A} : draws (panic (A:=A)).
Proof. intros km. apply same_refl. Qed.
Lemma draws_get : draws get.
Proof. intros km. apply same_refl. Qed.
Lemma draws_bind {A B} (m : M KMeans ivfError A) (f : A → M KMeans ivfError B) :
  draws m → (∀ x, draws (f x)) → draws (m ≫= f).
Proof.
  intros Hm Hf km. specialize (Hm km). unfold mbind, M_bind.
  destruct (m km) as [[x| |] km'] eqn:E; cbn in *; [|done..]. by apply (same_trans _ _ _ Hm), Hf.
Qed.
Lemma draws_loop {A X} (body : nat → A → X → M KMeans ivfError X) i l x :
  (∀ i a x, draws (body i a x)) → draws (loop body i l x).
Proof.
  intros Hb. revert i x. induction l as [|a l IH]; intros i x; cbn [loop]; [apply draws_ret|].
  by apply draws_bind.
Qed.
Lemma draws_draw n : draws (draw n).
Proof. intros km. unfold draw. destruct (n <=? 0); [apply same_refl|]. by destruct (Intn n (km_rng km)). Qed.
Lemma draws_float : draws draw_float.
Proof. intros km. unfold draw_float. by destruct (rand_Float32 (km_rng km)). Qed.

Ltac draws_step :=
  first [apply draws_ret | apply draws_lift | apply draws_panic | apply draws_get | apply draws_draw
        | apply draws_float | apply draws_bind; [|intros ?] | apply draws_loop; intros ???
        | match goal with
          | |- draws (if ?b then _ else _) => destruct b
          | |- draws (match ?x with _ => _ end) => destruct x
          end].

Lemma draws_sample vectors : draws (sample vectors).
Proof. unfold sample. repeat draws_step. Qed.
Lemma draws_samples vectors k : draws (samples vectors k).
Proof. unfold samples. repeat (draws_step || apply draws_sample). Qed.
Lemma draws_one_run vectors : draws (one_run vectors).
Proof.
  unfold one_run, initializeCentroidsKMeansPlusPlus, plus_round.
  repeat (draws_step || apply draws_sample || apply draws_samples).
Qed.

(** ** The number of centroids *)
Lemma samples_length vectors k km cs km' :
  samples vectors k km = (Ok cs, km') → length cs = Z.to_nat k.
Proof.
  unfold samples. intros H.
  apply (loop_post (λ i (cs : list vector) (_ : KMeans), length cs = i)) in H; [by rewrite H, length_below|done|].
  intros j a x s y t _ Hx Hy. minv Hy as v u Hv. injection Hy as <- <-. rewrite length_app, Hx. cbn. lia.
Qed.

Lemma plus_round_length vectors st km st' km' :
  plus_round vectors st km = (Ok st', km') → length st'.1 = S (length st.1).
Proof.
  destruct st as [cs ds]. unfold plus_round. intros H. minv H as c u Hc.
  destruct (update_distances vectors c ds) as [ds' total].
  assert (∀ (c : vector) (km0 km1 : KMeans) r, (Ok (E:=ivfError) (cs ++ [c], ds'), km0) = (Ok r, km1) →
    length r.1 = S (length cs)) as Hend.
  { intros c0 km0 km1 r [= <- _]. cbn. rewrite length_app. cbn. lia. }
  destruct (SFeqb total f32_zero).
  - minv H as d v Hd. by eapply Hend.
  - minv H as x v Hx. destruct (reach _ _ _ _); minv H as d w Hd; by eapply Hend.
Qed.

Lemma initialize_length vectors km cs km' :
  0 < kc_NumClusters (km_config km) →
  initializeCentroidsKMeansPlusPlus vectors km = (Ok cs, km') →
  cs = [] ∨ length cs = Z.to_nat (kc_NumClusters (km_config km)).
Proof.
  intros Hk H. unfold initializeCentroidsKMeansPlusPlus in H. minv H as km0 s E. injection E as <- <-.
  destruct (_ || _); [left; by injection H|]. destruct (_ <? 0); [done|].
  minv H as first u Hf. minv H as st v Hs. injection H as <- <-. right.
  apply (loop_post (λ i (st : list vector * list f32) (_ : KMeans), length st.1 = S i)) in Hs; [|done|].
  - rewrite Hs, length_below. lia.
  - intros j a x s y t _ Hx Hy. apply plus_round_length in Hy. lia.
Qed.

Lemma assign_vector_length dim cs vec st st' :
  assign_vector dim cs vec st = Ok st' →
  length (l_sums st') = length (l_sums st) ∧ length (l_sizes st') = length (l_sizes st).
Proof.
  unfold assign_vector. destruct (nearest_scan vec cs) as [d c]. intros H.
  assert (∀ {A} (l : list A) i x l', assign (E:=ivfError) l i x = Ok l' → length l' = length l) as Ha.
  { intros A l i x l'. unfold assign. destruct (_ && _); [|done]. intros [= <-]. apply length_insert. }
  destruct (index (l_sizes st) _) as [size| |]; [|done..]. rewrite Ok_bind in H.
  destruct (assign (l_sizes st) _ _) as [sizes| |] eqn:E1; [|done..]. rewrite Ok_bind in H.
  destruct (index (l_sums st) _) as [acc| |]; [|done..]. rewrite Ok_bind in H.
  destruct (accumulate dim vec acc) as [acc'| |]; [|done..]. rewrite Ok_bind in H.
  destruct (assign (l_sums st) _ _) as [sums| |] eqn:E2; [|done..]. injection H as <-.
  cbn. eauto.
Qed.

Lemma updates_length (l : list (vector * vector * Z)) acc shift :
  length (foldl (λ '(cs, maxShift) '(c, sum, size),
      let '(c, maxShift) := update_centroid c sum size maxShift in (cs ++ [c], maxShift))
    (acc, shift) l).1 = (length acc + length l)%nat.
Proof.
  revert acc shift. induction l as [|[[c sum] size] l IH]; intros acc shift; cbn [foldl]; [cbn; lia|].
  destruct (update_centroid c sum size shift). rewrite IH, length_app. cbn. lia.
Qed.

Lemma iteration_length dim vectors cs cs' inertia shift :
  iteration dim vectors cs = Ok (cs', inertia, shift) → length cs' = length cs.
Proof.
  unfold iteration. intros H. destruct (make dim f32_zero) as [zeros| |]; [|done..]. rewrite Ok_bind in H.
  destruct (loop _ 0 vectors _) as [st| |] eqn:Hl; [|done..]. rewrite Ok_bind in H.
  apply (loop_post_result (λ _ st, length (l_sums st) = length cs ∧ length (l_sizes st) = length cs)) in Hl.
  - destruct Hl as [H1 H2]. pose proof (updates_length (zip (zip cs (l_sums st)) (l_sizes st)) [] f32_zero) as Hu.
    destruct (foldl _ _ _) as [out m] eqn:E. injection H as <- _ _. cbn [fst] in Hu. rewrite Hu.
    rewrite !length_zip. cbn. lia.
  - cbn. by rewrite !length_replicate.
  - intros k a x y _ [H1 H2] Hy. apply assign_vector_length in Hy as [-> ->]. done.
Qed.

Lemma runKMeans_length n dim tol vectors cs inertia cs' inertia' :
  runKMeans n dim tol vectors cs inertia = Ok (cs', inertia') → length cs' = length cs.
Proof.
  revert cs inertia. induction n as [|n IH]; intros cs inertia H; cbn [runKMeans] in H.
  - by injection H as <- _.
  - destruct (iteration dim vectors cs) as [[[cs1 i1] s1]| |] eqn:E; [|done..]. rewrite Ok_bind in H.
    apply iteration_length in E. rewrite <- E. destruct (flt s1 tol); [by injection H as <- _|by apply IH in H].
Qed.

Lemma one_run_length vectors km cs inertia km' :
  0 < kc_NumClusters (km_config km) → one_run vectors km = (Ok (cs, inertia), km') →
  length cs = Z.to_nat (kc_NumClusters (km_config km)).
Proof.
  intros Hk H. unfold one_run in H. minv H as km0 s E. injection E as <- <-.
  minv H as c0 s0 Hi. minv H as c1 s1 Hs. unfold lift in H. injection H as H _. apply runKMeans_length in H.
  rewrite H. apply initialize_length in Hi; [|done]. destruct (len c0 =? 0) eqn:E.
  - by apply samples_length in Hs.
  - injection Hs as <- _. destruct Hi as [->|Hi]; [done|exact Hi].
Qed.

Lemma KMeans_Train_Ok vectors km km' :
  0 < kc_NumClusters (km_config km) → KMeans_Train vectors km = (Ok tt, km') →
  km_config km' = km_config km ∧ km_dimension km' = km_dimension km ∧
  len (km_centroids km') = kc_NumClusters (km_config km).
Proof.
  intros Hk H. unfold KMeans_Train in H. minv H as km0 s E. injection E as <- <-.
  destruct (len vectors =? 0); [done|]. destruct (_ <? _); [done|].
  minv H as best s1 Hb. minv H as cs s2 Hc. injection H as <-. cbn [km_config km_dimension km_centroids].
  assert (same_but_rng km s1) as H1.
  { eapply draws_run; [|exact Hb]. apply draws_loop. intros i a [bc bi].
    apply draws_bind; [apply draws_one_run|]. intros [c0 i0]. apply draws_ret. }
  assert (same_but_rng km s2) as H2.
  { apply (same_trans _ _ _ H1). destruct (_ && _); [|by injection Hc as _ <-].
    eapply draws_run; [apply draws_samples|exact Hc]. }
  destruct H2 as (-> & _ & -> & _). split; [done|]. split; [done|].
  apply (loop_post (λ _ (b : list vector * f32) km1, same_but_rng km km1 ∧
    (b.1 = [] ∨ length b.1 = Z.to_nat (kc_NumClusters (km_config km))))) in Hb.
  - destruct Hb as [_ Hb]. destruct ((len best.1 =? 0) && (kc_NumClusters (km_config km) >? 0)) eqn:E.
    + apply samples_length in Hc. unfold len. lia.
    + injection Hc as <- _. destruct Hb as [Hb|Hb]; [|unfold len; lia].
      rewrite Hb, len_nil in E. cbn in E. lia.
  - split; [apply same_refl|by left].
  - intros j a [bc bi] s y t _ [Hs Hx] Hy. minv Hy as r u Hr. destruct r as [c0 i0]. injection Hy as <- <-.
    split; [apply (same_trans _ _ _ Hs); eapply draws_run; [apply draws_one_run|exact Hr]|].
    destruct Hs as (Hcfg & _). destruct (flt i0 bi); [|done]. right. cbn.
    rewrite <- Hcfg. eapply one_run_length; [|exact Hr]. by rewrite Hcfg.
Qed.

(** Whatever its outcome, training changes the centroids only when it succeeds. *)
Definition all_or_nothing (m : M KMeans ivfError unit) : Prop :=
  ∀ km, (m km).1 = Ok tt ∨ same_but_rng km (m km).2.

Lemma draws_then {A} (m : M KMeans ivfError A) f :
  draws m → (∀ x, all_or_nothing (f x)) → all_or_nothing (m ≫= f).
Proof.
  intros Hm Hf km. specialize (Hm km). unfold mbind, M_bind.
  destruct (m km) as [[x| |] km'] eqn:E; cbn in *; [|by right..].
  destruct (Hf x km') as [H|H]; [by left|right]. by eapply same_trans.
Qed.

Lemma KMeans_Train_frame vectors : all_or_nothing (KMeans_Train vectors).
Proof.
  apply draws_then; [apply draws_get|]. intros km. cbv zeta. destruct (len vectors =? 0); [intros ?; right; apply same_refl|].
  destruct (len vectors <? kc_NumClusters (km_config km)); [intros ?; right; apply same_refl|]. apply draws_then; [|intros best; apply draws_then].
  - apply draws_loop. intros i a [bc bi]. apply draws_bind; [apply draws_one_run|]. intros []. apply draws_ret.
  - destruct ((len best.1 =? 0) && _); [apply draws_samples|apply draws_ret].
  - intros ?. by left.
Qed.
End kmeans.

(** ** The members of a cluster *)
Section clusters.
Context {payload : Type} {calc : Calculator} {gen : Rng} {sorter : Sorter}.
#[local] Abbreviation Point := (Hnsw.Point payload).
#[local] Abbreviation Index := (IVF (payload := payload)).

Implicit Types (km : KMeans) (ps : list Point) (s : Index).

Definition home_of km ps (i : nat) : Z :=
  match ps !! i with Some p => FindNearestCentroid km (p_Vector p) | None => -1 end.

(** The points of cluster [c], in the order of insertion *)
Definition members km ps (c : Z) : list nat :=
  filter (λ i, home_of km ps i = c) (seq 0 (length ps)).

Lemma nearest_scan_bound vec (cs : list vector) : cs ≠ [] → ((nearest_scan vec cs).2 < length cs)%nat.
Proof.
  intros Hne. unfold nearest_scan.
  enough (∀ l (d : f32) i, (i < length cs)%nat → Forall (λ '(j, _), (j < length cs)%nat) l →
    ((foldl (λ '(minDist, minIdx) '(i, c),
      if flt (Distance vec c) minDist then (Distance vec c, i) else (minDist, minIdx)) (d, i) l).2 < length cs)%nat) as H.
  { apply H; [destruct cs; [done|cbn; lia]|]. apply Forall_forall. intros [j c] Hj.
    apply elem_of_lookup_imap in Hj as (k & v & [= -> ->] & Hk). by eapply lookup_lt_Some. }
  clear Hne. intros l. induction l as [|[j c] l IH]; intros d i Hi Hl; [done|].
  apply Forall_cons_iff in Hl as [Hj Hl]. cbn [foldl]. destruct (flt _ d); by apply IH.
Qed.

Lemma home_range km vec :
  km_centroids km ≠ [] → 0 ≤ FindNearestCentroid km vec < len (km_centroids km).
Proof.
  intros Hne. unfold FindNearestCentroid. pose proof (nearest_scan_bound vec _ Hne).
  assert (len (km_centroids km) =? 0 = false) as -> by (apply Z.eqb_neq; unfold len; lia).
  unfold len. lia.
Qed.

Lemma home_same km km' vec :
  km_centroids km' = km_centroids km → FindNearestCentroid km' vec = FindNearestCentroid km vec.
Proof. unfold FindNearestCentroid. by intros ->. Qed.

Lemma members_same km km' ps c :
  km_centroids km' = km_centroids km → members km' ps c = members km ps c.
Proof.
  intros H. unfold members. apply list_filter_iff. intros i. unfold home_of.
  destruct (ps !! i); [by rewrite (home_same km km')|done].
Qed.

Lemma members_app km ps p c :
  members km (ps ++ [p]) c =
  members km ps c ++ (if decide (FindNearestCentroid km (p_Vector p) = c) then [length ps] else []).
Proof.
  unfold members. rewrite length_app, Nat.add_1_r, seq_S, filter_app. f_equal.
  - apply filter_agree. intros i Hi%elem_of_seq. unfold home_of.
    by rewrite lookup_app_l by lia.
  - assert (home_of km (ps ++ [p]) (0 + length ps) = FindNearestCentroid km (p_Vector p)) as E
      by (unfold home_of; cbn; by rewrite list_lookup_middle).
    destruct (decide _); [rewrite filter_cons_True|rewrite filter_cons_False]; by rewrite ?E.
Qed.

Lemma members_take km ps i p c :
  ps !! i = Some p →
  members km (take (S i) ps) c =
  members km (take i ps) c ++ (if decide (FindNearestCentroid km (p_Vector p) = c) then [i] else []).
Proof.
  intros Hp. rewrite (take_S_r _ _ _ Hp), members_app.
  by rewrite length_take_le by (apply lookup_lt_Some in Hp; lia).
Qed.

Lemma empty_clusters_lookup n c :
  empty_clusters n !! c = if decide (0 ≤ c < n) then Some [] else None.
Proof.
  unfold empty_clusters. case_decide as Hc.
  - apply elem_of_list_to_map_1.
    + rewrite <- list_fmap_compose. unfold below. rewrite <- list_fmap_compose.
      apply NoDup_fmap; [|apply NoDup_seq]. intros i j. cbn. lia.
    + apply list_elem_of_fmap. exists c. split; [done|]. unfold below. apply list_elem_of_fmap.
      exists (Z.to_nat c). split; [lia|]. apply elem_of_seq. lia.
  - apply not_elem_of_list_to_map_1. rewrite <- list_fmap_compose. intros H.
    apply list_elem_of_fmap in H as (x & -> & Hx). apply list_elem_of_lookup in Hx as [k Hk].
    apply below_lookup in Hk. cbn in *. lia.
Qed.

(** The clusters over the centroids of [km], holding the members among [ps] *)
Definition clustered km ps (cl : gmap Z (list nat)) : Prop :=
  ∀ c, cl !! c = if decide (0 ≤ c < len (km_centroids km)) then Some (members km ps c) else None.

(** Listing one more point where it belongs keeps this. *)
Lemma clustered_insert km ps p cl :
  km_centroids km ≠ [] → clustered km ps cl →
  let c := FindNearestCentroid km (p_Vector p) in
  cl !! c = Some (members km ps c) ∧
  clustered km (ps ++ [p]) (<[c := members km ps c ++ [length ps]]> cl).
Proof.
  intros Hne Hcl c. pose proof (home_range km (p_Vector p) Hne) as Hc. fold c in Hc. split.
  - rewrite Hcl. by rewrite decide_True.
  - intros d. rewrite members_app. fold c. destruct (decide (c = d)) as [<-|Hd].
    + rewrite lookup_insert_eq. by rewrite decide_True.
    + rewrite lookup_insert_ne by done. rewrite app_nil_r. apply Hcl.
Qed.

Lemma reassign_all km ps :
  km_centroids km ≠ [] →
  ∃ cl, loop (reassign km (len (km_centroids km))) 0 ps (empty_clusters (len (km_centroids km))) = Ok cl ∧
    clustered km ps cl.
Proof.
  intros Hne.
  run_loop (λ i cl, clustered km (take i ps) cl) as cl Hcl Hinv; [| |exists cl; split; [done|]].
  - intros c. rewrite empty_clusters_lookup. by case_decide.
  - cbn [Nat.add]. intros i p cl Hp Hinv. unfold reassign.
    pose proof (home_range km (p_Vector p) Hne) as Hc.
    rewrite (proj2 (Z.leb_le _ _)), (proj2 (Z.ltb_lt _ _)) by lia. cbn [andb].
    destruct (clustered_insert km (take i ps) p cl Hne Hinv) as [-> Hins].
    eexists. split; [done|]. rewrite <- (take_S_r _ _ _ Hp) in Hins.
    by rewrite length_take_le in Hins by (apply lookup_lt_Some in Hp; lia).
  - cbn [Nat.add] in Hinv. by rewrite firstn_all in Hinv.
Qed.

(** ** The invariant of an index *)
Record ivf_inv (s : Index) : Prop := {
  inv_ids : ∀ id i, v_idToIndex s !! id = Some i ↔ ∃ p, v_points s !! i = Some p ∧ p_ID p = id;
  inv_count : v_pointCount s = len (v_points s);
  inv_config : 0 < ic_NumClusters (v_config s) ∧ 0 < ic_Dimension (v_config s);
  inv_nprobe : 0 < ic_Nprobe (v_config s);
  inv_vectors : Forall (λ p, len (p_Vector p) = ic_Dimension (v_config s)) (v_points s);
  inv_trained : v_trained s = true →
    km_centroids (v_kmeans s) ≠ [] ∧ clustered (v_kmeans s) (v_points s) (v_clusters s)
}.

Lemma clusters_for_pos k n : 0 < k → 0 < clusters_for k n.
Proof. intros Hk. unfold clusters_for. destruct (k >? n); [|done]. cbv zeta. destruct (_ <? 1) eqn:E; lia. Qed.

Lemma New_inv cfg g s : New cfg g = Ok s → ivf_inv s.
Proof.
  unfold New. destruct (ic_Dimension cfg <=? 0) eqn:Hd; [done|]. cbv zeta.
  cbn [ic_TrainingSamples ic_MaxElements]. destruct (ic_MaxElements cfg <? 0); [done|].
  destruct (ic_TrainingSamples cfg <? 0); [done|]. intros [= <-]. split; cbn; try done.
  - intros id i. rewrite lookup_empty. split; [done|]. intros (p & Hp & _). done.
  - split; [|lia]. destruct (ic_NumClusters cfg <=? 0) eqn:E; lia.
  - destruct (ic_NumClusters cfg <=? 0) eqn:E; destruct (ic_Nprobe cfg <=? 0) eqn:E'; destruct (_ >? _); lia.
Qed.

(** Fields the invariant does not speak of *)
Lemma inv_change s s' :
  ivf_inv s → v_idToIndex s' = v_idToIndex s → v_points s' = v_points s →
  v_pointCount s' = v_pointCount s → ic_NumClusters (v_config s') = ic_NumClusters (v_config s) →
  ic_Dimension (v_config s') = ic_Dimension (v_config s) →
  (0 < ic_Nprobe (v_config s) → 0 < ic_Nprobe (v_config s')) →
  v_trained s' = v_trained s → v_clusters s' = v_clusters s →
  km_centroids (v_kmeans s') = km_centroids (v_kmeans s) → ivf_inv s'.
Proof.
  intros [H1 H2 H3 Hn H4 H5] E1 E2 E3 E4 E5 En E6 E7 E8.
  split.
  - intros id i. by rewrite E1, E2.
  - by rewrite E2, E3.
  - by rewrite E4, E5.
  - by apply En.
  - rewrite E2. eapply Forall_impl; [exact H4|]. intros p. by rewrite E5.
  - rewrite E2, E6, E7, E8. intros Ht. destruct (H5 Ht) as [Hne Hcl]. split; [done|]. intros c.
  rewrite E8, (members_same (v_kmeans s)) by done. apply Hcl.
Qed.

Lemma inv_add_point s p :
  ivf_inv s → v_idToIndex s !! p_ID p = None → len (p_Vector p) = ic_Dimension (v_config s) →
  ∀ cl, (v_trained s = true → clustered (v_kmeans s) (v_points s ++ [p]) cl) →
  ivf_inv (set_clusters cl (v_trained s) (add_point p s)).
Proof.
  intros [H1 H2 H3 Hn H4 H5] Hnew Hdim cl Hcl. split; cbn; try done.
  - intros id i. destruct (decide (id = p_ID p)) as [->|Hid].
    + rewrite lookup_insert_eq. split.
      * intros [= <-]. exists p. by rewrite list_lookup_middle.
      * intros (q & Hq & Eq). apply lookup_snoc_Some in Hq as [[_ Hq]|[-> _]]; [|done].
        assert (v_idToIndex s !! p_ID p = Some i) as E by (apply H1; eauto). congruence.
    + rewrite lookup_insert_ne by done. rewrite H1. split; intros (q & Hq & Eq); exists q; split; try done.
      * rewrite lookup_app_l by (by eapply lookup_lt_Some). done.
      * apply lookup_snoc_Some in Hq as [[_ Hq]|[_ ->]]; [done|congruence].
  - rewrite len_app, len_cons, len_nil. lia.
  - apply Forall_app. split; [done|by constructor].
  - intros Ht. destruct (H5 Ht) as [Hne _]. split; [done|]. by apply Hcl.
Qed.

(** ** The operations keep the invariant *)
Lemma storePoint_inv s p c :
  ivf_inv s → len (p_Vector p) = ic_Dimension (v_config s) →
  (v_trained s = false ∧ c = -1 ∨
   v_trained s = true ∧ c = FindNearestCentroid (v_kmeans s) (p_Vector p)) →
  ivf_inv (storePoint p c s).2.
Proof.
  intros Hs Hdim Hc. unfold storePoint. rewrite (M_bind_run get _ _ _ _ eq_refl).
  destruct (v_idToIndex s !! p_ID p) eqn:Hnew; [done|]. destruct (_ >? _); [done|]. unfold_M.
  destruct Hc as [[Ht ->]|[Ht ->]].
  - cbn. pose proof (inv_add_point s p Hs Hnew Hdim (v_clusters s)) as H. rewrite Ht in H.
    specialize (H ltac:(done)). by rewrite <- Ht in H at 1.
  - destruct (inv_trained s Hs Ht) as [Hne Hcl]. pose proof (home_range (v_kmeans s) (p_Vector p) Hne).
    rewrite (proj2 (Z.leb_le _ _)) by lia. cbn.
    destruct (clustered_insert _ _ p _ Hne Hcl) as [-> Hins]. cbn.
    exact (inv_add_point s p Hs Hnew Hdim _ (λ _, Hins)).
Qed.

Lemma insertTrained_inv s p :
  ivf_inv s → v_trained s = true → len (p_Vector p) = ic_Dimension (v_config s) →
  ivf_inv (insertTrained p s).2.
Proof.
  intros Hs Ht Hdim. unfold insertTrained. rewrite (M_bind_run get _ _ _ _ eq_refl). cbv zeta.
  destruct (_ <? 0); [done|]. apply storePoint_inv; auto.
Qed.

Lemma M_bind_stop {St E A B} (m : M St E A) (f : A → M St E B) (s s1 s' : St) r r' :
  m s = (r, s1) → (∀ a, r ≠ Ok a) → (m ≫= f) s = (r', s') → s' = s1 ∧ ∀ b, r' ≠ Ok b.
Proof.
  intros Hm Hr. unfold mbind, M_bind. rewrite Hm.
  destruct r as [a| |]; [by destruct (Hr a)|by intros [= <- <-]..].
Qed.

(** What training leaves: on success a trained index, and always the points *)
Lemma Train_inv vectors s r s' :
  ivf_inv s → Train vectors s = (r, s') →
  ivf_inv s' ∧ v_config s' = v_config s ∧ (r = Ok tt → v_trained s' = true).
Proof.
  intros Hs H. unfold Train in H. rewrite (M_bind_run get _ _ _ _ eq_refl) in H.
  destruct (len vectors =? 0); [by injection H as <- <-|]. cbv zeta in H.
  set (k := clusters_for (ic_NumClusters (v_config s)) (len vectors)) in H.
  assert (0 < k) as Hk by (apply clusters_for_pos, Hs).
  set (km1 := (set_NumClusters k (v_kmeans s)).2). set (s1 := set_kmeans km1 s).
  rewrite (M_bind_run (on_kmeans (set_NumClusters k)) _ s s1 tt eq_refl) in H.
  assert (ivf_inv s1) as Hs1 by by apply (inv_change s).
  pose proof (KMeans_Train_frame vectors km1) as Hframe. pose proof (KMeans_Train_Ok vectors km1) as Hok.
  destruct (KMeans_Train vectors km1) as [r0 km2] eqn:E. cbn [fst snd] in Hframe.
  assert (on_kmeans (KMeans_Train vectors) s1 = (r0, set_kmeans km2 s1)) as E1
    by (unfold on_kmeans; change (v_kmeans s1) with km1; by rewrite E).
  destruct (decide (r0 = Ok tt)) as [->|Hr0].
  2: { destruct Hframe as [|(_ & Hc & _)]; [done|].
    destruct (M_bind_stop _ _ _ _ _ _ _ E1 ltac:(by intros []) H) as [-> Hr].
    split_and!; [by apply (inv_change s1)|done|intros E2; by destruct (Hr tt)]. }
  rewrite (M_bind_run _ _ _ _ _ E1) in H. clear E1 Hframe.
  destruct (Hok km2 Hk eq_refl) as (_ & _ & Hlen). cbn in Hlen.
  assert (km_centroids km2 ≠ []) as Hne by (intros E2; rewrite E2, len_nil in Hlen; lia).
  rewrite (M_bind_run get _ _ _ _ eq_refl), (M_bind_run (put _) _ _ _ tt eq_refl) in H.
  cbn [v_kmeans v_points set_kmeans] in H. destruct (reassign_all km2 (v_points s1) Hne) as (cl & Hl & Hcl).
  rewrite Hlen in Hl. rewrite (lift_bind _ _ _ _ Hl) in H.
  rewrite (M_bind_run (modify _) _ _ _ tt eq_refl), (M_bind_run get _ _ _ _ eq_refl) in H.
  set (s2 := set_clusters cl true _) in H.
  assert (ivf_inv s2) as Hs2.
  { destruct Hs1 as [H1 H2 H3 Hn H4 _]. split; [done..|]. intros _. by split. }
  destruct (v_quantizer s2) as [q|]; [|by injection H as <- <-].
  destruct (quant_Train q vectors) as [rq q'].
  rewrite (M_bind_run (modify _) _ _ _ tt eq_refl) in H.
  assert (s' = set_quantizer (Some q') s2) as -> by (by destruct rq; injection H as <- <-).
  by split_and!; [apply (inv_change s2)|..].
Qed.

Lemma Insert_inv s p : ivf_inv s → ivf_inv (Insert p s).2.
Proof.
  intros Hs. unfold Insert. rewrite (M_bind_run get _ _ _ _ eq_refl).
  destruct (len (p_Vector p) =? _) eqn:Hdim; [|done]. cbn [negb]. apply Z.eqb_eq in Hdim.
  destruct (v_idToIndex s !! p_ID p); [done|].
  destruct (v_trained s) eqn:Ht; [by apply insertTrained_inv|]. cbv zeta.
  destruct (_ >=? _).
  - set (s1 := set_buffer [] s). rewrite (M_bind_run (modify (set_buffer [])) _ s s1 tt eq_refl).
    assert (ivf_inv s1) as Hs1 by by apply (inv_change s).
    destruct (Train (v_trainingBuffer s ++ [p_Vector p]) s1) as [r s2] eqn:E.
    destruct (Train_inv _ _ _ _ Hs1 E) as (Hinv & Hcfg & Htr). destruct (decide (r = Ok tt)) as [->|Hr].
    + rewrite (M_bind_run _ _ _ _ _ E). apply insertTrained_inv; [done|by apply Htr|by rewrite Hcfg].
    + destruct ((Train _;; insertTrained p) s1) as [r' s'] eqn:E'.
      by destruct (M_bind_stop _ _ _ _ _ _ _ E ltac:(by intros []) E') as [-> _].
  - set (b := v_trainingBuffer s ++ [p_Vector p]).
    rewrite (M_bind_run (modify (set_buffer b)) _ s (set_buffer b s) tt eq_refl).
    apply storePoint_inv; [by apply (inv_change s)|done|by left].
Qed.

Lemma Delete_inv s id : ivf_inv s → ivf_inv (Delete id s).2.
Proof.
  intros Hs. unfold Delete. rewrite (M_bind_run get _ _ _ _ eq_refl).
  destruct (v_idToIndex s !! id); [|done]. by apply (inv_change s).
Qed.

Lemma SetNprobe_inv s n : ivf_inv s → ivf_inv (SetNprobe n s).2.
Proof. intros Hs. unfold SetNprobe. cbn. destruct (_ && _) eqn:E; [|done].
  apply andb_true_iff in E as [E _]. apply (inv_change s); try done. intros _. cbn. lia.
Qed.

(** ** Searches change at most the quantizer *)
Definition reads {A} (m : M Index ivfError A) : Prop := ∀ s, ∃ q, (m s).2 = set_quantizer q s.

Lemma reads_inv {A} (m : M Index ivfError A) s : reads m → ivf_inv s → ivf_inv (m s).2.
Proof. intros Hm Hs. destruct (Hm s) as [q ->]. by apply (inv_change s). Qed.

Lemma set_same s : set_quantizer (v_quantizer s) s = s.
Proof. by destruct s. Qed.
Lemma reads_pure {A} (m : M Index ivfError A) : (∀ s, (m s).2 = s) → reads m.
Proof. intros H s. exists (v_quantizer s). by rewrite H, set_same. Qed.
Lemma reads_bind {A B} (m : M Index ivfError A) (f : A → M Index ivfError B) :
  reads m → (∀ x, reads (f x)) → reads (m ≫= f).
Proof.
  intros Hm Hf s. destruct (Hm s) as [q E]. unfold mbind, M_bind.
  destruct (m s) as [[x| |] s']; cbn in *; subst; [|by exists q..].
  destruct (Hf x (set_quantizer q s)) as [q' ->]. by exists q'.
Qed.
Lemma reads_loop {A X} (body : nat → A → X → M Index ivfError X) i l x :
  (∀ i a x, reads (body i a x)) → reads (loop body i l x).
Proof.
  intros Hb. revert i x. induction l as [|a l IH]; intros i x; cbn [loop]; [by apply reads_pure|].
  by apply reads_bind.
Qed.

Lemma reads_point_distance query p : reads (point_distance query p).
Proof.
  intros s. unfold point_distance. rewrite (M_bind_run get _ _ _ _ eq_refl).
  destruct (v_quantizer s) as [q|] eqn:E; [|exists None; rewrite <- E; symmetry; apply set_same].
  destruct (Quantization.Encode q (p_Vector p)) as [[code| |] q1]; unfold_M; cbn; [|by eexists..].
  destruct (quant_Distance q1 query code) as [[]  q2]; cbn; by eexists.
Qed.

Lemma reads_SearchWithParams query params : reads (SearchWithParams query params).
Proof.
  unfold SearchWithParams. apply reads_bind; [by apply reads_pure|]. intros s.
  destruct (negb _); [by apply reads_pure|]. destruct (negb _); [by apply reads_pure|].
  apply reads_bind; [by apply reads_pure|]. intros cds. apply reads_bind.
  - apply reads_loop. intros _ cd rs. destruct (v_clusters s !! _); [|by apply reads_pure].
    apply reads_loop. intros _ id rs'. unfold visit. apply reads_bind; [by apply reads_pure|]. intros s'.
    destruct (v_points s' !! id) as [p|]; [|by apply reads_pure].
    destruct (negb _); [by apply reads_pure|]. apply reads_bind; [apply reads_point_distance|].
    intros d. by apply reads_pure.
  - intros rs. unfold rescored. apply reads_bind; [by apply reads_pure|]. intros s'.
    destruct (v_quantizer s'); [|by apply reads_pure]. apply reads_bind; [|by intros; apply reads_pure].
    apply reads_loop. intros _ c out. by apply reads_bind; intros; apply reads_pure.
Qed.
End clusters.
