(* ===== verification/IvfTheorems.v ===== *)
(** * pkg/index/ivf: what the index guarantees

    The bounded heap of a search holds the nearest of the candidates it has seen;
    so a search returns the nearest of the points in the clusters it probes, and
    of all points when it probes every cluster. The clusters partition the
    points. What falls short: range searches skip clusters that hold answers, and
    deletions do not delete. *)
From stdpp Require Import base gmap strings list fin_maps numbers sorting.
From Stdlib Require Import Strings.Byte ZArith Lia Floats.SpecFloat.
From S2P Require Import Prelude GoLoops Float32 Heap Quantization QuantBits HnswQuery Hnsw Distance HnswSearch.
From S2P Require Import Kmeans Ivf IvfClusters.

#[local] Open Scope Z_scope.

(** ** The nearest [k] of a pool of candidates *)
Definition knn (k : Z) (pool cs : list Candidate) : Prop :=
  ∃ rest, pool ≡ₚ cs ++ rest ∧ len cs = Z.min k (len pool) ∧ ascending cs ∧
    ∀ c r, c ∈ cs → r ∈ rest → flt (cDistance r) (cDistance c) = false.

(** The same of a heap that has seen [seen] *)
Definition kept (k : Z) (seen rs : list Candidate) : Prop :=
  max_heap rs ∧ ∃ rest, seen ≡ₚ rs ++ rest ∧ len rs = Z.min k (len seen) ∧
    ∀ c r, c ∈ rs → r ∈ rest → flt (cDistance r) (cDistance c) = false.

Lemma kept_nil k : 0 < k → kept k [] [].
Proof.
  intros Hk. split; [intros j; cbn; lia|]. exists []. split; [done|]. split; [rewrite len_nil; lia|].
  intros c r Hc. by apply not_elem_of_nil in Hc.
Qed.

(** A heap with room takes the candidate. *)
Lemma keep_push k c seen rs :
  Forall cmp rs → cmp c → kept k seen rs → len rs < k → kept k (seen ++ [c]) (heap_Push max_less c rs).
Proof.
  intros Hrs Hc [Hheap (rest & Hp & Hl & _)] Hroom.
  assert (len seen = len rs + len rest) as Hsl by (rewrite <- len_app; unfold len; by rewrite Hp).
  assert (rest = []) as -> by (apply length_zero_iff_nil; unfold len in *; lia).
  split; [by apply (Push_ok max_less cmp max_less_asym max_less_trans)|].
  exists []. rewrite app_nil_r in *.
  split; [rewrite (Push_perm max_less), Hp; by rewrite Permutation_app_comm|].
  split; [|intros ? r _ Hr; by apply not_elem_of_nil in Hr].
  unfold len in *. rewrite length_Push, length_app. cbn. lia.
Qed.

(** A full heap gives up a farthest candidate [x] for a nearer one. *)
Lemma keep_replace k c seen rs x l' :
  Forall cmp rs → cmp c → kept k seen rs → k ≤ len rs →
  heap_Pop max_less rs = Some (x, l') → flt (cDistance c) (cDistance x) = true →
  kept k (seen ++ [c]) (heap_Push max_less c l').
Proof.
  intros Hrs Hc [Hheap (rest & Hp & Hl & Hfar)] Hfull Hpop Hcx. pose proof (Pop_perm _ _ _ _ Hpop) as Hpp.
  destruct (Pop_ok max_less cmp max_less_asym max_less_trans _ _ _ Hrs Hheap Hpop) as [Hheap' Hmax].
  assert (Forall cmp l') as Hl' by (rewrite Hpp in Hrs; by apply Forall_cons_iff in Hrs as [? ?]).
  assert (x ∈ rs) as Hin by (rewrite Hpp; left).
  split; [by apply (Push_ok max_less cmp max_less_asym max_less_trans)|].
  exists (x :: rest). split; [|split].
  - rewrite (Push_perm max_less), Hp, Hpp. solve_Permutation.
  - unfold len in *. rewrite length_Push, length_app. apply Permutation_length in Hpp. cbn in *. lia.
  - intros d r Hd Hr. rewrite Push_perm in Hd. rewrite Forall_forall in Hmax. apply elem_of_cons in Hd as [->|Hd].
    + apply elem_of_cons in Hr as [->|Hr]; [by apply flt_asym|].
      destruct (flt (cDistance r) (cDistance c)) eqn:E2; [|done].
      rewrite <- (Hfar x r Hin Hr). symmetry. by eapply flt_trans.
    + assert (d ∈ rs) as Hdr by (rewrite Hpp; by right).
      apply elem_of_cons in Hr as [->|Hr]; [by apply Hmax|by apply Hfar].
Qed.

(** The root of a heap is a farthest candidate. *)
Lemma root_farthest root rs0 y :
  Forall cmp (root :: rs0) → max_heap (root :: rs0) → y ∈ root :: rs0 →
  flt (cDistance root) (cDistance y) = false.
Proof.
  intros Hrs Hheap Hy. apply list_elem_of_lookup in Hy as [j Hj]. apply lookup_lt_Some in Hj as Hjl.
  pose proof (heap_root max_less cmp max_less_asym max_less_trans _ _ j Hrs (Nat.le_refl _) Hheap Hjl) as H.
  by rewrite (list_lookup_total_correct _ _ _ Hj) in H.
Qed.

(** One more candidate *)
Lemma keep_step k c seen rs :
  0 < k → Forall cmp seen → cmp c → kept k seen rs →
  ∃ rs', keep_nearest k c rs = Ok rs' ∧ kept k (seen ++ [c]) rs'.
Proof.
  intros Hk Hseen Hc Hkept. pose proof Hkept as [Hheap (rest & Hp & Hl & Hfar)]. unfold keep_nearest.
  assert (Forall cmp rs) as Hrs by (rewrite Hp in Hseen; by apply Forall_app in Hseen as [? _]).
  destruct (len rs <? k) eqn:E; [eexists; split; [done|apply keep_push; auto; lia]|].
  destruct rs as [|root rs0]; [rewrite len_nil in E; lia|].
  pose proof (root_farthest root rs0) as Hroot.
  destruct (flt (cDistance c) (cDistance root)) eqn:Hlt.
  - destruct (Pop_Some max_less (root :: rs0)) as (x & l' & Hpop); [done|]. rewrite Hpop.
    eexists. split; [done|]. eapply keep_replace; [done..|lia|exact Hpop|].
    destruct (flt (cDistance c) (cDistance x)) eqn:E2; [done|]. rewrite <- Hlt. symmetry.
    destruct (Pop_ok max_less cmp max_less_asym max_less_trans _ _ _ Hrs Hheap Hpop) as [_ Hmax].
    apply Forall_cons_iff in Hmax as [Hmax _]. apply Pop_perm in Hpop. rewrite Hpop in Hrs.
    apply Forall_cons_iff in Hrs as [Hx _]. by apply (flt_ge_trans _ (cDistance x)).
  - exists (root :: rs0). split; [done|]. split; [done|]. exists (c :: rest). split; [|split].
    + rewrite Hp. solve_Permutation.
    + rewrite len_app, Hl. rewrite len_cons, len_nil. lia.
    + intros d r Hd Hr. apply elem_of_cons in Hr as [->|Hr]; [|by apply Hfar].
      apply (flt_ge_trans _ (cDistance root)); [|by apply Hroot|done].
      by apply Forall_cons_iff in Hrs as [? _].
Qed.

Lemma keep_list k cs seen rs :
  0 < k → Forall cmp (seen ++ cs) → kept k seen rs →
  ∃ rs', foldl (λ r c, r ≫= keep_nearest k c) (Ok rs) cs = Ok rs' ∧ kept k (seen ++ cs) rs'.
Proof.
  intros Hk. revert seen rs. induction cs as [|c cs IH]; intros seen rs Hc Hkept.
  - exists rs. by rewrite app_nil_r.
  - apply Forall_app in Hc as [Hs Hcs]. apply Forall_cons_iff in Hcs as [Hc Hcs].
    destruct (keep_step k c seen rs) as (rs' & E & Hkept'); [done..|]. cbn [foldl]. rewrite Ok_bind, E.
    destruct (IH (seen ++ [c]) rs') as (rs'' & E' & H'); [|done|].
    + rewrite <- app_assoc. apply Forall_app. split; [done|by constructor].
    + exists rs''. by rewrite <- app_assoc in H'.
Qed.

(** Emptied, the heap is the nearest candidates in order. *)
Lemma kept_knn k seen rs : Forall cmp seen → kept k seen rs → knn k seen (heap_drain max_less rs).
Proof.
  intros Hs [Hheap (rest & Hp & Hl & Hfar)].
  assert (Forall cmp rs) as Hrs by (rewrite Hp in Hs; by apply Forall_app in Hs as [? _]).
  pose proof (heap_drain_perm max_less rs) as Hd. exists rest. split_and!.
  - by rewrite Hd.
  - unfold len in *. by rewrite Hd.
  - by apply drain_ascending.
  - intros c r Hc. rewrite Hd in Hc. by apply Hfar.
Qed.

Section searches.
Context {payload : Type} {calc : Calculator} {gen : Rng} {sorter : Sorter}.
#[local] Abbreviation Point := (Hnsw.Point payload).
#[local] Abbreviation Index := (IVF (payload := payload)).

Section query.
Context (query : vector) (f : option (string → payload → bool)).

(** The candidates of the points with numbers [ids] that the filter accepts *)
Definition candidate (ps : list Point) (i : nat) : option Candidate :=
  p ← ps !! i; if accepts f p then Some (mkCandidate i (Distance query (p_Vector p))) else None.
Definition pool (ps : list Point) (ids : list nat) : list Candidate := omap (candidate ps) ids.

Lemma pool_app ps ids ids' : pool ps (ids ++ ids') = pool ps ids ++ pool ps ids'.
Proof. apply omap_app. Qed.
Lemma pool_perm ps ids ids' : ids ≡ₚ ids' → pool ps ids ≡ₚ pool ps ids'.
Proof. unfold pool. by intros ->. Qed.

(** No distance of the query is NaN. *)
Definition comparable_points (ps : list Point) : Prop :=
  Forall (λ p, Distance query (p_Vector p) ≠ S754_nan) ps.
Lemma pool_cmp ps ids : comparable_points ps → Forall cmp (pool ps ids).
Proof.
  intros Hps. apply Forall_forall. intros c Hc. apply list_elem_of_omap in Hc as (i & _ & Hi).
  unfold candidate in Hi. apply bind_Some in Hi as (p & Hp & Hi). destruct (accepts f p); [|done].
  injection Hi as <-. unfold comparable_points in Hps. rewrite Forall_lookup in Hps. by eapply Hps.
Qed.

Lemma visit_eq k n s id rs :
  v_quantizer s = None →
  visit query (mkIvfParams k n f) id rs s =
  (match candidate (v_points s) id with Some c => keep_nearest k c rs | None => Ok rs end, s).
Proof.
  intros Hq. unfold visit. rewrite (M_bind_run get _ _ _ _ eq_refl). unfold candidate.
  destruct (v_points s !! id) as [p|]; [|done]. cbn [mbind option_bind vp_Filter vp_K].
  destruct (accepts f p); [|done]. cbn [negb]. unfold point_distance, mbind, M_bind, get. rewrite Hq.
  reflexivity.
Qed.

Lemma visit_list k n s ids i seen rs :
  0 < k → v_quantizer s = None → Forall cmp (seen ++ pool (v_points s) ids) → kept k seen rs →
  ∃ rs', loop (λ _ id rs, visit query (mkIvfParams k n f) id rs) i ids rs s = (Ok rs', s) ∧
    kept k (seen ++ pool (v_points s) ids) rs'.
Proof.
  intros Hk Hq. revert i seen rs. induction ids as [|id ids IH]; intros i seen rs Hc Hkept.
  - exists rs. cbn. by rewrite app_nil_r.
  - cbn [loop]. change (pool (v_points s) (id :: ids)) with
      (pool (v_points s) ([id] ++ ids)) in *. rewrite pool_app in *. rewrite app_assoc in *.
    assert (∃ rs1, visit query (mkIvfParams k n f) id rs s = (Ok rs1, s) ∧
      kept k (seen ++ pool (v_points s) [id]) rs1) as (rs1 & E & Hkept1).
    { rewrite visit_eq by done. unfold pool in *. cbn [omap list_omap] in *.
      destruct (candidate (v_points s) id) as [c|]; [|exists rs; by rewrite app_nil_r].
      apply Forall_app in Hc as [Hc _]. apply Forall_app in Hc as [Hs Hc].
      apply Forall_cons_iff in Hc as [Hc _].
      destruct (keep_step k c seen rs) as (rs1 & -> & H1); [done..|]. by exists rs1. }
    rewrite (M_bind_run _ _ _ _ _ E). by apply IH.
Qed.

(** The points of the clusters that are probed *)
Definition probed (s : Index) (cds : list CentroidDistance) : list nat :=
  cds ≫= λ cd, default [] (v_clusters s !! cd_Index cd).

Lemma probe_list k n s cds i seen rs :
  0 < k → v_quantizer s = None → Forall cmp (seen ++ pool (v_points s) (probed s cds)) → kept k seen rs →
  ∃ rs', loop (λ _ cd results,
      match v_clusters s !! cd_Index cd with
      | None => mret results
      | Some ids => loop (λ _ id results, visit query (mkIvfParams k n f) id results) 0 ids results
      end) i cds rs s = (Ok rs', s) ∧ kept k (seen ++ pool (v_points s) (probed s cds)) rs'.
Proof.
  intros Hk Hq. revert i seen rs. induction cds as [|cd cds IH]; intros i seen rs Hc Hkept.
  - exists rs. cbn. by rewrite app_nil_r.
  - cbn [loop]. unfold probed in *. cbn [mbind list_bind] in *. rewrite pool_app, app_assoc in *.
    destruct (v_clusters s !! cd_Index cd) as [ids|] eqn:Ecl; cbn [default] in *.
    + pose proof Hc as Hc'. apply Forall_app in Hc' as [Hc' _].
      destruct (visit_list k n s ids 0 seen rs Hk Hq Hc' Hkept) as (rs1 & E & H1).
      rewrite (M_bind_run _ _ _ _ _ E). by apply IH.
    + unfold pool in *. cbn [omap list_omap] in *. rewrite app_nil_r in *.
      rewrite (M_bind_run (mret rs) _ s s rs eq_refl). by apply IH.
Qed.

Lemma search_trained k n s cds :
  0 < k → v_trained s = true → v_quantizer s = None → len query = ic_Dimension (v_config s) →
  comparable_points (v_points s) →
  FindNearestCentroids (v_kmeans s) query (if n <=? 0 then ic_Nprobe (v_config s) else n) = Ok cds →
  ∃ cs, SearchWithParams query (mkIvfParams k n f) s = (Ok cs, s) ∧
    knn k (pool (v_points s) (probed s cds)) cs.
Proof.
  intros Hk Ht Hq Hd Hps Hcds. unfold SearchWithParams. rewrite (M_bind_run get _ _ _ _ eq_refl).
  rewrite (proj2 (Z.eqb_eq _ _) Hd), Ht. cbn [negb vp_Nprobe vp_Filter vp_K].
  rewrite (lift_bind _ _ _ _ Hcds).
  pose proof (pool_cmp (v_points s) (probed s cds) Hps) as Hc.
  destruct (probe_list k n s cds 0 [] []) as (rs & E & Hkept); [done..|by apply kept_nil|].
  rewrite (M_bind_run _ _ _ _ _ E). exists (heap_drain max_less rs).
  unfold rescored. rewrite (M_bind_run get _ _ _ _ eq_refl), Hq. split; [done|]. by apply kept_knn.
Qed.

Lemma search_untrained k n s :
  0 < k → v_trained s = false → len query = ic_Dimension (v_config s) → comparable_points (v_points s) →
  ∃ cs, SearchWithParams query (mkIvfParams k n f) s = (Ok cs, s) ∧
    knn k (pool (v_points s) (seq 0 (length (v_points s)))) cs.
Proof.
  intros Hk Ht Hd Hps. unfold SearchWithParams. rewrite (M_bind_run get _ _ _ _ eq_refl).
  rewrite (proj2 (Z.eqb_eq _ _) Hd), Ht. cbn [negb vp_Filter vp_K]. unfold bruteForceSearch, lift.
  pose proof (pool_cmp (v_points s) (seq 0 (length (v_points s))) Hps) as Hc.
  run_loop (λ i rs, kept k (pool (v_points s) (seq 0 i)) rs) as rs Hr Hinv; [by apply kept_nil| |].
  - cbn [Nat.add]. intros i p rs Hp Hkept. rewrite seq_S, pool_app. cbn [Nat.add].
    assert (pool (v_points s) [i] = if accepts f p then [mkCandidate i (Distance query (p_Vector p))] else []) as ->.
    { unfold pool, candidate. cbn [omap list_omap]. rewrite Hp. cbn. by destruct (accepts f p). }
    destruct (accepts f p); cbn [negb]; [|exists rs; by rewrite app_nil_r].
    apply keep_step; [done|by apply pool_cmp| |done].
    unfold comparable_points in Hps. rewrite Forall_lookup in Hps. by eapply Hps.
  - rewrite Hr, Ok_bind. eexists. split; [done|]. by apply kept_knn.
Qed.
End query.

(** ** The clusters partition the points *)
Lemma elem_of_members km (ps : list Point) c i :
  i ∈ members km ps c ↔ (i < length ps)%nat ∧ home_of km ps i = c.
Proof. unfold members. rewrite list_elem_of_filter, elem_of_seq. split; [intros [? ?]|intros [? ?]]; (split; [|]; [done || lia..]). Qed.

Lemma home_of_range km (ps : list Point) i :
  km_centroids km ≠ [] → (i < length ps)%nat → 0 ≤ home_of km ps i < len (km_centroids km).
Proof.
  intros Hne Hi. unfold home_of. destruct (lookup_lt_is_Some_2 ps i Hi) as [p ->]. by apply home_range.
Qed.

Lemma members_union km (ps : list Point) :
  km_centroids km ≠ [] → GoLoops.below (len (km_centroids km)) ≫= members km ps ≡ₚ seq 0 (length ps).
Proof.
  intros Hne. apply NoDup_Permutation.
  - apply NoDup_bind.
    + intros c d i _ _ Hc Hd. apply elem_of_members in Hc as [_ <-], Hd as [_ <-]. done.
    + intros c _. apply NoDup_filter, NoDup_seq.
    + unfold GoLoops.below. apply NoDup_fmap; [intros ? ?; lia|apply NoDup_seq].
  - apply NoDup_seq.
  - intros i. rewrite list_elem_of_bind, elem_of_seq. split.
    + intros (c & Hi & _). apply elem_of_members in Hi. lia.
    + intros Hi. exists (home_of km ps i). rewrite elem_of_members. split; [split; [lia|done]|].
      pose proof (home_of_range km ps i Hne ltac:(lia)). unfold GoLoops.below. apply list_elem_of_fmap.
      exists (Z.to_nat (home_of km ps i)). rewrite elem_of_seq. lia.
Qed.

Lemma probed_indexes s cds :
  probed s cds = (cd_Index <$> cds) ≫= λ c, default [] (v_clusters s !! c).
Proof. unfold probed. induction cds as [|cd cds IH]; [done|]. cbn. by rewrite IH. Qed.

Lemma entries_indexes km vec : cd_Index <$> entries km vec = GoLoops.below (len (km_centroids km)).
Proof.
  unfold entries, GoLoops.below, len. rewrite Nat2Z.id. apply list_eq. intros i.
  rewrite list_lookup_fmap, list_lookup_imap, list_lookup_fmap.
  destruct (decide (i < length (km_centroids km))%nat) as [Hi|Hi].
  - rewrite lookup_seq_lt by done. by destruct (lookup_lt_is_Some_2 _ _ Hi) as [c ->].
  - rewrite !lookup_ge_None_2 by (rewrite ?length_seq; lia). done.
Qed.

Lemma bind_agree {A B} (f g : A → list B) l : Forall (λ x, f x = g x) l → l ≫= f = l ≫= g.
Proof. induction 1 as [|x l Hx _ IH]; [done|]. cbn. by rewrite Hx, IH. Qed.

(** Every cluster probed is every point seen once. *)
Lemma probed_all s cds query :
  ivf_inv s → v_trained s = true → cds ≡ₚ entries (v_kmeans s) query →
  probed s cds ≡ₚ seq 0 (length (v_points s)).
Proof.
  intros Hs Ht Hcds. destruct (inv_trained s Hs Ht) as [Hne Hcl].
  rewrite <- (members_union (v_kmeans s) (v_points s) Hne), probed_indexes, Hcds, entries_indexes.
  apply Permutation_refl', bind_agree, Forall_forall. intros c Hc.
  rewrite Hcl, decide_True; [done|]. apply list_elem_of_lookup in Hc as [i Hi].
  by apply below_lookup in Hi as [_ ?].
Qed.

(** ** Histories *)
Inductive op :=
| OInsert (p : Point) | OTrain (vectors : list vector) | ODelete (id : string) | OSetNprobe (n : Z)
| OSearch (query : vector) (params : SearchParams (payload := payload)).

(** A call, whatever its outcome, leaves an index. *)
Definition step (s : Index) (o : op) : Index :=
  match o with
  | OInsert p => (Insert p s).2
  | OTrain vectors => (Train vectors s).2
  | ODelete id => (Delete id s).2
  | OSetNprobe n => (SetNprobe n s).2
  | OSearch query params => (SearchWithParams query params s).2
  end.

Lemma step_inv s o : ivf_inv s → ivf_inv (step s o).
Proof.
  intros Hs. destruct o; cbn [step].
  - by apply Insert_inv.
  - destruct (Train vectors s) as [r s'] eqn:E. by eapply Train_inv in E as [? _].
  - by apply Delete_inv.
  - by apply SetNprobe_inv.
  - apply reads_inv; [apply reads_SearchWithParams|done].
Qed.

Lemma history_inv cfg g s ops : New cfg g = Ok s → ivf_inv (foldl step s ops).
Proof.
  intros Hnew. assert (ivf_inv s) as Hs by (by eapply New_inv). clear Hnew. revert s Hs.
  induction ops as [|o ops IH]; intros s Hs; [done|]. cbn. by apply IH, step_inv.
Qed.

(** C33. After every history of insertions, trainings, deletions and searches,
    whatever fails on the way, the clusters of a trained index partition its
    points: each stored point is listed in exactly one cluster, the one whose
    centroid is nearest to it, and each cluster lists its points in the order of
    insertion, the points stored before the training included. *)
Theorem clusters_partition cfg g s0 ops :
  New cfg g = Ok s0 →
  let s := foldl step s0 ops in
  v_trained s = true →
  (∀ c ids, v_clusters s !! c = Some ids ↔
     0 ≤ c < len (km_centroids (v_kmeans s)) ∧
     ids = filter (λ i, home_of (v_kmeans s) (v_points s) i = c) (seq 0 (length (v_points s)))) ∧
  ∀ i p, v_points s !! i = Some p →
    ∃ ids, v_clusters s !! FindNearestCentroid (v_kmeans s) (p_Vector p) = Some ids ∧ i ∈ ids ∧
      ∀ c ids', v_clusters s !! c = Some ids' → i ∈ ids' → c = FindNearestCentroid (v_kmeans s) (p_Vector p).
Proof.
  intros Hnew s Ht. pose proof (history_inv cfg g s0 ops Hnew) as Hs. fold s in Hs.
  destruct (inv_trained s Hs Ht) as [Hne Hcl]. split.
  - intros c ids. rewrite Hcl. case_decide as Hc; split.
    + by intros [= <-].
    + by intros [_ ->].
    + done.
    + by intros [? _].
  - intros i p Hp. pose proof (home_range (v_kmeans s) (p_Vector p) Hne).
    assert (home_of (v_kmeans s) (v_points s) i = FindNearestCentroid (v_kmeans s) (p_Vector p)) as Hhome
      by (unfold home_of; by rewrite Hp).
    eexists. rewrite Hcl, decide_True by done. split; [done|]. split.
    + apply elem_of_members. split; [by eapply lookup_lt_Some|done].
    + intros c ids'. rewrite Hcl. case_decide; [|done]. intros [= <-] Hi.
      apply elem_of_members in Hi as [_ <-]. done.
Qed.

Lemma probed_members (s : Index) cds :
  ivf_inv s → v_trained s = true →
  Forall (λ cd, 0 ≤ cd_Index cd < len (km_centroids (v_kmeans s))) cds →
  probed s cds = cds ≫= λ cd, members (v_kmeans s) (v_points s) (cd_Index cd).
Proof.
  intros Hs Ht Hr. destruct (inv_trained s Hs Ht) as [Hne Hcl]. apply bind_agree.
  eapply Forall_impl; [exact Hr|]. intros cd Hcd. cbn in Hcd. by rewrite Hcl, decide_True.
Qed.

Lemma nprobe_positive (s : Index) n :
  ivf_inv s → 0 < (if n <=? 0 then ic_Nprobe (v_config s) else n).
Proof. intros Hs. pose proof (inv_nprobe s Hs). destruct (n <=? 0) eqn:E; lia. Qed.

(** A search returns the nearest of what it probes. Over every history, for
    an index without a quantizer and a query without NaN distances, the result
    is the [K] nearest, in order, of the accepted points in the clusters that
    [FindNearestCentroids] chooses, the [Nprobe] nearest. *)
Theorem ivf_search_probed cfg g s0 ops query k nprobe f :
  New cfg g = Ok s0 →
  let s := foldl step s0 ops in
  v_trained s = true → v_quantizer s = None → 0 < k → len query = ic_Dimension (v_config s) →
  comparable_points query (v_points s) →
  let n := if nprobe <=? 0 then ic_Nprobe (v_config s) else nprobe in
  ∃ cds cs, FindNearestCentroids (v_kmeans s) query n = Ok cds ∧
    SearchWithParams query (mkIvfParams k nprobe f) s = (Ok cs, s) ∧
    knn k (pool query f (v_points s)
      (cds ≫= λ cd, members (v_kmeans s) (v_points s) (cd_Index cd))) cs.
Proof.
  intros Hnew s Ht Hq Hk Hd Hps n. pose proof (history_inv cfg g s0 ops Hnew) as Hs. fold s in Hs.
  destruct (inv_trained s Hs Ht) as [Hne Hcl]. pose proof (nprobe_positive s nprobe Hs) as Hn. fold n in Hn.
  destruct (FindNearestCentroids_range (v_kmeans s) query n) as (cds & Hcds & Hr); [done|lia|].
  destruct (search_trained query f k nprobe s cds) as (cs & E & Hknn); [done..|].
  exists cds, cs. by rewrite <- probed_members.
Qed.

(** C34. Probing every cluster is exact. Over every history of an index that has no
    quantizer at the end of it, before the training and after it, a search for [K] > 0
    results, with a query of the right dimension at no NaN distance from a point, that
    probes at least as many clusters as there are centroids returns the [K] nearest, in
    order of their distances, of all accepted points that pass its filter, the points that
    Delete says are marked as deleted among them. *)
Theorem ivf_search_exact cfg g s0 ops query k nprobe f :
  New cfg g = Ok s0 →
  let s := foldl step s0 ops in
  v_quantizer s = None → 0 < k → len query = ic_Dimension (v_config s) →
  comparable_points query (v_points s) → len (km_centroids (v_kmeans s)) ≤ nprobe →
  ∃ cs, SearchWithParams query (mkIvfParams k nprobe f) s = (Ok cs, s) ∧
    knn k (pool query f (v_points s) (seq 0 (length (v_points s)))) cs.
Proof.
  intros Hnew s Hq Hk Hd Hps Hn. pose proof (history_inv cfg g s0 ops Hnew) as Hs. fold s in Hs.
  destruct (v_trained s) eqn:Ht; [|by apply search_untrained].
  destruct (inv_trained s Hs Ht) as [Hne Hcl].
  assert (0 < nprobe) as Hpos by (destruct (km_centroids (v_kmeans s)); [done|unfold len in Hn; cbn in Hn; lia]).
  destruct (FindNearestCentroids_all (v_kmeans s) query nprobe Hne Hn) as (cds & Hcds & Hp).
  destruct (search_trained query f k nprobe s cds) as (cs & E & Hknn); [done..| |].
  { by rewrite (proj2 (Z.leb_gt _ _)) by lia. }
  exists cs. split; [done|]. destruct Hknn as (rest & Hperm & Hlen & Hasc & Hfar).
  assert (pool query f (v_points s) (probed s cds) ≡ₚ
    pool query f (v_points s) (seq 0 (length (v_points s)))) as Hpool
    by (apply pool_perm; by eapply probed_all).
  exists rest. split_and!; [by rewrite <- Hpool|unfold len in *; by rewrite <- Hpool|done|done].
Qed.

(** ** Range searches *)
Lemma trained_clusters_size (s : Index) :
  ivf_inv s → v_trained s = true → NumClusters s = len (km_centroids (v_kmeans s)).
Proof.
  intros Hs Ht. destruct (inv_trained s Hs Ht) as [Hne Hcl]. unfold NumClusters.
  set (k := len (km_centroids (v_kmeans s))) in *.
  set (l := (λ c, (c, members (v_kmeans s) (v_points s) c)) <$> GoLoops.below k).
  assert (l.*1 = GoLoops.below k) as Hl.
  { unfold l. rewrite <- list_fmap_compose. cbn. apply list_fmap_id. }
  assert (NoDup l.*1) as Hnd
    by (rewrite Hl; unfold GoLoops.below; apply NoDup_fmap; [intros ? ?; lia|apply NoDup_seq]).
  assert (v_clusters s = list_to_map l) as ->.
  { apply map_eq. intros c. rewrite Hcl. symmetry. fold k. case_decide as Hc.
    - apply elem_of_list_to_map_1; [done|]. unfold l. apply list_elem_of_fmap. exists c. split; [done|].
      unfold GoLoops.below. apply list_elem_of_fmap. exists (Z.to_nat c). rewrite elem_of_seq. lia.
    - apply not_elem_of_list_to_map_1. rewrite Hl. intros Hin. apply list_elem_of_lookup in Hin as [i Hi].
      by apply below_lookup in Hi as [_ ?]. }
  rewrite map_size_list_to_map by done. unfold l. rewrite length_fmap, length_below.
  unfold k. pose proof (len_nonneg (km_centroids (v_kmeans s))). lia.
Qed.

Section range.
Context (query : vector) (radius : f32).

(** A point within the radius, as it is returned *)
Definition within_radius (ps : list Point) (c : Candidate) : Prop :=
  ∃ p, ps !! cID c = Some p ∧ cDistance c = Distance query (p_Vector p) ∧ fle (cDistance c) radius = true.
(** The centroid [c] is not beyond twice the radius. *)
Definition reached (km : KMeans) (c : Z) : Prop :=
  ∃ centroid, index (E:=ivfError) (km_centroids km) c = Ok centroid ∧
    fgt (Distance query centroid) (f32_mul (f32_of_Z 2) radius) = false.

#[local] Abbreviation within := (λ (i : nat) (p : Point) (results : list Candidate),
  let dist := Distance query (p_Vector p) in
  if fle dist radius then results ++ [mkCandidate i dist] else results).

Lemma elem_of_range_cluster (ps : list Point) ids acc c :
  c ∈ foldl (λ results id, match ps !! id with None => results | Some p => within id p results end) acc ids
  ↔ c ∈ acc ∨ (cID c ∈ ids ∧ within_radius ps c).
Proof.
  revert acc. induction ids as [|id ids IH]; intros acc; cbn [foldl].
  - split; [by left|]. intros [?|[H _]]; [done|by apply not_elem_of_nil in H].
  - rewrite IH, elem_of_cons. unfold within_radius at 2. split.
    + intros [H|[Hid Hw]]; [|right; split; [by right|done]].
      destruct (ps !! id) as [p|] eqn:Hp; [|by left]. cbv zeta in H.
      destruct (fle (Distance query (p_Vector p)) radius) eqn:E; [|by left].
      apply elem_of_app in H as [H|H]; [by left|]. apply list_elem_of_singleton in H as ->.
      right. split; [by left|]. by exists p.
    + intros [H|[[Hid|Hid] Hw]]; [left|left|by right].
      * destruct (ps !! id); [|done]. cbv zeta. destruct (fle _ _); [|done]. apply elem_of_app. by left.
      * destruct Hw as (p & Hp & Hd & Hr). rewrite <- Hid, Hp. cbv zeta. rewrite <- Hd, Hr.
        apply elem_of_app. right. destruct c. by apply list_elem_of_singleton.
Qed.

(** [cd] is probed and its cluster lists [c]. *)
Definition hit (s : Index) (c : Candidate) (cd : CentroidDistance) : Prop :=
  fgt (cd_Distance cd) (f32_mul (f32_of_Z 2) radius) = false ∧
  ∃ ids, v_clusters s !! cd_Index cd = Some ids ∧ cID c ∈ ids ∧ within_radius (v_points s) c.

Lemma elem_of_range_clusters (s : Index) cds acc c :
  c ∈ foldl (λ results cd,
        if fgt (cd_Distance cd) (f32_mul (f32_of_Z 2) radius) then results else
        match v_clusters s !! cd_Index cd with
        | None => results
        | Some ids => foldl (λ results id,
            match v_points s !! id with None => results | Some p => within id p results end) results ids
        end) acc cds
  ↔ c ∈ acc ∨ Exists (hit s c) cds.
Proof.
  revert acc. induction cds as [|cd cds IH]; intros acc; cbn [foldl].
  - rewrite Exists_nil. tauto.
  - rewrite IH, Exists_cons. unfold hit at 2.
    destruct (fgt (cd_Distance cd) _) eqn:E; [|destruct (v_clusters s !! cd_Index cd) as [ids|] eqn:Ecl].
    + split; [intros [?|?]; auto|intros [?|[[? _]|?]]; auto]. done.
    + rewrite elem_of_range_cluster. split.
      * intros [[?|?]|?]; [by left|right; left; eauto|auto].
      * intros [?|[(_ & ids' & [= <-] & ?)|?]]; auto.
    + split; [intros [?|?]; auto|intros [?|[(_ & ids & ? & _)|?]]; auto]. done.
Qed.
End range.

Lemma elem_of_entries km query cd :
  cd ∈ entries km query ↔
  ∃ i c, km_centroids km !! i = Some c ∧ cd = mkCentroidDistance (Z.of_nat i) (Distance query c).
Proof. unfold entries. rewrite elem_of_lookup_imap. naive_solver. Qed.

(** What a range search of a trained index returns, exactly: over every
    history, the points within the radius that lie in a cluster whose centroid is
    not beyond twice the radius. Nothing relates the distance of a point to that
    of its centroid, so points within the radius are missed. *)
Theorem range_search_characterised cfg g s0 ops query radius :
  New cfg g = Ok s0 →
  let s := foldl step s0 ops in
  v_trained s = true → len query = ic_Dimension (v_config s) →
  ∃ rs, RangeSearch query radius s = Ok rs ∧
    ∀ c, c ∈ rs ↔ within_radius query radius (v_points s) c ∧
      reached query radius (v_kmeans s) (home_of (v_kmeans s) (v_points s) (cID c)).
Proof.
  intros Hnew s Ht Hd. pose proof (history_inv cfg g s0 ops Hnew) as Hs. fold s in Hs.
  destruct (inv_trained s Hs Ht) as [Hne Hcl]. unfold RangeSearch.
  rewrite (proj2 (Z.eqb_eq _ _) Hd), Ht. cbn [negb].
  destruct (FindNearestCentroids_all (v_kmeans s) query (NumClusters s) Hne) as (cds & -> & Hp);
    [by rewrite trained_clusters_size|].
  rewrite Ok_bind. eexists. split; [done|]. intros c.
  rewrite sort_Slice_perm, elem_of_range_clusters, Exists_exists. split.
  - intros [H|(cd & Hcd & Hr & ids & Hids & Hin & Hw)]; [by apply not_elem_of_nil in H|].
    rewrite Hp in Hcd. apply elem_of_entries in Hcd as (i & v & Hi & ->).
    split; [done|]. cbn in Hids, Hr. rewrite Hcl in Hids. case_decide; [|done]. injection Hids as <-.
    apply elem_of_members in Hin as [_ ->]. exists v. split; [by apply index_of_nat|done].
  - intros [Hw (v & Hv & Hr)]. right. pose proof Hw as (p & Hp' & _). apply lookup_lt_Some in Hp' as Hlt.
    pose proof (home_of_range (v_kmeans s) (v_points s) (cID c) Hne Hlt) as Hrange.
    set (h := home_of (v_kmeans s) (v_points s) (cID c)) in *.
    exists (mkCentroidDistance h (Distance query v)). split.
    + rewrite Hp. apply elem_of_entries. exists (Z.to_nat h), v. rewrite Z2Nat.id by lia. split; [|done].
      unfold index in Hv. destruct (0 <=? h); [|done].
      destruct (km_centroids (v_kmeans s) !! Z.to_nat h); [congruence|done].
    + split; [done|]. exists (members (v_kmeans s) (v_points s) h). cbn.
      split; [by rewrite Hcl, decide_True|]. split; [by apply elem_of_members|done].
Qed.

(** ** Deletions, and searches for nothing *)

(** Deleting a point only counts: it is found and searched as before, and can
    be deleted again, each time lowering the size. *)
Theorem ivf_delete_only_counts (s s' : Index) id :
  Delete id s = (Ok tt, s') →
  Size s' = Size s - 1 ∧ Get s' id = Get s id ∧ v_points s' = v_points s ∧
  v_clusters s' = v_clusters s ∧ ∃ s'', Delete id s' = (Ok tt, s'').
Proof.
  unfold Delete. rewrite (M_bind_run get _ _ _ _ eq_refl).
  destruct (v_idToIndex s !! id) eqn:E; [|done]. intros [= <-]. split_and!; [unfold Size; cbn; lia|done..|].
  rewrite (M_bind_run get _ _ _ _ eq_refl). cbn. rewrite E. by eexists.
Qed.

Lemma keep_nearest_none k c : k ≤ 0 → keep_nearest k c [] = Panic.
Proof. intros Hk. unfold keep_nearest. by rewrite (proj2 (Z.ltb_ge (len []) k)) by (rewrite len_nil; lia). Qed.

(** A search for no results panics as soon as the index holds an accepted
    point: the root of the empty heap is compared with. *)
Theorem search_for_none_panics query k n (s : Index) p ps :
  k ≤ 0 → v_trained s = false → len query = ic_Dimension (v_config s) → v_points s = p :: ps →
  SearchWithParams query (mkIvfParams k n None) s = (Panic, s).
Proof.
  intros Hk Ht Hd Hps. unfold SearchWithParams. rewrite (M_bind_run get _ _ _ _ eq_refl).
  rewrite (proj2 (Z.eqb_eq _ _) Hd), Ht. cbn [negb vp_Filter vp_K]. unfold lift, bruteForceSearch.
  rewrite Hps. cbn [loop accepts negb]. by rewrite keep_nearest_none by done.
Qed.
End searches.

(** ** One index *)
#[local] Instance demo_calc : Calculator := calc_Distance Euclidean.
#[local] Instance demo_rng : Rng := counting_rng.
Definition demo_seed : @rng demo_rng := 0.
#[local] Instance demo_sorter : Sorter := insertion_sorter.

Definition demo_point (id : string) (x : Z) : Hnsw.Point unit := mkPoint id [f32_of_Z x] tt.
Definition demo_config (clusters samples : Z) : Config := mkIvfConfig clusters clusters 1 None 100 samples.
Definition demo_index (clusters samples : Z) : IVF (payload := unit) :=
  mkIVF (demo_config clusters samples)
    (NewKMeans (mkKMeansConfig clusters 50 (f32_ratio 1 10000) 3 0) 1 0)
    (empty_clusters clusters) None [] ∅ 0 0 [] false.
Definition demo_ops : list (op (payload := unit)) :=
  [OInsert (demo_point "a" 0); OInsert (demo_point "b" 10); OInsert (demo_point "c" 1);
   ODelete "b"; OInsert (demo_point "d" 12); OInsert (demo_point "e" 11)].

Lemma clusters_partition_witness :
  let s := foldl step (demo_index 2 4) demo_ops in
  v_trained s = true ∧
  v_clusters s !! FindNearestCentroid (v_kmeans s) [f32_of_Z 11] = Some [1; 3; 4]%nat.
Proof.
  intros s. assert (v_trained s = true) as Ht by by vm_compute. split; [exact Ht|].
  destruct (proj1 (clusters_partition (demo_config 2 4) demo_seed (demo_index 2 4) demo_ops eq_refl Ht)
    (FindNearestCentroid (v_kmeans s) [f32_of_Z 11]) [1; 3; 4]%nat) as [_ H].
  apply H. split; [apply (bool_decide_unpack _); by vm_compute|by vm_compute].
Defined.

Lemma demo_comparable : comparable_points [f32_of_Z 9] (v_points (foldl step (demo_index 2 4) demo_ops)).
Proof.
  set (ps := v_points _). vm_compute in ps. subst ps. unfold comparable_points.
  repeat (constructor; [vm_compute; discriminate|]). constructor.
Qed.

Lemma ivf_search_exact_witness :
  let s := foldl step (demo_index 2 4) demo_ops in
  ∃ cs, SearchWithParams [f32_of_Z 9] (mkIvfParams 3 2 None) s = (Ok cs, s) ∧
    knn 3 (pool [f32_of_Z 9] None (v_points s) (seq 0 (length (v_points s)))) cs.
Proof.
  refine (ivf_search_exact (demo_config 2 4) demo_seed (demo_index 2 4) demo_ops [f32_of_Z 9] 3 2 None
    eq_refl _ _ _ demo_comparable _); [by vm_compute|lia|by vm_compute|by vm_compute].
Defined.

Lemma ivf_search_probed_witness :
  let s := foldl step (demo_index 2 4) demo_ops in
  ∃ cds cs, FindNearestCentroids (v_kmeans s) [f32_of_Z 9] 1 = Ok cds ∧
    SearchWithParams [f32_of_Z 9] (mkIvfParams 3 1 None) s = (Ok cs, s) ∧
    knn 3 (pool [f32_of_Z 9] None (v_points s)
      (cds ≫= λ cd, members (v_kmeans s) (v_points s) (cd_Index cd))) cs.
Proof.
  refine (ivf_search_probed (demo_config 2 4) demo_seed (demo_index 2 4) demo_ops [f32_of_Z 9] 3 1 None
    eq_refl _ _ _ _ demo_comparable); [by vm_compute|by vm_compute|lia|by vm_compute].
Defined.

(** The points 1 and 19 share a cluster with centroid 10: a search around 0 with
    radius 2 misses the point 1. *)
Lemma range_search_characterised_witness :
  let s := foldl step (demo_index 1 2) [OInsert (demo_point "a" 1); OInsert (demo_point "b" 19)] in
  within_radius [f32_zero] (f32_of_Z 2) (v_points s) (mkCandidate 0 f32_one) ∧
  ∃ rs, RangeSearch [f32_zero] (f32_of_Z 2) s = Ok rs ∧ mkCandidate 0 f32_one ∉ rs.
Proof.
  set (ops := [OInsert (demo_point "a" 1); OInsert (demo_point "b" 19)]). intros s. split.
  { exists (demo_point "a" 1). by vm_compute. }
  destruct (range_search_characterised (demo_config 1 2) demo_seed (demo_index 1 2) ops [f32_zero] (f32_of_Z 2))
    as (rs & Hrs & H); [reflexivity|by vm_compute|by vm_compute|].
  exists rs. split; [exact Hrs|]. intros Hin. destruct (proj1 (H _) Hin) as [_ (c & Hc & Hr)].
  assert (index (E:=ivfError) (km_centroids (v_kmeans s))
    (home_of (v_kmeans s) (v_points s) 0) = Ok [f32_of_Z 10]) as E by by vm_compute.
  pose proof (eq_trans (eq_sym Hc) E) as [= ->]. vm_compute in Hr. discriminate Hr.
Defined.
