(* ===== verification/PointBatch.v ===== *)
(** * pkg/point/batch.go: batches of points

    A batch is the slice of its points; its lock orders whole methods, and the
    sub-slices of [Partition] are read before the batch changes again. The workers
    of [Process] run in parallel: the order in which they record their outcomes is
    an argument. [PointBuffer] is the ring buffer, which holds one point less than
    its capacity. *)
From stdpp Require Import base gmap strings list fin_maps numbers.
From Stdlib Require Import ZArith Lia Floats.SpecFloat.
From S2P Require Import Prelude GoLoops Float32 Distance PayloadFilter Binary Point.

#[local] Open Scope Z_scope.

(** ** Batch *)
Inductive batchCause :=
| EInvalidPoint (e : pointError)
| DimensionMismatchError (expected got : Z).

Record BatchError (E : Type) := mkBatchError { be_Index : Z; be_ID : string; be_Err : E }.
Arguments mkBatchError {E}.
Arguments be_Index {E}.
Arguments be_ID {E}.
Arguments be_Err {E}.

Definition Batch (A : Type) := list A.

Section batch.
Context {A E : Type}.

Definition NewBatch (capacity : Z) : result E (Batch A) := if capacity <? 0 then Panic else Ok [].
Definition Add (p : A) (b : Batch A) : Batch A := b ++ [p].
Definition AddAll (ps : list A) (b : Batch A) : Batch A := b ++ ps.
Definition Size (b : Batch A) : Z := len b.
Definition Clear (b : Batch A) : Batch A := [].
(** What the channel of [Iterator] carries *)
Definition Iterator (b : Batch A) : list A := b.

(** [Partition]: the first [remainder] parts hold one point more. *)
Definition Partition (n : Z) (b : Batch A) : result E (list (list A)) :=
  let n := if n <=? 0 then 1 else n in
  let n := if n >? len b then len b else n in
  partitions ← make n [];
  if n =? 0 then Panic else
  let size := Z.quot (len b) n in
  let remainder := Z.rem (len b) n in
  '(partitions, _) ← loop (λ _ i '(partitions, start),
      let stop := start + size in
      let stop := if i <? remainder then stop + 1 else stop in
      part ← slice b start stop;
      partitions ← assign partitions i part;
      Ok (partitions, stop)) 0 (below n) (partitions, 0);
  Ok partitions.

(** ** BatchProcessor *)
Record BatchResult := mkBatchResult { Succeeded : Z; Failed : Z; Errors : list (BatchError E) }.

(** What the worker of partition [i] records *)
Definition record_outcome (processFunc : Z → list A → option E) (partitions : list (list A))
    (r : BatchResult) (i : Z) : result E BatchResult :=
  points ← index partitions i;
  match processFunc i points with
  | Some err => Ok (mkBatchResult (Succeeded r) (Failed r + len points)
                      (Errors r ++ [mkBatchError i "" err]))
  | None => Ok (mkBatchResult (Succeeded r + len points) (Failed r) (Errors r))
  end.

(** [schedule] lists the partitions in the order in which their workers record
    their outcomes; [processFunc] is what each call answers. *)
Definition Process (workers : Z) (processFunc : Z → list A → option E) (schedule : list Z) (b : Batch A) :
    result E BatchResult :=
  partitions ← Partition workers b;
  loop (λ _ i r, record_outcome processFunc partitions r i) 0 schedule (mkBatchResult 0 0 []).
End batch.
Arguments mkBatchResult {E}.
Arguments Succeeded {E}.
Arguments Failed {E}.
Arguments Errors {E}.

(** The errors of the points, in order *)
Definition Validate_batch {order : MapOrder string} (dimension : Z) (b : Batch Point) :
    result pointError (list (BatchError batchCause)) :=
  loop (λ i p errors,
      match Point.Validate p (map_range (default ∅ (pt_NamedVectors p))) with
      | Panic => Panic
      | Err e => Ok (errors ++ [mkBatchError (Z.of_nat i) "" (EInvalidPoint e)])
      | Ok _ =>
          Ok (if negb (Dimension p =? dimension)
              then errors ++ [mkBatchError (Z.of_nat i) "" (DimensionMismatchError dimension (Dimension p))]
              else errors)
      end) 0 b [].

(** ** PointBuffer *)
Record PointBuffer (A : Type) := mkPointBuffer {
  pb_points : list (option A);
  pb_head : Z;
  pb_tail : Z;
  pb_capacity : Z
}.
Arguments mkPointBuffer {A}.
Arguments pb_points {A}.
Arguments pb_head {A}.
Arguments pb_tail {A}.
Arguments pb_capacity {A}.

Section buffer.
Context {A E : Type}.
#[local] Abbreviation B := (M (PointBuffer A) E).

Definition NewPointBuffer (capacity : Z) : result E (PointBuffer A) :=
  points ← make capacity None; Ok (mkPointBuffer points 0 0 capacity).

(** [a % b], which panics for zero *)
Definition go_rem (a b : Z) : result E Z := if b =? 0 then Panic else Ok (Z.rem a b).

Definition Push (p : A) : B bool :=
  pb ← get;
  next ← lift (go_rem (pb_tail pb + 1) (pb_capacity pb));
  if next =? pb_head pb then mret false else
  points ← lift (assign (pb_points pb) (pb_tail pb) (Some p));
  put (mkPointBuffer points (pb_head pb) next (pb_capacity pb));;
  mret true.

(** The pointer of the slot is handed out; an empty buffer gives none. *)
Definition Pop : B (option (option A)) :=
  pb ← get;
  if pb_head pb =? pb_tail pb then mret None else
  p ← lift (index (pb_points pb) (pb_head pb));
  points ← lift (assign (pb_points pb) (pb_head pb) None);
  head ← lift (go_rem (pb_head pb + 1) (pb_capacity pb));
  put (mkPointBuffer points head (pb_tail pb) (pb_capacity pb));;
  mret (Some p).

Definition Len (pb : PointBuffer A) : Z :=
  if pb_tail pb >=? pb_head pb then pb_tail pb - pb_head pb
  else pb_capacity pb - pb_head pb + pb_tail pb.
End buffer.

(** * pkg/point/batch.go: what batches guarantee
    A partition covers the batch with balanced parts; the outcomes of the workers
    add up whatever their order; the ring buffer is a bounded queue. *)

#[local] Open Scope Z_scope.

(** ** Partitions *)

(** The part of [b] between two bounds, and the parts between the first [n + 1]
    values of a bound *)
Definition part {A} (f : nat → nat) (b : list A) (i : nat) : list A := take (f (S i) - f i) (drop (f i) b).
Definition parts {A} (f : nat → nat) (b : list A) (n : nat) : list (list A) := part f b <$> seq 0 n.

Lemma concat_parts {A} f (b : list A) n :
  f 0%nat = 0%nat → (∀ i, (f i ≤ f (S i))%nat) → mjoin (parts f b n) = take (f n) b.
Proof.
  intros H0 Hf. unfold parts. induction n as [|n IH]; [by rewrite H0|].
  rewrite seq_S, fmap_app, join_app, IH. cbn. rewrite app_nil_r. unfold part.
  pose proof (Hf n). rewrite take_take_drop. f_equal. lia.
Qed.

Lemma length_parts {A} f (b : list A) n : length (parts f b n) = n.
Proof. unfold parts. by rewrite length_fmap, length_seq. Qed.

Lemma parts_lookup {A} f (b : list A) n i : (i < n)%nat → parts f b n !! i = Some (part f b i).
Proof. intros Hi. unfold parts. by rewrite list_lookup_fmap, lookup_seq_lt. Qed.

(** Where part [i] of [n] parts of [l] elements begins *)
Definition bound (l n : Z) (i : nat) : nat := Z.to_nat (Z.of_nat i * (l / n) + Z.min (Z.of_nat i) (l mod n)).

Section bounds.
Context (l n : Z) (Hl : 0 ≤ l) (Hn : 0 < n).

#[local] Ltac setup :=
  unfold bound; pose proof (Z.mod_pos_bound l n Hn); pose proof (Z.div_pos l n Hl Hn).

Lemma bound_0 : bound l n 0 = 0%nat.
Proof. setup. lia. Qed.
Lemma bound_S i : Z.of_nat (bound l n (S i))
  = Z.of_nat (bound l n i) + l / n + (if Z.of_nat i <? l mod n then 1 else 0).
Proof. setup. destruct (Z.ltb_spec (Z.of_nat i) (l mod n)); nia. Qed.
Lemma bound_mono i : (bound l n i ≤ bound l n (S i))%nat.
Proof. pose proof (bound_S i). setup. destruct (Z.of_nat i <? l mod n); lia. Qed.
Lemma bound_all : bound l n (Z.to_nat n) = Z.to_nat l.
Proof. setup. pose proof (Z.div_mod l n). f_equal. rewrite Z2Nat.id, Z.min_r by lia. lia. Qed.
Lemma bound_le i : (i ≤ Z.to_nat n)%nat → Z.of_nat (bound l n i) ≤ l.
Proof.
  intros Hi. transitivity (Z.of_nat (bound l n (Z.to_nat n))); [|rewrite bound_all; lia].
  induction Hi as [|k Hk IH]; [lia|]. pose proof (bound_mono k). lia.
Qed.
End bounds.

Section partition.
Context {A E : Type}.
Implicit Types b : list A.

Lemma length_part l n b i :
  l = len b → 0 < n → (i < Z.to_nat n)%nat →
  len (part (bound l n) b i) = l / n + (if Z.of_nat i <? l mod n then 1 else 0).
Proof.
  intros -> Hn Hi. pose proof (bound_le (len b) n (len_nonneg b) Hn (S i) ltac:(lia)).
  pose proof (bound_S (len b) n (len_nonneg b) Hn i). pose proof (bound_mono (len b) n (len_nonneg b) Hn i).
  unfold part, len in *. rewrite length_take, length_drop. lia.
Qed.

(** The effective number of parts *)
Definition workers_for (n : Z) b : Z := Z.min (Z.max 1 n) (len b).

Lemma Partition_parts n b :
  b ≠ [] → Partition (E:=E) n b
           = Ok (parts (bound (len b) (workers_for n b)) b (Z.to_nat (workers_for n b))).
Proof.
  intros Hb. assert (0 < len b) as Hlen by (destruct b; [done|rewrite len_cons; pose proof (len_nonneg b); lia]).
  unfold Partition.
  assert ((let n := if n <=? 0 then 1 else n in if n >? len b then len b else n) = workers_for n b) as Hw.
  { unfold workers_for. cbv zeta. set (m := if n <=? 0 then 1 else n).
    assert (m = Z.max 1 n) as -> by (unfold m; destruct (Z.leb_spec n 0); lia).
    rewrite Z.gtb_ltb. destruct (Z.ltb_spec (len b) (Z.max 1 n)); lia. }
  cbv zeta in *. rewrite Hw. set (w := workers_for n b) in *.
  assert (0 < w) as Hpos by (unfold w, workers_for; lia).
  rewrite make_Ok, Ok_bind, (proj2 (Z.eqb_neq _ _)), Z.quot_div_nonneg, Z.rem_mod_nonneg by lia.
  set (l := len b) in *. set (f := bound l w). set (ps := parts f b (Z.to_nat w)).
  edestruct (loop_Ok (E:=E) (A:=Z) (λ k '(qs, start), qs = filled ps [] k ∧ start = Z.of_nat (f k)))
    as ([qs start] & Hrun & Hqs & _); [| |rewrite Hrun, Ok_bind, Hqs, length_below].
  - split; [|unfold f; by rewrite bound_0 by (unfold l; lia)]. rewrite filled_0. f_equal. by unfold ps; rewrite length_parts.
  - intros k a [qs start] Hk [-> ->]. apply below_lookup in Hk as [-> Hk].
    rewrite Nat.add_0_l in *. set (stop := if _ <? _ then _ else _).
    assert (stop = Z.of_nat (f (S k))) as ->.
    { unfold stop, f. rewrite bound_S by lia. destruct (Z.of_nat k <? l mod w); lia. }
    pose proof (bound_mono l w ltac:(lia) Hpos k) as Hmono. fold f in Hmono.
    pose proof (bound_le l w ltac:(lia) Hpos (S k) ltac:(lia)) as Hle. fold f in Hle.
    unfold slice. rewrite !(proj2 (Z.leb_le _ _)) by (unfold l in *; lia). cbn [andb]. rewrite Ok_bind.
    rewrite Nat2Z.id, <- Nat2Z.inj_sub, Nat2Z.id by lia.
    rewrite (assign_filled ps [] k (part f b k)), Ok_bind by (apply parts_lookup; lia).
    eexists. split; [reflexivity|]. done.
  - f_equal. replace (0 + Z.to_nat w)%nat with (length ps); [apply filled_all|].
    unfold ps. by rewrite length_parts.
Qed.

Lemma partition_cover n b :
  (b = [] → Partition (E:=E) n b = Panic) ∧
  (b ≠ [] → ∃ ps, Partition (E:=E) n b = Ok ps ∧ mjoin ps = b ∧ len ps = workers_for n b).
Proof.
  split.
  { intros ->. unfold Partition. change (len (@nil A)) with 0. cbv zeta. destruct (Z.leb_spec n 0); [done|].
    rewrite Z.gtb_ltb. by rewrite (proj2 (Z.ltb_lt 0 n)) by lia. }
  intros Hb. assert (0 < len b) as Hlen by (destruct b; [done|rewrite len_cons; pose proof (len_nonneg b); lia]).
  eexists. assert (0 < workers_for n b ≤ len b) as Hw by (unfold workers_for; lia).
  split_and!; [by apply Partition_parts| |].
  - rewrite concat_parts by (intros; (apply bound_0 || apply bound_mono); lia).
    rewrite bound_all by lia. apply take_ge. unfold len. lia.
  - unfold len at 1. rewrite length_parts. lia.
Qed.

(** Partition splits a batch that is not empty into as many parts as asked
    for, but at least one and at most one per point; the parts cover the batch in
    order, and their sizes differ by at most one. An empty batch panics: the
    number of parts is lowered to zero before the division. *)
Theorem partition_balanced n b :
  (b = [] → Partition (E:=E) n b = Panic) ∧
  (b ≠ [] → ∃ ps, Partition (E:=E) n b = Ok ps ∧ mjoin ps = b ∧ len ps = workers_for n b ∧
     ∀ p q, p ∈ ps → q ∈ ps → 1 ≤ len p ≤ len q + 1).
Proof.
  split; [apply partition_cover|]. intros Hb. destruct (proj2 (partition_cover n b) Hb) as (ps & E1 & Hj & Hlen).
  exists ps. split_and!; [done..|]. rewrite Partition_parts in E1 by done. injection E1 as <-.
  set (w := workers_for n b) in *. assert (0 < w ≤ len b) as Hw.
  { assert (0 < len b) by (destruct b; [done|rewrite len_cons; pose proof (len_nonneg b); lia]).
    unfold w, workers_for. lia. }
  assert (∀ p, p ∈ parts (bound (len b) w) b (Z.to_nat w) → ∃ x, len p = len b / w + x ∧ 0 ≤ x ≤ 1) as Hsize.
  { intros p (i & Hi)%list_elem_of_lookup. pose proof (lookup_lt_Some _ _ _ Hi) as Hlt.
      rewrite length_parts in Hlt. rewrite parts_lookup in Hi by done. injection Hi as <-.
      rewrite length_part by lia. eexists. split; [reflexivity|]. destruct (_ <? _); lia. }
    intros p q (x & -> & Hx)%Hsize (y & -> & Hy)%Hsize.
    pose proof (Z.div_str_pos (len b) w ltac:(lia)). lia.
Qed.
End partition.

(** ** Workers *)
Section process.
Context {A E : Type}.

Definition is_failure (processFunc : Z → list A → option E) (ps : list (list A)) (i : Z) : bool :=
  match ps !! Z.to_nat i with Some p => bool_decide (is_Some (processFunc i p)) | None => false end.
Definition points_of (ps : list (list A)) (i : Z) : Z :=
  match ps !! Z.to_nat i with Some p => len p | None => 0 end.
Definition sum (zs : list Z) : Z := foldr Z.add 0 zs.

Lemma sum_app xs ys : sum (xs ++ ys) = sum xs + sum ys.
Proof. unfold sum. induction xs as [|x xs IH]; [done|]. cbn. lia. Qed.
Lemma sum_perm xs ys : xs ≡ₚ ys → sum xs = sum ys.
Proof. unfold sum. induction 1; cbn; lia. Qed.
Lemma sum_below n (ps : list (list A)) :
  n = len ps → sum (points_of ps <$> below n) = len (mjoin ps).
Proof.
  intros ->. unfold below, len. rewrite Nat2Z.id, <- list_fmap_compose.
  induction ps as [|p ps IH] using rev_ind; [done|].
  rewrite length_app, Nat.add_1_r, seq_S, fmap_app, sum_app. cbn [fmap list_fmap sum foldr].
  rewrite join_app, length_app. cbn. rewrite app_nil_r. unfold points_of at 2. cbn.
  rewrite Nat2Z.id, list_lookup_middle by done. rewrite Z.add_0_r, Nat2Z.inj_add, <- IH. f_equal. f_equal.
  apply list_fmap_ext. intros i x [-> Hi]%lookup_seq. unfold points_of, compose. rewrite Nat2Z.id.
  by rewrite lookup_app_l by lia.
Qed.

Lemma sum_split (f : Z → bool) (g : Z → Z) l :
  sum (g <$> filter f l) + sum (g <$> filter (λ i, negb (f i)) l) = sum (g <$> l).
Proof.
  unfold sum. induction l as [|i l IH]; [done|]. rewrite !filter_cons.
  destruct (f i); cbn; repeat case_decide; try done; cbn in *; lia.
Qed.

(** Whatever the order in which the workers of Process record their outcomes,
    every point of the batch is counted once, as failed exactly when the call for
    its part failed, with one error for each such part. *)
Theorem process_accounts workers processFunc schedule (b : Batch A) :
  b ≠ [] → schedule ≡ₚ below (workers_for workers b) →
  ∃ ps r, Partition (E:=E) workers b = Ok ps ∧ Process workers processFunc schedule b = Ok r ∧
    Succeeded r + Failed r = Size b ∧
    Failed r = sum (points_of ps <$> filter (is_failure processFunc ps) schedule) ∧
    be_Index <$> Errors r = filter (is_failure processFunc ps) schedule.
Proof.
  intros Hb Hs. destruct (proj2 (partition_cover (E:=E) workers b) Hb) as (ps & Hps & Hjoin & Hn).
  exists ps. unfold Process. rewrite Hps, Ok_bind.
  set (fails := is_failure processFunc ps).
  destruct (loop_Ok (E:=E) (λ k r, let done := take k schedule in
      Failed r = sum (points_of ps <$> filter fails done) ∧
      Succeeded r = sum (points_of ps <$> filter (λ i, negb (fails i)) done) ∧
      be_Index <$> Errors r = filter fails done)
    (λ _ i r, record_outcome processFunc ps r i) schedule 0 (mkBatchResult 0 0 []))
    as (r & Hr & HF & HS & HE); [done| |].
  - intros k i r Hk (HF & HS & HE). rewrite Nat.add_0_l in *.
    assert (i ∈ below (workers_for workers b)) as Hi by (rewrite <- Hs; by eapply list_elem_of_lookup_2).
    apply list_elem_of_lookup in Hi as [j [-> Hj]%below_lookup].
    destruct (lookup_lt_is_Some_2 ps (Z.to_nat (Z.of_nat j))) as [p Hp]; [unfold len in *; lia|].
    assert (points_of ps (Z.of_nat j) = len p) as Hpts by (unfold points_of; by rewrite Hp).
    assert (fails (Z.of_nat j) = bool_decide (is_Some (processFunc (Z.of_nat j) p))) as Hf
      by (unfold fails, is_failure; by rewrite Hp).
    unfold record_outcome. rewrite (index_Ok ps (Z.of_nat j) p), Ok_bind by (done || lia).
    cbn zeta. rewrite (take_S_r _ _ _ Hk), !list.filter_app, !fmap_app, !sum_app, !filter_cons, !filter_nil.
    destruct (processFunc (Z.of_nat j) p); cbn in Hf; (eexists; split; [reflexivity|]); rewrite Hf; cbn;
      repeat case_decide; try done; cbn; rewrite ?fmap_app, ?app_nil_r, HE, HF, HS, ?Hpts;
      split_and!; (done || lia).
  - cbn zeta in *. rewrite Nat.add_0_l, take_ge in * by done. exists r. split_and!; [done..| |done|done].
    rewrite HF, HS, Z.add_comm, sum_split. unfold Size. rewrite <- Hjoin, <- (sum_below (len ps)) by done.
    rewrite Hn. apply sum_perm. by rewrite Hs.
Qed.
End process.

(** ** The ring buffer *)
Section buffer.
Context {A E : Type}.
Implicit Types pb : PointBuffer A.

(** The buffer holds the queue [q], and has a slot to spare. *)
Record holds (pb : PointBuffer A) (q : list A) : Prop := {
  holds_slots : len (pb_points pb) = pb_capacity pb;
  holds_head : 0 ≤ pb_head pb < pb_capacity pb;
  holds_room : len q < pb_capacity pb;
  holds_tail : pb_tail pb = (pb_head pb + len q) `mod` pb_capacity pb;
  holds_points i x : q !! i = Some x →
    pb_points pb !! Z.to_nat ((pb_head pb + Z.of_nat i) `mod` pb_capacity pb) = Some (Some x)
}.

Inductive buffer_op := OPush (p : A) | OPop | OLen.
Inductive answer := APushed (b : bool) | APopped (p : option A) | ALen (n : Z).

(** The bounded queue *)
Definition queue_step (room : Z) (q : list A) (o : buffer_op) : answer * list A :=
  match o with
  | OPush p => if len q <? room then (APushed true, q ++ [p]) else (APushed false, q)
  | OPop => match q with [] => (APopped None, []) | x :: q => (APopped (Some x), q) end
  | OLen => (ALen (len q), q)
  end.

Definition buffer_step (o : buffer_op) : M (PointBuffer A) E answer :=
  match o with
  | OPush p => b ← Push p; mret (APushed b)
  | OPop => p ← Pop; mret (APopped (mjoin p))
  | OLen => pb ← get; mret (ALen (Len pb))
  end.

(** The answers of a history, in order *)
Fixpoint buffer_run (ops : list buffer_op) : M (PointBuffer A) E (list answer) :=
  match ops with
  | [] => mret []
  | o :: ops => a ← buffer_step o; rest ← buffer_run ops; mret (a :: rest)
  end.
Fixpoint queue_run (room : Z) (q : list A) (ops : list buffer_op) : list answer :=
  match ops with
  | [] => []
  | o :: ops => let '(a, q) := queue_step room q o in a :: queue_run room q ops
  end.

(** Slots at different distances below the capacity are different. *)
Lemma slot_inj c h i j :
  0 < c → 0 ≤ i < c → 0 ≤ j < c → (h + i) `mod` c = (h + j) `mod` c → i = j.
Proof.
  intros Hc Hi Hj E1. assert ((i - j) `mod` c = 0) as Hd.
  { replace (i - j) with ((h + i) - (h + j)) by lia. by rewrite Zminus_mod, E1, Z.sub_diag. }
  apply Z.mod_divide in Hd as [k Hk]; [|lia]. assert (k = 0) by nia. lia.
Qed.

Lemma slot_range c z : 0 < c → 0 ≤ z `mod` c < c.
Proof. apply Z.mod_pos_bound. Qed.

Lemma holds_new (c : Z) pb : 0 < c → NewPointBuffer (E:=E) c = Ok pb → holds pb [].
Proof.
  intros Hc. unfold NewPointBuffer. rewrite make_Ok, Ok_bind by lia. intros [= <-]. split; cbn.
  - unfold len. rewrite length_replicate. lia.
  - lia.
  - rewrite len_nil. lia.
  - change (0 = 0 `mod` c). by rewrite Z.mod_0_l by lia.
  - done.
Qed.

Lemma Push_holds pb q p :
  holds pb q → ∃ pb', Push (E:=E) p pb = (Ok (len q <? pb_capacity pb - 1), pb') ∧
    pb_capacity pb' = pb_capacity pb ∧ holds pb' (if len q <? pb_capacity pb - 1 then q ++ [p] else q).
Proof.
  intros [Hs Hh Hr Ht Hp]. set (c := pb_capacity pb) in *. pose proof (len_nonneg q) as Hq.
  pose proof (slot_range c (pb_head pb + len q) ltac:(lia)) as Htr.
  unfold Push. rewrite get_bind. unfold go_rem. fold c. rewrite (proj2 (Z.eqb_neq c 0)) by lia.
  rewrite (lift_bind _ _ _ _ eq_refl), Z.rem_mod_nonneg by lia.
  assert ((pb_tail pb + 1) `mod` c = (pb_head pb + (len q + 1)) `mod` c) as Hnext.
  { rewrite Ht, Zplus_mod_idemp_l. f_equal. lia. }
  rewrite Hnext. destruct (Z.ltb_spec (len q) (c - 1)) as [Hroom|Hfull].
  - rewrite (proj2 (Z.eqb_neq _ _)).
    2:{ intros Heq. assert ((pb_head pb + (len q + 1)) `mod` c = (pb_head pb + 0) `mod` c) as E1
          by (rewrite Heq, Z.add_0_r; symmetry; apply Z.mod_small; lia).
        apply slot_inj in E1; lia. }
    rewrite assign_Ok by lia. rewrite (lift_bind _ _ _ _ eq_refl). eexists. split; [reflexivity|]. split; [done|].
    split; cbn; fold c.
    + unfold len in *. by rewrite length_insert.
    + done.
    + rewrite len_app, len_cons, len_nil. lia.
    + by rewrite len_app, len_cons, len_nil.
    + intros i x [Hx|[Hi Hx]]%lookup_app_Some; [apply lookup_lt_Some in Hx as Hi|apply list_lookup_singleton_Some in Hx as [Hx <-]].
      * rewrite list_lookup_insert_ne; [by apply Hp|]. rewrite Ht. intros Heq. apply Z2Nat.inj in Heq; [|apply slot_range; lia..].
        apply slot_inj in Heq; unfold len in *; lia.
      * assert (Z.of_nat i = len q) as -> by (unfold len; lia). rewrite Ht. apply list_lookup_insert_eq. unfold len in *. lia.
  - rewrite (proj2 (Z.eqb_eq _ _)).
    2:{ replace (len q + 1) with c by lia. rewrite <- (Z.mul_1_l c) at 1. rewrite Z.mod_add by lia.
        apply Z.mod_small. lia. }
    eexists. split; [reflexivity|]. by split.
Qed.

Lemma Pop_holds pb q :
  holds pb q → ∃ pb', Pop (E:=E) pb = (Ok (Some <$> head q), pb') ∧
    pb_capacity pb' = pb_capacity pb ∧ holds pb' (tail q).
Proof.
  intros [Hs Hh Hr Ht Hp]. set (c := pb_capacity pb) in *. unfold Pop. rewrite get_bind.
  destruct q as [|x q].
  { rewrite len_nil, Z.add_0_r, Z.mod_small in Ht by lia. rewrite Ht, Z.eqb_refl.
    eexists. split; [reflexivity|]. split; [done|]. split; [done..| |done]. cbn.
    change (len []) with 0. by rewrite Z.add_0_r, Z.mod_small by lia. }
  rewrite len_cons in *. pose proof (len_nonneg q).
  pose proof (slot_range c (pb_head pb + (len q + 1)) ltac:(lia)) as Htr.
  rewrite (proj2 (Z.eqb_neq _ _)).
  2:{ rewrite Ht. intros Heq. assert ((pb_head pb + 0) `mod` c = (pb_head pb + (len q + 1)) `mod` c) as E1
        by (rewrite <- Heq, Z.add_0_r; apply Z.mod_small; lia). apply slot_inj in E1; lia. }
  pose proof (Hp 0%nat x eq_refl) as H0. rewrite Z.add_0_r, Z.mod_small in H0 by lia.
  rewrite (lift_bind _ _ _ _ (index_Ok _ _ _ (proj1 Hh) H0)), assign_Ok by lia.
  rewrite (lift_bind _ _ _ _ eq_refl). unfold go_rem. fold c. rewrite (proj2 (Z.eqb_neq c 0)) by lia.
  rewrite (lift_bind _ _ _ _ eq_refl), Z.rem_mod_nonneg by lia.
  pose proof (slot_range c (pb_head pb + 1) ltac:(lia)).
  eexists. split; [reflexivity|]. split; [done|]. split; cbn; fold c.
  - unfold len in *. by rewrite length_insert.
  - done.
  - lia.
  - rewrite Ht, Zplus_mod_idemp_l. f_equal. lia.
  - intros i y Hy. apply lookup_lt_Some in Hy as Hi. rewrite list_lookup_insert_ne.
    + rewrite Zplus_mod_idemp_l, <- Z.add_assoc, (Z.add_comm 1), Z.add_1_r, <- Nat2Z.inj_succ. exact (Hp (S i) y Hy).
    + rewrite Zplus_mod_idemp_l. intros Heq. rewrite <- (Z.mod_small (pb_head pb) c) in Heq at 1 by lia.
      apply Z2Nat.inj in Heq; [|apply slot_range; lia..].
      rewrite <- (Z.add_0_r (pb_head pb)) in Heq at 1. rewrite <- Z.add_assoc in Heq.
      apply slot_inj in Heq; unfold len in *; lia.
Qed.

Lemma Len_holds pb q : holds pb q → Len pb = len q.
Proof.
  intros [Hs Hh Hr Ht Hp]. unfold Len. rewrite Ht, Z.geb_leb. set (c := pb_capacity pb) in *.
  pose proof (len_nonneg q). destruct (Z.lt_ge_cases (pb_head pb + len q) c).
  - rewrite Z.mod_small by lia. rewrite (proj2 (Z.leb_le _ _)); lia.
  - replace ((pb_head pb + len q) `mod` c) with (pb_head pb + len q - c).
    + rewrite (proj2 (Z.leb_gt _ _)); lia.
    + rewrite <- (Z.mod_small (pb_head pb + len q - c) c) by lia.
      rewrite <- (Z_mod_plus_full _ 1). f_equal. lia.
Qed.

(** One operation of the buffer is that of the queue. *)
Lemma buffer_step_ok pb q o :
  holds pb q → let '(a, q') := queue_step (pb_capacity pb - 1) q o in
  ∃ pb', buffer_step o pb = (Ok a, pb') ∧ pb_capacity pb' = pb_capacity pb ∧ holds pb' q'.
Proof.
  intros Hq. destruct o as [p| |]; cbn [buffer_step queue_step].
  - destruct (Push_holds pb q p Hq) as (pb' & HP & Hc & H'). rewrite (M_bind_run _ _ _ _ _ HP).
    destruct (len q <? pb_capacity pb - 1); eauto.
  - destruct (Pop_holds pb q Hq) as (pb' & HP & Hc & H'). rewrite (M_bind_run _ _ _ _ _ HP).
    destruct q; cbn; eauto.
  - rewrite get_bind, (Len_holds pb q Hq). eauto.
Qed.

(** C36. The ring buffer refines a queue of one place less than its capacity: over
    every history of pushes, pops and lengths a new buffer answers as the queue
    does, without a panic. Without capacity every push panics. *)
Theorem ring_refines_queue (c : Z) pb ops :
  NewPointBuffer (E:=E) c = Ok pb →
  (0 < c → ∃ pb', buffer_run ops pb = (Ok (queue_run (c - 1) [] ops), pb')) ∧
  (c = 0 → ∀ p, Push (E:=E) p pb = (Panic, pb)).
Proof.
  intros Hnew. split.
  - intros Hc. pose proof (holds_new c pb Hc Hnew) as Hq. revert Hq.
    assert (pb_capacity pb = c) as <-.
    { revert Hnew. unfold NewPointBuffer. rewrite make_Ok, Ok_bind by lia. by intros [= <-]. }
    clear Hnew Hc. generalize (@nil A) as q.
    revert pb. induction ops as [|o ops IH]; intros pb q Hq; cbn [buffer_run queue_run]; [by eexists|].
    pose proof (buffer_step_ok pb q o Hq) as Hstep. destruct (queue_step _ q o) as [a q'].
    destruct Hstep as (pb' & Hs & Hc & Hq'). rewrite (M_bind_run _ _ _ _ _ Hs).
    destruct (IH pb' q' Hq') as [pb'' Hr]. rewrite (M_bind_run _ _ _ _ _ Hr), Hc. by eexists.
  - intros -> p. revert Hnew. unfold NewPointBuffer. rewrite make_Ok, Ok_bind by done. by intros [= <-].
Qed.
End buffer.

(** ** Concrete batches *)
Lemma process_accounts_witness :
  let fails := λ (i : Z) (_ : list Z), if i =? 1 then Some tt else None in
  ∃ ps r, Partition (E:=unit) 3 [1; 2; 3; 4; 5; 6; 7] = Ok ps ∧
    Process 3 fails [2; 1; 0] [1; 2; 3; 4; 5; 6; 7] = Ok r ∧ Succeeded r = 5 ∧ Failed r = 2.
Proof.
  intros fails.
  destruct (process_accounts 3 fails [2; 1; 0] [1; 2; 3; 4; 5; 6; 7]) as (ps & r & Hps & Hr & Hsum & HF & _);
    [done|apply (bool_decide_unpack _); by vm_compute|].
  exists ps, r. split; [done|]. split; [done|]. vm_compute in Hps. injection Hps as <-.
  vm_compute in HF. change (Failed r = 2) in HF. change (Size [1; 2; 3; 4; 5; 6; 7]) with 7 in Hsum. lia.
Defined.

Lemma ring_refines_queue_witness :
  ∃ pb pb', NewPointBuffer (A:=Z) (E:=unit) 3 = Ok pb ∧
    buffer_run (E:=unit) [OPush 1; OPush 2; OPush 3; OPop; OPush 4; OLen; OPop; OPop; OPop] pb
    = (Ok [APushed true; APushed true; APushed false; APopped (Some 1); APushed true; ALen 2;
           APopped (Some 2); APopped (Some 4); APopped None], pb').
Proof.
  eexists. destruct (proj1 (ring_refines_queue (E:=unit) 3 (mkPointBuffer [None; None; None] 0 0 3)
    [OPush 1; OPush 2; OPush 3; OPop; OPush 4; OLen; OPop; OPop; OPop] eq_refl) eq_refl) as [pb' Hr].
  exists pb'. split; [reflexivity|]. exact Hr.
Defined.
