(* ===== verification/MultiVector.v ===== *)
(** * pkg/point/multivector.go: points with several vectors

    Multi-vector points and their settings, late interaction over token vectors,
    and vectors that may be truncated. A nil map is [None]: it can be read and
    ranged over, and writing to it panics. JSON is left to its library. *)
From stdpp Require Import base gmap strings list fin_maps numbers.
From Stdlib Require Import ZArith Lia Floats.SpecFloat.
From S2P Require Import Prelude GoLoops Float32 Distance PayloadFilter Binary Point.
From stdpp Require Import list.

#[local] Open Scope Z_scope.

(** ** Points *)
Record MultiVector := mkMultiVector {
  mv_ID : string;
  mv_Vectors : option (gmap string Vector);
  mv_Payload : option payload
}.

Inductive mvError :=
| ErrNoDefaultVector | ErrNoID | ErrNoVectors | ErrEmptyVectorNamed (name : string)
| ErrNoConfig | ErrNoName | ErrBadDimension | ErrDuplicate (name : string) | ErrDefaultNotFound.
#[local] Abbreviation R := (result mvError).

Definition NewMultiVector (id : string) : MultiVector := mkMultiVector id (Some ∅) (Some []).
Definition NewMultiVectorWithVectors (id : string) (vectors : option (gmap string Vector))
    (pl : option payload) : MultiVector :=
  mkMultiVector id vectors (match pl with Some _ => pl | None => Some [] end).

Definition SetVector (name : string) (v : Vector) (mv : MultiVector) : R MultiVector :=
  match mv_Vectors mv with
  | Some vs => Ok (mkMultiVector (mv_ID mv) (Some (<[name := v]> vs)) (mv_Payload mv))
  | None => Panic
  end.
Definition GetVector (mv : MultiVector) (name : string) : option Vector := vs ← mv_Vectors mv; vs !! name.
Definition HasVector (mv : MultiVector) (name : string) : bool := bool_decide (is_Some (GetVector mv name)).
Definition VectorNames {order : MapOrder string} (mv : MultiVector) : list string :=
  (map_range (default ∅ (mv_Vectors mv))).*1.

Definition ToPoint (mv : MultiVector) (defaultVectorName : string) : R Point :=
  match GetVector mv defaultVectorName with
  | None => Err ErrNoDefaultVector
  | Some vec => Ok (Point.mkPoint (mv_ID mv) vec (mv_Payload mv) None None None 0)
  end.
Definition FromPoint (p : Point) (vectorName : string) : MultiVector :=
  mkMultiVector (pt_ID p) (Some {[vectorName := pt_Vector p]}) (pt_Payload p).

Fixpoint check_vectors (vs : list (string * Vector)) : R unit :=
  match vs with
  | [] => Ok tt
  | (name, vec) :: vs => if len vec =? 0 then Err (ErrEmptyVectorNamed name) else check_vectors vs
  end.
Definition Validate {order : MapOrder string} (mv : MultiVector) : R unit :=
  if String.eqb (mv_ID mv) "" then Err ErrNoID
  else if map_len (mv_Vectors mv) =? 0 then Err ErrNoVectors
  else check_vectors (map_range (default ∅ (mv_Vectors mv))).

(** ** Settings *)
Record VectorConfig := mkVectorConfig {
  vc_Name : string; vc_Dimension : Z; vc_Metric : string; vc_OnDisk : bool; vc_Quantization : string
}.
Record MultiVectorConfig := mkMultiVectorConfig { mc_Vectors : list VectorConfig; mc_DefaultVector : string }.

Definition NewMultiVectorConfig : MultiVectorConfig := mkMultiVectorConfig [] "default".
Definition AddVector (cfg : VectorConfig) (c : MultiVectorConfig) : MultiVectorConfig :=
  mkMultiVectorConfig (mc_Vectors c ++ [cfg]) (mc_DefaultVector c).

(** The index in [c.Vectors] of the settings the pointer refers to *)
Fixpoint find_config (name : string) (i : nat) (vs : list VectorConfig) : option nat :=
  match vs with
  | [] => None
  | v :: vs => if String.eqb (vc_Name v) name then Some i else find_config name (S i) vs
  end.
Definition GetVectorConfig (c : MultiVectorConfig) (name : string) : option nat :=
  find_config name 0 (mc_Vectors c).

(** The loop over the settings, with the names it has seen *)
Fixpoint check_configs (vs : list VectorConfig) (names : gset string) : R (gset string) :=
  match vs with
  | [] => Ok names
  | v :: vs =>
      if String.eqb (vc_Name v) "" then Err ErrNoName
      else if vc_Dimension v <=? 0 then Err ErrBadDimension
      else if bool_decide (vc_Name v ∈ names) then Err (ErrDuplicate (vc_Name v))
      else check_configs vs ({[vc_Name v]} ∪ names)
  end.
Definition Validate_config (c : MultiVectorConfig) : R unit :=
  if len (mc_Vectors c) =? 0 then Err ErrNoConfig else
  names ← check_configs (mc_Vectors c) ∅;
  if negb (String.eqb (mc_DefaultVector c) "") && negb (bool_decide (mc_DefaultVector c ∈ names))
  then Err ErrDefaultNotFound else Ok tt.

(** ** Late interaction *)
Record ColBERTVector := mkColBERT { cv_ID : string; cv_TokenVectors : list Vector; cv_Payload : option payload }.

Definition NewColBERTVector (id : string) (tokens : list Vector) : ColBERTVector := mkColBERT id tokens (Some []).
Definition NumTokens (cv : ColBERTVector) : Z := len (cv_TokenVectors cv).
Definition Dimension_tokens (cv : ColBERTVector) : Z :=
  match cv_TokenVectors cv with [] => 0 | v :: _ => len v end.

(** [dotProduct]: components past the end of [b] are left out. *)
Fixpoint dot (a b : Vector) (sum : f32) : f32 :=
  match a, b with x :: a, y :: b => dot a b (f32_add sum (f32_mul x y)) | _, _ => sum end.
Definition dotProduct (a b : Vector) : f32 := dot a b f32_zero.

(** [-1e10] *)
Definition least_sim : f32 := SFopp (f32_of_Z 10000000000).
Definition max_sim (queryToken : Vector) (docTokens : list Vector) : f32 :=
  foldl (λ maxSim docToken, let sim := dotProduct queryToken docToken in
    if fgt sim maxSim then sim else maxSim) least_sim docTokens.
Definition MaxSim (cv : ColBERTVector) (queryTokens : list Vector) : f32 :=
  if (len queryTokens =? 0) || (len (cv_TokenVectors cv) =? 0) then f32_zero else
  foldl (λ total queryToken, f32_add total (max_sim queryToken (cv_TokenVectors cv))) f32_zero queryTokens.

(** ** Truncation *)
Record MatryoshkaVector := mkMatryoshka {
  mt_ID : string; mt_FullVector : Vector; mt_Dimensions : list Z; mt_Payload : option payload
}.
Definition NewMatryoshkaVector (id : string) (v : Vector) (dims : list Z) : MatryoshkaVector :=
  mkMatryoshka id v dims (Some []).
Definition GetTruncated (mv : MatryoshkaVector) (dim : Z) : R Vector :=
  if dim >=? len (mt_FullVector mv) then Ok (mt_FullVector mv) else slice (mt_FullVector mv) 0 dim.
Definition SupportsDimension (mv : MatryoshkaVector) (dim : Z) : bool :=
  existsb (λ d, d =? dim) (mt_Dimensions mv).

(** ** What they guarantee *)

Lemma check_configs_ok vs names :
  (∃ ns, check_configs vs names = Ok ns) ↔
  Forall (λ v, vc_Name v ≠ ""%string ∧ 0 < vc_Dimension v ∧ vc_Name v ∉ names) vs ∧ NoDup (vc_Name <$> vs).
Proof.
  revert names. induction vs as [|v vs IH]; intros names; cbn.
  { split; [repeat constructor|by eexists]. }
  rewrite Forall_cons_iff, NoDup_cons.
  destruct (String.eqb_spec (vc_Name v) ""); [split; [by intros [? ?]|tauto]|].
  destruct (Z.leb_spec (vc_Dimension v) 0); [split; [by intros [? ?]|lia]|].
  case_bool_decide; [split; [by intros [? ?]|tauto]|]. rewrite IH.
  rewrite list_elem_of_fmap, !Forall_forall. split.
  - intros [Hall Hnd]. split_and!; [done..| | |done].
    + intros w Hw. destruct (Hall w Hw) as (? & ? & Hn). split_and!; [done..|]. intros Hin. apply Hn.
      by apply elem_of_union_r.
    + intros (w & Heq & Hw). destruct (Hall w Hw) as (_ & _ & Hn). apply Hn. rewrite <- Heq.
      by apply elem_of_union_l, elem_of_singleton.
  - intros [[_ Hall] [Hv Hnd]]. split; [|done]. intros w Hw. destruct (Hall w Hw) as (? & ? & ?).
    split_and!; [done..|]. rewrite not_elem_of_union, not_elem_of_singleton. split; [|done].
    intros Heq. apply Hv. by exists w.
Qed.

Lemma check_configs_names vs names ns :
  check_configs vs names = Ok ns → ns = list_to_set (vc_Name <$> vs) ∪ names.
Proof.
  revert names. induction vs as [|v vs IH]; intros names; cbn; [intros [= ->]; set_solver|].
  destruct (String.eqb _ _); [done|]. destruct (_ <=? _); [done|]. case_bool_decide; [done|].
  intros ->%IH. set_solver.
Qed.

(** The settings of a multi-vector collection are valid exactly when there are
    some, each with a name of its own and a positive dimension, and the default
    vector, if one is named, is among them. *)
Theorem multivector_config_valid c :
  Validate_config c = Ok tt ↔
  mc_Vectors c ≠ [] ∧ NoDup (vc_Name <$> mc_Vectors c) ∧
  Forall (λ v, vc_Name v ≠ ""%string ∧ 0 < vc_Dimension v) (mc_Vectors c) ∧
  (mc_DefaultVector c = ""%string ∨ mc_DefaultVector c ∈ vc_Name <$> mc_Vectors c).
Proof.
  unfold Validate_config. destruct (mc_Vectors c) as [|v vs] eqn:Hvs; [by split; [|intros [? _]]|].
  assert (0 < len (v :: vs)) by (rewrite len_cons; pose proof (len_nonneg vs); lia).
  rewrite (proj2 (Z.eqb_neq _ _)) by lia. pose proof (check_configs_ok (v :: vs) ∅) as Hok.
  assert (∀ l : list VectorConfig, Forall (λ v, vc_Name v ≠ ""%string ∧ 0 < vc_Dimension v ∧ vc_Name v ∉ (∅ : gset string)) l
    ↔ Forall (λ v, vc_Name v ≠ ""%string ∧ 0 < vc_Dimension v) l) as Hsimp.
  { intros l. rewrite !Forall_forall. split; intros Hl w Hw; specialize (Hl w Hw) as Hw'; [tauto|].
    destruct Hw'. split_and!; [done..|apply not_elem_of_empty]. }
  rewrite Hsimp in Hok. destruct (check_configs (v :: vs) ∅) as [ns|e|] eqn:E1.
  - rewrite Ok_bind. apply check_configs_names in E1 as ->. destruct (proj1 Hok) as [Hall Hnd]; [by eexists|].
    assert (mc_DefaultVector c ∈ (list_to_set (vc_Name <$> v :: vs) ∪ ∅ : gset string)
      ↔ mc_DefaultVector c ∈ vc_Name <$> v :: vs) as Hin by (rewrite union_empty_r_L; apply elem_of_list_to_set).
    destruct (String.eqb_spec (mc_DefaultVector c) ""); cbn [negb andb];
      [split; [intros _; by split_and!; [..|left]|done]|].
    rewrite (bool_decide_ext _ _ Hin). case_bool_decide; cbn [negb].
    + split; [intros _; by split_and!; [..|right]|done].
    + split; [done|]. by intros (_ & _ & _ & [?|?]).
  - split; [done|]. intros (_ & Hnd & Hall & _). destruct (proj2 Hok) as [? ?]; [by split|done].
  - split; [done|]. intros (_ & Hnd & Hall & _). destruct (proj2 Hok) as [? ?]; [by split|done].
Qed.

(** The fold keeps the greatest it has seen. *)
Lemma max_fold q ds acc :
  let m := foldl (λ maxSim d, if fgt (dotProduct q d) maxSim then dotProduct q d else maxSim) acc ds in
  (m = acc ∨ m ∈ dotProduct q <$> ds) ∧ flt m acc = false ∧
  (acc ≠ S754_nan → m ≠ S754_nan ∧ ∀ d, d ∈ ds → flt m (dotProduct q d) = false).
Proof.
  revert acc. induction ds as [|d ds IH]; intros acc; cbn.
  { split_and!; [by left|apply flt_irrefl|]. split; [done|]. intros d Hd. by apply not_elem_of_nil in Hd. }
  cbv zeta in IH. unfold fgt in *. change SFltb with flt in *. destruct (flt acc (dotProduct q d)) eqn:E1.
  - destruct (IH (dotProduct q d)) as (Hin & Hge & Hall). apply flt_not_nan in E1 as Hnn.
    destruct (Hall (proj2 Hnn)) as [Hm Hds].
    split_and!; [right; rewrite elem_of_cons; tauto| |].
    + destruct (flt _ acc) eqn:E2; [|done]. rewrite (flt_trans _ _ _ E2 E1) in Hge. done.
    + split; [done|]. intros d' [->|Hd']%elem_of_cons; [done|by apply Hds].
  - destruct (IH acc) as (Hin & Hge & Hall). split_and!; [rewrite elem_of_cons; tauto|done|].
    intros Hacc. destruct (Hall Hacc) as [Hm Hds]. split; [done|].
    intros d' [->|Hd']%elem_of_cons; [|by apply Hds]. exact (flt_ge_trans _ _ _ Hacc E1 Hge).
Qed.

(** MaxSim adds up, over the query tokens in their order, the greatest dot
    product with a token of the document, or -1e10 when all are below it or NaN. *)
Theorem maxsim_greatest cv queryTokens :
  queryTokens ≠ [] → cv_TokenVectors cv ≠ [] →
  ∃ bests, MaxSim cv queryTokens = foldl f32_add f32_zero bests ∧
    Forall2 (λ q m, (m = least_sim ∨ m ∈ dotProduct q <$> cv_TokenVectors cv) ∧
      ∀ d, d ∈ cv_TokenVectors cv → fgt (dotProduct q d) m = false) queryTokens bests.
Proof.
  intros Hq Hd. exists ((λ q, max_sim q (cv_TokenVectors cv)) <$> queryTokens). unfold MaxSim.
  destruct queryTokens as [|q qs] eqn:Eq; [done|]. rewrite <- Eq in *. rewrite !(proj2 (Z.eqb_neq _ _)).
  - cbn [orb]. split; [by rewrite foldl_fmap|]. apply Forall2_fmap_r, Forall_Forall2_diag, Forall_true. intros q'.
    destruct (max_fold q' (cv_TokenVectors cv) least_sim) as (Hin & _ & Hall). split; [exact Hin|].
    assert (least_sim ≠ S754_nan) as Hne by (vm_compute; discriminate). exact (proj2 (Hall Hne)).
  - destruct (cv_TokenVectors cv); [done|]. rewrite len_cons. pose proof (len_nonneg l). lia.
  - rewrite Eq, len_cons. pose proof (len_nonneg qs). lia.
Qed.

(** A truncation is the prefix of the asked length, the whole vector when that
    is longer; a negative length panics. The supported lengths are not consulted. *)
Theorem truncation_prefix mv dim :
  (0 ≤ dim → GetTruncated mv dim = Ok (take (Z.to_nat dim) (mt_FullVector mv))) ∧
  (dim < 0 → GetTruncated mv dim = Panic).
Proof.
  unfold GetTruncated. pose proof (len_nonneg (mt_FullVector mv)). rewrite Z.geb_leb. split; intros Hd.
  - destruct (Z.leb_spec (len (mt_FullVector mv)) dim).
    + rewrite take_ge; [done|unfold len in *; lia].
    + unfold slice. rewrite !(proj2 (Z.leb_le _ _)) by lia. by rewrite Z.sub_0_r.
  - rewrite (proj2 (Z.leb_gt _ _)) by lia. by apply slice_backwards.
Qed.

(** ** Concrete values *)
Lemma maxsim_greatest_witness :
  let v x y := [f32_of_Z x; f32_of_Z y] in
  let cv := mkColBERT "d" [v 1 0; v 0 2; v 3 1] None in
  MaxSim cv [v 1 0; v 0 1] = f32_of_Z 5 ∧ ∃ bests, MaxSim cv [v 1 0; v 0 1] = foldl f32_add f32_zero bests.
Proof.
  intros v cv. split; [by vm_compute|].
  destruct (maxsim_greatest cv [v 1 0; v 0 1]) as (bests & Hb & _); [done..|]. by exists bests.
Defined.
