(* ===== verification/AnyMap.v ===== *)
(** * Maps whose keys are interface values

    A Go map of type [map[interface{}]A], as the list of its entries: keys are
    compared as Go compares interface values, so the two zeros are one key and a
    NaN is never found again; lists and maps cannot be hashed and panic. *)
From stdpp Require Import base strings list numbers.
From Stdlib Require Import ZArith Lia Floats.SpecFloat.
From S2P Require Import Prelude Float32 Distance PayloadFilter.
From stdpp Require Import list.

#[local] Open Scope Z_scope.

(** Lists and maps panic as keys of a map. *)
Definition hashable (v : value) : bool := match v with VList _ | VMap _ => false | _ => true end.
Definition same_key (v w : value) : bool := match interface_eq v w with Ok b => b | _ => false end.

Definition any_map (A : Type) := list (value * A).
Fixpoint any_find {A} (v : value) (gs : any_map A) : option A :=
  match gs with
  | [] => None
  | (w, ps) :: gs => if same_key w v then Some ps else any_find v gs
  end.
Fixpoint any_set {A} (v : value) (ps : A) (gs : any_map A) : any_map A :=
  match gs with
  | [] => [(v, ps)]
  | (w, qs) :: gs => if same_key w v then (w, ps) :: gs else (w, qs) :: any_set v ps gs
  end.

(** The value of a key in a payload, and whether it is there *)
Fixpoint map_entry (m : list (string * value)) (key : string) : option value :=
  match m with
  | [] => None
  | (k, v) :: m => if String.eqb k key then Some v else map_entry m key
  end.

(** A range over such a map runs in any order. *)
Class AnyOrder := {
  any_range : ∀ {A}, any_map A → list (value * A);
  any_range_perm : ∀ {A} (m : any_map A), any_range m ≡ₚ m
}.
Definition any_listed : AnyOrder := {| any_range A m := m; any_range_perm A m := reflexivity _ |}.

(** ** Keys *)
Definition key_ok (v : value) : Prop := same_key v v = true.

Lemma SFeqb_cases a b :
  SFeqb a b = true → a ≠ S754_nan ∧ (a = b ∨ ∃ s t, a = S754_zero s ∧ b = S754_zero t).
Proof.
  destruct a as [s|[]| |[] m e], b as [t|[]| |[] n f]; try done; unfold SFeqb; cbn;
    try (intros _; split; [done|by eauto]).
  all: destruct (Z.compare_spec e f) as [->|?|?]; try done.
  all: destruct (Pos.compare_cont Eq m n) eqn:E1; try done.
  all: apply Pos.compare_eq in E1 as ->; intros _; split; [done|by left].
Qed.

Lemma SFeqb_zero s t : SFeqb (S754_zero s) (S754_zero t) = true.
Proof. done. Qed.

Lemma SFeqb_comm a b : SFeqb a b = true → SFeqb b a = true.
Proof.
  intros H. destruct (SFeqb_cases _ _ H) as [Ha [->|(s & t & -> & ->)]]; [done|apply SFeqb_zero].
Qed.
Lemma SFeqb_trans a b c : SFeqb a b = true → SFeqb b c = true → SFeqb a c = true.
Proof.
  intros H. destruct (SFeqb_cases _ _ H) as [Ha [->|(s & t & -> & ->)]]; [done|].
  intros H'. destruct (SFeqb_cases _ _ H') as [_ [<-|(s' & t' & _ & ->)]]; apply SFeqb_zero.
Qed.

Lemma same_key_comm v w : same_key v w = true → same_key w v = true.
Proof.
  unfold same_key. destruct v, w; cbn; try done.
  - by rewrite Bool.eqb_true_iff; intros ->; rewrite Bool.eqb_reflx.
  - apply SFeqb_comm.
  - apply SFeqb_comm.
  - by rewrite Z.eqb_sym.
  - by rewrite Z.eqb_sym.
  - by rewrite String.eqb_sym.
Qed.
Lemma same_key_trans u v w : same_key u v = true → same_key v w = true → same_key u w = true.
Proof.
  unfold same_key. destruct u, v, w; cbn; try done.
  - by intros ->%Bool.eqb_prop ->%Bool.eqb_prop; rewrite Bool.eqb_reflx.
  - apply SFeqb_trans.
  - apply SFeqb_trans.
  - by intros ->%Z.eqb_eq.
  - by intros ->%Z.eqb_eq.
  - by intros ->%String.eqb_eq.
Qed.
Lemma same_key_hashable v w : same_key v w = true → hashable w = true.
Proof. by destruct v, w. Qed.
Lemma same_key_ext u v w : same_key v w = true → same_key u v = same_key u w.
Proof.
  intros H. destruct (same_key u v) eqn:E1; symmetry.
  - by eapply same_key_trans.
  - apply not_true_is_false. intros E2. apply same_key_comm in H.
    by rewrite (same_key_trans _ _ _ E2 H) in E1.
Qed.

(** ** The map after an assignment *)
Lemma any_find_set {A} u v (ps : A) gs :
  key_ok v → any_find u (any_set v ps gs) = if same_key v u then Some ps else any_find u gs.
Proof.
  intros Hv. induction gs as [|[w qs] gs IH]; cbn; [done|].
  destruct (same_key w v) eqn:Ewv; cbn.
  - destruct (same_key v u) eqn:Evu; [by rewrite (same_key_trans _ _ _ Ewv Evu)|].
    destruct (same_key w u) eqn:Ewu; [|done].
    by rewrite (same_key_trans _ _ _ (same_key_comm _ _ Ewv) Ewu) in Evu.
  - rewrite IH. destruct (same_key w u) eqn:Ewu, (same_key v u) eqn:Evu; try done.
    by rewrite (same_key_trans _ _ _ Ewu (same_key_comm _ _ Evu)) in Ewv.
Qed.

(** ** The first occurrence of each key *)
Definition first_values (vs : list value) : list value :=
  foldl (λ ks v, if existsb (λ k, same_key k v) ks then ks else ks ++ [v]) [] vs.

Definition known (ks : list value) (v : value) : bool := existsb (λ k, same_key k v) ks.

Lemma known_true ks v : known ks v = true ↔ ∃ k, k ∈ ks ∧ same_key k v = true.
Proof. unfold known. rewrite existsb_exists. setoid_rewrite <- list_elem_of_In. done. Qed.

Lemma first_values_snoc vs v :
  first_values (vs ++ [v]) = first_values vs ++ (if known (first_values vs) v then [] else [v]).
Proof.
  unfold first_values. rewrite foldl_app. cbn. fold (first_values vs). fold (known (first_values vs) v).
  destruct (known _ v); [by rewrite app_nil_r|done].
Qed.

Lemma first_values_known vs v : v ∈ vs → key_ok v → known (first_values vs) v = true.
Proof.
  induction vs as [|w vs IH] using rev_ind; intros Hv Hk; [by apply not_elem_of_nil in Hv|].
  rewrite first_values_snoc, known_true. apply elem_of_app in Hv as [Hv|Hv].
  - apply IH in Hv as (k & Hk1 & Hk2)%known_true; [|done]. exists k. split; [|done]. apply elem_of_app. by left.
  - apply list_elem_of_singleton in Hv as ->. destruct (known (first_values vs) w) eqn:E1.
    + apply known_true in E1 as (k & Hk1 & Hk2). exists k. by rewrite app_nil_r.
    + exists w. split; [|done]. apply elem_of_app. right. by apply list_elem_of_singleton.
Qed.

Lemma known_app ks ks' v : known (ks ++ ks') v = known ks v || known ks' v.
Proof. apply existsb_app. Qed.
Lemma known_ext ks u v : same_key u v = true → known ks u = known ks v.
Proof. intros H. unfold known. induction ks as [|k ks IH]; [done|]. cbn. by rewrite IH, (same_key_ext k u v H). Qed.

