(* ===== verification/Discovery.v ===== *)
(** * pkg/collection/discovery.go: discovery, recommendation and grouping

    Queries on a collection that steer by examples, and searches whose results
    are grouped by a field of the payload. Durations are left out. *)
From stdpp Require Import base gmap strings list fin_maps numbers.
From Stdlib Require Import Strings.Byte ZArith Lia Floats.SpecFloat.
From S2P Require Import Prelude GoLoops Float32 Heap WalCodec Hnsw Distance HnswQuery Cache PayloadFilter AnyMap.
From S2P Require Import PayloadIndex Binary Point PointV2 Sparse Config SearchCache Collection.

#[local] Open Scope Z_scope.

Definition f64_add : f64 → f64 → f64 := SFadd 53 1024.
Definition f64_sub : f64 → f64 → f64 := SFsub 53 1024.
Definition f64_mul : f64 → f64 → f64 := SFmul 53 1024.
Definition f64_div : f64 → f64 → f64 := SFdiv 53 1024.
Definition f64_one : f64 := f64_of_Z 1.
Definition f64_half : f64 := f64_div f64_one (f64_of_Z 2).

Inductive discError :=
| EColl (e : collError) | ENoTarget | ENoExample | ENoPositive.
Definition coll_err {A} (r : result collError A) : result discError A :=
  match r with Ok a => Ok a | Err e => Err (EColl e) | Panic => Panic end.

Record ScoredPointV2 := mkScoredPointV2 {
  s2_ID : string; s2_Score : f32; s2_Vector : Vector; s2_Payload : option payload; s2_VectorName : string
}.

(** ** Examples *)
Record ContextExample := mkExample { ex_ID : string; ex_Vector : Vector }.
Record DiscoveryContext := mkContext { cx_Positive : list ContextExample; cx_Negative : list ContextExample }.

Record DiscoveryParams := mkDiscovery {
  d_Target : Vector;
  d_Context : option DiscoveryContext;
  d_K : Z;
  d_Ef : Z;
  d_Filter : option Filter;
  d_VectorName : string;
  d_WithVector : bool;
  d_WithPayload : bool
}.

(** [computeCentroid] *)
Fixpoint add_into (centroid v : Vector) : Vector :=
  match centroid, v with
  | x :: centroid, y :: v => f32_add x y :: add_into centroid v
  | _, _ => centroid
  end.
Definition computeCentroid (vectors : list Vector) (dimension : Z) : result discError Vector :=
  match vectors with
  | [] => Ok []
  | _ =>
      zeros ← make dimension f32_zero;
      Ok ((λ x, f32_div x (f32_of_Z (len vectors))) <$> foldl add_into zeros vectors)
  end.

(** The mean similarity to the examples, weighted *)
Definition context_score (dist : Vector → Vector → f32) (vec : Vector) (examples : list Vector) : f64 :=
  let total := foldl (λ s ex, f64_add s (f64_sub f64_one (f64_of_f32 (dist vec ex)))) (f64_of_Z 0) examples in
  f64_mul (f64_div total (f64_of_Z (len examples))) f64_half.

Definition computeDiscoveryScore (dist : Vector → Vector → f32) (vec target : Vector)
    (positive negative : list Vector) : f64 :=
  let score := f64_sub f64_one (f64_of_f32 (dist vec target)) in
  let score := match positive with [] => score | _ => f64_add score (context_score dist vec positive) end in
  match negative with [] => score | _ => f64_sub score (context_score dist vec negative) end.

(** [len(positive)] empty pairs, then the examples pair by pair *)
Fixpoint pair_up (positive negative : list Vector) : list ContextPair :=
  match positive, negative with
  | [], [] => []
  | p :: ps, [] => mkContextPair p [] :: pair_up ps []
  | [], n :: ns => mkContextPair [] n :: (mkContextPair [] <$> ns)
  | p :: ps, n :: ns => mkContextPair p n :: pair_up ps ns
  end.
Definition context_pairs (positive negative : list Vector) : list ContextPair :=
  replicate (length positive) (mkContextPair [] []) ++ pair_up positive negative.

Section discovery.
Context {Q D : Type} {sorter : Sorter} {order : MapOrder string} {cm : CaseMap}.
#[local] Abbreviation Coll := (@Coll Q D).
#[local] Abbreviation R := (result discError).

(** A method of an index that may be nil *)
Definition the_idx (o : option Idx) : R Idx := match o with Some i => Ok i | None => Panic end.

Definition resolveContextExample (o : option Idx) (ex : ContextExample) : R Vector :=
  if 0 <? len (ex_Vector ex) then Ok (ex_Vector ex)
  else if negb (String.eqb (ex_ID ex) "") then
    i ← the_idx o; p ← coll_err (hnsw_err (ix_Get i (ex_ID ex))); Ok (p_Vector p)
  else Err ENoExample.

(** Vectors are normalised for the cosine metric. *)
Definition prepared (vc : VectorConfig Q) (v : Vector) : Vector :=
  if is_cosine (vc_Metric vc) then Point.Normalize v else v.

Definition resolve_all (o : option Idx) (vc : VectorConfig Q) (exs : list ContextExample) : R (list Vector) :=
  mapM (λ ex, v ← resolveContextExample o ex; Ok (prepared vc v)) exs.

Definition discovery_target (vc : VectorConfig Q) (target : Vector) (positive : list Vector) : R Vector :=
  if 0 <? len target then Ok (prepared vc target)
  else if 0 <? len positive then computeCentroid positive (vc_Dimension vc)
  else Err ENoTarget.

(** The scores of the candidates that can be read *)
Definition score_candidates (i : Idx) (score : Vector → f64) (cs : list Candidate) : R (list (Candidate * f64)) :=
  loop (λ _ cand out,
      match ix_Get i (GetPointID (ix_hnsw i) (cID cand)) with
      | Panic => Panic
      | Err _ => Ok out
      | Ok p => Ok (out ++ [(cand, score (p_Vector p))])
      end) 0 cs [].

Definition discovery_points (i : Idx) (params : DiscoveryParams) (scs : list (Candidate * f64)) :
    R (list ScoredPointV2) :=
  loop (λ _ '(cand, score) out,
      match ix_Get i (GetPointID (ix_hnsw i) (cID cand)) with
      | Panic => Panic
      | Err _ => Ok out
      | Ok p => Ok (out ++ [mkScoredPointV2 (p_ID p) (f32_of_f64 score)
          (if d_WithVector params then p_Vector p else [])
          (if d_WithPayload params then p_Payload p else None) (d_VectorName params)])
      end) 0 scs [].

Definition higher (a b : Candidate * f64) : bool := fgt a.2 b.2.

(** The search of the graph, from the examples *)
Definition discover_params (params : DiscoveryParams) (target : Vector) (positive negative : list Vector) :
    DiscoverParams (option payload) :=
  let ef := if d_Ef params =? 0 then 100 else d_Ef params in
  let k3 := i64 (d_K params * 3) in
  mkDiscoverParams target (context_pairs positive negative)
    (if k3 <? 100 then 100 else k3) (if ef <? k3 then k3 else ef)
    (match d_Filter params with Some _ => Some (λ _ pl, accepts (d_Filter params) pl) | None => None end).

(** [scoredCandidates[:params.K]] when there are more *)
Definition cut_to {A} (k : Z) (l : list A) : R (list A) := if len l >? k then slice l 0 k else Ok l.

Definition Discover (params : DiscoveryParams) (c : Coll) : R (list ScoredPointV2) :=
  '(idx, vc, _) ← coll_err (target_index c (d_VectorName params));
  match vc with
  | None => Err (EColl (EVectorConfig ""))
  | Some vc =>
      let ctx := default (mkContext [] []) (d_Context params) in
      positive ← resolve_all idx vc (cx_Positive ctx);
      negative ← resolve_all idx vc (cx_Negative ctx);
      target ← discovery_target vc (d_Target params) positive;
      if negb (len target =? vc_Dimension vc) then Err (EColl EDimensionMismatch) else
      i ← the_idx idx;
      let dist := calc_Distance (ix_calc i) in
      candidates ← coll_err (hnsw_err (@DiscoverWithFilter _ dist (ix_hnsw i)
                     (discover_params params target positive negative)));
      scored ← score_candidates i
        (λ v, computeDiscoveryScore dist (prepared vc v) target positive negative) candidates;
      scored ← cut_to (d_K params) (sort_Slice higher scored);
      discovery_points i params scored
  end.

(** ** Recommendation *)
Record RecommendParams := mkRecommend {
  r_Positive : list string;
  r_Negative : list string;
  r_Strategy : string;
  r_K : Z;
  r_Ef : Z;
  r_Filter : option Filter;
  r_VectorName : string;
  r_WithVector : bool;
  r_WithPayload : bool
}.

(** The strategy is read nowhere. *)
Definition RecommendV2 (params : RecommendParams) (c : Coll) : R (list ScoredPointV2) :=
  if len (r_Positive params) =? 0 then Err ENoPositive else
  Discover (mkDiscovery []
    (Some (mkContext ((λ id, mkExample id []) <$> r_Positive params)
                     ((λ id, mkExample id []) <$> r_Negative params)))
    (r_K params) (r_Ef params) (r_Filter params) (r_VectorName params) (r_WithVector params)
    (r_WithPayload params)) c.

(** ** Grouping *)
Record GroupSearchParams := mkGroupSearch {
  g_Query : Vector;
  g_GroupBy : string;
  g_GroupSize : Z;
  g_Limit : Z;
  g_Filter : option Filter;
  g_VectorName : string;
  g_WithVector : bool
}.

(** [map[interface{}][]ScoredPointV2] *)
Definition groups := any_map (list ScoredPointV2).

(** The value a point is grouped by *)
Definition group_value (field : string) (pl : option payload) : value :=
  match map_get (default [] pl) field with VNil => VString "__none__" | v => v end.

(** One candidate: the groups and their order *)
Definition group_candidate (groupSize limit : Z) (v : value) (sp : ScoredPointV2)
    (st : groups * list value) : R (groups * list value) :=
  let '(gs, groupOrder) := st in
  if negb (hashable v) then Panic else
  if len (default [] (any_find v gs)) >=? groupSize then Ok st else
  match any_find v gs with
  | Some ps => Ok (any_set v (ps ++ [sp]) gs, groupOrder)
  | None =>
      if len groupOrder >=? limit then Ok st
      else Ok (any_set v [sp] gs, groupOrder ++ [v])
  end.

Definition group_point (params : GroupSearchParams) (cand : Candidate) (p : Hnsw.Point (option payload)) :
    ScoredPointV2 :=
  mkScoredPointV2 (p_ID p) (f32_sub f32_one (cDistance cand))
    (if g_WithVector params then p_Vector p else []) None (g_VectorName params).

Definition group_candidates (i : Idx) (params : GroupSearchParams) (groupSize limit : Z) (cs : list Candidate) :
    R (groups * list value) :=
  loop (λ _ cand st,
      match ix_Get i (GetPointID (ix_hnsw i) (cID cand)) with
      | Panic => Panic
      | Err _ => Ok st
      | Ok p => group_candidate groupSize limit (group_value (g_GroupBy params) (p_Payload p))
                  (group_point params cand p) st
      end) 0 cs ([], []).

Definition group_search (i : Idx) (query : Vector) (searchK : Z) (filter : option Filter) :
    R (list Candidate) :=
  coll_err (hnsw_err match filter with
  | Some _ =>
      @SearchWithFilter _ (calc_Distance (ix_calc i)) _ (ix_hnsw i) query
        (HnswQuery.mkSearchParams searchK 100 f32_zero (Some (λ _ pl, accepts filter pl)) (f64_of_Z 0))
  | None => @SearchWithEf _ (calc_Distance (ix_calc i)) _ (ix_hnsw i) query searchK 100
  end).

(** The groups in the order in which they were met *)
Definition listed (st : groups * list value) : list (value * list ScoredPointV2) :=
  (λ v, (v, default [] (any_find v st.1))) <$> st.2.

(** The groups of the candidates of one index *)
Definition group_index (i : Idx) (query : Vector) (params : GroupSearchParams) :
    R (list (value * list ScoredPointV2)) :=
  let groupSize := if g_GroupSize params <=? 0 then 1 else g_GroupSize params in
  let limit := if g_Limit params <=? 0 then 10 else g_Limit params in
  let searchK := i64 (limit * groupSize * 3) in
  let searchK := if searchK <? 100 then 100 else searchK in
  candidates ← group_search i query searchK (g_Filter params);
  st ← group_candidates i params groupSize limit candidates;
  Ok (listed st).

Definition GroupSearch (params : GroupSearchParams) (c : Coll) : R (list (value * list ScoredPointV2)) :=
  '(idx, vc, _) ← coll_err (target_index c (g_VectorName params));
  match vc with
  | None => Err (EColl (EVectorConfig ""))
  | Some vc =>
      if negb (len (g_Query params) =? vc_Dimension vc) then Err (EColl EDimensionMismatch) else
      i ← the_idx idx;
      group_index i (prepared vc (g_Query params)) params
  end.
End discovery.
