(* ===== verification/DiscoveryGroups.v ===== *)
(** * pkg/collection/discovery.go: what a grouped search returns

    A grouped search lists the first values met among its candidates, each with
    the first candidates of that value. Keys are compared as Go compares them: the
    two zeros are one key. *)
From stdpp Require Import base gmap strings list fin_maps numbers.
From Stdlib Require Import ZArith Lia Floats.SpecFloat.
From S2P Require Import Prelude GoLoops Float32 Heap WalCodec Hnsw Distance HnswSearch HnswGraph HnswSpec HnswTheorems.
From S2P Require Import HnswQuery HnswFilter Cache PayloadFilter AnyMap.
From S2P Require Import PayloadIndex Binary Point PointV2 Sparse Config SearchCache Collection Discovery.
From stdpp Require Import list.

#[local] Open Scope Z_scope.

(** ** The reference: first values, first points *)
Definition row := (value * ScoredPointV2)%type.
Definition of_value (v : value) (rows : list row) : list ScoredPointV2 :=
  snd <$> filter (λ r, same_key v r.1) rows.
Definition grouping (groupSize limit : nat) (rows : list row) : list (value * list ScoredPointV2) :=
  (λ v, (v, take groupSize (of_value v rows))) <$> take limit (first_values rows.*1).

Lemma of_value_snoc v rows r :
  of_value v (rows ++ [r]) = of_value v rows ++ (if same_key v r.1 then [r.2] else []).
Proof.
  unfold of_value. rewrite filter_app, fmap_app, filter_cons, filter_nil.
  destruct (same_key v r.1); by repeat case_decide.
Qed.

(** What the loop has built from the rows it has seen *)
Record grouped (groupSize limit : nat) (rows : list row) (st : groups * list value) : Prop := {
  grouped_order : st.2 = take limit (first_values rows.*1);
  grouped_in v : known st.2 v = true → any_find v st.1 = Some (take groupSize (of_value v rows));
  grouped_out v : known st.2 v = false → any_find v st.1 = None
}.

Lemma of_value_same u v rows : same_key u v = true → of_value u rows = of_value v rows.
Proof.
  intros H. unfold of_value. f_equal. apply list_filter_iff. intros [w sp]. cbn.
  assert (same_key u w = same_key v w) as ->; [|done].
  destruct (same_key v w) eqn:E1; [by eapply same_key_trans|]. apply not_true_is_false. intros E2.
  apply same_key_comm in H. by rewrite (same_key_trans _ _ _ H E2) in E1.
Qed.

Section grouping.
Context (groupSize limit : nat) (Hsize : (0 < groupSize)%nat).

Lemma grouped_nil : grouped groupSize limit [] ([], []).
Proof. split; [cbn; by destruct limit|done|done]. Qed.

(** A row of a group that exists *)
Lemma group_known rows st v sp :
  grouped groupSize limit rows st → key_ok v → known st.2 v = true →
  ∃ st', group_candidate (Z.of_nat groupSize) (Z.of_nat limit) v sp st = Ok st' ∧
    grouped groupSize limit (rows ++ [(v, sp)]) st'.
Proof.
  intros [Ho Hi Hn] Hv Hk. destruct st as [gs ks]. cbn [fst snd] in *.
  assert (take limit (first_values (rows ++ [(v, sp)]).*1) = ks) as Ho'.
  { rewrite fmap_app. cbn. rewrite first_values_snoc. subst ks.
    assert (known (first_values rows.*1) v = true) as ->; [|by rewrite app_nil_r].
    apply known_true in Hk as (k & Hk & Hkv). apply known_true. exists k. split; [|done].
    by eapply subseteq_take. }
  unfold group_candidate. rewrite (same_key_hashable v v Hv), (Hi v Hk). cbn [negb].
  set (ps := take groupSize (of_value v rows)). change (default [] (Some ps)) with ps.
  destruct (Z.geb_spec (len ps) (Z.of_nat groupSize)) as [Hfull|Hroom].
  - eexists. split; [reflexivity|]. split; cbn [fst snd]; [by rewrite Ho'| |done].
    intros u Hu. rewrite (Hi u Hu), of_value_snoc. f_equal. cbn [fst snd]. destruct (same_key u v) eqn:E1; [|by rewrite app_nil_r].
    assert (of_value u rows = of_value v rows) as -> by by apply of_value_same.
    rewrite take_app_le; [done|]. unfold ps, len in Hfull. rewrite length_take in Hfull. lia.
  - eexists. split; [reflexivity|]. split; cbn [fst snd]; [by rewrite Ho'| |].
    + intros u Hu. rewrite any_find_set by done. rewrite of_value_snoc. cbn [fst snd].
      destruct (same_key v u) eqn:E1.
      * apply same_key_comm in E1. rewrite E1, (of_value_same u v) by done. f_equal. unfold ps, len in *.
        rewrite length_take in Hroom. rewrite !take_ge; [done|rewrite length_app; cbn; lia|lia].
      * rewrite (Hi u Hu). f_equal. destruct (same_key u v) eqn:E2; [|by rewrite app_nil_r].
        by rewrite (same_key_comm _ _ E2) in E1.
    + intros u Hu. rewrite any_find_set by done. destruct (same_key v u) eqn:E1; [|by apply Hn].
      by rewrite <- (known_ext ks v u E1), Hk in Hu.
Qed.

(** A row of a new group, while there is room for groups, or none *)
Lemma group_unknown rows st v sp :
  grouped groupSize limit rows st → Forall (λ r, key_ok r.1) rows → key_ok v → known st.2 v = false →
  ∃ st', group_candidate (Z.of_nat groupSize) (Z.of_nat limit) v sp st = Ok st' ∧
    grouped groupSize limit (rows ++ [(v, sp)]) st'.
Proof.
  intros [Ho Hi Hn] Hrows Hv Hk. destruct st as [gs ks]. cbn [fst snd] in *.
  unfold group_candidate. rewrite (same_key_hashable v v Hv), (Hn v Hk). cbn [negb].
  change (len (default [] None)) with 0. rewrite Z.geb_leb, (proj2 (Z.leb_gt _ _)) by lia.
  assert (∀ u, known ks u = true → same_key u v = false) as Hnew.
  { intros u Hu. apply not_true_is_false. intros E1. by rewrite (known_ext ks u v E1), Hk in Hu. }
  destruct (Z.geb_spec (len ks) (Z.of_nat limit)) as [Hfull|Hroom].
  - eexists. split; [reflexivity|]. split; cbn [fst snd].
    + rewrite fmap_app. cbn. rewrite first_values_snoc, take_app_le; [done|].
      rewrite Ho in Hfull. unfold len in Hfull. rewrite length_take in Hfull. lia.
    + intros u Hu. rewrite (Hi u Hu), of_value_snoc. cbn. by rewrite (Hnew u Hu), app_nil_r.
    + done.
  - assert (ks = first_values rows.*1) as Hks.
    { rewrite Ho. apply take_ge. rewrite Ho in Hroom. unfold len in Hroom. rewrite length_take in Hroom. lia. }
    eexists. split; [reflexivity|]. split; cbn [fst snd].
    + rewrite fmap_app. cbn. rewrite first_values_snoc, <- Hks, Hk, take_ge; [done|].
      rewrite length_app. cbn. unfold len in Hroom. lia.
    + intros u Hu. rewrite any_find_set by done. rewrite of_value_snoc. cbn [fst snd].
      destruct (same_key v u) eqn:E1.
      * apply same_key_comm in E1 as E2. rewrite E2, (of_value_same u v) by done.
        assert (of_value v rows = []) as ->; [|by rewrite take_ge by (cbn; lia)].
        unfold of_value. destruct (filter _ rows) as [|r rs] eqn:Ef; [done|].
        assert (r ∈ filter (λ r, same_key v r.1) rows) as [Hr Hin]%list_elem_of_filter by (rewrite Ef; left).
        rewrite Forall_forall in Hrows. specialize (Hrows r Hin).
        assert (known ks r.1 = true) as Hkr by (rewrite Hks; apply first_values_known; [by apply list_elem_of_fmap_2|done]).
        apply Is_true_true in Hr. by rewrite <- (known_ext ks v r.1 Hr), Hk in Hkr.
      * rewrite known_app in Hu. unfold known at 2 in Hu. cbn in Hu. rewrite E1, !orb_false_r in Hu.
        by rewrite (Hi u Hu), (Hnew u Hu), app_nil_r.
    + intros u Hu. rewrite known_app in Hu. unfold known at 2 in Hu. cbn in Hu. apply orb_false_iff in Hu as [Hu E1].
      rewrite orb_false_r in E1. rewrite any_find_set, E1 by done. by apply Hn.
Qed.

Lemma grouped_listed rows st :
  grouped groupSize limit rows st → Forall (λ r, key_ok r.1) rows → listed st = grouping groupSize limit rows.
Proof.
  intros [Ho Hi Hn] Hrows. unfold listed, grouping. rewrite <- Ho. apply list_fmap_ext. intros i v Hv.
  f_equal. rewrite Hi; [done|]. apply known_true. exists v.
  apply list_elem_of_lookup_2 in Hv as Hin. split; [done|]. rewrite Ho in Hin. apply subseteq_take in Hin.
  assert (∀ vs, (∀ w, w ∈ vs → key_ok w) → v ∈ first_values vs → key_ok v) as Hfv.
  { induction vs as [|w vs IH] using rev_ind; intros Hall Hin'; [by apply not_elem_of_nil in Hin'|].
    rewrite first_values_snoc in Hin'. apply elem_of_app in Hin' as [Hin'|Hin'].
    - apply IH; [|done]. intros w' Hw'. apply Hall, elem_of_app. by left.
    - destruct (known _ w); [by apply not_elem_of_nil in Hin'|]. apply list_elem_of_singleton in Hin' as ->.
      apply Hall, elem_of_app. right. by apply list_elem_of_singleton. }
  apply (Hfv rows.*1); [|done]. intros w (r & -> & Hr)%list_elem_of_fmap. rewrite Forall_forall in Hrows. by apply Hrows.
Qed.
End grouping.

(** ** Candidates and their points *)
Section search.
Context {Q D : Type} {sorter : Sorter} {order : MapOrder string} {cm : CaseMap}.
Implicit Types (i : Idx) (n : Node (option payload)).

Lemma ix_Get_node i id n :
  wf (ix_hnsw i) → h_nodes (ix_hnsw i) !! id = Some n →
  ix_Get i (GetPointID (ix_hnsw i) id)
  = if n_deleted n then Err ErrPointNotFound else Ok (Hnsw.mkPoint (n_ID n) (n_Vector n) (n_payload n)).
Proof.
  intros Hwf Hn. unfold ix_Get, Hnsw.Get, GetPointID. rewrite Hn.
  assert (h_idToIndex (ix_hnsw i) !! n_ID n = Some id) as -> by (apply (wf_ids _ Hwf); eauto).
  by rewrite (node_at_Some _ _ _ Hn).
Qed.

(** The row of a candidate, unless its point is deleted *)
Definition row_of i (params : GroupSearchParams) (c : Candidate) : option row :=
  n ← h_nodes (ix_hnsw i) !! cID c;
  if n_deleted n then None else
  Some (group_value (g_GroupBy params) (n_payload n),
        group_point params c (Hnsw.mkPoint (n_ID n) (n_Vector n) (n_payload n))).

Lemma group_candidates_grouped i params groupSize limit cs :
  wf (ix_hnsw i) → (0 < groupSize)%nat →
  Forall (λ c, is_Some (h_nodes (ix_hnsw i) !! cID c)) cs →
  Forall (λ r, key_ok r.1) (omap (row_of i params) cs) →
  ∃ st, group_candidates i params (Z.of_nat groupSize) (Z.of_nat limit) cs = Ok st ∧
    grouped groupSize limit (omap (row_of i params) cs) st.
Proof.
  intros Hwf Hs Hcs Hks. unfold group_candidates.
  edestruct (loop_Ok (E:=discError) (A:=Candidate)
    (λ k st, grouped groupSize limit (omap (row_of i params) (take k cs)) st)) as (st & -> & Hst);
    [apply grouped_nil| |rewrite Nat.add_0_l, take_ge in Hst by done; by eexists].
  intros k c st Hk Hst. rewrite Nat.add_0_l in *. rewrite (take_S_r _ _ _ Hk), omap_app.
  rewrite Forall_forall in Hcs. destruct (Hcs c ltac:(by eapply list_elem_of_lookup_2)) as [n Hn].
  rewrite (ix_Get_node _ _ _ Hwf Hn). cbn [omap list_omap]. unfold row_of at 2. rewrite Hn. cbn [mbind option_bind].
  destruct (n_deleted n) eqn:Hd; [exists st; by rewrite app_nil_r|].
  set (r := (group_value _ _, group_point _ _ _)).
  assert (Forall (λ r, key_ok r.1) (omap (row_of i params) (take k cs) ++ [r])) as Hpre.
  { apply Forall_forall. intros r' Hr'. rewrite Forall_forall in Hks. apply Hks.
    apply elem_of_app in Hr' as [Hr'|Hr']; apply list_elem_of_omap.
    - apply list_elem_of_omap in Hr' as (c' & Hc' & Hrow). exists c'. split; [by eapply subseteq_take|done].
    - apply list_elem_of_singleton in Hr' as ->. exists c. split; [by eapply list_elem_of_lookup_2|].
      unfold row_of. by rewrite Hn; cbn; rewrite Hd. }
  apply Forall_app in Hpre as [Hpre Hv]. apply Forall_inv in Hv.
  destruct (known st.2 r.1) eqn:Ek.
  - exact (group_known groupSize limit Hs _ st r.1 r.2 Hst Hv Ek).
  - exact (group_unknown groupSize limit Hs _ st r.1 r.2 Hst Hpre Hv Ek).
Qed.
End search.

Section theorem.
Context {Q D : Type} {sorter : Sorter} {order : MapOrder string} {cm : CaseMap}.
Implicit Types (i : Idx) (c : @Coll Q D).

Lemma len_prepared (vc : VectorConfig Q) (v : Vector) : len (prepared vc v) = len v.
Proof.
  unfold prepared, Point.Normalize. destruct (is_cosine _); [|done]. destruct (is_zero _); [done|].
  unfold len. by rewrite length_fmap.
Qed.

Lemma group_search_Ok i query k filter :
  wf (ix_hnsw i) → len query = h_dimension (ix_hnsw i) → 100 ≤ k ≤ 2 ^ 47 →
  ∃ cs, group_search i query k filter = Ok cs ∧ len cs ≤ k ∧ NoDup (cID <$> cs) ∧
    Forall (λ cand, is_Some (h_nodes (ix_hnsw i) !! cID cand)) cs.
Proof.
  intros Hwf Hq Hk. unfold group_search. destruct filter as [f|].
  - destruct (@SearchWithFilter_found _ (calc_Distance (ix_calc i)) _ (ix_hnsw i) query
      (HnswQuery.mkSearchParams k 100 f32_zero (Some (λ _ pl, accepts (Some f) pl)) (f64_of_Z 0)))
      as (cs & -> & Hl & Hnd & HF & _); [done|done|cbn; lia|cbn; lia|].
    exists cs. split_and!; [done..|]. eapply Forall_impl; [exact HF|]. intros c' (n & -> & _). by eexists.
  - destruct (@SearchWithEf_found _ (calc_Distance (ix_calc i)) _ (ix_hnsw i) query k 100)
      as (cs & -> & Hl & Hnd & _ & HF & _); [done|done|lia|].
    exists cs. split_and!; [done..|]. eapply Forall_impl; [exact HF|]. intros c' (n & -> & _). by eexists.
Qed.

(** The size and the number of groups in force *)
Definition size_of (params : GroupSearchParams) : Z := if g_GroupSize params <=? 0 then 1 else g_GroupSize params.
Definition limit_of (params : GroupSearchParams) : Z := if g_Limit params <=? 0 then 10 else g_Limit params.

(** C38. A grouped search returns the reference grouping of the candidates of its
    search: the first values met, at most the limit, in the order in which they
    were met, each with its first points, at most the group size. It does so on
    every well-formed index whose live points have values that can be keys (no lists or
    maps, on which the code panics, and no NaN), for a query of the right dimension and
    as long as limit * size * 3 is at most [2^47]. *)
Theorem group_search_groups params c i vc name :
  target_index c (g_VectorName params) = Ok (Some i, Some vc, name) →
  wf (ix_hnsw i) → h_dimension (ix_hnsw i) = vc_Dimension vc → len (g_Query params) = vc_Dimension vc →
  limit_of params * size_of params * 3 ≤ 2 ^ 47 →
  (∀ n, n ∈ h_nodes (ix_hnsw i) → n_deleted n = false → key_ok (group_value (g_GroupBy params) (n_payload n))) →
  ∃ cs, group_search i (prepared vc (g_Query params)) (Z.max 100 (limit_of params * size_of params * 3))
          (g_Filter params) = Ok cs ∧
    GroupSearch params c
    = Ok (grouping (Z.to_nat (size_of params)) (Z.to_nat (limit_of params)) (omap (row_of i params) cs)).
Proof.
  intros Ht Hwf Hdim Hq Hbound Hkeys.
  assert (1 ≤ size_of params) as Hsz by (unfold size_of; destruct (Z.leb_spec (g_GroupSize params) 0); lia).
  assert (1 ≤ limit_of params) as Hli by (unfold limit_of; destruct (Z.leb_spec (g_Limit params) 0); lia).
  assert (0 ≤ limit_of params * size_of params) as Hpos by (apply Z.mul_nonneg_nonneg; lia).
  destruct (group_search_Ok i (prepared vc (g_Query params)) (Z.max 100 (limit_of params * size_of params * 3))
    (g_Filter params)) as (cs & Hcs & _ & _ & HF); [done|by rewrite len_prepared, Hdim|lia|].
  exists cs. split; [done|]. unfold GroupSearch. rewrite Ht. cbn [coll_err].
  rewrite Ok_bind, Hq, Z.eqb_refl. cbn [negb the_idx]. rewrite Ok_bind. unfold group_index.
  fold (size_of params) (limit_of params). unfold i64. rewrite swrap_id by lia.
  assert ((if limit_of params * size_of params * 3 <? 100 then 100 else limit_of params * size_of params * 3)
    = Z.max 100 (limit_of params * size_of params * 3)) as ->.
  { destruct (Z.ltb_spec (limit_of params * size_of params * 3) 100); lia. }
  rewrite Hcs, Ok_bind.
  assert (Forall (λ r, key_ok r.1) (omap (row_of i params) cs)) as Hok.
  { apply Forall_forall. intros r (c' & _ & Hr)%list_elem_of_omap. unfold row_of in Hr.
    apply bind_Some in Hr as (n & Hn & Hr). destruct (n_deleted n) eqn:Hd; [done|]. injection Hr as <-. cbn.
    apply Hkeys; [by eapply list_elem_of_lookup_2|done]. }
  destruct (group_candidates_grouped i params (Z.to_nat (size_of params)) (Z.to_nat (limit_of params)) cs)
    as (st & Hst & Hg); [done|lia|done|done|].
  rewrite !Z2Nat.id in Hst by lia. rewrite Hst, Ok_bind. f_equal.
  apply grouped_listed; [exact Hg|done].
Qed.
End theorem.

(** ** One collection *)
#[local] Instance demo_sorter : Sorter := insertion_sorter.
#[local] Instance demo_order : MapOrder string := listed_order string.
#[local] Existing Instance ascii_case.

Definition demo_calc : Calculator := calc_Distance Euclidean.
Definition demo_point (id : string) (x : Z) (colour : value) : Hnsw.Point (option payload) :=
  Hnsw.mkPoint id [f32_of_Z x] (Some [("colour"%string, colour)]).
Definition demo_cfg : Hnsw.Config := Hnsw.mkConfig 2 4 4 10 1 None.
Definition demo_empty : HNSW (option payload) :=
  match Hnsw.New demo_cfg with Ok h => h | _ => mkHNSW 0 0 0 0 0 0 [] 0 0 0 ∅ 0 None end.
Definition demo_ops : list (iop (payload := option payload)) :=
  [OInsert (demo_point "a" 1 (VString "red")) 1; OInsert (demo_point "b" 2 (VString "blue")) 0;
   OInsert (demo_point "c" 3 (VString "red")) 0; OInsert (demo_point "d" 4 (VString "red")) 0].
Definition demo_index : HNSW (option payload) := (@run_impl _ demo_calc _ demo_empty demo_ops).2.
Definition demo_coll : @Coll unit unit :=
  mkColl (mkCollectionConfig "docs" 1 Config.MetricEuclidean (mkHNSWConfig 2 4 4 10) false None ∅)
    (Some (mkIdx Euclidean demo_index)) ∅ (PayloadIndex.mkIndex tt ∅) NewInvertedIndex false
    (NewSearchCache 1 1) [].

Lemma demo_index_wf : wf demo_index.
Proof.
  assert (HF : Forall (op_level_ok (payload := option payload)) demo_ops) by (repeat constructor; simpl; lia).
  destruct (wf_New demo_cfg demo_empty ltac:(vm_compute; discriminate) eq_refl) as [Hwf _].
  pose proof (@run_refines _ demo_calc _ demo_empty demo_ops Hwf HF) as H. unfold demo_index.
  destruct (run_impl demo_empty demo_ops) as [rs h]. by destruct H as [H _].
Qed.

Lemma demo_keys n :
  n ∈ h_nodes demo_index → key_ok (group_value "colour" (n_payload n)).
Proof.
  intros Hn. apply list_elem_of_lookup in Hn as [i Hi].
  assert (Hlt : (i < 4)%nat) by (apply lookup_lt_Some in Hi; vm_compute in Hi; lia).
  destruct i as [|[|[|[|i]]]]; [..|lia]; vm_compute in Hi; injection Hi as <-; by vm_compute.
Qed.

(** Two of the three red points, and the blue one. *)
Lemma group_search_groups_witness :
  let params := mkGroupSearch [f32_zero] "colour" 2 5 None "" false in
  ∃ gs, GroupSearch params demo_coll = Ok gs ∧
    map (λ g : value * list ScoredPointV2, (g.1, map s2_ID g.2)) gs = [(VString "red", ["a"; "c"]%string); (VString "blue", ["b"]%string)].
Proof.
  intros params.
  destruct (group_search_groups params demo_coll (mkIdx Euclidean demo_index)
    (mkVectorConfig 1 Config.MetricEuclidean (mkHNSWConfig 2 4 4 10) false None) "")
    as (cs & Hcs & Hgs); [reflexivity|exact demo_index_wf|by vm_compute|reflexivity|by vm_compute| |].
  { intros n Hn _. by apply demo_keys. }
  eexists. split; [exact Hgs|]. vm_compute in Hcs. injection Hcs as <-. by vm_compute.
Defined.

(** * pkg/collection/discovery.go: what discovery returns
    Discovery and recommendation return different live points that pass the
    filter, at most as many as asked for, ranked by their score against the target
    and the examples. *)
From stdpp Require Import sorting.

From stdpp Require Import list.

#[local] Open Scope Z_scope.

Section discovery.
Context {Q D : Type} {sorter : Sorter} {order : MapOrder string} {cm : CaseMap}.
Implicit Types (i : Idx) (c : @Coll Q D).

(** The live node of a candidate *)
Definition live_node i (cand : Candidate) (n : Node (option payload)) : Prop :=
  h_nodes (ix_hnsw i) !! cID cand = Some n ∧ n_deleted n = false.
Definition vec_of i (cand : Candidate) : Vector :=
  match h_nodes (ix_hnsw i) !! cID cand with Some n => n_Vector n | None => [] end.

Lemma ix_Get_live i cand n :
  wf (ix_hnsw i) → live_node i cand n →
  ix_Get i (GetPointID (ix_hnsw i) (cID cand)) = Ok (Hnsw.mkPoint (n_ID n) (n_Vector n) (n_payload n)).
Proof. intros Hwf [Hn Hd]. by rewrite (ix_Get_node i _ n), Hd. Qed.

Lemma score_candidates_live i score cs :
  wf (ix_hnsw i) → Forall (λ cand, ∃ n, live_node i cand n) cs →
  score_candidates i score cs = Ok ((λ cand, (cand, score (vec_of i cand))) <$> cs).
Proof.
  intros Hwf Hcs. unfold score_candidates.
  enough (∀ k acc, loop (λ _ cand out,
      match ix_Get i (GetPointID (ix_hnsw i) (cID cand)) with
      | Panic => Panic | Err _ => Ok out | Ok p => Ok (out ++ [(cand, score (p_Vector p))])
      end) k cs acc = Ok (E:=discError) (acc ++ ((λ cand, (cand, score (vec_of i cand))) <$> cs))) as H by apply H.
  induction Hcs as [|cand cs [n Hn] Hcs IH]; intros k acc; cbn [loop]; [cbn; by rewrite app_nil_r|].
  rewrite (ix_Get_live i cand n Hwf Hn), Ok_bind, IH. rewrite <- app_assoc. cbn.
  unfold vec_of at 2. by rewrite (proj1 Hn).
Qed.

(** The result of a scored candidate *)
Definition point_of i (params : DiscoveryParams) (sc : Candidate * f64) : ScoredPointV2 :=
  match h_nodes (ix_hnsw i) !! cID sc.1 with
  | None => mkScoredPointV2 "" f32_zero [] None ""
  | Some n => mkScoredPointV2 (n_ID n) (f32_of_f64 sc.2)
      (if d_WithVector params then n_Vector n else [])
      (if d_WithPayload params then n_payload n else None) (d_VectorName params)
  end.

Lemma discovery_points_live i params scs :
  wf (ix_hnsw i) → Forall (λ sc, ∃ n, live_node i sc.1 n) scs →
  discovery_points i params scs = Ok (point_of i params <$> scs).
Proof.
  intros Hwf Hcs. unfold discovery_points.
  match goal with |- loop ?body _ _ _ = _ =>
    enough (∀ k acc, loop body k scs acc = Ok (acc ++ (point_of i params <$> scs))) as H by apply H end.
  induction Hcs as [|[cand s] scs [n Hn] Hcs IH]; intros k acc; cbn [loop]; [cbn; by rewrite app_nil_r|].
  rewrite (ix_Get_live i cand n Hwf Hn), Ok_bind, IH, <- app_assoc. cbn [fst].
  cbn [fmap list_fmap app]. unfold point_of at 2. cbn [fst snd].
  pose proof (proj1 Hn) as Hl. cbn [fst] in Hl. by rewrite Hl.
Qed.

Lemma higher_asym a b : higher a b = true → higher b a = false.
Proof. apply flt_asym. Qed.
Lemma higher_trans a b e :
  b.2 ≠ S754_nan → higher b a = false → higher e b = false → higher e a = false.
Proof. unfold higher, fgt. intros Hb H1 H2. by eapply flt_ge_trans. Qed.

(** The score of a stored vector *)
Definition score_in i (vc : VectorConfig Q) (target : Vector) (positive negative : list Vector) (v : Vector) : f64 :=
  computeDiscoveryScore (calc_Distance (ix_calc i)) (prepared vc v) target positive negative.

(** What a discovery returns of an index *)
Record discovered i vc (params : DiscoveryParams) (target : Vector) (positive negative : list Vector)
    (pts : list ScoredPointV2) (scores : list f64) : Prop := {
  disc_len : len pts ≤ d_K params;
  disc_ids : NoDup (s2_ID <$> pts);
  disc_points : Forall2 (λ sp s, ∃ n, n ∈ h_nodes (ix_hnsw i) ∧ n_deleted n = false ∧ s2_ID sp = n_ID n ∧
    accepts (d_Filter params) (n_payload n) = true ∧
    s = score_in i vc target positive negative (n_Vector n) ∧ s2_Score sp = f32_of_f64 s) pts scores;
  disc_sorted : (∀ n, n ∈ h_nodes (ix_hnsw i) →
      score_in i vc target positive negative (n_Vector n) ≠ S754_nan) →
    StronglySorted (λ a b, flt a b = false) scores
}.

Lemma cut_to_Ok {A} k (l : list A) : 0 ≤ k → cut_to k l = Ok (take (Z.to_nat k) l).
Proof.
  intros Hk. unfold cut_to. rewrite Z.gtb_ltb. destruct (Z.ltb_spec k (len l)).
  - unfold slice. rewrite !(proj2 (Z.leb_le _ _)) by lia. cbn. by rewrite Z.sub_0_r.
  - rewrite take_ge; [done|unfold len in *; lia].
Qed.

Lemma passes_accepts (filter : option PayloadFilter.Filter) n :
  passes (match filter with Some _ => Some (λ _ pl, accepts filter pl) | None => None end) n = true →
  accepts filter (n_payload n) = true.
Proof. by destruct filter. Qed.

Lemma discover_params_sound i params target positive negative :
  wf (ix_hnsw i) → d_K params * 3 ≤ 2 ^ 60 → d_Ef params ≤ 2 ^ 60 → - 2 ^ 60 ≤ d_K params →
  ∃ cs, @DiscoverWithFilter _ (calc_Distance (ix_calc i)) (ix_hnsw i)
          (discover_params params target positive negative) = Ok cs ∧ NoDup (cID <$> cs) ∧
    Forall (λ cand, ∃ n, live_node i cand n ∧ accepts (d_Filter params) (n_payload n) = true) cs.
Proof.
  intros Hwf Hk Hef Hk0.
  destruct (@discover_sound _ (calc_Distance (ix_calc i)) (ix_hnsw i)
    (discover_params params target positive negative)) as (cs & Hcs & _ & Hnd & HF & _).
  - done.
  - unfold discover_params. cbn [dp_K]. destruct (Z.ltb_spec (i64 (d_K params * 3)) 100); lia.
  - unfold discover_params. cbn [dp_K dp_Ef]. unfold i64. rewrite swrap_id by lia.
    destruct (Z.eqb_spec (d_Ef params) 0), (Z.ltb_spec (d_K params * 3) 100);
      repeat match goal with |- context [if ?a <? ?b then _ else _] => destruct (Z.ltb_spec a b) end; lia.
  - exists cs. split; [exact Hcs|]. split; [done|]. eapply Forall_impl; [exact HF|].
    intros cand (n & Hn & Hd & Hp & _). exists n. split; [done|]. by apply passes_accepts.
Qed.

Section query.
Context (params : DiscoveryParams) (c : @Coll Q D) (i : Idx) (vc : VectorConfig Q) (name : string).
Context (positive negative : list Vector) (target : Vector).
Context (Hindex : target_index c (d_VectorName params) = Ok (Some i, Some vc, name)).
Context (Hwf : wf (ix_hnsw i)).
Context (Hpos : resolve_all (Some i) vc (cx_Positive (default (mkContext [] []) (d_Context params))) = Ok positive).
Context (Hneg : resolve_all (Some i) vc (cx_Negative (default (mkContext [] []) (d_Context params))) = Ok negative).
Context (Htarget : discovery_target vc (d_Target params) positive = Ok target).
Context (Hdim : len target = vc_Dimension vc).
Context (Hk : - 2 ^ 60 ≤ d_K params) (Hk3 : d_K params * 3 ≤ 2 ^ 60) (Hef : d_Ef params ≤ 2 ^ 60).
#[local] Abbreviation score := (score_in i vc target positive negative).

(** The scored candidates of the search *)
Lemma Discover_scored :
  ∃ scs : list (Candidate * f64), NoDup (cID ∘ fst <$> scs) ∧
    Forall (λ sc, ∃ n, live_node i sc.1 n ∧ accepts (d_Filter params) (n_payload n) = true ∧
      sc.2 = score (n_Vector n)) scs ∧
    ((∀ n, n ∈ h_nodes (ix_hnsw i) → score (n_Vector n) ≠ S754_nan) →
      StronglySorted (λ a b, higher b a = false) scs) ∧
    Discover params c = (scored ← cut_to (d_K params) scs; discovery_points i params scored).
Proof.
  destruct (discover_params_sound i params target positive negative Hwf Hk3 Hef Hk) as (cs & Hcs & Hnd & HF).
  set (scored := (λ cand, (cand, score (vec_of i cand))) <$> cs).
  assert (Forall (λ sc, ∃ n, live_node i sc.1 n ∧ accepts (d_Filter params) (n_payload n) = true ∧
      sc.2 = score (n_Vector n)) scored) as HFs.
  { unfold scored. apply Forall_fmap. eapply Forall_impl; [exact HF|]. intros cand (n & Hn & Ha). exists n.
    split_and!; [done..|]. cbn. unfold vec_of. by rewrite (proj1 Hn). }
  exists (sort_Slice higher scored). split_and!.
  - rewrite sort_Slice_perm. unfold scored. rewrite <- list_fmap_compose. exact Hnd.
  - by rewrite sort_Slice_perm.
  - intros Hnan. apply (sort_Slice_sorted higher (λ sc, sc.2 ≠ S754_nan)); [apply higher_asym|apply higher_trans|].
    eapply Forall_impl; [exact HFs|]. intros sc (n & [Hn _] & _ & ->). apply Hnan. by eapply list_elem_of_lookup_2.
  - unfold Discover. rewrite Hindex. cbn [coll_err]. rewrite Ok_bind, Hpos, Ok_bind, Hneg, Ok_bind, Htarget, Ok_bind.
    rewrite Hdim, Z.eqb_refl. cbn [negb the_idx]. rewrite Ok_bind, Hcs. cbn [hnsw_err coll_err]. rewrite Ok_bind.
    rewrite score_candidates_live, Ok_bind; [done|done|].
    eapply Forall_impl; [exact HF|]. intros cand (n & Hn & _). by eexists.
Qed.

(** C37. Discovery answers on every well-formed index: at most [K] different live
    points that pass the filter, each with the score of its vector against the
    target and the examples, in order of falling scores when none is NaN. A
    negative [K] panics. *)
Theorem discover_ranked :
  (0 ≤ d_K params → ∃ pts scores, Discover params c = Ok pts ∧
    discovered i vc params target positive negative pts scores) ∧
  (d_K params < 0 → Discover params c = Panic).
Proof.
  destruct Discover_scored as (scs & Hnd & HF & Hs & ->). split; intros HK.
  2:{ unfold cut_to. pose proof (len_nonneg scs). rewrite Z.gtb_ltb, (proj2 (Z.ltb_lt _ _)) by lia.
      by rewrite slice_backwards. }
  set (kept := take (Z.to_nat (d_K params)) scs).
  assert (Forall (λ sc, ∃ n, live_node i sc.1 n ∧ accepts (d_Filter params) (n_payload n) = true ∧
      sc.2 = score (n_Vector n)) kept) as HFk by by apply Forall_take.
  rewrite cut_to_Ok, Ok_bind, discovery_points_live by (done || (eapply Forall_impl; [exact HFk|]; intros sc (n & Hn & _); by eexists)).
  exists (point_of i params <$> kept), kept.*2. split; [done|]. split.
  - unfold len. rewrite length_fmap. unfold kept. rewrite length_take. lia.
  - assert (s2_ID <$> (point_of i params <$> kept) = GetPointID (ix_hnsw i) ∘ (cID ∘ fst) <$> kept) as ->.
    { rewrite <- list_fmap_compose. apply list_fmap_ext. intros j sc Hsc. rewrite Forall_forall in HFk.
      destruct (HFk sc) as (n & [Hn _] & _); [by eapply list_elem_of_lookup_2|].
      unfold compose, point_of, GetPointID. by rewrite Hn. }
    rewrite list_fmap_compose. apply NoDup_fmap_2_strong.
    + intros x y (sx & -> & Hx)%list_elem_of_fmap (sy & -> & Hy)%list_elem_of_fmap. rewrite Forall_forall in HFk.
      destruct (HFk sx Hx) as (n & [Hn _] & _), (HFk sy Hy) as (m & [Hm _] & _).
      unfold GetPointID, compose in *. rewrite Hn, Hm. intros Hid.
      assert (h_idToIndex (ix_hnsw i) !! n_ID n = Some (cID sx.1)) as E1 by (apply (wf_ids _ Hwf); eauto).
      assert (h_idToIndex (ix_hnsw i) !! n_ID n = Some (cID sy.1)) as E2 by (apply (wf_ids _ Hwf); eauto).
      congruence.
    + unfold kept. rewrite fmap_take. eapply sublist_NoDup; [|apply sublist_take]. exact Hnd.
  - apply Forall2_fmap_l, Forall2_fmap_r, Forall_Forall2_diag. eapply Forall_impl; [exact HFk|].
    intros sc (n & [Hn Hd] & Ha & Hsc). exists n. unfold point_of. rewrite Hn.
    split_and!; [by eapply list_elem_of_lookup_2|done..].
  - intros Hnan. specialize (Hs Hnan). unfold kept.
    assert (StronglySorted (λ a b, higher b a = false) kept) as Hk'.
    { unfold kept. rewrite <- (take_drop (Z.to_nat (d_K params)) scs) in Hs. by apply StronglySorted_app_1_l in Hs. }
    clear -Hk'. fold kept. induction Hk' as [|sc l Hl IH Hall]; cbn; constructor; [done|].
    apply Forall_fmap. eapply Forall_impl; [exact Hall|]. done.
Qed.
End query.
End discovery.

(** ** One query

    Points like "a" and unlike "d", with the vector of "a" as the target *)

Definition demo_query : DiscoveryParams :=
  mkDiscovery [] (Some (mkContext [mkExample "a" []] [mkExample "d" []])) 2 0 None "" false false.
Definition demo_vc : VectorConfig unit :=
  mkVectorConfig 1 Config.MetricEuclidean (mkHNSWConfig 2 4 4 10) false None.

Lemma discover_ranked_witness :
  ∃ pts scores, Discover demo_query demo_coll = Ok pts ∧
    discovered (mkIdx Euclidean demo_index) demo_vc demo_query [f32_of_Z 1] [[f32_of_Z 1]] [[f32_of_Z 4]] pts scores ∧
    map s2_ID pts = ["a"; "b"]%string.
Proof.
  destruct (discover_ranked demo_query demo_coll (mkIdx Euclidean demo_index) demo_vc ""
    [[f32_of_Z 1]] [[f32_of_Z 4]] [f32_of_Z 1]) as [Hd _];
    [reflexivity|exact demo_index_wf|by vm_compute..|].
  destruct Hd as (pts & scores & Hpts & Hdisc); [done|]. exists pts, scores. split; [exact Hpts|].
  split; [exact Hdisc|]. vm_compute in Hpts. injection Hpts as <-. by vm_compute.
Defined.
