(* ===== verification/Facets.v ===== *)
(** * pkg/collection/facets.go: counting the values of a field

    Facets count the values that the live points of a collection have in one
    field, lists element by element; range facets count numbers by interval.
    Durations are left out, and so are the defaults that a call writes back into
    its parameters. *)
From stdpp Require Import base gmap strings list fin_maps numbers.
From Stdlib Require Import Strings.Ascii ZArith Lia Floats.SpecFloat.
From S2P Require Import Prelude GoLoops Float32 Heap WalCodec Hnsw Distance HnswQuery Cache PayloadFilter AnyMap.
From S2P Require Import PayloadIndex Binary Point PointV2 Sparse Config SearchCache Collection.

#[local] Open Scope Z_scope.

(** ** Numbers as text *)
Definition f64_sub : f64 → f64 → f64 := SFsub 53 1024.
Definition f64_add : f64 → f64 → f64 := SFadd 53 1024.
Definition f64_mul : f64 → f64 → f64 := SFmul 53 1024.

(** The digits of [i], last first, in front of [buf]: at most nineteen *)
Fixpoint put_digits (fuel : nat) (i : Z) (buf : string) : string :=
  match fuel with
  | O => buf
  | S fuel =>
      if i >? 0 then put_digits fuel (Z.quot i 10) (String (ascii_of_nat (Z.to_nat (48 + Z.rem i 10))) buf)
      else buf
  end.
Definition stringFromInt64 (i : Z) : string :=
  if i =? 0 then "0" else
  let neg := i <? 0 in
  let i := if neg then i64 (- i) else i in
  let buf := put_digits 20 i "" in
  if neg then String "-" buf else buf.
Definition stringFromInt (i : Z) : string := stringFromInt64 i.

Definition stringFromFloat (f : f64) : string :=
  if SFeqb f (f64_of_Z 0) then "0"
  else if SFeqb f (f64_of_Z (int_of_f64 f)) then stringFromInt64 (int_of_f64 f) else
  let intPart := int_of_f64 f in
  let fracPart := int_of_f64 (f64_mul (f64_sub f (f64_of_Z intPart)) (f64_of_Z 100)) in
  let fracPart := if fracPart <? 0 then i64 (- fracPart) else fracPart in
  if fracPart =? 0 then stringFromInt64 intPart
  else stringFromInt64 intPart +:+ "." +:+ stringFromInt64 fracPart.

Definition toString (v : value) : string :=
  match v with
  | VString s => s
  | VFloat64 x => stringFromFloat x
  | VInt z => stringFromInt z
  | VInt64 z => stringFromInt64 z
  | VBool b => if b then "true" else "false"
  | _ => ""
  end.

(** Go's [<] on strings *)
Fixpoint string_ltb (s t : string) : bool :=
  match s, t with
  | EmptyString, String _ _ => true
  | String a s, String b t =>
      let x := nat_of_ascii a in let y := nat_of_ascii b in
      (x <? y)%nat || ((x =? y)%nat && string_ltb s t)
  | _, EmptyString => false
  end.

(** ** Facets *)
Record FacetParams := mkFacetParams {
  fp_Field : string;
  fp_Limit : Z;
  fp_Filter : option Filter;
  fp_MinCount : Z;
  fp_OrderBy : string;
  fp_Descending : bool
}.

(** [valueCounts[v]++] *)
Definition count_value (v : value) (counts : any_map Z) : result collError (any_map Z) :=
  if negb (hashable v) then Panic else Ok (any_set v (default 0 (any_find v counts) + 1) counts).

Definition count_values (vs : list value) (counts : any_map Z) : result collError (any_map Z) :=
  loop (λ _ v counts, count_value v counts) 0 vs counts.

(** Whether [values[i]] goes before [values[j]] *)
Definition facet_less (params : FacetParams) (a b : value * Z) : bool :=
  if String.eqb (fp_OrderBy params) "value" then
    if fp_Descending params then string_ltb (toString b.1) (toString a.1)
    else string_ltb (toString a.1) (toString b.1)
  else if fp_Descending params || String.eqb (fp_OrderBy params) "" then b.2 <? a.2
  else a.2 <? b.2.

Section facets.
Context {Q D : Type} {sorter : Sorter} {order : MapOrder string} {cm : CaseMap} {anys : AnyOrder}.
#[local] Abbreviation Coll := (@Coll Q D).
#[local] Abbreviation R := (result collError).
#[local] Abbreviation Point := (Hnsw.Point (option payload)).

(** The points of the first index a range over the named indexes meets, or of the
    default index *)
Definition all_points (c : Coll) : R (list Point) :=
  if HasNamedVectors (c_config c) then
    Ok match first_index c with Some i => GetAllPoints (ix_hnsw i) | None => [] end
  else match c_index c with Some i => Ok (GetAllPoints (ix_hnsw i)) | None => Panic end.

(** The filter passes every point when it is nil. *)
Definition passes_filter (filter : option Filter) (p : Point) : R bool :=
  match filter with
  | None => Ok true
  | Some _ => match Evaluate filter (default [] (p_Payload p)) with Ok b => Ok b | _ => Panic end
  end.

(** One point of a facet *)
Definition count_point (filter : option Filter) (field : string) (p : Point) (counts : any_map Z) :
    R (any_map Z) :=
  b ← passes_filter filter p;
  if negb b then Ok counts else
  match p_Payload p with
  | None => Ok counts
  | Some pl =>
      match map_entry pl field with
      | None => Ok counts
      | Some (VList arr) => count_values arr counts
      | Some v => count_value v counts
      end
  end.

Definition Facet (params : FacetParams) (c : Coll) : R (list (value * Z)) :=
  let limit := if fp_Limit params <=? 0 then 10 else fp_Limit params in
  ps ← all_points c;
  valueCounts ← loop (λ _ p counts, count_point (fp_Filter params) (fp_Field params) p counts) 0 ps [];
  let values := filter (λ vc, negb ((0 <? fp_MinCount params) && (vc.2 <? fp_MinCount params)) = true)
                  (any_range valueCounts) in
  let values := sort_Slice (facet_less params) values in
  if len values >? limit then slice values 0 limit else Ok values.

(** [MultiFacet]: a facet without a filter takes the global one; two facets of one
    field leave the result of the later. *)
Definition with_filter (global : option Filter) (fp : FacetParams) : FacetParams :=
  match fp_Filter fp with
  | None => mkFacetParams (fp_Field fp) (fp_Limit fp) global (fp_MinCount fp) (fp_OrderBy fp) (fp_Descending fp)
  | Some _ => fp
  end.
Definition MultiFacet (facets : list FacetParams) (global : option Filter) (c : Coll) :
    R (gmap string (list (value * Z))) :=
  loop (λ _ fp results,
      r ← Facet (with_filter global fp) c; Ok (<[fp_Field fp := r]> results)) 0 facets ∅.

(** ** Range facets *)
Record Range := mkRange { rg_From : option f64; rg_To : option f64; rg_Key : string }.
Record RangeFacetParams := mkRangeFacetParams {
  rp_Field : string;
  rp_Ranges : list Range;
  rp_Interval : f64;
  rp_Filter : option Filter
}.
Record RangeFacetValue := mkRangeFacetValue { rv_Key : string; rv_From : f64; rv_To : f64; rv_Count : Z }.

(** The number a point has in the field, unless it is passed over *)
Definition number_of (filter : option Filter) (field : string) (p : Point) : R (option f64) :=
  b ← passes_filter filter p;
  if negb b then Ok None else
  match p_Payload p with
  | None => Ok None
  | Some pl => Ok (toFloat64 (map_get pl field))
  end.

(** The smallest and the largest value; [first] is set to true and never to false. *)
Definition min_max (filter : option Filter) (field : string) (ps : list Point) : R (f64 * f64 * bool) :=
  loop (λ _ p '(minVal, maxVal, first),
      o ← number_of filter field p;
      match o with
      | None => Ok (minVal, maxVal, first)
      | Some val =>
          let '(minVal, maxVal, first) :=
            if (first : bool) then (val, val, true) else (minVal, maxVal, first) in
          Ok (if flt val minVal then val else minVal, if fgt val maxVal then val else maxVal, first)
      end) 0 ps (f64_of_Z 0, f64_of_Z 0, true).

(** [for v := minVal; v < maxVal; v += interval], [None] when the rounds run out *)
Fixpoint generate (fuel : nat) (v maxVal interval : f64) (ranges : list Range) : option (list Range) :=
  match fuel with
  | O => None
  | S fuel =>
      if flt v maxVal then
        generate fuel (f64_add v interval) maxVal interval
          (ranges ++ [mkRange (Some v) (Some (f64_add v interval)) ""])
      else Some ranges
  end.

Definition in_range (val : f64) (r : Range) : bool :=
  negb (match rg_From r with Some from => flt val from | None => false end) &&
  negb (match rg_To r with Some to => SFleb to val | None => false end).

(** [rangeCounts[i]++] for each range of the value *)
Definition count_ranges (val : f64) (ranges : list Range) (counts : list Z) : list Z :=
  (λ '(r, n), if in_range val r then n + 1 else n) <$> zip ranges counts.

Definition range_key (r : Range) : string :=
  if negb (String.eqb (rg_Key r) "") then rg_Key r else
  match rg_From r, rg_To r with
  | Some from, Some to => stringFromFloat from +:+ "-" +:+ stringFromFloat to
  | Some from, None => ">=" +:+ stringFromFloat from
  | None, Some to => "<" +:+ stringFromFloat to
  | None, None => ""
  end.

(** [rounds] bounds the loop that generates the ranges. *)
Definition RangeFacet (rounds : nat) (params : RangeFacetParams) (c : Coll) : R (list RangeFacetValue) :=
  ps ← all_points c;
  ranges ← (if fgt (rp_Interval params) (f64_of_Z 0) && (len (rp_Ranges params) =? 0) then
      '(minVal, maxVal, _) ← min_max (rp_Filter params) (rp_Field params) ps;
      match generate rounds minVal maxVal (rp_Interval params) (rp_Ranges params) with
      | Some ranges => Ok ranges
      | None => Panic
      end
    else Ok (rp_Ranges params));
  rangeCounts ← loop (λ _ p counts,
      o ← number_of (rp_Filter params) (rp_Field params) p;
      match o with None => Ok counts | Some val => Ok (count_ranges val ranges counts) end)
    0 ps (replicate (length ranges) 0);
  Ok ((λ '(r, n), mkRangeFacetValue (range_key r) (default (f64_of_Z 0) (rg_From r))
                    (default (f64_of_Z 0) (rg_To r)) n) <$> zip ranges rangeCounts).
End facets.

(** * pkg/collection/facets.go: what facets count
    A facet lists every value with the number of its occurrences, in order and up
    to the limit. The automatic ranges of a range facet are always empty, and a
    value that is a map panics. *)
From stdpp Require Import sorting.
From S2P Require Import HnswSpec AnyMap.

From stdpp Require Import list.

#[local] Open Scope Z_scope.

(** ** Counting *)
Definition occurrences (v : value) (vs : list value) : Z := len (filter (λ w, same_key v w) vs).
(** The table of the counts of [ks] *)
Definition table (f : value → Z) (ks : list value) : any_map Z := (λ k, (k, f k)) <$> ks.
Definition counts_of (vs : list value) : any_map Z := table (λ k, occurrences k vs) (first_values vs).

Lemma occurrences_snoc v vs w :
  occurrences v (vs ++ [w]) = occurrences v vs + (if same_key v w then 1 else 0).
Proof.
  unfold occurrences. rewrite filter_app, len_app, filter_cons, filter_nil.
  destruct (same_key v w); repeat case_decide; done.
Qed.

Lemma occurrences_none v vs : (∀ w, w ∈ vs → same_key v w = false) → occurrences v vs = 0.
Proof.
  intros H. unfold occurrences. destruct (filter _ vs) as [|w ws] eqn:E1; [done|].
  assert (w ∈ filter (λ w, same_key v w) vs) as [Hw Hin]%list_elem_of_filter by (rewrite E1; left).
  by rewrite (H w Hin) in Hw.
Qed.

(** No two of the keys are the same. *)
Inductive distinct : list value → Prop :=
| distinct_nil : distinct []
| distinct_cons k ks : known ks k = false → (∀ k', k' ∈ ks → same_key k k' = false) → distinct ks → distinct (k :: ks).

Lemma known_cons k ks v : known (k :: ks) v = same_key k v || known ks v.
Proof. done. Qed.

Lemma distinct_snoc ks v :
  distinct ks → known ks v = false → distinct (ks ++ [v]).
Proof.
  induction 1 as [|k ks Hk Hk' Hd IH]; cbn [app].
  - intros _. constructor; [done| |constructor]. intros k' Hk'. by apply not_elem_of_nil in Hk'.
  - rewrite known_cons. intros [Hkv Hv]%orb_false_iff. constructor; [| |by apply IH].
    + rewrite known_app, Hk, known_cons, orb_false_r. apply not_true_is_false. intros E1.
      by rewrite (same_key_comm _ _ E1) in Hkv.
    + intros k' [Hin|Hin]%elem_of_app; [by apply Hk'|]. by apply list_elem_of_singleton in Hin as ->.
Qed.

Lemma first_values_distinct vs : distinct (first_values vs).
Proof.
  induction vs as [|v vs IH] using rev_ind; [constructor|]. rewrite first_values_snoc.
  destruct (known _ v) eqn:E1; [by rewrite app_nil_r|by apply distinct_snoc].
Qed.

Lemma first_values_in vs v : v ∈ first_values vs → v ∈ vs.
Proof.
  induction vs as [|w vs IH] using rev_ind; [done|]. rewrite first_values_snoc, !elem_of_app.
  intros [Hv|Hv]; [left; auto|]. destruct (known _ w); [by apply not_elem_of_nil in Hv|by right].
Qed.

Lemma any_find_table f ks v :
  known ks v = true → ∃ k, k ∈ ks ∧ same_key k v = true ∧ any_find v (table f ks) = Some (f k).
Proof.
  induction ks as [|k ks IH]; [done|]. rewrite known_cons. cbn. destruct (same_key k v) eqn:E1.
  - intros _. exists k. split; [by left|done].
  - intros (k' & Hin & Hk' & Hf)%IH. exists k'. split; [by right|done].
Qed.
Lemma any_find_unknown f ks v : known ks v = false → any_find v (table f ks) = None.
Proof. induction ks as [|k ks IH]; [done|]. rewrite known_cons. cbn. by intros [-> Hk]%orb_false_iff; apply IH. Qed.
Lemma any_set_unknown f ks v x : known ks v = false → any_set v x (table f ks) = table f ks ++ [(v, x)].
Proof.
  unfold table. induction ks as [|k ks IH]; [done|]. rewrite known_cons. cbn. intros [-> Hk]%orb_false_iff.
  f_equal. by apply IH.
Qed.
Lemma any_set_table f ks v x :
  distinct ks → known ks v = true → any_set v x (table f ks) = table (λ k, if same_key k v then x else f k) ks.
Proof.
  induction 1 as [|k ks Hk Hk' Hd IH]; [done|]. rewrite known_cons. cbn. destruct (same_key k v) eqn:E1; cbn.
  - intros _. f_equal. apply list_fmap_ext. intros i k' Hin%list_elem_of_lookup_2. f_equal.
    destruct (same_key k' v) eqn:E2; [|done].
    assert (same_key k k' = true) by (eapply same_key_trans; [exact E1|by apply same_key_comm]).
    by rewrite (Hk' k' Hin) in *.
  - intros Hv. f_equal. by apply IH.
Qed.

Lemma occurrences_same k v vs : same_key k v = true → occurrences k vs = occurrences v vs.
Proof.
  intros H. unfold occurrences. f_equal. apply list_filter_iff. intros w.
  assert (same_key k w = same_key v w) as ->; [|done].
  destruct (same_key v w) eqn:E1; [by eapply same_key_trans|]. apply not_true_is_false. intros E2.
  apply same_key_comm in H. by rewrite (same_key_trans _ _ _ H E2) in E1.
Qed.

(** One more value *)
Lemma count_value_counts vs v :
  Forall key_ok vs → key_ok v → count_value v (counts_of vs) = Ok (counts_of (vs ++ [v])).
Proof.
  intros Hvs Hv. unfold count_value. rewrite (same_key_hashable v v Hv). cbn [negb]. f_equal.
  unfold counts_of at 3. rewrite first_values_snoc. destruct (known (first_values vs) v) eqn:E1.
  - unfold counts_of. destruct (any_find_table (λ k, occurrences k vs) _ _ E1) as (k & Hin & Hk & ->).
    rewrite any_set_table by (done || apply first_values_distinct). rewrite app_nil_r.
    apply list_fmap_ext. intros i k' Hk'. f_equal. rewrite occurrences_snoc.
    destruct (same_key k' v) eqn:E2; [|lia]. cbn. f_equal.
    rewrite (occurrences_same k v), (occurrences_same k' v) by done. done.
  - unfold counts_of. rewrite any_find_unknown, any_set_unknown by done. unfold table. rewrite fmap_app. f_equal.
    + apply list_fmap_ext. intros i k Hk%list_elem_of_lookup_2. f_equal. rewrite occurrences_snoc.
      assert (same_key k v = false) as ->; [|lia]. apply not_true_is_false. intros E2.
      assert (known (first_values vs) v = true) by (apply known_true; eauto). congruence.
    + cbn. f_equal. f_equal. rewrite occurrences_snoc. unfold key_ok in Hv. rewrite Hv, occurrences_none; [done|].
      intros w Hw. apply not_true_is_false. intros E2. rewrite Forall_forall in Hvs.
      assert (known (first_values vs) w = true) as (k & Hk1 & Hk2)%known_true by (apply first_values_known; auto).
      assert (known (first_values vs) v = true); [|congruence]. apply known_true. exists k. split; [done|].
      eapply same_key_trans; [done|by apply same_key_comm].
Qed.

Lemma count_values_counts ws vs :
  Forall key_ok (vs ++ ws) → count_values ws (counts_of vs) = Ok (counts_of (vs ++ ws)).
Proof.
  unfold count_values. generalize 0%nat. revert vs. induction ws as [|w ws IH]; intros vs n Hok; cbn [loop].
  - by rewrite app_nil_r.
  - apply Forall_app in Hok as Hok'. destruct Hok' as [Hvs Hws]. apply Forall_cons in Hws as [Hw Hws].
    rewrite count_value_counts, Ok_bind by done. rewrite (IH (vs ++ [w])); rewrite <- app_assoc; done.
Qed.

(** ** The order of the values *)
Lemma string_ltb_irrefl s : string_ltb s s = false.
Proof. induction s as [|a s IH]; [done|]. cbn [string_ltb]; cbv zeta. rewrite Nat.ltb_irrefl, Nat.eqb_refl. done. Qed.
Lemma string_ltb_trans s t u : string_ltb s t = true → string_ltb t u = true → string_ltb s u = true.
Proof.
  revert t u. induction s as [|a s IH]; intros [|b t] [|c u]; cbn [string_ltb]; cbv zeta; try done.
  rewrite !orb_true_iff, !andb_true_iff, !Nat.ltb_lt, !Nat.eqb_eq.
  intros [?|[? Hst]] [?|[? Htu]]; [left; lia..|]. right. split; [lia|by eapply IH].
Qed.
Lemma string_ltb_asym s t : string_ltb s t = true → string_ltb t s = false.
Proof.
  intros H. destruct (string_ltb t s) eqn:E1; [|done].
  by rewrite <- (string_ltb_irrefl s), (string_ltb_trans _ _ _ H E1).
Qed.
Lemma string_ltb_total s t : string_ltb s t = false → string_ltb t s = false → s = t.
Proof.
  revert t. induction s as [|a s IH]; intros [|b t]; cbn [string_ltb]; cbv zeta; try done.
  rewrite !orb_false_iff, !andb_false_iff, !Nat.ltb_ge, !Nat.eqb_neq. intros [H1 H2] [H3 H4].
  assert (nat_of_ascii a = nat_of_ascii b) as Hab by lia.
  assert (a = b) as -> by (rewrite <- (ascii_nat_embedding a), Hab; apply ascii_nat_embedding).
  f_equal. apply IH; [destruct H2|destruct H4]; done || lia.
Qed.
Lemma string_ltb_neg_trans s t u : string_ltb t s = false → string_ltb u t = false → string_ltb u s = false.
Proof.
  intros H1 H2. destruct (string_ltb u s) eqn:E1; [|done].
  destruct (string_ltb s t) eqn:E2; [by rewrite (string_ltb_trans _ _ _ E1 E2) in H2|].
  rewrite (string_ltb_total s t) in E1 by done. congruence.
Qed.

(** [string_ltb] against the Standard Library's order of strings *)
Lemma ascii_compare_spec a b :
  Ascii.compare a b = Nat.compare (nat_of_ascii a) (nat_of_ascii b).
Proof. unfold Ascii.compare, nat_of_ascii. by rewrite N2Nat.inj_compare. Qed.
Lemma string_leb_ltb s t : String.leb s t = negb (string_ltb t s).
Proof.
  unfold String.leb. revert t. induction s as [|a s IH]; intros [|b t]; try done.
  cbn [String.compare string_ltb]; cbv zeta. rewrite ascii_compare_spec, (Nat.compare_antisym (nat_of_ascii b)).
  destruct (Nat.compare_spec (nat_of_ascii b) (nat_of_ascii a)) as [Hab|Hab|Hab]; cbn [CompOpp].
  - rewrite Hab, Nat.ltb_irrefl, Nat.eqb_refl. apply IH.
  - by rewrite (proj2 (Nat.ltb_lt _ _) Hab).
  - by rewrite (proj2 (Nat.ltb_ge _ _)), (proj2 (Nat.eqb_neq _ _)) by lia.
Qed.
Lemma string_leb_of s t : string_ltb t s = false → String.leb s t = true.
Proof. intros H. by rewrite string_leb_ltb, H. Qed.

Lemma facet_less_asym params a b : facet_less params a b = true → facet_less params b a = false.
Proof.
  unfold facet_less. destruct (String.eqb _ _), (fp_Descending params); cbn; try apply string_ltb_asym;
    try (destruct (String.eqb _ _)); rewrite Z.ltb_lt, Z.ltb_ge; lia.
Qed.
Lemma facet_less_trans params (a b c : value * Z) :
  True → facet_less params b a = false → facet_less params c b = false → facet_less params c a = false.
Proof.
  intros _. unfold facet_less. destruct (String.eqb _ _), (fp_Descending params); cbn;
    try (intros H1 H2; by eapply string_ltb_neg_trans);
    try (destruct (String.eqb _ _)); rewrite !Z.ltb_ge; lia.
Qed.

(** ** Facets *)
Section facets.
Context {Q D : Type} {sorter : Sorter} {order : MapOrder string} {cm : CaseMap} {anys : AnyOrder}.
Implicit Types (c : @Coll Q D) (p : Hnsw.Point (option payload)).

(** What a point adds to a facet *)
Definition values_of_point (filter : option PayloadFilter.Filter) (field : string) p : list value :=
  match passes_filter filter p with
  | Ok true =>
      match p_Payload p with
      | None => []
      | Some pl => match map_entry pl field with None => [] | Some (VList arr) => arr | Some v => [v] end
      end
  | _ => []
  end.

Lemma count_point_counts filter field p vs b :
  passes_filter filter p = Ok b → Forall key_ok (vs ++ values_of_point filter field p) →
  count_point filter field p (counts_of vs) = Ok (counts_of (vs ++ values_of_point filter field p)).
Proof.
  unfold count_point, values_of_point. intros -> Hok. rewrite Ok_bind. destruct b; cbn [negb]; [|by rewrite app_nil_r].
  destruct (p_Payload p) as [pl|]; [|by rewrite app_nil_r].
  destruct (map_entry pl field) as [v|]; [|by rewrite app_nil_r].
  destruct v; try (apply Forall_app in Hok as [Hvs Hv]; apply Forall_inv in Hv; by apply count_value_counts).
  by apply count_values_counts.
Qed.

(** The counts that reach the minimum *)
Definition listed_counts (params : FacetParams) (vs : list value) : list (value * Z) :=
  filter (λ vc, negb ((0 <? fp_MinCount params) && (vc.2 <? fp_MinCount params)) = true) (counts_of vs).

(** How the facet is ordered: by the text of the values or by the counts, and in which
    direction. Counts ascend when the order is named and [Descending] is unset. *)
Record ordered_as (params : FacetParams) (l : list (value * Z)) : Prop := mkOrderedAs {
  by_value : fp_OrderBy params = "value" → fp_Descending params = false →
    StronglySorted (λ a b, String.leb (toString a.1) (toString b.1) = true) l;
  by_value_descending : fp_OrderBy params = "value" → fp_Descending params = true →
    StronglySorted (λ a b, String.leb (toString b.1) (toString a.1) = true) l;
  by_count_descending : fp_OrderBy params ≠ "value" → fp_Descending params = true ∨ fp_OrderBy params = "" →
    StronglySorted (λ a b, b.2 ≤ a.2) l;
  by_count : fp_OrderBy params ≠ "value" → fp_OrderBy params ≠ "" → fp_Descending params = false →
    StronglySorted (λ a b, a.2 ≤ b.2) l
}.

Lemma sorted_ordered params l :
  StronglySorted (λ a b, facet_less params b a = false) l → ordered_as params l.
Proof.
  unfold facet_less. intros H.
  split; intros Ho Hd; [..|intros Hd'];
    (eapply StronglySorted_weaken; [|exact H]); intros a b; cbn beta;
    try (rewrite Ho, Hd; cbn; apply string_leb_of);
    rewrite (proj2 (String.eqb_neq _ _) Ho).
  - assert (fp_Descending params || (fp_OrderBy params =? "")%string = true) as ->
      by (destruct Hd as [->| ->]; [done|apply orb_true_r]).
    by intros ?%Z.ltb_ge.
  - rewrite Hd', (proj2 (String.eqb_neq _ _) Hd). by intros ?%Z.ltb_ge.
Qed.

(** C39. A facet over points whose values in the field are usable as keys, with a filter
    that does not panic on them, counts every value once for each occurrence in the field
    of the points that pass the filter, lists each value that reaches the minimum count
    with its number of occurrences, ordered by the text of the values or by the counts in
    the direction [ordered_as] spells out, and cuts at the limit (10 when none is given):
    what it leaves out comes after what it returns. The points are all live points of the
    index, which with named vectors is the first index a range over them meets. *)
Theorem facet_counts params c ps :
  all_points c = Ok ps → (∀ p, p ∈ ps → ∃ b, passes_filter (fp_Filter params) p = Ok b) →
  let vs := ps ≫= values_of_point (fp_Filter params) (fp_Field params) in
  Forall key_ok vs →
  let limit := if fp_Limit params <=? 0 then 10 else fp_Limit params in
  ∃ r rest, Facet params c = Ok r ∧ r ++ rest ≡ₚ listed_counts params vs ∧
    len r = Z.min limit (len (r ++ rest)) ∧ ordered_as params (r ++ rest).
Proof.
  intros Hps Hpass vs Hok limit. unfold Facet. rewrite Hps, Ok_bind.
  destruct (loop_Ok (E:=collError) (λ k counts, counts = counts_of (take k ps ≫= values_of_point (fp_Filter params) (fp_Field params)))
    (λ _ p counts, count_point (fp_Filter params) (fp_Field params) p counts) ps 0 []) as (counts & -> & ->);
    [done| |].
  - intros k p counts Hk ->. rewrite Nat.add_0_l. eexists. split; [|reflexivity].
    rewrite (take_S_r _ _ _ Hk), bind_app. cbn. rewrite app_nil_r.
    destruct (Hpass p) as [b Hb]; [by eapply list_elem_of_lookup_2|].
    apply (count_point_counts _ _ _ _ b Hb).
    assert (vs = (take k ps ≫= values_of_point (fp_Filter params) (fp_Field params)) ++
      values_of_point (fp_Filter params) (fp_Field params) p ++
      (drop (S k) ps ≫= values_of_point (fp_Filter params) (fp_Field params))) as Hvs.
    { unfold vs. rewrite <- (take_drop_middle ps k p Hk) at 1. by rewrite bind_app. }
    rewrite Hvs, app_assoc in Hok. by apply Forall_app in Hok as [Hok _].
  - rewrite Nat.add_0_l, take_ge, Ok_bind by done. fold vs. fold limit.
    set (values := sort_Slice _ _).
    assert (values ≡ₚ listed_counts params vs) as Hperm.
    { unfold values. rewrite sort_Slice_perm. unfold listed_counts. by rewrite any_range_perm. }
    assert (1 ≤ limit) as Hlim by (unfold limit; destruct (Z.leb_spec (fp_Limit params) 0); lia).
    exists (take (Z.to_nat limit) values), (drop (Z.to_nat limit) values). rewrite take_drop. split_and!.
    + rewrite Z.gtb_ltb. destruct (Z.ltb_spec limit (len values)).
      * unfold slice. rewrite !(proj2 (Z.leb_le _ _)) by lia. cbn. by rewrite Z.sub_0_r.
      * rewrite take_ge; [done|unfold len in *; lia].
    + done.
    + unfold len. rewrite length_take. lia.
    + apply sorted_ordered, (sort_Slice_sorted _ (λ _, True)); [apply facet_less_asym|apply facet_less_trans|by apply Forall_true].
Qed.

(** A point is counted or panics. *)
Lemma count_value_or_panic v counts : (∃ m, count_value v counts = Ok m) ∨ count_value v counts = Panic.
Proof. unfold count_value. destruct (hashable v); [left; by eexists|by right]. Qed.
Lemma count_values_or_panic vs n counts :
  (∃ m, loop (λ _ v counts, count_value v counts) n vs counts = Ok m) ∨
  loop (λ _ v counts, count_value v counts) n vs counts = Panic.
Proof.
  revert n counts. induction vs as [|v vs IH]; intros n counts; cbn [loop]; [left; by eexists|].
  destruct (count_value_or_panic v counts) as [[m ->]| ->]; [apply IH|by right].
Qed.
Lemma count_point_or_panic filter field p counts :
  (∃ m, count_point filter field p counts = Ok m) ∨ count_point filter field p counts = Panic.
Proof.
  unfold count_point.
  assert ((∃ b, passes_filter filter p = Ok b) ∨ passes_filter filter p = Panic) as [[b ->]| ->]; [|rewrite Ok_bind|by right].
  { unfold passes_filter. destruct filter; [|left; by eexists]. destruct (Evaluate _ _); [left; by eexists|by right..]. }
  destruct (negb b); [left; by eexists|]. destruct (p_Payload p) as [pl|]; [|left; by eexists].
  destruct (map_entry pl field) as [[]|]; try apply count_value_or_panic; [apply count_values_or_panic|left; by eexists].
Qed.

(** A point that passes the filter with a map in the field makes every facet of
    the field panic: a map is no key. *)
Theorem facet_map_panics params c ps p pl m :
  all_points c = Ok ps → p ∈ ps → passes_filter (fp_Filter params) p = Ok true →
  p_Payload p = Some pl → map_entry pl (fp_Field params) = Some (VMap m) → Facet params c = Panic.
Proof.
  intros Hps Hp Hpass Hpl Hm. unfold Facet. rewrite Hps, Ok_bind.
  enough (∀ n counts, loop (λ _ p counts, count_point (fp_Filter params) (fp_Field params) p counts) n ps counts
    = Panic) as -> by done.
  clear Hps. induction ps as [|q ps IH]; [by apply not_elem_of_nil in Hp|]. intros n counts. cbn [loop].
  apply elem_of_cons in Hp as [->|Hp].
  { assert (count_point (fp_Filter params) (fp_Field params) q counts = Panic) as ->; [|done].
    unfold count_point. by rewrite Hpass, Ok_bind, Hpl, Hm. }
  destruct (count_point_or_panic (fp_Filter params) (fp_Field params) q counts) as [[m' ->]| ->]; [|done].
  rewrite Ok_bind. by apply IH.
Qed.
(** ** Range facets *)
Lemma number_of_Ok filter field p :
  (∃ b, passes_filter filter p = Ok b) → ∃ o, number_of filter field p = Ok o.
Proof.
  intros [b Hb]. unfold number_of. rewrite Hb, Ok_bind. destruct (negb b); [by eexists|].
  destruct (p_Payload p); by eexists.
Qed.

Lemma min_max_equal filter field ps :
  (∀ p, p ∈ ps → ∃ b, passes_filter filter p = Ok b) →
  ∃ v, min_max filter field ps = Ok (v, v, true).
Proof.
  intros Hps. unfold min_max.
  destruct (loop_Ok (E:=collError) (λ _ '(lo, hi, first), lo = hi ∧ first = true)
    (λ _ p '(minVal, maxVal, first),
      o ← number_of filter field p;
      match o with
      | None => Ok (minVal, maxVal, first)
      | Some val =>
          let '(minVal, maxVal, first) :=
            if (first : bool) then (val, val, true) else (minVal, maxVal, first) in
          Ok (if flt val minVal then val else minVal, if fgt val maxVal then val else maxVal, first)
      end) ps 0 (f64_of_Z 0, f64_of_Z 0, true)) as ([[lo hi] first] & E1 & -> & ->); [done| |by eexists].
  intros k p [[lo hi] first] Hk [-> ->].
  destruct (number_of_Ok filter field p) as [o ->]; [by eapply Hps, list_elem_of_lookup_2|]. rewrite Ok_bind.
  destruct o as [x|]; [|by eexists]. eexists. split; [reflexivity|].
  unfold fgt. change (SFltb x x) with (flt x x). by rewrite flt_irrefl.
Qed.

(** The automatic ranges of a range facet are always empty, whatever the
    points and the interval: every value replaces both the smallest and the
    largest value. *)
Theorem auto_ranges_empty rounds params c ps :
  all_points c = Ok ps → (∀ p, p ∈ ps → ∃ b, passes_filter (rp_Filter params) p = Ok b) →
  fgt (rp_Interval params) (f64_of_Z 0) = true → rp_Ranges params = [] → (0 < rounds)%nat →
  RangeFacet rounds params c = Ok [].
Proof.
  intros Hps Hpass Hi Hr Hn. unfold RangeFacet. rewrite Hps, Ok_bind, Hi, Hr. cbn [andb].
  change (len [] =? 0) with true. cbn iota.
  destruct (min_max_equal (rp_Filter params) (rp_Field params) ps Hpass) as [v ->]. rewrite Ok_bind.
  destruct rounds as [|rounds]; [lia|]. cbn [generate]. rewrite flt_irrefl, Ok_bind. cbn [length replicate].
  destruct (loop_Ok (E:=collError) (λ _ (counts : list Z), counts = [])
    (λ _ p counts, o ← number_of (rp_Filter params) (rp_Field params) p;
      match o with None => Ok counts | Some val => Ok (count_ranges val [] counts) end) ps 0 [])
    as (counts & -> & ->); [done| |done].
  intros k p counts Hk ->. destruct (number_of_Ok (rp_Filter params) (rp_Field params) p) as [o ->];
    [by eapply Hpass, list_elem_of_lookup_2|]. rewrite Ok_bind. destruct o; by eexists.
Qed.

(** The numbers of the points in the field *)
Definition numbers filter field ps : list f64 :=
  omap (λ p, match number_of filter field p with Ok o => o | _ => None end) ps.

Lemma count_ranges_all xs (ranges : list Range) :
  foldl (λ counts x, count_ranges x ranges counts) (replicate (length ranges) 0) xs
  = (λ r, len (filter (λ x, in_range x r = true) xs)) <$> ranges.
Proof.
  induction xs as [|x xs IH] using rev_ind.
  - cbn. induction ranges as [|r ranges IH]; [done|]. cbn. by rewrite IH.
  - rewrite foldl_app, IH. cbn. unfold count_ranges. clear IH. induction ranges as [|r ranges IH]; [done|].
    cbn. rewrite IH. f_equal. rewrite filter_app, len_app, filter_cons, filter_nil.
    destruct (in_range x r); case_decide; try done; rewrite ?len_cons, ?len_nil; lia.
Qed.

(** Given ranges, a range facet counts in each range, from its lower bound on
    and below its upper bound, the live points that pass the filter and have such
    a number in the field, in the order of the ranges. *)
Theorem range_facet_counts rounds params c ps :
  all_points c = Ok ps → (∀ p, p ∈ ps → ∃ b, passes_filter (rp_Filter params) p = Ok b) →
  rp_Ranges params ≠ [] →
  ∃ r, RangeFacet rounds params c = Ok r ∧
    rv_Count <$> r = (λ rg, len (filter (λ x, in_range x rg = true)
                         (numbers (rp_Filter params) (rp_Field params) ps))) <$> rp_Ranges params ∧
    rv_Key <$> r = range_key <$> rp_Ranges params.
Proof.
  intros Hps Hpass Hr. unfold RangeFacet. rewrite Hps, Ok_bind.
  assert ((len (rp_Ranges params) =? 0) = false) as ->.
  { destruct (rp_Ranges params); [done|]. apply Z.eqb_neq. rewrite len_cons. pose proof (len_nonneg l). lia. }
  rewrite andb_false_r, Ok_bind. set (ranges := rp_Ranges params).
  destruct (loop_Ok (E:=collError) (λ k counts, counts =
      foldl (λ counts x, count_ranges x ranges counts) (replicate (length ranges) 0)
        (numbers (rp_Filter params) (rp_Field params) (take k ps)))
    (λ _ p counts, o ← number_of (rp_Filter params) (rp_Field params) p;
      match o with None => Ok counts | Some val => Ok (count_ranges val ranges counts) end)
    ps 0 (replicate (length ranges) 0)) as (counts & -> & ->); [done| |].
  - intros k p counts Hk ->. rewrite Nat.add_0_l. unfold numbers. rewrite (take_S_r _ _ _ Hk), omap_app. cbn.
    destruct (number_of_Ok (rp_Filter params) (rp_Field params) p) as [o Ho]; [by eapply Hpass, list_elem_of_lookup_2|].
    rewrite Ho, Ok_bind. destruct o; (eexists; split; [reflexivity|]); [by rewrite foldl_app|by rewrite app_nil_r].
  - rewrite Nat.add_0_l, take_ge, Ok_bind, count_ranges_all by done. eexists. split; [reflexivity|].
    generalize (numbers (rp_Filter params) (rp_Field params) ps) as xs. intros xs. clear.
    induction ranges as [|r ranges [IH1 IH2]]; [done|].
    split; cbn; f_equal; [exact IH1|exact IH2].
Qed.
End facets.

(** ** Numbers as text *)
Fixpoint digits_value (acc : Z) (s : string) : Z :=
  match s with
  | EmptyString => acc
  | String a s => digits_value (acc * 10 + (Z.of_nat (nat_of_ascii a) - 48)) s
  end.

Lemma put_digits_value fuel i buf :
  0 ≤ i < 10 ^ Z.of_nat fuel → digits_value 0 (put_digits fuel i buf) = digits_value i buf.
Proof.
  revert i buf. induction fuel as [|fuel IH]; intros i buf Hi.
  { assert (i = 0) as -> by (cbn in Hi; lia). done. }
  cbn [put_digits]. rewrite Z.gtb_ltb. destruct (Z.ltb_spec 0 i); [|by assert (i = 0) as -> by lia].
  rewrite Nat2Z.inj_succ, Z.pow_succ_r in Hi by lia.
  rewrite Z.quot_div_nonneg, Z.rem_mod_nonneg by lia.
  pose proof (Z.mod_pos_bound i 10 ltac:(lia)). pose proof (Z.div_mod i 10 ltac:(lia)).
  rewrite IH by (split; [apply Z.div_pos; lia|apply Z.div_lt_upper_bound; lia]). cbn [digits_value].
  rewrite nat_ascii_embedding by lia. f_equal. lia.
Qed.

(** The text of an integer is its decimal digits behind its sign; of the least
    int64, whose negation overflows, it is the sign alone. *)
Theorem int_text i :
  (0 ≤ i ≤ MaxInt64 → digits_value 0 (stringFromInt64 i) = i) ∧
  (MinInt64 < i < 0 → ∃ s, stringFromInt64 i = String "-" s ∧ digits_value 0 s = - i) ∧
  stringFromInt64 MinInt64 = "-"%string.
Proof.
  unfold stringFromInt64. split_and!; [|intros Hi|by vm_compute].
  - intros Hi. destruct (Z.eqb_spec i 0) as [->|Hne]; [done|]. rewrite (proj2 (Z.ltb_ge _ _)) by lia.
    rewrite put_digits_value; [done|]. unfold MaxInt64 in *. cbn. lia.
  - rewrite (proj2 (Z.eqb_neq _ _)), (proj2 (Z.ltb_lt _ _)) by lia. unfold MinInt64, MaxInt64 in *.
    eexists. split; [reflexivity|]. unfold i64. rewrite swrap_id by lia. apply put_digits_value. cbn. lia.
Qed.

(** ** One collection *)
#[local] Instance demo_sorter : Sorter := insertion_sorter.
#[local] Instance demo_order : MapOrder string := listed_order string.
#[local] Instance demo_anys : AnyOrder := any_listed.
#[local] Existing Instance ascii_case.
#[local] Instance demo_calc : Calculator := calc_Distance Euclidean.

Definition demo_point (id : string) (colour : value) (size : Z) : Hnsw.Point (option payload) :=
  Hnsw.mkPoint id [f32_of_Z size] (Some [("colour"%string, colour); ("size"%string, VInt size)]).
Definition demo_empty : HNSW (option payload) :=
  match Hnsw.New (Hnsw.mkConfig 2 4 4 10 1 None) with Ok h => h | _ => mkHNSW 0 0 0 0 0 0 [] 0 0 0 ∅ 0 None end.
Definition demo_coll (points : list (Hnsw.Point (option payload))) : @Coll unit unit :=
  mkColl (mkCollectionConfig "docs" 1 Config.MetricEuclidean (mkHNSWConfig 2 4 4 10) false None ∅)
    (Some (mkIdx Euclidean (run_impl demo_empty ((λ p, OInsert p 0) <$> points)).2))
    ∅ (PayloadIndex.mkIndex tt ∅) NewInvertedIndex false (NewSearchCache 1 1) [].
Definition demo_points : list (Hnsw.Point (option payload)) :=
  [demo_point "a" (VString "red") 1; demo_point "b" (VString "blue") 2;
   demo_point "c" (VList [VString "red"; VString "green"]) 3; demo_point "d" (VString "red") 4].

Lemma facet_counts_witness :
  (∃ r rest, Facet (mkFacetParams "colour" 2 None 0 "" false) (demo_coll demo_points) = Ok r ∧
     r = [(VString "red", 3); (VString "blue", 1)] ∧ StronglySorted (λ a b, b.2 ≤ a.2) (r ++ rest)) ∧
  (∃ r rest, Facet (mkFacetParams "colour" 2 None 0 "count" false) (demo_coll demo_points) = Ok r ∧
     r = [(VString "blue", 1); (VString "green", 1)] ∧ StronglySorted (λ a b, a.2 ≤ b.2) (r ++ rest)).
Proof.
  split.
  - destruct (facet_counts (mkFacetParams "colour" 2 None 0 "" false) (demo_coll demo_points) demo_points)
      as (r & rest & Hr & _ & _ & Ho);
      [by vm_compute|intros p _; by exists true|apply (bool_decide_unpack _); by vm_compute|].
    exists r, rest. split; [exact Hr|]. vm_compute in Hr. injection Hr as <-. split; [done|].
    apply Ho; [done|by right].
  - destruct (facet_counts (mkFacetParams "colour" 2 None 0 "count" false) (demo_coll demo_points) demo_points)
      as (r & rest & Hr & _ & _ & Ho);
      [by vm_compute|intros p _; by exists true|apply (bool_decide_unpack _); by vm_compute|].
    exists r, rest. split; [exact Hr|]. vm_compute in Hr. injection Hr as <-. split; [done|].
    apply Ho; done.
Defined.

Lemma facet_map_panics_witness :
  Facet (mkFacetParams "colour" 2 None 0 "" false) (demo_coll [demo_point "a" (VMap []) 1]) = Panic.
Proof.
  refine (facet_map_panics (mkFacetParams "colour" 2 None 0 "" false) (demo_coll [demo_point "a" (VMap []) 1])
    [demo_point "a" (VMap []) 1] (demo_point "a" (VMap []) 1) _ [] _ _ _ eq_refl _);
    [by vm_compute|by left|reflexivity|reflexivity].
Defined.

Lemma auto_ranges_empty_witness :
  RangeFacet 1 (mkRangeFacetParams "size" [] (f64_of_Z 1) None) (demo_coll demo_points) = Ok [].
Proof.
  refine (auto_ranges_empty 1 (mkRangeFacetParams "size" [] (f64_of_Z 1) None) (demo_coll demo_points) demo_points
    _ _ _ eq_refl _); [by vm_compute|intros p _; by exists true|by vm_compute|lia].
Defined.

Lemma range_facet_counts_witness :
  let r x y := mkRange (Some (f64_of_Z x)) (Some (f64_of_Z y)) "" in
  ∃ vs, RangeFacet 1 (mkRangeFacetParams "size" [r 1 3; r 3 9] (f64_of_Z 1) None) (demo_coll demo_points) = Ok vs ∧
    map rv_Count vs = [2; 2] ∧ map rv_Key vs = ["1-3"; "3-9"]%string.
Proof.
  intros r.
  destruct (range_facet_counts 1 (mkRangeFacetParams "size" [r 1 3; r 3 9] (f64_of_Z 1) None)
    (demo_coll demo_points) demo_points) as (vs & Hvs & _);
    [by vm_compute|intros p _; by exists true|done|].
  exists vs. split; [exact Hvs|]. vm_compute in Hvs. injection Hvs as <-. by vm_compute.
Defined.
