(* ===== verification/PayloadConfig.v ===== *)
(** * pkg/collection/payload_config.go: settings of the payload index

    Creating, deleting and listing the payload indexes of a collection, one by one
    and as a schema. Times are left out, and so is the file in which a
    [PayloadIndexManager] keeps a schema as JSON. *)
From stdpp Require Import base gmap strings list fin_maps numbers.
From Stdlib Require Import ZArith Lia Floats.SpecFloat.
From S2P Require Import Prelude GoLoops Float32 Heap WalCodec Hnsw Distance HnswQuery Cache PayloadFilter AnyMap.
From S2P Require Import PayloadIndex Binary Point PointV2 Sparse Config SearchCache Collection.
From stdpp Require Import list.

#[local] Open Scope Z_scope.

Inductive indexError :=
| EFieldName | EKeywordHash | ETextFullText | ENumericNumeric | EGeoGeo.

(** ** Settings *)
Definition FieldTypeKeyword : string := "keyword".
Definition FieldTypeText : string := "text".
Definition FieldTypeInteger : string := "integer".
Definition FieldTypeFloat : string := "float".
Definition FieldTypeBool : string := "bool".
Definition FieldTypeGeo : string := "geo".
Definition FieldTypeDatetime : string := "datetime".
Definition IndexTypeHash : string := "hash".
Definition IndexTypeNumeric : string := "numeric".
Definition IndexTypeFullText : string := "fulltext".
Definition IndexTypeGeoPoint : string := "geo".

Record PayloadIndexConfig := mkIndexConfig {
  pc_FieldName : string; pc_FieldType : string; pc_IndexType : string; pc_Options : payload
}.
Record PayloadIndexInfo := mkIndexInfo {
  pi_Config : PayloadIndexConfig; pi_PointsIndexed : Z; pi_SizeBytes : Z; pi_Status : string
}.

(** [switch cfg.IndexType] *)
Definition index_type (t : string) : PayloadIndex.IndexType :=
  if String.eqb t IndexTypeHash then PayloadIndex.IndexTypeHash
  else if String.eqb t IndexTypeNumeric then PayloadIndex.IndexTypeNumeric
  else if String.eqb t IndexTypeFullText then PayloadIndex.IndexTypeFullText
  else if String.eqb t IndexTypeGeoPoint then PayloadIndex.IndexTypeGeo
  else PayloadIndex.IndexTypeHash.

(** A type whose index may be left out, or must be the one given *)
Definition default_index (t : string) (cfg : PayloadIndexConfig) : PayloadIndexConfig :=
  if String.eqb (pc_IndexType cfg) "" then mkIndexConfig (pc_FieldName cfg) (pc_FieldType cfg) t (pc_Options cfg)
  else cfg.
Definition only_index (t : string) (e : indexError) (cfg : PayloadIndexConfig) :
    result indexError PayloadIndexConfig :=
  if negb (String.eqb (pc_IndexType cfg) t) && negb (String.eqb (pc_IndexType cfg) "") then Err e
  else Ok (default_index t cfg).

(** [validateIndexConfig] fills in the index it was not given. *)
Definition validateIndexConfig (cfg : PayloadIndexConfig) : result indexError PayloadIndexConfig :=
  let t := pc_FieldType cfg in
  if String.eqb t FieldTypeKeyword then only_index IndexTypeHash EKeywordHash cfg
  else if String.eqb t FieldTypeText then only_index IndexTypeFullText ETextFullText cfg
  else if String.eqb t FieldTypeInteger || String.eqb t FieldTypeFloat then
    only_index IndexTypeNumeric ENumericNumeric cfg
  else if String.eqb t FieldTypeGeo then only_index IndexTypeGeoPoint EGeoGeo cfg
  else if String.eqb t FieldTypeBool then Ok (default_index IndexTypeHash cfg)
  else if String.eqb t FieldTypeDatetime then Ok (default_index IndexTypeNumeric cfg)
  else Ok cfg.

(** ** Operations *)
Section payload_config.
Context {Q D : Type} {dbase : Database D} {order : MapOrder string}.
#[local] Abbreviation Coll := (@Coll Q D).
#[local] Abbreviation PM := (M Coll indexError).
#[local] Abbreviation IndexedPoint := (Hnsw.Point (option payload)).

(** [payload.Index.IndexField] *)
Definition IndexField (pointID : Z) (fieldName : string) (v : value) (idx : @Index D) : @Index D := idx.

(** The index whose points are indexed again: that of the default vector, or the
    first of the named ones. A nil default index is not a nil interface. *)
Definition points_source (c : Coll) : result indexError (option Idx) :=
  if HasNamedVectors (c_config c) then Ok (first_index c)
  else match c_index c with Some i => Ok (Some i) | None => Panic end.

(** [c.getNodeID] *)
Definition node_of (c : Coll) (id : string) : result indexError (option nat) :=
  match c_index c with Some i => Ok (GetNodeID (ix_hnsw i) id) | None => Panic end.

Definition reindex_point (fieldName : string) (p : IndexedPoint) : PM unit :=
  c ← get;
  o ← lift (node_of c (p_ID p));
  match o, p_Payload p with
  | Some n, Some pl =>
      match map_entry pl fieldName with
      | Some v => put (set_payloadIndex (IndexField (Z.of_nat n) fieldName v (c_payloadIndex c)) c)
      | None => mret tt
      end
  | _, _ => mret tt
  end.
Definition schema_point (p : IndexedPoint) : PM unit :=
  c ← get;
  o ← lift (node_of c (p_ID p));
  match o with
  | Some n => put (set_payloadIndex (IndexPoint (Z.of_nat n) (default [] (p_Payload p)) (c_payloadIndex c)) c)
  | None => mret tt
  end.
Fixpoint each_point (f : IndexedPoint → PM unit) (ps : list IndexedPoint) : PM unit :=
  match ps with [] => mret tt | p :: ps => f p;; each_point f ps end.
Definition each_source_point (f : IndexedPoint → PM unit) : PM unit :=
  c ← get;
  o ← lift (points_source c);
  match o with Some i => each_point f (GetAllPoints (ix_hnsw i)) | None => mret tt end.

Definition reindexPayloadField (fieldName : string) : PM unit := each_source_point (reindex_point fieldName).

Definition create_index (fieldName : string) (t : PayloadIndex.IndexType) (c : Coll) : Coll :=
  set_payloadIndex (CreateIndex fieldName t (c_payloadIndex c)) c.

(** The settings are returned with the index type filled in. *)
Definition CreatePayloadIndex (cfg : PayloadIndexConfig) : PM PayloadIndexConfig :=
  if String.eqb (pc_FieldName cfg) "" then throw EFieldName else
  cfg ← lift (validateIndexConfig cfg);
  modify (create_index (pc_FieldName cfg) (index_type (pc_IndexType cfg)));;
  reindexPayloadField (pc_FieldName cfg);;
  mret cfg.

Definition DeletePayloadIndex (fieldName : string) : PM unit :=
  modify (λ c, set_payloadIndex (DeleteIndex fieldName (c_payloadIndex c)) c).

Definition index_info (c : Coll) (fieldName : string) : PayloadIndexInfo :=
  let cfg := mkIndexConfig fieldName FieldTypeKeyword IndexTypeHash [] in
  match GetIndexStats fieldName (c_payloadIndex c) with
  | Some stats => mkIndexInfo cfg (PointCount stats) (SizeBytes stats) "ready"
  | None => mkIndexInfo cfg 0 0 "ready"
  end.
Definition GetPayloadIndexes (c : Coll) : gmap string PayloadIndexInfo :=
  foldl (λ result fieldName, <[fieldName := index_info c fieldName]> result) ∅
    (IndexedFields (c_payloadIndex c)).
Definition GetPayloadSchema (c : Coll) : gmap string PayloadIndexConfig := pi_Config <$> GetPayloadIndexes c.

(** The entries of a schema, in the order of the range over the map; a nil entry
    panics. The names written back into the entries are left out. *)
Fixpoint schema_entries (fields : list (string * option PayloadIndexConfig)) : PM unit :=
  match fields with
  | [] => mret tt
  | (_, None) :: _ => panic
  | (fieldName, Some cfg) :: fields =>
      modify (create_index fieldName (index_type (pc_IndexType cfg)));; schema_entries fields
  end.
Definition SetPayloadSchema (fields : gmap string (option PayloadIndexConfig)) : PM unit :=
  schema_entries (map_range fields);; each_source_point schema_point.
End payload_config.

(** ** Validation *)
(** The index of a field type, and whether no other may be asked for *)
Definition natural_index (t : string) : option (string * bool) :=
  if String.eqb t FieldTypeKeyword then Some (IndexTypeHash, true)
  else if String.eqb t FieldTypeText then Some (IndexTypeFullText, true)
  else if String.eqb t FieldTypeInteger || String.eqb t FieldTypeFloat then Some (IndexTypeNumeric, true)
  else if String.eqb t FieldTypeGeo then Some (IndexTypeGeoPoint, true)
  else if String.eqb t FieldTypeBool then Some (IndexTypeHash, false)
  else if String.eqb t FieldTypeDatetime then Some (IndexTypeNumeric, false)
  else None.

(** Settings are valid exactly when the type of the field allows the index asked
    for; an index left out is the one of the type. Unknown types and indexes pass. *)
Theorem index_config_valid cfg :
  (∃ cfg', validateIndexConfig cfg = Ok cfg') ↔
  (∀ t, natural_index (pc_FieldType cfg) = Some (t, true) → pc_IndexType cfg = t ∨ pc_IndexType cfg = ""%string).
Proof.
  unfold validateIndexConfig, natural_index, only_index.
  repeat match goal with |- context [if ?b then Some _ else _] => destruct b end;
    try (split; [intros _ t [=]|by eexists]).
  all: destruct (String.eqb_spec (pc_IndexType cfg) "") as [Hi|Hi];
    rewrite ?andb_false_r, ?andb_true_r; [split; [intros _ t [= <-]; by right|by eexists]|].
  all: match goal with |- context [String.eqb (pc_IndexType ?c) ?t] => destruct (String.eqb_spec (pc_IndexType c) t) end; cbn.
  all: try (split; [intros _ ? [= <-]; by left|by eexists]).
  all: split; [by intros [? [=]]|]; intros H; by destruct (H _ eq_refl).
Qed.

(** ** The schema of a collection *)
Section schema.
Context {Q D : Type} {dbase : Database D} {order : MapOrder string}.
#[local] Abbreviation Coll := (@Coll Q D).

(** The rows a re-indexing of the points writes *)
Definition live_row (i : Idx) (p : Hnsw.Point (option payload)) : option (Z * payload) :=
  n ← GetNodeID (ix_hnsw i) (p_ID p); Some (Z.of_nat n, default [] (p_Payload p)).
Definition live_rows (i : Idx) : list (Z * payload) := omap (live_row i) (GetAllPoints (ix_hnsw i)).
Definition write_rows (rows : list (Z * payload)) (d : @Index D) : @Index D :=
  foldl (λ d r, IndexPoint r.1 r.2 d) d rows.

Lemma set_payloadIndex_same (c : Coll) : set_payloadIndex (c_payloadIndex c) c = c.
Proof. by destruct c. Qed.

Lemma reindex_points_nothing field i ps (c : Coll) :
  c_index c = Some i → each_point (reindex_point field) ps c = (Ok tt, c).
Proof.
  intros Hi. induction ps as [|p ps IH]; [done|]. cbn [each_point].
  rewrite (M_bind_run _ _ _ c tt); [exact IH|]. unfold reindex_point. rewrite get_bind.
  unfold node_of. rewrite Hi. destruct (GetNodeID _ _), (p_Payload p) as [pl|]; try done.
  cbn. destruct (map_entry pl field); [|done]. unfold IndexField. cbn. by rewrite set_payloadIndex_same.
Qed.

Lemma schema_points_rows i ps (c : Coll) :
  c_index c = Some i →
  each_point schema_point ps c
  = (Ok tt, set_payloadIndex (write_rows (omap (live_row i) ps) (c_payloadIndex c)) c).
Proof.
  revert c. induction ps as [|p ps IH]; intros c Hi; cbn [each_point].
  - cbn. by rewrite set_payloadIndex_same.
  - set (c' := set_payloadIndex (write_rows (omap (live_row i) [p]) (c_payloadIndex c)) c).
    rewrite (M_bind_run _ _ _ c' tt).
    + etransitivity; [by apply IH|]. unfold c'. cbn [omap list_omap]. by destruct (live_row i p).
    + unfold c', schema_point. rewrite get_bind. unfold node_of. rewrite Hi. cbn. unfold live_row.
      destruct (GetNodeID (ix_hnsw i) (p_ID p)); [done|]. cbn. by rewrite set_payloadIndex_same.
Qed.

(** *** The schema as a set of names

    What one call does to the names of the indexed fields and to the rows of the
    database, and what it answers *)
Inductive schema_op :=
| OCreate (cfg : PayloadIndexConfig) | ODelete (fieldName : string)
| OSet (fields : gmap string (option PayloadIndexConfig)) | OIndexes | OSchema.
Inductive schema_answer :=
| ACreated (cfg : PayloadIndexConfig) | AFailed (e : indexError) | ADone
| AIndexes (m : gmap string PayloadIndexInfo) | ASchema (m : gmap string PayloadIndexConfig).

Definition schema_step (o : schema_op) : M Coll indexError schema_answer :=
  match o with
  | OCreate cfg => λ c,
      match CreatePayloadIndex cfg c with
      | (Ok cfg, c) => (Ok (ACreated cfg), c)
      | (Err e, c) => (Ok (AFailed e), c)
      | (Panic, c) => (Panic, c)
      end
  | ODelete f => DeletePayloadIndex f;; mret ADone
  | OSet fields => SetPayloadSchema fields;; mret ADone
  | OIndexes => c ← get; mret (AIndexes (GetPayloadIndexes c))
  | OSchema => c ← get; mret (ASchema (GetPayloadSchema c))
  end.
Fixpoint schema_run (os : list schema_op) : M Coll indexError (list schema_answer) :=
  match os with
  | [] => mret []
  | o :: os => a ← schema_step o; l ← schema_run os; mret (a :: l)
  end.

Definition keyword_config (f : string) : PayloadIndexConfig := mkIndexConfig f FieldTypeKeyword IndexTypeHash [].
Definition keyword_info (f : string) : PayloadIndexInfo := mkIndexInfo (keyword_config f) 1 1024 "ready".

Definition names_step (rows : list (Z * payload)) (o : schema_op) (st : gset string * D) :
    schema_answer * (gset string * D) :=
  let '(names, d) := st in
  match o with
  | OCreate cfg =>
      if String.eqb (pc_FieldName cfg) "" then (AFailed EFieldName, st) else
      match validateIndexConfig cfg with
      | Ok cfg' => (ACreated cfg', ({[pc_FieldName cfg]} ∪ names, d))
      | Err e => (AFailed e, st)
      | Panic => (ADone, st)
      end
  | ODelete f => (ADone, (names ∖ {[f]}, d))
  | OSet fields => (ADone, (dom fields ∪ names, db (write_rows rows (PayloadIndex.mkIndex d ∅))))
  | OIndexes => (AIndexes (set_to_map (λ f, (f, keyword_info f)) names), st)
  | OSchema => (ASchema (set_to_map (λ f, (f, keyword_config f)) names), st)
  end.
Fixpoint names_run (rows : list (Z * payload)) (os : list schema_op) (st : gset string * D) :
    list schema_answer * (gset string * D) :=
  match os with
  | [] => ([], st)
  | o :: os => let '(a, st) := names_step rows o st in
               let '(l, st) := names_run rows os st in (a :: l, st)
  end.

Definition no_nil_entry (o : schema_op) : Prop :=
  match o with OSet fields => ∀ f, fields !! f ≠ Some None | _ => True end.

(** The names and the rows of a collection *)
Definition schema_of (c : Coll) : gset string * D :=
  (dom (indexedFields (c_payloadIndex c)), db (c_payloadIndex c)).

Lemma write_rows_fields rows (d : @Index D) :
  write_rows rows d = PayloadIndex.mkIndex (db (write_rows rows (PayloadIndex.mkIndex (db d) ∅))) (indexedFields d).
Proof.
  unfold write_rows. rewrite <- (rev_involutive rows). induction (rev rows) as [|r rs IH]; [by destruct d|].
  cbn [rev]. rewrite !foldl_app. cbn [foldl]. rewrite IH. set (x := foldl _ _ _) at 2.
  unfold IndexPoint. destruct r.2 as [|e pl]; [done|]. by destruct (PayloadIndex.Marshal (e :: pl)).
Qed.

Lemma infos_lookup (c : Coll) (names : list string) (m : gmap string PayloadIndexInfo) f :
  foldl (λ result fieldName, <[fieldName := index_info c fieldName]> result) m names !! f
  = if decide (f ∈ names) then Some (index_info c f) else m !! f.
Proof.
  revert m. induction names as [|n names IH]; intros m; cbn [foldl].
  - rewrite decide_False; [done|apply not_elem_of_nil].
  - rewrite IH. destruct (decide (f ∈ names)) as [Hf|Hf].
    + rewrite decide_True; [done|by right].
    + destruct (decide (f = n)) as [->|Hn].
      * rewrite lookup_insert_eq, decide_True; [done|by left].
      * rewrite lookup_insert_ne, decide_False; [done| |done]. by intros [?|?]%elem_of_cons.
Qed.

Lemma named_map_lookup {A} (g : string → A) (names : gset string) f :
  (set_to_map (λ f, (f, g f)) names : gmap string A) !! f = if decide (f ∈ names) then Some (g f) else None.
Proof.
  assert (∀ x, (set_to_map (λ f, (f, g f)) names : gmap string A) !! f = Some x ↔ f ∈ names ∧ x = g f) as Hl.
  { intros x. rewrite lookup_set_to_map by by intros ? ? _ _. naive_solver. }
  case_decide as Hf; [by apply Hl|]. apply eq_None_not_Some. intros [x [Hx _]%Hl]. done.
Qed.

Lemma indexes_are_names (c : Coll) :
  GetPayloadIndexes c = set_to_map (λ f, (f, keyword_info f)) (schema_of c).1.
Proof.
  apply map_eq. intros f. unfold GetPayloadIndexes. rewrite infos_lookup, lookup_empty.
  assert (f ∈ IndexedFields (c_payloadIndex c) ↔ is_Some (indexedFields (c_payloadIndex c) !! f)) as Hin.
  { unfold IndexedFields. rewrite list_elem_of_fmap. split.
    - intros ([f' t] & -> & H%elem_of_map_to_list). by eexists.
    - intros [t H]. exists (f, t). by rewrite elem_of_map_to_list. }
  rewrite named_map_lookup. unfold schema_of. cbn [fst]. pose proof (elem_of_dom (indexedFields (c_payloadIndex c)) f) as Hd.
  case_decide as Hf; [rewrite decide_True by tauto|rewrite decide_False by tauto; done].
  f_equal. unfold index_info, GetIndexStats. by apply Hin in Hf as [t ->].
Qed.

Lemma schema_is_names (c : Coll) :
  GetPayloadSchema c = set_to_map (λ f, (f, keyword_config f)) (schema_of c).1.
Proof.
  unfold GetPayloadSchema. rewrite indexes_are_names. apply map_eq. intros f.
  rewrite lookup_fmap, !named_map_lookup. by case_decide.
Qed.

(** The entries of a schema become fields, whatever their order. *)
Lemma schema_entries_fields l (c : Coll) :
  (∀ f, (f, None) ∉ l) →
  ∃ idx, schema_entries l c = (Ok tt, set_payloadIndex idx c) ∧ db idx = db (c_payloadIndex c) ∧
    dom (indexedFields idx) = list_to_set (l.*1) ∪ dom (indexedFields (c_payloadIndex c)).
Proof.
  revert c. induction l as [|[f [cfg|]] l IH]; intros c Hl; cbn [schema_entries].
  - exists (c_payloadIndex c). rewrite set_payloadIndex_same. split_and!; [done..|]. cbn. by rewrite (left_id_L ∅ (∪)).
  - destruct (IH (create_index f (index_type (pc_IndexType cfg)) c)) as (idx & Hrun & Hdb & Hdom).
    { intros g Hg. apply (Hl g). by right. }
    exists idx. rewrite (M_bind_run _ _ _ (create_index f (index_type (pc_IndexType cfg)) c) tt) by done.
    rewrite Hrun. split_and!; [done..|]. rewrite Hdom. cbn. rewrite dom_insert_L.
    by rewrite (assoc_L (∪)), (comm_L (∪) (list_to_set _)).
  - exfalso. apply (Hl f). by left.
Qed.

Lemma each_source_run (f : Hnsw.Point (option payload) → M Coll indexError unit) i (c : Coll) :
  HasNamedVectors (c_config c) = false → c_index c = Some i →
  each_source_point f c = each_point f (GetAllPoints (ix_hnsw i)) c.
Proof. intros Hn Hi. unfold each_source_point, points_source. rewrite get_bind, Hn, Hi. done. Qed.

(** What a call leaves alone, and the names it leaves *)
Definition tracks (i : Idx) (st : gset string * D) (c : Coll) : Prop :=
  HasNamedVectors (c_config c) = false ∧ c_index c = Some i ∧ schema_of c = st.

Lemma tracks_create i names d field t (c : Coll) :
  tracks i (names, d) c → tracks i ({[field]} ∪ names, d) (create_index field t c).
Proof.
  intros (Hn & Hi & Hs). split_and!; [done..|]. unfold schema_of in *. cbn. rewrite dom_insert_L.
  injection Hs as -> ->. done.
Qed.

Lemma CreatePayloadIndex_run i cfg cfg' (c : Coll) :
  HasNamedVectors (c_config c) = false → c_index c = Some i →
  pc_FieldName cfg ≠ ""%string → validateIndexConfig cfg = Ok cfg' →
  CreatePayloadIndex cfg c = (Ok cfg', create_index (pc_FieldName cfg') (index_type (pc_IndexType cfg')) c).
Proof.
  intros Hn Hi Hf Hv. unfold CreatePayloadIndex. rewrite (proj2 (String.eqb_neq _ _) Hf).
  rewrite (M_bind_run _ _ _ c cfg') by (unfold lift; by rewrite Hv).
  rewrite (M_bind_run _ _ _ (create_index (pc_FieldName cfg') (index_type (pc_IndexType cfg')) c) tt) by done.
  rewrite (M_bind_run _ _ _ (create_index (pc_FieldName cfg') (index_type (pc_IndexType cfg')) c) tt); [done|].
  unfold reindexPayloadField. rewrite (each_source_run _ i) by done. by apply (reindex_points_nothing _ i).
Qed.

Lemma validate_keeps_name cfg cfg' : validateIndexConfig cfg = Ok cfg' → pc_FieldName cfg' = pc_FieldName cfg.
Proof.
  unfold validateIndexConfig, only_index, default_index.
  repeat (case_match; simplify_eq/=; try (by intros [= <-])); done.
Qed.

Lemma schema_step_names i o st (c : Coll) :
  tracks i st c → no_nil_entry o →
  let '(a, st') := names_step (live_rows i) o st in ∃ c', schema_step o c = (Ok a, c') ∧ tracks i st' c'.
Proof.
  destruct st as [names d]. intros (Hn & Hi & Hs) Ho. pose proof Hs as Hs'. injection Hs' as Hnames Hd.
  destruct o as [cfg|f|fields| |]; cbn [names_step schema_step].
  - destruct (String.eqb_spec (pc_FieldName cfg) "") as [Hf|Hf].
    { eexists. unfold CreatePayloadIndex. rewrite (proj2 (String.eqb_eq _ _) Hf). by split. }
    destruct (validateIndexConfig cfg) as [cfg'|e|] eqn:Hv.
    + rewrite (CreatePayloadIndex_run i cfg cfg') by done. eexists. split; [done|].
      rewrite <- (validate_keeps_name _ _ Hv). by apply tracks_create.
    + eexists. unfold CreatePayloadIndex. rewrite (proj2 (String.eqb_neq _ _) Hf).
      unfold lift. rewrite Hv. by split.
    + exfalso. revert Hv. unfold validateIndexConfig, only_index. repeat case_match; done.
  - eexists. split; [reflexivity|]. split_and!; [done..|]. unfold schema_of. cbn. by rewrite dom_delete_L, Hnames, Hd.
  - destruct (schema_entries_fields (map_range fields) c) as (idx & Hrun & Hdb & Hdom).
    { intros f Hf. rewrite map_range_perm in Hf. apply elem_of_map_to_list in Hf. by apply (Ho f). }
    eexists. unfold SetPayloadSchema. rewrite (M_bind_run _ _ _ (set_payloadIndex (write_rows (live_rows i) idx)
      (set_payloadIndex idx c)) tt); [split; [reflexivity|]|].
    + split_and!; [done..|]. unfold schema_of. cbn. rewrite write_rows_fields. cbn. rewrite Hdb, Hd, Hdom, Hnames.
      do 2 f_equal. rewrite (list_to_set_perm_L _ (map_to_list fields).*1) by (by rewrite map_range_perm).
      by rewrite <- (dom_list_to_map_L (map_to_list fields)), list_to_map_to_list.
    + rewrite (M_bind_run _ _ _ (set_payloadIndex idx c) tt) by done. rewrite (each_source_run _ i) by done.
      by apply (schema_points_rows i).
  - eexists. split; [|by split_and!]. rewrite get_bind, indexes_are_names. unfold schema_of. by rewrite Hnames.
  - eexists. split; [|by split_and!]. rewrite get_bind, schema_is_names. unfold schema_of. by rewrite Hnames.
Qed.

(** Over every history of creations, deletions and whole schemas, the payload
    indexes of a collection with one vector are a set of field names: every index
    is listed as a keyword field with a hash index over one point, whatever was
    asked for. A creation writes no row, although it says it indexes the points
    again; a schema writes the row of every live point. *)
Theorem schema_refines_names i ops st (c : Coll) :
  tracks i st c → Forall no_nil_entry ops →
  let '(answers, st') := names_run (live_rows i) ops st in
  ∃ c', schema_run ops c = (Ok answers, c') ∧ tracks i st' c'.
Proof.
  intros Ht Hops. revert st c Ht. induction Hops as [|o ops Ho Hops IH]; intros st c Ht; cbn [names_run schema_run].
  - by exists c.
  - pose proof (schema_step_names i o st c Ht Ho) as Hstep.
    destruct (names_step (live_rows i) o st) as [a st1]. destruct Hstep as (c1 & Hc1 & Ht1).
    specialize (IH st1 c1 Ht1). destruct (names_run (live_rows i) ops st1) as [l st2].
    destruct IH as (c2 & Hc2 & Ht2). exists c2. split; [|done].
    rewrite (M_bind_run _ _ _ c1 a) by done. by rewrite (M_bind_run _ _ _ c2 l).
Qed.
End schema.

(** ** One collection

    A database that keeps the rows written to it, and one stored point *)
#[local] Instance demo_order : MapOrder string := listed_order string.
#[local] Instance demo_db : Database (list (list value)) :=
  {| db_Exec _ args d := d ++ [args]; db_Query _ _ _ := None; PayloadIndex.Marshal _ := Some "{}"%string |}.
Definition demo_idx : Idx :=
  mkIdx Euclidean (mkHNSW 2 2 4 4 10 0
    [mkNode "a" [f32_of_Z 1] None 0 [[]] false (Some [("year"%string, VInt 2024)])] 0 1 1
    {["a"%string := 0%nat]} 0 None).
Definition demo_coll : @Coll unit (list (list value)) :=
  mkColl (mkCollectionConfig "docs" 1 Config.MetricEuclidean (mkHNSWConfig 2 4 4 10) false None ∅)
    (Some demo_idx) ∅ (PayloadIndex.mkIndex [] ∅) NewInvertedIndex false (NewSearchCache 1 1) [].
Definition demo_schema_ops : list schema_op :=
  [OCreate (mkIndexConfig "year" "integer" "" []); OCreate (mkIndexConfig "title" "keyword" "fulltext" []);
   OSet {["text"%string := Some (mkIndexConfig "" "text" "fulltext" [])]}; ODelete "year"; OSchema].

Lemma schema_refines_names_witness :
  ∃ c', schema_run demo_schema_ops demo_coll
    = (Ok [ACreated (mkIndexConfig "year" "integer" "numeric" []); AFailed EKeywordHash; ADone; ADone;
           ASchema {["text"%string := mkIndexConfig "text" "keyword" "hash" []]}], c') ∧
    db (c_payloadIndex c') = [[VInt64 0; VString "{}"]].
Proof.
  assert (tracks demo_idx (∅, []) demo_coll) as Ht by by split_and!.
  pose proof (schema_refines_names demo_idx demo_schema_ops (∅, []) demo_coll Ht) as H.
  destruct H as (c' & Hrun & Hst).
  { repeat constructor. intros f. cbn. destruct (decide (f = "text"%string)) as [->|Hf]; [done|].
    by rewrite lookup_singleton_ne. }
  exists c'. split; [exact Hrun|]. destruct Hst as (_ & _ & Hst).
  apply (f_equal snd) in Hst. exact Hst.
Defined.
