(* ===== verification/Explain.v ===== *)
(** * pkg/collection/explain.go: query plans and advice

    [Explain] describes how a search would run, estimates its cost and, when asked,
    runs it; an [Optimizer] suggests payload indexes and a search width. Elapsed
    times are left out. *)
From stdpp Require Import base gmap strings list fin_maps numbers.
From Stdlib Require Import ZArith Lia Floats.SpecFloat.
From S2P Require Import Prelude GoLoops Float32 Heap WalCodec Hnsw Distance HnswQuery Cache PayloadFilter AnyMap.
From S2P Require Import PayloadIndex Binary Point PointV2 Sparse Config SearchCache Collection.
From stdpp Require Import list.

#[local] Open Scope Z_scope.

Definition f64_add : f64 → f64 → f64 := SFadd 53 1024.
Definition f64_mul : f64 → f64 → f64 := SFmul 53 1024.

(** ** Plans *)

(** A filter with its [Conditions], which only this file reads. The [Conditions] of
    the filters under [Filters] are read by nothing. *)
Inductive PlanFilter := mkPlanFilter { pf_Filter : PayloadFilter.Filter; pf_Conditions : list (option PlanFilter) }.

Record IndexPlanInfo := mkIndexPlan {
  ip_IndexType : string; ip_VectorName : string; ip_Dimension : Z; ip_Metric : string; ip_TotalPoints : Z;
  ip_M : Z; ip_EfConstruction : Z; ip_EfSearch : Z
}.
Record ConditionPlan := mkConditionPlan {
  cp_Field : string; cp_Operator : string; cp_IndexAvailable : bool; cp_Selectivity : f64
}.
Record FilterPlanInfo := mkFilterPlan {
  fi_FilterType : string; fi_IndexesUsed : list string; fi_EstimatedMatch : f64; fi_Conditions : list ConditionPlan
}.
Record CostEstimate := mkCost {
  ce_DistanceCalculations : Z; ce_PointsToScan : Z; ce_MemoryBytes : Z; ce_CostScore : f64
}.
Record ExecutionStats := mkStats { es_DistanceCalculations : Z; es_PointsScanned : Z; es_ResultsReturned : Z }.
Record QueryPlan := mkPlan {
  qp_QueryType : string; qp_IndexInfo : IndexPlanInfo; qp_FilterPlan : option FilterPlanInfo;
  qp_EstimatedCost : CostEstimate; qp_ExecutionStats : option ExecutionStats
}.
Record ExplainParams := mkExplain {
  ep_Query : Vector; ep_K : Z; ep_Ef : Z; ep_Filter : option PlanFilter; ep_VectorName : string; ep_Analyze : bool
}.

(** ** Filters *)
Record filterCondition := mkFilterCondition { fc_field : string; fc_op : string; fc_selectivity : f64 }.

Definition leaf_condition (t field : string) : option filterCondition :=
  if String.eqb t "match" then Some (mkFilterCondition field "match" (f64_const 1 10))
  else if String.eqb t "range" then Some (mkFilterCondition field "range" (f64_const 3 10))
  else if String.eqb t "is_null" then Some (mkFilterCondition field "is_null" (f64_const 5 100))
  else if String.eqb t "is_not_null" then Some (mkFilterCondition field "is_not_null" (f64_const 95 100))
  else None.

Fixpoint extractFilterConditions (filter : PlanFilter) : list filterCondition :=
  match f_Type (pf_Filter filter) with
  | FilterTypeAnd | FilterTypeOr =>
      (fix subs (l : list (option PlanFilter)) : list filterCondition :=
        match l with
        | [] => []
        | None :: l => subs l
        | Some sub :: l => extractFilterConditions sub ++ subs l
        end) (pf_Conditions filter)
  | FilterTypeOther t => option_list (leaf_condition t (f_Field (pf_Filter filter)))
  | _ => []
  end.

(** One condition of a plan *)
Definition plan_condition (indexed : list string) (plan : FilterPlanInfo) (cond : filterCondition) : FilterPlanInfo :=
  let available := bool_decide (fc_field cond ∈ indexed) in
  mkFilterPlan (if available then "pre" else fi_FilterType plan)
    (if available then fi_IndexesUsed plan ++ [fc_field cond] else fi_IndexesUsed plan)
    (f64_mul (fi_EstimatedMatch plan) (fc_selectivity cond))
    (fi_Conditions plan ++ [mkConditionPlan (fc_field cond) (fc_op cond) available (fc_selectivity cond)]).

Definition no_plan : FilterPlanInfo := mkFilterPlan "post" [] (f64_of_Z 1) [].

(** ** Costs *)

(** [for n := totalPoints; n > 1; n /= 2 { logN++ }]: an int64 halves to one in at
    most 63 rounds. *)
Fixpoint log_rounds (fuel : nat) (n : Z) (logN : f64) : f64 :=
  match fuel with
  | O => logN
  | S fuel => if n >? 1 then log_rounds fuel (Z.quot n 2) (f64_add logN (f64_of_Z 1)) else logN
  end.

Definition estimateCost (params : ExplainParams) (totalPoints : Z) (filterPlan : option FilterPlanInfo) :
    CostEstimate :=
  let ef := if ep_Ef params =? 0 then 100 else ep_Ef params in
  let distances :=
    if totalPoints >? 0 then
      int_of_f64 (f64_mul (f64_mul (f64_of_Z ef) (log_rounds 64 totalPoints (f64_of_Z 1))) (f64_of_Z 16))
    else 0 in
  let scan :=
    match filterPlan with
    | Some plan => int_of_f64 (f64_mul (f64_of_Z totalPoints) (fi_EstimatedMatch plan))
    | None => ef
    end in
  mkCost distances scan (i64 (i64 (i64 (distances * 8) + i64 (ef * 32)) + i64 (ep_K params * 32)))
    (f64_add (f64_of_Z distances) (f64_mul (f64_of_Z scan) (f64_const 1 10))).

(** ** Explain *)
Section explain.
Context {Q D : Type} {sorter : Sorter} {order : MapOrder string} {zorder : MapOrder Z} {cm : CaseMap}.
#[local] Abbreviation Coll := (@Coll Q D).
#[local] Abbreviation R := (result collError).

Definition analyzeFilter (filter : PlanFilter) (c : Coll) : FilterPlanInfo :=
  foldl (plan_condition (IndexedFields (c_payloadIndex c))) no_plan (extractFilterConditions filter).

Definition executeWithStats (params : ExplainParams) (c : Coll) : R ExecutionStats :=
  '(points, _) ← SearchV2WithParams (ep_Query params) (ep_VectorName params)
    (Collection.mkSearchParams (ep_K params) (ep_Ef params) (pf_Filter <$> ep_Filter params) false false None) c;
  let returned := len points in
  Ok (mkStats (returned * 10 * 2) (returned * 10) returned).

(** The settings of the vector and the number of points *)
Definition explained_index (params : ExplainParams) (c : Coll) : R (option (VectorConfig Q) * Z) :=
  if HasNamedVectors (c_config c) then
    let vectorName := if String.eqb (ep_VectorName params) "" then "default"%string else ep_VectorName params in
    Ok (GetVectorConfig (c_config c) vectorName,
        match c_indices c !! vectorName with Some i => Hnsw.Size (ix_hnsw i) | None => 0 end)
  else
    match c_index c with
    | Some i => Ok (GetVectorConfig (c_config c) "", Hnsw.Size (ix_hnsw i))
    | None => Panic
    end.

Definition Explain (params : ExplainParams) (c : Coll) : R QueryPlan :=
  '(vc, totalPoints) ← explained_index params c;
  match vc with
  | None => Err (EVectorConfig "")
  | Some vc =>
      let info := mkIndexPlan "hnsw" (ep_VectorName params) (vc_Dimension vc) (vc_Metric vc) totalPoints
        (hc_M (vc_HNSW vc)) (hc_EfConstruction (vc_HNSW vc)) (hc_EfSearch (vc_HNSW vc)) in
      let filterPlan := (λ f, analyzeFilter f c) <$> ep_Filter params in
      let cost := estimateCost params totalPoints filterPlan in
      if ep_Analyze params && (0 <? len (ep_Query params)) then
        stats ← executeWithStats params c;
        Ok (mkPlan "vector_search" info filterPlan cost (Some stats))
      else Ok (mkPlan "vector_search" info filterPlan cost None)
  end.

(** ** Advice *)
Definition count_field (counts : gmap string Z) (cond : filterCondition) : gmap string Z :=
  <[fc_field cond := default 0 (counts !! fc_field cond) + 1]> counts.
Definition log_conditions (q : ExplainParams) : list filterCondition :=
  match ep_Filter q with Some f => extractFilterConditions f | None => [] end.
Definition SuggestIndexes (queryLog : list ExplainParams) (c : Coll) : list string :=
  let fieldCounts := foldl (λ counts q, foldl count_field counts (log_conditions q)) ∅ queryLog in
  (filter (λ fc : string * Z, negb (bool_decide (fc.1 ∈ IndexedFields (c_payloadIndex c))) &&
                              (fc.2 >? Z.quot (len queryLog) 10) = true) (map_range fieldCounts)).*1.

Definition OptimalEfSearch (targetRecall : f64) (c : Coll) : Z :=
  let m := if HasNamedVectors (c_config c) then
             match map_range (cc_Vectors (c_config c)) with (_, vc) :: _ => hc_M (vc_HNSW vc) | [] => 0 end
           else hc_M (cc_HNSW (c_config c)) in
  let m := if m =? 0 then 16 else m in
  if fge targetRecall (f64_const 99 100) then i64 (m * 8)
  else if fge targetRecall (f64_const 95 100) then i64 (m * 4)
  else if fge targetRecall (f64_const 90 100) then i64 (m * 2)
  else m.
End explain.

(** ** What plans say *)

(** The filters that the constructors of the payload package make *)
Definition package_filter (f : PlanFilter) : Prop :=
  pf_Conditions f = [] ∧ match f_Type (pf_Filter f) with FilterTypeOther _ => False | _ => True end.

Lemma package_filter_unread f : package_filter f → extractFilterConditions f = [].
Proof. destruct f as [f cs]. intros [Hc Ht]. cbn in *. subst cs. by destruct (f_Type f). Qed.

(** The fields with an index among the conditions *)
Definition indexed_conditions (indexed : list string) (conds : list filterCondition) : list string :=
  filter (λ f, f ∈ indexed) (fc_field <$> conds).

Lemma plan_conditions_from indexed conds plan :
  let p := foldl (plan_condition indexed) plan conds in
  fi_IndexesUsed p = fi_IndexesUsed plan ++ indexed_conditions indexed conds ∧
  fi_EstimatedMatch p = foldl f64_mul (fi_EstimatedMatch plan) (fc_selectivity <$> conds) ∧
  (cp_Field <$> fi_Conditions p) = (cp_Field <$> fi_Conditions plan) ++ (fc_field <$> conds) ∧
  fi_FilterType p = match indexed_conditions indexed conds with [] => fi_FilterType plan | _ => "pre"%string end.
Proof.
  unfold indexed_conditions. revert plan. induction conds as [|cond conds IH]; intros plan; cbn [foldl].
  - by rewrite !app_nil_r.
  - destruct (IH (plan_condition indexed plan cond)) as (-> & -> & -> & ->). rewrite !fmap_cons, filter_cons.
    unfold plan_condition. cbn [fi_FilterType fi_IndexesUsed fi_EstimatedMatch fi_Conditions].
    rewrite fmap_app, <- app_assoc. case_decide as Hf.
    + rewrite bool_decide_true by done. rewrite <- app_assoc. split_and!; [done..|]. by destruct (filter _ _).
    + by rewrite bool_decide_false by done.
Qed.

Section plans.
Context {Q D : Type} {sorter : Sorter} {order : MapOrder string} {zorder : MapOrder Z} {cm : CaseMap}.
#[local] Abbreviation Coll := (@Coll Q D).

(** The plan of a filter uses exactly the indexes of the fields of its conditions,
    says so, and multiplies their selectivities in order. *)
Theorem filter_plan_uses_indexes filter (c : Coll) :
  let conds := extractFilterConditions filter in
  let used := indexed_conditions (IndexedFields (c_payloadIndex c)) conds in
  let plan := analyzeFilter filter c in
  fi_IndexesUsed plan = used ∧
  fi_EstimatedMatch plan = foldl f64_mul (f64_of_Z 1) (fc_selectivity <$> conds) ∧
  (cp_Field <$> fi_Conditions plan) = (fc_field <$> conds) ∧
  (fi_FilterType plan = "pre"%string ↔ used ≠ []).
Proof.
  intros conds used plan.
  destruct (plan_conditions_from (IndexedFields (c_payloadIndex c)) conds no_plan) as (H1 & H2 & H3 & H4).
  unfold plan, analyzeFilter. fold conds. rewrite H1, H2, H3, H4. split_and!; [done..|].
  fold used. by destruct used.
Qed.

(** A filter made by the payload package is never seen: its plan says that it is
    applied after the search and matches every point, whatever the indexes. *)
Theorem package_filters_unplanned filter (c : Coll) : package_filter filter → analyzeFilter filter c = no_plan.
Proof. intros Hf. unfold analyzeFilter. by rewrite package_filter_unread. Qed.

(** [Explain] with [analyze] reports as many results as the search returns, and
    fails as the search fails. *)
Theorem explain_runs_search params (c : Coll) vc total :
  explained_index params c = Ok (Some vc, total) → ep_Analyze params = true → ep_Query params ≠ [] →
  match SearchV2WithParams (ep_Query params) (ep_VectorName params)
    (Collection.mkSearchParams (ep_K params) (ep_Ef params) (pf_Filter <$> ep_Filter params) false false None) c with
  | Ok (points, _) => ∃ plan stats, Explain params c = Ok plan ∧ qp_ExecutionStats plan = Some stats ∧
                        es_ResultsReturned stats = len points
  | Err e => Explain params c = Err e
  | Panic => Explain params c = Panic
  end.
Proof.
  intros Hi Ha Hq. unfold Explain. rewrite Hi, Ok_bind, Ha. cbn [andb].
  assert (0 < len (ep_Query params)) as Hl.
  { destruct (ep_Query params) as [|x q]; [done|]. rewrite len_cons. pose proof (len_nonneg q). lia. }
  rewrite (proj2 (Z.ltb_lt _ _) Hl). unfold executeWithStats.
  destruct (SearchV2WithParams _ _ _ _) as [[points name]|e|]; [|done..].
  rewrite !Ok_bind. by do 2 eexists.
Qed.

(** *** Suggestions *)
Definition field_count (field : string) (conds : list filterCondition) : Z :=
  len (filter (λ cond, fc_field cond = field) conds).

Lemma count_fields_from conds (counts : gmap string Z) field :
  default 0 (foldl count_field counts conds !! field) = default 0 (counts !! field) + field_count field conds ∧
  (is_Some (foldl count_field counts conds !! field) ↔ is_Some (counts !! field) ∨ field ∈ fc_field <$> conds).
Proof.
  revert counts. induction conds as [|cond conds IH]; intros counts; cbn [foldl].
  - change (field_count field []) with 0. split; [lia|]. split; [by left|]. by intros [?|?%elem_of_nil].
  - destruct (IH (count_field counts cond)) as [-> ->]. unfold count_field, field_count.
    rewrite filter_cons, fmap_cons, elem_of_cons. destruct (decide (fc_field cond = field)) as [<-|Hf].
    + rewrite lookup_insert_eq. cbn [default]. rewrite len_cons. split; [cbn; lia|].
      split; [intros _; by right; left|]. intros _. left. by eexists.
    + rewrite lookup_insert_ne by done. split; [done|]. naive_solver.
Qed.

Lemma count_log_from log (counts : gmap string Z) :
  foldl (λ counts q, foldl count_field counts (log_conditions q)) counts log
  = foldl count_field counts (log ≫= log_conditions).
Proof.
  revert counts. induction log as [|q log IH]; intros counts; [done|]. cbn [foldl]. rewrite IH.
  by rewrite bind_cons, foldl_app.
Qed.

(** A field is suggested exactly when it has no index and more conditions of the
    log name it than a tenth of the number of its queries; it is suggested once. *)
Theorem suggested_fields queryLog (c : Coll) :
  NoDup (SuggestIndexes queryLog c) ∧
  ∀ field, field ∈ SuggestIndexes queryLog c ↔
    field ∉ IndexedFields (c_payloadIndex c) ∧ field ∈ fc_field <$> (queryLog ≫= log_conditions) ∧
    len queryLog `quot` 10 < field_count field (queryLog ≫= log_conditions).
Proof.
  unfold SuggestIndexes. rewrite count_log_from. set (conds := queryLog ≫= log_conditions).
  set (counts := foldl count_field ∅ conds). split.
  - apply NoDup_fmap_2_strong.
    + intros [f n] [f' n'] [_ Hx]%list_elem_of_filter [_ Hy]%list_elem_of_filter Hff. cbn in Hff. subst f'.
      rewrite map_range_perm, elem_of_map_to_list in Hx, Hy. congruence.
    + apply NoDup_filter. rewrite map_range_perm. apply NoDup_map_to_list.
  - intros field. destruct (count_fields_from conds ∅ field) as [Hn Hs]. fold counts in Hn, Hs.
    rewrite lookup_empty in Hn, Hs. rewrite list_elem_of_fmap. split.
    + intros ([f n] & -> & [Hp Hin]%list_elem_of_filter). rewrite map_range_perm, elem_of_map_to_list in Hin.
      cbn in *. apply andb_true_iff in Hp as [Hp1 Hp2]. rewrite Hin in Hn. cbn in Hn.
      apply negb_true_iff, bool_decide_eq_false in Hp1. split_and!; [done| |lia].
      destruct (proj1 Hs) as [[? [=]]|?]; [by eexists|done].
    + intros (Hi & Hf & Hlt). destruct (proj2 Hs) as [n Hin]; [by right|]. exists (field, n). split; [done|].
      rewrite Hin in Hn. cbn in Hn. apply list_elem_of_filter. rewrite map_range_perm, elem_of_map_to_list.
      split; [|done]. cbn. rewrite bool_decide_false by done. cbn. lia.
Qed.
End plans.
