(* ===== verification/FloatDiv.v ===== *)
(** * Division of doubles is monotone

    The quotient of a double by a positive double, rounded to the nearest even
    double, and the whole part of that: what a grid of cells of a fixed size does
    with a coordinate. Exact values are compared as integers over a common
    denominator: the quotient of significands [n] and [d], scaled by a power of two
    below every exponent involved. *)
From Stdlib Require Import ZArith Lia.
From stdpp Require Import base numbers.
From S2P Require Import Prelude Float32 Heap Hnsw Distance HnswQuery.
From Stdlib Require Import Floats.SpecFloat.

#[local] Open Scope Z_scope.

(** ** Rounding a fraction to the nearest integer, ties to even *)
Definition rne (n d : Z) : Z :=
  let q := n / d in
  match 2 * (n mod d) ?= d with
  | Lt => q
  | Gt => q + 1
  | Eq => if Z.even q then q else q + 1
  end.

Lemma rne_floor n d : 0 < d → n / d ≤ rne n d ≤ n / d + 1.
Proof. intros Hd. unfold rne. case_match; try case_match; lia. Qed.

Lemma rne_mono n n' d : 0 < d → n ≤ n' → rne n d ≤ rne n' d.
Proof.
  intros Hd Hn. pose proof (rne_floor n d Hd). pose proof (rne_floor n' d Hd).
  pose proof (Z.div_le_mono n n' d Hd Hn) as Hq.
  destruct (decide (n / d = n' / d)) as [Heq|]; [|lia].
  assert (n mod d ≤ n' mod d) as Hr by (rewrite !Z.mod_eq by lia; rewrite Heq; lia).
  unfold rne. rewrite Heq. set (q := n' / d).
  destruct (Z.compare_spec (2 * (n mod d)) d), (Z.compare_spec (2 * (n' mod d)) d); try destruct (Z.even q); lia.
Qed.

Lemma rne_exact k d : 0 < d → rne (k * d) d = k.
Proof.
  intros Hd. unfold rne. rewrite Z.mod_mul, Z.div_mul by lia. by destruct (Z.compare_spec (2 * 0) d); [lia..|lia].
Qed.

Lemma rne_scale n d c : 0 < d → 0 < c → rne (n * c) (d * c) = rne n d.
Proof.
  intros Hd Hc. unfold rne. rewrite Z.div_mul_cancel_r, Z.mul_mod_distr_r by lia.
  replace (2 * (n mod d * c)) with (2 * (n mod d) * c) by lia. by rewrite <- Zmult_compare_compat_r by lia.
Qed.

(** ** What a shift record says of a fraction *)
Definition denotes (r : shr_record) (n d : Z) : Prop :=
  shr_m r = n / d ∧ shr_r r = (d <=? 2 * (n mod d)) ∧
  shr_s r = negb (2 * (n mod d) =? 0) && negb (2 * (n mod d) =? d).

Lemma denotes_round r n d : 0 < d → denotes r n d → round_nearest_even (shr_m r) (loc_of_shr_record r) = rne n d.
Proof.
  intros Hd (Hm & Hr & Hs). destruct r as [m b s]. cbn [shr_m shr_r shr_s] in *. subst m. unfold rne.
  pose proof (Z.mod_pos_bound n d Hd) as Hb.
  destruct (Z.compare_spec (2 * (n mod d)) d) as [He|Hl|Hg].
  - rewrite (proj2 (Z.leb_le _ _)) in Hr by lia. rewrite (proj2 (Z.eqb_eq _ d)) in Hs by lia.
    rewrite andb_false_r in Hs. by subst.
  - rewrite (proj2 (Z.leb_gt _ _)) in Hr by lia. subst b. by destruct s.
  - rewrite (proj2 (Z.leb_le _ _)) in Hr by lia.
    rewrite (proj2 (Z.eqb_neq _ 0)), (proj2 (Z.eqb_neq _ d)) in Hs by lia. by subst.
Qed.

(** One step of [shr_1] on a significand that is not negative *)
Lemma shr_1_halves r : 0 ≤ shr_m r →
  shr_m (shr_1 r) = shr_m r / 2 ∧ shr_r (shr_1 r) = Z.odd (shr_m r) ∧ shr_s (shr_1 r) = shr_r r || shr_s r.
Proof.
  destruct r as [[|[p|p|]|p] b s]; cbn [shr_m shr_r shr_s shr_1 Z.odd]; intros Hp; try lia; split_and!; try done.
  - rewrite Pos2Z.inj_xI, Z.add_comm, Z.mul_comm, Z.div_add by lia. done.
  - rewrite Pos2Z.inj_xO, Z.mul_comm, Z.div_mul by lia. done.
Qed.

Lemma denotes_shr_1 r n d : 0 ≤ n → 0 < d → denotes r n d → denotes (shr_1 r) n (d * 2).
Proof.
  intros Hn Hd (Hm & Hr & Hs). pose proof (Z.div_pos n d Hn Hd) as Hq. pose proof (Z.mod_pos_bound n d Hd) as Hb.
  destruct (shr_1_halves r) as (Hm' & Hr' & Hs'); [lia|]. unfold denotes. rewrite Hm', Hr', Hs', Hm, Hr, Hs.
  assert (n mod (d * 2) = d * ((n / d) mod 2) + n mod d) as Hmod.
  { rewrite Z.rem_mul_r by lia. lia. }
  rewrite Hmod, Z.div_div by lia. rewrite (Zmod_odd (n / d)). split; [done|].
  destruct (Z.odd (n / d)).
  - split; [symmetry; apply Z.leb_le; lia|].
    rewrite (proj2 (Z.eqb_neq (2 * (d * 1 + n mod d)) 0)) by lia. cbn [negb andb].
    destruct (Z.leb_spec d (2 * (n mod d))), (Z.eqb_spec (2 * (n mod d)) 0), (Z.eqb_spec (2 * (n mod d)) d),
      (Z.eqb_spec (2 * (d * 1 + n mod d)) (d * 2)); try done; lia.
  - split; [symmetry; apply Z.leb_gt; lia|].
    destruct (Z.leb_spec d (2 * (n mod d))), (Z.eqb_spec (2 * (n mod d)) 0), (Z.eqb_spec (2 * (n mod d)) d),
      (Z.eqb_spec (2 * (d * 0 + n mod d)) 0), (Z.eqb_spec (2 * (d * 0 + n mod d)) (d * 2)); try done; lia.
Qed.

Lemma pow_xO p : 2 ^ Zpos p~0 = 2 ^ Zpos p * 2 ^ Zpos p.
Proof. rewrite <- Z.pow_add_r by lia. f_equal. lia. Qed.
Lemma pow_xI p : 2 ^ Zpos p~1 = 2 * 2 ^ Zpos p * 2 ^ Zpos p.
Proof. rewrite <- Z.mul_assoc, <- Z.pow_add_r, <- Z.pow_succ_r by lia. f_equal. lia. Qed.

Lemma denotes_shift r n d p : 0 ≤ n → 0 < d → denotes r n d → denotes (iter_pos shr_1 p r) n (d * 2 ^ Zpos p).
Proof.
  intros Hn. revert r d. induction p as [p IH|p IH|]; intros r d Hd Hr; cbn [iter_pos].
  - rewrite pow_xI, !Z.mul_assoc. apply IH; [nia|]. apply IH; [lia|]. by apply denotes_shr_1.
  - rewrite pow_xO, Z.mul_assoc. apply IH; [nia|]. by apply IH.
  - by apply denotes_shr_1.
Qed.

(** The remainder of a division as a location *)
Lemma denotes_division n d : 0 ≤ n → 0 < d → denotes (shr_record_of_loc (n / d) (new_location d (n mod d))) n d.
Proof.
  intros Hn Hd. pose proof (Z.mod_pos_bound n d Hd) as Hb. unfold denotes.
  unfold new_location, new_location_even, new_location_odd.
  destruct (n mod d) as [|r|r]; [|clear Hn; set (q := n / d)|lia].
  { destruct (Z.even d); cbn; split_and!; try done; symmetry; apply Z.leb_gt; lia. }
  rewrite (proj2 (Z.eqb_neq (2 * Zpos r) 0)) by lia. destruct (Z.even d) eqn:He; change (IntDef.Z.eqb (Zpos r) 0) with false; cbv iota.
  - destruct (Z.compare_spec (2 * Zpos r) d) as [Hc|Hc|Hc]; cbn [shr_record_of_loc shr_m shr_r shr_s negb andb];
      split_and!; try done; symmetry; first [by apply Z.leb_le; lia|by apply Z.leb_gt; lia|idtac].
    + by rewrite (proj2 (Z.eqb_eq _ _) Hc).
    + by rewrite (proj2 (Z.eqb_neq _ _)) by lia.
    + by rewrite (proj2 (Z.eqb_neq _ _)) by lia.
  - assert (2 * Zpos r ≠ d) as Hodd by (intros <-; by rewrite Z.even_mul in He).
    rewrite (proj2 (Z.eqb_neq _ _) Hodd).
    destruct (Z.compare_spec (2 * Zpos r + 1) d) as [Hc|Hc|Hc]; cbn [shr_record_of_loc shr_m shr_r shr_s negb andb];
      split_and!; try done; symmetry; first [by apply Z.leb_le; lia|by apply Z.leb_gt; lia].
Qed.

(** ** The whole part of a rounded quotient *)
Definition trunc (m e : Z) : Z := if 0 <=? e then m * 2 ^ e else m / 2 ^ (- e).
(** Go's conversion to an int of a value of this sign and whole part *)
Definition clamp (s : bool) (t : Z) : Z :=
  let z := if s then - t else t in if (MinInt64 <=? z) && (z <=? MaxInt64) then z else MinInt64.

Lemma int_of_finite s m e : int_of_f64 (S754_finite s m e) = clamp s (trunc (Zpos m) e).
Proof. done. Qed.

Lemma clamp_zero s : clamp s 0 = 0.
Proof. by destruct s. Qed.
Lemma clamp_large s t : MaxInt64 + 1 < t → clamp s t = MinInt64.
Proof.
  intros Ht. unfold clamp. destruct s; cbn zeta.
  - rewrite (proj2 (Z.leb_gt _ _)); [done|]. unfold MinInt64, MaxInt64 in *. lia.
  - rewrite (proj2 (Z.leb_gt t _)) by lia. by rewrite andb_false_r.
Qed.

Lemma fexp_max e : fexp 53 1024 e = Z.max (e - 53) (-1074).
Proof. done. Qed.

Lemma Zdigits2_upper q : 0 ≤ q → q < 2 ^ Zdigits2 q.
Proof.
  intros Hq. destruct q as [|p|p]; [done| |lia]. cbn [Zdigits2]. rewrite digits2_pos_log2.
  rewrite Z.add_1_r. apply Z.log2_spec. lia.
Qed.
Lemma Zdigits2_lower q : 0 < q → 2 ^ (Zdigits2 q - 1) ≤ q.
Proof.
  intros Hq. destruct q as [|p|p]; [lia| |lia]. cbn [Zdigits2]. rewrite digits2_pos_log2.
  rewrite Z.add_simpl_r. apply Z.log2_spec. lia.
Qed.
Lemma Zdigits2_le q k : 0 ≤ k → 0 ≤ q < 2 ^ k → Zdigits2 q ≤ k.
Proof.
  intros Hk [Hq Hlt]. destruct (decide (q = 0)) as [->|]; [done|].
  pose proof (Zdigits2_lower q ltac:(lia)) as Hl.
  assert (Zdigits2 q - 1 < k); [|lia]. apply (Z.pow_lt_mono_r_iff 2); lia.
Qed.

(** The first shift brings the fraction to the exponent of its binade. *)
Lemma shr_fexp_denotes q e l n d :
  0 ≤ n → 0 < d → denotes (shr_record_of_loc q l) n d →
  let E := fexp 53 1024 (Zdigits2 q + e) in e ≤ E →
  ∃ r, shr_fexp 53 1024 q e l = (r, E) ∧ denotes r n (d * 2 ^ (E - e)).
Proof.
  intros Hn Hd Hr E HE. unfold shr_fexp. fold E. unfold shr. destruct (E - e) as [|p|p] eqn:Hp; [| |lia].
  - eexists. rewrite Z.mul_1_r. split; [f_equal; lia|done].
  - eexists. split; [f_equal; lia|]. by apply denotes_shift.
Qed.

(** The second one, after rounding, moves only a significand that rounding made
    one bit too long. *)
Lemma shr_fexp_rounded m e :
  0 ≤ m ≤ 2 ^ 53 → -1074 ≤ e →
  shr_fexp 53 1024 m e loc_Exact
  = if m =? 2 ^ 53 then (Build_shr_record (2 ^ 52) false false, e + 1) else (Build_shr_record m false false, e).
Proof.
  intros Hm He. unfold shr_fexp. rewrite fexp_max. destruct (Z.eqb_spec m (2 ^ 53)) as [->|Hne].
  - change (Zdigits2 (2 ^ 53)) with 54. replace (Z.max (54 + e - 53) (-1074) - e) with 1 by lia. done.
  - pose proof (Zdigits2_le m 53 ltac:(lia) ltac:(lia)) as Hd.
    unfold shr. destruct (Z.max (Zdigits2 m + e - 53) (-1074) - e) as [|p|p] eqn:Hp; [done|lia|done].
Qed.

Lemma trunc_large m e : 0 < m → 971 ≤ e → MaxInt64 + 1 < trunc m e.
Proof.
  intros Hm He. unfold trunc. rewrite (proj2 (Z.leb_le _ _)) by lia.
  assert (2 ^ 971 ≤ 2 ^ e) by (apply Z.pow_le_mono_r; lia).
  assert (MaxInt64 + 1 < 2 ^ 971) by done. nia.
Qed.

Lemma rounded_bound q e n d :
  0 ≤ n → 0 < d → q = n / d → let E := fexp 53 1024 (Zdigits2 q + e) in e ≤ E → n < d * 2 ^ (E - e) * 2 ^ 53.
Proof.
  intros Hn Hd -> E HE. pose proof (Z.div_pos n d Hn Hd) as Hq. pose proof (Zdigits2_upper _ Hq) as Hu.
  assert (Zdigits2 (n / d) ≤ E - e + 53) as Hb by (unfold E in *; rewrite fexp_max in *; lia).
  assert (n / d < 2 ^ (E - e + 53)) as Hlt by (eapply Z.lt_le_trans; [exact Hu|]; apply Z.pow_le_mono_r; lia).
  rewrite Z.pow_add_r in Hlt by lia. pose proof (Z.mul_succ_div_gt n d Hd). nia.
Qed.

(** Rounding, then the conversion to an int *)
Lemma round_aux_trunc s q e l n d :
  0 ≤ n → 0 < d → q = n / d → denotes (shr_record_of_loc q l) n d →
  let E := fexp 53 1024 (Zdigits2 q + e) in e ≤ E →
  int_of_f64 (binary_round_aux 53 1024 s q e l) = clamp s (trunc (rne n (d * 2 ^ (E - e))) E).
Proof.
  intros Hn Hd Hq Hr E HE. unfold binary_round_aux.
  destruct (shr_fexp_denotes q e l n d) as (r & Hs & Hr'); [done..|]. fold E in Hs, Hr'. rewrite Hs.
  assert (0 < d * 2 ^ (E - e)) as Hd' by (apply Z.mul_pos_pos; [lia|apply Z.pow_pos_nonneg; lia]).
  rewrite (denotes_round r n _ Hd' Hr'). set (m := rne n (d * 2 ^ (E - e))).
  assert (0 ≤ m ≤ 2 ^ 53) as Hm.
  { split.
    - unfold m. rewrite <- (rne_exact 0 (d * 2 ^ (E - e))) by lia. apply rne_mono; lia.
    - unfold m. rewrite <- (rne_exact (2 ^ 53) (d * 2 ^ (E - e))) by lia. apply rne_mono; [lia|].
      pose proof (rounded_bound q e n d Hn Hd Hq HE) as Hb. cbv zeta in Hb. fold E in Hb. lia. }
  assert (-1074 ≤ E) as HE' by (unfold E; rewrite fexp_max; lia).
  rewrite shr_fexp_rounded by lia. destruct (Z.eqb_spec m (2 ^ 53)) as [->|Hne]; cbn [shr_m].
  - change (2 ^ 52) with (Zpos (2 ^ 52)). change (1024 - 53) with 971. cbv iota.
    destruct (Z.leb_spec (E + 1) 971).
    + rewrite int_of_finite. f_equal. change (Zpos (2 ^ 52)) with (2 ^ 52). unfold trunc.
      destruct (Z.leb_spec 0 E), (Z.leb_spec 0 (E + 1)); try lia.
      * rewrite <- !Z.pow_add_r by lia. f_equal. lia.
      * assert (E = -1) as -> by lia. done.
      * replace (- E) with (1 + - (E + 1)) by lia. rewrite (Z.pow_add_r 2 1) by lia.
        change (2 ^ 53) with (2 ^ 1 * 2 ^ 52). rewrite Z.div_mul_cancel_l; [done|apply Z.pow_nonzero; lia|done].
    + symmetry. apply clamp_large. apply trunc_large; lia.
  - destruct m as [|p|p]; [|change (1024 - 53) with 971|lia].
    + assert (trunc 0 E = 0) as ->; [|by rewrite clamp_zero].
      unfold trunc. destruct (Z.leb_spec 0 E); [lia|]. apply Z.div_0_l, Z.pow_nonzero; lia.
    + destruct (Z.leb_spec E 971); [done|]. symmetry. apply clamp_large. apply trunc_large; lia.
Qed.

(** ** Quotients over a common scale

    [m] and [e] are the rounding of [n * 2 ^ l / d]. *)
Definition rounded (d l n m e : Z) : Prop :=
  -1074 ≤ e ∧ l ≤ e ∧ m = rne n (d * 2 ^ (e - l)) ∧ n < d * 2 ^ (e + 53 - l) ∧
  (e = -1074 ∨ d * 2 ^ (e + 52 - l) ≤ n).

Lemma rounded_mono d l n1 m1 e1 n2 m2 e2 :
  0 < d → n1 ≤ n2 → rounded d l n1 m1 e1 → rounded d l n2 m2 e2 → m1 * 2 ^ (e1 - l) ≤ m2 * 2 ^ (e2 - l).
Proof.
  intros Hd Hn (He1 & Hl1 & -> & Hu1 & Hlow1) (He2 & Hl2 & -> & Hu2 & Hlow2).
  assert (0 < 2 ^ (e1 - l) ∧ 0 < 2 ^ (e2 - l)) as [Hp1 Hp2] by (split; apply Z.pow_pos_nonneg; lia).
  destruct (Z.lt_trichotomy e1 e2) as [He|[->|He]].
  - destruct Hlow2 as [->|Hlow2]; [lia|].
    assert (2 ^ 52 ≤ rne n2 (d * 2 ^ (e2 - l))) as H2.
    { rewrite <- (rne_exact (2 ^ 52) (d * 2 ^ (e2 - l))) by nia. apply rne_mono; [nia|].
      replace (e2 + 52 - l) with (52 + (e2 - l)) in Hlow2 by lia. rewrite Z.pow_add_r in Hlow2 by lia. nia. }
    assert (rne n1 (d * 2 ^ (e1 - l)) ≤ 2 ^ 53) as H1.
    { rewrite <- (rne_exact (2 ^ 53) (d * 2 ^ (e1 - l))) by nia. apply rne_mono; [nia|].
      replace (e1 + 53 - l) with (53 + (e1 - l)) in Hu1 by lia. rewrite Z.pow_add_r in Hu1 by lia. nia. }
    transitivity (2 ^ 53 * 2 ^ (e1 - l)); [nia|]. transitivity (2 ^ 52 * 2 ^ (e2 - l)); [|nia].
    rewrite <- !Z.pow_add_r by lia. apply Z.pow_le_mono_r; lia.
  - apply Z.mul_le_mono_nonneg_r; [lia|]. apply rne_mono; [nia|done].
  - exfalso. destruct Hlow1 as [->|Hlow1]; [lia|].
    assert (2 ^ (e2 + 53 - l) ≤ 2 ^ (e1 + 52 - l)) by (apply Z.pow_le_mono_r; lia). nia.
Qed.

(** The whole part over the scale *)
Lemma trunc_scale m e l : l ≤ e → l ≤ 0 → trunc m e = m * 2 ^ (e - l) / 2 ^ (- l).
Proof.
  intros Hl Hl0. unfold trunc. destruct (Z.leb_spec 0 e).
  - replace (e - l) with (e + - l) by lia. rewrite Z.pow_add_r, Z.mul_assoc, Z.div_mul by (try apply Z.pow_nonzero; lia). done.
  - replace (- l) with (- e + (e - l)) by lia. rewrite Z.pow_add_r by lia.
    by rewrite Z.div_mul_cancel_r by (apply Z.pow_nonzero; lia).
Qed.

Lemma trunc_mono d l n1 m1 e1 n2 m2 e2 :
  0 < d → l ≤ 0 → n1 ≤ n2 → rounded d l n1 m1 e1 → rounded d l n2 m2 e2 → trunc m1 e1 ≤ trunc m2 e2.
Proof.
  intros Hd Hl Hn H1 H2. pose proof (rounded_mono _ _ _ _ _ _ _ _ Hd Hn H1 H2) as Hm.
  destruct H1 as (_ & Hl1 & _), H2 as (_ & Hl2 & _). rewrite !(trunc_scale _ _ l) by done.
  apply Z.div_le_mono; [apply Z.pow_pos_nonneg; lia|done].
Qed.

Definition f64_div : f64 → f64 → f64 := SFdiv 53 1024.

(** The quotient of two doubles and its whole part *)
Lemma div_rounded s mx ex my ey :
  ∃ l0, l0 ≤ 0 ∧ ∀ l, l ≤ l0 → l ≤ ex - ey ∧ ∃ m e, rounded (Zpos my) l (Zpos mx * 2 ^ (ex - ey - l)) m e ∧ 0 ≤ m ∧
    int_of_f64 (f64_div (S754_finite s mx ex) (S754_finite false my ey)) = clamp s (trunc m e).
Proof.
  unfold f64_div, SFdiv, SFdiv_core_binary. rewrite xorb_false_r.
  set (D := Zdigits2 (Zpos mx) + ex - (Zdigits2 (Zpos my) + ey)).
  set (e' := Z.min (fexp 53 1024 D) (ex - ey)). set (sh := ex - ey - e').
  assert (0 ≤ sh) as Hsh by lia.
  assert (match sh with 0 => Zpos mx | Zpos _ => Z.shiftl (Zpos mx) sh | Zneg _ => 0 end = Zpos mx * 2 ^ sh) as ->.
  { destruct sh as [|p|p]; [lia|by rewrite Z.shiftl_mul_pow2 by lia|lia]. }
  set (n := Zpos mx * 2 ^ sh). assert (0 ≤ n) as Hn by (apply Z.mul_nonneg_nonneg; [lia|apply Z.pow_nonneg; lia]).
  assert (Z.div_eucl n (Zpos my) = (n / Zpos my, n mod Zpos my)) as ->.
  { unfold Z.div, Z.modulo. by destruct (Z.div_eucl n (Zpos my)). }
  set (q := n / Zpos my). set (E := fexp 53 1024 (Zdigits2 q + e')).
  (* the binade of the quotient is not below the estimate from the digits *)
  pose proof (Z.div_pos n (Zpos my) Hn ltac:(lia)) as Hq. fold q in Hq.
  assert (n < Zpos my * 2 ^ Zdigits2 q) as Hub.
  { pose proof (Zdigits2_upper q Hq). pose proof (Z.mul_succ_div_gt n (Zpos my) ltac:(lia)). fold q in H0. nia. }
  assert (D ≤ Zdigits2 q + e') as HD.
  { pose proof (Zdigits2_lower (Zpos mx) ltac:(lia)) as Hlx. pose proof (Zdigits2_upper (Zpos my) ltac:(lia)) as Huy.
    assert (0 ≤ Zdigits2 q) by (destruct q; [done|cbn; lia|lia]).
    assert (2 ^ (Zdigits2 (Zpos mx) - 1 + sh) < 2 ^ (Zdigits2 (Zpos my) + Zdigits2 q)) as Hlt.
    { assert (0 < Zdigits2 (Zpos mx) ∧ 0 < Zdigits2 (Zpos my)) as [? ?] by (cbn; lia).
      rewrite !Z.pow_add_r by lia. assert (0 < 2 ^ sh) by (apply Z.pow_pos_nonneg; lia).
      assert (0 < 2 ^ Zdigits2 q) by (apply Z.pow_pos_nonneg; lia). unfold n in Hub. nia. }
    apply Z.pow_lt_mono_r_iff in Hlt; [|lia|cbn; lia]. unfold D. lia. }
  assert (e' ≤ E) as HE by (unfold E, e' in *; rewrite !fexp_max in *; lia).
  exists (Z.min e' 0). split; [lia|]. intros l Hl. split; [lia|].
  exists (rne n (Zpos my * 2 ^ (E - e'))), E.
  assert (0 < Zpos my * 2 ^ (E - e')) as Hpos by (apply Z.mul_pos_pos; [lia|apply Z.pow_pos_nonneg; lia]).
  split_and!.
  - assert (Zpos mx * 2 ^ (ex - ey - l) = n * 2 ^ (e' - l)) as ->.
    { unfold n. rewrite <- Z.mul_assoc, <- Z.pow_add_r by lia. do 2 f_equal. lia. }
    assert (0 < 2 ^ (e' - l)) as Hc by (apply Z.pow_pos_nonneg; lia).
    split_and!.
    + unfold E. rewrite fexp_max. lia.
    + lia.
    + rewrite <- (rne_scale n (Zpos my * 2 ^ (E - e')) (2 ^ (e' - l))) by lia. f_equal.
      rewrite <- Z.mul_assoc, <- Z.pow_add_r by lia. do 2 f_equal. lia.
    + replace (E + 53 - l) with (E + 53 - e' + (e' - l)) by lia. rewrite Z.pow_add_r by lia.
      assert (2 ^ Zdigits2 q ≤ 2 ^ (E + 53 - e')) by (apply Z.pow_le_mono_r; unfold E in *; rewrite ?fexp_max in *; lia).
      rewrite Z.mul_assoc. apply Z.mul_lt_mono_pos_r; [done|]. eapply Z.lt_le_trans; [exact Hub|].
      apply Z.mul_le_mono_nonneg_l; lia.
    + destruct (decide (E = -1074)) as [|HE1]; [by left|right].
      assert (E = Zdigits2 q + e' - 53) as HE2 by (unfold E in *; rewrite fexp_max in *; lia).
      assert (0 < q) as Hq0.
      { destruct (decide (q = 0)) as [Hq0|]; [|lia]. rewrite Hq0 in HD, HE2. cbn in HD, HE2.
        unfold e' in HD. rewrite fexp_max in HD. lia. }
      pose proof (Zdigits2_lower q Hq0) as Hlow. pose proof (Z.mul_div_le n (Zpos my) ltac:(lia)) as Hle. fold q in Hle.
      replace (E + 52 - l) with (Zdigits2 q - 1 + (e' - l)) by lia.
      assert (0 < Zdigits2 q) by (destruct q; [lia|cbn; lia|lia]). rewrite Z.pow_add_r, Z.mul_assoc by lia.
      apply Z.mul_le_mono_pos_r; [done|]. transitivity (Zpos my * q); [|done]. apply Z.mul_le_mono_nonneg_l; lia.
  - rewrite <- (rne_exact 0 (Zpos my * 2 ^ (E - e'))) by lia. by apply rne_mono.
  - apply round_aux_trunc; [done|lia|done|by apply denotes_division|done].
Qed.

(** ** The cell of a coordinate *)
Definition cell_of (size x : f64) : Z := int_of_f64 (f64_div x size).
Definition valid64 (x : f64) : Prop := valid_binary 53 1024 x = true.

Lemma valid64_finite s m e : valid64 (S754_finite s m e) →
  Zpos m < 2 ^ 53 ∧ -1074 ≤ e ∧ (e = -1074 ∨ 2 ^ 52 ≤ Zpos m).
Proof.
  unfold valid64, valid_binary, bounded, canonical_mantissa. rewrite andb_true_iff, Z.eqb_eq, fexp_max.
  change (Zpos (digits2_pos m)) with (Zdigits2 (Zpos m)). intros [He _].
  pose proof (Zdigits2_upper (Zpos m) ltac:(lia)) as Hu. pose proof (Zdigits2_lower (Zpos m) ltac:(lia)) as Hl.
  assert (Zdigits2 (Zpos m) ≤ 53) as Hd by lia. split_and!; [|lia|].
  - eapply Z.lt_le_trans; [exact Hu|]. apply Z.pow_le_mono_r; lia.
  - destruct (decide (e = -1074)); [by left|right]. by replace (Zdigits2 (Zpos m) - 1) with 52 in Hl by lia.
Qed.

(** The order of valid doubles is that of the numbers they stand for. *)
Definition magnitude_le (m1 : positive) (e1 : Z) (m2 : positive) (e2 : Z) : bool :=
  SFleb (S754_finite false m1 e1) (S754_finite false m2 e2).

Lemma magnitude_le_scaled m1 e1 m2 e2 l :
  valid64 (S754_finite false m1 e1) → valid64 (S754_finite false m2 e2) → magnitude_le m1 e1 m2 e2 = true →
  l ≤ e1 → l ≤ e2 → Zpos m1 * 2 ^ (e1 - l) ≤ Zpos m2 * 2 ^ (e2 - l).
Proof.
  intros (Hm1 & He1 & _)%valid64_finite (Hm2 & He2 & Hn2)%valid64_finite Hle Hl1 Hl2.
  unfold magnitude_le, SFleb in Hle. cbn [SFcompare] in Hle.
  destruct (Z.compare_spec e1 e2) as [->|He|He]; [|clear Hle|done].
  - apply Z.mul_le_mono_nonneg_r; [apply Z.pow_nonneg; lia|].
    change (Pos.compare_cont Eq m1 m2) with (Pos.compare m1 m2) in Hle.
    destruct (Pos.compare_spec m1 m2); [subst; lia|lia|done].
  - destruct Hn2 as [->|Hn2]; [lia|]. transitivity (2 ^ 53 * 2 ^ (e1 - l)).
    { apply Z.mul_le_mono_nonneg_r; [apply Z.pow_nonneg; lia|lia]. }
    transitivity (2 ^ 52 * 2 ^ (e2 - l)); [|apply Z.mul_le_mono_nonneg_r; [apply Z.pow_nonneg; lia|done]].
    rewrite <- !Z.pow_add_r by lia. apply Z.pow_le_mono_r; lia.
Qed.

(** Quotients of one divisor keep the order of their magnitudes. *)
Lemma quotients_ordered m1 e1 m2 e2 my ey :
  valid64 (S754_finite false m1 e1) → valid64 (S754_finite false m2 e2) → magnitude_le m1 e1 m2 e2 = true →
  ∃ t1 t2, 0 ≤ t1 ≤ t2 ∧
    (∀ s, cell_of (S754_finite false my ey) (S754_finite s m1 e1) = clamp s t1) ∧
    (∀ s, cell_of (S754_finite false my ey) (S754_finite s m2 e2) = clamp s t2).
Proof.
  intros Hv1 Hv2 Hle. unfold cell_of.
  assert (∀ m e, ∃ l0, l0 ≤ 0 ∧ ∀ l, l ≤ l0 → l ≤ e - ey ∧ ∃ mm ee, rounded (Zpos my) l (Zpos m * 2 ^ (e - ey - l)) mm ee ∧
    0 ≤ mm ∧ ∀ s, int_of_f64 (f64_div (S754_finite s m e) (S754_finite false my ey)) = clamp s (trunc mm ee)) as Hq.
  { intros m e. destruct (div_rounded false m e my ey) as (l0 & Hl0 & Hf), (div_rounded true m e my ey) as (l1 & Hl1 & Ht).
    exists (Z.min l0 l1). split; [lia|]. intros l Hl. destruct (Hf l) as (Hle0 & mm & ee & Hr & Hm & Hi); [lia|].
    destruct (Ht l) as (_ & mm' & ee' & Hr' & Hm' & Hi'); [lia|]. split; [done|]. exists mm, ee. split_and!; [done..|].
    intros [|]; [|done]. rewrite Hi'. f_equal. apply Z.le_antisymm;
      apply (trunc_mono (Zpos my) l (Zpos m * 2 ^ (e - ey - l)) _ _ (Zpos m * 2 ^ (e - ey - l))); (done || lia). }
  destruct (Hq m1 e1) as (l1 & Hl1 & H1), (Hq m2 e2) as (l2 & Hl2 & H2).
  destruct (H1 (Z.min l1 l2)) as (Hle1 & mm1 & ee1 & Hr1 & Hm1 & Hi1); [lia|].
  destruct (H2 (Z.min l1 l2)) as (Hle2 & mm2 & ee2 & Hr2 & Hm2 & Hi2); [lia|].
  exists (trunc mm1 ee1), (trunc mm2 ee2). split_and!; [| |done|done].
  - unfold trunc. case_match; [apply Z.mul_nonneg_nonneg; [done|apply Z.pow_nonneg; lia]|].
    apply Z.div_pos; [done|apply Z.pow_pos_nonneg; lia].
  - apply (trunc_mono (Zpos my) (Z.min l1 l2) (Zpos m1 * 2 ^ (e1 - ey - Z.min l1 l2)) _ _
      (Zpos m2 * 2 ^ (e2 - ey - Z.min l1 l2))); [lia|lia| |done|done].
    pose proof (magnitude_le_scaled m1 e1 m2 e2 (ey + Z.min l1 l2) Hv1 Hv2 Hle ltac:(lia) ltac:(lia)) as H.
    by replace (e1 - ey - Z.min l1 l2) with (e1 - (ey + Z.min l1 l2)) by lia;
      replace (e2 - ey - Z.min l1 l2) with (e2 - (ey + Z.min l1 l2)) by lia.
Qed.

Lemma SFleb_negative m1 e1 m2 e2 :
  SFleb (S754_finite true m1 e1) (S754_finite true m2 e2) = magnitude_le m2 e2 m1 e1.
Proof.
  unfold magnitude_le, SFleb. cbn [SFcompare]. rewrite (Z.compare_antisym e1 e2).
  destruct (Z.compare_spec e1 e2); try done. cbn [CompOpp].
  change (Pos.compare_cont Eq m2 m1) with (Pos.compare m2 m1). by rewrite (Pos.compare_antisym m1 m2).
Qed.

Lemma clamp_in s t : clamp s t ≠ MinInt64 → clamp s t = if s then - t else t.
Proof. unfold clamp. by case_match. Qed.

(** Cells keep the order of coordinates, as long as neither leaves the int range. *)
Lemma cell_of_mono my ey x1 x2 :
  let size := S754_finite false my ey in
  valid64 x1 → valid64 x2 → SFleb x1 x2 = true → cell_of size x1 ≠ MinInt64 → cell_of size x2 ≠ MinInt64 →
  cell_of size x1 ≤ cell_of size x2.
Proof.
  intros size Hv1 Hv2 Hle Hc1 Hc2.
  assert (∀ s m e, valid64 (S754_finite s m e) → cell_of size (S754_finite s m e) ≠ MinInt64 →
    ∃ t, 0 ≤ t ∧ cell_of size (S754_finite s m e) = if s then - t else t) as Hsign.
  { intros s m e Hv Hc. destruct (quotients_ordered m e m e my ey) as (t & _ & [Ht _] & H1 & _); [done..| |].
    - unfold magnitude_le, SFleb. cbn [SFcompare]. rewrite Z.compare_refl.
      change (Pos.compare_cont Eq m m) with (Pos.compare m m). by rewrite Pos.compare_refl.
    - exists t. split; [done|]. unfold size in *. rewrite H1 in *. by apply clamp_in. }
  destruct x1 as [s1|s1| |s1 m1 e1], x2 as [s2|s2| |s2 m2 e2]; try done.
  - destruct (Hsign _ _ _ Hv2 Hc2) as (t & Ht & ->). destruct s2; [done|]. done.
  - destruct (Hsign _ _ _ Hv1 Hc1) as (t & Ht & ->). destruct s1; [|done].
    change (cell_of size (S754_zero s2)) with 0. lia.
  - destruct s1, s2; try done.
    + destruct (quotients_ordered m2 e2 m1 e1 my ey) as (t2 & t1 & Ht & H2 & H1); [done..| |].
      { by rewrite <- SFleb_negative. }
      unfold size in *. rewrite (H1 true), (H2 true) in *. rewrite !clamp_in by done. lia.
    + destruct (Hsign _ _ _ Hv1 Hc1) as (t1 & Ht1 & ->), (Hsign _ _ _ Hv2 Hc2) as (t2 & Ht2 & ->). lia.
    + destruct (quotients_ordered m1 e1 m2 e2 my ey) as (t1 & t2 & Ht & H1 & H2); [done..|].
      unfold size in *. rewrite (H1 false), (H2 false) in *. rewrite !clamp_in by done. lia.
Qed.

(** A coordinate within a bound has its cell within the cell of the bound. *)
Lemma cell_of_bound my ey mb eb x :
  let size := S754_finite false my ey in let t := cell_of size (S754_finite false mb eb) in
  0 ≤ t → valid64 (S754_finite false mb eb) → valid64 x →
  SFleb (S754_finite true mb eb) x = true → SFleb x (S754_finite false mb eb) = true →
  - t ≤ cell_of size x ≤ t.
Proof.
  intros size t Ht Hvb Hv Hlo Hhi. destruct x as [s|s| |s m e]; [|by destruct s|done|].
  { change (cell_of size (S754_zero s)) with 0. lia. }
  assert (magnitude_le m e mb eb = true) as Hm by (destruct s; [by rewrite <- SFleb_negative|done]).
  destruct (quotients_ordered m e mb eb my ey) as (u1 & u2 & Hu & H1 & H2); [done..|].
  assert (t = u2) as Ht2.
  { unfold t, size. rewrite H2. apply (clamp_in false). rewrite <- H2. fold size. fold t. unfold MinInt64. lia. }
  assert (u2 ≤ MaxInt64) as Hmax.
  { unfold t, size in Ht, Ht2. rewrite H2 in Ht2. unfold clamp in Ht2. case_match eqn:Hc.
    - apply andb_true_iff in Hc as [_ Hc%Z.leb_le]. done.
    - rewrite <- Ht2. done. }
  unfold size. rewrite H1. unfold clamp. rewrite (proj2 (Z.leb_le _ _)), (proj2 (Z.leb_le _ MaxInt64)).
  - destruct s; cbn [andb]; lia.
  - destruct s; lia.
  - destruct s; unfold MinInt64, MaxInt64 in *; lia.
Qed.
