(* ===== verification/Geo.v ===== *)
(** * pkg/index/geo/geo.go: the spatial index

    Points on the globe, boxes, polygons and circles, an index of points by the
    cells of a grid, and geohashes. The trigonometric functions of the math package
    are a parameter; everything else is computed in double precision. Reading a
    point from JSON text is left out. *)
From Stdlib Require Import ZArith Lia Strings.Ascii Strings.String.
From stdpp Require Import base gmap strings list fin_maps numbers.
From S2P Require Import Prelude GoLoops Float32 Heap Hnsw Distance HnswQuery FloatDiv.
From Stdlib Require Import Floats.SpecFloat.
From stdpp Require Import list.

#[local] Open Scope Z_scope.

Definition f64_add : f64 → f64 → f64 := SFadd 53 1024.
Definition f64_sub : f64 → f64 → f64 := SFsub 53 1024.
Definition f64_mul : f64 → f64 → f64 := SFmul 53 1024.

(** ** Shapes *)
Record Point := mkPoint { Lat : f64; Lon : f64 }.

Definition Valid (p : Point) : bool :=
  fge (Lat p) (f64_of_Z (-90)) && fle (Lat p) (f64_of_Z 90) &&
  fge (Lon p) (f64_of_Z (-180)) && fle (Lon p) (f64_of_Z 180).

Record BoundingBox := mkBox { TopLeft : Point; BottomRight : Point }.

(** [BoundingBox.Contains]: a box whose left side is east of its right side
    crosses the antimeridian. *)
Definition box_Contains (bb : BoundingBox) (p : Point) : bool :=
  if fle (Lon (TopLeft bb)) (Lon (BottomRight bb)) then
    fle (Lat p) (Lat (TopLeft bb)) && fge (Lat p) (Lat (BottomRight bb)) &&
    fge (Lon p) (Lon (TopLeft bb)) && fle (Lon p) (Lon (BottomRight bb))
  else
    fle (Lat p) (Lat (TopLeft bb)) && fge (Lat p) (Lat (BottomRight bb)) &&
    (fge (Lon p) (Lon (TopLeft bb)) || fle (Lon p) (Lon (BottomRight bb))).

Record Polygon := mkPolygon { Exterior : list Point; Interior : list (list Point) }.
Definition NewPolygon (exterior : list Point) : Polygon := mkPolygon exterior [].

(** Whether the edge from [a] back to [b] is crossed by the ray from [p] *)
Definition crosses (p a b : Point) : bool :=
  negb (Bool.eqb (fgt (Lat a) (Lat p)) (fgt (Lat b) (Lat p))) &&
  flt (Lon p) (f64_add (f64_div (f64_mul (f64_sub (Lon b) (Lon a)) (f64_sub (Lat p) (Lat a)))
                          (f64_sub (Lat b) (Lat a))) (Lon a)).

(** The loop over the ring, [j] trailing [i] *)
Fixpoint ring_scan (p prev : Point) (ring : list Point) (inside : bool) : bool :=
  match ring with
  | [] => inside
  | a :: ring => ring_scan p a ring (if crosses p a prev then negb inside else inside)
  end.
Definition pointInRing (p : Point) (ring : list Point) : bool :=
  if len ring <? 3 then false else
  match ring !! (length ring - 1)%nat with Some prev => ring_scan p prev ring false | None => false end.

Definition polygon_Contains (poly : Polygon) (p : Point) : bool :=
  pointInRing p (Exterior poly) && negb (existsb (pointInRing p) (Interior poly)).

(** ** Distances *)
Class GeoMath := { math_Sin : f64 → f64; math_Cos : f64 → f64; math_Atan2 : f64 → f64 → f64 }.

Definition math_Pi : f64 := S754_finite false 7074237752028440 (-51).
Definition math_Sqrt : f64 → f64 := SFsqrt 53 1024.
Definition earthRadiusKm : f64 := f64_of_Z 6371.

Definition toRadians (deg : f64) : f64 := f64_div (f64_mul deg math_Pi) (f64_of_Z 180).

Section distance.
Context {gm : GeoMath}.

Definition HaversineDistance (p1 p2 : Point) : f64 :=
  let two := f64_of_Z 2 in
  let lat1 := toRadians (Lat p1) in
  let lat2 := toRadians (Lat p2) in
  let deltaLat := toRadians (f64_sub (Lat p2) (Lat p1)) in
  let deltaLon := toRadians (f64_sub (Lon p2) (Lon p1)) in
  let sinLat := math_Sin (f64_div deltaLat two) in
  let sinLon := math_Sin (f64_div deltaLon two) in
  let a := f64_add (f64_mul sinLat sinLat)
             (f64_mul (f64_mul (f64_mul (math_Cos lat1) (math_Cos lat2)) sinLon) sinLon) in
  let c := f64_mul two (math_Atan2 (math_Sqrt a) (math_Sqrt (f64_sub (f64_of_Z 1) a))) in
  f64_mul earthRadiusKm c.
Definition DistanceMeters (p1 p2 : Point) : f64 := f64_mul (HaversineDistance p1 p2) (f64_of_Z 1000).

(** ** Filters *)
Inductive FilterType := FilterRadius | FilterBoundingBox | FilterPolygon | FilterOther (name : string).
Record Filter := mkFilter {
  f_Type : FilterType; f_Center : Point; f_Radius : f64; f_BoundingBox : option BoundingBox; f_Polygon : option Polygon
}.
Definition zero_point : Point := mkPoint (f64_of_Z 0) (f64_of_Z 0).
Definition NewRadiusFilter (center : Point) (radiusMeters : f64) : Filter :=
  mkFilter FilterRadius center radiusMeters None None.
Definition NewBoundingBoxFilter (bb : BoundingBox) : Filter :=
  mkFilter FilterBoundingBox zero_point (f64_of_Z 0) (Some bb) None.
Definition NewPolygonFilter (poly : Polygon) : Filter :=
  mkFilter FilterPolygon zero_point (f64_of_Z 0) None (Some poly).

Definition Match (f : Filter) (p : Point) : bool :=
  match f_Type f with
  | FilterRadius => fle (DistanceMeters (f_Center f) p) (f_Radius f)
  | FilterBoundingBox => match f_BoundingBox f with Some bb => box_Contains bb p | None => false end
  | FilterPolygon => match f_Polygon f with Some poly => polygon_Contains poly p | None => false end
  | FilterOther _ => false
  end.
End distance.

(** ** The index *)
Record geoEntry := mkEntry { e_DocID : Z; e_Point : Point }.
Record GeoResult := mkResult { g_DocID : Z; g_Point : Point; g_Distance : f64 }.
Record Index := mkIndex { cells : gmap Z (list geoEntry); points : gmap Z Point; cellSize : f64 }.

Definition NewIndexWithCellSize (cellSizeDegrees : f64) : Index := mkIndex ∅ ∅ cellSizeDegrees.
Definition NewIndex : Index := NewIndexWithCellSize (f64_const 1 10).

(** The number of the cell at these coordinates of the grid *)
Definition grid_id (cellLat cellLon : Z) : Z :=
  u64 (u64 (u64 (i64 (cellLat + 900)) * 3600) + u64 (i64 (cellLon + 1800))).
Definition cellID (idx : Index) (p : Point) : Z :=
  grid_id (cell_of (cellSize idx) (Lat p)) (cell_of (cellSize idx) (Lon p)).

Definition entries_at (idx : Index) (id : Z) : list geoEntry := default [] (cells idx !! id).

Definition Add (docID : Z) (p : Point) (idx : Index) : Index :=
  let id := cellID idx p in
  mkIndex (<[id := entries_at idx id ++ [mkEntry docID p]]> (cells idx)) (<[docID := p]> (points idx)) (cellSize idx).

Definition Remove (docID : Z) (idx : Index) : Index :=
  match points idx !! docID with
  | None => idx
  | Some p =>
      let id := cellID idx p in
      let newEntries := filter (λ e, e_DocID e ≠ docID) (entries_at idx id) in
      mkIndex (if len newEntries =? 0 then delete id (cells idx) else <[id := newEntries]> (cells idx))
        (delete docID (points idx)) (cellSize idx)
  end.

(** [for x := a; x <= b; x++] *)
Definition upto (a b : Z) : list Z := seqZ a (b - a + 1).

(** [results[:limit]] when there are more and the limit is positive *)
Definition limited (limit : Z) (results : list GeoResult) : list GeoResult :=
  if (limit >? 0) && (len results >? limit) then take (Z.to_nat limit) results else results.

(** The entries of a rectangle of cells *)
Definition scan (idx : Index) (lats lons : list Z) : list geoEntry :=
  cellLat ← lats; cellLon ← lons; entries_at idx (grid_id cellLat cellLon).

(** [int(math.Ceil(x))] *)
Definition ceil_int (x : f64) : Z :=
  match x with
  | S754_finite s m e =>
      if 0 <=? e then int_of_f64 x
      else let z := if s then - (Zpos m / 2 ^ (- e)) else - (- Zpos m / 2 ^ (- e)) in z
  | _ => int_of_f64 x
  end.

Section search.
Context {gm : GeoMath} {sorter : Sorter}.

Definition closer (a b : GeoResult) : bool := flt (g_Distance a) (g_Distance b).

Definition SearchRadius (idx : Index) (center : Point) (radiusMeters : f64) (limit : Z) : list GeoResult :=
  let radiusDegrees := f64_div radiusMeters (f64_of_Z 111000) in
  let cellRange := ceil_int (f64_div radiusDegrees (cellSize idx)) in
  let centerCellLat := cell_of (cellSize idx) (Lat center) in
  let centerCellLon := cell_of (cellSize idx) (Lon center) in
  let around c := (λ d, i64 (c + d)) <$> upto (i64 (- cellRange)) cellRange in
  let results :=
    (λ e, mkResult (e_DocID e) (e_Point e) (DistanceMeters center (e_Point e))) <$>
      filter (λ e, fle (DistanceMeters center (e_Point e)) radiusMeters = true)
        (scan idx (around centerCellLat) (around centerCellLon)) in
  limited limit (sort_Slice closer results).

Definition box_result (e : geoEntry) : GeoResult := mkResult (e_DocID e) (e_Point e) (f64_of_Z 0).

Definition SearchBoundingBox (idx : Index) (bb : BoundingBox) (limit : Z) : list GeoResult :=
  let minCellLat := cell_of (cellSize idx) (Lat (BottomRight bb)) in
  let maxCellLat := cell_of (cellSize idx) (Lat (TopLeft bb)) in
  let minCellLon := cell_of (cellSize idx) (Lon (TopLeft bb)) in
  let maxCellLon := cell_of (cellSize idx) (Lon (BottomRight bb)) in
  limited limit (box_result <$> filter (λ e, box_Contains bb (e_Point e) = true)
    (scan idx (upto minCellLat maxCellLat) (upto minCellLon maxCellLon))).

Definition lower (x m : f64) : f64 := if flt x m then x else m.
Definition higher (x m : f64) : f64 := if fgt x m then x else m.
Definition polygonBoundingBox (ps : list Point) : BoundingBox :=
  match ps with
  | [] => mkBox zero_point zero_point
  | p :: ps =>
      mkBox (mkPoint (foldl (λ m q, higher (Lat q) m) (Lat p) ps) (foldl (λ m q, lower (Lon q) m) (Lon p) ps))
            (mkPoint (foldl (λ m q, lower (Lat q) m) (Lat p) ps) (foldl (λ m q, higher (Lon q) m) (Lon p) ps))
  end.

Definition SearchPolygon (idx : Index) (poly : Polygon) (limit : Z) : list GeoResult :=
  let candidates := SearchBoundingBox idx (polygonBoundingBox (Exterior poly)) 0 in
  limited limit (filter (λ c, polygon_Contains poly (g_Point c) = true) candidates).

Definition SearchFilter (idx : Index) (f : Filter) (limit : Z) : list GeoResult :=
  match f_Type f with
  | FilterRadius => SearchRadius idx (f_Center f) (f_Radius f) limit
  | FilterBoundingBox => match f_BoundingBox f with Some bb => SearchBoundingBox idx bb limit | None => [] end
  | FilterPolygon => match f_Polygon f with Some poly => SearchPolygon idx poly limit | None => [] end
  | FilterOther _ => []
  end.

Definition Get (idx : Index) (docID : Z) : option Point := points idx !! docID.
Definition Size (idx : Index) : Z := Z.of_nat (size (points idx)).
End search.

(** ** Geohashes *)
Definition base32 : list ascii := String.list_ascii_of_string "0123456789bcdefghjkmnpqrstuvwxyz".

Record area := mkArea { minLat : f64; maxLat : f64; minLon : f64; maxLon : f64 }.

(** One bit: the half of the area in which the point lies, of the longitudes or of
    the latitudes *)
Definition geohash_bit (p : Point) (longitude : bool) (r : area) : Z * area :=
  if longitude then
    let mid := f64_div (f64_add (minLon r) (maxLon r)) (f64_of_Z 2) in
    if fge (Lon p) mid then (1, mkArea (minLat r) (maxLat r) mid (maxLon r))
    else (0, mkArea (minLat r) (maxLat r) (minLon r) mid)
  else
    let mid := f64_div (f64_add (minLat r) (maxLat r)) (f64_of_Z 2) in
    if fge (Lat p) mid then (1, mkArea mid (maxLat r) (minLon r) (maxLon r))
    else (0, mkArea (minLat r) mid (minLon r) (maxLon r)).

(** The rounds of the loop: [bitCount] counts from zero to four for every
    character, so that a character may start with either coordinate *)
Fixpoint encode_rounds (p : Point) (rounds : nat) (r : area) (bits bitCount : Z) (hash : list ascii) : list ascii :=
  match rounds with
  | O => hash
  | S rounds =>
      let '(b, r) := geohash_bit p (Z.rem bitCount 2 =? 0) r in
      let bits := bits * 2 + b in
      let bitCount := bitCount + 1 in
      if bitCount =? 5 then
        encode_rounds p rounds r 0 0 (hash ++ [List.nth (Z.to_nat bits) base32 "0"%char])
      else encode_rounds p rounds r bits bitCount hash
  end.

(** Five rounds make a character. *)
Definition Encode (p : Point) (precision : Z) : list ascii :=
  let precision := if precision <? 1 then 12 else precision in
  encode_rounds p (5 * Z.to_nat precision)
    (mkArea (f64_of_Z (-90)) (f64_of_Z 90) (f64_of_Z (-180)) (f64_of_Z 180)) 0 0 [].

(** ** The cells and the points they hold

    The log of an index: every entry added and not removed since. A document that
    is added again leaves its old entry in the log. *)
Inductive geo_op := OAdd (docID : Z) (p : Point) | ORemove (docID : Z).
Definition geo_step (idx : Index) (o : geo_op) : Index :=
  match o with OAdd d p => Add d p idx | ORemove d => Remove d idx end.

Definition cell (size : f64) (p : Point) : Z := grid_id (cell_of size (Lat p)) (cell_of size (Lon p)).
Definition log_step (size : f64) (st : list geoEntry * gmap Z Point) (o : geo_op) : list geoEntry * gmap Z Point :=
  let '(log, pts) := st in
  match o with
  | OAdd d p => (log ++ [mkEntry d p], <[d := p]> pts)
  | ORemove d =>
      match pts !! d with
      | Some p => (filter (λ e, ¬ (e_DocID e = d ∧ cell size (e_Point e) = cell size p)) log, delete d pts)
      | None => st
      end
  end.
Definition log_of (size : f64) (os : list geo_op) : list geoEntry * gmap Z Point := foldl (log_step size) ([], ∅) os.

(** The cells distribute a log. *)
Definition distributes (idx : Index) (st : list geoEntry * gmap Z Point) : Prop :=
  points idx = st.2 ∧ ∀ id, entries_at idx id = filter (λ e, cell (cellSize idx) (e_Point e) = id) st.1.

Lemma entries_at_insert m pts size id id' l :
  entries_at (mkIndex (<[id := l]> m) pts size) id' = if decide (id = id') then l else entries_at (mkIndex m pts size) id'.
Proof.
  unfold entries_at. cbn. case_decide; [subst; by rewrite lookup_insert_eq|by rewrite lookup_insert_ne].
Qed.
Lemma entries_at_delete m pts size id id' :
  entries_at (mkIndex (delete id m) pts size) id' = if decide (id = id') then [] else entries_at (mkIndex m pts size) id'.
Proof.
  unfold entries_at. cbn. case_decide; [subst; by rewrite lookup_delete_eq|by rewrite lookup_delete_ne].
Qed.

Lemma geo_step_distributes idx st o :
  distributes idx st → distributes (geo_step idx o) (log_step (cellSize idx) st o) ∧
    cellSize (geo_step idx o) = cellSize idx.
Proof.
  destruct st as [log pts]. intros [Hp Hc]. cbn in Hp. destruct o as [d p|d]; cbn [geo_step log_step].
  - split; [|done]. split; [cbn; by rewrite Hp|]. intros id. unfold Add. rewrite entries_at_insert. cbn [fst cellSize].
    rewrite filter_app, filter_cons, filter_nil. change (cellID idx p) with (cell (cellSize idx) p).
    case_decide as Hid.
    + subst id. rewrite decide_True by done. by rewrite Hc.
    + rewrite decide_False by done. rewrite app_nil_r. destruct idx. apply Hc.
  - unfold Remove. rewrite Hp. destruct (pts !! d) as [p|] eqn:Hd; [|done]. split; [|done].
    split; [done|]. intros id. cbn [fst cellSize]. change (cellID idx p) with (cell (cellSize idx) p).
    assert (entries_at (mkIndex (if len (filter (λ e, e_DocID e ≠ d) (entries_at idx (cell (cellSize idx) p))) =? 0
        then delete (cell (cellSize idx) p) (cells idx)
        else <[cell (cellSize idx) p := filter (λ e, e_DocID e ≠ d) (entries_at idx (cell (cellSize idx) p))]> (cells idx))
        (delete d pts) (cellSize idx)) id
      = if decide (cell (cellSize idx) p = id) then filter (λ e, e_DocID e ≠ d) (entries_at idx id) else entries_at idx id) as ->.
    { destruct (Z.eqb_spec (len (filter (λ e, e_DocID e ≠ d) (entries_at idx (cell (cellSize idx) p)))) 0) as [H0|H0].
      - rewrite entries_at_delete. case_decide as Hid; [subst id|done].
        unfold len in H0. destruct (filter _ _); [done|]. cbn in H0. lia.
      - rewrite entries_at_insert. case_decide as Hid; [by subst id|done]. }
    rewrite Hc, !list_filter_filter. case_decide as Hid.
    + subst id. apply list_filter_iff. intros e. split; [tauto|]. intros [H1 H2]. split; [|done]. intros Hd2. tauto.
    + apply list_filter_iff. intros e. split; [|tauto]. intros Hid2. split; [done|]. intros [_ H]. apply Hid. congruence.
Qed.

(** After any history the cells hold exactly the entries of the log, each in the
    cell of its point, in the order in which they were added, and the index knows
    the last point of each document. *)
Theorem cells_hold_log size os :
  let idx := foldl geo_step (NewIndexWithCellSize size) os in
  distributes idx (log_of size os) ∧ cellSize idx = size.
Proof.
  cbv zeta. unfold log_of. induction os as [|o os IH] using rev_ind.
  - split; [|done]. split; [done|]. intros id. unfold entries_at. cbn. by rewrite lookup_empty.
  - rewrite !foldl_app. cbn [foldl]. destruct IH as [IH Hs]. destruct (geo_step_distributes _ _ o IH) as [H1 H2].
    rewrite Hs in H1, H2. by split.
Qed.

(** *** Histories that add no document twice *)
Fixpoint fresh_adds (pts : gset Z) (os : list geo_op) : Prop :=
  match os with
  | [] => True
  | OAdd d _ :: os => d ∉ pts ∧ fresh_adds ({[d]} ∪ pts) os
  | ORemove d :: os => fresh_adds (pts ∖ {[d]}) os
  end.

Definition entry_of (dp : Z * Point) : geoEntry := mkEntry dp.1 dp.2.

(** The log is the table of the points. *)
Definition tabulates (st : list geoEntry * gmap Z Point) : Prop := st.1 ≡ₚ entry_of <$> map_to_list st.2.

Lemma tabulates_point log pts e : tabulates (log, pts) → e ∈ log → pts !! e_DocID e = Some (e_Point e).
Proof.
  intros Ht He. rewrite Ht in He. apply list_elem_of_fmap in He as ([d p] & -> & H%elem_of_map_to_list). done.
Qed.

Lemma log_step_tabulates size st o pts :
  tabulates st → dom st.2 = pts → (match o with OAdd d _ => d ∉ pts | _ => True end) →
  tabulates (log_step size st o).
Proof.
  destruct st as [log m]. intros Ht Hdom Ho. pose proof Ht as Ht'. unfold tabulates in Ht. cbn [fst snd] in *. destruct o as [d p|d]; cbn [log_step].
  - unfold tabulates. cbn. rewrite Ht, map_to_list_insert; [|by apply not_elem_of_dom; rewrite Hdom].
    rewrite fmap_cons, Permutation_app_comm. done.
  - destruct (m !! d) as [p|] eqn:Hd; [|done]. unfold tabulates. cbn [fst snd].
    assert (∀ e, e ∈ log → ((¬ (e_DocID e = d ∧ cell size (e_Point e) = cell size p)) ↔ (e_DocID e ≠ d))) as Hiff.
    { intros e He. pose proof (tabulates_point _ _ _ Ht' He) as He'. split; [|tauto]. intros H Hed. apply H.
      split; [done|]. rewrite Hed, Hd in He'. by injection He' as ->. }
    rewrite <- (map_to_list_delete m d p Hd), fmap_cons in Ht.
    transitivity (filter (λ e, e_DocID e ≠ d) log).
    { by apply reflexive_eq, filter_agree. }
    rewrite Ht, filter_cons, decide_False by (cbn; tauto).
    apply reflexive_eq, filter_keep. intros e ([d' p'] & -> & H%elem_of_map_to_list)%list_elem_of_fmap.
    cbn. intros ->. by rewrite lookup_delete_eq in H.
Qed.

Lemma log_step_dom size st o : dom (log_step size st o).2
  = match o with OAdd d _ => {[d]} ∪ dom st.2 | ORemove d => dom st.2 ∖ {[d]} end.
Proof.
  destruct st as [log m], o as [d p|d]; cbn; [by rewrite dom_insert_L|].
  destruct (m !! d) eqn:Hd; cbn; [by rewrite dom_delete_L|].
  apply not_elem_of_dom in Hd. set_solver.
Qed.

Lemma fresh_log_tabulates size os st :
  tabulates st → fresh_adds (dom st.2) os → tabulates (foldl (log_step size) st os).
Proof.
  revert st. induction os as [|o os IH]; intros st Ht Hf; [done|]. cbn [foldl]. apply IH.
  - apply (log_step_tabulates size st o (dom st.2)); [done..|]. destruct o; [by destruct Hf|done].
  - rewrite log_step_dom. destruct o; [by destruct Hf|done].
Qed.

(** ** Searching a box *)
Definition default_size : f64 := f64_const 1 10.
Definition on_globe (p : Point) : Prop := Valid p = true ∧ valid64 (Lat p) ∧ valid64 (Lon p).

Lemma cell_range x bound t :
  0 ≤ t → cell_of default_size (f64_of_Z bound) = t → valid64 (f64_of_Z bound) → 0 < bound < 2 ^ 53 →
  f64_of_Z (- bound) = SFopp (f64_of_Z bound) → valid64 x →
  fge x (f64_of_Z (- bound)) = true → fle x (f64_of_Z bound) = true → - t ≤ cell_of default_size x ≤ t.
Proof.
  intros Ht Hc Hvb Hb Hneg Hv Hlo Hhi. destruct (f64_of_Z_exact bound Hb) as (k & a & Hk & _).
  rewrite Hneg, Hk in Hlo. rewrite Hk in Hhi, Hc, Hvb.
  pose proof (cell_of_bound 7205759403792794 (-56) k (- a) x) as H. cbv zeta in H.
  change (S754_finite false 7205759403792794 (-56)) with default_size in H. rewrite Hc in H. by apply H.
Qed.

Lemma globe_cells p : on_globe p →
  (- 900 ≤ cell_of default_size (Lat p) ≤ 900) ∧ (- 1800 ≤ cell_of default_size (Lon p) ≤ 1800).
Proof.
  intros (Hv & Hla & Hlo). unfold Valid in Hv. repeat (apply andb_true_iff in Hv as [Hv ?]). split.
  - by apply (cell_range _ 90 900).
  - by apply (cell_range _ 180 1800).
Qed.

Lemma grid_id_exact a b : -900 ≤ a ≤ 900 → -1800 ≤ b ≤ 1800 → grid_id a b = (a + 900) * 3600 + (b + 1800).
Proof.
  intros Ha Hb. unfold grid_id, i64. rewrite !swrap_id by lia. unfold u64.
  rewrite (Z.mod_small (a + 900)), (Z.mod_small (b + 1800)), (Z.mod_small ((a + 900) * 3600)) by lia.
  apply Z.mod_small. lia.
Qed.

(** The entries under a list of cells without repetitions *)
Lemma scanned_entries {A} (f : A → Z) (log : list A) (ids : list Z) :
  NoDup ids → ids ≫= (λ id, filter (λ e, f e = id) log) ≡ₚ filter (λ e, f e ∈ ids) log.
Proof.
  induction 1 as [|id ids Hid Hnd IH].
  - cbn. rewrite filter_nothing; [done|]. intros e _. apply not_elem_of_nil.
  - rewrite bind_cons, IH. clear IH Hnd. induction log as [|e log IH]; [done|]. rewrite !filter_cons.
    destruct (decide (f e = id)) as [He|He].
    + rewrite (decide_False (P := f e ∈ ids)) by congruence. rewrite decide_True by (rewrite He; by left). cbn. by rewrite IH.
    + destruct (decide (f e ∈ ids)) as [Hi|Hi].
      * rewrite (decide_True (P := f e ∈ id :: ids)) by by right. rewrite <- IH. symmetry. apply Permutation_middle.
      * rewrite decide_False; [done|]. by intros [?|?]%elem_of_cons.
Qed.

(** The cells a search scans *)
Definition grid_ids (lats lons : list Z) : list Z := cellLat ← lats; grid_id cellLat <$> lons.

Lemma scan_ids idx lats lons : scan idx lats lons = grid_ids lats lons ≫= entries_at idx.
Proof.
  unfold scan, grid_ids. induction lats as [|a lats IH]; [done|]. rewrite !bind_cons, bind_app, IH. f_equal.
  clear IH. induction lons as [|b lons IHl]; [done|]. rewrite fmap_cons, !bind_cons. by rewrite IHl.
Qed.

Lemma grid_ids_NoDup a b c d :
  -900 ≤ a → b ≤ 900 → -1800 ≤ c → d ≤ 1800 → d - c < 3600 → NoDup (grid_ids (upto a b) (upto c d)).
Proof.
  intros Ha Hb Hc Hd Hspan. unfold grid_ids, upto.
  assert (∀ x y, x ∈ seqZ a (b - a + 1) → y ∈ seqZ c (d - c + 1) →
    grid_id x y = (x + 900) * 3600 + (y + 1800) ∧ c ≤ y ≤ d) as Hid.
  { intros x y Hx%elem_of_seqZ Hy%elem_of_seqZ. split; [|lia]. apply grid_id_exact; lia. }
  apply NoDup_bind; [| |apply NoDup_seqZ].
  - intros x1 x2 id Hx1 Hx2 (y1 & -> & Hy1)%list_elem_of_fmap (y2 & Heq & Hy2)%list_elem_of_fmap.
    destruct (Hid x1 y1), (Hid x2 y2); [done..|]. lia.
  - intros x Hx. apply NoDup_fmap_2_strong; [|apply NoDup_seqZ]. intros y1 y2 Hy1 Hy2 Heq.
    destruct (Hid x y1), (Hid x y2); [done..|]. lia.
Qed.

Section boxes.
Context {gm : GeoMath} {sorter : Sorter}.

(** A box of the globe that does not cross the antimeridian, and does not span it *)
Definition plain_box (bb : BoundingBox) : Prop :=
  on_globe (TopLeft bb) ∧ on_globe (BottomRight bb) ∧ fle (Lon (TopLeft bb)) (Lon (BottomRight bb)) = true ∧
  cell_of default_size (Lon (BottomRight bb)) - cell_of default_size (Lon (TopLeft bb)) < 3600.

Lemma default_size_mono x1 x2 :
  valid64 x1 → valid64 x2 → fle x1 x2 = true →
  - 1800 ≤ cell_of default_size x1 → - 1800 ≤ cell_of default_size x2 →
  cell_of default_size x1 ≤ cell_of default_size x2.
Proof.
  intros Hv1 Hv2 Hle H1 H2. pose proof (cell_of_mono 7205759403792794 (-56) x1 x2) as H. cbv zeta in H.
  change (S754_finite false 7205759403792794 (-56)) with default_size in H.
  apply H; [done..| |]; unfold MinInt64; lia.
Qed.

(** The cell of a point in a box is among the cells scanned for the box. *)
Lemma contained_scanned bb p :
  plain_box bb → on_globe p → box_Contains bb p = true →
  cell default_size p ∈ grid_ids
    (upto (cell_of default_size (Lat (BottomRight bb))) (cell_of default_size (Lat (TopLeft bb))))
    (upto (cell_of default_size (Lon (TopLeft bb))) (cell_of default_size (Lon (BottomRight bb)))).
Proof.
  intros (Htl & Hbr & Hlon & _) Hp Hc. unfold box_Contains in Hc. rewrite Hlon in Hc.
  repeat (apply andb_true_iff in Hc as [Hc ?]). unfold fge, fle in *.
  pose proof (globe_cells _ Htl). pose proof (globe_cells _ Hbr). pose proof (globe_cells _ Hp).
  destruct Htl as (_ & ? & ?), Hbr as (_ & ? & ?), Hp as (_ & ? & ?).
  apply list_elem_of_bind. exists (cell_of default_size (Lat p)). split.
  - unfold cell. apply list_elem_of_fmap_2, elem_of_seqZ.
    assert (cell_of default_size (Lon (TopLeft bb)) ≤ cell_of default_size (Lon p)) by (apply default_size_mono; (done || lia)).
    assert (cell_of default_size (Lon p) ≤ cell_of default_size (Lon (BottomRight bb))) by (apply default_size_mono; (done || lia)).
    lia.
  - apply elem_of_seqZ.
    assert (cell_of default_size (Lat (BottomRight bb)) ≤ cell_of default_size (Lat p)) by (apply default_size_mono; (done || lia)).
    assert (cell_of default_size (Lat p) ≤ cell_of default_size (Lat (TopLeft bb))) by (apply default_size_mono; (done || lia)).
    lia.
Qed.

Lemma limited_take limit l : limited limit l = if limit >? 0 then take (Z.to_nat limit) l else l.
Proof.
  unfold limited. destruct (limit >? 0) eqn:Hl; cbn [andb]; [|done].
  destruct (len l >? limit) eqn:Hn; [done|]. rewrite take_ge; [done|]. unfold len in Hn. lia.
Qed.

Lemma log_entry_added size os e : e ∈ (log_of size os).1 → OAdd (e_DocID e) (e_Point e) ∈ os.
Proof.
  unfold log_of. induction os as [|o os IH] using rev_ind; [by intros ?%elem_of_nil|].
  rewrite foldl_app. cbn [foldl]. destruct (foldl (log_step size) ([], ∅) os) as [log pts].
  intros He. apply elem_of_app. destruct o as [d p|d]; cbn in He.
  - apply elem_of_app in He as [He| ->%list_elem_of_singleton]; [left; by apply IH|right; by left].
  - left. apply IH. destruct (pts !! d); [|done]. by apply list_elem_of_filter in He as [_ He].
Qed.

(** What an index of these documents should answer, in some order *)
Definition reference_search (pts : gmap Z Point) (P : Point → bool) : list GeoResult :=
  box_result <$> filter (λ e, P (e_Point e) = true) (entry_of <$> map_to_list pts).

(** C28. On an index of the default grid built by any history of additions and
    removals that adds no document twice, a search of a box that does not cross the
    antimeridian returns exactly the documents that the box contains, each once,
    although it only looks at the cells between the corners: dividing a coordinate by
    the size of a cell, in floating point, keeps the order of coordinates. A positive
    limit keeps the first results. *)
Theorem box_search_exact os bb limit :
  fresh_adds ∅ os → (∀ d p, OAdd d p ∈ os → on_globe p) → plain_box bb →
  let idx := foldl geo_step NewIndex os in
  SearchBoundingBox idx bb 0 ≡ₚ reference_search (log_of default_size os).2 (box_Contains bb) ∧
  SearchBoundingBox idx bb limit
  = if limit >? 0 then take (Z.to_nat limit) (SearchBoundingBox idx bb 0) else SearchBoundingBox idx bb 0.
Proof.
  intros Hf Hglobe Hbb idx. destruct (cells_hold_log default_size os) as [[Hpts Hcells] Hsize].
  change (foldl geo_step (NewIndexWithCellSize default_size) os) with idx in *. rewrite Hsize in Hcells.
  split; [|unfold SearchBoundingBox; by rewrite !limited_take].
  unfold SearchBoundingBox, limited. cbn [Z.gtb Z.compare andb]. rewrite Hsize. unfold reference_search.
  apply fmap_Permutation. rewrite scan_ids.
  rewrite (list_bind_ext (entries_at idx) _ _ _ Hcells eq_refl).
  pose proof Hbb as (Htl & Hbr & _ & Hspan). pose proof (globe_cells _ Htl). pose proof (globe_cells _ Hbr).
  rewrite scanned_entries by (apply grid_ids_NoDup; lia). rewrite list_filter_filter.
  rewrite (filter_agree _ (λ e, box_Contains bb (e_Point e) = true)).
  - assert (tabulates (log_of default_size os)) as Htab; [|by rewrite Htab].
    apply fresh_log_tabulates; [|cbn [snd]; by rewrite dom_empty_L].
    unfold tabulates. cbn [fst snd]. by rewrite map_to_list_empty.
  - intros e He. split; [tauto|]. intros Hc. split; [done|]. apply contained_scanned; [done| |done].
    by eapply Hglobe, log_entry_added.
Qed.

(** A box that crosses the antimeridian is searched from its western to its eastern
    cell, of which there are none: nothing is found, whatever it contains. *)
Theorem crossing_box_empty idx bb limit :
  cell_of (cellSize idx) (Lon (BottomRight bb)) < cell_of (cellSize idx) (Lon (TopLeft bb)) →
  SearchBoundingBox idx bb limit = [].
Proof.
  intros Hc. unfold SearchBoundingBox. rewrite limited_take.
  assert (upto (cell_of (cellSize idx) (Lon (TopLeft bb))) (cell_of (cellSize idx) (Lon (BottomRight bb))) = []) as ->.
  { unfold upto. by rewrite seqZ_nil by lia. }
  assert (∀ lats, scan idx lats [] = []) as ->; [|by destruct (limit >? 0), (Z.to_nat limit)].
  intros lats. unfold scan. induction lats as [|x lats IH]; [done|]. by rewrite bind_cons, IH.
Qed.

Lemma limited_elem limit l r : r ∈ limited limit l → r ∈ l.
Proof. rewrite limited_take. case_match; [|done]. intros Hr. by eapply subseteq_take. Qed.

Lemma box_search_matches idx bb limit r : r ∈ SearchBoundingBox idx bb limit → box_Contains bb (g_Point r) = true.
Proof. intros (e & -> & [He _]%list_elem_of_filter)%limited_elem%list_elem_of_fmap. done. Qed.

(** Whatever a search with a filter returns passes the filter, and a search of a
    circle comes in order of distance, as far as distances are numbers. *)
Theorem search_filter_matches idx f limit r : r ∈ SearchFilter idx f limit → Match f (g_Point r) = true.
Proof.
  unfold SearchFilter, Match. destruct (f_Type f).
  - intros Hr%limited_elem. rewrite sort_Slice_perm in Hr.
    by apply list_elem_of_fmap in Hr as (e & -> & [He _]%list_elem_of_filter).
  - destruct (f_BoundingBox f); [apply box_search_matches|by intros ?%elem_of_nil].
  - destruct (f_Polygon f); [|by intros ?%elem_of_nil]. by intros [Hr _]%limited_elem%list_elem_of_filter.
  - by intros ?%elem_of_nil.
Qed.
End boxes.

(** A document that is added again at another cell and then removed leaves its first
    position behind: it is in no table and still found. *)
Theorem readded_document_stays size d p q :
  cell size p ≠ cell size q →
  let idx := foldl geo_step (NewIndexWithCellSize size) [OAdd d p; OAdd d q; ORemove d] in
  Get idx d = None ∧ entries_at idx (cell size p) = [mkEntry d p].
Proof.
  intros Hpq idx. destruct (cells_hold_log size [OAdd d p; OAdd d q; ORemove d]) as [[Hp Hc] Hs]. fold idx in Hp, Hc, Hs.
  unfold Get. rewrite Hp, Hc, Hs. unfold log_of. cbn [foldl log_step app]. rewrite lookup_insert_eq. cbn [fst snd].
  rewrite lookup_delete_eq. split; [done|]. rewrite list_filter_filter, !filter_cons, filter_nil. cbn [e_DocID e_Point].
  rewrite (decide_True (P := cell size p = cell size p ∧ _)) by tauto. by rewrite decide_False by tauto.
Qed.

(** ** Geohashes *)
Lemma encode_rounds_prefix p n r bits k hash : ∃ more, encode_rounds p n r bits k hash = hash ++ more.
Proof.
  revert r bits k hash. induction n as [|n IH]; intros r bits k hash; cbn [encode_rounds]; [by exists []; rewrite app_nil_r|].
  destruct (geohash_bit p _ r) as [b r']. case_match; [|apply IH].
  edestruct IH as [more ->]. rewrite <- app_assoc. by eexists.
Qed.

(** The state of the loop after some rounds *)
Fixpoint rounds_state (p : Point) (n : nat) (r : area) (bits k : Z) (hash : list ascii) : area * Z * Z * list ascii :=
  match n with
  | O => (r, bits, k, hash)
  | S n =>
      let '(b, r) := geohash_bit p (Z.rem k 2 =? 0) r in
      if k + 1 =? 5 then rounds_state p n r 0 0 (hash ++ [List.nth (Z.to_nat (bits * 2 + b)) base32 "0"%char])
      else rounds_state p n r (bits * 2 + b) (k + 1) hash
  end.

Lemma encode_rounds_split p n m r bits k hash :
  encode_rounds p (n + m) r bits k hash
  = let '(r', bits', k', hash') := rounds_state p n r bits k hash in encode_rounds p m r' bits' k' hash'.
Proof.
  revert r bits k hash. induction n as [|n IH]; intros r bits k hash; [done|]. cbn [encode_rounds rounds_state Nat.add].
  destruct (geohash_bit p _ r) as [b r']. case_match; apply IH.
Qed.

Lemma geohash_bit_range p longitude r : 0 ≤ (geohash_bit p longitude r).1 ≤ 1.
Proof. unfold geohash_bit. by repeat case_match; cbn. Qed.

(** Five rounds from the start of a character add one character of the alphabet. *)
Lemma five_rounds p r hash :
  ∃ r' a, rounds_state p 5 r 0 0 hash = (r', 0, 0, hash ++ [a]) ∧ a ∈ base32.
Proof.
  cbn [rounds_state].
  repeat (let b := fresh "b" in let r' := fresh "r" in
    match goal with |- context [geohash_bit ?p ?l ?r] =>
      pose proof (geohash_bit_range p l r); destruct (geohash_bit p l r) as [b r']; cbn [fst] in * end;
    cbn [Z.eqb Z.add Pos.eqb Pos.add Pos.succ]).
  do 2 eexists. split; [reflexivity|]. apply list_elem_of_In, nth_In. change (length base32) with 32%nat. lia.
Qed.

Lemma encode_chars p n r hash :
  ∃ more, encode_rounds p (5 * n) r 0 0 hash = hash ++ more ∧ length more = n ∧ Forall (.∈ base32) more.
Proof.
  revert r hash. induction n as [|n IH]; intros r hash; [by exists []; rewrite app_nil_r|].
  replace (5 * S n)%nat with (5 + 5 * n)%nat by lia. rewrite encode_rounds_split.
  destruct (five_rounds p r hash) as (r' & a & -> & Ha). destruct (IH r' (hash ++ [a])) as (more & -> & Hl & HF).
  exists (a :: more). rewrite <- app_assoc. split_and!; [done|cbn; lia|by constructor].
Qed.

(** A geohash has as many characters as asked for, all of the alphabet, and a
    coarser one is a prefix of a finer one. *)
Theorem geohash_prefixes p n m :
  1 ≤ n ≤ m →
  len (Encode p n) = n ∧ Forall (.∈ base32) (Encode p n) ∧ Encode p n `prefix_of` Encode p m.
Proof.
  intros Hn. unfold Encode. rewrite !(proj2 (Z.ltb_ge _ 1)) by lia.
  set (r := mkArea _ _ _ _). destruct (encode_chars p (Z.to_nat n) r []) as (l & Hl & Hlen & HF).
  split_and!.
  - rewrite Hl. unfold len. cbn. lia.
  - by rewrite Hl.
  - replace (5 * Z.to_nat m)%nat with (5 * Z.to_nat n + 5 * (Z.to_nat m - Z.to_nat n))%nat by lia.
    rewrite encode_rounds_split. pose proof (encode_rounds_split p (5 * Z.to_nat n) 0 r 0 0 []) as H0.
    rewrite Nat.add_0_r in H0. destruct (rounds_state p _ r 0 0 []) as [[[r' b'] k'] h']. cbn [encode_rounds] in H0.
    rewrite H0. destruct (encode_rounds_prefix p (5 * (Z.to_nat m - Z.to_nat n)) r' b' k' h') as [more ->]. by eexists.
Qed.

(** ** Concrete places *)
Definition deg (hundredths : Z) : f64 := f64_const hundredths 100.
Definition at_ (lat lon : Z) : Point := mkPoint (deg lat) (deg lon).
Definition demo_ops : list geo_op :=
  [OAdd 1 (at_ 1000 2000); OAdd 2 (at_ 1005 2031); OAdd 3 (at_ 1100 2000); OAdd 4 (at_ 1001 2001); ORemove 4].
Definition demo_box : BoundingBox := mkBox (at_ 1010 1990) (at_ 990 2040).

Lemma box_search_exact_witness :
  SearchBoundingBox (foldl geo_step NewIndex demo_ops) demo_box 0
  ≡ₚ reference_search (log_of default_size demo_ops).2 (box_Contains demo_box) ∧
  g_DocID <$> SearchBoundingBox (foldl geo_step NewIndex demo_ops) demo_box 0 = [1; 2].
Proof.
  split; [|by vm_compute].
  refine (proj1 (box_search_exact demo_ops demo_box 0 _ _ _)).
  - by apply (bool_decide_unpack _); vm_compute.
  - intros d p H. repeat (apply elem_of_cons in H as [[= -> ->]|H]; [by vm_compute|]).
    by apply elem_of_cons in H as [[=]|?%elem_of_nil].
  - by vm_compute.
Defined.

(** Across the antimeridian *)
Example crossing_box_misses :
  let bb := mkBox (at_ 100 17900) (at_ (-100) (-17900)) in
  box_Contains bb (at_ 0 17950) = true ∧ SearchBoundingBox (Add 1 (at_ 0 17950) NewIndex) bb 0 = [].
Proof. by vm_compute. Qed.

(** The cell of longitude 180 is that of longitude -180 one row up: a box around the
    globe returns a point there twice. *)
Example wide_box_repeats :
  let bb := mkBox (at_ 1015 (-18000)) (at_ 1000 18000) in
  g_DocID <$> SearchBoundingBox (Add 1 (at_ 1005 18000) NewIndex) bb 0 = [1; 1].
Proof. by vm_compute. Qed.

(** The geohash of (57.64911, 10.40744) is u4pruydqqvj: every character here starts
    with a bit of the longitude, where only every other one should. *)
Example geohash_not_standard :
  String.string_of_list_ascii (Encode (mkPoint (f64_const 5764911 100000) (f64_const 1040744 100000)) 11)
  = "u3nqgfgmqwr"%string.
Proof. by vm_compute. Qed.
