(* ===== verification/Vamana.v ===== *)
(** * pkg/index/diskann: the Vamana graph

    The graph of [vamana.go] with the nodes of [node.go], the pruning of
    [prune.go], the searches of [search.go], the construction of [build.go], and
    the index of [diskann.go] over it. Every index keeps its nodes in memory, and
    [VectorOffset] is never set. The map [nodes] has the keys 0 to [len(nodes) - 1]
    and is the list of its values; a range over it, or over the candidates of a
    pruning, goes in the order of a [MapOrder]. A method is one atomic step;
    insertions that interleave between their locked parts are not modelled. *)
From stdpp Require Import base gmap strings list fin_maps numbers sorting.
From Stdlib Require Import Strings.Byte ZArith Lia Floats.SpecFloat.
From S2P Require Import Prelude Float32 Heap Quantization Kmeans Hnsw Distance HnswNode.

#[local] Open Scope Z_scope.

(** ** errors.go and config.go *)
Inductive diskannError :=
| ErrDimensionMismatch | ErrPointNotFound | ErrPointExists | ErrEmptyIndex
| ErrInvalidDimension | ErrInvalidR | ErrInvalidL | ErrInvalidAlpha | ErrInvalidK
| ErrMaxNodesExceeded.

#[export] Instance diskannError_eq_dec : EqDecision diskannError.
Proof. solve_decision. Defined.

Record Config := mkConfig {
  c_R : Z; c_L : Z; c_Alpha : f32; c_Dimension : Z; c_MaxElements : Z;
  c_Metric : MetricType; c_DataPath : string; c_UseMemoryMap : bool
}.

Definition DefaultConfig : Config :=
  mkConfig 64 100 (f32_ratio 12 10) 0 1000000 MetricCosine "" false.

Definition Validate (c : Config) : result diskannError unit :=
  if c_Dimension c <=? 0 then Err ErrInvalidDimension
  else if c_R c <? 1 then Err ErrInvalidR
  else if c_L c <? 1 then Err ErrInvalidL
  else if flt (c_Alpha c) f32_one then Err ErrInvalidAlpha
  else Ok tt.

(** [a <= b] *)
Definition fle (a b : f32) : bool := SFleb a b.

Section vamana.
Context {payload : Type} {sorter : Sorter} {norder : MapOrder nat}.

(** ** node.go *)
Record Node := mkNode {
  n_ID : string;
  n_Vector : vector;
  n_Neighbors : list nat;
  n_payload : payload;
  n_deleted : bool
}.

Definition NewNode (id : string) (v : vector) (p : payload) : Node := mkNode id v [] p false.

Definition SetNeighbors (ns : list nat) (n : Node) : Node :=
  mkNode (n_ID n) (n_Vector n) ns (n_payload n) (n_deleted n).

Definition AddNeighbor (nodeID : nat) (maxDegree : Z) (n : Node) : bool * Node :=
  if decide (nodeID ∈ n_Neighbors n) then (false, n)
  else if len (n_Neighbors n) <? maxDegree
  then (true, SetNeighbors (n_Neighbors n ++ [nodeID]) n)
  else (false, n).

(** The first occurrence is overwritten with the last element, and the list is
    shortened by one. *)
Definition RemoveNeighbor (nodeID : nat) (n : Node) : result hnswError (bool * Node) :=
  match list_find (nodeID =.) (n_Neighbors n) with
  | None => Ok (false, n)
  | Some (i, _) => ns ← swap_remove i (n_Neighbors n); Ok (true, SetNeighbors ns n)
  end.

Definition Degree (n : Node) : Z := len (n_Neighbors n).

Definition mark (deleted : bool) (n : Node) : Node :=
  mkNode (n_ID n) (n_Vector n) (n_Neighbors n) (n_payload n) deleted.
Definition MarkDeleted : Node → Node := mark true.
Definition Undelete : Node → Node := mark false.

Definition SetPayload (p : payload) (n : Node) : Node :=
  mkNode (n_ID n) (n_Vector n) (n_Neighbors n) p (n_deleted n).

(** ** vamana.go *)
Record VamanaGraph := mkVamanaGraph {
  g_nodes : list Node;
  g_idToNode : gmap string nat;
  g_dimension : Z;
  g_maxDegree : Z;
  g_alpha : f32;
  g_searchL : Z;
  g_entryNode : nat;
  g_distCalc : Calculator;
  g_nodeCount : Z;
  g_deletedCount : Z
}.

#[local] Abbreviation R := (result diskannError).
#[local] Abbreviation G := (M VamanaGraph diskannError).

(** [distance.New] knows the dot product as "dot_product", and takes any name it
    does not know for the cosine. *)
Definition distance_New (metric : string) : Calculator :=
  calc_Distance (Distance.New
    (if String.eqb metric "cosine" then MetricCosine
     else if String.eqb metric "euclidean" then MetricEuclidean
     else if String.eqb metric "dot_product" then MetricDotProduct
     else MetricOther)).

Definition NewVamanaGraph (dimension maxDegree : Z) (alpha : f32) (metric : string) : VamanaGraph :=
  let distCalc :=
    if String.eqb metric "cosine" then distance_New "cosine"
    else if String.eqb metric "euclidean" || String.eqb metric "l2" then distance_New "euclidean"
    else if String.eqb metric "dot" || String.eqb metric "ip" then distance_New "dot"
    else distance_New "euclidean" in
  mkVamanaGraph [] ∅ dimension maxDegree alpha 100 0 distCalc 0 0.

Definition set_nodes (ns : list Node) (g : VamanaGraph) : VamanaGraph :=
  mkVamanaGraph ns (g_idToNode g) (g_dimension g) (g_maxDegree g) (g_alpha g) (g_searchL g)
    (g_entryNode g) (g_distCalc g) (g_nodeCount g) (g_deletedCount g).
Definition set_entry (e : nat) (g : VamanaGraph) : VamanaGraph :=
  mkVamanaGraph (g_nodes g) (g_idToNode g) (g_dimension g) (g_maxDegree g) (g_alpha g)
    (g_searchL g) e (g_distCalc g) (g_nodeCount g) (g_deletedCount g).
Definition set_counts (count deleted : Z) (g : VamanaGraph) : VamanaGraph :=
  mkVamanaGraph (g_nodes g) (g_idToNode g) (g_dimension g) (g_maxDegree g) (g_alpha g)
    (g_searchL g) (g_entryNode g) (g_distCalc g) count deleted.
Definition SetSearchL (l : Z) (g : VamanaGraph) : VamanaGraph :=
  mkVamanaGraph (g_nodes g) (g_idToNode g) (g_dimension g) (g_maxDegree g) (g_alpha g) l
    (g_entryNode g) (g_distCalc g) (g_nodeCount g) (g_deletedCount g).

(** [g.nodes[id]] and a use of the node: a missing node is nil. *)
Definition node_at (g : VamanaGraph) (id : nat) : R Node :=
  match g_nodes g !! id with Some n => Ok n | None => Panic end.

(** [getVector], of a number and of an identifier *)
Definition getVector (g : VamanaGraph) (id : nat) : vector :=
  match g_nodes g !! id with Some n => n_Vector n | None => [] end.
Definition getVector_id (g : VamanaGraph) (id : string) : vector :=
  match g_idToNode g !! id with Some i => getVector g i | None => [] end.

Definition distance (g : VamanaGraph) (a b : vector) : f32 := g_distCalc g a b.

(** [Euclidean] and [Cosine] index the second vector by the first one. *)
Fixpoint Euclidean_go (dist : f32) (a b : vector) : R f32 :=
  match a, b with
  | [], _ => Ok dist
  | _, [] => Panic
  | x :: a, y :: b => let diff := f32_sub x y in
                      Euclidean_go (f32_add dist (f32_mul diff diff)) a b
  end.
Definition Euclidean (a b : vector) : R f32 := Euclidean_go f32_zero a b.

Fixpoint Cosine_go (dot normA normB : f32) (a b : vector) : R (f32 * f32 * f32) :=
  match a, b with
  | [], _ => Ok (dot, normA, normB)
  | _, [] => Panic
  | x :: a, y :: b => Cosine_go (f32_add dot (f32_mul x y)) (f32_add normA (f32_mul x x))
                        (f32_add normB (f32_mul y y)) a b
  end.
Definition Cosine (a b : vector) : R f32 :=
  '(dot, normA, normB) ← Cosine_go f32_zero f32_zero f32_zero a b;
  let eps := f32_ratio 1 100000000 in
  Ok (if flt normA eps || flt normB eps then f32_one
      else f32_sub f32_one (f32_div dot (f32_mul (sqrt32 normA) (sqrt32 normB)))).

(** ** search.go *)

(** The pushes of one neighbour that was not visited before *)
Definition offer (L : Z) (c : Candidate) (st : search_state) : result hnswError search_state :=
  better ← improves (ss_results st) L (cDistance c);
  Ok (if (better : bool) then
        SearchState (ss_visited st) (heap_Push min_less c (ss_candidates st))
          (push_bounded L c (ss_results st))
      else st).

Fixpoint explore (g : VamanaGraph) (query : vector) (L : Z) (neighbors : list nat)
    (st : search_state) : result hnswError search_state :=
  match neighbors with
  | [] => Ok st
  | id :: rest =>
      if decide (id ∈ ss_visited st) then explore g query L rest st else
      let st := SearchState ({[id]} ∪ ss_visited st) (ss_candidates st) (ss_results st) in
      match g_nodes g !! id with
      | None => Panic
      | Some n =>
          if n_deleted n then explore g query L rest st else
          st ← offer L (mkCandidate id (distance g query (getVector g id))) st;
          explore g query L rest st
      end
  end.

Fixpoint beam_loop (fuel : nat) (g : VamanaGraph) (query : vector) (L : Z) (st : search_state) :
    result hnswError (list Candidate) :=
  match fuel with
  | O => Panic
  | S fuel =>
      match heap_Pop min_less (ss_candidates st) with
      | None => Ok (ss_results st)
      | Some (curr, candidates) =>
          stop ← should_stop (ss_results st) L (cDistance curr);
          if (stop : bool) then Ok (ss_results st) else
          match g_nodes g !! cID curr with
          | None => Panic
          | Some node =>
              st ← explore g query L (n_Neighbors node)
                     (SearchState (ss_visited st) candidates (ss_results st));
              beam_loop fuel g query L st
          end
      end
  end.

(** The visited set and the two heaps that hold the entry point *)
Definition start (g : VamanaGraph) (query : vector) : search_state :=
  let c := mkCandidate (g_entryNode g) (distance g query (getVector g (g_entryNode g))) in
  SearchState {[g_entryNode g]} (heap_Push min_less c []) (heap_Push max_less c []).

Definition beam_width (g : VamanaGraph) (L : Z) : Z := if L <=? 0 then g_searchL g else L.

(** A node is pushed when it is first visited, so there are at most as many
    rounds as nodes, and one more. *)
Definition BeamSearch (g : VamanaGraph) (query : vector) (L : Z) : R (list Candidate) :=
  match g_nodes g with
  | [] => Ok []
  | _ =>
      match beam_loop (S (length (g_nodes g))) g query (beam_width g L) (start g query) with
      | Ok results => Ok (heap_drain max_less results)
      | _ => Panic
      end
  end.

(** [sortCandidates]: every element moves left past the ones that are greater.
    The sorted prefix is kept backwards. *)
Fixpoint insert_left (key : Candidate) (sorted : list Candidate) : list Candidate :=
  match sorted with
  | c :: rest => if fgt (cDistance c) (cDistance key) then c :: insert_left key rest
                 else key :: sorted
  | [] => [key]
  end.
Definition sortCandidates (cs : list Candidate) : list Candidate :=
  rev (foldl (λ sorted key, insert_left key sorted) [] cs).

Record SearchParams := mkSearchParams {
  sp_K : Z;
  sp_L : Z;
  sp_Filter : option (string → payload → bool)
}.

Definition passes (filter : option (string → payload → bool)) (n : Node) : bool :=
  negb (n_deleted n) &&
  match filter with Some f => f (n_ID n) (n_payload n) | None => true end.

Fixpoint filter_loop (fuel : nat) (g : VamanaGraph) (query : vector) (params : SearchParams)
    (L : Z) (st : search_state) (filtered : list Candidate) : result hnswError (list Candidate) :=
  match fuel with
  | O => Panic
  | S fuel =>
      if negb (len filtered <? i64 (sp_K params * 2)) then Ok filtered else
      match heap_Pop min_less (ss_candidates st) with
      | None => Ok filtered
      | Some (curr, candidates) =>
          match g_nodes g !! cID curr with
          | None => Panic
          | Some node =>
              let filtered := if passes (sp_Filter params) node then filtered ++ [curr]
                              else filtered in
              stop ← should_stop (ss_results st) L (cDistance curr);
              if (stop : bool) then Ok filtered else
              st ← explore g query L (n_Neighbors node)
                     (SearchState (ss_visited st) candidates (ss_results st));
              filter_loop fuel g query params L st filtered
          end
      end
  end.

(** [if len(cs) > k { cs = cs[:k] }] *)
Definition cut {E} (k : Z) (cs : list Candidate) : result E (list Candidate) :=
  if len cs >? k then slice cs 0 k else Ok cs.

Definition SearchWithFilter (g : VamanaGraph) (query : vector) (params : SearchParams) :
    R (list Candidate) :=
  match g_nodes g with
  | [] => Ok []
  | _ =>
      match filter_loop (S (length (g_nodes g))) g query params (beam_width g (sp_L params))
              (start g query) [] with
      | Ok filtered => cut (sp_K params) (sortCandidates filtered)
      | _ => Panic
      end
  end.

Fixpoint BatchSearch (g : VamanaGraph) (queries : list vector) (k L : Z) :
    R (list (list Candidate)) :=
  match queries with
  | [] => Ok []
  | query :: queries =>
      candidates ← BeamSearch g query L;
      candidates ← cut k candidates;
      rest ← BatchSearch g queries k L;
      Ok (candidates :: rest)
  end.

(** The neighbours that were not visited join the queue. *)
Definition enqueue (vq : gset nat * list nat) (id : nat) : gset nat * list nat :=
  if decide (id ∈ vq.1) then vq else ({[id]} ∪ vq.1, vq.2 ++ [id]).

Fixpoint range_loop (fuel : nat) (g : VamanaGraph) (query : vector) (radius : f32)
    (maxResults : Z) (visited : gset nat) (queue : list nat) (results : list Candidate) :
    R (list Candidate) :=
  match fuel with
  | O => Panic
  | S fuel =>
      match queue with
      | [] => Ok results
      | curr :: queue =>
          if negb ((maxResults <=? 0) || (len results <? maxResults)) then Ok results else
          node ← node_at g curr;
          if n_deleted node then range_loop fuel g query radius maxResults visited queue results
          else
          let dist := distance g query (getVector g curr) in
          let results := if fle dist radius then results ++ [mkCandidate curr dist] else results in
          let '(visited, queue) := foldl enqueue (visited, queue) (n_Neighbors node) in
          range_loop fuel g query radius maxResults visited queue results
      end
  end.

Definition RangeSearch (g : VamanaGraph) (query : vector) (radius : f32) (maxResults : Z) :
    R (list Candidate) :=
  match g_nodes g with
  | [] => Ok []
  | _ =>
      results ← range_loop (S (length (g_nodes g))) g query radius maxResults
                  {[g_entryNode g]} [g_entryNode g] [];
      Ok (sortCandidates results)
  end.

(** ** prune.go *)

(** The neighbours of a node and the new candidates, without the node itself *)
Definition allCandidates (nodeID : nat) (neighbors candidates : list nat) : gmap nat bool :=
  foldl (λ m c, if (c =? nodeID)%nat then m else <[c := true]> m) ∅ (neighbors ++ candidates).

(** [candDist] *)
Record candDist := mkCandDist { cd_id : nat; cd_dist : f32 }.

Fixpoint pool_of (g : VamanaGraph) (nodeVec : vector) (cs : list (nat * bool)) :
    R (list candDist) :=
  match cs with
  | [] => Ok []
  | (c, _) :: cs =>
      n ← node_at g c;
      pool ← pool_of g nodeVec cs;
      Ok (if n_deleted n then pool
          else mkCandDist c (distance g nodeVec (getVector g c)) :: pool)
  end.

Definition dist_less (a b : candDist) : bool := flt (cd_dist a) (cd_dist b).

Definition sorted_pool (g : VamanaGraph) (nodeID : nat) (node : Node) (candidates : list nat) :
    R (list candDist) :=
  pool ← pool_of g (getVector g nodeID)
           (map_range (allCandidates nodeID (n_Neighbors node) candidates));
  Ok (sort_Slice dist_less pool).

(** Is a candidate at least as far from every selected node, [alpha] times, as
    from the node itself? *)
Definition diverse (g : VamanaGraph) (selected : list nat) (p : candDist) : bool :=
  forallb (λ n, negb (fle (f32_mul (g_alpha g)
                             (distance g (getVector g (cd_id p)) (getVector g n))) (cd_dist p)))
    selected.

Fixpoint select_diverse (g : VamanaGraph) (pool : list candDist) (selected : list nat) : list nat :=
  match pool with
  | [] => selected
  | p :: pool =>
      if g_maxDegree g <=? len selected then selected
      else select_diverse g pool (if diverse g selected p then selected ++ [cd_id p] else selected)
  end.

Definition update_node (id : nat) (f : Node → Node) (g : VamanaGraph) : VamanaGraph :=
  set_nodes (alter f id (g_nodes g)) g.

(** [make([]uint32, 0, g.maxDegree)] panics on a negative capacity. *)
Definition robustPruneInternal (nodeID : nat) (candidates : list nat) : G unit :=
  g ← get;
  node ← lift (node_at g nodeID);
  pool ← lift (sorted_pool g nodeID node candidates);
  if g_maxDegree g <? 0 then panic else
  modify (update_node nodeID (SetNeighbors (select_diverse g pool []))).

Definition RobustPrune : nat → list nat → G unit := robustPruneInternal.

Definition SimplePrune (nodeID : nat) (candidates : list nat) : G unit :=
  g ← get;
  node ← lift (node_at g nodeID);
  pool ← lift (sorted_pool g nodeID node candidates);
  if g_maxDegree g <? 0 then panic else
  modify (update_node nodeID (SetNeighbors (cd_id <$> take (Z.to_nat (g_maxDegree g)) pool))).

Fixpoint each {E A} (f : A → M VamanaGraph E unit) (l : list A) : M VamanaGraph E unit :=
  match l with [] => mret tt | x :: l => f x;; each f l end.

Definition EnsureBidirectional (nodeID : nat) : G unit :=
  g ← get;
  node ← lift (node_at g nodeID);
  each (λ neighborID,
    g ← get;
    neighborNode ← lift (node_at g neighborID);
    when (negb (bool_decide (nodeID ∈ n_Neighbors neighborNode)))
      (modify (update_node neighborID (λ n, (AddNeighbor nodeID (g_maxDegree g) n).2))))
    (n_Neighbors node).

(** The nodes in the order of a range over the map *)
Definition range_nodes (g : VamanaGraph) : list (nat * Node) :=
  map_range (map_seq 0 (g_nodes g) : gmap nat Node).
Definition live_nodes (g : VamanaGraph) : list (nat * Node) :=
  filter (λ e, negb (n_deleted e.2)) (range_nodes g).

(** [for i := 0; i < dim; i++ { centroid[i] += vec[i] }] *)
Fixpoint add_vector (centroid vec : vector) : R vector :=
  match centroid, vec with
  | [], _ => Ok []
  | _, [] => Panic
  | c :: centroid, x :: vec => rest ← add_vector centroid vec; Ok (f32_add c x :: rest)
  end.

Fixpoint sum_vectors (g : VamanaGraph) (ns : list (nat * Node)) (centroid : vector) : R vector :=
  match ns with
  | [] => Ok centroid
  | (_, node) :: ns => centroid ← add_vector centroid (getVector_id g (n_ID node));
                       sum_vectors g ns centroid
  end.

(** The nearest node so far and its distance *)
Definition nearer (g : VamanaGraph) (centroid : vector) (best : nat * f32) (e : nat * Node) :
    nat * f32 :=
  let dist := distance g centroid (getVector g e.1) in
  if flt dist best.2 then (e.1, dist) else best.

Definition ComputeMedoid (g : VamanaGraph) : R nat :=
  match g_nodes g with
  | [] => Ok 0%nat
  | _ =>
      if g_dimension g <? 0 then Panic else
      centroid ← sum_vectors g (live_nodes g)
                   (replicate (Z.to_nat (g_dimension g)) f32_zero);
      let count := len (live_nodes g) in
      if count =? 0 then Ok (g_entryNode g) else
      let centroid := (λ x, f32_div x (f32_of_Z count)) <$> centroid in
      Ok (foldl (nearer g centroid) (0%nat, f32_of_Z (10 ^ 30)) (live_nodes g)).1
  end.

(** ** The operations of vamana.go *)

(** The check of the capacity and the new node *)
Definition add_node (id : string) (v : vector) (p : payload) (counted : Z) : G nat :=
  g ← get;
  match g_idToNode g !! id with
  | Some _ => throw ErrPointExists
  | None =>
      if MaxUint32 <=? len (g_nodes g) then throw ErrMaxNodesExceeded else
      if g_maxDegree g <? 0 then panic else
      let nodeID := length (g_nodes g) in
      put (mkVamanaGraph (g_nodes g ++ [NewNode id v p]) (<[id := nodeID]> (g_idToNode g))
        (g_dimension g) (g_maxDegree g) (g_alpha g) (g_searchL g)
        (if (nodeID =? 0)%nat then nodeID else g_entryNode g) (g_distCalc g)
        (g_nodeCount g + counted) (g_deletedCount g));;
      mret nodeID
  end.

(** The reverse edges of [Insert]: a full neighbour is passed over. *)
Definition add_reverse (nodeID : nat) : G unit :=
  g ← get;
  node ← lift (node_at g nodeID);
  each (λ neighborID,
    g ← get;
    lift (node_at g neighborID);;
    modify (update_node neighborID (λ n, (AddNeighbor nodeID (g_maxDegree g) n).2)))
    (n_Neighbors node).

Definition Insert (p : Point payload) : G unit :=
  g ← get;
  if negb (len (p_Vector p) =? g_dimension g) then throw ErrDimensionMismatch else
  nodeID ← add_node (p_ID p) (p_Vector p) (p_Payload p) 1;
  g ← get;
  if (length (g_nodes g) =? 1)%nat then mret tt else
  candidates ← lift (BeamSearch g (p_Vector p) (g_searchL g));
  RobustPrune nodeID (cID <$> candidates);;
  add_reverse nodeID.

Definition SearchWithEf (g : VamanaGraph) (query : vector) (k ef : Z) : R (list Candidate) :=
  if negb (len query =? g_dimension g) then Err ErrDimensionMismatch
  else if k <=? 0 then Err ErrInvalidK else
  candidates ← BeamSearch g query (if ef <? k then k else ef);
  cut k candidates.

Definition Search (g : VamanaGraph) (query : vector) (k : Z) : R (list Candidate) :=
  SearchWithEf g query k (g_searchL g).

Definition Delete (id : string) : G unit :=
  g ← get;
  match g_idToNode g !! id with
  | None => throw ErrPointNotFound
  | Some nodeID =>
      lift (node_at g nodeID);;
      modify (update_node nodeID MarkDeleted);;
      modify (λ g, set_counts (g_nodeCount g) (g_deletedCount g + 1) g)
  end.

Definition point_of (n : Node) : Point payload := mkPoint (n_ID n) (n_Vector n) (n_payload n).

(** The node of an identifier, when it is not deleted *)
Definition live_node (g : VamanaGraph) (id : string) : R Node :=
  match g_idToNode g !! id with
  | None => Err ErrPointNotFound
  | Some nodeID =>
      node ← node_at g nodeID;
      if n_deleted node then Err ErrPointNotFound else Ok node
  end.

Definition Get (g : VamanaGraph) (id : string) : R (Point payload) :=
  node ← live_node g id; Ok (point_of node).

Definition Size (g : VamanaGraph) : Z := g_nodeCount g - g_deletedCount g.
Definition TotalSize (g : VamanaGraph) : Z := g_nodeCount g.

Definition GetNodeID (g : VamanaGraph) (pointID : string) : option nat := g_idToNode g !! pointID.
Definition GetPointID (g : VamanaGraph) (nodeID : nat) : string :=
  match g_nodes g !! nodeID with Some n => n_ID n | None => "" end.

(** [Iterate(fn)]: the callback acts on a state of its own, and its first error
    ends the iteration. *)
Fixpoint Iterate_go {S E} (fn : string → M S E unit) (ns : list (nat * Node)) : M S E unit :=
  match ns with
  | [] => mret tt
  | (_, n) :: ns => if n_deleted n then Iterate_go fn ns else fn (n_ID n);; Iterate_go fn ns
  end.
Definition Iterate {S E} (fn : string → M S E unit) (g : VamanaGraph) : M S E unit :=
  Iterate_go fn (range_nodes g).

Definition GetAllPoints (g : VamanaGraph) : list (Point payload) :=
  point_of ∘ snd <$> live_nodes g.

(** The first [k] results that are not the point itself: one is added before the
    length is compared. *)
Fixpoint others (g : VamanaGraph) (id : string) (k : Z) (cs result : list Candidate) :
    list Candidate :=
  match cs with
  | [] => result
  | c :: cs =>
      let result := if String.eqb (GetPointID g (cID c)) id then result else result ++ [c] in
      if k <=? len result then result else others g id k cs result
  end.

(** [make([]Candidate, 0, k)] panics on a negative [k], but [Search] has refused
    every [k] below 0 by then. *)
Definition Recommend (g : VamanaGraph) (id : string) (k : Z) : R (list Candidate) :=
  node ← live_node g id;
  candidates ← Search g (n_Vector node) (i64 (k + 1));
  if k <? 0 then Panic else Ok (others g id k candidates []).

Record Stats := mkStats {
  s_TotalNodes : Z; s_DeletedNodes : Z; s_ActiveNodes : Z; s_Dimension : Z; s_MaxDegree : Z;
  s_Alpha : f32; s_AvgDegree : f64
}.

Definition GetStats (g : VamanaGraph) : Stats :=
  let totalDegree := foldl (λ sum e, sum + Degree e.2) 0 (live_nodes g) in
  let activeNodes := len (live_nodes g) in
  mkStats (g_nodeCount g) (g_deletedCount g) activeNodes (g_dimension g) (g_maxDegree g)
    (g_alpha g)
    (if activeNodes >? 0
     then SFdiv 53 1024 (f64_of_Z totalDegree) (f64_of_Z activeNodes) else S754_zero false).

(** ** build.go *)
Record BuildOptions := mkBuildOptions {
  bo_NumPasses : Z; bo_RandomSeed : Z; bo_ShuffleOrder : bool
}.
Definition DefaultBuildOptions : BuildOptions := mkBuildOptions 2 42 true.

Definition addReverseEdge (nodeID neighborID : nat) : G unit :=
  g ← get;
  neighborNode ← lift (node_at g neighborID);
  let currentNeighbors := n_Neighbors neighborNode in
  if len currentNeighbors <? g_maxDegree g
  then modify (update_node neighborID (λ n, (AddNeighbor nodeID (g_maxDegree g) n).2))
  else robustPruneInternal neighborID (currentNeighbors ++ [nodeID]).

Definition addReverseEdges (nodeID : nat) : G unit :=
  g ← get;
  node ← lift (node_at g nodeID);
  each (addReverseEdge nodeID) (n_Neighbors node).

(** A new node has no payload: the nil map is an argument. *)
Definition IncrementalInsert (nil_payload : payload) (vec : vector) (id : string) : G unit :=
  g ← get;
  if negb (len vec =? g_dimension g) then throw ErrDimensionMismatch else
  nodeID ← add_node id vec nil_payload 0;
  g ← get;
  if (length (g_nodes g) =? 1)%nat then mret tt else
  candidates ← lift (BeamSearch g vec (g_searchL g));
  RobustPrune nodeID (cID <$> candidates);;
  addReverseEdges nodeID.

(** [shuffleOrder], from index [i] down to 1 *)
Fixpoint shuffle_from {rs : Rng} (i : nat) (r : rng) (order : list nat) : list nat * rng :=
  match i with
  | O => (order, r)
  | S i' => let '(j, r) := Intn (Z.of_nat i + 1) r in
            shuffle_from i' r (swap i (Z.to_nat j) order)
  end.
Definition shuffleOrder {rs : Rng} (r : rng) (order : list nat) : list nat * rng :=
  shuffle_from (length order - 1) r order.

(** How a construction stops: with an error, or waiting for ever for a lock *)
Inductive build_stop := BuildErr (e : diskannError) | Blocked.

Definition as_build {A} (m : G A) : M VamanaGraph build_stop A := λ g,
  match m g with
  | (Ok a, g) => (Ok a, g)
  | (Err e, g) => (Err (BuildErr e), g)
  | (Panic, g) => (Panic, g)
  end.

(** [g.nodes[i] = node; g.idToNode[id] = i], where [i] is at most one past the
    last node *)
Definition store_node (i : nat) (id : string) (node : Node) (g : VamanaGraph) : VamanaGraph :=
  mkVamanaGraph (take i (g_nodes g) ++ node :: drop (S i) (g_nodes g))
    (<[id := i]> (g_idToNode g)) (g_dimension g) (g_maxDegree g) (g_alpha g) (g_searchL g)
    (g_entryNode g) (g_distCalc g) (g_nodeCount g) (g_deletedCount g).

Fixpoint store_nodes (nil_payload : payload) (i : nat) (vectors : list vector)
    (ids : list string) : G unit :=
  match vectors, ids with
  | vec :: vectors, id :: ids =>
      g ← get;
      if negb (len vec =? g_dimension g) then throw ErrDimensionMismatch else
      if g_maxDegree g <? 0 then panic else
      modify (store_node i id (NewNode id vec nil_payload));;
      store_nodes nil_payload (S i) vectors ids
  | _, _ => mret tt
  end.

Definition build_node (pass : nat) (nodeID : nat) : G unit :=
  g ← get;
  node ← lift (node_at g nodeID);
  candidates ← lift (BeamSearch g (n_Vector node) (g_searchL g));
  (if (pass =? 0)%nat then SimplePrune nodeID (cID <$> candidates)
   else RobustPrune nodeID (cID <$> candidates));;
  addReverseEdges nodeID.

(** [g.mu.RLock()] waits for ever when the goroutine itself holds the mutex for
    writing. *)
Definition read_locked {A} (held : bool) (r : VamanaGraph → R A) : M VamanaGraph build_stop A :=
  if held then throw Blocked else as_build (λ g, (r g, g)).

(** [g.mu.Lock(); g.entryNode = g.ComputeMedoid(); g.mu.Unlock()], where
    [ComputeMedoid] takes the read lock of the same mutex *)
Definition update_entry : M VamanaGraph build_stop unit :=
  medoid ← read_locked true ComputeMedoid;
  modify (set_entry medoid).

Fixpoint build_passes {rs : Rng} (opts : BuildOptions) (passes : list nat) (r : rng)
    (order : list nat) : M VamanaGraph build_stop unit :=
  match passes with
  | [] => mret tt
  | pass :: passes =>
      let '(order, r) := if bo_ShuffleOrder opts then shuffleOrder r order else (order, r) in
      each (λ nodeID, as_build (build_node pass nodeID)) order;;
      update_entry;;
      build_passes opts passes r order
  end.

(** [source] is [rand.New(rand.NewSource(seed))]. *)
Definition BuildIndex {rs : Rng} (source : Z → rng) (nil_payload : payload)
    (vectors : list vector) (ids : list string) (opts : option BuildOptions) :
    M VamanaGraph build_stop unit :=
  if negb (len vectors =? len ids) then throw (BuildErr ErrDimensionMismatch)
  else if len vectors =? 0 then mret tt else
  let opts := default DefaultBuildOptions opts in
  as_build (store_nodes nil_payload 0 vectors ids);;
  modify (set_entry 0);;
  build_passes opts (seq 0 (Z.to_nat (bo_NumPasses opts))) (source (bo_RandomSeed opts))
    (seq 0 (length vectors)).

(** ** diskann.go *)
Record Index := mkIndex { x_config : Config; x_graph : VamanaGraph }.

Definition metric_name (m : MetricType) : string :=
  match m with
  | MetricCosine => "cosine"
  | MetricEuclidean => "euclidean"
  | MetricDotProduct => "dot"
  | MetricOther => "euclidean"
  end.

Definition New (cfg : Config) : R Index :=
  Validate cfg;;
  Ok (mkIndex cfg (SetSearchL (c_L cfg)
        (NewVamanaGraph (c_Dimension cfg) (c_R cfg) (c_Alpha cfg) (metric_name (c_Metric cfg))))).

Definition Index_SearchWithFilter (idx : Index) (query : vector) (params : SearchParams) :
    R (list Candidate) :=
  if negb (len query =? c_Dimension (x_config idx)) then Err ErrDimensionMismatch
  else SearchWithFilter (x_graph idx) query params.

Definition Index_BatchSearch (idx : Index) (queries : list vector) (k : Z) :
    R (list (list Candidate)) :=
  let L := c_L (x_config idx) in
  BatchSearch (x_graph idx) queries k (if L <? k then k else L).

Definition Index_RangeSearch (idx : Index) (query : vector) (radius : f32) : R (list Candidate) :=
  if negb (len query =? c_Dimension (x_config idx)) then Err ErrDimensionMismatch
  else RangeSearch (x_graph idx) query radius 0.

(** The operations that the index passes on to its graph *)
Definition on_graph {A} (m : G A) : M Index diskannError A := λ idx,
  let '(r, g) := m (x_graph idx) in (r, mkIndex (x_config idx) g).
Definition Index_Insert (p : Point payload) : M Index diskannError unit := on_graph (Insert p).
Definition Index_Delete (id : string) : M Index diskannError unit := on_graph (Delete id).
Definition Index_SetEfSearch (ef : Z) : M Index diskannError unit :=
  on_graph (modify (SetSearchL ef)).

(** [IteratePoints(fn)]: the callback acts on a state of its own and returns false
    to stop. *)
Fixpoint iterate_points {S} (fn : Point payload → S → bool * S) (ps : list (Point payload))
    (s : S) : S :=
  match ps with
  | [] => s
  | p :: ps => let '(continue, s) := fn p s in
               if (continue : bool) then iterate_points fn ps s else s
  end.
Definition Index_IteratePoints {S} (idx : Index) (fn : Point payload → S → bool * S) (s : S) : S :=
  iterate_points fn (GetAllPoints (x_graph idx)) s.

End vamana.

Arguments Node : clear implicits.
Arguments VamanaGraph : clear implicits.
Arguments SearchParams : clear implicits.
Arguments Index : clear implicits.
