(* ===== verification/VamanaGraphs.v ===== *)
(** * pkg/index/diskann: what the graph guarantees

    [BeamSearch] is the search of one layer of the HNSW index, so its theorems
    carry over. Insertions, deletions and prunings keep the graph well formed, and
    the operations implement a map of points that never forgets an identifier. *)
From stdpp Require Import base gmap strings list fin_maps numbers sorting sets.
From Stdlib Require Import Strings.Byte ZArith Lia Floats.SpecFloat.
From S2P Require Import Prelude Float32 Heap Kmeans Hnsw Distance HnswNode HnswSearch HnswTheorems.
From S2P Require Import Vamana.

#[local] Open Scope Z_scope.

Section theorems.
Context {payload : Type} {sorter : Sorter} {norder : MapOrder nat}.
Implicit Types (g : VamanaGraph payload) (n : Node payload).
#[local] Abbreviation G := (M (VamanaGraph payload) diskannError).

(** ** A beam search is the search of a layer *)
Definition as_node n : Hnsw.Node payload :=
  Hnsw.mkNode (n_ID n) (n_Vector n) None 0 [n_Neighbors n] (n_deleted n) (n_payload n).

(** The graph as the lowest layer of an index without quantizer *)
Definition as_hnsw g : HNSW payload :=
  mkHNSW (g_maxDegree g) (g_maxDegree g) (g_maxDegree g) (g_searchL g) (g_searchL g) 0
    (as_node <$> g_nodes g) (g_entryNode g) (g_nodeCount g) (g_dimension g) (g_idToNode g)
    (g_deletedCount g) None.

Lemma as_hnsw_lookup g i : h_nodes (as_hnsw g) !! i = as_node <$> g_nodes g !! i.
Proof. apply list_lookup_fmap. Qed.

Lemma as_hnsw_dist g q i n :
  g_nodes g !! i = Some n →
  query_dist (calc := g_distCalc g) (as_hnsw g) q i = Ok (distance g q (n_Vector n)).
Proof. intros Hi. unfold query_dist, Hnsw.node_at. by rewrite as_hnsw_lookup, Hi. Qed.

Lemma as_hnsw_connections g i n :
  g_nodes g !! i = Some n → getConnections (as_hnsw g) i 0 = Ok (n_Neighbors n).
Proof. intros Hi. unfold getConnections, Hnsw.node_at. by rewrite as_hnsw_lookup, Hi. Qed.

Lemma as_hnsw_live g i :
  live (as_hnsw g) i ↔ ∃ n, g_nodes g !! i = Some n ∧ n_deleted n = false.
Proof.
  unfold live. setoid_rewrite as_hnsw_lookup. split.
  - intros (m & Hm & Hd). apply fmap_Some in Hm as (n & Hn & ->). by exists n.
  - intros (n & Hn & Hd). exists (as_node n). by rewrite Hn.
Qed.

Lemma explore_same g q L ns st :
  explore g q L ns st = Hnsw.explore (calc := g_distCalc g) (as_hnsw g) q L ns st.
Proof.
  revert st. induction ns as [|i ns IH]; intros st; [done|]. cbn [explore Hnsw.explore].
  case_decide; [apply IH|]. unfold Hnsw.node_at. rewrite as_hnsw_lookup.
  destruct (g_nodes g !! i) as [n|] eqn:Hi; [|done]. cbn [fmap option_fmap option_map mbind result_bind].
  change (Hnsw.n_deleted (as_node n)) with (n_deleted n).
  destruct (n_deleted n); [apply IH|].
  rewrite (as_hnsw_dist _ _ _ _ Hi). cbn [mbind result_bind]. unfold offer, getVector. rewrite Hi.
  cbn [cDistance]. destruct (improves _ _ _) as [[]|e|]; cbn [mbind result_bind]; try done; apply IH.
Qed.

Lemma beam_loop_same fuel g q L st :
  beam_loop fuel g q L st = search_loop (calc := g_distCalc g) fuel (as_hnsw g) q L 0 st.
Proof.
  revert st. induction fuel as [|fuel IH]; intros st; [done|]. cbn [beam_loop search_loop].
  destruct (heap_Pop _ _) as [[curr cs]|]; [|done].
  destruct (should_stop _ _ _) as [[]|e|]; cbn [mbind result_bind]; try done.
  unfold getConnections, Hnsw.node_at. rewrite as_hnsw_lookup.
  destruct (g_nodes g !! cID curr) as [n|]; [|done].
  cbn [fmap option_fmap option_map mbind result_bind].
  change (GetConnections (as_node n) 0) with (Ok (E:=hnswError) (n_Neighbors n)).
  cbn [mbind result_bind]. rewrite explore_same.
  destruct (Hnsw.explore _ _ _ _ _) as [st'|e|]; cbn [mbind result_bind]; [apply IH|done..].
Qed.

(** [BeamSearch] is [searchLayer]. *)
Lemma beam_search_same g q L rs :
  (g_entryNode g < length (g_nodes g))%nat →
  searchLayer (calc := g_distCalc g) (as_hnsw g) q (g_entryNode g) (beam_width g L) 0 = Ok rs →
  BeamSearch g q L = Ok rs.
Proof.
  intros He. destruct (lookup_lt_is_Some_2 _ _ He) as [n Hn]. unfold searchLayer, BeamSearch.
  rewrite (as_hnsw_dist _ _ _ _ Hn). cbn [mbind result_bind].
  change (h_nodes (as_hnsw g)) with (as_node <$> g_nodes g). rewrite length_fmap.
  destruct (g_nodes g) as [|n0 ns0] eqn:E; [done|]. rewrite <- E in *.
  rewrite beam_loop_same. unfold start, getVector. rewrite Hn.
  destruct (search_loop _ _ _ _ _ _); cbn [mbind result_bind]; [|done..]. intros Hr. by simplify_eq.
Qed.

(** ** The invariant

    Neighbours are other nodes, each once and at most [R] of them; the identifiers
    are exactly those of the nodes; the entry point is a node. *)
Definition good_neighbors g (i : nat) (ns : list nat) : Prop :=
  NoDup ns ∧ i ∉ ns ∧ Forall (λ j, (j < length (g_nodes g))%nat) ns ∧ len ns ≤ g_maxDegree g.

Record wf g : Prop := {
  wf_R : 0 ≤ g_maxDegree g;
  wf_entry : g_nodes g ≠ [] → (g_entryNode g < length (g_nodes g))%nat;
  wf_size : size (g_idToNode g) = length (g_nodes g);
  wf_ids : ∀ id i, g_idToNode g !! id = Some i ↔ ∃ n, g_nodes g !! i = Some n ∧ n_ID n = id;
  wf_dim : ∀ i n, g_nodes g !! i = Some n → len (n_Vector n) = g_dimension g;
  wf_edges : ∀ i n, g_nodes g !! i = Some n → good_neighbors g i (n_Neighbors n)
}.

(** A graph without its edges *)
Definition skel g : VamanaGraph payload := set_nodes (SetNeighbors [] <$> g_nodes g) g.

Lemma skel_length g g' : skel g' = skel g → length (g_nodes g') = length (g_nodes g).
Proof.
  intros E. apply (f_equal (length ∘ g_nodes)) in E. simpl in E. by rewrite !length_fmap in E.
Qed.

Lemma skel_lookup g g' i :
  skel g' = skel g → SetNeighbors [] <$> g_nodes g' !! i = SetNeighbors [] <$> g_nodes g !! i.
Proof.
  intros E. apply (f_equal (λ g, g_nodes g !! i)) in E. simpl in E.
  by rewrite !list_lookup_fmap in E.
Qed.

Lemma skel_maxDegree g g' : skel g' = skel g → g_maxDegree g' = g_maxDegree g.
Proof. intros E. by apply (f_equal g_maxDegree) in E. Qed.

Lemma lookup_lt g i n : g_nodes g !! i = Some n → (i < length (g_nodes g))%nat.
Proof. apply lookup_lt_Some. Qed.

(** Changing a node, but not its identifier or its vector *)
Lemma update_lookup g i f n j :
  g_nodes g !! i = Some n →
  g_nodes (update_node i f g) !! j = if decide (j = i) then Some (f n) else g_nodes g !! j.
Proof.
  intros Hi. cbn [update_node set_nodes g_nodes]. case_decide as Hji.
  - subst j. by rewrite list_lookup_alter_eq, Hi.
  - by rewrite list_lookup_alter_ne.
Qed.

Lemma update_length g i f : length (g_nodes (update_node i f g)) = length (g_nodes g).
Proof. apply length_alter. Qed.

Lemma update_wf g i f n :
  wf g → g_nodes g !! i = Some n → n_ID (f n) = n_ID n → n_Vector (f n) = n_Vector n →
  good_neighbors g i (n_Neighbors (f n)) → wf (update_node i f g).
Proof.
  intros [H1 H2 H3 H4 H5 H6] Hi Hid Hv Hgood.
  pose proof (λ j, update_lookup g i f n j Hi) as Hlk.
  constructor; rewrite ?update_length; try done.
  - intros _. apply H2. intros E. by rewrite E in Hi.
  - intros id j. change (g_idToNode (update_node i f g)) with (g_idToNode g). rewrite H4, Hlk.
    case_decide as E; [subst j|done]. rewrite Hi. split; intros (m & [= <-] & <-); by eexists.
  - intros j m. rewrite Hlk. case_decide as E; [intros [= <-]; rewrite Hv; by apply (H5 i)|apply H5].
  - intros j m. rewrite Hlk. unfold good_neighbors. rewrite update_length.
    case_decide as E; [intros [= <-]; by subst j|apply H6].
Qed.

(** Giving a node other neighbours *)
Lemma update_edges g i f n ns :
  wf g → g_nodes g !! i = Some n → f n = SetNeighbors ns n → good_neighbors g i ns →
  wf (update_node i f g) ∧ skel (update_node i f g) = skel g.
Proof.
  intros Hwf Hi Hf Hgood. split; [by apply (update_wf g i f n); rewrite ?Hf|].
  unfold skel, set_nodes at 1. cbn [update_node set_nodes g_nodes]. unfold set_nodes. simpl. f_equal.
  apply list_eq. intros j. rewrite !list_lookup_fmap.
  change (alter f i (g_nodes g) !! j) with (g_nodes (update_node i f g) !! j).
  rewrite (update_lookup g i f n j Hi). case_decide as E; [subst j|done]. by rewrite Hi, Hf.
Qed.

(** A computation on a graph of [k] nodes that changes nothing but edges *)
Definition edges {E} (k : nat) (m : M (VamanaGraph payload) E unit) : Prop :=
  ∀ g, wf g → length (g_nodes g) = k → ∃ g', m g = (Ok tt, g') ∧ wf g' ∧ skel g' = skel g.

Lemma edges_ret {E} k : edges (E:=E) k (mret tt).
Proof. intros g Hwf _. by exists g. Qed.

Lemma edges_seq {E} k (m1 m2 : M (VamanaGraph payload) E unit) :
  edges k m1 → edges k m2 → edges k (m1;; m2).
Proof.
  intros H1 H2 g Hwf Hk. destruct (H1 g Hwf Hk) as (g1 & E1 & Hwf1 & Hs1).
  destruct (H2 g1 Hwf1) as (g2 & E2 & Hwf2 & Hs2); [by rewrite (skel_length _ _ Hs1)|].
  exists g2. rewrite (M_bind_run _ _ _ _ _ E1). split_and!; [done..|congruence].
Qed.

Lemma edges_each {E A} k (f : A → M (VamanaGraph payload) E unit) l :
  Forall (λ x, edges k (f x)) l → edges k (each f l).
Proof.
  induction 1 as [|x l Hx Hl IH]; [apply edges_ret|]. by apply edges_seq.
Qed.

(** One more neighbour *)
Lemma edges_add g i j n :
  wf g → g_nodes g !! j = Some n → (i < length (g_nodes g))%nat → i ≠ j →
  wf (update_node j (λ n, (AddNeighbor i (g_maxDegree g) n).2) g) ∧
  skel (update_node j (λ n, (AddNeighbor i (g_maxDegree g) n).2) g) = skel g.
Proof.
  intros Hwf Hj Hi Hne. destruct (wf_edges _ Hwf j n Hj) as (Hnd & Hself & HF & Hlen).
  assert (Hsame : n = SetNeighbors (n_Neighbors n) n) by (by destruct n).
  destruct (decide (i ∈ n_Neighbors n)) as [Hin|Hin].
  { apply (update_edges g j _ n (n_Neighbors n)); [done|done| |done].
    unfold AddNeighbor. by rewrite decide_True. }
  destruct (Z.ltb_spec (len (n_Neighbors n)) (g_maxDegree g)) as [Hlt|Hge].
  - apply (update_edges g j _ n (n_Neighbors n ++ [i])); [done|done| |].
    + unfold AddNeighbor. by rewrite decide_False, (proj2 (Z.ltb_lt _ _) Hlt).
    + split_and!.
      * apply NoDup_app. split_and!; [done| |apply NoDup_singleton]. intros x Hx ->%list_elem_of_singleton. done.
      * rewrite elem_of_app, list_elem_of_singleton. naive_solver.
      * apply Forall_app. split; [done|]. by constructor.
      * unfold len in *. rewrite length_app. simpl. lia.
  - apply (update_edges g j _ n (n_Neighbors n)); [done|done| |done].
    unfold AddNeighbor. by rewrite decide_False, (proj2 (Z.ltb_ge _ _) Hge).
Qed.

Lemma edges_alter k i j :
  (i < k)%nat → (j < k)%nat → i ≠ j →
  edges k (g ← get; lift (node_at g j);;
           modify (update_node j (λ n, (AddNeighbor i (g_maxDegree g) n).2)) : G unit).
Proof.
  intros Hi Hj Hne g Hwf <-. destruct (lookup_lt_is_Some_2 _ _ Hj) as [n Hn].
  eexists. unfold mbind, M_bind, get, lift, modify, node_at. rewrite Hn.
  split; [reflexivity|]. by apply (edges_add g i j n).
Qed.

(** ** Pruning *)
Definition live_id g (i : nat) : Prop := ∃ n, g_nodes g !! i = Some n ∧ n_deleted n = false.
Definition is_live g (i : nat) : bool :=
  match g_nodes g !! i with Some n => negb (n_deleted n) | None => false end.

Lemma vamana_is_live_spec g i : Is_true (is_live g i) ↔ live_id g i.
Proof.
  unfold is_live, live_id. destruct (g_nodes g !! i) as [n|]; [|naive_solver].
  destruct (n_deleted n) eqn:E; simpl; naive_solver congruence.
Qed.

(** The distance between two nodes *)
Definition node_dist g (i j : nat) : f32 := distance g (getVector g i) (getVector g j).

Lemma allCandidates_lookup i ns cs c b :
  allCandidates i ns cs !! c = Some b ↔ b = true ∧ c ≠ i ∧ c ∈ ns ++ cs.
Proof.
  unfold allCandidates. generalize (ns ++ cs) as l. induction l as [|x l IH] using rev_ind.
  { simpl. rewrite lookup_empty, elem_of_nil. naive_solver. }
  rewrite foldl_snoc, elem_of_app, list_elem_of_singleton.
  destruct (Nat.eqb_spec x i) as [->|Hx]; [rewrite IH; naive_solver|].
  destruct (decide (x = c)) as [->|Hc]; [rewrite lookup_insert_eq; naive_solver|].
  rewrite lookup_insert_ne, IH by done. naive_solver.
Qed.

Lemma pool_of_spec g v cs :
  Forall (λ c : nat * bool, (c.1 < length (g_nodes g))%nat) cs →
  ∃ pool, pool_of g v cs = Ok pool ∧ cd_id <$> pool = filter (is_live g) (fst <$> cs) ∧
    Forall (λ p, cd_dist p = distance g v (getVector g (cd_id p))) pool.
Proof.
  induction 1 as [|[c b] cs Hc HF (pool & E & Hid & Hd)]; [by exists []|].
  destruct (lookup_lt_is_Some_2 _ _ Hc) as [n Hn]. simpl in Hn. cbn [pool_of].
  unfold node_at. rewrite Hn, E. cbn [mbind result_bind]. rewrite fmap_cons, filter_cons.
  assert (El : is_live g c = negb (n_deleted n)) by (unfold is_live; by rewrite Hn).
  cbn [fst]. rewrite El. eexists. split; [done|].
  destruct (n_deleted n); cbn [negb]; case_decide; try done.
  rewrite fmap_cons, Hid. split; [done|]. by constructor.
Qed.

(** The pool of a pruning: every other live candidate once, at its distance *)
Definition pool_ok g (i : nat) (cs : list nat) (pool : list candDist) : Prop :=
  NoDup (cd_id <$> pool) ∧
  (∀ c, c ∈ cd_id <$> pool ↔ c ≠ i ∧ c ∈ cs ∧ live_id g c) ∧
  Forall (λ p, cd_dist p = node_dist g i (cd_id p)) pool ∧
  ((∀ j, node_dist g i j ≠ S754_nan) →
   StronglySorted (λ a b, dist_less b a = false) pool).

Lemma sorted_pool_spec g i n cs :
  Forall (λ j, (j < length (g_nodes g))%nat) (n_Neighbors n ++ cs) →
  ∃ pool, sorted_pool g i n cs = Ok pool ∧ pool_ok g i (n_Neighbors n ++ cs) pool.
Proof.
  intros HF. set (m := allCandidates i (n_Neighbors n) cs).
  pose proof (map_range_perm m) as Hp.
  assert (Hin : ∀ c, c ∈ (map_range m).*1 ↔ c ≠ i ∧ c ∈ n_Neighbors n ++ cs).
  { intros c. rewrite Hp. rewrite list_elem_of_fmap. split.
    - intros ([c' b] & -> & Hc%elem_of_map_to_list). unfold m in Hc.
      apply allCandidates_lookup in Hc. tauto.
    - intros Hc. exists (c, true). split; [done|]. apply elem_of_map_to_list.
      unfold m. by rewrite allCandidates_lookup. }
  destruct (pool_of_spec g (getVector g i) (map_range m)) as (pool & E & Hid & Hd).
  { apply Forall_forall. intros e He. rewrite Forall_forall in HF. apply HF, Hin.
    by apply list_elem_of_fmap_2. }
  exists (sort_Slice dist_less pool). unfold sorted_pool. fold m. rewrite E. cbn [mbind result_bind].
  pose proof (sort_Slice_perm dist_less pool) as Hs. split; [done|]. split_and!.
  - rewrite Hs, Hid. apply NoDup_filter. rewrite Hp. apply NoDup_fst_map_to_list.
  - intros c. rewrite Hs, Hid, list_elem_of_filter, vamana_is_live_spec, Hin. tauto.
  - by rewrite Hs.
  - intros Hnan. apply (sort_Slice_sorted dist_less (λ p, cd_dist p ≠ S754_nan)).
    + intros a b. apply flt_asym.
    + intros a b c. apply flt_ge_trans.
    + eapply Forall_impl; [exact Hd|]. intros p ->. apply Hnan.
Qed.

(** What the selection adds to the nodes selected so far *)
Lemma select_app g pool sel :
  ∃ rest, select_diverse g pool sel = sel ++ rest ∧ rest `sublist_of` (cd_id <$> pool) ∧
    len (sel ++ rest) ≤ Z.max (g_maxDegree g) (len sel).
Proof.
  revert sel. induction pool as [|p pool IH]; intros sel; cbn [select_diverse].
  { exists []. rewrite app_nil_r. split_and!; [done..|lia]. }
  destruct (Z.leb_spec (g_maxDegree g) (len sel)).
  { exists []. rewrite app_nil_r. split_and!; [done|apply sublist_nil_l|lia]. }
  destruct (diverse g sel p).
  - destruct (IH (sel ++ [cd_id p])) as (rest & -> & Hsub & Hlen). exists (cd_id p :: rest).
    rewrite <- app_assoc in *. split_and!; [done|by constructor|].
    unfold len in *. rewrite !length_app in *. simpl in *. lia.
  - destruct (IH sel) as (rest & -> & Hsub & Hlen). exists rest. split_and!; [done|by constructor|done].
Qed.

Lemma sublist_good g i cs pool ns :
  Forall (λ j, (j < length (g_nodes g))%nat) cs → pool_ok g i cs pool →
  ns `sublist_of` (cd_id <$> pool) → len ns ≤ g_maxDegree g → good_neighbors g i ns.
Proof.
  intros HF (Hnd & Hin & _) Hsub Hlen. rewrite Forall_forall in HF.
  assert (Hns : ∀ c, c ∈ ns → c ≠ i ∧ c ∈ cs).
  { intros c Hc. eapply elem_of_sublist in Hc; [|exact Hsub]. apply Hin in Hc. tauto. }
  split_and!; [by eapply sublist_NoDup| | |done].
  - intros Hi. by apply Hns in Hi as [].
  - apply Forall_forall. intros c Hc. by apply HF, Hns.
Qed.

(** Both prunings give a node neighbours taken from its pool. *)
Lemma edges_prune k i cs (pick : VamanaGraph payload → list candDist → list nat) :
  (∀ g pool, 0 ≤ g_maxDegree g → pick g pool `sublist_of` (cd_id <$> pool) ∧
    len (pick g pool) ≤ g_maxDegree g) →
  (i < k)%nat → Forall (λ j, (j < k)%nat) cs →
  edges k (g ← get;
    node ← lift (node_at g i);
    pool ← lift (sorted_pool g i node cs);
    if g_maxDegree g <? 0 then panic else
    modify (update_node i (SetNeighbors (pick g pool))) : G unit).
Proof.
  intros Hpick Hi HF g Hwf <-. destruct (lookup_lt_is_Some_2 _ _ Hi) as [n Hn].
  pose proof (wf_edges _ Hwf i n Hn) as (_ & _ & HFn & _).
  assert (HF' : Forall (λ j, (j < length (g_nodes g))%nat) (n_Neighbors n ++ cs))
    by (by apply Forall_app).
  destruct (sorted_pool_spec g i n cs HF') as (pool & E & Hpool).
  pose proof (wf_R _ Hwf) as HR. destruct (Hpick g pool HR) as [Hsub Hlen].
  eexists. unfold mbind, M_bind, get, lift, modify, node_at. rewrite Hn, E.
  rewrite (proj2 (Z.ltb_ge _ _) HR). split; [reflexivity|].
  apply (update_edges g i _ n (pick g pool)); [done..|]. by eapply sublist_good.
Qed.

Lemma edges_robust k i cs :
  (i < k)%nat → Forall (λ j, (j < k)%nat) cs → edges k (robustPruneInternal i cs).
Proof.
  intros Hi HF. apply (edges_prune k i cs (λ g pool, select_diverse g pool [])); [|done..].
  intros g pool HR. destruct (select_app g pool []) as (rest & -> & Hsub & Hlen).
  unfold len in *. simpl in *. split; [done|lia].
Qed.

Lemma edges_simple k i cs :
  (i < k)%nat → Forall (λ j, (j < k)%nat) cs → edges k (SimplePrune i cs).
Proof.
  intros Hi HF.
  apply (edges_prune k i cs (λ g pool, cd_id <$> take (Z.to_nat (g_maxDegree g)) pool)); [|done..].
  intros g pool HR. rewrite fmap_take. split; [apply sublist_take|].
  unfold len. rewrite length_take. lia.
Qed.

(** ** Searching a well-formed graph *)
Lemma as_hnsw_closed g :
  wf g → closed (as_hnsw g) 0 (λ i, (i < length (g_nodes g))%nat).
Proof.
  intros Hwf. constructor.
  - intros i Hi. change (h_nodes (as_hnsw g)) with (as_node <$> g_nodes g).
    by rewrite length_fmap.
  - intros i Hi. destruct (lookup_lt_is_Some_2 _ _ Hi) as [n Hn]. exists (n_Neighbors n).
    split; [by apply as_hnsw_connections|]. apply (wf_edges _ Hwf i n Hn).
Qed.

(** A node of the graph at its distance from the query, live or the entry point *)
Definition hit g (q : vector) (c : Candidate) : Prop :=
  (cID c < length (g_nodes g))%nat ∧ cDistance c = distance g q (getVector g (cID c)) ∧
  (cID c = g_entryNode g ∨ live_id g (cID c)).

Lemma beam_search_Ok g q L :
  wf g → g_nodes g ≠ [] →
  ∃ rs, BeamSearch g q L = Ok rs ∧
    searchLayer (calc := g_distCalc g) (as_hnsw g) q (g_entryNode g) (beam_width g L) 0 = Ok rs ∧
    Forall (hit g q) rs ∧ NoDup (cID <$> rs) ∧ rs ≠ [] ∧ len rs ≤ Z.max (beam_width g L) 1.
Proof.
  intros Hwf Hne. pose proof (wf_entry _ Hwf Hne) as He.
  destruct (searchLayer_Ok (calc := g_distCalc g) (as_hnsw g) q (g_entryNode g) (beam_width g L) 0
    _ (as_hnsw_closed g Hwf) He) as (rs & E & HF & Hnd & Hrs & Hlen).
  exists rs. split_and!; [by apply beam_search_same|done| |done..].
  eapply Forall_impl; [exact HF|]. intros c (Hc & Hd & Hl). split_and!; [done| |].
  - destruct (lookup_lt_is_Some_2 _ _ Hc) as [n Hn]. rewrite (as_hnsw_dist _ _ _ _ Hn) in Hd.
    injection Hd as <-. unfold getVector. by rewrite Hn.
  - by rewrite as_hnsw_live in Hl.
Qed.

Lemma hits_in g q rs :
  Forall (hit g q) rs → Forall (λ j, (j < length (g_nodes g))%nat) (cID <$> rs).
Proof. rewrite Forall_fmap. intros H. eapply Forall_impl; [exact H|]. by intros c []. Qed.

(** ** Insertion *)

(** A graph with one more node *)
Definition grown g (id : string) (v : vector) (p : payload) (counted : Z) : VamanaGraph payload :=
  mkVamanaGraph (g_nodes g ++ [NewNode id v p]) (<[id := length (g_nodes g)]> (g_idToNode g))
    (g_dimension g) (g_maxDegree g) (g_alpha g) (g_searchL g)
    (if (length (g_nodes g) =? 0)%nat then length (g_nodes g) else g_entryNode g) (g_distCalc g)
    (g_nodeCount g + counted) (g_deletedCount g).

Lemma grown_length g id v p k : length (g_nodes (grown g id v p k)) = S (length (g_nodes g)).
Proof. cbn. rewrite length_app. simpl. lia. Qed.

Lemma grown_lookup g id v p k i :
  g_nodes (grown g id v p k) !! i =
  if decide (i = length (g_nodes g)) then Some (NewNode id v p) else g_nodes g !! i.
Proof.
  cbn. case_decide as E; [subst i; by rewrite list_lookup_middle|].
  destruct (decide (i < length (g_nodes g))%nat); [by rewrite lookup_app_l|].
  rewrite lookup_ge_None_2, lookup_ge_None_2; [done|lia|]. rewrite length_app. simpl. lia.
Qed.

Lemma grown_wf g id v p k :
  wf g → g_idToNode g !! id = None → len v = g_dimension g → wf (grown g id v p k).
Proof.
  intros [H1 H2 H3 H4 H5 H6] Hid Hv. constructor.
  - done.
  - intros _. rewrite grown_length. cbn. destruct (Nat.eqb_spec (length (g_nodes g)) 0); [lia|].
    assert (g_nodes g ≠ []) by (by intros E; rewrite E in *). specialize (H2 H). lia.
  - rewrite grown_length. cbn. rewrite map_size_insert_None by done. by rewrite H3.
  - intros id' i. change (g_idToNode (grown g id v p k)) with (<[id := length (g_nodes g)]> (g_idToNode g)).
    setoid_rewrite grown_lookup. destruct (decide (id' = id)) as [->|Hne].
    + rewrite lookup_insert_eq. split.
      * intros [= <-]. rewrite decide_True by done. by eexists.
      * intros (n & Hn & Hni). case_decide as E; [by subst|]. exfalso.
        assert (g_idToNode g !! id = Some i) by (apply H4; by exists n). congruence.
    + rewrite lookup_insert_ne, H4 by done. split.
      * intros (n & Hn & Hni). rewrite decide_False; [by exists n|].
        intros ->. apply lookup_lt in Hn. lia.
      * intros (n & Hn & Hni). case_decide; [by simplify_eq|by exists n].
  - intros i n. rewrite grown_lookup. case_decide; [by intros [= <-]|apply H5].
  - intros i n. rewrite grown_lookup. unfold good_neighbors. rewrite grown_length. case_decide.
    + intros [= <-]. split_and!; by constructor || apply not_elem_of_nil || done.
    + intros Hn. destruct (H6 i n Hn) as (Hnd & Hs & HF & Hl). split_and!; [done..| |done].
      eapply Forall_impl; [exact HF|]. simpl. lia.
Qed.

Lemma add_node_cases g id v p k :
  wf g → len v = g_dimension g →
  (is_Some (g_idToNode g !! id) ∧ add_node id v p k g = (Err ErrPointExists, g)) ∨
  (g_idToNode g !! id = None ∧ MaxUint32 ≤ len (g_nodes g) ∧
   add_node id v p k g = (Err ErrMaxNodesExceeded, g)) ∨
  (g_idToNode g !! id = None ∧ len (g_nodes g) < MaxUint32 ∧
   add_node id v p k g = (Ok (length (g_nodes g)), grown g id v p k) ∧ wf (grown g id v p k)).
Proof.
  intros Hwf Hv. unfold add_node. rewrite get_bind.
  destruct (g_idToNode g !! id) as [i|] eqn:E; [left; split; [by eexists|done]|].
  destruct (Z.leb_spec MaxUint32 (len (g_nodes g))) as [Hle|Hlt]; [by right; left|].
  rewrite (proj2 (Z.ltb_ge _ _) (wf_R _ Hwf)). right; right. split_and!; [done..|].
  by apply grown_wf.
Qed.

(** The rest of an insertion: nothing for the first node, otherwise the search,
    the pruning and the reverse edges. *)
Definition link (reverse : nat → G unit) (nodeID : nat) (v : vector) : G unit :=
  g ← get;
  if (length (g_nodes g) =? 1)%nat then mret tt else
  candidates ← lift (BeamSearch g v (g_searchL g));
  RobustPrune nodeID (cID <$> candidates);;
  reverse nodeID.

Lemma edges_link k reverse i v :
  edges k (reverse i) → (i < k)%nat → edges k (link reverse i v).
Proof.
  intros Hrev Hi g Hwf Hk. unfold link. rewrite get_bind.
  destruct (length (g_nodes g) =? 1)%nat; [by apply (edges_ret k g)|].
  destruct (beam_search_Ok g v (g_searchL g) Hwf) as (rs & E & _ & HF & _).
  { intros E. rewrite E in Hk. simpl in Hk. lia. }
  rewrite E. apply (edges_seq k (RobustPrune i (cID <$> rs)) (reverse i)); [|done..].
  apply edges_robust; [done|]. rewrite <- Hk. by eapply hits_in.
Qed.

(** Reverse edges, as [Insert] and as [build.go] add them *)
Lemma edges_neighbors k i (f : nat → G unit) :
  (i < k)%nat → (∀ j, (j < k)%nat → i ≠ j → edges k (f j)) →
  edges k (g ← get; node ← lift (node_at g i); each f (n_Neighbors node) : G unit).
Proof.
  intros Hi Hf g Hwf Hk. assert (Hi' : (i < length (g_nodes g))%nat) by lia.
  destruct (lookup_lt_is_Some_2 _ _ Hi') as [n Hn].
  destruct (wf_edges _ Hwf i n Hn) as (_ & Hself & HF & _).
  assert (Hrun : (g ← get; node ← lift (node_at g i); each f (n_Neighbors node) : G unit) g =
    each f (n_Neighbors n) g).
  { unfold mbind, M_bind, get, lift, node_at. by rewrite Hn. }
  rewrite Hrun. apply (edges_each k f); [|done..]. rewrite Forall_forall in HF |- *.
  intros j Hj. apply Hf; [rewrite <- Hk; by apply HF|]. by intros <-.
Qed.

Lemma edges_add_reverse k i : (i < k)%nat → edges k (add_reverse i).
Proof. intros Hi. apply edges_neighbors; [done|]. intros j Hj Hne. by apply edges_alter. Qed.

Lemma edges_addReverseEdge k i j : (i < k)%nat → (j < k)%nat → i ≠ j → edges k (addReverseEdge i j).
Proof.
  intros Hi Hj Hne g Hwf Hk. assert (Hj' : (j < length (g_nodes g))%nat) by lia.
  destruct (lookup_lt_is_Some_2 _ _ Hj') as [n Hn]. unfold addReverseEdge. rewrite get_bind.
  unfold node_at at 1. rewrite Hn.
  destruct (Z.ltb_spec (len (n_Neighbors n)) (g_maxDegree g)) as [Hlt|Hge];
    unfold mbind at 1, M_bind at 1, lift; rewrite ?(proj2 (Z.ltb_lt _ _) Hlt), ?(proj2 (Z.ltb_ge _ _) Hge).
  - eexists. split; [reflexivity|]. apply (edges_add g i j n); [done..|lia|done].
  - apply edges_robust with (k := k); [done| |done..].
    apply Forall_app. split; [rewrite <- Hk; apply (wf_edges _ Hwf j n Hn)|by constructor].
Qed.

Lemma edges_addReverseEdges k i : (i < k)%nat → edges k (addReverseEdges i).
Proof. intros Hi. apply edges_neighbors; [done|]. intros j Hj Hne. by apply edges_addReverseEdge. Qed.

(** ** The contract

    An index is a map from identifiers to points, marked once they are deleted: an
    identifier stays known for ever. [Size] is the number of insertions by [Insert]
    less the number of calls of [Delete]. *)
Record store := Store {
  st_points : gmap string (vector * payload * bool);
  st_dim : Z;
  st_count : Z;
  st_deleted : Z
}.

Inductive op := OInsert (p : Point payload) | OIncremental (nil_payload : payload) (v : vector) (id : string)
  | ODelete (id : string) | OGet (id : string) | OSize | OTotalSize.
Inductive out := RUnit (r : result diskannError unit)
  | RPoint (r : result diskannError (Point payload)) | RNum (z : Z).

Definition spec_add (s : store) (id : string) (v : vector) (p : payload) (counted : Z) :
    result diskannError unit * store :=
  if negb (len v =? st_dim s) then (Err ErrDimensionMismatch, s)
  else match st_points s !! id with
  | Some _ => (Err ErrPointExists, s)
  | None =>
      if MaxUint32 <=? Z.of_nat (size (st_points s)) then (Err ErrMaxNodesExceeded, s)
      else (Ok tt, Store (<[id := (v, p, false)]> (st_points s)) (st_dim s)
                     (st_count s + counted) (st_deleted s))
  end.

Definition spec_step (s : store) (o : op) : out * store :=
  match o with
  | OInsert p => let '(r, s) := spec_add s (p_ID p) (p_Vector p) (p_Payload p) 1 in (RUnit r, s)
  | OIncremental np v id => let '(r, s) := spec_add s id v np 0 in (RUnit r, s)
  | ODelete id =>
      match st_points s !! id with
      | None => (RUnit (Err ErrPointNotFound), s)
      | Some (v, p, _) =>
          (RUnit (Ok tt), Store (<[id := (v, p, true)]> (st_points s)) (st_dim s) (st_count s)
                            (st_deleted s + 1))
      end
  | OGet id =>
      (RPoint (match st_points s !! id with
               | Some (v, p, false) => Ok (mkPoint id v p)
               | _ => Err ErrPointNotFound
               end), s)
  | OSize => (RNum (st_count s - st_deleted s), s)
  | OTotalSize => (RNum (st_count s), s)
  end.

Definition impl_step g (o : op) : out * VamanaGraph payload :=
  match o with
  | OInsert p => let '(r, g) := Insert p g in (RUnit r, g)
  | OIncremental np v id => let '(r, g) := IncrementalInsert np v id g in (RUnit r, g)
  | ODelete id => let '(r, g) := Delete id g in (RUnit r, g)
  | OGet id => (RPoint (Get g id), g)
  | OSize => (RNum (Size g), g)
  | OTotalSize => (RNum (TotalSize g), g)
  end.

Fixpoint run {S} (step : S → op → out * S) (s : S) (os : list op) : list out * S :=
  match os with
  | [] => ([], s)
  | o :: os => let '(r, s) := step s o in let '(rs, s) := run step s os in (r :: rs, s)
  end.

Definition item n : vector * payload * bool := (n_Vector n, n_payload n, n_deleted n).
Definition points g : gmap string (vector * payload * bool) :=
  omap (λ i, item <$> g_nodes g !! i) (g_idToNode g).
Definition abs g : store := Store (points g) (g_dimension g) (g_nodeCount g) (g_deletedCount g).

Lemma points_lookup g id :
  points g !! id = i ← g_idToNode g !! id; item <$> g_nodes g !! i.
Proof. apply lookup_omap. Qed.

Lemma points_known g id : wf g → is_Some (g_idToNode g !! id) ↔ is_Some (points g !! id).
Proof.
  intros Hwf. rewrite points_lookup. split.
  - intros [i Hi]. rewrite Hi. apply (wf_ids _ Hwf) in Hi as (n & Hn & _). simpl. rewrite Hn. by eexists.
  - destruct (g_idToNode g !! id); [by eexists|]. by intros [].
Qed.

Lemma points_size g : wf g → size (points g) = length (g_nodes g).
Proof.
  intros Hwf. rewrite <- (wf_size _ Hwf), <- !size_dom. f_equal. apply set_eq. intros id.
  rewrite !elem_of_dom. by rewrite points_known.
Qed.

Lemma points_skel g g' : skel g' = skel g → points g' = points g.
Proof.
  intros E. apply map_eq. intros id. rewrite !points_lookup.
  assert (g_idToNode g' = g_idToNode g) as -> by (by apply (f_equal g_idToNode) in E).
  destruct (g_idToNode g !! id) as [i|]; [simpl|done].
  pose proof (skel_lookup g g' i E) as Hi.
  apply (f_equal (fmap item)) in Hi. rewrite <- !option_fmap_compose in Hi. exact Hi.
Qed.

Lemma vamana_abs_skel g g' : skel g' = skel g → abs g' = abs g.
Proof.
  intros E. unfold abs. rewrite (points_skel _ _ E).
  apply (f_equal (λ g, (g_dimension g, g_nodeCount g, g_deletedCount g))) in E. injection E as E1 E2 E3. by rewrite E1, E2, E3.
Qed.

Lemma abs_grown g id v p k :
  g_idToNode g !! id = None → wf g →
  abs (grown g id v p k) =
  Store (<[id := (v, p, false)]> (points g)) (g_dimension g) (g_nodeCount g + k) (g_deletedCount g).
Proof.
  intros Hid Hwf. unfold abs. f_equal. apply map_eq. intros id'. rewrite points_lookup.
  change (g_idToNode (grown g id v p k)) with (<[id := length (g_nodes g)]> (g_idToNode g)).
  destruct (decide (id' = id)) as [->|Hne].
  - rewrite !lookup_insert_eq. simpl. by rewrite list_lookup_middle.
  - rewrite !lookup_insert_ne, points_lookup by done.
    destruct (g_idToNode g !! id') as [i|] eqn:E; [|done]. cbn [mbind option_bind].
    apply (wf_ids _ Hwf) in E as (n & Hn & _). rewrite grown_lookup, decide_False; [done|].
    intros ->. apply lookup_lt in Hn. lia.
Qed.

(** Both insertions add the point and then change nothing but edges. *)
Lemma insertion_refines g id v p k reverse (m : G unit) :
  wf g → (∀ a i, (i < a)%nat → edges a (reverse i)) →
  m g = (g0 ← get;
         if negb (len v =? g_dimension g0) then throw ErrDimensionMismatch else
         i ← add_node id v p k; link reverse i v) g →
  wf (m g).2 ∧ ((m g).1, abs (m g).2) = spec_add (abs g) id v p k.
Proof.
  intros Hwf Hrev ->. rewrite get_bind. unfold spec_add. cbn [abs st_dim st_points st_count st_deleted].
  destruct (Z.eqb_spec (len v) (g_dimension g)) as [Hv|]; [|done]. cbn [negb].
  pose proof (points_known g id Hwf) as Hk. rewrite (points_size g Hwf). fold (len (g_nodes g)).
  destruct (add_node_cases g id v p k Hwf Hv) as [[Hs E]|[(Hn & Hle & E)|(Hn & Hlt & E & Hwf')]];
    rewrite ?(M_bind_Err _ _ _ _ _ E), ?(M_bind_run _ _ _ _ _ E).
  - apply Hk in Hs as [x Hx]. by rewrite Hx.
  - destruct (points g !! id) eqn:Ep.
    { assert (is_Some (g_idToNode g !! id)) as [x Hx] by (apply Hk; by eexists). congruence. }
    by rewrite (proj2 (Z.leb_le _ _) Hle).
  - destruct (points g !! id) eqn:Ep.
    { assert (is_Some (g_idToNode g !! id)) as [x Hx] by (apply Hk; by eexists). congruence. }
    rewrite (proj2 (Z.leb_gt _ _) Hlt).
    destruct (edges_link (S (length (g_nodes g))) reverse (length (g_nodes g)) v) with (g := grown g id v p k)
      as (g' & Eg & Hwfg & Hs); [apply Hrev; lia|lia|done|apply grown_length|].
    rewrite Eg. cbn [fst snd]. split; [done|]. by rewrite (vamana_abs_skel _ _ Hs), abs_grown.
Qed.

Lemma vamana_delete_refines g id :
  wf g → wf (Delete id g).2 ∧
  (RUnit (Delete id g).1, abs (Delete id g).2) = spec_step (abs g) (ODelete id).
Proof.
  intros Hwf. unfold Delete, spec_step. rewrite get_bind. cbn [abs st_points st_dim st_count st_deleted].
  rewrite points_lookup. destruct (g_idToNode g !! id) as [i|] eqn:Hi; [|done].
  apply (wf_ids _ Hwf) in Hi as Hn. destruct Hn as (n & Hn & Hid).
  cbn [mbind option_bind]. rewrite Hn. cbn [fmap option_fmap option_map].
  unfold mbind, M_bind, lift, node_at, modify. rewrite Hn. cbn [fst snd]. split.
  - destruct (update_wf g i MarkDeleted n Hwf Hn) as [H1 H2 H3 H4 H5 H6]; [done|done|apply (wf_edges _ Hwf i n Hn)|].
    by constructor.
  - unfold item at 1. f_equal. unfold abs. f_equal. apply map_eq. intros id'.
    change (points (set_counts _ _ _)) with (points (update_node i MarkDeleted g)).
    rewrite !points_lookup. change (g_idToNode (update_node i MarkDeleted g)) with (g_idToNode g).
    destruct (decide (id' = id)) as [->|Hne].
    + rewrite Hi, lookup_insert_eq. cbn [mbind option_bind]. rewrite (update_lookup g i _ n i Hn).
      by rewrite decide_True.
    + rewrite lookup_insert_ne, points_lookup by done.
      destruct (g_idToNode g !! id') as [j|] eqn:Hj; [|done]. cbn [mbind option_bind].
      rewrite (update_lookup g i _ n j Hn), decide_False; [done|]. intros ->.
      apply (wf_ids _ Hwf) in Hj as (m & Hm & <-). congruence.
Qed.

Lemma vamana_get_refines g id : wf g → spec_step (abs g) (OGet id) = (RPoint (Get g id), abs g).
Proof.
  intros Hwf. unfold spec_step, Get, live_node. cbn [abs st_points]. rewrite points_lookup.
  destruct (g_idToNode g !! id) as [i|] eqn:Hi; [|done].
  apply (wf_ids _ Hwf) in Hi as (n & Hn & <-). cbn [mbind option_bind]. unfold node_at. rewrite Hn.
  cbn. unfold item. by destruct (n_deleted n).
Qed.

Lemma vamana_step_refines g o :
  wf g → wf (impl_step g o).2 ∧ ((impl_step g o).1, abs (impl_step g o).2) = spec_step (abs g) o.
Proof.
  intros Hwf. destruct o as [p|np v id|id|id| |]; cbn [impl_step].
  - destruct (insertion_refines g (p_ID p) (p_Vector p) (p_Payload p) 1 add_reverse (Insert p) Hwf)
      as [H1 H2]; [intros; by apply edges_add_reverse|done|].
    destruct (Insert p g) as [r g']. cbn [fst snd] in *. split; [done|]. cbn [spec_step]. by rewrite <- H2.
  - destruct (insertion_refines g id v np 0 addReverseEdges (IncrementalInsert np v id) Hwf)
      as [H1 H2]; [intros; by apply edges_addReverseEdges|done|].
    destruct (IncrementalInsert np v id g) as [r g']. cbn [fst snd] in *. split; [done|].
    cbn [spec_step]. by rewrite <- H2.
  - pose proof (vamana_delete_refines g id Hwf) as [H1 H2]. by destruct (Delete id g) as [r g'].
  - split; [done|]. symmetry. by apply vamana_get_refines.
  - done.
  - done.
Qed.

Lemma vamana_run_refines g os :
  wf g → wf (run impl_step g os).2 ∧
  ((run impl_step g os).1, abs (run impl_step g os).2) = run spec_step (abs g) os.
Proof.
  revert g. induction os as [|o os IH]; intros g Hwf; [done|].
  destruct (vamana_step_refines g o Hwf) as [H1 H2]. cbn [run].
  destruct (impl_step g o) as [r g1]. cbn [fst snd] in *. rewrite <- H2.
  destruct (IH g1 H1) as [H3 H4]. destruct (run impl_step g1 os) as [rs g2]. cbn [fst snd] in *.
  by rewrite <- H4.
Qed.

Lemma New_wf cfg idx :
  New cfg = Ok idx → wf (x_graph idx) ∧ abs (x_graph idx) = Store ∅ (c_Dimension cfg) 0 0.
Proof.
  unfold New, Validate. repeat (case_match; [done|]). cbn [mbind result_bind]. intros [= <-].
  assert (HR : 1 ≤ c_R cfg) by (apply Z.ltb_ge; done). split.
  - constructor; cbn; try done; [lia|]. intros id i. rewrite lookup_empty. naive_solver.
  - done.
Qed.

(** From a new index, every sequence of insertions, deletions and lookups answers
    as the map of points does, never panics, and leaves a graph in which every
    node has at most [R] neighbours, all of them other nodes and each once. *)
Theorem vamana_refines_store cfg idx os :
  New cfg = Ok idx →
  let '(rs, g) := run impl_step (x_graph idx) os in
  wf g ∧ (rs, abs g) = run spec_step (Store ∅ (c_Dimension cfg) 0 0) os.
Proof.
  intros [Hwf Habs]%New_wf. destruct (vamana_run_refines _ os Hwf) as [H1 H2].
  destruct (run impl_step (x_graph idx) os) as [rs g]. by rewrite <- Habs.
Qed.

(** ** Diversity of the pruned neighbours *)
Lemma sublist_sorted {A} (R : A → A → Prop) (l k : list A) :
  l `sublist_of` k → StronglySorted R k → StronglySorted R l.
Proof.
  induction 1 as [|x l k Hs IH|x l k Hs IH]; intros Hk; [done| |].
  - inversion Hk as [|? ? Hk' HF]; subst. constructor; [by apply IH|].
    apply Forall_forall. intros y Hy. rewrite Forall_forall in HF. apply HF.
    by eapply elem_of_sublist.
  - inversion Hk; subst. by apply IH.
Qed.

(** [c] is too close to [a] to be a neighbour of [i] as well. *)
Definition covers g (i a c : nat) : bool :=
  fle (f32_mul (g_alpha g) (node_dist g c a)) (node_dist g i c).

Lemma diverse_spec g i sel p :
  cd_dist p = node_dist g i (cd_id p) →
  diverse g sel p = true ↔ ∀ a, a ∈ sel → covers g i a (cd_id p) = false.
Proof.
  intros Hd. unfold diverse. rewrite forallb_forall. unfold covers. rewrite <- Hd.
  setoid_rewrite negb_true_iff. setoid_rewrite <- list_elem_of_In. done.
Qed.

Lemma select_diverse_spec g i pool sel :
  Forall (λ p, cd_dist p = node_dist g i (cd_id p)) pool →
  StronglySorted (λ a b, covers g i a b = false) sel →
  StronglySorted (λ a b, covers g i a b = false) (select_diverse g pool sel) ∧
  ∀ c, c ∈ cd_id <$> pool → c ∈ select_diverse g pool sel ∨
    g_maxDegree g ≤ len (select_diverse g pool sel) ∨
    ∃ a, a ∈ select_diverse g pool sel ∧ covers g i a c = true.
Proof.
  intros HF. revert sel. induction HF as [|p pool Hp HF IH]; intros sel Hsel; cbn [select_diverse].
  { split; [done|]. intros c Hc. by apply elem_of_nil in Hc. }
  destruct (Z.leb_spec (g_maxDegree g) (len sel)) as [Hle|_].
  { split; [done|]. intros. by right; left. }
  destruct (diverse g sel p) eqn:Ed.
  - rewrite (diverse_spec g i sel p Hp) in Ed.
    destruct (IH (sel ++ [cd_id p])) as [H1 H2].
    { apply StronglySorted_app_2; [|done|by repeat constructor].
      intros a b Ha ->%list_elem_of_singleton. by apply Ed. }
    split; [done|]. rewrite fmap_cons. intros c [->|Hc]%elem_of_cons; [left|by apply H2].
    destruct (select_app g pool (sel ++ [cd_id p])) as (rest & -> & _).
    apply elem_of_app. left. apply elem_of_app. right. by apply list_elem_of_singleton.
  - destruct (IH sel Hsel) as [H1 H2]. split; [done|].
    rewrite fmap_cons. intros c [->|Hc]%elem_of_cons; [|by apply H2].
    destruct (existsb (λ a, covers g i a (cd_id p)) sel) eqn:Ee.
    + right; right. apply existsb_exists in Ee as (a & Ha & Hc). exists a. split; [|done].
      destruct (select_app g pool sel) as (rest & -> & _). apply elem_of_app. left.
      by apply list_elem_of_In.
    + exfalso. apply not_true_iff_false in Ed. apply Ed, (diverse_spec g i sel p Hp).
      intros a Ha. destruct (covers g i a (cd_id p)) eqn:Ec; [|done].
      rewrite <- Ee. symmetry. apply existsb_exists. exists a. split; [by apply list_elem_of_In|done].
Qed.

(** C35. [RobustPrune] leaves the graph well formed and gives a node new neighbours: live
    candidates, the nearest first, none covered by one before it; a live candidate
    that is left out is covered by a neighbour, or the node has [R] of them. *)
Theorem robust_prune_diverse g i n cs :
  wf g → g_nodes g !! i = Some n → Forall (λ j, (j < length (g_nodes g))%nat) cs →
  (∀ j, node_dist g i j ≠ S754_nan) →
  ∃ ns, RobustPrune i cs g = (Ok tt, update_node i (SetNeighbors ns) g) ∧
    wf (update_node i (SetNeighbors ns) g) ∧
    (∀ c, c ∈ ns → c ≠ i ∧ c ∈ n_Neighbors n ++ cs ∧ live_id g c) ∧
    StronglySorted (λ a b, flt (node_dist g i b) (node_dist g i a) = false) ns ∧
    StronglySorted (λ a b, covers g i a b = false) ns ∧
    ∀ c, c ≠ i → c ∈ n_Neighbors n ++ cs → live_id g c →
      c ∈ ns ∨ len ns = g_maxDegree g ∨ ∃ a, a ∈ ns ∧ covers g i a c = true.
Proof.
  intros Hwf Hn HF Hnan. pose proof (wf_edges _ Hwf i n Hn) as (_ & _ & HFn & _).
  assert (HF' : Forall (λ j, (j < length (g_nodes g))%nat) (n_Neighbors n ++ cs))
    by (by apply Forall_app).
  destruct (sorted_pool_spec g i n cs HF') as (pool & E & Hpool).
  pose proof (wf_R _ Hwf) as HR. set (ns := select_diverse g pool []).
  destruct (select_app g pool []) as (rest & Ens & Hsub & Hlen). fold ns in Ens. simpl in Ens.
  rewrite <- Ens in Hsub. simpl in Hlen. rewrite <- Ens in Hlen. change (len (@nil nat)) with 0 in Hlen.
  exists ns. pose proof Hpool as (Hnd & Hin & Hd & Hs). specialize (Hs Hnan).
  destruct (select_diverse_spec g i pool []) as [H1 H2]; [done|constructor|]. fold ns in H1, H2.
  split_and!.
  - unfold RobustPrune, robustPruneInternal, mbind, M_bind, get, lift, modify, node_at.
    rewrite Hn, E. by rewrite (proj2 (Z.ltb_ge _ _) HR).
  - apply (update_edges g i _ n ns); [done..|]. eapply sublist_good; [done..|lia].
  - intros c Hc. apply Hin. by eapply elem_of_sublist.
  - eapply sublist_sorted; [exact Hsub|]. clear -Hd Hs.
    induction Hs as [|p pool Hs IH HFs]; [constructor|]. inversion Hd as [|? ? Hp Hd']; subst.
    rewrite fmap_cons. constructor; [by apply IH|]. apply Forall_fmap.
    rewrite Forall_forall in HFs, Hd' |- *. intros b Hb. specialize (HFs b Hb).
    unfold dist_less in HFs. simpl. rewrite <- (Hd' b Hb), <- Hp. exact HFs.
  - done.
  - intros c Hc Hcs Hl. destruct (H2 c) as [?|[?|?]]; [by apply Hin|by left| |by right; right].
    right; left. lia.
Qed.

(** ** BuildIndex *)
Lemma edges_build k (m : G unit) : edges k m → edges k (as_build m).
Proof.
  intros Hm g Hwf Hk. destruct (Hm g Hwf Hk) as (g' & E & H'). exists g'.
  unfold as_build. by rewrite E.
Qed.

Lemma edges_build_node k pass i : (i < k)%nat → edges k (build_node pass i).
Proof.
  intros Hi g Hwf Hk. assert (Hi' : (i < length (g_nodes g))%nat) by lia.
  destruct (lookup_lt_is_Some_2 _ _ Hi') as [n Hn].
  destruct (beam_search_Ok g (n_Vector n) (g_searchL g) Hwf) as (rs & E & _ & HF & _).
  { intros E. by rewrite E in Hn. }
  assert (Hrun : build_node pass i g =
    ((if (pass =? 0)%nat then SimplePrune i (cID <$> rs) else RobustPrune i (cID <$> rs));;
     addReverseEdges i) g).
  { unfold build_node. rewrite get_bind. unfold node_at. rewrite Hn.
    unfold mbind at 1, M_bind at 1, lift at 1. unfold mbind at 1, M_bind at 1, lift at 1. by rewrite E. }
  rewrite Hrun. apply (edges_seq k); [|by apply edges_addReverseEdges|done..].
  apply hits_in in HF. rewrite Hk in HF.
  destruct (pass =? 0)%nat; [by apply edges_simple|by apply edges_robust].
Qed.

Lemma shuffle_range {rs : Rng} k i r order :
  (i < length order)%nat → Forall (λ j, (j < k)%nat) order →
  Forall (λ j, (j < k)%nat) (shuffle_from i r order).1.
Proof.
  revert r order. induction i as [|i IH]; intros r order Hi HF; [done|]. cbn [shuffle_from].
  pose proof (Intn_range (Z.of_nat (S i) + 1) r ltac:(lia)) as Hj.
  destruct (Intn (Z.of_nat (S i) + 1) r) as [j r']. simpl in Hj.
  assert (Hp : swap (S i) (Z.to_nat j) order ≡ₚ order) by (apply swap_perm; lia).
  apply IH; [rewrite Hp; lia|by rewrite Hp].
Qed.

Lemma store_node_grown g id v p :
  g_entryNode g = 0%nat → store_node (length (g_nodes g)) id (NewNode id v p) g = grown g id v p 0.
Proof.
  intros He. unfold store_node, grown. rewrite firstn_all, drop_ge by lia. rewrite Z.add_0_r, He.
  by destruct (Nat.eqb_spec (length (g_nodes g)) 0) as [->|].
Qed.

Lemma store_nodes_Ok np vectors ids g :
  wf g → g_entryNode g = 0%nat → length vectors = length ids → NoDup ids →
  Forall (λ id, g_idToNode g !! id = None) ids →
  Forall (λ v : vector, len v = g_dimension g) vectors →
  ∃ g', store_nodes np (length (g_nodes g)) vectors ids g = (Ok tt, g') ∧ wf g' ∧
    g_entryNode g' = 0%nat ∧ length (g_nodes g') = (length (g_nodes g) + length vectors)%nat.
Proof.
  revert ids g. induction vectors as [|v vectors IH]; intros [|id ids] g Hwf He Hlen Hnd Hids HF; try done.
  { exists g. split_and!; [done..|simpl; lia]. }
  apply NoDup_cons in Hnd as [Hid Hnd]. inversion Hids as [|? ? Hid' Hids']; subst.
  inversion HF as [|? ? Hv HF']; subst. cbn [store_nodes]. rewrite get_bind, Hv, Z.eqb_refl. cbn [negb].
  rewrite (proj2 (Z.ltb_ge _ _) (wf_R _ Hwf)). unfold mbind at 1, M_bind at 1, modify at 1.
  rewrite store_node_grown by done.
  destruct (IH ids (grown g id v np 0)) as (g' & E & Hwf' & He' & Hlen').
  - by apply grown_wf.
  - cbn. rewrite He. by destruct (Nat.eqb_spec (length (g_nodes g)) 0).
  - by injection Hlen.
  - done.
  - rewrite Forall_forall in Hids' |- *. intros x Hx. cbn. rewrite lookup_insert_ne by (by intros <-).
    by apply Hids'.
  - done.
  - rewrite grown_length in *. exists g'. split_and!; [done..|]. simpl. lia.
Qed.

(** The first pass ends at the lock. *)
Lemma build_passes_block {rs : Rng} opts pass passes r order k g :
  wf g → length (g_nodes g) = k → (0 < length order)%nat → Forall (λ j, (j < k)%nat) order →
  ∃ g', build_passes opts (pass :: passes) r order g = (Err Blocked, g') ∧ wf g' ∧
    length (g_nodes g') = k.
Proof.
  intros Hwf Hk Hpos HF. cbn [build_passes].
  assert (HF' : Forall (λ j, (j < k)%nat)
    (if bo_ShuffleOrder opts then shuffleOrder r order else (order, r)).1).
  { destruct (bo_ShuffleOrder opts); [|done]. apply shuffle_range; [lia|done]. }
  destruct (if bo_ShuffleOrder opts then _ else _) as [order' r']. cbn [fst] in HF'.
  destruct (edges_each (E:=build_stop) k (λ i, as_build (build_node pass i)) order')
    with (g := g) as (g2 & E2 & Hwf2 & Hs2); [|done|done|].
  { eapply Forall_impl; [exact HF'|]. intros j Hj. by apply edges_build, edges_build_node. }
  exists g2. rewrite (M_bind_run _ _ _ _ _ E2). split_and!; [done..|].
  by rewrite (skel_length _ _ Hs2).
Qed.

(** [BuildIndex] on a new index, with points that have the right dimension and
    different identifiers, and at least one pass: it links every node in the first
    pass, and then waits for ever for the lock it holds. *)
Theorem build_never_returns {rs : Rng} cfg idx source np vectors ids opts :
  New cfg = Ok idx → vectors ≠ [] → length vectors = length ids → NoDup ids →
  Forall (λ v : vector, len v = c_Dimension cfg) vectors →
  0 < bo_NumPasses (default DefaultBuildOptions opts) →
  ∃ g, BuildIndex source np vectors ids opts (x_graph idx) = (Err Blocked, g) ∧ wf g ∧
    length (g_nodes g) = length vectors.
Proof.
  intros HNew Hne Hlen Hnd HF Hpass. pose proof (New_wf cfg idx HNew) as [Hwf _].
  assert (Hx : g_nodes (x_graph idx) = [] ∧ g_entryNode (x_graph idx) = 0%nat ∧
    g_idToNode (x_graph idx) = ∅ ∧ g_dimension (x_graph idx) = c_Dimension cfg).
  { revert HNew. unfold New, Validate. repeat (case_match; [done|]). cbn [mbind result_bind].
    by intros [= <-]. }
  destruct Hx as (Hn & He & Hi & Hd).
  destruct (store_nodes_Ok np vectors ids (x_graph idx)) as (g1 & E1 & Hwf1 & He1 & Hlen1); try done.
  { rewrite Hi. apply Forall_forall. intros. apply lookup_empty. }
  { by rewrite Hd. }
  rewrite Hn in E1, Hlen1. simpl in E1, Hlen1.
  assert (Hset : set_entry 0 g1 = g1) by (destruct g1; simpl in *; by subst).
  unfold BuildIndex. assert (len vectors = len ids) as -> by (unfold len; lia).
  rewrite Z.eqb_refl. cbn [negb].
  destruct (Z.eqb_spec (len ids) 0) as [H0|_].
  { destruct vectors; [done|]. unfold len in H0. simpl in Hlen. lia. }
  assert (Hs : as_build (store_nodes np 0 vectors ids) (x_graph idx) = (Ok tt, g1))
    by (unfold as_build; by rewrite E1).
  rewrite (M_bind_run _ _ _ _ _ Hs). unfold mbind at 1, M_bind at 1, modify at 1. rewrite Hset.
  assert (Z.to_nat (bo_NumPasses (default DefaultBuildOptions opts)) =
    S (Z.to_nat (bo_NumPasses (default DefaultBuildOptions opts) - 1))) as -> by lia.
  cbn [seq]. rewrite <- Hlen1. apply build_passes_block; [done..| |].
  - rewrite length_seq. destruct vectors; [done|]. rewrite Hlen1. simpl. lia.
  - apply Forall_forall. intros j Hj%elem_of_seq. lia.
Qed.

End theorems.

(** ** Examples *)
#[local] Instance demo_sorter : Sorter := insertion_sorter.
#[local] Instance demo_order : MapOrder nat := listed_order nat.
#[local] Instance demo_rng : Rng := counting_rng.

(** Points on a line *)
Definition demo_config (R : Z) (metric : MetricType) : Config :=
  mkConfig R 100 (c_Alpha DefaultConfig) 1 1000000 metric "" false.
Definition demo_new (R : Z) : Index unit :=
  mkIndex (demo_config R MetricEuclidean)
    (SetSearchL 100 (NewVamanaGraph 1 R (c_Alpha DefaultConfig) "euclidean")).
Definition demo_insert (p : string * Z) : op :=
  OInsert (mkPoint p.1 [f32_of_Z p.2] tt).
Definition demo_graph (R : Z) (ps : list (string * Z)) : VamanaGraph unit :=
  (run impl_step (x_graph (demo_new R)) (demo_insert <$> ps)).2.

Lemma demo_wf R ps : 1 ≤ R → wf (demo_graph R ps).
Proof.
  intros HR. apply vamana_run_refines. apply (New_wf (demo_config R MetricEuclidean)).
  unfold New, Validate, demo_config. cbn [c_Dimension c_R c_L c_Alpha c_Metric].
  rewrite (proj2 (Z.ltb_ge R 1) HR). vm_compute flt. done.
Qed.

Lemma vamana_refines_store_witness :
  New (demo_config 2 MetricEuclidean) = Ok (demo_new 2) ∧
  let '(rs, g) := run impl_step (x_graph (demo_new 2))
    [demo_insert ("a", 0); demo_insert ("b", 4); ODelete "a"; OGet "a"; OSize] in
  wf g ∧ (rs, abs g) = run spec_step (Store ∅ 1 0 0)
    [demo_insert ("a", 0); demo_insert ("b", 4); ODelete "a"; OGet "a"; OSize].
Proof.
  split; [reflexivity|]. by apply (vamana_refines_store (demo_config 2 MetricEuclidean)).
Defined.

(** The first two points of a line of three keep the third one from the first. *)
Lemma robust_prune_diverse_witness :
  let g := demo_graph 4 [("a", 0); ("b", 1); ("c", 2)] in
  (n_Neighbors <$> g_nodes g !! 2%nat) = Some [1%nat] ∧
  ∃ ns, RobustPrune 0 [1%nat; 2%nat] g = (Ok tt, update_node 0 (SetNeighbors ns) g) ∧
    wf (update_node 0 (SetNeighbors ns) g) ∧ (2%nat ∈ ns ∨ len ns = 4 ∨
    ∃ a, a ∈ ns ∧ covers g 0 a 2 = true).
Proof.
  intros g. split; [vm_compute; reflexivity|].
  destruct (g_nodes g !! 0%nat) as [n|] eqn:Hn; [|vm_compute in Hn; discriminate].
  destruct (robust_prune_diverse g 0 n [1%nat; 2%nat]) as (ns & H1 & H2 & H3 & H4 & H5 & H6).
  - by apply demo_wf.
  - exact Hn.
  - repeat (apply Forall_cons_2; [vm_compute; lia|]). apply Forall_nil_2.
  - intros j. destruct j as [|[|[|j]]]; vm_compute; discriminate.
  - exists ns. split; [exact H1|]. split; [exact H2|].
    apply H6; [done|apply elem_of_app; right; right; left|]. apply vamana_is_live_spec. vm_compute. constructor.
Defined.

Lemma build_never_returns_witness :
  New (demo_config 2 MetricEuclidean) = Ok (demo_new 2) ∧
  ∃ g, BuildIndex (λ seed : Z, seed : @rng counting_rng) tt [[f32_of_Z 0]; [f32_of_Z 4]] ["a"; "b"] None (x_graph (demo_new 2))
      = (Err Blocked, g) ∧ wf g ∧ length (g_nodes g) = 2%nat.
Proof.
  split; [reflexivity|].
  apply (build_never_returns (demo_config 2 MetricEuclidean) (demo_new 2)
    (λ seed : Z, seed : @rng counting_rng) tt [[f32_of_Z 0]; [f32_of_Z 4]] ["a"; "b"] None).
  - reflexivity.
  - discriminate.
  - reflexivity.
  - apply NoDup_cons. split; [set_solver|apply NoDup_singleton].
  - repeat constructor.
  - reflexivity.
Defined.

(** An index for the dot product compares by the cosine, because its metric is not
    a name that [distance.New] knows. *)
Theorem dot_index_compares_cosine {payload} cfg (idx : Index payload) :
  New cfg = Ok idx → c_Metric cfg = MetricDotProduct →
  g_distCalc (x_graph idx) = calc_Distance Distance.Cosine.
Proof.
  unfold New, Validate. repeat (case_match; [done|]). cbn [mbind result_bind].
  intros [= <-] Hm. cbn. by rewrite Hm.
Qed.
