(* ===== verification/VamanaSearch.v ===== *)
(** * pkg/index/diskann: what the searches return

    The nearest neighbours, the filtered and the range search of a well-formed
    graph, and examples of where they fall short. *)
From stdpp Require Import base gmap strings list fin_maps numbers sorting sets.
From Stdlib Require Import Strings.Byte ZArith Lia Floats.SpecFloat.
From S2P Require Import Prelude Float32 Heap Kmeans Hnsw Distance HnswNode HnswSearch HnswTheorems.
From S2P Require Import Vamana VamanaGraphs.

#[local] Open Scope Z_scope.

Section search.
Context {payload : Type} {sorter : Sorter} {norder : MapOrder nat}.
Implicit Types (g : VamanaGraph payload) (n : Node payload).

(** ** Searches *)
Definition no_nan g (q : vector) : Prop :=
  ∀ i, (i < length (g_nodes g))%nat → distance g q (getVector g i) ≠ S754_nan.

Lemma cut_Ok {E} (k : Z) (cs : list Candidate) :
  0 ≤ k → cut k cs = Ok (E:=E) (take (Z.to_nat k) cs).
Proof.
  intros Hk. unfold cut. rewrite Z.gtb_ltb. destruct (Z.ltb_spec k (len cs)).
  - apply slice_take. lia.
  - rewrite take_ge; [done|]. unfold len in *. lia.
Qed.

Lemma beam_ascending g q L rs :
  wf g → g_nodes g ≠ [] → no_nan g q →
  searchLayer (calc := g_distCalc g) (as_hnsw g) q (g_entryNode g) (beam_width g L) 0 = Ok rs →
  ascending rs.
Proof.
  intros Hwf Hne Hnan. pose proof (wf_entry _ Hwf Hne) as He.
  apply (searchLayer_sorted (calc := g_distCalc g) _ _ _ _ _ _ (as_hnsw_closed g Hwf) He).
  intros i d Hi Hd. destruct (lookup_lt_is_Some_2 _ _ Hi) as [n Hn].
  rewrite (as_hnsw_dist _ _ _ _ Hn) in Hd. injection Hd as <-.
  specialize (Hnan i Hi). unfold getVector in Hnan. by rewrite Hn in Hnan.
Qed.

(** A search of a non-empty graph returns between one and [k] different nodes at
    their distances, all of them live but for the entry point, the nearest first. *)
Theorem vamana_search_sound g q k ef :
  wf g → g_nodes g ≠ [] → len q = g_dimension g → 0 < k →
  ∃ rs, SearchWithEf g q k ef = Ok rs ∧ rs ≠ [] ∧ len rs ≤ k ∧ NoDup (cID <$> rs) ∧
    Forall (hit g q) rs ∧ (no_nan g q → ascending rs).
Proof.
  intros Hwf Hne Hq Hk. unfold SearchWithEf. rewrite Hq, Z.eqb_refl, (proj2 (Z.leb_gt _ _) Hk).
  cbn [negb]. set (L := if ef <? k then k else ef).
  destruct (beam_search_Ok g q L Hwf Hne) as (rs & -> & Hs & HF & Hnd & Hrs & Hlen).
  cbn [mbind result_bind]. rewrite cut_Ok by lia. eexists. split; [done|]. split_and!.
  - destruct rs; [done|]. assert (Z.to_nat k = S (Z.to_nat (k - 1))) as -> by lia. done.
  - apply len_take. lia.
  - by apply NoDup_take_cID.
  - by apply Forall_take.
  - intros Hnan. apply ascending_take. by eapply beam_ascending.
Qed.

(** The nodes that a search can reach: the entry point, and the live neighbours of
    what it reaches. *)
Inductive reachable g : nat → Prop :=
| reachable_entry : reachable g (g_entryNode g)
| reachable_step i n j :
    reachable g i → g_nodes g !! i = Some n → j ∈ n_Neighbors n → live_id g j → reachable g j.

Lemma reachable_reach g i :
  reachable g i → reach (as_hnsw g) (g_entryNode g) 0 i.
Proof.
  induction 1 as [|i n j _ IH Hi Hj Hl]; [constructor|].
  eapply reach_step; [exact IH|by apply as_hnsw_connections|done|]. by apply as_hnsw_live.
Qed.

Definition live_count g : nat := length (filter (is_live g) (seq 0 (length (g_nodes g)))).

(** When the entry point is live, every live node can be reached and the list is
    long enough for all nodes, a search returns the [k] nearest live points. *)
Theorem vamana_search_exact g q k ef :
  wf g → len q = g_dimension g → 0 < k → live_id g (g_entryNode g) → no_nan g q →
  (∀ i, live_id g i → reachable g i) → len (g_nodes g) ≤ Z.max k ef →
  ∃ rs, SearchWithEf g q k ef = Ok rs ∧ len rs = Z.min k (Z.of_nat (live_count g)) ∧
    ascending rs ∧ NoDup (cID <$> rs) ∧ Forall (λ c, live_id g (cID c)) rs ∧ Forall (hit g q) rs ∧
    ∀ i c, live_id g i → i ∉ cID <$> rs → c ∈ rs →
      flt (distance g q (getVector g i)) (cDistance c) = false.
Proof.
  intros Hwf Hq Hk Hent Hnan Hreach Hbig.
  assert (Hne : g_nodes g ≠ []) by (destruct Hent as (n & Hn & _); by intros E; rewrite E in Hn).
  unfold SearchWithEf. rewrite Hq, Z.eqb_refl, (proj2 (Z.leb_gt _ _) Hk).
  cbn [negb]. set (L := if ef <? k then k else ef).
  destruct (beam_search_Ok g q L Hwf Hne) as (rs & -> & Hs & HF & Hnd & Hrs & Hlen).
  cbn [mbind result_bind]. rewrite cut_Ok by lia.
  assert (HL : len (g_nodes g) ≤ beam_width g L).
  { unfold beam_width, L. destruct (Z.ltb_spec ef k); case_match; lia. }
  assert (Hin : ∀ i, live_id g i → i ∈ cID <$> rs).
  { intros i Hi. eapply (searchLayer_full (calc := g_distCalc g)); [by apply as_hnsw_closed|
      |change (h_nodes (as_hnsw g)) with (as_node <$> g_nodes g)|exact Hs|].
    - by apply wf_entry.
    - unfold len in *. by rewrite length_fmap.
    - by apply reachable_reach, Hreach. }
  assert (HFl : Forall (λ c, live_id g (cID c)) rs).
  { eapply Forall_impl; [exact HF|]. by intros c (_ & _ & [->|Hl]). }
  assert (Hasc : ascending rs) by (by eapply beam_ascending).
  assert (Hp : cID <$> rs ≡ₚ filter (is_live g) (seq 0 (length (g_nodes g)))).
  { apply NoDup_Permutation; [done|apply NoDup_filter, NoDup_seq|].
    intros i. rewrite list_elem_of_filter, elem_of_seq, vamana_is_live_spec. split.
    - intros (c & -> & Hc)%list_elem_of_fmap. rewrite Forall_forall in HFl. specialize (HFl c Hc).
      split; [done|]. destruct HFl as (n & Hn & _). apply lookup_lt in Hn. lia.
    - intros [Hl _]. by apply Hin. }
  eexists. split; [done|]. split_and!.
  - apply Permutation_length in Hp. rewrite length_fmap in Hp. unfold live_count.
    rewrite <- Hp. unfold len. rewrite length_take. lia.
  - by apply ascending_take.
  - by apply NoDup_take_cID.
  - by apply Forall_take.
  - by apply Forall_take.
  - intros i c Hl Hnot Hc. specialize (Hin i Hl).
    apply list_elem_of_fmap in Hin as (d & -> & Hd).
    pose proof HF as HF'. rewrite Forall_forall in HF'. destruct (HF' d Hd) as (_ & <- & _).
    rewrite <- (take_drop (Z.to_nat k) rs) in Hasc, Hd. apply elem_of_app in Hd as [Hd|Hd].
    { exfalso. apply Hnot. by apply list_elem_of_fmap_2. }
    exact (StronglySorted_app_1_elem_of _ _ _ _ _ Hasc Hc Hd).
Qed.

(** ** Insertion sort *)
Lemma insert_left_perm key l : insert_left key l ≡ₚ key :: l.
Proof.
  induction l as [|c l IH]; [done|]. simpl. destruct (fgt _ _); [|done]. rewrite IH.
  apply Permutation_swap.
Qed.

Lemma sortCandidates_perm l : sortCandidates l ≡ₚ l.
Proof.
  unfold sortCandidates. rewrite <- Permutation_rev.
  induction l as [|x l IH] using rev_ind; [done|].
  rewrite foldl_snoc, insert_left_perm, IH. apply Permutation_cons_append.
Qed.

(** ** Filtered search *)
Lemma as_hnsw_st_ok g q L st :
  wf g → st_ok (calc := g_distCalc g) (as_hnsw g) q (g_entryNode g) L
    (λ i, (i < length (g_nodes g))%nat) st →
  Forall (hit g q) (ss_candidates st).
Proof.
  intros Hwf Hst. eapply Forall_impl; [apply (so_cands _ _ _ _ _ _ Hst)|]. intros c (Hc & Hd & Hl).
  split_and!; [done| |].
  - destruct (lookup_lt_is_Some_2 _ _ Hc) as [n Hn]. rewrite (as_hnsw_dist _ _ _ _ Hn) in Hd.
    injection Hd as <-. unfold getVector. by rewrite Hn.
  - by rewrite as_hnsw_live in Hl.
Qed.

(** A hit that is not deleted and passes the filter *)
Definition passing g (q : vector) (f : option (string → payload → bool)) (c : Candidate) : Prop :=
  hit g q c ∧ ∃ n, g_nodes g !! cID c = Some n ∧ passes f n = true.

Lemma filter_loop_Ok fuel g q params L st filtered :
  wf g →
  st_ok (calc := g_distCalc g) (as_hnsw g) q (g_entryNode g) L (λ i, (i < length (g_nodes g))%nat) st →
  rounds (as_hnsw g) st < Z.of_nat fuel → Forall (passing g q (sp_Filter params)) filtered →
  ∃ rs, filter_loop fuel g q params L st filtered = Ok rs ∧ Forall (passing g q (sp_Filter params)) rs.
Proof.
  intros Hwf. pose proof (as_hnsw_closed g Hwf) as HP.
  revert st filtered. induction fuel as [|fuel IH]; intros st filtered Hst Hr HF.
  { pose proof (visited_bound _ _ _ HP _ (so_visited _ _ _ _ _ _ Hst)).
    pose proof (len_nonneg (ss_candidates st)). unfold rounds in Hr. lia. }
  cbn [filter_loop]. destruct (negb _); [by exists filtered|].
  destruct (heap_Pop min_less (ss_candidates st)) as [[curr cands]|] eqn:E; [|by exists filtered].
  pose proof (as_hnsw_st_ok _ _ _ _ Hwf Hst) as Hhits.
  pose proof (Pop_perm _ _ _ _ E) as Hp. destruct Hst as [H1 H2 H3 H4 H5 H6 H7 He H8 H9].
  rewrite Hp in H2, H6, Hhits. apply Forall_cons in Hhits as [Hhit _].
  apply Forall_cons in H2 as [[Hcurr _] H2']. apply NoDup_cons in H6 as [_ H6].
  destruct (lookup_lt_is_Some_2 _ _ Hcurr) as [n Hn]. rewrite Hn.
  assert (HF' : Forall (passing g q (sp_Filter params))
    (if passes (sp_Filter params) n then filtered ++ [curr] else filtered)).
  { destruct (passes _ n) eqn:Epass; [|done]. apply Forall_app. split; [done|].
    constructor; [|done]. split; [done|by exists n]. }
  destruct (should_stop_Ok L (ss_results st) (cDistance curr) H8) as [[] Hs];
    rewrite Hs; cbn [mbind result_bind]; [by eexists|].
  rewrite explore_same.
  destruct (explore_Ok (calc := g_distCalc g) (as_hnsw g) q (g_entryNode g) L 0 _ HP (H1 _ He) (n_Neighbors n)
    (SearchState (ss_visited st) cands (ss_results st))) as (st' & -> & Hst' & Hr').
  { constructor; simpl; try done. intros c Hc. apply H4. rewrite Hp. by right. }
  { apply (wf_edges _ Hwf _ n Hn). }
  cbn [mbind result_bind]. apply IH; [done| |done].
  apply Permutation_length in Hp. simpl in Hp. unfold rounds, len in *. simpl in *. lia.
Qed.

(** A filtered search returns at most [K] live nodes that pass the filter, at
    their distances. *)
Theorem vamana_filtered_sound g q params :
  wf g → g_nodes g ≠ [] → 0 ≤ sp_K params →
  ∃ rs, SearchWithFilter g q params = Ok rs ∧ len rs ≤ sp_K params ∧
    Forall (passing g q (sp_Filter params)) rs.
Proof.
  intros Hwf Hne HK. pose proof (wf_entry _ Hwf Hne) as He. pose proof (as_hnsw_closed g Hwf) as HP.
  destruct (lookup_lt_is_Some_2 _ _ He) as [n Hn].
  destruct (filter_loop_Ok (S (length (g_nodes g))) g q params (beam_width g (sp_L params)) (start g q) [])
    as (rs & E & HF); [done| | |constructor|].
  - unfold start. rewrite !heap_Push_nil.
    eapply (init_ok (calc := g_distCalc g)); [exact HP|exact He|].
    rewrite (as_hnsw_dist _ _ _ _ Hn). unfold getVector. by rewrite Hn.
  - unfold start. rewrite !heap_Push_nil. unfold rounds. cbn [ss_candidates ss_visited].
    rewrite size_singleton. change (h_nodes (as_hnsw g)) with (as_node <$> g_nodes g).
    unfold len. rewrite length_fmap. simpl. lia.
  - unfold SearchWithFilter. rewrite E. destruct (g_nodes g); [done|].
    exists (take (Z.to_nat (sp_K params)) (sortCandidates rs)). rewrite cut_Ok by done.
    split_and!; [done|by apply len_take|]. apply Forall_take. by rewrite sortCandidates_perm.
Qed.

(** A negative [K] panics, whatever the graph holds. *)
Theorem negative_K_panics g q params :
  g_nodes g ≠ [] → - 2 ^ 62 ≤ sp_K params < 0 → SearchWithFilter g q params = Panic.
Proof.
  intros Hne HK. unfold SearchWithFilter. destruct (g_nodes g) as [|n ns]; [done|].
  cbn [filter_loop]. assert (i64 (sp_K params * 2) = sp_K params * 2) as ->
    by (apply swrap_id; lia).
  change (len (@nil Candidate)) with 0. rewrite (proj2 (Z.ltb_ge _ _)) by lia. cbn [negb].
  unfold sortCandidates. cbn. unfold cut. change (len (@nil Candidate)) with 0.
  rewrite (proj2 (Z.gtb_gt _ _)) by lia. apply slice_backwards. lia.
Qed.

(** ** Range search *)

(** The nodes a range search meets: it goes on from live nodes only. *)
Inductive met g : nat → Prop :=
| met_entry : met g (g_entryNode g)
| met_step i n j :
    met g i → g_nodes g !! i = Some n → n_deleted n = false → j ∈ n_Neighbors n → met g j.

Lemma met_valid g i : wf g → g_nodes g ≠ [] → met g i → (i < length (g_nodes g))%nat.
Proof.
  intros Hwf Hne. induction 1 as [|i n j _ IH Hi _ Hj]; [by apply wf_entry|].
  destruct (wf_edges _ Hwf i n Hi) as (_ & _ & HF & _). rewrite Forall_forall in HF. by apply HF.
Qed.

(** The fresh neighbours join the visited set and the queue. *)
Lemma enqueue_spec ns (V : gset nat) (Q : list nat) :
  ∃ new, foldl enqueue (V, Q) ns = (list_to_set new ∪ V, Q ++ new) ∧ NoDup new ∧
    (∀ j, j ∈ new → j ∉ V ∧ j ∈ ns) ∧ ∀ j, j ∈ ns → j ∈ V ∨ j ∈ new.
Proof.
  revert V Q. induction ns as [|i ns IH]; intros V Q; cbn [foldl].
  { clear. exists []. rewrite app_nil_r, list_to_set_nil, union_empty_l_L. split_and!; [done|constructor|..];
      intros j Hj; by apply elem_of_nil in Hj. }
  unfold enqueue at 2. cbn [fst snd]. case_decide as Hi.
  - destruct (IH V Q) as (new & -> & Hnd & H1 & H2). exists new. split_and!; [done|done|set_solver|].
    intros j [->|Hj]%elem_of_cons; [by left|by apply H2].
  - destruct (IH ({[i]} ∪ V) (Q ++ [i])) as (new & -> & Hnd & H1 & H2). exists (i :: new).
    split_and!.
    + f_equal; [set_solver|by rewrite <- app_assoc].
    + constructor; [|done]. intros Hin. apply H1 in Hin as [Hin _]. set_solver.
    + intros j [->|Hj]%elem_of_cons; [set_solver|]. apply H1 in Hj. set_solver.
    + intros j [->|Hj]%elem_of_cons; [right; by left|]. destruct (H2 j Hj); set_solver.
Qed.

(** A live node within the radius, at its distance *)
Definition within g (q : vector) (radius : f32) (c : Candidate) : Prop :=
  live_id g (cID c) ∧ cDistance c = distance g q (getVector g (cID c)) ∧
  fle (cDistance c) radius = true.

(** Between two rounds: the visited nodes are met; those not in the queue any more
    have all their neighbours visited, if they are live, and are in the results,
    if they are within the radius. *)
Record bfs g (q : vector) (radius : f32) (V : gset nat) (Q : list nat) (rs : list Candidate) :
    Prop := {
  bfs_met : ∀ i, i ∈ V → met g i;
  bfs_entry : g_entryNode g ∈ V;
  bfs_queue : ∀ i, i ∈ Q → i ∈ V;
  bfs_nodup : NoDup (Q ++ (cID <$> rs));
  bfs_closed : ∀ i n j, i ∈ V → i ∉ Q → g_nodes g !! i = Some n → n_deleted n = false →
    j ∈ n_Neighbors n → j ∈ V;
  bfs_results : ∀ c, c ∈ rs ↔ cID c ∈ V ∧ cID c ∉ Q ∧ within g q radius c
}.

(** The nodes still to come *)
Definition waiting g (V : gset nat) (Q : list nat) : Z :=
  len Q + len (g_nodes g) - Z.of_nat (size V).

Lemma visited_size g (V : gset nat) :
  wf g → g_nodes g ≠ [] → (∀ i, i ∈ V → met g i) → Z.of_nat (size V) ≤ len (g_nodes g).
Proof.
  intros Hwf Hne HV. assert (V ⊆ set_seq 0 (length (g_nodes g))) as Hsub.
  { intros i Hi%HV%met_valid; [|done..]. apply elem_of_set_seq. lia. }
  apply subseteq_size in Hsub. rewrite size_set_seq in Hsub. unfold len. lia.
Qed.

(** A round on a deleted node *)
Lemma bfs_deleted g q radius V i Q rs n :
  g_nodes g !! i = Some n → n_deleted n = true →
  bfs g q radius V (i :: Q) rs → bfs g q radius V Q rs.
Proof.
  intros Hi Hd [H1 H2 H3 H4 H5 H6]. constructor; try done.
  - intros j Hj. apply H3. by right.
  - by inversion H4.
  - intros j m k Hj HQ Hm Hdm Hk. destruct (decide (j = i)) as [->|Hne]; [congruence|].
    apply (H5 j m k); try done. by apply not_elem_of_cons.
  - intros c. rewrite H6, not_elem_of_cons. split; [naive_solver|].
    intros (Hc & HQ & Hw). split_and!; try done. intros E. destruct Hw as ((m & Hm & Hdm) & _). congruence.
Qed.

(** A round on a live node *)
Lemma bfs_live g q radius V i Q rs n new :
  g_nodes g !! i = Some n → n_deleted n = false →
  NoDup new → (∀ j, j ∈ new → j ∉ V ∧ j ∈ n_Neighbors n) →
  (∀ j, j ∈ n_Neighbors n → j ∈ V ∨ j ∈ new) →
  bfs g q radius V (i :: Q) rs →
  let dist := distance g q (getVector g i) in
  bfs g q radius (list_to_set new ∪ V) (Q ++ new)
    (if fle dist radius then rs ++ [mkCandidate i dist] else rs).
Proof.
  intros Hi Hd Hnew Hn1 Hn2 [H1 H2 H3 H4 H5 H6] dist.
  assert (HiV : i ∈ V) by (apply H3; by left).
  cbn [app] in H4. apply NoDup_cons in H4 as [Hi4 H4]. apply not_elem_of_app in Hi4 as [HiQ HiR].
  assert (Hrs : ∀ c, c ∈ rs → cID c ∈ V) by (intros c Hc; by apply H6).
  assert (Hfresh : ∀ j, j ∈ V → j ∉ new) by (intros j Hj Hjn; by apply (Hn1 j Hjn)).
  assert (Hres : ∀ c, c ∈ (if fle dist radius then rs ++ [mkCandidate i dist] else rs) ↔
    c ∈ rs ∨ (fle dist radius = true ∧ c = mkCandidate i dist)).
  { intros c. destruct (fle dist radius); [|naive_solver].
    rewrite elem_of_app, list_elem_of_singleton. naive_solver. }
  constructor.
  - intros j [Hj%elem_of_list_to_set|Hj]%elem_of_union; [|by apply H1].
    eapply met_step; [by apply (H1 i)|done|done|]. by apply Hn1.
  - set_solver.
  - intros j [Hj|Hj]%elem_of_app; [|set_solver]. apply elem_of_union_r, H3. by right.
  - rewrite <- app_assoc. apply NoDup_app. split_and!; [by apply NoDup_app in H4 as [? _]| |].
    + intros j Hj. rewrite elem_of_app. intros [Hjn|Hjr].
      * apply Hn1 in Hjn as [Hjn _]. apply Hjn, H3. by right.
      * apply list_elem_of_fmap in Hjr as (c & -> & Hc). apply Hres in Hc as [Hc|[_ ->]].
        -- apply NoDup_app in H4 as (_ & H4 & _). apply (H4 _ Hj). by apply list_elem_of_fmap_2.
        -- by apply HiQ.
    + apply NoDup_app. split_and!; [done| |].
      * intros j Hj Hjr. apply list_elem_of_fmap in Hjr as (c & -> & Hc). apply Hn1 in Hj as [Hj _].
        apply Hj. apply Hres in Hc as [Hc|[_ ->]]; [by apply Hrs|done].
      * apply NoDup_app in H4 as (_ & _ & H4). destruct (fle dist radius); [|done].
        rewrite fmap_app. apply NoDup_app. split_and!; [done| |apply NoDup_singleton].
        intros j Hj ->%list_elem_of_singleton. by apply HiR.
  - intros j m k Hj HQ Hm Hdm Hk. apply not_elem_of_app in HQ as [HQ HQn].
    apply elem_of_union in Hj as [Hj%elem_of_list_to_set|Hj]; [done|].
    destruct (decide (j = i)) as [->|Hne].
    + rewrite Hi in Hm. injection Hm as <-. apply elem_of_union. rewrite elem_of_list_to_set.
      destruct (Hn2 k Hk); auto.
    + apply elem_of_union_r. apply (H5 j m k); try done. by apply not_elem_of_cons.
  - intros c. rewrite Hres, H6, not_elem_of_app, not_elem_of_cons. split.
    + intros [(Hc & [Hne HQ] & Hw)|[Hf ->]]; cbn [cID].
      * split_and!; [set_solver|done|exact (Hfresh _ Hc)|done].
      * split_and!; [set_solver|done|exact (Hfresh _ HiV)|]. split; [by exists n|done].
    + intros (Hc & [HQ Hn] & Hw). apply elem_of_union in Hc as [Hc%elem_of_list_to_set|Hc]; [done|].
      destruct (decide (cID c = i)) as [E|Hne]; [right|left; split_and!; done].
      destruct c as [j d]. cbn [cID] in *. subst j. destruct Hw as (_ & Hw & Hf). cbn [cDistance cID] in *.
      subst d. done.
Qed.

Lemma range_loop_spec fuel g q radius V Q rs :
  wf g → g_nodes g ≠ [] → bfs g q radius V Q rs → waiting g V Q < Z.of_nat fuel →
  ∃ out V', range_loop fuel g q radius 0 V Q rs = Ok out ∧ bfs g q radius V' [] out.
Proof.
  intros Hwf Hne. revert V Q rs. induction fuel as [|fuel IH]; intros V Q rs Hb Hw.
  { pose proof (visited_size g V Hwf Hne (bfs_met _ _ _ _ _ _ Hb)).
    pose proof (len_nonneg Q). unfold waiting in Hw. lia. }
  cbn [range_loop]. destruct Q as [|i Q]; [by exists rs, V|]. cbn [Z.leb negb orb].
  assert (Hi : (i < length (g_nodes g))%nat).
  { apply met_valid; [done..|]. apply (bfs_met _ _ _ _ _ _ Hb), (bfs_queue _ _ _ _ _ _ Hb). by left. }
  destruct (lookup_lt_is_Some_2 _ _ Hi) as [n Hn]. unfold node_at. rewrite Hn. cbn [mbind result_bind].
  unfold waiting, len in Hw. cbn [length] in Hw. destruct (n_deleted n) eqn:Hd.
  - apply IH; [by eapply bfs_deleted|]. unfold waiting, len. lia.
  - destruct (enqueue_spec (n_Neighbors n) V Q) as (new & -> & Hnd & Hn1 & Hn2).
    apply IH; [by apply (bfs_live g q radius V i Q rs n new)|].
    unfold waiting, len. rewrite length_app, size_union by (set_unfold; naive_solver).
    rewrite size_list_to_set by done. lia.
Qed.

(** A range search without a limit returns the live nodes within the radius that
    it can reach over live nodes, each once and with its distance. *)
Theorem vamana_range_exact g q radius :
  wf g → g_nodes g ≠ [] →
  ∃ rs, RangeSearch g q radius 0 = Ok rs ∧ NoDup (cID <$> rs) ∧
    ∀ c, c ∈ rs ↔ met g (cID c) ∧ within g q radius c.
Proof.
  intros Hwf Hne. pose proof (wf_entry _ Hwf Hne) as He.
  destruct (range_loop_spec (S (length (g_nodes g))) g q radius {[g_entryNode g]} [g_entryNode g] [])
    as (rs & V & E & [H1 H2 H3 H4 H5 H6]); [done..| | |].
  - constructor; try set_solver.
    + intros i ->%elem_of_singleton. constructor.
    + apply NoDup_singleton.
  - unfold waiting. rewrite size_singleton. unfold len. simpl. lia.
  - assert (Hmet : ∀ i, met g i → i ∈ V).
    { induction 1 as [|i n j _ IH Hi Hd Hj]; [done|]. apply (H5 i n j); try done. apply not_elem_of_nil. }
    exists (sortCandidates rs). unfold RangeSearch. rewrite E. destruct (g_nodes g); [done|].
    split_and!; [done|by rewrite sortCandidates_perm|]. intros c. rewrite sortCandidates_perm, H6.
    split; [naive_solver|]. intros [Hc Hw]. split_and!; [by apply Hmet|apply not_elem_of_nil|done..].
Qed.

End search.

(** ** Examples *)
#[local] Instance demo_sorter : Sorter := insertion_sorter.
#[local] Instance demo_order : MapOrder nat := listed_order nat.

Definition found (r : result diskannError (list Candidate)) : option (list nat) :=
  match r with Ok cs => Some (cID <$> cs) | _ => None end.

(** With one neighbour per node the third point of a line is the neighbour of
    none, and no search finds it. *)
Example third_point_lost :
  let g := demo_graph 1 [("a", 0); ("b", 1); ("c", 3)] in
  n_Neighbors <$> g_nodes g = [[1%nat]; [0%nat]; [1%nat]] ∧
  found (SearchWithEf g [f32_of_Z 3] 3 100) = Some [1%nat; 0%nat].
Proof. vm_compute. done. Qed.

(** A filtered search for one result stops after the first two nodes, where a plain
    search goes on to the nearest one. *)
Example filtered_search_stops_early :
  let g := demo_graph 64 [("a", 0); ("b", 1); ("c", 2); ("d", 3)] in
  found (SearchWithEf g [f32_of_Z 3] 1 100) = Some [3%nat] ∧
  found (SearchWithFilter g [f32_of_Z 3] (mkSearchParams 1 100 None)) = Some [1%nat].
Proof. vm_compute. done. Qed.

(** A deleted entry point is still found, though [Get] does not know it. *)
Example deleted_entry_still_found :
  let g := (Delete "a" (demo_graph 64 [("a", 0); ("b", 1)])).2 in
  found (SearchWithEf g [f32_of_Z 0] 1 100) = Some [0%nat] ∧ Get g "a" = Err ErrPointNotFound.
Proof. vm_compute. done. Qed.

(** Two deletions of the same point count twice. *)
Example repeated_deletion_counts :
  Size (Delete "a" (Delete "a" (demo_graph 64 [("a", 0); ("b", 1)])).2).2 = 0.
Proof. vm_compute. done. Qed.
