(* ===== verification/VamanaDisk.v ===== *)
(** * pkg/index/diskann/storage.go: the graph on disk

    A file is the list of its bytes; calls of the operating system succeed unless
    the file is closed or, for a read, too short. Sizes and offsets are taken to
    fit an [int64]. The header of an existing file is not looked at, as in the
    source. *)
From stdpp Require Import base list numbers strings.
From Stdlib Require Import Strings.Byte ZArith Lia Floats.SpecFloat.
From S2P Require Import Prelude WalCodec Float32 Heap Hnsw Distance.

(** ** float32 to uint32

    The conversion drops the fraction; of a value that does not fit, the language
    leaves the result to the implementation. *)
Definition truncated (x : f32) : option Z :=
  match x with
  | S754_zero _ => Some 0%Z
  | S754_finite s m e =>
      let z := if (0 <=? e)%Z then (Zpos m * 2 ^ e)%Z else (Zpos m / 2 ^ (- e))%Z in
      Some (cond_Zopp s z)
  | _ => None
  end.

Class Uint32Conversion := {
  u32_of_f32 : f32 → Z;
  u32_of_f32_range x : (0 ≤ u32_of_f32 x < 2 ^ 32)%Z;
  u32_of_f32_fits x z : truncated x = Some z → (0 ≤ z < 2 ^ 32)%Z → u32_of_f32 x = z
}.

(** ** Files *)
Inductive storageError := ErrInvalidConfig | ErrTruncate | ErrClosed | EOF.

#[local] Abbreviation R := (result storageError).

(** [bs] over the bytes from [k] on *)
Definition patch (data : list byte) (k : nat) (bs : list byte) : list byte :=
  take k data ++ bs ++ drop (k + length bs) data.

(** [file.WriteAt(bs, off)]: a gap is filled with zeros. *)
Definition write_at (file : list byte) (off : nat) (bs : list byte) : list byte :=
  patch (file ++ replicate (off - length file) x00) off bs.

(** [file.ReadAt] of [n] bytes *)
Definition read_at (file : list byte) (off n : nat) : R (list byte) :=
  if decide (off + n ≤ length file) then Ok (take n (drop off file)) else Err EOF.

(** [binary.LittleEndian.PutUint32(data[k:], z)] and [Uint32(data[k:])] *)
Definition put_u32 (data : list byte) (k : nat) (z : Z) : R (list byte) :=
  if decide (k + 4 ≤ length data) then Ok (patch data k (PutUint32 z)) else Panic.
Definition get_u32 (data : list byte) (k : nat) : R Z :=
  if decide (k + 4 ≤ length data) then Ok (le_get (take 4 (drop k data))) else Panic.

(** The loops over the elements of a vector and over neighbours *)
Fixpoint put_words (data : list byte) (k : nat) (ws : list Z) : R (list byte) :=
  match ws with
  | [] => Ok data
  | w :: ws => data ← put_u32 data k w; put_words data (k + 4) ws
  end.
Fixpoint get_words (data : list byte) (k n : nat) : R (list Z) :=
  match n with
  | O => Ok []
  | S n => w ← get_u32 data k; ws ← get_words data (k + 4) n; Ok (w :: ws)
  end.

(** ** GraphStorage *)
Record StorageConfig := mkStorageConfig { sc_Dimension : Z; sc_MaxDegree : Z; sc_Capacity : Z }.

Record GraphStorage := mkGraphStorage {
  gs_file : list byte;
  gs_open : bool;
  gs_dimension : nat;
  gs_maxDegree : nat
}.

Definition headerSize : nat := 64.
Definition magicNumber : Z := 0x44414E4E.
Definition storageVersion : Z := 1.

Section storage.
Context {conv : Uint32Conversion}.

(** The offset of the neighbour count in a node, and the size of a node *)
Definition neighborsOff (dimension : nat) : nat := 4 + dimension * 4.
Definition nodeSize (dimension maxDegree : nat) : nat := 4 + dimension * 4 + maxDegree * 4 + 4.

Definition header (dimension maxDegree : nat) : list byte :=
  PutUint32 magicNumber ++ PutUint32 storageVersion ++ PutUint32 (u32 (Z.of_nat dimension)) ++
  PutUint32 (u32 (Z.of_nat maxDegree)) ++ PutUint64 0 ++ PutUint32 0 ++ replicate 36 x00.

(** [existing] is the file before: empty when there is none. *)
Definition OpenStorage (existing : list byte) (cfg : StorageConfig) : R GraphStorage :=
  if (sc_Dimension cfg <=? 0)%Z || (sc_MaxDegree cfg <=? 0)%Z then Err ErrInvalidConfig else
  let dimension := Z.to_nat (sc_Dimension cfg) in
  let maxDegree := Z.to_nat (sc_MaxDegree cfg) in
  let totalSize := (Z.of_nat headerSize + Z.of_nat (nodeSize dimension maxDegree) * sc_Capacity cfg)%Z in
  match existing with
  | [] =>
      if (totalSize <? 0)%Z then Err ErrTruncate
      else Ok (mkGraphStorage
        (write_at (replicate (Z.to_nat totalSize) x00) 0 (header dimension maxDegree))
        true dimension maxDegree)
  | _ => Ok (mkGraphStorage existing true dimension maxDegree)
  end.

#[local] Abbreviation D := (M GraphStorage storageError).

Definition set_file (file : list byte) (gs : GraphStorage) : GraphStorage :=
  mkGraphStorage file (gs_open gs) (gs_dimension gs) (gs_maxDegree gs).

Definition Close : D unit :=
  gs ← get;
  if gs_open gs
  then put (mkGraphStorage (gs_file gs) false (gs_dimension gs) (gs_maxDegree gs))
  else throw ErrClosed.

Definition WriteAt (bs : list byte) (off : nat) : D unit :=
  gs ← get;
  if gs_open gs then put (set_file (write_at (gs_file gs) off bs) gs) else throw ErrClosed.

Definition ReadAt (gs : GraphStorage) (off n : nat) : R (list byte) :=
  if gs_open gs then read_at (gs_file gs) off n else Err ErrClosed.

Definition node_offset (gs : GraphStorage) (nodeID : nat) : nat :=
  headerSize + nodeID * nodeSize (gs_dimension gs) (gs_maxDegree gs).

(** The record of a node *)
Definition node_data (gs : GraphStorage) (nodeID : nat) (vector : vector) (neighbors : list nat) :
    R (list byte) :=
  let data := replicate (nodeSize (gs_dimension gs) (gs_maxDegree gs)) x00 in
  let nOffset := neighborsOff (gs_dimension gs) in
  data ← put_u32 data 0 (Z.of_nat nodeID);
  data ← put_words data 4 (u32_of_f32 <$> vector);
  data ← put_u32 data nOffset (u32 (len neighbors));
  put_words data (nOffset + 4) (Z.of_nat <$> neighbors).

Definition WriteNode (nodeID : nat) (vector : vector) (neighbors : list nat) : D unit :=
  gs ← get;
  data ← lift (node_data gs nodeID vector neighbors);
  WriteAt data (node_offset gs nodeID).

Definition ReadNode (gs : GraphStorage) (nodeID : nat) : R (list f32 * list nat) :=
  data ← ReadAt gs (node_offset gs nodeID) (nodeSize (gs_dimension gs) (gs_maxDegree gs));
  vec ← get_words data 4 (gs_dimension gs);
  let nOffset := neighborsOff (gs_dimension gs) in
  neighborCount ← get_u32 data nOffset;
  neighbors ← get_words data (nOffset + 4) (Z.to_nat neighborCount);
  Ok (f32_of_Z <$> (vec : list Z), Z.to_nat <$> (neighbors : list Z)).

Definition GetNodeCount (gs : GraphStorage) : Z :=
  match ReadAt gs 16 8 with Ok data => le_get data | _ => 0%Z end.
Definition SetNodeCount (count : Z) : D unit := WriteAt (PutUint64 count) 16.
Definition GetEntryPoint (gs : GraphStorage) : Z :=
  match ReadAt gs 24 4 with Ok data => le_get data | _ => 0%Z end.
Definition SetEntryPoint (nodeID : nat) : D unit := WriteAt (PutUint32 (Z.of_nat nodeID)) 24.

(** ** Patching *)
Lemma length_write_at file off bs :
  length (write_at file off bs) = Nat.max (length file) (off + length bs).
Proof.
  unfold write_at, patch. rewrite !length_app, length_take, length_drop, length_app, length_replicate. lia.
Qed.

Lemma patch_middle (a b bs c : list byte) k :
  length a = k → length b = length bs → patch (a ++ b ++ c) k bs = a ++ bs ++ c.
Proof.
  intros <- Hb. unfold patch. rewrite take_app_length, (app_assoc a b c).
  by rewrite <- Hb, <- length_app, drop_app_length.
Qed.

(** What was written is read back. *)
Lemma read_written file off bs : read_at (write_at file off bs) off (length bs) = Ok bs.
Proof.
  unfold read_at. rewrite decide_True by (rewrite length_write_at; lia). f_equal.
  unfold write_at, patch. rewrite drop_app_le, drop_ge, app_nil_l; rewrite ?length_take, ?length_app, ?length_replicate; try lia.
  by rewrite take_app_length.
Qed.

(** A read away from what was written *)
Lemma read_elsewhere file off bs off' n data :
  off' + n ≤ off ∨ off + length bs ≤ off' → read_at file off' n = Ok data →
  read_at (write_at file off bs) off' n = Ok data.
Proof.
  intros Hd. unfold read_at. case_decide as Hl; [|done]. intros [= <-].
  rewrite decide_True by (rewrite length_write_at; lia). f_equal.
  apply list_eq. intros i. destruct (decide (i < n)); [|by rewrite !lookup_take_ge by lia].
  rewrite !lookup_take, !lookup_drop by done. rewrite !decide_True by done.
  unfold write_at, patch. destruct Hd.
  - rewrite lookup_app_l by (rewrite length_take, length_app, length_replicate; lia).
    rewrite lookup_take, decide_True by lia. by rewrite lookup_app_l by lia.
  - rewrite lookup_app_r by (rewrite length_take, length_app, length_replicate; lia).
    rewrite lookup_app_r by (rewrite length_take, length_app, length_replicate; lia).
    rewrite lookup_drop, length_take, length_app, length_replicate.
    rewrite lookup_app_l by lia. f_equal. lia.
Qed.
(** ** The record of a node *)
Definition words (ws : list Z) : list byte := concat (PutUint32 <$> ws).

Lemma length_PutUint32 z : length (PutUint32 z) = 4.
Proof. apply length_le_put. Qed.

Lemma length_words ws : length (words ws) = length ws * 4.
Proof.
  unfold words. induction ws as [|w ws IH]; [done|].
  rewrite fmap_cons. cbn [concat]. rewrite length_app, length_PutUint32, IH. simpl. lia.
Qed.

(** The first zeros after [a] are replaced. *)
Lemma patch_zeros a n bs :
  length bs ≤ n →
  patch (a ++ replicate n x00) (length a) bs = a ++ bs ++ replicate (n - length bs) x00.
Proof.
  intros Hn. assert (replicate n x00 = replicate (length bs) x00 ++ replicate (n - length bs) x00) as ->.
  { rewrite <- replicate_add. f_equal. lia. }
  apply patch_middle; [done|apply length_replicate].
Qed.

Lemma put_u32_zeros a n z :
  4 ≤ n →
  put_u32 (a ++ replicate n x00) (length a) z = Ok (a ++ PutUint32 z ++ replicate (n - 4) x00).
Proof.
  intros Hn. unfold put_u32. rewrite decide_True by (rewrite length_app, length_replicate; lia).
  by rewrite patch_zeros, length_PutUint32 by (rewrite length_PutUint32; lia).
Qed.

Lemma put_words_zeros a n ws :
  length ws * 4 ≤ n →
  put_words (a ++ replicate n x00) (length a) ws = Ok (a ++ words ws ++ replicate (n - length ws * 4) x00).
Proof.
  revert a n. induction ws as [|w ws IH]; intros a n Hn; cbn [put_words length].
  { by rewrite Nat.sub_0_r. }
  cbn [length] in Hn. rewrite put_u32_zeros by lia. cbn [mbind result_bind].
  rewrite app_assoc. assert (length a + 4 = length (a ++ PutUint32 w)) as ->
    by (by rewrite length_app, length_PutUint32).
  rewrite IH by lia. f_equal. unfold words. rewrite fmap_cons. cbn [concat].
  rewrite <- !app_assoc. do 4 f_equal. lia.
Qed.

(** What a node holds on disk: its number, its vector as words, the number of its
    neighbours, the neighbours, and zeros *)
Definition record (gs : GraphStorage) (nodeID : nat) (v : vector) (ns : list nat) : list byte :=
  PutUint32 (Z.of_nat nodeID) ++ words (u32_of_f32 <$> v) ++ PutUint32 (u32 (len ns)) ++
  words (Z.of_nat <$> ns) ++ replicate ((gs_maxDegree gs - length ns) * 4) x00.

Lemma node_data_record gs nodeID v ns :
  length v = gs_dimension gs → length ns ≤ gs_maxDegree gs →
  node_data gs nodeID v ns = Ok (record gs nodeID v ns).
Proof.
  intros Hv Hn. unfold node_data, record, neighborsOff, nodeSize. rewrite <- Hv.
  set (size := 4 + length v * 4 + gs_maxDegree gs * 4 + 4).
  assert (Hs : size = 4 + length v * 4 + gs_maxDegree gs * 4 + 4) by done. clearbody size.
  pose proof (put_u32_zeros [] size (Z.of_nat nodeID)) as E. rewrite !app_nil_l in E. cbn [length] in E.
  rewrite E by lia. cbn [mbind result_bind]. clear E.
  pose proof (put_words_zeros (PutUint32 (Z.of_nat nodeID)) (size - 4) (u32_of_f32 <$> v)) as E.
  rewrite length_PutUint32, length_fmap in E. rewrite E by lia.
  cbn [mbind result_bind]. clear E. rewrite app_assoc.
  set (front := PutUint32 (Z.of_nat nodeID) ++ words (u32_of_f32 <$> v)).
  assert (Hf : length front = 4 + length v * 4).
  { unfold front. by rewrite length_app, length_PutUint32, length_words, length_fmap. }
  rewrite <- Hf, put_u32_zeros by lia. cbn [mbind result_bind]. rewrite app_assoc.
  assert (length front + 4 = length (front ++ PutUint32 (u32 (len ns)))) as ->
    by (by rewrite length_app, length_PutUint32).
  rewrite put_words_zeros by (rewrite length_fmap; lia).
  f_equal. unfold front. rewrite <- !app_assoc, length_fmap. do 5 f_equal. lia.
Qed.

Lemma length_record gs nodeID v ns :
  length v = gs_dimension gs → length ns ≤ gs_maxDegree gs →
  length (record gs nodeID v ns) = nodeSize (gs_dimension gs) (gs_maxDegree gs).
Proof.
  intros Hv Hn. unfold record, nodeSize.
  rewrite !length_app, !length_PutUint32, !length_words, !length_fmap, length_replicate. lia.
Qed.

(** ** Reading it back *)
Lemma get_u32_at a z c :
  (0 ≤ z < 2 ^ 32)%Z → get_u32 (a ++ PutUint32 z ++ c) (length a) = Ok z.
Proof.
  intros Hz. unfold get_u32. rewrite decide_True by (rewrite !length_app, length_PutUint32; lia).
  rewrite drop_app_length. rewrite <- (length_PutUint32 z), take_app_length.
  by rewrite le_get_put4.
Qed.

Lemma get_words_at a ws c :
  Forall (λ z, 0 ≤ z < 2 ^ 32)%Z ws → get_words (a ++ words ws ++ c) (length a) (length ws) = Ok ws.
Proof.
  intros HF. revert a. induction HF as [|w ws Hw HF IH]; intros a; [done|]. cbn [get_words length].
  unfold words. rewrite fmap_cons. cbn [concat]. fold (words ws). rewrite <- app_assoc.
  rewrite get_u32_at by done. cbn [mbind result_bind]. rewrite app_assoc.
  assert (length a + 4 = length (a ++ PutUint32 w)) as -> by (by rewrite length_app, length_PutUint32).
  by rewrite IH.
Qed.

Lemma fmap_to_nat (ns : list nat) : Z.to_nat <$> (Z.of_nat <$> ns) = ns.
Proof.
  rewrite <- list_fmap_compose. induction ns as [|x ns IH]; [done|]. rewrite fmap_cons, IH.
  unfold compose. by rewrite Nat2Z.id.
Qed.

(** ** WriteNode and ReadNode *)
Definition fits (gs : GraphStorage) (v : vector) (ns : list nat) : Prop :=
  length v = gs_dimension gs ∧ length ns ≤ gs_maxDegree gs ∧
  (Z.of_nat (gs_maxDegree gs) < 2 ^ 32)%Z ∧ Forall (λ n, Z.of_nat n < 2 ^ 32)%Z ns.

Lemma WriteNode_run gs nodeID v ns :
  gs_open gs = true → fits gs v ns →
  WriteNode nodeID v ns gs =
  (Ok tt, set_file (write_at (gs_file gs) (node_offset gs nodeID) (record gs nodeID v ns)) gs).
Proof.
  intros Ho (Hv & Hn & _). unfold WriteNode, WriteAt. unfold_M.
  rewrite node_data_record by done. by rewrite Ho.
Qed.

(** A written node reads back with its neighbours, and with every coordinate
    converted to a [uint32] and back. *)
Theorem node_read_back gs nodeID v ns :
  gs_open gs = true → fits gs v ns →
  ∃ gs', WriteNode nodeID v ns gs = (Ok tt, gs') ∧
    ReadNode gs' nodeID = Ok ((λ x, f32_of_Z (u32_of_f32 x)) <$> v, ns).
Proof.
  intros Ho Hfits. eexists. split; [by apply WriteNode_run|].
  destruct Hfits as (Hv & Hn & HR & HF). unfold ReadNode, ReadAt.
  cbn [set_file gs_open gs_file gs_dimension gs_maxDegree]. rewrite Ho.
  change (node_offset (set_file _ gs) nodeID) with (node_offset gs nodeID).
  rewrite <- (length_record gs nodeID v ns) by done. rewrite read_written. cbn [mbind result_bind].
  unfold record. set (ws := u32_of_f32 <$> v).
  assert (Hws : length ws = gs_dimension gs) by (unfold ws; by rewrite length_fmap).
  assert (Hu : u32 (len ns) = len ns) by (apply Z.mod_small; unfold len; lia).
  pose proof (get_words_at (PutUint32 (Z.of_nat nodeID)) ws
    (PutUint32 (u32 (len ns)) ++ words (Z.of_nat <$> ns) ++ replicate ((gs_maxDegree gs - length ns) * 4) x00))
    as E. rewrite length_PutUint32, Hws in E. rewrite E; clear E.
  2: { unfold ws. apply Forall_fmap, Forall_true. intros x. apply u32_of_f32_range. }
  cbn [mbind result_bind]. rewrite app_assoc.
  set (front := PutUint32 (Z.of_nat nodeID) ++ words ws).
  assert (Hf : neighborsOff (gs_dimension gs) = length front).
  { unfold front, neighborsOff. by rewrite length_app, length_PutUint32, length_words, Hws. }
  rewrite Hf, Hu, get_u32_at by (unfold len; lia). cbn [mbind result_bind].
  rewrite app_assoc. assert (length front + 4 = length (front ++ PutUint32 (len ns))) as ->
    by (by rewrite length_app, length_PutUint32).
  assert (Z.to_nat (len ns) = length (Z.of_nat <$> ns)) as -> by (rewrite length_fmap; unfold len; lia).
  rewrite get_words_at. 2: { apply Forall_fmap. eapply Forall_impl; [exact HF|]. unfold compose. lia. }
  cbn [mbind result_bind]. rewrite fmap_to_nat. unfold ws. by rewrite <- list_fmap_compose.
Qed.

(** The other nodes keep what they hold, and so do the counters of the header. *)
Theorem other_nodes_kept gs gs' i j v ns r :
  gs_open gs = true → fits gs v ns → WriteNode i v ns gs = (Ok tt, gs') → j ≠ i →
  ReadNode gs j = Ok r → ReadNode gs' j = Ok r.
Proof.
  intros Ho Hfits E Hne. rewrite WriteNode_run in E by done. injection E as <-.
  destruct Hfits as (Hv & Hn & _). unfold ReadNode, ReadAt.
  cbn [set_file gs_open gs_file gs_dimension gs_maxDegree]. rewrite Ho.
  change (node_offset (set_file _ gs) j) with (node_offset gs j).
  destruct (read_at (gs_file gs) (node_offset gs j) _) as [data|e|] eqn:Er; [|done..].
  rewrite (read_elsewhere _ _ _ _ _ data); [done| |done]. rewrite length_record by done. unfold node_offset.
  set (size := nodeSize (gs_dimension gs) (gs_maxDegree gs)).
  destruct (decide (j < i)); [left|right]; nia.
Qed.

(** The node count of the header, apart from the nodes *)
Theorem node_count_read_back gs count :
  gs_open gs = true → (0 ≤ count < 2 ^ 64)%Z →
  ∃ gs', SetNodeCount count gs = (Ok tt, gs') ∧ GetNodeCount gs' = count ∧
    ∀ i r, ReadNode gs i = Ok r → ReadNode gs' i = Ok r.
Proof.
  intros Ho Hc. unfold SetNodeCount, WriteAt, get, mbind, M_bind, put. rewrite Ho.
  eexists. split; [reflexivity|]. split.
  - unfold GetNodeCount, ReadAt. cbn [set_file gs_open gs_file]. rewrite Ho.
    replace 8 with (length (PutUint64 count)) by apply length_le_put.
    rewrite read_written. by apply le_get_put8.
  - intros i r. unfold ReadNode, ReadAt. cbn [set_file gs_open gs_file gs_dimension gs_maxDegree].
    rewrite Ho. change (node_offset (set_file _ gs) i) with (node_offset gs i).
    destruct (read_at (gs_file gs) (node_offset gs i) _) as [data|e|] eqn:Er; [|done..].
    rewrite (read_elsewhere _ _ _ _ _ data); [done| |done]. unfold node_offset, headerSize, PutUint64. rewrite length_le_put. lia.
Qed.

End storage.

(** ** Example: the fraction of a coordinate is lost *)
#[local] Instance demo_conversion : Uint32Conversion.
Proof.
  refine {| u32_of_f32 x := match truncated x with Some z => u32 z | None => 0%Z end |}.
  - intros x. destruct (truncated x); [apply Z.mod_pos_bound; lia|lia].
  - intros x z -> Hz. by apply Z.mod_small.
Defined.

Example fraction_lost :
  match OpenStorage [] (mkStorageConfig 2 1 2) with
  | Ok gs => ReadNode (WriteNode 1 [f32_div (f32_of_Z 3) (f32_of_Z 2); f32_of_Z 7] [0] gs).2 1 =
             Ok ([f32_one; f32_of_Z 7], [0])
  | _ => False
  end.
Proof. vm_compute. done. Qed.
